(* ===== verification/_CoqProject ===== *)
-Q . S2P
Prelude.v
Raftpb.v
Coded.v
Allocator.v
WalCodec.v
PageWriter.v
EntryCache.v
EntryStorage.v
LogFiles.v
WalReplay.v
LogManager.v
Wal.v
WalStore.v
WalRestart.v
Streams.v
Session.v
ExpiredManager.v
LruManager.v
NoOpManager.v
Cluster.v
Apply.v
Exactly.v
Replicas.v
Membership.v
ApplyExamples.v
SwapQueue.v
Queue.v
SnapshotFs.v
SnapshotIo.v
SnapshotTransfer.v
SnapshotInstall.v
SnapshotVerified.v
SnapshotWriter.v
SnapshotSave.v
SnapshotRetention.v
SnapshotExamples.v
LinearRead.v
Ready.v
ReadyExamples.v
Scheduler.v
LsmtKeys.v
LsmtWal.v
LsmtLog.v
LsmtRuns.v
LsmtGroups.v
LsmtExamples.v
Frames.v
ConnPool.v
TcpServer.v
TcpClient.v
TcpTransfer.v
TcpExamples.v
PeerManager.v
Limiters.v
PeerQueue.v
LeaderTransfer.v
StoreMessages.v
ReplicaRead.v
MultiRaftPeer.v
NetUtil.v
PeersConfig.v
Bootstrap.v
Standalone.v
Restart.v
RaftStorage.v
StateMachineLoop.v
SnapshotPoint.v
SnapshotRace.v
BootExamples.v
LoopExamples.v
GroupSnapshot.v
Proposals.v
StoreRequests.v
Answers.v
AnswersExamples.v
