(* ===== verification/Prelude.v ===== *)
(** * Babuza: a verification of its log, snapshots, sessions, membership, node and transport

    Babuza is a framework for replicated state machines on the raft library of etcd.  The
    library decides what is committed; Babuza keeps the log and the snapshots on disk, applies
    committed entries to a state machine, remembers the sessions of clients, knows the members
    of the cluster, and carries messages and snapshots between nodes.  This development models
    these parts as functions on explicit state and proves what they promise each other.
    Paths below are relative to [src/].

    ** Conventions

    Machine integers are [Z] with [u64], [u32] and [i64] where the code can wrap around.  A
    method of a Go object is a [meth S A]: a function from the state to a panic, or to the new
    state with a value or an error; [go_scope] has its notation, in which [x <- m ;; k] returns
    early on an error.  Loops are structural where the code ranges over a slice; the others
    take fuel, named at the definition, with a theorem that the fuel the callers give is
    enough (a parser gets one unit for each byte it has, since each round consumes at least
    one record header; the writer and the readers likewise).  Goroutines are interleaved:
    a component that is shared has one transition for each critical section, channel operation
    or atomic operation, and a theorem quantifies over all runs.  Maps are [gmap]; where the
    order in which Go visits a map can be observed, it is an argument ([MapRange], [Streams.v]).

    Code outside the repository is a parameter: the encodings generated from the message
    definitions are instances of [Message], known by their round trip; the etcd node is known
    by the configuration it keeps ([RaftNode], [RaftConf]), the reads it answers and the
    batches it hands out; pebble by atomic batches and ordered iteration ([PebbleLaws]); snappy
    by its round trip; the operating system by files whose writes become durable with a sync
    and may fail or be torn.  The state machine of the application is any [StateMachine].
    Each theorem with such a parameter is applied to a concrete instance in one of the files
    named [...Examples.v] or in a module [...Examples].

    ** The write-ahead log ([pkg/wal])

    - [Allocator.v]: the pool of byte slices, [pkg/utility/allocator].
    - [WalCodec.v]: the records of a log file, [babuzawal/codec].
    - [PageWriter.v]: the page-aligned writer, [babuzawal/logfile/page/writer.go].
    - [EntryCache.v], [EntryStorage.v]: the storage raft reads entries from, [walbase/cache.go]
      and [walbase/storage.go].
    - [LogFiles.v], [LogManager.v]: names, choice, purge and reading of log files,
      [babuzawal/iwal], [babuzawal/utility], [babuzawal/logfile].
    - [WalReplay.v]: parsing and replaying files, [babuzawal/entrycollection] and
      [babuzawal/player].
    - [Wal.v], [WalStore.v], [WalRestart.v]: saving, cycling, opening and replaying,
      [babuzawal/wal.go] and [babuzawal/common.go].
    - [LsmtKeys.v], [LsmtWal.v], [LsmtLog.v], [LsmtRuns.v], [LsmtGroups.v], [LsmtExamples.v]:
      the log in a key-value store, for one group and for many, [lsmtwal/manager.go],
      [keyprefix_cache.go], [pebble_wal.go], [pebble_manager.go] and
      [multiraft_pebble_manager.go].

    The theorems: the writer is an append-only stream, the cache a list, the storage a log of
    entries; after any saves the files hold exactly the saved log, a synced save survives a
    crash, and the storage serves what a replay would find; a restart, also from a file torn
    by a crash, gives back the log and a storage that serves it.  The log in the key-value
    store refines a map of entries and snapshots, and the logs of different groups do not
    touch each other.  Where the code falls short there is a theorem that says so: a vote that
    is not synced, discarded entries that come back from the key-value store, a purged log that
    is taken for a new one.

    ** Applying entries ([pkg/session], [pkg/cluster], [raft])

    - [Streams.v]: readers, writers and map iteration, [pkg/utility/fileutil].
    - [Session.v], [ExpiredManager.v], [LruManager.v], [NoOpManager.v]: sessions and their
      managers, which are instances of the class [SessionManager].
    - [Cluster.v]: the members, [pkg/cluster/cluster.go].
    - [Apply.v], [Exactly.v], [Replicas.v], [Membership.v]: the apply loop and the loop of
      configuration changes, [raft/applied_facade.go] and [raft/raft_apply.go].
    - [Proposals.v], [Answers.v]: what a caller asks for and how it gets its answer,
      [raft/raft_api.go], [raft/raft_util.go], [raft/encode_proposal.go], [raft/result.go] and
      [pkg/replier/result.go].

    The theorems: a command is executed at most once for each session and sequence number, in
    every interleaving of the two loops; replicas that apply the same log agree when their
    sessions do not look at the clock; the members known to the cluster and those counted by
    raft stay in agreement unless an update changes a role; a caller gets the answer to its own request.  A removed member never comes
    back, and the bounded session manager keeps exactly the sessions used last.

    ** The node ([raft])

    - [LinearRead.v]: linearizable reads, [raft/raft_linearizable_read.go],
      [pkg/idgenerator/replyId.go], [pkg/utility/syncutil/notifier.go], [pkg/replier/completion.go].
    - [Ready.v]: the ready loop, [raft/raft_ready.go].
    - [PeersConfig.v], [NetUtil.v]: the configured members, [raft/config.go] and
      [pkg/utility/netutil/netutil.go].
    - [Bootstrap.v], [Standalone.v], [Restart.v]: starting, restarting and recovering a node,
      [raft/bootstrap.go] and [raft/based_statemachine_Info.go].
    - [RaftStorage.v], [StateMachineLoop.v], [SnapshotPoint.v], [SnapshotRace.v]: the storage of
      a node and the goroutine that applies entries and takes snapshots,
      [raft/raft_storage.go], [raft/raft_apply.go] and [raft/snapshot_context.go].
    - [Queue.v], [SwapQueue.v]: the queues, [pkg/utility/queue].

    The theorems: a read sees everything committed before it was asked for, as long as raft does
    not answer a round that was given up with the buffer that all rounds share, which a leader
    does and which then breaks it; a follower saves
    before it acknowledges; a restarted node goes on as the node its snapshot was taken from,
    unless a configuration change fell between the steps of the snapshot, which splits the
    members from the configuration of raft; entries never run further ahead of the snapshots
    than configured, and snapshots that overtake each other end the node; a
    recovered node is the only voter of its cluster; a node joins only the cluster it was
    configured for; a peer lives as long as a member uses it; no element of a queue is lost, no
    waiter sleeps while there is an element for it.

    ** Snapshots ([pkg/snapshot], [pkg/transport/peer])

    - [SnapshotFs.v]: files, folders, checksums and metadata, [pkg/snapshot/fs].
    - [SnapshotIo.v], [SnapshotWriter.v]: writers, readers, validators and the owner of the
      installed snapshots, [pkg/snapshot/io] and [pkg/snapshot/snapshotor.go].
    - [SnapshotTransfer.v]: the sender and the receiver, [pkg/transport/peer/peer.go],
      [raft/raft_transport_processor.go] and [raft/raft_storage.go].
    - [SnapshotSave.v], [SnapshotInstall.v], [SnapshotVerified.v], [SnapshotRetention.v]: the
      theorems: what was written is read back, what was sent is installed, nothing else is ever
      installed, and the snapshot a node needs for a restart is never purged.

    ** The transport ([pkg/transport])

    - [Frames.v]: frames on a connection, [protocol/tcp/conn].
    - [ConnPool.v]: the pool of connections, [pkg/connpool].
    - [TcpServer.v], [TcpClient.v], [TcpTransfer.v], [TcpExamples.v]: the sessions of the server,
      the calls of the client, and snapshots through both, [protocol/tcp/raft_msg_server.go] and
      [protocol/tcp/raft_msg_client.go].
    - [PeerManager.v]: the peers of a transport, [peer_manager.go].
    - [Limiters.v]: the account of bytes under way and the interface of the breaker,
      [pkg/utility/limiter] and [pkg/utility/breaker].
    - [PeerQueue.v], [MultiRaftPeer.v]: the queue of messages in front of a connection and the
      goroutine that sends them, [peer/peer.go] and [peer/multiraft_peer.go].

    The theorems: the reader of frames accepts exactly what the writer produces; a session does to
    the node what its requests do, wherever the stream breaks off, and ends; no connection is
    lent twice; a snapshot over TCP has the effect of handing its messages over directly.
    Messages leave a peer in the order they were accepted, each of them at most once; no caller
    and no goroutine of a peer gets stuck; what was not sent is reported.  Where the code falls
    short: a failed write counts as sent, addresses of publications pile up, and an account
    filled by an abandoned queue refuses every message from then on.

    ** Many groups in one process ([raft/experimental])

    - [Scheduler.v]: the workers of many groups, [scheuler.go].
    - [StoreMessages.v]: messages between stores, with the heartbeats of all groups gathered for
      each address, [replica_raft_processor.go], [store_replica_evnet.go],
      [store_transport_processor.go] and [pkg/transport/multiraft_transport.go].
    - [StoreRequests.v]: calls of the store, from the request to the answer, [store_api.go] and
      [replica_raft_processor.go].
    - [ReplicaRead.v]: linearizable reads of one group, [replicat_raft_linearizable_read.go].
    - [GroupSnapshot.v]: a snapshot received by one group, [replica_raft_apply.go].
    - [LeaderTransfer.v]: the checker of leader transfers, [leader_transfer_checker.go].

    The theorems: a group is processed by one worker at a time and work that was asked for gets
    done; gathered heartbeats reach raft of their groups as they were; a proposal that was
    answered finds its answer; a read of a group is linearizable under the condition of that of a
    node, although its requests reach raft through a queue; a transfer is answered once.  Where the code falls short:
    heartbeats for another member number than the first are thrown away with all behind
    them; the other calls may ask for their answer after it was sent; a snapshot of one group
    cuts the connections of all others; a missed wake-up leaves a shard of the checker asleep.

    ** Not modelled

    HTTP and gRPC are input and output through their libraries, and so are the listener of the
    TCP server and the network with injected faults of the tests.  The logs over badger and over
    the log of etcd wrap those libraries in the way the one over pebble does.  The file systems
    for snapshots in memory and in an object store implement the interface of the durable
    one.  Of the store of many groups, the start and end of the store and of its groups, the
    loop of a worker over one group and its pools of objects are not modelled.  The
    rate limiter and the circuit breaker wrap third-party libraries and are any instance of
    their interfaces.  Metrics and logging have no influence on the state.  The
    readiness of a learner compares floating point numbers and is an argument. *)

From stdpp Require Export base gmap list list_numbers strings sorting.
From Stdlib Require Export ZArith Lia.
From coqutil Require Export Byte Word.LittleEndianList.

#[export] Set Default Goal Selector "!".
#[global] Open Scope Z_scope.

(** ** Errors, panics and the effects of a Go method *)

(** A Go [error] value.  Errors the code compares by identity (package-level
    variables such as [io.EOF]) are [Sentinel]s named after the variable; errors
    made on the spot by [errors.New] and [fmt.Errorf] are [Errorf]s carrying the
    format string. *)
Inductive error :=
| Sentinel (name : string)
| Errorf (format : string).

#[export] Instance error_eq_dec : EqDecision error.
Proof. solve_decision. Defined.

Definition io_EOF : error := Sentinel "io.EOF".
Definition io_ErrUnexpectedEOF : error := Sentinel "io.ErrUnexpectedEOF".

(** The value-or-error a fallible Go function returns. *)
Inductive result (A : Type) :=
| Ok (a : A)
| Err (e : error).
Arguments Ok {A} a.
Arguments Err {A} e.

(** A computation that returns or panics. *)
Inductive go (A : Type) :=
| Ret (a : A)
| Panic (msg : string).
Arguments Ret {A} a.
Arguments Panic {A} msg.

#[export] Instance go_ret : MRet go := fun A a => Ret a.
#[export] Instance go_bind : MBind go := fun A B k m =>
  match m with Ret a => k a | Panic s => Panic s end.

(** A Go method on a mutable receiver of type [S]: it may change the receiver,
    return a value or an error, or panic.  [bind] is the idiom
    [if err != nil { return err }]: an error ends the method and keeps the
    changes made so far. *)
Definition meth (S A : Type) : Type := S → go (S * result A).

Declare Scope go_scope.
Delimit Scope go_scope with go.

Module Meth.
Definition ret {S A} (a : A) : meth S A := fun s => Ret (s, Ok a).
Definition fail {S A} (e : error) : meth S A := fun s => Ret (s, Err e).
Definition panic {S A} (msg : string) : meth S A := fun s => Panic msg.
Definition get {S} : meth S S := fun s => Ret (s, Ok s).
Definition modify {S} (f : S → S) : meth S unit := fun s => Ret (f s, Ok tt).
Definition bind {S A B} (m : meth S A) (k : A → meth S B) : meth S B := fun s =>
  match m s with
  | Ret (s', Ok a) => k a s'
  | Ret (s', Err e) => Ret (s', Err e)
  | Panic p => Panic p
  end.
End Meth.

Notation "x <- m ;; k" := (Meth.bind m (fun x => k))
  (at level 100, m at next level, right associativity) : go_scope.
Notation "m ;; k" := (Meth.bind m (fun _ => k))
  (at level 100, right associativity) : go_scope.

(** The same idiom for functions without a receiver to change. *)
Definition try_ {A B} (m : go (result A)) (k : A → go (result B)) : go (result B) :=
  match m with
  | Ret (Ok a) => k a
  | Ret (Err e) => Ret (Err e)
  | Panic p => Panic p
  end.
Notation "x <-? m ;; k" := (try_ m (fun x => k))
  (at level 100, m at next level, right associativity) : go_scope.

(** ** Machine integers *)

(** [uint64], [uint32] and [int64] values are integers kept in range by these
    wrap-arounds. *)
Definition u64 (z : Z) : Z := z mod 2 ^ 64.
Definition u32 (z : Z) : Z := z mod 2 ^ 32.
Definition i64 (z : Z) : Z := (z + 2 ^ 63) mod 2 ^ 64 - 2 ^ 63.

Abbreviation is_u64 z := (0 <= z < 2 ^ 64).
Abbreviation is_u32 z := (0 <= z < 2 ^ 32).
Abbreviation is_i64 z := (- 2 ^ 63 <= z < 2 ^ 63).

Create HintDb go_arith.
Create Rewrite HintDb go_arith.

Lemma u64_range z : is_u64 (u64 z).
Proof. apply Z.mod_pos_bound. reflexivity. Qed.
Lemma u32_range z : is_u32 (u32 z).
Proof. apply Z.mod_pos_bound. reflexivity. Qed.
Lemma u64_small z : is_u64 z → u64 z = z.
Proof. apply Z.mod_small. Qed.
Lemma u32_small z : is_u32 z → u32 z = z.
Proof. apply Z.mod_small. Qed.
Lemma i64_small z : is_i64 z → i64 z = z.
Proof. intros. unfold i64. rewrite Z.mod_small by lia. lia. Qed.

(** Subtraction below zero wraps to the top of the range. *)
Lemma u64_sub_wrap a b : is_u64 a → is_u64 b → a < b → u64 (a - b) = a - b + 2 ^ 64.
Proof.
  intros. unfold u64. symmetry. apply Z.mod_unique_pos with (q := -1); lia.
Qed.

Lemma i64_u64 z : is_i64 z → i64 (u64 z) = z.
Proof.
  intros. unfold i64, u64. rewrite Zplus_mod_idemp_l, Z.mod_small by lia. lia.
Qed.

(** Packing a low field under a shifted high field. *)
Lemma lor_shiftl_add n a b :
  0 <= n → 0 <= b < 2 ^ n → Z.lor (Z.shiftl a n) b = a * 2 ^ n + b.
Proof.
  intros Hn Hb. rewrite <- Z.add_lor_land, <- (Z.shiftl_mul_pow2 a n) by done.
  assert (Z.land (Z.shiftl a n) b = 0) as ->; [|lia].
  apply Z.bits_inj'; intros i Hi. rewrite Z.land_spec, Z.bits_0.
  destruct (Z.ltb_spec i n).
  - by rewrite Z.shiftl_spec_low.
  - rewrite <- (Z.mod_small b (2 ^ n)), Z.mod_pow2_bits_high by lia. apply andb_false_r.
Qed.

#[export] Hint Resolve u64_range u32_range : go_arith.
#[export] Hint Rewrite u64_small u32_small i64_small using lia : go_arith.

Ltac wrap := autorewrite with go_arith.

(** Linear arithmetic with division and remainder by constants. *)
Ltac dlia := Z.to_euclidean_division_equations; lia.

(** ** Slices *)

(** [copy(dst[off:], src)]: writes as much of [src] as fits. *)
Definition go_copy {A} (dst : list A) (off : nat) (src : list A) : list A :=
  take off dst ++ take (length dst - off) src ++ drop (off + length src) dst.

(** [s[lo:hi]]. *)
Definition go_slice {A} (lo hi : nat) (l : list A) : list A := take (hi - lo) (drop lo l).

Section Slices.
Context {A : Type}.
Implicit Types l dst src : list A.

Lemma length_go_copy dst off src :
  (off <= length dst)%nat → length (go_copy dst off src) = length dst.
Proof.
  intros. unfold go_copy. rewrite !length_app, !length_take, length_drop. lia.
Qed.

Lemma go_copy_fits dst off src :
  (off + length src <= length dst)%nat →
  go_copy dst off src = take off dst ++ src ++ drop (off + length src) dst.
Proof. intros. unfold go_copy. by rewrite (take_ge src) by lia. Qed.

Lemma take_go_copy dst off src :
  (off + length src <= length dst)%nat →
  take (off + length src) (go_copy dst off src) = take off dst ++ src.
Proof.
  intros. rewrite go_copy_fits by done. rewrite (assoc_L (++)).
  apply take_app_length'. rewrite length_app, length_take. lia.
Qed.

(** Two successive copies to adjacent places are one copy of both. *)
Lemma take_go_copy_app dst off src n :
  (off + length src <= length dst)%nat → n = (off + length src)%nat →
  take n (go_copy dst off src) = take off dst ++ src.
Proof. intros ? ->. by apply take_go_copy. Qed.

Lemma go_slice_split a b c l : (a <= b <= c)%nat →
  go_slice a c l = go_slice a b l ++ go_slice b c l.
Proof.
  intros. unfold go_slice. replace (drop b l) with (drop (b - a) (drop a l)).
  - replace (c - a)%nat with ((b - a) + (c - b))%nat by lia. generalize (drop a l). intros k.
    by rewrite take_take_drop.
  - rewrite drop_drop. f_equal. lia.
Qed.

Lemma length_go_slice lo hi l :
  (lo <= hi <= length l)%nat → length (go_slice lo hi l) = (hi - lo)%nat.
Proof. intros. unfold go_slice. rewrite length_take, length_drop. lia. Qed.

Lemma take_drop_middle_app l1 l2 l3 :
  take (length l2) (drop (length l1) (l1 ++ l2 ++ l3)) = l2.
Proof. by rewrite drop_app_length, take_app_length. Qed.
End Slices.

(** ** Byte streams *)

#[export] Instance byte_eq_dec : EqDecision byte := Byte.byte_eq_dec.

(** [binary.LittleEndian.PutUint32/Uint32] and their 64-bit versions. *)
Definition put_u32 (v : Z) : list byte := le_split 4 v.
Definition get_u32 (b : list byte) : Z := le_combine b.
Definition put_u64 (v : Z) : list byte := le_split 8 v.
Definition get_u64 (b : list byte) : Z := le_combine b.

Lemma length_put_u32 v : length (put_u32 v) = 4%nat.
Proof. apply length_le_split. Qed.
Lemma length_put_u64 v : length (put_u64 v) = 8%nat.
Proof. apply length_le_split. Qed.
Lemma get_put_u32 v : is_u32 v → get_u32 (put_u32 v) = v.
Proof. intros. unfold get_u32, put_u32. rewrite le_combine_split. by apply Z.mod_small. Qed.
Lemma get_put_u64 v : is_u64 v → get_u64 (put_u64 v) = v.
Proof. intros. unfold get_u64, put_u64. rewrite le_combine_split. by apply Z.mod_small. Qed.
Lemma get_u32_inv b : length b = 4%nat → is_u32 (get_u32 b) ∧ put_u32 (get_u32 b) = b.
Proof.
  intros Hb. unfold get_u32, put_u32. pose proof (le_combine_bound b) as Hr. rewrite Hb in Hr. change (8 * Z.of_nat 4) with 32 in Hr.
  split; [done|]. rewrite <- Hb. apply split_le_combine.
Qed.
#[global] Opaque put_u32 put_u64 get_u32 get_u64.

(** [io.ReadFull] of [n] bytes from a reader whose unread bytes are [s]: the
    bytes read, or [io.EOF] when nothing was left, or [io.ErrUnexpectedEOF] when
    some but not all bytes were; the second component is what is left unread. *)
Definition read_full (n : nat) (s : list byte) : result (list byte) * list byte :=
  if decide (n <= length s)%nat then (Ok (take n s), drop n s)
  else if decide (s = []) then (Err io_EOF, [])
  else (Err io_ErrUnexpectedEOF, []).

Lemma read_full_app n (b s : list byte) :
  length b = n → read_full n (b ++ s) = (Ok b, s).
Proof.
  intros <-. unfold read_full. rewrite decide_True by (rewrite length_app; lia).
  by rewrite take_app_length, drop_app_length.
Qed.

Lemma read_full_eof n : (0 < n)%nat → read_full n [] = (Err io_EOF, []).
Proof. intros. unfold read_full. rewrite decide_False by (simpl; lia). done. Qed.

Lemma read_full_Ok n (s b rest : list byte) :
  read_full n s = (Ok b, rest) → s = b ++ rest ∧ length b = n.
Proof.
  unfold read_full. repeat case_decide; intros ?; simplify_eq.
  rewrite take_drop, length_take. split; [done|lia].
Qed.

Lemma read_full_short n (s : list byte) :
  s ≠ [] → (length s < n)%nat → read_full n s = (Err io_ErrUnexpectedEOF, []).
Proof. intros. unfold read_full. rewrite !decide_False by (done || lia). done. Qed.

(** [io.Writer]: what a [Write] of some bytes does to the writer, and its error. *)
Class Writer (W : Type) := w_write : W → list byte → go (W * option error).

(** Messages with generated [Marshal]/[Unmarshal] methods: [Size()] is the length
    of what [MarshalTo] writes, and [Unmarshal] undoes [Marshal]. *)
Class Message (T : Type) := {
  marshal : T → list byte;
  unmarshal : list byte → option T;
  unmarshal_marshal : ∀ m, unmarshal (marshal m) = Some m
}.

(** ** Cyclic redundancy checks: [hash/crc32] and [hash/crc64] *)

Section Crc.
Context (width : Z) (poly : Z).

(** One entry of the reflected table: eight conditional shifts. *)
Definition crc_shift (c : Z) : Z :=
  if Z.testbit c 0 then Z.lxor (Z.shiftr c 1) poly else Z.shiftr c 1.
Definition crc_table (i : Z) : Z := Nat.iter 8 crc_shift i.
Definition crc_byte (crc : Z) (b : byte) : Z :=
  Z.lxor (crc_table (Z.land (Z.lxor crc (byte.unsigned b)) 255)) (Z.shiftr crc 8).
Definition crc_not (c : Z) : Z := Z.lxor c (Z.ones width).

(** [Update(crc, tab, p)]. *)
Definition crc_update (crc : Z) (p : list byte) : Z :=
  crc_not (foldl crc_byte (crc_not crc) p).

Context (width_ok : 8 <= width) (poly_ok : 0 <= poly < 2 ^ width).

Lemma lxor_range n a b : 0 <= n → 0 <= a < 2 ^ n → 0 <= b < 2 ^ n → 0 <= Z.lxor a b < 2 ^ n.
Proof.
  intros Hn Ha Hb.
  assert (Z.lxor a b = Z.lxor a b mod 2 ^ n) as ->; [|by apply Z.mod_pos_bound; lia].
  rewrite <- Z.land_ones by done. apply Z.bits_inj'; intros i Hi.
  rewrite Z.land_spec, Z.lxor_spec, Z.testbit_ones_nonneg by lia.
  destruct (Z.ltb_spec i n); [by rewrite andb_true_r|].
  rewrite <- (Z.mod_small a (2 ^ n)), <- (Z.mod_small b (2 ^ n)) by lia.
  by rewrite !Z.mod_pow2_bits_high by lia.
Qed.

Lemma shiftr_range n a k : 0 <= k → 0 <= a < 2 ^ n → 0 <= Z.shiftr a k < 2 ^ n.
Proof.
  intros Hk Ha. rewrite Z.shiftr_div_pow2 by done.
  assert (0 < 2 ^ k) by (apply Z.pow_pos_nonneg; lia).
  split; [apply Z.div_pos; lia|].
  apply Z.le_lt_trans with a; [|lia]. apply Z.div_le_upper_bound; nia.
Qed.

Lemma crc_shift_range c : 0 <= c < 2 ^ width → 0 <= crc_shift c < 2 ^ width.
Proof.
  intros. unfold crc_shift.
  destruct (Z.testbit c 0); [apply lxor_range; [lia| |done]|]; apply shiftr_range; lia.
Qed.

Lemma crc_table_range c : 0 <= c < 2 ^ width → 0 <= crc_table c < 2 ^ width.
Proof.
  unfold crc_table. generalize 8%nat as n. intros n Hc.
  induction n; simpl; [done|]. by apply crc_shift_range.
Qed.

Lemma crc_not_range c : 0 <= c < 2 ^ width → 0 <= crc_not c < 2 ^ width.
Proof.
  intros. apply lxor_range; [lia..|]. rewrite Z.ones_equiv.
  pose proof (Z.pow_pos_nonneg 2 width). lia.
Qed.

Lemma crc_not_involutive c : crc_not (crc_not c) = c.
Proof. unfold crc_not. by rewrite Z.lxor_assoc, Z.lxor_nilpotent, Z.lxor_0_r. Qed.

Lemma crc_byte_range c b : 0 <= c < 2 ^ width → 0 <= crc_byte c b < 2 ^ width.
Proof.
  intros. apply lxor_range; [lia| |apply shiftr_range; lia].
  apply crc_table_range. change 255 with (Z.ones 8). rewrite Z.land_ones by lia.
  pose proof (Z.mod_pos_bound (Z.lxor c (byte.unsigned b)) (2 ^ 8)).
  pose proof (Z.pow_le_mono_r 2 8 width). lia.
Qed.

Lemma crc_update_range c p : 0 <= c < 2 ^ width → 0 <= crc_update c p < 2 ^ width.
Proof.
  intros Hc. apply crc_not_range. apply crc_not_range in Hc. revert Hc.
  generalize (crc_not c). induction p as [|b p IH]; simpl; [done|].
  intros. by apply IH, crc_byte_range.
Qed.

Lemma crc_update_nil c : crc_update c [] = c.
Proof. apply crc_not_involutive. Qed.

(** Checksumming in pieces is checksumming the whole. *)
Lemma crc_update_app c p q : crc_update c (p ++ q) = crc_update (crc_update c p) q.
Proof. unfold crc_update. by rewrite crc_not_involutive, foldl_app. Qed.
End Crc.

(** [crc32.Update] with the Castagnoli table, [crc64.Update] with the ECMA table. *)
Definition crc32c : Z → list byte → Z := crc_update 32 0x82F63B78.
Definition crc64_ecma : Z → list byte → Z := crc_update 64 0xC96C5795D7870F42.

Lemma crc32c_range c p : is_u32 c → is_u32 (crc32c c p).
Proof. apply crc_update_range; lia. Qed.
Lemma crc32c_nil c : crc32c c [] = c.
Proof. apply crc_update_nil. Qed.
Lemma crc32c_app c p q : crc32c c (p ++ q) = crc32c (crc32c c p) q.
Proof. apply crc_update_app. Qed.
#[export] Hint Resolve crc32c_range : go_arith.

(** The check value of CRC-32C for the nine digits. *)
Example crc32c_check :
  crc32c 0 (byte.of_Z <$> [49; 50; 51; 52; 53; 54; 55; 56; 57]) = 0xE3069283.
Proof. vm_compute. reflexivity. Qed.
