(* ===== verification/Raftpb.v ===== *)
(** * The data types of [go.etcd.io/etcd/raft/v3/raftpb] the code passes around

    Only the fields the modelled code reads or writes.  Their encodings are not
    modelled: where the code marshals them, the definitions take a [Message]
    instance. *)

From S2P Require Import Prelude.

(** [raftpb.Entry]; [EntryType] is its number. *)
Record Entry := { e_term : Z; e_index : Z; e_type : Z; e_data : list byte }.

Definition EntryNormal : Z := 0.
Definition EntryConfChange : Z := 1.
Definition EntryConfChangeV2 : Z := 2.

Record HardState := { hs_term : Z; hs_vote : Z; hs_commit : Z }.

Record ConfState := { cs_voters : list Z; cs_learners : list Z }.

Record SnapshotMetadata := { sm_conf : ConfState; sm_index : Z; sm_term : Z }.
Record Snapshot := { snap_data : list byte; snap_meta : SnapshotMetadata }.

(** [walpb.Snapshot]. *)
Record WalSnapshot := { ws_index : Z; ws_term : Z; ws_conf : option ConfState }.

#[export] Instance Entry_eq_dec : EqDecision Entry.
Proof. solve_decision. Defined.
#[export] Instance HardState_eq_dec : EqDecision HardState.
Proof. solve_decision. Defined.
#[export] Instance ConfState_eq_dec : EqDecision ConfState.
Proof. solve_decision. Defined.
#[export] Instance WalSnapshot_eq_dec : EqDecision WalSnapshot.
Proof. solve_decision. Defined.

Definition emptyHardState : HardState := {| hs_term := 0; hs_vote := 0; hs_commit := 0 |}.
Definition emptyConfState : ConfState := {| cs_voters := []; cs_learners := [] |}.
Definition emptySnapshot : Snapshot :=
  {| snap_data := []; snap_meta := {| sm_conf := emptyConfState; sm_index := 0; sm_term := 0 |} |}.

(** The helpers of [go.etcd.io/etcd/raft/v3] the log calls, with what their documentation
    says: which hard states and snapshots are empty, and that a state must reach the disk
    before the node goes on when the term or the vote changed or entries were added. *)
Class RaftLib := {
  IsEmptyHardState : HardState → bool;
  IsEmptyHardState_spec st : IsEmptyHardState st = true ↔ st = emptyHardState;
  IsEmptySnap : Snapshot → bool;
  IsEmptySnap_spec s : IsEmptySnap s = true ↔ sm_index (snap_meta s) = 0;
  MustSync : HardState → HardState → nat → bool;
  MustSync_spec st prev n : MustSync st prev n = true ↔
    n ≠ 0%nat ∨ hs_vote st ≠ hs_vote prev ∨ hs_term st ≠ hs_term prev
}.

(** They can be had. *)
Module PlainRaft.
#[export] Instance plain_raft : RaftLib.
Proof.
  refine {| IsEmptyHardState st := bool_decide (st = emptyHardState);
            IsEmptySnap s := bool_decide (sm_index (snap_meta s) = 0);
            MustSync st prev n := bool_decide (n ≠ 0%nat ∨ hs_vote st ≠ hs_vote prev ∨ hs_term st ≠ hs_term prev) |};
    intros; apply bool_decide_eq_true.
Defined.
End PlainRaft.

Definition raft_ErrCompacted : error := Sentinel "raft.ErrCompacted".
Definition raft_ErrUnavailable : error := Sentinel "raft.ErrUnavailable".
Definition raft_ErrSnapOutOfDate : error := Sentinel "raft.ErrSnapOutOfDate".

(** Entries whose indexes follow one another from [lo]. *)
Definition indexed {A} (idx : A → Z) (lo : Z) (l : list A) : Prop :=
  ∀ i x, l !! i = Some x → idx x = lo + Z.of_nat i.

Section Indexed.
Context {A : Type} (idx : A → Z).
Implicit Types (l : list A) (lo : Z).

Lemma indexed_nil lo : indexed idx lo [].
Proof. intros i x. by rewrite lookup_nil. Qed.

Lemma indexed_cons lo x l : indexed idx lo (x :: l) ↔ idx x = lo ∧ indexed idx (lo + 1) l.
Proof.
  split.
  - intros H. split; [by rewrite (H 0%nat x eq_refl), Z.add_0_r|].
    intros i y Hy. rewrite (H (S i) y Hy). lia.
  - intros [Hx Hl] [|i] y Hy; simplify_eq/=; [lia|]. rewrite (Hl i y Hy). lia.
Qed.

Lemma indexed_app lo l1 l2 :
  indexed idx lo (l1 ++ l2) ↔ indexed idx lo l1 ∧ indexed idx (lo + Z.of_nat (length l1)) l2.
Proof.
  revert lo. induction l1 as [|x l1 IH]; intros lo; simpl.
  - rewrite Z.add_0_r. split; [intros; split; [apply indexed_nil|done]|by intros []].
  - rewrite !indexed_cons, IH. rewrite Nat2Z.inj_succ.
    replace (lo + 1 + Z.of_nat (length l1)) with (lo + Z.succ (Z.of_nat (length l1))) by lia.
    tauto.
Qed.

Lemma indexed_take lo n l : indexed idx lo l → indexed idx lo (take n l).
Proof. rewrite <- (take_drop n l) at 1. rewrite indexed_app. by intros []. Qed.

Lemma indexed_drop lo n l :
  (n <= length l)%nat → indexed idx lo l → indexed idx (lo + Z.of_nat n) (drop n l).
Proof.
  intros Hn. rewrite <- (take_drop n l) at 1. rewrite indexed_app, length_take_le by done.
  by intros [].
Qed.

Lemma indexed_last lo l x : indexed idx lo l → last l = Some x →
  idx x = lo + Z.of_nat (length l) - 1.
Proof.
  intros H Hl. rewrite last_lookup in Hl. rewrite (H _ _ Hl).
  apply lookup_lt_Some in Hl. lia.
Qed.
End Indexed.

(** Solves [indexed] for a list of literal entries. *)
Ltac solve_indexed :=
  repeat (apply indexed_cons; split; [reflexivity|]); apply indexed_nil.

(** A normal entry with one byte of data, for examples. *)
Definition normal_entry (term index : Z) (d : byte) : Entry :=
  {| e_term := term; e_index := index; e_type := EntryNormal; e_data := [d] |}.
