(* ===== verification/Coded.v ===== *)
(** * A serialization for examples

    The bits of a code, one per byte: a [Message] instance for every countable type, with
    which the theorems that take the generated encodings as a parameter are instantiated. *)

From S2P Require Import Prelude.

Fixpoint bits (p : positive) : list byte :=
  match p with
  | xH => []
  | xO p => Byte.x00 :: bits p
  | xI p => Byte.x01 :: bits p
  end.
Fixpoint unbits (l : list byte) : positive :=
  match l with
  | [] => xH
  | b :: l => if decide (b = Byte.x01) then xI (unbits l) else xO (unbits l)
  end.

Lemma unbits_bits p : unbits (bits p) = p.
Proof. induction p as [p IH|p IH|]; simpl; [by rewrite IH..|done]. Qed.

Definition coded (A : Type) `{Countable A} : Message A.
Proof.
  refine {| marshal := λ m, bits (encode m); unmarshal := λ b, decode (unbits b) |}.
  intros m. by rewrite unbits_bits, decode_encode.
Defined.

#[export] Instance byte_countable : Countable byte.
Proof. refine (inj_countable' (λ b, byte.unsigned b) byte.of_Z _). intros b. apply byte.of_Z_unsigned. Defined.
