(* ===== verification/Allocator.v ===== *)
(** * The byte-slice pool: [pkg/utility/allocator/pool.go]

    Buffers are pooled by capacity, one [sync.Pool] per level.  A buffer is a
    pointer and a capacity; a [sync.Pool] is the bag of buffers put back and not
    yet handed out again, and [Get] takes one of them or none.  The theorems show
    that a buffer handed out is large enough and owned by nobody else as long as
    every buffer is released once, which sizes can be served at all, and what a
    second release of the same buffer leads to. *)

From S2P Require Import Prelude.

Record ByteSlice := { ptr : nat; cap : Z }.

#[export] Instance ByteSlice_eq_dec : EqDecision ByteSlice.
Proof. solve_decision. Defined.

Record levelPool := { levelSize : Z; bag : list ByteSlice }.

(** The pool; [next_ptr] is the address the next [make] returns. *)
Record ByteSlicePool := { pools : list levelPool; next_ptr : nat }.

(** The loop of [NewByteSlicePool]: the levels, and the size it stopped at. *)
Fixpoint level_loop (fuel : nat) (next max factor : Z) : list Z * Z :=
  match fuel with
  | O => ([], next)
  | S fuel =>
      if decide (next <= max) then
        let '(ls, stop) := level_loop fuel (next * factor) max factor in (next :: ls, stop)
      else ([], next)
  end.

(** [NewByteSlicePool] for an integral growth factor. *)
Definition NewByteSlicePool (minSize maxSize factor : Z) : go ByteSlicePool :=
  if decide (minSize = 0 ∨ maxSize = 0) then Panic "allocator: size is equal 0"
  else if decide (maxSize < minSize) then
    Panic "allocator: minAllocByteSize is greater than maxAllocByteSize"
  else if decide (factor = 1) then Panic "allocator: factor is 1"
  else
    let '(ls, stop) := level_loop (S (Z.to_nat (Z.log2 maxSize))) minSize maxSize factor in
    let ls := if decide (stop < maxSize) then ls ++ [maxSize] else ls in
    Ret {| pools := (fun s => {| levelSize := s; bag := [] |}) <$> ls; next_ptr := 0 |}.

(** [bag.pool.Get], falling back to a fresh buffer of the level's size. *)
Definition pool_get (l : levelPool) (next : nat) : levelPool * ByteSlice * nat :=
  match bag l with
  | b :: rest => ({| levelSize := levelSize l; bag := rest |}, b, next)
  | [] => (l, {| ptr := next; cap := levelSize l |}, S next)
  end.

Fixpoint acquire_levels (ls : list levelPool) (byteSize : Z) (next : nat)
    : option (list levelPool * ByteSlice * nat) :=
  match ls with
  | [] => None
  | l :: ls =>
      if decide (byteSize <= levelSize l) then
        let '(l', b, next') := pool_get l next in Some (l' :: ls, b, next')
      else '(ls', b, next') ← acquire_levels ls byteSize next; Some (l :: ls', b, next')
  end.

Definition Acquire (p : ByteSlicePool) (byteSize : Z) : go (ByteSlicePool * ByteSlice) :=
  if decide (byteSize <= 0) then Panic "allocator: byteSize is equal to 0"
  else match acquire_levels (pools p) byteSize (next_ptr p) with
       | Some (ls, b, next) => Ret ({| pools := ls; next_ptr := next |}, b)
       | None => Panic "allocator: byteSize is greater than maxAllocByteSize"
       end.

Fixpoint release_levels (ls : list levelPool) (b : ByteSlice) : option (list levelPool) :=
  match ls with
  | [] => None
  | l :: ls =>
      if decide (cap b = levelSize l) then
        Some ({| levelSize := levelSize l; bag := b :: bag l |} :: ls)
      else ls' ← release_levels ls b; Some (l :: ls')
  end.

Definition Release (p : ByteSlicePool) (ob : option ByteSlice) : go ByteSlicePool :=
  match ob with
  | None => Ret p
  | Some b =>
      match release_levels (pools p) b with
      | Some ls => Ret {| pools := ls; next_ptr := next_ptr p |}
      | None => Panic "allocator: byteSize is greater than maxAllocByteSize"
      end
  end.

(** ** Ownership *)

(** The buffers lying in the pool. *)
Definition pooled (p : ByteSlicePool) : list ByteSlice := pools p ≫= bag.

(** [held] are the buffers handed out and not yet released: no buffer is owned
    twice, and every buffer has the capacity of a level. *)
Record owns (p : ByteSlicePool) (held : list ByteSlice) : Prop := {
  owns_nodup : NoDup (ptr <$> (held ++ pooled p));
  owns_fresh : Forall (fun b => (ptr b < next_ptr p)%nat) (held ++ pooled p);
  owns_held : Forall (fun b => cap b ∈ (levelSize <$> pools p)) held;
  owns_bags : Forall (fun l => Forall (fun b => cap b = levelSize l) (bag l)) (pools p)
}.

Lemma acquire_levels_spec ls n next ls' b next' :
  acquire_levels ls n next = Some (ls', b, next') →
  Forall (fun l => Forall (fun b => cap b = levelSize l) (bag l)) ls →
  Forall (fun l => Forall (fun b => cap b = levelSize l) (bag l)) ls' ∧
  levelSize <$> ls' = levelSize <$> ls ∧
  n <= cap b ∧ cap b ∈ levelSize <$> ls ∧
  ((next' = next ∧ ls ≫= bag ≡ₚ b :: (ls' ≫= bag)) ∨
   (next' = S next ∧ ptr b = next ∧ ls ≫= bag = ls' ≫= bag)).
Proof.
  revert ls'. induction ls as [|l ls IH]; simpl; intros ls' Heq Hb; [done|].
  apply Forall_cons in Hb as [Hl Hb]. case_decide.
  - unfold pool_get in Heq. destruct (bag l) as [|b0 rest] eqn:E; simplify_eq/=.
    + rewrite E. split_and!; [by constructor; [rewrite E|]|done|done|by left|by right].
    + apply Forall_cons in Hl as [Hb0 Hrest].
      split_and!; [by constructor|done|lia|rewrite Hb0; by left|by left].
  - destruct (acquire_levels ls n next) as [[[ls1 b1] n1]|] eqn:E; simplify_eq/=.
    destruct (IH _ eq_refl Hb) as (? & Hsz & ? & ? & Hperm).
    split_and!; [by constructor|by f_equal|done|by right|].
    destruct Hperm as [[-> Hp]|(-> & ? & Hp)]; [left|right; by rewrite Hp].
    split; [done|]. rewrite Hp. by rewrite Permutation_middle.
Qed.

Lemma release_levels_spec ls b :
  cap b ∈ levelSize <$> ls →
  Forall (fun l => Forall (fun b => cap b = levelSize l) (bag l)) ls →
  ∃ ls', release_levels ls b = Some ls' ∧
    Forall (fun l => Forall (fun b => cap b = levelSize l) (bag l)) ls' ∧
    levelSize <$> ls' = levelSize <$> ls ∧ ls' ≫= bag ≡ₚ b :: (ls ≫= bag).
Proof.
  induction ls as [|l ls IH]; csimpl; intros Hin Hb; [by apply elem_of_nil in Hin|].
  apply Forall_cons in Hb as [Hl Hb]. case_decide.
  - eexists; split_and!; [done| |done|done]. constructor; [by constructor|done].
  - apply elem_of_cons in Hin as [?|Hin]; [done|].
    destruct (IH Hin Hb) as (ls' & -> & ? & Hsz & Hp).
    eexists; split_and!; [done|by constructor|by csimpl; rewrite Hsz|].
    simpl. rewrite Hp. by rewrite Permutation_middle.
Qed.

Lemma acquire_levels_None ls n next :
  acquire_levels ls n next = None ↔ Forall (fun l => levelSize l < n) ls.
Proof.
  induction ls as [|l ls IH]; simpl; [done|]. rewrite Forall_cons. case_decide.
  - destruct (pool_get l next) as [[??]?]. split; [done|lia].
  - rewrite <- IH. destruct (acquire_levels ls n next) as [[[??]?]|]; simpl; [split; [done|by intros [_ ?]]|].
    split; [split; [lia|done]|done].
Qed.

(** ** What the pool promises its clients *)

(** A source of scratch buffers: the bytes found in the buffer [Acquire] returns
    for a size, which are whatever its last user left there. *)
Class BufferPool := {
  acquire_buf : Z → go (list byte);
  acquire_buf_fits : ∀ n buf, acquire_buf n = Ret buf → n <= Z.of_nat (length buf)
}.

(** A pool in good order, over a memory [mem] of buffer contents, is one. *)
Section PoolBuffers.
Context (p : ByteSlicePool) (held : list ByteSlice) (Hp : owns p held).
Context (mem : ByteSlice → list byte) (Hmem : ∀ b, Z.of_nat (length (mem b)) = cap b).

Definition pool_buffer (n : Z) : go (list byte) :=
  '(_, b) ← Acquire p n; Ret (mem b).

Lemma pool_buffer_fits n buf : pool_buffer n = Ret buf → n <= Z.of_nat (length buf).
Proof using Hp Hmem.
  unfold pool_buffer, Acquire. case_decide; [done|].
  destruct (acquire_levels _ _ _) as [[[ls b] n1]|] eqn:E; simpl; [|done].
  intros [= <-]. rewrite Hmem.
  destruct (acquire_levels_spec _ _ _ _ _ _ E (owns_bags _ _ Hp)) as (_ & _ & ? & _). done.
Qed.

#[local] Instance pool_buffers : BufferPool :=
  {| acquire_buf := pool_buffer; acquire_buf_fits := pool_buffer_fits |}.
End PoolBuffers.

(** ** Properties *)

(** A buffer [Acquire] hands out has room for the bytes asked for, and no
    holder of another buffer shares it; the pool keeps its ownership discipline. *)
Theorem acquire_exclusive p held n p' b :
  owns p held → Acquire p n = Ret (p', b) →
  n <= cap b ∧ (ptr b ∉ (ptr <$> held)) ∧ owns p' (b :: held).
Proof.
  intros [Hnd Hfr Hh Hb] Hacq. unfold Acquire in Hacq. case_decide; [done|].
  destruct (acquire_levels _ _ _) as [[[ls b1] n1]|] eqn:E; simplify_eq/=.
  destruct (acquire_levels_spec _ _ _ _ _ _ E Hb) as (Hb' & Hsz & Hn & Hcap & Hp).
  assert (NoDup (ptr <$> ((b :: held) ++ (ls ≫= bag))) ∧
          Forall (fun b => (ptr b < n1)%nat) ((b :: held) ++ (ls ≫= bag))) as [Hnd' Hfr'].
  { destruct Hp as [[-> Hp]|(-> & Hptr & Hp)]; unfold pooled in *.
    - rewrite Hp, <- (Permutation_middle held) in Hnd, Hfr. done.
    - rewrite Hp in *. split.
      + simpl. constructor; [|done]. rewrite Hptr. intros (y & Hy & Hin)%list_elem_of_fmap.
        rewrite Forall_forall in Hfr. apply Hfr in Hin. lia.
      + simpl. constructor; [lia|]. eapply Forall_impl; [done|]. simpl. lia. }
  split_and!; [done| |].
  - simpl in Hnd'. apply NoDup_cons in Hnd' as [Hni _].
    intros Hin. apply Hni. rewrite fmap_app. apply elem_of_app. by left.
  - constructor; simpl; [done|done| |done]. rewrite Hsz. by constructor.
Qed.

(** Releasing a held buffer once never panics and keeps the discipline. *)
Lemma release_owned p held b :
  owns p (b :: held) → ∃ p', Release p (Some b) = Ret p' ∧ owns p' held.
Proof.
  intros [Hnd Hfr Hh Hb]. apply Forall_cons in Hh as [Hcap Hh].
  destruct (release_levels_spec _ _ Hcap Hb) as (ls & Hrel & Hb' & Hsz & Hp).
  unfold Release. rewrite Hrel. eexists; split; [done|].
  unfold pooled in *. constructor; unfold pooled; simpl.
  - rewrite Hp, <- Permutation_middle. done.
  - rewrite Hp, <- Permutation_middle. done.
  - by rewrite Hsz.
  - done.
Qed.

(** The levels the constructor builds, and where its loop stops. *)
Lemma level_loop_spec fuel next max factor ls stop :
  1 <= next <= max → 2 <= factor → max < next * 2 ^ Z.of_nat fuel →
  level_loop fuel next max factor = (ls, stop) →
  ∃ top, stop = top * factor ∧ next <= top <= max ∧ max < stop ∧
    top ∈ ls ∧ Forall (fun s => s <= top) ls.
Proof.
  revert next ls stop. induction fuel as [|fuel IH]; simpl; intros next ls stop Hn Hf Hfu Heq;
    [lia|].
  rewrite Nat2Z.inj_succ, Z.pow_succ_r in Hfu by lia.
  rewrite decide_True in Heq by lia.
  destruct (level_loop fuel (next * factor) max factor) as [ls1 stop1] eqn:E. simplify_eq.
  destruct (decide (next * factor <= max)) as [Hm|Hm].
  - destruct (IH (next * factor) ls1 stop) as (top & -> & ? & ? & ? & Hall); [nia|done|nia|done|].
    exists top. assert (next <= top) by nia.
    split_and!; [done|lia|lia|lia|by right|by constructor].
  - exists next. assert (ls1 = [] ∧ stop = next * factor) as [-> ->].
    { destruct fuel; simpl in E; [|rewrite decide_False in E by done]; by simplify_eq. }
    split_and!; [done|lia|lia|lia|by left|by constructor; [lia|constructor]].
Qed.

(** The sizes a fresh pool can serve.  With a growth factor of at least two
    the pool's largest level [top] is the last power step not above [maxSize]:
    requests from 1 to [top] are served, and a request above [top] panics, also
    when it is within the configured [maxSize]. *)
Theorem fresh_pool_serves minSize maxSize factor p :
  1 <= minSize → 2 <= factor → NewByteSlicePool minSize maxSize factor = Ret p →
  ∃ top, minSize <= top <= maxSize ∧ maxSize < top * factor ∧
    (∀ n, 0 < n <= top → ∃ p' b, Acquire p n = Ret (p', b)) ∧
    (∀ n, top < n → ∃ msg, Acquire p n = Panic msg).
Proof.
  intros Hmin Hf Hnew. unfold NewByteSlicePool in Hnew.
  repeat case_decide; try done.
  destruct (level_loop (S (Z.to_nat (Z.log2 maxSize))) minSize maxSize factor) as [ls stop] eqn:E.
  destruct (level_loop_spec (S (Z.to_nat (Z.log2 maxSize))) minSize maxSize factor ls stop)
    as (top & -> & ? & ? & Hin & Hall); [lia|lia| |done|].
  { rewrite Nat2Z.inj_succ, Z2Nat.id by apply Z.log2_nonneg.
    pose proof (Z.log2_spec maxSize). nia. }
  rewrite decide_False in Hnew by lia. simplify_eq.
  exists top. split_and!; [lia..| |].
  - intros n Hn. unfold Acquire. rewrite decide_False by lia. simpl.
    destruct (acquire_levels _ n 0) as [[[??]?]|] eqn:Ea; [by eauto|].
    apply acquire_levels_None in Ea. rewrite Forall_fmap in Ea.
    rewrite Forall_forall in Ea. apply Ea in Hin. simpl in Hin. lia.
  - intros n Hn. unfold Acquire. rewrite decide_False by lia. simpl.
    rewrite (proj2 (acquire_levels_None _ n 0)); [by eauto|].
    apply Forall_fmap. eapply Forall_impl; [done|]. simpl. lia.
Qed.

(** A buffer acquired from a fresh pool is held by its holder alone. *)
Lemma acquire_exclusive_witness :
  ∃ p p' b, NewByteSlicePool 64 256 2 = Ret p ∧ Acquire p 100 = Ret (p', b) ∧
    100 <= cap b ∧ (ptr b ∉ (ptr <$> @nil ByteSlice)) ∧ owns p' [b].
Proof.
  do 3 eexists. split; [reflexivity|]. split; [reflexivity|].
  apply (acquire_exclusive
           {| pools := (fun s => {| levelSize := s; bag := [] |}) <$> [64; 128; 256]; next_ptr := 0 |} [] 100).
  - split; [constructor|constructor|constructor|repeat constructor].
  - reflexivity.
Defined.

(** The default pool of the write-ahead log ([WalMinEntryBufferSize] and
    [WalMaxEntryBufferSize] of [defaultOptions]) has levels of 1, 2 and 4 MiB. *)
Lemma fresh_pool_serves_witness :
  ∃ p, NewByteSlicePool (1024 * 1024) (4 * 1024 * 1024) 2 = Ret p ∧
  ∃ top, 1024 * 1024 <= top <= 4 * 1024 * 1024 ∧ 4 * 1024 * 1024 < top * 2 ∧
    (∀ n, 0 < n <= top → ∃ p' b, Acquire p n = Ret (p', b)) ∧
    (∀ n, top < n → ∃ msg, Acquire p n = Panic msg).
Proof.
  eexists. split; [vm_compute; reflexivity|].
  apply (fresh_pool_serves (1024 * 1024) (4 * 1024 * 1024) 2); [lia|lia|].
  vm_compute. reflexivity.
Defined.

(** A pool configured up to 10 bytes from 3 cannot serve 7 bytes: the level for
    [maxAllocByteSize] is never added, since the loop only stops above it. *)
Example max_level_missing :
  (p ← NewByteSlicePool 3 10 2; Acquire p 7) =
    Panic "allocator: byteSize is greater than maxAllocByteSize".
Proof. vm_compute. reflexivity. Qed.

(** Releasing a buffer twice, as [applyResultSerializer.Unmarshal] does on its
    error branch, makes the next two holders share one buffer. *)
Theorem double_release_aliases :
  ∃ p b p1 p2 p3,
    (p0 ← NewByteSlicePool 64 (16 * 1024 * 1024) 2; Acquire p0 20) = Ret (p, b) ∧
    (q ← Release p (Some b); Release q (Some b)) = Ret p1 ∧
    Acquire p1 8 = Ret (p2, b) ∧ Acquire p2 30 = Ret (p3, b).
Proof. repeat eexists; reflexivity. Qed.
