(* ===== verification/WalCodec.v ===== *)
(** * Log records of the native WAL: [pkg/wal/babuzawal/codec]

    A record is an eight-byte header (three bytes of size, five bits of type,
    three bits of padding length, four bytes of running checksum), the body, and
    padding to a multiple of eight.  [Encode] is the generic function of
    [encoder.go] over the [EncodeLog] interface of [log.go], writing to an
    [io.Writer]; [Decode] is the method of [decoder.go] over a byte stream and a
    stateful handler.  The theorems are the round trip, the detection of torn and
    preallocated space, and the size limit. *)

From S2P Require Import Prelude Allocator.

Definition crcOffset : Z := 4.
Definition crcSize : Z := 4.
Definition HeaderSize : Z := 8.
Definition logSizeShift : Z := 8.
Definition logSizeMask : Z := Z.lxor logSizeShift (2 ^ 32 - 1).
Definition paddingMask : Z := 7.
Definition logTypeShift : Z := 3.
Definition logTypeMask : Z := Z.shiftl 31 logTypeShift.
Definition maxLogSize : Z := 0xffffff.

Definition ErrLogSizeExceedLimit : error := Sentinel "ErrLogSizeExceedLimit".

(** The record types, [pb.LogType]. *)
Definition LogTypeNormalEntry : Z := 0.
Definition LogTypeConfChangeEntry : Z := 1.
Definition LogTypeConfChangeV2Entry : Z := 2.
Definition LogTypeCrc : Z := 26.
Definition LogTypeMetadata : Z := 27.
Definition LogTypeHardState : Z := 28.
Definition LogTypeSnapshot : Z := 29.
Definition LogTypeNextEntry : Z := 30.

(** ** Bodies: the [EncodeLog] interface *)

(** [Encode(buf, logSize, lastCrc)]: the bytes left in [buf], the new running
    checksum, and the error. *)
Class EncodeLog (T : Type) :=
  log_encode : T → list byte → Z → Z → go (list byte * Z * option error).

Definition CrcLog := Z.
Inductive SliceBytes := slice_bytes (l : list byte).
(** [HardStateLog], [WalSnapshotLog] and [WalNextEntryLog]: a message. *)
Inductive MessageLog (T : Type) := message_log (m : T).
Arguments message_log {T} m.

#[export] Instance encode_crc : EncodeLog CrcLog := fun l buf logSize lastCrc =>
  if decide (length buf < 4)%nat then Panic "index out of range"
  else Ret (go_copy buf 0 (put_u32 l), u32 l, None).

#[export] Instance encode_slice : EncodeLog SliceBytes := fun '(slice_bytes l) buf logSize lastCrc =>
  let buf' := go_copy buf 0 l in
  let n := Z.of_nat (Nat.min (length buf) (length l)) in
  if decide (n ≠ logSize) then
    Ret (buf', 0, Some (Errorf "copy size (%d) mismatched with data size (%d)"))
  else Ret (buf', crc32c lastCrc (take (Z.to_nat logSize) buf'), None).

#[export] Instance encode_message `{Message T} : EncodeLog (MessageLog T) :=
  fun '(message_log m) buf logSize lastCrc =>
  if decide (length buf < length (marshal m))%nat then Panic "slice bounds out of range"
  else
    let buf' := go_copy buf 0 (marshal m) in
    Ret (buf', crc32c lastCrc (take (Z.to_nat logSize) buf'), None).

(** ** The encoder *)

Record Encoder (W : Type) := { enc_writer : W; currentCrc : Z }.
Arguments enc_writer {W}.
Arguments currentCrc {W}.

Definition calcPadding (logSize : Z) : Z := (8 - (HeaderSize + logSize) mod 8) mod 8.

Definition header_word (logSize logType padding : Z) : Z :=
  u32 (Z.lor (Z.lor (Z.shiftl logSize logSizeShift) (Z.shiftl logType logTypeShift))
             (Z.land padding paddingMask)).

Definition Encode `{Writer W} `{BufferPool} `{EncodeLog T}
    (e : Encoder W) (logType logSize : Z) (marshaller : T) : go (Encoder W * option error) :=
  if decide (maxLogSize < logSize) then Ret (e, Some ErrLogSizeExceedLimit)
  else
    let padding := calcPadding logSize in
    let total := HeaderSize + logSize + padding in
    buf ← acquire_buf total;
    let buf := go_copy buf 0 (put_u32 (header_word logSize logType padding)) in
    let bodyEnd := Z.to_nat (HeaderSize + logSize) in
    '(body, crc, err) ← log_encode marshaller (go_slice 8 bodyEnd buf) logSize (currentCrc e);
    let buf := go_copy buf 8 body in
    let e := {| enc_writer := enc_writer e; currentCrc := crc |} in
    match err with
    | Some _ => Ret (e, err)
    | None =>
        let buf := go_copy buf 4 (put_u32 crc) in
        let buf := go_copy buf bodyEnd (replicate (Z.to_nat padding) Byte.x00) in
        '(w, werr) ← w_write (enc_writer e) (take (Z.to_nat total) buf);
        Ret ({| enc_writer := w; currentCrc := crc |}, werr)
    end.

(** ** The decoder *)

(** [Handler], as a function on the state of the object it is a method of. *)
Definition Handler (S : Type) : Type :=
  S → Z → list byte → Z → Z → go (S * option error).

(** [Decode] on the handler's state and the unread bytes of the reader. *)
Definition Decode `{BufferPool} {S} (handler : Handler S) (st : S) (input : list byte)
    : go (S * list byte * option error) :=
  match read_full (Z.to_nat HeaderSize) input with
  | (Err e, rest) => Ret (st, rest, Some e)
  | (Ok headerBuf, rest) =>
      let h := get_u32 (go_slice 0 4 headerBuf) in
      let logSize := Z.shiftr (Z.land h logSizeMask) logSizeShift in
      let padding := Z.land h paddingMask in
      let logType := Z.shiftr (Z.land h logTypeMask) logTypeShift in
      let crc := get_u32 (go_slice 4 8 headerBuf) in
      let nextReadSize := logSize + padding in
      if decide (logSize = 0 ∧ padding = 0 ∧ crc = 0) then Ret (st, rest, Some io_EOF)
      else if decide (nextReadSize = 0) then
        '(st, err) ← handler st logType [] HeaderSize crc; Ret (st, rest, err)
      else
        _ ← acquire_buf nextReadSize;
        match read_full (Z.to_nat nextReadSize) rest with
        | (Err e, rest) =>
            Ret (st, rest, Some (if decide (e = io_EOF) then io_ErrUnexpectedEOF else e))
        | (Ok buf, rest) =>
            '(st, err) ← handler st logType (take (Z.to_nat logSize) buf)
                           (HeaderSize + nextReadSize) crc;
            Ret (st, rest, err)
        end
  end.

(** ** The header *)

Lemma header_word_eq logSize logType padding :
  0 <= logSize <= maxLogSize → 0 <= logType < 32 → 0 <= padding < 8 →
  header_word logSize logType padding = logSize * 256 + logType * 8 + padding.
Proof.
  intros Hs Ht Hp. unfold header_word, logSizeShift, logTypeShift, paddingMask, maxLogSize in *.
  change 7 with (Z.ones 3). rewrite Z.land_ones, (Z.mod_small padding) by lia.
  rewrite <- Z.lor_assoc.
  rewrite (lor_shiftl_add 3 logType), lor_shiftl_add by lia.
  rewrite u32_small by lia. lia.
Qed.

Lemma header_fields logSize logType padding h :
  0 <= logSize <= maxLogSize → 0 <= logType < 32 → 0 <= padding < 8 →
  h = header_word logSize logType padding →
  Z.shiftr (Z.land h logSizeMask) logSizeShift = logSize ∧
  Z.land h paddingMask = padding ∧
  Z.shiftr (Z.land h logTypeMask) logTypeShift = logType.
Proof.
  intros Hs Ht Hp ->. rewrite header_word_eq by done.
  unfold logSizeMask, logSizeShift, paddingMask, logTypeMask, logTypeShift, maxLogSize in *.
  split_and!.
  - rewrite Z.shiftr_land. change (Z.shiftr (Z.lxor 8 (2 ^ 32 - 1)) 8) with (Z.ones 24).
    rewrite Z.land_ones, Z.shiftr_div_pow2 by lia. change (2 ^ 8) with 256.
    replace ((logSize * 256 + logType * 8 + padding) / 256) with logSize by dlia.
    apply Z.mod_small. lia.
  - change 7 with (Z.ones 3). rewrite Z.land_ones by lia. change (2 ^ 3) with 8. dlia.
  - rewrite Z.shiftr_land. change (Z.shiftr (Z.shiftl 31 3) 3) with (Z.ones 5).
    rewrite Z.land_ones, Z.shiftr_div_pow2 by lia. change (2 ^ 3) with 8. change (2 ^ 5) with 32.
    dlia.
Qed.

Lemma calcPadding_range n : 0 <= calcPadding n < 8.
Proof. apply Z.mod_pos_bound. lia. Qed.

Lemma calcPadding_aligns n : (HeaderSize + n + calcPadding n) mod 8 = 0.
Proof. unfold calcPadding, HeaderSize. dlia. Qed.

(** ** Records on disk *)

(** The bytes of a record, and what a decoder reports as its size. *)
Definition log_frame (logType : Z) (body : list byte) (crc : Z) : list byte :=
  let logSize := Z.of_nat (length body) in
  put_u32 (header_word logSize logType (calcPadding logSize)) ++ put_u32 crc ++ body ++
  replicate (Z.to_nat (calcPadding logSize)) Byte.x00.

Definition frame_size (body : list byte) : Z :=
  HeaderSize + (Z.of_nat (length body) + calcPadding (Z.of_nat (length body))).

Lemma length_log_frame t body crc :
  Z.of_nat (length (log_frame t body crc)) = frame_size body.
Proof.
  unfold log_frame, frame_size, HeaderSize.
  rewrite !length_app, !length_put_u32, length_replicate.
  pose proof (calcPadding_range (Z.of_nat (length body))). lia.
Qed.

Lemma frame_size_aligned body : frame_size body mod 8 = 0.
Proof. unfold frame_size. rewrite Z.add_assoc. apply calcPadding_aligns. Qed.

(** What the encoder needs of a body: the bytes it writes into a buffer of its
    own size, and the running checksum after it. *)
Class LawfulLog (T : Type) `{EncodeLog T} := {
  log_body : T → list byte;
  log_crc : T → Z → Z;
  log_encode_body : ∀ m buf lastCrc, length buf = length (log_body m) →
    log_encode m buf (Z.of_nat (length (log_body m))) lastCrc =
      Ret (log_body m, log_crc m lastCrc, None)
}.

Lemma go_copy_all {A} (buf l : list A) : length buf = length l → go_copy buf 0 l = l.
Proof.
  intros Hl. rewrite go_copy_fits by lia. simpl.
  rewrite drop_ge by lia. apply app_nil_r.
Qed.

#[export, refine] Instance lawful_crc : LawfulLog CrcLog :=
  {| log_body := put_u32; log_crc := fun l _ => u32 l |}.
Proof.
  intros m buf lastCrc Hl. rewrite length_put_u32 in Hl. unfold log_encode, encode_crc.
  rewrite decide_False by lia. by rewrite go_copy_all by (rewrite length_put_u32; lia).
Defined.

#[export, refine] Instance lawful_slice : LawfulLog SliceBytes :=
  {| log_body := fun '(slice_bytes l) => l; log_crc := fun '(slice_bytes l) c => crc32c c l |}.
Proof.
  intros [l] buf lastCrc Hl. unfold log_encode, encode_slice.
  rewrite Hl, Nat.min_id, decide_False by (intros []; lia).
  by rewrite go_copy_all, Nat2Z.id, firstn_all.
Defined.

#[export, refine] Instance lawful_message `{Message T} : LawfulLog (MessageLog T) :=
  {| log_body := fun '(message_log m) => marshal m;
     log_crc := fun '(message_log m) c => crc32c c (marshal m) |}.
Proof.
  intros [m] buf lastCrc Hl. unfold log_encode, encode_message.
  rewrite decide_False by lia. by rewrite go_copy_all, Nat2Z.id, firstn_all.
Defined.

Lemma encode_buffer (buf : list byte) t body crc (n : nat) :
  let logSize := Z.of_nat (length body) in
  frame_size body <= Z.of_nat (length buf) → n = (8 + length body)%nat →
  take (Z.to_nat (frame_size body))
    (go_copy (go_copy (go_copy (go_copy buf 0
       (put_u32 (header_word logSize t (calcPadding logSize)))) 8 body) 4 (put_u32 crc))
       n (replicate (Z.to_nat (calcPadding logSize)) Byte.x00)) =
  log_frame t body crc.
Proof.
  intros logSize Hlen ->. unfold frame_size, HeaderSize in *. fold logSize in Hlen |- *.
  pose proof (calcPadding_range logSize) as Hp.
  set (hd := put_u32 (header_word _ _ _)). set (pad := replicate _ _).
  assert (length hd = 4%nat) as Lh by apply length_put_u32.
  assert (length (put_u32 crc) = 4%nat) as Lc by apply length_put_u32.
  assert (length pad = Z.to_nat (calcPadding logSize)) as Hpad by apply length_replicate.
  set (b1 := go_copy buf 0 hd). assert (length b1 = length buf) as L1 by (apply length_go_copy; lia).
  set (b2 := go_copy b1 8 body). assert (length b2 = length buf) as L2 by (unfold b2; rewrite length_go_copy; lia).
  set (b3 := go_copy b2 4 (put_u32 crc)).
  assert (length b3 = length buf) as L3 by (unfold b3; rewrite length_go_copy; lia).
  rewrite (take_go_copy_app b3 (8 + length body)%nat pad) by lia.
  assert (take (8 + length body) b3 = hd ++ put_u32 crc ++ body) as ->.
  { unfold b3. rewrite go_copy_fits by lia.
    assert (take 4 b2 = hd) as ->.
    { unfold b2. rewrite go_copy_fits by lia. rewrite take_app_le by (rewrite length_take; lia).
      rewrite take_take. change (4 `min` 8)%nat with 4%nat.
      unfold b1. by rewrite (take_go_copy_app buf 0 hd) by lia. }
    rewrite take_app_ge by lia. f_equal. rewrite take_app_ge by lia. f_equal.
    rewrite Lh, Lc. unfold b2. rewrite go_copy_fits by lia.
    rewrite drop_app_ge by (rewrite length_take; lia). rewrite length_take, L1.
    replace (4 + 4 - 8 `min` length buf)%nat with 0%nat by lia.
    rewrite drop_0. apply take_app_length'. lia. }
  unfold log_frame. fold logSize hd pad. by rewrite <- !(assoc_L (++)).
Qed.

(** ** Properties *)

Section Codec.
Context `{BufferPool}.

(** Encoding a lawful body writes exactly its record, whatever the scratch
    buffer held, and advances the running checksum. *)
Lemma Encode_lawful `{Writer W} `{LawfulLog T} (e : Encoder W) t (m : T) buf :
  Z.of_nat (length (log_body m)) <= maxLogSize →
  acquire_buf (frame_size (log_body m)) = Ret buf →
  Encode e t (Z.of_nat (length (log_body m))) m =
    let crc := log_crc m (currentCrc e) in
    '(w, err) ← w_write (enc_writer e) (log_frame t (log_body m) crc);
    Ret ({| enc_writer := w; currentCrc := crc |}, err).
Proof.
  intros Hsz Hacq. unfold Encode. rewrite decide_False by lia.
  pose proof (acquire_buf_fits _ _ Hacq) as Hfit.
  pose proof (calcPadding_range (Z.of_nat (length (log_body m)))).
  unfold frame_size, HeaderSize in Hfit.
  rewrite <- Z.add_assoc. fold (frame_size (log_body m)). rewrite Hacq. cbn [mbind go_bind].
  rewrite log_encode_body; [|rewrite length_go_slice; unfold HeaderSize; [lia|]].
  - cbn [mbind go_bind]. rewrite encode_buffer; [done|done|unfold HeaderSize; lia].
  - rewrite length_go_copy; lia.
Qed.

(** Reading a header that is in the stream. *)
Lemma Decode_header {S} (handler : Handler S) st t n p crc rest :
  0 <= n <= maxLogSize → 0 <= t < 32 → 0 <= p < 8 → is_u32 crc →
  Decode handler st (put_u32 (header_word n t p) ++ put_u32 crc ++ rest) =
    (if decide (n = 0 ∧ p = 0 ∧ crc = 0) then Ret (st, rest, Some io_EOF)
     else if decide (n + p = 0) then
       '(st, err) ← handler st t [] HeaderSize crc; Ret (st, rest, err)
     else
       _ ← acquire_buf (n + p);
       match read_full (Z.to_nat (n + p)) rest with
       | (Err e, rest) =>
           Ret (st, rest, Some (if decide (e = io_EOF) then io_ErrUnexpectedEOF else e))
       | (Ok buf, rest) =>
           '(st, err) ← handler st t (take (Z.to_nat n) buf) (HeaderSize + (n + p)) crc;
           Ret (st, rest, err)
       end).
Proof.
  intros Hn Ht Hp Hc. unfold Decode. rewrite (assoc_L (++)), read_full_app;
    [|by rewrite length_app, !length_put_u32].
  assert (go_slice 0 4 (put_u32 (header_word n t p) ++ put_u32 crc) = put_u32 (header_word n t p)) as ->
    by (apply take_app_length'; by rewrite length_put_u32).
  assert (go_slice 4 8 (put_u32 (header_word n t p) ++ put_u32 crc) = put_u32 crc) as ->.
  { unfold go_slice. rewrite drop_app_length' by (by rewrite length_put_u32).
    apply take_ge. by rewrite length_put_u32. }
  rewrite !get_put_u32; [|done|unfold header_word; apply u32_range].
  destruct (header_fields n t p _ Hn Ht Hp eq_refl) as (-> & -> & ->). done.
Qed.

(** A record written by the encoder is read back as written: the handler
    gets the record's type, body, on-disk size and checksum, and the decoder
    stops right behind the record.  The one exception is an empty body under a
    zero checksum, which looks like unwritten space. *)
Lemma Decode_log_frame {S} (handler : Handler S) st t body crc rest buf :
  Z.of_nat (length body) <= maxLogSize → 0 <= t < 32 → is_u32 crc →
  (body = [] → crc ≠ 0) →
  acquire_buf (frame_size body - HeaderSize) = Ret buf ∨ body = [] →
  Decode handler st (log_frame t body crc ++ rest) =
    '(st, err) ← handler st t body (frame_size body) crc; Ret (st, rest, err).
Proof.
  intros Hsz Ht Hc Hne Hacq. unfold log_frame. rewrite <- !(assoc_L (++)).
  pose proof (calcPadding_range (Z.of_nat (length body))) as Hp.
  rewrite Decode_header by lia. unfold frame_size in *.
  destruct body as [|b body'] eqn:E.
  - rewrite decide_False by (intros (_ & _ & ?); by apply Hne).
    rewrite decide_True by (vm_compute; reflexivity). done.
  - rewrite <- E in *. assert (0 < length body)%nat by (subst; simpl; lia).
    rewrite !decide_False by lia. destruct Hacq as [Hacq|?]; [|congruence].
    unfold HeaderSize in Hacq. rewrite Z.add_simpl_l in Hacq. rewrite Hacq. cbn [mbind go_bind].
    rewrite (assoc_L (++)), read_full_app; [|rewrite length_app, length_replicate; lia].
    rewrite Nat2Z.id, take_app_length. done.
Qed.

(** A torn record is reported as [io.ErrUnexpectedEOF] and never reaches
    the handler: any proper, non-empty prefix of a record at the end of the
    stream stops the decoder with that error. *)
Lemma Decode_torn_frame {S} (handler : Handler S) st t body crc k buf :
  Z.of_nat (length body) <= maxLogSize → 0 <= t < 32 → is_u32 crc →
  acquire_buf (frame_size body - HeaderSize) = Ret buf ∨ body = [] →
  (0 < k < length (log_frame t body crc))%nat →
  Decode handler st (take k (log_frame t body crc)) = Ret (st, [], Some io_ErrUnexpectedEOF).
Proof.
  intros Hsz Ht Hc Hacq Hk.
  pose proof (calcPadding_range (Z.of_nat (length body))) as Hp.
  pose proof (length_log_frame t body crc) as Hlen. unfold frame_size, HeaderSize in *.
  destruct (decide (k < 8)%nat) as [Hk8|Hk8].
  { unfold Decode, HeaderSize. rewrite read_full_short; [done| |rewrite length_take; lia].
    intros Heq%(f_equal length). rewrite length_take in Heq. simpl in Heq. lia. }
  destruct Hacq as [Hacq| ->]; [|change (calcPadding (Z.of_nat (length (@nil byte)))) with 0 in Hlen; simpl length in *; lia].
  unfold log_frame.
  rewrite take_app_ge, take_app_ge by (rewrite ?length_put_u32; lia).
  rewrite !length_put_u32.
  set (l := take _ _).
  assert (length l = k - 4 - 4)%nat as Hl.
  { unfold l. rewrite length_take, length_app, length_replicate. lia. }
  assert (Z.of_nat (length body) + calcPadding (Z.of_nat (length body)) ≠ 0).
  { intros ?. lia. }
  rewrite Decode_header, !decide_False by lia.
  rewrite Z.add_simpl_l in Hacq. rewrite Hacq. cbn [mbind go_bind].
  destruct (decide (l = [])) as [->|Hnil].
  - by rewrite read_full_eof by lia.
  - by rewrite read_full_short by (done || lia).
Qed.

(** An empty record written while the running checksum is zero ends the log
    for every reader: it and all records behind it are lost. *)
Theorem Decode_empty_zero_crc {S} (handler : Handler S) st t rest :
  0 <= t < 32 → Decode handler st (log_frame t [] 0 ++ rest) = Ret (st, rest, Some io_EOF).
Proof.
  intros. unfold log_frame. rewrite <- !(assoc_L (++)).
  change (calcPadding (Z.of_nat (length (@nil byte)))) with 0.
  rewrite Decode_header by (unfold maxLogSize; simpl; lia). by rewrite decide_True.
Qed.

(** Zero-filled space, as left by preallocation, ends the log. *)
Lemma Decode_preallocated {S} (handler : Handler S) st n :
  (8 <= n)%nat → ∃ rest, Decode handler st (replicate n Byte.x00) = Ret (st, rest, Some io_EOF).
Proof.
  intros. replace n with (8 + (n - 8))%nat by lia. rewrite replicate_add.
  exists (replicate (n - 8) Byte.x00). unfold Decode, HeaderSize.
  by rewrite read_full_app by done.
Qed.

Lemma Decode_eof {S} (handler : Handler S) st :
  Decode handler st [] = Ret (st, [], Some io_EOF).
Proof. unfold Decode. by rewrite read_full_eof by (unfold HeaderSize; lia). Qed.

(** A body above the 24-bit size field is refused without touching the
    writer or the running checksum. *)
Lemma Encode_size_limit `{Writer W} `{EncodeLog T} (e : Encoder W) t n (m : T) :
  maxLogSize < n → Encode e t n m = Ret (e, Some ErrLogSizeExceedLimit).
Proof. intros. unfold Encode. by rewrite decide_True. Qed.
End Codec.

(** ** Examples, with buffers made on demand *)

Module Heap.
Definition make_buf (n : Z) : go (list byte) := Ret (replicate (Z.to_nat n) Byte.x00).

#[export] Instance heap_buffers : BufferPool.
Proof.
  refine {| acquire_buf := make_buf |}.
  intros n b. unfold make_buf. intros ?. simplify_eq. rewrite length_replicate. lia.
Defined.

(** A handler that collects what it is given. *)
Definition collect : Handler (list (Z * list byte)) :=
  λ st t body _ _, Ret (st ++ [(t, body)], None).

Lemma Decode_empty_zero_crc_witness :
  Decode collect [] (log_frame 1 [] 0 ++ log_frame 3 [Byte.x41] 9)
  = Ret ([], log_frame 3 [Byte.x41] 9, Some io_EOF).
Proof. apply (Decode_empty_zero_crc collect [] 1). lia. Defined.
End Heap.
