(* ===== verification/PageWriter.v ===== *)
(** * The page-aligned writer of a log file: [logfile/page/writer.go]

    The writer gathers bytes in a buffer of [bufSize] plus one page and hands
    them to the file so that, between two [Sync]s, every file write ends on a page
    boundary.  The file is modelled with its contents, its write position, what
    the last sync made durable, and the outcomes the operating system has in store
    for the next writes.  The main theorem is that the writer refines an
    append-only byte stream: no write panics, overruns the buffer, loses or
    reorders a byte. *)

From S2P Require Import Prelude.

(** ** [os.File] as the log uses it *)

(** [faults] tells what the next calls to [Write] do: [Some n] fails after the
    first [n] bytes, [None] (and the end of the list) succeeds. *)
Record File := {
  content : list byte;
  fpos : nat;
  durable : list byte;
  faults : list (option nat)
}.

Definition os_ErrWrite : error := Sentinel "os.PathError: write".

(** Overwriting (and extending) the contents at the write position. *)
Definition overwrite (c : list byte) (pos : nat) (d : list byte) : list byte :=
  take pos (c ++ replicate (pos - length c) Byte.x00) ++ d ++ drop (pos + length d) c.

Definition file_put (f : File) (d : list byte) (rest : list (option nat)) : File :=
  {| content := overwrite (content f) (fpos f) d; fpos := fpos f + length d;
     durable := durable f; faults := rest |}.

Definition file_write (f : File) (d : list byte) : File * nat * option error :=
  match faults f with
  | Some n :: rest =>
      let d' := take n d in (file_put f d' rest, length d', Some os_ErrWrite)
  | None :: rest => (file_put f d rest, length d, None)
  | [] => (file_put f d [], length d, None)
  end.

(** [fileutil.Datasync]. *)
Definition file_sync (f : File) : File :=
  {| content := content f; fpos := fpos f; durable := content f; faults := faults f |}.

(** [Truncate(size)] cuts or zero-extends the file; the position stays. *)
Definition file_truncate (f : File) (size : nat) : File :=
  {| content := take size (content f ++ replicate (size - length (content f)) Byte.x00);
     fpos := fpos f; durable := durable f; faults := faults f |}.

(** The bytes before the write position. *)
Definition written (f : File) : list byte := take (fpos f) (content f).

(** ** The writer *)

Record PageWriter := {
  segmentSize : nat;
  pageSize : nat;
  currentOffset : nat;
  bufWritePos : nat;
  bufSize : nat;
  buffer : list byte;
  pf : File
}.

Definition set_buffer (p : PageWriter) (b : list byte) (pos : nat) : PageWriter :=
  {| segmentSize := segmentSize p; pageSize := pageSize p; currentOffset := currentOffset p;
     bufWritePos := pos; bufSize := bufSize p; buffer := b; pf := pf p |}.
Definition set_file (p : PageWriter) (f : File) : PageWriter :=
  {| segmentSize := segmentSize p; pageSize := pageSize p; currentOffset := currentOffset p;
     bufWritePos := bufWritePos p; bufSize := bufSize p; buffer := buffer p; pf := f |}.
Definition set_offset (p : PageWriter) (o : nat) : PageWriter :=
  {| segmentSize := segmentSize p; pageSize := pageSize p; currentOffset := o;
     bufWritePos := bufWritePos p; bufSize := bufSize p; buffer := buffer p; pf := pf p |}.

(** [CreateWriter]: the writer continues at the file's position. *)
Definition CreateWriter (segSize pgSize bufSz : nat) (f : File) : PageWriter :=
  {| segmentSize := segSize; pageSize := pgSize; currentOffset := fpos f; bufWritePos := 0;
     bufSize := bufSz; buffer := replicate (bufSz + pgSize) Byte.x00; pf := f |}.

(** [copy] into the buffer; slicing past its end panics. *)
Definition pw_copy (p : PageWriter) (data : list byte) : go PageWriter :=
  if decide (length (buffer p) < bufWritePos p)%nat then Panic "slice bounds out of range"
  else Ret (set_buffer p (go_copy (buffer p) (bufWritePos p) data) (bufWritePos p + length data)).

Definition pw_flush (p : PageWriter) : go (PageWriter * option error) :=
  if decide (length (buffer p) < bufWritePos p)%nat then Panic "slice bounds out of range"
  else
    let '(f, _, err) := file_write (pf p) (take (bufWritePos p) (buffer p)) in
    match err with
    | Some _ => Ret (set_file p f, err)
    | None => Ret (set_buffer (set_file p f) (buffer p) 0, None)
    end.

Definition Sync (p : PageWriter) (enableSync : bool) : go (PageWriter * option error) :=
  '(p, err) ← pw_flush p;
  match err with
  | Some _ => Ret (p, err)
  | None => Ret (if enableSync then set_file p (file_sync (pf p)) else p, None)
  end.

Definition Truncate (p : PageWriter) : PageWriter :=
  set_file p (file_truncate (pf p) (currentOffset p)).

Definition CheckCycle (p : PageWriter) : bool := bool_decide (segmentSize p < currentOffset p)%nat.

(** The end of [Write]: less than a page and a byte goes to the buffer. *)
Definition write_rest (p : PageWriter) (data : list byte) (total : nat)
    : go (PageWriter * nat * option error) :=
  p ← pw_copy p data;
  Ret (set_offset p (currentOffset p + (total + length data)), total + length data, None)%nat.

(** The tail of [Write], from the flush on: [total] bytes of the call are already
    in the buffer, [data] are the others. *)
Definition write_pages (p : PageWriter) (data : list byte) (total : nat)
    : go (PageWriter * nat * option error) :=
  '(p, err) ← pw_flush p;
  match err with
  | Some _ => Ret (p, total, err)
  | None =>
      if decide (pageSize p < length data)%nat then
        let wSize := (length data / pageSize p * pageSize p)%nat in
        let '(f, n, err) := file_write (pf p) (take wSize data) in
        match err with
        | Some _ => Ret (set_file p f, total + n, err)%nat
        | None => write_rest (set_file p f) (drop wSize data) (total + wSize)%nat
        end
      else write_rest p data total
  end.

Definition Write (p : PageWriter) (data : list byte) : go (PageWriter * nat * option error) :=
  let writeDataLen := length data in
  if decide (bufWritePos p + writeDataLen <= bufSize p)%nat then
    p' ← pw_copy p data;
    Ret (set_offset p' (currentOffset p + writeDataLen), writeDataLen, None)%nat
  else if decide (pageSize p = 0)%nat then Panic "integer divide by zero"
  else
    let nextAlignmentSize := (pageSize p - currentOffset p mod pageSize p)%nat in
    if decide (nextAlignmentSize ≠ pageSize p) then
      if decide (writeDataLen < nextAlignmentSize)%nat then
        p' ← pw_copy p data;
        Ret (set_offset p' (currentOffset p + writeDataLen), writeDataLen, None)%nat
      else
        p' ← pw_copy p (take nextAlignmentSize data);
        write_pages p' (drop nextAlignmentSize data) nextAlignmentSize
    else write_pages p data 0.

(** The writer seen as an [io.Writer]. *)
Definition Write_err (p : PageWriter) (data : list byte) : go (PageWriter * option error) :=
  '(p, _, err) ← Write p data; Ret (p, err).

#[export] Instance page_writer : Writer PageWriter := Write_err.

(** ** The byte stream a writer stands for *)

(** Everything written so far: what the file holds before its position, then what
    waits in the buffer. *)
Definition stream (p : PageWriter) : list byte :=
  written (pf p) ++ take (bufWritePos p) (buffer p).

Definition quiet (f : File) : Prop := Forall (fun o => o = None) (faults f).

(** What holds at every point of a method. *)
Record pw_core (p : PageWriter) : Prop := {
  core_page : (0 < pageSize p)%nat;
  core_buf : length (buffer p) = (bufSize p + pageSize p)%nat;
  core_room : (bufWritePos p <= length (buffer p))%nat;
  core_pos : (fpos (pf p) <= length (content (pf p)))%nat;
  core_quiet : quiet (pf p)
}.

(** What holds between two methods: the offset is the length of the stream, and a
    buffer filled past [bufSize] has not left the page it was in. *)
Record pw_ok (p : PageWriter) : Prop := {
  ok_core : pw_core p;
  ok_off : currentOffset p = (fpos (pf p) + bufWritePos p)%nat;
  ok_page : (bufWritePos p <= bufSize p + currentOffset p mod pageSize p)%nat ∨
            (currentOffset p mod pageSize p = 0 ∧ bufWritePos p <= bufSize p + pageSize p)%nat
}.

(** The configuration no method changes. *)
Definition same_cfg (p q : PageWriter) : Prop :=
  segmentSize q = segmentSize p ∧ pageSize q = pageSize p ∧ bufSize q = bufSize p.

Lemma take_overwrite c pos d :
  (pos <= length c)%nat → take (pos + length d) (overwrite c pos d) = take pos c ++ d.
Proof.
  intros. unfold overwrite. rewrite (take_app_le c) by done. rewrite (assoc_L (++)).
  apply take_app_length'. rewrite length_app, length_take. lia.
Qed.

Lemma length_overwrite c pos d :
  (pos <= length c)%nat → (pos + length d <= length (overwrite c pos d))%nat.
Proof.
  intros. unfold overwrite. rewrite (take_app_le c) by done.
  rewrite !length_app, length_take. lia.
Qed.

Lemma file_write_quiet f d :
  quiet f → (fpos f <= length (content f))%nat →
  ∃ f', file_write f d = (f', length d, None) ∧ quiet f' ∧
    (fpos f' <= length (content f'))%nat ∧ fpos f' = (fpos f + length d)%nat ∧
    written f' = written f ++ d ∧ durable f' = durable f.
Proof.
  intros Hq Hpos.
  assert (∀ rest, Forall (fun o => o = None) rest →
    let f' := file_put f d rest in
    quiet f' ∧ (fpos f' <= length (content f'))%nat ∧ fpos f' = (fpos f + length d)%nat ∧
    written f' = written f ++ d ∧ durable f' = durable f) as Hput.
  { intros rest Hr. simpl. split_and!; [done|by apply length_overwrite|done| |done].
    unfold written. simpl. by apply take_overwrite. }
  unfold file_write, quiet in *. destruct (faults f) as [|o rest].
  - eexists; split; [done|]. by apply Hput.
  - apply Forall_cons in Hq as [-> Hr]. eexists; split; [done|]. by apply Hput.
Qed.

Lemma pw_copy_spec p d :
  pw_core p → (bufWritePos p + length d <= length (buffer p))%nat →
  ∃ q, pw_copy p d = Ret q ∧ pw_core q ∧ same_cfg p q ∧ stream q = stream p ++ d ∧
    pf q = pf p ∧ bufWritePos q = (bufWritePos p + length d)%nat ∧
    currentOffset q = currentOffset p.
Proof.
  intros [] Hfit. unfold pw_copy. rewrite decide_False by lia. eexists; split; [done|].
  assert (length (go_copy (buffer p) (bufWritePos p) d) = length (buffer p))
    by (apply length_go_copy; lia).
  split_and!; try done.
  - constructor; simpl; done || lia.
  - unfold stream. simpl. rewrite take_go_copy by done. by rewrite (assoc_L (++)).
Qed.

Lemma pw_flush_spec p :
  pw_core p →
  ∃ q, pw_flush p = Ret (q, None) ∧ pw_core q ∧ same_cfg p q ∧ stream q = stream p ∧
    bufWritePos q = 0%nat ∧ fpos (pf q) = (fpos (pf p) + bufWritePos p)%nat ∧
    currentOffset q = currentOffset p ∧ written (pf q) = stream p.
Proof.
  intros []. unfold pw_flush. rewrite decide_False by lia.
  destruct (file_write_quiet (pf p) (take (bufWritePos p) (buffer p)))
    as (f & -> & ? & ? & Hpos & Hw & _); [done..|].
  rewrite length_take in Hpos. eexists; split; [done|].
  split_and!; try done.
  - constructor; simpl; done || lia.
  - unfold stream. simpl. by rewrite take_0, app_nil_r.
  - simpl. lia.
Qed.

(** What the methods that end a [Write] achieve. *)
Record appended (p : PageWriter) (d : list byte) (total : nat) (q : PageWriter) : Prop := {
  app_core : pw_core q;
  app_cfg : same_cfg p q;
  app_stream : stream q = stream p ++ d;
  app_off : currentOffset q = (currentOffset p + (total + length d))%nat;
  app_aligned : (fpos (pf q) mod pageSize q = 0)%nat;
  app_buf : (bufWritePos q <= pageSize q)%nat;
  app_pos : (fpos (pf q) + bufWritePos q = fpos (pf p) + bufWritePos p + length d)%nat
}.

Lemma write_rest_spec p d total :
  pw_core p → bufWritePos p = 0%nat → (fpos (pf p) mod pageSize p = 0)%nat →
  (length d <= pageSize p)%nat →
  ∃ q, write_rest p d total = Ret (q, total + length d, None)%nat ∧ appended p d total q.
Proof.
  intros Hc Hb Hal Hlen.
  destruct (pw_copy_spec p d Hc) as (q & Heq & Hcq & (Hx & Hy & Hz) & Hsq & Hfq & Hbq & Hoq).
  { rewrite (core_buf _ Hc). lia. }
  unfold write_rest. rewrite Heq. eexists; split; [done|].
  destruct Hcq. constructor; simpl; rewrite ?Hfq, ?Hbq, ?Hoq, ?Hy; try done; try lia.
Qed.

Lemma write_pages_spec p d total :
  pw_core p → ((fpos (pf p) + bufWritePos p) mod pageSize p = 0)%nat →
  ∃ q, write_pages p d total = Ret (q, total + length d, None)%nat ∧ appended p d total q.
Proof.
  intros Hc Hal. pose proof (core_page _ Hc) as Hps.
  destruct (pw_flush_spec p Hc)
    as (p1 & Hfl & Hc1 & (Hcs & Hcp & Hcb) & Hs1 & Hb1 & Hp1 & Ho1 & Hw1).
  unfold write_pages. rewrite Hfl. cbn [mbind go_bind]. case_decide as Hbig.
  - set (w := (length d / pageSize p1 * pageSize p1)%nat).
    assert (w <= length d)%nat as Hw by (unfold w; rewrite Nat.mul_comm; apply Nat.Div0.mul_div_le).
    assert (length d - w < pageSize p1)%nat as Hr.
    { unfold w. pose proof (Nat.div_mod_eq (length d) (pageSize p1)).
      pose proof (Nat.mod_upper_bound (length d) (pageSize p1)). lia. }
    destruct (file_write_quiet (pf p1) (take w d)) as (f & -> & Hq & Hfp & Hpos & Hwr & _);
      [by apply core_quiet|by apply core_pos|].
    rewrite length_take, Nat.min_l in Hpos by done.
    destruct (write_rest_spec (set_file p1 f) (drop w d) (total + w)%nat) as (q & -> & []).
    + destruct Hc1. constructor; simpl; done.
    + done.
    + simpl. rewrite Hpos, Hp1, Hcp. unfold w. rewrite Hcp. by rewrite Nat.Div0.mod_add.
    + rewrite length_drop. simpl. lia.
    + simpl in *. rewrite length_drop in *. exists q.
      split; [by replace (total + w + (length d - w))%nat with (total + length d)%nat by lia|].
      constructor; try done; simpl; [..|lia|lia].
      * unfold same_cfg in *. simpl in *. destruct app_cfg0 as (? & ? & ?); split_and!; congruence.
      * rewrite app_stream0. unfold stream at 1. simpl.
        rewrite Hb1, take_0, app_nil_r, Hwr, Hw1. by rewrite <- (assoc_L (++)), take_drop.
  - destruct (write_rest_spec p1 d total) as (q & -> & []); [done|done|by rewrite Hp1, Hcp|lia|].
    exists q. split; [done|]. constructor; try done; simpl; [..|lia|lia].
    + unfold same_cfg in *. destruct app_cfg0 as (? & ? & ?); split_and!; congruence.
    + congruence.
Qed.

(** ** Properties *)

(** Room for the bytes up to the next page boundary. *)
Lemma pw_ok_room p (d : list byte) :
  pw_ok p → (0 < currentOffset p mod pageSize p)%nat →
  (length d <= pageSize p - currentOffset p mod pageSize p)%nat →
  (bufWritePos p + length d <= length (buffer p))%nat.
Proof.
  intros [Hc Ho Hp] Hpos Hd. rewrite (core_buf _ Hc).
  pose proof (core_page _ Hc).
  pose proof (Nat.mod_upper_bound (currentOffset p) (pageSize p)). lia.
Qed.

Lemma appended_ok p d total q :
  appended p d total q → currentOffset p = (fpos (pf p) + bufWritePos p - total)%nat →
  (total <= fpos (pf p) + bufWritePos p)%nat → pw_ok q.
Proof.
  intros [Hc Hcfg Hs Ho Hal Hb Hp] Hoff Htot. constructor; [done|lia|].
  assert (currentOffset q = fpos (pf q) + bufWritePos q)%nat as -> by lia.
  pose proof (core_page _ Hc). rewrite <- Nat.Div0.add_mod_idemp_l, Hal.
  destruct (decide (bufWritePos q = pageSize q)) as [->|].
  - right. split; [apply Nat.Div0.mod_same|lia].
  - left. simpl. rewrite Nat.mod_small by lia. lia.
Qed.

Lemma copied_ok p d :
  pw_ok p →
  (bufWritePos p + length d <= bufSize p)%nat ∨
  (0 < currentOffset p mod pageSize p ∧
   length d < pageSize p - currentOffset p mod pageSize p)%nat →
  ∃ q, pw_copy p d = Ret q ∧ stream q = stream p ++ d ∧
    pw_ok (set_offset q (currentOffset p + length d)) ∧ pf q = pf p ∧ same_cfg p q.
Proof.
  intros Hok Hd. pose proof (ok_core _ Hok) as Hc. pose proof (core_page _ Hc).
  destruct (pw_copy_spec p d Hc) as (q & Heq & Hcq & (Hx & Hy & Hz) & Hsq & Hfq & Hbq & Hoq).
  { destruct Hd as [|[]]; [rewrite (core_buf _ Hc); lia|]. apply pw_ok_room; [done|lia|lia]. }
  exists q. split_and!; try done. destruct Hok as [_ Ho Hp], Hcq.
  constructor; simpl; [constructor; done|rewrite Hfq; lia|]. left. rewrite Hy, Hz, Hbq.
  destruct Hd as [|[Hm Hlt]]; [lia|].
  assert (((currentOffset p + length d) mod pageSize p = currentOffset p mod pageSize p + length d)%nat)
    as ->; [|lia].
  rewrite <- Nat.Div0.add_mod_idemp_l. apply Nat.mod_small. lia.
Qed.

(** The page writer refines an append-only byte stream.  Writing to a writer
    in good order returns the number of bytes given, without panicking or
    overrunning its buffer; the stream grows by exactly these bytes, the offset
    stays the length of the stream, and the file is either left alone or left at
    a page boundary. *)
Lemma Write_appends p d :
  pw_ok p →
  ∃ q, Write p d = Ret (q, length d, None) ∧ pw_ok q ∧ stream q = stream p ++ d ∧
    currentOffset q = (currentOffset p + length d)%nat ∧ same_cfg p q ∧
    (pf q = pf p ∨ (fpos (pf q) mod pageSize q = 0)%nat).
Proof.
  intros Hok. pose proof (ok_core _ Hok) as Hc. pose proof (core_page _ Hc) as Hps.
  pose proof (Nat.mod_upper_bound (currentOffset p) (pageSize p)) as Hmod.
  unfold Write. case_decide as Hfit.
  { destruct (copied_ok p d Hok) as (q & -> & Hs & Hq & Hf & Hcfg); [by left|].
    eexists; split_and!; [done|done|done|done|done|by left]. }
  rewrite decide_False by lia. case_decide as Hal.
  - case_decide as Hin.
    + destruct (copied_ok p d Hok) as (q & -> & Hs & Hq & Hf & Hcfg); [right; lia|].
      eexists; split_and!; [done|done|done|done|done|by left].
    + set (a := (pageSize p - currentOffset p mod pageSize p)%nat) in *.
      destruct (pw_copy_spec p (take a d) Hc)
        as (p1 & -> & Hc1 & (Hx & Hy & Hz) & Hs1 & Hf1 & Hb1 & Ho1).
      { apply pw_ok_room; [done|lia|rewrite length_take; lia]. }
      rewrite length_take, Nat.min_l in Hb1 by lia. cbn [mbind go_bind].
      pose proof (ok_off _ Hok) as Ho.
      destruct (write_pages_spec p1 (drop a d) a Hc1) as (q & -> & Hq).
      { rewrite Hf1, Hb1, Hy, Nat.add_assoc, <- Ho. unfold a.
        pose proof (Nat.div_mod_eq (currentOffset p) (pageSize p)).
        replace (currentOffset p + (pageSize p - currentOffset p mod pageSize p))%nat
          with (0 + (currentOffset p / pageSize p + 1) * pageSize p)%nat by nia.
        rewrite Nat.Div0.mod_add. apply Nat.Div0.mod_0_l. }
      assert (a + length (drop a d) = length d)%nat as Hl by (rewrite length_drop; lia).
      rewrite Hl. exists q. pose proof (app_cfg _ _ _ _ Hq) as (? & ? & ?).
      split_and!; [done|eapply appended_ok; [done|rewrite Hf1; lia|rewrite Hf1; lia]| | | |right; by apply Hq].
      * rewrite (app_stream _ _ _ _ Hq), Hs1, <- (assoc_L (++)). by rewrite take_drop.
      * rewrite (app_off _ _ _ _ Hq). lia.
      * repeat split; congruence.
  - destruct (write_pages_spec p d 0 Hc) as (q & -> & Hq).
    { rewrite <- (ok_off _ Hok). lia. }
    pose proof (ok_off _ Hok). exists q.
    split_and!; [done|eapply appended_ok; [done|lia|lia]|apply Hq| |apply Hq|right; by apply Hq].
    rewrite (app_off _ _ _ _ Hq). lia.
Qed.

(** [Sync] empties the buffer into the file, and with fsync enabled makes the
    whole stream durable; nothing is lost or changed. *)
Lemma Sync_durable p enableSync :
  pw_ok p →
  ∃ q, Sync p enableSync = Ret (q, None) ∧ pw_ok q ∧ stream q = stream p ∧
    written (pf q) = stream p ∧ currentOffset q = currentOffset p ∧ same_cfg p q ∧
    (enableSync = true → stream p `prefix_of` durable (pf q)).
Proof.
  intros [Hc Ho Hp].
  destruct (pw_flush_spec p Hc) as (q & Hfl & Hq & Hcfg & Hs & Hb & Hpos & Hoq & Hw).
  unfold Sync. rewrite Hfl. cbn [mbind go_bind].
  assert (∀ f, written f = written (pf q) → fpos f = fpos (pf q) →
    (fpos f <= length (content f))%nat → quiet f → pw_ok (set_file q f)) as Hset.
  { intros f Hf1 Hf2 Hf3 Hf4. destruct Hq. constructor; simpl; [constructor; done|lia|left; lia]. }
  destruct Hq. destruct enableSync; eexists; (split; [done|]).
  - split_and!; [by apply Hset| |done|done|done|].
    + unfold stream in *. simpl. done.
    + intros _. simpl. rewrite <- Hw. unfold written. apply prefix_take.
  - split_and!; try done. destruct q. apply Hset; done.
Qed.

(** A fresh writer on a file is in good order, and stands for what is before the
    file's position. *)
Lemma CreateWriter_ok seg page buf f :
  (0 < page)%nat → (fpos f <= length (content f))%nat → quiet f →
  pw_ok (CreateWriter seg page buf f) ∧ stream (CreateWriter seg page buf f) = written f.
Proof.
  intros. split.
  - constructor; simpl; [constructor; simpl; rewrite ?length_replicate; done || lia|lia|left; lia].
  - unfold stream. simpl. by rewrite app_nil_r.
Qed.

(** Truncating at the offset drops the preallocated tail and keeps the stream,
    once the buffer has been flushed. *)
Lemma Truncate_stream p :
  pw_ok p → bufWritePos p = 0%nat →
  content (pf (Truncate p)) = stream p ∧ stream (Truncate p) = stream p.
Proof.
  intros [Hc Ho Hp] Hb. rewrite Hb, Nat.add_0_r in Ho. destruct Hc.
  unfold Truncate, stream, written. simpl. rewrite Hb, Ho, take_0, app_nil_r.
  rewrite take_app_le by done. rewrite take_take, Nat.min_id, app_nil_r. done.
Qed.

(** ** The unwritten space behind the position stays zero *)

Definition clean (f : File) : Prop :=
  (fpos f <= length (content f))%nat ∧ Forall (λ b, b = Byte.x00) (drop (fpos f) (content f)).

Lemma file_put_clean f d rest : clean f → clean (file_put f d rest).
Proof.
  intros [Hpos Hz]. split; simpl; [by apply length_overwrite|].
  unfold overwrite. rewrite (take_app_le (content f)) by done. rewrite (assoc_L (++)).
  rewrite drop_app_length' by (rewrite length_app, length_take; lia).
  rewrite <- drop_drop. by apply Forall_drop.
Qed.

(** What writing, as opposed to syncing, does to a file: it moves the position forward,
    keeps the space behind it clean, and makes nothing durable. *)
Definition wrote (f f' : File) : Prop :=
  (fpos f <= fpos f')%nat ∧ (clean f → clean f') ∧ durable f' = durable f.

#[export] Instance wrote_preorder : PreOrder wrote.
Proof.
  split; [intros f; split_and!; auto|]. intros f g h (? & ? & ?) (? & ? & ?).
  split_and!; [lia|auto|congruence].
Qed.

Lemma file_write_wrote f d f' n e : file_write f d = (f', n, e) → wrote f f'.
Proof.
  unfold file_write. destruct (faults f) as [|[k|] rest]; intros ?; simplify_eq/=;
    (split_and!; [simpl; lia|apply file_put_clean|done]).
Qed.

Lemma pw_copy_file p d q : pw_copy p d = Ret q → pf q = pf p.
Proof. unfold pw_copy. case_decide; intros ?; by simplify_eq. Qed.

Lemma pw_flush_wrote p q e : pw_flush p = Ret (q, e) → wrote (pf p) (pf q).
Proof.
  unfold pw_flush. case_decide; [done|].
  destruct (file_write (pf p) _) as [[f n] err] eqn:E. apply file_write_wrote in E.
  destruct err; intros ?; by simplify_eq/=.
Qed.

Lemma write_rest_file p d t q n e : write_rest p d t = Ret (q, n, e) → pf q = pf p.
Proof.
  unfold write_rest. destruct (pw_copy p d) as [p'|] eqn:E; [|done]. intros ?; simplify_eq/=.
  by apply pw_copy_file in E.
Qed.

Lemma write_pages_wrote p d t q n e : write_pages p d t = Ret (q, n, e) → wrote (pf p) (pf q).
Proof.
  unfold write_pages. destruct (pw_flush p) as [[p1 err]|] eqn:E; [|done].
  apply pw_flush_wrote in E. cbn [mbind go_bind].
  destruct err; [by intros ?; simplify_eq/=|]. case_decide.
  - destruct (file_write (pf p1) _) as [[f k] err] eqn:Ef. apply file_write_wrote in Ef.
    assert (wrote (pf p) f) by (etransitivity; eassumption).
    destruct err; [by intros ?; simplify_eq/=|]. by intros ->%write_rest_file.
  - by intros ->%write_rest_file.
Qed.

Lemma Write_wrote p d q n e : Write p d = Ret (q, n, e) → wrote (pf p) (pf q).
Proof.
  unfold Write. repeat case_decide; try done.
  - destruct (pw_copy p d) eqn:E; [|done]. apply pw_copy_file in E. intros ?; simplify_eq/=. by rewrite E.
  - destruct (pw_copy p d) eqn:E; [|done]. apply pw_copy_file in E. intros ?; simplify_eq/=. by rewrite E.
  - destruct (pw_copy p _) eqn:E; [|done]. apply pw_copy_file in E. rewrite <- E. apply write_pages_wrote.
  - apply write_pages_wrote.
Qed.

Lemma Write_clean p d q n e : clean (pf p) → Write p d = Ret (q, n, e) → clean (pf q).
Proof. intros Hp (_ & Hc & _)%Write_wrote. by apply Hc. Qed.

Lemma Sync_file p b q e : Sync p b = Ret (q, e) →
  (fpos (pf p) <= fpos (pf q))%nat ∧ (clean (pf p) → clean (pf q)).
Proof.
  unfold Sync. destruct (pw_flush p) as [[p1 err]|] eqn:E; [|done].
  apply pw_flush_wrote in E as (? & ? & _). destruct err, b; intros ?; by simplify_eq/=.
Qed.

(** ** Every run of a writer *)

Inductive writer_op :=
| DoWrite (d : list byte)
| DoSync (enableSync : bool).

Definition writer_step (p : PageWriter) (op : writer_op) : go (PageWriter * option error) :=
  match op with
  | DoWrite d => Write_err p d
  | DoSync b => Sync p b
  end.

(** A run stops at the first error. *)
Fixpoint writer_run (p : PageWriter) (ops : list writer_op) : go (PageWriter * option error) :=
  match ops with
  | [] => Ret (p, None)
  | op :: ops =>
      '(p, err) ← writer_step p op;
      match err with Some _ => Ret (p, err) | None => writer_run p ops end
  end.

(** The bytes a run writes. *)
Fixpoint ops_data (ops : list writer_op) : list byte :=
  match ops with
  | [] => []
  | DoWrite d :: ops => d ++ ops_data ops
  | DoSync _ :: ops => ops_data ops
  end.

Lemma writer_run_ok ops p : pw_ok p →
  ∃ q, writer_run p ops = Ret (q, None) ∧ pw_ok q ∧ stream q = stream p ++ ops_data ops ∧
    currentOffset q = (currentOffset p + length (ops_data ops))%nat.
Proof.
  revert p. induction ops as [|op ops IH]; intros p Hok.
  { exists p. simpl. rewrite app_nil_r, Nat.add_0_r. done. }
  destruct op as [d|b]; cbn [writer_run writer_step].
  - unfold Write_err. destruct (Write_appends p d Hok) as (q & -> & Hq & Hs & Ho & _). simpl.
    destruct (IH q Hq) as (q' & -> & Hq' & Hs' & Ho'). exists q'. split_and!; [done..| |].
    + by rewrite Hs', Hs, (assoc_L (++)).
    + rewrite Ho', Ho, length_app. lia.
  - destruct (Sync_durable p b Hok) as (q & -> & Hq & Hs & _ & Ho & _). simpl.
    destruct (IH q Hq) as (q' & -> & Hq' & Hs' & Ho'). exists q'. by rewrite Hs', Hs, Ho', Ho.
Qed.

(** The page writer refines an append-only byte stream.  Whatever sequence of writes
    of any sizes and of syncs is made on a writer opened on a file, none fails,
    panics or overruns the buffer, the file keeps its old bytes before the position
    and receives exactly the bytes written, in order; and after a sync with fsync
    enabled all of them are durable. *)
Theorem writer_refines_stream seg page buf f ops :
  (0 < page)%nat → (fpos f <= length (content f))%nat → quiet f →
  ∃ q, writer_run (CreateWriter seg page buf f) (ops ++ [DoSync true]) = Ret (q, None) ∧
    written (pf q) = written f ++ ops_data ops ∧
    currentOffset q = length (written (pf q)) ∧
    written (pf q) `prefix_of` durable (pf q).
Proof.
  intros Hpage Hpos Hq. destruct (CreateWriter_ok seg page buf f Hpage Hpos Hq) as [Hok Hst].
  destruct (writer_run_ok ops _ Hok) as (q & Hrun & Hq1 & Hs & Ho).
  destruct (Sync_durable q true Hq1) as (q' & Hsync & Hq' & Hs' & Hw & Ho' & _ & Hd).
  exists q'. split; [|split_and!].
  - clear -Hrun Hsync. revert Hrun. generalize (CreateWriter seg page buf f).
    induction ops as [|op ops IH]; intros p; cbn [writer_run app].
    + intros ?. simplify_eq. cbn [writer_step]. by rewrite Hsync.
    + destruct (writer_step p op) as [[p1 [e|]]|]; cbn [mbind go_bind]; [done|apply IH|done].
  - by rewrite Hw, Hs, Hst.
  - rewrite Ho', Ho, Hw, Hs, Hst, length_app. simpl. unfold written. rewrite length_take. lia.
  - rewrite Hw. by apply Hd.
Qed.

(** Small and large writes on 4-byte pages with a 6-byte buffer. *)
Lemma writer_refines_stream_witness :
  let f := {| content := replicate 3 Byte.x01; fpos := 3; durable := []; faults := [] |} in
  ∃ q, writer_run (CreateWriter 100 4 6 f)
         ([DoWrite [Byte.x41; Byte.x42]; DoSync false; DoWrite (replicate 20 Byte.x02)] ++ [DoSync true])
       = Ret (q, None) ∧
    written (pf q) = written f ++ ([Byte.x41; Byte.x42] ++ replicate 20 Byte.x02) ∧
    currentOffset q = length (written (pf q)) ∧ written (pf q) `prefix_of` durable (pf q).
Proof.
  apply (writer_refines_stream 100 4 6 _
           [DoWrite [Byte.x41; Byte.x42]; DoSync false; DoWrite (replicate 20 Byte.x02)]);
    [lia|simpl; lia|constructor].
Defined.
