(* ===== verification/EntryCache.v ===== *)
(** * The entry cache: [pkg/wal/walbase/cache.go]

    A growing ring buffer over a power-of-two array, holding the entries that are
    in the log but not yet committed.  The representation invariant says that the
    array, rotated to the read position, is the cached entries followed by zero
    slots; every operation is shown to refine its list counterpart. *)

From S2P Require Import Prelude Raftpb.

Record CacheEntryData := { ce_index : Z; ce_data : list byte }.
Definition zero_slot : CacheEntryData := {| ce_index := 0; ce_data := [] |}.

Record IndexRange := { r_first : Z; r_last : Z; r_empty : bool }.

Definition ToOffsetIndex (i : IndexRange) (firstItemIndex : Z) : Z * Z :=
  if r_empty i then (0, 0)
  else (u64 (r_first i - firstItemIndex), u64 (r_last i - firstItemIndex)).

Record Cache := {
  ringBuf : list CacheEntryData;
  bufferSize : Z;
  consumePos : Z;
  appendPos : Z;
  clength : Z
}.

Definition defaultBuffer : Z := 128.

Definition NewCache : Cache :=
  {| ringBuf := replicate (Z.to_nat defaultBuffer) zero_slot; bufferSize := defaultBuffer;
     consumePos := 0; appendPos := 0; clength := 0 |}.

(** Reading and writing a slot.  The positions are masked to the array's size. *)
Definition slot (c : Cache) (p : Z) : CacheEntryData :=
  default zero_slot (ringBuf c !! Z.to_nat p).
Definition set_slot (c : Cache) (p : Z) (x : CacheEntryData) : Cache :=
  {| ringBuf := <[Z.to_nat p := x]> (ringBuf c); bufferSize := bufferSize c;
     consumePos := consumePos c; appendPos := appendPos c; clength := clength c |}.

Definition inc (c : Cache) (p : Z) : Z := Z.land (u64 (p + 1)) (u64 (bufferSize c - 1)).
Definition dec (c : Cache) (p : Z) : Z := Z.land (u64 (p - 1)) (u64 (bufferSize c - 1)).

Definition cache_range (c : Cache) : IndexRange :=
  if decide (clength c = 0) then {| r_first := 0; r_last := 0; r_empty := true |}
  else {| r_first := ce_index (slot c (consumePos c));
          r_last := ce_index (slot c (dec c (appendPos c))); r_empty := false |}.

Definition growBuf (c : Cache) : Cache :=
  if decide (consumePos c = appendPos c) then
    let extendSize := u64 (Z.shiftl (bufferSize c) 1) in
    let b := replicate (Z.to_nat extendSize) zero_slot in
    let b := go_copy b 0 (drop (Z.to_nat (consumePos c)) (ringBuf c)) in
    let b := go_copy b (Z.to_nat (bufferSize c - consumePos c))
               (take (Z.to_nat (consumePos c)) (ringBuf c)) in
    {| ringBuf := b; bufferSize := extendSize; consumePos := 0; appendPos := bufferSize c;
       clength := clength c |}
  else c.

Definition append_one (c : Cache) (e : Entry) : Cache :=
  let c := set_slot c (appendPos c) {| ce_index := e_index e; ce_data := e_data e |} in
  growBuf {| ringBuf := ringBuf c; bufferSize := bufferSize c; consumePos := consumePos c;
             appendPos := inc c (appendPos c); clength := u64 (clength c + 1) |}.

(** [append]. *)
Definition cache_append (c : Cache) (entries : list Entry) : Cache := foldl append_one c entries.

(** One round of the loop of [truncate]: free the last slot. *)
Definition drop_last (c : Cache) : Cache :=
  let lastItemPos := dec c (appendPos c) in
  let c := set_slot c lastItemPos zero_slot in
  {| ringBuf := ringBuf c; bufferSize := bufferSize c; consumePos := consumePos c;
     appendPos := lastItemPos; clength := u64 (clength c - 1) |}.

Fixpoint truncate_loop (fuel : nat) (c : Cache) (lastIndex toIndex : Z) : Cache :=
  match fuel with
  | O => c
  | S fuel =>
      if decide (toIndex <= lastIndex) then
        let c := drop_last c in
        if decide (consumePos c = appendPos c) then c
        else truncate_loop fuel c (ce_index (slot c (dec c (appendPos c)))) toIndex
      else c
  end.

(** [truncate]; the loop runs at most once per cached entry. *)
Definition truncate (c : Cache) (toIndex : Z) : Cache :=
  if decide (clength c = 0) then c
  else
    let lastIndex := ce_index (slot c (dec c (appendPos c))) in
    if decide (lastIndex < toIndex) then c
    else truncate_loop (Z.to_nat (clength c)) c lastIndex toIndex.

Definition Append (c : Cache) (entries : list Entry) : go Cache :=
  match entries, last entries with
  | first :: _, Some lastE =>
      let consumeIndex := ce_index (slot c (consumePos c)) in
      let appendLast := e_index lastE in
      if decide (appendLast < consumeIndex) then Ret c
      else
        let appendFirst := e_index first in
        entries ← (if decide (appendFirst < consumeIndex) then
                     let n := Z.to_nat (u64 (consumeIndex - appendFirst)) in
                     if decide (length entries < n)%nat then Panic "slice bounds out of range"
                     else Ret (drop n entries)
                   else Ret entries);
        let offset := u64 (appendFirst - consumeIndex) in
        if decide (offset < clength c) then Ret (cache_append (truncate c appendFirst) entries)
        else if decide (clength c = offset ∨ clength c = 0) then Ret (cache_append c entries)
        else Ret c
  | _, _ => Ret c
  end.

(** One round of the loop of [Delete]: free the first slot. *)
Definition drop_first (c : Cache) : Cache :=
  let c := set_slot c (consumePos c) zero_slot in
  {| ringBuf := ringBuf c; bufferSize := bufferSize c; consumePos := inc c (consumePos c);
     appendPos := appendPos c; clength := u64 (clength c - 1) |}.

Fixpoint delete_loop (fuel : nat) (c : Cache) (firstIndex toIndex : Z) : Cache :=
  match fuel with
  | O => c
  | S fuel =>
      if decide (firstIndex <= toIndex) then
        let c := drop_first c in
        if decide (consumePos c = appendPos c) then c
        else delete_loop fuel c (ce_index (slot c (consumePos c))) toIndex
      else c
  end.

(** [Delete]; the loop runs at most once per cached entry. *)
Definition Delete (c : Cache) (toIndex : Z) : Cache :=
  if decide (clength c = 0) then c
  else
    let firstIndex := ce_index (slot c (consumePos c)) in
    if decide (toIndex < firstIndex) then c
    else delete_loop (Z.to_nat (clength c)) c firstIndex toIndex.

Definition Clear (c : Cache) : Cache := Delete c (ce_index (slot c (dec c (appendPos c)))).

Definition set_data (e : Entry) (d : list byte) : Entry :=
  {| e_term := e_term e; e_index := e_index e; e_type := e_type e; e_data := d |}.

(** The loop of [ReadEntriesData].  Every round touches [ents[i]], so it panics
    after at most one round more than there are entries. *)
Fixpoint read_loop (fuel : nat) (c : Cache) (lo hi pos : Z) (i : nat) (ents : list Entry)
    : go (list Entry) :=
  if decide (lo <= hi) then
    match fuel, ents !! i with
    | S fuel, Some e =>
        read_loop fuel c (u64 (lo + 1)) hi (inc c pos) (S i)
          (<[i := set_data e (ce_data (slot c pos))]> ents)
    | _, _ => Panic "index out of range"
    end
  else Ret ents.

(** [ReadEntriesData]: the entries with their data filled in, and whether the
    cache had them. *)
Definition ReadEntriesData (c : Cache) (ents : list Entry) : go (list Entry * bool) :=
  match ents, last ents with
  | first :: _, Some lastE =>
      if decide (clength c = 0) then Ret (ents, false)
      else
        let entsLoIndex := e_index first in
        let firstIndex := ce_index (slot c (consumePos c)) in
        if decide (entsLoIndex < firstIndex) then Ret (ents, false)
        else
          let lastIndex := ce_index (slot c (dec c (appendPos c))) in
          let entsHiIndex := e_index lastE in
          if decide (lastIndex < entsHiIndex) then Ret (ents, false)
          else
            let fetchStartPos :=
              Z.land (u64 (consumePos c + u64 (entsLoIndex - firstIndex))) (u64 (bufferSize c - 1)) in
            ents ← read_loop (length ents) c entsLoIndex entsHiIndex fetchStartPos 0 ents;
            Ret (ents, true)
  | _, _ => Ret (ents, false)
  end.

(** ** The representation invariant *)

Definition cached (e : Entry) : CacheEntryData := {| ce_index := e_index e; ce_data := e_data e |}.

(** [c] is a ring of [2^k] slots holding the entries [v], the free slots zeroed. *)
Record ring_ok (k : Z) (c : Cache) (v : list CacheEntryData) : Prop := {
  ok_k : 0 < k <= 62;
  ok_size : bufferSize c = 2 ^ k;
  ok_buf : Z.of_nat (length (ringBuf c)) = bufferSize c;
  ok_consume : 0 <= consumePos c < bufferSize c;
  ok_append : appendPos c = (consumePos c + Z.of_nat (length v)) mod bufferSize c;
  ok_length : clength c = Z.of_nat (length v);
  ok_room : Z.of_nat (length v) < bufferSize c;
  ok_view : rotate (Z.to_nat (consumePos c)) (ringBuf c)
            = v ++ replicate (Z.to_nat (bufferSize c) - length v) zero_slot
}.

Definition cache_ok (c : Cache) (v : list CacheEntryData) : Prop := ∃ k, ring_ok k c v.

Section Ring.
Implicit Types (c : Cache) (v : list CacheEntryData) (l : list CacheEntryData).

Lemma mask_mod k x : 0 <= k <= 64 → Z.land (u64 x) (2 ^ k - 1) = x mod 2 ^ k.
Proof.
  intros Hk. replace (2 ^ k - 1) with (Z.ones k) by (rewrite Z.ones_equiv; lia).
  rewrite Z.land_ones by lia. unfold u64.
  replace (2 ^ 64) with (2 ^ k * 2 ^ (64 - k)) by (rewrite <- Z.pow_add_r by lia; f_equal; lia).
  rewrite Z.rem_mul_r by (apply Z.pow_nonzero || apply Z.pow_pos_nonneg; lia).
  rewrite (Z.mul_comm (2 ^ k)), Z.mod_add by (apply Z.pow_nonzero; lia).
  apply Z.mod_mod, Z.pow_nonzero; lia.
Qed.

Lemma ring_size k c v : ring_ok k c v → 2 <= bufferSize c <= 2 ^ 62.
Proof.
  intros H. rewrite (ok_size _ _ _ H). pose proof (ok_k _ _ _ H).
  split; [change 2 with (2 ^ 1) at 1|]; apply Z.pow_le_mono_r; lia.
Qed.

Lemma ring_mask k c v x : ring_ok k c v →
  Z.land (u64 x) (u64 (bufferSize c - 1)) = x mod bufferSize c.
Proof.
  intros H. pose proof (ring_size _ _ _ H). rewrite (u64_small (bufferSize c - 1)) by lia.
  rewrite (ok_size _ _ _ H). apply mask_mod. pose proof (ok_k _ _ _ H). lia.
Qed.

Lemma ring_inc k c v p : ring_ok k c v → inc c p = (p + 1) mod bufferSize c.
Proof. apply ring_mask. Qed.
Lemma ring_dec k c v p : ring_ok k c v → dec c p = (p - 1) mod bufferSize c.
Proof. apply ring_mask. Qed.

(** The position of the [i]-th slot counted from the read position. *)
Lemma ring_pos k c v i : ring_ok k c v →
  Z.to_nat ((consumePos c + Z.of_nat i) mod bufferSize c)
  = rotate_nat_add (Z.to_nat (consumePos c)) i (length (ringBuf c)).
Proof.
  intros H. unfold rotate_nat_add. rewrite (ok_buf _ _ _ H).
  pose proof (ok_consume _ _ _ H). by rewrite Z2Nat.id by lia.
Qed.

Lemma ring_slot k c v i : ring_ok k c v → (Z.of_nat i < bufferSize c) →
  slot c ((consumePos c + Z.of_nat i) mod bufferSize c) = default zero_slot (v !! i).
Proof.
  intros H Hi. unfold slot. rewrite (ring_pos _ _ _ _ H).
  pose proof (ok_buf _ _ _ H). rewrite <- lookup_rotate_r by lia. rewrite (ok_view _ _ _ H).
  destruct (decide (i < length v)%nat) as [Hl|Hl].
  - by rewrite lookup_app_l by lia.
  - rewrite lookup_app_r by lia. rewrite (lookup_ge_None_2 v) by lia.
    rewrite lookup_replicate_2 by (pose proof (ok_room _ _ _ H); lia). done.
Qed.

Lemma ring_first k c v : ring_ok k c v → slot c (consumePos c) = default zero_slot (head v).
Proof.
  intros H. pose proof (ok_consume _ _ _ H). pose proof (ring_size _ _ _ H).
  pose proof (ring_slot _ _ _ 0 H ltac:(lia)) as Hs. simpl in Hs.
  rewrite Z.add_0_r, Z.mod_small in Hs by lia. rewrite Hs. by destruct v.
Qed.

Lemma ring_last_pos k c v : ring_ok k c v → v ≠ [] →
  dec c (appendPos c) = (consumePos c + Z.of_nat (length v - 1)) mod bufferSize c.
Proof.
  intros H Hv. rewrite (ring_dec _ _ _ _ H), (ok_append _ _ _ H).
  pose proof (ring_size _ _ _ H). rewrite Zminus_mod_idemp_l. f_equal.
  destruct v; [done|]. simpl. lia.
Qed.

Lemma ring_last k c v : ring_ok k c v → v ≠ [] →
  slot c (dec c (appendPos c)) = default zero_slot (last v).
Proof.
  intros H Hv. rewrite (ring_last_pos _ _ _ H Hv), (ring_slot _ _ _ _ H).
  - rewrite last_lookup. f_equal. f_equal. lia.
  - pose proof (ok_room _ _ _ H). lia.
Qed.

Lemma ring_set k c v i x : ring_ok k c v → Z.of_nat i < bufferSize c →
  rotate (Z.to_nat (consumePos c))
    (<[Z.to_nat ((consumePos c + Z.of_nat i) mod bufferSize c) := x]> (ringBuf c))
  = <[i := x]> (v ++ replicate (Z.to_nat (bufferSize c) - length v) zero_slot).
Proof.
  intros H Hi. rewrite (ring_pos _ _ _ _ H). pose proof (ok_buf _ _ _ H).
  rewrite rotate_insert_l by lia. by rewrite (ok_view _ _ _ H).
Qed.

Lemma rotate_succ l n : (n < length l)%nat →
  rotate (Z.to_nat ((Z.of_nat n + 1) mod Z.of_nat (length l))) l = rotate 1 (rotate n l).
Proof.
  intros Hn. assert (0 < Z.of_nat (length l)) as Hl by lia.
  apply list_eq_same_length with (length l); [by rewrite !length_rotate|by rewrite length_rotate|].
  intros i y1 y2 Hi. rewrite (lookup_rotate_r (rotate n l)) by (rewrite length_rotate; lia).
  rewrite length_rotate, !lookup_rotate_r by (try lia; unfold rotate_nat_add;
    apply Nat2Z.inj_lt; rewrite Z2Nat.id by (apply Z.mod_pos_bound; lia); apply Z.mod_pos_bound; lia).
  assert (rotate_nat_add (Z.to_nat ((Z.of_nat n + 1) mod Z.of_nat (length l))) i (length l)
          = rotate_nat_add n (rotate_nat_add 1 i (length l)) (length l)) as ->; [|congruence].
  unfold rotate_nat_add. rewrite !Z2Nat.id by (apply Z.mod_pos_bound; lia).
  rewrite Zplus_mod_idemp_l, Zplus_mod_idemp_r. f_equal. f_equal. lia.
Qed.

Lemma rotate_one x l : rotate 1 (x :: l) = l ++ [x].
Proof.
  unfold rotate. destruct l as [|y l]; [done|].
  by rewrite Nat.mod_small by (simpl; lia).
Qed.

Lemma ring_not_full k c v : ring_ok k c v → (consumePos c = appendPos c ↔ v = []).
Proof.
  intros H. rewrite (ok_append _ _ _ H).
  pose proof (ok_consume _ _ _ H). pose proof (ok_room _ _ _ H).
  destruct v as [|x v]; simpl length in *; [rewrite Z.add_0_r, Z.mod_small by lia; done|].
  split; [|done]. intros Heq.
  destruct (decide (consumePos c + Z.of_nat (S (length v)) < bufferSize c)).
  - rewrite Z.mod_small in Heq by lia. lia.
  - rewrite <- (Z.mod_unique _ (bufferSize c) 1 (consumePos c + Z.of_nat (S (length v)) - bufferSize c)) in Heq; lia.
Qed.

Lemma drop_last_ok k c v x : ring_ok k c (v ++ [x]) → ring_ok k (drop_last c) v.
Proof.
  intros H. pose proof (ring_last_pos _ _ _ H ltac:(by destruct v)) as Hp.
  pose proof (ok_room _ _ _ H) as Hr. rewrite length_app in Hp, Hr. simpl in Hp, Hr.
  replace (length v + 1 - 1)%nat with (length v) in Hp by lia.
  pose proof (ring_size _ _ _ H). pose proof (ok_length _ _ _ H) as Hlen.
  rewrite length_app in Hlen. simpl in Hlen.
  constructor; unfold drop_last, set_slot; simpl; rewrite ?Hp; try apply H.
  - rewrite length_insert. apply H.
  - reflexivity.
  - rewrite Hlen, u64_small by lia. lia.
  - lia.
  - rewrite (ring_set _ _ _ _ _ H) by lia. rewrite length_app. simpl.
    rewrite <- app_assoc, insert_app_r_alt by lia. rewrite Nat.sub_diag. simpl.
    replace (Z.to_nat (bufferSize c) - length v)%nat
      with (S (Z.to_nat (bufferSize c) - (length v + 1))) by lia.
    done.
Qed.

Lemma drop_first_ok k c v x : ring_ok k c (x :: v) → ring_ok k (drop_first c) v.
Proof.
  intros H. pose proof (ring_size _ _ _ H) as Hs. pose proof (ok_room _ _ _ H) as Hr.
  pose proof (ok_consume _ _ _ H) as Hc. pose proof (ok_length _ _ _ H) as Hlen.
  pose proof (ok_buf _ _ _ H) as Hb. simpl in Hr, Hlen.
  pose proof (Z.mod_pos_bound (consumePos c + 1) (bufferSize c)).
  constructor; unfold drop_first, set_slot; simpl; unfold inc; simpl;
    rewrite ?(ring_mask _ _ _ _ H); try apply H.
  - rewrite length_insert. apply H.
  - lia.
  - rewrite (ok_append _ _ _ H), Zplus_mod_idemp_l. f_equal. simpl. lia.
  - rewrite Hlen, u64_small by lia. lia.
  - lia.
  - rewrite <- (Z2Nat.id (consumePos c)) at 1 by lia. rewrite <- Hb at 1.
    rewrite <- (length_insert (ringBuf c) (Z.to_nat (consumePos c)) zero_slot) at 1.
    rewrite rotate_succ by (rewrite length_insert; lia).
    pose proof (ring_set _ _ _ 0 zero_slot H ltac:(lia)) as Hset. simpl in Hset.
    rewrite Z.add_0_r, Z.mod_small in Hset by lia. rewrite Hset, rotate_one.
    rewrite <- app_assoc, <- replicate_S_end. do 2 f_equal. lia.
Qed.

(** The slot written, before the buffer is grown. *)
Definition appended_slot (c : Cache) (e : Entry) : Cache :=
  {| ringBuf := <[Z.to_nat (appendPos c) := cached e]> (ringBuf c); bufferSize := bufferSize c;
     consumePos := consumePos c; appendPos := inc c (appendPos c); clength := u64 (clength c + 1) |}.

Lemma appended_slot_view k c v e : ring_ok k c v →
  rotate (Z.to_nat (consumePos c)) (ringBuf (appended_slot c e))
  = (v ++ [cached e]) ++ replicate (Z.to_nat (bufferSize c) - (length v + 1)) zero_slot.
Proof.
  intros H. pose proof (ok_room _ _ _ H). simpl. rewrite (ok_append _ _ _ H).
  rewrite (ring_set _ _ _ _ _ H) by lia.
  rewrite insert_app_r_alt by lia. rewrite Nat.sub_diag, <- app_assoc. f_equal.
  replace (Z.to_nat (bufferSize c) - length v)%nat
    with (S (Z.to_nat (bufferSize c) - (length v + 1))) by lia.
  done.
Qed.

Lemma appended_slot_ok k c v e : ring_ok k c v → Z.of_nat (length v) + 1 < bufferSize c →
  ring_ok k (appended_slot c e) (v ++ [cached e]).
Proof.
  intros H Hroom. pose proof (ring_size _ _ _ H).
  constructor; try rewrite length_app; unfold appended_slot; simpl; try apply H.
  - rewrite length_insert. apply H.
  - unfold inc. rewrite (ring_mask _ _ _ _ H), (ok_append _ _ _ H), Zplus_mod_idemp_l.
    f_equal. lia.
  - rewrite (ok_length _ _ _ H), u64_small by lia. lia.
  - lia.
  - rewrite <- (appended_slot_view _ _ _ _ H). done.
Qed.

Lemma grow_copy l cp : (cp <= length l)%nat →
  go_copy (go_copy (replicate (length l + length l) zero_slot) 0 (drop cp l))
    (length l - cp) (take cp l)
  = (drop cp l ++ take cp l) ++ replicate (length l) zero_slot.
Proof.
  intros Hcp.
  rewrite (go_copy_fits (replicate _ _)) by (rewrite length_replicate, length_drop; lia).
  rewrite take_0, app_nil_l, drop_replicate, length_drop, Nat.add_0_l.
  assert (Hd : length (drop cp l) = (length l - cp)%nat) by (rewrite length_drop; lia).
  rewrite go_copy_fits by (rewrite length_app, Hd, length_replicate, length_take; lia).
  rewrite take_app_length' by done.
  rewrite drop_app_ge by (rewrite Hd; lia).
  rewrite drop_replicate, Hd, length_take, <- app_assoc. do 3 f_equal. lia.
Qed.

Lemma append_one_ok c v e : cache_ok c v → Z.of_nat (length v) + 1 < 2 ^ 62 →
  cache_ok (append_one c e) (v ++ [cached e]).
Proof.
  intros [k H] Hbound. change (append_one c e) with (growBuf (appended_slot c e)).
  pose proof (ok_room _ _ _ H). pose proof (ok_consume _ _ _ H) as Hc. pose proof (ok_buf _ _ _ H).
  pose proof (ring_size _ _ _ H). pose proof (ok_k _ _ _ H).
  destruct (decide (Z.of_nat (length v) + 1 < bufferSize c)) as [Hroom|Hfull].
  { pose proof (appended_slot_ok _ _ _ e H Hroom) as H'. exists k. unfold growBuf.
    rewrite decide_False; [done|]. rewrite (ring_not_full _ _ _ H'). by destruct v. }
  assert (bufferSize c = Z.of_nat (length v) + 1) as Hsize by lia.
  assert (k < 62) as Hk.
  { apply (Z.pow_lt_mono_r_iff 2); [lia..|]. rewrite <- (ok_size _ _ _ H). lia. }
  pose proof (appended_slot_view _ _ _ e H) as Hv.
  replace (Z.to_nat (bufferSize c) - (length v + 1))%nat with 0%nat in Hv by lia.
  rewrite app_nil_r in Hv. set (c' := appended_slot c e) in *.
  assert (Hlen : length (ringBuf c') = Z.to_nat (bufferSize c)).
  { unfold c', appended_slot. simpl. rewrite length_insert. lia. }
  unfold growBuf. rewrite decide_True.
  2: { unfold c', appended_slot. simpl. unfold inc. rewrite (ring_mask _ _ _ _ H).
       rewrite (ok_append _ _ _ H), Zplus_mod_idemp_l, Hsize.
       rewrite <- Z.add_assoc, Z.add_mod, Z.mod_same, Z.add_0_r, Z.mod_mod, Z.mod_small by lia. done. }
  change (bufferSize c') with (bufferSize c). change (consumePos c') with (consumePos c).
  rewrite Z.shiftl_mul_pow2, Z.pow_1_r, u64_small by lia.
  replace (Z.to_nat (bufferSize c * 2)) with (length (ringBuf c') + length (ringBuf c'))%nat by lia.
  replace (Z.to_nat (bufferSize c - consumePos c))
    with (length (ringBuf c') - Z.to_nat (consumePos c))%nat by lia.
  rewrite grow_copy by lia. unfold rotate in Hv.
  rewrite Nat.mod_small in Hv by lia. rewrite Hv, Hlen.
  assert (Hl' : length (v ++ [cached e]) = Z.to_nat (bufferSize c)) by (rewrite length_app; simpl; lia).
  exists (k + 1). constructor; simpl; rewrite ?Hl'; try lia.
  - rewrite Z.pow_add_r, (ok_size _ _ _ H) by lia. lia.
  - rewrite length_app, length_replicate, Hl'. lia.
  - rewrite Z2Nat.id, Z.mod_small by lia. done.
  - unfold c', appended_slot. simpl. rewrite (ok_length _ _ _ H), u64_small by lia. lia.
  - unfold rotate. rewrite Nat.Div0.mod_0_l, drop_0, take_0, app_nil_r.
    f_equal. f_equal. lia.
Qed.
End Ring.

(** ** The operations on the cached entries as a list *)

(** What [Append] does to the cached entries: it extends or overwrites a suffix,
    and ignores entries that start before the first cached one or leave a gap. *)
Definition view_append (v : list CacheEntryData) (es : list Entry) : list CacheEntryData :=
  match v, es with
  | _, [] => v
  | [], _ => cached <$> es
  | x :: _, e :: _ =>
      let n := e_index e - ce_index x in
      if decide (0 <= n <= Z.of_nat (length v)) then take (Z.to_nat n) v ++ (cached <$> es) else v
  end.

(** What [Delete] does: forget the entries up to [toIndex]. *)
Definition view_delete (v : list CacheEntryData) (toIndex : Z) : list CacheEntryData :=
  match v with
  | [] => []
  | x :: _ => drop (Z.to_nat (toIndex - ce_index x + 1)) v
  end.

(** What [ReadEntriesData] does: all the entries or none. *)
Definition view_read (v : list CacheEntryData) (es : list Entry) : list Entry * bool :=
  match v, es with
  | x :: _, e :: _ =>
      let n := e_index e - ce_index x in
      if decide (0 <= n ∧ n + Z.of_nat (length es) <= Z.of_nat (length v))
      then (zip_with (λ e d, set_data e (ce_data d)) es (drop (Z.to_nat n) v), true)
      else (es, false)
  | _, _ => (es, false)
  end.

Section Operations.
Implicit Types (c : Cache) (v : list CacheEntryData) (es : list Entry).

Lemma NewCache_ok : cache_ok NewCache [].
Proof. exists 7. by constructor. Qed.

Lemma cache_append_ok c v es : cache_ok c v → Z.of_nat (length v + length es) < 2 ^ 62 →
  cache_ok (cache_append c es) (v ++ (cached <$> es)).
Proof.
  unfold cache_append. revert c v. induction es as [|e es IH]; intros c v H Hb; csimpl.
  - by rewrite app_nil_r.
  - simpl in Hb. replace (v ++ cached e :: (cached <$> es)) with ((v ++ [cached e]) ++ (cached <$> es))
      by by rewrite <- app_assoc.
    apply IH; [apply append_one_ok; [done|lia]|rewrite length_app; simpl; lia].
Qed.

Lemma truncate_loop_ok k v x c lo t fuel :
  ring_ok k c (v ++ [x]) → indexed ce_index lo (v ++ [x]) → (length v < fuel)%nat →
  ring_ok k (truncate_loop fuel c (ce_index x) t) (take (Z.to_nat (t - lo)) (v ++ [x])).
Proof.
  revert x c fuel. induction v as [|y v IH] using rev_ind; intros x c fuel H Hix Hf;
    (destruct fuel as [|fuel]; [simpl in Hf; lia|]); cbn [truncate_loop].
  - pose proof (Hix 0%nat x eq_refl) as Hx. rewrite Z.add_0_r in Hx.
    pose proof (drop_last_ok _ _ [] _ H) as H'. case_decide.
    + replace (Z.to_nat (t - lo)) with 0%nat by lia.
      rewrite decide_True by by apply (ring_not_full _ _ _ H'). done.
    + rewrite take_ge by (simpl; lia). done.
  - pose proof (drop_last_ok _ _ _ _ H) as H'.
    pose proof (Hix (length (v ++ [y])) x ltac:(by rewrite lookup_app_r, Nat.sub_diag by lia)) as Hx.
    rewrite length_app in Hx, Hf; simpl in Hx, Hf. case_decide as Ht.
    + rewrite decide_False by (rewrite (ring_not_full _ _ _ H'); by destruct v).
      rewrite (ring_last _ _ _ H') by by destruct v. rewrite last_snoc; cbn [default id].
      rewrite (take_app_le (v ++ [y])) by (rewrite length_app; simpl; lia).
      apply IH; [done| |lia]. by apply indexed_app in Hix as [? _].
    + rewrite take_ge by (rewrite !length_app; simpl; lia). done.
Qed.

Lemma truncate_ok k c v lo t : ring_ok k c v → indexed ce_index lo v →
  ring_ok k (truncate c t) (take (Z.to_nat (t - lo)) v).
Proof.
  intros H Hix. pose proof (ok_length _ _ _ H) as Hl. unfold truncate.
  destruct v as [|x v _] using rev_ind.
  { rewrite decide_True by done. by rewrite take_nil. }
  rewrite length_app in Hl. simpl in Hl. rewrite decide_False by lia.
  rewrite (ring_last _ _ _ H) by by destruct v. rewrite last_snoc. simpl.
  pose proof (Hix (length v) x ltac:(by rewrite lookup_app_r, Nat.sub_diag by lia)) as Hx.
  case_decide.
  - rewrite take_ge by (rewrite length_app; simpl; lia). done.
  - apply truncate_loop_ok; [done..|lia].
Qed.

Lemma delete_loop_ok k v x c t fuel :
  ring_ok k c (x :: v) → indexed ce_index (ce_index x) (x :: v) → (length v < fuel)%nat →
  ring_ok k (delete_loop fuel c (ce_index x) t) (drop (Z.to_nat (t - ce_index x + 1)) (x :: v)).
Proof.
  revert x c fuel. induction v as [|y v IH]; intros x c fuel H Hix Hf;
    (destruct fuel as [|fuel]; [simpl in Hf; lia|]); cbn [delete_loop];
    pose proof (drop_first_ok _ _ _ _ H) as H'; case_decide.
  - rewrite drop_ge by (simpl; lia). by rewrite decide_True by by apply (ring_not_full _ _ _ H').
  - by replace (Z.to_nat (t - ce_index x + 1)) with 0%nat by lia.
  - rewrite decide_False by by rewrite (ring_not_full _ _ _ H').
    rewrite (ring_first _ _ _ H'). cbn [head default id].
    apply indexed_cons in Hix as [_ Hix]. pose proof (Hix 0%nat y eq_refl) as Hy.
    replace (Z.to_nat (t - ce_index x + 1)) with (S (Z.to_nat (t - ce_index y + 1))) by lia.
    simpl in Hf. simpl drop. apply IH; [done| |lia].
    by replace (ce_index y) with (ce_index x + 1) by lia.
  - by replace (Z.to_nat (t - ce_index x + 1)) with 0%nat by lia.
Qed.

Lemma delete_ok k c v lo t : ring_ok k c v → indexed ce_index lo v →
  ring_ok k (Delete c t) (view_delete v t).
Proof.
  intros H Hix. pose proof (ok_length _ _ _ H) as Hl. unfold Delete.
  rewrite (ring_first _ _ _ H). destruct v as [|x v]; [by rewrite decide_True|].
  simpl in *. rewrite decide_False by lia.
  pose proof (Hix 0%nat x eq_refl) as Hx. rewrite Z.add_0_r in Hx. subst lo.
  case_decide.
  - by replace (Z.to_nat (t - ce_index x + 1)) with 0%nat by lia.
  - apply delete_loop_ok; [done..|lia].
Qed.

Lemma read_loop_ok k c v hi rest : ring_ok k c v → ∀ lo fuel done j,
  (length rest <= fuel)%nat → (j + length rest <= length v)%nat → 0 <= lo →
  hi = lo + Z.of_nat (length rest) - 1 → hi + 1 < 2 ^ 64 →
  read_loop fuel c lo hi ((consumePos c + Z.of_nat j) mod bufferSize c) (length done) (done ++ rest)
  = Ret (done ++ zip_with (λ e d, set_data e (ce_data d)) rest (drop j v)).
Proof.
  intros H. pose proof (ok_room _ _ _ H).
  induction rest as [|e rest IH]; intros lo fuel done j Hf Hj Hlo Hhi Hw; simpl in Hf, Hj, Hhi.
  - destruct fuel; simpl; rewrite decide_False by lia; done.
  - destruct fuel as [|fuel]; [lia|]. simpl. rewrite decide_True by lia.
    rewrite lookup_app_r, Nat.sub_diag by lia. simpl.
    rewrite insert_app_r_alt, Nat.sub_diag by lia. simpl.
    rewrite (ring_inc _ _ _ _ H), Zplus_mod_idemp_l, <- Z.add_assoc, u64_small by lia.
    rewrite (ring_slot _ _ _ _ H) by lia.
    destruct (lookup_lt_is_Some_2 v j ltac:(lia)) as [x Hx].
    rewrite (drop_S _ _ _ Hx), Hx. simpl.
    specialize (IH (lo + 1) fuel (done ++ [set_data e (ce_data x)]) (S j)).
    rewrite length_app, <- !app_assoc in IH. simpl in IH.
    rewrite Nat.add_1_r in IH. replace (Z.of_nat j + 1) with (Z.of_nat (S j)) by lia.
    apply IH; lia.
Qed.

(** [ReadEntriesData] serves a contiguous run of entries from the cache when the
    cache holds all of them, copying each one's data and nothing else; otherwise it
    reports a miss and leaves the entries alone.  It never panics on such a run. *)
Lemma ReadEntriesData_spec c v lo es elo :
  cache_ok c v → indexed ce_index lo v → indexed e_index elo es →
  0 <= lo → lo + Z.of_nat (length v) < 2 ^ 64 →
  ReadEntriesData c es = Ret (view_read v es).
Proof.
  intros [k H] Hix Hes Hlo Hw. unfold ReadEntriesData, view_read.
  pose proof (ok_length _ _ _ H) as Hl. pose proof (ok_room _ _ _ H).
  pose proof (ring_size _ _ _ H).
  destruct es as [|e es]; [by destruct v|].
  destruct (last (e :: es)) as [le|] eqn:Hle; [|by apply last_None in Hle].
  pose proof (indexed_last _ _ _ _ Hes Hle) as Hhi.
  pose proof (proj1 (indexed_cons _ _ _ _) Hes) as [He _].
  destruct v as [|x v]; [by rewrite decide_True|].
  rewrite decide_False by (simpl in Hl; lia).
  rewrite (ring_first _ _ _ H), (ring_last _ _ _ H) by done. cbn [head default id].
  destruct (last (x :: v)) as [lx|] eqn:Hlx; [|by apply last_None in Hlx]. cbn [default id].
  pose proof (indexed_last _ _ _ _ Hix Hlx) as Hlast.
  pose proof (proj1 (indexed_cons _ _ _ _) Hix) as [Hx _].
  destruct (decide (_ ∧ _)) as [[Hn Hm]|Hn].
  - rewrite !decide_False by lia. rewrite (u64_small (e_index e - ce_index x)) by lia.
    rewrite (ring_mask _ _ _ _ H).
    rewrite <- (Z2Nat.id (e_index e - ce_index x)) at 1 by lia.
    rewrite (read_loop_ok _ _ _ _ (e :: es) H _ _ []) by lia. done.
  - destruct (decide (e_index e < ce_index x)); [done|].
    rewrite decide_True by (simpl length in *; lia). done.
Qed.

(** [Append] refines the list operation [view_append]: for entries with
    consecutive indexes it never panics and leaves a well-formed ring holding exactly
    the cached prefix before the first appended index followed by the appended
    entries, growing the buffer whenever it fills up. *)
Lemma Append_spec c v lo es elo :
  cache_ok c v → indexed ce_index lo v → indexed e_index elo es →
  0 <= lo → 0 <= elo → elo + Z.of_nat (length es) < 2 ^ 64 →
  Z.of_nat (length v + length es) < 2 ^ 62 → (v ≠ [] → lo < 2 ^ 64) →
  ∃ c', Append c es = Ret c' ∧ cache_ok c' (view_append v es).
Proof.
  intros [k H] Hix Hes Hlo Helo Hw Hb Hlow. unfold Append, view_append.
  pose proof (ok_length _ _ _ H) as Hl.
  destruct es as [|e es]; [exists c; split; [done|]; exists k; by destruct v|].
  destruct (last (e :: es)) as [le|] eqn:Hle; [|by apply last_None in Hle].
  pose proof (indexed_last _ _ _ _ Hes Hle) as Hhi.
  pose proof (proj1 (indexed_cons _ _ _ _) Hes) as [He _].
  rewrite (ring_first _ _ _ H).
  destruct v as [|x v].
  { simpl in *. rewrite !decide_False by lia. simpl.
    rewrite Z.sub_0_r, u64_small, !decide_False, decide_True by lia.
    eexists; split; [done|]. apply (cache_append_ok c [] (e :: es)); [by exists k|simpl; lia]. }
  pose proof (proj1 (indexed_cons _ _ _ _) Hix) as [Hx _]. cbn [head default id].
  specialize (Hlow ltac:(done)). simpl length in *.
  destruct (decide (e_index e < ce_index x)) as [Hbefore|Hafter].
  - rewrite (decide_False (P := 0 <= _ <= _)) by lia. case_decide; [by exists c; split; [|exists k]|].
    rewrite (u64_small (ce_index x - e_index e)) by lia.
    rewrite decide_False by lia. simpl.
    rewrite u64_sub_wrap by lia. rewrite !decide_False by lia.
    exists c. split; [done|by exists k].
  - rewrite decide_False by lia. simpl. rewrite u64_small by lia.
    destruct (decide (e_index e - ce_index x < clength c)).
    + rewrite decide_True by lia. eexists; split; [done|].
      apply (cache_append_ok _ (take _ (x :: v)) (e :: es)); [|rewrite length_take; simpl; lia].
      exists k. rewrite <- Hx in Hix. by apply truncate_ok.
    + case_decide.
      * rewrite decide_True by lia. eexists; split; [done|].
        rewrite (take_ge (x :: v)) by (simpl; lia).
        apply (cache_append_ok _ (x :: v) (e :: es)); [by exists k|simpl; lia].
      * rewrite decide_False by lia. exists c. split; [done|by exists k].
Qed.

(** [Delete] forgets exactly the cached entries up to the given index, however the
    ring has wrapped around, and its loop stops within the number of cached entries. *)
Lemma Delete_spec c v lo t : cache_ok c v → indexed ce_index lo v →
  cache_ok (Delete c t) (view_delete v t).
Proof. intros [k H] Hix. exists k. by apply (delete_ok _ _ _ lo). Qed.

(** [Clear] empties the cache. *)
Lemma Clear_spec c v lo : cache_ok c v → indexed ce_index lo v → cache_ok (Clear c) [].
Proof.
  intros [k H] Hix. exists k. unfold Clear.
  pose proof (delete_ok _ _ _ lo (ce_index (slot c (dec c (appendPos c)))) H Hix) as Hd.
  destruct v as [|x v]; [done|].
  destruct (last (x :: v)) as [lx|] eqn:Hlx; [|by apply last_None in Hlx].
  rewrite (ring_last _ _ _ H), Hlx in Hd |- * by done. cbn [default id] in *.
  pose proof (indexed_last _ _ _ _ Hix Hlx). pose proof (proj1 (indexed_cons _ _ _ _) Hix) as [? _].
  unfold view_delete in Hd. rewrite drop_ge in Hd by lia. done.
Qed.

Lemma view_read_hit v clo es lo :
  indexed ce_index clo v → indexed e_index lo es → es ≠ [] → clo <= lo →
  lo + Z.of_nat (length es) <= clo + Z.of_nat (length v) →
  view_read v es = (zip_with (λ e d, set_data e (ce_data d)) es (drop (Z.to_nat (lo - clo)) v), true).
Proof.
  intros Hv He Hne Hlo Hhi. destruct es as [|e es]; [done|]. destruct v as [|x v]; [simpl in Hhi; lia|].
  apply indexed_cons in Hv as [<- _]. apply indexed_cons in He as [<- _].
  unfold view_read. by rewrite decide_True by lia.
Qed.

(** The index range reported is that of the cached entries. *)
Lemma cache_range_spec c v : cache_ok c v →
  cache_range c = match v, last v with
                  | x :: _, Some y => {| r_first := ce_index x; r_last := ce_index y; r_empty := false |}
                  | _, _ => {| r_first := 0; r_last := 0; r_empty := true |}
                  end.
Proof.
  intros [k H]. unfold cache_range. pose proof (ok_length _ _ _ H) as Hl.
  destruct v as [|x v]; [by rewrite decide_True|].
  destruct (last (x :: v)) as [y|] eqn:Hy; [|by apply last_None in Hy].
  rewrite decide_False by (simpl in Hl; lia).
  by rewrite (ring_first _ _ _ H), (ring_last _ _ _ H), Hy by done.
Qed.
End Operations.

(** ** Every reachable cache *)

Inductive cache_op :=
| OpAppend (es : list Entry)
| OpDelete (toIndex : Z)
| OpClear.

Definition cache_step (c : Cache) (op : cache_op) : go Cache :=
  match op with
  | OpAppend es => Append c es
  | OpDelete t => Ret (Delete c t)
  | OpClear => Ret (Clear c)
  end.

Definition view_step (v : list CacheEntryData) (op : cache_op) : list CacheEntryData :=
  match op with
  | OpAppend es => view_append v es
  | OpDelete t => view_delete v t
  | OpClear => []
  end.

Fixpoint cache_run (c : Cache) (ops : list cache_op) : go Cache :=
  match ops with
  | [] => Ret c
  | op :: ops => c ← cache_step c op; cache_run c ops
  end.

(** Appended entries have consecutive indexes below [2^61]. *)
Definition op_fits (op : cache_op) : Prop :=
  match op with
  | OpAppend es => ∃ lo, 0 <= lo ∧ lo + Z.of_nat (length es) < 2 ^ 61 ∧ indexed e_index lo es
  | _ => True
  end.

Definition view_fits (v : list CacheEntryData) : Prop :=
  ∃ lo, 0 <= lo ∧ lo + Z.of_nat (length v) < 2 ^ 61 ∧ indexed ce_index lo v.

Section Reachable.
Implicit Types (c : Cache) (v : list CacheEntryData) (es : list Entry).

Lemma indexed_cached lo es : indexed e_index lo es → indexed ce_index lo (cached <$> es).
Proof.
  intros H i x. rewrite list_lookup_fmap. intros (e & He & ->)%fmap_Some. by apply (H _ _ He).
Qed.

Lemma view_append_fits v es : view_fits v → op_fits (OpAppend es) → view_fits (view_append v es).
Proof.
  intros (lo & Hlo & Hhi & Hv) (elo & Helo & Hehi & He).
  destruct es as [|e es]; [destruct v; by exists lo|]. destruct v as [|x v].
  { exists elo. change (view_append [] (e :: es)) with (cached <$> e :: es).
    rewrite length_fmap. split_and!; [done..|by apply indexed_cached]. }
  pose proof (proj1 (indexed_cons _ _ _ _) Hv) as [Hx _].
  pose proof (proj1 (indexed_cons _ _ _ _) He) as [He0 _].
  unfold view_append. rewrite Hx, He0. case_decide as Hn; [|by exists lo].
  assert (length (take (Z.to_nat (elo - lo)) (x :: v)) = Z.to_nat (elo - lo)) as Hl
    by (rewrite length_take; lia).
  exists lo. rewrite length_app, Hl, length_fmap. split_and!; [done|lia|].
  apply indexed_app. split; [by apply indexed_take|]. rewrite Hl.
  replace (lo + Z.of_nat (Z.to_nat (elo - lo))) with elo by lia. by apply indexed_cached.
Qed.

Lemma view_delete_fits v t : view_fits v → view_fits (view_delete v t).
Proof.
  intros (lo & Hlo & Hhi & Hv). destruct v as [|x v]; [by exists lo|]. unfold view_delete.
  set (n := Z.to_nat (t - ce_index x + 1)). destruct (decide (n <= length (x :: v))%nat).
  - exists (lo + Z.of_nat n). rewrite length_drop. split_and!; [lia|lia|by apply indexed_drop].
  - rewrite drop_ge by lia. exists 0. split_and!; [done..|apply indexed_nil].
Qed.

Lemma cache_step_ok c v op : cache_ok c v → view_fits v → op_fits op →
  ∃ c', cache_step c op = Ret c' ∧ cache_ok c' (view_step v op) ∧ view_fits (view_step v op).
Proof.
  intros Hok Hv Hop. pose proof Hv as (lo & Hlo & Hhi & Hix). destruct op as [es|t|]; simpl.
  - pose proof Hop as (elo & Helo & Hehi & He).
    destruct (Append_spec c v lo es elo) as (c' & -> & Hc'); [done..|lia|lia|lia|].
    exists c'. split_and!; [done..|by apply view_append_fits].
  - eexists. split_and!; [done|by eapply Delete_spec|by apply view_delete_fits].
  - eexists. split_and!; [done|by eapply Clear_spec|]. exists 0. split_and!; [done..|apply indexed_nil].
Qed.

Lemma cache_run_ok ops c v : cache_ok c v → view_fits v → Forall op_fits ops →
  ∃ c', cache_run c ops = Ret c' ∧ cache_ok c' (foldl view_step v ops) ∧
    view_fits (foldl view_step v ops).
Proof.
  revert c v. induction ops as [|op ops IH]; intros c v Hok Hv Hops; simpl; [by exists c|].
  apply Forall_cons in Hops as [Hop Hops].
  destruct (cache_step_ok c v op) as (c' & -> & ? & ?); [done..|]. by apply IH.
Qed.

(** C34: the ring buffer is a list.  After any sequence of appends of consecutive
    entries, deletions and clears, however the ring has wrapped and grown, no
    operation has panicked, the range reported and the data served are those of the
    list the sequence denotes, and a run of entries is served whole or not at all. *)
Theorem cache_refines_list ops :
  Forall op_fits ops →
  ∃ c, cache_run NewCache ops = Ret c ∧
    let v := foldl view_step [] ops in
    (cache_range c = match v, last v with
                     | x :: _, Some y =>
                         {| r_first := ce_index x; r_last := ce_index y; r_empty := false |}
                     | _, _ => {| r_first := 0; r_last := 0; r_empty := true |}
                     end) ∧
    (∀ es lo, indexed e_index lo es → ReadEntriesData c es = Ret (view_read v es)).
Proof.
  intros Hops. destruct (cache_run_ok ops NewCache [] NewCache_ok) as (c & Hrun & Hok & Hv); [|done|].
  { exists 0. split_and!; [done..|apply indexed_nil]. }
  exists c. split; [done|]. split; [by apply cache_range_spec|].
  destruct Hv as (lo & Hlo & Hhi & Hix). intros es elo He.
  apply (ReadEntriesData_spec c _ lo es elo); [done..|lia].
Qed.
End Reachable.

(** ** Examples *)

Definition demo_entries : list Entry := [normal_entry 1 5 Byte.x41; normal_entry 1 6 Byte.x42].
Definition demo_cache : Cache := cache_append NewCache demo_entries.

Lemma demo_cache_ok : cache_ok demo_cache (cached <$> demo_entries).
Proof. apply (cache_append_ok _ []); [apply NewCache_ok|simpl; lia]. Qed.

Lemma cache_refines_list_witness :
  ∃ c, cache_run NewCache [OpAppend demo_entries; OpDelete 5] = Ret c ∧
    (cache_range c = {| r_first := 6; r_last := 6; r_empty := false |}) ∧
    (∀ es lo, indexed e_index lo es → ReadEntriesData c es = Ret (view_read (cached <$> [normal_entry 1 6 Byte.x42]) es)).
Proof.
  apply (cache_refines_list [OpAppend demo_entries; OpDelete 5]).
  repeat constructor. exists 5. split_and!; [lia|simpl; lia|solve_indexed].
Defined.
