(* ===== verification/EntryStorage.v ===== *)
(** * The entry storage raft reads from: [pkg/wal/walbase/storage.go]

    The storage keeps, per log entry, its term, index and type with the place its
    data was written to, and a cache of the data of uncommitted entries.  [ents]
    starts with a dummy that stands for the last compacted entry.  The reader of
    the written data is an interface.  The theorems relate the storage to the log
    as raft sees it: a base position and a list of whole entries. *)

From S2P Require Import Prelude Raftpb EntryCache.

Record EntryIndex (T : Type) := { ei_term : Z; ei_index : Z; ei_type : Z; ei_meta : T }.
Arguments ei_term {T} _.
Arguments ei_index {T} _.
Arguments ei_type {T} _.
Arguments ei_meta {T} _.
Arguments Build_EntryIndex {T} _ _ _ _.

(** [EntryDataReader]: fills in the data of [ents] from the places [mds] name; [R]
    is what the reader reads from. *)
Class EntryDataReader (R T : Type) :=
  read_entries_data : R → list (EntryIndex T) → list Entry → go (result (list Entry)).

Record EntryStorage (T : Type) := {
  st_hardState : HardState;
  st_snapshot : Snapshot;
  st_cache : Cache;
  st_ents : list (EntryIndex T)
}.
Arguments st_hardState {T} _.
Arguments st_snapshot {T} _.
Arguments st_cache {T} _.
Arguments st_ents {T} _.

Definition err_hi_out_of_bound : error := Errorf "entries' hi(%d) is out of bound lastindex(%d)".
Definition err_missing_log_entry : error := Errorf "missing log entry [appendPos: %d, append at: %d]".
Definition err_unspecified : error := Errorf EmptyString.

(** [limitSize]: the longest non-empty prefix within [maxSize] bytes, [size] being
    the encoded size of an entry. *)
Fixpoint limit_loop (size : Entry → Z) (total maxSize : Z) (es : list Entry) : list Entry :=
  match es with
  | [] => []
  | e :: es =>
      let total := total + size e in
      if decide (maxSize < u64 total) then [] else e :: limit_loop size total maxSize es
  end.
Definition limitSize (size : Entry → Z) (es : list Entry) (maxSize : Z) : list Entry :=
  match es with
  | [] => es
  | e :: rest => e :: limit_loop size (size e) maxSize rest
  end.

Section Storage.
Context {R T : Type} `{EntryDataReader R T} (zero_meta : T) (entry_size : Entry → Z).
Implicit Types (es : EntryStorage T).

Definition zero_index : EntryIndex T := Build_EntryIndex 0 0 0 zero_meta.

Definition with_ents es (l : list (EntryIndex T)) : EntryStorage T :=
  {| st_hardState := st_hardState es; st_snapshot := st_snapshot es; st_cache := st_cache es; st_ents := l |}.
Definition with_cache es (c : Cache) : EntryStorage T :=
  {| st_hardState := st_hardState es; st_snapshot := st_snapshot es; st_cache := c; st_ents := st_ents es |}.
Definition with_snapshot es (s : Snapshot) : EntryStorage T :=
  {| st_hardState := st_hardState es; st_snapshot := s; st_cache := st_cache es; st_ents := st_ents es |}.

Definition NewEntryStorage : EntryStorage T :=
  {| st_hardState := emptyHardState; st_snapshot := emptySnapshot; st_cache := NewCache;
     st_ents := [zero_index] |}.

(** [es.ents[0]]; the slice is never empty. *)
Definition dummy es : EntryIndex T := default zero_index (head (st_ents es)).

Definition firstIndex es : Z := u64 (ei_index (dummy es) + 1).
Definition lastIndex es : Z := u64 (ei_index (dummy es) + Z.of_nat (length (st_ents es)) - 1).

Definition InitialState es : HardState * ConfState :=
  (st_hardState es, sm_conf (snap_meta (st_snapshot es))).

Definition Term es (term : Z) : go (result Z) :=
  let offset := ei_index (dummy es) in
  if decide (term < offset) then Ret (Err raft_ErrCompacted)
  else if decide (Z.of_nat (length (st_ents es)) <= i64 (u64 (term - offset))) then Ret (Err raft_ErrUnavailable)
  else match st_ents es !! Z.to_nat (u64 (term - offset)) with
       | Some e => Ret (Ok (ei_term e))
       | None => Panic "runtime error: index out of range"
       end.

Definition validateGetEntriesRange es (lo hi : Z) : result (Z * Z * Z) :=
  let firstEntIndex := ei_index (dummy es) in
  if decide (lo <= firstEntIndex) then Err raft_ErrCompacted
  else if decide (u64 (lastIndex es + 1) < hi) then Err err_hi_out_of_bound
  else if decide (length (st_ents es) = 1%nat) then Err raft_ErrUnavailable
  else Ok (firstEntIndex, u64 (lo - firstEntIndex), u64 (hi - firstEntIndex)).

(** The entry made from an index entry, its data still missing. *)
Definition bare (e : EntryIndex T) : Entry :=
  {| e_term := ei_term e; e_index := ei_index e; e_type := ei_type e; e_data := [] |}.

(** [cache.ReadEntriesData], a miss being the unnamed error. *)
Definition from_cache (c : Cache) (ents : list Entry) : go (result (list Entry)) :=
  '(ents, hit) ← ReadEntriesData c ents;
  Ret (if hit : bool then Ok ents else Err err_unspecified).

(** [Entries], for indexes below [2^63]. *)
Definition Entries (r : R) es (lo hi maxSize : Z) : go (result (list Entry)) :=
  (range <-? Ret (validateGetEntriesRange es lo hi);;
   let '(firstEntryIndex, loOffset, hiOffset) := range in
   if decide (hi < lo) then Panic "makeslice: len out of range"
   else
     let mds := go_slice (Z.to_nat loOffset) (Z.to_nat hiOffset) (st_ents es) in
     let copyEnts := bare <$> mds in
     let cacheRange := cache_range (st_cache es) in
     let includedHiEntryIndex := u64 (firstEntryIndex + hiOffset - 1) in
     let loEntryIndex := u64 (firstEntryIndex + loOffset) in
     ents <-? (if decide (r_empty cacheRange = true ∨ includedHiEntryIndex < r_first cacheRange) then
                 read_entries_data r mds copyEnts
               else if decide (r_first cacheRange <= loEntryIndex ∧
                               includedHiEntryIndex <= r_last cacheRange) then
                 from_cache (st_cache es) copyEnts
               else if decide (loEntryIndex < r_first cacheRange ∧
                               r_first cacheRange <= includedHiEntryIndex) then
                 let '(cacheFirstOffset, _) := ToOffsetIndex cacheRange firstEntryIndex in
                 let untilOffset := Z.to_nat (u64 (cacheFirstOffset - loOffset)) in
                 front <-? read_entries_data r
                            (go_slice (Z.to_nat loOffset) (Z.to_nat cacheFirstOffset) (st_ents es))
                            (take untilOffset copyEnts);;
                 back <-? from_cache (st_cache es) (drop untilOffset copyEnts);;
                 Ret (Ok (front ++ back))
               else Panic EmptyString);;
     Ret (Ok (limitSize entry_size ents maxSize)))%go.

Definition ApplySnapshot es (snap : Snapshot) : EntryStorage T * option error :=
  if decide (sm_index (snap_meta snap) <= sm_index (snap_meta (st_snapshot es)))
  then (es, Some raft_ErrSnapOutOfDate)
  else
    ({| st_hardState := st_hardState es; st_snapshot := snap; st_cache := Clear (st_cache es);
        st_ents := [Build_EntryIndex (sm_term (snap_meta snap)) (sm_index (snap_meta snap)) 0 zero_meta] |},
     None).

Definition CreateSnapshot es (i : Z) (cs : option ConfState) (data : list byte)
    : go (EntryStorage T * result Snapshot) :=
  if decide (i <= sm_index (snap_meta (st_snapshot es))) then Ret (es, Err raft_ErrSnapOutOfDate)
  else
    let offset := ei_index (dummy es) in
    if decide (lastIndex es < i) then Panic "snapshot %d is out of bound lastindex(%d)"
    else match st_ents es !! Z.to_nat (u64 (i - offset)) with
         | None => Panic "index out of range"
         | Some e =>
             let snap :=
               {| snap_data := data;
                  snap_meta := {| sm_conf := default (sm_conf (snap_meta (st_snapshot es))) cs;
                                  sm_index := i; sm_term := ei_term e |} |} in
             Ret (with_snapshot es snap, Ok snap)
         end.

Definition Compact es (compactIndex : Z) : go (EntryStorage T * option error) :=
  let offset := ei_index (dummy es) in
  if decide (compactIndex <= offset) then Ret (es, Some raft_ErrCompacted)
  else
    let i := Z.to_nat (u64 (compactIndex - offset)) in
    match st_ents es !! i with
    | None => Panic "index out of range"
    | Some e =>
        Ret (with_ents es (Build_EntryIndex (ei_term e) (ei_index e) 0 zero_meta :: drop (S i) (st_ents es)), None)
    end.

Definition AppendEntryIndex es (entriesIndex : list (EntryIndex T)) : go (EntryStorage T * option error) :=
  match entriesIndex with
  | [] => Ret (es, None)
  | e0 :: _ =>
      let first := firstIndex es in
      let last := u64 (ei_index e0 + Z.of_nat (length entriesIndex) - 1) in
      if decide (last < first) then Ret (es, None)
      else
        let entriesIndex :=
          if decide (ei_index e0 < first) then drop (Z.to_nat (u64 (first - ei_index e0))) entriesIndex
          else entriesIndex in
        match entriesIndex with
        | [] => Panic "index out of range"
        | e1 :: _ =>
            let offset := u64 (ei_index e1 - ei_index (dummy es)) in
            if decide (offset < Z.of_nat (length (st_ents es))) then
              Ret (with_ents es (take (Z.to_nat offset) (st_ents es) ++ entriesIndex), None)
            else if decide (Z.of_nat (length (st_ents es)) = offset) then
              Ret (with_ents es (st_ents es ++ entriesIndex), None)
            else Ret (es, Some err_missing_log_entry)
        end
  end.

Definition SetHardState es (st : HardState) : EntryStorage T :=
  {| st_hardState := st; st_snapshot := st_snapshot es; st_cache := st_cache es; st_ents := st_ents es |}.

Definition AppendCache es (ents : list Entry) : go (EntryStorage T) :=
  c ← Append (st_cache es) ents; Ret (with_cache es c).

Definition DeleteCache es (commitIndex : Z) : EntryStorage T :=
  with_cache es (Delete (st_cache es) commitIndex).

Definition EntryIndexes es : list (EntryIndex T) := drop 1 (st_ents es).

End Storage.

(** ** The log raft sees *)

(** The entries after position [base], which has term [base_term]. *)
Record Log := { base : Z; base_term : Z; body : list Entry }.

Definition log_end (L : Log) : Z := base L + Z.of_nat (length (body L)) + 1.

(** The entries with indexes from [lo] up to, not including, [hi]. *)
Definition log_slice (L : Log) (lo hi : Z) : list Entry :=
  go_slice (Z.to_nat (lo - base L - 1)) (Z.to_nat (hi - base L - 1)) (body L).

Definition log_term (L : Log) (i : Z) : result Z :=
  if decide (i < base L) then Err raft_ErrCompacted
  else if decide (i = base L) then Ok (base_term L)
  else match body L !! Z.to_nat (i - base L - 1) with
       | Some e => Ok (e_term e)
       | None => Err raft_ErrUnavailable
       end.

(** Writing entries at [lo] replaces everything from there on. *)
Definition log_append (L : Log) (lo : Z) (es : list Entry) : Log :=
  {| base := base L; base_term := base_term L;
     body := take (Z.to_nat (lo - base L - 1)) (body L) ++ es |}.

Definition log_compact (L : Log) (i term : Z) : Log :=
  {| base := i; base_term := term; body := drop (Z.to_nat (i - base L)) (body L) |}.

(** What a reader of written data promises: entries whose data is stored under their
    index entries are read back with that data, given the entries made from these. *)
Class LawfulReader (R T : Type) `{EntryDataReader R T} := {
  stored : R → EntryIndex T → option (list byte);
  read_stored r mds ents ds :
    mds ≠ [] → Forall2 (λ md d, stored r md = Some d) mds ds → ents = bare <$> mds →
    read_entries_data r mds ents = Ret (Ok (zip_with set_data ents ds))
}.

Section Refinement.
Context {R T : Type} `{LawfulReader R T} (zero_meta : T) (entry_size : Entry → Z).
Implicit Types (es : EntryStorage T) (L : Log) (v : list CacheEntryData).

(** Where the data of the log's entries is: from [clo] on in the cache, which then
    reaches to the end of the log, and before that with the reader. *)
Record covered (r : R) (mds : list (EntryIndex T)) v (clo : Z) L : Prop := {
  cov_ix : indexed ce_index clo v;
  cov_lo : 0 <= clo;
  cov_end : v ≠ [] → clo + Z.of_nat (length v) = log_end L;
  cov_cache i e : body L !! i = Some e → v ≠ [] → clo <= base L + 1 + Z.of_nat i →
    v !! Z.to_nat (base L + 1 + Z.of_nat i - clo) = Some (cached e);
  cov_stored i md e : mds !! i = Some md → body L !! i = Some e →
    v = [] ∨ base L + 1 + Z.of_nat i < clo → stored r md = Some (e_data e)
}.

(** The storage [es] over the reader [r] holds the log [L]. *)
Record represents (r : R) es L : Prop := {
  rep_fits : 0 <= base L ∧ log_end L < 2 ^ 61;
  rep_ix : indexed e_index (base L + 1) (body L);
  rep_ents : ∃ d mds, st_ents es = d :: mds ∧ ei_index d = base L ∧ ei_term d = base_term L ∧
    bare <$> mds = (λ e, set_data e []) <$> body L ∧
    ∃ v clo, cache_ok (st_cache es) v ∧ covered r mds v clo L
}.

Lemma bare_lookup (mds : list (EntryIndex T)) (l : list Entry) i e :
  bare <$> mds = (λ e, set_data e []) <$> l → l !! i = Some e →
  ∃ md, mds !! i = Some md ∧ ei_term md = e_term e ∧ ei_index md = e_index e ∧ ei_type md = e_type e.
Proof.
  intros Heq He. apply (f_equal (lookup i)) in Heq. rewrite !list_lookup_fmap, He in Heq.
  destruct (mds !! i) as [md|]; [|done]. injection Heq as ???. eauto.
Qed.

Lemma bare_length (mds : list (EntryIndex T)) (l : list Entry) :
  bare <$> mds = (λ e, set_data e []) <$> l → length mds = length l.
Proof. intros Heq. apply (f_equal length) in Heq. by rewrite !length_fmap in Heq. Qed.

Lemma bare_slice (mds : list (EntryIndex T)) (l : list Entry) lo hi :
  bare <$> mds = (λ e, set_data e []) <$> l →
  bare <$> go_slice lo hi mds = (λ e, set_data e []) <$> go_slice lo hi l.
Proof. intros Heq. unfold go_slice. by rewrite !fmap_take, !fmap_drop, Heq. Qed.

(** Refilling stripped entries with their data restores them. *)
Lemma refill (l : list Entry) :
  zip_with set_data ((λ e, set_data e []) <$> l) (e_data <$> l) = l.
Proof. induction l as [|[] l IH]; csimpl; [done|]. by rewrite IH. Qed.

Lemma refill_cached (l : list Entry) :
  zip_with (λ e d, set_data e (ce_data d)) ((λ e, set_data e []) <$> l) (cached <$> l) = l.
Proof. induction l as [|[] l IH]; csimpl; [done|]. by rewrite IH. Qed.

Lemma read_slice r (mds : list (EntryIndex T)) (l : list Entry) :
  mds ≠ [] → bare <$> mds = (λ e, set_data e []) <$> l →
  (∀ i md e, mds !! i = Some md → l !! i = Some e → stored r md = Some (e_data e)) →
  read_entries_data r mds (bare <$> mds) = Ret (Ok l).
Proof.
  intros Hne Hbare Hst. rewrite (read_stored r mds _ (e_data <$> l)).
  - by rewrite Hbare, refill.
  - done.
  - apply Forall2_fmap_r, Forall2_same_length_lookup. split; [by apply bare_length|eauto].
  - done.
Qed.

Lemma log_slice_lookup L lo hi i :
  base L < lo → (i < Z.to_nat (hi - lo))%nat → 
  log_slice L lo hi !! i = body L !! (Z.to_nat (lo - base L - 1) + i)%nat.
Proof.
  intros Hlo Hi. unfold log_slice, go_slice. rewrite lookup_take_lt by lia.
  by rewrite lookup_drop.
Qed.

Lemma log_slice_length L lo hi :
  base L < lo → lo <= hi → hi <= log_end L → length (log_slice L lo hi) = Z.to_nat (hi - lo).
Proof.
  unfold log_end, log_slice, go_slice. intros. rewrite length_take, length_drop. lia.
Qed.

Lemma log_slice_indexed L lo hi : base L < lo → lo <= log_end L →
  indexed e_index (base L + 1) (body L) → indexed e_index lo (log_slice L lo hi).
Proof.
  unfold log_end. intros Hlo Hhi Hix. apply indexed_take.
  replace lo with (base L + 1 + Z.of_nat (Z.to_nat (lo - base L - 1))) at 1 by lia.
  apply indexed_drop; [lia|done].
Qed.

Lemma log_slice_split L lo mid hi :
  base L < lo → lo <= mid → mid <= hi → log_slice L lo hi = log_slice L lo mid ++ log_slice L mid hi.
Proof.
  intros. unfold log_slice. apply go_slice_split; lia.
Qed.

Lemma cache_slice r mds v clo L lo hi :
  covered r mds v clo L → v ≠ [] → clo <= lo → base L < lo → lo <= hi → hi <= log_end L →
  take (length (log_slice L lo hi)) (drop (Z.to_nat (lo - clo)) v) = cached <$> log_slice L lo hi.
Proof.
  intros Hc Hv Hclo Hlo Hlh Hhi. pose proof (cov_end _ _ _ _ _ Hc Hv).
  rewrite log_slice_length by done. pose proof (cov_lo _ _ _ _ _ Hc).
  apply list_eq_same_length with (Z.to_nat (hi - lo)).
  - by rewrite length_fmap, log_slice_length.
  - rewrite length_take, length_drop. lia.
  - intros i x y Hi. rewrite lookup_take_lt, lookup_drop, list_lookup_fmap by lia.
    rewrite log_slice_lookup by lia.
    destruct (body L !! (Z.to_nat (lo - base L - 1) + i)%nat) as [e|] eqn:He; [|done].
    apply (cov_cache _ _ _ _ _ Hc) in He; [|done|lia].
    replace (Z.to_nat (base L + 1 + Z.of_nat (Z.to_nat (lo - base L - 1) + i) - clo))
      with (Z.to_nat (lo - clo) + i)%nat in He by lia.
    simpl. congruence.
Qed.

Lemma from_cache_slice r mds c v clo L lo hi :
  cache_ok c v → covered r mds v clo L → log_end L < 2 ^ 61 → v ≠ [] → clo <= lo → base L < lo → lo < hi →
  hi <= log_end L → indexed e_index (base L + 1) (body L) →
  from_cache c ((λ e, set_data e []) <$> log_slice L lo hi) = Ret (Ok (log_slice L lo hi)).
Proof.
  intros Hok Hc Hfit Hv Hclo Hlo Hlh Hhi Hix. pose proof (cov_end _ _ _ _ _ Hc Hv) as Hend.
  pose proof (cov_ix _ _ _ _ _ Hc) as Hvix.
  pose proof (log_slice_indexed L lo hi ltac:(lia) ltac:(lia) Hix) as Hsix.
  assert (indexed e_index lo ((λ e, set_data e []) <$> log_slice L lo hi)) as Hsix'.
  { intros i x. rewrite list_lookup_fmap. intros (e & He & ->)%fmap_Some. apply Hsix in He. done. }
  pose proof (log_slice_length L lo hi ltac:(lia) ltac:(lia) ltac:(lia)) as Hlen.
  unfold from_cache.
  rewrite (ReadEntriesData_spec c v clo _ lo) by (done || apply Hc || lia).
  rewrite (view_read_hit _ clo _ lo); [|done|done| |done|].
  - simpl. rewrite <- zip_with_take_r, length_fmap.
    rewrite (cache_slice _ _ _ _ _ _ _ Hc) by (done || lia). by rewrite refill_cached.
  - intros Hnil%fmap_nil_inv. rewrite Hnil in Hlen. simpl in Hlen. lia.
  - rewrite length_fmap. lia.
Qed.

(** The slice of the index entries behind the dummy. *)
Definition md_slice L (mds : list (EntryIndex T)) (lo hi : Z) : list (EntryIndex T) :=
  go_slice (Z.to_nat (lo - base L - 1)) (Z.to_nat (hi - base L - 1)) mds.

Lemma ents_slice L d (mds : list (EntryIndex T)) lo hi : base L < lo → lo <= hi →
  go_slice (Z.to_nat (lo - base L)) (Z.to_nat (hi - base L)) (d :: mds) = md_slice L mds lo hi.
Proof.
  intros. unfold md_slice, go_slice.
  replace (Z.to_nat (lo - base L)) with (S (Z.to_nat (lo - base L - 1))) by lia. simpl.
  f_equal. lia.
Qed.

Lemma md_slice_take L (mds : list (EntryIndex T)) lo mid hi : base L < lo → lo <= mid <= hi →
  take (Z.to_nat (mid - lo)) (bare <$> md_slice L mds lo hi) = bare <$> md_slice L mds lo mid.
Proof.
  intros. unfold md_slice, go_slice. rewrite <- fmap_take, take_take. do 2 f_equal. lia.
Qed.

Lemma md_slice_drop L (mds : list (EntryIndex T)) lo mid hi : base L < lo → lo <= mid <= hi →
  drop (Z.to_nat (mid - lo)) (bare <$> md_slice L mds lo hi) = bare <$> md_slice L mds mid hi.
Proof.
  intros. unfold md_slice, go_slice. rewrite <- fmap_drop.
  rewrite skipn_firstn_comm, drop_drop. do 2 f_equal; [lia|f_equal; lia].
Qed.

Lemma read_md_slice r mds v clo L lo hi :
  bare <$> mds = (λ e, set_data e []) <$> body L → covered r mds v clo L →
  base L < lo → lo < hi → hi <= log_end L → v = [] ∨ hi <= clo →
  read_entries_data r (md_slice L mds lo hi) (bare <$> md_slice L mds lo hi)
  = Ret (Ok (log_slice L lo hi)).
Proof.
  intros Hb Hc Hlo Hlh Hhi Hv. apply read_slice; [|by apply bare_slice|].
  { intros Hnil. pose proof (bare_slice _ _ (Z.to_nat (lo - base L - 1)) (Z.to_nat (hi - base L - 1)) Hb) as Hs.
    apply bare_length in Hs. unfold md_slice in Hnil. rewrite Hnil in Hs.
    change (go_slice _ _ (body L)) with (log_slice L lo hi) in Hs.
    rewrite log_slice_length in Hs by lia. simpl in Hs. lia. }
  intros i md e Hmd He.
  assert (i < Z.to_nat (hi - lo))%nat as Hi.
  { apply lookup_lt_Some in He. by rewrite log_slice_length in He by lia. }
  rewrite log_slice_lookup in He by lia. unfold md_slice, go_slice in Hmd.
  rewrite lookup_take_lt, lookup_drop in Hmd by lia.
  eapply (cov_stored _ _ _ _ _ Hc); [done..|]. destruct Hv; [by left|right; lia].
Qed.

Lemma rep_dummy r es L : represents r es L →
  ei_index (dummy zero_meta es) = base L ∧ ei_term (dummy zero_meta es) = base_term L ∧
  length (st_ents es) = S (length (body L)) ∧ lastIndex zero_meta es = log_end L - 1 ∧
  firstIndex zero_meta es = base L + 1.
Proof.
  intros [[Hf1 Hf2] _ (d & mds & He & Hi & Ht & Hb & _)]. apply bare_length in Hb.
  unfold firstIndex, lastIndex, dummy, log_end in *. rewrite He. simpl.
  rewrite Hi, Hb, !u64_small by lia. split_and!; [done..|lia|done].
Qed.

Lemma cache_first c v clo : cache_ok c v → indexed ce_index clo v →
  r_empty (cache_range c) = bool_decide (v = []) ∧
  (v ≠ [] → r_first (cache_range c) = clo ∧ r_last (cache_range c) = clo + Z.of_nat (length v) - 1).
Proof.
  intros Hok Hix. rewrite (cache_range_spec _ _ Hok). destruct v as [|x v]; [done|].
  destruct (last (x :: v)) as [y|] eqn:Hy; [|by apply last_None in Hy].
  split; [done|]. intros _. simpl r_last. rewrite (indexed_last _ _ _ _ Hix Hy).
  by apply indexed_cons in Hix as [<- _].
Qed.

Lemma Entries_slice r es L lo hi maxSize :
  represents r es L → base L < lo → lo < hi → hi <= log_end L →
  Entries zero_meta entry_size r es lo hi maxSize
  = Ret (Ok (limitSize entry_size (log_slice L lo hi) maxSize)).
Proof.
  intros Hrep Hlo Hlh Hhi. destruct (rep_dummy _ _ _ Hrep) as (Hd & _ & Hlen & Hlast & _).
  destruct Hrep as [[Hf1 Hf2] Hix (d & mds & He & Hi & Ht & Hb & v & clo & Hok & Hc)].
  pose proof (cov_lo _ _ _ _ _ Hc). destruct (cache_first _ _ _ Hok (cov_ix _ _ _ _ _ Hc)) as [Hemp Hrng].
  unfold Entries, validateGetEntriesRange. rewrite Hd, Hlen, Hlast, u64_small by lia.
  rewrite decide_False by lia. rewrite decide_False by lia.
  rewrite decide_False by (unfold log_end in *; lia). unfold try_.
  rewrite decide_False by lia. rewrite !(u64_small (lo - _)), !(u64_small (hi - _)) by lia.
  rewrite He, ents_slice by lia. rewrite !u64_small by lia.
  replace (base L + (hi - base L) - 1) with (hi - 1) by lia.
  replace (base L + (lo - base L)) with lo by lia.
  destruct (decide (v = [])) as [Hv|Hv].
  { rewrite decide_True by (left; rewrite Hemp; by rewrite bool_decide_true).
    by rewrite (read_md_slice _ _ _ _ _ _ _ Hb Hc) by (done || lia || by left). }
  destruct (Hrng Hv) as [Hfst ->].
  assert (Hoff : ToOffsetIndex (cache_range (st_cache es)) (base L) =
    (u64 (clo - base L), u64 (r_last (cache_range (st_cache es)) - base L))).
  { unfold ToOffsetIndex. by rewrite Hemp, bool_decide_false, Hfst by done. }
  rewrite Hfst, Hemp, bool_decide_false by done.
  pose proof (cov_end _ _ _ _ _ Hc Hv).
  destruct (decide (hi - 1 < clo)).
  { rewrite decide_True by by right.
    by rewrite (read_md_slice _ _ _ _ _ _ _ Hb Hc) by (done || lia || (right; lia)). }
  rewrite decide_False by (intros [?|?]; [done|lia]).
  destruct (decide (clo <= lo)) as [Hcl|Hcl].
  { rewrite decide_True by lia. unfold md_slice. rewrite (bare_slice _ _ _ _ Hb).
    change (go_slice _ _ (body L)) with (log_slice L lo hi).
    by rewrite (from_cache_slice _ _ _ _ _ _ _ _ Hok Hc) by (done || lia). }
  rewrite decide_False by lia. rewrite decide_True by lia.
  rewrite Hoff, !(u64_small (clo - _)), u64_small by lia.
  rewrite ents_slice by lia. replace (clo - base L - (lo - base L)) with (clo - lo) by lia.
  rewrite md_slice_take, md_slice_drop by lia.
  rewrite (read_md_slice _ _ _ _ _ _ _ Hb Hc) by (done || lia || (right; lia)).
  unfold md_slice. rewrite (bare_slice _ _ _ _ Hb).
  change (go_slice _ _ (body L)) with (log_slice L clo hi).
  rewrite (from_cache_slice _ _ _ _ _ _ _ _ Hok Hc) by (done || lia).
  by rewrite <- log_slice_split by lia.
Qed.

(** C32: [Entries] returns the requested slice of the log, cut to the size limit,
    whether the data comes from the cache, from the reader or from both, and
    refuses compacted and out-of-bound ranges. *)
Theorem Entries_spec r es L lo hi maxSize :
  represents r es L → lo < hi →
  Entries zero_meta entry_size r es lo hi maxSize =
    Ret (if decide (lo <= base L) then Err raft_ErrCompacted
         else if decide (log_end L < hi) then Err err_hi_out_of_bound
         else Ok (limitSize entry_size (log_slice L lo hi) maxSize)).
Proof.
  intros Hrep Hlh. destruct (rep_dummy _ _ _ Hrep) as (Hd & _ & _ & Hlast & _).
  destruct (rep_fits _ _ _ Hrep) as [??].
  destruct (decide (lo <= base L)) as [?|Hlo].
  { unfold Entries, validateGetEntriesRange. rewrite Hd. by rewrite decide_True. }
  destruct (decide (log_end L < hi)) as [?|Hhi].
  { unfold Entries, validateGetEntriesRange. rewrite Hd, Hlast, u64_small by (unfold log_end in *; lia).
    by rewrite decide_False, decide_True by lia. }
  apply Entries_slice; [done|lia..].
Qed.

Lemma log_append_end L lo nes : base L < lo → lo <= log_end L →
  log_end (log_append L lo nes) = lo + Z.of_nat (length nes).
Proof. unfold log_end, log_append. simpl. intros. rewrite length_app, length_take. lia. Qed.

Lemma log_append_lookup_old L lo nes i : base L < lo → lo <= log_end L →
  base L + 1 + Z.of_nat i < lo → body (log_append L lo nes) !! i = body L !! i.
Proof.
  unfold log_end, log_append. simpl. intros.
  rewrite lookup_app_l by (rewrite length_take; lia). by rewrite lookup_take_lt by lia.
Qed.

Lemma log_append_lookup_new L lo nes i : base L < lo → lo <= log_end L →
  lo <= base L + 1 + Z.of_nat i →
  body (log_append L lo nes) !! i = nes !! Z.to_nat (base L + 1 + Z.of_nat i - lo).
Proof.
  unfold log_end, log_append. simpl. intros.
  rewrite lookup_app_r by (rewrite length_take; lia). rewrite length_take. f_equal. lia.
Qed.

Lemma covered_append r r' mds mds' v clo L nes lo :
  covered r mds v clo L → length mds = length (body L) →
  indexed e_index lo nes → nes ≠ [] → base L < lo → lo <= log_end L → 0 <= base L →
  (∀ md d, stored r md = Some d → stored r' md = Some d) →
  v = [] ∨ clo <= lo →
  covered r' (take (Z.to_nat (lo - base L - 1)) mds ++ mds') (view_append v nes)
    (if decide (v = []) then lo else clo) (log_append L lo nes).
Proof.
  intros Hc Hmds Hix Hne Hlo Hend Hb Hmono Hv.
  pose proof (cov_lo _ _ _ _ _ Hc). pose proof (log_append_end L lo nes Hlo Hend) as Hend'.
  assert (Hold : ∀ i md e, (take (Z.to_nat (lo - base L - 1)) mds ++ mds') !! i = Some md →
     body (log_append L lo nes) !! i = Some e → base L + 1 + Z.of_nat i < lo →
     mds !! i = Some md ∧ body L !! i = Some e).
  { unfold log_end in Hend. intros i md e Hm He Hi. rewrite log_append_lookup_old in He by (unfold log_end; lia).
    rewrite lookup_app_l in Hm by (rewrite length_take; lia). by rewrite lookup_take_lt in Hm by lia. }
  destruct nes as [|e0 nes]; [done|]. pose proof (proj1 (indexed_cons _ _ _ _) Hix) as [He0 _].
  destruct v as [|x v].
  - change (view_append [] (e0 :: nes)) with (cached <$> e0 :: nes). rewrite decide_True by done.
    split; [| lia | | |].
    + intros i y. rewrite list_lookup_fmap. intros (e & He & ->)%fmap_Some. by apply (Hix _ _ He).
    + intros _. by rewrite length_fmap, Hend'.
    + simpl base. intros i e He _ Hi. rewrite log_append_lookup_new in He by lia.
      by rewrite list_lookup_fmap, He.
    + simpl base. intros i md e Hm He [?|Hi]; [done|].
      destruct (Hold i md e) as [??]; [done..|]. apply Hmono.
      eapply (cov_stored _ _ _ _ _ Hc); [done..|by left].
  - destruct Hv as [|Hv]; [done|]. pose proof (cov_ix _ _ _ _ _ Hc) as Hvix.
    pose proof (cov_end _ _ _ _ _ Hc ltac:(done)) as Hvend.
    rewrite decide_False by done.
    assert (view_append (x :: v) (e0 :: nes) = take (Z.to_nat (lo - clo)) (x :: v) ++ (cached <$> e0 :: nes)) as ->.
    { apply indexed_cons in Hvix as [<- _]. unfold view_append. rewrite He0. by rewrite decide_True by lia. }
    assert (length (take (Z.to_nat (lo - clo)) (x :: v)) = Z.to_nat (lo - clo)) as Hlt
      by (rewrite length_take; lia).
    split; [|lia| | |].
    + apply indexed_app. split; [by apply indexed_take|]. rewrite Hlt.
      replace (clo + Z.of_nat (Z.to_nat (lo - clo))) with lo by lia.
      intros i y. rewrite list_lookup_fmap. intros (e & He & ->)%fmap_Some. by apply (Hix _ _ He).
    + intros _. rewrite length_app, Hlt, length_fmap, Hend'. lia.
    + simpl base. intros i e He _ Hi. destruct (decide (base L + 1 + Z.of_nat i < lo)).
      * rewrite log_append_lookup_old in He by done. apply (cov_cache _ _ _ _ _ Hc) in He; [|done..].
        rewrite lookup_app_l by lia. by rewrite lookup_take_lt by lia.
      * rewrite log_append_lookup_new in He by lia. rewrite lookup_app_r by lia.
        rewrite Hlt, list_lookup_fmap.
        replace (Z.to_nat (base L + 1 + Z.of_nat i - clo) - Z.to_nat (lo - clo))%nat
          with (Z.to_nat (base L + 1 + Z.of_nat i - lo)) by lia. by rewrite He.
    + simpl base. intros i md e Hm He [Hnil|Hi]; [by destruct (take _ (x :: v))|].
      destruct (Hold i md e) as [??]; [done|done|lia|]. apply Hmono.
      eapply (cov_stored _ _ _ _ _ Hc); [done..|by right].
Qed.

Lemma AppendEntryIndex_rep r es L mds' nes lo d mds :
  represents r es L → st_ents es = d :: mds →
  bare <$> mds' = (λ e, set_data e []) <$> nes → indexed e_index lo nes → nes ≠ [] →
  base L < lo → lo <= log_end L → lo + Z.of_nat (length nes) < 2 ^ 61 →
  AppendEntryIndex zero_meta es mds'
  = Ret (with_ents es (d :: take (Z.to_nat (lo - base L - 1)) mds ++ mds'), None).
Proof.
  intros Hrep He Hb Hix Hne Hlo Hend Hfit.
  destruct (rep_dummy _ _ _ Hrep) as (Hd & _ & Hlen & _ & Hfst). destruct (rep_fits _ _ _ Hrep) as [??].
  pose proof (bare_length _ _ Hb) as Hlm. destruct nes as [|e0 nes]; [done|].
  destruct mds' as [|m0 mds']; [done|].
  pose proof (proj1 (indexed_cons _ _ _ _) Hix) as [He0 _].
  destruct (bare_lookup _ _ 0 e0 Hb eq_refl) as (? & [= <-] & _ & Hm & _). rewrite He0 in Hm.
  unfold AppendEntryIndex. rewrite Hfst, Hm, Hlm, u64_small by lia.
  rewrite decide_False by (simpl; lia). rewrite (decide_False (P := lo < _)) by lia.
  rewrite Hm, Hd, u64_small, Hlen by lia. unfold log_end in Hend.
  replace (Z.to_nat (lo - base L)) with (S (Z.to_nat (lo - base L - 1))) by lia.
  rewrite He in Hlen |- *. simpl in Hlen. case_decide; [done|].
  rewrite decide_True by lia. rewrite take_ge by lia. done.
Qed.

(** A storage with nothing cached, loaded with the index of a log that is stored. *)
Lemma loaded_represents r es d mds ents :
  st_ents es = [d] → cache_ok (st_cache es) [] → 0 <= ei_index d → ei_index d + Z.of_nat (length ents) + 1 < 2 ^ 61 →
  indexed e_index (ei_index d + 1) ents → Forall2 (λ md e, bare md = set_data e [] ∧ stored r md = Some (e_data e)) mds ents →
  AppendEntryIndex zero_meta es mds = Ret (with_ents es (d :: mds), None) ∧
  represents r (with_ents es (d :: mds)) {| base := ei_index d; base_term := ei_term d; body := ents |}.
Proof.
  intros He Hok Hd Hfit Hix Hf. set (L := {| base := ei_index d; base_term := ei_term d; body := [] |}).
  assert (bare <$> mds = (λ e, set_data e []) <$> ents) as Hb.
  { clear -Hf. induction Hf as [|md e mds ents [Hb _] Hf IH]; [done|]. csimpl. by rewrite Hb, IH. }
  assert (represents r es L) as Hnew.
  { split; simpl; [unfold log_end; simpl; lia|apply indexed_nil|]. exists d, []. split_and!; [done..|]. exists [], (ei_index d + 1).
    split; [done|]. split; [apply indexed_nil|lia|done..]. }
  split.
  - destruct (decide (ents = [])) as [->|Hne].
    + apply Forall2_nil_inv_r in Hf as ->. destruct es. simpl in *. by subst.
    + rewrite (AppendEntryIndex_rep r es L mds ents (ei_index d + 1) d [] Hnew He Hb Hix Hne) by (unfold log_end; simpl; lia).
      by rewrite take_nil.
  - split; simpl; [unfold log_end; simpl; lia|done|]. exists d, mds. split_and!; [done..|]. exists [], (ei_index d + 1).
    split; [done|]. split; [apply indexed_nil|lia|done..|]. intros i md e Hm Hi _. by destruct (Forall2_lookup_lr _ _ _ _ _ _ Hf Hm Hi).
Qed.

(** Appending entries the way [Wal.saveEntry] does, index entries first and then
    the cache, keeps the storage in step with the log: it then holds the log with
    everything from the first new entry on replaced.  The new entries need not be
    readable from the files yet.  The condition on the cache is needed: see
    [stale_cache_served]. *)
Lemma append_represents r r' es L mds' nes lo :
  represents r es L →
  bare <$> mds' = (λ e, set_data e []) <$> nes → indexed e_index lo nes → nes ≠ [] →
  base L < lo → lo <= log_end L → lo + Z.of_nat (length nes) < 2 ^ 61 →
  (∀ md d, stored r md = Some d → stored r' md = Some d) →
  r_empty (cache_range (st_cache es)) = true ∨ r_first (cache_range (st_cache es)) <= lo →
  ∃ es1 es2, AppendEntryIndex zero_meta es mds' = Ret (es1, None) ∧
    AppendCache es1 nes = Ret es2 ∧ represents r' es2 (log_append L lo nes).
Proof.
  intros Hrep Hb Hix Hne Hlo Hend Hfit Hmono Hcache.
  pose proof Hrep as [[Hf1 Hf2] HixL (d & mds & He & Hi & Ht & HbL & v & clo & Hok & Hc)].
  pose proof (AppendEntryIndex_rep _ _ _ _ _ _ _ _ Hrep He Hb Hix Hne Hlo Hend Hfit) as Happ.
  destruct (cache_first _ _ _ Hok (cov_ix _ _ _ _ _ Hc)) as [Hemp Hrng].
  assert (v = [] ∨ clo <= lo) as Hv.
  { destruct (decide (v = [])) as [|Hv]; [by left|right]. destruct (Hrng Hv) as [Hfst _].
    rewrite Hemp, Hfst, bool_decide_false in Hcache by done. destruct Hcache; [done|lia]. }
  assert (Z.of_nat (length v) <= log_end L) as Hvl.
  { destruct v; [unfold log_end in *; simpl; lia|].
    pose proof (cov_end _ _ _ _ _ Hc ltac:(done)). pose proof (cov_lo _ _ _ _ _ Hc). lia. }
  destruct (Append_spec (st_cache es) v clo nes lo) as (c' & Hca & Hok'); [done|apply Hc|done|apply Hc|lia..| |].
  { destruct v as [|x v]; [done|]. intros _. pose proof (cov_end _ _ _ _ _ Hc ltac:(done)). lia. }
  eexists _, _. split; [exact Happ|]. split; [unfold AppendCache; simpl; rewrite Hca; done|].
  split; simpl.
  - rewrite log_append_end by done. done.
  - apply indexed_app. split; [by apply indexed_take|]. unfold log_end in Hend.
    rewrite length_take. replace (base L + 1 + Z.of_nat _) with lo by lia. done.
  - exists d. eexists. split; [done|]. split_and!; [done..| |].
    + by rewrite !fmap_app, !fmap_take, HbL, Hb.
    + eexists _, _. split; [done|]. by eapply covered_append; [|apply bare_length|..].
Qed.

Lemma view_delete_length v clo c : indexed ce_index clo v → v ≠ [] →
  view_delete v c = drop (Z.to_nat (c - clo + 1)) v.
Proof. destruct v as [|x v]; [done|]. by intros [<- _]%indexed_cons. Qed.

(** Dropping the committed entries from the cache keeps the storage in step with
    the log, once the reader can serve them. *)
Lemma DeleteCache_represents r es L c :
  represents r es L →
  (∀ i md e, EntryIndexes es !! i = Some md → body L !! i = Some e → e_index e <= c →
    stored r md = Some (e_data e)) →
  represents r (DeleteCache es c) L.
Proof.
  intros [Hf HixL (d & mds & He & Hi & Ht & HbL & v & clo & Hok & Hc)] Hst.
  split; [done..|]. exists d, mds. split_and!; [done..|].
  unfold EntryIndexes in Hst. rewrite He in Hst. simpl in Hst. rewrite drop_0 in Hst.
  exists (view_delete v c). pose proof (cov_ix _ _ _ _ _ Hc) as Hvix.
  destruct (decide (v = [])) as [->|Hv].
  { exists clo. split; [|by simpl]. by apply (Delete_spec _ _ clo). }
  pose proof (cov_end _ _ _ _ _ Hc Hv) as Hend. pose proof (cov_lo _ _ _ _ _ Hc).
  set (n := Z.to_nat (c - clo + 1)). exists (clo + Z.of_nat n).
  split; [by apply (Delete_spec _ _ clo)|]. rewrite (view_delete_length _ _ _ Hvix Hv). fold n.
  assert (Hne : drop n v ≠ [] → (n < length v)%nat).
  { intros Hd. destruct (decide (n < length v)%nat); [done|]. by rewrite drop_ge in Hd by lia. }
  split; [|lia| | |].
  - destruct (decide (n <= length v)%nat); [by apply indexed_drop|].
    rewrite drop_ge by lia. apply indexed_nil.
  - intros Hd%Hne. rewrite length_drop. lia.
  - intros i e Hbe Hd%Hne Hlo. rewrite lookup_drop.
    apply (cov_cache _ _ _ _ _ Hc) in Hbe; [|done|lia]. rewrite <- Hbe. f_equal. lia.
  - intros i md e Hmd Hbe Hor. pose proof (HixL _ _ Hbe) as Hei.
    destruct (decide (e_index e <= c)); [by eapply Hst|].
    eapply (cov_stored _ _ _ _ _ Hc); [done..|]. right.
    apply lookup_lt_Some in Hbe. unfold log_end in Hend.
    destruct Hor as [Hd|Hor]; [|lia].
    apply (f_equal length) in Hd. rewrite length_drop in Hd. simpl in Hd. lia.
Qed.

(** Compaction to a position inside the log keeps the entries behind it. *)
Theorem Compact_represents r es L i term :
  represents r es L → base L < i → i < log_end L → log_term L i = Ok term →
  ∃ es', Compact zero_meta es i = Ret (es', None) ∧ represents r es' (log_compact L i term).
Proof.
  intros Hrep Hi Hend Hterm. destruct (rep_dummy _ _ _ Hrep) as (Hd & _ & _).
  destruct Hrep as [[Hf1 Hf2] HixL (d & mds & He & Hdi & Ht & HbL & v & clo & Hok & Hc)].
  unfold log_end in *.
  destruct (lookup_lt_is_Some_2 (body L) (Z.to_nat (i - base L - 1))) as [e Hbe]; [lia|].
  destruct (bare_lookup _ _ _ _ HbL Hbe) as (md & Hmd & Hmt & Hmi & _).
  unfold log_term in Hterm. rewrite !decide_False, Hbe in Hterm by lia. injection Hterm as <-.
  unfold Compact. rewrite Hd, decide_False, u64_small, He by lia.
  replace (Z.to_nat (i - base L)) with (S (Z.to_nat (i - base L - 1))) by lia. simpl. rewrite Hmd.
  eexists. split; [done|]. pose proof (HixL _ _ Hbe) as Hei.
  assert (Hn : S (Z.to_nat (i - base L - 1)) = Z.to_nat (i - base L)) by lia. rewrite Hn.
  split; simpl; unfold log_end; simpl.
  - rewrite length_drop. lia.
  - replace (i + 1) with (base L + 1 + Z.of_nat (Z.to_nat (i - base L))) by lia.
    apply indexed_drop; [lia|done].
  - eexists _, _. split_and!; [done|simpl; lia|done|by rewrite !fmap_drop, HbL|].
    exists v, clo. split; [done|]. split; unfold log_end; simpl.
    + apply Hc.
    + apply Hc.
    + intros Hv. rewrite length_drop, (cov_end _ _ _ _ _ Hc Hv). unfold log_end. lia.
    + intros j e'. rewrite lookup_drop. intros He' Hv Hlo.
      apply (cov_cache _ _ _ _ _ Hc) in He'; [|done|lia]. rewrite <- He'. f_equal. lia.
    + intros j md' e'. rewrite !lookup_drop. intros Hm' He' Hor.
      eapply (cov_stored _ _ _ _ _ Hc); [done..|]. destruct Hor; [by left|right; lia].
Qed.

(** Another reader that has all the entries will do. *)
Lemma represents_stored r r' es L :
  represents r es L →
  (∀ i md e, EntryIndexes es !! i = Some md → body L !! i = Some e → stored r' md = Some (e_data e)) →
  represents r' es L.
Proof.
  intros [Hf HixL (d & mds & He & Hi & Ht & HbL & v & clo & Hok & Hc)] Hst.
  split; [done..|]. exists d, mds. split_and!; [done..|]. exists v, clo. split; [done|].
  unfold EntryIndexes in Hst. rewrite He in Hst. simpl in Hst. rewrite drop_0 in Hst.
  split; [apply Hc..|]. intros i md e Hm Hb _. by eapply Hst.
Qed.

(** The cache holds every entry behind the commit index. *)
Definition caught_up es (n : nat) (commit : Z) : Prop :=
  if r_empty (cache_range (st_cache es)) then Z.of_nat n <= commit
  else r_first (cache_range (st_cache es)) <= commit + 1.

Lemma caught_up_view es v clo n commit :
  cache_ok (st_cache es) v → indexed ce_index clo v →
  caught_up es n commit ↔ if decide (v = []) then Z.of_nat n <= commit else clo <= commit + 1.
Proof.
  intros Hok Hix. destruct (cache_first _ _ _ Hok Hix) as [Hemp Hrng]. unfold caught_up. rewrite Hemp.
  destruct (decide (v = [])) as [->|Hv]; [done|]. rewrite bool_decide_false by done.
  by destruct (Hrng Hv) as [-> _].
Qed.

Lemma caught_up_delete r es L commit c :
  represents r es L → base L = 0 → caught_up es (length (body L)) commit → commit <= c →
  caught_up (DeleteCache es c) (length (body L)) c.
Proof.
  intros [Hf HixL (d & mds & He & Hi & Ht & HbL & v & clo & Hok & Hc)] Hb Hup Hcc.
  pose proof (cov_ix _ _ _ _ _ Hc) as Hvix. apply (caught_up_view _ v clo) in Hup; [|done..].
  pose proof (Delete_spec (st_cache es) v clo c Hok Hvix) as Hok'.
  destruct (decide (v = [])) as [->|Hv].
  { apply (caught_up_view _ [] clo); [done|apply indexed_nil|]. rewrite decide_True by done. lia. }
  rewrite (view_delete_length _ _ _ Hvix Hv) in Hok'. pose proof (cov_end _ _ _ _ _ Hc Hv) as Hend.
  unfold log_end in Hend. rewrite Hb in Hend. set (n := Z.to_nat (c - clo + 1)) in *.
  destruct (decide (n < length v)%nat).
  - apply (caught_up_view _ (drop n v) (clo + Z.of_nat n)); [done|apply indexed_drop; [lia|done]|].
    rewrite decide_False; [lia|]. intros Hn. apply (f_equal length) in Hn. rewrite length_drop in Hn.
    simpl in Hn. lia.
  - rewrite drop_ge in Hok' by lia. apply (caught_up_view _ [] 0); [done|apply indexed_nil|].
    rewrite decide_True by done. lia.
Qed.

Lemma caught_up_append r es es1 es2 L nes lo commit n :
  represents r es L → base L = 0 → caught_up es (length (body L)) commit →
  st_cache es1 = st_cache es → AppendCache es1 nes = Ret es2 →
  indexed e_index lo nes → nes ≠ [] → commit < lo → 0 < lo → lo <= log_end L →
  lo + Z.of_nat (length nes) < 2 ^ 61 → caught_up es2 n commit.
Proof.
  intros [[Hf1 Hf2] HixL (d & mds & He & Hi & Ht & HbL & v & clo & Hok & Hc)] Hb Hup Hc1 Happ Hix Hne Hcl Hlo Hend Hfit.
  pose proof (cov_ix _ _ _ _ _ Hc) as Hvix. apply (caught_up_view _ v clo) in Hup; [|done..].
  pose proof (cov_lo _ _ _ _ _ Hc). unfold log_end in *. rewrite Hb in *.
  assert (v ≠ [] → clo + Z.of_nat (length v) = Z.of_nat (length (body L)) + 1) as Hvend.
  { intros Hv. pose proof (cov_end _ _ _ _ _ Hc Hv). unfold log_end in *. lia. }
  destruct (Append_spec (st_cache es) v clo nes lo) as (c' & Hca & Hok'); [done..|lia|lia| | |].
  { destruct (decide (v = [])) as [->|Hv]; [simpl; lia|]. specialize (Hvend Hv). lia. }
  { intros Hv. specialize (Hvend Hv). lia. }
  unfold AppendCache in Happ. rewrite Hc1, Hca in Happ. simpl in Happ. injection Happ as <-.
  destruct nes as [|e nes]; [done|]. pose proof (proj1 (indexed_cons _ _ _ _) Hix) as [He0 _].
  destruct v as [|x v].
  - rewrite decide_True in Hup by done. apply (caught_up_view _ (cached <$> e :: nes) lo).
    + done.
    + intros i y. rewrite list_lookup_fmap. intros (z & Hz & ->)%fmap_Some. by apply (Hix _ _ Hz).
    + rewrite decide_False by done. lia.
  - rewrite decide_False in Hup by done. specialize (Hvend ltac:(done)).
    assert (view_append (x :: v) (e :: nes) = take (Z.to_nat (lo - clo)) (x :: v) ++ (cached <$> e :: nes)) as Hva.
    { apply indexed_cons in Hvix as [<- _]. unfold view_append. rewrite He0. by rewrite decide_True by lia. }
    rewrite Hva in Hok'.
    apply (caught_up_view _ (take (Z.to_nat (lo - clo)) (x :: v) ++ (cached <$> e :: nes)) clo); [exact Hok'|..].
    + apply indexed_app. split; [by apply indexed_take|]. rewrite length_take.
      replace (clo + Z.of_nat _) with lo by lia.
      intros i y. rewrite list_lookup_fmap. intros (z & Hz & ->)%fmap_Some. by apply (Hix _ _ Hz).
    + rewrite decide_False; [done|]. by destruct (take _ (x :: v)).
Qed.

(** A snapshot ahead of the stored one replaces the log by its position. *)
Lemma ApplySnapshot_represents r es L snap :
  represents r es L → 0 <= sm_index (snap_meta snap) < 2 ^ 60 →
  sm_index (snap_meta (st_snapshot es)) < sm_index (snap_meta snap) →
  ∃ es', ApplySnapshot zero_meta es snap = (es', None) ∧ st_snapshot es' = snap ∧
    represents r es' {| base := sm_index (snap_meta snap); base_term := sm_term (snap_meta snap); body := [] |}.
Proof.
  intros [Hf HixL (d & mds & He & Hi & Ht & HbL & v & clo & Hok & Hc)] Hs Hnew.
  unfold ApplySnapshot. rewrite decide_False by lia. eexists. split; [done|]. split; [done|].
  split; unfold log_end; simpl; [lia|apply indexed_nil|].
  eexists _, []. split_and!; [done..|]. exists [], 0.
  split; [by apply (Clear_spec _ v clo); [|apply Hc]|]. split; [apply indexed_nil|lia|done..].
Qed.

(** [Term] answers for every position like the log: compacted, the base's term, an
    entry's term, or unavailable. *)
Theorem Term_spec r es L i :
  represents r es L → 0 <= i < 2 ^ 62 → Term zero_meta es i = Ret (log_term L i).
Proof.
  intros Hrep Hi. destruct (rep_dummy _ _ _ Hrep) as (Hd & _ & Hlen & _).
  destruct Hrep as [[Hf1 Hf2] HixL (d & mds & He & Hdi & Ht & HbL & _)]. unfold log_end in *.
  unfold Term, log_term. rewrite Hd, Hlen. case_decide; [done|].
  rewrite u64_small, i64_small by lia. rewrite He. case_decide as Hbig.
  - rewrite decide_False by lia. rewrite lookup_ge_None_2; [done|lia].
  - destruct (decide (i = base L)) as [->|Hne].
    + rewrite Z.sub_diag. simpl. by rewrite Ht.
    + replace (Z.to_nat (i - base L)) with (S (Z.to_nat (i - base L - 1))) by lia. simpl.
      destruct (lookup_lt_is_Some_2 (body L) (Z.to_nat (i - base L - 1))) as [e Hbe]; [lia|].
      destruct (bare_lookup _ _ _ _ HbL Hbe) as (md & -> & -> & _). by rewrite Hbe.
Qed.
End Refinement.

(** ** A reader over a list of records, and runs of the storage over it *)

Module Records.
(** The place of an entry's data is its position in the list of records written. *)
Definition read_records (r : list (list byte)) (mds : list (EntryIndex nat)) (ents : list Entry)
    : go (result (list Entry)) :=
  Ret match mapM (λ md, r !! ei_meta md) mds with
      | Some ds => Ok (zip_with set_data ents ds)
      | None => Err io_EOF
      end.

#[export] Instance records_reader : EntryDataReader (list (list byte)) nat := read_records.

#[export] Instance lawful_records : LawfulReader (list (list byte)) nat.
Proof.
  refine {| stored := λ r md, r !! ei_meta md |}.
  intros r mds ents ds _ Hst _. unfold read_entries_data, records_reader, read_records.
  by rewrite (proj2 (mapM_Some _ _ _) Hst).
Defined.

(** The index entry of an entry written as record [n]. *)
Definition index_of (e : Entry) (n : nat) : EntryIndex nat :=
  Build_EntryIndex (e_term e) (e_index e) (e_type e) n.

Definition size_one (e : Entry) : Z := 1.

(** Restart with entries 1 and 2 on disk, then receive entry 3 from the same leader. *)
Definition e1 : Entry := normal_entry 1 1 Byte.x61.
Definition e2 : Entry := normal_entry 1 2 Byte.x62.
Definition e3 : Entry := normal_entry 1 3 Byte.x63.
Definition restarted : go (EntryStorage nat * option error) :=
  AppendEntryIndex 0%nat (NewEntryStorage 0%nat) [index_of e1 0; index_of e2 1].
Definition received : go (EntryStorage nat) :=
  '(es, _) ← restarted;
  '(es, _) ← AppendEntryIndex 0%nat es [index_of e3 2]; AppendCache es [e3].

(** A new leader then overwrites entries 2 and 3. *)
Definition e2' : Entry := normal_entry 2 2 Byte.x42.
Definition e3' : Entry := normal_entry 2 3 Byte.x43.
Definition overwritten : go (EntryStorage nat) :=
  es ← received;
  '(es, _) ← AppendEntryIndex 0%nat es [index_of e2' 3; index_of e3' 4]; AppendCache es [e2'; e3'].

Definition disk : list (list byte) := e_data <$> [e1; e2; e3; e2'; e3'].

(** An append that starts before the first cached entry leaves the cache stale.
    After a restart the cache holds only entry 3; when a new leader overwrites
    entries 2 and 3, [Entries] returns entry 3 with the new term and the old data. *)
Theorem stale_cache_served :
  ∃ es, overwritten = Ret es ∧
    Entries 0%nat size_one disk es 2 4 100 = Ret (Ok [e2'; set_data e3' (e_data e3)]) ∧
    e_data e3 ≠ e_data e3'.
Proof. eexists. split; [reflexivity|]. split; [reflexivity|done]. Qed.

Definition demo_log : Log := {| base := 0; base_term := 0; body := [e1; e2; e3] |}.
Definition demo_storage : EntryStorage nat :=
  match received with Ret es => es | Panic _ => NewEntryStorage 0%nat end.

Lemma demo_represents : represents (take 2 disk) demo_storage demo_log.
Proof.
  split; [unfold log_end; simpl; lia|solve_indexed|].
  eexists _, _. split; [reflexivity|]. split_and!; [done..|].
  exists [cached e3], 3. split.
  - change (st_cache demo_storage) with (cache_append NewCache [e3]).
    apply (cache_append_ok _ [] [e3] NewCache_ok). simpl. lia.
  - split; [solve_indexed|lia|done| |].
    + intros i e Hi _ Hlo. simpl in Hlo.
      destruct i as [|[|[|i]]]; simpl in *; simplify_eq; try lia. done.
    + intros i md e Hm He [?|Hlo]; [done|]. simpl in Hlo.
      destruct i as [|[|i]]; simpl in *; simplify_eq; try lia; done.
Qed.

Lemma Entries_spec_witness :
  Entries 0%nat size_one (take 2 disk) demo_storage 1 4 2 = Ret (Ok [e1; e2]).
Proof. apply (Entries_spec 0%nat size_one _ _ demo_log 1 4 2 demo_represents). lia. Defined.

Lemma Compact_represents_witness :
  ∃ es', Compact 0%nat demo_storage 2 = Ret (es', None) ∧
    represents (take 2 disk) es' {| base := 2; base_term := 1; body := [e3] |}.
Proof.
  apply (Compact_represents 0%nat (take 2 disk) demo_storage demo_log 2 1 demo_represents);
    [simpl; lia|unfold log_end; simpl; lia|done].
Defined.

Lemma Term_spec_witness : Term 0%nat demo_storage 3 = Ret (Ok 1).
Proof. apply (Term_spec 0%nat (take 2 disk) demo_storage demo_log 3 demo_represents). lia. Defined.
End Records.
