(* ===== verification/LogFiles.v ===== *)
(** * Log file names, selection and purging

    [iwal/interface.go] (file names), [utility/utility.go] (parsing names, choosing
    the files a replay has to read, the file header) and [Purge] of
    [logfile/manager.go].  A name round-trips through its parser; the files chosen
    are a gap-free suffix; purging removes at most one file, one no replay from the
    snapshot needs. *)

From Stdlib Require Import Ascii.
From S2P Require Import Prelude Raftpb.

Record LogFileDesc := { fd_Id : Z; fd_StartLogIndex : Z; fd_IsTempFile : bool }.

#[export] Instance LogFileDesc_eq_dec : EqDecision LogFileDesc.
Proof. solve_decision. Defined.

(** ** Names *)

Definition hex_digit (d : Z) : ascii :=
  Ascii.ascii_of_nat (Z.to_nat (if decide (d < 10) then 48 + d else 87 + d)).

(** [%016x] of a 64-bit number, the [n] low digits. *)
Fixpoint hex_digits (n : nat) (z : Z) (rest : string) : string :=
  match n with
  | O => rest
  | S n => hex_digits n (Z.shiftr z 4) (String (hex_digit (Z.land z 15)) rest)
  end.
Definition hex16 (z : Z) (rest : string) : string := hex_digits 16 z rest.

Definition GetLogFileName (d : LogFileDesc) : string :=
  hex16 (fd_Id d) (String "-" (hex16 (fd_StartLogIndex d) ".wal")).
Definition GetTempLogFileName (d : LogFileDesc) : string :=
  hex16 (fd_Id d) (String "-" (hex16 (fd_StartLogIndex d) ".wal.tmp")).

Definition err_scan : error := Errorf "input does not match format".

(** The digits [%x] accepts. *)
Definition hex_value (c : ascii) : option Z :=
  let n := Z.of_nat (Ascii.nat_of_ascii c) in
  if decide (48 <= n <= 57) then Some (n - 48)
  else if decide (97 <= n <= 102) then Some (n - 87)
  else if decide (65 <= n <= 70) then Some (n - 55)
  else None.

(** Scanning at most [n] digits after the ones that make [acc]. *)
Fixpoint scan_digits (n : nat) (acc : Z) (s : string) : Z * string :=
  match n, s with
  | S n, String c s' =>
      match hex_value c with
      | Some d => scan_digits n (16 * acc + d) s'
      | None => (acc, s)
      end
  | _, _ => (acc, s)
  end.

Fixpoint skip_space (s : string) : string :=
  match s with
  | String c s' => if decide (c = " "%char) then skip_space s' else s
  | EmptyString => s
  end.

(** [%016x] of [fmt.Sscanf]: blanks are skipped, one to sixteen digits are read. *)
Definition scan_hex (s : string) : result (Z * string) :=
  match skip_space s with
  | String c s' =>
      match hex_value c with
      | Some d => Ok (scan_digits 15 d s')
      | None => Err err_scan
      end
  | EmptyString => Err io_ErrUnexpectedEOF
  end.

(** A literal part of the format. *)
Fixpoint scan_literal (lit s : string) : result string :=
  match lit, s with
  | EmptyString, _ => Ok s
  | String a lit, String b s => if decide (a = b) then scan_literal lit s else Err err_scan
  | _, EmptyString => Err io_ErrUnexpectedEOF
  end.

Definition ParseLogFileName (name : string) : result LogFileDesc :=
  match scan_hex name with
  | Err e => Err e
  | Ok (id, s) =>
      match scan_literal "-" s with
      | Err e => Err e
      | Ok s =>
          match scan_hex s with
          | Err e => Err e
          | Ok (start, s) =>
              match scan_literal ".wal" s with
              | Err e => Err e
              | Ok _ => Ok {| fd_Id := id; fd_StartLogIndex := start; fd_IsTempFile := false |}
              end
          end
      end
  end.

(** [strings.HasSuffix]. *)
Fixpoint HasSuffix (s suffix : string) : bool :=
  bool_decide (s = suffix) ||
  match s with
  | EmptyString => false
  | String _ s => HasSuffix s suffix
  end.

(** ** Choosing the files to replay *)

Definition err_not_continuous : error := Errorf "wal: file id is not continuous. expect(%d) real(%d)".

(** The descriptors of the directory's log files; each entry is a name and whether it
    is a directory. *)
Fixpoint parse_names (files : list (string * bool)) : result (list LogFileDesc) :=
  match files with
  | [] => Ok []
  | (name, isDir) :: files =>
      if isDir : bool then parse_names files
      else if HasSuffix name ".wal" then
        match ParseLogFileName name with
        | Err e => Err e
        | Ok d => match parse_names files with Err e => Err e | Ok ds => Ok (d :: ds) end
        end
      else parse_names files
  end.

Definition by_id (a b : LogFileDesc) : Prop := fd_Id a <= fd_Id b.
#[export] Instance by_id_dec : RelDecision by_id.
Proof. intros ??. unfold by_id. apply _. Defined.

(** The loop over [walFiles] from the last one down, on the reversed list; [kept] are
    the files already passed. *)
Fixpoint select_files (rev_files : list LogFileDesc) (nextSeq snapIndex : Z) (kept : list LogFileDesc)
    : result (list LogFileDesc) :=
  match rev_files with
  | [] => Ok kept
  | f :: rest =>
      if decide (nextSeq ≠ 0 ∧ fd_Id f ≠ u64 (nextSeq - 1)) then Err err_not_continuous
      else if decide (fd_StartLogIndex f <= snapIndex) then Ok (f :: kept)
      else select_files rest (fd_Id f) snapIndex (f :: kept)
  end.

Definition ReadValidLogFiles (files : list (string * bool)) (snapIndex : Z) : result (list LogFileDesc) :=
  match parse_names files with
  | Err e => Err e
  | Ok ds => select_files (rev (merge_sort by_id ds)) 0 snapIndex []
  end.

(** ** Purging *)

(** The index of the last file before the first one that starts at or after the
    snapshot; 0 when there is no such file. *)
Fixpoint first_from (r : list LogFileDesc) (snapIndex : Z) (i : Z) : option Z :=
  match r with
  | [] => None
  | d :: r => if decide (snapIndex <= fd_StartLogIndex d) then Some i else first_from r snapIndex (i + 1)
  end.
Definition smaller (r : list LogFileDesc) (snapIndex : Z) : Z :=
  match first_from r snapIndex 0 with Some i => i - 1 | None => 0 end.

(** The inner loop: the first file that may go, and the slice as the loop leaves it. *)
Fixpoint purge_inner (r : list LogFileDesc) (keep : nat) (snapIndex : Z)
    : list LogFileDesc * option LogFileDesc :=
  match r with
  | [] => ([], None)
  | d :: rest =>
      if decide (length r <= keep)%nat then (r, None)
      else if decide (fd_StartLogIndex d < snapIndex) then (r, Some d)
      else purge_inner rest keep snapIndex
  end.

(** The outer loop; [removed] are the files deleted so far. *)
Fixpoint purge_outer (n : nat) (r : list LogFileDesc) (keep : nat) (snapIndex : Z)
    (removed : list LogFileDesc) : list LogFileDesc :=
  match n with
  | O => removed
  | S n =>
      let '(r, d) := purge_inner r keep snapIndex in
      purge_outer n r keep snapIndex (removed ++ option_list d)
  end.

(** The files [Purge] deletes, [r] being the known files sorted by start index (in
    some order where the indexes are equal). *)
Definition purged (r : list LogFileDesc) (keep : nat) (snapIndex : Z) : list LogFileDesc :=
  purge_outer (Z.to_nat (smaller r snapIndex)) r keep snapIndex [].

(** ** Names round-trip *)

Lemma hex_value_digit d : 0 <= d < 16 → hex_value (hex_digit d) = Some d.
Proof.
  intros Hd.
  assert (∀ n, (n < 16)%nat → hex_value (hex_digit (Z.of_nat n)) = Some (Z.of_nat n)) as H.
  { intros n Hn. do 16 (destruct n as [|n]; [reflexivity|]). lia. }
  specialize (H (Z.to_nat d)). rewrite Z2Nat.id in H by lia. apply H. lia.
Qed.

(** The value of a number cut to its [n] low digits. *)
Definition low_digits (n : nat) (z : Z) : Z := z mod 16 ^ Z.of_nat n.

Lemma low_digits_S n z : low_digits (S n) z = 16 * low_digits n (Z.shiftr z 4) + Z.land z 15.
Proof.
  unfold low_digits. rewrite Nat2Z.inj_succ, Z.pow_succ_r, Z.shiftr_div_pow2 by lia.
  change 15 with (Z.ones 4). rewrite Z.land_ones by lia. change (2 ^ 4) with 16.
  rewrite (Z.rem_mul_r z 16) by (try apply Z.pow_pos_nonneg; lia). lia.
Qed.

Lemma land_15 z : 0 <= Z.land z 15 < 16.
Proof. change 15 with (Z.ones 4). rewrite Z.land_ones by lia. by apply Z.mod_pos_bound. Qed.

Lemma scan_digits_cons m acc d rest : 0 <= d < 16 →
  scan_digits (S m) acc (String (hex_digit d) rest) = scan_digits m (16 * acc + d) rest.
Proof. intros Hd. cbn [scan_digits]. by rewrite hex_value_digit. Qed.

Lemma scan_hex_digits n m acc z rest :
  scan_digits (n + m) acc (hex_digits n z rest)
  = scan_digits m (acc * 16 ^ Z.of_nat n + low_digits n z) rest.
Proof.
  revert acc m z rest. induction n as [|n IH]; intros acc m z rest; cbn [hex_digits].
  - unfold low_digits. change (16 ^ Z.of_nat 0) with 1. rewrite Z.mod_1_r.
    f_equal. lia.
  - replace (S n + m)%nat with (n + S m)%nat by lia. rewrite IH.
    rewrite scan_digits_cons by apply land_15. f_equal.
    rewrite low_digits_S, Nat2Z.inj_succ, Z.pow_succ_r by lia. ring.
Qed.

Lemma hex_digits_head n z rest :
  ∃ d s, hex_digits (S n) z rest = String (hex_digit d) s ∧ 0 <= d < 16.
Proof.
  revert z rest. induction n as [|n IH]; intros z rest.
  - exists (Z.land z 15), rest. split; [done|apply land_15].
  - apply IH.
Qed.

Lemma hex_digit_not_space d : 0 <= d < 16 → hex_digit d ≠ " "%char.
Proof. intros Hd Heq. pose proof (hex_value_digit d Hd) as H. rewrite Heq in H. discriminate H. Qed.

Lemma scan_hex16 z rest : is_u64 z → scan_hex (hex16 z rest) = Ok (z, rest).
Proof.
  intros Hz. pose proof (scan_hex_digits 16 0 0 z rest) as Hs. unfold hex16, scan_hex.
  destruct (hex_digits_head 15 z rest) as (d & s & Hd & Hr). rewrite Hd in Hs |- *.
  change (16 + 0)%nat with (S 15) in Hs. rewrite scan_digits_cons in Hs by done.
  cbn [skip_space]. rewrite decide_False by by apply hex_digit_not_space.
  rewrite hex_value_digit by done. rewrite Z.mul_0_r, Z.add_0_l in Hs. rewrite Hs.
  unfold low_digits. change (16 ^ Z.of_nat 16) with (2 ^ 64). rewrite Z.mod_small by done.
  reflexivity.
Qed.

(** Distinct files have distinct names. *)
Lemma GetLogFileName_inj a b :
  is_u64 (fd_Id a) → is_u64 (fd_StartLogIndex a) → is_u64 (fd_Id b) → is_u64 (fd_StartLogIndex b) →
  GetLogFileName a = GetLogFileName b → fd_Id a = fd_Id b ∧ fd_StartLogIndex a = fd_StartLogIndex b.
Proof.
  intros ???? Heq. unfold GetLogFileName in Heq.
  assert (∀ z1 z2 s1 s2, is_u64 z1 → is_u64 z2 → hex16 z1 s1 = hex16 z2 s2 → z1 = z2 ∧ s1 = s2) as Hhex.
  { intros z1 z2 s1 s2 Hz1 Hz2 Hs. apply (f_equal scan_hex) in Hs. rewrite !scan_hex16 in Hs by done.
    by injection Hs. }
  apply Hhex in Heq as [Hid Heq]; [|done..]. split; [done|].
  apply (f_equal (λ s, match s with String _ s => s | EmptyString => s end)) in Heq.
  by apply Hhex in Heq as [? _].
Qed.

Lemma length_hex_digits n z rest : String.length (hex_digits n z rest) = (n + String.length rest)%nat.
Proof. revert z rest. induction n as [|n IH]; intros z rest; [done|]. simpl. rewrite IH. simpl. lia. Qed.

Lemma length_GetLogFileName d : String.length (GetLogFileName d) = 37%nat.
Proof.
  unfold GetLogFileName, hex16. rewrite length_hex_digits. cbn [String.length].
  by rewrite length_hex_digits.
Qed.

(** A log file's name parses back to the file's identity, for every 64-bit id and
    start index. *)
Lemma ParseLogFileName_roundtrip d :
  is_u64 (fd_Id d) → is_u64 (fd_StartLogIndex d) →
  ParseLogFileName (GetLogFileName d)
  = Ok {| fd_Id := fd_Id d; fd_StartLogIndex := fd_StartLogIndex d; fd_IsTempFile := false |}.
Proof.
  intros Hid Hst. unfold ParseLogFileName, GetLogFileName. rewrite scan_hex16 by done.
  cbn [scan_literal]. rewrite decide_True by done. by rewrite scan_hex16.
Qed.

Lemma HasSuffix_cons c s suffix : HasSuffix s suffix = true → HasSuffix (String c s) suffix = true.
Proof. intros Hs. cbn [HasSuffix]. rewrite Hs. apply orb_true_r. Qed.

Lemma HasSuffix_hex n z rest suffix : HasSuffix rest suffix = true → HasSuffix (hex_digits n z rest) suffix = true.
Proof.
  revert z rest. induction n as [|n IH]; intros z rest Hr; [done|]. cbn [hex_digits]. by apply IH, HasSuffix_cons.
Qed.

(** The directory entries of log files parse to their descriptors. *)
Lemma parse_names_log ds :
  Forall (λ d, is_u64 (fd_Id d) ∧ is_u64 (fd_StartLogIndex d) ∧ fd_IsTempFile d = false) ds →
  parse_names ((λ d, (GetLogFileName d, false)) <$> ds) = Ok ds.
Proof.
  induction 1 as [|d ds (Hid & Hst & Htmp) Hds IH]; [done|]. cbn [fmap list_fmap parse_names].
  assert (HasSuffix (GetLogFileName d) ".wal" = true) as ->.
  { by apply HasSuffix_hex, HasSuffix_cons, HasSuffix_hex. }
  rewrite ParseLogFileName_roundtrip by done. rewrite IH. destruct d. simpl in *. by subst.
Qed.

Example log_file_name :
  GetLogFileName {| fd_Id := 26; fd_StartLogIndex := 4096; fd_IsTempFile := false |}
  = "000000000000001a-0000000000001000.wal".
Proof. reflexivity. Qed.

(** ** The files chosen *)

(** The files from the last one that starts at or before [snapIndex] on; all of them
    if there is none. *)
Fixpoint needed (ds : list LogFileDesc) (snapIndex : Z) : list LogFileDesc :=
  match ds with
  | [] => []
  | d :: rest =>
      if decide (Exists (λ f, fd_StartLogIndex f <= snapIndex) rest) then needed rest snapIndex
      else ds
  end.

Section Selection.
Implicit Types (ds pre kept : list LogFileDesc) (snap lo : Z).

Lemma needed_app pre f kept snap :
  Forall (λ f, snap < fd_StartLogIndex f) kept → fd_StartLogIndex f <= snap →
  needed (pre ++ f :: kept) snap = f :: kept.
Proof.
  intros Hk Hf. induction pre as [|d pre IH]; simpl.
  - rewrite decide_False; [done|]. intros (x & Hx & Hle)%Exists_exists.
    rewrite Forall_forall in Hk. specialize (Hk x Hx). lia.
  - rewrite decide_True; [done|]. apply Exists_app. right. by left.
Qed.

Lemma needed_none kept snap : Forall (λ f, snap < fd_StartLogIndex f) kept → needed kept snap = kept.
Proof.
  destruct kept as [|f kept]; [done|]. intros Hk%Forall_cons. destruct Hk as [_ Hk]. simpl.
  rewrite decide_False; [done|]. intros (x & Hx & Hle)%Exists_exists.
  rewrite Forall_forall in Hk. specialize (Hk x Hx). lia.
Qed.

Lemma select_files_needed pre kept lo snap :
  indexed fd_Id lo (pre ++ kept) → 0 <= lo → lo + Z.of_nat (length (pre ++ kept)) <= 2 ^ 64 →
  Forall (λ f, snap < fd_StartLogIndex f) kept →
  select_files (rev pre) (match kept with [] => 0 | k :: _ => fd_Id k end) snap kept
  = Ok (needed (pre ++ kept) snap).
Proof.
  revert kept. induction pre as [|f pre IH] using rev_ind; intros kept Hix Hlo Hhi Hk.
  { simpl. by rewrite needed_none. }
  rewrite <- app_assoc in Hix, Hhi |- *. simpl in Hix, Hhi |- *.
  rewrite rev_app_distr. simpl.
  assert (¬ (match kept with [] => 0 | k :: _ => fd_Id k end ≠ 0 ∧
             fd_Id f ≠ u64 (match kept with [] => 0 | k :: _ => fd_Id k end - 1))) as Hseq.
  { apply indexed_app in Hix as [_ [Hf Hk']%indexed_cons]. destruct kept as [|k kept]; [tauto|].
    apply indexed_cons in Hk' as [Hk' _]. rewrite length_app in Hhi. simpl in Hhi.
    rewrite Hk', Hf, u64_small by lia. lia. }
  rewrite decide_False by done. case_decide.
  - by rewrite needed_app.
  - apply (IH (f :: kept)); [done..|]. constructor; [lia|done].
Qed.

Lemma merge_sort_by_id ds ds' lo : indexed fd_Id lo ds → ds' ≡ₚ ds → merge_sort by_id ds' = ds.
Proof.
  intros Hix Hp. apply (StronglySorted_unique_strong by_id).
  - intros x y Hx Hy H1 H2. unfold by_id in *.
    rewrite merge_sort_Permutation, Hp in Hx.
    apply list_elem_of_lookup in Hx as [i Hi]. apply list_elem_of_lookup in Hy as [j Hj].
    pose proof (Hix _ _ Hi). pose proof (Hix _ _ Hj).
    assert (i = j) as -> by lia. congruence.
  - apply StronglySorted_merge_sort.
    + intros x y z. unfold by_id. lia.
    + intros x y. unfold by_id. lia.
  - clear Hp. revert lo Hix. induction ds as [|d ds IH]; intros lo Hix; [constructor|].
    apply indexed_cons in Hix as [Hd Hix]. constructor; [by eapply IH|].
    apply Forall_lookup. intros i x Hx. unfold by_id. rewrite (Hix _ _ Hx). lia.
  - by rewrite merge_sort_Permutation.
Qed.

(** Of log files with consecutive ids, in whatever order the directory lists them,
    the replay reads the files from the last one that starts at or before the
    snapshot on, in the order of their ids. *)
Lemma ReadValidLogFiles_needed files ds ds' lo snap :
  parse_names files = Ok ds' → ds' ≡ₚ ds →
  indexed fd_Id lo ds → 0 <= lo → lo + Z.of_nat (length ds) <= 2 ^ 64 →
  ReadValidLogFiles files snap = Ok (needed ds snap).
Proof.
  intros Hn Hp Hix Hlo Hhi. unfold ReadValidLogFiles. rewrite Hn, (merge_sort_by_id _ _ lo Hix Hp).
  rewrite (select_files_needed ds [] lo snap); rewrite ?app_nil_r; done.
Qed.

(** ** What a purge removes *)

Lemma first_from_Some r snap i n :
  first_from r snap i = Some n → i <= n ∧
  Forall (λ f, fd_StartLogIndex f < snap) (take (Z.to_nat (n - i)) r) ∧ n - i < Z.of_nat (length r).
Proof.
  revert i. induction r as [|d r IH]; intros i; simpl; [done|]. case_decide.
  - intros ?. simplify_eq. rewrite Z.sub_diag. simpl. split_and!; [lia|constructor|lia].
  - intros Hf. destruct (IH _ Hf) as (Hi & Hall & Hlen). split; [lia|]. split; [|lia].
    replace (Z.to_nat (n - i)) with (S (Z.to_nat (n - (i + 1)))) by lia. simpl.
    constructor; [lia|done].
Qed.

Lemma purge_outer_same n d rest keep snap removed :
  fd_StartLogIndex d < snap → Forall (λ x, x = d) removed →
  Forall (λ x, x = d) (purge_outer n (d :: rest) keep snap removed).
Proof.
  intros Hd. revert removed. induction n as [|n IH]; intros removed Hr; [done|].
  cbn [purge_outer purge_inner]. case_decide.
  - apply IH. by rewrite app_nil_r.
  - rewrite decide_True by done. apply IH. apply Forall_app. split; [done|by repeat constructor].
Qed.

(** A purge is safe and removes at most the oldest file: when ids and start indexes
    are in the same order, any file it removes is the first one, the ids of the
    others stay consecutive, and a replay from the snapshot reads the same files as
    before. *)
Theorem purge_safe r keep snap lo :
  indexed fd_Id lo r →
  purged r keep snap = [] ∨
  ∃ d rest, r = d :: rest ∧ Forall (λ x, x = d) (purged r keep snap) ∧
    fd_StartLogIndex d < snap ∧ indexed fd_Id (lo + 1) rest ∧ needed rest snap = needed r snap.
Proof.
  intros Hix. unfold purged, smaller.
  destruct (first_from r snap 0) as [n|] eqn:Hf; [|by left].
  destruct (first_from_Some _ _ _ _ Hf) as (_ & Hall & Hlen). rewrite Z.sub_0_r in Hall, Hlen.
  destruct (decide (n <= 1)) as [|Hn].
  { left. by replace (Z.to_nat (n - 1)) with 0%nat by lia. }
  right. destruct r as [|d [|d2 rest]]; [simpl in Hlen; lia..|]. exists d, (d2 :: rest).
  replace (Z.to_nat n) with (S (S (Z.to_nat (n - 2)))) in Hall by lia. simpl in Hall.
  apply Forall_cons in Hall as [Hd [Hd2 _]%Forall_cons].
  split_and!; [done|by apply purge_outer_same|done|by apply indexed_cons in Hix as [_ ?]|].
  cbn [needed]. rewrite (decide_True (P := Exists _ (d2 :: rest))); [done|]. left. lia.
Qed.
End Selection.

Definition desc (id start : Z) : LogFileDesc :=
  {| fd_Id := id; fd_StartLogIndex := start; fd_IsTempFile := false |}.

Example replay_chooses :
  ReadValidLogFiles
    [("0000000000000002-0000000000000014.wal", false); ("0000000000000000-0000000000000000.wal", false);
     ("0000000000000003-000000000000001e.wal.tmp", false); ("0000000000000001-000000000000000a.wal", false)] 15
  = Ok [desc 1 10; desc 2 20].
Proof. vm_compute. reflexivity. Qed.

Lemma purge_safe_witness :
  purged [desc 0 0; desc 1 10; desc 2 20; desc 3 30] 1 25 = [] ∨
  ∃ d rest, [desc 0 0; desc 1 10; desc 2 20; desc 3 30] = d :: rest ∧
    Forall (λ x, x = d) (purged [desc 0 0; desc 1 10; desc 2 20; desc 3 30] 1 25) ∧
    fd_StartLogIndex d < 25 ∧ indexed fd_Id (0 + 1) rest ∧
    needed rest 25 = needed [desc 0 0; desc 1 10; desc 2 20; desc 3 30] 25.
Proof. apply (purge_safe _ 1 25 0). solve_indexed. Defined.

(** Two files are obsolete and only one may stay, but one call removes just the first. *)
Example purge_removes_one :
  purged [desc 0 0; desc 1 10; desc 2 20; desc 3 30] 1 25 = [desc 0 0; desc 0 0].
Proof. reflexivity. Qed.

(** Two files with the same start index, as a log cycled twice without a new entry
    leaves, may be sorted either way; a purge that meets the younger one first removes
    it, and the remaining files are refused because their ids are not consecutive. *)
Theorem purge_breaks_ids :
  let files := [desc 2 5; desc 1 5; desc 3 9] in
  purged files 1 8 = [desc 2 5] ∧
  select_files (rev (merge_sort by_id [desc 1 5; desc 3 9])) 0 8 [] = Err err_not_continuous.
Proof. split; reflexivity. Qed.
