(* ===== verification/WalReplay.v ===== *)
(** * Replaying the log: entry collections, parser and player

    [entrycollection/*.go], [player/replayResult.go], [player/parser.go],
    [player/replay.go] and the file header of [utility/utility.go].  The theorems:
    replaying the records of a log file yields the state they denote, whatever
    unwritten space follows; a record torn by a crash leaves the state of the
    complete records and the offset to cut the file at. *)

From S2P Require Import Prelude Raftpb Allocator WalCodec EntryStorage LogFiles.
From S2P Require Import Coded.

(** [pb.WalNextEntry] and [storage.EntryIndexMetadata]. *)
Record WalNextEntry := { NextTerm : Z; NextIndex : Z }.
Record EntryIndexMetadata := { FileId : Z; Offset : Z; DataLen : Z; DataCapacity : Z }.

Definition emptyNextEntry : WalNextEntry := {| NextTerm := 0; NextIndex := 0 |}.
#[export] Instance WalNextEntry_eq_dec : EqDecision WalNextEntry.
Proof. solve_decision. Defined.

(** ** Entry collections *)

(** What [iwal.EntryCollection] does with an entry record: it is told the file, the
    snapshot the replay starts from, the record, and of the replay result the
    expected entry and the offset of the record; it returns the index to expect
    next.  [ec_parses] is whether the parser hands entries over at all. *)
Class EntryCollection (C : Type) := {
  ec_parses : bool;
  ec_decode : C → Z → Z → Z → list byte → Z → WalNextEntry → Z → C * result Z;
  ec_clear : C
}.

Definition err_gap : error := Errorf EmptyString.

(** [append(entries[:up], entry)], refused when it would leave a gap. *)
Definition put_entry {A} (entries : list A) (index snapshotIndex : Z) (entry : A) : result (list A) :=
  if decide (snapshotIndex < index) then
    let up := u64 (index - snapshotIndex - 1) in
    if decide (Z.of_nat (length entries) < up) then Err err_gap
    else Ok (take (Z.to_nat up) entries ++ [entry])
  else Ok entries.

Definition put_result {A} (entries : list A) (index : Z) (r : result (list A)) : list A * result Z :=
  match r with
  | Ok entries' => (entries', Ok (u64 (index + 1)))
  | Err e => (entries, Err e)
  end.

(** [EntryStore]: whole entries. *)
Definition EntryStore := list Entry.
Definition EntryStore_Decode (s : EntryStore) (fileId snapshotIndex logType : Z) (logBuf : list byte)
    (cap : Z) (ne : WalNextEntry) (offset : Z) : EntryStore * result Z :=
  let entry := {| e_term := NextTerm ne; e_index := NextIndex ne; e_type := logType; e_data := logBuf |} in
  put_result s (e_index entry) (put_entry s (e_index entry) snapshotIndex entry).

(** [IndexedEntryStore]: where the entries' data is. *)
Definition IndexedEntryStore := list (EntryIndex EntryIndexMetadata).
Definition IndexedEntryStore_Decode (s : IndexedEntryStore) (fileId snapshotIndex logType : Z)
    (logBuf : list byte) (cap : Z) (ne : WalNextEntry) (offset : Z) : IndexedEntryStore * result Z :=
  let entry := Build_EntryIndex (NextTerm ne) (NextIndex ne) logType
                 {| FileId := fileId; Offset := i64 (offset + HeaderSize);
                    DataLen := Z.of_nat (length logBuf); DataCapacity := cap |} in
  put_result s (ei_index entry) (put_entry s (ei_index entry) snapshotIndex entry).

Definition ErrNotImplementedOp : error := Sentinel "ErrNotImplementedOp".

(** [NopEntryStore]: refuses every entry, and the parser spares it. *)
Inductive NopEntryStore := nop_entry_store.
Definition NopEntryStore_Decode (s : NopEntryStore) (fileId snapshotIndex logType : Z)
    (logBuf : list byte) (cap : Z) (ne : WalNextEntry) (offset : Z) : NopEntryStore * result Z :=
  (s, Err ErrNotImplementedOp).

#[export] Instance entry_store : EntryCollection EntryStore :=
  {| ec_parses := true; ec_decode := EntryStore_Decode; ec_clear := [] |}.
#[export] Instance indexed_entry_store : EntryCollection IndexedEntryStore :=
  {| ec_parses := true; ec_decode := IndexedEntryStore_Decode; ec_clear := [] |}.
#[export] Instance nop_store : EntryCollection NopEntryStore :=
  {| ec_parses := false; ec_decode := NopEntryStore_Decode; ec_clear := nop_entry_store |}.

(** The loop of [DeleteUncommittedEntry]: the position of the first uncommitted
    entry, 0 when there is none. *)
Fixpoint delete_from (idx : list Z) (commitIndex : Z) (i : nat) : nat :=
  match idx with
  | [] => 0%nat
  | x :: idx => if decide (commitIndex < x) then i else delete_from idx commitIndex (S i)
  end.

Definition DeleteUncommittedEntry {A} (index : A → Z) (entries : list A) (commitIndex : Z) : list A :=
  let deleteFrom := delete_from (index <$> entries) commitIndex 0 in
  if decide (deleteFrom ≠ 0%nat) then take deleteFrom entries else entries.

(** The loop of [VisitEntry] over the collected entries. *)
Fixpoint visit {S} (visitor : S → Entry → S * option error) (st : S) (es : list Entry) : S * option error :=
  match es with
  | [] => (st, None)
  | e :: es =>
      match visitor st e with
      | (st, Some err) => (st, Some err)
      | (st, None) => visit visitor st es
      end
  end.

Definition EntryStore_VisitEntry {S} (s : EntryStore) (entryType : Z)
    (visitor : S → Entry → S * option error) (st : S) : S * option error :=
  visit visitor st (filter (λ e, e_type e = entryType) s).

Definition IndexedEntryStore_VisitEntry {R S} `{EntryDataReader R EntryIndexMetadata}
    (s : IndexedEntryStore) (reader : option R) (entryType : Z)
    (visitor : S → Entry → S * option error) (st : S) : go (S * option error) :=
  match reader with
  | None => Ret (st, Some (Errorf "reader is nil"))
  | Some r =>
      let entriesIndex := filter (λ e, ei_type e = entryType) s in
      match bare <$> entriesIndex with
      | [] => Ret (st, None)
      | confEntries =>
          res ← read_entries_data r entriesIndex confEntries;
          match res with
          | Err e => Ret (st, Some e)
          | Ok confEntries => Ret (visit visitor st confEntries)
          end
      end
  end.

(** ** The replay result *)

Record ReplayResult (C : Type) := {
  rr_metadata : list byte;
  rr_hardState : HardState;
  rr_nextEntry : WalNextEntry;
  rr_walSnapshots : list WalSnapshot;
  rr_lastLogFileDesc : LogFileDesc;
  rr_lastValidLogOffset : Z;
  rr_lastValidLogCrc : Z;
  rr_entries : C
}.
Arguments rr_metadata {C} _.
Arguments rr_hardState {C} _.
Arguments rr_nextEntry {C} _.
Arguments rr_walSnapshots {C} _.
Arguments rr_lastLogFileDesc {C} _.
Arguments rr_lastValidLogOffset {C} _.
Arguments rr_lastValidLogCrc {C} _.
Arguments rr_entries {C} _.

Definition emptyDesc : LogFileDesc := {| fd_Id := 0; fd_StartLogIndex := 0; fd_IsTempFile := false |}.

Section Result.
Context {C : Type}.
Implicit Types (r : ReplayResult C).

Definition NewReplayResult (c : C) : ReplayResult C :=
  {| rr_metadata := []; rr_hardState := emptyHardState; rr_nextEntry := emptyNextEntry;
     rr_walSnapshots := []; rr_lastLogFileDesc := emptyDesc; rr_lastValidLogOffset := 0;
     rr_lastValidLogCrc := 0; rr_entries := c |}.

Definition Reset `{EntryCollection C} r : ReplayResult C := NewReplayResult ec_clear.

Definition SetMetadata r (b : list byte) : ReplayResult C :=
  {| rr_metadata := b; rr_hardState := rr_hardState r; rr_nextEntry := rr_nextEntry r;
     rr_walSnapshots := rr_walSnapshots r; rr_lastLogFileDesc := rr_lastLogFileDesc r;
     rr_lastValidLogOffset := rr_lastValidLogOffset r; rr_lastValidLogCrc := rr_lastValidLogCrc r;
     rr_entries := rr_entries r |}.
Definition SetReplayedHardState r (hs : HardState) : ReplayResult C :=
  {| rr_metadata := rr_metadata r; rr_hardState := hs; rr_nextEntry := rr_nextEntry r;
     rr_walSnapshots := rr_walSnapshots r; rr_lastLogFileDesc := rr_lastLogFileDesc r;
     rr_lastValidLogOffset := rr_lastValidLogOffset r; rr_lastValidLogCrc := rr_lastValidLogCrc r;
     rr_entries := rr_entries r |}.
Definition SetNextEntry r (ne : WalNextEntry) : ReplayResult C :=
  {| rr_metadata := rr_metadata r; rr_hardState := rr_hardState r; rr_nextEntry := ne;
     rr_walSnapshots := rr_walSnapshots r; rr_lastLogFileDesc := rr_lastLogFileDesc r;
     rr_lastValidLogOffset := rr_lastValidLogOffset r; rr_lastValidLogCrc := rr_lastValidLogCrc r;
     rr_entries := rr_entries r |}.
Definition AppendWalSnapshots r (s : WalSnapshot) : ReplayResult C :=
  {| rr_metadata := rr_metadata r; rr_hardState := rr_hardState r; rr_nextEntry := rr_nextEntry r;
     rr_walSnapshots := rr_walSnapshots r ++ [s]; rr_lastLogFileDesc := rr_lastLogFileDesc r;
     rr_lastValidLogOffset := rr_lastValidLogOffset r; rr_lastValidLogCrc := rr_lastValidLogCrc r;
     rr_entries := rr_entries r |}.
Definition SetLastLogFileDesc r (d : LogFileDesc) : ReplayResult C :=
  {| rr_metadata := rr_metadata r; rr_hardState := rr_hardState r; rr_nextEntry := rr_nextEntry r;
     rr_walSnapshots := rr_walSnapshots r; rr_lastLogFileDesc := d;
     rr_lastValidLogOffset := rr_lastValidLogOffset r; rr_lastValidLogCrc := rr_lastValidLogCrc r;
     rr_entries := rr_entries r |}.
Definition SetLastValidLogFileOffset r (o : Z) : ReplayResult C :=
  {| rr_metadata := rr_metadata r; rr_hardState := rr_hardState r; rr_nextEntry := rr_nextEntry r;
     rr_walSnapshots := rr_walSnapshots r; rr_lastLogFileDesc := rr_lastLogFileDesc r;
     rr_lastValidLogOffset := o; rr_lastValidLogCrc := rr_lastValidLogCrc r;
     rr_entries := rr_entries r |}.
Definition IncreaseLastValidLogFileOffset r (o : Z) : ReplayResult C :=
  SetLastValidLogFileOffset r (i64 (rr_lastValidLogOffset r + o)).
Definition SetLastValidLogCrc r (c : Z) : ReplayResult C :=
  {| rr_metadata := rr_metadata r; rr_hardState := rr_hardState r; rr_nextEntry := rr_nextEntry r;
     rr_walSnapshots := rr_walSnapshots r; rr_lastLogFileDesc := rr_lastLogFileDesc r;
     rr_lastValidLogOffset := rr_lastValidLogOffset r; rr_lastValidLogCrc := c;
     rr_entries := rr_entries r |}.
Definition SetEntries r (c : C) : ReplayResult C :=
  {| rr_metadata := rr_metadata r; rr_hardState := rr_hardState r; rr_nextEntry := rr_nextEntry r;
     rr_walSnapshots := rr_walSnapshots r; rr_lastLogFileDesc := rr_lastLogFileDesc r;
     rr_lastValidLogOffset := rr_lastValidLogOffset r; rr_lastValidLogCrc := rr_lastValidLogCrc r;
     rr_entries := c |}.
Definition SetNextIndex r (i : Z) : ReplayResult C :=
  SetNextEntry r {| NextTerm := NextTerm (rr_nextEntry r); NextIndex := i |}.

(** The loop of [MatchSnapshot]. *)
Fixpoint match_snapshots (l : list WalSnapshot) (start : WalSnapshot) : option error :=
  match l with
  | [] => Some (Errorf "not found snapshot. snapshot(%v)")
  | s :: l =>
      if decide (ws_index start = ws_index s) then
        if decide (ws_term start ≠ ws_term s) then Some (Errorf "snapshot mismatch. expect(%v) real(%v)")
        else None
      else match_snapshots l start
  end.
Definition MatchSnapshot r (start : WalSnapshot) : option error := match_snapshots (rr_walSnapshots r) start.
End Result.

(** ** The parser *)

Definition ErrCRCMismatchForCrcMessage : error := Sentinel "ErrCRCMismatchForCrcMessage".
Definition ErrCRCMismatchForOthersMessage : error := Sentinel "ErrCRCMismatchForOthersMessage".
Definition ErrNotSupportMessage : error := Sentinel "ErrNotSupportMessage".
Definition ErrNotFoundNextEntry : error := Sentinel "ErrNotFoundNextEntry".

Record Parser (C : Type) := {
  p_result : ReplayResult C;
  p_startSnapshot : WalSnapshot;
  p_findNextEntry : bool
}.
Arguments p_result {C} _.
Arguments p_startSnapshot {C} _.
Arguments p_findNextEntry {C} _.

Definition NewParser {C} (r : ReplayResult C) (startSnapshot : WalSnapshot) : Parser C :=
  {| p_result := r; p_startSnapshot := startSnapshot; p_findNextEntry := false |}.

Definition with_result {C} (p : Parser C) (r : ReplayResult C) : Parser C :=
  {| p_result := r; p_startSnapshot := p_startSnapshot p; p_findNextEntry := p_findNextEntry p |}.
Definition with_found {C} (p : Parser C) (b : bool) : Parser C :=
  {| p_result := p_result p; p_startSnapshot := p_startSnapshot p; p_findNextEntry := b |}.

Definition logFileMagicHeader : list byte :=
  String.list_byte_of_string "babuzawal-raft-wal-D37314C80A57AA1ABB325BF1A2750F53FA822E64".
Definition logFileVersion : Z := 1.
Definition LogFileHeaderLength : nat := (length logFileMagicHeader + 8)%nat.

Definition err_unmarshal : error := Errorf "proto: unmarshal".
Definition err_unreachable : error := Sentinel "unreachable".

(** The log directory: file names and contents. *)
Abbreviation Dir := (gmap string (list byte)).

Section Parsing.
Context {C : Type} `{EntryCollection C} `{BufferPool}.
Context `{Message HardState} `{Message WalNextEntry} `{Message WalSnapshot}.
Implicit Types (p : Parser C) (r : ReplayResult C).

(** The [switch] of [logHandler] for the types other than the checksum record. *)
Definition log_switch p (logType : Z) (logBuf : list byte) (logSizeWithPadding : Z) : Parser C * option error :=
  let r := p_result p in
  if decide (logType = LogTypeNextEntry) then
    match unmarshal logBuf with
    | None => (p, Some err_unmarshal)
    | Some ne => (with_found (with_result p (SetNextEntry r ne)) true, None)
    end
  else if decide (logType = LogTypeNormalEntry ∨ logType = LogTypeConfChangeEntry ∨
                  logType = LogTypeConfChangeV2Entry) then
    if ec_parses then
      if p_findNextEntry p then
        match ec_decode (rr_entries r) (fd_Id (rr_lastLogFileDesc r)) (ws_index (p_startSnapshot p))
                logType logBuf (logSizeWithPadding - HeaderSize) (rr_nextEntry r)
                (rr_lastValidLogOffset r) with
        | (c, Err e) => (with_result p (SetEntries r c), Some e)
        | (c, Ok next) => (with_result p (SetNextIndex (SetEntries r c) next), None)
        end
      else (p, Some ErrNotFoundNextEntry)
    else (p, None)
  else if decide (logType = LogTypeMetadata) then (with_result p (SetMetadata r logBuf), None)
  else if decide (logType = LogTypeHardState) then
    match unmarshal logBuf with
    | None => (p, Some err_unmarshal)
    | Some hs => (with_result p (SetReplayedHardState r hs), None)
    end
  else if decide (logType = LogTypeSnapshot) then
    match unmarshal logBuf with
    | None => (p, Some err_unmarshal)
    | Some s => (with_result p (AppendWalSnapshots r s), None)
    end
  else (p, Some ErrNotSupportMessage).

Definition logHandler : Handler (Parser C) := fun p logType logBuf logSizeWithPadding logCrc =>
  if decide (logType = LogTypeCrc) then
    if decide (length logBuf < 4)%nat then Panic "index out of range"
    else
      let r := SetLastValidLogCrc (p_result p) (get_u32 (take 4 logBuf)) in
      if decide (rr_lastValidLogCrc r ≠ logCrc) then
        Ret (with_result p r, Some ErrCRCMismatchForCrcMessage)
      else Ret (with_result p (IncreaseLastValidLogFileOffset r logSizeWithPadding), None)
  else
    let r := SetLastValidLogCrc (p_result p) (crc32c (rr_lastValidLogCrc (p_result p)) logBuf) in
    if decide (rr_lastValidLogCrc r ≠ logCrc) then
      Ret (with_result p r, Some ErrCRCMismatchForOthersMessage)
    else
      match log_switch (with_result p r) logType logBuf logSizeWithPadding with
      | (p, Some e) => Ret (p, Some e)
      | (p, None) => Ret (with_result p (IncreaseLastValidLogFileOffset (p_result p) logSizeWithPadding), None)
      end.

(** The loop of [Parse]; every round but the last reads a header at least. *)
Fixpoint parse_loop (fuel : nat) p (input : list byte) : go (Parser C * error) :=
  match fuel with
  | O => Ret (p, err_unreachable)
  | S fuel =>
      '(p, rest, err) ← Decode logHandler p input;
      match err with
      | Some e => Ret (p, e)
      | None => parse_loop fuel p rest
      end
  end.

(** [Parse] on the bytes behind the file header. *)
Definition Parse p (desc : LogFileDesc) (input : list byte) : go (Parser C * error) :=
  let r := SetLastLogFileDesc (p_result p) desc in
  let r := SetLastValidLogFileOffset r (Z.of_nat LogFileHeaderLength) in
  parse_loop (S (length input)) (with_found (with_result p r) false) input.

(** ** The player *)

Definition err_no_such_file : error := Sentinel "os.ErrNotExist".
Definition err_magic : error := Errorf "wal: corrupted file.(magic header mismatch)".
Definition err_version : error := Errorf "wal: corrupted file.(unrecognized file version is %d)".
Definition ErrNotMaximumRepairedFileId : error := Sentinel "ErrNotMaximumRepairedFileId".

(** [OpenLogFileHandle]: the bytes behind the header of a file. *)
Definition OpenLogFileHandle (d : Dir) (name : string) : result (list byte) :=
  match d !! name with
  | None => Err err_no_such_file
  | Some content =>
      if decide (content = []) then Err io_EOF
      else
        let buf := go_copy (replicate LogFileHeaderLength Byte.x00) 0 (take LogFileHeaderLength content) in
        if decide (take (length logFileMagicHeader) buf ≠ logFileMagicHeader) then Err err_magic
        else if decide (get_u64 (drop (length logFileMagicHeader) buf) ≠ logFileVersion) then Err err_version
        else Ok (drop LogFileHeaderLength content)
  end.

(** [replay]: the files one after the other; the result, the last file tried and the
    error. *)
Fixpoint replay_files (d : Dir) p (files : list LogFileDesc) (last : LogFileDesc)
    : go (Parser C * LogFileDesc * option error) :=
  match files with
  | [] => Ret (p, last, None)
  | desc :: files =>
      match OpenLogFileHandle d (GetLogFileName desc) with
      | Err e => Ret (p, desc, Some e)
      | Ok input =>
          '(p, err) ← Parse p desc input;
          if decide (err = io_EOF) then replay_files d p files desc else Ret (p, desc, Some err)
      end
  end.

(** [RepairLogFile]: keep a copy, cut the file. *)
Definition RepairLogFile (d : Dir) (name : string) (lastValidOffset : Z) : Dir * option error :=
  match OpenLogFileHandle d name with
  | Err e => (d, Some e)
  | Ok _ =>
      let content := default [] (d !! name) in
      let d := <[String.app name ".broken" := content]> d in
      let n := Z.to_nat lastValidOffset in
      (<[name := take n content ++ replicate (n - length content) Byte.x00]> d, None)
  end.

Record Player := { pl_logFiles : list LogFileDesc; pl_startSnapshot : WalSnapshot }.

(** [player.Create], given the directory listing. *)
Definition Create (files : list (string * bool)) (startSnapshot : WalSnapshot) : result Player :=
  match ReadValidLogFiles files (ws_index startSnapshot) with
  | Err e => Err e
  | Ok logFiles => Ok {| pl_logFiles := logFiles; pl_startSnapshot := startSnapshot |}
  end.

Definition replay (d : Dir) (pl : Player) r : go (ReplayResult C * LogFileDesc * option error) :=
  '(p, desc, err) ← replay_files d (NewParser r (pl_startSnapshot pl)) (pl_logFiles pl) emptyDesc;
  Ret (p_result p, desc, err).

(** [Replay]: with [repair], a torn or corrupted tail of the last file is cut off
    and the replay is done once more. *)
Definition Replay (d : Dir) (pl : Player) r (repair : bool) : go (Dir * ReplayResult C * option error) :=
  '(r, desc, err) ← replay d pl r;
  match err with
  | None => Ret (d, r, None)
  | Some e =>
      if decide (repair = true ∧ (e = io_ErrUnexpectedEOF ∨ e = ErrCRCMismatchForOthersMessage)) then
        match last (pl_logFiles pl) with
        | None => Panic "index out of range"
        | Some lastDesc =>
            if decide (fd_Id desc ≠ fd_Id lastDesc) then Ret (d, r, Some ErrNotMaximumRepairedFileId)
            else
              match RepairLogFile d (GetLogFileName lastDesc) (rr_lastValidLogOffset r) with
              | (d, Some e) => Ret (d, r, Some e)
              | (d, None) =>
                  '(r, _, err) ← replay d pl (Reset r);
                  Ret (d, r, err)
              end
        end
      else Ret (d, r, Some e)
  end.
End Parsing.

(** ** The records of a log file *)

Inductive Rec :=
| RCrc (crc : Z)
| RMeta (metadata : list byte)
| RHard (hs : HardState)
| RSnap (s : WalSnapshot)
| RNext (ne : WalNextEntry)
| REntry (entryType : Z) (data : list byte).

Section Records.
Context `{BufferPool} `{Message HardState} `{Message WalNextEntry} `{Message WalSnapshot}.

Definition rec_type (x : Rec) : Z :=
  match x with
  | RCrc _ => LogTypeCrc
  | RMeta _ => LogTypeMetadata
  | RHard _ => LogTypeHardState
  | RSnap _ => LogTypeSnapshot
  | RNext _ => LogTypeNextEntry
  | REntry t _ => t
  end.

Definition rec_body (x : Rec) : list byte :=
  match x with
  | RCrc c => put_u32 c
  | RMeta b => b
  | RHard hs => marshal hs
  | RSnap s => marshal s
  | RNext ne => marshal ne
  | REntry _ d => d
  end.

(** The running checksum after a record. *)
Definition rec_crc (crc : Z) (x : Rec) : Z :=
  match x with
  | RCrc c => u32 c
  | _ => crc32c crc (rec_body x)
  end.

Definition rec_frame (crc : Z) (x : Rec) : list byte := log_frame (rec_type x) (rec_body x) (rec_crc crc x).

(** The bytes of a sequence of records, and the checksum at its end. *)
Fixpoint render (crc : Z) (l : list Rec) : list byte :=
  match l with
  | [] => []
  | x :: l => rec_frame crc x ++ render (rec_crc crc x) l
  end.
Definition crc_after (crc : Z) (l : list Rec) : Z := foldl rec_crc crc l.

(** A record the encoder accepts and the decoder can tell from unwritten space; the
    pool has buffers for it. *)
Record rec_ok (crc : Z) (x : Rec) : Prop := {
  rok_size : Z.of_nat (length (rec_body x)) <= maxLogSize;
  rok_type : match x with REntry t _ => t = 0 ∨ t = 1 ∨ t = 2 | RCrc c => is_u32 c | _ => True end;
  rok_seen : rec_body x = [] → rec_crc crc x ≠ 0;
  rok_buf : ∃ buf, acquire_buf (frame_size (rec_body x) - HeaderSize) = Ret buf ∨ rec_body x = [];
  rok_room : ∃ buf, acquire_buf (frame_size (rec_body x)) = Ret buf
}.
Fixpoint recs_ok (crc : Z) (l : list Rec) : Prop :=
  match l with
  | [] => True
  | x :: l => rec_ok crc x ∧ recs_ok (rec_crc crc x) l
  end.

Lemma render_app crc l1 l2 : render crc (l1 ++ l2) = render crc l1 ++ render (crc_after crc l1) l2.
Proof.
  revert crc. induction l1 as [|x l1 IH]; intros crc; simpl; [done|]. by rewrite IH, (assoc_L (++)).
Qed.
Lemma crc_after_app crc l1 l2 : crc_after crc (l1 ++ l2) = crc_after (crc_after crc l1) l2.
Proof. apply foldl_app. Qed.
Lemma recs_ok_app crc l1 l2 :
  recs_ok crc (l1 ++ l2) ↔ recs_ok crc l1 ∧ recs_ok (crc_after crc l1) l2.
Proof. revert crc. induction l1 as [|x l1 IH]; intros crc; simpl; [tauto|]. rewrite IH. tauto. Qed.

Lemma rec_type_range crc x : rec_ok crc x → 0 <= rec_type x < 32.
Proof.
  intros Hx. pose proof (rok_type _ _ Hx). destruct x; simpl in *;
    unfold LogTypeCrc, LogTypeMetadata, LogTypeHardState, LogTypeSnapshot, LogTypeNextEntry; lia.
Qed.
Lemma rec_crc_range crc x : is_u32 crc → is_u32 (rec_crc crc x).
Proof. intros Hc. destruct x; simpl; try by apply crc32c_range. apply u32_range. Qed.
Lemma crc_after_range crc l : is_u32 crc → is_u32 (crc_after crc l).
Proof.
  revert crc. induction l as [|x l IH]; intros crc Hc; [done|]. apply IH. by apply rec_crc_range.
Qed.

(** ** Dropping uncommitted entries *)

Section Uncommitted.
Context {A : Type} (index : A → Z).

Lemma delete_from_indexed lo (es : list A) commit i :
  indexed index lo es →
  delete_from (index <$> es) commit i =
    if decide (commit < lo + Z.of_nat (length es) - 1 ∧ es ≠ [])
    then (i + Z.to_nat (commit - lo + 1))%nat else 0%nat.
Proof.
  revert lo i. induction es as [|e es IH]; intros lo i Hix; csimpl.
  { by rewrite decide_False by (by intros []). }
  apply indexed_cons in Hix as [He Hix]. rewrite He. destruct (decide (commit < lo)).
  - rewrite decide_True by (split; [lia|done]). lia.
  - rewrite (IH _ _ Hix). destruct es as [|e' es]; simpl length.
    + rewrite !decide_False by (intros []; done || lia). done.
    + destruct (decide (commit < lo + 1 + Z.of_nat (S (length es)) - 1 ∧ e' :: es ≠ [])) as [[? _]|Hn].
      * rewrite decide_True by (split; [lia|done]). lia.
      * rewrite decide_False; [done|]. intros [? _]. apply Hn. split; [lia|done].
Qed.

(** Deleting the uncommitted entries of a replay keeps exactly the entries up to the
    commit index when there is at least one of them; when even the first entry is
    uncommitted it keeps them all. *)
Lemma DeleteUncommittedEntry_spec lo (es : list A) commit :
  indexed index lo es →
  DeleteUncommittedEntry index es commit =
    if decide (lo <= commit) then take (Z.to_nat (commit - lo + 1)) es else es.
Proof.
  intros Hix. unfold DeleteUncommittedEntry. rewrite (delete_from_indexed lo) by done.
  rewrite Nat.add_0_l. destruct (decide (lo <= commit)).
  - destruct (decide (commit < lo + Z.of_nat (length es) - 1 ∧ es ≠ [])) as [[??]|Hn].
    + by rewrite decide_True by lia.
    + rewrite decide_False by lia. rewrite take_ge; [done|].
      destruct es as [|e es]; [simpl; lia|]. simpl length in *.
      destruct (decide (commit < lo + Z.of_nat (S (length es)) - 1)); [|lia].
      by destruct Hn.
  - rewrite decide_False; [done|]. case_decide; lia.
Qed.
End Uncommitted.

Section Handled.
Context {C : Type} `{EntryCollection C}.
Implicit Types (p : Parser C).

Definition p_crc p : Z := rr_lastValidLogCrc (p_result p).
Definition bump p (n : Z) : Parser C := with_result p (IncreaseLastValidLogFileOffset (p_result p) n).
Definition set_crc p (c : Z) : Parser C := with_result p (SetLastValidLogCrc (p_result p) c).

(** What a record that passes its checksum does to the parser. *)
Definition rec_step p (x : Rec) : Parser C * option error :=
  let p := set_crc p (rec_crc (p_crc p) x) in
  match (match x with
         | RCrc _ => (p, None)
         | _ => log_switch p (rec_type x) (rec_body x) (frame_size (rec_body x))
         end) with
  | (p, Some e) => (p, Some e)
  | (p, None) => (bump p (frame_size (rec_body x)), None)
  end.

Fixpoint rec_run p (l : list Rec) : Parser C * option error :=
  match l with
  | [] => (p, None)
  | x :: l => match rec_step p x with (p, Some e) => (p, Some e) | (p, None) => rec_run p l end
  end.

Lemma logHandler_rec p x : rec_ok (p_crc p) x →
  logHandler p (rec_type x) (rec_body x) (frame_size (rec_body x)) (rec_crc (p_crc p) x)
  = Ret (rec_step p x).
Proof.
  intros Hx. pose proof (rok_type _ _ Hx) as Ht. unfold logHandler, rec_step.
  destruct x as [c| | | | |t d]; simpl in Ht.
  - cbn [rec_type rec_body rec_crc]. rewrite decide_True by done.
    rewrite decide_False by (rewrite length_put_u32; lia).
    rewrite take_ge by (rewrite length_put_u32; lia). rewrite get_put_u32 by done.
    rewrite (u32_small c) by done. rewrite decide_False; [done|]. intros []. done.
  - rewrite decide_False by done. rewrite decide_False; [|by intros []]. by destruct (log_switch _ _ _ _) as [? []].
  - rewrite decide_False by done. rewrite decide_False; [|by intros []]. by destruct (log_switch _ _ _ _) as [? []].
  - rewrite decide_False by done. rewrite decide_False; [|by intros []]. by destruct (log_switch _ _ _ _) as [? []].
  - rewrite decide_False by done. rewrite decide_False; [|by intros []]. by destruct (log_switch _ _ _ _) as [? []].
  - rewrite decide_False by (unfold LogTypeCrc; simpl; lia). rewrite decide_False; [|by intros []].
    by destruct (log_switch _ _ _ _) as [? []].
Qed.

Lemma log_switch_crc p t b n : p_crc (fst (log_switch p t b n)) = p_crc p.
Proof.
  unfold log_switch, p_crc. repeat case_match; done.
Qed.

Lemma rec_step_crc p x p' : rec_step p x = (p', None) → p_crc p' = rec_crc (p_crc p) x.
Proof.
  unfold rec_step. set (q := set_crc p (rec_crc (p_crc p) x)).
  assert (∀ y, y = log_switch q (rec_type x) (rec_body x) (frame_size (rec_body x)) →
    match y with (p, Some e) => (p, Some e) | (p, None) => (bump p (frame_size (rec_body x)), None) end
      = (p', None) → p_crc p' = rec_crc (p_crc p) x) as Hsw.
  { intros [p1 [e|]] Hy Heq; simplify_eq. pose proof (log_switch_crc q (rec_type x) (rec_body x)
      (frame_size (rec_body x))) as Hc. rewrite <- Hy in Hc. exact Hc. }
  destruct x; [intros ?; by simplify_eq|by apply Hsw..].
Qed.

Lemma parse_rec fuel p x p' rest :
  rec_ok (p_crc p) x → is_u32 (p_crc p) → rec_step p x = (p', None) →
  parse_loop (S fuel) p (rec_frame (p_crc p) x ++ rest) = parse_loop fuel p' rest.
Proof.
  intros Hx Hc Hs. cbn [parse_loop]. unfold rec_frame. destruct (rok_buf _ _ Hx) as [buf Hbuf].
  rewrite (Decode_log_frame _ _ _ _ _ _ buf);
    [|apply Hx|by apply rec_type_range with (p_crc p)|by apply rec_crc_range|apply Hx|done].
  rewrite logHandler_rec, Hs by done. done.
Qed.

Lemma parse_recs l fuel p p' rest :
  recs_ok (p_crc p) l → is_u32 (p_crc p) → rec_run p l = (p', None) →
  parse_loop (length l + fuel) p (render (p_crc p) l ++ rest) = parse_loop fuel p' rest ∧
  p_crc p' = crc_after (p_crc p) l.
Proof.
  revert p. induction l as [|x l IH]; intros p Hok Hc Hrun; simpl in Hrun, Hok.
  { by simplify_eq. }
  destruct Hok as [Hx Hl]. destruct (rec_step p x) as [p1 [e|]] eqn:Hs; [done|].
  pose proof (rec_step_crc _ _ _ Hs) as Hc1.
  cbn [length Nat.add render]. rewrite <- (assoc_L (++)), (parse_rec _ _ _ p1) by done.
  rewrite <- Hc1 in Hl |- *. destruct (IH p1) as [-> Hc']; [done|rewrite Hc1; by apply rec_crc_range|done|].
  split; [done|]. rewrite Hc'. simpl. by rewrite Hc1.
Qed.

(** The parser as [Parse] starts it on a file. *)
Definition opened p (desc : LogFileDesc) : Parser C :=
  with_found (with_result p
    (SetLastValidLogFileOffset (SetLastLogFileDesc (p_result p) desc) (Z.of_nat LogFileHeaderLength))) false.

Lemma Decode_consumes {S} (handler : Handler S) st input st' rest :
  Decode handler st input = Ret (st', rest, None) → (length rest < length input)%nat.
Proof.
  unfold Decode. destruct (read_full (Z.to_nat HeaderSize) input) as [[hd|e] r1] eqn:E1; [|done].
  apply read_full_Ok in E1 as [-> Hl1]. unfold HeaderSize in Hl1. rewrite length_app.
  case_decide; [done|]. case_decide.
  { destruct (handler _ _ _ _ _) as [[st1 err]|]; intros ?; simplify_eq/=. lia. }
  destruct (acquire_buf _); [|done]. cbn [mbind go_bind].
  destruct (read_full _ r1) as [[b|e] r2] eqn:E2; [|done].
  apply read_full_Ok in E2 as [-> Hl2]. rewrite length_app.
  destruct (handler _ _ _ _ _) as [[st1 err]|]; intros ?; simplify_eq/=. lia.
Qed.

(** Parsing terminates on every input, well-formed or not: the number of rounds the
    model allows is never reached, so allowing more changes nothing, and the loop
    always ends with an error of the decoder or the handler. *)
Theorem Parse_terminates p desc input fuel :
  (length input <= fuel)%nat →
  Parse p desc input = parse_loop (S fuel) (opened p desc) input.
Proof.
  unfold Parse. fold (opened p desc). generalize (opened p desc). intros q Hf.
  assert (∀ n m q input, (length input < n)%nat → (length input < m)%nat →
    parse_loop n q input = parse_loop m q input) as Hgen; [|apply Hgen; lia].
  clear. induction n as [|n IH]; intros [|m] q input Hn Hm; try lia. cbn [parse_loop].
  destruct (Decode logHandler q input) as [[[q' rest] [e|]]|] eqn:E; cbn [mbind go_bind]; [done| |done].
  apply Decode_consumes in E. apply IH; lia.
Qed.

Lemma render_length crc l : (length l <= length (render crc l))%nat.
Proof.
  revert crc. induction l as [|x l IH]; intros crc; simpl; [done|]. rewrite length_app.
  pose proof (length_log_frame (rec_type x) (rec_body x) (rec_crc crc x)) as Hf.
  unfold frame_size, HeaderSize in Hf.
  pose proof (calcPadding_range (Z.of_nat (length (rec_body x)))).
  specialize (IH (rec_crc crc x)). unfold rec_frame. lia.
Qed.

(** What follows the records when the log ends there: nothing, or unwritten space. *)
Lemma parse_unwritten fuel p n :
  parse_loop (S fuel) p (replicate n Byte.x00) =
    Ret (p, if decide (n = 0 ∨ 8 <= n)%nat then io_EOF else io_ErrUnexpectedEOF).
Proof.
  cbn [parse_loop]. destruct (decide (n = 0 ∨ 8 <= n)%nat) as [[->|Hn]|Hn].
  - by rewrite Decode_eof.
  - by destruct (Decode_preallocated logHandler p n Hn) as [rest ->].
  - unfold Decode, HeaderSize. rewrite read_full_short; [done| |rewrite length_replicate; lia].
    destruct n; [lia|done].
Qed.

Lemma log_switch_offset p t b n :
  rr_lastValidLogOffset (p_result (fst (log_switch p t b n))) = rr_lastValidLogOffset (p_result p).
Proof. unfold log_switch. repeat case_match; done. Qed.

Lemma rec_step_offset p x p' : rec_step p x = (p', None) →
  rr_lastValidLogOffset (p_result p') = i64 (rr_lastValidLogOffset (p_result p) + frame_size (rec_body x)).
Proof.
  unfold rec_step. set (q := set_crc p (rec_crc (p_crc p) x)).
  pose proof (log_switch_offset q (rec_type x) (rec_body x) (frame_size (rec_body x))) as Ho.
  destruct x; [intros ?; by simplify_eq/=|..];
    destruct (log_switch _ _ _ _) as [p1 [e|]]; intros ?; simplify_eq/=; by rewrite Ho.
Qed.

(** The offset of a replayed log is its length. *)
Lemma rec_run_offset l p p' : rec_run p l = (p', None) →
  0 <= rr_lastValidLogOffset (p_result p) →
  rr_lastValidLogOffset (p_result p) + Z.of_nat (length (render (p_crc p) l)) < 2 ^ 63 →
  rr_lastValidLogOffset (p_result p') =
    rr_lastValidLogOffset (p_result p) + Z.of_nat (length (render (p_crc p) l)).
Proof.
  revert p. induction l as [|x l IH]; intros p Hrun Hpos Hfit; simpl in Hrun.
  { simplify_eq/=. lia. }
  destruct (rec_step p x) as [p1 [e|]] eqn:Hs; [done|].
  pose proof (rec_step_crc _ _ _ Hs) as Hc. pose proof (rec_step_offset _ _ _ Hs) as Ho.
  cbn [render] in Hfit |- *. rewrite length_app, Nat2Z.inj_add in Hfit |- *.
  unfold rec_frame in *. rewrite length_log_frame in Hfit |- *.
  pose proof (calcPadding_range (Z.of_nat (length (rec_body x)))) as Hp.
  assert (0 <= frame_size (rec_body x)) by (unfold frame_size, HeaderSize; lia).
  rewrite i64_small in Ho by lia. rewrite <- Hc in Hfit |- *.
  rewrite (IH p1) by (done || lia). lia.
Qed.

Lemma Parse_prefix p desc l p' rest :
  recs_ok (p_crc p) l → is_u32 (p_crc p) → rec_run (opened p desc) l = (p', None) →
  ∃ fuel, Parse p desc (render (p_crc p) l ++ rest) = parse_loop (S fuel) p' rest.
Proof.
  intros Hok Hc Hrun. pose proof (render_length (p_crc p) l).
  exists (length (render (p_crc p) l ++ rest) - length l)%nat. unfold Parse. fold (opened p desc).
  rewrite length_app in *.
  replace (S (length (render (p_crc p) l) + length rest))
    with (length l + S (length (render (p_crc p) l) + length rest - length l))%nat by lia.
  change (p_crc p) with (p_crc (opened p desc)). by apply parse_recs.
Qed.

(** Replaying a log file applies its records in order and nothing else: the state
    of the parser is the one the records denote, and the replay ends with [io.EOF]
    where the file ends or its unwritten space begins (with [io.ErrUnexpectedEOF]
    when less than a header of unwritten space is left). *)
Theorem Parse_records p desc l p' n :
  recs_ok (p_crc p) l → is_u32 (p_crc p) → rec_run (opened p desc) l = (p', None) →
  Parse p desc (render (p_crc p) l ++ replicate n Byte.x00)
  = Ret (p', if decide (n = 0 ∨ 8 <= n)%nat then io_EOF else io_ErrUnexpectedEOF).
Proof.
  intros Hok Hc Hrun. destruct (Parse_prefix p desc l p' (replicate n Byte.x00) Hok Hc Hrun) as [fuel ->].
  apply parse_unwritten.
Qed.

Lemma Parse_torn p desc l p' x k :
  recs_ok (p_crc p) (l ++ [x]) → is_u32 (p_crc p) → rec_run (opened p desc) l = (p', None) →
  (0 < k < length (rec_frame (crc_after (p_crc p) l) x))%nat →
  Parse p desc (render (p_crc p) l ++ take k (rec_frame (crc_after (p_crc p) l) x))
  = Ret (p', io_ErrUnexpectedEOF).
Proof.
  intros [Hok [Hx _]]%recs_ok_app Hc Hrun Hk.
  destruct (Parse_prefix p desc l p' (take k (rec_frame (crc_after (p_crc p) l) x)) Hok Hc Hrun) as [fuel ->].
  cbn [parse_loop]. destruct (rok_buf _ _ Hx) as [buf Hbuf].
  pose proof (crc_after_range (p_crc p) l Hc).
  unfold rec_frame. rewrite (Decode_torn_frame _ _ _ _ _ _ buf); [done|apply Hx| | |done|done].
  - by eapply rec_type_range.
  - by apply rec_crc_range.
Qed.

(** ** A directory of log files *)

Definition file_header : list byte := logFileMagicHeader ++ put_u64 logFileVersion.

(** A log file starts with a checksum record, so what was read before does not matter. *)
Definition starts_crc (l : list Rec) : Prop := match l with RCrc _ :: _ => True | _ => False end.

Lemma render_starts c l : starts_crc l → render c l = render 0 l.
Proof. by destruct l as [|[] l]. Qed.
Lemma recs_ok_starts c l : starts_crc l → recs_ok 0 l → recs_ok c l.
Proof. destruct l as [|[] l]; try done. intros _ [[] ?]. split; [by split|done]. Qed.
Lemma crc_after_starts c l : starts_crc l → crc_after c l = crc_after 0 l.
Proof. by destruct l as [|[] l]. Qed.

Lemma file_header_length : length file_header = LogFileHeaderLength.
Proof. unfold file_header, LogFileHeaderLength. by rewrite length_app, length_put_u64. Qed.

Lemma OpenLogFileHandle_image d name rest :
  d !! name = Some (file_header ++ rest) → OpenLogFileHandle d name = Ok rest.
Proof.
  intros Hd. unfold OpenLogFileHandle. rewrite Hd.
  rewrite decide_False by by destruct logFileMagicHeader.
  rewrite take_app_length' by apply file_header_length.
  rewrite go_copy_all by (rewrite length_replicate; by rewrite file_header_length).
  rewrite drop_app_length' by apply file_header_length. unfold file_header.
  rewrite take_app_length, drop_app_length, decide_False by (intros []; done).
  rewrite get_put_u64 by (unfold logFileVersion; lia). by rewrite decide_False by (intros []; done).
Qed.

(** The files of a log and their records. *)
Definition Logs := list (LogFileDesc * list Rec).

Definition holds (d : Dir) (logs : Logs) : Prop :=
  Forall (λ f, starts_crc f.2 ∧ recs_ok 0 f.2 ∧
    ∃ n, (n = 0 ∨ 8 <= n)%nat ∧
      d !! GetLogFileName f.1 = Some (file_header ++ render 0 f.2 ++ replicate n Byte.x00)) logs.

(** What the records of all files denote. *)
Fixpoint logs_run p (logs : Logs) : Parser C * option error :=
  match logs with
  | [] => (p, None)
  | (desc, l) :: logs =>
      match rec_run (opened p desc) l with
      | (p, None) => logs_run p logs
      | (p, Some e) => (p, Some e)
      end
  end.

Lemma rec_run_crc l p p' : rec_run p l = (p', None) → p_crc p' = crc_after (p_crc p) l.
Proof.
  revert p. induction l as [|x l IH]; intros p Hrun; simpl in Hrun; [by simplify_eq|].
  destruct (rec_step p x) as [p1 [e|]] eqn:Hs; [done|]. rewrite (IH _ Hrun).
  by rewrite (rec_step_crc _ _ _ Hs).
Qed.

Lemma logs_run_crc logs p p' : is_u32 (p_crc p) → logs_run p logs = (p', None) → is_u32 (p_crc p').
Proof.
  revert p. induction logs as [|[desc l] logs IH]; intros p Hc Hrun; simpl in Hrun; [by simplify_eq|].
  destruct (rec_run (opened p desc) l) as [p1 [e|]] eqn:Hs; [done|]. apply (IH p1); [|done].
  rewrite (rec_run_crc _ _ _ Hs). by apply crc_after_range.
Qed.

Lemma logs_run_app logs1 logs2 p p1 :
  logs_run p logs1 = (p1, None) → logs_run p (logs1 ++ logs2) = logs_run p1 logs2.
Proof.
  revert p. induction logs1 as [|[desc l] logs1 IH]; intros p Hrun; simpl in *; [by simplify_eq|].
  destruct (rec_run (opened p desc) l) as [p2 [e|]]; [done|by apply IH].
Qed.

(** Reading files that hold records applies these records, file by file. *)
Lemma replay_files_logs d logs more p p' last :
  holds d logs → is_u32 (p_crc p) → logs_run p logs = (p', None) →
  ∃ last', replay_files d p (logs.*1 ++ more) last = replay_files d p' more last'.
Proof.
  revert p last. induction logs as [|[desc l] logs IH]; intros p last Hh Hc Hrun; simpl in Hrun.
  { simplify_eq. by exists last. }
  apply Forall_cons in Hh as [(Hst & Hok & n & Hn & Hd) Hh]. simpl in Hst, Hok, Hd.
  destruct (rec_run (opened p desc) l) as [p1 [e|]] eqn:Hs; [done|].
  cbn [fmap list_fmap app replay_files fst]. rewrite (OpenLogFileHandle_image _ _ _ Hd).
  destruct (Parse_prefix p desc l p1 (replicate n Byte.x00)) as [fuel Hp];
    [by apply recs_ok_starts|done|done|].
  rewrite (render_starts _ _ Hst) in Hp. rewrite Hp, parse_unwritten.
  rewrite (decide_True (P := (n = 0 ∨ 8 <= n)%nat)) by done. cbn [mbind go_bind].
  rewrite decide_True by done.
  apply IH; [done| |done]. rewrite (rec_run_crc _ _ _ Hs). by apply crc_after_range.
Qed.

Lemma logs_run_split logs1 logs2 p p' :
  logs_run p (logs1 ++ logs2) = (p', None) →
  ∃ p1, logs_run p logs1 = (p1, None) ∧ logs_run p1 logs2 = (p', None).
Proof.
  revert p. induction logs1 as [|[desc l] logs1 IH]; intros p Hrun; simpl in *; [by exists p|].
  destruct (rec_run (opened p desc) l) as [p2 [e|]]; [done|by apply IH].
Qed.

(** The parser at the start of a replay. *)
Definition fresh (startSnapshot : WalSnapshot) : Parser C := NewParser (NewReplayResult ec_clear) startSnapshot.

Lemma fresh_crc ss : is_u32 (p_crc (fresh ss)).
Proof. by unfold p_crc. Qed.

Lemma Replay_clean d pl logs p' repair :
  pl_logFiles pl = logs.*1 → holds d logs → logs_run (fresh (pl_startSnapshot pl)) logs = (p', None) →
  Replay d pl (NewReplayResult ec_clear) repair = Ret (d, p_result p', None).
Proof.
  intros Hf Hh Hrun. unfold Replay, replay. fold (fresh (pl_startSnapshot pl)).
  destruct (replay_files_logs d logs [] _ _ emptyDesc Hh (fresh_crc _) Hrun) as [last' Hr].
  by rewrite app_nil_r, <- Hf in Hr; rewrite Hr.
Qed.

Definition desc_ok (desc : LogFileDesc) : Prop := is_u64 (fd_Id desc) ∧ is_u64 (fd_StartLogIndex desc).

Lemma holds_insert d logs name c :
  (∀ f, f ∈ logs → GetLogFileName f.1 ≠ name) → holds d logs → holds (<[name := c]> d) logs.
Proof.
  intros Hne Hh. apply Forall_forall. intros f Hf. unfold holds in Hh. rewrite Forall_forall in Hh.
  destruct (Hh f Hf) as (? & ? & n & Hn & Hd). split_and!; [done..|]. exists n.
  rewrite lookup_insert_ne; [done|]. intros Heq. by apply (Hne f Hf).
Qed.

Lemma broken_name_ne desc desc' : GetLogFileName desc ≠ String.app (GetLogFileName desc') ".broken".
Proof.
  assert (∀ s t, String.length (String.app s t) = (String.length s + String.length t)%nat) as Hlen.
  { intros s t. induction s as [|c s IH]; [done|]. simpl. by rewrite IH. }
  intros Heq. apply (f_equal String.length) in Heq.
  rewrite Hlen, !length_GetLogFileName in Heq. simpl in Heq. lia.
Qed.

(** What a crash leaves behind the last good record, and the error a replay meets there:
    part of a record, less unwritten space than a header, or a record whose body does not
    match its checksum. *)
Definition bad_tail (crc : Z) (tail : list byte) (e : error) : Prop :=
  e = io_ErrUnexpectedEOF ∧
    ((∃ x k, rec_ok crc x ∧ (0 < k < length (rec_frame crc x))%nat ∧ tail = take k (rec_frame crc x)) ∨
     (∃ n, (0 < n < 8)%nat ∧ tail = replicate n Byte.x00)) ∨
  e = ErrCRCMismatchForOthersMessage ∧
    ∃ t body c rest, tail = log_frame t body c ++ rest ∧ 0 <= t < 32 ∧ t ≠ LogTypeCrc ∧
      Z.of_nat (length body) <= maxLogSize ∧ is_u32 c ∧ c ≠ crc32c crc body ∧ (body = [] → c ≠ 0) ∧
      ∃ buf, acquire_buf (frame_size body - HeaderSize) = Ret buf ∨ body = [].

Lemma Parse_bad_tail p desc l p' tail e :
  recs_ok (p_crc p) l → is_u32 (p_crc p) → rec_run (opened p desc) l = (p', None) →
  bad_tail (crc_after (p_crc p) l) tail e →
  ∃ p2, Parse p desc (render (p_crc p) l ++ tail) = Ret (p2, e) ∧
    rr_lastValidLogOffset (p_result p2) = rr_lastValidLogOffset (p_result p').
Proof.
  intros Hok Hc Hrun [[-> [(x & k & Hx & Hk & ->)|(n & Hn & ->)]]|(-> & t & body & c & rest & -> & Ht & Htc & Hsz & Hcu & Hne & Hseen & buf & Hbuf)].
  - exists p'. split; [|done]. by apply Parse_torn; [apply recs_ok_app|..].
  - exists p'. destruct (Parse_prefix p desc l p' (replicate n Byte.x00) Hok Hc Hrun) as [fuel ->].
    rewrite parse_unwritten, decide_False by lia. done.
  - destruct (Parse_prefix p desc l p' (log_frame t body c ++ rest) Hok Hc Hrun) as [fuel ->].
    pose proof (rec_run_crc _ _ _ Hrun) as Hp'. change (p_crc (opened p desc)) with (p_crc p) in Hp'.
    rewrite <- Hp' in Hne. cbn [parse_loop]. rewrite (Decode_log_frame _ _ _ _ _ _ buf) by done.
    unfold logHandler. rewrite decide_False by done. fold (p_crc p'). rewrite decide_True by (simpl; congruence).
    eexists. split; [done|]. done.
Qed.

(** A directory whose last file ends so. *)
Record torn (d : Dir) (logs : Logs) (desc : LogFileDesc) (l : list Rec) (tail : list byte) (e : error) : Prop := {
  torn_others : holds d logs;
  torn_desc : desc_ok desc;
  torn_ids : Forall (λ f, desc_ok f.1 ∧ fd_Id f.1 ≠ fd_Id desc) logs;
  torn_starts : starts_crc l;
  torn_ok : recs_ok 0 l;
  torn_fits : Z.of_nat (LogFileHeaderLength + length (render 0 l)) < 2 ^ 63;
  torn_cut : bad_tail (crc_after 0 l) tail e;
  torn_image : d !! GetLogFileName desc = Some (file_header ++ render 0 l ++ tail)
}.

Lemma replay_torn d pl logs desc l tail e p' :
  torn d logs desc l tail e → pl_logFiles pl = (logs ++ [(desc, l)]).*1 →
  logs_run (fresh (pl_startSnapshot pl)) (logs ++ [(desc, l)]) = (p', None) →
  ∃ r, replay d pl (NewReplayResult ec_clear) = Ret (r, desc, Some e) ∧
    rr_lastValidLogOffset r = Z.of_nat (LogFileHeaderLength + length (render 0 l)).
Proof.
  intros [Hh Hdesc Hids Hst Hok Hfit Hk Hd] Hf Hrun.
  destruct (logs_run_split _ _ _ _ Hrun) as (p1 & Hrun1 & Hrun2). simpl in Hrun2.
  destruct (rec_run (opened p1 desc) l) as [p2 [e1|]] eqn:Hl; [done|]. simplify_eq.
  pose proof (logs_run_crc _ _ _ (fresh_crc _) Hrun1) as Hc1.
  destruct (Parse_bad_tail p1 desc l p' tail e) as (p2 & Hp & Hoff);
    [by apply recs_ok_starts|done|done|by rewrite crc_after_starts|].
  exists (p_result p2). split.
  - unfold replay. fold (fresh (pl_startSnapshot pl)).
    destruct (replay_files_logs d logs [desc] _ _ emptyDesc Hh (fresh_crc _) Hrun1) as [last' Hr].
    rewrite Hf, fmap_app. cbn [fmap list_fmap fst]. rewrite Hr. cbn [replay_files].
    rewrite (OpenLogFileHandle_image _ _ _ Hd).
    rewrite <- (render_starts (p_crc p1)) by done. rewrite Hp. cbn [mbind go_bind].
    rewrite decide_False; [done|]. by destruct Hk as [[-> _]|[-> _]].
  - rewrite Hoff. assert (rr_lastValidLogOffset (p_result (opened p1 desc)) = Z.of_nat LogFileHeaderLength) as Ho by done.
    rewrite (rec_run_offset _ _ _ Hl); rewrite Ho, ?(render_starts _ _ Hst); lia.
Qed.

Lemma repair_torn d logs desc l tail e off :
  torn d logs desc l tail e → off = Z.of_nat (LogFileHeaderLength + length (render 0 l)) →
  ∃ d', RepairLogFile d (GetLogFileName desc) off = (d', None) ∧
    d' !! GetLogFileName desc = Some (file_header ++ render 0 l) ∧ holds d' (logs ++ [(desc, l)]).
Proof.
  intros [Hh Hdesc Hids Hst Hok Hfit Hk Hd] ->.
  assert (Hne : ∀ f, f ∈ logs → GetLogFileName f.1 ≠ GetLogFileName desc).
  { intros f Hin Heq. rewrite Forall_forall in Hids. destruct (Hids f Hin) as [[??] Hid].
    destruct Hdesc. apply GetLogFileName_inj in Heq as [? _]; [by destruct Hid|done..]. }
  unfold RepairLogFile. rewrite (OpenLogFileHandle_image _ _ _ Hd), Hd, Nat2Z.id. cbn [default id].
  set (d2 := <[GetLogFileName desc := _]> _).
  assert (Hd2 : d2 !! GetLogFileName desc = Some (file_header ++ render 0 l)).
  { unfold d2. rewrite lookup_insert_eq, (assoc_L (++)). f_equal.
    rewrite take_app_length' by (rewrite length_app; by rewrite file_header_length).
    replace (_ - _)%nat with 0%nat by (rewrite !length_app, file_header_length; lia).
    by rewrite app_nil_r. }
  exists d2. split_and!; [done..|]. apply Forall_app. split.
  - apply holds_insert; [done|]. apply holds_insert; [|done]. intros f _. apply broken_name_ne.
  - repeat constructor; [done|done|]. exists 0%nat. simpl. rewrite app_nil_r. split; [by left|done].
Qed.

Lemma Replay_torn d pl logs desc l tail e p' :
  torn d logs desc l tail e → pl_logFiles pl = (logs ++ [(desc, l)]).*1 →
  logs_run (fresh (pl_startSnapshot pl)) (logs ++ [(desc, l)]) = (p', None) →
  (∃ r, Replay d pl (NewReplayResult ec_clear) false = Ret (d, r, Some e)) ∧
  ∃ d', Replay d pl (NewReplayResult ec_clear) true = Ret (d', p_result p', None) ∧
    d' !! GetLogFileName desc = Some (file_header ++ render 0 l) ∧ holds d' (logs ++ [(desc, l)]).
Proof.
  intros Ht Hf Hrun. destruct (replay_torn _ _ _ _ _ _ _ _ Ht Hf Hrun) as (r & Hfirst & Hoff).
  destruct (repair_torn _ _ _ _ _ _ _ Ht Hoff) as (d2 & Hrep & Hd2 & Hh2).
  assert (e = io_ErrUnexpectedEOF ∨ e = ErrCRCMismatchForOthersMessage) as He.
  { destruct (torn_cut _ _ _ _ _ _ Ht) as [[-> _]|[-> _]]; [by left|by right]. }
  split.
  { exists r. unfold Replay. rewrite Hfirst. cbn [mbind go_bind]. by rewrite decide_False by (by intros []). }
  exists d2. split; [|done]. unfold Replay. rewrite Hfirst. cbn [mbind go_bind].
  rewrite (decide_True (P := true = true ∧ _)) by done.
  rewrite Hf, fmap_app, last_app. cbn [fmap list_fmap fst last].
  rewrite decide_False by (intros []; done). rewrite Hrep.
  pose proof (Replay_clean d2 pl _ _ false Hf Hh2 Hrun) as Hclean.
  unfold Replay in Hclean. unfold Reset.
  destruct (replay d2 pl (NewReplayResult ec_clear)) as [[[r2 desc2] err]|]; [|done].
  destruct err; cbn [mbind go_bind] in Hclean; [|by simplify_eq/=].
  by rewrite decide_False in Hclean by (by intros [??]).
Qed.

(** C33: crash recovery.  When a crash has torn or corrupted the last record of the last log
    file, or has left less than a header of its unwritten space, a replay without repair
    fails; a replay with repair cuts exactly that off the file, keeps every complete
    record of every file, and returns the state these records denote. *)
Theorem Replay_repairs_torn_tail d pl logs desc l tail e p' :
  torn d logs desc l tail e → pl_logFiles pl = (logs ++ [(desc, l)]).*1 →
  logs_run (fresh (pl_startSnapshot pl)) (logs ++ [(desc, l)]) = (p', None) →
  (∃ r, Replay d pl (NewReplayResult ec_clear) false = Ret (d, r, Some e)) ∧
  ∃ d', Replay d pl (NewReplayResult ec_clear) true = Ret (d', p_result p', None) ∧
    d' !! GetLogFileName desc = Some (file_header ++ render 0 l) ∧ holds d' (logs ++ [(desc, l)]).
Proof. apply Replay_torn. Qed.
End Handled.
End Records.

Lemma file_header_eq : file_header = logFileMagicHeader ++ put_u64 logFileVersion.
Proof. done. Qed.
#[global] Opaque file_header LogFileHeaderLength.

(** ** Examples *)

(** A serialization for the messages. *)
Module Codes.
#[export] Instance HardState_countable : Countable HardState.
Proof.
  refine (inj_countable' (λ h, (hs_term h, hs_vote h, hs_commit h))
            (λ '(a, b, c), {| hs_term := a; hs_vote := b; hs_commit := c |}) _). by intros [].
Defined.
#[export] Instance NextEntry_countable : Countable WalNextEntry.
Proof.
  refine (inj_countable' (λ h, (NextTerm h, NextIndex h))
            (λ '(a, b), {| NextTerm := a; NextIndex := b |}) _). by intros [].
Defined.
#[export] Instance ConfState_countable : Countable ConfState.
Proof.
  refine (inj_countable' (λ h, (cs_voters h, cs_learners h))
            (λ '(a, b), {| cs_voters := a; cs_learners := b |}) _). by intros [].
Defined.
#[export] Instance WalSnapshot_countable : Countable WalSnapshot.
Proof.
  refine (inj_countable' (λ h, (ws_index h, ws_term h, ws_conf h))
            (λ '(a, b, c), {| ws_index := a; ws_term := b; ws_conf := c |}) _). by intros [].
Defined.
#[export] Instance HardState_message : Message HardState := coded HardState.
#[export] Instance NextEntry_message : Message WalNextEntry := coded WalNextEntry.
#[export] Instance WalSnapshot_message : Message WalSnapshot := coded WalSnapshot.
End Codes.

Module ReplayExamples.
Import Heap Codes.

Definition demo_recs : list Rec :=
  [RCrc 5; RMeta [Byte.x07]; RNext {| NextTerm := 1; NextIndex := 1 |}; REntry 0 [Byte.x41]].
Definition demo_desc : LogFileDesc := desc 0 0.
Definition no_snapshot : WalSnapshot := {| ws_index := 0; ws_term := 0; ws_conf := None |}.

Lemma demo_rec_ok c x : x ∈ demo_recs → rec_ok c x.
Proof.
  unfold demo_recs. intros Hx. split.
  - by set_unfold in Hx; destruct_or! Hx; subst; vm_compute.
  - set_unfold in Hx; destruct_or! Hx; subst; try done. by left.
  - by set_unfold in Hx; destruct_or! Hx; subst.
  - eexists. by left.
  - by eexists.
Qed.

Lemma demo_recs_ok c l : (∀ x, x ∈ l → x ∈ demo_recs) → recs_ok c l.
Proof.
  revert c. induction l as [|x l IH]; intros c Hin; simpl; [done|].
  split; [apply demo_rec_ok, Hin; by left|apply IH; intros y Hy; apply Hin; by right].
Qed.

Definition demo_parser : Parser EntryStore := fresh no_snapshot.
Definition demo_result (l : list Rec) : Parser EntryStore :=
  fst (rec_run (opened demo_parser demo_desc) l).

Lemma demo_run : rec_run (opened demo_parser demo_desc) demo_recs = (demo_result demo_recs, None).
Proof.
  unfold demo_result. rewrite (surjective_pairing (rec_run _ _)) at 1. by f_equal.
Qed.

Lemma Parse_records_witness :
  rr_entries (p_result (demo_result demo_recs)) = [normal_entry 1 1 Byte.x41] ∧
  Parse demo_parser demo_desc (render (p_crc demo_parser) demo_recs ++ replicate 16 Byte.x00)
  = Ret (demo_result demo_recs, if decide (16 = 0 ∨ 8 <= 16)%nat then io_EOF else io_ErrUnexpectedEOF).
Proof.
  split; [reflexivity|].
  apply (Parse_records demo_parser demo_desc demo_recs (demo_result demo_recs) 16);
    [by apply demo_recs_ok|done|apply demo_run].
Defined.

Lemma Parse_terminates_witness :
  Parse demo_parser demo_desc [Byte.x01; Byte.x02] = parse_loop 100 (opened demo_parser demo_desc) [Byte.x01; Byte.x02].
Proof. apply (Parse_terminates demo_parser demo_desc [Byte.x01; Byte.x02] 99). simpl. lia. Defined.

Definition demo_tail : Rec := REntry 0 [Byte.x41].
Definition demo_dir : Dir :=
  {[ GetLogFileName demo_desc := file_header ++ render 0 demo_recs ++
       take 9 (rec_frame (crc_after 0 demo_recs) demo_tail) ]}.

Lemma Replay_repairs_torn_tail_witness :
  (∃ r, Replay demo_dir {| pl_logFiles := [demo_desc]; pl_startSnapshot := no_snapshot |}
          (NewReplayResult (ec_clear : EntryStore)) false = Ret (demo_dir, r, Some io_ErrUnexpectedEOF)) ∧
  ∃ d', Replay demo_dir {| pl_logFiles := [demo_desc]; pl_startSnapshot := no_snapshot |}
          (NewReplayResult (ec_clear : EntryStore)) true
        = Ret (d', p_result (demo_result demo_recs), None) ∧
    d' !! GetLogFileName demo_desc = Some (file_header ++ render 0 demo_recs) ∧ holds d' [(demo_desc, demo_recs)].
Proof.
  apply (Replay_repairs_torn_tail demo_dir {| pl_logFiles := [demo_desc]; pl_startSnapshot := no_snapshot |}
           [] demo_desc demo_recs (take 9 (rec_frame (crc_after 0 demo_recs) demo_tail)) io_ErrUnexpectedEOF (demo_result demo_recs)); [|reflexivity|].
  2: { cbn [app logs_run]. change (fresh _) with demo_parser. by rewrite demo_run. }
  split; [constructor|by vm_compute|constructor|done| | | |apply lookup_singleton_eq].
  - by apply demo_recs_ok.
  - vm_compute. reflexivity.
  - left. split; [done|]. left. exists demo_tail, 9%nat. split_and!; [|lia| |done].
    { apply demo_rec_ok. unfold demo_recs. rewrite !elem_of_cons. tauto. }
    assert (length (rec_frame (crc_after 0 demo_recs) demo_tail) = 16%nat) as ->; [|lia].
    apply Nat2Z.inj. unfold rec_frame. rewrite length_log_frame. reflexivity.
Defined.
End ReplayExamples.
