(* ===== verification/LogManager.v ===== *)
(** * Log files and their manager: [logfile/logFile.go], [logfile/manager.go]

    A log file is an encoder over a page writer.  The manager owns the directory:
    it creates files under a temporary name, renames them, opens them for appending,
    purges them, and reads entry data back from them.  Directory operations succeed
    unless the file they name is missing; writes to a file fail as the file's fault
    list says.  The reader is shown to keep the promise the entry storage needs. *)

From S2P Require Import Prelude Raftpb Allocator WalCodec PageWriter EntryCache EntryStorage LogFiles.
From S2P Require Import WalReplay.

Definition LogFile := Encoder PageWriter.

Section Logging.
Context `{BufferPool} `{Message HardState} `{Message WalNextEntry} `{Message WalSnapshot}.
(** [walpb.ValidateSnapshotForWrite]. *)
Context (ValidateSnapshotForWrite : WalSnapshot → option error).

Definition lf_Crc (l : LogFile) (crc : Z) : go (LogFile * option error) :=
  Encode l LogTypeCrc 4 (crc : CrcLog).
Definition lf_Metadata (l : LogFile) (metadata : list byte) : go (LogFile * option error) :=
  Encode l LogTypeMetadata (Z.of_nat (length metadata)) (slice_bytes metadata).
Definition lf_HardState (l : LogFile) (state : HardState) : go (LogFile * option error) :=
  Encode l LogTypeHardState (Z.of_nat (length (marshal state))) (message_log state).
Definition lf_Snapshot (l : LogFile) (snap : WalSnapshot) : go (LogFile * option error) :=
  match ValidateSnapshotForWrite snap with
  | Some e => Ret (l, Some e)
  | None => Encode l LogTypeSnapshot (Z.of_nat (length (marshal snap))) (message_log snap)
  end.
Definition lf_NextEntry (l : LogFile) (nextEntry : WalNextEntry) : go (LogFile * option error) :=
  Encode l LogTypeNextEntry (Z.of_nat (length (marshal nextEntry))) (message_log nextEntry).
Definition lf_Entry (l : LogFile) (entryType : Z) (entryData : list byte) : go (LogFile * option error) :=
  Encode l entryType (Z.of_nat (length entryData)) (slice_bytes entryData).

Definition lf_Sync (l : LogFile) (enableSync : bool) : go (LogFile * option error) :=
  '(pw, err) ← Sync (enc_writer l) enableSync;
  Ret ({| enc_writer := pw; currentCrc := currentCrc l |}, err).
Definition lf_Truncate (l : LogFile) : LogFile :=
  {| enc_writer := Truncate (enc_writer l); currentCrc := currentCrc l |}.
Definition lf_Offset (l : LogFile) : Z := Z.of_nat (currentOffset (enc_writer l)).
Definition LastCrc (l : LogFile) : Z := currentCrc l.
Definition DoCycle (l : LogFile) : bool := CheckCycle (enc_writer l).

(** Writing a record. *)
Definition lf_put (l : LogFile) (x : Rec) : go (LogFile * option error) :=
  match x with
  | RCrc c => lf_Crc l c
  | RMeta b => lf_Metadata l b
  | RHard hs => lf_HardState l hs
  | RSnap s => lf_Snapshot l s
  | RNext ne => lf_NextEntry l ne
  | REntry t d => lf_Entry l t d
  end.
End Logging.

(** ** The manager *)

Record ManagerConfig := {
  LogFileChunkSize : nat;
  AlignmentPageSize : nat;
  PageWriterBufSize : nat;
  MaxKeepLogFiles : nat
}.

(** The manager and the directory it works in. *)
Record Manager := {
  m_cfg : ManagerConfig;
  m_filesDesc : gmap Z LogFileDesc;
  m_nextLogId : Z;
  m_dir : gmap string File
}.

Definition with_dir (m : Manager) (d : gmap string File) : Manager :=
  {| m_cfg := m_cfg m; m_filesDesc := m_filesDesc m; m_nextLogId := m_nextLogId m; m_dir := d |}.
Definition with_descs (m : Manager) (f : gmap Z LogFileDesc) : Manager :=
  {| m_cfg := m_cfg m; m_filesDesc := f; m_nextLogId := m_nextLogId m; m_dir := m_dir m |}.

Definition ErrNotFoundValidLogFiles : error := Sentinel "ErrNotFoundValidLogFiles".
Definition err_not_found_id : error := Errorf "logfile manager: not found log file(Id=%d).".
Definition err_expected_next : error :=
  Errorf "logfile manager: expected next log file (Id=%d). but log file (Id=%d).".
Definition err_no_log_files : error := Errorf "logfile manager: not found any log files".
Definition err_invalid_size : error := Errorf "logfile manager: invalid the size of entryIndex and raftpb.Entry".
Definition err_read_at : error := Errorf "mmap: ReadAt".

(** The directory listing. *)
Definition read_dir (d : gmap string File) : list (string * bool) :=
  (λ kv, (kv.1, false)) <$> map_to_list d.

Definition NewManager (cfg : ManagerConfig) (d : gmap string File) : Manager :=
  {| m_cfg := cfg; m_filesDesc := ∅; m_nextLogId := 0; m_dir := d |}.

Definition NewManagerWithScan (cfg : ManagerConfig) (d : gmap string File) (snapIndex : Z) : result Manager :=
  match ReadValidLogFiles (read_dir d) snapIndex with
  | Err e => Err e
  | Ok logFiles =>
      match last logFiles with
      | None => Err ErrNotFoundValidLogFiles
      | Some l =>
          Ok {| m_cfg := cfg; m_filesDesc := foldl (λ m s, <[fd_Id s := s]> m) ∅ logFiles;
                m_nextLogId := u64 (fd_Id l + 1); m_dir := d |}
      end
  end.

(** [page.CreateWriter] and [codec.NewEncoder] on an open file. *)
Definition open_writer (m : Manager) (f : File) (crc : Z) : LogFile :=
  {| enc_writer := CreateWriter (LogFileChunkSize (m_cfg m)) (AlignmentPageSize (m_cfg m))
                     (PageWriterBufSize (m_cfg m)) f;
     currentCrc := crc |}.

(** [Seek]. *)
Definition seek (f : File) (pos : nat) : File :=
  {| content := content f; fpos := pos; durable := durable f; faults := faults f |}.

Definition OpenLogFile (m : Manager) (id seekTo initCrc : Z) : result (LogFile * string) :=
  match m_filesDesc m !! id with
  | None => Err err_not_found_id
  | Some logDesc =>
      let name := GetLogFileName logDesc in
      match OpenLogFileHandle (content <$> m_dir m) name, m_dir m !! name with
      | Ok _, Some f => Ok (open_writer m (seek f (Z.to_nat seekTo)) initCrc, name)
      | Err e, _ => Err e
      | _, None => Err err_no_such_file
      end
  end.

(** [CreateLogFileHandle]: open or create, extend to the chunk size with zeros, write
    magic and version. *)
Definition create_file (d : gmap string File) (name : string) (preAllocSize : nat) : File * option error :=
  let f := default {| content := []; fpos := 0; durable := []; faults := [] |} (d !! name) in
  let f := {| content := content f ++ replicate (preAllocSize - length (content f)) Byte.x00;
              fpos := 0; durable := durable f; faults := faults f |} in
  match file_write f logFileMagicHeader with
  | (f, _, Some e) => (f, Some e)
  | (f, _, None) =>
      match file_write f (put_u64 logFileVersion) with
      | (f, _, err) => (f, err)
      end
  end.

Definition CreateNextTempLogFile (m : Manager) (id startLogIndex : Z) : Manager * result (LogFile * string) :=
  if decide (m_nextLogId m ≠ id) then (m, Err err_expected_next)
  else
    let desc := {| fd_Id := id; fd_StartLogIndex := startLogIndex; fd_IsTempFile := true |} in
    let name := GetTempLogFileName desc in
    match create_file (m_dir m) name (LogFileChunkSize (m_cfg m)) with
    | (f, Some e) => (with_dir m (<[name := f]> (m_dir m)), Err e)
    | (f, None) =>
        let m := {| m_cfg := m_cfg m; m_filesDesc := <[id := desc]> (m_filesDesc m);
                    m_nextLogId := u64 (m_nextLogId m + 1); m_dir := <[name := f]> (m_dir m) |} in
        (m, Ok (open_writer m f 0, name))
    end.

Definition FinalizeTempLogFile (m : Manager) (id : Z) : Manager * option error :=
  match m_filesDesc m !! id with
  | None => (m, Some err_not_found_id)
  | Some logDesc =>
      match m_dir m !! GetTempLogFileName logDesc with
      | None => (m, Some err_no_such_file)
      | Some f =>
          let d := <[GetLogFileName logDesc := f]> (delete (GetTempLogFileName logDesc) (m_dir m)) in
          let logDesc := {| fd_Id := fd_Id logDesc; fd_StartLogIndex := fd_StartLogIndex logDesc;
                            fd_IsTempFile := false |} in
          (with_descs (with_dir m d) (<[id := logDesc]> (m_filesDesc m)), None)
      end
  end.

Definition by_start (a b : LogFileDesc) : Prop := fd_StartLogIndex a <= fd_StartLogIndex b.
#[export] Instance by_start_dec : RelDecision by_start.
Proof. intros ??. unfold by_start. apply _. Defined.

(** [Purge]. *)
Definition Purge (m : Manager) (snapshotIndex : Z) : Manager :=
  let r := merge_sort by_start (map_to_list (m_filesDesc m)).*2 in
  foldl (λ m d, with_descs (with_dir m (delete (GetLogFileName d) (m_dir m)))
                  (delete (fd_Id d) (m_filesDesc m)))
        m (purged r (MaxKeepLogFiles (m_cfg m)) snapshotIndex).

Definition LastLogFileDesc (m : Manager) : result LogFileDesc :=
  if decide (m_filesDesc m = ∅) then Err err_no_log_files
  else Ok (default emptyDesc (m_filesDesc m !! u64 (m_nextLogId m - 1))).

(** ** Reading entry data back *)

(** The body of the loop of [utility.ReadEntriesData] on a file's bytes; [ReadAt] fails
    unless it can read all the bytes asked for. *)
Definition read_entry (c : list byte) (md : EntryIndexMetadata) (e : Entry) : result Entry :=
  if decide (0 < DataLen md) then
    if decide (Offset md < 0 ∨ Z.of_nat (length c) < Offset md + DataLen md) then Err err_read_at
    else Ok (set_data e (go_slice (Z.to_nat (Offset md)) (Z.to_nat (Offset md + DataLen md)) c))
  else Ok e.

Fixpoint read_entries (c : list byte) (mds : list (EntryIndex EntryIndexMetadata)) (ents : list Entry)
    : go (result (list Entry)) :=
  match mds, ents with
  | [], _ => Ret (Ok ents)
  | md :: mds, e :: ents =>
      match read_entry c (ei_meta md) e with
      | Err err => Ret (Err err)
      | Ok e => (ents <-? read_entries c mds ents;; Ret (Ok (e :: ents)))%go
      end
  | _ :: _, [] => Panic "index out of range"
  end.

(** Reading one run of entries of a file. *)
Definition read_file (m : Manager) (id : Z) (mds : list (EntryIndex EntryIndexMetadata)) (ents : list Entry)
    : go (result (list Entry)) :=
  match m_filesDesc m !! id with
  | None => Ret (Err err_not_found_id)
  | Some desc =>
      match m_dir m !! GetLogFileName desc with
      | None => Ret (Err err_no_such_file)
      | Some f => read_entries (content f) mds ents
      end
  end.

(** The loop of [ReadEntriesData]: [run] and [out] are the index entries and entries of
    the current file not read yet. *)
Fixpoint read_runs (m : Manager) (currFileId : Z) (run : list (EntryIndex EntryIndexMetadata))
    (out : list Entry) (mds : list (EntryIndex EntryIndexMetadata)) (ents : list Entry)
    : go (result (list Entry)) :=
  match mds, ents with
  | md :: mds, e :: ents =>
      if decide (currFileId ≠ FileId (ei_meta md)) then
        (front <-? read_file m currFileId run out;;
         back <-? read_runs m (FileId (ei_meta md)) [md] [e] mds ents;;
         Ret (Ok (front ++ back)))%go
      else read_runs m currFileId (run ++ [md]) (out ++ [e]) mds ents
  | _, _ => read_file m currFileId run out
  end.

Definition ReadEntriesData (m : Manager) (mds : list (EntryIndex EntryIndexMetadata)) (ents : list Entry)
    : go (result (list Entry)) :=
  match mds with
  | [] => Ret (Err err_invalid_size)
  | md :: _ =>
      if decide (length mds ≠ length ents) then Ret (Err err_invalid_size)
      else read_runs m (FileId (ei_meta md)) [] [] mds ents
  end.

#[export] Instance manager_reader : EntryDataReader Manager EntryIndexMetadata := ReadEntriesData.

Section Reader.
Implicit Types (m : Manager) (mds run : list (EntryIndex EntryIndexMetadata)) (ents out : list Entry).

Definition blank : Entry := {| e_term := 0; e_index := 0; e_type := 0; e_data := [] |}.

(** The data the files hold for an index entry. *)
Definition stored_data m (md : EntryIndex EntryIndexMetadata) : option (list byte) :=
  desc ← m_filesDesc m !! FileId (ei_meta md);
  f ← m_dir m !! GetLogFileName desc;
  match read_entry (content f) (ei_meta md) blank with
  | Ok e => Some (e_data e)
  | Err _ => None
  end.

Lemma read_entry_data c md e e0 d : e_data e = [] → e_data e0 = [] →
  match read_entry c md e0 with Ok x => Some (e_data x) | Err _ => None end = Some d →
  read_entry c md e = Ok (set_data e d).
Proof.
  intros He He0. unfold read_entry. case_decide; [case_decide; [done|]|]; intros ?; simplify_eq/=; [done|].
  rewrite He0, <- He. by destruct e.
Qed.

Lemma read_file_stored m id run out ds :
  run ≠ [] → Forall (λ md, FileId (ei_meta md) = id) run →
  Forall2 (λ md d, stored_data m md = Some d) run ds → length out = length run →
  Forall (λ e, e_data e = []) out →
  read_file m id run out = Ret (Ok (zip_with set_data out ds)).
Proof.
  intros Hne Hid Hst Hlen Hout. unfold read_file.
  assert (∃ desc f, m_filesDesc m !! id = Some desc ∧ m_dir m !! GetLogFileName desc = Some f)
    as (desc & f & Hdesc & Hf).
  { destruct run as [|md run]; [done|]. apply Forall_cons in Hid as [<- _].
    apply Forall2_cons_inv_l in Hst as (d & ds' & Hs & _). unfold stored_data in Hs.
    destruct (m_filesDesc m !! FileId (ei_meta md)) as [desc|]; [|done]. simpl in Hs.
    destruct (m_dir m !! GetLogFileName desc) as [f|] eqn:Hf; [|done]. eauto. }
  rewrite Hdesc, Hf. clear Hne. revert out Hlen Hout.
  induction Hst as [|md d run ds Hs Hst IH]; intros out Hlen Hout; destruct out as [|e out]; try done.
  apply Forall_cons in Hid as [Hid Hids]. apply Forall_cons in Hout as [He Hout].
  unfold stored_data in Hs. rewrite Hid, Hdesc in Hs. simpl in Hs. rewrite Hf in Hs. simpl in Hs.
  cbn [read_entries]. rewrite (read_entry_data _ _ e blank d He eq_refl Hs).
  rewrite IH; [done|done|by injection Hlen|done].
Qed.

Lemma read_runs_stored m id mds ents ds run out ds0 :
  run ≠ [] → Forall (λ md, FileId (ei_meta md) = id) run →
  Forall2 (λ md d, stored_data m md = Some d) run ds0 → length out = length run →
  Forall (λ e, e_data e = []) out →
  Forall2 (λ md d, stored_data m md = Some d) mds ds → length ents = length mds →
  Forall (λ e, e_data e = []) ents →
  read_runs m id run out mds ents = Ret (Ok (zip_with set_data out ds0 ++ zip_with set_data ents ds)).
Proof.
  intros Hne Hid Hst0 Hlen0 Hout Hst. revert id run out ds0 ents Hne Hid Hst0 Hlen0 Hout.
  induction Hst as [|md d mds ds Hs Hst IH]; intros id run out ds0 ents Hne Hid Hst0 Hlen0 Hout Hlen Hents.
  { destruct ents; [|done]. simpl. rewrite app_nil_r. by apply read_file_stored. }
  destruct ents as [|e ents]; [done|]. apply Forall_cons in Hents as [He Hents].
  injection Hlen as Hlen. cbn [read_runs]. destruct (decide (id ≠ FileId (ei_meta md))) as [Hd|Hd].
  - rewrite (read_file_stored m id run out ds0) by done. cbn [try_].
    rewrite (IH _ [md] [e] [d]); [done|done|by constructor|by repeat constructor|done|by repeat constructor|done|done].
  - rewrite (IH id (run ++ [md]) (out ++ [e]) (ds0 ++ [d])); [|by destruct run| | | | |done|done].
    + rewrite zip_with_app by (rewrite Hlen0; by eapply Forall2_length). simpl. by rewrite <- (assoc_L (++)).
    + apply Forall_app. split; [done|]. constructor; [|done]. by destruct (decide (id = FileId (ei_meta md))).
    + apply Forall2_app; [done|by repeat constructor].
    + rewrite !length_app. simpl. lia.
    + apply Forall_app. split; [done|by repeat constructor].
Qed.
End Reader.

#[export] Instance manager_lawful : LawfulReader Manager EntryIndexMetadata.
Proof.
  refine {| stored := stored_data |}.
  intros m mds ents ds Hne Hst ->. assert (length (bare <$> mds) = length mds) as Hlen by apply length_fmap.
  assert (Forall (λ e, e_data e = []) (bare <$> mds)) as Hents by (by apply Forall_fmap, Forall_true).
  revert Hlen Hents. generalize (bare <$> mds). intros ents Hlen Hents. unfold read_entries_data, manager_reader, ReadEntriesData.
  destruct mds as [|md mds]; [done|]. rewrite decide_False by (rewrite Hlen; by intros []).
  destruct ents as [|e ents]; [done|]. apply Forall2_cons_inv_l in Hst as (d & ds' & Hd & Hst & ->).
  injection Hlen as Hlen. apply Forall_cons in Hents as [He Hents].
  cbn [read_runs]. rewrite decide_False by (by intros []).
  rewrite (read_runs_stored m _ mds ents ds' [md] [e] [d]);
    [done|done|by repeat constructor|by repeat constructor|done|by repeat constructor|done..].
Defined.

(** ** Writing records *)

Section Writing.
Context `{BufferPool} `{Message HardState} `{Message WalNextEntry} `{Message WalSnapshot}.
Context (ValidateSnapshotForWrite : WalSnapshot → option error).
Implicit Types (l : LogFile) (recs : list Rec).

(** The log file [l] holds the records [recs], some of them perhaps still buffered. *)
Record log_ok l recs : Prop := {
  lo_pw : pw_ok (enc_writer l);
  lo_clean : clean (pf (enc_writer l));
  lo_stream : stream (enc_writer l) = file_header ++ render 0 recs;
  lo_crc : currentCrc l = crc_after 0 recs
}.

(** The same file, with no fewer bytes in it. *)
Definition extends l l' : Prop :=
  same_cfg (enc_writer l) (enc_writer l') ∧ (fpos (pf (enc_writer l)) <= fpos (pf (enc_writer l')))%nat.

#[export] Instance extends_preorder : PreOrder extends.
Proof.
  split; [by intros l; split|]. unfold extends, same_cfg. intros l1 l2 l3 [(?&?&?) ?] [(?&?&?) ?].
  split_and!; congruence || lia.
Qed.

Lemma offset_stream p : pw_ok p → currentOffset p = length (stream p).
Proof.
  intros Hok. rewrite (ok_off _ Hok). pose proof (ok_core _ Hok) as Hc.
  pose proof (core_pos _ Hc). pose proof (core_room _ Hc).
  unfold stream, written. rewrite length_app, !length_take. lia.
Qed.

Lemma log_offset l recs : log_ok l recs →
  lf_Offset l = Z.of_nat (LogFileHeaderLength + length (render 0 recs)).
Proof.
  intros Hl. unfold lf_Offset. rewrite (offset_stream _ (lo_pw _ _ Hl)), (lo_stream _ _ Hl).
  by rewrite length_app, file_header_length.
Qed.

Lemma Encode_log {T} `{LawfulLog T} l recs t (m : T) (x : Rec) :
  log_ok l recs → rec_type x = t → rec_body x = log_body m →
  rec_crc (crc_after 0 recs) x = log_crc m (crc_after 0 recs) →
  rec_ok (crc_after 0 recs) x →
  ∃ l', Encode l t (Z.of_nat (length (log_body m))) m = Ret (l', None) ∧ log_ok l' (recs ++ [x]) ∧
    extends l l'.
Proof.
  intros Hl Ht Hb Hcrc Hx. destruct (rok_room _ _ Hx) as [buf Hbuf]. rewrite Hb in Hbuf.
  rewrite (Encode_lawful l t m buf); [|rewrite <- Hb; apply Hx|done].
  destruct Hl as [Hpw Hcl Hst Hc].
  destruct (Write_appends (enc_writer l) (log_frame t (log_body m) (log_crc m (currentCrc l))) Hpw)
    as (q & Hw & Hq & Hs & Ho & Hcfg & _).
  cbn zeta. unfold w_write, page_writer, Write_err. rewrite Hw. cbn [mbind go_bind].
  eexists. split; [done|]. split; [|split; [done|by eapply Write_wrote]]. split; simpl.
  - done.
  - by eapply Write_clean.
  - rewrite Hs, Hst, render_app, <- (assoc_L (++)). simpl. rewrite app_nil_r.
    unfold rec_frame. by rewrite Ht, Hb, Hcrc, Hc.
  - rewrite crc_after_app. simpl. by rewrite Hcrc, Hc.
Qed.

Lemma lf_put_ok l recs x :
  log_ok l recs → rec_ok (crc_after 0 recs) x →
  match x with RSnap s => ValidateSnapshotForWrite s = None | _ => True end →
  ∃ l', lf_put ValidateSnapshotForWrite l x = Ret (l', None) ∧ log_ok l' (recs ++ [x]) ∧ extends l l'.
Proof.
  intros Hl Hx Hv. destruct x as [c|b|hs|s|ne|t d]; cbn [lf_put].
  - unfold lf_Crc. replace 4 with (Z.of_nat (length (put_u32 c))) by (by rewrite length_put_u32).
    exact (Encode_log (T := CrcLog) l recs LogTypeCrc c (RCrc c) Hl eq_refl eq_refl eq_refl Hx).
  - exact (Encode_log l recs LogTypeMetadata (slice_bytes b) (RMeta b) Hl eq_refl eq_refl eq_refl Hx).
  - exact (Encode_log l recs LogTypeHardState (message_log hs) (RHard hs) Hl eq_refl eq_refl eq_refl Hx).
  - unfold lf_Snapshot. rewrite Hv.
    exact (Encode_log l recs LogTypeSnapshot (message_log s) (RSnap s) Hl eq_refl eq_refl eq_refl Hx).
  - exact (Encode_log l recs LogTypeNextEntry (message_log ne) (RNext ne) Hl eq_refl eq_refl eq_refl Hx).
  - exact (Encode_log l recs t (slice_bytes d) (REntry t d) Hl eq_refl eq_refl eq_refl Hx).
Qed.

(** Encoding puts nothing on stable storage. *)
Lemma Encode_durable `{EncodeLog T} l t size (m : T) l' err :
  Encode l t size m = Ret (l', err) → durable (pf (enc_writer l')) = durable (pf (enc_writer l)).
Proof.
  unfold Encode. case_decide; [by intros [= <- <-]|].
  destruct (acquire_buf _) as [buf|]; [|done]. cbn [mbind go_bind].
  destruct (log_encode _ _ _ _) as [[[body crc] [e|]]|]; [by intros [= <- <-]| |done].
  cbn [mbind go_bind enc_writer]. unfold w_write, page_writer, Write_err.
  destruct (Write _ _) as [[[q n] werr]|] eqn:Hw; [|done]. cbn [mbind go_bind]. intros [= <- <-].
  apply Write_wrote in Hw as (_ & _ & Hd). exact Hd.
Qed.

(** Syncing keeps the records and puts all of them into the file. *)
Lemma lf_Sync_ok l recs b : log_ok l recs →
  ∃ l', lf_Sync l b = Ret (l', None) ∧ log_ok l' recs ∧ extends l l' ∧
    bufWritePos (enc_writer l') = 0%nat ∧ written (pf (enc_writer l')) = file_header ++ render 0 recs ∧
    (b = true → file_header ++ render 0 recs `prefix_of` durable (pf (enc_writer l'))).
Proof.
  intros [Hpw Hcl Hst Hc]. unfold lf_Sync.
  destruct (Sync_durable (enc_writer l) b Hpw) as (q & Hq & Hok & Hs & Hw & Ho & Hcfg & Hd).
  rewrite Hq. cbn [mbind go_bind]. eexists. split; [done|]. split_and!; simpl; [|split; [done|by eapply Sync_file]| | |].
  - split; simpl; [done|by eapply Sync_file|by rewrite Hs|done].
  - pose proof (offset_stream _ Hok) as Hlen. rewrite (ok_off _ Hok), Hs, <- Hw in Hlen.
    pose proof (core_pos _ (ok_core _ Hok)). unfold written in Hlen. rewrite length_take in Hlen. lia.
  - by rewrite Hw.
  - by rewrite <- Hst.
Qed.

(** The bytes of a log file: its records and zeros. *)
Lemma log_content l recs : log_ok l recs → bufWritePos (enc_writer l) = 0%nat →
  ∃ n, content (pf (enc_writer l)) = file_header ++ render 0 recs ++ replicate n Byte.x00.
Proof.
  intros [Hpw [Hpos Hcl] Hst Hc] Hb. unfold stream in Hst. rewrite Hb, take_0, app_nil_r in Hst.
  unfold written in Hst. exists (length (drop (fpos (pf (enc_writer l))) (content (pf (enc_writer l))))).
  rewrite <- (take_drop (fpos (pf (enc_writer l))) (content (pf (enc_writer l)))) at 1.
  rewrite Hst, <- (assoc_L (++)). do 2 f_equal. symmetry. apply replicate_as_Forall. split; [done|].
  eapply Forall_impl; [done|]. by intros b ->.
Qed.

Lemma lf_Truncate_ok l recs : log_ok l recs → bufWritePos (enc_writer l) = 0%nat →
  log_ok (lf_Truncate l) recs ∧ extends l (lf_Truncate l) ∧
  content (pf (enc_writer (lf_Truncate l))) = file_header ++ render 0 recs.
Proof.
  intros [Hpw Hcl Hst Hc] Hb. destruct (Truncate_stream _ Hpw Hb) as [Hcont Hst'].
  change (enc_writer (lf_Truncate l)) with (Truncate (enc_writer l)).
  assert (Hfp : fpos (pf (Truncate (enc_writer l))) = length (content (pf (Truncate (enc_writer l))))).
  { rewrite Hcont, <- (offset_stream _ Hpw), (ok_off _ Hpw), Hb. simpl. lia. }
  split_and!; [|done|by rewrite Hcont]. split.
  - destruct Hpw as [[] Hoff Hpage]. split; [split; try done|done|done]. by apply Nat.eq_le_incl.
  - split; [by apply Nat.eq_le_incl|]. change (enc_writer (lf_Truncate l)) with (Truncate (enc_writer l)).
    rewrite drop_ge by (rewrite Hfp; done). constructor.
  - by rewrite <- Hst, <- Hst'.
  - done.
Qed.

(** A file just created holds the header and zeros. *)
Lemma create_file_ok d name n : d !! name = None →
  ∃ f, create_file d name n = (f, None) ∧ quiet f ∧ clean f ∧ written f = file_header.
Proof.
  intros Hd. unfold create_file. rewrite Hd. cbn [default content fpos durable faults length].
  set (f0 := {| content := _; fpos := 0; durable := _; faults := _ |}).
  assert (quiet f0) as Hq0 by constructor.
  assert (clean f0) as Hc0.
  { split; simpl; [lia|]. rewrite drop_0. apply Forall_replicate. done. }
  destruct (file_write_quiet f0 logFileMagicHeader Hq0 (proj1 Hc0)) as (f1 & Hw1 & Hq1 & _ & _ & Hwr1 & _).
  pose proof (proj1 (proj2 (file_write_wrote _ _ _ _ _ Hw1)) Hc0) as Hc1. rewrite Hw1.
  destruct (file_write_quiet f1 (put_u64 logFileVersion) Hq1 (proj1 Hc1)) as (f2 & Hw2 & Hq2 & _ & _ & Hwr2 & _).
  pose proof (proj1 (proj2 (file_write_wrote _ _ _ _ _ Hw2)) Hc1) as Hc2. rewrite Hw2.
  exists f2. split_and!; [done..|]. rewrite Hwr2, Hwr1. by rewrite file_header_eq.
Qed.

Lemma open_writer_ok m f crc recs :
  (0 < AlignmentPageSize (m_cfg m))%nat → quiet f → clean f →
  written f = file_header ++ render 0 recs → crc = crc_after 0 recs →
  log_ok (open_writer m f crc) recs.
Proof.
  intros Hp Hq Hc Hw ->.
  destruct (CreateWriter_ok (LogFileChunkSize (m_cfg m)) (AlignmentPageSize (m_cfg m))
              (PageWriterBufSize (m_cfg m)) f Hp (proj1 Hc) Hq) as [Hok Hs].
  split; simpl; [done|done|by rewrite Hs|done].
Qed.

(** Opening the file a synced log was written to continues that log. *)
Lemma reopen_ok m l recs :
  (0 < AlignmentPageSize (m_cfg m))%nat → log_ok l recs → bufWritePos (enc_writer l) = 0%nat →
  let f := pf (enc_writer l) in
  seek f (Z.to_nat (lf_Offset l)) = f ∧ log_ok (open_writer m f (LastCrc l)) recs.
Proof.
  intros Hp Hl Hb f. destruct Hl as [Hpw Hcl Hst Hc]. split.
  - unfold seek, lf_Offset. rewrite Nat2Z.id, (ok_off _ Hpw), Hb, Nat.add_0_r. unfold f. by destruct (pf (enc_writer l)).
  - unfold stream in Hst. rewrite Hb, take_0, app_nil_r in Hst.
    apply open_writer_ok; [done|apply (ok_core _ Hpw)|done|done|done].
Qed.
End Writing.
