(* ===== verification/Wal.v ===== *)
(** * The write-ahead log: [babuzawal/wal.go], [babuzawal/common.go]

    Saving entries, hard states and snapshots, cycling to a new log file, creating,
    opening and replaying a log.  The current log file is written through to the
    directory: after every operation on it the directory holds its contents.  The
    theorems say which records every operation writes, and that a replay of the
    directory gives back what was saved. *)

From S2P Require Import Prelude Raftpb Allocator WalCodec PageWriter EntryCache EntryStorage LogFiles.
From S2P Require Import WalReplay LogManager.

Record walState := {
  ws_metadata : list byte;
  ws_nextEntry : WalNextEntry;
  ws_hardState : HardState;
  ws_lastEntryIndex : Z
}.

Definition EmptyNextEntry (s : walState) : bool :=
  bool_decide (NextTerm (ws_nextEntry s) = 0 ∧ NextIndex (ws_nextEntry s) = 0).

(** The log; [w_file] is the name of the file [w_current] is open on. *)
Record Wal := {
  w_mgr : Manager;
  w_state : walState;
  w_current : LogFile;
  w_file : string;
  w_storage : option (EntryStorage EntryIndexMetadata);
  w_enableNoSync : bool
}.

Definition set_state (w : Wal) (s : walState) : Wal :=
  {| w_mgr := w_mgr w; w_state := s; w_current := w_current w; w_file := w_file w;
     w_storage := w_storage w; w_enableNoSync := w_enableNoSync w |}.
Definition set_nextEntry (w : Wal) (ne : WalNextEntry) : Wal :=
  set_state w {| ws_metadata := ws_metadata (w_state w); ws_nextEntry := ne;
                 ws_hardState := ws_hardState (w_state w);
                 ws_lastEntryIndex := ws_lastEntryIndex (w_state w) |}.
Definition set_hardState (w : Wal) (hs : HardState) : Wal :=
  set_state w {| ws_metadata := ws_metadata (w_state w); ws_nextEntry := ws_nextEntry (w_state w);
                 ws_hardState := hs; ws_lastEntryIndex := ws_lastEntryIndex (w_state w) |}.
Definition set_lastEntryIndex (w : Wal) (i : Z) : Wal :=
  set_state w {| ws_metadata := ws_metadata (w_state w); ws_nextEntry := ws_nextEntry (w_state w);
                 ws_hardState := ws_hardState (w_state w); ws_lastEntryIndex := i |}.
Definition set_storage (w : Wal) (s : option (EntryStorage EntryIndexMetadata)) : Wal :=
  {| w_mgr := w_mgr w; w_state := w_state w; w_current := w_current w; w_file := w_file w;
     w_storage := s; w_enableNoSync := w_enableNoSync w |}.
Definition set_mgr (w : Wal) (m : Manager) : Wal :=
  {| w_mgr := m; w_state := w_state w; w_current := w_current w; w_file := w_file w;
     w_storage := w_storage w; w_enableNoSync := w_enableNoSync w |}.
(** A new state of the current file, seen in the directory at once. *)
Definition set_current (w : Wal) (l : LogFile) : Wal :=
  {| w_mgr := with_dir (w_mgr w) (<[w_file w := pf (enc_writer l)]> (m_dir (w_mgr w)));
     w_state := w_state w; w_current := l; w_file := w_file w;
     w_storage := w_storage w; w_enableNoSync := w_enableNoSync w |}.
(** Continue in another file. *)
Definition switch_file (w : Wal) (l : LogFile) (name : string) : Wal :=
  {| w_mgr := w_mgr w; w_state := w_state w; w_current := l; w_file := name;
     w_storage := w_storage w; w_enableNoSync := w_enableNoSync w |}.

Definition zero_metadata : EntryIndexMetadata :=
  {| FileId := 0; Offset := 0; DataLen := 0; DataCapacity := 0 |}.

Definition EmptyWalpbSnapshot : WalSnapshot := {| ws_index := 0; ws_term := 0; ws_conf := None |}.

(** A method of the log that runs an operation of the current file. *)
Definition on_log (f : LogFile → go (LogFile * option error)) : meth Wal unit := fun w =>
  '(l, err) ← f (w_current w);
  Ret (set_current w l, match err with Some e => Err e | None => Ok tt end).

(** An operation of a closed file object, its error ending the method. *)
Definition in_file {S} (f : LogFile → go (LogFile * option error)) (l : LogFile) : meth S LogFile := fun w =>
  '(l, err) ← f l;
  Ret (w, match err with Some e => Err e | None => Ok l end).

Definition lift_result {S A} (r : result A) : meth S A := fun w => Ret (w, r).

Section Saving.
Context `{RaftLib} `{BufferPool} `{Message HardState} `{Message WalNextEntry} `{Message WalSnapshot}.
Context (ValidateSnapshotForWrite : WalSnapshot → option error).

(** [tailLogFileDesc]. *)
Definition tailLogFileDesc : meth Wal LogFileDesc := fun w =>
  match LastLogFileDesc (w_mgr w) with
  | Ok d => Ret (w, Ok d)
  | Err _ => Panic "logfile manager: not found any log files"
  end.

(** The index entry of an entry about to be written. *)
Definition entry_index (w : Wal) (id : Z) (e : Entry) : EntryIndex EntryIndexMetadata :=
  let len := Z.of_nat (length (e_data e)) in
  Build_EntryIndex (e_term e) (e_index e) (e_type e)
    {| FileId := id; Offset := lf_Offset (w_current w) + HeaderSize; DataLen := len;
       DataCapacity := len + (8 - len mod 8) mod 8 |}.

(** The parts of one round of the loop of [saveEntry]: announcing an entry that is not
    the expected one, and its index entry, wanted only with an entry index storage. *)
Definition announce_entry (e : Entry) : meth Wal unit := fun w =>
  if decide (NextTerm (ws_nextEntry (w_state w)) ≠ e_term e ∨
             NextIndex (ws_nextEntry (w_state w)) ≠ e_index e) then
    let ne := {| NextTerm := e_term e; NextIndex := e_index e |} in
    on_log (fun l => lf_NextEntry l ne) (set_nextEntry w ne)
  else Ret (w, Ok tt).

Definition index_entry (e : Entry) : meth Wal (option (EntryIndex EntryIndexMetadata)) := fun w =>
  match w_storage w with
  | None => Ret (w, Ok None)
  | Some _ => (d <- tailLogFileDesc;; Meth.ret (Some (entry_index w (fd_Id d) e)))%go w
  end.

Definition save_one (e : Entry) : meth Wal (option (EntryIndex EntryIndexMetadata)) :=
  (announce_entry e;;
   ix <- index_entry e;;
   on_log (fun l => lf_Entry l (e_type e) (e_data e));;
   Meth.modify (fun w =>
     set_lastEntryIndex
       (set_nextEntry w {| NextTerm := NextTerm (ws_nextEntry (w_state w));
                           NextIndex := u64 (e_index e + 1) |})
       (e_index e));;
   Meth.ret ix)%go.

Fixpoint save_loop (entries : list Entry) : meth Wal (list (EntryIndex EntryIndexMetadata)) :=
  match entries with
  | [] => Meth.ret []
  | e :: entries =>
      (ix <- save_one e;;
       rest <- save_loop entries;;
       Meth.ret (option_list ix ++ rest))%go
  end.

Definition saveEntry (entries : list Entry) : meth Wal unit :=
  (entriesIndex <- save_loop entries;;
   fun w =>
     match w_storage w with
     | None => Ret (w, Ok tt)
     | Some es =>
         '(es, err) ← AppendEntryIndex zero_metadata es entriesIndex;
         match err with
         | Some e => Ret (set_storage w (Some es), Err e)
         | None => es ← AppendCache es entries; Ret (set_storage w (Some es), Ok tt)
         end
     end)%go.

Definition saveHardState (st : HardState) : meth Wal unit :=
  if IsEmptyHardState st then Meth.ret tt
  else
    (on_log (fun l => lf_HardState l st);;
     Meth.modify (fun w => set_hardState w st);;
     Meth.modify (fun w => set_storage w (match w_storage w with
                                          | Some es => Some (DeleteCache es (hs_commit st))
                                          | None => None
                                          end)))%go.

(** The file a temporary log file is written back to when it is closed. *)
Definition close_file (w : Wal) (l : LogFile) (name : string) : Wal :=
  set_mgr w (with_dir (w_mgr w) (<[name := pf (enc_writer l)]> (m_dir (w_mgr w)))).

(** The records [cycle] starts the new file with, synced. *)
Definition fill_file {S} (s : walState) (lastCrc : Z) (l : LogFile) : meth S LogFile :=
  (l <- in_file (fun l => lf_Crc l lastCrc) l;;
   l <- in_file (fun l => lf_Metadata l (ws_metadata s)) l;;
   l <- in_file (fun l => lf_HardState l (ws_hardState s)) l;;
   l <- (if EmptyNextEntry s then Meth.ret l
         else in_file (fun l => lf_NextEntry l (ws_nextEntry s)) l);;
   in_file (fun l => lf_Sync l true) l)%go.

Definition cycle : meth Wal unit :=
  (w <- Meth.get;;
   on_log (fun l => lf_Sync l (negb (w_enableNoSync w)));;
   on_log (fun l => Ret (lf_Truncate l, None));;
   w <- Meth.get;;
   let lastCrc := LastCrc (w_current w) in
   d <- tailLogFileDesc;;
   let nextId := u64 (fd_Id d + 1) in
   next <- (fun w =>
              let '(m, r) := CreateNextTempLogFile (w_mgr w) nextId (u64 (ws_lastEntryIndex (w_state w) + 1)) in
              Ret (set_mgr w m, r));;
   let '(l, name) := next in
   l <- fill_file (w_state w) lastCrc l;;
   Meth.modify (fun w => close_file w l name);;
   (fun w => let '(m, err) := FinalizeTempLogFile (w_mgr w) nextId in
             Ret (set_mgr w m, match err with Some e => Err e | None => Ok tt end));;
   w <- Meth.get;;
   opened <- lift_result (OpenLogFile (w_mgr w) nextId (lf_Offset l) (LastCrc l));;
   Meth.modify (fun w => switch_file w opened.1 opened.2))%go.

Definition Save (state : HardState) (entries : list Entry) : meth Wal unit :=
  ((if decide (entries = []) then Meth.ret tt else saveEntry entries);;
   saveHardState state;;
   w <- Meth.get;;
   if DoCycle (w_current w) then cycle
   else if MustSync state (ws_hardState (w_state w)) (length entries) then
     on_log (fun l => lf_Sync l (negb (w_enableNoSync w)))
   else Meth.ret tt)%go.

Definition SaveSnapshot (snapshot : Snapshot) : meth Wal unit :=
  let meta := snap_meta snapshot in
  let walsnap := {| ws_index := sm_index meta; ws_term := sm_term meta; ws_conf := Some (sm_conf meta) |} in
  (on_log (fun l => lf_Snapshot ValidateSnapshotForWrite l walsnap);;
   w <- Meth.get;;
   (if decide (ws_lastEntryIndex (w_state w) < ws_index walsnap) then
      Meth.modify (fun w => set_lastEntryIndex w (ws_index walsnap))
    else Meth.ret tt);;
   on_log (fun l => lf_Sync l (negb (w_enableNoSync w))))%go.

Definition wal_Sync : meth Wal unit := fun w => on_log (fun l => lf_Sync l (negb (w_enableNoSync w))) w.

(** [CreateWal]. *)
Definition CreateWal (metadata : list byte) (m : Manager) : go (result Wal) :=
  let '(m, r) := CreateNextTempLogFile m 0 0 in
  match r with
  | Err e => Ret (Err e)
  | Ok (l, name) =>
      '(m, r) ←
        (l <- in_file (fun l => lf_Crc l 0) l;;
         l <- in_file (fun l => lf_Metadata l metadata) l;;
         l <- in_file (fun l => lf_Snapshot ValidateSnapshotForWrite l EmptyWalpbSnapshot) l;;
         l <- in_file (fun l => lf_Sync l true) l;;
         Meth.modify (fun m => with_dir m (<[name := pf (enc_writer l)]> (m_dir m)));;
         (fun m => let '(m, err) := FinalizeTempLogFile m 0 in
                   Ret (m, match err with Some e => Err e | None => Ok tt end));;
         m <- Meth.get;;
         lift_result (OpenLogFile m 0 (lf_Offset l) (LastCrc l)))%go m;
      match r with
      | Err e => Ret (Err e)
      | Ok (l, name) =>
          Ret (Ok {| w_mgr := m;
                     w_state := {| ws_metadata := metadata; ws_nextEntry := emptyNextEntry;
                                   ws_hardState := emptyHardState; ws_lastEntryIndex := 0 |};
                     w_current := l; w_file := name; w_storage := None; w_enableNoSync := false |})
      end
  end.

(** [OpenWal] on the result of a replay. *)
Definition OpenWal {C} (m : Manager) (r : ReplayResult C) : result Wal :=
  match OpenLogFile m (fd_Id (rr_lastLogFileDesc r)) (rr_lastValidLogOffset r) (rr_lastValidLogCrc r) with
  | Err e => Err e
  | Ok (l, name) =>
      Ok {| w_mgr := m;
            w_state := {| ws_metadata := rr_metadata r; ws_nextEntry := rr_nextEntry r;
                          ws_hardState := rr_hardState r; ws_lastEntryIndex := 0 |};
            w_current := l; w_file := name; w_storage := None; w_enableNoSync := false |}
  end.
End Saving.

(** ** The records each operation writes *)

Section Written.
Context `{RaftLib} `{BufferPool} `{Message HardState} `{Message WalNextEntry} `{Message WalSnapshot}.
Context (ValidateSnapshotForWrite : WalSnapshot → option error).
Implicit Types (w : Wal) (s : walState) (l : LogFile) (recs : list Rec) (es : list Entry).

(** The entry expected after an entry. *)
Definition next_of (e : Entry) : WalNextEntry := {| NextTerm := e_term e; NextIndex := u64 (e_index e + 1) |}.

(** An entry is announced when it is not the expected one. *)
Definition announce (ne : WalNextEntry) (e : Entry) : list Rec :=
  if decide (NextTerm ne ≠ e_term e ∨ NextIndex ne ≠ e_index e)
  then [RNext {| NextTerm := e_term e; NextIndex := e_index e |}] else [].

Fixpoint entry_recs (ne : WalNextEntry) es : list Rec :=
  match es with
  | [] => []
  | e :: es => announce ne e ++ REntry (e_type e) (e_data e) :: entry_recs (next_of e) es
  end.

Definition hs_recs (st : HardState) : list Rec := if IsEmptyHardState st then [] else [RHard st].

(** The state after an entry. *)
Definition after_entry s (e : Entry) : walState :=
  {| ws_metadata := ws_metadata s; ws_nextEntry := next_of e; ws_hardState := ws_hardState s;
     ws_lastEntryIndex := e_index e |}.
Definition after_hs s (st : HardState) : walState :=
  {| ws_metadata := ws_metadata s; ws_nextEntry := ws_nextEntry s;
     ws_hardState := if IsEmptyHardState st then ws_hardState s else st;
     ws_lastEntryIndex := ws_lastEntryIndex s |}.

(** The log with another state and another current file. *)
Definition upd w s l : Wal := set_current (set_state w s) l.

Lemma on_put w s l recs x f :
  log_ok l recs → rec_ok (crc_after 0 recs) x →
  match x with RSnap s => ValidateSnapshotForWrite s = None | _ => True end →
  (∀ l, f l = lf_put ValidateSnapshotForWrite l x) →
  ∃ l', on_log f (upd w s l) = Ret (upd w s l', Ok tt) ∧ log_ok l' (recs ++ [x]) ∧ extends l l'.
Proof.
  intros Hl Hx Hv Hf. destruct (lf_put_ok ValidateSnapshotForWrite l recs x Hl Hx Hv) as (l' & Hput & Hl' & Hcfg).
  exists l'. split; [|done]. unfold on_log. rewrite Hf. change (w_current (upd w s l)) with l.
  rewrite Hput. cbn [mbind go_bind]. f_equal. f_equal. unfold upd, set_current, with_dir. simpl.
  by rewrite insert_insert_eq.
Qed.

Lemma on_sync w s l recs b : log_ok l recs →
  ∃ l', on_log (fun l => lf_Sync l b) (upd w s l) = Ret (upd w s l', Ok tt) ∧ log_ok l' recs ∧
    extends l l' ∧ bufWritePos (enc_writer l') = 0%nat ∧
    (b = true → file_header ++ render 0 recs `prefix_of` durable (pf (enc_writer l'))).
Proof.
  intros Hl. destruct (lf_Sync_ok l recs b Hl) as (l' & Hs & Hl' & Hcfg & Hb & _ & Hd).
  exists l'. split_and!; [|done..]. unfold on_log. change (w_current (upd w s l)) with l.
  rewrite Hs. cbn [mbind go_bind]. f_equal. f_equal. unfold upd, set_current, with_dir. simpl.
  by rewrite insert_insert_eq.
Qed.

(** The index entry of an entry, [None] without an entry index storage. *)
Definition index_of w l (e : Entry) : option (EntryIndex EntryIndexMetadata) :=
  match w_storage w with
  | None => None
  | Some _ => Some (entry_index (switch_file w l (w_file w))
                      (fd_Id (default emptyDesc (m_filesDesc (w_mgr w) !! u64 (m_nextLogId (w_mgr w) - 1)))) e)
  end.

Lemma announce_entry_ok w s l recs e :
  log_ok l recs → recs_ok (crc_after 0 recs) (announce (ws_nextEntry s) e) →
  ∃ l1 s1, announce_entry e (upd w s l) = Ret (upd w s1 l1, Ok tt) ∧
    log_ok l1 (recs ++ announce (ws_nextEntry s) e) ∧ extends l l1 ∧
    after_entry s1 e = after_entry s e ∧ NextTerm (ws_nextEntry s1) = e_term e.
Proof.
  intros Hl Hok. unfold announce_entry, announce in *.
  change (ws_nextEntry (w_state (upd w s l))) with (ws_nextEntry s).
  set (ne := {| NextTerm := e_term e; NextIndex := e_index e |}) in *.
  destruct (decide _) as [Hd|Hd].
  - destruct Hok as [Hok _]. set (s1 := w_state (set_nextEntry (upd w s l) ne)).
    destruct (on_put w s1 l recs _ (fun l => lf_NextEntry l ne) Hl Hok I ltac:(done)) as (l1 & Hp & Hl1 & Hcfg).
    exists l1, s1. split_and!; done.
  - exists l, s. rewrite app_nil_r. split_and!; try done.
    destruct (decide (NextTerm (ws_nextEntry s) = e_term e)); [done|tauto].
Qed.

Lemma index_entry_ok w s l e : m_filesDesc (w_mgr w) ≠ ∅ →
  index_entry e (upd w s l) = Ret (upd w s l, Ok (index_of w l e)).
Proof.
  intros Hne. unfold index_entry, index_of. change (w_storage (upd w s l)) with (w_storage w).
  destruct (w_storage w); [|done].
  unfold Meth.bind, tailLogFileDesc, LastLogFileDesc.
  change (m_filesDesc (w_mgr (upd w s l))) with (m_filesDesc (w_mgr w)). by rewrite decide_False.
Qed.

Lemma save_one_ok w s l recs e :
  log_ok l recs → m_filesDesc (w_mgr w) ≠ ∅ →
  recs_ok (crc_after 0 recs) (announce (ws_nextEntry s) e ++ [REntry (e_type e) (e_data e)]) →
  ∃ l1 l2, save_one e (upd w s l) = Ret (upd w (after_entry s e) l2, Ok (index_of w l1 e)) ∧
    log_ok l1 (recs ++ announce (ws_nextEntry s) e) ∧
    log_ok l2 (recs ++ announce (ws_nextEntry s) e ++ [REntry (e_type e) (e_data e)]) ∧ extends l l2.
Proof.
  intros Hl Hne [Hok1 [Hok2 _]]%recs_ok_app.
  destruct (announce_entry_ok w s l recs e Hl Hok1) as (l1 & s1 & Hann & Hl1 & Hcfg1 & Hs1 & Hterm).
  rewrite <- crc_after_app in Hok2.
  destruct (on_put w s1 l1 _ _ (fun l => lf_Entry l (e_type e) (e_data e)) Hl1 Hok2 I ltac:(done))
    as (l2 & Hp & Hl2 & Hcfg2).
  exists l1, l2. split_and!; [|done|by rewrite <- (assoc_L (++)) in Hl2|by etrans].
  unfold save_one, Meth.bind at 1. rewrite Hann.
  unfold Meth.bind at 1. rewrite index_entry_ok by done.
  unfold Meth.bind at 1. rewrite Hp. unfold Meth.bind, Meth.modify, Meth.ret.
  f_equal. f_equal. unfold upd, set_lastEntryIndex, set_nextEntry, set_state, set_current. simpl.
  f_equal. rewrite <- Hs1. unfold after_entry, next_of. simpl. by rewrite Hterm.
Qed.

(** The file new entries go to. *)
Definition tail_id w : Z :=
  fd_Id (default emptyDesc (m_filesDesc (w_mgr w) !! u64 (m_nextLogId (w_mgr w) - 1))).

(** The index entry of an entry written behind the records [recs] of file [id]. *)
Definition md_of (id : Z) recs (e : Entry) : EntryIndex EntryIndexMetadata :=
  let len := Z.of_nat (length (e_data e)) in
  Build_EntryIndex (e_term e) (e_index e) (e_type e)
    {| FileId := id; Offset := Z.of_nat (LogFileHeaderLength + length (render 0 recs)) + HeaderSize;
       DataLen := len; DataCapacity := len + (8 - len mod 8) mod 8 |}.

Fixpoint entry_mds (id : Z) recs (ne : WalNextEntry) es : list (EntryIndex EntryIndexMetadata) :=
  match es with
  | [] => []
  | e :: es =>
      let recs := recs ++ announce ne e in
      md_of id recs e :: entry_mds id (recs ++ [REntry (e_type e) (e_data e)]) (next_of e) es
  end.

Lemma index_of_md w l recs e : log_ok l recs →
  index_of w l e = match w_storage w with None => None | Some _ => Some (md_of (tail_id w) recs e) end.
Proof.
  intros Hl. unfold index_of. destruct (w_storage w); [|done].
  unfold entry_index, md_of. simpl. by rewrite (log_offset _ _ Hl).
Qed.

Lemma entry_recs_cons ne e es :
  entry_recs ne (e :: es) = (announce ne e ++ [REntry (e_type e) (e_data e)]) ++ entry_recs (next_of e) es.
Proof. simpl. by rewrite <- (assoc_L (++)). Qed.

Lemma save_loop_ok es w s l recs :
  log_ok l recs → m_filesDesc (w_mgr w) ≠ ∅ →
  recs_ok (crc_after 0 recs) (entry_recs (ws_nextEntry s) es) →
  ∃ l', save_loop es (upd w s l)
      = Ret (upd w (foldl after_entry s es) l',
             Ok (match w_storage w with
                 | None => []
                 | Some _ => entry_mds (tail_id w) recs (ws_nextEntry s) es
                 end)) ∧
    log_ok l' (recs ++ entry_recs (ws_nextEntry s) es) ∧ extends l l'.
Proof.
  revert s l recs. induction es as [|e es IH]; intros s l recs Hl Hne Hok.
  { exists l. simpl. rewrite app_nil_r. split_and!; [by destruct (w_storage w)|done|done]. }
  rewrite entry_recs_cons in Hok. apply recs_ok_app in Hok as [Hok1 Hok2].
  destruct (save_one_ok w s l recs e Hl Hne Hok1) as (l1 & l2 & Hone & Hl1 & Hl2 & Hcfg).
  rewrite <- crc_after_app in Hok2.
  destruct (IH (after_entry s e) l2 _ Hl2 Hne Hok2) as (l' & Hloop & Hl' & Hcfg').
  exists l'. split_and!; [| |by etrans].
  - cbn [save_loop foldl]. unfold Meth.bind at 1. rewrite Hone.
    unfold Meth.bind. rewrite Hloop. unfold Meth.ret. do 3 f_equal. rewrite (index_of_md _ _ _ _ Hl1).
    destruct (w_storage w); [|done]. cbn [option_list app entry_mds]. by rewrite (assoc_L (++)).
  - rewrite entry_recs_cons, (assoc_L (++)). done.
Qed.

(** ** Cycling to a new file *)

(** The records a new file starts with. *)
Definition cycle_recs (crc : Z) s : list Rec :=
  [RCrc crc; RMeta (ws_metadata s); RHard (ws_hardState s)] ++
  (if EmptyNextEntry s then [] else [RNext (ws_nextEntry s)]).

Lemma in_put l recs x f :
  log_ok l recs → rec_ok (crc_after 0 recs) x →
  match x with RSnap s => ValidateSnapshotForWrite s = None | _ => True end →
  (∀ l, f l = lf_put ValidateSnapshotForWrite l x) →
  ∃ l', (∀ S (w : S), in_file f l w = Ret (w, Ok l')) ∧ log_ok l' (recs ++ [x]).
Proof.
  intros Hl Hx Hv Hf. destruct (lf_put_ok ValidateSnapshotForWrite l recs x Hl Hx Hv) as (l' & Hput & Hl' & Hcfg).
  exists l'. split; [|done]. intros S w. unfold in_file. by rewrite Hf, Hput.
Qed.

(** The records that survive a power failure. *)
Definition synced l recs : Prop := file_header ++ render 0 recs `prefix_of` durable (pf (enc_writer l)).

Lemma in_sync l recs b : log_ok l recs →
  ∃ l', (∀ S (w : S), in_file (fun l => lf_Sync l b) l w = Ret (w, Ok l')) ∧ log_ok l' recs ∧
    bufWritePos (enc_writer l') = 0%nat ∧ (b = true → synced l' recs).
Proof.
  intros Hl. destruct (lf_Sync_ok l recs b Hl) as (l' & Hs & Hl' & Hcfg & Hb & _ & Hd).
  exists l'. split_and!; [|done..]. intros S w. unfold in_file. by rewrite Hs.
Qed.

Lemma fill_file_ok s crc l :
  log_ok l [] → recs_ok 0 (cycle_recs crc s) →
  ∃ l', (∀ S (w : S), fill_file s crc l w = Ret (w, Ok l')) ∧ log_ok l' (cycle_recs crc s) ∧
    bufWritePos (enc_writer l') = 0%nat ∧ synced l' (cycle_recs crc s).
Proof.
  intros Hl (Hok1 & Hok2 & Hok3 & Hok4).
  destruct (in_put l [] (RCrc crc) (fun l => lf_Crc l crc) Hl Hok1 I ltac:(done)) as (l1 & H1' & Hl1).
  destruct (in_put l1 _ (RMeta (ws_metadata s)) (fun l => lf_Metadata l (ws_metadata s)) Hl1 Hok2 I ltac:(done))
    as (l2 & H2' & Hl2).
  destruct (in_put l2 _ (RHard (ws_hardState s)) (fun l => lf_HardState l (ws_hardState s)) Hl2 Hok3 I ltac:(done))
    as (l3 & H3' & Hl3).
  assert (∃ l4, (∀ S (w : S), (if EmptyNextEntry s then Meth.ret l3
                 else in_file (fun l => lf_NextEntry l (ws_nextEntry s)) l3) w = Ret (w, Ok l4)) ∧
                log_ok l4 (cycle_recs crc s)) as (l4 & H4' & Hl4).
  { unfold cycle_recs in *. destruct (EmptyNextEntry s).
    - exists l3. by rewrite app_nil_r.
    - destruct Hok4 as [Hok4 _].
      destruct (in_put l3 _ (RNext (ws_nextEntry s)) (fun l => lf_NextEntry l (ws_nextEntry s)) Hl3 Hok4 I ltac:(done))
        as (l4 & H4' & Hl4). by exists l4. }
  destruct (in_sync l4 _ true Hl4) as (l5 & H5' & Hl5 & Hb & Hd).
  exists l5. split_and!; [|done|done|by apply Hd]. intros S w. unfold fill_file, Meth.bind.
  by rewrite H1', H2', H3', H4'.
Qed.

Definition file_desc (id start : Z) (tmp : bool) : LogFileDesc :=
  {| fd_Id := id; fd_StartLogIndex := start; fd_IsTempFile := tmp |}.

Definition next_desc (d : LogFileDesc) s (tmp : bool) : LogFileDesc :=
  file_desc (u64 (fd_Id d + 1)) (u64 (ws_lastEntryIndex s + 1)) tmp.

(** The log after a cycle: the old file cut to its records, the new one current. *)
Definition cycled w s (d : LogFileDesc) (lo ln : LogFile) : Wal :=
  let nd := next_desc d s false in
  {| w_mgr := {| m_cfg := m_cfg (w_mgr w); m_filesDesc := <[fd_Id nd := nd]> (m_filesDesc (w_mgr w));
                 m_nextLogId := u64 (fd_Id nd + 1);
                 m_dir := <[GetLogFileName nd := pf (enc_writer ln)]>
                            (<[w_file w := pf (enc_writer lo)]> (m_dir (w_mgr w))) |};
     w_state := s; w_current := ln; w_file := GetLogFileName nd; w_storage := w_storage w;
     w_enableNoSync := w_enableNoSync w |}.

Lemma bind_ret {S A B} (m : meth S A) (k : A → meth S B) (w w' : S) (a : A) :
  m w = Ret (w', Ok a) → Meth.bind m k w = k a w'.
Proof. unfold Meth.bind. by intros ->. Qed.

Lemma upd_current w s l l' : set_current (upd w s l) l' = upd w s l'.
Proof. unfold upd, set_current, with_dir. simpl. by rewrite insert_insert_eq. Qed.

(** The manager with the next log file. *)
Definition with_next (m : Manager) (id start : Z) (tmp : bool) (name : string) (f : File) : Manager :=
  {| m_cfg := m_cfg m; m_filesDesc := <[id := file_desc id start tmp]> (m_filesDesc m);
     m_nextLogId := u64 (m_nextLogId m + 1); m_dir := <[name := f]> (m_dir m) |}.

(** A new log file, created... *)
Lemma start_file_ok m id start :
  let name := GetTempLogFileName (file_desc id start false) in
  m_nextLogId m = id → m_dir m !! name = None → (0 < AlignmentPageSize (m_cfg m))%nat →
  ∃ f l, CreateNextTempLogFile m id start = (with_next m id start true name f, Ok (l, name)) ∧ log_ok l [].
Proof.
  intros name Hnext Htmp Hpage. unfold CreateNextTempLogFile. rewrite Hnext, decide_False by (by intros []).
  change (GetTempLogFileName {| fd_Id := _; fd_StartLogIndex := _; fd_IsTempFile := true |}) with name.
  destruct (create_file_ok (m_dir m) name (LogFileChunkSize (m_cfg m)) Htmp) as (f & Hf & Hq & Hc & Hw). rewrite Hf.
  exists f. eexists. split; [unfold with_next; by rewrite Hnext|].
  apply open_writer_ok; [done..|by rewrite app_nil_r|done].
Qed.

(** ... and, filled, renamed and opened. *)
Lemma finish_file_ok m id start f l recs :
  let tmp := GetTempLogFileName (file_desc id start false) in
  let name := GetLogFileName (file_desc id start false) in
  let m1 := with_next m id start true tmp f in
  m_dir m !! tmp = None → (0 < AlignmentPageSize (m_cfg m))%nat →
  log_ok l recs → bufWritePos (enc_writer l) = 0%nat →
  ∃ m2 l2, FinalizeTempLogFile (with_dir m1 (<[tmp := pf (enc_writer l)]> (m_dir m1))) id = (m2, None) ∧
    OpenLogFile m2 id (lf_Offset l) (LastCrc l) = Ok (l2, name) ∧ log_ok l2 recs ∧
    pf (enc_writer l2) = pf (enc_writer l) ∧ m2 = with_next m id start false name (pf (enc_writer l2)).
Proof.
  intros tmp name m1 Htmp Hpage Hl Hb.
  destruct (reopen_ok m l recs Hpage Hl Hb) as [Hseek Hl2].
  destruct (log_content _ _ Hl Hb) as [n Hcont].
  eexists _, _. split_and!; [| |exact Hl2|done|].
  - unfold FinalizeTempLogFile. simpl. rewrite lookup_insert_eq.
    change (GetTempLogFileName (file_desc id start true)) with tmp. rewrite lookup_insert_eq. done.
  - unfold OpenLogFile. simpl. rewrite lookup_insert_eq. simpl.
    change (GetLogFileName {| fd_Id := _; fd_StartLogIndex := _; fd_IsTempFile := _ |}) with name.
    rewrite (OpenLogFileHandle_image _ _ (render 0 recs ++ replicate n Byte.x00)).
    + change (GetLogFileName (file_desc id start true)) with name. rewrite lookup_insert_eq, Hseek. done.
    + change (GetLogFileName (file_desc id start true)) with name.
      by rewrite lookup_fmap, lookup_insert_eq, <- Hcont.
  - unfold with_descs, with_dir, with_next. simpl. f_equal.
    + rewrite insert_insert_eq. done.
    + rewrite insert_insert_eq, delete_insert_id; done.
Qed.

Lemma cycle_ok w s l recs d :
  log_ok l recs → m_filesDesc (w_mgr w) !! u64 (m_nextLogId (w_mgr w) - 1) = Some d →
  m_nextLogId (w_mgr w) = u64 (fd_Id d + 1) →
  m_dir (w_mgr w) !! GetTempLogFileName (next_desc d s false) = None →
  w_file w ≠ GetTempLogFileName (next_desc d s false) →
  (0 < AlignmentPageSize (m_cfg (w_mgr w)))%nat → recs_ok 0 (cycle_recs (crc_after 0 recs) s) →
  ∃ lo ln, cycle (upd w s l) = Ret (cycled w s d lo ln, Ok tt) ∧
    content (pf (enc_writer lo)) = file_header ++ render 0 recs ∧ log_ok ln (cycle_recs (crc_after 0 recs) s) ∧
    (w_enableNoSync w = false → synced lo recs) ∧ synced ln (cycle_recs (crc_after 0 recs) s).
Proof.
  intros Hl Hd Hnext Htmp Hfile Hpage Hok.
  destruct (on_sync w s l recs (negb (w_enableNoSync (upd w s l))) Hl) as (l1 & Hs1 & Hl1 & _ & Hb1 & Hd1).
  destruct (lf_Truncate_ok l1 recs Hl1 Hb1) as (Hl2 & _ & Hcont).
  set (lo := lf_Truncate l1) in *. set (w1 := upd w s lo).
  assert (LastCrc lo = crc_after 0 recs) as Hcrc by apply Hl2.
  assert (Htmp1 : m_dir (w_mgr w1) !! GetTempLogFileName (next_desc d s false) = None)
    by (simpl; by rewrite lookup_insert_ne).
  destruct (start_file_ok (w_mgr w1) _ _ Hnext Htmp1 Hpage) as (f & l0 & Hcr & Hl0).
  destruct (fill_file_ok s _ _ Hl0 Hok) as (l3 & Hfill & Hl3 & Hb3 & Hd3).
  destruct (finish_file_ok (w_mgr w1) _ _ f l3 _ Htmp1 Hpage Hl3 Hb3) as (m2 & ln & Hfin & Hop & Hln & Hpf & Hm2).
  set (m1 := with_next _ _ _ true _ f) in *. clearbody m1.
  exists lo, ln. split_and!; [|done|done| |by unfold synced; rewrite Hpf].
  2: { intros Hn. apply Hd1. change (w_enableNoSync (upd w s l)) with (w_enableNoSync w). by rewrite Hn. }
  unfold cycle.
  rewrite (bind_ret _ _ _ (upd w s l) (upd w s l) eq_refl).
  rewrite (bind_ret _ _ _ _ _ Hs1).
  rewrite (bind_ret _ _ _ w1 tt) by (unfold on_log; simpl; by rewrite upd_current).
  rewrite (bind_ret _ _ _ w1 w1 eq_refl).
  rewrite (bind_ret _ _ _ w1 d).
  2: { unfold tailLogFileDesc, LastLogFileDesc. simpl. rewrite decide_False, Hd; [done|].
       intros He. by rewrite He, lookup_empty in Hd. }
  rewrite (bind_ret _ _ _ (set_mgr w1 m1) (l0, GetTempLogFileName (next_desc d s false)))
    by (change (ws_lastEntryIndex (w_state w1)) with (ws_lastEntryIndex s); by rewrite Hcr).
  change (LastCrc (w_current w1)) with (LastCrc lo). change (w_state w1) with s. rewrite Hcrc.
  rewrite (bind_ret _ _ _ _ _ (Hfill Wal (set_mgr w1 m1))).
  rewrite (bind_ret _ _ _ _ _ eq_refl).
  rewrite (bind_ret _ _ _ (set_mgr w1 m2) tt)
    by (unfold close_file; simpl; unfold next_desc; by rewrite Hfin).
  rewrite (bind_ret _ _ _ _ _ eq_refl). change (w_mgr (set_mgr w1 m2)) with m2.
  rewrite (bind_ret _ _ _ (set_mgr w1 m2) (ln, GetLogFileName (next_desc d s false)))
    by (unfold lift_result; by rewrite Hop).
  unfold Meth.modify, cycled. do 2 f_equal. rewrite Hm2. unfold with_next.
  change (m_nextLogId (w_mgr w1)) with (m_nextLogId (w_mgr w)). by rewrite Hnext.
Qed.

(** ** A whole save *)

(** What saving entries does to the entry index storage, when it accepts them. *)
Definition storage_save (sto : option (EntryStorage EntryIndexMetadata))
    (mds : list (EntryIndex EntryIndexMetadata)) es sto' : Prop :=
  match sto with
  | None => sto' = None
  | Some e0 => ∃ e1 e2, AppendEntryIndex zero_metadata e0 mds = Ret (e1, None) ∧
                 AppendCache e1 es = Ret e2 ∧ sto' = Some e2
  end.
Definition storage_commit (sto : option (EntryStorage EntryIndexMetadata)) (st : HardState) :=
  if IsEmptyHardState st then sto
  else match sto with Some e0 => Some (DeleteCache e0 (hs_commit st)) | None => None end.

Lemma set_storage_same w : set_storage w (w_storage w) = w.
Proof. by destruct w. Qed.

Lemma saveEntry_ok w s l recs es sto' :
  log_ok l recs → m_filesDesc (w_mgr w) ≠ ∅ →
  recs_ok (crc_after 0 recs) (entry_recs (ws_nextEntry s) es) →
  storage_save (w_storage w) (entry_mds (tail_id w) recs (ws_nextEntry s) es) es sto' →
  ∃ l', saveEntry es (upd w s l) = Ret (upd (set_storage w sto') (foldl after_entry s es) l', Ok tt) ∧
    log_ok l' (recs ++ entry_recs (ws_nextEntry s) es) ∧ extends l l'.
Proof.
  intros Hl Hne Hok Hsto. destruct (save_loop_ok es w s l recs Hl Hne Hok) as (l' & Hloop & Hl' & Hext).
  exists l'. split; [|done]. unfold saveEntry. rewrite (bind_ret _ _ _ _ _ Hloop).
  change (w_storage (upd w _ l')) with (w_storage w). unfold storage_save in Hsto.
  destruct (w_storage w) as [e0|] eqn:Hw.
  - destruct Hsto as (e1 & e2 & -> & Hc & ->). simpl. rewrite Hc. done.
  - subst. rewrite <- Hw. by rewrite set_storage_same.
Qed.

Lemma saveHardState_ok w s l recs st :
  log_ok l recs → recs_ok (crc_after 0 recs) (hs_recs st) →
  ∃ l', saveHardState st (upd w s l)
      = Ret (upd (set_storage w (storage_commit (w_storage w) st)) (after_hs s st) l', Ok tt) ∧
    log_ok l' (recs ++ hs_recs st) ∧ extends l l'.
Proof.
  intros Hl Hok. unfold saveHardState, storage_commit, after_hs, hs_recs in *.
  destruct (IsEmptyHardState st).
  - exists l. rewrite set_storage_same, app_nil_r. split; [|done]. by destruct s.
  - destruct Hok as [Hok _].
    destruct (on_put w s l recs _ (fun l => lf_HardState l st) Hl Hok I ltac:(done)) as (l' & Hp & Hl' & Hext).
    exists l'. split; [|done]. by rewrite (bind_ret _ _ _ _ _ Hp).
Qed.

Definition save_recs (ne : WalNextEntry) es (st : HardState) : list Rec := entry_recs ne es ++ hs_recs st.
Definition save_state s es (st : HardState) : walState := after_hs (foldl after_entry s es) st.

(** The storage after a save. *)
Definition storage_after w (recs : list Rec) s es (st : HardState) sto2 : Prop :=
  ∃ sto1, (if decide (es = []) then sto1 = w_storage w
           else storage_save (w_storage w) (entry_mds (tail_id w) recs (ws_nextEntry s) es) es sto1) ∧
    sto2 = storage_commit sto1 st.

Lemma save_writes w s l recs es st sto2 :
  log_ok l recs → m_filesDesc (w_mgr w) ≠ ∅ →
  recs_ok (crc_after 0 recs) (save_recs (ws_nextEntry s) es st) →
  storage_after w recs s es st sto2 →
  ∃ l', Meth.bind (if decide (es = []) then Meth.ret tt else saveEntry es) (fun _ => saveHardState st) (upd w s l)
      = Ret (upd (set_storage w sto2) (save_state s es st) l', Ok tt) ∧
    log_ok l' (recs ++ save_recs (ws_nextEntry s) es st) ∧ extends l l'.
Proof.
  intros Hl Hne [Hok1 Hok2]%recs_ok_app (sto1 & Hsto & ->). rewrite <- crc_after_app in Hok2.
  assert (∃ l1, (if decide (es = []) then Meth.ret tt else saveEntry es) (upd w s l)
      = Ret (upd (set_storage w sto1) (foldl after_entry s es) l1, Ok tt) ∧
    log_ok l1 (recs ++ entry_recs (ws_nextEntry s) es) ∧ extends l l1) as (l1 & Hs1 & Hl1 & He1).
  { destruct (decide (es = [])) as [->|Hes].
    - exists l. subst. rewrite set_storage_same. simpl. by rewrite app_nil_r.
    - by apply saveEntry_ok. }
  rewrite (bind_ret _ _ _ _ _ Hs1).
  destruct (saveHardState_ok (set_storage w sto1) (foldl after_entry s es) l1 _ st Hl1 Hok2) as (l2 & Hs2 & Hl2 & He2).
  exists l2. unfold save_recs. rewrite (assoc_L (++)). split_and!; [|done|by etrans]. by rewrite Hs2.
Qed.

(** What a save leaves: the records appended to the current file, or that file closed
    with them and a new one started. *)
Inductive saved w2 s2 recs2 (d : LogFileDesc) (flush : Prop) (l0 : LogFile) : Wal → Prop :=
| saved_same l : log_ok l recs2 → extends l0 l →
    (flush → bufWritePos (enc_writer l) = 0%nat ∧ (w_enableNoSync w2 = false → synced l recs2)) →
    saved w2 s2 recs2 d flush l0 (upd w2 s2 l)
| saved_cycled lo ln : content (pf (enc_writer lo)) = file_header ++ render 0 recs2 →
    log_ok ln (cycle_recs (crc_after 0 recs2) s2) →
    (w_enableNoSync w2 = false → synced lo recs2) → synced ln (cycle_recs (crc_after 0 recs2) s2) →
    saved w2 s2 recs2 d flush l0 (cycled w2 s2 d lo ln).

Lemma Save_ok w s l recs es st sto2 d :
  log_ok l recs →
  m_filesDesc (w_mgr w) !! u64 (m_nextLogId (w_mgr w) - 1) = Some d →
  m_nextLogId (w_mgr w) = u64 (fd_Id d + 1) →
  m_dir (w_mgr w) !! GetTempLogFileName (next_desc d (save_state s es st) false) = None →
  w_file w ≠ GetTempLogFileName (next_desc d (save_state s es st) false) →
  (0 < AlignmentPageSize (m_cfg (w_mgr w)))%nat →
  recs_ok (crc_after 0 recs) (save_recs (ws_nextEntry s) es st) →
  recs_ok 0 (cycle_recs (crc_after 0 (recs ++ save_recs (ws_nextEntry s) es st)) (save_state s es st)) →
  storage_after w recs s es st sto2 →
  ∃ w', Save st es (upd w s l) = Ret (w', Ok tt) ∧
    saved (set_storage w sto2) (save_state s es st) (recs ++ save_recs (ws_nextEntry s) es st) d (es ≠ []) l w'.
Proof.
  intros Hl Hd Hnext Htmp Hfile Hpage Hok Hok2 Hsto.
  assert (m_filesDesc (w_mgr w) ≠ ∅) as Hne by (intros He; by rewrite He, lookup_empty in Hd).
  destruct (save_writes w s l recs es st sto2 Hl Hne Hok Hsto) as (l' & Hw & Hl' & Hext).
  set (w2 := set_storage w sto2) in *. set (s2 := save_state s es st) in *.
  assert (Save st es (upd w s l) =
    (if DoCycle l' then cycle
     else if MustSync st (ws_hardState s2) (length es) then on_log (fun l => lf_Sync l (negb (w_enableNoSync w2)))
     else Meth.ret tt) (upd w2 s2 l')) as ->.
  { unfold Save. unfold Meth.bind in Hw |- *.
    destruct ((if decide (es = []) then Meth.ret tt else saveEntry es) (upd w s l)) as [[w1 [[]|]]|]; try done.
    by rewrite Hw. }
  destruct (DoCycle l').
  - destruct (cycle_ok w2 s2 l' _ d Hl') as (lo & ln & Hc & Hcont & Hln & Hd1 & Hd2); [done..|].
    eexists. split; [done|]. by apply saved_cycled.
  - destruct (MustSync st (ws_hardState s2) (length es)) eqn:Hms.
    + destruct (on_sync w2 s2 l' _ (negb (w_enableNoSync w2)) Hl') as (l3 & Hs3 & Hl3 & Hext3 & Hb & Hd3).
      eexists. split; [done|]. apply saved_same; [done|by etrans|]. intros _. split; [done|].
      intros Hn. apply Hd3. by rewrite Hn.
    + eexists. split; [done|]. apply saved_same; [done|done|]. intros Hes. exfalso.
      apply not_true_iff_false in Hms. apply Hms, MustSync_spec. left. by destruct es.
Qed.
(** A vote may not reach the disk.  Raft requires a hard state with a new vote or
    term to be synced before it is acted on, but [Save] compares the state with itself,
    the one it has just stored: without entries it returns without a sync, unless the
    file is full, and stable storage is as it was before. *)
Theorem vote_not_synced w st w1 :
  IsEmptyHardState st = false → MustSync st (ws_hardState (w_state w)) 0 = true →
  saveHardState st w = Ret (w1, Ok tt) →
  Save st [] w = (if DoCycle (w_current w1) then cycle w1 else Ret (w1, Ok tt)) ∧
  durable (pf (enc_writer (w_current w1))) = durable (pf (enc_writer (w_current w))).
Proof.
  intros Hst _ Hs. assert (ws_hardState (w_state w1) = st ∧
    durable (pf (enc_writer (w_current w1))) = durable (pf (enc_writer (w_current w)))) as [Hhs Hd].
  { unfold saveHardState in Hs. rewrite Hst in Hs. unfold Meth.bind in Hs at 1. unfold on_log in Hs.
    destruct (lf_HardState (w_current w) st) as [[l' [e|]]|] eqn:Hl; cbn [mbind go_bind] in Hs; [done| |done].
    unfold Meth.bind, Meth.modify in Hs. injection Hs as <-. split; [done|].
    simpl. unfold lf_HardState in Hl. by apply Encode_durable in Hl. }
  split; [|done]. unfold Save. rewrite decide_True by done. rewrite (bind_ret _ _ _ w tt eq_refl).
  rewrite (bind_ret _ _ _ _ _ Hs), (bind_ret _ _ _ w1 w1 eq_refl). destruct (DoCycle (w_current w1)); [done|].
  assert (MustSync st (ws_hardState (w_state w1)) (length (A := Entry) []) = false) as ->; [|done].
  apply not_true_iff_false. intros Hm%MustSync_spec. rewrite Hhs in Hm. simpl in Hm. intuition congruence.
Qed.
Lemma bind_inv {S A B} (m : meth S A) (k : A → meth S B) (w w' : S) (b : B) :
  Meth.bind m k w = Ret (w', Ok b) → ∃ (w1 : S) (a : A), m w = Ret (w1, Ok a) ∧ k a w1 = Ret (w', Ok b).
Proof. unfold Meth.bind. destruct (m w) as [[w1 [a|e]]|]; [|done..]. intros Hk. by exists w1, a. Qed.

Lemma on_log_state f w w' : on_log f w = Ret (w', Ok tt) → w_state w' = w_state w.
Proof.
  unfold on_log. destruct (f (w_current w)) as [[l [e|]]|]; cbn [mbind go_bind]; [done| |done].
  by intros [= <-].
Qed.

Lemma in_file_same {S} f l (w w' : S) l' : in_file f l w = Ret (w', Ok l') → w' = w.
Proof.
  unfold in_file. destruct (f l) as [[l1 [e|]]|]; cbn [mbind go_bind]; [done| |done]. by intros [= <- _].
Qed.

Lemma fill_file_same {S} s crc l (w w' : S) l' : fill_file s crc l w = Ret (w', Ok l') → w' = w.
Proof.
  unfold fill_file. intros (w1 & l1 & H1'%in_file_same & Hk)%bind_inv. subst w1.
  apply bind_inv in Hk as (w1 & l2 & H1'%in_file_same & Hk). subst w1.
  apply bind_inv in Hk as (w1 & l3 & H1'%in_file_same & Hk). subst w1.
  apply bind_inv in Hk as (w1 & l4 & H1' & Hk). apply in_file_same in Hk as ->.
  destruct (EmptyNextEntry s); [by injection H1' as <-|by apply in_file_same in H1'].
Qed.

(** The new file of a cycle starts behind the last entry the log knows of. *)
Lemma cycle_start w w' : cycle w = Ret (w', Ok tt) → ∃ id,
  let f := file_desc id (u64 (ws_lastEntryIndex (w_state w) + 1)) false in
  w_file w' = GetLogFileName f ∧ m_filesDesc (w_mgr w') !! id = Some f.
Proof.
  unfold cycle. intros (w0 & wg & Hg & Hk)%bind_inv. injection Hg as <- <-.
  apply bind_inv in Hk as (w1 & [] & Hs1%on_log_state & Hk).
  apply bind_inv in Hk as (w2 & [] & Hs2%on_log_state & Hk).
  apply bind_inv in Hk as (w3 & wg & Hg & Hk). injection Hg as <- <-.
  apply bind_inv in Hk as (w3 & d & Hd & Hk).
  assert (w3 = w2) as -> by (unfold tailLogFileDesc in Hd; destruct (LastLogFileDesc _); by simplify_eq).
  clear Hd. set (id := u64 (fd_Id d + 1)) in *.
  apply bind_inv in Hk as (w3 & [l name] & Hc & Hk). rewrite Hs2, Hs1 in Hc.
  destruct (CreateNextTempLogFile (w_mgr w2) id _) as [m1 r] eqn:Hcr. simplify_eq.
  unfold CreateNextTempLogFile in Hcr. case_decide; [by simplify_eq|].
  destruct (create_file _ _ _) as [f [e|]]; [by simplify_eq|]. injection Hcr as <- _ _.
  apply bind_inv in Hk as (w4 & l1 & Hf%fill_file_same & Hk). subst w4.
  apply bind_inv in Hk as (w4 & [] & Hcl & Hk). injection Hcl as <-.
  apply bind_inv in Hk as (w5 & [] & Hfin & Hk). unfold FinalizeTempLogFile in Hfin. simpl in Hfin.
  rewrite lookup_insert_eq in Hfin. destruct (_ !! _) as [ft|] eqn:Hft in Hfin; [|by simplify_eq].
  injection Hfin as <-. apply bind_inv in Hk as (w6 & wg & Hg & Hk). injection Hg as <- <-.
  apply bind_inv in Hk as (w6 & [lo no] & Ho & Hk). injection Hk as <-. unfold lift_result in Ho. injection Ho as <- Ho.
  exists id. simpl. unfold OpenLogFile in Ho. simpl in Ho. rewrite lookup_insert_eq in Ho |- *. split; [|done].
  by repeat case_match; simplify_eq/=.
Qed.

(** A log that cycles right after it was opened hides its older files.  [OpenWal] does
    not restore the index of the last entry, so the new file claims to start at entry 1;
    a replay from any snapshot then reads this file only, whatever entries the files
    before it hold. *)
Theorem reopened_cycle_hides {C} m (r : ReplayResult C) w w' :
  OpenWal m r = Ok w → cycle w = Ret (w', Ok tt) → ∃ f,
    w_file w' = GetLogFileName f ∧ m_filesDesc (w_mgr w') !! fd_Id f = Some f ∧ fd_StartLogIndex f = 1 ∧
    ∀ older snapIndex, 1 <= snapIndex → needed (older ++ [f]) snapIndex = [f].
Proof.
  intros Ho (id & Hf & Hd)%cycle_start. unfold OpenWal in Ho.
  destruct (OpenLogFile _ _ _ _) as [[l name]|]; [|done]. injection Ho as <-. simpl in Hf, Hd.
  eexists. split_and!; [exact Hf|exact Hd|done|]. intros older snap Hsnap. apply needed_app; [constructor|done].
Qed.
End Written.

(** ** What a replay makes of the records *)

Section Replayed.
Context `{RaftLib} `{BufferPool} `{Message HardState} `{Message WalNextEntry} `{Message WalSnapshot}.
Implicit Types (p : Parser EntryStore) (es ents : list Entry).

(** The parser has seen this metadata, hard state, expected entry and entries. *)
Record seen p (md : list byte) (hs : HardState) (ne : WalNextEntry) ents : Prop := {
  seen_start : ws_index (p_startSnapshot p) = 0;
  seen_md : rr_metadata (p_result p) = md;
  seen_hs : rr_hardState (p_result p) = hs;
  seen_ne : rr_nextEntry (p_result p) = ne;
  seen_ents : rr_entries (p_result p) = ents
}.

Lemma step_crc p md hs ne ents c : seen p md hs ne ents →
  ∃ p', rec_step p (RCrc c) = (p', None) ∧ seen p' md hs ne ents ∧ p_findNextEntry p' = p_findNextEntry p.
Proof. intros []. eexists. split; [done|]. split; [by split|done]. Qed.

Lemma step_meta p md hs ne ents b : seen p md hs ne ents →
  ∃ p', rec_step p (RMeta b) = (p', None) ∧ seen p' b hs ne ents ∧ p_findNextEntry p' = p_findNextEntry p.
Proof. intros []. eexists. split; [done|]. split; [by split|done]. Qed.

Lemma step_hard p md hs ne ents st : seen p md hs ne ents →
  ∃ p', rec_step p (RHard st) = (p', None) ∧ seen p' md st ne ents ∧ p_findNextEntry p' = p_findNextEntry p.
Proof.
  intros []. unfold rec_step, log_switch. cbn [rec_type rec_body]. rewrite unmarshal_marshal.
  eexists. split; [done|]. split; [by split|done].
Qed.

Lemma step_next p md hs ne ents ne' : seen p md hs ne ents →
  ∃ p', rec_step p (RNext ne') = (p', None) ∧ seen p' md hs ne' ents ∧ p_findNextEntry p' = true.
Proof.
  intros []. unfold rec_step, log_switch. cbn [rec_type rec_body]. rewrite unmarshal_marshal.
  eexists. split; [done|]. split; [by split|done].
Qed.

Lemma step_entry p md hs ents e :
  seen p md hs {| NextTerm := e_term e; NextIndex := e_index e |} ents → p_findNextEntry p = true →
  e_type e = 0 ∨ e_type e = 1 ∨ e_type e = 2 →
  1 <= e_index e <= Z.of_nat (length ents) + 1 → e_index e < 2 ^ 63 →
  ∃ p', rec_step p (REntry (e_type e) (e_data e)) = (p', None) ∧
    seen p' md hs (next_of e) (take (Z.to_nat (e_index e - 1)) ents ++ [e]) ∧ p_findNextEntry p' = true.
Proof.
  intros [Hst Hmd Hhs Hne Hents] Hfound Ht Hix Hfit. unfold rec_step, log_switch. cbn [rec_type rec_body].
  set (q := set_crc p _).
  assert (p_findNextEntry q = true ∧ rr_nextEntry (p_result q) = {| NextTerm := e_term e; NextIndex := e_index e |}
    ∧ rr_entries (p_result q) = ents ∧ ws_index (p_startSnapshot q) = 0) as (-> & Hqn & Hqe & Hqs) by done.
  rewrite decide_False by (unfold LogTypeNextEntry; lia).
  rewrite decide_True by (unfold LogTypeNormalEntry, LogTypeConfChangeEntry, LogTypeConfChangeV2Entry; lia).
  cbn [ec_parses ec_decode entry_store]. unfold EntryStore_Decode. rewrite Hqn, Hqe, Hqs.
  cbn [NextTerm NextIndex e_index].
  unfold put_entry. rewrite decide_True by lia. rewrite u64_small by lia. rewrite Z.sub_0_r.
  rewrite decide_False by lia. simpl. eexists. split; [done|]. split; [|done].
  split; simpl; try done.
  - by rewrite Hne.
  - do 3 f_equal. by destruct e.
Qed.

(** Where an entry is read without an announcement, one has been read before. *)
Definition announced p (ne : WalNextEntry) : Prop := p_findNextEntry p = true ∨ ne = emptyNextEntry.

Lemma run_announce p md hs ne ents e :
  seen p md hs ne ents → announced p ne → 1 <= e_index e →
  ∃ p', rec_run p (announce ne e) = (p', None) ∧
    seen p' md hs {| NextTerm := e_term e; NextIndex := e_index e |} ents ∧ p_findNextEntry p' = true.
Proof.
  intros Hs Ha Hi. unfold announce. destruct (decide _) as [Hd|Hd].
  - destruct (step_next _ _ _ _ _ {| NextTerm := e_term e; NextIndex := e_index e |} Hs) as (p' & Hp & Hs' & Hf).
    exists p'. cbn [rec_run]. by rewrite Hp.
  - exists p. assert (NextTerm ne = e_term e ∧ NextIndex ne = e_index e) as [Ht Hx].
    { destruct (decide (NextTerm ne = e_term e)), (decide (NextIndex ne = e_index e)); tauto. }
    assert (ne = {| NextTerm := e_term e; NextIndex := e_index e |}) as <- by (destruct ne; simpl in *; congruence).
    split_and!; [done|done|]. destruct Ha as [Ha| ->]; [done|]. simpl in Hx. lia.
Qed.

Lemma rec_run_app p p1 l1 l2 : rec_run p l1 = (p1, None) → rec_run p (l1 ++ l2) = rec_run p1 l2.
Proof.
  revert p. induction l1 as [|x l1 IH]; intros p Hrun; simpl in *; [by simplify_eq|].
  destruct (rec_step p x) as [p2 [e|]]; [done|by apply IH].
Qed.

(** Entries of the types raft has. *)
Definition typed es : Prop := Forall (λ e, e_type e = 0 ∨ e_type e = 1 ∨ e_type e = 2) es.

(** Replaying saved entries replaces everything from the first of them on. *)
Lemma run_entries es p md hs ne ents lo :
  seen p md hs ne ents → announced p ne → indexed e_index lo es → typed es →
  1 <= lo <= Z.of_nat (length ents) + 1 → lo + Z.of_nat (length es) < 2 ^ 63 → es ≠ [] →
  ∃ p' ne', rec_run p (entry_recs ne es) = (p', None) ∧
    ne' = default ne (next_of <$> last es) ∧
    seen p' md hs ne' (take (Z.to_nat (lo - 1)) ents ++ es) ∧ p_findNextEntry p' = true.
Proof.
  revert p ne ents lo. induction es as [|e es IH]; intros p ne ents lo Hs Ha Hix Hty Hlo Hfit Hne; [done|].
  apply indexed_cons in Hix as [He Hix]. apply Forall_cons in Hty as [Ht Hty]. simpl in Hfit.
  destruct (run_announce p md hs ne ents e Hs Ha ltac:(lia)) as (p1 & Hr1 & Hs1 & Hf1).
  destruct (step_entry p1 md hs ents e Hs1 Hf1 Ht ltac:(lia) ltac:(lia)) as (p2 & Hr2 & Hs2 & Hf2).
  cbn [entry_recs]. rewrite (rec_run_app _ _ _ _ Hr1). cbn [rec_run]. rewrite Hr2. rewrite He in Hs2.
  destruct es as [|e' es].
  - exists p2, (next_of e). done.
  - destruct (IH p2 (next_of e) (take (Z.to_nat (lo - 1)) ents ++ [e]) (lo + 1)) as (p' & ne' & Hr & Hne' & Hs' & Hf');
      [done|by left|done|done|rewrite length_app, length_take; simpl; lia|simpl; simpl in Hfit; lia|done|].
    exists p', ne'. split_and!; [done| | |done].
    + rewrite Hne'. change (last (e :: e' :: es)) with (last (e' :: es)).
      destruct (last (e' :: es)) as [x|] eqn:El; [done|by apply last_None in El].
    + rewrite take_ge in Hs' by (rewrite length_app, length_take; simpl; lia).
      rewrite <- (assoc_L (++)) in Hs'. done.
Qed.

Lemma run_hs p md hs ne ents st : seen p md hs ne ents → announced p ne →
  ∃ p', rec_run p (hs_recs st) = (p', None) ∧
    seen p' md (if IsEmptyHardState st then hs else st) ne ents ∧ announced p' ne.
Proof.
  intros Hs Ha. unfold hs_recs. destruct (IsEmptyHardState st).
  - by exists p.
  - destruct (step_hard _ _ _ _ _ st Hs) as (p' & Hp & Hs' & Hf). exists p'. cbn [rec_run]. rewrite Hp.
    split_and!; [done..|]. destruct Ha as [Ha|Ha]; [left; by rewrite Hf|by right].
Qed.

Lemma run_cycle p d md hs ne ents crc s :
  seen p md hs ne ents → announced p ne →
  ws_metadata s = md → ws_hardState s = hs → ws_nextEntry s = ne →
  ∃ p', rec_run (opened p d) (cycle_recs crc s) = (p', None) ∧ seen p' md hs ne ents ∧ announced p' ne.
Proof.
  intros Hs Ha Hmd Hhs Hne.
  assert (seen (opened p d) md hs ne ents) as Hs0 by (by destruct Hs; split).
  destruct (step_crc _ _ _ _ _ crc Hs0) as (p1 & Hr1 & Hs1 & _).
  destruct (step_meta _ _ _ _ _ md Hs1) as (p2 & Hr2 & Hs2 & _).
  destruct (step_hard _ _ _ _ _ hs Hs2) as (p3 & Hr3 & Hs3 & _).
  unfold cycle_recs. rewrite Hmd, Hhs, Hne. cbn [app rec_run]. rewrite Hr1, Hr2, Hr3.
  destruct (EmptyNextEntry s) eqn:He.
  - exists p3. split_and!; [done..|]. right. unfold EmptyNextEntry in He.
    apply bool_decide_eq_true in He as [Ht Hi]. rewrite Hne in Ht, Hi. destruct ne; simpl in *. by subst.
  - destruct (step_next _ _ _ _ _ ne Hs3) as (p4 & Hr4 & Hs4 & Hf4). cbn [rec_run]. rewrite Hr4.
    exists p4. split_and!; [done..|by left].
Qed.

(** ** The log on disk *)

(** The log [w] consists of the closed files [logs] and the current file [d] with the
    records [recs]; replaying them gives the log's state and the entries [ents]. *)
Record wal_inv (w : Wal) (logs : Logs) (d : LogFileDesc) (recs : list Rec) ents : Prop := {
  wi_log : log_ok (w_current w) recs;
  wi_dir : m_dir (w_mgr w) !! w_file w = Some (pf (enc_writer (w_current w)));
  wi_file : w_file w = GetLogFileName d;
  wi_page : (0 < AlignmentPageSize (m_cfg (w_mgr w)))%nat;
  wi_ids : indexed fd_Id 0 (logs.*1 ++ [d]);
  wi_u64 : Forall desc_ok (logs.*1 ++ [d]);
  wi_final : Forall (λ f, fd_IsTempFile f = false) (logs.*1 ++ [d]);
  wi_later : Forall (λ f, 0 < fd_StartLogIndex f) (drop 1 (logs.*1 ++ [d]));
  wi_last : 0 <= ws_lastEntryIndex (w_state w) < 2 ^ 62;
  wi_ents : indexed e_index 1 ents ∧ Z.of_nat (length ents) + 1 < 2 ^ 61;
  wi_next : m_nextLogId (w_mgr w) = u64 (fd_Id d + 1);
  wi_descs : ∀ f, f ∈ logs.*1 ++ [d] → m_filesDesc (w_mgr w) !! fd_Id f = Some f;
  wi_names : ∀ name, is_Some (m_dir (w_mgr w) !! name) → ∃ f, f ∈ logs.*1 ++ [d] ∧ name = GetLogFileName f;
  wi_holds : holds (content <$> m_dir (w_mgr w)) logs;
  wi_starts : starts_crc recs;
  wi_recs : recs_ok 0 recs;
  wi_replay : ∃ p, logs_run (fresh EmptyWalpbSnapshot) (logs ++ [(d, recs)]) = (p, None) ∧
    seen p (ws_metadata (w_state w)) (ws_hardState (w_state w)) (ws_nextEntry (w_state w)) ents ∧
    announced p (ws_nextEntry (w_state w))
}.

Lemma upd_self w logs d recs ents : wal_inv w logs d recs ents → upd w (w_state w) (w_current w) = w.
Proof.
  intros Hw. unfold upd, set_state, set_current, with_dir. simpl.
  rewrite insert_id by apply (wi_dir _ _ _ _ _ Hw). by destruct w as [[] []].
Qed.

Lemma wal_tail w logs d recs ents : wal_inv w logs d recs ents →
  Z.of_nat (length logs) + 1 < 2 ^ 64 →
  fd_Id d = Z.of_nat (length logs) ∧ m_filesDesc (w_mgr w) !! u64 (m_nextLogId (w_mgr w) - 1) = Some d.
Proof.
  intros Hw Hlen. pose proof (wi_ids _ _ _ _ _ Hw) as Hix. apply indexed_app in Hix as [_ [Hd _]%indexed_cons].
  rewrite length_fmap in Hd. split; [lia|]. rewrite (wi_next _ _ _ _ _ Hw), Hd.
  rewrite (u64_small (_ + 1)), u64_small by lia. replace (0 + Z.of_nat (length logs) + 1 - 1) with (fd_Id d) by lia.
  apply (wi_descs _ _ _ _ _ Hw). apply elem_of_app. right. by apply list_elem_of_singleton.
Qed.

Lemma temp_name_ne a b : GetTempLogFileName a ≠ GetLogFileName b.
Proof.
  intros Heq. apply (f_equal String.length) in Heq. rewrite length_GetLogFileName in Heq.
  unfold GetTempLogFileName, hex16 in Heq. rewrite length_hex_digits in Heq. cbn [String.length] in Heq.
  rewrite length_hex_digits in Heq. simpl in Heq. lia.
Qed.

Lemma wal_no_temp w logs d recs ents nd : wal_inv w logs d recs ents →
  m_dir (w_mgr w) !! GetTempLogFileName nd = None.
Proof.
  intros Hw. destruct (m_dir (w_mgr w) !! GetTempLogFileName nd) as [f|] eqn:E; [|done].
  destruct (wi_names _ _ _ _ _ Hw (GetTempLogFileName nd)) as (f' & _ & Heq); [by rewrite E|].
  by apply temp_name_ne in Heq.
Qed.

(** The names of the files of a log are distinct. *)
Lemma log_names (logs : Logs) d f : indexed fd_Id 0 (logs.*1 ++ [d]) → Forall desc_ok (logs.*1 ++ [d]) →
  f ∈ logs → GetLogFileName f.1 ≠ GetLogFileName d.
Proof.
  intros Hix Hu Hf Heq. apply Forall_app in Hu as [Hu [Hd _]%Forall_cons].
  rewrite Forall_forall in Hu. assert (f.1 ∈ logs.*1) as Hin by (apply list_elem_of_fmap; eauto).
  destruct (Hu _ Hin), Hd. apply GetLogFileName_inj in Heq as [Hid _]; [|done..].
  apply indexed_app in Hix as [Hix [Hd _]%indexed_cons]. apply list_elem_of_lookup in Hin as [i Hi].
  pose proof (Hix _ _ Hi). apply lookup_lt_Some in Hi. lia.
Qed.

(** The entries of the log after entries were saved. *)
Definition put_entries ents es : list Entry :=
  match es with
  | [] => ents
  | e :: _ => take (Z.to_nat (e_index e - 1)) ents ++ es
  end.

(** Entries raft may save behind [ents]: consecutive, leaving no gap. *)
Definition appendable ents es : Prop :=
  es = [] ∨ ∃ lo, indexed e_index lo es ∧ 1 <= lo <= Z.of_nat (length ents) + 1 ∧
    lo + Z.of_nat (length es) < 2 ^ 61 ∧ typed es.

Lemma put_indexed ents es :
  indexed e_index 1 ents ∧ Z.of_nat (length ents) + 1 < 2 ^ 61 → appendable ents es →
  indexed e_index 1 (put_entries ents es) ∧ Z.of_nat (length (put_entries ents es)) + 1 < 2 ^ 61.
Proof.
  intros [Hix Hlen] [->|(lo & Hes & Hlo & Hfit & _)]; [done|]. destruct es as [|e es]; [done|].
  pose proof (proj1 (indexed_cons _ _ _ _) Hes) as [He _]. unfold put_entries. rewrite He. split.
  - apply indexed_app. split; [by apply indexed_take|]. rewrite length_take.
    by replace (1 + Z.of_nat _) with lo by lia.
  - rewrite length_app, length_take. lia.
Qed.

Lemma run_save p s ents es st :
  seen p (ws_metadata s) (ws_hardState s) (ws_nextEntry s) ents → announced p (ws_nextEntry s) →
  appendable ents es →
  let s2 := save_state s es st in
  ∃ p', rec_run p (save_recs (ws_nextEntry s) es st) = (p', None) ∧
    seen p' (ws_metadata s2) (ws_hardState s2) (ws_nextEntry s2) (put_entries ents es) ∧
    announced p' (ws_nextEntry s2).
Proof.
  intros Hs Ha Happ s2.
  assert (∀ l s0, ws_metadata (foldl after_entry s0 l) = ws_metadata s0 ∧
    ws_hardState (foldl after_entry s0 l) = ws_hardState s0 ∧
    ws_nextEntry (foldl after_entry s0 l) = default (ws_nextEntry s0) (next_of <$> last l)) as Hfold.
  { intros l. induction l as [|e l IH]; intros s0; [done|]. cbn [foldl].
    destruct (IH (after_entry s0 e)) as (-> & -> & ->). split_and!; [done..|].
    destruct l as [|e' l]; [done|]. change (last (e :: e' :: l)) with (last (e' :: l)).
    by destruct (last (e' :: l)) eqn:El; [|apply last_None in El]. }
  destruct (Hfold es s) as (Hmd & Hhs & Hne).
  assert (∃ p1, rec_run p (entry_recs (ws_nextEntry s) es) = (p1, None) ∧
    seen p1 (ws_metadata s) (ws_hardState s) (ws_nextEntry (foldl after_entry s es)) (put_entries ents es) ∧
    announced p1 (ws_nextEntry (foldl after_entry s es))) as (p1 & Hr1 & Hs1 & Ha1).
  { destruct Happ as [->|(lo & Hix & Hlo & Hfit & Hty)]; [by exists p|].
    destruct es as [|e es]; [by exists p|].
    destruct (run_entries (e :: es) p _ _ _ ents lo Hs Ha Hix Hty Hlo ltac:(lia) ltac:(done))
      as (p1 & ne' & Hr & Hne' & Hs1 & Hf). exists p1. rewrite Hne, <- Hne'.
    apply indexed_cons in Hix as [He _]. simpl put_entries. rewrite He. split_and!; [done|done|by left]. }
  destruct (run_hs p1 _ _ _ _ st Hs1 Ha1) as (p2 & Hr2 & Hs2 & Ha2).
  exists p2. unfold save_recs. rewrite (rec_run_app _ _ _ _ Hr1). split; [done|].
  unfold s2, save_state, after_hs. simpl. by rewrite Hmd, Hhs.
Qed.

Lemma starts_app l1 l2 : starts_crc l1 → starts_crc (l1 ++ l2).
Proof. by destruct l1 as [|[]]. Qed.

Lemma logs_run_last {C} `{EntryCollection C} (p p' : Parser C) logs d recs :
  logs_run p (logs ++ [(d, recs)]) = (p', None) →
  ∃ p0 : Parser C, logs_run p logs = (p0, None) ∧ rec_run (opened p0 d) recs = (p', None).
Proof.
  intros (p0 & Hr & Hl)%logs_run_split. exists p0. split; [done|]. simpl in Hl.
  by destruct (rec_run (opened p0 d) recs) as [p1 [e|]]; simplify_eq.
Qed.

Lemma logs_run_snoc p p0 p' logs d recs :
  logs_run p logs = (p0, None) → rec_run (opened p0 d) recs = (p', None) →
  logs_run p (logs ++ [(d, recs)]) = (p', None).
Proof. intros Hr Hl. rewrite (logs_run_app _ _ _ _ Hr). simpl. by rewrite Hl. Qed.

Lemma replay_saved p s logs d recs ents es st :
  logs_run (fresh EmptyWalpbSnapshot) (logs ++ [(d, recs)]) = (p, None) →
  seen p (ws_metadata s) (ws_hardState s) (ws_nextEntry s) ents → announced p (ws_nextEntry s) →
  appendable ents es →
  let s2 := save_state s es st in
  ∃ p', logs_run (fresh EmptyWalpbSnapshot) (logs ++ [(d, recs ++ save_recs (ws_nextEntry s) es st)]) = (p', None) ∧
    seen p' (ws_metadata s2) (ws_hardState s2) (ws_nextEntry s2) (put_entries ents es) ∧
    announced p' (ws_nextEntry s2).
Proof.
  intros Hr Hs Ha Happ s2. destruct (logs_run_last _ _ _ _ _ Hr) as (p0 & Hr0 & Hrd).
  destruct (run_save p s ents es st Hs Ha Happ) as (p' & Hr' & Hs' & Ha').
  exists p'. split_and!; [|done..]. apply (logs_run_snoc _ _ _ _ _ _ Hr0).
  by rewrite (rec_run_app _ _ _ _ Hrd).
Qed.

Lemma save_last s ents es st : 0 <= ws_lastEntryIndex s < 2 ^ 62 → appendable ents es →
  0 <= ws_lastEntryIndex (save_state s es st) < 2 ^ 62.
Proof.
  intros Hs Happ. change (ws_lastEntryIndex (save_state s es st)) with (ws_lastEntryIndex (foldl after_entry s es)).
  destruct Happ as [->|(lo & Hix & Hlo & Hfit & _)]; [done|].
  destruct es as [|e es] using rev_ind; [done|]. rewrite foldl_snoc. simpl.
  apply indexed_app in Hix as [_ [He _]%indexed_cons]. rewrite length_app in Hfit. simpl in Hfit. lia.
Qed.

Lemma inv_same w logs d recs ents es st sto2 l :
  wal_inv w logs d recs ents → appendable ents es →
  recs_ok (crc_after 0 recs) (save_recs (ws_nextEntry (w_state w)) es st) →
  log_ok l (recs ++ save_recs (ws_nextEntry (w_state w)) es st) →
  wal_inv (upd (set_storage w sto2) (save_state (w_state w) es st) l) logs d
    (recs ++ save_recs (ws_nextEntry (w_state w)) es st) (put_entries ents es).
Proof.
  intros [Hlog Hdir Hfile Hpage Hids Hu Hfinal Hlater Hlast Hents Hnext Hdescs Hnames Hholds Hst Hrecs (p & Hr & Hs & Ha)] Happ Hok Hl.
  split; simpl; try done.
  - by rewrite lookup_insert_eq.
  - by apply (save_last _ ents es st).
  - by apply put_indexed.
  - intros name. destruct (decide (name = w_file w)) as [->|Hne].
    + intros _. exists d. split; [|done]. apply elem_of_app. right. by apply list_elem_of_singleton.
    + rewrite lookup_insert_ne by done. apply Hnames.
  - rewrite fmap_insert. apply holds_insert; [|done]. intros f Hf. rewrite Hfile. by apply log_names with logs.
  - by apply starts_app.
  - by apply recs_ok_app.
  - by apply replay_saved with p.
Qed.

Lemma inv_cycled w logs d recs ents es st sto2 lo ln :
  let s2 := save_state (w_state w) es st in
  let recs2 := recs ++ save_recs (ws_nextEntry (w_state w)) es st in
  wal_inv w logs d recs ents → appendable ents es → Z.of_nat (length logs) + 1 < 2 ^ 64 →
  recs_ok (crc_after 0 recs) (save_recs (ws_nextEntry (w_state w)) es st) →
  recs_ok 0 (cycle_recs (crc_after 0 recs2) s2) →
  content (pf (enc_writer lo)) = file_header ++ render 0 recs2 →
  log_ok ln (cycle_recs (crc_after 0 recs2) s2) →
  wal_inv (cycled (set_storage w sto2) s2 d lo ln) (logs ++ [(d, recs2)]) (next_desc d s2 false)
    (cycle_recs (crc_after 0 recs2) s2) (put_entries ents es).
Proof.
  intros s2 recs2 Hw Happ Hlen Hok Hok2 Hcont Hln. destruct (wal_tail _ _ _ _ _ Hw ltac:(lia)) as [Hid _].
  destruct Hw as [Hlog Hdir Hfile Hpage Hids Hu Hfinal Hlater Hlast Hents Hnext Hdescs Hnames Hholds Hst Hrecs (p & Hr & Hs & Ha)].
  set (nd := next_desc d s2 false).
  assert (Hnid : fd_Id nd = Z.of_nat (length logs) + 1) by (simpl; rewrite Hid, u64_small by lia; lia).
  assert (Hids' : indexed fd_Id 0 ((logs ++ [(d, recs2)]).*1 ++ [nd])).
  { rewrite fmap_app. apply indexed_app. split; [done|]. apply indexed_cons. split; [|apply indexed_nil].
    rewrite length_app, length_fmap, Hnid. simpl. lia. }
  assert (Hu' : Forall desc_ok ((logs ++ [(d, recs2)]).*1 ++ [nd])).
  { rewrite fmap_app. apply Forall_app. split; [done|]. constructor; [|constructor].
    split; [apply u64_range|apply u64_range]. }
  assert (Hnd : ∀ f, f ∈ logs ++ [(d, recs2)] → GetLogFileName f.1 ≠ GetLogFileName nd)
    by (intros f Hf; by apply log_names with (logs ++ [(d, recs2)])).
  pose proof (save_last _ _ _ st Hlast Happ) as Hlast2. fold s2 in Hlast2.
  split; try done.
  - simpl. by rewrite lookup_insert_eq.
  - rewrite fmap_app. apply Forall_app. split; [done|by repeat constructor].
  - rewrite fmap_app, drop_app_le by (rewrite length_app; simpl; lia). apply Forall_app. split; [done|].
    constructor; [|constructor]. unfold nd, next_desc, file_desc. cbn [fd_StartLogIndex]. rewrite u64_small; lia.
  - by apply put_indexed.
  - intros f. rewrite fmap_app, elem_of_app, list_elem_of_singleton. simpl m_filesDesc. intros [Hf| ->].
    + rewrite lookup_insert_ne; [by apply Hdescs|]. intros Heq.
      apply list_elem_of_lookup in Hf as [i Hi]. pose proof (Hids _ _ Hi) as Hfi.
      apply lookup_lt_Some in Hi. rewrite length_app, length_fmap in Hi. simpl in Hi, Heq.
      rewrite Hid, u64_small in Heq by lia. lia.
    + by rewrite lookup_insert_eq.
  - intros name. simpl m_dir. rewrite fmap_app. intros Hname.
    destruct (decide (name = GetLogFileName nd)) as [->|Hne].
    { exists nd. split; [|done]. apply elem_of_app. right. by apply list_elem_of_singleton. }
    rewrite lookup_insert_ne in Hname by done.
    destruct (decide (name = w_file w)) as [->|Hne2].
    { exists d. split; [|done]. apply elem_of_app. left. apply elem_of_app. right. by apply list_elem_of_singleton. }
    rewrite lookup_insert_ne in Hname by done. destruct (Hnames _ Hname) as (f & Hf & ->).
    exists f. split; [|done]. apply elem_of_app. by left.
  - simpl m_dir. rewrite !fmap_insert. apply holds_insert; [done|]. apply Forall_app. split.
    + apply holds_insert; [|done]. intros f Hf. rewrite Hfile. by apply log_names with logs.
    + repeat constructor; simpl; [by apply starts_app|by apply recs_ok_app|].
      exists 0%nat. split; [by left|]. rewrite Hfile, lookup_insert_eq, Hcont, app_nil_r. done.
  - destruct (replay_saved p (w_state w) logs d recs ents es st Hr Hs Ha Happ) as (p1 & Hr1 & Hs1 & Ha1).
    destruct (run_cycle p1 nd _ _ _ _ (crc_after 0 recs2) s2 Hs1 Ha1 eq_refl eq_refl eq_refl)
      as (p2 & Hr2 & Hs2 & Ha2).
    exists p2. split_and!; [|done..]. by apply (logs_run_snoc _ p1).
Qed.
End Replayed.
