(* ===== verification/WalStore.v ===== *)
(** * The log and its entry index storage

    [Wal.Save] writes entries to the log files and their positions and recent data to
    the entry index storage of [walbase/storage.go], which reads the data of older
    entries back from the files through the log file manager.  The theorems say that
    after every sequence of saves both hold the same log: the storage serves exactly the
    entries a replay of the files would find. *)

From S2P Require Import Prelude Raftpb Allocator WalCodec PageWriter EntryCache EntryStorage LogFiles.
From S2P Require Import WalReplay LogManager Wal.

Section Indexed.
Context `{RaftLib} `{BufferPool} `{Message HardState} `{Message WalNextEntry} `{Message WalSnapshot}.
Implicit Types (w : Wal) (recs pre post : list Rec) (es ents : list Entry) (logs : Logs).

Lemma entry_mds_bare es id recs ne :
  bare <$> entry_mds id recs ne es = (λ e, set_data e []) <$> es.
Proof.
  revert recs ne. induction es as [|e es IH]; intros recs ne; csimpl; [done|]. by rewrite IH.
Qed.

(** [md] tells where in file [id] with records [recs] the entry [e] was written. *)
Definition located (id : Z) recs (md : EntryIndex EntryIndexMetadata) (e : Entry) : Prop :=
  ∃ pre post, recs = pre ++ REntry (e_type e) (e_data e) :: post ∧ md = md_of id pre e.

Lemma located_app id recs more md e : located id recs md e → located id (recs ++ more) md e.
Proof. intros (pre & post & -> & ->). exists pre, (post ++ more). by rewrite <- (assoc_L (++)). Qed.

Lemma entry_mds_located es id recs ne i md e :
  entry_mds id recs ne es !! i = Some md → es !! i = Some e →
  located id (recs ++ entry_recs ne es) md e.
Proof.
  revert recs ne i. induction es as [|e0 es IH]; intros recs ne i Hmd He; [done|].
  rewrite entry_recs_cons. destruct i as [|i]; simpl in Hmd, He; simplify_eq.
  - exists (recs ++ announce ne e), (entry_recs (next_of e) es). split; [|done].
    by rewrite <- !(assoc_L (++)).
  - pose proof (IH _ _ _ Hmd He) as Hl. by rewrite <- !(assoc_L (++)) in *.
Qed.

Lemma read_located f id pre post e :
  file_header ++ render 0 (pre ++ REntry (e_type e) (e_data e) :: post) `prefix_of` content f →
  read_entry (content f) (ei_meta (md_of id pre e)) blank = Ok (set_data blank (e_data e)).
Proof.
  intros [tl Htl]. unfold read_entry, md_of. simpl.
  destruct (e_data e) as [|b data] eqn:Hd; [done|]. rewrite <- Hd in *.
  assert (0 < Z.of_nat (length (e_data e))) as Hpos by (rewrite Hd; simpl; lia).
  rewrite decide_True by done.
  rewrite render_app in Htl. cbn [render] in Htl. unfold rec_frame, log_frame in Htl. cbn [rec_body rec_type] in Htl.
  set (h1 := put_u32 (header_word _ _ _)) in Htl. set (h2 := put_u32 (rec_crc _ _)) in Htl.
  set (pad := replicate _ _) in Htl. set (rr := render (rec_crc _ _) post) in Htl.
  assert (length h1 = 4%nat ∧ length h2 = 4%nat) as [L1 L2] by (split; apply length_put_u32).
  set (x := file_header ++ render 0 pre ++ h1 ++ h2).
  assert (content f = x ++ e_data e ++ (pad ++ rr ++ tl)) as ->.
  { rewrite Htl. unfold x. by rewrite <- !(assoc_L (++)). }
  assert (length x = Z.to_nat (Z.of_nat (LogFileHeaderLength + length (render 0 pre)) + HeaderSize)) as Lx.
  { unfold x, HeaderSize. rewrite !length_app, L1, L2, file_header_length. lia. }
  rewrite decide_False by (unfold HeaderSize in *; rewrite !length_app; lia).
  f_equal. f_equal. unfold go_slice. rewrite Z2Nat.inj_add by (unfold HeaderSize; lia).
  rewrite Nat2Z.id, <- Lx, drop_app_length, Nat.add_sub', take_app_length. done.
Qed.
Lemma located_on_disk (m : Manager) (f : LogFileDesc) file recs md e :
  m_filesDesc m !! fd_Id f = Some f → m_dir m !! GetLogFileName f = Some file →
  file_header ++ render 0 recs `prefix_of` content file → located (fd_Id f) recs md e →
  stored_data m md = Some (e_data e).
Proof.
  intros Hd Hf Hc (pre & post & -> & ->). unfold stored_data.
  change (FileId (ei_meta (md_of (fd_Id f) pre e))) with (fd_Id f). rewrite Hd. cbn [mbind option_bind]. rewrite Hf.
  cbn [mbind option_bind]. by rewrite (read_located file (fd_Id f) pre post e Hc).
Qed.

(** The records a log file has in the file, and not only in the buffer. *)
Definition flushed (l : LogFile) recs : Prop :=
  file_header ++ render 0 recs `prefix_of` written (pf (enc_writer l)).

Lemma flushed_extends l l' recs recsF : log_ok l' recs → recsF `prefix_of` recs →
  extends l l' → flushed l recsF → (fpos (pf (enc_writer l)) <= length (content (pf (enc_writer l))))%nat →
  flushed l' recsF.
Proof.
  intros Hl [more ->] [_ Hpos] Hf Hlen. unfold flushed in *. pose proof (lo_stream _ _ Hl) as Hst.
  unfold stream in Hst. rewrite render_app, (assoc_L (++)) in Hst.
  pose proof (prefix_length _ _ Hf) as Hle. unfold written in Hle. rewrite length_take in Hle.
  assert (length (written (pf (enc_writer l'))) = fpos (pf (enc_writer l'))) as Hw.
  { unfold written. rewrite length_take. pose proof (core_pos _ (ok_core _ (lo_pw _ _ Hl))). lia. }
  destruct (prefix_weak_total (file_header ++ render 0 recsF) (written (pf (enc_writer l')))
              (stream (enc_writer l'))) as [Hp|Hp]; [|by eexists|done|].
  - unfold stream. rewrite Hst. by eexists.
  - rewrite (prefix_length_eq _ _ Hp); [done|lia].
Qed.

(** A file of the log, with records that have reached the file. *)
Definition on_file w logs (d : LogFileDesc) recs (f : LogFileDesc * list Rec) : Prop :=
  f ∈ logs ∨ (f.1 = d ∧ f.2 `prefix_of` recs ∧ flushed (w_current w) f.2).

Lemma located_stored w logs d recs ents f md e :
  wal_inv w logs d recs ents → on_file w logs d recs f →
  located (fd_Id f.1) f.2 md e → stored_data (w_mgr w) md = Some (e_data e).
Proof.
  intros Hw Hf Hl.
  assert (m_filesDesc (w_mgr w) !! fd_Id f.1 = Some f.1) as Hdesc.
  { apply (wi_descs _ _ _ _ _ Hw). apply elem_of_app. destruct Hf as [Hf|[-> _]].
    - left. by apply list_elem_of_fmap_2.
    - right. by apply list_elem_of_singleton. }
  destruct Hf as [Hf|(Hd & _ & Hfl)].
  - pose proof (wi_holds _ _ _ _ _ Hw) as Hh. unfold holds in Hh. rewrite Forall_forall in Hh.
    destruct (Hh _ Hf) as (_ & _ & n & _ & Hdir). rewrite lookup_fmap in Hdir.
    apply fmap_Some in Hdir as (file & Hdir & Hc).
    apply (located_on_disk _ f.1 file f.2); [done..| |done]. rewrite <- Hc, (assoc_L (++)). by apply prefix_app_r.
  - pose proof (wi_dir _ _ _ _ _ Hw) as Hdir. rewrite (wi_file _ _ _ _ _ Hw), <- Hd in Hdir.
    apply (located_on_disk _ f.1 _ f.2 _ _ Hdesc Hdir); [|done].
    etrans; [exact Hfl|]. unfold written. apply prefix_take.
Qed.
(** ** One save *)

Definition log0 ents : Log := {| base := 0; base_term := 0; body := ents |}.

(** The index entries after a save of [es] with the index entries [new]. *)
Definition put_mds (mds new : list (EntryIndex EntryIndexMetadata)) es :=
  match es with
  | [] => mds
  | e :: _ => take (Z.to_nat (e_index e - 1)) mds ++ new
  end.

Definition commit_of (s : walState) : Z := hs_commit (ws_hardState s).

(** What raft guarantees of a save: the entries leave no gap, none of them is committed
    already, and the commit index does not move back. *)
Record save_ok (s : walState) ents es (st : HardState) : Prop := {
  sv_app : appendable ents es;
  sv_new : ∀ e, head es = Some e → commit_of s < e_index e;
  sv_commit : IsEmptyHardState st = false → commit_of s <= hs_commit st
}.

Lemma storage_append_ok (m : Manager) (sto0 : EntryStorage EntryIndexMetadata) ents es (new : list (EntryIndex EntryIndexMetadata)) commit :
  represents m sto0 (log0 ents) → caught_up sto0 (length ents) commit →
  appendable ents es → (∀ e, head es = Some e → commit < e_index e) → es ≠ [] →
  bare <$> new = (λ e, set_data e []) <$> es →
  ∃ sto2, storage_save (Some sto0) new es (Some sto2) ∧ represents m sto2 (log0 (put_entries ents es)) ∧
    EntryIndexes sto2 = put_mds (EntryIndexes sto0) new es ∧ caught_up sto2 (length (put_entries ents es)) commit.
Proof.
  intros Hrep Hup [?|(lo & Hix & Hlo & Hfit & _)] Hnew Hne Hb; [done|].
  destruct es as [|e es]; [done|]. pose proof (proj1 (indexed_cons _ _ _ _) Hix) as [He _].
  specialize (Hnew e eq_refl). rewrite He in Hnew.
  assert (Hle : lo <= log_end (log0 ents)) by (unfold log_end; simpl; lia).
  pose proof (rep_ents _ _ _ Hrep) as (d & mds & Hents & _).
  assert (Hcache : r_empty (cache_range (st_cache sto0)) = true ∨ r_first (cache_range (st_cache sto0)) <= lo).
  { unfold caught_up in Hup. destruct (r_empty _); [by left|right; lia]. }
  destruct (append_represents zero_metadata m m sto0 (log0 ents) new (e :: es) lo Hrep Hb Hix Hne)
    as (sto1 & sto2 & H1' & H2' & Hrep2); [simpl; lia|done|lia|done|done|].
  pose proof (AppendEntryIndex_rep zero_metadata m sto0 (log0 ents) new (e :: es) lo d mds Hrep Hents Hb Hix Hne
    ltac:(simpl; lia) Hle ltac:(lia)) as Hents1.
  assert (sto1 = with_ents sto0 (d :: take (Z.to_nat (lo - base (log0 ents) - 1)) mds ++ new)) as Hes1 by congruence.
  simpl base in Hes1. replace (lo - 0 - 1) with (lo - 1) in Hes1 by lia.
  exists sto2. split_and!.
  - exists sto1, sto2. done.
  - unfold log_append in Hrep2. simpl in Hrep2. replace (lo - 0 - 1) with (lo - 1) in Hrep2 by lia.
    unfold log0, put_entries. by rewrite He.
  - assert (st_ents sto2 = st_ents sto1) as Hst.
    { unfold AppendCache in H2'. destruct (Append _ _); simpl in H2'; by simplify_eq. }
    unfold EntryIndexes. rewrite Hst, Hes1, Hents. simpl. by rewrite !drop_0, He.
  - eapply (caught_up_append m sto0 sto1 sto2 (log0 ents) (e :: es) lo); try done; [by rewrite Hes1|lia].
Qed.
Lemma fold_hardState es s : ws_hardState (foldl after_entry s es) = ws_hardState s.
Proof. revert s. induction es as [|e es IH]; intros s; [done|]. simpl. by rewrite IH. Qed.

(** The storage after a save, for whatever files [m'] hold the entries then. *)
Lemma storage_step w recs ents es st (sto0 : EntryStorage EntryIndexMetadata) :
  let s := w_state w in
  let mds := put_mds (EntryIndexes sto0) (entry_mds (tail_id w) recs (ws_nextEntry s) es) es in
  w_storage w = Some sto0 → represents (w_mgr w) sto0 (log0 ents) →
  caught_up sto0 (length ents) (commit_of s) → save_ok s ents es st →
  ∃ sto2, storage_after w recs s es st (Some sto2) ∧ EntryIndexes sto2 = mds ∧
    caught_up sto2 (length (put_entries ents es)) (commit_of (save_state s es st)) ∧
    ∀ m' : Manager,
      (∀ i md e, mds !! i = Some md → put_entries ents es !! i = Some e → stored_data m' md = Some (e_data e)) →
      represents m' sto2 (log0 (put_entries ents es)).
Proof.
  intros s mds Hw Hrep Hup [Happ Hnew Hcommit].
  assert (∃ sto1, (if decide (es = []) then Some sto1 = w_storage w
     else storage_save (w_storage w) (entry_mds (tail_id w) recs (ws_nextEntry s) es) es (Some sto1)) ∧
     represents (w_mgr w) sto1 (log0 (put_entries ents es)) ∧ EntryIndexes sto1 = mds ∧
     caught_up sto1 (length (put_entries ents es)) (commit_of s)) as (sto1 & Hsto & Hrep1 & Hmds & Hup1).
  { destruct (decide (es = [])) as [->|Hne]; [by exists sto0|]. rewrite Hw.
    apply storage_append_ok; [done..|apply entry_mds_bare]. }
  assert (Hhs : ws_hardState (save_state s es st) = if IsEmptyHardState st then ws_hardState s else st)
    by (unfold save_state, after_hs; simpl; by rewrite (fold_hardState es s)).
  unfold storage_after, commit_of. rewrite Hhs. destruct (IsEmptyHardState st) eqn:Hst.
  - exists sto1. split_and!; [|done|done|].
    + exists (Some sto1). split; [done|]. unfold storage_commit. by rewrite Hst.
    + intros m' Hm'. eapply represents_stored; [done|]. by rewrite Hmds.
  - exists (DeleteCache sto1 (hs_commit st)). split_and!; [|done| |].
    + exists (Some sto1). split; [done|]. unfold storage_commit. by rewrite Hst.
    + eapply (caught_up_delete (w_mgr w) sto1 (log0 (put_entries ents es))); [done..|by apply Hcommit].
    + intros m' Hm'. apply DeleteCache_represents.
      * eapply represents_stored; [done|]. by rewrite Hmds.
      * intros i md e Hi He _. rewrite Hmds in Hi. by eapply Hm'.
Qed.
(** ** The storage and the files hold the same log *)

Record sto_inv w logs d recs ents (sto : EntryStorage EntryIndexMetadata) : Prop := {
  si_rep : represents (w_mgr w) sto (log0 ents);
  si_up : caught_up sto (length ents) (commit_of (w_state w));
  si_loc : ∀ i md e, EntryIndexes sto !! i = Some md → ents !! i = Some e →
    ∃ f, on_file w logs d recs f ∧ located (fd_Id f.1) f.2 md e
}.
Definition sto_ok w logs d recs ents : Prop :=
  match w_storage w with None => True | Some sto => sto_inv w logs d recs ents sto end.

Lemma put_lookup mds new ents es i md e :
  length mds = length ents → appendable ents es →
  put_mds mds new es !! i = Some md → put_entries ents es !! i = Some e →
  (mds !! i = Some md ∧ ents !! i = Some e) ∨ ∃ j : nat, new !! j = Some md ∧ es !! j = Some e.
Proof.
  intros Hlen Happ Hm He. destruct es as [|e0 es]; [by left|]. unfold put_mds, put_entries in Hm, He.
  destruct Happ as [?|(lo & Hix & Hlo & _)]; [done|]. apply indexed_cons in Hix as [<- _].
  destruct (decide (i < Z.to_nat (e_index e0 - 1))%nat) as [Hi|Hi].
  - left. rewrite lookup_app_l, lookup_take_lt in Hm by (rewrite ?length_take; lia).
    by rewrite lookup_app_l, lookup_take_lt in He by (rewrite ?length_take; lia).
  - right. exists (i - Z.to_nat (e_index e0 - 1))%nat.
    rewrite lookup_app_r in Hm by (rewrite length_take; lia).
    rewrite lookup_app_r in He by (rewrite length_take; lia).
    rewrite length_take, Nat.min_l in Hm by lia. rewrite length_take, Nat.min_l in He by lia. done.
Qed.

(** Where the index entries after a save point to, given where files went. *)
Lemma put_located w logs d recs ents es st sto0 w' logs' (d' : LogFileDesc) recs' :
  let recs2 := recs ++ save_recs (ws_nextEntry (w_state w)) es st in
  wal_inv w logs d recs ents → Z.of_nat (length logs) + 1 < 2 ^ 64 → sto_inv w logs d recs ents sto0 →
  appendable ents es →
  (∀ f md e, on_file w logs d recs f → located (fd_Id f.1) f.2 md e →
     ∃ f', on_file w' logs' d' recs' f' ∧ located (fd_Id f'.1) f'.2 md e) →
  (es ≠ [] → on_file w' logs' d' recs' (d, recs2)) →
  ∀ i md e, put_mds (EntryIndexes sto0) (entry_mds (tail_id w) recs (ws_nextEntry (w_state w)) es) es !! i = Some md →
    put_entries ents es !! i = Some e →
    ∃ f, on_file w' logs' d' recs' f ∧ located (fd_Id f.1) f.2 md e.
Proof.
  intros recs2 Hw Hlen Hsto Happ Hold Hnew i md e Hmd He.
  assert (length (EntryIndexes sto0) = length ents) as Hl.
  { pose proof (rep_ents _ _ _ (si_rep _ _ _ _ _ _ Hsto)) as (d0 & mds & Hents & _ & _ & Hb & _).
    unfold EntryIndexes. rewrite Hents. simpl. rewrite drop_0. by apply bare_length. }
  destruct (put_lookup _ _ _ _ _ _ _ Hl Happ Hmd He) as [[Hm0 He0]|(j & Hmj & Hej)].
  - destruct (si_loc _ _ _ _ _ _ Hsto _ _ _ Hm0 He0) as (f & Hf & Hfl). by eapply Hold.
  - exists (d, recs2). split; [apply Hnew; by intros ->|]. simpl.
    destruct (wal_tail _ _ _ _ _ Hw Hlen) as [_ Htail].
    assert (tail_id w = fd_Id d) as <- by (unfold tail_id; by rewrite Htail).
    unfold recs2, save_recs. rewrite (assoc_L (++)). apply located_app. by eapply entry_mds_located.
Qed.
(** The records of a save, and of the file it may cycle to, can be encoded. *)
Definition encodable w es (st : HardState) : Prop :=
  let recs := save_recs (ws_nextEntry (w_state w)) es st in
  recs_ok (LastCrc (w_current w)) recs ∧
  recs_ok 0 (cycle_recs (crc_after (LastCrc (w_current w)) recs) (save_state (w_state w) es st)).

(** The files of [logs] have their records on stable storage. *)
Definition on_stable w logs : Prop :=
  Forall (λ f, ∃ file, m_dir (w_mgr w) !! GetLogFileName f.1 = Some file ∧
    file_header ++ render 0 f.2 `prefix_of` durable file) logs.

(** The log [w] holds the entries [ents] in the closed files [logs] and the current
    file [d] with the records [recs]; so does its entry index storage. *)
Record journal w logs d recs ents : Prop := {
  jn_inv : wal_inv w logs d recs ents;
  jn_sto : sto_ok w logs d recs ents;
  jn_durable : w_enableNoSync w = false → on_stable w logs
}.

Lemma on_stable_insert w logs name f w' :
  (∀ x, x ∈ logs → GetLogFileName x.1 ≠ name) → m_dir (w_mgr w') = <[name := f]> (m_dir (w_mgr w)) →
  on_stable w logs → on_stable w' logs.
Proof.
  intros Hne Hd Hs. unfold on_stable in *. rewrite Forall_forall in Hs |- *. intros x Hx.
  destruct (Hs x Hx) as (file & Hf & Hp). exists file. rewrite Hd, lookup_insert_ne; [done|].
  apply not_eq_sym. by apply Hne.
Qed.

Lemma located_prefix id recs recs' md e : recs `prefix_of` recs' → located id recs md e → located id recs' md e.
Proof. intros [more ->]. apply located_app. Qed.

Lemma sto_same w logs d recs ents es st sto0 sto2 l :
  let recs2 := recs ++ save_recs (ws_nextEntry (w_state w)) es st in
  let w' := upd (set_storage w (Some sto2)) (save_state (w_state w) es st) l in
  wal_inv w logs d recs ents → Z.of_nat (length logs) + 1 < 2 ^ 64 → sto_inv w logs d recs ents sto0 →
  appendable ents es → wal_inv w' logs d recs2 (put_entries ents es) →
  extends (w_current w) l → (es ≠ [] → bufWritePos (enc_writer l) = 0%nat) →
  ∀ i md e, put_mds (EntryIndexes sto0) (entry_mds (tail_id w) recs (ws_nextEntry (w_state w)) es) es !! i = Some md →
    put_entries ents es !! i = Some e →
    ∃ f, on_file w' logs d recs2 f ∧ located (fd_Id f.1) f.2 md e.
Proof.
  intros recs2 w' Hw Hlen Hsto Happ Hw' Hext Hflush.
  apply (put_located w logs d recs ents es st); [done..| |].
  - intros f md e [Hf|(Hd & Hpre & Hfl)] Hl; exists f; (split; [|done]); [by left|right].
    assert (f.2 `prefix_of` recs2) by (etrans; [exact Hpre|by apply prefix_app_r]). split_and!; [done..|].
    apply (flushed_extends (w_current w) l recs2); [exact (wi_log _ _ _ _ _ Hw')|done|done|done|].
    apply (core_pos _ (ok_core _ (lo_pw _ _ (wi_log _ _ _ _ _ Hw)))).
  - intros Hne. right. split_and!; [done..|]. simpl. pose proof (lo_stream _ _ (wi_log _ _ _ _ _ Hw')) as Hst.
    simpl in Hst. unfold stream in Hst. rewrite (Hflush Hne), take_0, app_nil_r in Hst.
    unfold flushed. by rewrite Hst.
Qed.

Lemma sto_cycled w logs d recs ents es st sto0 w' d' recs' :
  let recs2 := recs ++ save_recs (ws_nextEntry (w_state w)) es st in
  wal_inv w logs d recs ents → Z.of_nat (length logs) + 1 < 2 ^ 64 → sto_inv w logs d recs ents sto0 →
  appendable ents es →
  ∀ i md e, put_mds (EntryIndexes sto0) (entry_mds (tail_id w) recs (ws_nextEntry (w_state w)) es) es !! i = Some md →
    put_entries ents es !! i = Some e →
    ∃ f, on_file w' (logs ++ [(d, recs2)]) d' recs' f ∧ located (fd_Id f.1) f.2 md e.
Proof.
  intros recs2 Hw Hlen Hsto Happ. apply (put_located w logs d recs ents es st); [done..| |].
  - intros f md e [Hf|(Hd & Hpre & Hfl)] Hl.
    + exists f. split; [|done]. left. apply elem_of_app. by left.
    + exists (d, recs2). split; [left; apply elem_of_app; right; by apply list_elem_of_singleton|].
      simpl. rewrite <- Hd. eapply located_prefix; [|done]. etrans; [exact Hpre|by apply prefix_app_r].
  - intros _. left. apply elem_of_app. right. by apply list_elem_of_singleton.
Qed.
(** The storage a save leaves, if there is one. *)
Lemma save_storage w logs d recs ents es st :
  sto_ok w logs d recs ents → save_ok (w_state w) ents es st →
  ∃ sto2, storage_after w recs (w_state w) es st sto2 ∧
    match w_storage w, sto2 with
    | None, None => True
    | Some sto0, Some sto =>
        let mds := put_mds (EntryIndexes sto0) (entry_mds (tail_id w) recs (ws_nextEntry (w_state w)) es) es in
        EntryIndexes sto = mds ∧
        caught_up sto (length (put_entries ents es)) (commit_of (save_state (w_state w) es st)) ∧
        ∀ m' : Manager,
          (∀ i md e, mds !! i = Some md → put_entries ents es !! i = Some e → stored_data m' md = Some (e_data e)) →
          represents m' sto (log0 (put_entries ents es))
    | _, _ => False
    end.
Proof.
  intros Hsto Hsv. unfold sto_ok in Hsto. destruct (w_storage w) as [sto0|] eqn:Hw.
  - destruct Hsto as [Hrep Hup Hloc].
    destruct (storage_step w recs ents es st sto0 Hw Hrep Hup Hsv) as (sto2 & Hs & H2').
    by exists (Some sto2).
  - exists None. split; [|done]. exists None. rewrite Hw. unfold storage_save, storage_commit.
    by destruct (decide (es = [])), (IsEmptyHardState st).
Qed.

Lemma sto_saved w' logs' d' recs' ents' w (sto2 : option (EntryStorage EntryIndexMetadata)) mds commit :
  wal_inv w' logs' d' recs' ents' → w_storage w' = sto2 → commit_of (w_state w') = commit →
  match w_storage w, sto2 with
  | None, None => True
  | Some sto0, Some sto =>
      EntryIndexes sto = mds sto0 ∧ caught_up sto (length ents') commit ∧
      ∀ m' : Manager,
        (∀ i md e, mds sto0 !! i = Some md → ents' !! i = Some e → stored_data m' md = Some (e_data e)) →
        represents m' sto (log0 ents')
  | _, _ => False
  end →
  (∀ sto0, w_storage w = Some sto0 →
     ∀ i md e, mds sto0 !! i = Some md → ents' !! i = Some e →
       ∃ f, on_file w' logs' d' recs' f ∧ located (fd_Id f.1) f.2 md e) →
  sto_ok w' logs' d' recs' ents'.
Proof.
  intros Hw' Hs Hc Hm Hloc. unfold sto_ok. rewrite Hs.
  destruct sto2 as [sto2|], (w_storage w) as [sto0|]; try done.
  destruct Hm as (Hix & Hup & Hrep). specialize (Hloc sto0 eq_refl). split.
  - apply Hrep. intros i md e Hi He. destruct (Hloc i md e Hi He) as (f & Hf & Hl). by eapply located_stored.
  - by rewrite Hc.
  - intros i md e. rewrite Hix. apply Hloc.
Qed.

(** The closed files stay on stable storage. *)
Lemma durable_same w logs d recs ents sto s2 l :
  wal_inv w logs d recs ents → on_stable w logs → on_stable (upd (set_storage w sto) s2 l) logs.
Proof.
  intros Hw. apply (on_stable_insert _ _ (w_file w) (pf (enc_writer l))); [|done].
  intros x Hx. rewrite (wi_file _ _ _ _ _ Hw). by eapply log_names; [apply Hw|apply Hw|].
Qed.

Lemma durable_cycled w logs d recs ents ents' sto s2 lo ln recs2 :
  let w' := cycled (set_storage w sto) s2 d lo ln in
  wal_inv w logs d recs ents → wal_inv w' (logs ++ [(d, recs2)]) (next_desc d s2 false) (cycle_recs (crc_after 0 recs2) s2) ents' →
  on_stable w logs → synced lo recs2 → on_stable w' (logs ++ [(d, recs2)]).
Proof.
  intros w' Hw Hw' Hs Hd. set (w1 := upd (set_storage w sto) s2 lo).
  apply (on_stable_insert w1 _ (GetLogFileName (next_desc d s2 false)) (pf (enc_writer ln))); [|done|].
  { intros x Hx. by eapply log_names; [apply Hw'|apply Hw'|]. }
  apply Forall_app. split; [by apply (durable_same w logs d recs ents)|].
  constructor; [|constructor]. exists (pf (enc_writer lo)). split; [|done].
  simpl. by rewrite (wi_file _ _ _ _ _ Hw), lookup_insert_eq.
Qed.

(** A save succeeds, and afterwards the log holds the entries with the new ones put in;
    a save with entries leaves all records on stable storage. *)
Lemma Save_journal w logs d recs ents es st :
  journal w logs d recs ents → save_ok (w_state w) ents es st → encodable w es st →
  Z.of_nat (length logs) + 1 < 2 ^ 64 →
  ∃ w' logs' d' recs', Save st es w = Ret (w', Ok tt) ∧ journal w' logs' d' recs' (put_entries ents es) ∧
    (length logs' <= length logs + 1)%nat ∧ w_state w' = save_state (w_state w) es st ∧
    w_enableNoSync w' = w_enableNoSync w ∧ (is_Some (w_storage w) → is_Some (w_storage w')) ∧
    (es ≠ [] → w_enableNoSync w = false → synced (w_current w') recs').
Proof.
  intros [Hw Hsto Hdur] Hsv [Hok1 Hok2] Hlen.
  pose proof (wi_log _ _ _ _ _ Hw) as Hlog. rewrite (lo_crc _ _ Hlog : LastCrc _ = _) in Hok1, Hok2.
  rewrite <- crc_after_app in Hok2.
  destruct (wal_tail _ _ _ _ _ Hw Hlen) as [Hid Htail].
  destruct (save_storage _ _ _ _ _ _ _ Hsto Hsv) as (sto2 & Hafter & Hs2).
  destruct (Save_ok (λ _, None) w (w_state w) (w_current w) recs es st sto2 d)
    as (w' & Hsave & Hsaved);
    [done|done|apply Hw|by eapply wal_no_temp| |apply Hw|done|done|done|].
  { rewrite (wi_file _ _ _ _ _ Hw). apply not_eq_sym, temp_name_ne. }
  rewrite (upd_self _ _ _ _ _ Hw) in Hsave. pose proof (sv_app _ _ _ _ Hsv) as Happ.
  assert (Hsome : is_Some (w_storage w) → is_Some sto2) by (destruct (w_storage w), sto2; done || by intros []).
  exists w'. destruct Hsaved as [l Hl Hext Hflush|lo ln Hcont Hln Hd1 Hd2].
  - pose proof (inv_same _ _ _ _ _ _ _ sto2 _ Hw Happ Hok1 Hl) as Hw'.
    exists logs, d. eexists. split_and!; [done| |lia|done|done|done|intros Hne; by apply Hflush].
    split; [exact Hw'| |intros Hn; by eapply durable_same, Hdur].
    eapply (sto_saved _ _ _ _ _ w); [exact Hw'|done|done|exact Hs2|]. intros sto0 Hs0.
    unfold sto_ok in Hsto. rewrite Hs0 in Hsto, Hs2. destruct sto2 as [sto2|]; [|done].
    apply sto_same; [done..|]. intros Hne. by apply Hflush.
  - pose proof (inv_cycled _ _ _ _ _ _ _ sto2 _ _ Hw Happ Hlen Hok1 Hok2 Hcont Hln) as Hw'.
    exists (logs ++ [(d, recs ++ save_recs (ws_nextEntry (w_state w)) es st)]). do 2 eexists.
    split_and!; [done| |rewrite length_app; simpl; lia|done|done|done|done].
    split; [exact Hw'| |intros Hn; by eapply durable_cycled; [exact Hw|exact Hw'|apply Hdur|apply Hd1]].
    eapply (sto_saved _ _ _ _ _ w); [exact Hw'|done|done|exact Hs2|]. intros sto0 Hs0.
    unfold sto_ok in Hsto. rewrite Hs0 in Hsto. by apply (sto_cycled w logs d recs ents).
Qed.
End Indexed.

(** ** Creating a log *)

Section Creating.
Context `{RaftLib} `{BufferPool} `{Message HardState} `{Message WalNextEntry} `{Message WalSnapshot}.
Context (ValidateSnapshotForWrite : WalSnapshot → option error).

(** [createWalInternal]: the directory is emptied first.  With the entry index disabled
    the storage is etcd's [MemoryStorage], which the log does not touch. *)
Definition createWalInternal (cfg : ManagerConfig) (disableEntryIndex : bool) (metadata : list byte)
    : go (result Wal) :=
  (w <-? CreateWal ValidateSnapshotForWrite metadata (NewManager cfg ∅);;
   Ret (Ok (if disableEntryIndex then w else set_storage w (Some (NewEntryStorage zero_metadata)))))%go.

(** The records a new log starts with. *)
Definition create_recs (md : list byte) : list Rec := [RCrc 0; RMeta md; RSnap EmptyWalpbSnapshot].
Definition first_desc : LogFileDesc := file_desc 0 0 false.
Definition new_state (md : list byte) : walState :=
  {| ws_metadata := md; ws_nextEntry := emptyNextEntry; ws_hardState := emptyHardState; ws_lastEntryIndex := 0 |}.

Lemma create_run md : ∃ p,
  logs_run (fresh EmptyWalpbSnapshot) [(first_desc, create_recs md)] = (p, None) ∧
  seen p md emptyHardState emptyNextEntry [] ∧ announced p emptyNextEntry.
Proof.
  assert (seen (opened (fresh EmptyWalpbSnapshot) first_desc) [] emptyHardState emptyNextEntry []) as Hs0 by done.
  destruct (step_crc _ _ _ _ _ 0 Hs0) as (p1 & Hr1 & Hs1 & _).
  destruct (step_meta _ _ _ _ _ md Hs1) as (p2 & Hr2 & Hs2 & _).
  assert (∃ p3, rec_step p2 (RSnap EmptyWalpbSnapshot) = (p3, None) ∧
    seen p3 md emptyHardState emptyNextEntry []) as (p3 & Hr3 & Hs3).
  { destruct Hs2. unfold rec_step, log_switch. cbn [rec_type rec_body]. rewrite unmarshal_marshal.
    eexists. split; [done|by split]. }
  exists p3. split_and!; [|done|by right]. unfold create_recs. cbn [logs_run rec_run]. by rewrite Hr1, Hr2, Hr3.
Qed.

Lemma CreateWal_ok cfg md :
  (0 < AlignmentPageSize cfg)%nat → recs_ok 0 (create_recs md) →
  ValidateSnapshotForWrite EmptyWalpbSnapshot = None →
  ∃ w, CreateWal ValidateSnapshotForWrite md (NewManager cfg ∅) = Ret (Ok w) ∧
    wal_inv w [] first_desc (create_recs md) [] ∧ w_storage w = None ∧ w_enableNoSync w = false ∧
    w_state w = new_state md.
Proof.
  intros Hpage Hok Hv. pose proof Hok as (Hok1 & Hok2 & Hok3 & _).
  destruct (start_file_ok (NewManager cfg ∅) 0 0 eq_refl (lookup_empty _) Hpage) as (f & l & Hcr & Hl).
  destruct (in_put ValidateSnapshotForWrite l [] (RCrc 0) (fun l => lf_Crc l 0) Hl Hok1 I ltac:(done))
    as (l1 & H1' & Hl1).
  destruct (in_put ValidateSnapshotForWrite l1 _ (RMeta md) (fun l => lf_Metadata l md) Hl1 Hok2 I ltac:(done))
    as (l2 & H2' & Hl2).
  destruct (in_put ValidateSnapshotForWrite l2 _ (RSnap EmptyWalpbSnapshot)
    (fun l => lf_Snapshot ValidateSnapshotForWrite l EmptyWalpbSnapshot) Hl2 Hok3 Hv ltac:(done)) as (l3 & H3' & Hl3).
  destruct (in_sync l3 _ true Hl3) as (l4 & H4' & Hl4 & Hb4 & Hd4).
  destruct (finish_file_ok (NewManager cfg ∅) 0 0 f l4 _ (lookup_empty _) Hpage Hl4 Hb4)
    as (m2 & l5 & Hfin & Hop & Hl5 & Hpf & Hm2).
  unfold CreateWal. rewrite Hcr. set (m1 := with_next _ _ _ true _ f) in *. clearbody m1.
  rewrite (bind_ret _ _ _ _ _ (H1' _ _)), (bind_ret _ _ _ _ _ (H2' _ _)), (bind_ret _ _ _ _ _ (H3' _ _)),
    (bind_ret _ _ _ _ _ (H4' _ _)), (bind_ret _ _ _ _ _ eq_refl), (bind_ret _ _ _ m2 tt) by (by rewrite Hfin).
  rewrite (bind_ret _ _ _ m2 m2 eq_refl). unfold lift_result. rewrite Hop. cbn [mbind go_bind].
  eexists. split; [done|]. split_and!; [|done|done|done]. rewrite Hm2. split; try done.
  - apply indexed_cons. split; [done|apply indexed_nil].
  - by repeat constructor.
  - by repeat constructor.
  - intros f'. cbn [app fmap list_fmap]. rewrite list_elem_of_singleton. intros ->. simpl. by rewrite lookup_insert_eq.
  - intros name. simpl. rewrite lookup_insert_is_Some, lookup_empty. intros [<-|[_ [? ?]]]; [|done].
    exists first_desc. split; [|done]. by apply list_elem_of_singleton.
  - constructor.
  - apply create_run.
Qed.
Lemma new_storage (m : Manager) :
  represents m (NewEntryStorage zero_metadata) (log0 []) ∧ caught_up (NewEntryStorage zero_metadata) 0 0.
Proof.
  split; [|done]. split; [done|apply indexed_nil|].
  eexists _, []. split_and!; [done..|]. exists [], 1. split; [exact NewCache_ok|by split; [apply indexed_nil|..]].
Qed.

Lemma inv_storage w logs d recs ents sto :
  wal_inv w logs d recs ents → wal_inv (set_storage w sto) logs d recs ents.
Proof. by intros []; split. Qed.

Lemma createWalInternal_journal cfg disable md :
  (0 < AlignmentPageSize cfg)%nat → recs_ok 0 (create_recs md) →
  ValidateSnapshotForWrite EmptyWalpbSnapshot = None →
  ∃ w, createWalInternal cfg disable md = Ret (Ok w) ∧ journal w [] first_desc (create_recs md) [] ∧
    w_state w = new_state md ∧ w_enableNoSync w = false ∧ (disable = false → is_Some (w_storage w)).
Proof.
  intros Hpage Hok Hv. destruct (CreateWal_ok cfg md Hpage Hok Hv) as (w & Hw & Hinv & Hs & Hn & Hst).
  unfold createWalInternal. rewrite Hw. eexists. split; [done|]. destruct disable.
  - split_and!; [|done..]. split; [done|unfold sto_ok; by rewrite Hs|constructor].
  - split_and!; [|done..]. split; [by apply inv_storage| |constructor]. unfold sto_ok. simpl.
    destruct (new_storage (w_mgr w)) as [Hrep Hup]. split; [done| |done].
    change (w_state (set_storage w _)) with (w_state w). by rewrite Hst.
Qed.
End Creating.

(** ** Recovering a log *)

Section Recovering.
Context `{RaftLib} `{BufferPool} `{Message HardState} `{Message WalNextEntry} `{Message WalSnapshot}.
Implicit Types (w : Wal) (ents es : list Entry) (logs : Logs).

Lemma inv_sync w logs d recs ents :
  wal_inv w logs d recs ents →
  ∃ w', wal_Sync w = Ret (w', Ok tt) ∧ wal_inv w' logs d recs ents ∧
    bufWritePos (enc_writer (w_current w')) = 0%nat ∧ w_state w' = w_state w ∧
    (w_enableNoSync w = false → file_header ++ render 0 recs `prefix_of` durable (pf (enc_writer (w_current w')))).
Proof.
  intros Hw. destruct (on_sync w (w_state w) (w_current w) recs (negb (w_enableNoSync w)) (wi_log _ _ _ _ _ Hw))
    as (l' & Hs & Hl' & _ & Hb & Hd). rewrite (upd_self _ _ _ _ _ Hw) in Hs.
  exists (upd w (w_state w) l'). split_and!; [done| |done|done|].
  - assert (Hemp : IsEmptyHardState emptyHardState = true) by (by apply IsEmptyHardState_spec).
    assert (Hnil : save_recs (ws_nextEntry (w_state w)) [] emptyHardState = [])
      by (unfold save_recs, hs_recs; by rewrite Hemp).
    pose proof (inv_same w logs d recs ents [] emptyHardState (w_storage w) l' Hw (or_introl eq_refl)) as Hinv.
    rewrite Hnil, app_nil_r, set_storage_same in Hinv. specialize (Hinv I Hl').
    replace (save_state (w_state w) [] emptyHardState) with (w_state w) in Hinv; [done|].
    unfold save_state, after_hs. rewrite Hemp. by destruct (w_state w).
  - intros Hn. apply Hd. by rewrite Hn.
Qed.

(** The directory lists exactly the files of the log. *)
Lemma dir_listing w logs d recs ents :
  wal_inv w logs d recs ents →
  (map_to_list (m_dir (w_mgr w))).*1 ≡ₚ GetLogFileName <$> (logs.*1 ++ [d]).
Proof.
  intros Hw. apply NoDup_Permutation.
  - apply NoDup_fst_map_to_list.
  - apply NoDup_fmap_2_strong.
    + intros f g Hf Hg Heq. pose proof (wi_u64 _ _ _ _ _ Hw) as Hu. rewrite Forall_forall in Hu.
      destruct (Hu _ Hf), (Hu _ Hg). apply GetLogFileName_inj in Heq as [Hid _]; [|done..].
      pose proof (wi_descs _ _ _ _ _ Hw f Hf) as Hdf. pose proof (wi_descs _ _ _ _ _ Hw g Hg) as Hdg.
      rewrite Hid in Hdf. congruence.
    + apply NoDup_alt. intros i j f Hi Hj. pose proof (wi_ids _ _ _ _ _ Hw) as Hix.
      pose proof (Hix _ _ Hi). pose proof (Hix _ _ Hj). lia.
  - intros name. rewrite list_elem_of_fmap. setoid_rewrite list_elem_of_fmap. split.
    + intros ([k f] & -> & Hk%elem_of_map_to_list). destruct (wi_names _ _ _ _ _ Hw k) as (g & Hg & ->); [by eexists|].
      by exists g.
    + intros (f & -> & Hf). assert (is_Some (m_dir (w_mgr w) !! GetLogFileName f)) as [file Hfile].
      { apply elem_of_app in Hf as [(x & -> & Hx)%list_elem_of_fmap| ->%list_elem_of_singleton].
        - pose proof (wi_holds _ _ _ _ _ Hw) as Hh. unfold holds in Hh. rewrite Forall_forall in Hh.
          destruct (Hh _ Hx) as (_ & _ & n & _ & Hd). rewrite lookup_fmap in Hd.
          destruct (m_dir (w_mgr w) !! GetLogFileName x.1); [by eexists|done].
        - rewrite <- (wi_file _ _ _ _ _ Hw), (wi_dir _ _ _ _ _ Hw). by eexists. }
      exists (GetLogFileName f, file). split; [done|by apply elem_of_map_to_list].
Qed.
Lemma create_player w logs d recs ents files :
  wal_inv w logs d recs ents → Z.of_nat (length logs) + 1 < 2 ^ 64 → files ≡ₚ read_dir (m_dir (w_mgr w)) →
  Create files EmptyWalpbSnapshot
  = Ok {| pl_logFiles := logs.*1 ++ [d]; pl_startSnapshot := EmptyWalpbSnapshot |}.
Proof.
  intros Hw Hlen Hp.
  assert (read_dir (m_dir (w_mgr w)) ≡ₚ (λ f, (GetLogFileName f, false)) <$> (logs.*1 ++ [d])) as Hdir.
  { transitivity ((λ n : string, (n, false)) <$> (map_to_list (m_dir (w_mgr w))).*1);
      [by rewrite <- list_fmap_compose|].
    rewrite (dir_listing _ _ _ _ _ Hw). by rewrite <- list_fmap_compose. }
  rewrite Hdir in Hp. apply Permutation_map_inv in Hp as (ds & -> & Hds).
  assert (Forall (λ d, is_u64 (fd_Id d) ∧ is_u64 (fd_StartLogIndex d) ∧ fd_IsTempFile d = false) ds) as Hok.
  { rewrite <- Hds. apply Forall_forall. intros f Hf.
    pose proof (wi_u64 _ _ _ _ _ Hw) as Hu. pose proof (wi_final _ _ _ _ _ Hw) as Hfin.
    rewrite Forall_forall in Hu, Hfin. destruct (Hu f Hf). auto. }
  unfold Create. rewrite (ReadValidLogFiles_needed _ (logs.*1 ++ [d]) ds 0);
    [|by apply parse_names_log|done|apply Hw|done|rewrite length_app, length_fmap; simpl; lia].
  do 2 f_equal. pose proof (wi_later _ _ _ _ _ Hw) as Hl. destruct (logs.*1 ++ [d]) as [|f fs]; [done|].
  cbn [needed]. rewrite decide_False; [done|]. simpl in Hl. rewrite drop_0 in Hl.
  intros (x & Hx & Hle)%Exists_exists. rewrite Forall_forall in Hl. specialize (Hl x Hx). simpl in Hle. lia.
Qed.

(** A replay of what a synced log has in its files finds the log again. *)
Lemma recover w logs d recs ents pl :
  wal_inv w logs d recs ents → bufWritePos (enc_writer (w_current w)) = 0%nat →
  Z.of_nat (length logs) + 1 < 2 ^ 64 → lf_Offset (w_current w) < 2 ^ 63 →
  pl = {| pl_logFiles := logs.*1 ++ [d]; pl_startSnapshot := EmptyWalpbSnapshot |} →
  ∃ d' r, Replay (content <$> m_dir (w_mgr w)) pl (NewReplayResult ec_clear) true = Ret (d', r, None) ∧
    rr_entries r = ents ∧ rr_hardState r = ws_hardState (w_state w) ∧ rr_metadata r = ws_metadata (w_state w) ∧
    rr_nextEntry r = ws_nextEntry (w_state w).
Proof.
  intros Hw Hb Hlen Hoff ->. destruct (wi_replay _ _ _ _ _ Hw) as (p & Hrun & [Hs1 Hs2 Hs3 Hs4 Hs5] & _).
  destruct (wal_tail _ _ _ _ _ Hw Hlen) as [Hid _].
  destruct (log_content _ _ (wi_log _ _ _ _ _ Hw) Hb) as [n Hc].
  rewrite (log_offset _ _ (wi_log _ _ _ _ _ Hw)) in Hoff.
  pose proof (wi_u64 _ _ _ _ _ Hw) as [Hu [Hud _]%Forall_cons]%Forall_app.
  assert ((content <$> m_dir (w_mgr w)) !! GetLogFileName d = Some (file_header ++ render 0 recs ++ replicate n Byte.x00))
    as Himg by (by rewrite lookup_fmap, <- (wi_file _ _ _ _ _ Hw), (wi_dir _ _ _ _ _ Hw), <- Hc).
  assert (∃ d', Replay (content <$> m_dir (w_mgr w))
      {| pl_logFiles := logs.*1 ++ [d]; pl_startSnapshot := EmptyWalpbSnapshot |} (NewReplayResult ec_clear) true
      = Ret (d', p_result p, None)) as [d' Hr].
  { destruct (decide (n = 0 ∨ 8 <= n)%nat) as [Hn|Hn].
    - eexists. apply (Replay_clean _ _ (logs ++ [(d, recs)])); [by rewrite fmap_app| |done].
      apply Forall_app. split; [apply Hw|]. repeat constructor; [apply Hw|apply Hw|by exists n].
    - destruct (Replay_torn (content <$> m_dir (w_mgr w))
        {| pl_logFiles := logs.*1 ++ [d]; pl_startSnapshot := EmptyWalpbSnapshot |} logs d recs (replicate n Byte.x00) io_ErrUnexpectedEOF p)
        as (_ & d' & Hr & _); [|by rewrite fmap_app|done|by eexists].
      split; [apply Hw|done| |apply Hw|apply Hw|lia|left; split; [done|right; exists n; split; [lia|done]]|done].
      apply Forall_forall. intros f Hf. assert (f.1 ∈ logs.*1) as Hf1 by (by apply list_elem_of_fmap_2).
      rewrite Forall_forall in Hu. split; [by apply Hu|]. pose proof (wi_ids _ _ _ _ _ Hw) as [Hix _]%indexed_app.
      apply list_elem_of_lookup in Hf1 as [i Hi]. rewrite (Hix _ _ Hi), Hid.
      apply lookup_lt_Some in Hi. rewrite length_fmap in Hi. lia. }
  exists d', (p_result p). done.
Qed.
End Recovering.

(** ** Every run of saves *)

Section Runs.
Context `{RaftLib} `{BufferPool} `{Message HardState} `{Message WalNextEntry} `{Message WalSnapshot}.
Implicit Types (w : Wal) (ops : list (HardState * list Entry)).

Fixpoint save_all ops : meth Wal unit :=
  match ops with
  | [] => Meth.ret tt
  | (st, es) :: ops => (Save st es;; save_all ops)%go
  end.

(** What raft guarantees of every save of the run, and that its records can be encoded. *)
Fixpoint saves_ok ops w (ents : list Entry) : Prop :=
  match ops with
  | [] => True
  | (st, es) :: ops =>
      save_ok (w_state w) ents es st ∧ encodable w es st ∧
      ∀ w', Save st es w = Ret (w', Ok tt) → saves_ok ops w' (put_entries ents es)
  end.

Definition new_hs (hs st : HardState) : HardState := if IsEmptyHardState st then hs else st.
Definition saved_entries ops : list Entry := foldl put_entries [] ops.*2.
Definition saved_hardState ops : HardState := foldl new_hs emptyHardState ops.*1.

Lemma save_all_journal ops w logs d recs ents :
  journal w logs d recs ents → saves_ok ops w ents → Z.of_nat (length logs + length ops) + 1 < 2 ^ 64 →
  ∃ w' logs' d' recs', save_all ops w = Ret (w', Ok tt) ∧
    journal w' logs' d' recs' (foldl put_entries ents ops.*2) ∧
    (length logs' <= length logs + length ops)%nat ∧
    ws_hardState (w_state w') = foldl new_hs (ws_hardState (w_state w)) ops.*1 ∧
    ws_metadata (w_state w') = ws_metadata (w_state w) ∧
    w_enableNoSync w' = w_enableNoSync w ∧ (is_Some (w_storage w) → is_Some (w_storage w')) ∧
    (default [] (last ops.*2) ≠ [] → w_enableNoSync w = false → synced (w_current w') recs').
Proof.
  revert w logs d recs ents. induction ops as [|[st es] ops IH]; intros w logs d recs ents Hj Hok Hlen.
  { exists w, logs, d, recs. simpl. split_and!; try done. lia. }
  destruct Hok as (Hsv & Henc & Hnext). simpl in Hlen.
  destruct (Save_journal _ _ _ _ _ _ _ Hj Hsv Henc ltac:(lia))
    as (w1 & logs1 & d1 & recs1 & Hs1 & Hj1 & Hl1 & Hst1 & Hn1 & Hsto1 & Hd1).
  destruct (IH w1 logs1 d1 recs1 _ Hj1 (Hnext _ Hs1) ltac:(lia))
    as (w' & logs' & d' & recs' & Hs & Hj' & Hl & Hhs & Hmd & Hn & Hsto & Hd).
  assert (ws_hardState (w_state w1) = new_hs (ws_hardState (w_state w)) st ∧
          ws_metadata (w_state w1) = ws_metadata (w_state w)) as [Hhs1 Hmd1].
  { rewrite Hst1. unfold save_state, after_hs, new_hs. simpl. rewrite fold_hardState. split; [done|].
    clear. generalize (w_state w). induction es as [|e es IH]; intros s; [done|]. simpl. by rewrite IH. }
  destruct ops as [|op ops].
  - simpl in Hs. unfold Meth.ret in Hs. injection Hs as <-.
    exists w1, logs1, d1, recs1. cbn [save_all]. rewrite (bind_ret _ _ _ _ _ Hs1). by split_and!.
  - exists w', logs', d', recs'. cbn [save_all]. rewrite (bind_ret _ _ _ _ _ Hs1).
    split_and!; [done|done|simpl in *; lia|by rewrite Hhs, Hhs1|congruence|congruence|tauto|].
    intros Hne Hn0. apply Hd; [done|congruence].
Qed.

Context (ValidateSnapshotForWrite : WalSnapshot → option error).
Context (cfg : ManagerConfig) (disableEntryIndex : bool) (metadata : list byte) (ops : list (HardState * list Entry)).
Context (page_size : (0 < AlignmentPageSize cfg)%nat).
Context (metadata_fits : recs_ok 0 (create_recs metadata)).
Context (empty_valid : ValidateSnapshotForWrite EmptyWalpbSnapshot = None).
Context (ops_ok : ∀ w, createWalInternal ValidateSnapshotForWrite cfg disableEntryIndex metadata = Ret (Ok w) →
  saves_ok ops w []).
Context (ops_few : Z.of_nat (length ops) + 1 < 2 ^ 64).

(** The log after the run. *)
Lemma run_journal : ∃ w0 w logs d recs,
  createWalInternal ValidateSnapshotForWrite cfg disableEntryIndex metadata = Ret (Ok w0) ∧
  save_all ops w0 = Ret (w, Ok tt) ∧ journal w logs d recs (saved_entries ops) ∧
  Z.of_nat (length logs) + 1 < 2 ^ 64 ∧
  ws_hardState (w_state w) = saved_hardState ops ∧ ws_metadata (w_state w) = metadata ∧
  (disableEntryIndex = false → is_Some (w_storage w)) ∧
  w_enableNoSync w = false ∧ (default [] (last ops.*2) ≠ [] → synced (w_current w) recs).
Proof.
  destruct (createWalInternal_journal ValidateSnapshotForWrite cfg disableEntryIndex metadata)
    as (w0 & Hw0 & Hj0 & Hst0 & Hn0 & Hs0); [done..|].
  destruct (save_all_journal ops w0 _ _ _ _ Hj0 (ops_ok _ Hw0) ltac:(simpl; lia))
    as (w & logs & d & recs & Hs & Hj & Hl & Hhs & Hmd & Hn & Hsto & Hd).
  exists w0, w, logs, d, recs. rewrite Hst0 in Hhs, Hmd. simpl in Hl. split_and!; try done; [lia|tauto|congruence|auto].
Qed.

(** C1: a replay gives back what was saved.  After creating a log and any run of saves
    that raft may make, every save has succeeded; after a sync, a replay of the
    directory, listed in any order, succeeds and returns exactly the metadata, the last
    hard state and the entries saved, later entries replacing the conflicting ones. *)
Theorem saves_recovered : ∃ w0 w w2,
  createWalInternal ValidateSnapshotForWrite cfg disableEntryIndex metadata = Ret (Ok w0) ∧
  save_all ops w0 = Ret (w, Ok tt) ∧ wal_Sync w = Ret (w2, Ok tt) ∧
  (lf_Offset (w_current w2) < 2 ^ 63 → ∀ files, files ≡ₚ read_dir (m_dir (w_mgr w2)) →
   ∃ pl d r, Create files EmptyWalpbSnapshot = Ok pl ∧
     Replay (content <$> m_dir (w_mgr w2)) pl (NewReplayResult ec_clear) true = Ret (d, r, None) ∧
     rr_entries r = saved_entries ops ∧ rr_hardState r = saved_hardState ops ∧ rr_metadata r = metadata).
Proof.
  destruct run_journal as (w0 & w & logs & d & recs & Hw0 & Hw & Hj & Hlen & Hhs & Hmd & _).
  destruct (inv_sync _ _ _ _ _ (jn_inv _ _ _ _ _ Hj)) as (w2 & Hs & Hi & Hb & Hst & _).
  exists w0, w, w2. split_and!; [done..|]. intros Hoff files Hf.
  destruct (recover _ _ _ _ _ _ Hi Hb Hlen Hoff eq_refl) as (d' & r & Hr & He & Hh & Hm & _).
  eexists _, d', r. split_and!; [by eapply create_player|done|done|congruence|congruence].
Qed.

(** C2: the entry index storage serves the log.  After the same runs the storage
    represents exactly the entries saved: cached, or stored in a log file at the position
    its index names, whatever files the log has cycled through. *)
Theorem saves_served : disableEntryIndex = false → ∃ w0 w sto,
  createWalInternal ValidateSnapshotForWrite cfg disableEntryIndex metadata = Ret (Ok w0) ∧
  save_all ops w0 = Ret (w, Ok tt) ∧ w_storage w = Some sto ∧
  represents (w_mgr w) sto {| base := 0; base_term := 0; body := saved_entries ops |}.
Proof.
  intros Hdis. destruct run_journal as (w0 & w & logs & d & recs & Hw0 & Hw & Hj & Hlen & Hhs & Hmd & Hsto & _).
  destruct (Hsto Hdis) as [sto Hs]. exists w0, w, sto. split_and!; [done..|].
  pose proof (jn_sto _ _ _ _ _ Hj) as Hj2. unfold sto_ok in Hj2. rewrite Hs in Hj2. apply Hj2.
Qed.

(** C3: saved entries are durable.  When a save with entries returns, the log's files have
    on stable storage records that denote the whole log: everything saved so far. *)
Theorem saves_durable : default [] (last ops.*2) ≠ [] → ∃ w0 w (logs : Logs) p,
  createWalInternal ValidateSnapshotForWrite cfg disableEntryIndex metadata = Ret (Ok w0) ∧
  save_all ops w0 = Ret (w, Ok tt) ∧
  Forall (λ f, ∃ file, m_dir (w_mgr w) !! GetLogFileName f.1 = Some file ∧
    file_header ++ render 0 f.2 `prefix_of` durable file) logs ∧
  logs_run (fresh EmptyWalpbSnapshot) logs = (p, None) ∧
  rr_entries (p_result p) = saved_entries ops ∧ rr_hardState (p_result p) = saved_hardState ops.
Proof.
  intros Hlast. destruct run_journal as (w0 & w & logs & d & recs & Hw0 & Hw & Hj & Hlen & Hhs & Hmd & _ & Hn & Hd).
  destruct (wi_replay _ _ _ _ _ (jn_inv _ _ _ _ _ Hj)) as (p & Hrun & Hseen & _).
  exists w0, w, (logs ++ [(d, recs)]), p.
  split_and!; [done|done| |done|apply Hseen|rewrite <- Hhs; apply Hseen].
  apply Forall_app. split; [|constructor; [|constructor]].
  - by apply (jn_durable _ _ _ _ _ Hj).
  - exists (pf (enc_writer (w_current w))). split; [|by apply Hd].
    simpl. rewrite <- (wi_file _ _ _ _ _ (jn_inv _ _ _ _ _ Hj)). apply (jn_inv _ _ _ _ _ Hj).
Qed.
End Runs.

(** ** Example *)

Module SaveExamples.
Import PlainRaft Heap Codes.

(** Records whose bodies are not empty and fit. *)
Definition plain (x : Rec) : Prop :=
  match x with
  | RCrc c => is_u32 c
  | REntry t d => t = 0 ∧ d ≠ [] ∧ Z.of_nat (length d) <= maxLogSize
  | _ => rec_body x ≠ [] ∧ Z.of_nat (length (rec_body x)) <= maxLogSize
  end.

Lemma plain_rec_ok c x : plain x → rec_ok c x.
Proof.
  intros Hx. split.
  - destruct x; simpl in *; [by rewrite length_put_u32|tauto..].
  - destruct x; simpl in *; tauto.
  - destruct x; simpl in *; [done|tauto..].
  - eexists. by left.
  - by eexists.
Qed.
Lemma plain_recs_ok c l : Forall plain l → recs_ok c l.
Proof. intros Hl. revert c. induction Hl; intros c; [done|]. split; [by apply plain_rec_ok|done]. Qed.

Lemma plain_encodable w logs d recs ents es st :
  journal w logs d recs ents → Forall plain (save_recs (ws_nextEntry (w_state w)) es st) →
  Forall plain (cycle_recs 0 (save_state (w_state w) es st)) → encodable w es st.
Proof.
  intros Hj Hs Hc. split; [by apply plain_recs_ok|]. apply plain_recs_ok.
  apply Forall_cons in Hc as [_ Hc]. constructor; [|done]. apply crc_after_range.
  rewrite (lo_crc _ _ (wi_log _ _ _ _ _ (jn_inv _ _ _ _ _ Hj)) : LastCrc _ = _). by apply crc_after_range.
Qed.

Definition demo_cfg : ManagerConfig :=
  {| LogFileChunkSize := 64; AlignmentPageSize := 8; PageWriterBufSize := 2; MaxKeepLogFiles := 1 |}.
Definition demo_md : list byte := [Byte.x07].

(** Two entries, the second of which a later leader replaces. *)
Definition hs1 : HardState := {| hs_term := 1; hs_vote := 1; hs_commit := 0 |}.
Definition es1 : list Entry := [normal_entry 1 1 Byte.x41; normal_entry 1 2 Byte.x42].
Definition hs2 : HardState := {| hs_term := 2; hs_vote := 3; hs_commit := 1 |}.
Definition es2 : list Entry := [normal_entry 2 2 Byte.x43; normal_entry 2 3 Byte.x44].
Definition demo_ops : list (HardState * list Entry) := [(hs1, es1); (hs2, es2)].

Ltac solve_plain := repeat (apply Forall_cons; split; [vm_compute; intuition discriminate|]); apply Forall_nil_2.
Ltac decide_z := vm_compute; intuition discriminate.
Ltac solve_save lo :=
  split; [right; exists lo; split_and!; [solve_indexed|decide_z..|by repeat constructor; left]
         |intros ? [= <-]; decide_z|decide_z].

Lemma demo_ops_ok disable w :
  createWalInternal (λ _, None) demo_cfg disable demo_md = Ret (Ok w) → saves_ok demo_ops w [].
Proof.
  intros Hw. destruct (createWalInternal_journal (λ _, None) demo_cfg disable demo_md)
    as (w0 & Hw0 & Hj & Hst & _); [simpl; lia|apply plain_recs_ok; solve_plain|done|].
  assert (w0 = w) as -> by congruence.
  assert (Hsv : save_ok (w_state w) [] es1 hs1) by (rewrite Hst; solve_save 1).
  assert (Henc : encodable w es1 hs1).
  { eapply plain_encodable; [done|rewrite Hst; solve_plain..]. }
  split_and!; [done..|]. intros w' Hs.
  destruct (Save_journal _ _ _ _ _ _ _ Hj Hsv Henc ltac:(simpl; lia))
    as (w1 & logs1 & d1 & recs1 & Hs1 & Hj1 & _ & Hst1 & _).
  assert (w1 = w') as -> by congruence. rewrite Hst in Hst1.
  split_and!; [rewrite Hst1; solve_save 2| |done].
  eapply plain_encodable; [done|rewrite Hst1; solve_plain..].
Qed.

Lemma demo_md_ok : recs_ok 0 (create_recs demo_md).
Proof. apply plain_recs_ok. solve_plain. Qed.

Lemma saves_recovered_witness : ∃ w0 w w2,
  createWalInternal (λ _, None) demo_cfg true demo_md = Ret (Ok w0) ∧
  save_all demo_ops w0 = Ret (w, Ok tt) ∧ wal_Sync w = Ret (w2, Ok tt) ∧
  (lf_Offset (w_current w2) < 2 ^ 63 → ∀ files, files ≡ₚ read_dir (m_dir (w_mgr w2)) →
   ∃ pl d r, Create files EmptyWalpbSnapshot = Ok pl ∧
     Replay (content <$> m_dir (w_mgr w2)) pl (NewReplayResult ec_clear) true = Ret (d, r, None) ∧
     rr_entries r = [normal_entry 1 1 Byte.x41; normal_entry 2 2 Byte.x43; normal_entry 2 3 Byte.x44] ∧
     rr_hardState r = hs2 ∧ rr_metadata r = demo_md).
Proof.
  refine (saves_recovered (λ _, None) demo_cfg true demo_md demo_ops _ demo_md_ok eq_refl (demo_ops_ok true) _);
    simpl; lia.
Defined.

Lemma saves_served_witness : ∃ w0 w sto,
  createWalInternal (λ _, None) demo_cfg false demo_md = Ret (Ok w0) ∧
  save_all demo_ops w0 = Ret (w, Ok tt) ∧ w_storage w = Some sto ∧
  represents (w_mgr w) sto {| base := 0; base_term := 0; body := saved_entries demo_ops |}.
Proof.
  refine (saves_served (λ _, None) demo_cfg false demo_md demo_ops _ demo_md_ok eq_refl (demo_ops_ok false) _ eq_refl);
    simpl; lia.
Defined.

Lemma saves_durable_witness : ∃ w0 w (logs : Logs) p,
  createWalInternal (λ _, None) demo_cfg false demo_md = Ret (Ok w0) ∧
  save_all demo_ops w0 = Ret (w, Ok tt) ∧
  Forall (λ f, ∃ file, m_dir (w_mgr w) !! GetLogFileName f.1 = Some file ∧
    file_header ++ render 0 f.2 `prefix_of` durable file) logs ∧
  logs_run (fresh EmptyWalpbSnapshot) logs = (p, None) ∧
  rr_entries (p_result p) = saved_entries demo_ops ∧ rr_hardState (p_result p) = hs2.
Proof.
  refine (saves_durable (λ _, None) demo_cfg false demo_md demo_ops _ demo_md_ok eq_refl (demo_ops_ok false) _ _);
    [simpl; lia|simpl; lia|discriminate].
Defined.
End SaveExamples.
