(* ===== verification/WalRestart.v ===== *)
(** * Restarting from a log: [babuzawal/common.go]

    Replaying a log directory into an entry storage and reopening the log, looking for
    the snapshots a log knows of.  The theorems say that a restart finds the log it was
    closed with: the entry index a replay builds points at the data of every entry, the
    storage serves the same log and saving may go on. *)

From S2P Require Import Prelude Raftpb Allocator WalCodec PageWriter EntryCache EntryStorage LogFiles.
From S2P Require Import WalReplay LogManager Wal WalStore.

(** etcd's [raft.MemoryStorage], used when the entry index is disabled. *)
Class MemoryStorage (M : Type) := {
  NewMemoryStorage : M;
  ms_ApplySnapshot : M → Snapshot → M;
  ms_SetHardState : M → HardState → M;
  ms_Append : M → list Entry → result M
}.

(** The files a repair changed hold the repaired contents, synced. *)
Definition repaired (d : gmap string File) (dir : Dir) : gmap string File :=
  map_imap (λ name c,
    Some (match d !! name with
          | Some f => if decide (content f = c) then f
                      else {| content := c; fpos := 0; durable := c; faults := faults f |}
          | None => {| content := c; fpos := 0; durable := c; faults := [] |}
          end)) dir.

Definition walSnap_of (snapshot : option Snapshot) : WalSnapshot :=
  match snapshot with
  | None => EmptyWalpbSnapshot
  | Some s => {| ws_index := sm_index (snap_meta s); ws_term := sm_term (snap_meta s);
                 ws_conf := Some (sm_conf (snap_meta s)) |}
  end.

Section Restarting.
Context `{RaftLib} `{BufferPool} `{Message HardState} `{Message WalNextEntry} `{Message WalSnapshot}.

(** The first half of [replayWalInternal]: replay, scan the directory, open the log. *)
Definition replay_open {C} `{EntryCollection C} (cfg : ManagerConfig) (d : gmap string File) (walSnap : WalSnapshot)
    : go (result (ReplayResult C * Wal)) :=
  match Create (read_dir d) walSnap with
  | Err e => Ret (Err e)
  | Ok pl =>
      '(dir, r, err) ← Replay (content <$> d) pl (NewReplayResult ec_clear) true;
      if decide (err ≠ None ∧ err ≠ Some io_ErrUnexpectedEOF) then Ret (Err (default err_unspecified err))
      else
        match NewManagerWithScan cfg (repaired d dir) (ws_index walSnap) with
        | Err e => Ret (Err e)
        | Ok m =>
            match OpenWal m r with
            | Err e => Ret (Err e)
            | Ok w => Ret (Ok (r, w))
            end
        end
  end.


(** [replayWalInternal] without it. *)
Definition replay_memory `{MemoryStorage M} (cfg : ManagerConfig) (snapshot : option Snapshot)
    (deleteUncommitted : bool) (d : gmap string File) : go (result (ReplayResult EntryStore * M * Wal)) :=
  (rw <-? replay_open (C := EntryStore) cfg d (walSnap_of snapshot);;
   let '(r, w) := rw in
   let ms := match snapshot with Some s => ms_ApplySnapshot NewMemoryStorage s | None => NewMemoryStorage end in
   let ms := ms_SetHardState ms (rr_hardState r) in
   let ents := if deleteUncommitted
               then DeleteUncommittedEntry e_index (rr_entries r) (hs_commit (rr_hardState r))
               else rr_entries r in
   match ms_Append ms ents with
   | Err e => Ret (Err e)
   | Ok ms => Ret (Ok (SetEntries r ents, ms, w))
   end)%go.

(** [findSnapshotInternal]: the snapshots of the log that are committed. *)
Definition findSnapshotInternal (d : gmap string File) : go (result (list WalSnapshot)) :=
  match Create (read_dir d) EmptyWalpbSnapshot with
  | Err e => Ret (Err e)
  | Ok pl =>
      '(_, r, err) ← Replay (content <$> d) pl (NewReplayResult (C := NopEntryStore) ec_clear) false;
      if decide (err ≠ None ∧ err ≠ Some io_ErrUnexpectedEOF) then Ret (Err (default err_unspecified err))
      else Ret (Ok (filter (λ s, ws_index s <= hs_commit (rr_hardState r)) (rr_walSnapshots r)))
  end.
End Restarting.

(** [hasWalFilesInDir] of an existing directory. *)
Definition hasWalFilesInDir (files : list (string * bool)) : bool :=
  existsb (λ f, negb f.2 && HasSuffix f.1 ".wal") files.

(** ** The index a replay builds *)

Section Twins.
Context `{BufferPool} `{Message HardState} `{Message WalNextEntry} `{Message WalSnapshot}.
Implicit Types (p : Parser EntryStore) (q : Parser IndexedEntryStore) (logs : Logs) (recs : list Rec).











Lemma log_switch_desc {C} `{EntryCollection C} (p : Parser C) t b n :
  rr_lastLogFileDesc (p_result (fst (log_switch p t b n))) = rr_lastLogFileDesc (p_result p).
Proof. unfold log_switch. repeat case_match; done. Qed.

Lemma rec_run_desc {C} `{EntryCollection C} l (p p' : Parser C) : rec_run p l = (p', None) →
  rr_lastLogFileDesc (p_result p') = rr_lastLogFileDesc (p_result p).
Proof.
  revert p. induction l as [|x l IH]; intros p Hrun; simpl in Hrun; [by simplify_eq|].
  destruct (rec_step p x) as [p1 [e|]] eqn:Hs; [done|]. rewrite (IH _ Hrun).
  unfold rec_step in Hs. set (q := set_crc p (rec_crc (p_crc p) x)) in *.
  pose proof (log_switch_desc q (rec_type x) (rec_body x) (frame_size (rec_body x))) as Ho.
  destruct x; [by simplify_eq/=|..];
    destruct (log_switch _ _ _ _) as [p2 [e|]]; simplify_eq/=; by rewrite Ho.
Qed.

End Twins.

(** ** Opening the log again *)

Section Reopening.
Context `{RaftLib} `{BufferPool} `{Message HardState} `{Message WalNextEntry} `{Message WalSnapshot}.
Implicit Types (w : Wal) (logs : Logs) (ents : list Entry).







(** The log as [OpenWal] finds it. *)
Definition reopened w (m : Manager) : Wal :=
  {| w_mgr := m;
     w_state := {| ws_metadata := ws_metadata (w_state w); ws_nextEntry := ws_nextEntry (w_state w);
                   ws_hardState := ws_hardState (w_state w); ws_lastEntryIndex := 0 |};
     w_current := open_writer m (pf (enc_writer (w_current w))) (LastCrc (w_current w));
     w_file := w_file w; w_storage := None; w_enableNoSync := false |}.


Lemma reopened_inv w logs d recs ents m :
  wal_inv w logs d recs ents → bufWritePos (enc_writer (w_current w)) = 0%nat →
  (0 < AlignmentPageSize (m_cfg m))%nat → m_dir m = m_dir (w_mgr w) → m_nextLogId m = u64 (fd_Id d + 1) →
  (∀ f, f ∈ logs.*1 ++ [d] → m_filesDesc m !! fd_Id f = Some f) →
  wal_inv (reopened w m) logs d recs ents.
Proof.
  intros Hw Hb Hpage Hdir Hnext Hdescs.
  destruct (reopen_ok m _ _ Hpage (wi_log _ _ _ _ _ Hw) Hb) as [_ Hl].
  destruct Hw. split; simpl; rewrite ?Hdir; try done.
Qed.

Lemma OpenWal_ok {C} `{EntryCollection C} w logs d recs ents (q : Parser C) m :
  wal_inv w logs d recs ents → bufWritePos (enc_writer (w_current w)) = 0%nat →
  (0 < AlignmentPageSize (m_cfg m))%nat → m_dir m = m_dir (w_mgr w) →
  (∀ f, f ∈ logs.*1 ++ [d] → m_filesDesc m !! fd_Id f = Some f) →
  Z.of_nat (LogFileHeaderLength + length (render 0 recs)) < 2 ^ 63 →
  logs_run (fresh EmptyWalpbSnapshot) (logs ++ [(d, recs)]) = (q, None) →
  rr_metadata (p_result q) = ws_metadata (w_state w) → rr_hardState (p_result q) = ws_hardState (w_state w) →
  rr_nextEntry (p_result q) = ws_nextEntry (w_state w) →
  OpenWal m (p_result q) = Ok (reopened w m).
Proof.
  intros Hw Hb Hpage Hdir Hdescs Hfit Hrun Hmd Hhs Hne.
  destruct (logs_run_last _ _ _ _ _ Hrun) as (q0 & Hr0 & Hrq).
  pose proof (wi_log _ _ _ _ _ Hw) as Hlog. pose proof (wi_starts _ _ _ _ _ Hw) as Hst.
  assert (rr_lastLogFileDesc (p_result q) = d) as Hqd by (by rewrite (rec_run_desc _ _ _ Hrq)).
  assert (rr_lastValidLogOffset (p_result q) = lf_Offset (w_current w)) as Hqo.
  { rewrite (log_offset _ _ Hlog).
    rewrite (rec_run_offset _ _ _ Hrq); simpl; rewrite ?(render_starts _ _ Hst); lia. }
  assert (rr_lastValidLogCrc (p_result q) = LastCrc (w_current w)) as Hqc.
  { change (rr_lastValidLogCrc (p_result q)) with (p_crc q). rewrite (rec_run_crc _ _ _ Hrq), crc_after_starts by done.
    symmetry. apply Hlog. }
  destruct (reopen_ok m _ _ Hpage Hlog Hb) as [Hseek _].
  destruct (log_content _ _ Hlog Hb) as [n Hc].
  unfold OpenWal, OpenLogFile. rewrite Hqd, Hqo, Hqc, Hdescs by (apply elem_of_app; right; by apply list_elem_of_singleton).
  rewrite <- (wi_file _ _ _ _ _ Hw), Hdir, (wi_dir _ _ _ _ _ Hw).
  rewrite (OpenLogFileHandle_image _ _ (render 0 recs ++ replicate n Byte.x00))
    by (by rewrite lookup_fmap, (wi_dir _ _ _ _ _ Hw), <- Hc).
  rewrite Hseek, Hmd, Hhs, Hne. done.
Qed.

End Reopening.

(** ** The storage after a restart *)

Section Served.
Context `{RaftLib} `{BufferPool} `{Message HardState} `{Message WalNextEntry} `{Message WalSnapshot}.
Implicit Types (w : Wal) (logs : Logs) (ents : list Entry).





End Served.


(** A corrupted tail keeps a node from restarting.  A restart first looks for
    snapshots, with a replay that does not repair; when the last record of the log does
    not match its checksum, as after a crash in the middle of a write, the search fails,
    although the replay that would follow it repairs such a log. *)
Theorem corrupt_tail_blocks_search `{RaftLib} `{BufferPool} `{Message HardState} `{Message WalNextEntry}
    `{Message WalSnapshot} (d : gmap string File) pl logs desc l tail (p : Parser NopEntryStore) (q : Parser EntryStore) :
  torn (content <$> d) logs desc l tail ErrCRCMismatchForOthersMessage →
  Create (read_dir d) EmptyWalpbSnapshot = Ok pl → pl_logFiles pl = (logs ++ [(desc, l)]).*1 →
  logs_run (fresh EmptyWalpbSnapshot) (logs ++ [(desc, l)]) = (p, None) →
  logs_run (fresh EmptyWalpbSnapshot) (logs ++ [(desc, l)]) = (q, None) →
  findSnapshotInternal d = Ret (Err ErrCRCMismatchForOthersMessage) ∧
  ∃ d', Replay (content <$> d) pl (NewReplayResult ec_clear) true = Ret (d', p_result q, None).
Proof.
  intros Ht Hc Hf Hp Hq.
  assert (pl_startSnapshot pl = EmptyWalpbSnapshot) as Hs.
  { unfold Create in Hc. destruct (ReadValidLogFiles _ _); [|done]. by injection Hc as <-. }
  rewrite <- Hs in Hp, Hq.
  destruct (Replay_torn _ _ _ _ _ _ _ _ Ht Hf Hp) as [[r Hr] _].
  destruct (Replay_torn _ _ _ _ _ _ _ _ Ht Hf Hq) as [_ (d' & Hd' & _)].
  split; [|by exists d']. unfold findSnapshotInternal. rewrite Hc, Hr. cbn [mbind go_bind].
  by rewrite decide_True by done.
Qed.

Module RestartExamples.
Import PlainRaft Heap Codes SaveExamples.



(** A log whose last record is not what was written. *)
Import ReplayExamples.
Definition bad_crc : Z := if decide (crc32c (crc_after 0 demo_recs) [Byte.x42] = 0) then 1 else 0.
Definition bad_dir : gmap string File :=
  {[ GetLogFileName demo_desc :=
       {| content := file_header ++ render 0 demo_recs ++ log_frame 0 [Byte.x42] bad_crc ++ replicate 16 Byte.x00;
          fpos := 0; durable := []; faults := [] |} ]}.

Lemma bad_dir_player : Create (read_dir bad_dir) EmptyWalpbSnapshot
  = Ok {| pl_logFiles := [demo_desc]; pl_startSnapshot := EmptyWalpbSnapshot |}.
Proof. unfold read_dir, bad_dir. rewrite map_to_list_singleton. reflexivity. Qed.

Lemma bad_dir_tail : bad_tail (crc_after 0 demo_recs) (log_frame 0 [Byte.x42] bad_crc ++ replicate 16 Byte.x00)
  ErrCRCMismatchForOthersMessage.
Proof.
  right. split; [done|]. exists 0, [Byte.x42], bad_crc, (replicate 16 Byte.x00).
  split; [reflexivity|]. split; [lia|]. split; [discriminate|]. split; [simpl; unfold maxLogSize; lia|].
  unfold bad_crc. destruct (decide (_ = 0)) as [Hz|Hz].
  - split; [lia|]. split; [rewrite Hz; discriminate|]. split; [discriminate|eexists; by left].
  - split; [lia|]. split; [exact (not_eq_sym Hz)|]. split; [discriminate|eexists; by left].
Qed.

Lemma bad_dir_torn : torn (content <$> bad_dir) [] demo_desc demo_recs
  (log_frame 0 [Byte.x42] bad_crc ++ replicate 16 Byte.x00) ErrCRCMismatchForOthersMessage.
Proof.
  split; [constructor|by vm_compute|constructor|done|by apply demo_recs_ok|by vm_compute|apply bad_dir_tail|].
  unfold bad_dir. rewrite map_fmap_singleton, lookup_singleton_eq. reflexivity.
Qed.

Lemma corrupt_tail_blocks_search_witness :
  findSnapshotInternal bad_dir = Ret (Err ErrCRCMismatchForOthersMessage) ∧
  ∃ d', Replay (content <$> bad_dir) {| pl_logFiles := [demo_desc]; pl_startSnapshot := EmptyWalpbSnapshot |}
    (NewReplayResult ec_clear) true = Ret (d', p_result (demo_result demo_recs), None).
Proof.
  refine (corrupt_tail_blocks_search bad_dir _ [] demo_desc demo_recs _
    (fst (logs_run (fresh EmptyWalpbSnapshot) [(demo_desc, demo_recs)])) _ bad_dir_torn bad_dir_player eq_refl _ _).
  - cbn [app]. rewrite (surjective_pairing (logs_run _ _)) at 1. by f_equal.
  - cbn [app logs_run]. change (fresh _) with demo_parser. by rewrite demo_run.
Defined.

(** A new log, synced. *)
Lemma demo_log : ∃ w, createWalInternal (λ _, None) demo_cfg true demo_md = Ret (Ok w) ∧
  wal_inv w [] first_desc (create_recs demo_md) [] ∧ w_state w = new_state demo_md.
Proof.
  destruct (createWalInternal_journal (λ _, None) demo_cfg true demo_md)
    as (w & Hw & Hj & Hst & _); [simpl; lia|apply demo_md_ok|done|]. exists w. split_and!; [done|apply Hj|done].
Qed.

Lemma vote_not_synced_witness : ∃ w w1,
  createWalInternal (λ _, None) demo_cfg true demo_md = Ret (Ok w) ∧ saveHardState hs1 w = Ret (w1, Ok tt) ∧
  Save hs1 [] w = (if DoCycle (w_current w1) then cycle w1 else Ret (w1, Ok tt)) ∧
  durable (pf (enc_writer (w_current w1))) = durable (pf (enc_writer (w_current w))).
Proof.
  destruct demo_log as (w & Hw & Hi & Hst).
  destruct (saveHardState_ok (λ _, None) w (w_state w) (w_current w) _ hs1 (wi_log _ _ _ _ _ Hi)) as (l & Hs & _).
  { apply plain_recs_ok. solve_plain. }
  rewrite (upd_self _ _ _ _ _ Hi) in Hs. eexists w, _. split; [exact Hw|]. split; [exact Hs|].
  apply (vote_not_synced w hs1); [done|by rewrite Hst|exact Hs].
Defined.

Lemma reopened_cycle_hides_witness : ∃ m (r : ReplayResult EntryStore) w w' f,
  OpenWal m r = Ok w ∧ cycle w = Ret (w', Ok tt) ∧
  w_file w' = GetLogFileName f ∧ m_filesDesc (w_mgr w') !! fd_Id f = Some f ∧ fd_StartLogIndex f = 1 ∧
  ∀ older snapIndex, 1 <= snapIndex → needed (older ++ [f]) snapIndex = [f].
Proof.
  destruct demo_log as (w0 & _ & Hi0 & Hst0).
  destruct (inv_sync _ _ _ _ _ Hi0) as (w & _ & Hi & Hb & Hst & _). rewrite Hst0 in Hst.
  destruct (wi_replay _ _ _ _ _ Hi) as (p & Hrun & [_ Hm Hh Hn _] & _).
  assert (Hopen : OpenWal (w_mgr w) (p_result p) = Ok (reopened w (w_mgr w))).
  { apply (OpenWal_ok w [] first_desc (create_recs demo_md) []); try done; try apply Hi. }
  pose proof (reopened_inv _ _ _ _ _ (w_mgr w) Hi Hb (wi_page _ _ _ _ _ Hi) eq_refl (wi_next _ _ _ _ _ Hi)
    (wi_descs _ _ _ _ _ Hi)) as Hr.
  set (w1 := reopened w (w_mgr w)) in *. destruct (wal_tail _ _ _ _ _ Hr ltac:(simpl; lia)) as [_ Htail].
  destruct (cycle_ok (λ _, None) w1 (w_state w1) (w_current w1) _ first_desc (wi_log _ _ _ _ _ Hr) Htail)
    as (lo & ln & Hc & _); [apply Hr|by eapply wal_no_temp| |apply Hr| |].
  { rewrite (wi_file _ _ _ _ _ Hr). apply not_eq_sym, temp_name_ne. }
  { apply plain_recs_ok. unfold w1, reopened. cbn [w_state]. rewrite Hst. constructor; [by apply crc_after_range|].
    solve_plain. }
  rewrite (upd_self _ _ _ _ _ Hr) in Hc.
  destruct (reopened_cycle_hides (w_mgr w) (p_result p) w1 _ Hopen Hc) as (f & Hf).
  exists (w_mgr w), (p_result p), w1. eexists _, f. split; [exact Hopen|]. split; [exact Hc|exact Hf].
Defined.
End RestartExamples.
