(* ===== verification/Streams.v ===== *)
(** * Reading and writing snapshot files

    The helpers of [pkg/utility/fileutil/fileutil.go] the snapshot code is built from:
    64-bit words written to an [io.Writer] and read back from an [io.Reader] through a
    scratch buffer of the pool, and the iteration over a Go map, whose order the language
    leaves open.  A writer is any [Writer]; a reader is the list of its unread bytes.
    Both are paired with the pool, so that a method that takes a buffer and defers its
    release is one definition, [with_buf]. *)

From S2P Require Import Prelude Allocator.

(** ** Methods over a stream and the pool *)

(** [bs := allocator.Acquire(n); defer allocator.Release(bs); body]: the release runs when
    the body returns, with a value or an error. *)
Definition with_buf {S A} (n : Z) (body : ByteSlice → meth (ByteSlicePool * S) A)
    : meth (ByteSlicePool * S) A := fun st =>
  '(p, b) ← Acquire st.1 n;
  '(st', r) ← body b (p, st.2);
  p' ← Release st'.1 (Some b);
  Ret ((p', st'.2), r).

(** A method of the stream alone. *)
Definition on_stream {S A} (m : meth S A) : meth (ByteSlicePool * S) A := fun st =>
  '(s', r) ← m st.2; Ret ((st.1, s'), r).

(** [allocator.Release(b)] in the middle of a body. *)
Definition release_now {S} (b : ByteSlice) : meth (ByteSlicePool * S) unit := fun st =>
  p ← Release st.1 (Some b); Ret ((p, st.2), Ok tt).

(** [w.Write(data)], keeping only the error. *)
Definition write_bytes {W} `{Writer W} (data : list byte) : meth W unit := fun w =>
  '(w', e) ← w_write w data;
  Ret (w', match e with None => Ok tt | Some e => Err e end).

(** [FileWriteUint64] *)
Definition FileWriteUint64 {W} `{Writer W} (v : Z) : meth W unit := write_bytes (put_u64 v).

(** [io.ReadFull] *)
Definition read_bytes (n : nat) : meth (list byte) (list byte) := fun s =>
  let '(r, s') := read_full n s in Ret (s', r).

(** [FileReadUint64] *)
Definition FileReadUint64 : meth (list byte) Z :=
  (b <- read_bytes 8 ;; Meth.ret (get_u64 b))%go.

Lemma FileReadUint64_put v rest : is_u64 v → FileReadUint64 (put_u64 v ++ rest) = Ret (rest, Ok v).
Proof.
  intros Hv. unfold FileReadUint64, read_bytes, Meth.bind.
  rewrite read_full_app by apply length_put_u64. unfold Meth.ret. by rewrite get_put_u64.
Qed.

(** [bytes.Buffer]: a write appends and never fails. *)
#[export] Instance buffer_writer : Writer (list byte) := fun w data => Ret (w ++ data, None).

(** The body of [for k, v := range m] run once for each element, in order. *)
Fixpoint for_each {S A} (body : A → meth S unit) (l : list A) : meth S unit :=
  match l with
  | [] => Meth.ret tt
  | a :: l => (body a ;; for_each body l)%go
  end.

(** A loop of [n] rounds that threads a value. *)
Fixpoint repeat_n {S A} (n : nat) (body : A → meth S A) (a : A) : meth S A :=
  match n with
  | O => Meth.ret a
  | Datatypes.S n => (a' <- body a ;; repeat_n n body a')%go
  end.

(** [range m]: the language promises every element once, in some order. *)
Class MapRange := {
  range : ∀ {K} `{Countable K} {V}, gmap K V → list (K * V);
  range_perm : ∀ {K} `{Countable K} {V} (m : gmap K V), range m ≡ₚ map_to_list m
}.
#[export] Instance sorted_range : MapRange := {| range K _ _ V m := map_to_list m; range_perm K _ _ V m := reflexivity _ |}.

Section Range.
Context `{MapRange} {K : Type} `{Countable K}.

Lemma range_list_to_map {V} (m : gmap K V) : list_to_map (range m) = m.
Proof.
  rewrite <- (list_to_map_to_list m) at 2. apply list_to_map_proper; [|by rewrite range_perm].
  rewrite range_perm. apply NoDup_fst_map_to_list.
Qed.

Lemma length_range {V} (m : gmap K V) : length (range m) = size m.
Proof. by rewrite range_perm, length_map_to_list. Qed.

Lemma elem_of_range {V} (m : gmap K V) k v : (k, v) ∈ range m ↔ m !! k = Some v.
Proof. by rewrite range_perm, elem_of_map_to_list. Qed.

(** Storing the elements of a map one by one, whatever their order, rebuilds it. *)
Lemma foldl_insert_map {V V'} (f : V → V') (l : list (K * V)) (m : gmap K V') :
  foldl (fun m '(k, v) => <[k := f v]> m) m l = list_to_map (prod_map id f <$> reverse l) ∪ m.
Proof.
  revert m. induction l as [|[k v] l IH]; simpl; intros m; [by rewrite (left_id_L ∅ (∪))|].
  rewrite IH, reverse_cons, fmap_app, list_to_map_app. simpl.
  rewrite <- (assoc_L (∪)). f_equal. by rewrite <- insert_union_l, (left_id_L ∅ (∪)).
Qed.

Lemma foldl_range {V V'} (f : V → V') (m : gmap K V) :
  foldl (fun m '(k, v) => <[k := f v]> m) ∅ (range m) = f <$> m.
Proof.
  rewrite foldl_insert_map, (right_id_L ∅ (∪)).
  rewrite list_to_map_fmap, (list_to_map_proper _ (range m)); [by rewrite range_list_to_map| |by rewrite reverse_Permutation].
  rewrite reverse_Permutation, range_perm. apply NoDup_fst_map_to_list.
Qed.
End Range.

(** ** Pools that serve, and what a method writes and reads *)

(** The pool's levels are [L] and every buffer lies in the level of its capacity. *)
Definition pool_ok (L : list Z) (p : ByteSlicePool) : Prop :=
  levelSize <$> pools p = L ∧
  Forall (fun l => Forall (fun b => cap b = levelSize l) (bag l)) (pools p).

(** A request of [n] bytes is served. *)
Definition serves (L : list Z) (n : Z) : Prop := 0 < n ∧ Exists (fun s => n <= s) L.

Lemma Acquire_ok L p n : pool_ok L p → serves L n →
  ∃ p' b, Acquire p n = Ret (p', b) ∧ pool_ok L p' ∧ cap b ∈ L.
Proof.
  intros [HL Hb] [Hn Hex]. unfold Acquire. rewrite decide_False by lia.
  destruct (acquire_levels _ _ _) as [[[ls b] nx]|] eqn:E.
  - destruct (acquire_levels_spec _ _ _ _ _ _ E Hb) as (Hb' & Hsz & _ & Hc & _).
    do 2 eexists. split; [done|]. rewrite <- HL. split; [split; simpl; [congruence|done]|done].
  - apply acquire_levels_None in E. exfalso. subst L. rewrite Exists_fmap in Hex.
    apply Exists_exists in Hex as (l & Hl & Hle). rewrite Forall_forall in E. apply E in Hl. simpl in Hle. lia.
Qed.

Lemma Release_ok L p b : pool_ok L p → cap b ∈ L → ∃ p', Release p (Some b) = Ret p' ∧ pool_ok L p'.
Proof.
  intros [<- Hb] Hc. destruct (release_levels_spec _ _ Hc Hb) as (ls & Hr & Hb' & Hsz & _).
  unfold Release. rewrite Hr. eexists. split; [done|]. by split.
Qed.

(** A writer that takes everything: what was written to it is [out]. *)
Class LawfulWriter (W : Type) `{Writer W} := {
  wrote : W → list byte → Prop;
  wrote_write w out b : wrote w out → ∃ w', w_write w b = Ret (w', None) ∧ wrote w' (out ++ b)
}.
#[export] Instance buffer_lawful : LawfulWriter (list byte).
Proof. refine {| wrote w out := w = out |}. intros w out b ->. by eexists. Defined.

Section Specs.
Context (L : list Z).

Section Writes.
Context {W : Type} `{LawfulWriter W}.

(** [m] writes exactly [b] and succeeds. *)
Definition writes (m : meth (ByteSlicePool * W) unit) (b : list byte) : Prop :=
  ∀ p w out, pool_ok L p → wrote w out →
  ∃ p' w', m (p, w) = Ret ((p', w'), Ok tt) ∧ pool_ok L p' ∧ wrote w' (out ++ b).

Lemma writes_bind m k b c : writes m b → writes k c → writes (Meth.bind m (fun _ => k)) (b ++ c).
Proof.
  intros Hm Hk p w out Hp Hw. destruct (Hm p w out Hp Hw) as (p1 & w1 & E & H1 & Hw1).
  destruct (Hk p1 w1 (out ++ b) H1 Hw1) as (p2 & w2 & E2 & H2 & Hw2). exists p2, w2.
  unfold Meth.bind. rewrite E, E2. by rewrite (assoc_L (++)).
Qed.

Lemma writes_ret : writes (Meth.ret tt) [].
Proof. intros p w out Hp Hw. exists p, w. by rewrite app_nil_r. Qed.

Lemma writes_stream m b :
  (∀ w out, wrote w out → ∃ w', m w = Ret (w', Ok tt) ∧ wrote w' (out ++ b)) → writes (on_stream m) b.
Proof.
  intros Hm p w out Hp Hw. destruct (Hm w out Hw) as (w' & E & Hw'). exists p, w'.
  unfold on_stream. cbn [fst snd]. by rewrite E.
Qed.

Lemma writes_bytes b : writes (on_stream (write_bytes b)) b.
Proof.
  apply writes_stream. intros w out Hw. destruct (wrote_write w out b Hw) as (w' & E & Hw').
  exists w'. unfold write_bytes. by rewrite E.
Qed.

Lemma writes_u64 v : writes (on_stream (FileWriteUint64 v)) (put_u64 v).
Proof. apply writes_bytes. Qed.

Lemma writes_each {A} (body : A → meth (ByteSlicePool * W) unit) enc l :
  (∀ a, a ∈ l → writes (body a) (enc a)) → writes (for_each body l) (l ≫= enc).
Proof.
  induction l as [|a l IH]; simpl; intros Hl; [apply writes_ret|].
  apply writes_bind; [apply Hl; by left|]. apply IH. intros a' ?. apply Hl. by right.
Qed.

Lemma writes_buf n body b :
  serves L n → (∀ bs, cap bs ∈ L → writes (body bs) b) → writes (with_buf n body) b.
Proof.
  intros Hn Hbody p w out Hp Hw. destruct (Acquire_ok L p n Hp Hn) as (p1 & bs & E1 & H1 & Hc).
  destruct (Hbody bs Hc p1 w out H1 Hw) as (p2 & w2 & E2 & H2 & Hw2).
  destruct (Release_ok L p2 bs H2 Hc) as (p3 & E3 & H3).
  exists p3, w2. unfold with_buf. cbn [fst snd]. rewrite E1. cbn [mbind go_bind fst snd]. rewrite E2.
  cbn [mbind go_bind fst snd]. by rewrite E3.
Qed.
End Writes.

(** [m] takes exactly [b] off the front of the input and returns [a]. *)
Definition reads {A} (m : meth (ByteSlicePool * list byte) A) (b : list byte) (a : A) : Prop :=
  ∀ p rest, pool_ok L p → ∃ p', m (p, b ++ rest) = Ret ((p', rest), Ok a) ∧ pool_ok L p'.

Lemma reads_bind {A B} (m : meth _ A) (k : A → meth _ B) b c a r :
  reads m b a → reads (k a) c r → reads (Meth.bind m k) (b ++ c) r.
Proof.
  intros Hm Hk p rest Hp. destruct (Hm p (c ++ rest) Hp) as (p1 & E & H1).
  destruct (Hk p1 rest H1) as (p2 & E2 & H2). exists p2. unfold Meth.bind.
  by rewrite <- (assoc_L (++)), E, E2.
Qed.

(** The rest of the method reads nothing more. *)
Lemma reads_bind_last {A B} (m : meth _ A) (k : A → meth _ B) b a r :
  reads m b a → reads (k a) [] r → reads (Meth.bind m k) b r.
Proof. intros Hm Hk. rewrite <- (app_nil_r b). by eapply reads_bind. Qed.

Lemma reads_ret {A} (a : A) : reads (Meth.ret a) [] a.
Proof. intros p rest Hp. by exists p. Qed.

Lemma reads_bytes b n : n = length b → reads (on_stream (read_bytes n)) b b.
Proof.
  intros -> p rest Hp. exists p. unfold on_stream, read_bytes. cbn [fst snd].
  by rewrite read_full_app.
Qed.

Lemma reads_u64 v : is_u64 v → reads (on_stream FileReadUint64) (put_u64 v) v.
Proof.
  intros Hv p rest Hp. exists p. unfold on_stream. cbn [fst snd]. by rewrite FileReadUint64_put.
Qed.

Lemma reads_each {A B} (body : B → meth (ByteSlicePool * list byte) B) (enc : A → list byte) (g : B → A → B) l acc :
  (∀ a acc, a ∈ l → reads (body acc) (enc a) (g acc a)) →
  reads (repeat_n (length l) body acc) (l ≫= enc) (foldl g acc l).
Proof.
  revert acc. induction l as [|a l IH]; simpl; intros acc Hl; [apply reads_ret|].
  eapply reads_bind; [apply Hl; by left|]. apply IH. intros a' acc' ?. apply Hl. by right.
Qed.

Lemma reads_buf {A} n (body : ByteSlice → meth _ A) b a :
  serves L n → (∀ bs, cap bs ∈ L → reads (body bs) b a) → reads (with_buf n body) b a.
Proof.
  intros Hn Hbody p out Hp. destruct (Acquire_ok L p n Hp Hn) as (p1 & bs & E1 & H1 & Hc).
  destruct (Hbody bs Hc p1 out H1) as (p2 & E2 & H2).
  destruct (Release_ok L p2 bs H2 Hc) as (p3 & E3 & H3).
  exists p3. unfold with_buf. cbn [fst snd]. rewrite E1. cbn [mbind go_bind fst snd]. rewrite E2.
  cbn [mbind go_bind fst snd]. by rewrite E3.
Qed.

Lemma reads_release {A} bs (k : meth _ A) b a :
  cap bs ∈ L → reads k b a → reads (Meth.bind (release_now bs) (fun _ => k)) b a.
Proof.
  intros Hc Hk p rest Hp. destruct (Release_ok L p bs Hp Hc) as (p1 & E & H1).
  destruct (Hk p1 rest H1) as (p2 & E2 & H2). exists p2.
  unfold Meth.bind, release_now. cbn [fst snd]. rewrite E. cbn [mbind go_bind]. by rewrite E2.
Qed.
End Specs.

Create HintDb streams.
#[export] Hint Resolve writes_ret writes_bytes writes_u64 reads_ret : streams.
