(* ===== verification/Session.v ===== *)
(** * Client sessions: [pkg/session/session.go], [pkg/session/apply_result_serializer.go]

    A session remembers, by sequence number, the results of the commands of one client
    that the client has not acknowledged yet.  Sessions are part of a snapshot, so results
    are encoded into a stream and decoded again.  The theorems show what of a session
    survives the round trip, and what decoding a stored error does to the buffer pool. *)

From S2P Require Import Prelude Allocator Streams.

(** ** Results: [ibabuza/statemachine.go] *)

(** [ApplyResult]; [R] is the type of the dynamic values [Response] can have, [None] is nil. *)
Record ApplyResult {R : Type} := { LogIndex : Z; ar_Response : option R; ar_Error : option error }.
Arguments ApplyResult : clear implicits.

(** [ApplyResult{}] *)
Definition noResult {R} : ApplyResult R := {| LogIndex := 0; ar_Response := None; ar_Error := None |}.

Definition IsEmpty {R} (ar : ApplyResult R) : bool :=
  bool_decide (LogIndex ar = 0) && bool_decide (ar_Response ar = None)
  && bool_decide (ar_Error ar = None).

(** [err.Error()] and [errors.New].  A sentinel's text is written as its name. *)
Definition Error_text (e : error) : list byte :=
  String.list_byte_of_string (match e with Sentinel n => n | Errorf s => s end).
Definition errors_New (text : list byte) : error := Errorf (String.string_of_list_byte text).

(** [ibabuza.ResponseSerializer]: the application's encoding of its responses. *)
Record ResponseSerializer {W R : Type} := {
  Serialize : R → meth W unit;
  Deserialize : meth (list byte) R
}.
Arguments ResponseSerializer : clear implicits.

(** ** [applyResultSerializer] *)

Definition stateMachineResponse : Z := 1.
Definition stateMachineResponseErr : Z := 2.
Definition stateMachineResponseNil : Z := 3.

Section Serializer.
Context {W R : Type} `{Writer W}.
Implicit Types (m : option (ResponseSerializer W R)) (ar : ApplyResult R).
Open Scope go_scope.

(** The receiver is nil until [SetResponseSerializer] was called. *)
Definition nil_deref : string := "runtime error: invalid memory address or nil pointer dereference".

Definition Marshal m ar : meth (ByteSlicePool * W) unit :=
  with_buf 8 (fun _ =>
    on_stream (FileWriteUint64 (LogIndex ar)) ;;
    match ar_Error ar, ar_Response ar with
    | None, None => on_stream (FileWriteUint64 stateMachineResponseNil)
    | Some e, _ =>
        on_stream (FileWriteUint64 stateMachineResponseErr) ;;
        let data := Error_text e in
        on_stream (FileWriteUint64 (Z.of_nat (length data))) ;;
        on_stream (write_bytes data)
    | None, Some r =>
        on_stream (FileWriteUint64 stateMachineResponse) ;;
        match m with
        | Some rs => on_stream (Serialize rs r)
        | None => Meth.panic nil_deref
        end
    end).

(** The function literal of the error case: the buffer is released before the deferred
    release. *)
Definition unmarshal_error (allocDataSize index : Z) : meth (ByteSlicePool * list byte) (ApplyResult R) :=
  with_buf (i64 allocDataSize) (fun bs =>
    errBuf <- on_stream (read_bytes (Z.to_nat allocDataSize)) ;;
    let nErr := errors_New errBuf in
    release_now bs ;;
    Meth.ret {| LogIndex := index; ar_Response := None; ar_Error := Some nErr |}).

Definition Unmarshal m : meth (ByteSlicePool * list byte) (ApplyResult R) :=
  with_buf 8 (fun _ =>
    logIndex <- on_stream FileReadUint64 ;;
    responseType <- on_stream FileReadUint64 ;;
    if decide (responseType = stateMachineResponse) then
      match m with
      | Some rs =>
          res <- on_stream (Deserialize rs) ;;
          Meth.ret {| LogIndex := logIndex; ar_Response := Some res; ar_Error := None |}
      | None => Meth.panic nil_deref
      end
    else if decide (responseType = stateMachineResponseErr) then
      dataSize <- on_stream FileReadUint64 ;;
      unmarshal_error dataSize logIndex
    else if decide (responseType = stateMachineResponseNil) then
      Meth.ret {| LogIndex := logIndex; ar_Response := None; ar_Error := None |}
    else Meth.fail (Errorf "applyResultSerializer: unknown response type (%d)")).
End Serializer.

(** ** [Session] *)

Record Session {R : Type} := {
  id : Z;
  lastActiveNanoseconds : Z;
  s_result : gmap Z (ApplyResult R)
}.
Arguments Session : clear implicits.

Section Session.
Context {R : Type}.
Implicit Types (s : Session R) (ar : ApplyResult R).

Definition NewSession (sid lastActive : Z) : Session R :=
  {| id := sid; lastActiveNanoseconds := lastActive; s_result := ∅ |}.

(** Deleting inside the loop over the map: every element is visited, and removed when its
    number is below the bound. *)
Definition ClearResult (lowestSeqNumNotYetReplied : Z) s : Session R :=
  {| id := id s; lastActiveNanoseconds := lastActiveNanoseconds s;
     s_result := filter (fun '(seq, _) => ¬ seq < lowestSeqNumNotYetReplied) (s_result s) |}.

Definition RepeatSequenceNum (seqNum : Z) s : bool := bool_decide (is_Some (s_result s !! seqNum)).

Definition AddResult (sequenceNum lastActive : Z) ar s : Session R * option error :=
  match s_result s !! sequenceNum with
  | Some _ => (s, Some (Errorf "session: sequence number (%d) exists"))
  | None => ({| id := id s; lastActiveNanoseconds := lastActive;
                s_result := <[sequenceNum := ar]> (s_result s) |}, None)
  end.

Definition GetResult (seqNum : Z) s : option (ApplyResult R) := s_result s !! seqNum.
End Session.

Section SessionSnapshot.
Context {W R : Type} `{Writer W, MapRange}.
Open Scope go_scope.

Definition Snapshot (ars : option (ResponseSerializer W R)) (s : Session R) : meth (ByteSlicePool * W) unit :=
  with_buf 8 (fun _ =>
    on_stream (FileWriteUint64 (id s)) ;;
    on_stream (FileWriteUint64 (u64 (lastActiveNanoseconds s))) ;;
    on_stream (FileWriteUint64 (Z.of_nat (size (s_result s)))) ;;
    for_each (fun '(seqNum, result) =>
      on_stream (FileWriteUint64 seqNum) ;; Marshal ars result) (range (s_result s))).

(** [Restore] on a zero session; an error leaves nothing the callers look at. *)
Definition Restore (ars : option (ResponseSerializer W R)) : meth (ByteSlicePool * list byte) (Session R) :=
  with_buf 8 (fun _ =>
    sid <- on_stream FileReadUint64 ;;
    n <- on_stream FileReadUint64 ;;
    count <- on_stream FileReadUint64 ;;
    result <- repeat_n (Z.to_nat count) (fun result =>
                seqNum <- on_stream FileReadUint64 ;;
                ar <- Unmarshal ars ;;
                Meth.ret (<[seqNum := ar]> result)) ∅ ;;
    Meth.ret {| id := sid; lastActiveNanoseconds := i64 n; s_result := result |}).
End SessionSnapshot.

(** ** What a snapshot keeps *)

(** An error is stored as its text and comes back as a new error, without a response. *)
Definition kept {R} (ar : ApplyResult R) : ApplyResult R :=
  match ar_Error ar with
  | Some e => {| LogIndex := LogIndex ar; ar_Response := None; ar_Error := Some (errors_New (Error_text e)) |}
  | None => ar
  end.

Definition kept_session {R} (s : Session R) : Session R :=
  {| id := id s; lastActiveNanoseconds := lastActiveNanoseconds s; s_result := kept <$> s_result s |}.

(** Decoding undoes encoding for the responses in [ok]. *)
Record LawfulSerializer {W R} `{LawfulWriter W} (rs : ResponseSerializer W R) (ok : R → Prop) := {
  enc_response : R → list byte;
  Serialize_enc r w out : ok r → wrote w out →
    ∃ w', Serialize rs r w = Ret (w', Ok tt) ∧ wrote w' (out ++ enc_response r);
  Deserialize_enc r rest : ok r → Deserialize rs (enc_response r ++ rest) = Ret (rest, Ok r)
}.
Arguments enc_response {W R _ _ rs ok}.
Arguments Serialize_enc {W R _ _ rs ok}.
Arguments Deserialize_enc {W R _ _ rs ok}.

Section RoundTrip.
Context {W R : Type} `{LawfulWriter W, MapRange} (L : list Z).
Context (rs : ResponseSerializer W R) (ok : R → Prop) (lawful : LawfulSerializer rs ok).
Context (serves_word : serves L 8).

(** A result whose fields fit the encoding: an error has a text, and a buffer for it can
    be had. *)
Definition result_wf (ar : ApplyResult R) : Prop :=
  is_u64 (LogIndex ar) ∧
  match ar_Error ar, ar_Response ar with
  | Some e, _ => serves L (Z.of_nat (length (Error_text e))) ∧ Z.of_nat (length (Error_text e)) < 2 ^ 63
  | None, Some r => ok r
  | None, None => True
  end.

Record session_wf (s : Session R) : Prop := {
  sw_id : is_u64 (id s);
  sw_time : is_i64 (lastActiveNanoseconds s);
  sw_count : is_u64 (Z.of_nat (size (s_result s)));
  sw_results : map_Forall (fun seq ar => is_u64 seq ∧ result_wf ar) (s_result s)
}.

Definition enc_result (ar : ApplyResult R) : list byte :=
  put_u64 (LogIndex ar) ++
  match ar_Error ar, ar_Response ar with
  | None, None => put_u64 stateMachineResponseNil
  | Some e, _ => put_u64 stateMachineResponseErr ++
                 put_u64 (Z.of_nat (length (Error_text e))) ++ Error_text e
  | None, Some r => put_u64 stateMachineResponse ++ enc_response lawful r
  end.

Definition enc_session (s : Session R) : list byte :=
  put_u64 (id s) ++ put_u64 (u64 (lastActiveNanoseconds s)) ++
  put_u64 (Z.of_nat (size (s_result s))) ++
  (range (s_result s) ≫= fun '(seq, ar) => put_u64 seq ++ enc_result ar).

Lemma Marshal_writes ar : result_wf ar → writes L (Marshal (Some rs) ar) (enc_result ar).
Proof using serves_word.
  intros [Hi Hr]. apply writes_buf; [done|]. intros _ _. apply writes_bind; [auto with streams|].
  destruct (ar_Error ar) as [e|].
  - apply writes_bind; [auto with streams|]. apply writes_bind; auto with streams.
  - destruct (ar_Response ar) as [r|]; [|auto with streams].
    apply writes_bind; [auto with streams|]. apply writes_stream. intros w out. by apply Serialize_enc.
Qed.

Lemma Unmarshal_reads ar : result_wf ar → reads L (Unmarshal (Some rs)) (enc_result ar) (kept ar).
Proof using serves_word.
  intros [Hi Hr]. apply reads_buf; [done|]. intros _ _. unfold enc_result, kept.
  eapply reads_bind; [by apply reads_u64|]. cbv beta.
  destruct (ar_Error ar) as [e|] eqn:Ee; [|destruct (ar_Response ar) as [r|] eqn:Er].
  - destruct Hr as [[Hpos Hs] Hlt].
    eapply reads_bind; [by apply reads_u64|]. cbn [decide]. rewrite decide_False, decide_True by done.
    eapply reads_bind; [apply reads_u64; lia|]. unfold unmarshal_error.
    rewrite i64_small, Nat2Z.id by lia. apply reads_buf; [done|]. intros bs Hbs.
    rewrite <- (app_nil_r (Error_text e)) at 2. eapply reads_bind; [by apply reads_bytes|].
    apply reads_release; [done|]. apply reads_ret.
  - eapply reads_bind; [by apply reads_u64|]. rewrite decide_True by done.
    rewrite <- (app_nil_r (enc_response lawful r)).
    destruct ar; simpl in *; subst. eapply reads_bind; [|apply reads_ret]. intros p rest Hp. exists p.
    unfold on_stream. cbn [fst snd]. by rewrite (Deserialize_enc lawful) by done.
  - rewrite <- (app_nil_r (put_u64 stateMachineResponseNil)).
    eapply reads_bind; [by apply reads_u64|]. rewrite !decide_False, decide_True by done.
    destruct ar; simpl in *; subst. apply reads_ret.
Qed.

Lemma range_wf s seq ar : session_wf s → (seq, ar) ∈ range (s_result s) → is_u64 seq ∧ result_wf ar.
Proof using.
  intros Hs Hin. rewrite range_perm in Hin. apply elem_of_map_to_list in Hin.
  by apply (sw_results _ Hs).
Qed.

Lemma Snapshot_writes s : session_wf s → writes L (Snapshot (Some rs) s) (enc_session s).
Proof using serves_word.
  intros Hs. apply writes_buf; [done|]. intros _ _. do 3 (apply writes_bind; [auto with streams|]).
  apply (writes_each _ _ (fun '(seq, ar) => put_u64 seq ++ enc_result ar)). intros [seq ar] Hin.
  apply writes_bind; [auto with streams|]. apply Marshal_writes. by eapply range_wf.
Qed.

Lemma Restore_reads s : session_wf s → reads L (Restore (Some rs)) (enc_session s) (kept_session s).
Proof using serves_word.
  intros Hs. apply reads_buf; [done|]. intros _ _. unfold enc_session.
  eapply reads_bind; [apply reads_u64; apply Hs|]. cbv beta.
  eapply reads_bind; [apply reads_u64, u64_range|]. cbv beta.
  eapply reads_bind; [apply reads_u64; apply Hs|]. cbv beta.
  rewrite Nat2Z.id, <- length_range, i64_u64 by apply Hs.
  rewrite <- (app_nil_r (_ ≫= _)). eapply reads_bind.
  - apply (reads_each _ _ _ (fun m '(k, ar) => <[k := kept ar]> m)). intros [seq ar] acc Hin.
    destruct (range_wf _ _ _ Hs Hin) as [Hseq Har].
    eapply reads_bind; [by apply reads_u64|]. rewrite <- (app_nil_r (enc_result ar)).
    eapply reads_bind; [by apply Unmarshal_reads|]. apply reads_ret.
  - rewrite foldl_range. apply reads_ret.
Qed.
End RoundTrip.

(** ** The pool after decoding an error *)

Lemma release_levels_bags ls b ls' :
  release_levels ls b = Some ls' → ls' ≫= bag ≡ₚ b :: (ls ≫= bag).
Proof.
  revert ls'. induction ls as [|l ls IH]; simpl; intros ls' Heq; [done|]. case_decide; simplify_eq/=; [done|].
  destruct (release_levels ls b) as [ls1|]; simplify_eq/=. rewrite (IH ls1) by done.
  by rewrite Permutation_middle.
Qed.

Lemma Release_pooled p b p' : Release p (Some b) = Ret p' → pooled p' ≡ₚ b :: pooled p.
Proof.
  unfold Release. destruct (release_levels _ _) eqn:E; intros ?; simplify_eq/=.
  by apply release_levels_bags.
Qed.

(** What a method that takes a buffer returns went through the deferred release. *)
Lemma with_buf_Ret {S A} n (body : ByteSlice → meth (ByteSlicePool * S) A) st p' s' r :
  with_buf n body st = Ret ((p', s'), r) →
  ∃ p1 b p2, Acquire st.1 n = Ret (p1, b) ∧ body b (p1, st.2) = Ret ((p2, s'), r) ∧
    pooled p' ≡ₚ b :: pooled p2.
Proof.
  unfold with_buf. destruct (Acquire st.1 n) as [[p1 b]|] eqn:E1; [|done]. cbn [mbind go_bind].
  destruct (body b (p1, st.2)) as [[[p2 s2] r2]|] eqn:E2; [|done]. cbn [mbind go_bind fst snd].
  destruct (Release p2 (Some b)) as [p3|] eqn:E3; [|done]. cbn [mbind go_bind].
  intros [= -> -> ->]. exists p1, b, p2. split_and!; [done..|]. by apply Release_pooled.
Qed.

Lemma bind_Ret {S A B} (m : meth S A) (k : A → meth S B) st st' b :
  Meth.bind m k st = Ret (st', Ok b) → ∃ st1 a, m st = Ret (st1, Ok a) ∧ k a st1 = Ret (st', Ok b).
Proof. unfold Meth.bind. destruct (m st) as [[s1 [a|e]]|]; intros; simplify_eq. by eauto. Qed.

Lemma unmarshal_error_pooled {R} n idx st p' rest (ar : ApplyResult R) :
  unmarshal_error n idx st = Ret ((p', rest), Ok ar) → ∃ b l, pooled p' ≡ₚ b :: b :: l.
Proof.
  intros (p1 & b & p2 & _ & Hb & Hp)%with_buf_Ret.
  apply bind_Ret in Hb as ([p3 s3] & t & _ & Hb). apply bind_Ret in Hb as ([p4 s4] & u & Hb & Hr).
  unfold Meth.ret in Hr. simplify_eq. unfold release_now in Hb. cbn [fst snd] in Hb.
  destruct (Release p3 (Some b)) as [p5|] eqn:E; [|done]. cbn [mbind go_bind] in Hb. simplify_eq.
  apply Release_pooled in E. rewrite E in Hp. by eauto.
Qed.

(** A buffer is returned to the pool twice whenever a stored error is decoded: after a
    successful [Unmarshal] of a result with an error, some buffer lies in the pool twice, so
    two later holders can be handed the same memory. *)
Theorem Unmarshal_releases_twice {W R} (m : option (ResponseSerializer W R)) p input p' rest ar e :
  Unmarshal m (p, input) = Ret ((p', rest), Ok ar) → ar_Error ar = Some e →
  ∃ b l, pooled p' ≡ₚ b :: b :: l.
Proof.
  intros (p1 & b & p2 & _ & Hb & Hp)%with_buf_Ret He.
  apply bind_Ret in Hb as (st1 & idx & _ & Hb). apply bind_Ret in Hb as (st2 & ty & _ & Hb).
  repeat case_decide.
  - destruct m as [rs|]; [|done]. apply bind_Ret in Hb as (st3 & r & _ & Hb).
    unfold Meth.ret in Hb. by simplify_eq.
  - apply bind_Ret in Hb as (st3 & n & _ & (b' & l & Hl)%unmarshal_error_pooled).
    exists b', (b :: l). rewrite Hp, Hl. by rewrite (Permutation_swap b b'), (Permutation_swap b b').
  - unfold Meth.ret in Hb. by simplify_eq.
  - done.
Qed.

(** An error whose text is empty can be stored but not loaded: writing it succeeds,
    and reading it back panics in the pool. *)
Theorem empty_error_unreadable {R} (rs : ResponseSerializer (list byte) R) L p idx e rest :
  serves L 8 → pool_ok L p → is_u64 idx → Error_text e = [] →
  let ar := {| LogIndex := idx; ar_Response := None; ar_Error := Some e |} in
  ∃ p' b msg, Marshal (Some rs) ar (p, []) = Ret ((p', b), Ok tt) ∧
    Unmarshal (Some rs) (p, b ++ rest) = Panic msg.
Proof.
  intros Hw Hp Hi He ar.
  set (b := put_u64 idx ++ put_u64 stateMachineResponseErr ++ put_u64 0).
  assert (writes L (Marshal (Some rs) ar) b) as Hm.
  { apply writes_buf; [done|]. intros _ _. apply writes_bind; [auto with streams|]. simpl. rewrite He.
    apply writes_bind; [auto with streams|]. simpl. rewrite <- (app_nil_r (put_u64 0)).
    apply writes_bind; auto with streams. }
  destruct (Hm p [] [] Hp eq_refl) as (p' & ? & Hp' & _ & ->). exists p', b.
  destruct (Acquire_ok L p 8 Hp Hw) as (p1 & bs & E1 & H1 & Hc).
  exists "allocator: byteSize is equal to 0". split; [done|]. unfold Unmarshal, with_buf at 1. cbn [fst snd]. rewrite E1.
  cbn [mbind go_bind fst snd].
  destruct (reads_u64 L idx Hi p1 (put_u64 stateMachineResponseErr ++ put_u64 0 ++ rest) H1) as (q1 & E3 & Hq1).
  destruct (reads_u64 L stateMachineResponseErr ltac:(done) q1 (put_u64 0 ++ rest) Hq1) as (q2 & E4 & Hq2).
  destruct (reads_u64 L 0 ltac:(done) q2 rest Hq2) as (q3 & E5 & Hq3).
  unfold b, Meth.bind at 1. rewrite <- !(assoc_L (++)), E3. unfold Meth.bind at 1. rewrite E4.
  rewrite decide_False, decide_True by done. unfold Meth.bind at 1. rewrite E5.
  unfold unmarshal_error, with_buf. cbn [fst snd]. rewrite i64_small by lia. done.
Qed.

(** ** Session managers: the interface [ibabuza.SessionManager] *)

Definition NoOPSessionID : Z := 0.
Definition fileVersion : Z := 1.
Definition expiredManagerType : Z := 1.
Definition lruManagerType : Z := 2.
Definition noOpManagerType : Z := 3.

(** A value of the interface type [ibabuza.Session]: the no-op session, or a pointer to
    the session a manager keeps under an id. *)
Inductive handle := NoOpSession | SessionAt (sid : Z).

(** What the apply loop calls.  [sm_deref] and [sm_assign] read and change the session a
    pointer leads to. *)
Class SessionManager (R M : Type) := {
  sm_Register : Z → Z → M → M * option error;
  sm_UnRegister : Z → M → M * option error;
  sm_ExpireSession : Z → M → M;
  sm_GetSession : Z → M → M * result handle;
  sm_deref : M → Z → option (Session R);
  sm_assign : Z → Session R → M → M
}.

(** What managers that keep sessions promise: a session is never made up, and keeps its
    results until it goes. *)
Class LawfulManager (R M : Type) `{SessionManager R M} := {
  sm_inv : M → Prop;
  sm_Register_law m sid t m' e : sm_inv m → sm_Register sid t m = (m', e) →
    sm_inv m' ∧ ∀ i s, sm_deref m' i = Some s →
      sm_deref m i = Some s ∨ (i = sid ∧ sm_deref m i = None ∧ s = NewSession sid t);
  sm_UnRegister_law m sid m' e : sm_inv m → sm_UnRegister sid m = (m', e) →
    sm_inv m' ∧ ∀ i s, sm_deref m' i = Some s → sm_deref m i = Some s;
  sm_Expire_law m t : sm_inv m →
    sm_inv (sm_ExpireSession t m) ∧
    ∀ i s, sm_deref (sm_ExpireSession t m) i = Some s → sm_deref m i = Some s;
  sm_Get_law m sid m' r : sm_inv m → sm_GetSession sid m = (m', r) →
    sm_inv m' ∧ (∀ i, sm_deref m' i = sm_deref m i) ∧
    match r with
    | Ok NoOpSession => sid = NoOPSessionID
    | Ok (SessionAt i) => i = sid ∧ sid ≠ NoOPSessionID ∧ is_Some (sm_deref m sid)
    | Err _ => sid ≠ NoOPSessionID ∧ sm_deref m sid = None
    end;
  sm_assign_law m sid s s' i : sm_inv m → sm_deref m sid = Some s → id s' = id s →
    sm_inv (sm_assign sid s' m) ∧
    sm_deref (sm_assign sid s' m) i = if decide (i = sid) then Some s' else sm_deref m i
}.
