(* ===== verification/ExpiredManager.v ===== *)
(** * Sessions that expire: [pkg/session/expired_manager.go]

    The manager that forgets a session some time after its last command.  Its operations,
    its snapshot, the interface laws it keeps and the round trip of its snapshot. *)

From S2P Require Import Prelude Allocator Streams Session.

Record ExpiredManager {W R : Type} := {
  expiredTime : Z;
  e_sessions : gmap Z (Session R);
  e_arSerializer : option (ResponseSerializer W R)
}.
Arguments ExpiredManager : clear implicits.

Section ExpiredManager.
Context {W R : Type} `{Writer W, MapRange}.
Implicit Types m : ExpiredManager W R.

Definition set_sessions (ss : gmap Z (Session R)) m : ExpiredManager W R :=
  {| expiredTime := expiredTime m; e_sessions := ss; e_arSerializer := e_arSerializer m |}.

Definition NewExpiredManager (expired : Z) : ExpiredManager W R :=
  {| expiredTime := expired; e_sessions := ∅; e_arSerializer := None |}.

Definition SetResponseSerializer (rs : option (ResponseSerializer W R)) m : ExpiredManager W R * option error :=
  match rs with
  | None => (m, Some (Errorf "expired session manager: need response serializer to serialize response of state machiche"))
  | Some rs => ({| expiredTime := expiredTime m; e_sessions := e_sessions m; e_arSerializer := Some rs |}, None)
  end.

Definition GetSession (sessionID : Z) m : ExpiredManager W R * result handle :=
  if decide (sessionID = NoOPSessionID) then (m, Ok NoOpSession)
  else match e_sessions m !! sessionID with
       | None => (m, Err (Errorf "expired session manager: session %d not found"))
       | Some _ => (m, Ok (SessionAt sessionID))
       end.

Definition Register (sessionID lastActivateTime : Z) m : ExpiredManager W R * option error :=
  match e_sessions m !! sessionID with
  | Some _ => (m, Some (Errorf "expired session manager: session %d already exists"))
  | None => (set_sessions (<[sessionID := NewSession sessionID lastActivateTime]> (e_sessions m)) m, None)
  end.

(** The session is cleared up to [math.MaxInt64] before it is dropped, which only a holder
    of the pointer could see. *)
Definition UnRegister (sessionID : Z) m : ExpiredManager W R * option error :=
  match e_sessions m !! sessionID with
  | None => (m, Some (Errorf "expired session manager: session %d not found"))
  | Some s => (set_sessions (delete sessionID (<[sessionID := ClearResult (2 ^ 63 - 1) s]> (e_sessions m))) m, None)
  end.

Definition expired (currentNanoseconds : Z) m (s : Session R) : Prop :=
  i64 (lastActiveNanoseconds s + expiredTime m) <= currentNanoseconds.

#[export] Instance expired_dec t m s : Decision (expired t m s).
Proof. unfold expired. apply _. Defined.

Definition ExpireSession (currentNanoseconds : Z) m : ExpiredManager W R :=
  set_sessions (filter (fun '(_, s) => ¬ expired currentNanoseconds m s) (e_sessions m)) m.

Open Scope go_scope.

Definition Snapshot m : meth (ByteSlicePool * W) unit :=
  with_buf 8 (fun _ =>
    on_stream (FileWriteUint64 (Z.lor (Z.shiftl fileVersion 32) expiredManagerType)) ;;
    on_stream (FileWriteUint64 (Z.of_nat (size (e_sessions m)))) ;;
    for_each (fun '(_, s) => Session.Snapshot (e_arSerializer m) s) (range (e_sessions m))).

Definition Restore m : meth (ByteSlicePool * list byte) (ExpiredManager W R) :=
  with_buf 8 (fun _ =>
    value <- on_stream FileReadUint64 ;;
    if decide (u32 (Z.shiftr value 32) ≠ fileVersion) then
      Meth.fail (Errorf "expire session manager: mismatch file version (expected version=%d real version=%d)")
    else if decide (u32 (Z.land value 0xffffffff) ≠ expiredManagerType) then
      Meth.fail (Errorf "expire session manager: found invalid file fiype %d")
    else
      totalCount <- on_stream FileReadUint64 ;;
      sessions <- repeat_n (Z.to_nat totalCount) (fun sessions =>
                    ns <- Session.Restore (e_arSerializer m) ;;
                    Meth.ret (<[id ns := ns]> sessions)) ∅ ;;
      if decide (Z.of_nat (size sessions) ≠ totalCount) then
        Meth.fail (Errorf "expired session manager: mismatched session count (expectd=%d) (real=%d)")
      else Meth.ret (set_sessions sessions m)).
End ExpiredManager.

(** ** The interface *)

Section Interface.
Context {W R : Type}.
Implicit Types m : ExpiredManager W R.

#[export] Instance expired_manager : SessionManager R (ExpiredManager W R) := {|
  sm_Register := Register; sm_UnRegister := UnRegister; sm_ExpireSession := ExpireSession;
  sm_GetSession := GetSession; sm_deref m sid := e_sessions m !! sid;
  sm_assign sid s m := set_sessions (<[sid := s]> (e_sessions m)) m
|}.

(** Every session is kept under its own id. *)
Definition keyed (ss : gmap Z (Session R)) : Prop := map_Forall (fun i s => id s = i) ss.

#[export] Instance expired_lawful : LawfulManager R (ExpiredManager W R).
Proof.
  refine {| sm_inv m := keyed (e_sessions m) |}; simpl.
  - intros m sid t m' e Hk Hr. unfold Register in Hr.
    destruct (e_sessions m !! sid) eqn:E; simplify_eq/=; [by eauto|].
    split; [by apply map_Forall_insert_2|]. intros i s Hi.
    destruct (decide (i = sid)) as [->|]; [rewrite lookup_insert_eq in Hi|rewrite lookup_insert_ne in Hi by done];
      simplify_eq; eauto.
  - intros m sid m' e Hk Hr. unfold UnRegister in Hr.
    destruct (e_sessions m !! sid) eqn:E; simplify_eq/=; [|by eauto].
    rewrite delete_insert_eq. split; [by apply map_Forall_delete|].
    intros i s' [_ Hi]%lookup_delete_Some. done.
  - intros m t Hk. split.
    + intros i s' [Hi _]%map_lookup_filter_Some. by apply Hk.
    + intros i s' [Hi _]%map_lookup_filter_Some. done.
  - intros m sid m' r Hk Hg. unfold GetSession in Hg. case_decide; simplify_eq/=; [done|].
    destruct (e_sessions m !! sid) eqn:E; simplify_eq/=; split_and!; eauto.
  - intros m sid s s' i Hk Hs Hid. split.
    + apply map_Forall_insert_2; [|done]. rewrite Hid. by apply Hk.
    + case_decide; subst; [by rewrite lookup_insert_eq|by rewrite lookup_insert_ne].
Defined.
End Interface.

(** ** The snapshot *)

(** The manager's sessions as a snapshot keeps them. *)
Definition kept_sessions {R} (ss : gmap Z (Session R)) : gmap Z (Session R) := kept_session <$> ss.

Section RoundTrip.
Context {W R : Type} `{LawfulWriter W, MapRange} (L : list Z).
Context (rs : ResponseSerializer W R) (ok : R → Prop) (lawful : LawfulSerializer rs ok).

Definition sessions_wf (ss : gmap Z (Session R)) : Prop :=
  keyed ss ∧ is_u64 (Z.of_nat (size ss)) ∧ map_Forall (fun _ => session_wf L ok) ss.

Definition enc_sessions (ss : gmap Z (Session R)) : list byte :=
  put_u64 (Z.lor (Z.shiftl fileVersion 32) expiredManagerType) ++
  put_u64 (Z.of_nat (size ss)) ++ (range ss ≫= fun '(_, s) => enc_session rs ok lawful s).

Lemma range_sessions ss i s : sessions_wf ss → (i, s) ∈ range ss → id s = i ∧ session_wf L ok s.
Proof.
  intros (Hk & _ & Hs) Hin. rewrite range_perm in Hin. apply elem_of_map_to_list in Hin.
  split; [by apply Hk|by eapply Hs].
Qed.

Lemma expired_Snapshot_writes m :
  serves L 8 → sessions_wf (e_sessions m) → e_arSerializer m = Some rs →
  writes L (Snapshot m) (enc_sessions (e_sessions m)).
Proof.
  intros Hw Hs Hrs. apply writes_buf; [done|]. intros _ _.
  do 2 (apply writes_bind; [auto with streams|]).
  apply (writes_each _ _ (fun '(_, s) => enc_session rs ok lawful s)). intros [i s] Hin.
  rewrite Hrs. apply Snapshot_writes; [done|]. by eapply range_sessions.
Qed.

Lemma expired_Restore_reads m ss :
  serves L 8 → sessions_wf ss → e_arSerializer m = Some rs →
  reads L (Restore m) (enc_sessions ss) (set_sessions (kept_sessions ss) m).
Proof.
  intros Hw Hs Hrs. apply reads_buf; [done|]. intros _ _. unfold enc_sessions.
  eapply reads_bind; [by apply reads_u64|]. rewrite !decide_False by (by intros []).
  eapply reads_bind; [apply reads_u64; apply Hs|]. cbv beta.
  rewrite Nat2Z.id, <- length_range at 1. rewrite <- (app_nil_r (_ ≫= _)). eapply reads_bind.
  - apply (reads_each _ _ _ (fun m '(k, s) => <[k := kept_session s]> m)). intros [i s] acc Hin.
    destruct (range_sessions _ _ _ Hs Hin) as [<- Hwf].
    rewrite <- (app_nil_r (enc_session _ _ _ s)).
    eapply reads_bind; [rewrite Hrs; by apply Session.Restore_reads|]. apply reads_ret.
  - rewrite foldl_range, map_size_fmap, decide_False by (by intros []). apply reads_ret.
Qed.

(** The snapshot of a manager brings its sessions back: writing the sessions and
    reading the bytes into another manager succeeds, in whatever order the sessions and
    their results were written, and yields the same sessions with the same results, errors
    reduced to their text. *)
Theorem expired_snapshot_roundtrip m m0 :
  serves L 8 → sessions_wf (e_sessions m) →
  e_arSerializer m = Some rs → e_arSerializer m0 = Some rs →
  ∃ b, writes L (Snapshot m) b ∧
    reads L (Restore m0) b (set_sessions (kept_session <$> e_sessions m) m0).
Proof.
  intros Hw Hs Hm Hm0. exists (enc_sessions (e_sessions m)). split.
  - by apply expired_Snapshot_writes.
  - by apply expired_Restore_reads.
Qed.
End RoundTrip.
