(* ===== verification/LruManager.v ===== *)
(** * A bounded number of sessions: [pkg/session/lru_manager.go]

    The manager that keeps the most recently used sessions: a map from session ids to
    elements of a [container/list] list.  An element is a pointer and the session it
    holds; the list is its elements from front to back.  The theorems show that map and
    list stay in step, that the manager is a list of sessions in order of use cut at the
    configured length, and that a snapshot brings sessions and order back. *)

From S2P Require Import Prelude Allocator Streams Session.

(** ** [container/list] *)

Section Elements.
Context {V : Type}.
Implicit Types (l : list (nat * V)) (p : nat).

Definition find_elem p l : option (nat * V) := snd <$> list_find (fun e => e.1 = p) l.
(** [l.Remove(e)] *)
Definition remove_elem p l : list (nat * V) := filter (fun e => e.1 ≠ p) l.
(** [l.MoveToFront(e)]: nothing for an element that is not of the list. *)
Definition move_to_front p l : list (nat * V) :=
  match find_elem p l with Some e => e :: remove_elem p l | None => l end.
End Elements.

Record LruManager {W R : Type} := {
  maxSessions : Z;
  l_sessions : gmap Z nat;
  lru : list (nat * Session R);
  next_elem : nat;
  l_arSerializer : option (ResponseSerializer W R)
}.
Arguments LruManager : clear implicits.

Section LruManager.
Context {W R : Type} `{Writer W}.
Implicit Types m : LruManager W R.

Definition set_lru (ss : gmap Z nat) (l : list (nat * Session R)) (next : nat) m : LruManager W R :=
  {| maxSessions := maxSessions m; l_sessions := ss; lru := l; next_elem := next;
     l_arSerializer := l_arSerializer m |}.

Definition NewLruManager (max : Z) : LruManager W R :=
  {| maxSessions := max; l_sessions := ∅; lru := []; next_elem := 0; l_arSerializer := None |}.

Definition SetResponseSerializer (rs : option (ResponseSerializer W R)) m : LruManager W R * option error :=
  match rs with
  | None => (m, Some (Errorf "lru session manager: need response serializer to serialize response of state machiche"))
  | Some rs => ({| maxSessions := maxSessions m; l_sessions := l_sessions m; lru := lru m;
                   next_elem := next_elem m; l_arSerializer := Some rs |}, None)
  end.

Definition GetSession (sessionID : Z) m : LruManager W R * result handle :=
  if decide (sessionID = NoOPSessionID) then (m, Ok NoOpSession)
  else match l_sessions m !! sessionID with
       | None => (m, Err (Errorf "lru session manager: session %d not found"))
       | Some s => (set_lru (l_sessions m) (move_to_front s (lru m)) (next_elem m) m, Ok (SessionAt sessionID))
       end.

Definition Register (sessionID lastActivateTime : Z) m : LruManager W R * option error :=
  match l_sessions m !! sessionID with
  | Some _ => (m, Some (Errorf "lru session manager: session id %d already registered"))
  | None =>
      let ns := NewSession sessionID lastActivateTime in
      let l := (next_elem m, ns) :: lru m in
      let ss := <[sessionID := next_elem m]> (l_sessions m) in
      if decide (Z.of_nat (length l) > maxSessions m) then
        match last l with
        | Some tail => (set_lru (delete (id tail.2) ss) (remove_elem tail.1 l) (S (next_elem m)) m, None)
        | None => (set_lru ss l (S (next_elem m)) m, None)
        end
      else (set_lru ss l (S (next_elem m)) m, None)
  end.

Definition UnRegister (sessionID : Z) m : LruManager W R * option error :=
  match l_sessions m !! sessionID with
  | None => (m, Some (Errorf "lru session manager: session id %d not registered"))
  | Some s => (set_lru (delete sessionID (l_sessions m)) (remove_elem s (lru m)) (next_elem m) m, None)
  end.

(** Not implemented by this manager. *)
Definition ExpireSession (currentTime : Z) m : LruManager W R := m.

Open Scope go_scope.

Definition Snapshot `{MapRange} m : meth (ByteSlicePool * W) unit :=
  with_buf 8 (fun _ =>
    on_stream (FileWriteUint64 (Z.lor (Z.shiftl fileVersion 32) lruManagerType)) ;;
    on_stream (FileWriteUint64 (Z.of_nat (length (lru m)))) ;;
    for_each (fun e => Session.Snapshot (l_arSerializer m) e.2) (lru m)).

(** The new map and list, with the pointer of the next element. *)
Definition push_back (st : gmap Z nat * list (nat * Session R) * nat) (ns : Session R)
    : gmap Z nat * list (nat * Session R) * nat :=
  let '(sessions, l, next) := st in (<[id ns := next]> sessions, l ++ [(next, ns)], S next).

Definition Restore m : meth (ByteSlicePool * list byte) (LruManager W R) :=
  with_buf 8 (fun _ =>
    value <- on_stream FileReadUint64 ;;
    if decide (u32 (Z.shiftr value 32) ≠ fileVersion) then
      Meth.fail (Errorf "lru session manager: mismatch file version (expected version=%d real version=%d)")
    else if decide (u32 (Z.land value 0xffffffff) ≠ lruManagerType) then
      Meth.fail (Errorf "lru session manager: found invalid file fiype %d")
    else
      totalCount <- on_stream FileReadUint64 ;;
      st <- repeat_n (Z.to_nat totalCount) (fun st =>
              ns <- Session.Restore (l_arSerializer m) ;; Meth.ret (push_back st ns))
            (∅, [], next_elem m) ;;
      let '(sessions, l, next) := st in
      if decide (Z.of_nat (length l) ≠ totalCount) then
        Meth.fail (Errorf "lru session manager: mismatched session count (expectd=%d) (real=%d)")
      else Meth.ret (set_lru sessions l next m)).
End LruManager.

(** ** Map and list in step *)

Record lru_inv {W R} (m : LruManager W R) : Prop := {
  li_ptrs : NoDup (fst <$> lru m);
  li_ids : NoDup ((id ∘ snd) <$> lru m);
  li_map i p : l_sessions m !! i = Some p ↔ ∃ s, (p, s) ∈ lru m ∧ id s = i;
  li_next : Forall (fun e => (e.1 < next_elem m)%nat) (lru m)
}.

(** The session ids in order of use. *)
Definition recency {W R} (m : LruManager W R) : list (Session R) := snd <$> lru m.

Section Lemmas.
Context {V : Type}.
Implicit Types (l : list (nat * V)) (p : nat).

Lemma find_elem_in l p v : NoDup (fst <$> l) → (p, v) ∈ l → find_elem p l = Some (p, v).
Proof.
  unfold find_elem. intros Hnd Hin. destruct (list_find (fun e => e.1 = p) l) as [[j [q w]]|] eqn:E; simpl.
  - apply list_find_Some in E as (Hj & Hq & _). simpl in Hq. subst q. do 2 f_equal.
    apply list_elem_of_lookup in Hin as [k Hk].
    assert (j = k) as -> by (eapply NoDup_lookup; [done|by rewrite list_lookup_fmap, Hj|by rewrite list_lookup_fmap, Hk]).
    congruence.
  - apply list_find_None in E. rewrite Forall_forall in E. by apply E in Hin.
Qed.

Lemma find_elem_Some l p e : find_elem p l = Some e → e ∈ l ∧ e.1 = p.
Proof.
  unfold find_elem. destruct (list_find _ l) as [[j e']|] eqn:E; simpl; intros ?; simplify_eq.
  apply list_find_Some in E as (Hj & Hq & _). split; [by eapply list_elem_of_lookup_2|done].
Qed.

Lemma elem_remove l p e : e ∈ remove_elem p l ↔ e ∈ l ∧ e.1 ≠ p.
Proof. unfold remove_elem. rewrite list_elem_of_filter. tauto. Qed.

Lemma move_to_front_perm l p v : NoDup (fst <$> l) → (p, v) ∈ l → move_to_front p l ≡ₚ l.
Proof.
  intros Hnd Hin. unfold move_to_front. rewrite (find_elem_in l p v) by done.
  apply NoDup_Permutation.
  - constructor; [by rewrite elem_remove; simpl; intros []|]. apply NoDup_filter. by apply NoDup_fmap_1 in Hnd.
  - by apply NoDup_fmap_1 in Hnd.
  - intros [q w]. rewrite elem_of_cons, elem_remove. split; [by intros [->|[]]|]. intros Hq.
    destruct (decide (q = p)) as [->|]; [|by right]. left.
    pose proof (find_elem_in l p v Hnd Hin). pose proof (find_elem_in l p w Hnd Hq). congruence.
Qed.
End Lemmas.

Section Invariant.
Context {W R : Type}.
Implicit Types m : LruManager W R.

(** The list is what it was, up to order. *)
Lemma lru_inv_perm m l :
  lru_inv m → l ≡ₚ lru m → lru_inv (set_lru (l_sessions m) l (next_elem m) m).
Proof.
  intros [Hp Hi Hm Hn] Hl. constructor; simpl; [by rewrite Hl..| |by rewrite Hl].
  intros i p. rewrite Hm. by setoid_rewrite Hl.
Qed.

(** An element goes from the list and its id from the map. *)
Lemma lru_inv_remove m p s :
  lru_inv m → (p, s) ∈ lru m →
  lru_inv (set_lru (delete (id s) (l_sessions m)) (remove_elem p (lru m)) (next_elem m) m).
Proof.
  intros [Hp Hi Hm Hn] Hin. constructor; simpl.
  - eapply sublist_NoDup; [done|]. apply fmap_sublist, sublist_filter.
  - eapply sublist_NoDup; [done|]. apply fmap_sublist, sublist_filter.
  - intros i q. rewrite lookup_delete_Some, Hm. setoid_rewrite elem_remove. split.
    + intros [Hne (t & Ht & Hid)]. exists t. split_and!; [done| |done]. simpl. intros ->.
      pose proof (find_elem_in _ _ _ Hp Hin). pose proof (find_elem_in _ _ _ Hp Ht). congruence.
    + intros (t & [Ht Hq] & Hid). split; [|by eauto]. intros <-. apply Hq. simpl.
      apply list_elem_of_lookup in Ht as [j Hj]. apply list_elem_of_lookup in Hin as [k Hk].
      assert (j = k) as -> by (eapply (NoDup_lookup _ _ _ _ Hi);
        [by rewrite list_lookup_fmap, Hj; simpl; rewrite Hid|by rewrite list_lookup_fmap, Hk]). congruence.
  - rewrite Forall_forall in Hn. apply Forall_forall. intros e [He _]%elem_remove. by apply Hn.
Qed.

(** A new element at the front. *)
Lemma lru_inv_push m s :
  lru_inv m → l_sessions m !! id s = None →
  lru_inv (set_lru (<[id s := next_elem m]> (l_sessions m)) ((next_elem m, s) :: lru m) (S (next_elem m)) m).
Proof.
  intros [Hp Hi Hm Hn] Hs. rewrite Forall_forall in Hn. constructor; csimpl.
  - constructor; [|done]. intros ([q t] & Hq & Hin)%list_elem_of_fmap. apply Hn in Hin. simpl in *. lia.
  - constructor; [|done]. intros ([q t] & Hq & Hin)%list_elem_of_fmap. simpl in Hq.
    assert (l_sessions m !! id s = Some q) by (apply Hm; eauto). congruence.
  - intros i p. setoid_rewrite elem_of_cons. rewrite lookup_insert_Some, Hm. split.
    + intros [[<- <-]|[Hne (t & Ht & Hid)]]; eauto.
    + intros (t & [[= -> ->]|Ht] & <-); [by left|]. right. split; [|by eauto]. intros Heq.
      assert (l_sessions m !! id t = Some p) by (apply Hm; eauto). congruence.
  - constructor; [simpl; lia|]. apply Forall_forall. intros e He. apply Hn in He. lia.
Qed.

Lemma GetSession_inv m sid : lru_inv m → lru_inv (GetSession sid m).1.
Proof.
  intros Hm. unfold GetSession. case_decide; [done|].
  destruct (l_sessions m !! sid) as [p|] eqn:E; [|done].
  apply Hm in E as (s & Hs & _). apply lru_inv_perm; [done|].
  eapply move_to_front_perm; [apply Hm|done].
Qed.

Lemma Register_inv m sid t : lru_inv m → lru_inv (Register sid t m).1.
Proof.
  intros Hm. unfold Register. destruct (l_sessions m !! sid) as [p|] eqn:E; [done|].
  pose proof (lru_inv_push m (NewSession sid t) Hm E) as Hp. case_decide; [|done].
  destruct (last _) as [[p s]|] eqn:El; [|done]. apply (lru_inv_remove _ p s Hp).
  by apply last_Some_elem_of in El.
Qed.

Lemma UnRegister_inv m sid : lru_inv m → lru_inv (UnRegister sid m).1.
Proof.
  intros Hm. unfold UnRegister. destruct (l_sessions m !! sid) as [p|] eqn:E; [|done].
  apply Hm in E as (s & Hs & <-). by apply lru_inv_remove.
Qed.
End Invariant.

(** ** The interface *)

Section Interface.
Context {W R : Type}.
Implicit Types m : LruManager W R.

Definition deref m (sid : Z) : option (Session R) :=
  p ← l_sessions m !! sid; snd <$> find_elem p (lru m).

(** A change of the session an element holds. *)
Definition set_elem (p : nat) (s : Session R) (l : list (nat * Session R)) : list (nat * Session R) :=
  (fun e => if decide (e.1 = p) then (p, s) else e) <$> l.

Definition assign (sid : Z) (s : Session R) m : LruManager W R :=
  match l_sessions m !! sid with
  | Some p => set_lru (l_sessions m) (set_elem p s (lru m)) (next_elem m) m
  | None => m
  end.

#[export] Instance lru_manager : SessionManager R (LruManager W R) := {|
  sm_Register := Register; sm_UnRegister := UnRegister; sm_ExpireSession := ExpireSession;
  sm_GetSession := GetSession; sm_deref := deref; sm_assign := assign
|}.

Lemma deref_Some m i s : lru_inv m → deref m i = Some s ↔ s ∈ recency m ∧ id s = i.
Proof.
  intros Hm. unfold deref, recency. split.
  - intros (p & Hp & Hf)%bind_Some. apply fmap_Some in Hf as (e & [He Hep]%find_elem_Some & ->).
    split; [by apply list_elem_of_fmap_2|]. apply Hm in Hp as (t & Ht & <-).
    destruct e as [q s]; simpl in *. subst q.
    pose proof (find_elem_in _ _ _ (li_ptrs _ Hm) Ht).
    pose proof (find_elem_in _ _ _ (li_ptrs _ Hm) He). congruence.
  - intros [([p t] & -> & Hin)%list_elem_of_fmap Hid]. simpl in Hid.
    assert (l_sessions m !! i = Some p) as -> by (apply Hm; eauto). simpl.
    by rewrite (find_elem_in _ p t) by (done || apply Hm).
Qed.

Lemma recency_remove m p s :
  s ∈ snd <$> remove_elem p (lru m) → s ∈ recency m.
Proof. intros (e & -> & [He _]%elem_remove)%list_elem_of_fmap. by apply list_elem_of_fmap_2. Qed.

Lemma set_elem_fst p s l : fst <$> set_elem p s l = fst <$> l.
Proof.
  unfold set_elem. rewrite <- list_fmap_compose. apply list_fmap_ext. intros i e _. simpl.
  by case_decide.
Qed.

Lemma set_elem_in p s l e : e ∈ set_elem p s l ↔ (e ∈ l ∧ e.1 ≠ p) ∨ (e = (p, s) ∧ p ∈ fst <$> l).
Proof.
  unfold set_elem. rewrite list_elem_of_fmap. setoid_rewrite list_elem_of_fmap. split.
  - intros (e' & -> & He). case_decide; subst; eauto.
  - intros [[He Hne]|[-> (e' & -> & He)]]; [exists e|exists e']; by case_decide.
Qed.

Lemma assign_inv m sid s s' :
  lru_inv m → deref m sid = Some s → id s' = id s →
  lru_inv (assign sid s' m) ∧
  ∀ t, t ∈ recency (assign sid s' m) ↔ (t ∈ recency m ∧ id t ≠ sid) ∨ t = s'.
Proof.
  intros Hm [([p s0] & -> & Hin)%list_elem_of_fmap Hid]%(deref_Some _ _ _ Hm) Hid'. simpl in *. subst sid.
  unfold assign. assert (l_sessions m !! id s0 = Some p) as Hp by (apply Hm; eauto). rewrite Hp.
  assert (∀ q t, (q, t) ∈ lru m → q = p ↔ id t = id s0) as Hinj.
  { intros q t Ht. split.
    - intros ->. pose proof (find_elem_in _ _ _ (li_ptrs _ Hm) Ht).
      pose proof (find_elem_in _ _ _ (li_ptrs _ Hm) Hin). congruence.
    - intros Heq. assert (l_sessions m !! id t = Some q) by (apply Hm; eauto). congruence. }
  assert (p ∈ fst <$> lru m) as Hpin by by apply (list_elem_of_fmap_2 fst _ _ Hin).
  split.
  - constructor; simpl.
    + rewrite set_elem_fst. apply Hm.
    + replace ((id ∘ snd) <$> set_elem p s' (lru m)) with ((id ∘ snd) <$> lru m); [apply Hm|].
      unfold set_elem. rewrite <- list_fmap_compose. apply list_fmap_ext. intros k [q t] Hk. simpl.
      apply list_elem_of_lookup_2 in Hk. case_decide; [|done]. simpl. rewrite Hid'. by apply (Hinj q t).
    + intros i q. rewrite (li_map _ Hm). setoid_rewrite set_elem_in. split.
      * intros (t & Ht & <-). destruct (decide (q = p)) as [->|]; [|by eauto].
        exists s'. split; [by right|]. rewrite Hid'. symmetry. by apply (Hinj p t).
      * intros (t & [[Ht _]|[[= -> ->] _]] & <-); [by eauto|]. by exists s0.
    + apply Forall_forall. intros e [[He _]|[-> _]]%set_elem_in.
      * pose proof (li_next _ Hm) as Hn. rewrite Forall_forall in Hn. by apply Hn.
      * pose proof (li_next _ Hm) as Hn. rewrite Forall_forall in Hn. exact (Hn _ Hin).
  - intros t. unfold recency. simpl. rewrite !list_elem_of_fmap. setoid_rewrite set_elem_in. split.
    + intros ([q u] & -> & [[Hu Hq]|[[= -> ->] _]]); [left|by right]. simpl in *. split; [by exists (q, u)|].
      by rewrite <- (Hinj q u).
    + intros [[([q u] & -> & Hu) Hne]| ->]; [exists (q, u)|exists (p, s'); eauto]. split; [done|left].
      split; [done|]. simpl in *. by rewrite (Hinj q u).
Qed.
End Interface.

#[export] Instance lru_lawful {W R} : LawfulManager R (LruManager W R).
Proof.
  refine {| sm_inv := lru_inv |}; simpl.
  - intros m sid t m' e Hm Hr. pose proof (Register_inv m sid t Hm) as Hm'. rewrite Hr in Hm'. split; [done|].
    intros i s [Hs Hi]%(deref_Some _ _ _ Hm'). simpl in Hm'. unfold Register in Hr.
    destruct (l_sessions m !! sid) as [p|] eqn:E; simplify_eq/=; [left; by apply deref_Some|].
    assert (deref m sid = None) as Hnone by (unfold deref; by rewrite E).
    assert (s ∈ NewSession sid t :: recency m) as [->|Hs']%elem_of_cons.
    { case_decide; [destruct (last _) as [tl|] eqn:El|]; simplify_eq/=; [|done..].
      unfold recency in Hs. simpl in Hs. apply list_elem_of_fmap in Hs as (e & -> & [He _]%elem_remove).
      apply elem_of_cons in He as [->|He]; [by left|right]. by apply list_elem_of_fmap_2. }
    + right. by simpl.
    + left. by apply deref_Some.
  - intros m sid m' e Hm Hr. pose proof (UnRegister_inv m sid Hm) as Hm'. rewrite Hr in Hm'. split; [done|].
    intros i s [Hs Hi]%(deref_Some _ _ _ Hm'). unfold UnRegister in Hr.
    destruct (l_sessions m !! sid) as [p|] eqn:E; simplify_eq/=; apply deref_Some; try done.
    split; [|done]. exact (recency_remove m p s Hs).
  - done.
  - intros m sid m' r Hm Hg. pose proof (GetSession_inv m sid Hm) as Hm'. rewrite Hg in Hm'.
    split; [done|]. unfold GetSession in Hg. case_decide; simplify_eq/=; [done|].
    destruct (l_sessions m !! sid) as [p|] eqn:E; simplify_eq/=.
    + pose proof E as (s & Hs & Hid)%(li_map _ Hm). split.
      * intros i. apply option_eq. intros t. rewrite !deref_Some by done. unfold recency. simpl.
        by rewrite (move_to_front_perm _ p s) by (done || apply Hm).
      * split_and!; [done..|]. exists s. apply deref_Some; [done|]. split; [|done].
        by apply (list_elem_of_fmap_2 snd _ _ Hs).
    + split_and!; [done..|]. unfold deref. by rewrite E.
  - intros m sid s s' i Hm Hs Hid. destruct (assign_inv m sid s s' Hm Hs Hid) as [Hm' Hrec].
    pose proof Hs as [Hin Hsid]%(deref_Some _ _ _ Hm). split; [done|].
    apply option_eq. intros t. rewrite deref_Some, Hrec by done. case_decide; subst.
    + split; [intros [[[_ ?]| ->] ?]; congruence|]. intros [= <-]. by split; [right|].
    + rewrite deref_Some by done. split; [intros [[[? _]| ->] ?]; [done|congruence]|].
      intros [? <-]. by split; [left|].
Defined.

(** ** The manager as a list in order of use *)

Module Recency.
Section Recency.
Context {R : Type}.
Implicit Types l : list (Session R).

Definition lookup (sid : Z) l : option (Session R) := snd <$> list_find (fun s => id s = sid) l.

Definition use (sid : Z) l : list (Session R) :=
  match lookup sid l with Some s => s :: filter (fun s => id s ≠ sid) l | None => l end.
Definition register (max sid t : Z) l : list (Session R) :=
  take (Z.to_nat max) (NewSession sid t :: l).
Definition unregister (sid : Z) l : list (Session R) := filter (fun s => id s ≠ sid) l.
Definition update (sid : Z) (s : Session R) l : list (Session R) :=
  (fun t => if decide (id t = sid) then s else t) <$> l.
End Recency.
End Recency.

Section RecencyLemmas.
Context {W R : Type}.
Implicit Types m : LruManager W R.

Lemma filter_snd (p : nat) sid (l : list (nat * Session R)) :
  (∀ e, e ∈ l → e.1 ≠ p ↔ id e.2 ≠ sid) →
  snd <$> remove_elem p l = filter (fun s => id s ≠ sid) (snd <$> l).
Proof.
  unfold remove_elem. induction l as [|e l IH]; intros Hl; [done|]. csimpl. rewrite !filter_cons.
  rewrite <- IH by (intros; apply Hl; by right).
  pose proof (Hl e (list_elem_of_here _ _)). do 2 case_decide; csimpl; tauto.
Qed.

Lemma recency_filter m p s :
  lru_inv m → (p, s) ∈ lru m →
  snd <$> remove_elem p (lru m) = filter (fun t => id t ≠ id s) (recency m).
Proof.
  intros Hm Hin. apply filter_snd. intros [q t] Ht. simpl. apply not_iff_compat. split.
  - intros ->. pose proof (find_elem_in _ _ _ (li_ptrs _ Hm) Ht).
    pose proof (find_elem_in _ _ _ (li_ptrs _ Hm) Hin). congruence.
  - intros Heq. assert (l_sessions m !! id t = Some q) by (apply Hm; eauto).
    assert (l_sessions m !! id s = Some p) by (apply Hm; eauto). congruence.
Qed.

Lemma remove_last {V} (l : list (nat * V)) e :
  NoDup (fst <$> l) → last l = Some e → remove_elem e.1 l = take (length l - 1) l.
Proof.
  intros Hnd [l' ->]%last_Some. rewrite length_app. simpl. rewrite Nat.add_sub, take_app_length.
  unfold remove_elem. rewrite filter_app, filter_cons_False, filter_nil, app_nil_r by (by intros []).
  rewrite fmap_app, NoDup_app in Hnd. destruct Hnd as (_ & Hd & _).
  clear -Hd. induction l' as [|e' l' IH]; [done|]. rewrite filter_cons_True.
  - f_equal. apply IH. intros x Hx. apply Hd. csimpl. by right.
  - intros Heq. apply (Hd e'.1); [by left|]. rewrite Heq. by left.
Qed.

Lemma recency_lookup m sid : lru_inv m → Recency.lookup sid (recency m) = deref m sid.
Proof.
  intros Hm. apply option_eq. intros s. rewrite deref_Some by done. unfold Recency.lookup.
  assert (NoDup (id <$> recency m)) as Hnd.
  { unfold recency. rewrite <- list_fmap_compose. apply Hm. }
  destruct (list_find _ _) as [[j t]|] eqn:E; simpl.
  - apply list_find_Some in E as (Hj & Ht & _). split.
    + intros [= <-]. split; [by eapply list_elem_of_lookup_2|done].
    + intros [[k Hk]%list_elem_of_lookup Hs]. assert (j = k) as ->; [|congruence].
      eapply NoDup_lookup; [done|by rewrite list_lookup_fmap, Hj|].
      rewrite list_lookup_fmap, Hk. simpl. congruence.
  - apply list_find_None in E. rewrite Forall_forall in E. split; [done|]. intros [Hin Hid].
    by apply E in Hin.
Qed.

Lemma deref_None m sid : lru_inv m → l_sessions m !! sid = None ↔ deref m sid = None.
Proof.
  intros Hm. unfold deref. destruct (l_sessions m !! sid) as [p|] eqn:E; [|done]. simpl.
  apply Hm in E as (s & Hs & _). by rewrite (find_elem_in _ p s) by (done || apply Hm).
Qed.

Lemma GetSession_recency m sid : lru_inv m → sid ≠ NoOPSessionID →
  recency (GetSession sid m).1 = Recency.use sid (recency m).
Proof.
  intros Hm Hz. unfold GetSession, Recency.use. rewrite decide_False, recency_lookup by done.
  destruct (l_sessions m !! sid) as [p|] eqn:E.
  - pose proof E as (s & Hs & <-)%(li_map _ Hm). unfold deref. rewrite E. simpl.
    rewrite (find_elem_in _ p s) by (done || apply Hm). simpl. unfold recency at 1. simpl.
    unfold move_to_front. rewrite (find_elem_in _ p s) by (done || apply Hm). csimpl.
    by rewrite (recency_filter m p s).
  - rewrite (proj1 (deref_None m sid Hm)) by done. done.
Qed.

Lemma Register_recency m sid t : lru_inv m → deref m sid = None →
  Z.of_nat (length (recency m)) <= Z.max 0 (maxSessions m) →
  recency (Register sid t m).1 = Recency.register (maxSessions m) sid t (recency m).
Proof.
  intros Hm Hnone Hlen. unfold Register, Recency.register. apply deref_None in Hnone; [|done].
  rewrite Hnone. pose proof (lru_inv_push m (NewSession sid t) Hm Hnone) as Hp.
  unfold recency in *. rewrite length_fmap in Hlen. case_decide as Hd.
  - simpl length in *. destruct (last _) as [e|] eqn:El.
    + simpl. rewrite (remove_last _ e) by (done || apply Hp). rewrite fmap_take. simpl length.
      rewrite fmap_cons. f_equal. lia.
    + by apply last_None in El.
  - simpl in Hd |- *. rewrite take_ge; [done|]. simpl. rewrite length_fmap. lia.
Qed.

Lemma UnRegister_recency m sid s : lru_inv m → deref m sid = Some s →
  recency (UnRegister sid m).1 = Recency.unregister sid (recency m).
Proof.
  intros Hm Hs. unfold UnRegister. destruct (l_sessions m !! sid) as [p|] eqn:E.
  - apply Hm in E as (t & Ht & <-). by apply recency_filter.
  - by apply deref_None in E; [rewrite Hs in E|].
Qed.

Lemma assign_recency m sid s s' : lru_inv m → deref m sid = Some s →
  recency (assign sid s' m) = Recency.update sid s' (recency m).
Proof.
  intros Hm Hs. unfold assign. destruct (l_sessions m !! sid) as [p|] eqn:E;
    [|by apply deref_None in E; [rewrite Hs in E|]].
  pose proof E as (t & Ht & Hid)%(li_map _ Hm). unfold recency, set_elem, Recency.update. simpl.
  rewrite <- !list_fmap_compose. apply list_fmap_ext. intros k [q u] Hk. simpl.
  apply list_elem_of_lookup_2 in Hk. assert (l_sessions m !! id u = Some q) as Hu by (apply Hm; eauto).
  do 2 case_decide; subst; try done.
  - exfalso. pose proof (find_elem_in _ _ _ (li_ptrs _ Hm) Ht).
    pose proof (find_elem_in _ _ _ (li_ptrs _ Hm) Hk). congruence.
  - exfalso. congruence.
Qed.
End RecencyLemmas.

(** ** Refinement over operation sequences *)

Inductive op {R : Type} :=
| OGet (sid : Z)
| ORegister (sid t : Z)
| OUnRegister (sid : Z)
| OAdd (sid seq t : Z) (ar : ApplyResult R).
Arguments op : clear implicits.

Definition finished {R} (e : option error) : option (option (Session R)) :=
  match e with Some _ => None | None => Some None end.

(** An operation of the manager: the new state and, unless it failed, the session found. *)
Definition exec {W R} (o : op R) (m : LruManager W R) : LruManager W R * option (option (Session R)) :=
  match o with
  | OGet sid =>
      let '(m', r) := GetSession sid m in
      (m', match r with Ok NoOpSession => Some None | Ok (SessionAt i) => Some (deref m' i) | Err _ => None end)
  | ORegister sid t => let '(m', e) := Register sid t m in (m', finished e)
  | OUnRegister sid => let '(m', e) := UnRegister sid m in (m', finished e)
  | OAdd sid seq t ar =>
      match deref m sid with
      | Some s => let '(s', e) := AddResult seq t ar s in (assign sid s' m, finished e)
      | None => (m, None)
      end
  end.

(** The same operation of the list. *)
Definition spec_exec {R} (max : Z) (o : op R) (l : list (Session R)) : list (Session R) * option (option (Session R)) :=
  match o with
  | OGet sid =>
      if decide (sid = NoOPSessionID) then (l, Some None)
      else match Recency.lookup sid l with
           | Some s => (Recency.use sid l, Some (Some s))
           | None => (l, None)
           end
  | ORegister sid t =>
      match Recency.lookup sid l with
      | Some _ => (l, None)
      | None => (Recency.register max sid t l, Some None)
      end
  | OUnRegister sid =>
      match Recency.lookup sid l with
      | Some _ => (Recency.unregister sid l, Some None)
      | None => (l, None)
      end
  | OAdd sid seq t ar =>
      match Recency.lookup sid l with
      | Some s => let '(s', e) := AddResult seq t ar s in (Recency.update sid s' l, finished e)
      | None => (l, None)
      end
  end.

Fixpoint runs {S O X} (f : O → S → S * X) (os : list O) (s : S) : S * list X :=
  match os with
  | [] => (s, [])
  | o :: os => let '(s1, x) := f o s in let '(s2, xs) := runs f os s1 in (s2, x :: xs)
  end.

Section Refinement.
Context {W R : Type}.
Implicit Types m : LruManager W R.

Definition bounded m : Prop := Z.of_nat (length (recency m)) <= Z.max 0 (maxSessions m).

Lemma AddResult_id seq t (ar : ApplyResult R) s : id (AddResult seq t ar s).1 = id s.
Proof. unfold AddResult. by destruct (s_result s !! seq). Qed.

Lemma spec_exec_bounded max o (l : list (Session R)) :
  Z.of_nat (length l) <= Z.max 0 max → Z.of_nat (length (spec_exec max o l).1) <= Z.max 0 max.
Proof.
  intros Hl. destruct o as [sid|sid t|sid|sid seq t ar]; simpl.
  - case_decide; [done|]. unfold Recency.use. destruct (Recency.lookup sid l) as [s|] eqn:E; [|done].
    simpl. unfold Recency.lookup in E.
    destruct (list_find _ l) as [[j s0]|] eqn:Ef; [|done]. simplify_eq/=.
    apply list_find_Some in Ef as (Hj & Hid & _).
    assert (length (filter (fun s => id s ≠ sid) l) < length l)%nat; [|lia].
    apply length_filter_lt with s; [by eapply list_elem_of_lookup_2|by intros []].
  - destruct (Recency.lookup sid l); simpl; [done|]. unfold Recency.register. rewrite length_take. lia.
  - destruct (Recency.lookup sid l); simpl; [|done]. unfold Recency.unregister.
    pose proof (length_filter (fun s => id s ≠ sid) l). lia.
  - destruct (Recency.lookup sid l) as [s|]; simpl; [|done]. destruct (AddResult seq t ar s). simpl.
    unfold Recency.update. by rewrite length_fmap.
Qed.

Lemma exec_refines m o : lru_inv m → bounded m →
  lru_inv (exec o m).1 ∧ maxSessions (exec o m).1 = maxSessions m ∧
  (recency (exec o m).1, (exec o m).2) = spec_exec (maxSessions m) o (recency m).
Proof.
  intros Hm Hb. destruct o as [sid|sid t|sid|sid seq t ar]; simpl; rewrite ?(recency_lookup m) by done.
  - pose proof (GetSession_inv m sid Hm) as Hi. destruct (GetSession sid m) as [m' r] eqn:Eg.
    pose proof (sm_Get_law m sid m' r Hm Eg) as (_ & Hd & Hr). simpl in *.
    assert (maxSessions m' = maxSessions m) as ->.
    { unfold GetSession in Eg. repeat case_match; by simplify_eq/=. }
    split_and!; [done..|]. case_decide as Hz.
    + subst. unfold GetSession in Eg. by simplify_eq/=.
    + pose proof (GetSession_recency m sid Hm Hz) as Hrec. rewrite Eg in Hrec. simpl in Hrec. rewrite Hrec.
      destruct r as [[|i]|e]; [done| |].
      * destruct Hr as (-> & _ & [s Hs]). by rewrite Hd, Hs.
      * destruct Hr as [_ Hn]. unfold Recency.use. by rewrite recency_lookup, Hn.
  - pose proof (Register_inv m sid t Hm) as Hi. destruct (deref m sid) as [s|] eqn:Ed.
    + unfold Register in *. destruct (l_sessions m !! sid) eqn:E; [done|].
      apply deref_None in E; [congruence|done].
    + pose proof (Register_recency m sid t Hm Ed Hb) as Hrec. destruct (Register sid t m) as [m' e] eqn:Er.
      simpl in *. rewrite Hrec. unfold Register in Er. apply deref_None in Ed; [|done]. rewrite Ed in Er.
      repeat case_match; simplify_eq/=; done.
  - pose proof (UnRegister_inv m sid Hm) as Hi. destruct (deref m sid) as [s|] eqn:Ed.
    + pose proof (UnRegister_recency m sid s Hm Ed) as Hrec. destruct (UnRegister sid m) as [m' e] eqn:Er.
      simpl in *. rewrite Hrec. unfold UnRegister in Er. destruct (l_sessions m !! sid) eqn:E; [by simplify_eq/=|].
      apply deref_None in E; [congruence|done].
    + unfold UnRegister in *. apply deref_None in Ed; [|done]. by rewrite Ed.
  - destruct (deref m sid) as [s|] eqn:Ed; [|done].
    pose proof (AddResult_id seq t ar s) as Hid. destruct (AddResult seq t ar s) as [s' e]. simpl in *.
    split_and!; [by eapply assign_inv| |by erewrite assign_recency].
    unfold assign. by destruct (l_sessions m !! sid).
Qed.

(** The manager is a list of sessions in order of use.  Whatever operations are run on
    a new manager, its answers are those of the list that moves a session to the front when
    it is used, puts a new session in front and drops what is beyond the configured number;
    it never keeps more sessions than that. *)
Theorem lru_refines_recency max (os : list (op R)) :
  let '(m, xs) := runs exec os (NewLruManager (W := W) max) in
  (recency m, xs) = runs (spec_exec max) os [] ∧ Z.of_nat (length (recency m)) <= Z.max 0 max.
Proof.
  assert (∀ m, lru_inv m → bounded m → maxSessions m = max →
    let '(m', xs) := runs exec os m in
    (recency m', xs) = runs (spec_exec max) os (recency m) ∧ Z.of_nat (length (recency m')) <= Z.max 0 max) as Hg.
  { induction os as [|o os IH]; intros m Hm Hb Hmax; simpl; [by subst|].
    destruct (exec_refines m o Hm Hb) as (Hm' & Hmax' & Heq). destruct (exec o m) as [m1 x]. simpl in *.
    pose proof (spec_exec_bounded (maxSessions m) o (recency m) Hb) as Hb'. rewrite <- Heq in Hb'. simpl in Hb'.
    specialize (IH m1 Hm'). unfold bounded in IH. rewrite Hmax' in IH. specialize (IH Hb' Hmax).
    destruct (runs exec os m1) as [m2 xs]. rewrite <- Hmax, <- Heq. rewrite <- Hmax in IH.
    destruct IH as [<- ?]. done. }
  apply Hg; [|unfold bounded; simpl; lia|done].
  constructor; simpl; [constructor..| |constructor]. intros i p. split; [done|]. by intros (s & ?%elem_of_nil & _).
Qed.
End Refinement.

(** ** The snapshot *)

Section RoundTrip.
Context {W R : Type} `{LawfulWriter W, MapRange} (L : list Z).
Context (rs : ResponseSerializer W R) (ok : R → Prop) (lawful : LawfulSerializer rs ok).
Implicit Types m : LruManager W R.

Definition of_state m (st : gmap Z nat * list (nat * Session R) * nat) : LruManager W R :=
  let '(ss, l, next) := st in set_lru ss l next m.

Lemma push_back_inv m st s :
  lru_inv (of_state m st) → l_sessions (of_state m st) !! id s = None →
  lru_inv (of_state m (push_back st s)) ∧
  recency (of_state m (push_back st s)) = recency (of_state m st) ++ [s].
Proof.
  destruct st as [[ss l] next]. simpl. intros Hi Hs.
  pose proof (lru_inv_push _ s Hi Hs) as Hp. split; [|unfold recency; simpl; by rewrite fmap_app].
  apply (lru_inv_perm _ (l ++ [(next, s)]) Hp). simpl. by rewrite Permutation_app_comm.
Qed.

(** The sessions pushed one after the other, their ids distinct. *)
Lemma push_all m st (ks : list (Session R)) :
  lru_inv (of_state m st) → NoDup (id <$> (recency (of_state m st) ++ ks)) →
  lru_inv (of_state m (foldl push_back st ks)) ∧
  recency (of_state m (foldl push_back st ks)) = recency (of_state m st) ++ ks.
Proof.
  revert st. induction ks as [|s ks IH]; intros st Hi Hnd; simpl; [by rewrite app_nil_r|].
  destruct (push_back_inv m st s Hi) as [Hi' Hr'].
  { apply deref_None; [done|]. destruct (deref _ (id s)) as [t|] eqn:E; [|done].
    apply deref_Some in E as [Hin Hid]; [|done]. exfalso.
    rewrite fmap_app, NoDup_app in Hnd. destruct Hnd as (_ & Hd & _).
    apply (Hd (id t)); [by apply list_elem_of_fmap_2|]. rewrite Hid. by left. }
  destruct (IH _ Hi') as [Hi2 Hr2]; [by rewrite Hr', <- (assoc_L (++))|].
  split; [done|]. by rewrite Hr2, Hr', <- (assoc_L (++)).
Qed.

Lemma foldl_push_back (l : list (nat * Session R)) st :
  foldl (fun st e => push_back st (kept_session e.2)) st l = foldl push_back st (kept_session <$> (snd <$> l)).
Proof. revert st. induction l as [|e l IH]; intros st; [done|]. csimpl. apply IH. Qed.

Definition enc_lru (l : list (nat * Session R)) : list byte :=
  put_u64 (Z.lor (Z.shiftl fileVersion 32) lruManagerType) ++
  put_u64 (Z.of_nat (length l)) ++ (l ≫= fun e => enc_session rs ok lawful e.2).

Lemma lru_Restore_reads m l :
  serves L 8 → is_u64 (Z.of_nat (length l)) → Forall (fun e => session_wf L ok e.2) l →
  l_arSerializer m = Some rs →
  reads L (Restore m) (enc_lru l)
    (of_state m (foldl push_back (∅, [], next_elem m) (kept_session <$> (snd <$> l)))).
Proof.
  intros Hw Hlen Hs Hrs. apply reads_buf; [done|]. intros _ _. unfold enc_lru.
  eapply reads_bind; [by apply reads_u64|]. rewrite !decide_False by (by intros []).
  eapply reads_bind; [by apply reads_u64|]. cbv beta. rewrite Nat2Z.id.
  rewrite <- (app_nil_r (l ≫= _)). eapply reads_bind.
  - apply (reads_each _ _ _ (fun st e => push_back st (kept_session e.2))). intros e acc Hin.
    rewrite Forall_forall in Hs. rewrite <- (app_nil_r (enc_session _ _ _ e.2)).
    eapply reads_bind; [rewrite Hrs; apply Session.Restore_reads; auto|]. apply reads_ret.
  - rewrite foldl_push_back. destruct (foldl _ _ _) as [[ss l'] next] eqn:E. simpl.
    assert (length l' = length l) as ->; [|rewrite decide_False by (by intros []); apply reads_ret].
    assert (∀ (ks : list (Session R)) st, length (foldl push_back st ks).1.2 = (length st.1.2 + length ks)%nat) as Hl.
    { induction ks as [|k ks IH]; intros [[ss' k'] n']; simpl; [lia|]. rewrite IH. simpl. rewrite length_app. simpl. lia. }
    specialize (Hl (kept_session <$> (snd <$> l)) (∅, [], next_elem m)). rewrite E in Hl. simpl in Hl.
    by rewrite !length_fmap in Hl.
Qed.

(** The snapshot of the manager brings sessions and order of use back: what another
    manager restores has the same sessions in the same order, errors reduced to their text,
    and map and list in step. *)
Theorem lru_snapshot_roundtrip m m0 :
  serves L 8 → lru_inv m → is_u64 (Z.of_nat (length (lru m))) → Forall (session_wf L ok) (recency m) →
  l_arSerializer m = Some rs → l_arSerializer m0 = Some rs →
  ∃ b m1, writes L (Snapshot m) b ∧ reads L (Restore m0) b m1 ∧
    lru_inv m1 ∧ recency m1 = kept_session <$> recency m.
Proof.
  intros Hw Hm Hlen Hs Hrs Hrs0. unfold recency in Hs. rewrite Forall_fmap in Hs.
  exists (enc_lru (lru m)). eexists. split; [|split; [by apply lru_Restore_reads|]].
  - apply writes_buf; [done|]. intros _ _. do 2 (apply writes_bind; [auto with streams|]).
    apply (writes_each _ _ (fun e => enc_session rs ok lawful e.2)). intros e He. rewrite Hrs.
    rewrite Forall_forall in Hs. apply Snapshot_writes; [done|]. by apply Hs.
  - apply (push_all m0 (∅, [], next_elem m0)).
    + constructor; simpl; [constructor..| |constructor]. intros i p. split; [done|].
      by intros (s & ?%elem_of_nil & _).
    + simpl. rewrite <- !list_fmap_compose. apply Hm.
Qed.
End RoundTrip.
