(* ===== verification/NoOpManager.v ===== *)
(** * No sessions: [pkg/session/no_op_manager.go] and [pkg/session/no_op_session.go]

    The manager for state machines without sessions: every id leads to the no-op session,
    which never remembers anything.  Its snapshot is the file header. *)

From S2P Require Import Prelude Streams Session.

Inductive NoOpManager := noOpManager.

Section NoOpManager.
Implicit Types m : NoOpManager.

Definition SetResponseSerializer m : option error := None.
Definition GetSession (sid : Z) m : NoOpManager * result handle := (m, Ok NoOpSession).
Definition Register (sid currentNanoseconds : Z) m : NoOpManager * option error := (m, None).
Definition UnRegister (sid : Z) m : NoOpManager * option error := (m, None).
Definition ExpireSession (currentTime : Z) m : NoOpManager := m.

Open Scope go_scope.

Definition Snapshot {W} `{Writer W} m : meth W unit :=
  FileWriteUint64 (Z.lor (Z.shiftl fileVersion 32) noOpManagerType).

Definition Restore m : meth (list byte) NoOpManager :=
  value <- FileReadUint64 ;;
  if decide (u32 (Z.shiftr value 32) ≠ fileVersion) then
    Meth.fail (Errorf "no operation session manager: mismatch file version (expected version=%d real version=%d)")
  else if decide (u32 (Z.land value 0xffffffff) ≠ noOpManagerType) then
    Meth.fail (Errorf "no operation session manager: found invalid file fiype %d")
  else Meth.ret m.
End NoOpManager.

(** No pointer ever leads to a session. *)
#[export] Instance noop_manager {R} : SessionManager R NoOpManager := {|
  sm_Register := Register; sm_UnRegister := UnRegister; sm_ExpireSession := ExpireSession;
  sm_GetSession := GetSession; sm_deref _ _ := None; sm_assign _ _ m := m
|}.

(** The header is read back. *)
Lemma noop_Restore_Snapshot m rest :
  ∃ b, Snapshot m [] = Ret (b, Ok tt) ∧ Restore m (b ++ rest) = Ret (rest, Ok m).
Proof.
  eexists. split; [done|]. unfold Restore, Meth.bind. rewrite app_nil_l, FileReadUint64_put by done.
  by rewrite !decide_False by (by intros []).
Qed.
