(* ===== verification/Cluster.v ===== *)
(** * Cluster membership: [pkg/cluster/cluster.go]

    The peers of a cluster and the ids that were removed from it, the operations that
    change them and their snapshot.  The theorems show the invariant of the membership,
    that a removed id never comes back, what an update does to the uniqueness of
    addresses, and what a snapshot keeps, also when its file is cut short. *)

From S2P Require Import Prelude Allocator Streams.

(** ** [babuzapb.RaftPeerAttribute], [babuzapb.Peer] and [pb.Store] *)

Record RaftPeerAttribute := { PeerID : Z; RaftListenAddr : string; IsLearner : bool; StoreID : Z }.
Record Peer := { RaftPeerAttr : RaftPeerAttribute; AppServiceAddresses : list string }.

(** [pb.Store]; a map that was never made is [None] and cannot be assigned to. *)
Record Store := { Peers : option (gmap Z Peer); RemovedIds : option (gmap Z bool) }.

#[export] Instance RaftPeerAttribute_eq_dec : EqDecision RaftPeerAttribute.
Proof. solve_decision. Defined.
#[export] Instance Peer_eq_dec : EqDecision Peer.
Proof. solve_decision. Defined.

(** Reading a nil map finds nothing. *)
Definition peers_of (s : Store) : gmap Z Peer := default ∅ (Peers s).
Definition removed_of (s : Store) : gmap Z bool := default ∅ (RemovedIds s).

(** The generated encoding of [pb.Store]: decoding makes a map only for a field that is
    there, so an empty map comes back nil. *)
Definition nil_if_empty {V} (m : gmap Z V) : option (gmap Z V) :=
  if decide (m = ∅) then None else Some m.
Class StoreCodec := {
  store_marshal : Store → list byte;
  store_unmarshal : list byte → option Store;
  store_unmarshal_marshal : ∀ s, store_unmarshal (store_marshal s) =
    Some {| Peers := nil_if_empty (peers_of s); RemovedIds := nil_if_empty (removed_of s) |}
}.

Record Cluster := { clusterID : Z; groupID : Z; localPeerID : Z; store : Store }.

Definition ErrPeerIDRemoved : error := Sentinel "ErrPeerIDRemoved".
Definition ErrPeerIDExists : error := Sentinel "ErrPeerIDExists".
Definition ErrPeerIDNotFound : error := Sentinel "ErrPeerIDNotFound".
Definition ErrPeerNotLearner : error := Sentinel "ErrPeerNotLearner".
Definition ErrPeerRaftListenAddrExists : error := Sentinel "ErrPeerRaftListenAddrExists".

Definition storeVersion : Z := 1.

Definition NewCluster : Cluster :=
  {| clusterID := 0; groupID := 0; localPeerID := 0;
     store := {| Peers := Some ∅; RemovedIds := Some ∅ |} |}.

Definition SetClusterID (v : Z) (c : Cluster) : Cluster :=
  {| clusterID := v; groupID := groupID c; localPeerID := localPeerID c; store := store c |}.
Definition SetGroupID (v : Z) (c : Cluster) : Cluster :=
  {| clusterID := clusterID c; groupID := v; localPeerID := localPeerID c; store := store c |}.
Definition SetLocalPeerID (v : Z) (c : Cluster) : Cluster :=
  {| clusterID := clusterID c; groupID := groupID c; localPeerID := v; store := store c |}.
Definition set_store (s : Store) (c : Cluster) : Cluster :=
  {| clusterID := clusterID c; groupID := groupID c; localPeerID := localPeerID c; store := s |}.

(** [c.store.Peers[id] = p] and [c.store.RemovedIds[id] = true]. *)
Definition nil_map_assignment : string := "assignment to entry in nil map".
Definition put_peer (i : Z) (p : Peer) : meth Cluster unit := fun c =>
  match Peers (store c) with
  | Some m => Ret (set_store {| Peers := Some (<[i := p]> m); RemovedIds := RemovedIds (store c) |} c, Ok tt)
  | None => Panic nil_map_assignment
  end.
Definition put_removed (i : Z) : meth Cluster unit := fun c =>
  match RemovedIds (store c) with
  | Some m => Ret (set_store {| Peers := Peers (store c); RemovedIds := Some (<[i := true]> m) |} c, Ok tt)
  | None => Panic nil_map_assignment
  end.
Definition delete_peer (i : Z) : meth Cluster unit := Meth.modify (fun c =>
  set_store {| Peers := delete i <$> Peers (store c); RemovedIds := RemovedIds (store c) |} c).

(** [p, ok := c.store.Peers[id]; if !ok { return ErrPeerIDNotFound }]. *)
Definition get_peer (peerID : Z) : meth Cluster Peer := fun c =>
  match peers_of (store c) !! peerID with
  | Some p => Ret (c, Ok p)
  | None => Ret (c, Err ErrPeerIDNotFound)
  end.

(** [Peer(peerID)] *)
Definition Peer_ (peerID : Z) (c : Cluster) : result Peer :=
  match peers_of (store c) !! peerID with Some p => Ok p | None => Err ErrPeerIDNotFound end.

(** [Peers()], sorted by the id in the attributes. *)
Definition peer_le (p q : Peer) : Prop := PeerID (RaftPeerAttr p) <= PeerID (RaftPeerAttr q).
#[export] Instance peer_le_dec p q : Decision (peer_le p q).
Proof. unfold peer_le. apply _. Defined.
Definition Peers_ `{MapRange} (c : Cluster) : list Peer :=
  merge_sort peer_le (snd <$> range (peers_of (store c))).

Section Operations.
Open Scope go_scope.

(** The loop over the peers in [Add]: some peer listens on the address. *)
Definition addr_in_use (addr : string) (s : Store) : Prop :=
  map_Exists (fun _ p => RaftListenAddr (RaftPeerAttr p) = addr) (peers_of s).

Definition Add (peer : RaftPeerAttribute) : meth Cluster unit :=
  c <- Meth.get ;;
  if decide (is_Some (peers_of (store c) !! PeerID peer)) then Meth.fail ErrPeerIDExists
  else if decide (is_Some (removed_of (store c) !! PeerID peer)) then Meth.fail ErrPeerIDRemoved
  else if decide (addr_in_use (RaftListenAddr peer) (store c)) then Meth.fail ErrPeerRaftListenAddrExists
  else put_peer (PeerID peer) {| RaftPeerAttr := peer; AppServiceAddresses := [] |}.

Definition Update (peerID : Z) (peer : RaftPeerAttribute) : meth Cluster unit :=
  p <- get_peer peerID ;;
  put_peer (PeerID peer)
    {| RaftPeerAttr := {| PeerID := PeerID (RaftPeerAttr p); RaftListenAddr := RaftListenAddr peer;
                          IsLearner := IsLearner peer; StoreID := StoreID peer |};
       AppServiceAddresses := AppServiceAddresses p |}.

Definition UpdateAppServiceAddresses (peerID : Z) (addresses : list string) : meth Cluster unit :=
  p <- get_peer peerID ;;
  put_peer peerID {| RaftPeerAttr := RaftPeerAttr p; AppServiceAddresses := addresses |}.

Definition Remove (peerID : Z) : meth Cluster unit :=
  _ <- get_peer peerID ;; delete_peer peerID ;; put_removed peerID.

Definition Promote (peerID : Z) : meth Cluster unit :=
  p <- get_peer peerID ;;
  if IsLearner (RaftPeerAttr p) then
    put_peer peerID
      {| RaftPeerAttr := {| PeerID := PeerID (RaftPeerAttr p); RaftListenAddr := RaftListenAddr (RaftPeerAttr p);
                            IsLearner := false; StoreID := StoreID (RaftPeerAttr p) |};
         AppServiceAddresses := AppServiceAddresses p |}
  else Meth.fail ErrPeerNotLearner.
End Operations.

(** ** The snapshot *)

Section Snapshot.
Context `{StoreCodec}.
Open Scope go_scope.

Definition Snapshot {W} `{Writer W} (c : Cluster) : meth W unit :=
  let storeData := store_marshal (store c) in
  FileWriteUint64 storeVersion ;;
  FileWriteUint64 (clusterID c) ;;
  FileWriteUint64 (groupID c) ;;
  FileWriteUint64 (Z.of_nat (length storeData)) ;;
  write_bytes storeData.

(** A method of the reader. *)
Definition on_reader {A} (m : meth (list byte) A) : meth (Cluster * list byte) A := fun st =>
  '(r, a) ← m st.2; Ret ((st.1, r), a).
Definition on_cluster (f : Cluster → Cluster) : meth (Cluster * list byte) unit := fun st =>
  Ret ((f st.1, st.2), Ok tt).

(** One [Read] into a buffer of [n] bytes: [io.EOF] at the end of the input, and otherwise
    as many bytes as the reader has at hand, at most [chunk]; the rest of the buffer stays
    zero. *)
Definition read_once (chunk n : nat) : meth (list byte) (list byte) := fun s =>
  if decide (s = [] ∧ n ≠ 0%nat) then Ret (s, Err io_EOF)
  else let k := Nat.min n (Nat.min chunk (length s)) in
       Ret (drop k s, Ok (take k s ++ repeat Byte.x00 (n - k))).

(** [c.clusterID, err = fileutil.FileReadUint64(r, buf)]: an error stores zero. *)
Definition read_clusterID : meth (Cluster * list byte) unit := fun st =>
  '(r, a) ← FileReadUint64 st.2;
  Ret (match a with
       | Ok cid => ((SetClusterID cid st.1, r), Ok tt)
       | Err e => ((SetClusterID 0 st.1, r), Err e)
       end).

(** [Restore]: the error of the last read ends it without an error. *)
Definition Restore (chunk : nat) : meth (Cluster * list byte) unit :=
  ver <- on_reader FileReadUint64 ;;
  if decide (ver ≠ storeVersion) then
    Meth.fail (Errorf "cluster: mismatch store version. expected (version=%d) real(version=%d)")
  else
    read_clusterID ;;
    gid <- on_reader FileReadUint64 ;;
    on_cluster (SetGroupID gid) ;;
    dataSize <- on_reader FileReadUint64 ;;
    fun st =>
      match read_once chunk (Z.to_nat dataSize) st.2 with
      | Ret (r, Err _) => Ret ((st.1, r), Ok tt)
      | Ret (r, Ok buf) =>
          match store_unmarshal buf with
          | None => Ret ((st.1, r), Err (Errorf "proto: unmarshal"))
          | Some s =>
              let s := {| Peers := Peers s;
                          RemovedIds := if decide (size (removed_of s) = 0%nat) then Some ∅ else RemovedIds s |} in
              Ret ((set_store s st.1, r), Ok tt)
          end
      | Panic p => Panic p
      end.
End Snapshot.

(** ** Membership *)

(** Both maps are there, every peer is kept under its own id, and no removed id is a peer. *)
Record cluster_inv (c : Cluster) : Prop := {
  ci_peers : is_Some (Peers (store c));
  ci_removed : is_Some (RemovedIds (store c));
  ci_keyed : map_Forall (fun i p => PeerID (RaftPeerAttr p) = i) (peers_of (store c));
  ci_disjoint i : is_Some (removed_of (store c) !! i) → peers_of (store c) !! i = None
}.

(** No two peers listen on one address. *)
Definition addr_unique (c : Cluster) : Prop :=
  ∀ i j p q, peers_of (store c) !! i = Some p → peers_of (store c) !! j = Some q →
    RaftListenAddr (RaftPeerAttr p) = RaftListenAddr (RaftPeerAttr q) → i = j.

(** The changes the apply loop asks for. *)
Inductive change :=
| CAdd (peer : RaftPeerAttribute)
| CUpdate (peer : RaftPeerAttribute)
| CServices (peerID : Z) (addresses : list string)
| CRemove (peerID : Z)
| CPromote (peerID : Z).

Definition apply_change (o : change) : meth Cluster unit :=
  match o with
  | CAdd peer => Add peer
  | CUpdate peer => Update (PeerID peer) peer
  | CServices peerID addresses => UpdateAppServiceAddresses peerID addresses
  | CRemove peerID => Remove peerID
  | CPromote peerID => Promote peerID
  end.

(** The changes one after the other, those refused included. *)
Fixpoint apply_changes (os : list change) (c : Cluster) : go Cluster :=
  match os with
  | [] => Ret c
  | o :: os => '(c', _) ← apply_change o c; apply_changes os c'
  end.

(** What a change does to a membership in good order: nothing, or it writes one peer under
    its id, or it moves one id from the peers to the removed. *)
Inductive changed (c : Cluster) : Cluster → Prop :=
| changed_same : changed c c
| changed_put i p m :
    Peers (store c) = Some m → PeerID (RaftPeerAttr p) = i →
    removed_of (store c) !! i = None →
    changed c (set_store {| Peers := Some (<[i := p]> m); RemovedIds := RemovedIds (store c) |} c)
| changed_removed i m r :
    Peers (store c) = Some m → RemovedIds (store c) = Some r → is_Some (m !! i) →
    changed c (set_store {| Peers := Some (delete i m); RemovedIds := Some (<[i := true]> r) |} c).

Lemma changed_inv c c' : cluster_inv c → changed c c' →
  cluster_inv c' ∧ ∀ i, is_Some (removed_of (store c) !! i) → is_Some (removed_of (store c') !! i).
Proof.
  intros Hc Hch. destruct Hch as [|i p m Hm Hi Hr|i m r Hm Hr Hp]; [done| |].
  - pose proof (ci_disjoint c Hc) as Hd. pose proof (ci_keyed c Hc) as Hk.
    split; [|done]. unfold peers_of, removed_of in *. rewrite Hm in *. simpl in *.
    constructor; unfold peers_of, removed_of; simpl; [done|apply Hc|by apply map_Forall_insert_2|].
    intros j Hj. destruct (decide (i = j)) as [<-|]; [by rewrite Hr in Hj; destruct Hj|].
    rewrite lookup_insert_ne by done. by apply Hd.
  - pose proof (ci_disjoint c Hc) as Hd. pose proof (ci_keyed c Hc) as Hk.
    unfold peers_of, removed_of in *. rewrite Hm, Hr in *. simpl in *. split.
    + constructor; unfold peers_of, removed_of; simpl; [done|done|by apply map_Forall_delete|].
      intros j. rewrite lookup_insert_is_Some, lookup_delete_None. intros [->|[_ Hj]]; [by left|right; by apply Hd].
    + intros j Hj. rewrite lookup_insert_is_Some. destruct (decide (i = j)); [by left|by right].
Qed.

Lemma cluster_maps c : cluster_inv c → ∃ m r, Peers (store c) = Some m ∧ RemovedIds (store c) = Some r.
Proof. intros [[m Hm] [r Hr] _ _]. eauto. Qed.

Lemma peer_not_removed c i p : cluster_inv c → peers_of (store c) !! i = Some p → removed_of (store c) !! i = None.
Proof.
  intros Hc Hp. destruct (removed_of (store c) !! i) eqn:E; [|done].
  rewrite (ci_disjoint c Hc) in Hp; [done|by rewrite E].
Qed.

Lemma apply_change_total c o : cluster_inv c → ∃ c' r, apply_change o c = Ret (c', r) ∧ changed c c'.
Proof.
  intros Hc. destruct (cluster_maps c Hc) as (m & r & Hm & Hr).
  assert (∀ i p, PeerID (RaftPeerAttr p) = i → removed_of (store c) !! i = None →
    ∃ c' x, put_peer i p c = Ret (c', x) ∧ changed c c') as Hput.
  { intros i p Hi Hri. unfold put_peer. rewrite Hm. do 2 eexists. split; [done|]. by econstructor. }
  destruct o as [peer|peer|i addrs|i|i]; simpl.
  - unfold Add, Meth.bind, Meth.get. repeat case_decide; try (do 2 eexists; split; [done|constructor]).
    apply Hput; [done|]. by apply eq_None_not_Some.
  - unfold Update, Meth.bind, get_peer. destruct (peers_of (store c) !! _) as [p|] eqn:E;
      [|do 2 eexists; split; [done|constructor]].
    apply Hput; simpl; [by apply (ci_keyed c Hc) in E|by eapply peer_not_removed].
  - unfold UpdateAppServiceAddresses, Meth.bind, get_peer. destruct (peers_of (store c) !! _) as [p|] eqn:E;
      [|do 2 eexists; split; [done|constructor]].
    apply Hput; simpl; [by apply (ci_keyed c Hc) in E|by eapply peer_not_removed].
  - unfold Remove, Meth.bind, get_peer. destruct (peers_of (store c) !! _) as [p|] eqn:E;
      [|do 2 eexists; split; [done|constructor]].
    unfold delete_peer, Meth.modify, put_removed. simpl. rewrite Hr, Hm. do 2 eexists. split; [done|].
    apply (changed_removed c i m r); [done..|]. unfold peers_of in E. rewrite Hm in E. by eexists.
  - unfold Promote, Meth.bind, get_peer. destruct (peers_of (store c) !! _) as [p|] eqn:E;
      [|do 2 eexists; split; [done|constructor]].
    destruct (IsLearner _); [|do 2 eexists; split; [done|constructor]].
    apply Hput; simpl; [by apply (ci_keyed c Hc) in E|by eapply peer_not_removed].
Qed.

(** C35: the membership stays in good order and a removed peer never comes back.  From a
    membership in good order every sequence of changes runs without a panic to one in good
    order, and an id that was removed before is removed afterwards and not a peer. *)
Theorem removed_stays_removed c os :
  cluster_inv c → ∃ c', apply_changes os c = Ret c' ∧ cluster_inv c' ∧
    ∀ i, is_Some (removed_of (store c) !! i) →
      is_Some (removed_of (store c') !! i) ∧ peers_of (store c') !! i = None.
Proof.
  revert c. induction os as [|o os IH]; intros c Hc; simpl.
  - exists c. split_and!; [done..|]. intros i Hi. split; [done|by apply Hc].
  - destruct (apply_change_total c o Hc) as (c1 & r & -> & Hch). cbn [mbind go_bind].
    destruct (changed_inv c c1 Hc Hch) as [Hc1 Hmono]. destruct (IH c1 Hc1) as (c' & -> & Hc' & Hr).
    exists c'. split_and!; [done..|]. intros i Hi. by apply Hr, Hmono.
Qed.

(** ** Addresses *)

Definition no_update (o : change) : Prop := match o with CUpdate _ => False | _ => True end.

(** Rewriting a peer with the address it has keeps addresses apart. *)
Lemma addr_unique_put c m i p q :
  Peers (store c) = Some m → addr_unique c → m !! i = Some p →
  RaftListenAddr (RaftPeerAttr q) = RaftListenAddr (RaftPeerAttr p) →
  addr_unique (set_store {| Peers := Some (<[i := q]> m); RemovedIds := RemovedIds (store c) |} c).
Proof.
  unfold addr_unique, peers_of. simpl. intros -> Hu Hp Hq j k a b. simpl in Hu.
  rewrite !lookup_insert_Some. intros [[<- <-]|[Hj Ha]] [[<- <-]|[Hk Hb]] Heq; [done|..].
  - exfalso. apply Hk. eapply Hu; [done..|congruence].
  - exfalso. apply Hj. symmetry. eapply Hu; [done..|congruence].
  - by eapply Hu.
Qed.

Lemma apply_change_addr c o c' r :
  addr_unique c → no_update o → apply_change o c = Ret (c', r) → addr_unique c'.
Proof.
  intros Hu Hn Ho. destruct o as [peer|peer|i addrs|i|i]; simpl in Ho; [|done|..].
  - unfold Add, Meth.bind, Meth.get, Meth.fail, put_peer in Ho. do 2 (case_decide; [by simplify_eq/=|]).
    case_decide as Hfree; [by simplify_eq/=|].
    destruct (Peers (store c)) as [m|] eqn:Em; simplify_eq/=.
    unfold addr_unique, addr_in_use, peers_of in *. rewrite Em in *. simpl in *.
    intros j k a b. rewrite !lookup_insert_Some. intros [[<- <-]|[Hj Ha]] [[<- <-]|[Hk Hb]] Heq; [done|..].
    + exfalso. apply Hfree. by exists k, b.
    + exfalso. apply Hfree. by exists j, a.
    + by eapply Hu.
  - unfold UpdateAppServiceAddresses, Meth.bind, get_peer, put_peer in Ho.
    destruct (peers_of (store c) !! i) as [p|] eqn:E; simplify_eq/=; [|done].
    destruct (Peers (store c)) as [m|] eqn:Em; simplify_eq/=. unfold peers_of in E. rewrite Em in E.
    by eapply addr_unique_put.
  - unfold Remove, Meth.bind, get_peer, delete_peer, Meth.modify, put_removed in Ho.
    destruct (peers_of (store c) !! i) as [p|] eqn:E; simplify_eq/=; [|done].
    destruct (RemovedIds (store c)) as [rm|]; simplify_eq/=. unfold addr_unique, peers_of in *. simpl.
    destruct (Peers (store c)) as [m|] eqn:Em; simpl in *; [|done].
    intros j k a b [_ Ha]%lookup_delete_Some [_ Hb]%lookup_delete_Some. by eapply Hu.
  - unfold Promote, Meth.bind, Meth.fail, get_peer, put_peer in Ho.
    destruct (peers_of (store c) !! i) as [p|] eqn:E; simplify_eq/=; [|done].
    destruct (IsLearner _); [|by simplify_eq/=].
    destruct (Peers (store c)) as [m|] eqn:Em; simplify_eq/=. unfold peers_of in E. rewrite Em in E.
    by eapply addr_unique_put.
Qed.

(** As long as no peer is updated, no two peers listen on one address. *)
Theorem addresses_stay_unique c os c' :
  addr_unique c → Forall no_update os → apply_changes os c = Ret c' → addr_unique c'.
Proof.
  revert c. induction os as [|o os IH]; simpl; intros c Hu Hn Ho; [by simplify_eq|].
  apply Forall_cons in Hn as [Hn Hns]. destruct (apply_change o c) as [[c1 r]|] eqn:E; [|done].
  eapply IH; [|done..]. by eapply apply_change_addr.
Qed.

(** An update can give a peer the address of another one: [Update] does not look at the
    other peers, so it accepts an address [Add] would refuse. *)
Theorem update_shares_address c i j p q :
  cluster_inv c → i ≠ j → peers_of (store c) !! i = Some p → peers_of (store c) !! j = Some q →
  let peer := {| PeerID := j; RaftListenAddr := RaftListenAddr (RaftPeerAttr p);
                 IsLearner := IsLearner (RaftPeerAttr q); StoreID := StoreID (RaftPeerAttr q) |} in
  ∃ c', Update j peer c = Ret (c', Ok tt) ∧ ¬ addr_unique c'.
Proof.
  intros Hc Hij Hp Hq peer. destruct (cluster_maps c Hc) as (m & r & Hm & Hr).
  unfold Update, Meth.bind, get_peer, put_peer. rewrite Hq, Hm. eexists. split; [done|].
  unfold addr_unique, peers_of in *. rewrite Hm in *. simpl in *. intros Hu.
  apply Hij. eapply (Hu i j); [by rewrite lookup_insert_ne|by apply lookup_insert_eq|done].
Qed.

(** ** What the snapshot keeps *)

Lemma nil_if_empty_default {V} (m : gmap Z V) : default ∅ (nil_if_empty m) = m.
Proof. unfold nil_if_empty. case_decide; by subst. Qed.

Section RoundTrip.
Context `{StoreCodec}.

Definition snapshot_bytes (c : Cluster) : list byte :=
  put_u64 storeVersion ++ put_u64 (clusterID c) ++ put_u64 (groupID c) ++
  put_u64 (Z.of_nat (length (store_marshal (store c)))) ++ store_marshal (store c).

Lemma Snapshot_bytes c out : Snapshot c out = Ret (out ++ snapshot_bytes c, Ok tt).
Proof.
  unfold Snapshot, snapshot_bytes, Meth.bind, FileWriteUint64, write_bytes. simpl. by rewrite <- !(assoc_L (++)).
Qed.

Lemma on_reader_u64 c v rest : is_u64 v →
  on_reader FileReadUint64 (c, put_u64 v ++ rest) = Ret ((c, rest), Ok v).
Proof.
  intros Hv. unfold on_reader. cbn [fst snd]. by rewrite FileReadUint64_put.
Qed.

Lemma read_clusterID_u64 c v rest : is_u64 v →
  read_clusterID (c, put_u64 v ++ rest) = Ret ((SetClusterID v c, rest), Ok tt).
Proof. intros Hv. unfold read_clusterID. cbn [fst snd]. by rewrite FileReadUint64_put. Qed.

(** The header leaves the data and the ids of the snapshot. *)
Lemma Restore_header c c0 chunk data :
  is_u64 (clusterID c) → is_u64 (groupID c) → is_u64 (Z.of_nat (length (store_marshal (store c)))) →
  Restore chunk (c0, put_u64 storeVersion ++ put_u64 (clusterID c) ++ put_u64 (groupID c) ++
                     put_u64 (Z.of_nat (length (store_marshal (store c)))) ++ data) =
  let c1 := SetGroupID (groupID c) (SetClusterID (clusterID c) c0) in
  match read_once chunk (length (store_marshal (store c))) data with
  | Ret (r, Err _) => Ret ((c1, r), Ok tt)
  | Ret (r, Ok buf) =>
      match store_unmarshal buf with
      | None => Ret ((c1, r), Err (Errorf "proto: unmarshal"))
      | Some s =>
          Ret ((set_store {| Peers := Peers s;
                 RemovedIds := if decide (size (removed_of s) = 0%nat) then Some ∅ else RemovedIds s |} c1, r), Ok tt)
      end
  | Panic p => Panic p
  end.
Proof.
  intros Hc Hg Hd. unfold Restore. unfold Meth.bind at 1. rewrite on_reader_u64 by done.
  rewrite decide_False by (by intros []).
  unfold Meth.bind at 1. rewrite read_clusterID_u64 by done.
  unfold Meth.bind at 1. rewrite on_reader_u64 by done. unfold Meth.bind at 1, on_cluster. cbn [fst snd].
  unfold Meth.bind at 1. rewrite on_reader_u64 by done. cbn [fst snd]. by rewrite Nat2Z.id.
Qed.

(** A restored snapshot gives the membership back: when the reader hands over the data
    in one piece, the restored cluster has the ids, the peers and the removed ids of the
    snapshot and keeps its own local peer id; its peer map is unusable if there were no
    peers. *)
Theorem cluster_snapshot_roundtrip c c0 chunk rest :
  is_u64 (clusterID c) → is_u64 (groupID c) → is_u64 (Z.of_nat (length (store_marshal (store c)))) →
  (length (store_marshal (store c)) <= chunk)%nat → store_marshal (store c) ++ rest ≠ [] →
  ∃ b c1, Snapshot c [] = Ret (b, Ok tt) ∧ Restore chunk (c0, b ++ rest) = Ret ((c1, rest), Ok tt) ∧
    clusterID c1 = clusterID c ∧ groupID c1 = groupID c ∧ localPeerID c1 = localPeerID c0 ∧
    peers_of (store c1) = peers_of (store c) ∧ removed_of (store c1) = removed_of (store c) ∧
    is_Some (RemovedIds (store c1)) ∧ (is_Some (Peers (store c1)) ↔ peers_of (store c) ≠ ∅).
Proof.
  intros Hc Hg Hd Hchunk Hne. exists (snapshot_bytes c). eexists. split; [apply (Snapshot_bytes c [])|].
  split.
  - unfold snapshot_bytes. rewrite <- !(assoc_L (++)), Restore_header by done. unfold read_once.
    rewrite decide_False by (by intros [? _]). rewrite length_app, !Nat.min_l by lia.
    rewrite Nat.sub_diag, take_app_length, drop_app_length. simpl. rewrite app_nil_r.
    by rewrite store_unmarshal_marshal.
  - simpl. unfold peers_of, removed_of. simpl. fold (removed_of (store c)) (peers_of (store c)).
    rewrite !nil_if_empty_default. split_and!; [done..| | |].
    + case_decide as Hs; simpl; [by apply map_size_empty_inv in Hs|apply nil_if_empty_default].
    + case_decide as Hs; [done|].
      unfold nil_if_empty. rewrite decide_False; [done|]. intros Heq. by rewrite Heq in Hs.
    + unfold nil_if_empty. case_decide; [by split; [intros []|]|done].
Qed.

(** A snapshot file that ends after the header is restored without an error: the ids
    are taken over, and the old membership stays. *)
Theorem truncated_restore_succeeds c c0 chunk :
  is_u64 (clusterID c) → is_u64 (groupID c) → is_u64 (Z.of_nat (length (store_marshal (store c)))) →
  store_marshal (store c) ≠ [] →
  let header := take 32 (snapshot_bytes c) in
  ∃ c1, Restore chunk (c0, header) = Ret ((c1, []), Ok tt) ∧
    clusterID c1 = clusterID c ∧ store c1 = store c0.
Proof.
  intros Hc Hg Hd Hne header. exists (SetGroupID (groupID c) (SetClusterID (clusterID c) c0)). split; [|done].
  assert (header = put_u64 storeVersion ++ put_u64 (clusterID c) ++ put_u64 (groupID c) ++
                   put_u64 (Z.of_nat (length (store_marshal (store c)))) ++ []) as ->.
  { unfold header, snapshot_bytes. rewrite app_nil_r, !(assoc_L (++)). apply take_app_length'.
    rewrite !length_app, !length_put_u64. reflexivity. }
  rewrite Restore_header by done. unfold read_once. rewrite decide_True; [done|].
  split; [done|]. by destruct (store_marshal (store c)).
Qed.
End RoundTrip.
