(* ===== verification/Apply.v ===== *)
(** * Applying committed entries: [raft/applied_facade.go], [raft/raft_apply.go] and the
    configuration part of [raft/raft_ready.go]

    Committed entries are handled by two goroutines: the apply loop runs client commands
    and session requests, and the ready loop applies configuration changes.  Both share the
    session manager.  A node is the state they change and the trace of what they tell the
    rest of the system.  The session manager, the state machine and the raft node are
    interfaces; the clock is a sequence of readings.  [Exactly.v] has the theorems. *)

From S2P Require Import Prelude Raftpb Session Cluster.

(** ** Requests: [babuzapb] *)

Record RequestContext := { ReplyID : Z; SessionID : Z; SequenceNum : Z; LowestSeqNumNotYetReplied : Z }.
Record RegisterSessionRequest := { Unregister : bool; rs_SessionID : Z }.
Record PubAppServiceRequest := { PubServicePeerID : Z; pas_Addresses : list string }.
Record NormalRequest := {
  Context_ : RequestContext;
  Register_ : option RegisterSessionRequest;
  PubAppService : option PubAppServiceRequest;
  StateMachineLog : list byte
}.
Record ConfChangeRequest := {
  cr_Context : RequestContext;
  cr_GroupID : Z;
  cr_RaftPeerAttr : RaftPeerAttribute;
  PromoteLearner : bool
}.

(** [raftpb.ConfChange] *)
Record ConfChange := { cc_Type : Z; cc_NodeID : Z; cc_Context : list byte }.
Definition ConfChangeAddNode : Z := 0.
Definition ConfChangeRemoveNode : Z := 1.
Definition ConfChangeUpdateNode : Z := 2.
Definition ConfChangeAddLearnerNode : Z := 3.

(** [raft.None] *)
Definition raft_None : Z := 0.

(** The dynamic values of [ApplyResult.Response]: what the state machine returns, the state
    a configuration change led to, or an error put there as a value. *)
Inductive response {A : Type} :=
| AppResponse (a : A)
| ConfStateResponse (cs : option ConfState)
| ErrorResponse (e : error).
Arguments response : clear implicits.

(** ** What the loops call *)

(** [ibabuza.BaseStateMachine]: [Apply] of a command with its term and index. *)
Class StateMachine (A SM : Type) := sm_Apply : Z → Z → list byte → SM → SM * ApplyResult (response A).

(** [AppliedRaftNode]: [ApplyConfChange] of a group. *)
Class RaftNode (RN : Type) := rn_ApplyConfChange : Z → ConfChange → RN → RN * result ConfState.

(** Calls of the transport and of the event publisher. *)
Inductive trans_call :=
| AddPeer (group peer : Z) (addr : string)
| UpdatePeer (group peer : Z) (addr : string)
| RemovePeer (group peer : Z).
Inductive member_event := MemberJoined | MemberRemoved | MemberUpdated | LeanerAdded | LeanerPromoted.

(** The part of [pkg/status] the loops set. *)
Record Status := { appliedIndex : Z; appliedTerm : Z; st_confState : ConfState }.

(** [BasedStateMachineInfo] *)
Record BasedStateMachineInfo := { openAppliedIndex : Z; diskType : bool }.

Record Node {A M SM RN : Type} := {
  sessions : M;
  cluster : Cluster;
  machine : SM;
  raft : RN;
  status : Status;
  ticks : nat;                                     (* readings of the clock so far *)
  commands : list Z;                               (* indexes handed to the state machine *)
  replies : list (Z * ApplyResult (response A));   (* [SendResult] *)
  trans : list trans_call;
  events : list (member_event * Z * Z);
  resets : nat;                                    (* [firstCommitNotifier.Reset] *)
  completed : list Z                               (* [completionReplier.MarkCompleted] *)
}.
Arguments Node : clear implicits.

Section Node.
Context {A M SM RN : Type}.
Implicit Types n : Node A M SM RN.

Definition put_sessions (m : M) n : Node A M SM RN :=
  {| sessions := m; cluster := cluster n; machine := machine n; raft := raft n; status := status n;
     ticks := ticks n; commands := commands n; replies := replies n; trans := trans n;
     events := events n; resets := resets n; completed := completed n |}.
Definition set_cluster (c : Cluster) n : Node A M SM RN :=
  {| sessions := sessions n; cluster := c; machine := machine n; raft := raft n; status := status n;
     ticks := ticks n; commands := commands n; replies := replies n; trans := trans n;
     events := events n; resets := resets n; completed := completed n |}.
Definition set_raft (r : RN) n : Node A M SM RN :=
  {| sessions := sessions n; cluster := cluster n; machine := machine n; raft := r; status := status n;
     ticks := ticks n; commands := commands n; replies := replies n; trans := trans n;
     events := events n; resets := resets n; completed := completed n |}.
Definition set_status (st : Status) n : Node A M SM RN :=
  {| sessions := sessions n; cluster := cluster n; machine := machine n; raft := raft n; status := st;
     ticks := ticks n; commands := commands n; replies := replies n; trans := trans n;
     events := events n; resets := resets n; completed := completed n |}.
Definition tick n : Node A M SM RN :=
  {| sessions := sessions n; cluster := cluster n; machine := machine n; raft := raft n; status := status n;
     ticks := S (ticks n); commands := commands n; replies := replies n; trans := trans n;
     events := events n; resets := resets n; completed := completed n |}.
Definition run_command (index : Z) (s : SM) n : Node A M SM RN :=
  {| sessions := sessions n; cluster := cluster n; machine := s; raft := raft n; status := status n;
     ticks := ticks n; commands := commands n ++ [index]; replies := replies n; trans := trans n;
     events := events n; resets := resets n; completed := completed n |}.
(** [SendAppliedResult] *)
Definition SendAppliedResult (replyID : Z) (ar : ApplyResult (response A)) n : Node A M SM RN :=
  {| sessions := sessions n; cluster := cluster n; machine := machine n; raft := raft n; status := status n;
     ticks := ticks n; commands := commands n; replies := replies n ++ [(replyID, ar)]; trans := trans n;
     events := events n; resets := resets n; completed := completed n |}.
Definition call_trans (c : trans_call) n : Node A M SM RN :=
  {| sessions := sessions n; cluster := cluster n; machine := machine n; raft := raft n; status := status n;
     ticks := ticks n; commands := commands n; replies := replies n; trans := trans n ++ [c];
     events := events n; resets := resets n; completed := completed n |}.
(** [publishMemberEvent] with a publisher. *)
Definition publishMemberEvent (ev : member_event) (group peer : Z) n : Node A M SM RN :=
  {| sessions := sessions n; cluster := cluster n; machine := machine n; raft := raft n; status := status n;
     ticks := ticks n; commands := commands n; replies := replies n; trans := trans n;
     events := events n ++ [(ev, group, peer)]; resets := resets n; completed := completed n |}.
(** [ApplyNilEntryInNewTerm] *)
Definition ApplyNilEntryInNewTerm n : Node A M SM RN :=
  {| sessions := sessions n; cluster := cluster n; machine := machine n; raft := raft n; status := status n;
     ticks := ticks n; commands := commands n; replies := replies n; trans := trans n;
     events := events n; resets := S (resets n); completed := completed n |}.
Definition MarkCompleted (i : Z) n : Node A M SM RN :=
  {| sessions := sessions n; cluster := cluster n; machine := machine n; raft := raft n; status := status n;
     ticks := ticks n; commands := commands n; replies := replies n; trans := trans n;
     events := events n; resets := resets n; completed := completed n ++ [i] |}.
End Node.

(** ** Sessions through the interface *)

Section Handles.
Context {R M : Type} `{SessionManager R M}.
Implicit Types (h : handle) (m : M).

(** The session a pointer leads to. *)
Definition session_at m (i : Z) : Session R := default (NewSession i 0) (sm_deref m i).

(** The methods of [ibabuza.Session], for the no-op session and for a kept one. *)
Definition h_RepeatSequenceNum h (seq : Z) m : bool :=
  match h with NoOpSession => false | SessionAt i => RepeatSequenceNum seq (session_at m i) end.
Definition h_GetResult h (seq : Z) m : option (ApplyResult R) :=
  match h with NoOpSession => None | SessionAt i => GetResult seq (session_at m i) end.
Definition h_ClearResult h (lowest : Z) m : M :=
  match h with
  | NoOpSession => m
  | SessionAt i => sm_assign i (ClearResult lowest (session_at m i)) m
  end.
Definition h_AddResult h (seq t : Z) (ar : ApplyResult R) m : M * option error :=
  match h with
  | NoOpSession => (m, None)
  | SessionAt i => let '(s, e) := AddResult seq t ar (session_at m i) in (sm_assign i s m, e)
  end.

(** [noOpSession, _ := GetSession(0)] *)
Definition get_noop m : M * handle :=
  let '(m', r) := sm_GetSession 0 m in
  (m', match r with Ok h => h | Err _ => NoOpSession end).

(** The results are cleared when the function returns, after the look-up. *)
Definition doExactlyOnce (index : Z) (ctx : RequestContext) h m : M * (bool * ApplyResult R) :=
  let r := if h_RepeatSequenceNum h (SequenceNum ctx) m then
             match h_GetResult h (SequenceNum ctx) m with
             | None => (false, {| LogIndex := index; ar_Response := None;
                                  ar_Error := Some (Errorf "seesion id(%d) seqence nume(%d): not found apply result") |})
             | Some ar => (false, ar)
             end
           else (true, noResult) in
  (h_ClearResult h (LowestSeqNumNotYetReplied ctx) m, r).

Definition handleSessionRegister (e : Entry) (reqTime : Z) (req : RegisterSessionRequest) m : M * ApplyResult R :=
  let '(m', err) := if Unregister req then sm_UnRegister (rs_SessionID req) m
                    else sm_Register (e_index e) reqTime m in
  (m', {| LogIndex := e_index e; ar_Response := None; ar_Error := err |}).
End Handles.

(** ** The apply loop *)

Section Loops.
Context {A M SM RN : Type}.
Context `{SessionManager (response A) M, StateMachine A SM, RaftNode RN}.
Context `{Message NormalRequest, Message ConfChange, Message ConfChangeRequest}.
Context (clock : nat → Z).
Implicit Types n : Node A M SM RN.

(** The error is stored as the response; a nil error is a nil response. *)
Definition handlePubAppService (e : Entry) (req : PubAppServiceRequest) (c : Cluster) : go (Cluster * ApplyResult (response A)) :=
  '(c', r) ← UpdateAppServiceAddresses (PubServicePeerID req) (pas_Addresses req) c;
  Ret (c', {| LogIndex := e_index e;
              ar_Response := match r with Ok _ => None | Err err => Some (ErrorResponse err) end;
              ar_Error := None |}).

Definition ApplyNormalEntry (e : Entry) n : go (Node A M SM RN * (NormalRequest * ApplyResult (response A) * handle)) :=
  match unmarshal (T := NormalRequest) (e_data e) with
  | None => Panic "critical unmarshal error at index %d, term %d: %w"
  | Some req =>
      let reqTime := clock (ticks n) in
      let n := tick n in
      match Register_ req, PubAppService req with
      | Some reg, _ =>
          let '(m, h) := get_noop (sessions n) in
          let '(m, ar) := handleSessionRegister e reqTime reg m in
          Ret (put_sessions m n, (req, ar, h))
      | None, Some pas =>
          let '(m, h) := get_noop (sessions n) in
          '(c, ar) ← handlePubAppService e pas (cluster n);
          Ret (set_cluster c (put_sessions m n), (req, ar, h))
      | None, None =>
          let m := sm_ExpireSession reqTime (sessions n) in
          match sm_GetSession (SessionID (Context_ req)) m with
          | (m, Err err) =>
              let '(m, h) := get_noop m in
              Ret (put_sessions m n,
                   (req, {| LogIndex := e_index e; ar_Response := None; ar_Error := Some err |}, h))
          | (m, Ok h) =>
              let '(m, (toApply, ar)) := doExactlyOnce (e_index e) (Context_ req) h m in
              Ret (put_sessions m n, (req, if toApply then noResult else ar, h))
          end
      end
  end.

(** The body of the loop of [applyEntries]. *)
Definition applyEntry (bsm : BasedStateMachineInfo) (e : Entry) n : go (Node A M SM RN) :=
  if decide (length (e_data e) = 0%nat) then Ret (ApplyNilEntryInNewTerm n)
  else if decide (e_type e = EntryNormal) then
    if decide (e_index e <= openAppliedIndex bsm) then
      if diskType bsm then Ret n
      else Panic "raft[id=%d]: apply entry index %d <= opened applied index %d"
    else
      '(n, (req, ar, h)) ← ApplyNormalEntry e n;
      let now := clock (ticks n) in
      let n := tick n in
      if IsEmpty ar then
        let '(s, ar) := sm_Apply (e_term e) (e_index e) (StateMachineLog req) (machine n) in
        let n := run_command (e_index e) s n in
        match h_AddResult h (SequenceNum (Context_ req)) now ar (sessions n) with
        | (_, Some _) => Panic "raft[id=%d]: add result failed: %v"
        | (m, None) => Ret (SendAppliedResult (ReplyID (Context_ req)) ar (put_sessions m n))
        end
      else Ret (SendAppliedResult (ReplyID (Context_ req)) ar n)
  else if decide (e_type e = EntryConfChange) then Ret n
  else Panic "raft[id=%d]: not support raft toApplyEntry type %d".

Fixpoint apply_loop (bsm : BasedStateMachineInfo) (es : list Entry) n : go (Node A M SM RN) :=
  match es with
  | [] => Ret n
  | e :: es => n' ← applyEntry bsm e n; apply_loop bsm es n'
  end.

Definition applyEntries (bsm : BasedStateMachineInfo) (es : list Entry) n : go (Node A M SM RN) :=
  n ← apply_loop bsm es n;
  let n := match last es with
           | Some e => set_status {| appliedIndex := e_index e; appliedTerm := e_term e;
                                     st_confState := st_confState (status n) |} n
           | None => n
           end in
  Ret (MarkCompleted (appliedIndex (status n)) n).

(** ** Configuration changes *)

Definition parseConfChangeEntry (e : Entry) : result (ConfChange * ConfChangeRequest) :=
  match unmarshal (T := ConfChange) (e_data e) with
  | None => Err (Errorf "unmarshal conf change: %w")
  | Some cc =>
      match unmarshal (T := ConfChangeRequest) (cc_Context cc) with
      | None => Err (Errorf "unmarshal conf request: %w")
      | Some req =>
          if decide (cc_NodeID cc ≠ PeerID (cr_RaftPeerAttr req)) then Err (Errorf "node ID mismatch: %d != %d")
          else Ok (cc, req)
      end
  end.

Definition clusterValidateAndApply (changeType : Z) (req : ConfChangeRequest) : meth Cluster unit :=
  let attr := cr_RaftPeerAttr req in
  if decide (changeType = ConfChangeAddNode ∨ changeType = ConfChangeAddLearnerNode) then
    if PromoteLearner req then Promote (PeerID attr) else Add attr
  else if decide (changeType = ConfChangeRemoveNode) then Remove (PeerID attr)
  else if decide (changeType = ConfChangeUpdateNode) then Update (PeerID attr) attr
  else Meth.fail (Errorf "cluster: not support changeType(%d)").

Definition processMemberEvent (ccType : Z) (req : ConfChangeRequest) n : Node A M SM RN :=
  let peer := PeerID (cr_RaftPeerAttr req) in
  if decide (ccType = ConfChangeAddNode) then
    publishMemberEvent (if PromoteLearner req then LeanerPromoted else MemberJoined) (cr_GroupID req) peer n
  else if decide (ccType = ConfChangeAddLearnerNode) then publishMemberEvent LeanerAdded (cr_GroupID req) peer n
  else if decide (ccType = ConfChangeRemoveNode) then publishMemberEvent MemberRemoved (cr_GroupID req) peer n
  else if decide (ccType = ConfChangeUpdateNode) then publishMemberEvent MemberUpdated (cr_GroupID req) peer n
  else n.

(** The transport learns of a change of another peer; removing the node itself is returned. *)
Definition process_trans (cc : ConfChange) (req : ConfChangeRequest) n : Node A M SM RN * bool :=
  let attr := cr_RaftPeerAttr req in
  let self := localPeerID (cluster n) in
  if decide (cc_Type cc = ConfChangeAddNode ∨ cc_Type cc = ConfChangeAddLearnerNode) then
    (if decide (PromoteLearner req = false ∧ PeerID attr ≠ self)
     then call_trans (AddPeer (cr_GroupID req) (PeerID attr) (RaftListenAddr attr)) n else n, false)
  else if decide (cc_Type cc = ConfChangeRemoveNode) then
    if decide (cc_NodeID cc = self) then (n, true)
    else (call_trans (RemovePeer (cr_GroupID req) (PeerID attr)) n, false)
  else if decide (cc_Type cc = ConfChangeUpdateNode) then
    (if decide (PeerID attr ≠ self)
     then call_trans (UpdatePeer (cr_GroupID req) (PeerID attr) (RaftListenAddr attr)) n else n, false)
  else (n, false).

(** A refused change is still given to raft, without a node. *)
Definition processConfChange (cc : ConfChange) (req : ConfChangeRequest) n
    : go (Node A M SM RN * (option ConfState * bool * option error)) :=
  '(c, r) ← clusterValidateAndApply (cc_Type cc) req (cluster n);
  let n := set_cluster c n in
  match r with
  | Err err =>
      let cc := {| cc_Type := cc_Type cc; cc_NodeID := raft_None; cc_Context := cc_Context cc |} in
      let '(rn, _) := rn_ApplyConfChange (groupID (cluster n)) cc (raft n) in
      Ret (set_raft rn n, (None, false, Some err))
  | Ok _ =>
      let '(rn, r) := rn_ApplyConfChange (groupID (cluster n)) cc (raft n) in
      let n := set_raft rn n in
      match r with
      | Err err => Ret (n, (None, false, Some err))
      | Ok confState =>
          let n := processMemberEvent (cc_Type cc) req n in
          let '(n, removeSelf) := process_trans cc req n in
          Ret (n, (Some confState, removeSelf, None))
      end
  end.

Definition ApplyConfChangeEntry (e : Entry) n : go (Node A M SM RN * (RequestContext * ApplyResult (response A) * bool)) :=
  match parseConfChangeEntry e with
  | Err _ => Panic "Failed to parse conf change: %v"
  | Ok (cc, req) =>
      let ctx := cr_Context req in
      let reqTime := clock (ticks n) in
      let n := tick n in
      match sm_GetSession (SessionID ctx) (sm_ExpireSession reqTime (sessions n)) with
      | (m, Err err) =>
          Ret (put_sessions m n,
               (ctx, {| LogIndex := e_index e; ar_Response := None; ar_Error := Some err |}, false))
      | (m, Ok h) =>
          let '(m, (toApply, ar)) := doExactlyOnce (e_index e) ctx h m in
          let n := put_sessions m n in
          if toApply then
            '(n, (confChange, removeSelf, err)) ← processConfChange cc req n;
            let ar := {| LogIndex := e_index e; ar_Response := Some (ConfStateResponse confChange); ar_Error := err |} in
            match h_AddResult h (SequenceNum ctx) reqTime ar (sessions n) with
            | (_, Some _) => Panic "Failed to add result: %v"
            | (m, None) => Ret (put_sessions m n, (ctx, ar, removeSelf))
            end
          else Ret (n, (ctx, ar, false))
      end
  end.

(** One round of the loop of [applyConfChangeEntry]. *)
Definition confChangeEntry (e : Entry) n : go (Node A M SM RN * bool) :=
  if decide (e_type e = EntryConfChange) then
    '(n, (ctx, ar, removeSelf)) ← ApplyConfChangeEntry e n;
    let n := match ar_Error ar, ar_Response ar with
             | None, Some (ConfStateResponse (Some cs)) =>
                 set_status {| appliedIndex := appliedIndex (status n); appliedTerm := appliedTerm (status n);
                               st_confState := cs |} n
             | _, _ => n
             end in
    Ret (SendAppliedResult (ReplyID ctx) ar n, removeSelf)
  else Ret (n, false).

Fixpoint applyConfChangeEntry (es : list Entry) n : go (Node A M SM RN * bool) :=
  match es with
  | [] => Ret (n, false)
  | e :: es =>
      '(n, removeSelf) ← confChangeEntry e n;
      if removeSelf : bool then Ret (n, true) else applyConfChangeEntry es n
  end.
End Loops.
