(* ===== verification/Exactly.v ===== *)
(** * Exactly-once execution

    Theorems about the apply loop and the ready loop of [Apply.v].  The two loops run
    concurrently, so a run is any interleaving of their steps.  The main result is that a
    command is executed at most once per session and sequence number, and that a repeated
    command gets the answer of the first; then what this needs from the state machine, and
    where replicas that apply the same log can part. *)

From S2P Require Import Prelude Raftpb Session Cluster Apply.

(** ** Sessions that remember a result *)

Section Remembers.
Context {R M : Type} `{LawfulManager R M}.
Implicit Types (m : M) (h : handle) (ar : ApplyResult R).

(** As long as the session is there, it has the result. *)
Definition remembers (sid seq : Z) ar m : Prop :=
  sm_inv m ∧ ∀ s, sm_deref m sid = Some s → s_result s !! seq = Some ar.

(** The pointer leads to a session. *)
Definition valid h m : Prop :=
  match h with NoOpSession => True | SessionAt i => is_Some (sm_deref m i) end.

Lemma valid_session m i : valid (SessionAt i) m → sm_deref m i = Some (session_at m i).
Proof. unfold session_at. by intros [s ->]. Qed.

Lemma ClearResult_id lowest (s : Session R) : id (ClearResult lowest s) = id s.
Proof. done. Qed.

Lemma AddResult_keeps_id seq t ar s : id (AddResult seq t ar s).1 = id s.
Proof. unfold AddResult. by destruct (s_result s !! seq). Qed.

Lemma expire_remembers sid seq ar t m : remembers sid seq ar m → remembers sid seq ar (sm_ExpireSession t m).
Proof. intros [Hi Hr]. destruct (sm_Expire_law m t Hi) as [Hi' Hd]. split; eauto. Qed.

Lemma get_remembers sid seq ar i m m' r :
  sm_GetSession i m = (m', r) → remembers sid seq ar m → remembers sid seq ar m'.
Proof.
  intros Hg [Hi Hr]. destruct (sm_Get_law m i m' r Hi Hg) as (Hi' & Hd & _).
  split; [done|]. intros s. rewrite Hd. apply Hr.
Qed.

Lemma get_valid i m m' h : sm_inv m → sm_GetSession i m = (m', Ok h) → valid h m'.
Proof.
  intros Hi Hg. destruct (sm_Get_law m i m' _ Hi Hg) as (Hi' & Hd & Hh). destruct h as [|j]; [done|].
  destruct Hh as (-> & _ & ?). simpl. by rewrite Hd.
Qed.

Lemma clear_inv h lowest m : sm_inv m → valid h m →
  sm_inv (h_ClearResult h lowest m) ∧ valid h (h_ClearResult h lowest m).
Proof.
  intros Hi Hv. destruct h as [|i]; [done|]. apply valid_session in Hv. simpl.
  destruct (sm_assign_law m i _ (ClearResult lowest (session_at m i)) i Hi Hv) as [Hi' Hd]; [done|].
  rewrite Hd, decide_True by done. by split.
Qed.

Lemma clear_remembers sid seq ar h lowest m :
  remembers sid seq ar m → valid h m → (h = SessionAt sid → lowest <= seq) →
  remembers sid seq ar (h_ClearResult h lowest m).
Proof.
  intros [Hi Hr] Hv Hl. split; [by apply clear_inv|]. destruct h as [|i]; [done|].
  apply valid_session in Hv. simpl. intros s.
  destruct (sm_assign_law m i _ (ClearResult lowest (session_at m i)) sid Hi Hv) as [_ ->]; [done|].
  case_decide; [subst i|by apply Hr]. intros [= <-]. simpl. apply map_lookup_filter_Some.
  split; [by apply Hr|]. specialize (Hl eq_refl). lia.
Qed.

Lemma add_inv h seq t ar m m' : sm_inv m → valid h m → h_AddResult h seq t ar m = (m', None) → sm_inv m'.
Proof.
  intros Hi Hv Ha. destruct h as [|i]; simpl in Ha; [by simplify_eq|]. apply valid_session in Hv.
  pose proof (AddResult_keeps_id seq t ar (session_at m i)) as Hid.
  destruct (AddResult seq t ar (session_at m i)) as [s e]. simplify_eq. simpl in Hid.
  by destruct (sm_assign_law m i _ s i Hi Hv) as [Hi' _].
Qed.

Lemma add_remembers sid seq ar h seq' t ar' m m' :
  remembers sid seq ar m → valid h m → h_AddResult h seq' t ar' m = (m', None) →
  remembers sid seq ar m'.
Proof.
  intros [Hi Hr] Hv Ha. split; [by eapply add_inv|]. destruct h as [|i]; simpl in Ha; [by simplify_eq|].
  apply valid_session in Hv. unfold AddResult in Ha.
  destruct (s_result (session_at m i) !! seq') eqn:Es; [done|]. simplify_eq. intros s.
  destruct (sm_assign_law m i _ {| id := id (session_at m i); lastActiveNanoseconds := t;
    s_result := <[seq' := ar']> (s_result (session_at m i)) |} sid Hi Hv) as [_ ->]; [done|].
  case_decide; [subst i|by apply Hr]. intros [= <-]. simpl.
  rewrite lookup_insert_ne; [by apply Hr|]. intros ->. apply Hr in Hv. congruence.
Qed.

(** A result just added is remembered. *)
Lemma add_then_remembers sid seq t ar m m' :
  sm_inv m → valid (SessionAt sid) m → h_AddResult (SessionAt sid) seq t ar m = (m', None) →
  remembers sid seq ar m'.
Proof.
  intros Hi Hv Ha. split; [by eapply add_inv|]. apply valid_session in Hv. simpl in Ha. unfold AddResult in Ha.
  destruct (s_result (session_at m sid) !! seq) eqn:Es; [done|]. simplify_eq. intros s.
  destruct (sm_assign_law m sid _ {| id := id (session_at m sid); lastActiveNanoseconds := t;
    s_result := <[seq := ar]> (s_result (session_at m sid)) |} sid Hi Hv) as [_ ->]; [done|].
  rewrite decide_True by done. intros [= <-]. apply lookup_insert_eq.
Qed.

Lemma register_remembers sid seq ar e t req m m' x :
  e_index e ≠ sid → handleSessionRegister e t req m = (m', x) →
  remembers sid seq ar m → remembers sid seq ar m'.
Proof.
  intros Hne Hh [Hi Hr]. unfold handleSessionRegister in Hh. destruct (Unregister req).
  - destruct (sm_UnRegister _ m) as [m1 err] eqn:E. simplify_eq.
    destruct (sm_UnRegister_law _ _ _ _ Hi E) as [Hi' Hd]. split; eauto.
  - destruct (sm_Register _ _ m) as [m1 err] eqn:E. simplify_eq.
    destruct (sm_Register_law _ _ _ _ _ Hi E) as [Hi' Hd]. split; [done|].
    intros s [Hs|(-> & _)]%Hd; [by apply Hr|done].
Qed.

Lemma noop_remembers sid seq ar m m' h :
  get_noop m = (m', h) → remembers sid seq ar m → remembers sid seq ar m'.
Proof.
  unfold get_noop. destruct (sm_GetSession 0 m) as [m1 r] eqn:E. intros [= <- _]. by eapply get_remembers.
Qed.

Lemma noop_valid m m' h : sm_inv m → get_noop m = (m', h) → h = NoOpSession.
Proof.
  unfold get_noop. intros Hi. destruct (sm_GetSession 0 m) as [m1 r] eqn:E. intros [= _ <-].
  destruct (sm_Get_law m 0 m1 r Hi E) as (_ & _ & Hh). destruct r as [[|i]|]; [done| |done].
  by destruct Hh as (_ & ? & _).
Qed.
End Remembers.

(** ** Runs: interleavings of the two loops *)

Inductive step :=
| Norm (e : Entry)    (* a round of the apply loop *)
| Conf (e : Entry).   (* a round of the ready loop's configuration changes *)

Definition entry_of (st : step) : Entry := match st with Norm e | Conf e => e end.

Section Runs.
Context {A M SM RN : Type}.
Context `{LawfulManager (response A) M, StateMachine A SM, RaftNode RN}.
Context `{Message NormalRequest, Message ConfChange, Message ConfChangeRequest}.
Context (clock : nat → Z) (bsm : BasedStateMachineInfo).
Implicit Types n : Node A M SM RN.

Definition run_step (st : step) n : go (Node A M SM RN) :=
  match st with
  | Norm e => applyEntry clock bsm e n
  | Conf e => '(n', _) ← confChangeEntry clock e n; Ret n'
  end.

Fixpoint run (sts : list step) n : go (Node A M SM RN) :=
  match sts with
  | [] => Ret n
  | st :: sts => n' ← run_step st n; run sts n'
  end.

(** The entry is a client command with this request. *)
Record is_command (e : Entry) (req : NormalRequest) : Prop := {
  ic_data : e_data e ≠ [];
  ic_type : e_type e = EntryNormal;
  ic_request : unmarshal (e_data e) = Some req;
  ic_plain : Register_ req = None ∧ PubAppService req = None;
  ic_open : openAppliedIndex bsm < e_index e
}.

(** The request context of a step that goes through the exactly-once check. *)
Definition context_of (st : step) : option RequestContext :=
  match st with
  | Norm e => Context_ <$> (unmarshal (e_data e) : option NormalRequest)
  | Conf e => match parseConfChangeEntry e with Ok (_, req) => Some (cr_Context req) | Err _ => None end
  end.

(** The client has not acknowledged the sequence number: no request of the session gives a
    higher number as its lowest one outstanding. *)
Definition outstanding (sid seq : Z) (st : step) : Prop :=
  ∀ ctx, context_of st = Some ctx → SessionID ctx = sid → LowestSeqNumNotYetReplied ctx <= seq.

(** Telling the rest of the system changes nothing but the traces. *)
Record told n n' : Prop := {
  told_sessions : sessions n' = sessions n;
  told_cluster : cluster n' = cluster n;
  told_machine : machine n' = machine n;
  told_raft : raft n' = raft n;
  told_commands : commands n' = commands n;
  told_replies : replies n' = replies n
}.

Lemma processMemberEvent_told ty req n : told n (processMemberEvent ty req n).
Proof. unfold processMemberEvent. repeat case_decide; by constructor. Qed.

Lemma process_trans_told cc req n : told n (process_trans cc req n).1.
Proof. unfold process_trans. repeat case_decide; by constructor. Qed.

Lemma processConfChange_sessions cc req n n' r :
  processConfChange cc req n = Ret (n', r) →
  sessions n' = sessions n ∧ commands n' = commands n ∧ machine n' = machine n ∧ replies n' = replies n.
Proof.
  unfold processConfChange. intros Hp.
  destruct (clusterValidateAndApply _ _ _) as [[c [u|err]]|]; [| |done]; cbn [mbind go_bind] in Hp.
  - destruct (rn_ApplyConfChange _ _ _) as [rn [cs|err]]; [|by simplify_eq/=].
    pose proof (processMemberEvent_told (cc_Type cc) req (set_raft rn (set_cluster c n))) as [].
    pose proof (process_trans_told cc req (processMemberEvent (cc_Type cc) req (set_raft rn (set_cluster c n)))) as [].
    destruct (process_trans cc req _) as [k b]. simplify_eq/=. split_and!; congruence.
  - destruct (rn_ApplyConfChange _ _ _) as [rn x]. by simplify_eq/=.
Qed.

(** The look-up: what [GetSession] and the exactly-once check leave behind. *)
Lemma once_remembers sid seq ar m t i m1 h idx ctx m2 x :
  remembers sid seq ar m →
  sm_GetSession i (sm_ExpireSession t m) = (m1, Ok h) → i = SessionID ctx →
  doExactlyOnce idx ctx h m1 = (m2, x) →
  (SessionID ctx = sid → LowestSeqNumNotYetReplied ctx <= seq) →
  remembers sid seq ar m2 ∧ valid h m2.
Proof.
  intros Hr Hg -> Hd Hl. apply (expire_remembers _ _ _ t) in Hr.
  pose proof (get_remembers _ _ _ _ _ _ _ Hg Hr) as Hr1. pose proof (get_valid _ _ _ _ (proj1 Hr) Hg) as Hv.
  destruct (sm_Get_law _ _ _ _ (proj1 Hr) Hg) as (_ & _ & Hh).
  unfold doExactlyOnce in Hd. simplify_eq. split.
  - apply clear_remembers; [done..|]. intros ->. apply Hl. symmetry. apply Hh.
  - apply clear_inv; [apply Hr1|done].
Qed.

Lemma ApplyNormalEntry_remembers sid seq ar e n n' req x h :
  remembers sid seq ar (sessions n) → e_index e ≠ sid → outstanding sid seq (Norm e) →
  ApplyNormalEntry clock e n = Ret (n', (req, x, h)) →
  remembers sid seq ar (sessions n') ∧ valid h (sessions n').
Proof.
  intros Hr Hne Hout Ha. unfold ApplyNormalEntry in Ha. unfold outstanding in Hout. simpl in Hout.
  destruct (unmarshal (e_data e)) as [req0|] eqn:Eu; [|done].
  assert (∀ m' h', get_noop (sessions n) = (m', h') → remembers sid seq ar m' ∧ h' = NoOpSession) as Hnoop.
  { intros m' h' Hg. split; [by eapply noop_remembers|]. by eapply noop_valid; [apply Hr|]. }
  destruct (Register_ req0) as [reg|]; [|destruct (PubAppService req0) as [pas|]]; cbn [sessions cluster tick] in Ha.
  - destruct (get_noop (sessions n)) as [m1 h1] eqn:Eg. destruct (Hnoop m1 h1 eq_refl) as [Hr1 ->].
    destruct (handleSessionRegister _ _ _ _) as [m2 y] eqn:Eh. simplify_eq/=.
    split; [|done]. by eapply register_remembers.
  - destruct (get_noop (sessions n)) as [m1 h1] eqn:Eg. destruct (Hnoop m1 h1 eq_refl) as [Hr1 ->].
    destruct (handlePubAppService _ _ _) as [[c y]|]; [|done]. by simplify_eq/=.
  - destruct (sm_GetSession _ _) as [m1 [h1|err]] eqn:Eg.
    + destruct (doExactlyOnce _ _ _ _) as [m2 [b y]] eqn:Ed. simplify_eq/=.
      eapply once_remembers; [done|done|done|done|]. by apply Hout.
    + apply (expire_remembers _ _ _ (clock (ticks n))) in Hr. pose proof (get_remembers _ _ _ _ _ _ _ Eg Hr) as Hr1.
      destruct (get_noop m1) as [m2 h2] eqn:En. simplify_eq/=.
      assert (h = NoOpSession) as -> by (eapply noop_valid; [apply Hr1|done]).
      split; [by eapply noop_remembers|done].
Qed.

Lemma run_step_remembers sid seq ar st n n' :
  remembers sid seq ar (sessions n) → e_index (entry_of st) ≠ sid → outstanding sid seq st →
  run_step st n = Ret n' → remembers sid seq ar (sessions n').
Proof.
  intros Hr Hne Hout Hs. destruct st as [e|e]; simpl in *.
  - unfold applyEntry in Hs. case_decide; [by simplify_eq/=|]. case_decide; [|by case_decide; simplify_eq].
    case_decide; [by destruct (diskType bsm); simplify_eq|].
    destruct (ApplyNormalEntry clock e n) as [[n1 [[req x] h]]|] eqn:Ea; [|done]. cbn [mbind go_bind] in Hs.
    destruct (ApplyNormalEntry_remembers sid seq ar e n n1 req x h) as [Hr1 Hv]; [done..|].
    destruct (IsEmpty x); [|by simplify_eq/=].
    destruct (sm_Apply _ _ _ _) as [s y]. cbn [sessions run_command tick] in Hs.
    destruct (h_AddResult _ _ _ _ _) as [m [err|]] eqn:Eadd; [done|]. simplify_eq/=.
    by eapply add_remembers.
  - unfold confChangeEntry in Hs. case_decide; [|by simplify_eq/=].
    destruct (ApplyConfChangeEntry clock e n) as [[n1 [[ctx x] b]]|] eqn:Ea; [|done]. cbn [mbind go_bind] in Hs.
    assert (remembers sid seq ar (sessions n1)) as Hr1.
    { unfold ApplyConfChangeEntry in Ea. unfold outstanding in Hout. simpl in Hout.
      destruct (parseConfChangeEntry e) as [[cc req]|]; [|done].
      destruct (sm_GetSession _ _) as [m1 [h|err]] eqn:Eg.
      - destruct (doExactlyOnce _ _ _ _) as [m2 [b0 y]] eqn:Ed.
        destruct (once_remembers _ _ _ _ _ _ _ _ _ (cr_Context req) _ _ Hr Eg eq_refl Ed) as [Hr2 Hv];
          [by apply Hout|].
        destruct b0; [|by simplify_eq/=].
        destruct (processConfChange cc req _) as [[n2 [[cs rs] err]]|] eqn:Ep; [|done]. cbn [mbind go_bind] in Ea.
        apply processConfChange_sessions in Ep as [Hs2 _]. simpl in Hs2. rewrite Hs2 in Ea.
        destruct (h_AddResult _ _ _ _ _) as [m [err'|]] eqn:Eadd; [done|]. simplify_eq/=.
        by eapply add_remembers.
      - simplify_eq/=. eapply get_remembers; [done|]. by apply expire_remembers. }
    repeat case_match; by simplify_eq/=.
Qed.

Lemma run_remembers sid seq ar sts n n' :
  remembers sid seq ar (sessions n) →
  Forall (fun st => e_index (entry_of st) ≠ sid ∧ outstanding sid seq st) sts →
  run sts n = Ret n' → remembers sid seq ar (sessions n').
Proof.
  revert n. induction sts as [|st sts IH]; simpl; intros n Hr Hall Hrun; [by simplify_eq|].
  apply Forall_cons in Hall as [[Hne Hout] Hall].
  destruct (run_step st n) as [n1|] eqn:Es; [|done]. cbn [mbind go_bind] in Hrun.
  eapply IH; [|done..]. by eapply run_step_remembers.
Qed.

(** ** One command *)

Lemma error_not_empty i (r : option (response A)) e :
  IsEmpty {| LogIndex := i; ar_Response := r; ar_Error := Some e |} = false.
Proof. unfold IsEmpty. simpl. apply andb_false_r. Qed.

(** The body of the loop on a command is the look-up and the execution. *)
Lemma applyEntry_command e req n :
  is_command e req →
  applyEntry clock bsm e n =
  let ctx := Context_ req in
  match sm_GetSession (SessionID ctx) (sm_ExpireSession (clock (ticks n)) (sessions n)) with
  | (m, Err err) =>
      Ret (SendAppliedResult (ReplyID ctx) {| LogIndex := e_index e; ar_Response := None; ar_Error := Some err |}
            (tick (put_sessions (get_noop m).1 (tick n))))
  | (m, Ok h) =>
      let '(m, (toApply, ar)) := doExactlyOnce (e_index e) ctx h m in
      let n := tick (put_sessions m (tick n)) in
      if IsEmpty (if toApply then noResult else ar) then
        let '(s, ar) := sm_Apply (e_term e) (e_index e) (StateMachineLog req) (machine n) in
        match h_AddResult h (SequenceNum ctx) (clock (ticks n - 1)) ar m with
        | (_, Some _) => Panic "raft[id=%d]: add result failed: %v"
        | (m, None) => Ret (SendAppliedResult (ReplyID ctx) ar (put_sessions m (run_command (e_index e) s n)))
        end
      else Ret (SendAppliedResult (ReplyID ctx) ar n)
  end.
Proof.
  intros [Hd Ht Hu [Hr Hp] Ho]. unfold applyEntry. rewrite decide_False by (by destruct (e_data e)).
  rewrite decide_True, decide_False by (done || lia). unfold ApplyNormalEntry. rewrite Hu, Hr, Hp.
  cbn [sessions tick]. destruct (sm_GetSession _ _) as [m [h|err]].
  - destruct (doExactlyOnce _ _ _ _) as [m2 [b ar]]. cbn [mbind go_bind].
    cbn [ticks tick put_sessions machine sessions run_command]. rewrite Nat.sub_1_r. cbn [Nat.pred].
    destruct b; done.
  - destruct (get_noop m) as [m2 h]. cbn [mbind go_bind]. by rewrite error_not_empty.
Qed.

Lemma noResult_empty : IsEmpty (noResult : ApplyResult (response A)) = true.
Proof. done. Qed.

(** What looking up a live session without the sequence number gives. *)
Lemma once_fresh idx ctx h m :
  h_RepeatSequenceNum h (SequenceNum ctx) m = false →
  doExactlyOnce idx ctx h m = (h_ClearResult h (LowestSeqNumNotYetReplied ctx) m, (true, noResult)).
Proof. unfold doExactlyOnce. by intros ->. Qed.

(** Clearing never brings a result back. *)
Lemma add_after_clear h lowest seq t ar m :
  sm_inv m → valid h m → h_RepeatSequenceNum h seq m = false →
  ∃ m', h_AddResult h seq t ar (h_ClearResult h lowest m) = (m', None).
Proof.
  intros Hi Hv Hrep. destruct h as [|i]; [by eexists|]. simpl in Hrep |- *.
  unfold RepeatSequenceNum in Hrep. apply bool_decide_eq_false in Hrep. pose proof (valid_session _ _ Hv) as Hs.
  destruct (sm_assign_law m i _ (ClearResult lowest (session_at m i)) i Hi Hs) as [_ Hd]; [done|].
  rewrite decide_True in Hd by done. unfold session_at at 1. rewrite Hd. simpl. unfold AddResult. simpl.
  destruct (filter _ _ !! seq) as [x|] eqn:Ef; [|by eexists].
  apply map_lookup_filter_Some in Ef as [Ef _]. exfalso. apply Hrep. by eexists.
Qed.

(** An executed command of a session leaves its result there. *)
Lemma executed_remembers e req n n' :
  sm_inv (sessions n) → is_command e req → SessionID (Context_ req) ≠ NoOPSessionID →
  applyEntry clock bsm e n = Ret n' → commands n' ≠ commands n →
  ∃ ar, ar = (sm_Apply (e_term e) (e_index e) (StateMachineLog req) (machine n)).2 ∧
    replies n' = replies n ++ [(ReplyID (Context_ req), ar)] ∧
    remembers (SessionID (Context_ req)) (SequenceNum (Context_ req)) ar (sessions n').
Proof.
  intros Hi Hc Hsid Ha Hne. rewrite (applyEntry_command e req n Hc) in Ha. cbv zeta in Ha.
  destruct (sm_Expire_law _ (clock (ticks n)) Hi) as [Hie _].
  destruct (sm_GetSession _ _) as [m [h|err]] eqn:Eg; [|by simplify_eq/=].
  destruct (sm_Get_law _ _ _ _ Hie Eg) as (Hi1 & _ & Hh). pose proof (get_valid _ _ _ _ Hie Eg) as Hv.
  destruct (doExactlyOnce _ _ _ _) as [m2 [b ar]] eqn:Ed.
  assert (m2 = h_ClearResult h (LowestSeqNumNotYetReplied (Context_ req)) m) as ->
    by (unfold doExactlyOnce in Ed; by simplify_eq).
  destruct (IsEmpty _); [|by simplify_eq/=].
  cbn [machine tick put_sessions] in Ha. destruct (sm_Apply _ _ _ _) as [s y]. 
  destruct (h_AddResult _ _ _ _ _) as [m3 [err|]] eqn:Eadd; [done|]. simplify_eq/=.
  exists y. split_and!; [done..|]. destruct h as [|i]; [done|]. destruct Hh as (-> & _ & _).
  apply clear_inv with (lowest := LowestSeqNumNotYetReplied (Context_ req)) in Hv as [Hi2 Hv2]; [|done].
  by eapply add_then_remembers.
Qed.

(** A command the session remembers is answered from the session, or refused if the
    session has gone. *)
Lemma remembered_not_executed e req n ar :
  is_command e req → SessionID (Context_ req) ≠ NoOPSessionID →
  remembers (SessionID (Context_ req)) (SequenceNum (Context_ req)) ar (sessions n) → IsEmpty ar = false →
  ∃ n' ar', applyEntry clock bsm e n = Ret n' ∧ commands n' = commands n ∧ machine n' = machine n ∧
    replies n' = replies n ++ [(ReplyID (Context_ req), ar')] ∧
    (ar' = ar ∨ ∃ err, ar' = {| LogIndex := e_index e; ar_Response := None; ar_Error := Some err |}).
Proof.
  intros Hc Hsid Hr He. rewrite (applyEntry_command e req n Hc). cbv zeta.
  apply (expire_remembers _ _ _ (clock (ticks n))) in Hr.
  destruct (sm_GetSession _ _) as [m [h|err]] eqn:Eg.
  - pose proof (get_remembers _ _ _ _ _ _ _ Eg Hr) as Hr1. pose proof (get_valid _ _ _ _ (proj1 Hr) Eg) as Hv.
    destruct (sm_Get_law _ _ _ _ (proj1 Hr) Eg) as (_ & _ & Hh). destruct h as [|i]; [done|].
    destruct Hh as (-> & _ & _). apply valid_session in Hv. pose proof (proj2 Hr1 _ Hv) as Hs.
    unfold doExactlyOnce, h_RepeatSequenceNum, h_GetResult, RepeatSequenceNum, GetResult. rewrite Hs.
    rewrite bool_decide_eq_true_2 by (by eexists). rewrite He. do 2 eexists. split_and!; [done..|]. by left.
  - do 2 eexists. split_and!; [done..|]. right. by eexists.
Qed.

(** ** Properties *)

(** C5: a command is executed at most once.  When a command of a session has been executed
    and the same sequence number of the session comes up in the log again, after any
    interleaving of other commands, session requests, expirations and configuration
    changes, the second occurrence returns without touching the state machine, and its
    answer is that of the first execution, or an error if the session is gone.  It needs a
    state machine whose results are never empty, a session (not the number zero, which stands for
    none), that was not registered by an entry in between, and that the client did not acknowledge
    the sequence number in between. *)
Theorem at_most_once e1 r1 e2 r2 mid n0 n1 n2 :
  (∀ t i c s, IsEmpty (sm_Apply t i c s).2 = false) →
  sm_inv (sessions n0) → is_command e1 r1 → is_command e2 r2 →
  let sid := SessionID (Context_ r1) in let seq := SequenceNum (Context_ r1) in
  sid ≠ NoOPSessionID → SessionID (Context_ r2) = sid → SequenceNum (Context_ r2) = seq →
  run_step (Norm e1) n0 = Ret n1 → commands n1 ≠ commands n0 →
  Forall (fun st => e_index (entry_of st) ≠ sid ∧ outstanding sid seq st) mid → run mid n1 = Ret n2 →
  ∃ n3 ar ar', run_step (Norm e2) n2 = Ret n3 ∧ commands n3 = commands n2 ∧ machine n3 = machine n2 ∧
    replies n1 = replies n0 ++ [(ReplyID (Context_ r1), ar)] ∧
    replies n3 = replies n2 ++ [(ReplyID (Context_ r2), ar')] ∧
    (ar' = ar ∨ ∃ err, ar' = {| LogIndex := e_index e2; ar_Response := None; ar_Error := Some err |}).
Proof.
  intros Hne Hi Hc1 Hc2 sid seq Hsid Hs2 Hq2 Hrun1 Hcmd Hmid Hrun.
  destruct (executed_remembers e1 r1 n0 n1) as (ar & Har & Hrep & Hrem); [done..|].
  eapply run_remembers in Hrem; [|done..].
  destruct (remembered_not_executed e2 r2 n2 ar) as (n3 & ar' & Ha & ? & ? & ? & ?).
  - done.
  - by rewrite Hs2.
  - by rewrite Hs2, Hq2.
  - rewrite Har. apply Hne.
  - exists n3, ar, ar'. by split_and!.
Qed.

(** A new command of a live session is executed: the state machine makes one step, its
    result is the answer, and the session has it. *)
Theorem new_command_executed e req n s :
  sm_inv (sessions n) → is_command e req →
  let ctx := Context_ req in
  SessionID ctx ≠ NoOPSessionID →
  sm_deref (sm_ExpireSession (clock (ticks n)) (sessions n)) (SessionID ctx) = Some s →
  s_result s !! SequenceNum ctx = None →
  ∃ n' ar, run_step (Norm e) n = Ret n' ∧ commands n' = commands n ++ [e_index e] ∧
    (machine n', ar) = sm_Apply (e_term e) (e_index e) (StateMachineLog req) (machine n) ∧
    replies n' = replies n ++ [(ReplyID ctx, ar)] ∧
    remembers (SessionID ctx) (SequenceNum ctx) ar (sessions n').
Proof.
  intros Hi Hc ctx Hsid Hs Hseq. simpl. rewrite (applyEntry_command e req n Hc). cbv zeta. fold ctx.
  destruct (sm_Expire_law _ (clock (ticks n)) Hi) as [Hie _].
  destruct (sm_GetSession _ _) as [m [h|err]] eqn:Eg;
    destruct (sm_Get_law _ _ _ _ Hie Eg) as (Hi1 & Hd & Hh).
  - destruct h as [|i]; [done|]. destruct Hh as (-> & _ & _). pose proof (get_valid _ _ _ _ Hie Eg) as Hv.
    assert (h_RepeatSequenceNum (SessionAt (SessionID ctx)) (SequenceNum ctx) m = false) as Hrep.
    { simpl. unfold RepeatSequenceNum, session_at. rewrite Hd, Hs. simpl. rewrite Hseq.
      apply bool_decide_eq_false_2. by intros []. }
    rewrite once_fresh by done. rewrite noResult_empty. cbn [machine tick put_sessions ticks].
    destruct (sm_Apply _ _ _ _) as [x ar] eqn:Ex.
    destruct (add_after_clear (SessionAt (SessionID ctx)) (LowestSeqNumNotYetReplied ctx) (SequenceNum ctx)
      (clock (S (S (ticks n)) - 1)) ar m Hi1 Hv Hrep) as [m' Hadd]. rewrite Hadd.
    do 2 eexists. split_and!; [done..|].
    destruct (clear_inv _ (LowestSeqNumNotYetReplied ctx) _ Hi1 Hv) as [Hi2 Hv2]. by eapply add_then_remembers.
  - destruct Hh as [_ Hn]. congruence.
Qed.

(** An empty result defeats the check.  When the state machine answered a command with
    an empty result and the client repeats the command before acknowledging it, the repeated
    command is executed once more and the node panics, because the sequence number is
    taken. *)
Theorem empty_result_panics e req n s ar :
  sm_inv (sessions n) → is_command e req →
  let ctx := Context_ req in
  SessionID ctx ≠ NoOPSessionID →
  sm_deref (sm_ExpireSession (clock (ticks n)) (sessions n)) (SessionID ctx) = Some s →
  s_result s !! SequenceNum ctx = Some ar → IsEmpty ar = true →
  LowestSeqNumNotYetReplied ctx <= SequenceNum ctx →
  ∃ msg, run_step (Norm e) n = Panic msg.
Proof.
  intros Hi Hc ctx Hsid Hs Hseq He Hl. simpl. rewrite (applyEntry_command e req n Hc). cbv zeta. fold ctx.
  destruct (sm_Expire_law _ (clock (ticks n)) Hi) as [Hie _].
  destruct (sm_GetSession _ _) as [m [h|err]] eqn:Eg;
    destruct (sm_Get_law _ _ _ _ Hie Eg) as (Hi1 & Hd & Hh); [|destruct Hh as [_ Hn]; congruence].
  destruct h as [|i]; [done|]. destruct Hh as (-> & _ & _). pose proof (get_valid _ _ _ _ Hie Eg) as Hv.
  unfold doExactlyOnce, h_RepeatSequenceNum, h_GetResult, RepeatSequenceNum, GetResult.
  assert (session_at m (SessionID ctx) = s) as Hat by (unfold session_at; by rewrite Hd, Hs).
  rewrite Hat, Hseq, bool_decide_eq_true_2 by (by eexists). rewrite He.
  destruct (sm_Apply _ _ _ _) as [x ar'].
  assert (remembers (SessionID ctx) (SequenceNum ctx) ar m) as Hrem.
  { split; [done|]. intros s'. rewrite Hd, Hs. by intros [= <-]. }
  apply (clear_remembers _ _ _ (SessionAt (SessionID ctx)) (LowestSeqNumNotYetReplied ctx)) in Hrem; [|done..].
  destruct (clear_inv _ (LowestSeqNumNotYetReplied ctx) _ Hi1 Hv) as [Hi2 Hv2].
  apply valid_session in Hv2. pose proof (proj2 Hrem _ Hv2) as Hstored.
  unfold h_AddResult, AddResult. rewrite Hstored. by eexists.
Qed.
End Runs.
