(* ===== verification/Replicas.v ===== *)
(** * Replicas that apply the same log

    Every replica applies the same committed entries, each with its own clock.  A manager
    that does not look at the time keeps replicas together: whatever their clocks show,
    they run the same commands, answer alike and have the same membership.  The other
    theorems show what pulls replicas apart: sessions that expire by the local clock,
    configuration changes that overtake session requests, and a disk state machine that
    reopens ahead of its sessions. *)

From S2P Require Import Prelude Raftpb Streams NoOpManager ExpiredManager LruManager.
From S2P Require Import Session Cluster Apply Exactly.

(** ** Sessions up to the time *)

(** Equal but for the time of the last command. *)
Definition session_same {R} (s1 s2 : Session R) : Prop := id s1 = id s2 ∧ s_result s1 = s_result s2.

#[export] Instance session_same_equiv {R} : Equivalence (@session_same R).
Proof.
  split.
  - by intros s.
  - intros s t []. by split.
  - intros s t u [] []. split; congruence.
Qed.

#[export] Instance ClearResult_same {R} : Proper (eq ==> session_same ==> session_same) (@ClearResult R).
Proof. intros l ? <- s t [Hi Hr]. split; simpl; [done|by rewrite Hr]. Qed.

#[export] Instance RepeatSequenceNum_same {R} : Proper (eq ==> session_same ==> eq) (@RepeatSequenceNum R).
Proof. intros q ? <- s t [Hi Hr]. unfold RepeatSequenceNum. by rewrite Hr. Qed.

#[export] Instance GetResult_same {R} : Proper (eq ==> session_same ==> eq) (@GetResult R).
Proof. intros q ? <- s t [Hi Hr]. unfold GetResult. by rewrite Hr. Qed.

Lemma AddResult_same {R} q t1 t2 (ar : ApplyResult R) s1 s2 :
  session_same s1 s2 →
  session_same (AddResult q t1 ar s1).1 (AddResult q t2 ar s2).1 ∧
  (AddResult q t1 ar s1).2 = (AddResult q t2 ar s2).2.
Proof. intros [Hi Hr]. unfold AddResult. rewrite Hr. by destruct (s_result s2 !! q). Qed.

(** A manager whose operations do not depend on the times they are given. *)
Class TimelessManager (R M : Type) `{SessionManager R M} := {
  sm_same : M → M → Prop;
  same_Register sid t1 t2 m1 m2 : sm_same m1 m2 →
    sm_same (sm_Register sid t1 m1).1 (sm_Register sid t2 m2).1 ∧
    (sm_Register sid t1 m1).2 = (sm_Register sid t2 m2).2;
  same_UnRegister sid m1 m2 : sm_same m1 m2 →
    sm_same (sm_UnRegister sid m1).1 (sm_UnRegister sid m2).1 ∧
    (sm_UnRegister sid m1).2 = (sm_UnRegister sid m2).2;
  same_Expire t1 t2 m1 m2 : sm_same m1 m2 → sm_same (sm_ExpireSession t1 m1) (sm_ExpireSession t2 m2);
  same_Get sid m1 m2 : sm_same m1 m2 →
    sm_same (sm_GetSession sid m1).1 (sm_GetSession sid m2).1 ∧
    (sm_GetSession sid m1).2 = (sm_GetSession sid m2).2;
  same_deref sid m1 m2 : sm_same m1 m2 → option_Forall2 session_same (sm_deref m1 sid) (sm_deref m2 sid);
  same_assign sid s1 s2 m1 m2 : sm_same m1 m2 → session_same s1 s2 →
    sm_same (sm_assign sid s1 m1) (sm_assign sid s2 m2)
}.

(** The no-op manager. *)
#[export] Instance noop_timeless {R} : TimelessManager R NoOpManager.NoOpManager.
Proof. refine {| sm_same _ _ := True |}; by intros; try constructor. Defined.

(** ** The LRU manager *)

Module LruTimeless.
Import LruManager.
Section LruTimeless.
Context {W R : Type}.
Implicit Types m : LruManager W R.

Definition elem_same (e1 e2 : nat * Session R) : Prop := e1.1 = e2.1 ∧ session_same e1.2 e2.2.

Record lru_same m1 m2 : Prop := {
  ls_max : maxSessions m1 = maxSessions m2;
  ls_map : l_sessions m1 = l_sessions m2;
  ls_list : Forall2 elem_same (lru m1) (lru m2);
  ls_next : next_elem m1 = next_elem m2
}.

Lemma set_lru_same m1 m2 ss l1 l2 k :
  lru_same m1 m2 → Forall2 elem_same l1 l2 → lru_same (set_lru ss l1 k m1) (set_lru ss l2 k m2).
Proof. intros [] ?. by constructor. Qed.

Lemma find_elem_same p l1 l2 :
  Forall2 elem_same l1 l2 → option_Forall2 elem_same (find_elem p l1) (find_elem p l2).
Proof.
  unfold find_elem. induction 1 as [|[q s] [q' t] l1 l2 [Hq Hs] Hl IH]; simpl in *; [constructor|]. subst q'.
  case_decide; [by constructor|].
  destruct (list_find _ l1) as [[? ?]|], (list_find _ l2) as [[? ?]|]; simpl in *; inversion IH; by constructor.
Qed.

Lemma remove_elem_same p l1 l2 :
  Forall2 elem_same l1 l2 → Forall2 elem_same (remove_elem p l1) (remove_elem p l2).
Proof.
  unfold remove_elem. induction 1 as [|[q s] [q' t] l1 l2 [Hq Hs] Hl IH]; [constructor|]. simpl in Hq. subst q'.
  rewrite !filter_cons. simpl. case_decide; [by constructor|done].
Qed.

Lemma move_to_front_same p l1 l2 :
  Forall2 elem_same l1 l2 → Forall2 elem_same (move_to_front p l1) (move_to_front p l2).
Proof.
  intros Hl. unfold move_to_front. pose proof (find_elem_same p l1 l2 Hl) as Hf.
  destruct (find_elem p l1), (find_elem p l2); inversion Hf; subst; [|done].
  constructor; [done|by apply remove_elem_same].
Qed.

Lemma last_same l1 l2 : Forall2 elem_same l1 l2 → option_Forall2 elem_same (last l1) (last l2).
Proof.
  induction 1 as [|e1 e2 l1 l2 He Hl IH]; [constructor|]. destruct Hl; [by constructor|]. done.
Qed.

#[export] Instance lru_timeless : TimelessManager R (LruManager W R).
Proof.
  refine {| sm_same := lru_same |}; simpl.
  - intros sid t1 t2 m1 m2 Hs. unfold Register. rewrite <- (ls_map _ _ Hs), <- (ls_next _ _ Hs), <- (ls_max _ _ Hs).
    destruct (l_sessions m1 !! sid); [done|].
    assert (Forall2 elem_same ((next_elem m1, NewSession sid t1) :: lru m1) ((next_elem m1, NewSession sid t2) :: lru m2))
      as Hl by (constructor; [done|apply Hs]).
    rewrite <- (Forall2_length _ _ _ Hl). case_decide; [|by split; [apply set_lru_same|]].
    pose proof (last_same _ _ Hl) as Hla.
    destruct (last ((next_elem m1, NewSession sid t1) :: lru m1)) as [[p s]|],
      (last ((next_elem m1, NewSession sid t2) :: lru m2)) as [[p' s']|]; inversion Hla as [? ? [Hp [Hid _]]|]; subst;
      simpl in *; [|by split; [apply set_lru_same|]].
    subst p'. rewrite Hid. split; [|done]. apply set_lru_same; [done|]. by apply remove_elem_same.
  - intros sid m1 m2 Hs. unfold UnRegister. rewrite <- (ls_map _ _ Hs), <- (ls_next _ _ Hs).
    destruct (l_sessions m1 !! sid) as [p|]; [|done]. split; [|done]. apply set_lru_same; [done|].
    apply remove_elem_same, Hs.
  - done.
  - intros sid m1 m2 Hs. unfold GetSession. case_decide; [done|]. rewrite <- (ls_map _ _ Hs), <- (ls_next _ _ Hs).
    destruct (l_sessions m1 !! sid) as [p|]; [|done]. split; [|done]. apply set_lru_same; [done|].
    apply move_to_front_same, Hs.
  - intros sid m1 m2 Hs. unfold deref. rewrite <- (ls_map _ _ Hs). destruct (l_sessions m1 !! sid) as [p|]; [|constructor].
    simpl. pose proof (find_elem_same p _ _ (ls_list _ _ Hs)) as Hf.
    destruct (find_elem p (lru m1)), (find_elem p (lru m2)); inversion Hf as [? ? []|]; by constructor.
  - intros sid s1 s2 m1 m2 Hs Hss. unfold assign. rewrite <- (ls_map _ _ Hs), <- (ls_next _ _ Hs).
    destruct (l_sessions m1 !! sid) as [p|]; [|done]. apply set_lru_same; [done|]. unfold set_elem.
    eapply Forall2_fmap_2, Forall2_impl; [apply Hs|]. intros [q s] [q' t] [Hq Ht]. simpl in *. subst q'. by case_decide.
Defined.
End LruTimeless.
End LruTimeless.

(** ** Replicas in step *)

(** Both computations return, with related values, or both panic alike. *)
Definition go_rel {A B} (Q : A → B → Prop) (a : go A) (b : go B) : Prop :=
  match a, b with
  | Ret a, Ret b => Q a b
  | Panic p, Panic q => p = q
  | _, _ => False
  end.

Lemma go_rel_bind {A B A' B'} (Q : A → B → Prop) (Q' : A' → B' → Prop) a b f g :
  go_rel Q a b → (∀ x y, Q x y → go_rel Q' (f x) (g y)) → go_rel Q' (a ≫= f) (b ≫= g).
Proof. destruct a, b; simpl; [eauto|done|done|done]. Qed.

Lemma go_rel_refl {A} (a : go A) : go_rel eq a a.
Proof. by destruct a. Qed.

Section Agree.
Context {A M SM RN : Type}.
Context `{TimelessManager (response A) M, StateMachine A SM, RaftNode RN}.
Context `{Message NormalRequest, Message ConfChange, Message ConfChangeRequest}.
Context (clock1 clock2 : nat → Z) (bsm : BasedStateMachineInfo).
Implicit Types (n : Node A M SM RN) (h : handle).

(** What the second replica did before the first one began. *)
Record past := {
  past_commands : list Z; past_replies : list (Z * ApplyResult (response A));
  past_trans : list trans_call; past_events : list (member_event * Z * Z)
}.
Definition no_past : past := {| past_commands := []; past_replies := []; past_trans := []; past_events := [] |}.
Context (pa : past).

(** The states of two replicas agree but for times. *)
Record node_same n1 n2 : Prop := {
  ns_sessions : sm_same (sessions n1) (sessions n2);
  ns_cluster : cluster n1 = cluster n2;
  ns_machine : machine n1 = machine n2;
  ns_raft : raft n1 = raft n2;
  ns_status : status n1 = status n2;
  ns_commands : past_commands pa ++ commands n1 = commands n2;
  ns_replies : past_replies pa ++ replies n1 = replies n2;
  ns_trans : past_trans pa ++ trans n1 = trans n2;
  ns_events : past_events pa ++ events n1 = events n2
}.

Lemma session_at_same m1 m2 i : sm_same m1 m2 → session_same (session_at m1 i) (session_at m2 i).
Proof.
  intros Hs. unfold session_at. pose proof (same_deref i m1 m2 Hs) as Hd.
  destruct (sm_deref m1 i), (sm_deref m2 i); inversion Hd; simpl; done.
Qed.

Lemma once_same idx ctx h m1 m2 : sm_same m1 m2 →
  sm_same (doExactlyOnce idx ctx h m1).1 (doExactlyOnce idx ctx h m2).1 ∧
  (doExactlyOnce idx ctx h m1).2 = (doExactlyOnce idx ctx h m2).2.
Proof.
  intros Hs. unfold doExactlyOnce. simpl. destruct h as [|i]; simpl; [done|].
  pose proof (session_at_same m1 m2 i Hs) as Ha. split.
  - apply same_assign; [done|]. by apply ClearResult_same.
  - by rewrite (RepeatSequenceNum_same _ _ eq_refl _ _ Ha), (GetResult_same _ _ eq_refl _ _ Ha).
Qed.

Lemma h_AddResult_same h q t1 t2 ar m1 m2 : sm_same m1 m2 →
  sm_same (h_AddResult h q t1 ar m1).1 (h_AddResult h q t2 ar m2).1 ∧
  (h_AddResult h q t1 ar m1).2 = (h_AddResult h q t2 ar m2).2.
Proof.
  intros Hs. destruct h as [|i]; simpl; [done|].
  destruct (AddResult_same q t1 t2 ar _ _ (session_at_same m1 m2 i Hs)) as [Hss He].
  destruct (AddResult q t1 ar _), (AddResult q t2 ar _). simpl in *. split; [by apply same_assign|done].
Qed.

Lemma get_noop_same m1 m2 : sm_same m1 m2 →
  sm_same (get_noop m1).1 (get_noop m2).1 ∧ (get_noop m1).2 = (get_noop m2).2.
Proof.
  intros Hs. unfold get_noop. destruct (same_Get 0 m1 m2 Hs) as [Hm Hr].
  destruct (sm_GetSession 0 m1), (sm_GetSession 0 m2). simpl in *. by subst.
Qed.

Lemma register_same e t1 t2 req m1 m2 : sm_same m1 m2 →
  sm_same (handleSessionRegister e t1 req m1).1 (handleSessionRegister e t2 req m2).1 ∧
  (handleSessionRegister e t1 req m1).2 = (handleSessionRegister e t2 req m2).2.
Proof.
  intros Hs. unfold handleSessionRegister. destruct (Unregister req).
  - destruct (same_UnRegister (rs_SessionID req) m1 m2 Hs) as [Hm He].
    destruct (sm_UnRegister _ m1), (sm_UnRegister _ m2). simpl in *. by subst.
  - destruct (same_Register (e_index e) t1 t2 m1 m2 Hs) as [Hm He].
    destruct (sm_Register _ _ m1), (sm_Register _ _ m2). simpl in *. by subst.
Qed.

Lemma put_sessions_same m1 m2 n1 n2 :
  sm_same m1 m2 → node_same n1 n2 → node_same (put_sessions m1 n1) (put_sessions m2 n2).
Proof. intros ? []. by constructor. Qed.
Lemma tick_same n1 n2 : node_same n1 n2 → node_same (tick n1) (tick n2).
Proof. intros []. by constructor. Qed.
Lemma set_cluster_same c n1 n2 : node_same n1 n2 → node_same (set_cluster c n1) (set_cluster c n2).
Proof. intros []. by constructor. Qed.
Ltac traces := constructor; simpl; rewrite ?(assoc_L (++)); congruence.
Lemma send_same i ar n1 n2 : node_same n1 n2 → node_same (SendAppliedResult i ar n1) (SendAppliedResult i ar n2).
Proof. intros []. traces. Qed.
Lemma run_command_same i s n1 n2 : node_same n1 n2 → node_same (run_command i s n1) (run_command i s n2).
Proof. intros []. traces. Qed.
Lemma set_status_same st n1 n2 : node_same n1 n2 → node_same (set_status st n1) (set_status st n2).
Proof. intros []. by constructor. Qed.

Lemma ApplyNormalEntry_same e n1 n2 : node_same n1 n2 →
  go_rel (fun x y => node_same x.1 y.1 ∧ x.2 = y.2) (ApplyNormalEntry clock1 e n1) (ApplyNormalEntry clock2 e n2).
Proof.
  intros Hn. pose proof (ns_sessions _ _ Hn) as Hs. unfold ApplyNormalEntry.
  destruct (unmarshal (e_data e)) as [req|]; [|done]. cbn [sessions cluster tick].
  pose proof (get_noop_same _ _ Hs) as [Hgm Hgh].
  destruct (Register_ req) as [reg|]; [|destruct (PubAppService req) as [pas|]].
  - destruct (get_noop (sessions n1)) as [m1 h1], (get_noop (sessions n2)) as [m2 h2]. simpl in Hgm, Hgh. subst h2.
    destruct (register_same e (clock1 (ticks n1)) (clock2 (ticks n2)) reg m1 m2 Hgm) as [Hm Har].
    destruct (handleSessionRegister e _ reg m1), (handleSessionRegister e _ reg m2). simpl in *. subst.
    split; [|done]. by apply put_sessions_same, tick_same.
  - destruct (get_noop (sessions n1)) as [m1 h1], (get_noop (sessions n2)) as [m2 h2]. simpl in Hgm, Hgh. subst h2.
    rewrite (ns_cluster _ _ Hn). destruct (handlePubAppService _ _ _) as [[c ar]|]; [|done]. simpl.
    split; [|done]. by apply set_cluster_same, put_sessions_same, tick_same.
  - apply (same_Expire (clock1 (ticks n1)) (clock2 (ticks n2))) in Hs.
    destruct (same_Get (SessionID (Context_ req)) _ _ Hs) as [Hm Hr].
    destruct (sm_GetSession _ (sm_ExpireSession _ (sessions n1))) as [m1 r1],
      (sm_GetSession _ (sm_ExpireSession _ (sessions n2))) as [m2 r2]. simpl in Hm, Hr. subst r2.
    destruct r1 as [h|err].
    + destruct (once_same (e_index e) (Context_ req) h _ _ Hm) as [Hm' Ho].
      destruct (doExactlyOnce _ _ _ m1) as [m1' [b1 a1]], (doExactlyOnce _ _ _ m2) as [m2' [b2 a2]]. simpl in Hm', Ho.
      simplify_eq. split; [|done]. by apply put_sessions_same, tick_same.
    + destruct (get_noop_same _ _ Hm) as [Hm' Hh]. destruct (get_noop m1), (get_noop m2). simpl in *. subst.
      split; [|done]. by apply put_sessions_same, tick_same.
Qed.

Lemma applyEntry_same e n1 n2 : node_same n1 n2 →
  go_rel node_same (applyEntry clock1 bsm e n1) (applyEntry clock2 bsm e n2).
Proof.
  intros Hn. unfold applyEntry. case_decide; [destruct Hn; by constructor|].
  case_decide; [|by case_decide]. case_decide; [by destruct (diskType bsm)|].
  eapply go_rel_bind; [by apply ApplyNormalEntry_same|]. intros [m1 [[req ar] h]] [m2 [[req2 ar2] h2]] [Hm Heq].
  simpl in Hm, Heq. simplify_eq. apply tick_same in Hm. cbv zeta.
  destruct (IsEmpty ar2); [|by apply send_same].
  rewrite (ns_machine _ _ Hm). destruct (sm_Apply _ _ _ _) as [s y].
  apply (run_command_same (e_index e) s) in Hm.
  destruct (h_AddResult_same h2 (SequenceNum (Context_ req2)) (clock1 (ticks m1)) (clock2 (ticks m2)) y _ _
    (ns_sessions _ _ Hm)) as [Hs He].
  destruct (h_AddResult _ _ _ _ _) as [k1 e1], (h_AddResult _ _ _ _ _) as [k2 e2]. simpl in Hs, He. subst e2.
  destruct e1; [done|]. by apply send_same, put_sessions_same.
Qed.

Lemma process_trans_same cc req n1 n2 : node_same n1 n2 →
  node_same (process_trans cc req n1).1 (process_trans cc req n2).1 ∧
  (process_trans cc req n1).2 = (process_trans cc req n2).2.
Proof.
  intros Hn. unfold process_trans. rewrite (ns_cluster _ _ Hn).
  repeat case_decide; simpl; (split; [|done]); try done; destruct Hn; traces.
Qed.

Lemma processMemberEvent_same ty req n1 n2 : node_same n1 n2 →
  node_same (processMemberEvent ty req n1) (processMemberEvent ty req n2).
Proof.
  intros Hn. unfold processMemberEvent.
  repeat case_decide; try done; destruct Hn; traces.
Qed.

Lemma processConfChange_same cc req n1 n2 : node_same n1 n2 →
  go_rel (fun x y => node_same x.1 y.1 ∧ x.2 = y.2) (processConfChange cc req n1) (processConfChange cc req n2).
Proof.
  intros Hn. unfold processConfChange. rewrite (ns_cluster _ _ Hn).
  destruct (clusterValidateAndApply _ _ _) as [[c r]|]; [|done]. cbn [mbind go_bind cluster set_cluster raft].
  rewrite (ns_raft _ _ Hn). destruct r as [u|err].
  - destruct (rn_ApplyConfChange _ _ _) as [rn [cs|err]].
    + assert (node_same (processMemberEvent (cc_Type cc) req (set_raft rn (set_cluster c n1)))
                        (processMemberEvent (cc_Type cc) req (set_raft rn (set_cluster c n2)))) as Hn'.
      { apply processMemberEvent_same. destruct Hn; by constructor. }
      destruct (process_trans_same cc req _ _ Hn') as [Hm Hb].
      destruct (process_trans cc req _), (process_trans cc req _). simpl in *. by subst.
    + simpl. split; [|done]. destruct Hn; by constructor.
  - destruct (rn_ApplyConfChange _ _ _) as [rn x]. simpl. split; [|done]. destruct Hn; by constructor.
Qed.

Lemma ApplyConfChangeEntry_same e n1 n2 : node_same n1 n2 →
  go_rel (fun x y => node_same x.1 y.1 ∧ x.2 = y.2)
    (ApplyConfChangeEntry clock1 e n1) (ApplyConfChangeEntry clock2 e n2).
Proof.
  intros Hn. pose proof (ns_sessions _ _ Hn) as Hs. unfold ApplyConfChangeEntry.
  destruct (parseConfChangeEntry e) as [[cc req]|]; [|done]. cbn [sessions tick].
  apply (same_Expire (clock1 (ticks n1)) (clock2 (ticks n2))) in Hs.
  destruct (same_Get (SessionID (cr_Context req)) _ _ Hs) as [Hm Hr].
  destruct (sm_GetSession _ (sm_ExpireSession _ (sessions n1))) as [m1 r1],
    (sm_GetSession _ (sm_ExpireSession _ (sessions n2))) as [m2 r2]. simpl in Hm, Hr. subst r2.
  destruct r1 as [h|err]; [|split; [by apply put_sessions_same, tick_same|done]].
  destruct (once_same (e_index e) (cr_Context req) h _ _ Hm) as [Hm' Ho].
  destruct (doExactlyOnce _ _ _ m1) as [m1' [b1 a1]], (doExactlyOnce _ _ _ m2) as [m2' [b2 a2]]. simpl in Hm', Ho.
  simplify_eq. destruct b2; [|split; [by apply put_sessions_same, tick_same|done]].
  eapply go_rel_bind; [by apply processConfChange_same, put_sessions_same, tick_same|].
  intros [k1 [[cs1 r1] e1]] [k2 [[cs2 r2] e2]] [Hk Heq]. simpl in Hk, Heq. simplify_eq.
  destruct (h_AddResult_same h (SequenceNum (cr_Context req)) (clock1 (ticks n1)) (clock2 (ticks n2))
    {| LogIndex := e_index e; ar_Response := Some (ConfStateResponse cs2); ar_Error := e2 |} _ _
    (ns_sessions _ _ Hk)) as [Hs' He].
  destruct (h_AddResult _ _ _ _ _) as [q1 x1], (h_AddResult _ _ _ _ _) as [q2 x2]. simpl in Hs', He. subst x2.
  destruct x1; [done|]. split; [by apply put_sessions_same|done].
Qed.

Lemma confChangeEntry_same e n1 n2 : node_same n1 n2 →
  go_rel (fun x y => node_same x.1 y.1 ∧ x.2 = y.2) (confChangeEntry clock1 e n1) (confChangeEntry clock2 e n2).
Proof.
  intros Hn. unfold confChangeEntry. case_decide; [|done].
  eapply go_rel_bind; [by apply ApplyConfChangeEntry_same|].
  intros [k1 [[c1 a1] r1]] [k2 [[c2 a2] r2]] [Hk Heq]. simpl in Hk, Heq. simplify_eq.
  split; [|done]. simpl. apply send_same. rewrite (ns_status _ _ Hk).
  repeat case_match; try done; by apply set_status_same.
Qed.

Lemma run_same sts n1 n2 :
  node_same n1 n2 → go_rel node_same (run clock1 bsm sts n1) (run clock2 bsm sts n2).
Proof.
  revert n1 n2. induction sts as [|st sts IH]; intros n1 n2 Hn; [done|]. simpl.
  eapply go_rel_bind; [|intros; by apply IH]. destruct st as [e|e]; simpl.
  - by apply applyEntry_same.
  - eapply go_rel_bind; [by apply confChangeEntry_same|]. intros [k1 b1] [k2 b2] [Hk _]. done.
Qed.
End Agree.
Arguments past : clear implicits.
Arguments no_past {A}.

(** C6: replicas agree whatever their clocks show.  Two replicas with a manager that does
    not look at the time, in states that agree, run any interleaving of the same steps to
    states that agree: the same commands on the same state machine with the same answers,
    the same membership and the same raft configuration; or both panic with the same
    message. *)
Theorem replicas_agree {A M SM RN} `{TimelessManager (response A) M, StateMachine A SM, RaftNode RN}
    `{Message NormalRequest, Message ConfChange, Message ConfChangeRequest} clock1 clock2 bsm sts (n1 n2 : Node A M SM RN) :
  node_same no_past n1 n2 → go_rel (node_same no_past) (run clock1 bsm sts n1) (run clock2 bsm sts n2).
Proof. apply run_same. Qed.

(** ** What pulls replicas apart *)

Section Diverge.
Context {A W SM RN : Type}.
Context `{StateMachine A SM, RaftNode RN}.
Context `{Message NormalRequest, Message ConfChange, Message ConfChangeRequest}.
Implicit Types n : Node A (ExpiredManager W (response A)) SM RN.

(** A live session: known and not expired at this time. *)
Definition live (t sid : Z) (s : Session (response A)) n : Prop :=
  e_sessions (sessions n) !! sid = Some s ∧ ¬ expired t (sessions n) s.

Lemma live_deref t sid s n :
  live t sid s n → sm_deref (sm_ExpireSession t (sessions n)) sid = Some s.
Proof. intros [Hs He]. simpl. by apply map_lookup_filter_Some. Qed.

(** A command of a session that is not there is refused and changes nothing. *)
Lemma command_refused clock bsm e req n :
  is_command bsm e req → SessionID (Context_ req) ≠ NoOPSessionID →
  sm_deref (sm_ExpireSession (clock (ticks n)) (sessions n)) (SessionID (Context_ req)) = None →
  ∃ n' err, run_step clock bsm (Norm e) n = Ret n' ∧ machine n' = machine n ∧ commands n' = commands n ∧
    replies n' = replies n ++
      [(ReplyID (Context_ req), {| LogIndex := e_index e; ar_Response := None; ar_Error := Some err |})].
Proof.
  intros Hc Hsid Hd. simpl. rewrite (applyEntry_command clock bsm e req n Hc). cbv zeta.
  assert (∀ m : ExpiredManager W (response A), sm_deref m (SessionID (Context_ req)) = None →
    sm_GetSession (SessionID (Context_ req)) m = (m, Err (Errorf "expired session manager: session %d not found"))) as Hg.
  { intros m Hm. simpl in *. unfold ExpiredManager.GetSession. by rewrite decide_False, Hm by done. }
  rewrite (Hg _ Hd). do 2 eexists. by split_and!.
Qed.

(** With expiring sessions the outcome of a command depends on the replica's own clock:
    for every new command of a session there are clock readings on which one replica
    executes the command while another, in the same state, refuses it and leaves its state
    machine behind. *)
Theorem expiry_splits_replicas bsm clock1 clock2 e req n s :
  keyed (e_sessions (sessions n)) → is_command bsm e req →
  let ctx := Context_ req in
  SessionID ctx ≠ NoOPSessionID → e_sessions (sessions n) !! SessionID ctx = Some s →
  s_result s !! SequenceNum ctx = None →
  ¬ expired (clock1 (ticks n)) (sessions n) s → expired (clock2 (ticks n)) (sessions n) s →
  ∃ n1 n2, run_step clock1 bsm (Norm e) n = Ret n1 ∧ run_step clock2 bsm (Norm e) n = Ret n2 ∧
    commands n1 = commands n ++ [e_index e] ∧ commands n2 = commands n ∧ machine n2 = machine n ∧
    machine n1 = (sm_Apply (e_term e) (e_index e) (StateMachineLog req) (machine n)).1.
Proof.
  intros Hk Hc ctx Hsid Hs Hq He1 He2.
  destruct (new_command_executed clock1 bsm e req n s) as (n1 & ar & Hr1 & Hc1 & Hm1 & _); [done..| |done|].
  { by apply live_deref. }
  destruct (command_refused clock2 bsm e req n) as (n2 & err & Hr2 & Hm2 & Hc2 & _); [done|done| |].
  { simpl. apply map_lookup_filter_None. right. unfold ctx in Hs. intros s' Hs'. rewrite Hs in Hs'. simplify_eq. by intros []. }
  exists n1, n2. rewrite <- Hm1. by split_and!.
Qed.

(** The entry registers a new session. *)
Record is_register (e : Entry) (req : NormalRequest) : Prop := {
  ir_data : e_data e ≠ [];
  ir_type : e_type e = EntryNormal;
  ir_request : unmarshal (e_data e) = Some req;
  ir_register : ∃ reg, Register_ req = Some reg ∧ Unregister reg = false
}.

Lemma applyEntry_register clock bsm e req n :
  is_register e req → openAppliedIndex bsm < e_index e → 0 < e_index e →
  e_sessions (sessions n) !! e_index e = None →
  ∃ n', run_step clock bsm (Norm e) n = Ret n' ∧ ticks n' = S (S (ticks n)) ∧
    cluster n' = cluster n ∧ machine n' = machine n ∧ commands n' = commands n ∧ raft n' = raft n ∧
    sessions n' = ExpiredManager.set_sessions
      (<[e_index e := NewSession (e_index e) (clock (ticks n))]> (e_sessions (sessions n))) (sessions n).
Proof.
  intros [Hd Ht Hu (reg & Hreg & Hun)] Ho Hpos Hnew. simpl. unfold applyEntry.
  rewrite decide_False by (by destruct (e_data e)). rewrite decide_True, decide_False by (done || lia).
  unfold ApplyNormalEntry. rewrite Hu, Hreg. unfold get_noop, handleSessionRegister. rewrite Hun. simpl.
  unfold ExpiredManager.Register. rewrite Hnew. cbn [mbind go_bind].
  assert (IsEmpty (R := response A) {| LogIndex := e_index e; ar_Response := None; ar_Error := None |} = false) as ->.
  { unfold IsEmpty. simpl. rewrite bool_decide_eq_false_2 by lia. done. }
  eexists. by split_and!.
Qed.

(** Reopening a disk state machine skips the entries it has applied, session requests
    included. *)
Lemma reopened_skips clock bsm e n :
  diskType bsm = true → e_data e ≠ [] → e_type e = EntryNormal → e_index e <= openAppliedIndex bsm →
  run_step clock bsm (Norm e) n = Ret n.
Proof.
  intros Hd Hne Ht Ho. simpl. unfold applyEntry. rewrite decide_False by (by destruct (e_data e)).
  rewrite !decide_True by done. by rewrite Hd.
Qed.

(** A disk state machine that reopens past the registration of a session refuses the
    session's commands.  The replica that stayed up executes the command; the one that
    restarted from the same sessions, with the registration already covered by its state
    machine, skips the registration and answers the command with an error, so their state
    machines part. *)
Theorem reopen_loses_sessions clock bsm bsm' e1 r1 e2 r2 n :
  is_register e1 r1 → 0 < e_index e1 → openAppliedIndex bsm < e_index e1 →
  is_command bsm e2 r2 → is_command bsm' e2 r2 →
  diskType bsm' = true → e_index e1 <= openAppliedIndex bsm' →
  keyed (e_sessions (sessions n)) → e_sessions (sessions n) !! e_index e1 = None →
  SessionID (Context_ r2) = e_index e1 →
  clock (S (S (ticks n))) < i64 (clock (ticks n) + expiredTime (sessions n)) →
  ∃ n1 n2, run clock bsm [Norm e1; Norm e2] n = Ret n1 ∧ run clock bsm' [Norm e1; Norm e2] n = Ret n2 ∧
    commands n1 = commands n ++ [e_index e2] ∧ commands n2 = commands n ∧ machine n2 = machine n.
Proof.
  intros Hr Hpos Ho Hc Hc' Hdisk Hopen Hk Hnew Hsid Hclock.
  destruct (applyEntry_register clock bsm e1 r1 n Hr Ho Hpos Hnew) as (m1 & Hm1 & Ht & _ & _ & Hcm & _ & Hs).
  assert (sm_inv (sessions m1)) as Hi. { rewrite Hs. simpl. by apply map_Forall_insert_2. }
  destruct (new_command_executed clock bsm e2 r2 m1 (NewSession (e_index e1) (clock (ticks n)))) as
    (n1 & ar & Hrun1 & Hc1 & _); [done|done|by rewrite Hsid; unfold NoOPSessionID; lia| |done|].
  { apply live_deref. unfold live. rewrite Hs, Hsid, Ht. split; simpl; [by rewrite lookup_insert_eq|].
    unfold expired. simpl. lia. }
  destruct (command_refused clock bsm' e2 r2 n) as (n2 & err & Hrun2 & Hm2 & Hc2 & _);
    [done|rewrite Hsid; unfold NoOPSessionID; lia| |].
  { rewrite Hsid. simpl. apply map_lookup_filter_None. by left. }
  exists n1, n2. unfold run. rewrite Hm1. cbn [mbind go_bind]. rewrite Hrun1. cbn [mbind go_bind].
  destruct Hr as [Hd1 Ht1 _ _]. rewrite (reopened_skips clock bsm' e1 n) by done. cbn [mbind go_bind].
  rewrite Hrun2. cbn [mbind go_bind]. by rewrite Hc1, Hcm, Hc2.
Qed.

(** A configuration change of a live session with a new sequence number goes through. *)
Lemma conf_accepted clock bsm e cc req n s c' rn cs :
  e_type e = EntryConfChange → parseConfChangeEntry e = Ok (cc, req) →
  keyed (e_sessions (sessions n)) → live (clock (ticks n)) (SessionID (cr_Context req)) s n →
  SessionID (cr_Context req) ≠ NoOPSessionID → s_result s !! SequenceNum (cr_Context req) = None →
  clusterValidateAndApply (cc_Type cc) req (cluster n) = Ret (c', Ok tt) →
  rn_ApplyConfChange (groupID c') cc (raft n) = (rn, Ok cs) →
  ∃ n', run_step clock bsm (Conf e) n = Ret n' ∧ cluster n' = c' ∧ raft n' = rn.
Proof.
  intros Ht Hp Hk Hlive Hsid Hq Hcl Hrn. pose proof (live_deref _ _ _ _ Hlive) as Hd. simpl run_step.
  unfold confChangeEntry, ApplyConfChangeEntry. rewrite decide_True, Hp by done. cbn [sessions tick].
  assert (sm_inv (sessions n)) as Hi by done. destruct (sm_Expire_law _ (clock (ticks n)) Hi) as [Hie _].
  destruct (sm_GetSession _ _) as [m [h|err]] eqn:Eg; destruct (sm_Get_law _ _ _ _ Hie Eg) as (Hi1 & Hd1 & Hh);
    [|destruct Hh as [_ Hn]; congruence].
  destruct h as [|i]; [done|]. destruct Hh as (-> & _ & _). pose proof (get_valid _ _ _ _ Hie Eg) as Hv.
  assert (h_RepeatSequenceNum (SessionAt (SessionID (cr_Context req))) (SequenceNum (cr_Context req)) m = false) as Hrep.
  { simpl. unfold RepeatSequenceNum, session_at. rewrite Hd1, Hd. simpl. rewrite Hq.
    apply bool_decide_eq_false_2. by intros []. }
  rewrite once_fresh by done. unfold processConfChange. cbn [cluster put_sessions tick]. rewrite Hcl.
  cbn [mbind go_bind cluster set_cluster raft put_sessions tick]. rewrite Hrn.
  match goal with |- context [process_trans cc req (processMemberEvent _ _ ?k)] =>
    pose proof (processMemberEvent_told (cc_Type cc) req k) as [];
    pose proof (process_trans_told cc req (processMemberEvent (cc_Type cc) req k)) as [] end.
  destruct (process_trans cc req _) as [k removeSelf]. cbn [mbind go_bind fst] in *.
  assert (sessions k = h_ClearResult (SessionAt (SessionID (cr_Context req))) (LowestSeqNumNotYetReplied (cr_Context req)) m
    ∧ cluster k = c' ∧ raft k = rn) as (Hks & Hkc & Hkr).
  { cbn in *. split_and!; congruence. }
  rewrite Hks.
  match goal with |- context [h_AddResult _ _ ?t ?ar _] =>
    destruct (add_after_clear _ (LowestSeqNumNotYetReplied (cr_Context req)) _ t ar _ Hi1 Hv Hrep) as [m' Hadd] end.
  rewrite Hadd. cbn [mbind go_bind]. eexists. split; [done|]. by split.
Qed.

(** A configuration change can overtake the registration of its own session.  Both
    entries are committed, registration first, but the two loops run on their own: the
    replica whose apply loop is ahead changes its membership, and the replica whose ready
    loop is ahead refuses the same change and keeps the old membership and raft
    configuration. *)
Theorem change_overtakes_session clock bsm e1 r1 e2 cc req n c' rn cs :
  is_register e1 r1 → 0 < e_index e1 → openAppliedIndex bsm < e_index e1 →
  e_type e2 = EntryConfChange → parseConfChangeEntry e2 = Ok (cc, req) →
  SessionID (cr_Context req) = e_index e1 →
  keyed (e_sessions (sessions n)) → e_sessions (sessions n) !! e_index e1 = None →
  clusterValidateAndApply (cc_Type cc) req (cluster n) = Ret (c', Ok tt) →
  rn_ApplyConfChange (groupID c') cc (raft n) = (rn, Ok cs) →
  clock (S (S (ticks n))) < i64 (clock (ticks n) + expiredTime (sessions n)) →
  ∃ n1 n2, run clock bsm [Norm e1; Conf e2] n = Ret n1 ∧ run clock bsm [Conf e2; Norm e1] n = Ret n2 ∧
    cluster n1 = c' ∧ raft n1 = rn ∧ cluster n2 = cluster n ∧ raft n2 = raft n.
Proof.
  intros Hr Hpos Ho Ht2 Hp Hsid Hk Hnew Hcl Hrn Hclock.
  destruct (applyEntry_register clock bsm e1 r1 n Hr Ho Hpos Hnew) as (m1 & Hm1 & Ht & Hc1 & _ & _ & Hr1 & Hs).
  destruct (conf_accepted clock bsm e2 cc req m1 (NewSession (e_index e1) (clock (ticks n))) c' rn cs)
    as (n1 & Hrun1 & Hc & Hrf); [done|done| | |by rewrite Hsid; unfold NoOPSessionID; lia|done|by rewrite Hc1|by rewrite Hr1|].
  { rewrite Hs. simpl. by apply map_Forall_insert_2. }
  { unfold live. rewrite Hs, Hsid, Ht. split; simpl; [by rewrite lookup_insert_eq|]. unfold expired. simpl. lia. }
  set (m2 := ExpiredManager.ExpireSession (clock (ticks n)) (sessions n)).
  assert (e_sessions m2 !! e_index e1 = None) as Hm2 by (apply map_lookup_filter_None; by left).
  assert (∃ n', run_step clock bsm (Conf e2) n = Ret n' ∧ cluster n' = cluster n ∧ raft n' = raft n ∧ sessions n' = m2)
    as (n' & Hn' & Hcn & Hrn' & Hsn).
  { simpl run_step. unfold confChangeEntry, ApplyConfChangeEntry. rewrite decide_True, Hp by done. cbn [sessions tick].
    assert (sm_GetSession (SessionID (cr_Context req)) m2 =
      (m2, Err (Errorf "expired session manager: session %d not found"))) as Hg.
    { simpl. unfold ExpiredManager.GetSession. rewrite Hsid, decide_False by (unfold NoOPSessionID; lia). by rewrite Hm2. }
    change (sm_ExpireSession (clock (ticks n)) (sessions n)) with m2. rewrite Hg. eexists. by split_and!. }
  destruct (applyEntry_register clock bsm e1 r1 n' Hr Ho Hpos) as (n2 & Hn2 & _ & Hc2 & _ & _ & Hr2 & _); [by rewrite Hsn|].
  exists n1, n2. unfold run. rewrite Hm1, Hn'. cbn [mbind go_bind]. rewrite Hrun1, Hn2. cbn [mbind go_bind].
  by rewrite Hc2, Hr2.
Qed.
End Diverge.
