(* ===== verification/Membership.v ===== *)
(** * The membership and the raft configuration

    The cluster keeps the peers it knows, and raft keeps the voters and learners it counts.
    A configuration change goes to both ([processConfChange] of [Apply.v]).  The theorems
    show that they agree after every change the client interface lets through but one: an
    update can change the role of a peer in the cluster alone. *)

From S2P Require Import Prelude Raftpb Session Cluster Apply Exactly.

(** ** What the raft library documents

    [ApplyConfChange] makes a node a voter or a learner, removes it, or leaves the
    configuration alone for an update and for a change without a node; it returns the
    configuration it has afterwards. *)
Class RaftConf (RN : Type) `{RaftNode RN} := {
  rn_voters : RN → gset Z;
  rn_learners : RN → gset Z;
  conf_result g cc rn : ∃ rn' cs, rn_ApplyConfChange g cc rn = (rn', Ok cs) ∧
    list_to_set (cs_voters cs) = rn_voters rn' ∧ list_to_set (cs_learners cs) = rn_learners rn';
  conf_none g cc rn : cc_NodeID cc = raft_None →
    rn_voters (rn_ApplyConfChange g cc rn).1 = rn_voters rn ∧
    rn_learners (rn_ApplyConfChange g cc rn).1 = rn_learners rn;
  conf_add g cc rn : cc_NodeID cc ≠ raft_None → cc_Type cc = ConfChangeAddNode →
    rn_voters (rn_ApplyConfChange g cc rn).1 = {[cc_NodeID cc]} ∪ rn_voters rn ∧
    rn_learners (rn_ApplyConfChange g cc rn).1 = rn_learners rn ∖ {[cc_NodeID cc]};
  conf_learner g cc rn : cc_NodeID cc ≠ raft_None → cc_Type cc = ConfChangeAddLearnerNode →
    rn_voters (rn_ApplyConfChange g cc rn).1 = rn_voters rn ∖ {[cc_NodeID cc]} ∧
    rn_learners (rn_ApplyConfChange g cc rn).1 = {[cc_NodeID cc]} ∪ rn_learners rn;
  conf_remove g cc rn : cc_NodeID cc ≠ raft_None → cc_Type cc = ConfChangeRemoveNode →
    rn_voters (rn_ApplyConfChange g cc rn).1 = rn_voters rn ∖ {[cc_NodeID cc]} ∧
    rn_learners (rn_ApplyConfChange g cc rn).1 = rn_learners rn ∖ {[cc_NodeID cc]};
  conf_update g cc rn : cc_Type cc = ConfChangeUpdateNode →
    rn_voters (rn_ApplyConfChange g cc rn).1 = rn_voters rn ∧
    rn_learners (rn_ApplyConfChange g cc rn).1 = rn_learners rn
}.

(** The peers of a role. *)
Definition with_role (learner : bool) (c : Cluster) (i : Z) : Prop :=
  ∃ p, peers_of (store c) !! i = Some p ∧ IsLearner (RaftPeerAttr p) = learner.

(** Cluster and raft count the same voters and the same learners. *)
Definition agrees `{RaftConf RN} (c : Cluster) (rn : RN) : Prop :=
  (∀ i, i ∈ rn_voters rn ↔ with_role false c i) ∧ (∀ i, i ∈ rn_learners rn ↔ with_role true c i).

(** What [AddVotingPeer], [AddLearner], [PromoteLearner], [RemovePeer] and [UpdatePeer] propose;
    the last of them takes any role. *)
Definition proposed (cc : ConfChange) (req : ConfChangeRequest) : Prop :=
  let attr := cr_RaftPeerAttr req in
  cc_NodeID cc = PeerID attr ∧ PeerID attr ≠ raft_None ∧
  ((cc_Type cc = ConfChangeAddNode ∧ (PromoteLearner req = false → IsLearner attr = false)) ∨
   (cc_Type cc = ConfChangeAddLearnerNode ∧ PromoteLearner req = false ∧ IsLearner attr = true) ∨
   cc_Type cc = ConfChangeRemoveNode ∨ cc_Type cc = ConfChangeUpdateNode).

(** An update does not change the role of a member. *)
Definition keeps_role (c : Cluster) (cc : ConfChange) (req : ConfChangeRequest) : Prop :=
  let attr := cr_RaftPeerAttr req in
  cc_Type cc = ConfChangeUpdateNode → ∀ p, peers_of (store c) !! PeerID attr = Some p → IsLearner attr = IsLearner (RaftPeerAttr p).

Section Agreement.
Context {A M SM RN : Type}.
Context `{SessionManager (response A) M, StateMachine A SM, RaftConf RN}.
Implicit Types n : Node A M SM RN.

(** Writing one peer changes the role of that peer only. *)
Lemma with_role_put i p m b c c' :
  Peers (store c) = Some m → Peers (store c') = Some (<[i := p]> m) →
  ∀ j, with_role b c' j ↔ (j = i ∧ IsLearner (RaftPeerAttr p) = b) ∨ (j ≠ i ∧ with_role b c j).
Proof.
  intros Hm Hm' j. unfold with_role, peers_of. rewrite Hm, Hm'. simpl. setoid_rewrite lookup_insert_Some.
  split; [intros (q & [[<- <-]|[Hne Hq]] & Hb); eauto|].
  intros [[-> Hb]|[Hne (q & Hq & Hb)]]; eauto 6.
Qed.

Lemma with_role_delete i m b c c' :
  Peers (store c) = Some m → Peers (store c') = Some (delete i m) →
  ∀ j, with_role b c' j ↔ j ≠ i ∧ with_role b c j.
Proof.
  intros Hm Hm' j. unfold with_role, peers_of. rewrite Hm, Hm'. simpl. setoid_rewrite lookup_delete_Some.
  split; [intros (q & [Hne Hq] & Hb); eauto|]. intros [Hne (q & Hq & Hb)]; eauto 6.
Qed.

Lemma with_role_unique b b' c i : with_role b c i → with_role b' c i → b = b'.
Proof. intros (p & Hp & <-) (q & Hq & <-). congruence. Qed.

Lemma put_peer_Ret i p c c' r :
  put_peer i p c = Ret (c', r) →
  ∃ m, Peers (store c) = Some m ∧ Peers (store c') = Some (<[i := p]> m) ∧ r = Ok tt.
Proof. unfold put_peer. destruct (Peers (store c)); intros; simplify_eq/=. by eauto. Qed.

(** What the change did to the cluster, when it was accepted. *)
Lemma change_effect cc req c c' r :
  proposed cc req → keeps_role c cc req → clusterValidateAndApply (cc_Type cc) req c = Ret (c', r) →
  (∃ e, r = Err e ∧ c' = c) ∨
  (r = Ok tt ∧
   ((cc_Type cc = ConfChangeAddNode ∧ ∀ b j, with_role b c' j ↔ (j = cc_NodeID cc ∧ b = false) ∨ (j ≠ cc_NodeID cc ∧ with_role b c j)) ∨
    (cc_Type cc = ConfChangeAddLearnerNode ∧ ∀ b j, with_role b c' j ↔ (j = cc_NodeID cc ∧ b = true) ∨ (j ≠ cc_NodeID cc ∧ with_role b c j)) ∨
    (cc_Type cc = ConfChangeRemoveNode ∧ ∀ b j, with_role b c' j ↔ j ≠ cc_NodeID cc ∧ with_role b c j) ∨
    (cc_Type cc = ConfChangeUpdateNode ∧ ∀ b j, with_role b c' j ↔ with_role b c j))).
Proof.
  intros (Hid & Hnz & Hty) Hrole Hc. unfold clusterValidateAndApply in Hc.
  destruct Hty as [[Ht Hl]|[(Ht & Hpr & Hl)|[Ht|Ht]]]; rewrite Ht in Hc |- *.
  - rewrite decide_True in Hc by by left. destruct (PromoteLearner req).
    + unfold Promote, Meth.bind, get_peer in Hc. destruct (peers_of _ !! _) as [p|] eqn:Ep; [|left; simplify_eq; by eexists].
      destruct (IsLearner (RaftPeerAttr p)) eqn:El; [|left; unfold Meth.fail in Hc; simplify_eq; by eexists].
      apply put_peer_Ret in Hc as (m & Hm & Hm' & ->). right. split; [done|]. left. split; [done|]. intros b j.
      rewrite (with_role_put _ _ _ b _ _ Hm Hm'), Hid. simpl. clear. intuition congruence.
    + unfold Add, Meth.bind, Meth.get, Meth.fail in Hc.
      do 3 (case_decide; [left; simplify_eq; by eexists|]).
      apply put_peer_Ret in Hc as (m & Hm & Hm' & ->). right. split; [done|]. left. split; [done|]. intros b j.
      rewrite (with_role_put _ _ _ b _ _ Hm Hm'), Hid. simpl. rewrite (Hl eq_refl). clear. intuition congruence.
  - rewrite decide_True in Hc by by right. rewrite Hpr in Hc. unfold Add, Meth.bind, Meth.get, Meth.fail in Hc.
    do 3 (case_decide; [left; simplify_eq; by eexists|]).
    apply put_peer_Ret in Hc as (m & Hm & Hm' & ->). right. split; [done|]. right. left. split; [done|]. intros b j.
    rewrite (with_role_put _ _ _ b _ _ Hm Hm'), Hid. simpl. rewrite Hl. clear. intuition congruence.
  - rewrite decide_False, decide_True in Hc by (done || by intros []).
    unfold Remove, Meth.bind, get_peer, delete_peer, Meth.modify, put_removed in Hc.
    destruct (peers_of _ !! _) as [p|] eqn:Ep; [|left; simplify_eq; by eexists]. simpl in Hc.
    destruct (RemovedIds (store c)) as [rm|]; [|done]. unfold peers_of in Ep.
    destruct (Peers (store c)) as [m|] eqn:Em; [|done]. simplify_eq. right. split; [done|]. do 2 right. left.
    split; [done|]. intros b j. rewrite Hid. by apply (with_role_delete _ m).
  - rewrite !decide_False, decide_True in Hc by (done || by intros []).
    unfold Update, Meth.bind, get_peer in Hc. destruct (peers_of _ !! _) as [p|] eqn:Ep; [|left; simplify_eq; by eexists].
    apply put_peer_Ret in Hc as (m & Hm & Hm' & ->). right. split; [done|]. do 3 right. split; [done|]. intros b j.
    rewrite (with_role_put _ _ _ b _ _ Hm Hm'). simpl. destruct (decide (j = PeerID (cr_RaftPeerAttr req))) as [->|Hne];
      [|clear -Hne; tauto].
    specialize (Hrole Ht p Ep). split.
    + intros [[_ <-]|[[] _]]; [|done]. by exists p.
    + intros (q' & Hq' & <-). left. split; [done|]. congruence.
Qed.

(** Membership of one id in the sets after a change. *)
Ltac solve_roles He Hv Hl :=
  split; intros i; rewrite He, ?elem_of_union, ?elem_of_difference, ?elem_of_singleton, ?Hv, ?Hl;
  clear; match goal with |- context [cc_NodeID ?cc] => destruct (decide (i = cc_NodeID cc)) | _ => idtac end;
  intuition congruence.

(** Cluster and raft stay in agreement through a change that keeps roles. *)
Lemma kept_agreement cc req n n' r :
  agrees (cluster n) (raft n) → proposed cc req → keeps_role (cluster n) cc req →
  processConfChange cc req n = Ret (n', r) → agrees (cluster n') (raft n').
Proof.
  intros [Hv Hl] Hp Hk Hc. unfold processConfChange in Hc.
  destruct (clusterValidateAndApply _ _ _) as [[c x]|] eqn:Ecl; [|done]. cbn [mbind go_bind] in Hc.
  pose proof Hp as (Hid & Hnz & _). rewrite <- Hid in Hnz.
  destruct (change_effect cc req _ _ _ Hp Hk Ecl) as [(e & -> & ->)|[-> Heff]].
  - cbn [cluster set_cluster raft] in Hc. destruct (rn_ApplyConfChange _ _ _) as [rn y] eqn:Er. simplify_eq/=.
    match type of Er with rn_ApplyConfChange ?g ?k ?z = _ =>
      destruct (conf_none g k z eq_refl) as [Hnv Hnl] end. rewrite Er in Hnv, Hnl. simpl in Hnv, Hnl. split; simpl.
    + intros i. by rewrite Hnv.
    + intros i. by rewrite Hnl.
  - cbn [cluster set_cluster raft] in Hc.
    destruct (conf_result (groupID c) cc (raft n)) as (rn' & cs & Er & _). rewrite Er in Hc.
    pose proof (processMemberEvent_told (cc_Type cc) req (set_raft rn' (set_cluster c n))) as [].
    pose proof (process_trans_told cc req (processMemberEvent (cc_Type cc) req (set_raft rn' (set_cluster c n)))) as [].
    destruct (process_trans cc req _) as [k b]. simplify_eq/=.
    replace (cluster n') with c by congruence. replace (raft n') with rn' by congruence.
    assert (rn' = (rn_ApplyConfChange (groupID c) cc (raft n)).1) as -> by by rewrite Er.
    unfold agrees.
    destruct Heff as [[Ht He]|[[Ht He]|[[Ht He]|[Ht He]]]].
    + destruct (conf_add (groupID c) cc (raft n) Hnz Ht) as [-> ->]. solve_roles He Hv Hl.
    + destruct (conf_learner (groupID c) cc (raft n) Hnz Ht) as [-> ->]. solve_roles He Hv Hl.
    + destruct (conf_remove (groupID c) cc (raft n) Hnz Ht) as [-> ->]. solve_roles He Hv Hl.
    + destruct (conf_update (groupID c) cc (raft n) Ht) as [-> ->]. solve_roles He Hv Hl.
Qed.

(** An update can change a role in the cluster alone.  [UpdatePeer] takes the role from
    its argument without a check; when it differs from the peer's, the update succeeds, raft
    is not told, and the cluster counts as a voter what raft counts as a learner, or the
    other way round. *)
Lemma update_splits_roles cc req n p m :
  agrees (cluster n) (raft n) → Peers (store (cluster n)) = Some m →
  let attr := cr_RaftPeerAttr req in
  m !! PeerID attr = Some p → IsLearner attr = negb (IsLearner (RaftPeerAttr p)) →
  cc_NodeID cc = PeerID attr → cc_Type cc = ConfChangeUpdateNode →
  ∃ n' cs, processConfChange cc req n = Ret (n', (Some cs, false, None)) ∧ ¬ agrees (cluster n') (raft n').
Proof.
  intros [Hv Hl] Hm attr Hp Hrole Hid Ht. unfold processConfChange, clusterValidateAndApply. rewrite Ht.
  rewrite !decide_False, decide_True by (done || by intros []).
  unfold Update, Meth.bind, get_peer, put_peer, peers_of. rewrite Hm. simpl. fold attr. rewrite Hp, Hm.
  cbn [mbind go_bind cluster set_cluster raft].
  match goal with |- context [set_cluster ?c1 n] => set (c := c1) end.
  destruct (conf_result (groupID c) cc (raft n)) as (rn' & cs & Er & _).
  pose proof (conf_update (groupID c) cc (raft n) Ht) as [Hnv Hnl]. rewrite Er in Hnv, Hnl |- *. simpl in Hnv, Hnl.
  assert (with_role (IsLearner (RaftPeerAttr p)) (cluster n) (PeerID attr)) as Hold.
  { exists p. unfold peers_of. by rewrite Hm. }
  assert (with_role (IsLearner attr) c (PeerID attr)) as Hnew.
  { eexists. unfold peers_of. simpl. by rewrite lookup_insert_eq. }
  assert (¬ agrees c rn') as Hno.
  { intros [Hv' Hl']. rewrite Hrole in Hnew. destruct (IsLearner (RaftPeerAttr p)).
    - apply Hl in Hold. rewrite <- Hnl in Hold. apply Hl' in Hold. by pose proof (with_role_unique _ _ _ _ Hold Hnew).
    - apply Hv in Hold. rewrite <- Hnv in Hold. apply Hv' in Hold. by pose proof (with_role_unique _ _ _ _ Hold Hnew). }
  unfold process_trans. rewrite Ht. rewrite !decide_False by (done || by intros []). rewrite decide_True by done.
  do 2 eexists. split; [done|]. by case_decide.
Qed.
(** C7: when cluster and raft stay in agreement.  From a membership and a raft configuration that
    count the same voters and learners, a change the client interface can propose, accepted or
    refused, leads to ones that agree exactly when it is not an update that gives a member
    another role than it has; [UpdatePeer] proposes such updates as well. *)
Theorem change_keeps_agreement cc req n n' r :
  agrees (cluster n) (raft n) → proposed cc req → processConfChange cc req n = Ret (n', r) →
  (agrees (cluster n') (raft n') ↔ keeps_role (cluster n) cc req).
Proof.
  intros Ha Hp Hc. split; [|intros Hk; by eapply kept_agreement].
  intros Ha' Ht p Hpeer. destruct (decide (IsLearner (cr_RaftPeerAttr req) = IsLearner (RaftPeerAttr p))) as [|Hne]; [done|exfalso].
  unfold peers_of in Hpeer. destruct (Peers (store (cluster n))) as [m|] eqn:Em; [|done].
  destruct (update_splits_roles cc req n p m) as (n1 & cs & E & Hno); [done..| |by destruct Hp as [? _]|done|].
  - by destruct (IsLearner (cr_RaftPeerAttr req)), (IsLearner (RaftPeerAttr p)).
  - rewrite E in Hc. by simplify_eq.
Qed.
End Agreement.
