(* ===== verification/ApplyExamples.v ===== *)
(** * Concrete sessions, clusters and nodes

    Instances of the parameters of [Session.v] to [Membership.v], and the theorems of these
    files applied to them: a response serializer, a state machine that keeps its commands,
    a raft node that is its sets of voters and learners, and the coded messages. *)

From S2P Require Import Prelude Raftpb Coded Allocator Streams.
From S2P Require Import NoOpManager ExpiredManager LruManager.
From S2P Require Import Session Cluster Apply Exactly Replicas Membership.

(** ** Sessions *)

Module SessionExamples.
(** Responses are words. *)
Definition word_serializer : ResponseSerializer (list byte) Z :=
  {| Serialize r := FileWriteUint64 r; Deserialize := FileReadUint64 |}.

Definition word_lawful : LawfulSerializer word_serializer (fun r => is_u64 r).
Proof.
  refine {| enc_response := put_u64 |}.
  - intros r w out Hr ->. by eexists.
  - intros r rest Hr. by apply FileReadUint64_put.
Defined.

(** The levels of the default pool: 64 bytes to 16 megabytes. *)
Definition default_levels : list Z :=
  (fun k => 64 * 2 ^ Z.of_nat k) <$> seq 0 19.
Definition default_pool : ByteSlicePool :=
  {| pools := (fun s => {| levelSize := s; bag := [] |}) <$> default_levels; next_ptr := 0 |}.

Lemma default_pool_ok : pool_ok default_levels default_pool.
Proof. split; [done|]. repeat constructor. Qed.

Lemma default_serves_word : serves default_levels 8.
Proof. split; [lia|]. left. simpl. lia. Qed.

Definition demo_error : error := Errorf "no such key".
Definition demo_result : ApplyResult Z := {| LogIndex := 7; ar_Response := Some 42; ar_Error := None |}.
Definition demo_failed : ApplyResult Z := {| LogIndex := 8; ar_Response := Some 9; ar_Error := Some demo_error |}.
Definition demo_session : Session Z :=
  {| id := 3; lastActiveNanoseconds := 1000; s_result := {[1 := demo_result; 2 := demo_failed]} |}.

Lemma demo_session_wf : session_wf default_levels (fun r => is_u64 r) demo_session.
Proof.
  constructor; simpl; [lia..| |].
  - rewrite map_size_insert_None, map_size_singleton by done. lia.
  - apply map_Forall_insert_2; [|apply map_Forall_singleton]; (split; [lia|]); (split; [simpl; lia|]); simpl; [lia|].
    split; [|vm_compute; reflexivity]. split; [vm_compute; reflexivity|]. left. vm_compute. discriminate.
Qed.

(** What is read when the failed result is decoded. *)
Definition failed_bytes : list byte := enc_result word_serializer _ word_lawful demo_failed.

Lemma Unmarshal_releases_twice_witness :
  ∃ p', (∃ rest ar, Unmarshal (Some word_serializer) (default_pool, failed_bytes) = Ret ((p', rest), Ok ar)) ∧
    ∃ b l, pooled p' ≡ₚ b :: b :: l.
Proof.
  assert (result_wf default_levels (fun r => is_u64 r) demo_failed) as Hwf.
  { apply (sw_results _ _ _ demo_session_wf 2). done. }
  destruct (Unmarshal_reads default_levels word_serializer _ word_lawful default_serves_word demo_failed Hwf
    default_pool [] default_pool_ok) as (p' & Hread & _).
  rewrite app_nil_r in Hread. exists p'. split; [by eauto|].
  apply (Unmarshal_releases_twice (Some word_serializer) default_pool failed_bytes p' [] (kept demo_failed)
    (errors_New (Error_text demo_error)) Hread). reflexivity.
Defined.

Lemma empty_error_unreadable_witness :
  ∃ p' b msg, Marshal (Some word_serializer)
      {| LogIndex := 5; ar_Response := None; ar_Error := Some (Errorf "") |} (default_pool, []) = Ret ((p', b), Ok tt) ∧
    Unmarshal (Some word_serializer) (default_pool, b ++ []) = Panic msg.
Proof.
  apply (empty_error_unreadable word_serializer default_levels default_pool 5 (Errorf "") []);
    [exact default_serves_word|exact default_pool_ok|lia|reflexivity].
Defined.

Definition demo_expired : ExpiredManager (list byte) Z :=
  {| expiredTime := 100; e_sessions := {[3 := demo_session]}; e_arSerializer := Some word_serializer |}.

Lemma expired_snapshot_roundtrip_witness :
  ∃ b, writes default_levels (ExpiredManager.Snapshot demo_expired) b ∧
    reads default_levels (ExpiredManager.Restore demo_expired) b
      (ExpiredManager.set_sessions (kept_session <$> e_sessions demo_expired) demo_expired).
Proof.
  apply (expired_snapshot_roundtrip default_levels word_serializer _ word_lawful demo_expired demo_expired);
    [exact default_serves_word| |reflexivity..].
  split; [by apply map_Forall_singleton|]. split; [simpl; rewrite map_size_singleton; lia|].
  apply map_Forall_singleton, demo_session_wf.
Defined.

Definition demo_lru : LruManager (list byte) Z :=
  {| maxSessions := 2; l_sessions := {[3 := 0%nat]}; lru := [(0%nat, demo_session)]; next_elem := 1;
     l_arSerializer := Some word_serializer |}.

Lemma demo_lru_inv : lru_inv demo_lru.
Proof.
  constructor; simpl; [apply NoDup_singleton..| |repeat constructor].
  intros i p. rewrite lookup_singleton_Some. split.
  - intros [<- <-]. exists demo_session. split; [by left|done].
  - intros (s & [= -> ->]%list_elem_of_singleton & <-). done.
Qed.

Lemma lru_snapshot_roundtrip_witness :
  ∃ b m1, writes default_levels (LruManager.Snapshot demo_lru) b ∧
    reads default_levels (LruManager.Restore demo_lru) b m1 ∧
    lru_inv m1 ∧ recency m1 = kept_session <$> recency demo_lru.
Proof.
  apply (lru_snapshot_roundtrip default_levels word_serializer _ word_lawful demo_lru demo_lru);
    [exact default_serves_word|exact demo_lru_inv|simpl; lia| |reflexivity..].
  constructor; [exact demo_session_wf|constructor].
Defined.
End SessionExamples.

(** ** Clusters *)

#[export] Instance RaftPeerAttribute_countable : Countable RaftPeerAttribute.
Proof.
  refine (inj_countable' (λ a, (PeerID a, RaftListenAddr a, IsLearner a, StoreID a))
    (λ '(p, a, l, s), {| PeerID := p; RaftListenAddr := a; IsLearner := l; StoreID := s |}) _). by intros [].
Defined.
#[export] Instance Peer_countable : Countable Peer.
Proof.
  refine (inj_countable' (λ p, (RaftPeerAttr p, AppServiceAddresses p))
    (λ '(a, s), {| RaftPeerAttr := a; AppServiceAddresses := s |}) _). by intros [].
Defined.

Module ClusterExamples.
#[export] Instance coded_store : StoreCodec.
Proof.
  refine {| store_marshal s := bits (encode (peers_of s, removed_of s));
            store_unmarshal b :=
              '(p, r) ← (decode (unbits b) : option (gmap Z Peer * gmap Z bool));
              Some {| Peers := nil_if_empty p; RemovedIds := nil_if_empty r |} |}.
  intros s. by rewrite unbits_bits, decode_encode.
Defined.

Definition attr (i : Z) (addr : string) (learner : bool) : RaftPeerAttribute :=
  {| PeerID := i; RaftListenAddr := addr; IsLearner := learner; StoreID := 0 |}.
Definition peer (i : Z) (addr : string) (learner : bool) : Peer :=
  {| RaftPeerAttr := attr i addr learner; AppServiceAddresses := [] |}.

(** A voter, a learner and a removed peer. *)
Definition demo_cluster : Cluster :=
  {| clusterID := 1; groupID := 2; localPeerID := 1;
     store := {| Peers := Some {[1 := peer 1 "a" false; 2 := peer 2 "b" true]}; RemovedIds := Some {[9 := true]} |} |}.

Lemma demo_cluster_inv : cluster_inv demo_cluster.
Proof.
  constructor; simpl; [by eexists..| |].
  - unfold peers_of. simpl. apply map_Forall_insert_2; [done|]. by apply map_Forall_singleton.
  - intros i. unfold peers_of, removed_of. simpl. rewrite lookup_singleton_is_Some. by intros <-.
Qed.

Lemma demo_addr_unique : addr_unique demo_cluster.
Proof.
  unfold addr_unique, peers_of. simpl. intros i j p q. rewrite !lookup_insert_Some, !lookup_singleton_Some.
  intros [[<- <-]|[_ [<- <-]]] [[<- <-]|[_ [<- <-]]]; done.
Qed.

Lemma removed_stays_removed_witness :
  ∃ c', apply_changes [CAdd (attr 9 "c" false); CRemove 2; CUpdate (attr 1 "d" false)] demo_cluster = Ret c' ∧
    cluster_inv c' ∧
    ∀ i, is_Some (removed_of (store demo_cluster) !! i) →
      is_Some (removed_of (store c') !! i) ∧ peers_of (store c') !! i = None.
Proof. apply removed_stays_removed. exact demo_cluster_inv. Defined.

Lemma addresses_stay_unique_witness :
  ∃ c', apply_changes [CAdd (attr 3 "a" false); CAdd (attr 3 "c" false)] demo_cluster = Ret c' ∧ addr_unique c'.
Proof.
  destruct (apply_changes [CAdd (attr 3 "a" false); CAdd (attr 3 "c" false)] demo_cluster) as [c'|] eqn:E.
  - exists c'. split; [reflexivity|].
    apply (addresses_stay_unique demo_cluster [CAdd (attr 3 "a" false); CAdd (attr 3 "c" false)] c');
      [exact demo_addr_unique|repeat constructor|exact E].
  - vm_compute in E. discriminate E.
Defined.

Lemma update_shares_address_witness :
  ∃ c', Update 2 {| PeerID := 2; RaftListenAddr := "a"; IsLearner := true; StoreID := 0 |} demo_cluster = Ret (c', Ok tt) ∧
    ¬ addr_unique c'.
Proof.
  apply (update_shares_address demo_cluster 1 2 (peer 1 "a" false) (peer 2 "b" true));
    [exact demo_cluster_inv|lia|reflexivity..].
Defined.

Lemma demo_store_bytes : store_marshal (store demo_cluster) ≠ [] ∧
  Z.of_nat (length (store_marshal (store demo_cluster))) < 2 ^ 64.
Proof. vm_compute. split; [discriminate|reflexivity]. Qed.

Lemma cluster_snapshot_roundtrip_witness :
  ∃ b c1, Snapshot demo_cluster [] = Ret (b, Ok tt) ∧
    Restore (length (store_marshal (store demo_cluster))) (NewCluster, b ++ []) = Ret ((c1, []), Ok tt) ∧
    clusterID c1 = 1 ∧ groupID c1 = 2 ∧ localPeerID c1 = 0 ∧
    peers_of (store c1) = peers_of (store demo_cluster) ∧ removed_of (store c1) = removed_of (store demo_cluster) ∧
    is_Some (RemovedIds (store c1)) ∧ (is_Some (Peers (store c1)) ↔ peers_of (store demo_cluster) ≠ ∅).
Proof.
  apply (cluster_snapshot_roundtrip demo_cluster NewCluster (length (store_marshal (store demo_cluster))) []).
  - simpl. lia.
  - simpl. lia.
  - split; [apply Nat2Z.is_nonneg|apply demo_store_bytes].
  - reflexivity.
  - rewrite app_nil_r. apply demo_store_bytes.
Defined.

Lemma truncated_restore_succeeds_witness :
  ∃ c1, Restore 1024 (NewCluster, take 32 (snapshot_bytes demo_cluster)) = Ret ((c1, []), Ok tt) ∧
    clusterID c1 = 1 ∧ store c1 = store NewCluster.
Proof.
  apply (truncated_restore_succeeds demo_cluster NewCluster 1024).
  - simpl. lia.
  - simpl. lia.
  - split; [apply Nat2Z.is_nonneg|apply demo_store_bytes].
  - apply demo_store_bytes.
Defined.
End ClusterExamples.

(** ** Nodes *)

#[export] Instance RequestContext_eq_dec : EqDecision RequestContext.
Proof. solve_decision. Defined.
#[export] Instance RequestContext_countable : Countable RequestContext.
Proof.
  refine (inj_countable' (λ x, (ReplyID x, SessionID x, SequenceNum x, LowestSeqNumNotYetReplied x))
    (λ '(a, b, c, d), {| ReplyID := a; SessionID := b; SequenceNum := c; LowestSeqNumNotYetReplied := d |}) _).
  by intros [].
Defined.
#[export] Instance RegisterSessionRequest_eq_dec : EqDecision RegisterSessionRequest.
Proof. solve_decision. Defined.
#[export] Instance RegisterSessionRequest_countable : Countable RegisterSessionRequest.
Proof.
  refine (inj_countable' (λ x, (Unregister x, rs_SessionID x))
    (λ '(a, b), {| Unregister := a; rs_SessionID := b |}) _).
  by intros [].
Defined.
#[export] Instance PubAppServiceRequest_eq_dec : EqDecision PubAppServiceRequest.
Proof. solve_decision. Defined.
#[export] Instance PubAppServiceRequest_countable : Countable PubAppServiceRequest.
Proof.
  refine (inj_countable' (λ x, (PubServicePeerID x, pas_Addresses x))
    (λ '(a, b), {| PubServicePeerID := a; pas_Addresses := b |}) _).
  by intros [].
Defined.
#[export] Instance NormalRequest_eq_dec : EqDecision NormalRequest.
Proof. solve_decision. Defined.
#[export] Instance NormalRequest_countable : Countable NormalRequest.
Proof.
  refine (inj_countable' (λ x, (Context_ x, Register_ x, PubAppService x, StateMachineLog x))
    (λ '(a, b, c, d), {| Context_ := a; Register_ := b; PubAppService := c; StateMachineLog := d |}) _).
  by intros [].
Defined.
#[export] Instance ConfChangeRequest_eq_dec : EqDecision ConfChangeRequest.
Proof. solve_decision. Defined.
#[export] Instance ConfChangeRequest_countable : Countable ConfChangeRequest.
Proof.
  refine (inj_countable' (λ x, (cr_Context x, cr_GroupID x, cr_RaftPeerAttr x, PromoteLearner x))
    (λ '(a, b, c, d), {| cr_Context := a; cr_GroupID := b; cr_RaftPeerAttr := c; PromoteLearner := d |}) _).
  by intros [].
Defined.
#[export] Instance ConfChange_eq_dec : EqDecision ConfChange.
Proof. solve_decision. Defined.
#[export] Instance ConfChange_countable : Countable ConfChange.
Proof.
  refine (inj_countable' (λ x, (cc_Type x, cc_NodeID x, cc_Context x))
    (λ '(a, b, c), {| cc_Type := a; cc_NodeID := b; cc_Context := c |}) _).
  by intros [].
Defined.

Module NodeExamples.
Import ClusterExamples LruTimeless.

#[export] Instance NormalRequest_message : Message NormalRequest := coded NormalRequest.
#[export] Instance ConfChange_message : Message ConfChange := coded ConfChange.
#[export] Instance ConfChangeRequest_message : Message ConfChangeRequest := coded ConfChangeRequest.

(** The state machine keeps its commands and answers with their number. *)
#[export] Instance log_machine : StateMachine nat (list (list byte)) := fun term index command s =>
  (s ++ [command], {| LogIndex := index; ar_Response := Some (AppResponse (length s)); ar_Error := None |}).

(** A state machine that answers with nothing. *)
Inductive Silent := silent (commands : nat).
#[export] Instance silent_machine : StateMachine nat Silent := fun term index command '(silent k) =>
  (silent (S k), noResult).

(** Raft is its voters and learners. *)
Definition RaftSets : Type := gset Z * gset Z.
#[export] Instance raft_sets : RaftNode RaftSets := fun _ cc '(v, l) =>
  let i := cc_NodeID cc in
  let '(v', l') :=
    if decide (i = raft_None) then (v, l)
    else if decide (cc_Type cc = ConfChangeAddNode) then ({[i]} ∪ v, l ∖ {[i]})
    else if decide (cc_Type cc = ConfChangeAddLearnerNode) then (v ∖ {[i]}, {[i]} ∪ l)
    else if decide (cc_Type cc = ConfChangeRemoveNode) then (v ∖ {[i]}, l ∖ {[i]})
    else (v, l) in
  ((v', l'), Ok {| cs_voters := elements v'; cs_learners := elements l' |}).

#[export] Instance raft_sets_conf : RaftConf RaftSets.
Proof.
  refine {| rn_voters := fst; rn_learners := snd |}; unfold rn_ApplyConfChange, raft_sets.
  - intros g cc [v l]. repeat case_decide; do 2 eexists; (split; [done|]); simpl; by rewrite !list_to_set_elements_L.
  - intros g cc [v l] ->. by rewrite decide_True.
  - intros g cc [v l] Hn Ht. by rewrite decide_False, decide_True.
  - intros g cc [v l] Hn Ht. by rewrite Ht, decide_False.
  - intros g cc [v l] Hn Ht. by rewrite Ht, decide_False.
  - intros g cc [v l] Ht. rewrite Ht. by case_decide.
Defined.

Definition still (_ : nat) : Z := 1000.
Definition memory : BasedStateMachineInfo := {| openAppliedIndex := 0; diskType := false |}.
Definition reopened : BasedStateMachineInfo := {| openAppliedIndex := 10; diskType := true |}.

Definition command (reply sid seq lowest : Z) (c : list byte) : NormalRequest :=
  {| Context_ := {| ReplyID := reply; SessionID := sid; SequenceNum := seq; LowestSeqNumNotYetReplied := lowest |};
     Register_ := None; PubAppService := None; StateMachineLog := c |}.
Definition registration (reply : Z) : NormalRequest :=
  {| Context_ := {| ReplyID := reply; SessionID := 0; SequenceNum := 0; LowestSeqNumNotYetReplied := 0 |};
     Register_ := Some {| Unregister := false; rs_SessionID := 0 |}; PubAppService := None; StateMachineLog := [] |}.
Definition normal (index : Z) (req : NormalRequest) : Entry :=
  {| e_term := 1; e_index := index; e_type := EntryNormal; e_data := marshal req |}.

Definition add_request (sid : Z) : ConfChangeRequest :=
  {| cr_Context := {| ReplyID := 5; SessionID := sid; SequenceNum := 1; LowestSeqNumNotYetReplied := 1 |};
     cr_GroupID := 2; cr_RaftPeerAttr := attr 4 "d" false; PromoteLearner := false |}.
Definition add_change (sid : Z) : ConfChange :=
  {| cc_Type := ConfChangeAddNode; cc_NodeID := 4; cc_Context := marshal (add_request sid) |}.
Definition conf_entry (index sid : Z) : Entry :=
  {| e_term := 1; e_index := index; e_type := EntryConfChange; e_data := marshal (add_change sid) |}.

Definition node {M SM : Type} (m : M) (s : SM) : Node nat M SM RaftSets :=
  {| sessions := m; cluster := demo_cluster; machine := s; raft := ({[1]}, {[2]});
     status := {| appliedIndex := 0; appliedTerm := 0; st_confState := emptyConfState |};
     ticks := 0; commands := []; replies := []; trans := []; events := []; resets := 0; completed := [] |}.

(** An expiring manager with session 3. *)
Definition with_session (results : gmap Z (ApplyResult (response nat))) : ExpiredManager (list byte) (response nat) :=
  {| expiredTime := 500; e_sessions := {[3 := {| id := 3; lastActiveNanoseconds := 900; s_result := results |}]};
     e_arSerializer := None |}.
Definition no_sessions : ExpiredManager (list byte) (response nat) := NewExpiredManager 500.

Lemma with_session_keyed results : keyed (e_sessions (with_session results)).
Proof. by apply map_Forall_singleton. Qed.

Lemma normal_command bsm index reply sid seq lowest c :
  openAppliedIndex bsm < index →
  is_command bsm (normal index (command reply sid seq lowest c)) (command reply sid seq lowest c).
Proof.
  intros Hi. constructor; [|done| |done|done].
  - intros Hd. apply (f_equal (unmarshal (T := NormalRequest))) in Hd. unfold normal in Hd. cbn [e_data] in Hd.
    rewrite unmarshal_marshal in Hd. vm_compute in Hd. discriminate Hd.
  - apply unmarshal_marshal.
Qed.

(** The value of a run that returns. *)
Definition after {A} (d : A) (x : go A) : A := match x with Ret a => a | Panic _ => d end.
Definition node0 := node (with_session ∅) ([] : list (list byte)).
Definition cmd1 := normal 10 (command 1 3 7 7 [Byte.x41]).
Definition cmd2 := normal 12 (command 2 3 7 7 [Byte.x41]).
Definition between : list step := [Norm (normal 11 (registration 9)); Conf (conf_entry 13 3)].
Definition node1 := after node0 (run_step still memory (Norm cmd1) node0).
Definition node2 := after node0 (run still memory between node1).

Lemma at_most_once_witness :
  run_step still memory (Norm cmd1) node0 = Ret node1 ∧ run still memory between node1 = Ret node2 ∧
  ∃ n3 ar ar', run_step still memory (Norm cmd2) node2 = Ret n3 ∧ commands n3 = commands node2 ∧
    machine n3 = machine node2 ∧ replies node1 = replies node0 ++ [(1, ar)] ∧
    replies n3 = replies node2 ++ [(2, ar')] ∧
    (ar' = ar ∨ ∃ err, ar' = {| LogIndex := 12; ar_Response := None; ar_Error := Some err |}).
Proof.
  assert (run_step still memory (Norm cmd1) node0 = Ret node1) as H1 by (vm_compute; reflexivity).
  assert (run still memory between node1 = Ret node2) as H2 by (vm_compute; reflexivity).
  split; [exact H1|]. split; [exact H2|].
  apply (at_most_once still memory cmd1 (command 1 3 7 7 [Byte.x41]) cmd2 (command 2 3 7 7 [Byte.x41]) between
    node0 node1 node2).
  - intros t i c s. unfold IsEmpty. simpl. by rewrite andb_false_r.
  - exact (with_session_keyed ∅).
  - apply normal_command. simpl. lia.
  - apply normal_command. simpl. lia.
  - simpl. unfold NoOPSessionID. lia.
  - reflexivity.
  - reflexivity.
  - exact H1.
  - vm_compute. discriminate.
  - constructor; [|constructor; [|constructor]]; (split; [simpl; lia|]); intros ctx Hctx Hsid;
      vm_compute in Hctx; injection Hctx as <-; vm_compute in Hsid |- *; discriminate.
  - exact H2.
Defined.

Lemma new_command_executed_witness :
  ∃ n' ar, run_step still memory (Norm cmd1) node0 = Ret n' ∧ commands n' = commands node0 ++ [10] ∧
    (machine n', ar) = sm_Apply 1 10 [Byte.x41] (machine node0) ∧
    replies n' = replies node0 ++ [(1, ar)] ∧ remembers 3 7 ar (sessions n').
Proof.
  apply (new_command_executed still memory cmd1 (command 1 3 7 7 [Byte.x41]) node0
    {| id := 3; lastActiveNanoseconds := 900; s_result := ∅ |}).
  - exact (with_session_keyed ∅).
  - apply normal_command. simpl. lia.
  - simpl. unfold NoOPSessionID. lia.
  - vm_compute. reflexivity.
  - reflexivity.
Defined.

Definition silent_node := node (with_session {[7 := noResult]}) (silent 1).

Lemma empty_result_panics_witness :
  ∃ msg, run_step still memory (Norm cmd1) silent_node = Panic msg.
Proof.
  apply (empty_result_panics still memory cmd1 (command 1 3 7 7 [Byte.x41]) silent_node
    {| id := 3; lastActiveNanoseconds := 900; s_result := {[7 := noResult]} |} noResult).
  - exact (with_session_keyed {[7 := noResult]}).
  - apply normal_command. simpl. lia.
  - simpl. unfold NoOPSessionID. lia.
  - vm_compute. reflexivity.
  - reflexivity.
  - reflexivity.
  - simpl. lia.
Defined.

(** Two replicas with an LRU manager, one of which registered its session later. *)
Definition lru_node (t : Z) : Node nat (LruManager (list byte) (response nat)) (list (list byte)) RaftSets :=
  node (LruManager.Register 3 t (NewLruManager 2)).1 [].

Lemma replicas_agree_witness :
  go_rel (node_same no_past) (run still memory [Norm cmd1; Norm cmd2] (lru_node 0))
    (run (fun k => Z.of_nat k) memory [Norm cmd1; Norm cmd2] (lru_node 77)).
Proof.
  apply (replicas_agree still (fun k => Z.of_nat k) memory [Norm cmd1; Norm cmd2] (lru_node 0) (lru_node 77)).
  constructor; try reflexivity. constructor; try reflexivity. constructor; [|constructor]. split; [reflexivity|].
  split; reflexivity.
Defined.

Lemma expiry_splits_replicas_witness :
  ∃ n1 n2, run_step still memory (Norm cmd1) node0 = Ret n1 ∧
    run_step (fun _ => 1400) memory (Norm cmd1) node0 = Ret n2 ∧
    commands n1 = commands node0 ++ [10] ∧ commands n2 = commands node0 ∧ machine n2 = machine node0 ∧
    machine n1 = (sm_Apply 1 10 [Byte.x41] (machine node0)).1.
Proof.
  apply (expiry_splits_replicas memory still (fun _ => 1400) cmd1 (command 1 3 7 7 [Byte.x41]) node0
    {| id := 3; lastActiveNanoseconds := 900; s_result := ∅ |}).
  - exact (with_session_keyed ∅).
  - apply normal_command. simpl. lia.
  - simpl. unfold NoOPSessionID. lia.
  - reflexivity.
  - reflexivity.
  - unfold expired. vm_compute. intros Hle. apply Hle. reflexivity.
  - unfold expired. vm_compute. discriminate.
Defined.

Definition empty_node := node no_sessions ([] : list (list byte)).

Lemma no_sessions_keyed : keyed (e_sessions no_sessions).
Proof. apply map_Forall_empty. Qed.

Lemma registration_entry index reply : is_register (normal index (registration reply)) (registration reply).
Proof.
  constructor; [|done| |by eexists].
  - intros Hd. apply (f_equal (unmarshal (T := NormalRequest))) in Hd. unfold normal in Hd. cbn [e_data] in Hd.
    rewrite unmarshal_marshal in Hd. vm_compute in Hd. discriminate Hd.
  - apply unmarshal_marshal.
Qed.

Lemma reopen_loses_sessions_witness :
  ∃ n1 n2, run still memory [Norm (normal 10 (registration 9)); Norm (normal 12 (command 2 10 1 1 [Byte.x41]))] empty_node = Ret n1 ∧
    run still reopened [Norm (normal 10 (registration 9)); Norm (normal 12 (command 2 10 1 1 [Byte.x41]))] empty_node = Ret n2 ∧
    commands n1 = commands empty_node ++ [12] ∧ commands n2 = commands empty_node ∧
    machine n2 = machine empty_node.
Proof.
  apply (reopen_loses_sessions still memory reopened (normal 10 (registration 9)) (registration 9)
    (normal 12 (command 2 10 1 1 [Byte.x41])) (command 2 10 1 1 [Byte.x41]) empty_node).
  - apply registration_entry.
  - simpl. lia.
  - simpl. lia.
  - apply normal_command. simpl. lia.
  - apply normal_command. simpl. lia.
  - reflexivity.
  - simpl. lia.
  - exact no_sessions_keyed.
  - reflexivity.
  - reflexivity.
  - vm_compute. reflexivity.
Defined.

(** The cluster and raft once peer 4 has joined. *)
Definition joined : Cluster := (after (NewCluster, Ok tt) (Add (attr 4 "d" false) demo_cluster)).1.

Lemma parse_add index sid : parseConfChangeEntry (conf_entry index sid) = Ok (add_change sid, add_request sid).
Proof.
  unfold parseConfChangeEntry, conf_entry. cbn [e_data]. rewrite unmarshal_marshal. cbn [add_change cc_Context].
  by rewrite unmarshal_marshal.
Qed.

Lemma change_overtakes_session_witness :
  ∃ n1 n2, run still memory [Norm (normal 10 (registration 9)); Conf (conf_entry 11 10)] empty_node = Ret n1 ∧
    run still memory [Conf (conf_entry 11 10); Norm (normal 10 (registration 9))] empty_node = Ret n2 ∧
    cluster n1 = joined ∧ raft n1 = ({[4]} ∪ {[1]}, {[2]} ∖ {[4]}) ∧
    cluster n2 = cluster empty_node ∧ raft n2 = raft empty_node.
Proof.
  apply (change_overtakes_session still memory (normal 10 (registration 9)) (registration 9) (conf_entry 11 10)
    (add_change 10) (add_request 10) empty_node joined ({[4]} ∪ {[1]}, {[2]} ∖ {[4]})
    {| cs_voters := elements (({[4]} ∪ {[1]}) : gset Z); cs_learners := elements (({[2]} ∖ {[4]}) : gset Z) |}).
  - apply registration_entry.
  - simpl. lia.
  - simpl. lia.
  - reflexivity.
  - apply parse_add.
  - reflexivity.
  - exact no_sessions_keyed.
  - reflexivity.
  - vm_compute. reflexivity.
  - reflexivity.
  - vm_compute. reflexivity.
Defined.

(** ** Roles *)

Lemma demo_agrees {M SM} (m : M) (s : SM) : agrees (cluster (node m s)) (raft (node m s)).
Proof.
  unfold agrees, with_role, peers_of. simpl. split; intros i; rewrite elem_of_singleton; split.
  - intros ->. by exists (peer 1 "a" false).
  - intros (p & [[<- <-]|[_ [<- <-]%lookup_singleton_Some]]%lookup_insert_Some & Hp); done.
  - intros ->. by exists (peer 2 "b" true).
  - intros (p & [[<- <-]|[_ [<- <-]%lookup_singleton_Some]]%lookup_insert_Some & Hp); done.
Qed.

Definition demote_request : ConfChangeRequest :=
  {| cr_Context := {| ReplyID := 5; SessionID := 0; SequenceNum := 0; LowestSeqNumNotYetReplied := 0 |};
     cr_GroupID := 2; cr_RaftPeerAttr := attr 2 "b" false; PromoteLearner := false |}.
Definition update_change : ConfChange := {| cc_Type := ConfChangeUpdateNode; cc_NodeID := 2; cc_Context := [] |}.

(** A voter is added, and a learner is updated to a voter. *)
Lemma change_keeps_agreement_witness :
  (∃ n' r, processConfChange (add_change 0) (add_request 0) empty_node = Ret (n', r) ∧ agrees (cluster n') (raft n')) ∧
  (∃ n' r, processConfChange update_change demote_request empty_node = Ret (n', r) ∧ ¬ agrees (cluster n') (raft n')).
Proof.
  split.
  - destruct (processConfChange (add_change 0) (add_request 0) empty_node) as [[n' r]|] eqn:E.
    + exists n', r. split; [reflexivity|].
      apply (change_keeps_agreement (add_change 0) (add_request 0) empty_node n' r).
      * apply demo_agrees.
      * split; [reflexivity|]. split; [simpl; unfold raft_None; lia|]. left. split; reflexivity.
      * exact E.
      * intros Ht. discriminate Ht.
    + vm_compute in E. discriminate E.
  - destruct (processConfChange update_change demote_request empty_node) as [[n' r]|] eqn:E.
    + exists n', r. split; [reflexivity|]. intros Ha.
      apply (change_keeps_agreement update_change demote_request empty_node n' r) in Ha.
      * specialize (Ha eq_refl (peer 2 "b" true) eq_refl). discriminate Ha.
      * apply demo_agrees.
      * split; [reflexivity|]. split; [simpl; unfold raft_None; lia|]. right. right. right. reflexivity.
      * exact E.
    + vm_compute in E. discriminate E.
Defined.
End NodeExamples.
