(* ===== verification/SwapQueue.v ===== *)
(** * The double-buffered queue: [pkg/utility/queue/swap_queue.go]

    Producers fill one buffer while the consumer works on the other; [Get] swaps them and
    hands out a slice of the filled one, and the next [Get] waits for its release.  The
    slice shares the buffer's memory, so the model keeps the two buffers and a slice is a
    buffer and a length.  The theorem shows that the queue is a queue, and that nothing is
    written into a slice before it is released. *)

From S2P Require Import Prelude.

Definition ErrQueueDisposed : error := Sentinel "ErrQueueDisposed".
Definition ErrBufferInUse : error := Sentinel "ErrBufferInUse".
Definition ErrBufferFull : error := Sentinel "ErrBufferFull".

Section SwapQueue.
Context {T : Type}.

(** [isTargetA] also tells which buffer [writeBuf] is. *)
Record SwapBufferQueue := {
  bufferA : list T;
  bufferB : list T;
  writeToA : bool;          (* [writeBuf] is [bufferA] *)
  q_size : Z;
  tail : Z;
  isTargetA : bool;
  stopped : bool;
  bufferInUse : bool;
  releases : list (list T)  (* the slices given to [onRelease] *)
}.

(** [BufferSlice]: [Data] is the first [bs_len] elements of a buffer, nil when there is
    none. *)
Record BufferSlice := { bs_data : option (bool * Z); released : bool }.

Definition slice_data (q : SwapBufferQueue) (bs : BufferSlice) : list T :=
  match bs_data bs with
  | Some (true, n) => take (Z.to_nat n) (bufferA q)
  | Some (false, n) => take (Z.to_nat n) (bufferB q)
  | None => []
  end.

Definition NewSwapBufferQueue (zero : T) (size : Z) : SwapBufferQueue :=
  {| bufferA := replicate (Z.to_nat size) zero; bufferB := replicate (Z.to_nat size) zero; writeToA := true;
     q_size := size; tail := 0; isTargetA := true; stopped := false; bufferInUse := false; releases := [] |}.

Definition Dispose (q : SwapBufferQueue) : SwapBufferQueue :=
  {| bufferA := bufferA q; bufferB := bufferB q; writeToA := writeToA q; q_size := q_size q; tail := tail q;
     isTargetA := isTargetA q; stopped := true; bufferInUse := bufferInUse q; releases := releases q |}.
Definition Disposed (q : SwapBufferQueue) : bool := stopped q.
Definition Len (q : SwapBufferQueue) : Z := tail q.

Definition Put (element : T) (q : SwapBufferQueue) : go (SwapBufferQueue * option error) :=
  if stopped q then Ret (q, Some ErrQueueDisposed)
  else if decide (tail q = q_size q) then Ret (q, Some ErrBufferFull)
  else
    let buf := if writeToA q then bufferA q else bufferB q in
    if decide (Z.to_nat (tail q) < length buf)%nat then
      let buf := <[Z.to_nat (tail q) := element]> buf in
      Ret ({| bufferA := if writeToA q then buf else bufferA q; bufferB := if writeToA q then bufferB q else buf;
              writeToA := writeToA q; q_size := q_size q; tail := u64 (tail q + 1); isTargetA := isTargetA q;
              stopped := stopped q; bufferInUse := bufferInUse q; releases := releases q |}, None)
    else Panic "runtime error: index out of range".

(** The slice of the buffer filled so far; writing goes on in the other one. *)
Definition swapBuffer (q : SwapBufferQueue) : SwapBufferQueue * (bool * Z) :=
  ({| bufferA := bufferA q; bufferB := bufferB q; writeToA := negb (isTargetA q); q_size := q_size q; tail := 0;
      isTargetA := negb (isTargetA q); stopped := stopped q; bufferInUse := bufferInUse q; releases := releases q |},
   (isTargetA q, tail q)).

Definition no_slice : BufferSlice := {| bs_data := None; released := false |}.

Definition Get (q : SwapBufferQueue) : SwapBufferQueue * BufferSlice * option error :=
  if stopped q then (q, no_slice, Some ErrQueueDisposed)
  else if bufferInUse q then (q, no_slice, Some ErrBufferInUse)
  else if decide (tail q = 0) then (q, no_slice, None)
  else
    let '(q', data) := swapBuffer q in
    ({| bufferA := bufferA q'; bufferB := bufferB q'; writeToA := writeToA q'; q_size := q_size q'; tail := tail q';
        isTargetA := isTargetA q'; stopped := stopped q'; bufferInUse := true; releases := releases q' |},
     {| bs_data := Some data; released := false |}, None).

Definition Release (bs : BufferSlice) (q : SwapBufferQueue) : SwapBufferQueue * BufferSlice :=
  match bs_data bs with
  | None => (q, bs)
  | Some _ =>
      if released bs then (q, bs)
      else ({| bufferA := bufferA q; bufferB := bufferB q; writeToA := writeToA q; q_size := q_size q; tail := tail q;
               isTargetA := isTargetA q; stopped := stopped q; bufferInUse := false;
               releases := releases q ++ [slice_data q bs] |},
            {| bs_data := bs_data bs; released := true |})
  end.
End SwapQueue.
Arguments SwapBufferQueue : clear implicits.

(** ** The queue it stands for *)

(** A queue of elements waiting and the slice the consumer works on. *)
Record spec {T : Type} := { waiting : list T; held : option (list T); closed : bool }.
Arguments spec : clear implicits.

Inductive op {T : Type} := OPut (x : T) | OGet | ORelease | ODispose.
Arguments op : clear implicits.

(** What an operation answers: an error, or the elements handed out. *)
Definition answer (T : Type) : Type := option error * list T.

Definition spec_step {T} (size : Z) (o : op T) (s : spec T) : spec T * answer T :=
  match o with
  | OPut x =>
      if closed s then (s, (Some ErrQueueDisposed, []))
      else if decide (Z.of_nat (length (waiting s)) = size) then (s, (Some ErrBufferFull, []))
      else ({| waiting := waiting s ++ [x]; held := held s; closed := closed s |}, (None, []))
  | OGet =>
      if closed s then (s, (Some ErrQueueDisposed, []))
      else match held s with
           | Some _ => (s, (Some ErrBufferInUse, []))
           | None =>
               if decide (waiting s = []) then (s, (None, []))
               else ({| waiting := []; held := Some (waiting s); closed := closed s |}, (None, waiting s))
           end
  | ORelease => ({| waiting := waiting s; held := None; closed := closed s |}, (None, default [] (held s)))
  | ODispose => ({| waiting := waiting s; held := held s; closed := true |}, (None, []))
  end.

(** The queue with the consumer's latest slice; releasing reads it first. *)
Definition impl_step {T} (o : op T) (st : SwapBufferQueue T * BufferSlice) : go (SwapBufferQueue T * BufferSlice * answer T) :=
  let '(q, bs) := st in
  match o with
  | OPut x => '(q', e) ← Put x q; Ret (q', bs, (e, []))
  | OGet =>
      let '(q', bs', e) := Get q in
      Ret (q', match bs_data bs' with Some _ => bs' | None => bs end, (e, slice_data q' bs'))
  | ORelease =>
      let '(q', bs') := Release bs q in
      Ret (q', bs', (None, if released bs then [] else slice_data q bs))
  | ODispose => Ret (Dispose q, bs, (None, []))
  end.

Fixpoint impl_run {T} (os : list (op T)) (st : SwapBufferQueue T * BufferSlice) : go (list (answer T)) :=
  match os with
  | [] => Ret []
  | o :: os => '(q, bs, a) ← impl_step o st; xs ← impl_run os (q, bs); Ret (a :: xs)
  end.

Fixpoint spec_run {T} (size : Z) (os : list (op T)) (s : spec T) : list (answer T) :=
  match os with
  | [] => []
  | o :: os => let '(s', a) := spec_step size o s in a :: spec_run size os s'
  end.

(** The buffer being written holds the waiting elements, and the other one the slice the
    consumer has not released. *)
Record represents {T} (size : Z) (q : SwapBufferQueue T) (bs : BufferSlice) (s : spec T) : Prop := {
  r_size : q_size q = size ∧ is_u64 size;
  r_a : Z.of_nat (length (bufferA q)) = size;
  r_b : Z.of_nat (length (bufferB q)) = size;
  r_target : writeToA q = isTargetA q;
  r_tail : 0 <= tail q <= size;
  r_waiting : waiting s = take (Z.to_nat (tail q)) (if isTargetA q then bufferA q else bufferB q);
  r_stopped : stopped q = closed s;
  r_held : match held s with
           | None => bufferInUse q = false ∧ (bs_data bs = None ∨ released bs = true)
           | Some l => bufferInUse q = true ∧ released bs = false ∧ slice_data q bs = l ∧
                       ∃ n, bs_data bs = Some (negb (isTargetA q), n)
           end
}.

Section Refinement.
Context {T : Type}.
Implicit Types (q : SwapBufferQueue T) (s : spec T).

Lemma take_insert_next (l : list T) (n : nat) x :
  (n < length l)%nat → take (S n) (<[n := x]> l) = take n l ++ [x].
Proof.
  intros Hn. rewrite (take_S_r _ _ x) by (by apply list_lookup_insert_eq). by rewrite take_insert_ge.
Qed.

Lemma put_refines size q bs s x : represents size q bs s →
  ∃ q' e, Put x q = Ret (q', e) ∧ (e, []) = (spec_step size (OPut x) s).2 ∧
    represents size q' bs (spec_step size (OPut x) s).1.
Proof.
  intros Hr. pose proof Hr as [[Hsz Hu] Ha Hb Ht Htl Hw Hs Hh]. unfold Put. simpl. rewrite Hs.
  destruct (closed s) eqn:Ec; [do 2 eexists; by split_and!|].
  assert (length (if isTargetA q then bufferA q else bufferB q) = Z.to_nat size) as Hlen
    by (destruct (isTargetA q); lia).
  assert (Z.of_nat (length (waiting s)) = tail q) as Hwl by (rewrite Hw, length_take; lia).
  rewrite Hwl, Hsz. case_decide as Hd; [do 2 eexists; by split_and!|].
  rewrite Ht, decide_True by (rewrite Hlen; lia). do 2 eexists. split_and!; [done..|].
  rewrite u64_small by lia.
  constructor; simpl; [done|..|done|].
  - destruct (isTargetA q); [rewrite length_insert|]; done.
  - destruct (isTargetA q); [|rewrite length_insert]; done.
  - done.
  - lia.
  - replace (Z.to_nat (tail q + 1)) with (S (Z.to_nat (tail q))) by lia. rewrite Hw.
    destruct (isTargetA q); rewrite take_insert_next; try done; rewrite Hlen; lia.
  - destruct (held s) as [l|]; [|done]. destruct Hh as (? & ? & <- & n & Hn). split_and!; [done..| |by eexists].
    unfold slice_data. rewrite Hn. simpl. by destruct (isTargetA q).
Qed.

Lemma get_refines size q bs s : represents size q bs s →
  let '(q', bs', e) := Get q in
  let bs' := match bs_data bs' with Some _ => bs' | None => bs end in
  (e, slice_data q' (Get q).1.2) = (spec_step size OGet s).2 ∧ represents size q' bs' (spec_step size OGet s).1.
Proof.
  intros Hr. pose proof Hr as [[Hsz Hu] Ha Hb Ht Htl Hw Hs Hh]. unfold Get. simpl. rewrite Hs.
  destruct (closed s) eqn:Ec; [done|]. destruct (held s) as [l|] eqn:Eh.
  - destruct Hh as (-> & _). done.
  - destruct Hh as [-> Hrel].
    assert (waiting s = [] ↔ tail q = 0) as Hemp.
    { rewrite Hw. rewrite <- length_zero_iff_nil, length_take. destruct (isTargetA q); lia. }
    case_decide as Hz.
    + rewrite decide_True by (by apply Hemp). done.
    + rewrite decide_False by (by rewrite Hemp). simpl. split.
      * f_equal. rewrite Hw. unfold slice_data. simpl. by destruct (isTargetA q).
      * constructor; simpl; [done..|lia| |congruence|].
        -- by rewrite take_0.
        -- split_and!; [done..| |]; [|rewrite negb_involutive; by eexists].
           rewrite Hw. unfold slice_data. simpl. by destruct (isTargetA q).
Qed.

Lemma release_refines size q bs s : represents size q bs s →
  let '(q', bs') := Release bs q in
  (if released bs then [] else slice_data q bs) = default [] (held s) ∧
  represents size q' bs' (spec_step size ORelease s).1.
Proof.
  intros Hr. pose proof Hr as [[Hsz Hu] Ha Hb Ht Htl Hw Hs Hh]. unfold Release.
  destruct (held s) as [l|] eqn:Eh; simpl.
  - destruct Hh as (Hin & -> & Hl & n & Hn). rewrite Hn. split; [done|]. constructor; simpl; try done. split; [done|by right].
  - destruct Hh as [Hin Hrel]. destruct (bs_data bs) as [d|] eqn:Ed.
    + destruct Hrel as [|Hrel]; [done|]. rewrite Hrel. split; [done|]. constructor; simpl; try done. split; [done|by right].
    + split; [unfold slice_data; rewrite Ed; by destruct (released bs)|].
      constructor; simpl; try done. split; [done|]. rewrite Ed. by left.
Qed.

Lemma step_refines size o q bs s : represents size q bs s →
  ∃ q' bs' a, impl_step o (q, bs) = Ret (q', bs', a) ∧ a = (spec_step size o s).2 ∧
    represents size q' bs' (spec_step size o s).1.
Proof.
  intros Hr. destruct o as [x| | |]; unfold impl_step.
  - destruct (put_refines size q bs s x Hr) as (q' & e & -> & Ha & Hr'). do 3 eexists. by split_and!.
  - pose proof (get_refines size q bs s Hr) as Hg. destruct (Get q) as [[q' bs'] e]. simpl in Hg.
    destruct Hg as [Ha Hr']. do 3 eexists. by split_and!.
  - pose proof (release_refines size q bs s Hr) as Hg. destruct (Release bs q) as [q' bs'].
    destruct Hg as [Ha Hr']. do 3 eexists. split_and!; [done| |done]. simpl. by rewrite Ha.
  - do 3 eexists. split_and!; [done..|]. destruct Hr. by constructor.
Qed.

(** The double-buffered queue is a queue of batches.  On every sequence of puts, gets,
    releases and disposals it answers exactly as the queue that collects elements in order,
    refuses more than its size, hands out all of them at once and refuses to do so again
    until the batch is released; in particular the batch the consumer reads on release is
    the one it was given, untouched by later puts. *)
Theorem swap_queue_refines size zero os :
  is_u64 size →
  impl_run os (NewSwapBufferQueue zero size, no_slice) =
  Ret (spec_run size os {| waiting := [] : list T; held := None; closed := false |}).
Proof.
  intros Hu.
  assert (∀ os q bs s, represents size q bs s → impl_run os (q, bs) = Ret (spec_run size os s)) as Hg.
  { clear os. induction os as [|o os IH]; intros q bs s Hr; [done|]. cbn [impl_run spec_run].
    destruct (step_refines size o q bs s Hr) as (q' & bs' & a & Hst & Ha & Hr').
    rewrite Hst. cbn [mbind go_bind]. rewrite (IH q' bs' _ Hr'). cbn [mbind go_bind].
    by destruct (spec_step size o s) as [s' a']; simpl in *; subst. }
  apply Hg. constructor; simpl; rewrite ?length_replicate; try done; try lia. split; [done|by left].
Qed.
End Refinement.

Lemma swap_queue_refines_witness :
  impl_run [OPut 1; OPut 2; OGet; OPut 3; OGet; ORelease; OGet] (NewSwapBufferQueue 0 2, no_slice) =
  Ret (spec_run 2 [OPut 1; OPut 2; OGet; OPut 3; OGet; ORelease; OGet] {| waiting := []; held := None; closed := false |}).
Proof. apply swap_queue_refines. lia. Defined.
