(* ===== verification/Queue.v ===== *)
(** * The blocking queue: [pkg/utility/queue/queue.go]

    Producers append under a lock; a consumer that finds nothing leaves a semaphore in the
    list of waiters and blocks.  [Put] wakes waiters while it holds the lock and waits for
    each to take its share; a waiter whose timer fires withdraws, which races with being
    woken.  The model is the state under the lock with the semaphores, and one transition
    per critical section, so a run is any interleaving of producers, consumers, timers and
    a disposal.  The theorems show that no element is lost, duplicated or reordered, and
    that nobody waits while there is something to take. *)

From S2P Require Import Prelude.

Definition ErrQueueDisposed : error := Sentinel "ErrQueueDisposed".
Definition ErrQueueTimeout : error := Sentinel "ErrQueueTimeout".

(** ** The lists *)

(** [waiters.get], [waiters.put], [waiters.remove]; a semaphore is its name. *)
Definition waiters_get (w : list nat) : option nat * list nat :=
  match w with [] => (None, []) | s :: w => (Some s, w) end.
Definition waiters_put (s : nat) (w : list nat) : list nat := w ++ [s].
Definition waiters_remove (s : nat) (w : list nat) : list nat := filter (fun s' => s' ≠ s) w.

Section Items.
Context {T : Type}.
Implicit Types items : list T.

(** [items.get]: up to [numbers] elements, written to the caller's slice. *)
Definition items_get (numbers : Z) items : list T * list T := (take (Z.to_nat numbers) items, drop (Z.to_nat numbers) items).
Definition items_getOne items : option T * list T :=
  match items with [] => (None, []) | x :: items => (Some x, items) end.
Definition items_peek items : option T := head items.
(** [items.getUntil]: the longest prefix the checker accepts. *)
Fixpoint items_getUntil (checker : T → bool) items : list T * list T :=
  match items with
  | [] => ([], [])
  | x :: rest =>
      if checker x then let '(r, rest') := items_getUntil checker rest in (x :: r, rest')
      else ([], x :: rest)
  end.
End Items.

(** ** The state *)

(** A blocked call: how many elements it wants, whether it has a timer, whether its
    one-place channel is full, and whether its timer made it give up. *)
Record sema := { want : Z; timed : bool; ready : bool; leaving : bool }.

(** How a call ended. *)
Inductive outcome {T : Type} := Got (xs : list T) | TimedOut | WasDisposed.
Arguments outcome : clear implicits.

Record Queue {T : Type} := {
  waiters : list nat;
  items : list T;
  disposed : bool;
  semas : gmap nat sema;             (* the calls that are blocked *)
  next_sema : nat;
  results : list (nat * outcome T);  (* the calls that were blocked and returned *)
  taken : list T;                    (* all elements handed out, in order *)
  dropped : list T                   (* what [Dispose] returned *)
}.
Arguments Queue : clear implicits.

Section Queue.
Context {T : Type}.
Implicit Types q : Queue T.

Definition New : Queue T :=
  {| waiters := []; items := []; disposed := false; semas := ∅; next_sema := 0; results := []; taken := []; dropped := [] |}.

(** A blocked call returns. *)
Definition finish (s : nat) (o : outcome T) q : Queue T :=
  {| waiters := waiters q; items := items q; disposed := disposed q; semas := delete s (semas q);
     next_sema := next_sema q; results := results q ++ [(s, o)]; taken := taken q; dropped := dropped q |}.
Definition set_waiters (w : list nat) q : Queue T :=
  {| waiters := w; items := items q; disposed := disposed q; semas := semas q; next_sema := next_sema q;
     results := results q; taken := taken q; dropped := dropped q |}.
(** Elements leave the queue. *)
Definition take_items (n : Z) q : Queue T :=
  {| waiters := waiters q; items := (items_get n (items q)).2; disposed := disposed q; semas := semas q;
     next_sema := next_sema q; results := results q; taken := taken q ++ (items_get n (items q)).1; dropped := dropped q |}.

(** The call [s] is woken by [Put], which waits for its answer: it takes its share, or,
    when its timer has fired as well and its select chose the timer, it finds its channel
    full and gives up. *)
Definition wake (chose_timer : nat → bool) (s : nat) (st : sema) q : Queue T :=
  if chose_timer s && timed st then finish s TimedOut q
  else finish s (Got (items_get (want st) (items q)).1) (take_items (want st) q).

(** The loop of [Put]: waiters are woken in order until there are none or nothing is left.
    A full channel belongs to a call that is giving up. *)
Fixpoint put_loop (chose_timer : nat → bool) (ws : list nat) q : Queue T :=
  match ws with
  | [] => set_waiters [] q
  | s :: ws =>
      let q := match semas q !! s with
               | Some st => if ready st then q else wake chose_timer s st q
               | None => q
               end in
      if decide (items q = []) then set_waiters ws q else put_loop chose_timer ws q
  end.

Definition append_items (xs : list T) q : Queue T :=
  {| waiters := waiters q; items := items q ++ xs; disposed := disposed q; semas := semas q;
     next_sema := next_sema q; results := results q; taken := taken q; dropped := dropped q |}.

Definition Put (chose_timer : nat → bool) (xs : list T) q : Queue T * option error :=
  if decide (xs = []) then (q, None)
  else if disposed q then (q, Some ErrQueueDisposed)
  else let q := append_items xs q in (put_loop chose_timer (waiters q) q, None).

(** The first critical section of [Poll]: an answer, or a semaphore to wait for. *)
Definition Poll (numbers : Z) (room : nat) (timeout : Z) q : Queue T * (result (list T) + nat) :=
  if decide (numbers = 0)%Z then (q, inl (Ok []))
  else if decide (Z.of_nat room < numbers)%Z then (q, inl (Err (Errorf "pollItems is not large enough")))
  else if disposed q then (q, inl (Err ErrQueueDisposed))
  else if decide (items q = []) then
    ({| waiters := waiters_put (next_sema q) (waiters q); items := items q; disposed := disposed q;
        semas := <[next_sema q := {| want := numbers; timed := bool_decide (0 < timeout)%Z; ready := false; leaving := false |}]> (semas q);
        next_sema := S (next_sema q); results := results q; taken := taken q; dropped := dropped q |},
     inr (next_sema q))
  else (take_items numbers q, inl (Ok (items_get numbers (items q)).1)).

(** [PollOne] takes at most one element (none is the zero value), and the calls without a
    timeout wait for as long as it takes. *)
Definition PollOne (timeout : Z) q : Queue T * (result (list T) + nat) := Poll 1 1 timeout q.
Definition Get (numbers : Z) (room : nat) q : Queue T * (result (list T) + nat) := Poll numbers room 0 q.
Definition GetOne q : Queue T * (result (list T) + nat) := PollOne 0 q.

(** The timer of a blocked call fires and it fills its own channel; only then it asks for
    the lock. *)
Definition timer_fires (s : nat) q : option (Queue T) :=
  st ← semas q !! s;
  if negb (timed st) || ready st then None
  else Some {| waiters := waiters q; items := items q; disposed := disposed q;
               semas := <[s := {| want := want st; timed := true; ready := true; leaving := true |}]> (semas q);
               next_sema := next_sema q; results := results q; taken := taken q; dropped := dropped q |}.

(** Its second critical section: it withdraws its semaphore and returns. *)
Definition withdraw (s : nat) q : option (Queue T) :=
  st ← semas q !! s;
  if leaving st then Some (finish s TimedOut (set_waiters (waiters_remove s (waiters q)) q)) else None.

Definition Peek q : result (option T) :=
  if disposed q then Err ErrQueueDisposed else Ok (items_peek (items q)).

Definition TakeUntil (checker : option (T → bool)) q : Queue T * result (list T) :=
  match checker with
  | None => (q, Ok [])
  | Some checker =>
      if disposed q then (q, Err ErrQueueDisposed)
      else let '(r, rest) := items_getUntil checker (items q) in
           ({| waiters := waiters q; items := rest; disposed := disposed q; semas := semas q; next_sema := next_sema q;
               results := results q; taken := taken q ++ r; dropped := dropped q |}, Ok r)
  end.

Definition Empty q : bool := bool_decide (items q = []).
Definition Len q : Z := Z.of_nat (length (items q)).
Definition Disposed q : bool := disposed q.

(** Every waiter's channel is filled, if it is not full already. *)
Definition fill (sm : gmap nat sema) (s : nat) : gmap nat sema :=
  match sm !! s with
  | Some st => if ready st then sm else <[s := {| want := want st; timed := timed st; ready := true; leaving := false |}]> sm
  | None => sm
  end.

Definition Dispose q : Queue T * list T :=
  ({| waiters := []; items := []; disposed := true; semas := foldl fill (semas q) (waiters q);
      next_sema := next_sema q; results := results q; taken := taken q; dropped := dropped q ++ items q |}, items q).

(** A call whose channel [Dispose] filled returns: disposed, or timed out if its select
    chose the timer. *)
Definition released (chose_timer : bool) (s : nat) q : option (Queue T) :=
  st ← semas q !! s;
  if ready st && negb (leaving st)
  then Some (finish s (if chose_timer && timed st then TimedOut else WasDisposed) q) else None.
End Queue.

(** ** Runs *)

Inductive label {T : Type} :=
| LPut (chose_timer : nat → bool) (xs : list T)
| LPoll (numbers : Z) (room : nat) (timeout : Z)
| LTimer (s : nat)
| LWithdraw (s : nat)
| LTakeUntil (checker : option (T → bool))
| LDispose
| LReleased (chose_timer : bool) (s : nat).
Arguments label : clear implicits.

Definition step {T} (l : label T) (q : Queue T) : option (Queue T) :=
  match l with
  | LPut ct xs => Some (Put ct xs q).1
  | LPoll n r t => Some (Poll n r t q).1
  | LTimer s => timer_fires s q
  | LWithdraw s => withdraw s q
  | LTakeUntil f => Some (TakeUntil f q).1
  | LDispose => Some (Dispose q).1
  | LReleased b s => released b s q
  end.

(** The elements a step adds. *)
Definition added {T} (l : label T) (q : Queue T) : list T :=
  match l with LPut _ xs => if disposed q then [] else xs | _ => [] end.

(** [reaches h q]: some run from the empty queue in which the elements [h] were put. *)
Inductive reaches {T} : list T → Queue T → Prop :=
| reaches_new : reaches [] New
| reaches_step h q l q' : reaches h q → step l q = Some q' → reaches (h ++ added l q) q'.

Section Invariant.
Context {T : Type}.
Implicit Types q : Queue T.

(** Everything put is handed out, dropped or still there, in order. *)
Definition conserves (h : list T) q : Prop := h = taken q ++ dropped q ++ items q ∧ (dropped q = [] ∨ items q = [] ∧ disposed q = true).

Record queue_inv q : Prop := {
  qi_nodup : NoDup (waiters q);
  qi_next s : is_Some (semas q !! s) ∨ s ∈ waiters q → (s < next_sema q)%nat;
  (* a call that is neither woken nor giving up is in the list *)
  qi_listed s st : semas q !! s = Some st → ready st = false → s ∈ waiters q;
  qi_leaving s st : semas q !! s = Some st → leaving st = true → ready st = true;
  (* only a disposal fills the channel of a call that did not give up *)
  qi_ready s st : semas q !! s = Some st → ready st = true → disposed q = false → leaving st = true;
  (* nobody waits while there is something to take *)
  qi_busy s st : items q ≠ [] → semas q !! s = Some st → ready st = true;
  qi_disposed : disposed q = true → items q = [] ∧ waiters q = []
}.

Lemma finish_lookup s o q s' st : semas (finish s o q) !! s' = Some st → s' ≠ s ∧ semas q !! s' = Some st.
Proof. simpl. rewrite lookup_delete_Some. intros []. by split. Qed.

Lemma take_items_conserves n h q : conserves h q → conserves h (take_items n q).
Proof.
  unfold conserves. simpl. intros [-> Hd]. split.
  - destruct Hd as [->|[-> _]]; simpl.
    + by rewrite <- (assoc_L (++)), take_drop.
    + by rewrite take_nil, drop_nil, !app_nil_r.
  - destruct Hd as [->|[-> ?]]; [by left|right]. by rewrite drop_nil.
Qed.

(** What the loop of [Put] keeps: the names it has not looked at yet are [ws]. *)
Record put_inv (ws : list nat) q : Prop := {
  pi_nodup : NoDup ws;
  pi_next s : is_Some (semas q !! s) ∨ s ∈ ws → (s < next_sema q)%nat;
  pi_listed s st : semas q !! s = Some st → ready st = false → s ∈ ws;
  pi_leaving s st : semas q !! s = Some st → leaving st = true → ready st = true;
  pi_ready s st : semas q !! s = Some st → ready st = true → leaving st = true;
  pi_open : disposed q = false
}.

Lemma wake_put_inv ct s ws st q :
  put_inv (s :: ws) q → semas q !! s = Some st → put_inv ws (wake ct s st q).
Proof.
  intros [Hnd Hn Hl Hlv Hr Ho] Hs. apply NoDup_cons in Hnd as [Hni Hnd].
  assert (∀ o q', semas q' = semas q → next_sema q' = next_sema q → disposed q' = disposed q →
    put_inv ws (finish s o q')) as Hf.
  { intros o q' Hsm Hnx Hdi. constructor; simpl; rewrite ?Hsm, ?Hnx, ?Hdi; [done|..|done].
    - intros s' [[st' [_ Hs']%lookup_delete_Some]|Hin]; apply Hn; [left; by eexists|right; by right].
    - intros s' st' [Hne Hs']%lookup_delete_Some Hrd. apply Hl in Hs'; [|done].
      by apply elem_of_cons in Hs' as [->|].
    - intros s' st' [_ Hs']%lookup_delete_Some. by apply (Hlv s').
    - intros s' st' [_ Hs']%lookup_delete_Some. by apply (Hr s'). }
  unfold wake. destruct (ct s && timed st); by apply Hf.
Qed.

Lemma skip_put_inv s ws q :
  put_inv (s :: ws) q → (∀ st, semas q !! s = Some st → ready st = true) → put_inv ws q.
Proof.
  intros [Hnd Hn Hl Hlv Hr Ho] Hs. apply NoDup_cons in Hnd as [Hni Hnd]. constructor; try done.
  - intros s' [?|?]; apply Hn; [by left|right; by right].
  - intros s' st' Hs' Hrd. pose proof (Hl s' st' Hs' Hrd) as [->|]%elem_of_cons; [|done].
    apply Hs in Hs'. congruence.
Qed.

Lemma wake_conserves ct s st h q : conserves h q → conserves h (wake ct s st q).
Proof. intros Hc. unfold wake. destruct (ct s && timed st); [done|]. by apply (take_items_conserves (want st)) in Hc. Qed.

Lemma put_loop_inv ct ws h q :
  put_inv ws q → conserves h q → queue_inv (put_loop ct ws q) ∧ conserves h (put_loop ct ws q).
Proof.
  revert q. induction ws as [|s ws IH]; intros q Hp Hc; simpl.
  - destruct Hp as [Hnd Hn Hl Hlv Hr Ho]. split; [|done]. constructor; simpl; [constructor|..].
    + intros s [?|[]%elem_of_nil]. apply Hn. by left.
    + intros s st Hs Hrd. by apply Hl in Hs.
    + done.
    + intros. by eapply Hr.
    + intros s st _ Hs. destruct (ready st) eqn:E; [done|]. apply Hl in Hs; [|done]. by apply elem_of_nil in Hs.
    + congruence.
  - match goal with |- context [decide (items ?x = [])] => set (q1 := x) end.
    assert (put_inv ws q1 ∧ conserves h q1) as [Hp1 Hc1].
    { unfold q1. destruct (semas q !! s) as [st|] eqn:Es; [destruct (ready st) eqn:Er|].
      - split; [|done]. apply (skip_put_inv s); [done|]. intros st'. rewrite Es. by intros [= <-].
      - split; [by apply wake_put_inv|by apply wake_conserves].
      - split; [|done]. apply (skip_put_inv s); [done|]. by rewrite Es. }
    clearbody q1. case_decide as Hit; [|by apply IH]. split; [|done].
    destruct Hp1 as [Hnd Hn Hl Hlv Hr Ho]. constructor; simpl; try done; [intros; by eapply Hr|congruence].
Qed.

Lemma items_getUntil_app f (l : list T) : (items_getUntil f l).1 ++ (items_getUntil f l).2 = l.
Proof.
  induction l as [|x l IH]; simpl; [done|]. destruct (f x); [|done].
  destruct (items_getUntil f l) as [r rest]. simpl in *. by rewrite IH.
Qed.

(** Elements leave, nothing else changes. *)
Lemma shrink_inv (its tk : list T) q :
  (items q = [] → its = []) → queue_inv q →
  queue_inv {| waiters := waiters q; items := its; disposed := disposed q; semas := semas q;
               next_sema := next_sema q; results := results q; taken := tk; dropped := dropped q |}.
Proof.
  intros Hit [Hnd Hn Hl Hlv Hr Hb Hd]. constructor; simpl; try done.
  - intros s st Hne. apply Hb. intros E. by apply Hne, Hit.
  - intros E. destruct (Hd E) as [Hi ?]. by rewrite Hit.
Qed.

(** A call whose channel is full returns. *)
Lemma finish_inv s st o w q :
  queue_inv q → semas q !! s = Some st → ready st = true →
  (w = waiters q ∨ w = waiters_remove s (waiters q)) →
  queue_inv (finish s o (set_waiters w q)).
Proof.
  intros [Hnd Hn Hl Hlv Hr Hb Hd] Hs Hrd Hw.
  assert (∀ s', s' ∈ w → s' ∈ waiters q) as Hsub.
  { intros s'. destruct Hw as [->| ->]; [done|]. unfold waiters_remove. rewrite list_elem_of_filter. by intros []. }
  assert (∀ s', s' ≠ s → s' ∈ waiters q → s' ∈ w) as Hsup.
  { intros s'. destruct Hw as [->| ->]; [done|]. unfold waiters_remove. rewrite list_elem_of_filter. done. }
  constructor; simpl.
  - destruct Hw as [->| ->]; [done|]. by apply NoDup_filter.
  - intros s' [[st' [_ Hs']%lookup_delete_Some]|Hin]; apply Hn; [left; by eexists|right; auto].
  - intros s' st' [Hne Hs']%lookup_delete_Some E. apply Hsup; [done|]. by eapply Hl.
  - intros s' st' [_ Hs']%lookup_delete_Some. by apply (Hlv s').
  - intros s' st' [_ Hs']%lookup_delete_Some. by apply (Hr s').
  - intros s' st' Hne [_ Hs']%lookup_delete_Some. by apply (Hb s').
  - intros E. destruct (Hd E) as [-> Hw0]. split; [done|].
    destruct Hw as [->| ->]; rewrite Hw0; done.
Qed.

(** Filling the channels of a list of waiters. *)
Lemma fill_lookup sm s1 s st :
  fill sm s1 !! s = Some st →
  ∃ st0, sm !! s = Some st0 ∧ (ready st0 = true → ready st = true) ∧ (s = s1 → ready st = true).
Proof.
  unfold fill. destruct (sm !! s1) as [st1|] eqn:E1; [destruct (ready st1) eqn:Er|].
  - intros Hs. exists st. split_and!; [done|done|]. intros ->. congruence.
  - rewrite lookup_insert_Some. intros [[<- <-]|[Hne Hs]].
    + by exists st1.
    + exists st. split_and!; [done|done|congruence].
  - intros Hs. exists st. split_and!; [done|done|]. intros ->. congruence.
Qed.

Lemma foldl_fill_lookup ws sm s st :
  foldl fill sm ws !! s = Some st →
  ∃ st0, sm !! s = Some st0 ∧ (ready st0 = true ∨ s ∈ ws → ready st = true).
Proof.
  revert sm. induction ws as [|s1 ws IH]; intros sm; simpl.
  - intros Hs. exists st. split; [done|]. by intros [?|[]%elem_of_nil].
  - intros (st1 & (st0 & Hs & Hrd & Heq)%fill_lookup & Hin)%IH. exists st0. split; [done|].
    intros [?|[?|?]%elem_of_cons]; apply Hin; auto.
Qed.

Lemma Dispose_inv q : queue_inv q → queue_inv (Dispose q).1.
Proof.
  intros [Hnd Hn Hl Hlv Hr Hb Hd].
  assert (∀ s st, semas (Dispose q).1 !! s = Some st → ready st = true) as Hall.
  { simpl. intros s st (st0 & Hs & Hin)%foldl_fill_lookup. apply Hin.
    destruct (ready st0) eqn:E; [by left|right]. by eapply Hl. }
  constructor; simpl; try done.
  - constructor.
  - intros s [[st (st0 & Hs & _)%foldl_fill_lookup]|[]%elem_of_nil]. apply Hn. left. by eexists.
  - intros s st Hs. apply Hall in Hs. congruence.
  - intros s st Hs _. by eapply Hall.
Qed.

Lemma Poll_inv n r t q : queue_inv q → queue_inv (Poll n r t q).1.
Proof.
  intros Hq. unfold Poll. do 2 (case_decide; [done|]). destruct (disposed q) eqn:Ed; [done|].
  case_decide as Hit; simpl.
  2:{ apply (shrink_inv _ (taken q ++ (items_get n (items q)).1) q); [|done]. intros ->. apply drop_nil. }
  destruct Hq as [Hnd Hn Hl Hlv Hr Hb Hd]. assert (next_sema q ∉ waiters q) as Hfresh.
  { intros Hin. pose proof (Hn _ (or_intror Hin)). lia. }
  constructor; simpl; unfold waiters_put.
  - apply NoDup_app. split_and!; [done| |apply NoDup_singleton].
    intros s Hin ->%list_elem_of_singleton. done.
  - intros s. rewrite lookup_insert_is_Some, elem_of_app, list_elem_of_singleton. intros Hs.
    destruct (decide (s = next_sema q)) as [->|]; [lia|]. apply Nat.lt_lt_succ_r, Hn. intuition congruence.
  - intros s st [[<- <-]|[_ Hs]]%lookup_insert_Some Hrd; rewrite elem_of_app, list_elem_of_singleton.
    + by right.
    + left. by eapply Hl.
  - intros s st [[<- <-]|[_ Hs]]%lookup_insert_Some; [done|]. by apply (Hlv s).
  - intros s st [[<- <-]|[_ Hs]]%lookup_insert_Some; [done|]. intros E ?. by apply (Hr s).
  - done.
  - congruence.
Qed.

Lemma timer_inv s q q' : queue_inv q → timer_fires s q = Some q' → queue_inv q'.
Proof.
  intros [Hnd Hn Hl Hlv Hr Hb Hd]. unfold timer_fires.
  destruct (semas q !! s) as [st|] eqn:Hs; simpl; [|done].
  destruct (timed st), (ready st) eqn:Er; simpl; intros [= <-]. constructor; simpl; try done.
  - intros s'. rewrite lookup_insert_is_Some. intros [[<-|[_ ?]]|?]; apply Hn; [left; by eexists|by left|by right].
  - intros s' st' [[<- <-]|[_ Hs']]%lookup_insert_Some; [done|]. by apply Hl.
  - intros s' st' [[<- <-]|[_ Hs']]%lookup_insert_Some; [done|]. by apply (Hlv s').
  - intros s' st' [[<- <-]|[_ Hs']]%lookup_insert_Some; [done|]. by apply (Hr s').
  - intros s' st' ? [[<- <-]|[_ Hs']]%lookup_insert_Some; [done|]. by apply (Hb s').
Qed.

Lemma Put_inv ct xs h q :
  queue_inv q → conserves h q →
  queue_inv (Put ct xs q).1 ∧ conserves (h ++ if disposed q then [] else xs) (Put ct xs q).1.
Proof.
  intros Hq Hc. unfold Put. case_decide as Hxs.
  { subst. by destruct (disposed q); rewrite app_nil_r. }
  destruct (disposed q) eqn:Ed; [by rewrite app_nil_r|]. simpl.
  apply put_loop_inv.
  - destruct Hq. constructor; simpl; eauto.
  - destruct Hc as [-> [Hdr|[_ ?]]]; [|congruence]. split; simpl; [|by left].
    by rewrite Hdr, <- (assoc_L (++)).
Qed.

Lemma step_inv l h q q' :
  step l q = Some q' → queue_inv q → conserves h q → queue_inv q' ∧ conserves (h ++ added l q) q'.
Proof.
  intros Hl Hq Hc. destruct l; simpl in *; rewrite ?app_nil_r.
  - simplify_eq. by apply Put_inv.
  - simplify_eq. split; [by apply Poll_inv|]. unfold Poll. do 2 (case_decide; [done|]).
    destruct (disposed q) eqn:Ed; [done|]. case_decide; [|by apply take_items_conserves].
    by destruct Hc; split; simpl; rewrite ?Ed in *.
  - split; [by eapply timer_inv|]. unfold timer_fires in Hl. destruct (semas q !! s) as [st|]; [|done]. simpl in Hl.
    by destruct (negb (timed st) || ready st); simplify_eq.
  - unfold withdraw in Hl. destruct (semas q !! s) as [st|] eqn:Es; [|done]. simpl in Hl.
    destruct (leaving st) eqn:El; simplify_eq. split; [|done]. eapply finish_inv; [done|done| |by right].
    by eapply qi_leaving.
  - destruct checker as [f|]; simplify_eq; simpl; [|done]. destruct (disposed q) eqn:Ed; [done|].
    pose proof (items_getUntil_app f (items q)) as Happ.
    destruct (items_getUntil f (items q)) as [r rest]. simpl in *. rewrite <- Ed. split.
    + apply (shrink_inv rest (taken q ++ r)); [|done]. intros E. rewrite E in Happ. by apply app_eq_nil in Happ as [_ ?].
    + destruct Hc as [-> [Hdr|[_ ?]]]; [|congruence]. split; simpl; [|by left]. rewrite Hdr, <- Happ. simpl. apply (assoc_L (++)).
  - simplify_eq. split; [by apply Dispose_inv|]. destruct Hc as [-> _]. split; simpl; [|by right].
    by rewrite app_nil_r.
  - unfold released in Hl. destruct (semas q !! s) as [st|] eqn:Es; [|done]. simpl in Hl.
    destruct (ready st) eqn:Er, (leaving st); simpl in Hl; simplify_eq. split; [|done].
    apply (finish_inv s st _ (waiters q)); auto.
Qed.

Lemma reaches_inv h q : reaches h q → queue_inv q ∧ conserves h q.
Proof.
  induction 1 as [|h q l q' _ [Hq Hc] Hl].
  - split.
    + constructor; simpl; try (intros *; rewrite lookup_empty); try done; [constructor|].
      intros [[? ?]|[]%elem_of_nil]. done.
    + split; [done|by left].
  - by eapply step_inv.
Qed.
End Invariant.

(** ** What holds of every run *)

(** Whatever the interleaving of producers, consumers, timers and disposals, the
    elements handed out, followed by those a disposal returned and those still queued,
    are exactly the elements put, in the order they were put: nothing is lost, duplicated or
    reordered, and once disposed the queue holds nothing. *)
Theorem queue_fifo {T} (h : list T) (q : Queue T) :
  reaches h q →
  h = taken q ++ dropped q ++ items q ∧
  (disposed q = false → dropped q = []) ∧ (disposed q = true → items q = []).
Proof.
  intros [Hq [Hc Hd]]%reaches_inv. split_and!; [done| |intros E; by destruct (qi_disposed _ Hq E)].
  intros E. destruct Hd as [?|[_ ?]]; [done|congruence].
Qed.

(** No wake-up is lost.  In every reachable state in which the queue holds an element or
    is disposed, each blocked call can return by a step of its own, without any other
    producer, consumer or timer acting. *)
Theorem no_lost_wakeup {T} (h : list T) (q : Queue T) (s : nat) :
  reaches h q → items q ≠ [] ∨ disposed q = true → is_Some (semas q !! s) →
  ∃ l q', (l = LWithdraw s ∨ l = LReleased false s) ∧ step l q = Some q' ∧ semas q' !! s = None ∧
    ∀ s', s' ≠ s → semas q' !! s' = semas q !! s'.
Proof.
  intros [Hq _]%reaches_inv Hbusy [st Hs].
  assert (ready st = true) as Hrd.
  { destruct Hbusy as [Hi|Hd]; [by eapply qi_busy|]. destruct (ready st) eqn:E; [done|].
    pose proof (qi_listed _ Hq _ _ Hs E) as Hin. destruct (qi_disposed _ Hq Hd) as [_ Hw].
    rewrite Hw in Hin. by apply elem_of_nil in Hin. }
  destruct (leaving st) eqn:El.
  - exists (LWithdraw s). eexists. split; [by left|]. unfold step, withdraw. rewrite Hs. simpl. rewrite El.
    split; [done|]. simpl. rewrite lookup_delete_eq. split; [done|]. intros. by rewrite lookup_delete_ne.
  - exists (LReleased false s). eexists. split; [by right|]. unfold step, released. rewrite Hs. simpl. rewrite El, Hrd.
    split; [done|]. simpl. rewrite lookup_delete_eq. split; [done|]. intros. by rewrite lookup_delete_ne.
Qed.

(** A consumer without a timer waits, another times out, and a producer serves both. *)
Definition sample_run : list (label Z) :=
  [LPoll 2 4 0; LPoll 1 1 5; LPoll 1 1 5; LTimer 1; LPut (fun _ => false) [10; 20; 30; 40]%Z; LTakeUntil (Some (fun _ => true));
   LPut (fun _ => false) [50]%Z].
Fixpoint run_steps {T} (ls : list (label T)) (q : Queue T) : option (Queue T) :=
  match ls with [] => Some q | l :: ls => q ← step l q; run_steps ls q end.
Fixpoint run_added {T} (ls : list (label T)) (q : Queue T) : list T :=
  match ls with [] => [] | l :: ls => added l q ++ (if step l q is Some q' then run_added ls q' else []) end.

Lemma run_reaches {T} (ls : list (label T)) h q q' :
  reaches h q → run_steps ls q = Some q' → reaches (h ++ run_added ls q) q'.
Proof.
  revert h q. induction ls as [|l ls IH]; intros h q Hq; simpl.
  - intros [= <-]. by rewrite app_nil_r.
  - destruct (step l q) as [q1|] eqn:E; simpl; [|done]. intros Hr. rewrite (assoc_L (++)).
    apply IH; [|done]. by eapply reaches_step.
Qed.

Definition isSome {A} (o : option A) : bool := if o is Some _ then true else false.
Definition sample_queue : Queue Z := default New (run_steps sample_run New).

Lemma sample_reaches : reaches [10; 20; 30; 40; 50]%Z sample_queue.
Proof.
  assert ([10; 20; 30; 40; 50]%Z = [] ++ run_added sample_run New) as -> by reflexivity.
  apply run_reaches; [apply reaches_new|]. unfold sample_queue.
  assert (isSome (run_steps sample_run New) = true) as H by reflexivity.
  by destruct (run_steps sample_run New).
Qed.

Lemma queue_fifo_witness :
  taken sample_queue = [10; 20; 30; 40]%Z ∧ items sample_queue = [50]%Z ∧
  [10; 20; 30; 40; 50]%Z = taken sample_queue ++ dropped sample_queue ++ items sample_queue.
Proof.
  split; [reflexivity|]. split; [reflexivity|].
  exact (proj1 (queue_fifo _ sample_queue sample_reaches)).
Defined.

Lemma no_lost_wakeup_witness :
  items sample_queue ≠ [] ∧
  ∃ l q', (l = LWithdraw 1 ∨ l = LReleased false 1) ∧ step l sample_queue = Some q' ∧ semas q' !! 1%nat = None ∧
    ∀ s', s' ≠ 1%nat → semas q' !! s' = semas sample_queue !! s'.
Proof.
  split; [discriminate|].
  apply (no_lost_wakeup [10; 20; 30; 40; 50]%Z sample_queue 1).
  - exact sample_reaches.
  - left. discriminate.
  - vm_compute. eexists. reflexivity.
Defined.
