(* ===== verification/SnapshotFs.v ===== *)
(** * The snapshot file system

    [pkg/snapshot/fs]: the names of snapshot files and folders ([api/path_helper.go]), the
    file system on the operating system's files ([durable/fs.go]), the checksumming reader
    and writer ([crcfile]), the metadata file ([codec/metadata.go]) and the write buffer of
    an uncompressed file ([codec/compressor.go]).

    A path is the list of its elements, so [filepath.Join] appends one and [filepath.Dir]
    removes one; names hold no separator.  The operating system keeps the contents of
    regular files and the set of directories.  Its calls fail for the reasons the structure
    gives (a missing file, a directory in the place of a file); media errors are not
    modelled, and neither is what a power failure leaves. *)

From S2P Require Import Prelude Raftpb Allocator Streams LogFiles.

Abbreviation path := (list string).

Definition Join (dir : path) (name : string) : path := dir ++ [name].
Definition Dir (p : path) : path := take (length p - 1) p.

(** ** [babuzapb]: the messages of a snapshot *)

(** The enumerations are their numbers. *)
Definition SnapshotFileType_Cluster : Z := 0.
Definition SnapshotFileType_Session : Z := 1.
Definition SnapshotFileType_StateMachine : Z := 2.
Definition SnapshotFileType_Metadata : Z := 3.
Definition SnapshotFolderType_InstallSnapshot : Z := 0.
Definition SnapshotFolderType_TempWrite : Z := 1.
Definition SnapshotFolderType_TempReceive : Z := 2.
Definition SnapshotFileCompression_None : Z := 0.
Definition SnapshotFileCompression_Snappy : Z := 1.

Record SnapshotFileDesc := {
  FileType : Z; CompressionType : Z; Tag : string; FileSize : Z; FileCrc64 : Z;
  Metadata : list byte; IsExternal : bool; LocationUri : string
}.

(** [babuzapb.SnapshotMetadata]; a nil map of files is the empty one, as on the wire. *)
Record SnapshotMetadata := { Version : Z; md_Snapshot : Snapshot; Files : gmap string SnapshotFileDesc }.
Abbreviation md_Index m := (sm_index (snap_meta (md_Snapshot m))).

(** ** [pathHelperImpl] *)

Definition tempWriterFolderNamePrefix : string := "temp-writer".
Definition tempReceiverFolderNamePrefix : string := "temp-receiver".
Definition snapshotFolderNamePrefix : string := "snapshot".

Definition SnapshotFileName (fileType snapshotIndex : Z) (tag : string) : result string :=
  if decide (fileType = SnapshotFileType_StateMachine) then Ok (hex16 snapshotIndex (String.app "-" (String.app tag ".fsm")))
  else if decide (fileType = SnapshotFileType_Cluster) then Ok (hex16 snapshotIndex ".cluster")
  else if decide (fileType = SnapshotFileType_Session) then Ok (hex16 snapshotIndex ".session")
  else if decide (fileType = SnapshotFileType_Metadata) then Ok (hex16 snapshotIndex ".metadata")
  else Err (Errorf "snapshotor[index=%d]: unkonwn file type (%d) (tag=%s)").

Definition SnapshotFolderName (folderType snapshotIndex : Z) : result string :=
  if decide (folderType = SnapshotFolderType_TempWrite) then Ok (String.app tempWriterFolderNamePrefix (hex16 snapshotIndex ""))
  else if decide (folderType = SnapshotFolderType_TempReceive) then Ok (String.app tempReceiverFolderNamePrefix (hex16 snapshotIndex ""))
  else if decide (folderType = SnapshotFolderType_InstallSnapshot) then Ok (String.app snapshotFolderNamePrefix (hex16 snapshotIndex ""))
  else Err (Errorf "snapshotor[index=%d]: unkonwn folder type (%d) ").

Definition GenerateSnapshotFilePath (snapshotDir : path) (fileType snapIndex : Z) (tag : string) : result path :=
  match SnapshotFileName fileType snapIndex tag with Ok n => Ok (Join snapshotDir n) | Err e => Err e end.
Definition GenerateSnapshotFolderPath (srcDir : path) (folderType snapIndex : Z) : result path :=
  match SnapshotFolderName folderType snapIndex with Ok n => Ok (Join srcDir n) | Err e => Err e end.

(** [fmt.Sscanf] of a number between two literals; what follows them is ignored. *)
Definition scan_name (before after name : string) : result Z :=
  match scan_literal before name with
  | Err e => Err e
  | Ok s => match scan_hex s with
            | Err e => Err e
            | Ok (index, s) => match scan_literal after s with Ok _ => Ok index | Err e => Err e end
            end
  end.

Definition ParseMetadataFileName : string → result Z := scan_name "" ".metadata".
Definition ParseWriterTmpFolderName : string → result Z := scan_name tempWriterFolderNamePrefix "".
Definition ParseReceiverTmpFolderName : string → result Z := scan_name tempReceiverFolderNamePrefix "".
Definition ParseSnapshotFolderName : string → result Z := scan_name snapshotFolderNamePrefix "".

(** ** The operating system's files *)

Record Disk := { d_files : gmap path (list byte); d_dirs : gset path }.
Definition set_files (f : gmap path (list byte)) (d : Disk) : Disk := {| d_files := f; d_dirs := d_dirs d |}.
Definition set_dirs (s : gset path) (d : Disk) : Disk := {| d_files := d_files d; d_dirs := s |}.

Definition os_ErrNotExist : error := Sentinel "os.ErrNotExist".
Definition os_ErrExist : error := Sentinel "os.ErrExist".
Definition err_is_dir : error := Errorf "is a directory".
Definition err_not_dir : error := Errorf "not a directory".
Definition err_not_empty : error := Errorf "directory not empty".

(** [fileutil.Exist] *)
Definition Exist (p : path) (d : Disk) : bool := bool_decide (is_Some (d_files d !! p) ∨ p ∈ d_dirs d).

(** An open file: where the next write goes. *)
Record OsFile := { of_path : path; of_off : nat }.

(** [os.File.Write] *)
Definition os_Write (data : list byte) : meth (Disk * OsFile) unit := fun '(d, f) =>
  let c := default [] (d_files d !! of_path f) in
  Ret ((set_files (<[of_path f := take (of_off f) c ++ data ++ drop (of_off f + length data) c]> (d_files d)) d,
        {| of_path := of_path f; of_off := (of_off f + length data)%nat |}), Ok tt).

(** [os.OpenFile(path, O_CREATE|O_WRONLY)]: an existing file keeps its contents. *)
Definition os_Create (p : path) : meth Disk OsFile := fun d =>
  if decide (p ∈ d_dirs d) then Ret (d, Err err_is_dir)
  else match d_files d !! p with
       | Some _ => Ret (d, Ok {| of_path := p; of_off := 0 |})
       | None => if decide (Dir p ∈ d_dirs d)
                 then Ret (set_files (<[p := []]> (d_files d)) d, Ok {| of_path := p; of_off := 0 |})
                 else Ret (d, Err os_ErrNotExist)
       end.

(** [os.MkdirAll]: the directory and those above it. *)
Fixpoint above (p : path) : list path :=
  match p with [] => [[]] | x :: p => [] :: (cons x <$> above p) end.
Definition os_MkdirAll (p : path) : meth Disk unit := fun d =>
  if decide (Exists (fun q => is_Some (d_files d !! q)) (above p)) then Ret (d, Err err_not_dir)
  else Ret (set_dirs (list_to_set (above p) ∪ d_dirs d) d, Ok tt).

(** [os.ReadDir]: names sorted, with whether they are directories. *)
Definition name_le (a b : string * bool) : Prop := String.leb a.1 b.1 = true.
#[export] Instance name_le_dec : RelDecision name_le := fun a b => decide (String.leb a.1 b.1 = true).
Definition child (dir p : path) : option string :=
  if decide (Dir p = dir) then last p else None.
Definition entries (dir : path) (d : Disk) : list (string * bool) :=
  omap (fun p => (fun n => (n, true)) <$> child dir p) (elements (d_dirs d)) ++
  omap (fun '(p, _) => (fun n => (n, false)) <$> child dir p) (map_to_list (d_files d)).
Definition os_ReadDir (dir : path) (d : Disk) : result (list (string * bool)) :=
  if decide (dir ∈ d_dirs d) then Ok (merge_sort name_le (entries dir d)) else Err os_ErrNotExist.

(** [os.Rename] of a directory: everything under it moves. *)
Definition moved (src dst p : path) : path :=
  if decide (src `prefix_of` p) then dst ++ drop (length src) p else p.
Definition os_Rename (src dst : path) : meth Disk unit := fun d =>
  if decide (src ∉ d_dirs d ∨ Dir dst ∉ d_dirs d) then Ret (d, Err os_ErrNotExist)
  else if decide (is_Some (d_files d !! dst) ∨ src `prefix_of` dst) then Ret (d, Err err_not_dir)
  else if decide (entries dst d ≠ []) then Ret (d, Err err_not_empty)
  else Ret ({| d_files := list_to_map (prod_map (moved src dst) id <$> map_to_list (d_files d));
               d_dirs := set_map (moved src dst) (d_dirs d) |}, Ok tt).

(** [os.RemoveAll] *)
Definition os_RemoveAll (p : path) : meth Disk unit := fun d =>
  Ret ({| d_files := filter (fun '(q, _) => ¬ p `prefix_of` q) (d_files d);
          d_dirs := filter (fun q => ¬ p `prefix_of` q) (d_dirs d) |}, Ok tt).

(** ** [durable.SnapshotFS] *)

Definition FileRead (p : path) (d : Disk) : result (list byte) :=
  match d_files d !! p with
  | Some c => Ok c
  | None => if decide (p ∈ d_dirs d) then Err (Errorf "path %s is a directory, not a file") else Err os_ErrNotExist
  end.

Definition FileWrite (p : path) : meth Disk OsFile := os_Create p.

(** [crcfile.Reader]: the bytes not read yet ([None]: a directory, which opens but cannot
    be read), the running checksum and the number of bytes read. *)
Record CrcReader := { cr_r : option (list byte); cr_h : Z; cr_fileSize : Z }.
Definition CreateReader (r : option (list byte)) : CrcReader := {| cr_r := r; cr_h := 0; cr_fileSize := 0 |}.

(** [Read] into a buffer of [n] bytes: the tee reader hashes what it passes on. *)
Definition CrcReader_Read (n : nat) (cr : CrcReader) : CrcReader * nat * option error :=
  match cr_r cr with
  | None => (cr, 0%nat, Some err_is_dir)
  | Some [] => (cr, 0%nat, Some io_EOF)
  | Some c =>
      let p := take n c in
      ({| cr_r := Some (drop n c); cr_h := crc64_ecma (cr_h cr) p;
          cr_fileSize := cr_fileSize cr + Z.of_nat (length p) |}, length p, None)
  end.
Definition CrcReader_Crc (cr : CrcReader) : Z := cr_h cr.
Definition CrcReader_FileSize (cr : CrcReader) : Z := cr_fileSize cr.

(** [io.Copy(io.Discard, cr)], 8 kB at a time; each round reads at least one byte. *)
Fixpoint copy_discard (fuel : nat) (cr : CrcReader) : CrcReader * option error :=
  match fuel with
  | O => (cr, None)
  | S fuel =>
      match CrcReader_Read (Z.to_nat 8192) cr with
      | (cr, _, None) => copy_discard fuel cr
      | (cr, _, Some e) => (cr, if decide (e = io_EOF) then None else Some e)
      end
  end.

Definition CrcFileRead (p : path) (d : Disk) : result CrcReader :=
  match d_files d !! p with
  | Some c => Ok (CreateReader (Some c))
  | None => if decide (p ∈ d_dirs d) then Ok (CreateReader None) else Err os_ErrNotExist
  end.

(** [crcfile.Writer] *)
Record CrcWriter := { cw_w : OsFile; cw_h : Z; cw_fileSize : Z }.
Definition CreateWriter (w : OsFile) : CrcWriter := {| cw_w := w; cw_h := 0; cw_fileSize := 0 |}.
Definition CrcWriter_Write (p : list byte) : meth (Disk * CrcWriter) unit := fun '(d, cw) =>
  match os_Write p (d, cw_w cw) with
  | Ret ((d, w), Ok _) => Ret ((d, {| cw_w := w; cw_h := crc64_ecma (cw_h cw) p;
                                      cw_fileSize := cw_fileSize cw + Z.of_nat (length p) |}), Ok tt)
  | Ret ((d, w), Err e) => Ret ((d, {| cw_w := w; cw_h := cw_h cw; cw_fileSize := cw_fileSize cw |}), Err e)
  | Panic m => Panic m
  end.

Definition CrcFileWrite (p : path) : meth Disk CrcWriter :=
  (w <- FileWrite p ;; Meth.ret (CreateWriter w))%go.

(** [fileutil.CreateDirAndTouch]: the temporary file it creates is gone when it returns. *)
Definition touch_dir (dir : path) : meth Disk unit := fun d =>
  if Exist dir d then Ret (d, Err os_ErrExist) else os_MkdirAll dir d.
Definition CreateDirAndTouch (snapshotDir : path) (folderType snapIndex : Z) : meth Disk path := fun d =>
  match GenerateSnapshotFolderPath snapshotDir folderType snapIndex with
  | Err e => Ret (d, Err e)
  | Ok dir => (touch_dir dir ;; Meth.ret dir)%go d
  end.

(** [O_APPEND|O_CREATE|O_WRONLY], one write, close. *)
Definition FileAppendData (p : path) (chunkId : Z) (data : list byte) : meth Disk unit := fun d =>
  match os_Create p d with
  | Ret (d, Ok _) => Ret (set_files (<[p := default [] (d_files d !! p) ++ data]> (d_files d)) d, Ok tt)
  | Ret (d, Err e) => Ret (d, Err e)
  | Panic m => Panic m
  end.

(** The file is opened without [O_CREATE] and synced. *)
Definition FileAppendFinalize (p : path) (totalChunks : Z) : meth Disk unit := fun d =>
  match d_files d !! p with
  | Some _ => Ret (d, Ok tt)
  | None => Ret (d, Err (if decide (p ∈ d_dirs d) then err_is_dir else os_ErrNotExist))
  end.

(** The names of an [os.ReadDir] that parse. *)
Definition parsed (wantDir : bool) (parse : string → result Z) (names : list (string * bool)) : list Z :=
  omap (fun '(n, isDir) => if Bool.eqb isDir wantDir then match parse n with Ok i => Some i | Err _ => None end else None) names.

Definition FindMetadataFile (dirPath : path) (d : Disk) : result (list Z) :=
  match os_ReadDir dirPath d with
  | Err e => Err e
  | Ok names => Ok (parsed false ParseMetadataFileName names)
  end.

Definition ScanInstalledSnapshot (dirPath : path) (d : Disk) : result (list Z) :=
  match os_ReadDir dirPath d with
  | Err e => Err e
  | Ok names => Ok (parsed true ParseSnapshotFolderName names)
  end.

Definition is_ok {A} (r : result A) : bool := match r with Ok _ => true | Err _ => false end.
Definition ScanTempSnapshotFolder (dirPath : path) (d : Disk) : result (list path * list path) :=
  match os_ReadDir dirPath d with
  | Err e => Err e
  | Ok names =>
      let temp := filter (fun '(n, isDir) => isDir && is_ok (ParseWriterTmpFolderName n)) names in
      let recv := filter (fun '(n, isDir) => isDir && negb (is_ok (ParseWriterTmpFolderName n)) &&
                                             is_ok (ParseReceiverTmpFolderName n)) names in
      Ok (Join dirPath ∘ fst <$> temp, Join dirPath ∘ fst <$> recv)
  end.

Definition ExistFilePath (p : path) (d : Disk) : bool := Exist p d.
Definition ExistDir (p : path) (d : Disk) : bool := Exist p d.
Definition SyncDir (p : path) (d : Disk) : result unit := if Exist p d then Ok tt else Err os_ErrNotExist.
Definition RenameDir (src dst : path) : meth Disk unit := os_Rename src dst.
Definition RemoveDir (p : path) : meth Disk unit := os_RemoveAll p.

Definition InstallSnapshotFromTempFolder (snapshotDirPath : path) (folderType snapshotIndex : Z) : meth Disk unit := fun d =>
  match GenerateSnapshotFolderPath snapshotDirPath SnapshotFolderType_InstallSnapshot snapshotIndex with
  | Err e => Ret (d, Err e)
  | Ok installDir =>
      if ExistDir installDir d
      then Ret (d, Err (Errorf "snapshot: the installation directory already exists. path(%s) snapshot idnex(%d)"))
      else match GenerateSnapshotFolderPath snapshotDirPath folderType snapshotIndex with
           | Err e => Ret (d, Err e)
           | Ok sourceDir => RenameDir sourceDir installDir d
           end
  end.

(** ** [codec.Metadata]: length, checksum and encoding *)

Section MetadataCodec.
Context `{Message SnapshotMetadata}.
Open Scope go_scope.

(** The generated [Marshal] does not fail. *)
Definition Encode {W} `{Writer W} (m : SnapshotMetadata) : meth (ByteSlicePool * W) unit :=
  let d := marshal m in
  with_buf 8 (fun _ =>
    on_stream (write_bytes (put_u64 (Z.of_nat (length d)))) ;;
    on_stream (write_bytes (put_u64 (crc64_ecma 0 d))) ;;
    on_stream (write_bytes d)).

Definition Decode : meth (ByteSlicePool * list byte) SnapshotMetadata :=
  with_buf 8 (fun _ =>
    b <- on_stream (read_bytes 8) ;;
    let dataSize := get_u64 b in
    b <- on_stream (read_bytes 8) ;;
    let crc := get_u64 b in
    with_buf (i64 dataSize) (fun _ =>
      dataBuf <- on_stream (read_bytes (Z.to_nat dataSize)) ;;
      if decide (crc ≠ crc64_ecma 0 dataBuf) then Meth.fail (Errorf "snapshotor: mismatch metadata crc(%d != %d)")
      else match unmarshal dataBuf with
           | Some m => Meth.ret m
           | None => Meth.fail (Errorf "proto: wrong encoding")
           end)).
End MetadataCodec.

(** ** Paths *)

Lemma Dir_Join dir n : Dir (Join dir n) = dir.
Proof. unfold Dir, Join. rewrite length_app. simpl. apply take_app_length'. lia. Qed.

Lemma Join_inj d1 n1 d2 n2 : Join d1 n1 = Join d2 n2 → d1 = d2 ∧ n1 = n2.
Proof. apply app_inj_tail. Qed.

Lemma child_Join dir p n : child dir p = Some n ↔ p = Join dir n.
Proof.
  unfold child, Dir, Join. split.
  - case_decide as Hd; [|done]. intros [l ->]%last_Some. f_equal. rewrite length_app in Hd. simpl in Hd.
    by rewrite take_app_length' in Hd by lia.
  - intros ->. rewrite decide_True; [by rewrite last_snoc|]. rewrite length_app. apply take_app_length'. simpl. lia.
Qed.

(** A path is empty or in a directory. *)
Lemma path_cases p : p = [] ∨ ∃ n, p = Join (Dir p) n.
Proof.
  destruct (last p) as [n|] eqn:E; [right|left; by apply last_None].
  apply last_Some in E as [l ->]. exists n. fold (Join l n). by rewrite Dir_Join.
Qed.

Lemma prefix_Join src dir n : src `prefix_of` Join dir n → src = Join dir n ∨ src `prefix_of` dir.
Proof.
  intros [k Hk]. destruct k as [|x k _] using rev_ind; [left; by rewrite app_nil_r in Hk|right].
  unfold Join in Hk. rewrite (assoc_L (++)) in Hk. apply app_inj_tail in Hk as [-> _]. by exists k.
Qed.

Lemma Join_not_prefix dir n : ¬ Join dir n `prefix_of` dir.
Proof. intros ?%prefix_length. unfold Join in *. rewrite length_app in *. simpl in *. lia. Qed.

Lemma elem_of_above p q : q ∈ above p ↔ q `prefix_of` p.
Proof.
  revert q. induction p as [|x p IH]; intros q; simpl.
  - rewrite list_elem_of_singleton. split; [by intros ->|by intros ?%prefix_nil_inv].
  - rewrite elem_of_cons, list_elem_of_fmap. split.
    + intros [->|(k & -> & Hk)]; [apply prefix_nil|]. apply prefix_cons. by apply IH.
    + destruct q as [|y q]; [by left|]. intros Hp. right. exists q.
      pose proof (prefix_cons_inv_1 _ _ _ _ Hp) as ->. split; [done|]. apply IH. by eapply prefix_cons_inv_2.
Qed.

(** ** The shape of a disk *)

(** Files and directories lie in directories, and nothing is both. *)
Record tree (d : Disk) : Prop := {
  tree_files p c : d_files d !! p = Some c → p ≠ [] ∧ Dir p ∈ d_dirs d;
  tree_dirs p : p ∈ d_dirs d → p ≠ [] → Dir p ∈ d_dirs d;
  tree_apart p : is_Some (d_files d !! p) → p ∉ d_dirs d
}.

(** Whatever is above something on the disk is a directory. *)
Lemma tree_above d p q : tree d → p ∈ d_dirs d → q `prefix_of` p → q ∈ d_dirs d.
Proof.
  intros Ht. revert q. induction p as [|x p IH] using rev_ind; intros q Hp Hq.
  - by apply prefix_nil_inv in Hq as ->.
  - destruct (prefix_Join _ _ _ Hq) as [->|Hq']; [done|]. apply IH; [|done].
    pose proof (tree_dirs d Ht _ Hp) as Hd. unfold Dir in Hd. rewrite length_app in Hd. simpl in Hd.
    rewrite take_app_length' in Hd by lia. apply Hd. by destruct p.
Qed.

Lemma tree_files_above d p q : tree d → is_Some (d_files d !! p) → q `prefix_of` p → q ≠ p → q ∈ d_dirs d.
Proof.
  intros Ht [c Hc] Hq Hne. destruct (tree_files d Ht p c Hc) as [Hp Hd].
  destruct (path_cases p) as [?|[n Hn]]; [done|]. rewrite Hn in Hq. apply prefix_Join in Hq as [Hq|Hq].
  - congruence.
  - by eapply tree_above.
Qed.

(** Nothing is under a path that is not there. *)
Lemma nothing_under d dir p : tree d → Exist dir d = false → dir `prefix_of` p → d_files d !! p = None ∧ p ∉ d_dirs d.
Proof.
  intros Ht He Hp. unfold Exist in He. rewrite bool_decide_eq_false in He.
  assert (d_files d !! dir = None ∧ dir ∉ d_dirs d) as [Hf Hd].
  { split; [|tauto]. destruct (d_files d !! dir) eqn:E; [|done]. exfalso. apply He. by left. }
  split.
  - destruct (d_files d !! p) eqn:E; [|done]. exfalso. destruct (decide (dir = p)) as [->|Hne]; [congruence|].
    apply Hd. eapply tree_files_above; [done| |done|done]. by eexists.
  - intros Hin. apply Hd. by eapply tree_above.
Qed.

(** [d] is [d0] with a new directory [dir] that holds the files [got]. *)
Record with_dir (d0 : Disk) (dir : path) (got : gmap string (list byte)) (d : Disk) : Prop := {
  wd_dirs p : p ∈ d_dirs d ↔ p ∈ d_dirs d0 ∨ p = dir;
  wd_in n : d_files d !! Join dir n = got !! n;
  wd_out p : (∀ n, p ≠ Join dir n) → d_files d !! p = d_files d0 !! p
}.

(** [dir] can be made on [d0]. *)
Record room_for (d0 : Disk) (dir : path) : Prop := {
  rf_tree : tree d0;
  rf_nil : dir ≠ [];
  rf_parent : Dir dir ∈ d_dirs d0;
  rf_new : Exist dir d0 = false
}.

Section WithDir.
Context (d0 : Disk) (dir : path) (room : room_for d0 dir).

Lemma room_parts : d_files d0 !! dir = None ∧ dir ∉ d_dirs d0.
Proof. destruct room. by eapply nothing_under. Qed.

Lemma with_dir_tree got d : with_dir d0 dir got d → tree d.
Proof.
  intros [Hd Hin Hout]. destruct room_parts as [Hnf Hnd]. pose proof (rf_tree _ _ room) as Ht.
  assert (∀ p c, d_files d !! p = Some c → (∃ n, p = Join dir n) ∨ d_files d0 !! p = Some c) as Hf.
  { intros p c Hc. destruct (decide (Dir p = dir)) as [<-|Hne].
    - destruct (path_cases p) as [->|?]; [right|by left]. rewrite Hout in Hc; [done|].
      intros n Hn. by destruct (Dir []).
    - right. rewrite Hout in Hc; [done|]. intros n ->. by rewrite Dir_Join in Hne. }
  constructor.
  - intros p c Hc. destruct (Hf p c Hc) as [[n ->]|H0].
    + split; [by destruct dir|]. rewrite Dir_Join. apply Hd. by right.
    + destruct (tree_files _ Ht _ _ H0) as [? ?]. split; [done|]. apply Hd. by left.
  - intros p [Hp| ->]%Hd Hne; apply Hd; left; [by apply tree_dirs|apply (rf_parent _ _ room)].
  - intros p [c Hc] [Hp| ->]%Hd.
    + destruct (Hf p c Hc) as [[n ->]|H0]; [|by eapply tree_apart in Hp; [|done|by eexists]].
      apply Hnd. eapply tree_above; [done|done|]. by exists [n].
    + destruct (Hf dir c Hc) as [[n Hn]|H0]; [|congruence].
      apply (Join_not_prefix dir n). by rewrite <- Hn.
Qed.

Lemma with_dir_Join_no_dir got d n : with_dir d0 dir got d → Join dir n ∉ d_dirs d.
Proof.
  intros [Hd _ _] [Hp|Hp]%Hd.
  - destruct room_parts as [_ Hnd]. apply Hnd. eapply tree_above; [apply room|done|]. by exists [n].
  - apply (Join_not_prefix dir n). by rewrite Hp.
Qed.

Lemma with_dir_update got d n c :
  with_dir d0 dir got d → with_dir d0 dir (<[n := c]> got) (set_files (<[Join dir n := c]> (d_files d)) d).
Proof.
  intros [Hd Hin Hout]. constructor; simpl.
  - done.
  - intros n'. destruct (decide (n = n')) as [->|Hne]; [by rewrite !lookup_insert_eq|].
    rewrite !lookup_insert_ne; [done|done|]. by intros [_ ?]%Join_inj.
  - intros p Hp. rewrite lookup_insert_ne; [by apply Hout|]. intros <-. by eapply Hp.
Qed.

Lemma touch_new : ∃ d, touch_dir dir d0 = Ret (d, Ok tt) ∧ with_dir d0 dir ∅ d.
Proof.
  destruct room_parts as [Hnf Hnd]. pose proof (rf_tree _ _ room) as Ht. destruct (path_cases dir) as [?|[n Hn]]; [by destruct room|].
  assert (∀ q, q `prefix_of` dir → q ≠ dir → q ∈ d_dirs d0) as Habove.
  { intros q Hq Hne. rewrite Hn in Hq. apply prefix_Join in Hq as [?|Hq]; [congruence|].
    eapply tree_above; [done| |done]. apply (rf_parent _ _ room). }
  unfold touch_dir, os_MkdirAll. rewrite (rf_new _ _ room). rewrite decide_False.
  2:{ intros (q & Hq%elem_of_above & Hsome)%Exists_exists. destruct (decide (q = dir)) as [->|Hne].
      - rewrite Hnf in Hsome. by destruct Hsome.
      - eapply tree_apart; [done|done|]. by apply Habove. }
  eexists. split; [done|]. constructor; simpl.
  - intros p. rewrite elem_of_union, elem_of_list_to_set, elem_of_above. split.
    + intros [Hp|?]; [|by left]. destruct (decide (p = dir)); [by right|left; by apply Habove].
    + intros [?| ->]; [by right|by left].
  - intros n'. rewrite lookup_empty. eapply nothing_under; [done|apply room|]. by exists [n'].
  - done.
Qed.

Lemma create_in got d n :
  with_dir d0 dir got d →
  os_Create (Join dir n) d = Ret (match got !! n with
    | Some _ => d
    | None => set_files (<[Join dir n := []]> (d_files d)) d
    end, Ok {| of_path := Join dir n; of_off := 0 |}).
Proof.
  intros Hw. unfold os_Create. rewrite decide_False by by eapply with_dir_Join_no_dir.
  rewrite (wd_in _ _ _ _ Hw). destruct (got !! n); [done|].
  rewrite Dir_Join, decide_True; [done|]. apply (wd_dirs _ _ _ _ Hw). by right.
Qed.

Lemma append_in got d n i data :
  with_dir d0 dir got d →
  ∃ d', FileAppendData (Join dir n) i data d = Ret (d', Ok tt) ∧
    with_dir d0 dir (<[n := default [] (got !! n) ++ data]> got) d'.
Proof.
  intros Hw. unfold FileAppendData. rewrite (create_in _ _ _ Hw). eexists. split; [done|].
  destruct (got !! n) as [c|] eqn:E.
  - rewrite (wd_in _ _ _ _ Hw), E. by apply with_dir_update.
  - pose proof (with_dir_update _ _ n [] Hw) as Hw'. pose proof (wd_in _ _ _ _ Hw' n) as Hn.
    rewrite lookup_insert_eq in Hn. rewrite Hn. simpl.
    pose proof (with_dir_update _ _ n data Hw') as Hw2. by rewrite insert_insert_eq in Hw2.
Qed.

Lemma finalize_in got d n i c :
  with_dir d0 dir got d → got !! n = Some c → FileAppendFinalize (Join dir n) i d = Ret (d, Ok tt).
Proof. intros Hw Hn. unfold FileAppendFinalize. by rewrite (wd_in _ _ _ _ Hw), Hn. Qed.
End WithDir.

(** ** Listing a directory *)

Lemma NoDup_omap {A B} (f : A → option B) (l : list A) :
  (∀ x y z, x ∈ l → y ∈ l → f x = Some z → f y = Some z → x = y) → NoDup l → NoDup (omap f l).
Proof.
  intros Hf. induction 1 as [|x l Hx Hl IH]; simpl; [constructor|].
  assert (NoDup (omap f l)) as Hnd by (apply IH; intros; eapply Hf; try done; by right).
  destruct (f x) as [y|] eqn:E; simpl; [|done]. apply NoDup_cons. split; [|done].
  intros (x' & Hx' & E')%list_elem_of_omap. assert (x = x') as ->; [|done].
  eapply Hf; [by left|by right|done|done].
Qed.

Lemma elem_of_entries dir d n b :
  (n, b) ∈ entries dir d ↔ (b = true ∧ Join dir n ∈ d_dirs d) ∨ (b = false ∧ is_Some (d_files d !! Join dir n)).
Proof.
  unfold entries. rewrite elem_of_app, !list_elem_of_omap. split.
  - intros [(p & Hp & Hc)|([p c] & Hp & Hc)]; apply fmap_Some in Hc as (n' & ->%child_Join & [= -> ->]).
    + left. by rewrite elem_of_elements in Hp.
    + right. apply elem_of_map_to_list in Hp. split; [done|by eexists].
  - intros [[-> Hd]|[-> [c Hc]]]; [left; exists (Join dir n)|right; exists (Join dir n, c)].
    + rewrite elem_of_elements, (proj2 (child_Join dir _ n)) by done. done.
    + rewrite elem_of_map_to_list, (proj2 (child_Join dir _ n)) by done. done.
Qed.

Lemma NoDup_entries dir d : NoDup (entries dir d).
Proof.
  apply NoDup_app. split_and!.
  - apply NoDup_omap; [|apply NoDup_elements]. intros p q z _ _ Hp Hq.
    apply fmap_Some in Hp as (n & ->%child_Join & ->). by apply fmap_Some in Hq as (n' & ->%child_Join & [= ->]).
  - intros [n b] (p & _ & Hp)%list_elem_of_omap ([q c] & _ & Hq)%list_elem_of_omap.
    apply fmap_Some in Hp as (? & _ & [= -> ->]). by apply fmap_Some in Hq as (? & _ & [=]).
  - apply NoDup_omap; [|apply NoDup_map_to_list]. intros [p c] [q c'] z Hp Hq Ep Eq.
    apply elem_of_map_to_list in Hp, Hq.
    apply fmap_Some in Ep as (n & ->%child_Join & ->). apply fmap_Some in Eq as (n' & ->%child_Join & [= ->]).
    congruence.
Qed.

Lemma entries_nil dir d : tree d → Exist dir d = false → entries dir d = [].
Proof.
  intros Ht He. destruct (entries dir d) as [|[n b] l] eqn:E; [done|exfalso].
  assert ((n, b) ∈ entries dir d) as Hin by (rewrite E; by left).
  destruct (nothing_under d dir (Join dir n) Ht He) as [Hf Hd]; [by exists [n]|].
  apply elem_of_entries in Hin as [[_ ?]|[_ Hs]]; [done|]. rewrite Hf in Hs. by destruct Hs.
Qed.

Lemma elem_of_parsed w parse l i :
  i ∈ parsed w parse l ↔ ∃ n, (n, w) ∈ l ∧ parse n = Ok i.
Proof.
  unfold parsed. rewrite list_elem_of_omap. split.
  - intros ([n b] & Hin & Hp). destruct (Bool.eqb b w) eqn:E; [|done]. apply Bool.eqb_prop in E as ->.
    exists n. split; [done|]. by destruct (parse n); simplify_eq.
  - intros (n & Hin & Hp). exists (n, w). split; [done|]. by rewrite Bool.eqb_reflx, Hp.
Qed.

Lemma elem_of_FindMetadataFile dir d l i :
  FindMetadataFile dir d = Ok l →
  i ∈ l ↔ ∃ n, is_Some (d_files d !! Join dir n) ∧ ParseMetadataFileName n = Ok i.
Proof.
  unfold FindMetadataFile, os_ReadDir. case_decide; [|done]. intros [= <-]. rewrite elem_of_parsed.
  setoid_rewrite merge_sort_Permutation. setoid_rewrite elem_of_entries.
  split; intros (n & Hn & Hp); exists n; (split; [|done]); [by destruct Hn as [[??]|[_ ?]]|by right].
Qed.

(** The only metadata file of a directory is found. *)
Lemma find_metadata d0 dir got d n i :
  room_for d0 dir → with_dir d0 dir got d → is_Some (got !! n) → ParseMetadataFileName n = Ok i →
  (∀ n', is_Some (got !! n') → n' ≠ n → ¬ is_ok (ParseMetadataFileName n')) →
  FindMetadataFile dir d = Ok [i].
Proof.
  intros Hroom Hw Hn Hi Hothers. unfold FindMetadataFile, os_ReadDir.
  rewrite decide_True by (apply (wd_dirs _ _ _ _ Hw); by right). f_equal. apply Permutation_singleton_r.
  unfold parsed. rewrite merge_sort_Permutation. fold (parsed false ParseMetadataFileName (entries dir d)).
  apply NoDup_Permutation; [|apply NoDup_singleton|].
  - apply NoDup_omap.
    + intros [n1 b1] [n2 b2] z H1 H2 E1 E2. apply elem_of_entries in H1, H2.
      assert (∀ m c, ((m, c).2 = true ∧ Join dir m ∈ d_dirs d) ∨ ((m, c).2 = false ∧ is_Some (d_files d !! Join dir m)) →
        (if Bool.eqb c false then match ParseMetadataFileName m with Ok i => Some i | Err _ => None end else None) = Some z →
        m = n ∧ c = false) as Hone.
      { intros m c Hm Hz. destruct c; simpl in *; [done|]. destruct Hm as [[? _]|[_ Hm]]; [done|].
        rewrite (wd_in _ _ _ _ Hw) in Hm. split; [|done]. destruct (decide (m = n)); [done|].
        exfalso. apply (Hothers m Hm); [done|]. by destruct (ParseMetadataFileName m). }
      destruct (Hone n1 b1 H1 E1) as [-> ->]. by destruct (Hone n2 b2 H2 E2) as [-> ->].
    + apply NoDup_entries.
  - intros j. rewrite elem_of_parsed, list_elem_of_singleton. split.
    + intros (m & [[? _]|[_ Hm]]%elem_of_entries & Hp); [done|]. rewrite (wd_in _ _ _ _ Hw) in Hm.
      destruct (decide (m = n)) as [->|Hne]; [congruence|]. exfalso. apply (Hothers m Hm Hne). by rewrite Hp.
    + intros ->. exists n. split; [|done]. apply elem_of_entries. right. by rewrite (wd_in _ _ _ _ Hw).
Qed.

(** ** Renaming a directory *)

Section Rename.
Context (src dst : path) (d : Disk).
Context (Ht : tree d) (Hnew : Exist dst d = false).

Lemma moved_inj p q :
  (is_Some (d_files d !! p) ∨ p ∈ d_dirs d) → (is_Some (d_files d !! q) ∨ q ∈ d_dirs d) →
  moved src dst p = moved src dst q → p = q.
Proof using Ht Hnew.
  assert (∀ p r, (is_Some (d_files d !! p) ∨ p ∈ d_dirs d) → p ≠ dst ++ r) as Hno.
  { intros p' r Hp ->. destruct (nothing_under d dst (dst ++ r) Ht Hnew) as [Hf Hd]; [by exists r|].
    rewrite Hf in Hp. by destruct Hp as [[? ?]|?]. }
  intros Hp Hq. unfold moved. case_decide as Ep; case_decide as Eq; intros He; [| | |done].
  - destruct Ep as [rp ->], Eq as [rq ->]. rewrite !drop_app_length in He. by apply app_inv_head in He as ->.
  - by destruct (Hno q (drop (length src) p) Hq).
  - by destruct (Hno p (drop (length src) q) Hp).
Qed.

Lemma moved_lookup p c :
  d_files d !! p = Some c →
  (list_to_map (prod_map (moved src dst) id <$> map_to_list (d_files d)) : gmap path (list byte)) !! moved src dst p = Some c.
Proof using Ht Hnew.
  intros Hp. apply elem_of_list_to_map.
  - rewrite <- list_fmap_compose. apply NoDup_fmap_2_strong; [|apply NoDup_map_to_list].
    intros [p1 c1] [p2 c2] H1%elem_of_map_to_list H2%elem_of_map_to_list He. simpl in He.
    apply moved_inj in He as ->; [congruence|left; by eexists..].
  - apply list_elem_of_fmap. exists (p, c). split; [done|]. by apply elem_of_map_to_list.
Qed.

Lemma moved_lookup_inv q c :
  (list_to_map (prod_map (moved src dst) id <$> map_to_list (d_files d)) : gmap path (list byte)) !! q = Some c →
  ∃ p, q = moved src dst p ∧ d_files d !! p = Some c.
Proof.
  intros Hq%elem_of_list_to_map_2. apply list_elem_of_fmap in Hq as ([p c'] & Heq & Hp%elem_of_map_to_list).
  simplify_eq/=. by exists p.
Qed.

(** A renamed directory: what was under [src] is under [dst], the rest is untouched. *)
Lemma rename_spec :
  src ∈ d_dirs d → Dir dst ∈ d_dirs d → ¬ src `prefix_of` dst →
  ∃ d', os_Rename src dst d = Ret (d', Ok tt) ∧
    (∀ r, d_files d' !! (dst ++ r) = d_files d !! (src ++ r)) ∧
    (∀ p, ¬ src `prefix_of` p → ¬ dst `prefix_of` p → d_files d' !! p = d_files d !! p) ∧
    (∀ p, ¬ dst `prefix_of` p → src `prefix_of` p → d_files d' !! p = None) ∧
    (∀ p, p ∈ d_dirs d' ↔ (p ∈ d_dirs d ∧ ¬ src `prefix_of` p) ∨ ∃ r, p = dst ++ r ∧ src ++ r ∈ d_dirs d).
Proof using Ht Hnew.
  intros Hsrc Hdst Hpre. unfold os_Rename. rewrite decide_False by tauto.
  assert (d_files d !! dst = None) as Hnf by by eapply nothing_under.
  rewrite decide_False by (intros [Hs|?]; [rewrite Hnf in Hs; by destruct Hs|done]).
  rewrite decide_False by (rewrite entries_nil by done; tauto).
  eexists. split; [done|]. simpl.
  assert (∀ r, moved src dst (src ++ r) = dst ++ r) as Hm.
  { intros r. unfold moved. rewrite decide_True by by exists r. by rewrite drop_app_length. }
  split_and!.
  - intros r. destruct (d_files d !! (src ++ r)) as [c|] eqn:E; [rewrite <- Hm; by apply moved_lookup|].
    apply eq_None_not_Some. intros [c (p & Hp & Hc)%moved_lookup_inv]. unfold moved in Hp. case_decide as Hs.
    + destruct Hs as [k ->]. rewrite drop_app_length in Hp. apply app_inv_head in Hp as ->. congruence.
    + subst p. destruct (nothing_under d dst (dst ++ r) Ht Hnew) as [? _]; [by exists r|]. congruence.
  - intros p Hs Hd. assert (moved src dst p = p) as Hmp by (unfold moved; by rewrite decide_False).
    destruct (d_files d !! p) as [c|] eqn:E; [rewrite <- Hmp at 1; by apply moved_lookup|].
    apply eq_None_not_Some. intros [c (q & Hq & Hc)%moved_lookup_inv]. unfold moved in Hq. case_decide.
    + apply Hd. rewrite Hq. by eexists.
    + congruence.
  - intros p Hd Hs. apply eq_None_not_Some. intros [c (q & Hq & Hc)%moved_lookup_inv]. unfold moved in Hq.
    case_decide; [apply Hd; rewrite Hq; by eexists|congruence].
  - intros p. rewrite elem_of_map. split.
    + intros (q & -> & Hq). unfold moved. case_decide as Hs; [right|by left].
      destruct Hs as [r ->]. exists r. by rewrite drop_app_length.
    + intros [[Hp Hs]|(r & -> & Hr)]; [exists p; unfold moved; by rewrite decide_False|].
      exists (src ++ r). by rewrite Hm.
Qed.
End Rename.

(** ** Reading a whole file through the checksum *)

Lemma copy_discard_spec fuel c h n :
  (length c < fuel)%nat →
  copy_discard fuel {| cr_r := Some c; cr_h := h; cr_fileSize := n |}
  = ({| cr_r := Some []; cr_h := crc64_ecma h c; cr_fileSize := n + Z.of_nat (length c) |}, None).
Proof.
  revert c h n. induction fuel as [|fuel IH]; intros c h n Hf; [lia|]. cbn [copy_discard].
  unfold CrcReader_Read. cbn [cr_r]. destruct c as [|b c].
  - rewrite decide_True by done. unfold crc64_ecma. rewrite crc_update_nil. simpl. by rewrite Z.add_0_r.
  - generalize (Z.to_nat 8192) (eq_refl : (0 <? Z.to_nat 8192)%nat = true). intros k Hk%Nat.ltb_lt.
    cbn [cr_h cr_fileSize]. rewrite IH.
    + unfold crc64_ecma. rewrite <- crc_update_app, take_drop. do 2 f_equal.
      rewrite <- Z.add_assoc, <- Nat2Z.inj_add, <- length_app, take_drop. done.
    + rewrite length_drop. simpl in *. lia.
Qed.

(** The new directory takes another name. *)
Lemma rename_with_dir d0 src dst got d :
  room_for d0 src → room_for d0 dst → with_dir d0 src got d →
  ¬ src `prefix_of` dst → ¬ dst `prefix_of` src →
  ∃ d', os_Rename src dst d = Ret (d', Ok tt) ∧ with_dir d0 dst got d'.
Proof.
  intros Hs Hd Hw Hsd Hds. destruct (room_parts _ _ Hs) as [Hsf Hsn]. destruct (room_parts _ _ Hd) as [Hdf Hdn].
  assert (dst ∉ d_dirs d) as Hdn'.
  { intros [?| ->]%(wd_dirs _ _ _ _ Hw); [done|]. by apply Hsd. }
  assert (d_files d !! dst = None) as Hdf'.
  { rewrite (wd_out _ _ _ _ Hw); [done|]. intros n ->. apply Hsd. by exists [n]. }
  destruct (rename_spec src dst d) as (d' & E & Hto & Hrest & Hgone & Hdirs).
  - by apply (with_dir_tree d0 src Hs got).
  - apply bool_decide_eq_false. rewrite Hdf'. intros [[? ?]|?]; done.
  - apply (wd_dirs _ _ _ _ Hw). by right.
  - apply (wd_dirs _ _ _ _ Hw). left. apply (rf_parent _ _ Hd).
  - done.
  - exists d'. split; [done|].
    assert (∀ dir p, room_for d0 dir → p ∈ d_dirs d0 → ¬ dir `prefix_of` p) as Habove.
    { intros dir p Hr Hp Hpre. destruct (room_parts _ _ Hr) as [_ Hn]. apply Hn.
      eapply tree_above; [apply Hr|done|done]. }
    constructor.
    + intros p. rewrite Hdirs. setoid_rewrite (wd_dirs _ _ _ _ Hw). split.
      * intros [[[Hp| ->] Hn]|(r & -> & [Hr|Hr])]; [by left|by destruct Hn| |].
        -- exfalso. eapply Habove; [exact Hs|exact Hr|]. by exists r.
        -- right. apply (f_equal length) in Hr. rewrite length_app in Hr. destruct r; [by rewrite app_nil_r|simpl in Hr; lia].
      * intros [Hp| ->]; [left|right].
        -- split; [by left|]. by apply Habove.
        -- exists []. rewrite !app_nil_r. split; [done|]. by right.
    + intros n. unfold Join. rewrite Hto. apply (wd_in _ _ _ _ Hw).
    + intros p Hp. assert (∀ dir, room_for d0 dir → (∀ n, p ≠ Join dir n) → dir `prefix_of` p → d_files d0 !! p = None) as Hnone.
      { intros dir Hr _ Hpre. eapply nothing_under; [apply Hr|apply (rf_new _ _ Hr)|done]. }
      destruct (decide (dst `prefix_of` p)) as [[r ->]|Hnd].
      * rewrite Hto, (Hnone dst) by (done || by exists r). rewrite (wd_out _ _ _ _ Hw).
        -- eapply nothing_under; [apply Hs|apply (rf_new _ _ Hs)|by exists r].
        -- intros n Hn. unfold Join in Hn. apply app_inv_head in Hn as ->. by eapply (Hp n).
      * destruct (decide (src `prefix_of` p)) as [Hsp|Hns].
        -- rewrite Hgone by done. symmetry. eapply nothing_under; [apply Hs|apply (rf_new _ _ Hs)|done].
        -- rewrite Hrest by done. apply (wd_out _ _ _ _ Hw). intros n ->. apply Hns. by exists [n].
Qed.

(** ** Names *)

Lemma scan_metadata i : is_u64 i → ParseMetadataFileName (hex16 i ".metadata") = Ok i.
Proof. intros Hi. unfold ParseMetadataFileName, scan_name. cbn [scan_literal]. by rewrite scan_hex16. Qed.

(** No other file of a snapshot is taken for its metadata. *)
Lemma scan_other ft i tag n :
  is_u64 i → ft ≠ SnapshotFileType_Metadata → SnapshotFileName ft i tag = Ok n →
  ¬ is_ok (ParseMetadataFileName n).
Proof.
  intros Hi Hft. unfold SnapshotFileName. rewrite (decide_False _ _ Hft).
  unfold ParseMetadataFileName, scan_name. cbn [scan_literal].
  repeat case_decide; intros [= <-]; rewrite scan_hex16 by done; intros Hc; vm_compute in Hc; done.
Qed.

(** The names of the folders of a snapshot differ in their first letters. *)
Lemma folders_apart root i n1 n2 :
  SnapshotFolderName SnapshotFolderType_TempReceive i = Ok n1 ∨ SnapshotFolderName SnapshotFolderType_TempWrite i = Ok n1 →
  SnapshotFolderName SnapshotFolderType_InstallSnapshot i = Ok n2 →
  ¬ Join root n1 `prefix_of` Join root n2 ∧ ¬ Join root n2 `prefix_of` Join root n1.
Proof.
  intros H1 [= <-]. assert (n1 ≠ String.app snapshotFolderNamePrefix (hex16 i "")) as Hne.
  { by destruct H1 as [[= <-]|[= <-]]. }
  split; intros [[? ?]%Join_inj|?%Join_not_prefix]%prefix_Join; congruence.
Qed.

(** ** The metadata file *)

Lemma crc64_range p : is_u64 (crc64_ecma 0 p).
Proof. apply crc_update_range; lia. Qed.

Section CodecSpec.
Context `{Message SnapshotMetadata} (L : list Z).

Definition enc_metadata (m : SnapshotMetadata) : list byte :=
  put_u64 (Z.of_nat (length (marshal m))) ++ put_u64 (crc64_ecma 0 (marshal m)) ++ marshal m.

(** The pool has a buffer for the encoding. *)
Definition metadata_fits (m : SnapshotMetadata) : Prop :=
  serves L 8 ∧ serves L (Z.of_nat (length (marshal m))) ∧ Z.of_nat (length (marshal m)) < 2 ^ 63.

Lemma Encode_writes {W} `{LawfulWriter W} m : metadata_fits m → writes L (Encode m) (enc_metadata m).
Proof.
  intros (H8 & _ & _). apply writes_buf; [done|]. intros _ _.
  apply writes_bind; [auto with streams|]. apply writes_bind; auto with streams.
Qed.

Lemma Decode_reads m : metadata_fits m → reads L Decode (enc_metadata m) m.
Proof.
  intros (H8 & Hn & Hlt). apply reads_buf; [done|]. intros _ _. unfold enc_metadata.
  eapply reads_bind; [apply reads_bytes; by rewrite length_put_u64|]. cbv beta zeta.
  eapply reads_bind; [apply reads_bytes; by rewrite length_put_u64|]. cbv beta zeta.
  rewrite !get_put_u64 by (apply crc64_range || lia). rewrite i64_small, Nat2Z.id by lia.
  apply reads_buf; [done|]. intros _ _.
  eapply reads_bind_last; [by apply reads_bytes|]. cbv beta. rewrite decide_False by (intros Hn'; by apply Hn').
  rewrite unmarshal_marshal. apply reads_ret.
Qed.
End CodecSpec.

(** A file opened at its start: what was written is what it holds. *)
Section FileWriter.
Context (p : path) (d0 : Disk).

Definition file_wrote (w : Disk * OsFile) (out : list byte) : Prop :=
  w = (set_files (<[p := out]> (d_files d0)) d0, {| of_path := p; of_off := length out |}).

Lemma os_Write_wrote w out b :
  file_wrote w out → ∃ w', os_Write b w = Ret (w', Ok tt) ∧ file_wrote w' (out ++ b).
Proof.
  intros ->. unfold os_Write. simpl. rewrite lookup_insert_eq. simpl. eexists. split; [done|].
  unfold file_wrote, set_files. simpl. rewrite insert_insert_eq, take_ge, drop_ge, app_nil_r, length_app by lia. done.
Qed.
End FileWriter.

(** ** Every operation keeps the shape of the disk *)

Lemma Dir_prefix p : Dir p `prefix_of` p.
Proof. exists (drop (length p - 1) p). unfold Dir. by rewrite take_drop. Qed.

Lemma tree_insert d p c :
  tree d → (is_Some (d_files d !! p)) ∨ (p ≠ [] ∧ (p ∉ d_dirs d) ∧ (Dir p ∈ d_dirs d)) →
  tree (set_files (<[p := c]> (d_files d)) d).
Proof.
  intros Ht Hp. constructor; simpl.
  - intros q b. rewrite lookup_insert_Some. intros [[<- <-]|[_ Hq]]; [|by eapply tree_files].
    destruct Hp as [[b Hb]|(? & _ & ?)]; [by eapply tree_files|done].
  - apply Ht.
  - intros q [b Hb]. apply lookup_insert_Some in Hb as [[<- <-]|[_ Hq]]; [|apply (tree_apart d Ht); by eexists].
    destruct Hp as [?|(_ & ? & _)]; [by apply (tree_apart d Ht)|done].
Qed.

Lemma tree_create p d d' f : tree d → os_Create p d = Ret (d', Ok f) →
  tree d' ∧ f = {| of_path := p; of_off := 0 |} ∧ is_Some (d_files d' !! p).
Proof.
  intros Ht. unfold os_Create. case_decide as Hd; [done|]. destruct (d_files d !! p) as [c|] eqn:E.
  - intros [= <- <-]. split_and!; [done|done|by eexists].
  - case_decide as Hp; [|done]. intros [= <- <-]. split_and!; [|done|simpl; rewrite lookup_insert_eq; by eexists].
    apply tree_insert; [done|]. right. split_and!; [|done|done]. intros ->. by apply Hd.
Qed.

Lemma tree_create_any p d d' r : tree d → os_Create p d = Ret (d', r) → tree d'.
Proof.
  intros Ht. destruct r as [f|e]; [intros E; by eapply tree_create|].
  unfold os_Create. case_decide; [by intros [= <- _]|]. destruct (d_files d !! p); [done|]. case_decide; [done|]. by intros [= <- _].
Qed.

Lemma tree_append p i data d d' r : tree d → FileAppendData p i data d = Ret (d', r) → tree d'.
Proof.
  intros Ht. unfold FileAppendData. destruct (os_Create p d) as [[d1 [f|e]]|] eqn:E; [| |done].
  - intros [= <- _]. destruct (tree_create _ _ _ _ Ht E) as (Ht1 & _ & Hs). apply tree_insert; [done|by left].
  - intros [= <- _]. by eapply tree_create_any.
Qed.

Lemma tree_mkdir p d d' r : tree d → os_MkdirAll p d = Ret (d', r) → tree d'.
Proof.
  intros Ht. unfold os_MkdirAll. case_decide as Hex; [by intros [= <- _]|]. intros [= <- _].
  assert (∀ q, q ∈ d_dirs d ∨ q `prefix_of` p → Dir q ∈ (list_to_set (above p) ∪ d_dirs d : gset path)) as Hup.
  { intros q Hq. rewrite elem_of_union, elem_of_list_to_set, elem_of_above. destruct Hq as [Hq|Hq].
    - right. eapply tree_above; [done|done|apply Dir_prefix].
    - left. etrans; [apply Dir_prefix|done]. }
  constructor; simpl.
  - intros q c Hq. destruct (tree_files d Ht q c Hq). split; [done|]. apply elem_of_union. by right.
  - intros q Hq _. apply Hup. rewrite elem_of_union, elem_of_list_to_set, elem_of_above in Hq. tauto.
  - intros q Hs. rewrite elem_of_union, elem_of_list_to_set. intros [Hq|Hq]; [|by eapply tree_apart].
    apply Hex, Exists_exists. by exists q.
Qed.

Lemma tree_touch p d d' r : tree d → touch_dir p d = Ret (d', r) → tree d'.
Proof. intros Ht. unfold touch_dir. destruct (Exist p d); [by intros [= <- _]|by apply tree_mkdir]. Qed.

Lemma tree_remove p d d' r : tree d → os_RemoveAll p d = Ret (d', r) → tree d'.
Proof.
  intros Ht [= <- _]. assert (∀ q, ¬ p `prefix_of` q → ¬ p `prefix_of` Dir q) as Hup.
  { intros q Hq Hp. apply Hq. etrans; [done|apply Dir_prefix]. }
  constructor; simpl.
  - intros q c [Hq Hn]%map_lookup_filter_Some. destruct (tree_files d Ht q c Hq). split; [done|].
    apply elem_of_filter. split; [by apply Hup|done].
  - intros q [Hn Hq]%elem_of_filter Hne. apply elem_of_filter. split; [by apply Hup|by apply (tree_dirs d Ht)].
  - intros q [c [Hq _]%map_lookup_filter_Some] [_ Hd]%elem_of_filter. eapply tree_apart; [done| |done]. by eexists.
Qed.

Lemma tree_rename src dst d d' :
  tree d → Exist dst d = false → os_Rename src dst d = Ret (d', Ok tt) → tree d'.
Proof.
  intros Ht Hex E. assert (src ∈ d_dirs d ∧ Dir dst ∈ d_dirs d ∧ ¬ src `prefix_of` dst) as (Hs & Hp & Hpre).
  { unfold os_Rename in E. case_decide as H1; [done|]. case_decide as H2; [done|].
    destruct (decide (src ∈ d_dirs d)); [|tauto]. destruct (decide (Dir dst ∈ d_dirs d)); tauto. }
  destruct (rename_spec src dst d Ht Hex Hs Hp Hpre) as (d2 & E2 & Hto & Hrest & Hgone & Hdirs).
  rewrite E2 in E. simplify_eq. assert (dst ≠ []) as Hdst.
  { intros ->. assert ([] ∈ d_dirs d) as Hn by (eapply tree_above; [done|exact Hs|apply prefix_nil]).
    unfold Exist in Hex. rewrite bool_decide_eq_false in Hex. tauto. }
  assert (∀ q, q ∈ d_dirs d → ¬ dst `prefix_of` q) as Hnew.
  { intros q Hq Hd. by destruct (nothing_under d dst q Ht Hex Hd). }
  assert (∀ q, ¬ src `prefix_of` q → Dir q ∈ d_dirs d → Dir q ∈ d_dirs d') as Hkeep.
  { intros q Hn Hq. apply Hdirs. left. split; [done|]. intros Hp'. apply Hn. etrans; [done|apply Dir_prefix]. }
  assert (∀ r, r ≠ [] → Dir (src ++ r) ∈ d_dirs d → Dir (dst ++ r) ∈ d_dirs d') as Hmove.
  { intros r Hr Hin. destruct (path_cases r) as [?|[n Hn]]; [done|]. rewrite Hn in Hin |- *.
    assert (∀ a, Dir (a ++ Join (Dir r) n) = a ++ Dir r) as Ha.
    { intros a. unfold Join at 1. rewrite (assoc_L (++)). apply (Dir_Join (a ++ Dir r) n). }
    rewrite Ha in Hin |- *. apply Hdirs. right. by exists (Dir r). }
  assert (∀ q, ¬ dst `prefix_of` q → ∀ c, d_files d' !! q = Some c → d_files d !! q = Some c ∧ ¬ src `prefix_of` q) as Hold.
  { intros q Hd c Hc. destruct (decide (src `prefix_of` q)) as [Hsq|Hsq].
    - by rewrite Hgone in Hc.
    - by rewrite Hrest in Hc. }
  constructor.
  - intros q c Hc. destruct (decide (dst `prefix_of` q)) as [[r ->]|Hnd].
    + split; [by destruct dst|]. rewrite Hto in Hc. destruct (tree_files d Ht _ _ Hc) as [_ Hd].
      apply Hmove; [|done]. intros ->. rewrite app_nil_r in Hc. eapply (tree_apart d Ht src); [by eexists|done].
    + destruct (Hold q Hnd c Hc) as [Hc' Hsq]. destruct (tree_files d Ht _ _ Hc'). split; [done|by apply Hkeep].
  - intros q [[Hq Hn]|(r & -> & Hr)]%Hdirs Hne; [apply Hkeep; [done|by apply (tree_dirs d Ht)]|].
    destruct (decide (r = [])) as [->|Hr0].
    + rewrite app_nil_r. apply Hkeep; [done|done].
    + apply Hmove; [done|]. apply (tree_dirs d Ht); [done|]. by destruct src, r.
  - intros q [c Hc] [[Hq Hn]|(r & -> & Hr)]%Hdirs.
    + destruct (Hold q (Hnew q Hq) c Hc) as [Hc' _]. eapply (tree_apart d Ht q); [by eexists|done].
    + rewrite Hto in Hc. eapply (tree_apart d Ht); [by eexists|done].
Qed.
