(* ===== verification/SnapshotIo.v ===== *)
(** * Writing, reading, receiving and keeping snapshots

    [pkg/snapshot/io] (writer, reader, chunk and file validators, receiver) and
    [pkg/snapshot/snapshotor.go], which owns the installed snapshots.  All of them work on
    one world: the buffer pool, the disk and the snapshotor.  The lock of the snapshotor is
    held for each of its methods; its purge goroutine is the step [purgeSnapshot].  The
    snappy codec and the application's handler of external files are parameters. *)

From S2P Require Import Prelude Raftpb Allocator Streams LogFiles SnapshotFs.

(** ** The state *)

Record ExternalFileDescriptor := { ef_FileTag : string; ef_LocationUri : string; ef_Metadata : list byte }.
Record Config := { c_SnapshotVersion : Z; MaxSnapFiles : Z; SnapshotDir : path }.

Record Snapshotor := {
  config : Config;
  installedSnapshot : gset Z;
  externalFileHandler : option (Z → list ExternalFileDescriptor → option error);
  received : list (Z * list ExternalFileDescriptor)   (* the calls of the handler *)
}.

Record World := { w_pool : ByteSlicePool; w_disk : Disk; w_snap : Snapshotor }.
Definition set_disk (d : Disk) (w : World) : World := {| w_pool := w_pool w; w_disk := d; w_snap := w_snap w |}.
Definition set_snap (s : Snapshotor) (w : World) : World := {| w_pool := w_pool w; w_disk := w_disk w; w_snap := s |}.
Definition set_installed (i : gset Z) (s : Snapshotor) : Snapshotor :=
  {| config := config s; installedSnapshot := i; externalFileHandler := externalFileHandler s; received := received s |}.
Definition add_received (c : Z * list ExternalFileDescriptor) (s : Snapshotor) : Snapshotor :=
  {| config := config s; installedSnapshot := installedSnapshot s; externalFileHandler := externalFileHandler s;
     received := received s ++ [c] |}.

(** A method of the disk, a query of the disk, a pure result. *)
Definition on_disk {A} (m : meth Disk A) : meth World A := fun w =>
  '(d, r) ← m (w_disk w); Ret (set_disk d w, r).
Definition ask {A} (q : Disk → result A) : meth World A := fun w => Ret (w, q (w_disk w)).
Definition lift {A} (r : result A) : meth World A := fun w => Ret (w, r).
Definition on_snap (f : Snapshotor → Snapshotor) : meth World unit := fun w => Ret (set_snap (f (w_snap w)) w, Ok tt).

(** A file of the disk as an [io.Writer]. *)
#[export] Instance file_writer : Writer (Disk * OsFile) := fun w data =>
  '(w, r) ← os_Write data w; Ret (w, match r with Ok _ => None | Err e => Some e end).

Section Snapshots.
Context `{Message SnapshotMetadata, MapRange}.
Open Scope go_scope.

(** [metadataCodec.Encode] to an open file and [Decode] of what a file holds. *)
Definition encode_to (f : OsFile) (m : SnapshotMetadata) : meth World unit := fun w =>
  '((p, (d, _)), r) ← Encode m (w_pool w, (w_disk w, f));
  Ret ({| w_pool := p; w_disk := d; w_snap := w_snap w |}, r).
Definition decode_of (c : list byte) : meth World SnapshotMetadata := fun w =>
  '((p, _), r) ← Decode (w_pool w, c);
  Ret ({| w_pool := p; w_disk := w_disk w; w_snap := w_snap w |}, r).

(** ** [validator.go] *)

(** [SnapshotChunkMessage]; [v.snapshotIndex] is never set and only used in messages. *)
Record SnapshotChunkMessage := {
  ck_FileType : Z; FileTag : string; Id : Z; Data : list byte; ContinueCrc32 : Z; LastChunk : bool
}.

Record ChunkValidator := {
  filePath : path; nextChunkId : Z; receivedSize : Z; continueCrc32 : Z; finish : bool
}.
Definition NewChunkValidator (p : path) : ChunkValidator :=
  {| filePath := p; nextChunkId := 1; receivedSize := 0; continueCrc32 := 0; finish := false |}.

Definition err_finished : error := Errorf "snapshotor[index=%d]: already finished chunk (tag=%s)".
Definition err_chunk_id : error := Errorf "snapshotor[index=%d]: not expectd chunk id (expectd=%d,get=%d)".
Definition err_chunk_crc : error := Errorf "snapshotor[index=%d]: mismatch chunk crc (expected=%d,get=%d) (tag=%s)".

(** The running checksum is replaced before it is compared. *)
Definition ValidateAndAppend (msg : SnapshotChunkMessage) : meth (Disk * ChunkValidator) unit := fun '(d, v) =>
  if finish v then Ret ((d, v), Err err_finished)
  else if decide (nextChunkId v ≠ Id msg) then Ret ((d, v), Err err_chunk_id)
  else
    let v := {| filePath := filePath v; nextChunkId := nextChunkId v; receivedSize := receivedSize v;
                continueCrc32 := crc32c (continueCrc32 v) (Data msg); finish := finish v |} in
    if decide (continueCrc32 v ≠ ContinueCrc32 msg) then Ret ((d, v), Err err_chunk_crc)
    else
      let v := {| filePath := filePath v; nextChunkId := nextChunkId v;
                  receivedSize := receivedSize v + Z.of_nat (length (Data msg));
                  continueCrc32 := continueCrc32 v; finish := finish v |} in
      '(d, r) ← FileAppendData (filePath v) (nextChunkId v) (Data msg) d;
      match r with
      | Err e => Ret ((d, v), Err e)
      | Ok _ =>
          if LastChunk msg then
            let v' := {| filePath := filePath v; nextChunkId := nextChunkId v; receivedSize := receivedSize v;
                         continueCrc32 := continueCrc32 v; finish := true |} in
            '(d, r) ← FileAppendFinalize (filePath v) (nextChunkId v) d; Ret ((d, v'), r)
          else
            Ret ((d, {| filePath := filePath v; nextChunkId := i64 (nextChunkId v + 1); receivedSize := receivedSize v;
                        continueCrc32 := continueCrc32 v; finish := finish v |}), Ok tt)
      end.

Definition GetMetadataFile (dir : path) : meth World SnapshotMetadata :=
  snapshotIndexes <- ask (FindMetadataFile dir) ;;
  match snapshotIndexes with
  | [] => Meth.fail (Errorf "snapshotor: not found metadata file in dir %s")
  | [index] =>
      filename <- lift (SnapshotFileName SnapshotFileType_Metadata index "") ;;
      r <- ask (FileRead (Join dir filename)) ;;
      decode_of r
  | _ => Meth.fail (Errorf "snapshotor: found more than one metadata file in dir %s (files=%d)")
  end.

Definition err_not_found : error := Errorf "snapshotor[index=%d]: not found snapshot file (tag=%s, external=%t)".
Definition err_size : error := Errorf "snapshotor[index=%d]: mismatch file size(%d != %d) (tag=%s)".
Definition err_crc : error := Errorf "snapshotor[index=%d]: mismatch crc(%d != %d) (tag=%s)".

(** The path a file is checked at. *)
Definition file_path (dir : path) (index : Z) (f : SnapshotFileDesc) : result path :=
  if IsExternal f then Ok (Join (Join dir "external") (Tag f))
  else match SnapshotFileName (FileType f) index (Tag f) with Ok n => Ok (Join dir n) | Err e => Err e end.

(** One round of [ValidateSnapshotFiles]. *)
Definition validate_file (dir : path) (index : Z) (skip : bool) (f : SnapshotFileDesc) (d : Disk) : result unit :=
  if skip && IsExternal f then Ok tt
  else match file_path dir index f with
       | Err e => Err e
       | Ok fp =>
           if negb (ExistFilePath fp d) then Err err_not_found
           else match CrcFileRead fp d with
                | Err e => Err e
                | Ok crcR =>
                    match copy_discard (S (length (default [] (cr_r crcR)))) crcR with
                    | (_, Some e) => Err e
                    | (crcR, None) =>
                        if decide (CrcReader_FileSize crcR ≠ FileSize f) then Err err_size
                        else if decide (CrcReader_Crc crcR ≠ FileCrc64 f) then Err err_crc
                        else Ok tt
                    end
                end
       end.

Fixpoint validate_files (dir : path) (index : Z) (skip : bool) (fs : list (string * SnapshotFileDesc)) (d : Disk) : result unit :=
  match fs with
  | [] => Ok tt
  | (_, f) :: fs => match validate_file dir index skip f d with
                    | Err e => Err e
                    | Ok _ => validate_files dir index skip fs d
                    end
  end.

Definition ValidateSnapshotFiles (dir : path) (m : SnapshotMetadata) (skipExternal : bool) (d : Disk) : result unit :=
  validate_files dir (md_Index m) skipExternal (range (Files m)) d.

(** ** [snapshotor.go]: the installed snapshots *)

Definition getInstalledSnapshotMetadata (snapIndex : Z) : meth World SnapshotMetadata :=
  w <- Meth.get ;;
  if decide (snapIndex ∉ installedSnapshot (w_snap w)) then Meth.fail (Errorf "snapshot: not found snapshot index=%d")
  else
    dir <- lift (GenerateSnapshotFolderPath (SnapshotDir (config (w_snap w))) SnapshotFolderType_InstallSnapshot snapIndex) ;;
    metadataFilePath <- lift (GenerateSnapshotFilePath dir SnapshotFileType_Metadata snapIndex "") ;;
    or <- ask (FileRead metadataFilePath) ;;
    decode_of or.

(** The external files of a snapshot, in the order the map is iterated. *)
Definition external_files (m : SnapshotMetadata) : list ExternalFileDescriptor :=
  omap (fun '(tag, f) => if IsExternal f
    then Some {| ef_FileTag := tag; ef_LocationUri := LocationUri f; ef_Metadata := Metadata f |} else None) (range (Files m)).

(** [commitSnapshot]; a handler's error leaves the snapshot installed. *)
Definition CommitSnapshot (folderType snapshotIndex : Z) : meth World unit :=
  w <- Meth.get ;;
  let dir := SnapshotDir (config (w_snap w)) in
  if decide (snapshotIndex ∈ installedSnapshot (w_snap w)) then
    Meth.fail (Errorf "snapshot: the installed snapshot already exists. (snapshot index=%d)")
  else
    on_disk (InstallSnapshotFromTempFolder dir folderType snapshotIndex) ;;
    ask (SyncDir dir) ;;
    on_snap (fun s => set_installed ({[snapshotIndex]} ∪ installedSnapshot s) s) ;;
    meta <- getInstalledSnapshotMetadata snapshotIndex ;;
    let externalFiles := external_files meta in
    if decide (externalFiles = []) then Meth.ret tt
    else match externalFileHandler (w_snap w) with
         | None => Meth.ret tt
         | Some h =>
             on_snap (add_received (snapshotIndex, externalFiles)) ;;
             match h snapshotIndex externalFiles with
             | None => Meth.ret tt
             | Some e => Meth.fail (Errorf "snapshot: ExternalFileHandler.OnSnapshotReceived failed for index=%d: %w")
             end
         end.

Definition SnapshotVersion (s : Snapshotor) : Z := c_SnapshotVersion (config s).

(** [getInstalledSnapshotIndexSlice]: sorted, whatever the order of the map. *)
Definition getInstalledSnapshotIndexSlice (s : Snapshotor) : list Z := merge_sort Z.le (elements (installedSnapshot s)).

(** The last pair of [walSnaps] that matches. *)
Fixpoint find_wal (meta : SnapshotMetadata) (walSnaps : list WalSnapshot) : bool :=
  match walSnaps with
  | [] => false
  | ws :: rest =>
      find_wal meta rest ||
      bool_decide (sm_term (snap_meta (md_Snapshot meta)) = ws_term ws ∧ md_Index meta = ws_index ws)
  end.

Fixpoint load_loop (walSnaps : list WalSnapshot) (newest_first : list Z) : meth World (option Snapshot) :=
  match newest_first with
  | [] => Meth.ret None
  | index :: rest =>
      meta <- getInstalledSnapshotMetadata index ;;
      if find_wal meta walSnaps then Meth.ret (Some (md_Snapshot meta)) else load_loop walSnaps rest
  end.

Definition LoadLastValidSnapshot (walSnaps : list WalSnapshot) : meth World (option Snapshot) :=
  w <- Meth.get ;;
  load_loop walSnaps (reverse (getInstalledSnapshotIndexSlice (w_snap w))).

(** The loop of [purgeSnapshot] over the sorted indexes. *)
Fixpoint purge_loop (dir : path) (max bound : Z) (install : list Z) : meth World unit :=
  if decide (Z.of_nat (length install) <= max) then Meth.ret tt
  else match install with
       | [] => Meth.panic "index out of range"
       | i :: rest =>
           (if decide (i < bound) then
              dir' <- lift (GenerateSnapshotFolderPath dir SnapshotFolderType_InstallSnapshot i) ;;
              on_disk (RemoveDir dir') ;;
              on_snap (fun s => set_installed (installedSnapshot s ∖ {[i]}) s)
            else Meth.ret tt) ;;
           purge_loop dir max bound rest
       end.

Definition purgeSnapshot (snapshot : Snapshot) : meth World unit :=
  w <- Meth.get ;;
  let s := w_snap w in
  purge_loop (SnapshotDir (config s)) (i64 (MaxSnapFiles (config s))) (sm_index (snap_meta snapshot))
    (getInstalledSnapshotIndexSlice s).

Definition removeTempDir : meth World unit :=
  w <- Meth.get ;;
  dirs <- ask (ScanTempSnapshotFolder (SnapshotDir (config (w_snap w)))) ;;
  for_each (fun dir => on_disk (RemoveDir dir)) dirs.1 ;;
  for_each (fun dir => on_disk (RemoveDir dir)) dirs.2.

(** One folder of [scanInstalledSnapshot]: a folder without readable metadata is passed
    over, one whose files do not check out ends the scan. *)
Definition scan_folder (root : path) (snapshotIndex : Z) : meth World unit :=
  dir <- lift (GenerateSnapshotFolderPath root SnapshotFolderType_InstallSnapshot snapshotIndex) ;;
  fun w =>
    '(w, r) ← GetMetadataFile dir w;
    match r with
    | Err _ => Ret (w, Ok tt)
    | Ok m => (ask (ValidateSnapshotFiles dir m false) ;;
               on_snap (fun s => set_installed ({[snapshotIndex]} ∪ installedSnapshot s) s)) w
    end.

Definition scanInstalledSnapshot : meth World unit :=
  w <- Meth.get ;;
  let root := SnapshotDir (config (w_snap w)) in
  installedFolder <- ask (ScanInstalledSnapshot root) ;;
  for_each (scan_folder root) installedFolder.

Definition ScanInstalledSnapshots (removeUnfinishedSnapshotDir : bool) : meth World unit :=
  scanInstalledSnapshot ;;
  if removeUnfinishedSnapshotDir then removeTempDir else Meth.ret tt.

Definition GetExternalFileMetadata (snapshotIndex : Z) (fileTag : string) : meth World SnapshotFileDesc :=
  meta <- getInstalledSnapshotMetadata snapshotIndex ;;
  match Files meta !! fileTag with
  | Some f => if IsExternal f then Meth.ret f else Meth.fail (Errorf "snapshot: external file not found: index=%d tag=%s")
  | None => Meth.fail (Errorf "snapshot: external file not found: index=%d tag=%s")
  end.

Definition SetExternalFileHandler (h : option (Z → list ExternalFileDescriptor → option error)) (s : Snapshotor) : Snapshotor :=
  {| config := config s; installedSnapshot := installedSnapshot s; externalFileHandler := h; received := received s |}.

(** ** [receiver.go] *)

Record Receiver := { r_dir : path; r_metadata : SnapshotMetadata; chunkValidator : gmap string ChunkValidator }.
Definition NewReceiver (dir : path) (m : SnapshotMetadata) : Receiver :=
  {| r_dir := dir; r_metadata := m; chunkValidator := ∅ |}.
Definition set_validators (c : gmap string ChunkValidator) (r : Receiver) : Receiver :=
  {| r_dir := r_dir r; r_metadata := r_metadata r; chunkValidator := c |}.

Definition err_index : error := Errorf "snapshotor: mismatch snapshot index(expected=%d,get=%d)".
Definition err_version : error := Errorf "snapshotor: mismatch snapshot version(expected=%d,get=%d)".

(** The validator is shared with the map: what it changed stays when it fails. *)
Definition SaveChunk (snapshotIndex : Z) (msg : SnapshotChunkMessage) : meth (Disk * Receiver) unit := fun '(d, r) =>
  if decide (md_Index (r_metadata r) ≠ snapshotIndex) then Ret ((d, r), Err err_index)
  else
    match (match chunkValidator r !! FileTag msg with
           | Some v => Ok v
           | None => match SnapshotFileName (ck_FileType msg) snapshotIndex (FileTag msg) with
                     | Ok filename => Ok (NewChunkValidator (Join (r_dir r) filename))
                     | Err e => Err e
                     end
           end) with
    | Err e => Ret ((d, r), Err e)
    | Ok v =>
        '((d, v), res) ← ValidateAndAppend msg (d, v);
        let r := set_validators (<[FileTag msg := v]> (chunkValidator r)) r in
        match res with
        | Err e => Ret ((d, r), Err e)
        | Ok _ => Ret ((d, if LastChunk msg then set_validators (delete (FileTag msg) (chunkValidator r)) r else r), Ok tt)
        end
    end.

Definition DeleteDir (r : Receiver) : meth World unit := on_disk (RemoveDir (r_dir r)).

Definition writeMetadataFile (r : Receiver) (snapshotIndex : Z) : meth World unit :=
  filename <- lift (SnapshotFileName SnapshotFileType_Metadata snapshotIndex "") ;;
  f <- on_disk (FileWrite (Join (r_dir r) filename)) ;;
  encode_to f (r_metadata r) ;;
  ask (SyncDir (r_dir r)).

Definition Receiver_Commit (r : Receiver) (snapshotIndex : Z) : meth World unit :=
  if decide (md_Index (r_metadata r) ≠ snapshotIndex) then Meth.fail err_index
  else
    writeMetadataFile r snapshotIndex ;;
    m <- GetMetadataFile (r_dir r) ;;
    w <- Meth.get ;;
    if decide (Version m ≠ SnapshotVersion (w_snap w)) then Meth.fail err_version
    else
      ask (ValidateSnapshotFiles (r_dir r) m true) ;;
      CommitSnapshot SnapshotFolderType_TempReceive snapshotIndex.

Definition CreateAtomicSnapshotReceiver (m : SnapshotMetadata) : meth World Receiver :=
  w <- Meth.get ;;
  if decide (md_Index m ∈ installedSnapshot (w_snap w)) then Meth.fail (Errorf "snapshot: already register snapshot index=%d")
  else
    createdDir <- on_disk (CreateDirAndTouch (SnapshotDir (config (w_snap w))) SnapshotFolderType_TempReceive (md_Index m)) ;;
    Meth.ret (NewReceiver createdDir m).
End Snapshots.
