(* ===== verification/SnapshotTransfer.v ===== *)
(** * Sending a snapshot to a peer and receiving it

    The sender's loops of [pkg/transport/peer/peer.go], the reader it takes the files from
    ([io/reader.go]), and the receiver's handlers: [ProcessSnapshotMessage] of
    [raft/raft_transport_processor.go] and the snapshot part of [raft/raft_storage.go].
    The transport between them, the rate limiter and the raft node are parameters of the
    sender and of the receiver. *)

From S2P Require Import Prelude Raftpb Allocator Streams LogFiles SnapshotFs SnapshotIo.

(** ** Messages *)

(** The fields of [raftpb.Message] a snapshot message uses. *)
Record RaftMessage := { rm_From : Z; rm_To : Z; rm_Snapshot : Snapshot }.
Definition emptyRaftMessage : RaftMessage := {| rm_From := 0; rm_To := 0; rm_Snapshot := emptySnapshot |}.

Definition SnapshotMessageType_Metadata : Z := 1.
Definition SnapshotMessageType_Chunk : Z := 2.
Definition SnapshotMessageType_Finish : Z := 3.

Record SnapshotMessage := {
  ClusterID : Z; From : Z; To : Z; sm_Term : Z; sm_Index : Z; sm_Type : Z;
  sm_Metadata : SnapshotMetadata; ChunkMessage : SnapshotChunkMessage; FinishMessage : RaftMessage
}.

Definition emptyMetadata : SnapshotMetadata := {| Version := 0; md_Snapshot := emptySnapshot; Files := ∅ |}.
Definition emptyChunk : SnapshotChunkMessage :=
  {| ck_FileType := 0; FileTag := ""; Id := 0; Data := []; ContinueCrc32 := 0; LastChunk := false |}.

Inductive ResponseStatus := SUCCESS | FAILED | REJECTED.
Record SnapshotMessageResponse := { Status : ResponseStatus; resp_Message : string }.

(** ** [Reader.ForEachFile] *)

Record Reader := { rd_dir : path; rd_metadata : SnapshotMetadata }.
Definition NewReader (dir : path) (m : SnapshotMetadata) : Reader := {| rd_dir := dir; rd_metadata := m |}.

Section ForEach.
Context {T : Type}.
Open Scope go_scope.

Definition visit_file (r : Reader) (d : Disk) (visitor : list byte → SnapshotFileDesc → meth T unit) (f : SnapshotFileDesc) : meth T unit :=
  match SnapshotFileName (FileType f) (md_Index (rd_metadata r)) (Tag f) with
  | Err e => Meth.fail e
  | Ok filename => match FileRead (Join (rd_dir r) filename) d with
                   | Err e => Meth.fail e
                   | Ok c => visitor c f
                   end
  end.

Definition ForEachFile `{MapRange} (r : Reader) (d : Disk) (visitor : list byte → SnapshotFileDesc → meth T unit) : meth T unit :=
  for_each (fun '(_, f) => if IsExternal f then Meth.ret tt else visit_file r d visitor f) (range (Files (rd_metadata r))).
End ForEach.

(** ** The sender: [RaftPeerImpl] *)

Definition ErrPeerStopped : error := Sentinel "ErrPeerStopped".
Definition ErrPeerCorruptedSnapshotFile : error := Sentinel "ErrPeerCorruptedSnapshotFile".

(** What a peer sends through: the protocol's client, whether the peer was stopped, the
    limiter of chunks and the circuit breaker. *)
Class PeerLink (T : Type) := {
  SendSnapshotMessage : SnapshotMessage → meth T SnapshotMessageResponse;
  stopped : T → bool;
  limiter_Wait : meth T unit;
  breaker_Success : T → T
}.

Section Sender.
Context {T : Type} `{PeerLink T, MapRange}.
Open Scope go_scope.

(** A message is sent and its answer checked. *)
Definition send_checked (msg : SnapshotMessage) : meth T unit :=
  res <- SendSnapshotMessage msg ;;
  match Status res with
  | SUCCESS => Meth.ret tt
  | _ => Meth.fail (Errorf (resp_Message res))
  end.

Definition sendSnapshotMsg (msg : SnapshotMessage) : meth T unit :=
  t <- Meth.get ;; if stopped t then Meth.fail ErrPeerStopped else send_checked msg.

Definition set_chunk (c : SnapshotChunkMessage) (m : SnapshotMessage) : SnapshotMessage :=
  {| ClusterID := ClusterID m; From := From m; To := To m; sm_Term := sm_Term m; sm_Index := sm_Index m;
     sm_Type := sm_Type m; sm_Metadata := sm_Metadata m; ChunkMessage := c; FinishMessage := FinishMessage m |}.

(** The next chunk of a file of which [written] bytes were sent before. *)
Definition next_chunk (c : SnapshotChunkMessage) (fileSize written : Z) (data : list byte) : SnapshotChunkMessage :=
  {| ck_FileType := ck_FileType c; FileTag := FileTag c; Id := i64 (Id c + 1); Data := data;
     ContinueCrc32 := crc32c (ContinueCrc32 c) data;
     LastChunk := bool_decide (fileSize = i64 (written + Z.of_nat (length data))) |}.

(** One piece of the file is sent. *)
Definition send_chunk (m : SnapshotMessage) : meth T unit :=
  t <- Meth.get ;;
  if stopped t then Meth.fail ErrPeerStopped
  else limiter_Wait ;; send_checked m ;; Meth.modify breaker_Success.

(** [sendSnapshotMsgWithChunk]: [io.ReadFull] into the chunk buffer until the file ends.
    Every round but the last takes a full buffer, so the length of the file is fuel enough
    unless the buffer has no room, when the loop does not end. *)
Fixpoint sendSnapshotMsgWithChunk (fuel chunkSize : nat) (fileSize written : Z) (reader : list byte) (m : SnapshotMessage) : meth T unit :=
  match fuel with
  | O => Meth.panic "the loop does not end"
  | S fuel =>
      let data := take chunkSize reader in
      let m' := set_chunk (next_chunk (ChunkMessage m) fileSize written data) m in
      let written' := i64 (written + Z.of_nat (length data)) in
      let rest :=
        if decide (chunkSize <= length reader)%nat then
          sendSnapshotMsgWithChunk fuel chunkSize fileSize written' (drop chunkSize reader) (if decide (data = []) then m else m')
        else if decide (fileSize ≠ written') then Meth.fail ErrPeerCorruptedSnapshotFile
        else Meth.ret tt in
      if decide (data = []) then rest else send_chunk m' ;; rest
  end.

(** The message all others are copies of. *)
Definition first_message (clusterID : Z) (snapMsg : RaftMessage) (mt : SnapshotMetadata) : SnapshotMessage :=
  {| ClusterID := clusterID; From := rm_From snapMsg; To := rm_To snapMsg;
     sm_Term := sm_term (snap_meta (rm_Snapshot snapMsg)); sm_Index := sm_index (snap_meta (rm_Snapshot snapMsg));
     sm_Type := SnapshotMessageType_Metadata; sm_Metadata := mt; ChunkMessage := emptyChunk; FinishMessage := emptyRaftMessage |}.
Definition chunk_message (m : SnapshotMessage) (f : SnapshotFileDesc) : SnapshotMessage :=
  {| ClusterID := ClusterID m; From := From m; To := To m; sm_Term := sm_Term m; sm_Index := sm_Index m;
     sm_Type := SnapshotMessageType_Chunk; sm_Metadata := emptyMetadata;
     ChunkMessage := {| ck_FileType := FileType f; FileTag := Tag f; Id := 0; Data := []; ContinueCrc32 := 0; LastChunk := false |};
     FinishMessage := emptyRaftMessage |}.
Definition finish_message (m : SnapshotMessage) (snapMsg : RaftMessage) : SnapshotMessage :=
  {| ClusterID := ClusterID m; From := From m; To := To m; sm_Term := sm_Term m; sm_Index := sm_Index m;
     sm_Type := SnapshotMessageType_Finish; sm_Metadata := emptyMetadata; ChunkMessage := emptyChunk; FinishMessage := snapMsg |}.

(** [sendSnapshotMessageLoop]: the metadata, the files in pieces, the end. *)
Definition sendSnapshotMessageLoop (clusterID : Z) (chunkSize : nat) (snapMsg : RaftMessage) (r : Reader) (d : Disk) : meth T unit :=
  let m := first_message clusterID snapMsg (rd_metadata r) in
  sendSnapshotMsg m ;;
  Meth.modify breaker_Success ;;
  ForEachFile r d (fun reader f =>
    sendSnapshotMsgWithChunk (S (length reader)) chunkSize (FileSize f) 0 reader (chunk_message m f)) ;;
  sendSnapshotMsg (finish_message m snapMsg) ;;
  Meth.modify breaker_Success.
End Sender.

(** ** The receiving node: [raftStorage] and [transportProcessor] *)

Record Storage := { st_world : World; snapshotReceiver : option Receiver }.
Definition in_world {A} (m : meth World A) : meth Storage A := fun s =>
  '(w, r) ← m (st_world s); Ret ({| st_world := w; snapshotReceiver := snapshotReceiver s |}, r).
Definition set_receiver (r : option Receiver) (s : Storage) : Storage := {| st_world := st_world s; snapshotReceiver := r |}.

Section Storage.
Context `{Message SnapshotMetadata, MapRange}.
Open Scope go_scope.

Definition ProcessMetadataSnapshotMessage (msg : SnapshotMessage) : meth Storage unit :=
  if decide (Files (sm_Metadata msg) ≠ ∅) then
    s <- Meth.get ;;
    match snapshotReceiver s with
    | Some r => in_world (DeleteDir r)
    | None => Meth.ret tt
    end ;;
    r <- in_world (CreateAtomicSnapshotReceiver (sm_Metadata msg)) ;;
    Meth.modify (set_receiver (Some r))
  else Meth.fail (Errorf "storage: received metadata message but snapshot metadata is nil (index=%d)").

(** A chunk is handed to the receiver, which keeps what it changed. *)
Definition save_chunk (r : Receiver) (index : Z) (c : SnapshotChunkMessage) : meth Storage unit := fun s =>
  '((d, r), res) ← SaveChunk index c (w_disk (st_world s), r);
  Ret ({| st_world := set_disk d (st_world s); snapshotReceiver := Some r |}, res).

Definition ProcessChunkSnapshotMessage (msg : SnapshotMessage) : meth Storage unit :=
  s <- Meth.get ;;
  match snapshotReceiver s with
  | None => Meth.fail (Errorf "storage: received chunk message but snapshot receiver is nil (index=%d)")
  | Some r =>
      if decide (ContinueCrc32 (ChunkMessage msg) ≠ 0) then save_chunk r (sm_Index msg) (ChunkMessage msg)
      else Meth.fail (Errorf "storage: received chunk message but invalid (continueCrc32=0 index=%d)")
  end.

(** The receiver is given up when its commit succeeded; without a receiver the call is on a
    nil interface. *)
Definition ProcessFinishSnapshotMessage (msg : SnapshotMessage) : meth Storage unit :=
  if decide (rm_To (FinishMessage msg) ≠ 0) then
    s <- Meth.get ;;
    match snapshotReceiver s with
    | None => Meth.panic "invalid memory address or nil pointer dereference"
    | Some r => in_world (Receiver_Commit r (sm_Index msg)) ;; Meth.modify (set_receiver None)
    end
  else Meth.fail (Errorf "storage: received finish message but invalid (to=0 index=%d)").

(** The node's identity and its raft node, which takes the finish message. *)
Record NodeId := { n_ClusterID : Z; n_LocalPeerID : Z; n_Step : RaftMessage → option error }.

Definition validateRequest (n : NodeId) (clusterID toID : Z) : option error :=
  if decide (clusterID ≠ n_ClusterID n) then Some (Errorf "cluster id not match")
  else if decide (toID ≠ n_LocalPeerID n) then Some (Errorf "peer id not match")
  else None.

Definition error_string (e : error) : string := match e with Sentinel s | Errorf s => s end.
Definition success : SnapshotMessageResponse := {| Status := SUCCESS; resp_Message := "success" |}.
Definition failed (what : string) (e : error) : SnapshotMessageResponse :=
  {| Status := FAILED; resp_Message := String.app what (error_string e) |}.
Definition rejected (m : string) : SnapshotMessageResponse := {| Status := REJECTED; resp_Message := m |}.

(** The answer to a handler's result. *)
Definition answer (what : string) (m : meth Storage unit) : meth Storage SnapshotMessageResponse := fun s =>
  '(s, r) ← m s; Ret (s, Ok match r with Ok _ => success | Err e => failed what e end).

Definition ProcessSnapshotMessage (n : NodeId) (msg : SnapshotMessage) : meth Storage SnapshotMessageResponse :=
  match validateRequest n (ClusterID msg) (To msg) with
  | Some e => Meth.ret (rejected (error_string e))
  | None =>
      if decide (sm_Type msg = SnapshotMessageType_Metadata) then
        answer "Failed to receive snapshot metadata: " (ProcessMetadataSnapshotMessage msg)
      else if decide (sm_Type msg = SnapshotMessageType_Chunk) then
        answer "Failed to receive snapshot chunk: " (ProcessChunkSnapshotMessage msg)
      else if decide (sm_Type msg = SnapshotMessageType_Finish) then fun s =>
        '(s, r) ← ProcessFinishSnapshotMessage msg s;
        Ret (s, Ok match r with
                   | Err e => failed "Failed to finish snapshot: " e
                   | Ok _ => match n_Step n (FinishMessage msg) with
                             | Some e => failed "Failed to step finish message: " e
                             | None => success
                             end
                   end)
      else Meth.ret (rejected "Unknown snapshot message type")
  end.
End Storage.
