(* ===== verification/SnapshotInstall.v ===== *)
(** * A snapshot sent is a snapshot installed

    The sender's loop run against the handlers of the receiving node: every file arrives in
    pieces, the receiver's checks pass, and the snapshot is installed with the files and the
    metadata of the sender.  Conversely, whatever messages came before, a snapshot is only
    installed when its files match its metadata.  A snapshot with an empty file never
    arrives. *)

From S2P Require Import Prelude Raftpb Allocator Streams LogFiles SnapshotFs SnapshotIo SnapshotTransfer.

(** A link that hands every message to the node at the other end. *)
Definition direct `{Message SnapshotMetadata, MapRange} (n : NodeId) : PeerLink Storage :=
  {| SendSnapshotMessage := ProcessSnapshotMessage n; stopped _ := false;
     limiter_Wait := Meth.ret tt; breaker_Success s := s |}.

Section Receive.
Context `{Message SnapshotMetadata, MapRange} (L : list Z).
Context (node : NodeId) (m : SnapshotMetadata) (w1 : World) (d0 : Disk) (tmp : path).
Context (room : room_for d0 tmp) (index_ok : is_u64 (md_Index m)).
#[local] Existing Instance direct.

(** The node is receiving: the files got so far, and the files under way. *)
Record receiving (vs : gmap string ChunkValidator) (got : gmap string (list byte)) (s : Storage) : Prop := {
  rv_receiver : snapshotReceiver s = Some {| r_dir := tmp; r_metadata := m; chunkValidator := vs |};
  rv_pool : w_pool (st_world s) = w_pool w1;
  rv_snap : w_snap (st_world s) = w_snap w1;
  rv_disk : with_dir d0 tmp got (w_disk (st_world s))
}.

(** A message of this transfer. *)
Record addressed (msg : SnapshotMessage) : Prop := {
  ad_cluster : ClusterID msg = n_ClusterID node;
  ad_to : To msg = n_LocalPeerID node;
  ad_index : sm_Index msg = md_Index m
}.

Lemma validate_addressed msg : addressed msg → validateRequest node (ClusterID msg) (To msg) = None.
Proof. intros [Hc Ht _]. unfold validateRequest. by rewrite Hc, Ht, !decide_False by (intros ?; done). Qed.

(** The validator of a file of which [k] pieces, [pre] together, arrived. *)
Definition after (nm : string) (k : Z) (pre : list byte) : ChunkValidator :=
  {| filePath := Join tmp nm; nextChunkId := k + 1; receivedSize := Z.of_nat (length pre);
     continueCrc32 := crc32c 0 pre; finish := false |}.

Lemma save_piece vs got d tag nm ft k pre data last :
  SnapshotFileName ft (md_Index m) tag = Ok nm → 0 <= k < 2 ^ 62 →
  default (NewChunkValidator (Join tmp nm)) (vs !! tag) = after nm k pre → default [] (got !! nm) = pre →
  with_dir d0 tmp got d →
  let c := {| ck_FileType := ft; FileTag := tag; Id := k + 1; Data := data;
              ContinueCrc32 := crc32c 0 (pre ++ data); LastChunk := last |} in
  ∃ d', SaveChunk (md_Index m) c (d, {| r_dir := tmp; r_metadata := m; chunkValidator := vs |})
    = Ret ((d', {| r_dir := tmp; r_metadata := m;
                   chunkValidator := if last then delete tag vs else <[tag := after nm (k + 1) (pre ++ data)]> vs |}), Ok tt) ∧
    with_dir d0 tmp (<[nm := pre ++ data]> got) d'.
Proof using room.
  intros Hnm Hk Hv Hg Hw c. unfold SaveChunk. cbn [r_metadata r_dir chunkValidator].
  rewrite decide_False by (intros ?; done). unfold c at 1 2 3. cbn [FileTag ck_FileType].
  assert (match vs !! tag with
          | Some v => Ok v
          | None => match SnapshotFileName ft (md_Index m) tag with
                    | Ok filename => Ok (NewChunkValidator (Join tmp filename)) | Err e => Err e end
          end = Ok (after nm k pre)) as ->.
  { destruct (vs !! tag); simpl in Hv; [by rewrite Hv|]. by rewrite Hnm, Hv. }
  unfold ValidateAndAppend, after, c.
  cbn [finish nextChunkId Id continueCrc32 Data ContinueCrc32 filePath receivedSize LastChunk FileTag].
  rewrite decide_False by (intros ?; done). rewrite <- crc32c_app, decide_False by (intros ?; done).
  destruct (append_in d0 tmp room got d nm (k + 1) data Hw) as (d' & E & Hw'). rewrite E. rewrite Hg in Hw'.
  cbn [mbind go_bind]. destruct last.
  - erewrite finalize_in; [|done|apply lookup_insert_eq]. cbn [mbind go_bind]. eexists. split; [|done].
    unfold set_validators. cbn [r_dir r_metadata chunkValidator]. by rewrite delete_insert_eq.
  - cbn [mbind go_bind]. eexists. split; [|done]. unfold set_validators.
    cbn [r_dir r_metadata chunkValidator]. rewrite i64_small, length_app, Nat2Z.inj_add by lia. done.
Qed.

(** One piece goes through. *)
Lemma piece_received vs got s msg tag nm ft k pre data last :
  SnapshotFileName ft (md_Index m) tag = Ok nm → 0 <= k < 2 ^ 62 →
  default (NewChunkValidator (Join tmp nm)) (vs !! tag) = after nm k pre → default [] (got !! nm) = pre →
  crc32c 0 (pre ++ data) ≠ 0 → receiving vs got s →
  addressed msg → sm_Type msg = SnapshotMessageType_Chunk →
  ChunkMessage msg = {| ck_FileType := ft; FileTag := tag; Id := k + 1; Data := data;
                        ContinueCrc32 := crc32c 0 (pre ++ data); LastChunk := last |} →
  ∃ s', send_chunk (H := direct node) msg s = Ret (s', Ok tt) ∧
    receiving (if last then delete tag vs else <[tag := after nm (k + 1) (pre ++ data)]> vs) (<[nm := pre ++ data]> got) s'.
Proof using room.
  intros Hnm Hk Hv Hg Hcrc [Hr Hp Hsn Hd] Ha Hty Hck.
  destruct (save_piece vs got _ tag nm ft k pre data last Hnm Hk Hv Hg Hd) as (d' & E & Hd').
  eexists. split.
  - unfold send_chunk, send_checked, Meth.bind, Meth.get, Meth.ret, Meth.modify.
    cbn [stopped limiter_Wait breaker_Success SendSnapshotMessage direct]. unfold Meth.ret.
    unfold ProcessSnapshotMessage. rewrite (validate_addressed msg Ha), Hty. cbn [decide].
    rewrite decide_False, decide_True by done. unfold answer, ProcessChunkSnapshotMessage, Meth.bind, Meth.get.
    rewrite Hr, Hck. cbn [ContinueCrc32]. rewrite decide_True by done. unfold save_chunk.
    rewrite (ad_index _ Ha), E. done.
  - by constructor.
Qed.

(** The pieces of a file: all of it arrives under its name. *)
Section File.
Context (cs : nat) (cs_pos : (0 < cs)%nat) (c : list byte) (tag nm : string) (ft : Z).
Context (name_ok : SnapshotFileName ft (md_Index m) tag = Ok nm).
Context (size_ok : Z.of_nat (length c) < 2 ^ 62).
Context (crc_ok : ∀ j, (0 < j)%nat → crc32c 0 (take (j * cs) c) ≠ 0).

Lemma file_received fuel j vs got s msg :
  (length (drop (j * cs) c) < fuel)%nat → drop (j * cs) c ≠ [] →
  default (NewChunkValidator (Join tmp nm)) (vs !! tag) = after nm (Z.of_nat j) (take (j * cs) c) →
  default [] (got !! nm) = take (j * cs) c → receiving vs got s →
  addressed msg → sm_Type msg = SnapshotMessageType_Chunk →
  ck_FileType (ChunkMessage msg) = ft → FileTag (ChunkMessage msg) = tag →
  Id (ChunkMessage msg) = Z.of_nat j → ContinueCrc32 (ChunkMessage msg) = crc32c 0 (take (j * cs) c) →
  ∃ s', sendSnapshotMsgWithChunk (H := direct node) fuel cs (Z.of_nat (length c)) (Z.of_nat (length (take (j * cs) c)))
      (drop (j * cs) c) msg s = Ret (s', Ok tt) ∧
    receiving (delete tag vs) (<[nm := c]> got) s'.
Proof using room cs_pos name_ok size_ok crc_ok.
  revert j vs got s msg. induction fuel as [|fuel IH]; intros j vs got s msg Hf Hne Hv Hg Hs Ha Hty Hft Htag Hid Hcrc; [lia|].
  cbn [sendSnapshotMsgWithChunk]. set (data := take cs (drop (j * cs) c)).
  assert (take (j * cs) c ++ data = take (S j * cs) c) as Hpre.
  { unfold data. rewrite take_take_drop. f_equal. lia. }
  assert (drop cs (drop (j * cs) c) = drop (S j * cs) c) as Hdrop by (rewrite drop_drop; f_equal; lia).
  assert (data ≠ []) as Hdata.
  { unfold data. destruct (drop (j * cs) c); [done|]. by destruct cs; [lia|]. }
  assert (j * cs < length c)%nat as Hj.
  { destruct (decide (length c <= j * cs)%nat) as [Hge|]; [|lia]. by rewrite drop_ge in Hne. }
  rewrite !(decide_False (P := data = [])) by done. set (msg' := set_chunk _ msg).
  pose proof (length_take c (j * cs)) as Hlt. rewrite length_drop in Hf.
  assert (Z.of_nat (length (take (j * cs) c)) + Z.of_nat (length data) = Z.of_nat (length (take (S j * cs) c))) as Hlen.
  { rewrite <- Hpre, length_app. lia. }
  pose proof (length_take c (S j * cs)) as Hlt'.
  destruct (piece_received vs got s msg' tag nm ft (Z.of_nat j) (take (j * cs) c) data
    (bool_decide (length c = length (take (S j * cs) c))) name_ok) as (s1 & E & Hs1); [nia|done|done|..|done| |done| |].
  { rewrite Hpre. apply crc_ok. lia. }
  { by destruct Ha. }
  { unfold msg', set_chunk, next_chunk. cbn [ChunkMessage]. rewrite Hft, Htag, Hid, Hcrc, i64_small, <- crc32c_app by nia.
    f_equal. apply bool_decide_ext. rewrite Hlen, i64_small by lia. split; lia. }
  rewrite Hpre in Hs1. unfold Meth.bind. rewrite E, Hlen, i64_small by lia.
  destruct (decide (cs <= length (drop (j * cs) c))%nat) as [Hfull|Hfull].
  - rewrite Hdrop. rewrite length_drop in Hfull. destruct (decide (drop (S j * cs) c = [])) as [Hend|Hmore].
    + rewrite Hend. destruct fuel as [|fuel]; [lia|]. cbn [sendSnapshotMsgWithChunk]. rewrite take_nil, !decide_True by done.
      cbn [length]. rewrite decide_False by lia. apply (f_equal length) in Hend. rewrite length_drop in Hend. simpl in Hend.
      rewrite Z.add_0_r, i64_small, decide_False by lia. eexists. split; [done|].
      rewrite bool_decide_true in Hs1 by lia. by rewrite take_ge in Hs1 by lia.
    + assert (S j * cs < length c)%nat as Hlt2.
      { destruct (decide (length c <= S j * cs)%nat) as [Hge|]; [|lia]. by rewrite drop_ge in Hmore. }
      rewrite bool_decide_false in Hs1 by lia.
      edestruct (IH (S j) (<[tag := after nm (Z.of_nat j + 1) (take (S j * cs) c)]> vs) (<[nm := take (S j * cs) c]> got) s1 msg')
        as (s2 & E2 & Hs2).
      * rewrite length_drop. nia.
      * done.
      * rewrite lookup_insert_eq. simpl. unfold after. repeat f_equal; lia.
      * by rewrite lookup_insert_eq.
      * done.
      * by destruct Ha.
      * done.
      * done.
      * done.
      * unfold msg', set_chunk, next_chunk. cbn [ChunkMessage Id]. rewrite Hid, i64_small by nia. lia.
      * unfold msg', set_chunk, next_chunk. cbn [ChunkMessage ContinueCrc32]. by rewrite Hcrc, <- crc32c_app, Hpre.
      * exists s2. split; [done|]. by rewrite delete_insert_eq, insert_insert_eq in Hs2.
  - rewrite length_drop in Hfull. rewrite decide_False by lia. eexists. split; [done|].
    rewrite bool_decide_true in Hs1 by lia. by rewrite take_ge in Hs1 by lia.
Qed.
End File.

(** ** All files *)

Section Files.
Context (cs : nat) (cs_pos : (0 < cs)%nat) (src : path) (ds : Disk).

(** A file of the snapshot at the sender: it is there as its description says, and none of
    the running checksums is the zero the receiver takes for a missing one. *)
Record sendable (t : string) (f : SnapshotFileDesc) (nm : string) (c : list byte) : Prop := {
  sd_inline : IsExternal f = false;
  sd_tag : Tag f = t;
  sd_type : FileType f ≠ SnapshotFileType_Metadata;
  sd_name : SnapshotFileName (FileType f) (md_Index m) (Tag f) = Ok nm;
  sd_file : d_files ds !! Join src nm = Some c;
  sd_size : FileSize f = Z.of_nat (length c);
  sd_limit : Z.of_nat (length c) < 2 ^ 62;
  sd_crc64 : FileCrc64 f = crc64_ecma 0 c;
  sd_chunks j : (0 < j)%nat → c ≠ [] → crc32c 0 (take (j * cs) c) ≠ 0
}.

(** Distinct files have distinct names. *)
Definition names_apart (l : list (string * SnapshotFileDesc)) : Prop :=
  ∀ t1 f1 t2 f2 nm c1 c2, (t1, f1) ∈ l → (t2, f2) ∈ l → sendable t1 f1 nm c1 → sendable t2 f2 nm c2 → t1 = t2.

Definition send_file (m0 : SnapshotMessage) : string * SnapshotFileDesc → meth Storage unit := fun '(_, f) =>
  if IsExternal f then Meth.ret tt
  else visit_file {| rd_dir := src; rd_metadata := m |} ds (fun reader f =>
    sendSnapshotMsgWithChunk (H := direct node) (S (length reader)) cs (FileSize f) 0 reader (chunk_message m0 f)) f.

(** What arrives of a file: an empty one does not. *)
Definition arrived (c : list byte) : option (list byte) := if decide (c = []) then None else Some c.
Definition got_after (nm : string) (c : list byte) (got : gmap string (list byte)) : gmap string (list byte) :=
  if decide (c = []) then got else <[nm := c]> got.

Lemma lookup_got_after nm c got n :
  got !! nm = None → got_after nm c got !! n = if decide (n = nm) then arrived c else got !! n.
Proof.
  intros Hg. unfold got_after, arrived. repeat case_decide; subst; [done|done|by rewrite lookup_insert_eq|by rewrite lookup_insert_ne].
Qed.

Lemma send_file_received t f nm c got s m0 :
  sendable t f nm c → got !! nm = None → receiving ∅ got s → addressed m0 →
  ∃ s', send_file m0 (t, f) s = Ret (s', Ok tt) ∧ receiving ∅ (got_after nm c got) s'.
Proof using room cs_pos.
  intros [Hin Ht Hty Hnm Hfile Hsz Hlim Hcrc Hck] Hgot Hs Ha.
  unfold send_file, visit_file, FileRead. rewrite Hin. cbn [rd_metadata rd_dir]. rewrite Hnm, Hfile, Hsz. unfold got_after.
  destruct (decide (c = [])) as [->|Hne].
  { exists s. cbn [sendSnapshotMsgWithChunk length]. rewrite take_nil, decide_True, decide_False by (done || lia). done. }
  destruct (file_received cs cs_pos c (Tag f) nm (FileType f) Hnm Hlim (fun j Hj => Hck j Hj Hne) (S (length c)) 0 ∅ got s (chunk_message m0 f))
    as (s' & E & Hs'); simpl; rewrite ?drop_0; [lia|done| |by rewrite Hgot|done|by destruct Ha|done..| |].
  - by rewrite lookup_empty.
  - by rewrite crc32c_nil.
  - exists s'. split; [by rewrite drop_0 in E|]. by rewrite delete_empty in Hs'.
Qed.

Lemma files_received m0 l got s :
  (∀ t f, (t, f) ∈ l → IsExternal f = false → ∃ nm c, sendable t f nm c) → NoDup l.*1 → names_apart l →
  (∀ t f nm c, (t, f) ∈ l → sendable t f nm c → got !! nm = None) →
  receiving ∅ got s → addressed m0 →
  ∃ s' got', for_each (send_file m0) l s = Ret (s', Ok tt) ∧ receiving ∅ got' s' ∧
    (∀ n, (∀ t f c, (t, f) ∈ l → ¬ sendable t f n c) → got' !! n = got !! n) ∧
    (∀ t f nm c, (t, f) ∈ l → sendable t f nm c → got' !! nm = arrived c) ∧
    (∀ n, is_Some (got' !! n) → is_Some (got !! n) ∨ ∃ t f c, (t, f) ∈ l ∧ sendable t f n c).
Proof using room cs_pos.
  revert got s. induction l as [|[t f] l IH]; intros got s Hall Hnd Hap Hnew Hs Ha; cbn [for_each].
  - exists s, got. split_and!; [done|done|done| |by left]. by intros ? ? ? ? []%elem_of_nil.
  - apply NoDup_cons in Hnd as [Ht Hnd]. assert (names_apart l) as Hap'.
    { intros t1 f1 t2 f2 nm c1 c2 ? ?. apply Hap; by right. }
    assert (∀ n, (∀ t' f' c, (t', f') ∈ (t, f) :: l → ¬ sendable t' f' n c) → ∀ t' f' c, (t', f') ∈ l → ¬ sendable t' f' n c) as Hless.
    { intros n Hn t' f' c ?. apply Hn. by right. }
    destruct (IsExternal f) eqn:Eext.
    + destruct (IH got s) as (s' & got' & E & Hs' & Hold & Hnew' & Hdom); [|done|done| |done|done|].
      { intros t' f' Hin. apply Hall. by right. }
      { intros t' f' nm c Hin. apply (Hnew t' f'). by right. }
      exists s', got'. unfold Meth.bind, send_file. rewrite Eext. split_and!; [exact E|done|by eauto| |].
      * intros t' f' nm c [[= -> ->]|Hin]%elem_of_cons Hsd; [destruct Hsd; congruence|by eapply Hnew'].
      * intros n [?|(t' & f' & c & Hin & Hsd)]%Hdom; [by left|right]. exists t', f', c. split; [by right|done].
    + destruct (Hall t f) as (nm & c & Hsd); [by left|done|].
      assert (got !! nm = None) as Hg by (eapply (Hnew t f); [by left|done]).
      destruct (send_file_received t f nm c got s m0 Hsd Hg Hs Ha) as (s1 & E1 & Hs1).
      pose proof (lookup_got_after nm c got) as Hlook.
      assert (∀ t' f' nm' c', (t', f') ∈ l → sendable t' f' nm' c' → nm' ≠ nm) as Hother.
      { intros t' f' nm' c' Hin Hsd' ->. assert (t' = t) as ->.
        { eapply (Hap t' f' t f); [by right|by left|done|done]. }
        apply Ht. apply list_elem_of_fmap. by exists (t, f'). }
      destruct (IH (got_after nm c got) s1) as (s' & got' & E & Hs' & Hold & Hnew' & Hdom); [|done|done| |done|done|].
      { intros t' f' Hin. apply Hall. by right. }
      { intros t' f' nm' c' Hin Hsd'. rewrite Hlook, decide_False by (done || by eapply Hother).
        eapply (Hnew t' f'); [by right|done]. }
      exists s', got'. unfold Meth.bind. rewrite E1. split_and!; [exact E|done| | |].
      * intros n Hn. rewrite Hold by by apply Hless. rewrite Hlook, decide_False; [done| |done].
        intros ->. eapply Hn; [by left|exact Hsd].
      * intros t' f' nm' c' [[= -> ->]|Hin]%elem_of_cons Hsd'; [|by eapply Hnew'].
        assert (nm' = nm ∧ c' = c) as [-> ->].
        { destruct Hsd as [_ _ _ Hnm Hf _ _ _ _], Hsd' as [_ _ _ Hnm' Hf' _ _ _ _]. rewrite Hnm in Hnm'. by simplify_eq. }
        rewrite Hold by (intros t' f' c' Hin Hsd2; by eapply Hother). by rewrite Hlook, decide_True.
      * intros n [Hn|(t' & f' & c' & Hin & Hsd')]%Hdom.
        -- rewrite Hlook in Hn by done. case_decide; [subst n|by left]. right. exists t, f, c. split; [by left|done].
        -- right. exists t', f', c'. split; [by right|done].
Qed.
End Files.
End Receive.

(** ** The commit *)

(** One more step of a method, whose effect is known. *)
Ltac step_by E := unfold Meth.bind at 1; rewrite E; cbv beta iota.

Definition file_lawful (p : path) (d : Disk) : LawfulWriter (Disk * OsFile).
Proof.
  refine {| wrote := file_wrote p d |}. intros w out b Hw. destruct (os_Write_wrote p d w out b Hw) as (w' & E & Hw').
  exists w'. split; [|done]. unfold w_write, file_writer. by rewrite E.
Defined.

Section Commit.
Context `{Message SnapshotMetadata, MapRange} (L : list Z).
Context (m : SnapshotMetadata) (fits : metadata_fits L m) (index_ok : is_u64 (md_Index m)).

Lemma encode_fresh p d w :
  pool_ok L (w_pool w) → w_disk w = set_files (<[p := []]> (d_files d)) d →
  ∃ w', encode_to {| of_path := p; of_off := 0 |} m w = Ret (w', Ok tt) ∧ pool_ok L (w_pool w') ∧
    w_disk w' = set_files (<[p := enc_metadata m]> (d_files d)) d ∧ w_snap w' = w_snap w.
Proof using fits.
  intros Hp Hd. pose proof (@Encode_writes _ L _ file_writer (file_lawful p d) m fits) as He.
  destruct (He (w_pool w) (w_disk w, {| of_path := p; of_off := 0 |}) [] Hp) as (p' & w' & E & Hp' & Hw').
  { simpl. unfold file_wrote. by rewrite Hd. }
  simpl in Hw'. unfold file_wrote in Hw'. subst w'. unfold encode_to. rewrite E. cbn [mbind go_bind].
  eexists. by split.
Qed.

Lemma decode_enc w :
  pool_ok L (w_pool w) →
  ∃ w', decode_of (enc_metadata m) w = Ret (w', Ok m) ∧ pool_ok L (w_pool w') ∧ w_disk w' = w_disk w ∧ w_snap w' = w_snap w.
Proof using fits.
  intros Hp. destruct (Decode_reads L m fits (w_pool w) [] Hp) as (p' & E & Hp'). rewrite app_nil_r in E.
  unfold decode_of. rewrite E. cbn [mbind go_bind]. eexists. by split.
Qed.

(** A file of the snapshot as its description says. *)
Definition intact (dir : path) (d : Disk) (f : SnapshotFileDesc) : Prop :=
  ∃ nm c, SnapshotFileName (FileType f) (md_Index m) (Tag f) = Ok nm ∧ d_files d !! Join dir nm = Some c ∧
    FileSize f = Z.of_nat (length c) ∧ FileCrc64 f = crc64_ecma 0 c.

Lemma validate_file_spec dir d f :
  IsExternal f = false →
  validate_file dir (md_Index m) true f d = Ok tt ↔ intact dir d f.
Proof using.
  intros Hin. unfold validate_file, file_path. rewrite Hin. cbn [andb]. unfold intact.
  destruct (SnapshotFileName (FileType f) (md_Index m) (Tag f)) as [nm|e]; [|split; [done|by intros (? & ? & [=] & _)]].
  unfold ExistFilePath, Exist, CrcFileRead. destruct (d_files d !! Join dir nm) as [c|] eqn:Ec.
  - rewrite bool_decide_true by (left; by eexists). unfold CreateReader. cbn [negb cr_r from_option id].
    rewrite copy_discard_spec by (unfold id; lia). unfold CrcReader_FileSize, CrcReader_Crc. cbn [cr_fileSize cr_h]. rewrite Z.add_0_l.
    split.
    + repeat case_decide; [done..|]. intros _. exists nm, c. split_and!; [done|done|lia|].
      by destruct (decide (FileCrc64 f = crc64_ecma 0 c)); [|exfalso; eauto].
    + intros (nm' & c' & [= <-] & Hc' & Hsz & Hcrc). simplify_eq. by rewrite !decide_False by (intros Hn; by apply Hn).
  - split; [|intros (nm' & c' & [= <-] & ? & _); congruence].
    destruct (bool_decide _) eqn:E; simpl; [|done]. apply bool_decide_eq_true in E as [[? ?]|Hd]; [done|].
    by rewrite decide_True.
Qed.

Lemma ValidateSnapshotFiles_spec dir d :
  ValidateSnapshotFiles dir m true d = Ok tt ↔
  ∀ t f, Files m !! t = Some f → IsExternal f = false → intact dir d f.
Proof using.
  unfold ValidateSnapshotFiles. setoid_rewrite <- (elem_of_range (Files m)).
  induction (range (Files m)) as [|[t f] l IH]; simpl.
  - split; [|done]. by intros _ ? ? []%elem_of_nil.
  - destruct (IsExternal f) eqn:Eext.
    + assert (validate_file dir (md_Index m) true f d = Ok tt) as -> by (unfold validate_file; by rewrite Eext).
      rewrite IH. split; intros Hall t' f' Hin Hi; [|by apply (Hall t'); [right|]].
      apply elem_of_cons in Hin as [[= -> ->]|Hin]; [congruence|by eapply Hall].
    + destruct (validate_file dir (md_Index m) true f d) as [[]|e] eqn:Ev.
      * rewrite IH. apply validate_file_spec in Ev; [|done]. split; intros Hall t' f' Hin Hi; [|by apply (Hall t'); [right|]].
        apply elem_of_cons in Hin as [[= -> ->]|Hin]; [done|by eapply Hall].
      * split; [done|]. intros Hall. exfalso. assert (intact dir d f) as Hf by (apply (Hall t); [by left|done]).
        apply (validate_file_spec dir d f Eext) in Hf. congruence.
Qed.

(** Without external files it does not matter whether they are skipped. *)
Lemma ValidateSnapshotFiles_skip dir d :
  (∀ t f, Files m !! t = Some f → IsExternal f = false) →
  ValidateSnapshotFiles dir m false d = ValidateSnapshotFiles dir m true d.
Proof using.
  unfold ValidateSnapshotFiles. setoid_rewrite <- (elem_of_range (Files m)).
  induction (range (Files m)) as [|[t f] l IH]; intros Hext; [done|]. cbn [validate_files].
  rewrite IH by (intros t' f' ?; apply (Hext t'); by right). unfold validate_file. by rewrite (Hext t f) by by left.
Qed.

(** ** The world at the end of a transfer *)

Section Install.
Context (d0 : Disk) (root : path).
Abbreviation i := (md_Index m).
(** The folder a writer or a receiver works in, and where it goes. *)
Definition work_dir (ft : Z) : path :=
  Join root (String.app (if decide (ft = SnapshotFolderType_TempWrite) then tempWriterFolderNamePrefix
                         else tempReceiverFolderNamePrefix) (hex16 i "")).
Definition temp_dir : path := work_dir SnapshotFolderType_TempReceive.
Definition install_dir : path := Join root (String.app snapshotFolderNamePrefix (hex16 i "")).
Definition metadata_name : string := hex16 i ".metadata".

Lemma getInstalled_ok w :
  pool_ok L (w_pool w) → SnapshotDir (config (w_snap w)) = root → i ∈ installedSnapshot (w_snap w) →
  d_files (w_disk w) !! Join install_dir metadata_name = Some (enc_metadata m) →
  ∃ w', getInstalledSnapshotMetadata i w = Ret (w', Ok m) ∧ pool_ok L (w_pool w') ∧
    w_disk w' = w_disk w ∧ w_snap w' = w_snap w.
Proof using fits.
  intros Hp Hroot Hi Hf. unfold getInstalledSnapshotMetadata, Meth.bind at 1, Meth.get.
  rewrite decide_False by (intros Hn; by apply Hn). rewrite Hroot.
  unfold Meth.bind, lift, GenerateSnapshotFolderPath, GenerateSnapshotFilePath, ask, FileRead. cbn [SnapshotFolderName SnapshotFileName].
  simpl. unfold install_dir, metadata_name in Hf. rewrite Hf. by apply decode_enc.
Qed.

Section Move.
Context (ft : Z) (ft_ok : ft = SnapshotFolderType_TempReceive ∨ ft = SnapshotFolderType_TempWrite).
Context (room_work : room_for d0 (work_dir ft)) (room_inst : room_for d0 install_dir).

Lemma work_dir_path : GenerateSnapshotFolderPath root ft i = Ok (work_dir ft).
Proof using ft_ok. unfold GenerateSnapshotFolderPath, work_dir. destruct ft_ok as [E|E]; by rewrite E. Qed.

Lemma install_ok got w :
  with_dir d0 (work_dir ft) got (w_disk w) →
  ∃ d', on_disk (InstallSnapshotFromTempFolder root ft i) w = Ret (set_disk d' w, Ok tt) ∧ with_dir d0 install_dir got d'.
Proof using ft_ok room_work room_inst.
  intros Hw. assert (¬ work_dir ft `prefix_of` install_dir ∧ ¬ install_dir `prefix_of` work_dir ft) as [H1 H2].
  { apply (folders_apart root i); [|done]. unfold work_dir. destruct ft_ok as [E|E]; rewrite E; [by left|by right]. }
  destruct (rename_with_dir d0 (work_dir ft) install_dir got (w_disk w)) as (d' & E & Hd'); [done..|].
  exists d'. split; [|done]. unfold on_disk, InstallSnapshotFromTempFolder. rewrite work_dir_path.
  change (GenerateSnapshotFolderPath root SnapshotFolderType_InstallSnapshot i) with (Ok install_dir). cbv beta iota.
  assert (ExistDir install_dir (w_disk w) = false) as ->.
  { apply bool_decide_eq_false. destruct (room_parts _ _ room_inst) as [Hf Hd]. intros [Hs|Hin].
    - rewrite (wd_out _ _ _ _ Hw), Hf in Hs; [by destruct Hs|]. intros n Hn. apply H1. rewrite Hn. by exists [n].
    - apply (wd_dirs _ _ _ _ Hw) in Hin as [?|He]; [done|]. apply H2. by rewrite He. }
  unfold RenameDir. by rewrite E.
Qed.

Lemma CommitSnapshot_ok got w :
  pool_ok L (w_pool w) → with_dir d0 (work_dir ft) (<[metadata_name := enc_metadata m]> got) (w_disk w) →
  SnapshotDir (config (w_snap w)) = root → i ∉ installedSnapshot (w_snap w) →
  (∀ h, externalFileHandler (w_snap w) = Some h → external_files m ≠ [] → h i (external_files m) = None) →
  ∃ w', CommitSnapshot ft i w = Ret (w', Ok tt) ∧ pool_ok L (w_pool w') ∧
    with_dir d0 install_dir (<[metadata_name := enc_metadata m]> got) (w_disk w') ∧
    installedSnapshot (w_snap w') = {[i]} ∪ installedSnapshot (w_snap w) ∧ config (w_snap w') = config (w_snap w).
Proof using fits ft_ok room_work room_inst.
  intros Hp Hw Hroot Hi Hh. unfold CommitSnapshot. unfold Meth.bind at 1, Meth.get. rewrite decide_False by done. rewrite Hroot.
  destruct (install_ok _ w Hw) as (d' & E & Hd'). step_by E.
  assert (SyncDir root d' = Ok tt) as Hsync.
  { unfold SyncDir, Exist. rewrite bool_decide_true; [done|]. right. apply (wd_dirs _ _ _ _ Hd'). left.
    pose proof (rf_parent _ _ room_inst) as Hr. unfold install_dir in Hr. by rewrite Dir_Join in Hr. }
  unfold Meth.bind at 1, ask. cbn [w_disk set_disk]. rewrite Hsync. unfold Meth.bind at 1, on_snap.
  set (w1 := set_snap _ _). destruct (getInstalled_ok w1) as (w2 & E2 & Hp2 & Hd2 & Hs2).
  - done.
  - done.
  - unfold w1. simpl. by apply elem_of_union_l, elem_of_singleton.
  - unfold w1. simpl. rewrite (wd_in _ _ _ _ Hd'). by rewrite lookup_insert_eq.
  - step_by E2. assert (∀ w3, w_disk w3 = w_disk w2 → installedSnapshot (w_snap w3) = installedSnapshot (w_snap w2) →
      config (w_snap w3) = config (w_snap w2) → w_pool w3 = w_pool w2 →
      pool_ok L (w_pool w3) ∧ with_dir d0 install_dir (<[metadata_name := enc_metadata m]> got) (w_disk w3) ∧
      installedSnapshot (w_snap w3) = {[i]} ∪ installedSnapshot (w_snap w) ∧ config (w_snap w3) = config (w_snap w)) as Hend.
    { intros w3 -> -> -> ->. rewrite Hd2, Hs2. done. }
    case_decide as Hext; [eexists; by split; [|apply Hend]|]. destruct (externalFileHandler (w_snap w)) as [h|] eqn:Eh.
    + unfold Meth.bind, on_snap. rewrite (Hh h eq_refl Hext). eexists. by split; [|apply Hend].
    + eexists. by split; [|apply Hend].
Qed.
End Move.

Context (room_tmp : room_for d0 temp_dir) (room_inst : room_for d0 install_dir).

(** Up to the validation of the files. *)
Lemma Receiver_Commit_prefix got vs w :
  pool_ok L (w_pool w) → with_dir d0 temp_dir got (w_disk w) → Version m = SnapshotVersion (w_snap w) →
  (∀ n, is_Some (got !! n) → ¬ is_ok (ParseMetadataFileName n)) →
  ∃ w2, Receiver_Commit {| r_dir := temp_dir; r_metadata := m; chunkValidator := vs |} i w
      = (ask (ValidateSnapshotFiles temp_dir m true) ;; CommitSnapshot SnapshotFolderType_TempReceive i)%go w2 ∧
    pool_ok L (w_pool w2) ∧ with_dir d0 temp_dir (<[metadata_name := enc_metadata m]> got) (w_disk w2) ∧ w_snap w2 = w_snap w.
Proof using fits index_ok room_tmp.
  intros Hp Hw Hver Hnames. pose proof (scan_metadata i index_ok) as Hscan.
  assert (got !! metadata_name = None) as Hnone.
  { apply eq_None_not_Some. intros Hs. apply (Hnames _ Hs). unfold metadata_name. by rewrite Hscan. }
  unfold Receiver_Commit. cbn [r_metadata]. rewrite decide_False by (intros Hn; by apply Hn).
  set (d1 := set_files (<[Join temp_dir metadata_name := []]> (d_files (w_disk w))) (w_disk w)).
  destruct (encode_fresh (Join temp_dir metadata_name) (w_disk w) (set_disk d1 w) Hp eq_refl) as (w1 & E1 & Hp1 & Hd1 & Hs1).
  pose proof (with_dir_update d0 temp_dir got (w_disk w) metadata_name (enc_metadata m) Hw) as Hw1. rewrite <- Hd1 in Hw1.
  assert (Exist temp_dir (w_disk w1) = true) as Hex.
  { apply bool_decide_eq_true. right. apply (wd_dirs _ _ _ _ Hw1). by right. }
  assert (writeMetadataFile {| r_dir := temp_dir; r_metadata := m; chunkValidator := vs |} i w = Ret (w1, Ok tt)) as Ewrite.
  { unfold writeMetadataFile, Meth.bind, lift, on_disk, FileWrite. simpl. fold metadata_name.
    rewrite (create_in d0 temp_dir room_tmp _ _ _ Hw), Hnone. cbn [mbind go_bind]. fold d1. rewrite E1.
    unfold ask, SyncDir. by rewrite Hex. }
  step_by Ewrite. cbn [r_dir]. destruct (decode_enc w1 Hp1) as (w2 & E2 & Hp2 & Hd2 & Hs2).
  assert (GetMetadataFile temp_dir w1 = Ret (w2, Ok m)) as Eget.
  { unfold GetMetadataFile, Meth.bind, ask, lift. erewrite (find_metadata d0 temp_dir _ _ metadata_name i); [|done|done|..].
    - simpl. fold metadata_name. unfold FileRead. rewrite (wd_in _ _ _ _ Hw1), lookup_insert_eq. done.
    - rewrite lookup_insert_eq. by eexists.
    - done.
    - intros n' Hn' Hne. rewrite lookup_insert_ne in Hn' by done. by apply Hnames. }
  step_by Eget. unfold Meth.bind at 1, Meth.get. rewrite Hs2, Hs1. cbn [w_snap set_disk].
  rewrite decide_False by (intros Hn; by apply Hn). exists w2. rewrite Hd2, Hs2, Hs1. done.
Qed.

Lemma Receiver_Commit_ok got vs w :
  pool_ok L (w_pool w) → with_dir d0 temp_dir got (w_disk w) →
  SnapshotDir (config (w_snap w)) = root → i ∉ installedSnapshot (w_snap w) →
  Version m = SnapshotVersion (w_snap w) →
  (∀ h, externalFileHandler (w_snap w) = Some h → h i (external_files m) = None) →
  (∀ n, is_Some (got !! n) → ¬ is_ok (ParseMetadataFileName n)) →
  (∀ t f, Files m !! t = Some f → IsExternal f = false →
    ∃ nm c, SnapshotFileName (FileType f) i (Tag f) = Ok nm ∧ got !! nm = Some c ∧
      FileSize f = Z.of_nat (length c) ∧ FileCrc64 f = crc64_ecma 0 c) →
  ∃ w', Receiver_Commit {| r_dir := temp_dir; r_metadata := m; chunkValidator := vs |} i w = Ret (w', Ok tt) ∧
    pool_ok L (w_pool w') ∧ with_dir d0 install_dir (<[metadata_name := enc_metadata m]> got) (w_disk w') ∧
    installedSnapshot (w_snap w') = {[i]} ∪ installedSnapshot (w_snap w) ∧ config (w_snap w') = config (w_snap w).
Proof using fits index_ok room_tmp room_inst.
  intros Hp Hw Hroot Hi Hver Hh Hnames Hfiles.
  destruct (Receiver_Commit_prefix got vs w Hp Hw Hver Hnames) as (w2 & -> & Hp2 & Hw2 & Hs2).
  assert (ValidateSnapshotFiles temp_dir m true (w_disk w2) = Ok tt) as Hval.
  { apply ValidateSnapshotFiles_spec. intros t f Hf Hext. destruct (Hfiles t f Hf Hext) as (nm & c & Hnm & Hc & Hsz & Hcrc).
    exists nm, c. split_and!; [done| |done|done]. rewrite (wd_in _ _ _ _ Hw2), lookup_insert_ne; [done|].
    intros <-. apply (Hnames metadata_name); [by eexists|]. unfold metadata_name. by rewrite scan_metadata. }
  unfold Meth.bind at 1, ask. rewrite Hval. rewrite <- Hs2.
  apply (CommitSnapshot_ok SnapshotFolderType_TempReceive (or_introl eq_refl) room_tmp room_inst got); rewrite ?Hs2; auto.
Qed.

(** A file that is listed and not there ends the commit. *)
Lemma Receiver_Commit_missing got vs w :
  pool_ok L (w_pool w) → with_dir d0 temp_dir got (w_disk w) → Version m = SnapshotVersion (w_snap w) →
  (∀ n, is_Some (got !! n) → ¬ is_ok (ParseMetadataFileName n)) →
  (∀ t f, Files m !! t = Some f → IsExternal f = false →
    ∃ nm, SnapshotFileName (FileType f) i (Tag f) = Ok nm ∧ nm ≠ metadata_name ∧
      (got !! nm = None ∨ ∃ c, got !! nm = Some c ∧ FileSize f = Z.of_nat (length c) ∧ FileCrc64 f = crc64_ecma 0 c)) →
  (∃ t f nm, Files m !! t = Some f ∧ IsExternal f = false ∧
    SnapshotFileName (FileType f) i (Tag f) = Ok nm ∧ got !! nm = None) →
  ∃ w', Receiver_Commit {| r_dir := temp_dir; r_metadata := m; chunkValidator := vs |} i w = Ret (w', Err err_not_found) ∧
    w_snap w' = w_snap w.
Proof using fits index_ok room_tmp.
  intros Hp Hw Hver Hnames Hfiles Hmiss.
  destruct (Receiver_Commit_prefix got vs w Hp Hw Hver Hnames) as (w2 & -> & Hp2 & Hw2 & Hs2).
  assert (ValidateSnapshotFiles temp_dir m true (w_disk w2) = Err err_not_found) as Hval; [|exists w2; split; [|done]; unfold Meth.bind, ask; by rewrite Hval].
  assert (∀ f nm, IsExternal f = false → SnapshotFileName (FileType f) i (Tag f) = Ok nm → nm ≠ metadata_name → got !! nm = None →
    validate_file temp_dir i true f (w_disk w2) = Err err_not_found) as Hnf.
  { intros f nm Hext Hnm Hne Hg. unfold validate_file, file_path. rewrite Hext, Hnm. cbn [andb].
    assert (ExistFilePath (Join temp_dir nm) (w_disk w2) = false) as ->; [|done].
    apply bool_decide_eq_false. rewrite (wd_in _ _ _ _ Hw2), lookup_insert_ne, Hg by done.
    intros [[? ?]|?]; [done|]. by eapply (with_dir_Join_no_dir d0 temp_dir room_tmp _ _ _ Hw2). }
  assert (∀ l : list (string * SnapshotFileDesc), (∀ t f, (t, f) ∈ l → Files m !! t = Some f) →
    (∃ t f nm, (t, f) ∈ l ∧ IsExternal f = false ∧ SnapshotFileName (FileType f) i (Tag f) = Ok nm ∧ got !! nm = None) →
    validate_files temp_dir i true l (w_disk w2) = Err err_not_found) as Hl.
  { induction l as [|[t f] l IH]; intros Hsub (t' & f' & nm & Hin & Hext & Hnm & Hg); [by apply elem_of_nil in Hin|].
    assert (∀ t f, (t, f) ∈ l → Files m !! t = Some f) as Hsub' by (intros ? ? ?; apply Hsub; by right).
    cbn [validate_files]. apply elem_of_cons in Hin as [[= <- <-]|Hin].
    - destruct (Hfiles t' f') as (nm' & Hnm' & Hne & _); [apply Hsub; by left|done|].
      rewrite (Hnf f' nm); [done|done|done| |done]. congruence.
    - assert (validate_files temp_dir i true l (w_disk w2) = Err err_not_found) as Hrest.
      { apply IH; [done|]. exists t', f', nm. done. }
      destruct (IsExternal f) eqn:Ef.
      { assert (validate_file temp_dir i true f (w_disk w2) = Ok tt) as -> by (unfold validate_file; by rewrite Ef). done. }
      destruct (Hfiles t f) as (nm2 & Hnm2 & Hne2 & [Hg2|(c & Hg2 & Hsz & Hcrc)]); [apply Hsub; by left|done|..].
      + by rewrite (Hnf f nm2).
      + rewrite (proj2 (validate_file_spec temp_dir (w_disk w2) f Ef)); [done|]. exists nm2, c.
        split_and!; [done| |done|done]. by rewrite (wd_in _ _ _ _ Hw2), lookup_insert_ne. }
  apply Hl; [by intros t f ?%elem_of_range|]. destruct Hmiss as (t & f & nm & Hf & ? & ? & ?).
  exists t, f, nm. by rewrite elem_of_range.
Qed.
End Install.
End Commit.

(** ** The transfer *)

Section Transfer.
Context `{Message SnapshotMetadata, MapRange} (L : list Z).

(** A snapshot that can be sent. *)
Record snapshot_sound (cs : nat) (m : SnapshotMetadata) (src : path) (ds : Disk) : Prop := {
  ss_some : Files m ≠ ∅;
  ss_files t f : Files m !! t = Some f → IsExternal f = false → ∃ nm c, sendable m cs src ds t f nm c;
  ss_apart : names_apart m cs src ds (range (Files m))
}.

(** A node that can take it: no transfer under way, and room for its folders. *)
Record receiver_ready (m : SnapshotMetadata) (s : Storage) : Prop := {
  rr_idle : snapshotReceiver s = None;
  rr_pool : pool_ok L (w_pool (st_world s));
  rr_fits : metadata_fits L m;
  rr_index : is_u64 (md_Index m);
  rr_new : md_Index m ∉ installedSnapshot (w_snap (st_world s));
  rr_version : Version m = SnapshotVersion (w_snap (st_world s));
  rr_temp : room_for (w_disk (st_world s)) (temp_dir m (SnapshotDir (config (w_snap (st_world s)))));
  rr_install : room_for (w_disk (st_world s)) (install_dir m (SnapshotDir (config (w_snap (st_world s)))));
  rr_handler h : externalFileHandler (w_snap (st_world s)) = Some h → h (md_Index m) (external_files m) = None
}.

Lemma metadata_received node m s msg :
  receiver_ready m s → Files m ≠ ∅ → addressed node m msg →
  sm_Type msg = SnapshotMessageType_Metadata → sm_Metadata msg = m →
  ∃ s', sendSnapshotMsg (H := direct node) msg s = Ret (s', Ok tt) ∧
    receiving m (st_world s) (w_disk (st_world s)) (temp_dir m (SnapshotDir (config (w_snap (st_world s))))) ∅ ∅ s'.
Proof.
  intros Hr Hne Ha Hty Hm. destruct (touch_new _ _ (rr_temp _ _ Hr)) as (d' & E & Hd').
  eexists. split.
  - unfold sendSnapshotMsg, send_checked, Meth.bind, Meth.get. cbn [stopped SendSnapshotMessage direct].
    unfold ProcessSnapshotMessage. rewrite (validate_addressed node m msg Ha), Hty. rewrite decide_True by done.
    unfold answer, ProcessMetadataSnapshotMessage. rewrite Hm, decide_True by done.
    unfold Meth.bind, Meth.get. rewrite (rr_idle _ _ Hr). unfold Meth.ret, in_world, CreateAtomicSnapshotReceiver, Meth.bind, Meth.get.
    rewrite decide_False by apply (rr_new _ _ Hr). unfold on_disk, CreateDirAndTouch, GenerateSnapshotFolderPath. simpl.
    unfold Meth.bind. unfold temp_dir, work_dir in E. simpl in E. rewrite E. done.
  - by constructor.
Qed.

(** The end of the sender's loop. *)
Definition last_message node (m : SnapshotMetadata) (snapMsg : RaftMessage) : SnapshotMessage :=
  finish_message (first_message (n_ClusterID node) snapMsg m) snapMsg.

(** The metadata and the files are sent; only the finish message is left. *)
Lemma files_sent node cs m src ds s snapMsg :
  (0 < cs)%nat → snapshot_sound cs m src ds → receiver_ready m s →
  sm_index (snap_meta (rm_Snapshot snapMsg)) = md_Index m → rm_To snapMsg = n_LocalPeerID node →
  let root := SnapshotDir (config (w_snap (st_world s))) in
  ∃ s2 got, sendSnapshotMessageLoop (H := direct node) (n_ClusterID node) cs snapMsg (NewReader src m) ds s
      = sendSnapshotMsg (H := direct node) (last_message node m snapMsg) s2 ∧
    receiving m (st_world s) (w_disk (st_world s)) (temp_dir m root) ∅ got s2 ∧
    (∀ t f nm c, Files m !! t = Some f → sendable m cs src ds t f nm c → got !! nm = arrived c) ∧
    (∀ n, is_Some (got !! n) → ¬ is_ok (ParseMetadataFileName n)) ∧
    (∀ t f nm c, sendable m cs src ds t f nm c → nm ≠ metadata_name m).
Proof.
  intros Hcs Hsound Hr Hidx Hto root. set (m0 := first_message (n_ClusterID node) snapMsg m).
  assert (addressed node m m0) as Ha by by constructor.
  destruct (metadata_received node m s m0 Hr (ss_some _ _ _ _ Hsound) Ha eq_refl eq_refl) as (s1 & E1 & Hs1).
  assert (∀ t f nm c, sendable m cs src ds t f nm c → ¬ is_ok (ParseMetadataFileName nm)) as Hno.
  { intros t f nm c Hsd. eapply scan_other; [apply Hr|by eapply sd_type|by eapply sd_name]. }
  destruct (files_received node m (st_world s) _ _ (rr_temp _ _ Hr) cs Hcs src ds m0 (range (Files m)) ∅ s1)
    as (s2 & got & E2 & Hs2 & _ & Hgot & Hdom).
  { intros t f Hin%elem_of_range. by apply (ss_files _ _ _ _ Hsound). }
  { rewrite range_perm. apply NoDup_fst_map_to_list. }
  { apply Hsound. }
  { intros. apply lookup_empty. }
  { done. }
  { done. }
  exists s2, got. split_and!; [|done| | |].
  - unfold sendSnapshotMessageLoop. cbv zeta. change (first_message _ _ _) with m0. step_by E1.
    unfold Meth.bind at 1, Meth.modify. cbn [breaker_Success direct].
    unfold Meth.bind at 1. change (ForEachFile _ _ _) with (for_each (send_file node m cs src ds m0) (range (Files m))).
    rewrite E2. unfold last_message. fold m0. unfold Meth.bind. by destruct (sendSnapshotMsg (H := direct node) (finish_message m0 snapMsg) s2) as [[? [[]|]]|].
  - intros t f nm c Hf. apply Hgot. by apply elem_of_range.
  - intros n [[? ?]|(t & f & c & _ & Hsd)]%Hdom; [done|]. by eapply Hno.
  - intros t f nm c Hsd ->. apply (Hno _ _ _ _ Hsd). unfold metadata_name. by rewrite scan_metadata by apply Hr.
Qed.

(** The finish message is handed to the receiver's commit. *)
Lemma finish_sent node m snapMsg s r w res :
  sm_index (snap_meta (rm_Snapshot snapMsg)) = md_Index m →
  rm_To snapMsg = n_LocalPeerID node → rm_To snapMsg ≠ 0 → n_Step node snapMsg = None →
  snapshotReceiver s = Some r → Receiver_Commit r (md_Index m) (st_world s) = Ret (w, res) →
  sendSnapshotMsg (H := direct node) (last_message node m snapMsg) s =
    match res with
    | Ok _ => Ret ({| st_world := w; snapshotReceiver := None |}, Ok tt)
    | Err e => Ret ({| st_world := w; snapshotReceiver := Some r |},
                    Err (Errorf (String.app "Failed to finish snapshot: " (error_string e))))
    end.
Proof.
  intros Hidx Hto Hto0 Hstep Hr E. unfold sendSnapshotMsg, send_checked, Meth.bind, Meth.get.
  cbn [stopped SendSnapshotMessage direct]. unfold ProcessSnapshotMessage.
  rewrite (validate_addressed node m (last_message node m snapMsg)) by by constructor.
  change (sm_Type (last_message node m snapMsg)) with SnapshotMessageType_Finish. rewrite !decide_False, decide_True by done.
  unfold ProcessFinishSnapshotMessage, Meth.bind, Meth.get. cbn [FinishMessage finish_message last_message].
  rewrite decide_True by done. rewrite Hr. unfold in_world.
  change (sm_Index (last_message node m snapMsg)) with (sm_index (snap_meta (rm_Snapshot snapMsg))).
  rewrite Hidx, E. cbn [mbind go_bind]. destruct res as [[]|e]; cbn [mbind go_bind Meth.modify]; [by rewrite Hstep|by rewrite Hr].
Qed.

(** C21: a snapshot whose files are on the sender's disk as its metadata says, none of them
    empty, arrives.  The sender's loop, run against the handlers of a node that is ready for
    it, succeeds for every size of the pieces and every order of the files: the node has the
    snapshot installed with the sender's metadata, each of its files has the contents it has
    at the sender, the rest of the disk is as before, and no transfer is under way. *)
Theorem snapshot_transfer node cs m src ds s snapMsg :
  (0 < cs)%nat → snapshot_sound cs m src ds → receiver_ready m s →
  (∀ t f, Files m !! t = Some f → IsExternal f = false → FileSize f ≠ 0) →
  sm_index (snap_meta (rm_Snapshot snapMsg)) = md_Index m →
  rm_To snapMsg = n_LocalPeerID node → rm_To snapMsg ≠ 0 → n_Step node snapMsg = None →
  ∃ s', sendSnapshotMessageLoop (H := direct node) (n_ClusterID node) cs snapMsg (NewReader src m) ds s = Ret (s', Ok tt) ∧
    let d' := w_disk (st_world s') in
    let inst := install_dir m (SnapshotDir (config (w_snap (st_world s)))) in
    snapshotReceiver s' = None ∧
    installedSnapshot (w_snap (st_world s')) = {[md_Index m]} ∪ installedSnapshot (w_snap (st_world s)) ∧
    (∀ t f, Files m !! t = Some f → IsExternal f = false →
      ∃ nm c, SnapshotFileName (FileType f) (md_Index m) (Tag f) = Ok nm ∧
        FileRead (Join src nm) ds = Ok c ∧ FileRead (Join inst nm) d' = Ok c) ∧
    (∃ w', getInstalledSnapshotMetadata (md_Index m) (st_world s') = Ret (w', Ok m)) ∧
    (∀ p, (∀ n, p ≠ Join inst n) → d_files d' !! p = d_files (w_disk (st_world s)) !! p).
Proof.
  intros Hcs Hsound Hr Hfull Hidx Hto Hto0 Hstep. set (root := SnapshotDir (config (w_snap (st_world s)))).
  destruct (files_sent node cs m src ds s snapMsg Hcs Hsound Hr Hidx Hto) as (s2 & got & -> & [Hrecv Hpool Hsnap Hdisk] & Hgot & Hno & Hmeta).
  fold root in Hdisk, Hrecv. assert (∀ t f, Files m !! t = Some f → IsExternal f = false →
    ∃ nm c, sendable m cs src ds t f nm c ∧ got !! nm = Some c) as Hall.
  { intros t f Hf Hext. destruct (ss_files _ _ _ _ Hsound t f Hf Hext) as (nm & c & Hsd). exists nm, c. split; [done|].
    rewrite (Hgot t f nm c Hf Hsd). unfold arrived. rewrite decide_False; [done|]. intros ->.
    apply (Hfull t f Hf Hext). by rewrite (sd_size _ _ _ _ _ _ _ _ Hsd). }
  destruct (Receiver_Commit_ok L m (rr_fits _ _ Hr) (rr_index _ _ Hr) (w_disk (st_world s)) root (rr_temp _ _ Hr)
    (rr_install _ _ Hr) got ∅ (st_world s2)) as (w' & E3 & Hp3 & Hd3 & Hi3 & Hc3); rewrite ?Hpool, ?Hsnap; try apply Hr; try done.
  { intros t f Hf Hext. destruct (Hall t f Hf Hext) as (nm & c & Hsd & Hc). exists nm, c.
    split_and!; [by eapply sd_name|done|by eapply sd_size|by eapply sd_crc64]. }
  rewrite (finish_sent node m snapMsg s2 _ _ _ Hidx Hto Hto0 Hstep Hrecv E3). eexists. split; [done|].
  cbn [st_world snapshotReceiver]. split_and!; [done|by rewrite Hi3, Hsnap| | |].
  - intros t f Hf Hext. destruct (Hall t f Hf Hext) as (nm & c & Hsd & Hc). exists nm, c.
    split; [by eapply sd_name|]. unfold FileRead. rewrite (sd_file _ _ _ _ _ _ _ _ Hsd). split; [done|].
    fold root. rewrite (wd_in _ _ _ _ Hd3), lookup_insert_ne; [by rewrite Hc|]. intros <-. by eapply Hmeta.
  - destruct (getInstalled_ok L m (rr_fits _ _ Hr) root w') as (w2 & E4 & _); [done|by rewrite Hc3, Hsnap| | |by eexists].
    + rewrite Hi3. by apply elem_of_union_l, elem_of_singleton.
    + by rewrite (wd_in _ _ _ _ Hd3), lookup_insert_eq.
  - intros p Hp. by apply (wd_out _ _ _ _ Hd3).
Qed.

(** A snapshot with an empty file cannot be sent.  The sender has no piece to send for
    it and takes it for sent; the receiver misses the file when it checks the snapshot, so
    the transfer fails and nothing is installed, on every attempt. *)
Theorem empty_file_not_sent node cs m src ds s snapMsg t f :
  (0 < cs)%nat → snapshot_sound cs m src ds → receiver_ready m s →
  Files m !! t = Some f → IsExternal f = false → FileSize f = 0 →
  sm_index (snap_meta (rm_Snapshot snapMsg)) = md_Index m →
  rm_To snapMsg = n_LocalPeerID node → rm_To snapMsg ≠ 0 → n_Step node snapMsg = None →
  ∃ s' e, sendSnapshotMessageLoop (H := direct node) (n_ClusterID node) cs snapMsg (NewReader src m) ds s = Ret (s', Err e) ∧
    installedSnapshot (w_snap (st_world s')) = installedSnapshot (w_snap (st_world s)).
Proof.
  intros Hcs Hsound Hr Hf Hext Hz Hidx Hto Hto0 Hstep. set (root := SnapshotDir (config (w_snap (st_world s)))).
  destruct (files_sent node cs m src ds s snapMsg Hcs Hsound Hr Hidx Hto) as (s2 & got & -> & [Hrecv Hpool Hsnap Hdisk] & Hgot & Hno & Hmeta).
  fold root in Hdisk, Hrecv.
  destruct (Receiver_Commit_missing L m (rr_fits _ _ Hr) (rr_index _ _ Hr) (w_disk (st_world s)) root (rr_temp _ _ Hr)
    got ∅ (st_world s2)) as (w' & E & Hs'); rewrite ?Hpool, ?Hsnap; try apply Hr; try done.
  { intros t' f' Hf' Hext'. destruct (ss_files _ _ _ _ Hsound t' f' Hf' Hext') as (nm & c & Hsd). exists nm.
    split_and!; [by eapply sd_name|by eapply Hmeta|]. rewrite (Hgot t' f' nm c Hf' Hsd). unfold arrived.
    case_decide; [by left|right]. exists c. split_and!; [done|by eapply sd_size|by eapply sd_crc64]. }
  { destruct (ss_files _ _ _ _ Hsound t f Hf Hext) as (nm & c & Hsd). exists t, f, nm.
    split_and!; [done|done|by eapply sd_name|]. rewrite (Hgot t f nm c Hf Hsd). unfold arrived.
    rewrite decide_True; [done|]. apply length_zero_iff_nil. pose proof (sd_size _ _ _ _ _ _ _ _ Hsd). lia. }
  rewrite (finish_sent node m snapMsg s2 _ _ _ Hidx Hto Hto0 Hstep Hrecv E). do 2 eexists. split; [done|].
  simpl. by rewrite Hs', Hsnap.
Qed.
End Transfer.
