(* ===== verification/SnapshotVerified.v ===== *)
(** * Only verified snapshots are installed

    Whatever messages reach a node, in whatever order, lost, repeated or made up, a finish
    message is only answered with success when the snapshot's folder was renamed to its
    final place and every file its metadata lists is there with the size and the checksum
    the metadata says. *)

From S2P Require Import Prelude Raftpb Allocator Streams LogFiles SnapshotFs SnapshotIo SnapshotTransfer SnapshotInstall.

Lemma go_bind_inv {S A B} (m : meth S A) (k : A → meth S B) s s' r :
  Meth.bind m k s = Ret (s', r) →
  (∃ s1 a, m s = Ret (s1, Ok a) ∧ k a s1 = Ret (s', r)) ∨ (∃ e, m s = Ret (s', Err e) ∧ r = Err e).
Proof.
  unfold Meth.bind. destruct (m s) as [[s1 [a|e]]|]; [left; by do 2 eexists|intros [= -> <-]; right; by eexists|done].
Qed.

Lemma bind_Ok_inv {S A B} (m : meth S A) (k : A → meth S B) s s' b :
  Meth.bind m k s = Ret (s', Ok b) → ∃ s1 a, m s = Ret (s1, Ok a) ∧ k a s1 = Ret (s', Ok b).
Proof. by intros [?|(? & _ & [=])]%go_bind_inv. Qed.

(** ** What a method over a stream keeps of the stream *)

Section StreamKeeps.
Context {S : Type} (Q : S → Prop).

Definition stream_keeps {A} (m : meth (ByteSlicePool * S) A) : Prop :=
  ∀ st st' r, Q st.2 → m st = Ret (st', r) → Q st'.2.

Lemma keeps_bind {A B} (m : meth _ A) (k : A → meth _ B) :
  stream_keeps m → (∀ a, stream_keeps (k a)) → stream_keeps (Meth.bind m k).
Proof. intros Hm Hk st st' r Hq [(s1 & a & E & E')|(e & E & _)]%go_bind_inv; [eapply Hk; [|done]|]; by eapply Hm. Qed.

Lemma keeps_buf {A} n (body : ByteSlice → meth _ A) : (∀ bs, stream_keeps (body bs)) → stream_keeps (with_buf n body).
Proof.
  intros Hb [p s] st' r Hq. unfold with_buf. cbn [fst snd]. destruct (Acquire p n) as [[p1 bs]|]; [|done]. cbn [mbind go_bind].
  destruct (body bs (p1, s)) as [[st1 a]|] eqn:E; [|done]. cbn [mbind go_bind]. destruct (Release _ _) as [p2|]; [|done].
  intros [= <- _]. by apply (Hb bs (p1, s) st1 a Hq E).
Qed.

Lemma keeps_write `{Writer S} b :
  (∀ st st' e, Q st → w_write st b = Ret (st', e) → Q st') → stream_keeps (on_stream (write_bytes b)).
Proof.
  intros Hb [p s] st' r Hq. unfold on_stream, write_bytes. cbn [fst snd].
  destruct (w_write s b) as [[s1 e]|] eqn:E; [|done]. cbn [mbind go_bind]. intros [= <- _]. by eapply Hb.
Qed.
End StreamKeeps.

(** ** What every method of the world keeps *)

Section Preserve.
Context `{Message SnapshotMetadata, MapRange} (cfg : Config).

Definition world_ok (w : World) : Prop := tree (w_disk w) ∧ config (w_snap w) = cfg.
Definition preserves {A} (m : meth World A) : Prop := ∀ w w' r, world_ok w → m w = Ret (w', r) → world_ok w'.

Lemma preserves_bind {A B} (m : meth World A) (k : A → meth World B) :
  preserves m → (∀ a, preserves (k a)) → preserves (Meth.bind m k).
Proof. intros Hm Hk w w' r Hw [(w1 & a & E & E')|(e & E & _)]%go_bind_inv; [eapply Hk; [|done]|]; by eapply Hm. Qed.

Lemma preserves_ret {A} (a : A) : preserves (Meth.ret a).
Proof. by intros w w' r Hw [= <- _]. Qed.
Lemma preserves_fail {A} e : preserves (A := A) (Meth.fail e).
Proof. by intros w w' r Hw [= <- _]. Qed.
Lemma preserves_get : preserves Meth.get.
Proof. by intros w w' r Hw [= <- _]. Qed.
Lemma preserves_ask {A} (q : Disk → result A) : preserves (ask q).
Proof. by intros w w' r Hw [= <- _]. Qed.
Lemma preserves_lift {A} (q : result A) : preserves (lift q).
Proof. by intros w w' r Hw [= <- _]. Qed.
Lemma preserves_snap f : (∀ s, config (f s) = config s) → preserves (on_snap f).
Proof. intros Hf w w' r [Ht Hc] [= <- _]. split; [done|]. simpl. by rewrite Hf. Qed.
Lemma preserves_disk {A} (m : meth Disk A) :
  (∀ d d' r, tree d → m d = Ret (d', r) → tree d') → preserves (on_disk m).
Proof.
  intros Hm w w' r [Ht Hc]. unfold on_disk. destruct (m (w_disk w)) as [[d a]|] eqn:E; [|done].
  intros [= <- _]. split; [by eapply Hm|done].
Qed.
Lemma preserves_decode c : preserves (decode_of c).
Proof.
  intros w w' r Hw. unfold decode_of. destruct (Decode _) as [[[p b] a]|]; [|done]. by intros [= <- _].
Qed.
End Preserve.

Create HintDb keeps.
#[export] Hint Resolve preserves_ret preserves_fail preserves_get preserves_ask preserves_lift preserves_decode
  tree_create_any tree_append tree_touch tree_remove : keeps.

(** Structure of a method: binds, conditionals, matches. *)
Ltac keep := repeat (first
  [ apply preserves_bind; [|intros ?]
  | progress auto with keeps
  | apply preserves_disk; progress eauto with keeps
  | apply preserves_snap; done
  | match goal with
    | |- preserves _ (if ?b then _ else _) => destruct b
    | |- preserves _ (match ?x with _ => _ end) => destruct x
    | |- preserves _ (let _ := _ in _) => cbv zeta
    end ]).

Section Methods.
Context `{Message SnapshotMetadata, MapRange} (cfg : Config).

Lemma getInstalled_keeps i : preserves cfg (getInstalledSnapshotMetadata i).
Proof. unfold getInstalledSnapshotMetadata. keep. Qed.

Lemma GetMetadataFile_keeps dir : preserves cfg (GetMetadataFile dir).
Proof. unfold GetMetadataFile. keep. Qed.

Lemma install_keeps root ft i : preserves cfg (on_disk (InstallSnapshotFromTempFolder root ft i)).
Proof.
  apply preserves_disk. intros d d' r Ht. unfold InstallSnapshotFromTempFolder.
  destruct (GenerateSnapshotFolderPath root SnapshotFolderType_InstallSnapshot i) as [inst|]; [|by intros [= <- _]].
  destruct (ExistDir inst d) eqn:Ex; [by intros [= <- _]|].
  destruct (GenerateSnapshotFolderPath root ft i) as [src|]; [|by intros [= <- _]].
  unfold RenameDir. destruct r as [[]|e]; [by apply tree_rename|]. unfold os_Rename.
  repeat case_decide; by intros [= <- _].
Qed.

Lemma CommitSnapshot_keeps ft i : preserves cfg (CommitSnapshot ft i).
Proof.
  unfold CommitSnapshot. apply preserves_bind; [auto with keeps|]. intros w. case_decide; [auto with keeps|].
  apply preserves_bind; [apply install_keeps|]. intros []. apply preserves_bind; [auto with keeps|]. intros [].
  apply preserves_bind; [by apply preserves_snap|]. intros []. apply preserves_bind; [apply getInstalled_keeps|]. intros meta.
  keep.
Qed.

(** Writing the metadata: the file is there afterwards. *)
Lemma encode_keeps p m w w' r : world_ok cfg w → is_Some (d_files (w_disk w) !! p) →
  encode_to {| of_path := p; of_off := 0 |} m w = Ret (w', r) → world_ok cfg w' ∧ is_Some (d_files (w_disk w') !! p).
Proof.
  intros [Ht Hc] Hp. unfold encode_to.
  set (Q := fun st : Disk * OsFile => tree st.1 ∧ of_path st.2 = p ∧ is_Some (d_files st.1 !! p)).
  assert (stream_keeps Q (Encode m)) as HE.
  { assert (∀ b st st' e, Q st → w_write st b = Ret (st', e) → Q st') as HQ.
    { intros b [d f] st' e (Hd & <- & Hs) [= <- _]. simpl. split_and!; [by apply tree_insert; [|left]|done|].
      simpl. rewrite lookup_insert_eq. by eexists. }
    apply keeps_buf. intros bs. do 2 (apply keeps_bind; [apply keeps_write, HQ|intros ?]). apply keeps_write, HQ. }
  destruct (Encode m _) as [[[po [d f]] a]|] eqn:E; [|done]. intros [= <- _].
  apply HE in E; [|done]. by destruct E as (? & _ & ?).
Qed.
End Methods.

(** ** The commit of a receiver *)

Section Verified.
Context `{Message SnapshotMetadata, MapRange} (cfg : Config).

(** What a folder's metadata file decodes to. *)
Definition decodes (b : list byte) (m : SnapshotMetadata) : Prop := ∃ p st, Decode (p, b) = Ret (st, Ok m).

(** The folder [dir] holds a verified snapshot [i]. *)
Definition verified (dir : path) (i : Z) (d : Disk) (m : SnapshotMetadata) : Prop :=
  Version m = c_SnapshotVersion cfg ∧
  (∃ b, FileRead (Join dir (hex16 i ".metadata")) d = Ok b ∧ decodes b m) ∧
  ∀ t f, Files m !! t = Some f → IsExternal f = false → intact m dir d f.

Definition folder (kind : string) (i : Z) : path := Join (SnapshotDir cfg) (String.app kind (hex16 i "")).

Lemma writeMetadata_inv r i w w' :
  world_ok cfg w → writeMetadataFile r i w = Ret (w', Ok tt) →
  world_ok cfg w' ∧ is_Some (d_files (w_disk w') !! Join (r_dir r) (hex16 i ".metadata")).
Proof.
  intros Hw (w1 & nm & E1 & (w2 & f & E2 & (w3 & [] & E3 & E4)%bind_Ok_inv)%bind_Ok_inv)%bind_Ok_inv.
  unfold lift in E1. simpl in E1. simplify_eq. unfold on_disk in E2.
  destruct (FileWrite _ (w_disk w1)) as [[d a]|] eqn:Ef; [|done]. simpl in E2. simplify_eq.
  destruct Hw as [Ht Hc]. destruct (tree_create _ _ _ _ Ht Ef) as (Htd & -> & Hs).
  destruct (encode_keeps cfg (Join (r_dir r) (hex16 i ".metadata")) (r_metadata r) (set_disk d w1) w3 (Ok tt)) as [Hw3 Hs3]; [by split|done|done|].
  unfold ask in E4. by simplify_eq.
Qed.

Lemma GetMetadata_inv dir i w w' m :
  is_u64 i → is_Some (d_files (w_disk w) !! Join dir (hex16 i ".metadata")) →
  GetMetadataFile dir w = Ret (w', Ok m) →
  w_disk w' = w_disk w ∧ w_snap w' = w_snap w ∧
  ∃ b, FileRead (Join dir (hex16 i ".metadata")) (w_disk w) = Ok b ∧ decodes b m.
Proof.
  intros Hi Hs (w1 & l & E1 & E2)%bind_Ok_inv. unfold ask in E1. destruct (FindMetadataFile dir (w_disk w)) as [l'|] eqn:El; [|done].
  simplify_eq. assert (i ∈ l) as Hin.
  { apply (elem_of_FindMetadataFile _ _ _ i El). exists (hex16 i ".metadata"). split; [done|by apply scan_metadata]. }
  destruct l as [|j [|k l]]; [done| |done]. apply list_elem_of_singleton in Hin as <-.
  apply bind_Ok_inv in E2 as (w2 & nm & E2 & (w3 & b & E3 & E4)%bind_Ok_inv). unfold lift in E2. simpl in E2. simplify_eq.
  unfold ask in E3. destruct (FileRead _ (w_disk w2)) as [b'|] eqn:Eb; [|done]. simplify_eq.
  unfold decode_of in E4. destruct (Decode _) as [[[p st] a]|] eqn:Ed; [|done]. simplify_eq/=.
  split_and!; [done|done|]. exists b. split; [done|]. by do 2 eexists.
Qed.

(** Verification survives the rename. *)
Lemma verified_rename i d d' m :
  tree d → verified (folder tempReceiverFolderNamePrefix i) i d m →
  InstallSnapshotFromTempFolder (SnapshotDir cfg) SnapshotFolderType_TempReceive i d = Ret (d', Ok tt) →
  verified (folder snapshotFolderNamePrefix i) i d' m.
Proof.
  intros Ht (Hv & (b & Hb & Hdec) & Hfiles). unfold InstallSnapshotFromTempFolder, GenerateSnapshotFolderPath. simpl.
  fold (folder snapshotFolderNamePrefix i) (folder tempReceiverFolderNamePrefix i).
  destruct (ExistDir _ d) eqn:Ex; [done|]. unfold RenameDir. intros E.
  set (src := folder tempReceiverFolderNamePrefix i) in *. set (dst := folder snapshotFolderNamePrefix i) in *.
  assert (∀ n c, d_files d !! Join src n = Some c → d_files d' !! Join dst n = Some c) as Hto.
  { assert (src ∈ d_dirs d ∧ Dir dst ∈ d_dirs d ∧ ¬ src `prefix_of` dst) as (Hs & Hp & Hpre).
    { unfold os_Rename in E. case_decide as H1; [done|]. case_decide as H2; [done|].
      destruct (decide (src ∈ d_dirs d)); [|tauto]. destruct (decide (Dir dst ∈ d_dirs d)); tauto. }
    destruct (rename_spec src dst d Ht Ex Hs Hp Hpre) as (d2 & E2 & Hto & _). rewrite E2 in E. simplify_eq.
    intros n c Hc. unfold Join. by rewrite Hto. }
  split; [done|]. split.
  - exists b. split; [|done]. unfold FileRead in *. destruct (d_files d !! _) as [c|] eqn:Ec; [|by case_decide].
    simplify_eq. by rewrite (Hto _ _ Ec).
  - intros t f Hf Hext. destruct (Hfiles t f Hf Hext) as (nm & c & Hnm & Hc & Hsz & Hcrc).
    exists nm, c. split_and!; [done| |done|done]. by apply Hto.
Qed.

Lemma getInstalled_same i w w' r :
  getInstalledSnapshotMetadata i w = Ret (w', r) → w_disk w' = w_disk w ∧ w_snap w' = w_snap w.
Proof.
  unfold getInstalledSnapshotMetadata, Meth.bind, Meth.get, Meth.fail, lift, ask. case_decide; [by intros [= <- _]|]. simpl.
  destruct (FileRead _ _) as [b|]; [|by intros [= <- _]]. unfold decode_of.
  destruct (Decode _) as [[[p st] a]|]; [|done]. by intros [= <- _].
Qed.

Lemma CommitSnapshot_inv ft i w w' :
  config (w_snap w) = cfg → CommitSnapshot ft i w = Ret (w', Ok tt) →
  InstallSnapshotFromTempFolder (SnapshotDir cfg) ft i (w_disk w) = Ret (w_disk w', Ok tt) ∧
  i ∈ installedSnapshot (w_snap w').
Proof.
  intros Hc (w0 & ? & [= <- <-] & E)%bind_Ok_inv. case_decide; [done|]. rewrite Hc in E.
  apply bind_Ok_inv in E as (w1 & [] & E1 & (w2 & [] & E2 & (w3 & [] & E3 & (w4 & meta & E4 & E5)%bind_Ok_inv)%bind_Ok_inv)%bind_Ok_inv).
  unfold on_disk in E1. destruct (InstallSnapshotFromTempFolder _ _ _ _) as [[d a]|]; [|done]. simpl in E1. simplify_eq.
  unfold ask in E2. destruct (SyncDir _ _) as [[]|]; [|done]. simplify_eq. unfold on_snap in E3. simplify_eq.
  apply getInstalled_same in E4 as [Hd Hs].
  assert (w_disk w' = w_disk w4 ∧ installedSnapshot (w_snap w') = installedSnapshot (w_snap w4)) as [Hd' Hs'].
  { revert E5. cbv zeta. case_decide; [by intros [= <-]|]. destruct (externalFileHandler (w_snap w)) as [h|]; [|by intros [= <-]].
    intros (w5 & [] & [= <-] & E5)%bind_Ok_inv. destruct (h _ _); [done|]. by injection E5 as <-. }
  rewrite Hd', Hd, Hs', Hs. simpl. split; [done|]. by apply elem_of_union_l, elem_of_singleton.
Qed.

Lemma Receiver_Commit_verified r i w w' :
  world_ok cfg w → is_u64 i → r_dir r = folder tempReceiverFolderNamePrefix (md_Index (r_metadata r)) →
  Receiver_Commit r i w = Ret (w', Ok tt) →
  i ∈ installedSnapshot (w_snap w') ∧ ∃ m, verified (folder snapshotFolderNamePrefix i) i (w_disk w') m.
Proof.
  intros Hw Hi Hdir. unfold Receiver_Commit. case_decide as Hidx; [done|].
  rewrite Hidx in Hdir. intros (w1 & [] & E1 & (w2 & m & E2 & (w3 & ? & [= <- <-] & E3)%bind_Ok_inv)%bind_Ok_inv)%bind_Ok_inv.
  destruct (writeMetadata_inv r i w w1 Hw E1) as [Hw1 Hs1].
  destruct (GetMetadata_inv (r_dir r) i w1 w2 m Hi Hs1 E2) as (Hd2 & Hsn2 & Hb).
  case_decide as Hver; [done|]. apply bind_Ok_inv in E3 as (w4 & [] & E4 & E5). unfold ask in E4.
  destruct (ValidateSnapshotFiles _ _ _ _) as [[]|] eqn:Ev; [|done].
  assert (w4 = w2) as -> by congruence. pose proof (proj1 (ValidateSnapshotFiles_spec m _ _) Ev) as Hfiles. destruct Hw1 as [Ht1 Hc1].
  apply CommitSnapshot_inv in E5 as [Einst Hin]; [|by rewrite Hsn2]. split; [done|]. exists m.
  apply (verified_rename i (w_disk w2)); [by rewrite Hd2| |done]. rewrite <- Hdir. split_and!.
  - unfold SnapshotVersion in Hver. by rewrite Hsn2, Hc1 in Hver.
  - by rewrite Hd2.
  - done.
Qed.

(** ** Any messages *)

Record storage_ok (s : Storage) : Prop := {
  so_world : world_ok cfg (st_world s);
  so_dir r : snapshotReceiver s = Some r → r_dir r = folder tempReceiverFolderNamePrefix (md_Index (r_metadata r))
}.

Lemma in_world_keeps {A} (m : meth World A) s s' r :
  preserves cfg m → storage_ok s → in_world m s = Ret (s', r) → storage_ok s' ∧ snapshotReceiver s' = snapshotReceiver s.
Proof.
  intros Hm [Hw Hd]. unfold in_world. destruct (m (st_world s)) as [[w a]|] eqn:E; [|done]. intros [= <- _].
  split; [|done]. split; [by eapply Hm|done].
Qed.

Lemma SaveChunk_keeps i c d r d' r' a :
  tree d → SaveChunk i c (d, r) = Ret ((d', r'), a) → tree d' ∧ r_dir r' = r_dir r ∧ r_metadata r' = r_metadata r.
Proof.
  intros Ht. unfold SaveChunk. case_decide; [by intros [= <- <- _]|].
  destruct (match chunkValidator r !! FileTag c with Some _ => _ | None => _ end) as [v|e]; [|by intros [= <- <- _]].
  destruct (ValidateAndAppend c (d, v)) as [[[d1 v1] res]|] eqn:E; [|done]. cbn [mbind go_bind].
  assert (tree d1) as Ht1.
  { revert E. unfold ValidateAndAppend. destruct (finish v); [by intros [= <- _ _]|]. case_decide; [by intros [= <- _ _]|].
    cbv zeta. case_decide; [by intros [= <- _ _]|]. cbn [filePath nextChunkId continueCrc32].
    destruct (FileAppendData _ _ _ d) as [[d2 [[]|]]|] eqn:Ea; [| |done]; apply tree_append in Ea; [|done| |done].
    - cbn [mbind go_bind]. destruct (LastChunk c); [|by intros [= <- _ _]].
      unfold FileAppendFinalize. by destruct (d_files d2 !! _); intros [= <- _ _].
    - by intros [= <- _ _]. }
  destruct res as [[]|e]; [|by intros [= <- <- _]]. intros [= <- <- _]. by destruct (LastChunk c).
Qed.

Lemma Receiver_Commit_keeps r i : preserves cfg (Receiver_Commit r i).
Proof.
  unfold Receiver_Commit. case_decide; [auto with keeps|].
  apply preserves_bind.
  { intros w w' a Hw E. unfold writeMetadataFile in E. apply go_bind_inv in E as [(w1 & nm & [= -> <-] & E)|(e & [=] & _)].
    apply go_bind_inv in E as [(w2 & f & E2 & E)|(e & E2 & _)].
    - unfold on_disk in E2. destruct (FileWrite _ _) as [[d b]|] eqn:Ef; [|done]. simpl in E2. simplify_eq.
      destruct Hw as [Ht Hc]. destruct (tree_create _ _ _ _ Ht Ef) as (Htd & -> & Hs).
      apply go_bind_inv in E as [(w3 & [] & E3 & E4)|(e & E3 & _)].
      + unfold ask in E4. simplify_eq. eapply encode_keeps; [| |exact E3]; [by split|exact Hs].
      + eapply encode_keeps; [| |exact E3]; [by split|exact Hs].
    - eapply preserves_disk; [|exact Hw|exact E2]. intros. by eapply tree_create_any. }
  intros []. apply preserves_bind; [apply GetMetadataFile_keeps|]. intros m. apply preserves_bind; [auto with keeps|].
  intros w. case_decide; [auto with keeps|]. apply preserves_bind; [auto with keeps|]. intros []. apply CommitSnapshot_keeps.
Qed.

Lemma Receiver_created_keeps m : preserves cfg (CreateAtomicSnapshotReceiver m).
Proof.
  unfold CreateAtomicSnapshotReceiver. apply preserves_bind; [auto with keeps|]. intros w. case_decide; [auto with keeps|].
  apply preserves_bind; [|auto with keeps]. apply preserves_disk. intros d d' b Ht. unfold CreateDirAndTouch.
  destruct (GenerateSnapshotFolderPath _ _ _); [|by intros [= <- _]].
  intros [(d1 & [] & E3 & [= <- _])|(e & E3 & _)]%go_bind_inv; by eapply tree_touch.
Qed.

Lemma metadata_keeps msg s s' a : storage_ok s → ProcessMetadataSnapshotMessage msg s = Ret (s', a) → storage_ok s'.
Proof.
  intros Hs E. unfold ProcessMetadataSnapshotMessage in E. revert E. case_decide; [|by intros [= <- _]].
  intros [(? & ? & [= <- <-] & E)|(? & [=] & _)]%go_bind_inv.
  assert (∀ s2 b, match snapshotReceiver s with Some r => in_world (DeleteDir r) | None => Meth.ret tt end s = Ret (s2, b) →
    storage_ok s2) as Hdel.
  { intros s2 b. destruct (snapshotReceiver s); [|by intros [= <- _]]. intros E2. eapply in_world_keeps; [|done|exact E2].
    apply preserves_disk. intros. by eapply tree_remove. }
  apply go_bind_inv in E as [(s2 & [] & E2 & E)|(e & E2 & _)]; [|by eapply Hdel]. apply Hdel in E2.
  apply go_bind_inv in E as [(s3 & rc & E3 & [= <- _])|(e & E3 & _)]; [|eapply in_world_keeps; [apply Receiver_created_keeps|done..]].
  destruct (in_world_keeps _ _ _ _ (Receiver_created_keeps _) E2 E3) as [[Hw3 _] _]. split; [done|]. simpl. intros r' [= <-].
  unfold in_world in E3. destruct (CreateAtomicSnapshotReceiver _ _) as [[w4 rc4]|] eqn:E4; [|done]. simplify_eq/=.
  unfold CreateAtomicSnapshotReceiver in E4. apply bind_Ok_inv in E4 as (? & ? & [= <- <-] & E4). revert E4.
  case_decide; [done|]. intros (w5 & dir & E5 & [= <- <-])%bind_Ok_inv. simpl. unfold on_disk in E5.
  destruct (CreateDirAndTouch _ _ _ _) as [[d b]|] eqn:Ec; [|done]. simplify_eq/=. unfold CreateDirAndTouch in Ec. simpl in Ec.
  apply bind_Ok_inv in Ec as (d1 & [] & _ & [= _ <-]). unfold folder. by rewrite (proj2 (so_world _ E2)).
Qed.

Lemma chunk_keeps msg s s' a : storage_ok s → ProcessChunkSnapshotMessage msg s = Ret (s', a) → storage_ok s'.
Proof.
  intros Hs E. unfold ProcessChunkSnapshotMessage in E. apply go_bind_inv in E as [(? & ? & [= <- <-] & E)|(? & [=] & _)].
  destruct (snapshotReceiver s) as [rc|] eqn:Erc; [|by injection E as <- _]. revert E. case_decide; [|by intros [= <- _]].
  unfold save_chunk. destruct (SaveChunk _ _ _) as [[[d rc'] b]|] eqn:E; [|done]. intros [= <- _].
  destruct Hs as [[Ht Hc] Hd]. apply SaveChunk_keeps in E as (Ht' & Hdir & Hm); [|done].
  split; [by split|]. simpl. intros r' [= <-]. rewrite Hdir, Hm. by apply Hd.
Qed.

Lemma finish_keeps msg s s' a : storage_ok s → ProcessFinishSnapshotMessage msg s = Ret (s', a) → storage_ok s'.
Proof.
  intros Hs E. unfold ProcessFinishSnapshotMessage in E. revert E. case_decide; [|by intros [= <- _]].
  intros [(? & ? & [= <- <-] & E)|(? & [=] & _)]%go_bind_inv. destruct (snapshotReceiver s) as [rc|]; [|done].
  apply go_bind_inv in E as [(s2 & [] & E2 & [= <- _])|(e & E2 & _)];
    apply in_world_keeps in E2 as [Hs2 _]; [by split; [apply Hs2|]|apply Receiver_Commit_keeps|done|done|apply Receiver_Commit_keeps|done].
Qed.

Lemma process_keeps node msg s s' r :
  storage_ok s → ProcessSnapshotMessage node msg s = Ret (s', r) → storage_ok s'.
Proof.
  intros Hs. unfold ProcessSnapshotMessage. destruct (validateRequest _ _ _); [by intros [= <- _]|].
  case_decide; [|case_decide; [|case_decide; [|by intros [= <- _]]]].
  - unfold answer. destruct (ProcessMetadataSnapshotMessage msg s) as [[s1 a]|] eqn:E; [|done]. intros [= <- _]. by eapply metadata_keeps.
  - unfold answer. destruct (ProcessChunkSnapshotMessage msg s) as [[s1 a]|] eqn:E; [|done]. intros [= <- _]. by eapply chunk_keeps.
  - destruct (ProcessFinishSnapshotMessage msg s) as [[s1 a]|] eqn:E; [|done]. intros [= <- _]. by eapply finish_keeps.
Qed.

(** Messages one after the other; their answers go to their senders. *)
Fixpoint deliver (node : NodeId) (msgs : list SnapshotMessage) (s : Storage) : go Storage :=
  match msgs with
  | [] => Ret s
  | msg :: msgs => '(s, _) ← ProcessSnapshotMessage node msg s; deliver node msgs s
  end.

Lemma deliver_keeps node msgs s s' : storage_ok s → deliver node msgs s = Ret s' → storage_ok s'.
Proof.
  revert s. induction msgs as [|msg msgs IH]; intros s Hs; simpl; [by intros [= <-]|].
  destruct (ProcessSnapshotMessage node msg s) as [[s1 r]|] eqn:E; [|done]. simpl. apply IH. by eapply process_keeps.
Qed.
End Verified.

(** C30: only verified snapshots are installed.  Start from a node that receives nothing and
    deliver any messages in any order; if a finish message is then answered with success,
    the snapshot it names is installed, and the folder of the snapshot has a metadata file
    with the node's snapshot version and, for every file listed there that is not external,
    a file with the size and the checksum listed. *)
Theorem installed_is_verified `{Message SnapshotMetadata, MapRange} node msgs s s1 msg s2 a :
  tree (w_disk (st_world s)) → snapshotReceiver s = None →
  deliver node msgs s = Ret s1 →
  sm_Type msg = SnapshotMessageType_Finish → is_u64 (sm_Index msg) →
  ProcessSnapshotMessage node msg s1 = Ret (s2, Ok a) → Status a = SUCCESS →
  let cfg := config (w_snap (st_world s)) in
  sm_Index msg ∈ installedSnapshot (w_snap (st_world s2)) ∧
  ∃ m, verified cfg (folder cfg snapshotFolderNamePrefix (sm_Index msg)) (sm_Index msg) (w_disk (st_world s2)) m.
Proof.
  intros Ht Hn Hdel Hty Hi Hp Ha cfg. assert (storage_ok cfg s1) as Hs1.
  { eapply deliver_keeps; [|done]. split; [by split|]. intros r Hr. congruence. }
  revert Hp. unfold ProcessSnapshotMessage. destruct (validateRequest _ _ _); [by intros [= <- <-]|].
  rewrite Hty. rewrite !decide_False, decide_True by done.
  destruct (ProcessFinishSnapshotMessage msg s1) as [[s3 [[]|e]]|] eqn:E; [|by intros [= <- <-]|done]. intros [= <- _].
  unfold ProcessFinishSnapshotMessage in E. revert E. case_decide; [|done].
  intros (? & ? & [= <- <-] & E)%bind_Ok_inv. destruct (snapshotReceiver s1) as [rc|] eqn:Erc; [|done].
  apply bind_Ok_inv in E as (s4 & [] & E & [= <-]). unfold in_world in E.
  destruct (Receiver_Commit rc (sm_Index msg) (st_world s1)) as [[w r]|] eqn:Ec; [|done]. simplify_eq/=.
  eapply Receiver_Commit_verified; [apply Hs1|done|by apply Hs1|done].
Qed.
