(* ===== verification/SnapshotWriter.v ===== *)
(** * Writing a snapshot and reading it back

    [io/writer.go], the compressors of [fs/codec/compressor.go], [io/reader.go], and the
    methods of [snapshotor.go] that make writers and readers.  The writer hands out one
    stream per file; a stream buffers or compresses what it is given and passes it on to the
    checksumming writer of its file, which [Commit] asks for size and checksum.  The snappy
    codec is a parameter. *)

From S2P Require Import Prelude Raftpb Allocator Streams LogFiles SnapshotFs SnapshotIo SnapshotTransfer.

(** [github.com/golang/snappy]: the stream a buffered writer leaves when it is closed, and
    what a reader gives back. *)
Class Snappy := {
  snappy_encode : list (list byte) → list byte;
  snappy_decode : list byte → result (list byte);
  snappy_roundtrip ws : snappy_decode (snappy_encode ws) = Ok (concat ws)
}.

(** ** The streams *)

(** The stream of a file: a [bufio.Writer] with its buffered bytes, or a snappy writer with
    what it was given. *)
Inductive Compressor := BufferWrapper (buf : list byte) | SnappyWrapper (ws : list (list byte)).

Definition CreateCompressor (c : Z) : result Compressor :=
  if decide (c = SnapshotFileCompression_None) then Ok (BufferWrapper [])
  else if decide (c = SnapshotFileCompression_Snappy) then Ok (SnappyWrapper [])
  else Err (Errorf "snapshotor: not support compress type. type(%d)").

Definition CreateDeCompressor `{Snappy} (c : Z) (f : list byte) : result (list byte) :=
  if decide (c = SnapshotFileCompression_None) then Ok f
  else if decide (c = SnapshotFileCompression_Snappy) then snappy_decode f
  else Err (Errorf "snapshotor: not support compress type. type(%d)").

Definition bufio_size : nat := Z.to_nat 4096.

(** [bufio.Writer.Write]: the pieces handed on, and what stays in the buffer.  A piece that
    does not fit fills the buffer, and what is left goes straight through if it does not fit
    either. *)
Definition bufio_Write (p buf : list byte) : list (list byte) * list byte :=
  if decide (length p <= bufio_size - length buf)%nat then ([], buf ++ p)
  else if decide (buf = []) then ([p], [])
  else
    let k := (bufio_size - length buf)%nat in
    let rest := drop k p in
    if decide (length rest <= bufio_size)%nat then ([buf ++ take k p], rest)
    else ([buf ++ take k p; rest], []).

(** ** [Writer] *)

Record snapshotFileMetadata := { fileDesc : SnapshotFileDesc; crcWriter : option CrcWriter }.

(** A file under way is known by its tag; [streams] are the writers handed out. *)
Record SnapshotWriter := {
  sw_dir : path; sw_index : Z; snapshotFiles : gmap string snapshotFileMetadata; streams : gmap string Compressor
}.
Definition NewWriter (dir : path) (index : Z) : SnapshotWriter :=
  {| sw_dir := dir; sw_index := index; snapshotFiles := ∅; streams := ∅ |}.
Definition set_snapshotFiles (f : gmap string snapshotFileMetadata) (w : SnapshotWriter) : SnapshotWriter :=
  {| sw_dir := sw_dir w; sw_index := sw_index w; snapshotFiles := f; streams := streams w |}.
Definition set_streams (f : gmap string Compressor) (w : SnapshotWriter) : SnapshotWriter :=
  {| sw_dir := sw_dir w; sw_index := sw_index w; snapshotFiles := snapshotFiles w; streams := f |}.

Definition err_duplicated : error := Errorf "snapshotor[index=%d]: duplicated tag(%s)".
Definition err_tag : error := Errorf "snapshotor[index=%d]: not found tag(%s)".

Section Writer.
Context `{Snappy}.

(** [create]: the error of an unknown compression is dropped, and the stream is nil. *)
Definition create (fileTag : string) (p : path) (compression fileType : Z) : meth (Disk * SnapshotWriter) string := fun '(d, w) =>
  match snapshotFiles w !! fileTag with
  | Some _ => Ret ((d, w), Err err_duplicated)
  | None =>
      '(d, r) ← CrcFileWrite p d;
      match r with
      | Err e => Ret ((d, w), Err e)
      | Ok crcW =>
          let desc := {| FileType := fileType; CompressionType := compression; Tag := fileTag; FileSize := 0; FileCrc64 := 0;
                         Metadata := []; IsExternal := false; LocationUri := "" |} in
          let w := set_snapshotFiles (<[fileTag := {| fileDesc := desc; crcWriter := Some crcW |}]> (snapshotFiles w)) w in
          let w := match CreateCompressor compression with
                   | Ok c => set_streams (<[fileTag := c]> (streams w)) w
                   | Err _ => w
                   end in
          Ret ((d, w), Ok fileTag)
      end
  end.

(** The file's name is its tag for the cluster and the sessions. *)
Definition create_named (fileType : Z) (tag : option string) (compression : Z) : meth (Disk * SnapshotWriter) string := fun '(d, w) =>
  match SnapshotFileName fileType (sw_index w) (default "" tag) with
  | Err e => Ret ((d, w), Err e)
  | Ok filename => create (default filename tag) (Join (sw_dir w) filename) compression fileType (d, w)
  end.
Definition CreateStateMachineFile (fileTag : string) (compression : Z) : meth (Disk * SnapshotWriter) string :=
  create_named SnapshotFileType_StateMachine (Some fileTag) compression.
Definition CreateClusterFile (compression : Z) : meth (Disk * SnapshotWriter) string :=
  create_named SnapshotFileType_Cluster None compression.
Definition CreateSessionFile (compression : Z) : meth (Disk * SnapshotWriter) string :=
  create_named SnapshotFileType_Session None compression.

Definition AddStateMachineFileMetadata (fileTag : string) (metadata : list byte) (w : SnapshotWriter) : SnapshotWriter * option error :=
  match snapshotFiles w !! fileTag with
  | None => (w, Some err_tag)
  | Some ff =>
      let f := fileDesc ff in
      let f := {| FileType := FileType f; CompressionType := CompressionType f; Tag := Tag f; FileSize := FileSize f;
                  FileCrc64 := FileCrc64 f; Metadata := metadata; IsExternal := IsExternal f; LocationUri := LocationUri f |} in
      (set_snapshotFiles (<[fileTag := {| fileDesc := f; crcWriter := crcWriter ff |}]> (snapshotFiles w)) w, None)
  end.

Definition AddExternalFile (e : ExternalFileDescriptor) (w : SnapshotWriter) : SnapshotWriter * option error :=
  match snapshotFiles w !! ef_FileTag e with
  | Some _ => (w, Some err_duplicated)
  | None =>
      let f := {| FileType := SnapshotFileType_StateMachine; CompressionType := SnapshotFileCompression_None; Tag := ef_FileTag e;
                  FileSize := 0; FileCrc64 := 0; Metadata := ef_Metadata e; IsExternal := true; LocationUri := ef_LocationUri e |} in
      (set_snapshotFiles (<[ef_FileTag e := {| fileDesc := f; crcWriter := None |}]> (snapshotFiles w)) w, None)
  end.

(** Bytes reach the file of a tag. *)
Definition pass_on (tag : string) (p : list byte) : meth (Disk * SnapshotWriter) unit := fun '(d, w) =>
  match snapshotFiles w !! tag with
  | Some {| fileDesc := f; crcWriter := Some cw |} =>
      '((d, cw), r) ← CrcWriter_Write p (d, cw);
      Ret ((d, set_snapshotFiles (<[tag := {| fileDesc := f; crcWriter := Some cw |}]> (snapshotFiles w)) w), r)
  | _ => Panic "nil pointer dereference"
  end.

(** [Write] on the stream of a tag. *)
Definition stream_Write (tag : string) (p : list byte) : meth (Disk * SnapshotWriter) unit := fun '(d, w) =>
  match streams w !! tag with
  | None => Panic "nil pointer dereference"
  | Some (SnappyWrapper ws) => Ret ((d, set_streams (<[tag := SnappyWrapper (ws ++ [p])]> (streams w)) w), Ok tt)
  | Some (BufferWrapper buf) =>
      let '(out, buf) := bufio_Write p buf in
      for_each (pass_on tag) out (d, set_streams (<[tag := BufferWrapper buf]> (streams w)) w)
  end.

(** [Close] of the stream: what is buffered goes to the file, which is closed. *)
Definition stream_Close (tag : string) : meth (Disk * SnapshotWriter) unit := fun '(d, w) =>
  match streams w !! tag with
  | None => Panic "nil pointer dereference"
  | Some (SnappyWrapper ws) => pass_on tag (snappy_encode ws) (d, set_streams (delete tag (streams w)) w)
  | Some (BufferWrapper buf) =>
      if decide (buf = []) then Ret ((d, set_streams (delete tag (streams w)) w), Ok tt)
      else pass_on tag buf (d, set_streams (delete tag (streams w)) w)
  end.

(** [Commit]: sizes and checksums go into the descriptions, the descriptions into the
    metadata. *)
Definition described (ff : snapshotFileMetadata) : SnapshotFileDesc :=
  let f := fileDesc ff in
  match crcWriter ff with
  | None => f
  | Some cw => {| FileType := FileType f; CompressionType := CompressionType f; Tag := Tag f; FileSize := cw_fileSize cw;
                  FileCrc64 := cw_h cw; Metadata := Metadata f; IsExternal := IsExternal f; LocationUri := LocationUri f |}
  end.

Definition commit_metadata `{MapRange} (version : Z) (snap : Snapshot) (sw : SnapshotWriter) : SnapshotMetadata :=
  {| Version := version; md_Snapshot := snap;
     Files := foldl (fun m '(_, ff) => <[Tag (fileDesc ff) := described ff]> m) ∅ (range (snapshotFiles sw)) |}.

Definition Writer_Commit `{Message SnapshotMetadata, MapRange} (snap : Snapshot) (sw : SnapshotWriter) : meth World SnapshotMetadata :=
  (w <- Meth.get ;;
   let sm := commit_metadata (SnapshotVersion (w_snap w)) snap sw in
   filename <- lift (SnapshotFileName SnapshotFileType_Metadata (sw_index sw) "") ;;
   fw <- on_disk (FileWrite (Join (sw_dir sw) filename)) ;;
   encode_to fw sm ;;
   CommitSnapshot SnapshotFolderType_TempWrite (sw_index sw) ;;
   Meth.ret sm)%go.

(** ** [Reader] and the snapshotor's constructors *)

Record StateMachineFileDesc := { sd_Tag : string; sd_Metadata : list byte; sd_FilePath : path }.

Definition Reader_open (r : Reader) (fileTag : string) (p : path) (d : Disk) : result (list byte * StateMachineFileDesc) :=
  match FileRead p d with
  | Err e => Err e
  | Ok f =>
      match Files (rd_metadata r) !! fileTag with
      | None => Err err_tag
      | Some desc =>
          match CreateDeCompressor (CompressionType desc) f with
          | Err e => Err e
          | Ok c => Ok (c, {| sd_Tag := fileTag; sd_Metadata := Metadata desc; sd_FilePath := p |})
          end
      end
  end.

Definition Open (r : Reader) (fileTag : string) (d : Disk) : result (list byte * StateMachineFileDesc) :=
  match Files (rd_metadata r) !! fileTag with
  | None => Err err_tag
  | Some desc =>
      if IsExternal desc
      then Err (Errorf "snapshotor[index=%d]: file is external (tag=%s), use Metadata() to access external file descriptors")
      else match SnapshotFileName SnapshotFileType_StateMachine (md_Index (rd_metadata r)) fileTag with
           | Err e => Err e
           | Ok filename => Reader_open r fileTag (Join (rd_dir r) filename) d
           end
  end.

(** [Cluster] and [Session] *)
Definition open_named (fileType : Z) (r : Reader) (d : Disk) : result (list byte) :=
  match SnapshotFileName fileType (md_Index (rd_metadata r)) "" with
  | Err e => Err e
  | Ok filename => match Reader_open r filename (Join (rd_dir r) filename) d with Ok (c, _) => Ok c | Err e => Err e end
  end.
Definition Reader_Cluster : Reader → Disk → result (list byte) := open_named SnapshotFileType_Cluster.
Definition Reader_Session : Reader → Disk → result (list byte) := open_named SnapshotFileType_Session.

Definition CreateAtomicSnapshotWriter (snapshotTerm snapshotIndex : Z) : meth World SnapshotWriter :=
  (w <- Meth.get ;;
   createdDir <- on_disk (CreateDirAndTouch (SnapshotDir (config (w_snap w))) SnapshotFolderType_TempWrite snapshotIndex) ;;
   Meth.ret (NewWriter createdDir snapshotIndex))%go.

Definition CreateInstalledSnapshotReader `{Message SnapshotMetadata, MapRange} (snapshotIndex : Z) (validateFsmFiles : bool) : meth World Reader :=
  (m <- getInstalledSnapshotMetadata snapshotIndex ;;
   w <- Meth.get ;;
   dir <- lift (GenerateSnapshotFolderPath (SnapshotDir (config (w_snap w))) SnapshotFolderType_InstallSnapshot snapshotIndex) ;;
   (if validateFsmFiles then ask (ValidateSnapshotFiles dir m false) else Meth.ret tt) ;;
   Meth.ret (NewReader dir m))%go.
End Writer.
