(* ===== verification/SnapshotSave.v ===== *)
(** * What a committed snapshot gives back

    The files written through the streams of a snapshot writer, whatever the sizes of the
    writes and the compression, are read back from the installed snapshot, and the sizes and
    checksums in its metadata are those of its files. *)

From S2P Require Import Prelude Raftpb Allocator Streams LogFiles SnapshotFs SnapshotIo SnapshotTransfer SnapshotInstall SnapshotWriter.

(** ** Using a writer *)

(** The calls of a state machine and of the framework on a writer and its streams. *)
Inductive wop :=
  | OpStateMachineFile (tag : string) (comp : Z) | OpClusterFile (comp : Z) | OpSessionFile (comp : Z)
  | OpWrite (tag : string) (p : list byte) | OpClose (tag : string).

Definition run_op `{Snappy} (op : wop) : meth (Disk * SnapshotWriter) unit :=
  match op with
  | OpStateMachineFile tag comp => (CreateStateMachineFile tag comp ;; Meth.ret tt)%go
  | OpClusterFile comp => (CreateClusterFile comp ;; Meth.ret tt)%go
  | OpSessionFile comp => (CreateSessionFile comp ;; Meth.ret tt)%go
  | OpWrite tag p => stream_Write tag p
  | OpClose tag => stream_Close tag
  end.

(** What a user of the writer has in mind: files by tag, with what was written to them. *)
Record sfile := { sf_type : Z; sf_comp : Z; sf_data : list byte; sf_open : bool }.

Definition known_compression (c : Z) : bool := bool_decide (c = SnapshotFileCompression_None ∨ c = SnapshotFileCompression_Snappy).

Definition spec_create (ft : Z) (tag : string) (comp : Z) (m : gmap string sfile) : option (gmap string sfile) :=
  if known_compression comp && bool_decide (m !! tag = None)
  then Some (<[tag := {| sf_type := ft; sf_comp := comp; sf_data := []; sf_open := true |}]> m) else None.

Definition spec_op (i : Z) (op : wop) (m : gmap string sfile) : option (gmap string sfile) :=
  match op with
  | OpStateMachineFile tag comp => spec_create SnapshotFileType_StateMachine tag comp m
  | OpClusterFile comp => spec_create SnapshotFileType_Cluster (hex16 i ".cluster") comp m
  | OpSessionFile comp => spec_create SnapshotFileType_Session (hex16 i ".session") comp m
  | OpWrite tag p =>
      match m !! tag with
      | Some {| sf_type := ft; sf_comp := c; sf_data := x; sf_open := true |} =>
          Some (<[tag := {| sf_type := ft; sf_comp := c; sf_data := x ++ p; sf_open := true |}]> m)
      | _ => None
      end
  | OpClose tag =>
      match m !! tag with
      | Some {| sf_type := ft; sf_comp := c; sf_data := x; sf_open := true |} =>
          Some (<[tag := {| sf_type := ft; sf_comp := c; sf_data := x; sf_open := false |}]> m)
      | _ => None
      end
  end.

Fixpoint spec_ops (i : Z) (ops : list wop) (m : gmap string sfile) : option (gmap string sfile) :=
  match ops with
  | [] => Some m
  | op :: ops => m' ← spec_op i op m; spec_ops i ops m'
  end.

(** ** The files of a writer *)

(** A file under way: its type, compression and name, what is on the disk, and its stream
    until it is closed. *)
Record afile := { af_type : Z; af_comp : Z; af_name : string; af_stored : list byte; af_stream : option Compressor }.
Definition with_stored (c : list byte) (s : option Compressor) (a : afile) : afile :=
  {| af_type := af_type a; af_comp := af_comp a; af_name := af_name a; af_stored := c; af_stream := s |}.

Section Save.
Context `{Snappy} (d0 : Disk) (dir : path) (index : Z) (room : room_for d0 dir).

(** The writer's entry for a file. *)
Definition entry (tag : string) (a : afile) : snapshotFileMetadata :=
  {| fileDesc := {| FileType := af_type a; CompressionType := af_comp a; Tag := tag; FileSize := 0; FileCrc64 := 0;
                    Metadata := []; IsExternal := false; LocationUri := "" |};
     crcWriter := Some {| cw_w := {| of_path := Join dir (af_name a); of_off := length (af_stored a) |};
                          cw_h := crc64_ecma 0 (af_stored a); cw_fileSize := Z.of_nat (length (af_stored a)) |} |}.

(** All bytes given to the file are [data]. *)
Definition gave (a : afile) (data : list byte) : Prop :=
  match af_stream a with
  | Some (BufferWrapper buf) => af_comp a = SnapshotFileCompression_None ∧ data = af_stored a ++ buf
  | Some (SnappyWrapper ws) => af_comp a = SnapshotFileCompression_Snappy ∧ af_stored a = [] ∧ data = concat ws
  | None => CreateDeCompressor (af_comp a) (af_stored a) = Ok data
  end.

Record writing (st : gmap string afile) (got : gmap string (list byte)) (d : Disk) (w : SnapshotWriter) : Prop := {
  wr_dir : sw_dir w = dir;
  wr_index : sw_index w = index;
  wr_disk : with_dir d0 dir got d;
  wr_got tag a : st !! tag = Some a → got !! af_name a = Some (af_stored a);
  wr_only n : is_Some (got !! n) → ∃ tag a, st !! tag = Some a ∧ af_name a = n;
  wr_names t1 t2 a1 a2 : st !! t1 = Some a1 → st !! t2 = Some a2 → af_name a1 = af_name a2 → t1 = t2;
  wr_named tag a : st !! tag = Some a →
    af_type a ≠ SnapshotFileType_Metadata ∧ SnapshotFileName (af_type a) index tag = Ok (af_name a);
  wr_files tag : snapshotFiles w !! tag = entry tag <$> st !! tag;
  wr_streams tag : streams w !! tag = st !! tag ≫= af_stream
}.

(** Changing what a file holds. *)
Lemma writing_update st got d w tag a c s' :
  writing st got d w → st !! tag = Some a →
  writing (<[tag := with_stored c s' a]> st) (<[af_name a := c]> got)
    (set_files (<[Join dir (af_name a) := c]> (d_files d)) d)
    (set_streams (partial_alter (fun _ => s') tag (streams w))
      (set_snapshotFiles (<[tag := entry tag (with_stored c s' a)]> (snapshotFiles w)) w)).
Proof using.
  intros [Hd Hi Hw Hg Ho Hn Hnm Hf Hs] Ha.
  assert (∀ t b, <[tag := with_stored c s' a]> st !! t = Some b →
    (t = tag ∧ b = with_stored c s' a) ∨ (t ≠ tag ∧ st !! t = Some b)) as Hcase.
  { intros t b [[<- <-]|[? ?]]%lookup_insert_Some; [by left|by right]. }
  constructor; simpl.
  - done.
  - done.
  - by apply with_dir_update.
  - intros t b [[-> ->]|[Hne Hb]]%Hcase; simpl; [by rewrite lookup_insert_eq|].
    rewrite lookup_insert_ne; [by eapply Hg|]. intros E. apply Hne. symmetry. by eapply Hn.
  - intros n [x [[<- <-]|[Hne Hx]]%lookup_insert_Some].
    + exists tag, (with_stored c s' a). by rewrite lookup_insert_eq.
    + destruct (Ho n) as (t & b & Hb & <-); [by eexists|]. exists t, b. split; [|done].
      rewrite lookup_insert_ne; [done|]. intros <-. congruence.
  - intros t1 t2 a1 a2 [[-> ->]|[? H1]]%Hcase [[-> ->]|[? H2]]%Hcase; simpl; [done| | |by apply Hn].
    + by apply (Hn tag t2 a a2).
    + by apply (Hn t1 tag a1 a).
  - intros t b [[-> ->]|[_ Hb]]%Hcase; simpl; by apply Hnm.
  - intros t. destruct (decide (t = tag)) as [->|Hne]; [by rewrite !lookup_insert_eq|].
    rewrite !lookup_insert_ne by done. apply Hf.
  - intros t. destruct (decide (t = tag)) as [->|Hne]; [by rewrite lookup_partial_alter_eq, lookup_insert_eq|].
    rewrite lookup_partial_alter_ne, lookup_insert_ne by done. apply Hs.
Qed.

(** Bytes reach the file. *)
Lemma pass_on_ok st got d w tag a p :
  writing st got d w → st !! tag = Some a →
  ∃ d' w', pass_on tag p (d, w) = Ret ((d', w'), Ok tt) ∧
    writing (<[tag := with_stored (af_stored a ++ p) (af_stream a) a]> st) (<[af_name a := af_stored a ++ p]> got) d' w' ∧
    streams w' = streams w.
Proof using.
  intros Hw Ha. pose proof (writing_update st got d w tag a (af_stored a ++ p) (af_stream a) Hw Ha) as Hw'.
  assert (partial_alter (fun _ => af_stream a) tag (streams w) = streams w) as Hsame.
  { apply map_eq. intros t. destruct (decide (t = tag)) as [->|]; [|by rewrite lookup_partial_alter_ne].
    rewrite lookup_partial_alter_eq, (wr_streams _ _ _ _ Hw), Ha. done. }
  rewrite Hsame in Hw'. unfold pass_on. rewrite (wr_files _ _ _ _ Hw), Ha. simpl.
  rewrite (wd_in _ _ _ _ (wr_disk _ _ _ _ Hw)), (wr_got _ _ _ _ Hw tag a Ha). simpl.
  do 2 eexists. split; [done|]. split; [|done].
  rewrite take_ge, drop_ge, app_nil_r by lia. destruct w. simpl in *.
  unfold entry, with_stored in Hw'. simpl in Hw'. rewrite length_app, Nat2Z.inj_add in Hw'.
  unfold crc64_ecma in Hw' |- *. rewrite crc_update_app in Hw'. exact Hw'.
Qed.

(** A new file: its tag and its name are new. *)
Lemma create_ok st got d w tag comp ft nm str :
  writing st got d w → st !! tag = None → ft ≠ SnapshotFileType_Metadata → SnapshotFileName ft index tag = Ok nm →
  got !! nm = None → CreateCompressor comp = Ok str →
  ∃ d' w', create tag (Join dir nm) comp ft (d, w) = Ret ((d', w'), Ok tag) ∧
    writing (<[tag := {| af_type := ft; af_comp := comp; af_name := nm; af_stored := []; af_stream := Some str |}]> st)
      (<[nm := []]> got) d' w'.
Proof using room.
  intros [Hd Hi Hw Hg Ho Hn Hnm Hf Hs] Htag Hft Hname Hnew Hstr.
  unfold create. rewrite Hf, Htag. cbn [fmap option_fmap option_map]. unfold CrcFileWrite, FileWrite, Meth.bind.
  rewrite (create_in d0 dir room _ _ _ Hw), Hnew. cbn [Meth.ret mbind go_bind]. rewrite Hstr.
  do 2 eexists. split; [done|]. set (a := {| af_type := ft |}).
  assert (∀ t b, <[tag := a]> st !! t = Some b → (t = tag ∧ b = a) ∨ (t ≠ tag ∧ st !! t = Some b)) as Hcase.
  { intros t b [[<- <-]|[? ?]]%lookup_insert_Some; [by left|by right]. }
  assert (∀ t b, st !! t = Some b → af_name b ≠ nm) as Hother.
  { intros t b Hb Heq. apply Hg in Hb. rewrite Heq in Hb. congruence. }
  constructor; simpl.
  - done.
  - done.
  - by apply with_dir_update.
  - intros t b [[-> ->]|[Hne Hb]]%Hcase; simpl; [by rewrite lookup_insert_eq|].
    rewrite lookup_insert_ne; [by eapply Hg|]. intros E. by eapply Hother.
  - intros n [x [[<- <-]|[Hne Hx]]%lookup_insert_Some].
    + exists tag, a. by rewrite lookup_insert_eq.
    + destruct (Ho n) as (t & b & Hb & <-); [by eexists|]. exists t, b. split; [|done].
      rewrite lookup_insert_ne; [done|]. intros <-. congruence.
  - intros t1 t2 a1 a2 [[-> ->]|[? H1]]%Hcase [[-> ->]|[? H2]]%Hcase; simpl; [done| | |by apply Hn].
    + intros E. by destruct (Hother t2 a2 H2).
    + intros E. by destruct (Hother t1 a1 H1).
  - intros t b [[-> ->]|[_ Hb]]%Hcase; [done|by apply Hnm].
  - intros t. destruct (decide (t = tag)) as [->|Hne]; [by rewrite !lookup_insert_eq|].
    rewrite !lookup_insert_ne by done. apply Hf.
  - intros t. destruct (decide (t = tag)) as [->|Hne]; [by rewrite !lookup_insert_eq|].
    rewrite !lookup_insert_ne by done. apply Hs.
Qed.

(** The pieces a buffer hands on, in order. *)
Lemma pass_all_ok ps : ∀ st got d w tag a,
  writing st got d w → st !! tag = Some a →
  ∃ d' w' got', for_each (pass_on tag) ps (d, w) = Ret ((d', w'), Ok tt) ∧
    writing (<[tag := with_stored (af_stored a ++ concat ps) (af_stream a) a]> st) got' d' w' ∧ streams w' = streams w.
Proof using.
  induction ps as [|p ps IH]; intros st got d w tag a Hw Ha; cbn [for_each concat].
  - exists d, w, got. rewrite app_nil_r. split_and!; [done| |done]. rewrite insert_id; [done|]. by destruct a.
  - destruct (pass_on_ok st got d w tag a p Hw Ha) as (d1 & w1 & E1 & Hw1 & Hs1).
    destruct (IH _ _ _ _ tag _ Hw1 (lookup_insert_eq _ _ _)) as (d2 & w2 & got2 & E2 & Hw2 & Hs2).
    exists d2, w2, got2. unfold Meth.bind. rewrite E1. split_and!; [done| |congruence].
    rewrite insert_insert_eq in Hw2. simpl in Hw2. by rewrite <- (assoc_L (++)) in Hw2.
Qed.

(** What a buffered write hands on and keeps is what it had and got. *)
Lemma bufio_Write_app p buf : concat (bufio_Write p buf).1 ++ (bufio_Write p buf).2 = buf ++ p.
Proof using.
  unfold bufio_Write. case_decide; [done|]. case_decide; [subst; simpl; by rewrite !app_nil_r|].
  case_decide; simpl; rewrite ?app_nil_r, <- ?(assoc_L (++)), take_drop; done.
Qed.

Lemma set_stream_ok st got d w tag a str :
  writing st got d w → st !! tag = Some a →
  writing (<[tag := with_stored (af_stored a) (Some str) a]> st) got d (set_streams (<[tag := str]> (streams w)) w).
Proof using.
  intros Hw Ha. pose proof (writing_update st got d w tag a (af_stored a) (Some str) Hw Ha) as Hw'.
  pose proof (wr_got _ _ _ _ Hw tag a Ha) as Hg. rewrite (insert_id got) in Hw' by done.
  assert (set_files (<[Join dir (af_name a) := af_stored a]> (d_files d)) d = d) as Hd.
  { destruct d as [f ds]. unfold set_files. simpl. f_equal. apply insert_id.
    pose proof (wd_in _ _ _ _ (wr_disk _ _ _ _ Hw) (af_name a)) as Hin. simpl in Hin. by rewrite Hin. }
  rewrite Hd in Hw'. assert (<[tag := entry tag (with_stored (af_stored a) (Some str) a)]> (snapshotFiles w) = snapshotFiles w) as Hf.
  { apply insert_id. by rewrite (wr_files _ _ _ _ Hw), Ha. }
  rewrite Hf in Hw'. by destruct w.
Qed.

Lemma stream_Write_ok st got d w tag a data p :
  writing st got d w → st !! tag = Some a → is_Some (af_stream a) → gave a data →
  ∃ d' w' got' a', stream_Write tag p (d, w) = Ret ((d', w'), Ok tt) ∧ writing (<[tag := a']> st) got' d' w' ∧
    is_Some (af_stream a') ∧ gave a' (data ++ p) ∧ af_type a' = af_type a ∧ af_comp a' = af_comp a ∧ af_name a' = af_name a.
Proof using.
  intros Hw Ha [str Hstr] Hdata. unfold stream_Write, gave in *. rewrite (wr_streams _ _ _ _ Hw), Ha. simpl. rewrite Hstr in Hdata |- *.
  destruct str as [buf|ws].
  - destruct Hdata as [Hc ->]. pose proof (bufio_Write_app p buf) as Happ. destruct (bufio_Write p buf) as [out buf'] eqn:E.
    pose proof (set_stream_ok st got d w tag a (BufferWrapper buf') Hw Ha) as Hw1.
    destruct (pass_all_ok out _ _ _ _ tag _ Hw1 (lookup_insert_eq _ _ _)) as (d2 & w2 & got2 & E2 & Hw2 & Hs2).
    rewrite insert_insert_eq in Hw2. do 4 eexists. split; [exact E2|]. split; [exact Hw2|]. simpl in *.
    split_and!; [by eexists|done| |done|done|done]. by rewrite <- !(assoc_L (++)), Happ.
  - destruct Hdata as (Hc & Hst & ->). pose proof (set_stream_ok st got d w tag a (SnappyWrapper (ws ++ [p])) Hw Ha) as Hw1.
    do 4 eexists. split; [done|]. split; [exact Hw1|]. simpl. split_and!; [by eexists|done|done| |done|done|done].
    rewrite concat_app. simpl. by rewrite app_nil_r.
Qed.

(** Closing the stream of a file writes what is left. *)
Lemma close_stream_ok st got d w tag a :
  writing st got d w → st !! tag = Some a →
  writing (<[tag := with_stored (af_stored a) None a]> st) got d (set_streams (delete tag (streams w)) w).
Proof using.
  intros [Hd Hi Hw Hg Ho Hn Hnm Hf Hs] Ha. set (a' := with_stored (af_stored a) None a).
  assert (∀ t b, <[tag := a']> st !! t = Some b → ∃ b', st !! t = Some b' ∧ af_name b = af_name b' ∧
    af_stored b = af_stored b' ∧ af_type b = af_type b') as Hcase.
  { intros t b [[<- <-]|[? ?]]%lookup_insert_Some; [by exists a|by exists b]. }
  constructor; simpl; [done|done|done|..].
  - intros t b (b' & Hb & -> & -> & _)%Hcase. by apply (Hg t).
  - intros n (t & b & Hb & <-)%Ho. destruct (decide (t = tag)) as [->|]; [exists tag, a'|exists t, b].
    + rewrite lookup_insert_eq. by simplify_eq.
    + by rewrite lookup_insert_ne.
  - intros t1 t2 a1 a2 (b1 & H1 & -> & _)%Hcase (b2 & H2 & -> & _)%Hcase. by apply Hn.
  - intros t b (b' & Hb & -> & _ & ->)%Hcase. by apply Hnm.
  - intros t. rewrite Hf. destruct (decide (t = tag)) as [->|]; [by rewrite lookup_insert_eq, Ha|by rewrite lookup_insert_ne].
  - intros t. destruct (decide (t = tag)) as [->|]; [by rewrite lookup_delete_eq, lookup_insert_eq|].
    by rewrite lookup_delete_ne, lookup_insert_ne, Hs.
Qed.

Lemma stream_Close_ok st got d w tag a data :
  writing st got d w → st !! tag = Some a → is_Some (af_stream a) → gave a data →
  ∃ d' w' got' a', stream_Close tag (d, w) = Ret ((d', w'), Ok tt) ∧ writing (<[tag := a']> st) got' d' w' ∧
    af_stream a' = None ∧ gave a' data ∧ af_type a' = af_type a ∧ af_comp a' = af_comp a ∧ af_name a' = af_name a.
Proof using.
  intros Hw Ha [str Hstr] Hdata. unfold stream_Close, gave in *. rewrite (wr_streams _ _ _ _ Hw), Ha. simpl. rewrite Hstr in Hdata |- *.
  pose proof (close_stream_ok st got d w tag a Hw Ha) as Hw1.
  assert (∀ p, ∃ d' w' got', pass_on tag p (d, set_streams (delete tag (streams w)) w) = Ret ((d', w'), Ok tt) ∧
    writing (<[tag := with_stored (af_stored a ++ p) None a]> st) got' d' w') as Hpass.
  { intros p. destruct (pass_on_ok _ _ _ _ tag _ p Hw1 (lookup_insert_eq _ _ _)) as (d2 & w2 & E2 & Hw2 & _).
    rewrite insert_insert_eq in Hw2. do 3 eexists. by split. }
  destruct str as [buf|ws].
  - destruct Hdata as [Hc ->]. case_decide as Hb.
    + subst buf. do 4 eexists. split; [done|]. split; [exact Hw1|]. simpl. rewrite Hc, app_nil_r. done.
    + destruct (Hpass buf) as (d2 & w2 & got2 & E2 & Hw2). do 4 eexists. split; [exact E2|]. split; [exact Hw2|]. simpl. by rewrite Hc.
  - destruct Hdata as (Hc & Hst & ->). destruct (Hpass (snappy_encode ws)) as (d2 & w2 & got2 & E2 & Hw2).
    do 4 eexists. split; [exact E2|]. split; [exact Hw2|]. simpl. rewrite Hc, Hst. split_and!; [done| |done|done|done].
    unfold CreateDeCompressor. rewrite decide_False, decide_True by done. apply snappy_roundtrip.
Qed.

(** ** The script is followed *)

(** The names of two files of a snapshot. *)
Lemma hex16_inj z r1 r2 : is_u64 z → hex16 z r1 = hex16 z r2 → r1 = r2.
Proof using. intros Hz E. apply (f_equal scan_hex) in E. rewrite !scan_hex16 in E by done. congruence. Qed.

Lemma length_app_string a b : String.length (String.app a b) = (String.length a + String.length b)%nat.
Proof using. induction a as [|x a IH]; simpl; [done|by rewrite IH]. Qed.

Lemma append_inj_r (a b c : string) : String.app a c = String.app b c → a = b.
Proof using.
  revert b. induction a as [|x a IH]; intros [|y b] E; [done|..].
  - apply (f_equal String.length) in E. rewrite !length_app_string in E. simpl in E. lia.
  - apply (f_equal String.length) in E. rewrite !length_app_string in E. simpl in E. lia.
  - injection E as -> E. by rewrite (IH b E).
Qed.

Lemma file_names_apart ft1 ft2 t1 t2 n :
  is_u64 index → ft1 ≠ SnapshotFileType_Metadata → ft2 ≠ SnapshotFileType_Metadata →
  SnapshotFileName ft1 index t1 = Ok n → SnapshotFileName ft2 index t2 = Ok n →
  ft1 = ft2 ∧ (ft1 = SnapshotFileType_StateMachine → t1 = t2).
Proof using.
  intros Hi H1 H2. unfold SnapshotFileName. rewrite (decide_False (P := ft1 = SnapshotFileType_Metadata)), (decide_False (P := ft2 = SnapshotFileType_Metadata)) by done.
  assert (∀ a b, (Ok (hex16 index a) : result string) = Ok n → (Ok (hex16 index b) : result string) = Ok n → a = b) as Hinj.
  { intros a b Ha Hb. apply (hex16_inj index); [done|congruence]. }
  repeat case_decide; try done; intros Ha Hb; pose proof (Hinj _ _ Ha Hb) as E; try discriminate E; (split; [congruence|]); intros ?; try congruence.
  apply (append_inj_r _ _ ".fsm"). by injection E.
Qed.

(** The writer holds the files of the script. *)
Definition follows (m : gmap string sfile) (st : gmap string afile) : Prop :=
  ∀ tag, match m !! tag, st !! tag with
         | None, None => True
         | Some f, Some a => af_type a = sf_type f ∧ af_comp a = sf_comp f ∧ gave a (sf_data f) ∧
             (sf_open f = true ↔ is_Some (af_stream a)) ∧ (af_type a = SnapshotFileType_StateMachine ∨ tag = af_name a)
         | _, _ => False
         end.

Lemma follows_insert m st tag f a :
  follows m st → af_type a = sf_type f → af_comp a = sf_comp f → gave a (sf_data f) →
  (sf_open f = true ↔ is_Some (af_stream a)) → (af_type a = SnapshotFileType_StateMachine ∨ tag = af_name a) →
  follows (<[tag := f]> m) (<[tag := a]> st).
Proof using.
  intros Hm ? ? ? ? ? t. destruct (decide (t = tag)) as [->|]; [by rewrite !lookup_insert_eq|].
  rewrite !lookup_insert_ne by done. apply Hm.
Qed.

Lemma follows_lookup m st tag f :
  follows m st → m !! tag = Some f → ∃ a, st !! tag = Some a ∧ af_type a = sf_type f ∧ af_comp a = sf_comp f ∧
    gave a (sf_data f) ∧ (sf_open f = true ↔ is_Some (af_stream a)) ∧ (af_type a = SnapshotFileType_StateMachine ∨ tag = af_name a).
Proof using. intros Hm Hf. specialize (Hm tag). rewrite Hf in Hm. destruct (st !! tag) as [a|]; [|done]. by exists a. Qed.

Lemma create_named_ok m m' st got d w ft tag comp nm :
  is_u64 index → follows m st → writing st got d w → ft ≠ SnapshotFileType_Metadata →
  SnapshotFileName ft index (default "" tag) = Ok nm → (ft = SnapshotFileType_StateMachine ↔ is_Some tag) →
  spec_create ft (default nm tag) comp m = Some m' →
  ∃ d' w' st' got', (create_named ft tag comp ;; Meth.ret tt)%go (d, w) = Ret ((d', w'), Ok tt) ∧ writing st' got' d' w' ∧ follows m' st'.
Proof using room.
  intros Hi Hm Hw Hft Hname Htag. unfold spec_create. destruct (known_compression comp) eqn:Hc; [|done]. case_bool_decide as Hnew; [|done].
  intros [= <-]. assert (st !! default nm tag = None) as Hst.
  { specialize (Hm (default nm tag)). rewrite Hnew in Hm. by destruct (st !! default nm tag). }
  assert (SnapshotFileName ft index (default nm tag) = Ok nm) as Hname'.
  { destruct tag as [t|]; [done|]. simpl in *. unfold SnapshotFileName in *. case_decide as Hsm; [by destruct (proj1 Htag Hsm)|done]. }
  assert (got !! nm = None) as Hgot.
  { apply eq_None_not_Some. intros (t & a & Ha & Hn)%(wr_only _ _ _ _ Hw). destruct (wr_named _ _ _ _ Hw t a Ha) as [Hty Hnm].
    rewrite Hn in Hnm. destruct (file_names_apart _ _ _ _ _ Hi Hty Hft Hnm Hname') as [Heq Hsame].
    specialize (Hm t). rewrite Ha in Hm. destruct (m !! t) as [f|] eqn:Ef; [|done].
    destruct Hm as (_ & _ & _ & _ & [Hsm|Htn]); [rewrite (Hsame Hsm) in Ef; congruence|].
    destruct tag as [t'|]; [|simpl in Hnew; congruence]. simpl in *. rewrite Hsame in Ef; [congruence|]. rewrite Heq. by apply Htag. }
  assert (∃ str, CreateCompressor comp = Ok str ∧ (str = BufferWrapper [] ∧ comp = SnapshotFileCompression_None ∨
    str = SnappyWrapper [] ∧ comp = SnapshotFileCompression_Snappy)) as (str & Hstr & Hkind).
  { apply bool_decide_eq_true in Hc. unfold CreateCompressor. destruct Hc as [-> | ->]; eexists; (split; [done|auto]). }
  destruct (create_ok st got d w (default nm tag) comp ft nm str Hw Hst Hft Hname' Hgot Hstr) as (d' & w' & E & Hw').
  do 4 eexists. split_and!; [|exact Hw'|].
  - unfold create_named, Meth.bind. rewrite (wr_index _ _ _ _ Hw), Hname, (wr_dir _ _ _ _ Hw), E. done.
  - apply follows_insert; simpl; [done|done|done| | |].
    + unfold gave. simpl. by destruct Hkind as [[-> ->]|[-> ->]].
    + split; [by eexists|done].
    + destruct tag; [left; by apply Htag|by right].
Qed.

Lemma run_op_ok i op m m' st got d w :
  is_u64 index → i = index → follows m st → writing st got d w → spec_op i op m = Some m' →
  ∃ d' w' st' got', run_op op (d, w) = Ret ((d', w'), Ok tt) ∧ writing st' got' d' w' ∧ follows m' st'.
Proof using room.
  intros Hi -> Hm Hw. destruct op as [tag comp|comp|comp|tag p|tag]; cbn [spec_op run_op].
  - intros Hs. eapply (create_named_ok m m'); try done.
  - intros Hs. eapply (create_named_ok m m'); try done.
  - intros Hs. eapply (create_named_ok m m'); try done.
  - destruct (m !! tag) as [[ft c x []]|] eqn:Ef; [|done..]. intros [= <-].
    destruct (follows_lookup m st tag _ Hm Ef) as (a & Ha & Ht & Hc & Hgave & Hopen & Hn).
    destruct (stream_Write_ok st got d w tag a x p Hw Ha (proj1 Hopen eq_refl) Hgave) as (d' & w' & got' & a' & E & Hw' & Hs' & Hg' & Ht' & Hc' & Hn').
    do 4 eexists. split; [exact E|]. split; [exact Hw'|]. apply follows_insert; simpl in *; [done|congruence|congruence|done|by split|].
    by rewrite Ht', Hn'.
  - destruct (m !! tag) as [[ft c x []]|] eqn:Ef; [|done..]. intros [= <-].
    destruct (follows_lookup m st tag _ Hm Ef) as (a & Ha & Ht & Hc & Hgave & Hopen & Hn).
    destruct (stream_Close_ok st got d w tag a x Hw Ha (proj1 Hopen eq_refl) Hgave) as (d' & w' & got' & a' & E & Hw' & Hs' & Hg' & Ht' & Hc' & Hn').
    do 4 eexists. split; [exact E|]. split; [exact Hw'|]. apply follows_insert; simpl in *; [done|congruence|congruence|done| |].
    + rewrite Hs'. split; [done|by intros []].
    + by rewrite Ht', Hn'.
Qed.

Lemma run_ops_ok ops : ∀ m m' st got d w,
  is_u64 index → follows m st → writing st got d w → spec_ops index ops m = Some m' →
  ∃ d' w' st' got', for_each run_op ops (d, w) = Ret ((d', w'), Ok tt) ∧ writing st' got' d' w' ∧ follows m' st'.
Proof using room.
  induction ops as [|op ops IH]; intros m m' st got d w Hi Hm Hw; cbn [spec_ops for_each].
  - intros [= <-]. by exists d, w, st, got.
  - destruct (spec_op index op m) as [m1|] eqn:Eo; [|done]. cbn [mbind option_bind]. intros Hs.
    destruct (run_op_ok index op m m1 st got d w Hi eq_refl Hm Hw Eo) as (d1 & w1 & st1 & got1 & E1 & Hw1 & Hm1).
    destruct (IH m1 m' st1 got1 d1 w1 Hi Hm1 Hw1 Hs) as (d2 & w2 & st2 & got2 & E2 & Hw2 & Hm2).
    exists d2, w2, st2, got2. unfold Meth.bind. by rewrite E1.
Qed.
End Save.

(** ** Commit and read *)

Section Installed.
Context `{Snappy, Message SnapshotMetadata, MapRange} (L : list Z) (snap : Snapshot) (w0 : World).
Abbreviation i := (sm_index (snap_meta snap)).
Abbreviation root := (SnapshotDir (config (w_snap w0))).

Lemma describe_all (l : list (string * snapshotFileMetadata)) : ∀ acc t,
  NoDup l.*1 → (∀ t ff, (t, ff) ∈ l → Tag (fileDesc ff) = t) →
  foldl (fun (m : gmap string SnapshotFileDesc) '(_, ff) => <[Tag (fileDesc ff) := described ff]> m) acc l !! t
    = match (list_to_map l : gmap string snapshotFileMetadata) !! t with Some ff => Some (described ff) | None => acc !! t end.
Proof using.
  induction l as [|[t0 ff] l IH]; intros acc t Hnd Htag; simpl; [by rewrite lookup_empty|].
  apply NoDup_cons in Hnd as [Hnin Hnd]. rewrite IH; [|done|intros; apply Htag; by right].
  rewrite (Htag t0 ff) by by left. destruct (decide (t = t0)) as [->|Hne].
  - rewrite not_elem_of_list_to_map_1 by done. by rewrite !lookup_insert_eq.
  - rewrite !lookup_insert_ne by done. done.
Qed.

Lemma committed_files v sw t :
  (∀ t ff, snapshotFiles sw !! t = Some ff → Tag (fileDesc ff) = t) →
  Files (commit_metadata v snap sw) !! t = described <$> snapshotFiles sw !! t.
Proof using.
  intros Htag. unfold commit_metadata. cbn [Files]. rewrite describe_all.
  - rewrite (list_to_map_proper (range (snapshotFiles sw)) (map_to_list (snapshotFiles sw))).
    + rewrite list_to_map_to_list. by destruct (snapshotFiles sw !! t).
    + rewrite range_perm. apply NoDup_fst_map_to_list.
    + apply range_perm.
  - rewrite range_perm. apply NoDup_fst_map_to_list.
  - intros t' ff Hin%elem_of_range. by apply Htag.
Qed.

(** Where the files are written, and where they end up. *)
Definition write_dir : path := Join root (String.app tempWriterFolderNamePrefix (hex16 i "")).
Definition final_dir : path := Join root (String.app snapshotFolderNamePrefix (hex16 i "")).

(** A node that can take a snapshot of its own. *)
Record writer_ready : Prop := {
  wy_pool : pool_ok L (w_pool w0);
  wy_index : is_u64 i;
  wy_new : i ∉ installedSnapshot (w_snap w0);
  wy_room : room_for (w_disk w0) write_dir;
  wy_install : room_for (w_disk w0) final_dir
}.
Context (ready : writer_ready).

Lemma writer_created term :
  ∃ d, CreateAtomicSnapshotWriter term i w0 = Ret (set_disk d w0, Ok (NewWriter write_dir i)) ∧
    writing (w_disk w0) write_dir i ∅ ∅ d (NewWriter write_dir i).
Proof using ready.
  destruct (touch_new _ _ (wy_room ready)) as (d & E & Hd). exists d. split.
  - unfold CreateAtomicSnapshotWriter, Meth.bind, Meth.get, on_disk, CreateDirAndTouch, GenerateSnapshotFolderPath. simpl.
    unfold Meth.bind. unfold write_dir in E. by rewrite E.
  - constructor; try done; try (intros; rewrite ?lookup_empty in *; simpl; done).
Qed.

Section Committed.
Context (st : gmap string afile) (got : gmap string (list byte)) (d : Disk) (sw : SnapshotWriter).
Context (Hw : writing (w_disk w0) write_dir i st got d sw).
Abbreviation m := (commit_metadata (SnapshotVersion (w_snap w0)) snap sw).

Lemma committed_lookup t :
  Files m !! t = (fun a => {| FileType := af_type a; CompressionType := af_comp a; Tag := t;
    FileSize := Z.of_nat (length (af_stored a)); FileCrc64 := crc64_ecma 0 (af_stored a);
    Metadata := []; IsExternal := false; LocationUri := "" |}) <$> st !! t.
Proof using Hw.
  rewrite committed_files.
  - rewrite (wr_files _ _ _ _ _ _ _ Hw). by destruct (st !! t).
  - intros t' ff. rewrite (wr_files _ _ _ _ _ _ _ Hw). destruct (st !! t'); intros [= <-]. done.
Qed.

Lemma committed_internal t f : Files m !! t = Some f → IsExternal f = false.
Proof using Hw. rewrite committed_lookup. by destruct (st !! t); intros [= <-]. Qed.

Lemma no_external : external_files m = [].
Proof using Hw.
  unfold external_files. assert (∀ t f, (t, f) ∈ range (Files m) → IsExternal f = false) as Hext.
  { intros t f Hin%elem_of_range. by eapply committed_internal. }
  induction (range (Files m)) as [|[t f] l IH]; [done|]. cbn. rewrite (Hext t f) by by left.
  apply IH. intros t' f' ?. apply (Hext t'). by right.
Qed.

Lemma metadata_not_file : got !! hex16 i ".metadata" = None.
Proof using Hw ready.
  apply eq_None_not_Some. intros (t & a & Ha & Hn)%(wr_only _ _ _ _ _ _ _ Hw).
  destruct (wr_named _ _ _ _ _ _ _ Hw t a Ha) as [Hty Hnm]. apply (scan_other _ _ _ _ (wy_index ready) Hty Hnm).
  rewrite Hn, scan_metadata; [done|apply ready].
Qed.

Lemma Commit_ok :
  metadata_fits L m →
  ∃ w2, Writer_Commit snap sw (set_disk d w0) = Ret (w2, Ok m) ∧ pool_ok L (w_pool w2) ∧
    with_dir (w_disk w0) final_dir (<[hex16 i ".metadata" := enc_metadata m]> got) (w_disk w2) ∧
    installedSnapshot (w_snap w2) = {[i]} ∪ installedSnapshot (w_snap w0) ∧ config (w_snap w2) = config (w_snap w0).
Proof using Hw ready.
  intros Hfits. set (d1 := set_files (<[Join write_dir (hex16 i ".metadata") := []]> (d_files d)) d).
  destruct (encode_fresh L m Hfits (Join write_dir (hex16 i ".metadata")) d (set_disk d1 w0) (wy_pool ready) eq_refl)
    as (w1 & E1 & Hp1 & Hd1 & Hs1).
  pose proof (wr_disk _ _ _ _ _ _ _ Hw) as Hwd.
  pose proof (with_dir_update _ _ _ _ (hex16 i ".metadata") (enc_metadata m) Hwd) as Hw1. rewrite <- Hd1 in Hw1.
  destruct (CommitSnapshot_ok L m Hfits (w_disk w0) root SnapshotFolderType_TempWrite (or_intror eq_refl)
    (wy_room ready) (wy_install ready) got w1) as (w2 & E2 & Hp2 & Hw2 & Hi2 & Hc2); rewrite ?Hs1; try done.
  { apply ready. }
  { intros h _ []. apply no_external. }
  exists w2. rewrite Hs1 in Hi2, Hc2. split_and!; [|done..].
  unfold Writer_Commit. unfold Meth.bind at 1, Meth.get. cbn [w_snap set_disk]. cbv zeta.
  unfold Meth.bind, lift, on_disk, FileWrite. rewrite (wr_index _ _ _ _ _ _ _ Hw), (wr_dir _ _ _ _ _ _ _ Hw). simpl.
  rewrite (create_in _ _ (wy_room ready) _ _ _ Hwd), metadata_not_file. cbn [mbind go_bind]. fold d1.
  change (set_disk d1 (set_disk d w0)) with (set_disk d1 w0). change (md_Index m) with i in E2. rewrite E1, E2. done.
Qed.

(** The installed snapshot passes its checks and gives its files back. *)
Context (w2 : World) (Hp2 : pool_ok L (w_pool w2)) (Hfits : metadata_fits L m).
Context (Hw2 : with_dir (w_disk w0) final_dir (<[hex16 i ".metadata" := enc_metadata m]> got) (w_disk w2)).
Context (Hi2 : i ∈ installedSnapshot (w_snap w2)) (Hc2 : config (w_snap w2) = config (w_snap w0)).

Lemma file_installed t a :
  st !! t = Some a → d_files (w_disk w2) !! Join final_dir (af_name a) = Some (af_stored a).
Proof using Hw Hw2 ready.
  intros Ha. pose proof (wr_got _ _ _ _ _ _ _ Hw t a Ha) as Hg.
  rewrite (wd_in _ _ _ _ Hw2), lookup_insert_ne; [done|]. intros E. rewrite <- E, metadata_not_file in Hg. done.
Qed.

Lemma reader_ok : ∃ w3, CreateInstalledSnapshotReader i true w2 = Ret (w3, Ok (NewReader final_dir m)) ∧ w_disk w3 = w_disk w2.
Proof using Hw Hw2 Hp2 Hfits Hi2 Hc2 ready.
  destruct (getInstalled_ok L m Hfits root w2) as (w3 & E3 & Hp3 & Hd3 & Hs3); [done|by rewrite Hc2|done| |].
  { change (install_dir m root) with final_dir. rewrite (wd_in _ _ _ _ Hw2). apply lookup_insert_eq. }
  exists w3. split; [|done]. unfold CreateInstalledSnapshotReader. change (md_Index m) with i in E3. step_by E3.
  unfold Meth.bind, Meth.get, lift, GenerateSnapshotFolderPath. rewrite Hs3, Hc2. simpl. fold final_dir.
  unfold ask. assert (ValidateSnapshotFiles final_dir m false (w_disk w3) = Ok tt) as ->; [|done].
  rewrite ValidateSnapshotFiles_skip by by apply committed_internal. apply (ValidateSnapshotFiles_spec m).
  intros t f Hf _. rewrite committed_lookup in Hf. destruct (st !! t) as [a|] eqn:Ea; [|done]. injection Hf as <-.
  exists (af_name a), (af_stored a). rewrite Hd3. split_and!; [|by eapply file_installed|done|done].
  by destruct (wr_named _ _ _ _ _ _ _ Hw t a Ea).
Qed.

Lemma Reader_open_ok t a data :
  st !! t = Some a → af_stream a = None → gave a data →
  Reader_open (NewReader final_dir m) t (Join final_dir (af_name a)) (w_disk w2)
    = Ok (data, {| sd_Tag := t; sd_Metadata := []; sd_FilePath := Join final_dir (af_name a) |}).
Proof using Hw Hw2 ready.
  intros Ha Hcl Hg. unfold Reader_open, FileRead. rewrite (file_installed t a Ha). cbn [rd_metadata NewReader].
  rewrite committed_lookup, Ha. cbn [fmap option_fmap option_map CompressionType]. unfold gave in Hg. rewrite Hcl in Hg. by rewrite Hg.
Qed.
End Committed.

(** What the reader of a snapshot gives for a file. *)
Definition read_back (r : Reader) (d : Disk) (tag : string) (ft : Z) : result (list byte) :=
  if decide (ft = SnapshotFileType_StateMachine) then match Open r tag d with Ok (c, _) => Ok c | Err e => Err e end
  else if decide (ft = SnapshotFileType_Cluster) then Reader_Cluster r d
  else Reader_Session r d.

(** C20: a snapshot gives back what was put into it.  Whatever files a node creates in a
    snapshot writer, in whatever order and sizes it writes to their streams, compressed or
    not: once the streams are closed the commit succeeds, the snapshot is installed and the
    rest of the disk is as before, its sizes and checksums pass the check of the reader, and
    each file, read by its tag or as the cluster's or the sessions' file, holds exactly the
    bytes written to it. *)
Theorem snapshot_saved term ops files :
  spec_ops i ops ∅ = Some files → (∀ t f, files !! t = Some f → sf_open f = false) →
  ∃ w1 sw0 d sw, CreateAtomicSnapshotWriter term i w0 = Ret (w1, Ok sw0) ∧
    for_each run_op ops (w_disk w1, sw0) = Ret ((d, sw), Ok tt) ∧
    (metadata_fits L (commit_metadata (SnapshotVersion (w_snap w0)) snap sw) →
     ∃ w2 m w3 r, Writer_Commit snap sw (set_disk d w1) = Ret (w2, Ok m) ∧
       installedSnapshot (w_snap w2) = {[i]} ∪ installedSnapshot (w_snap w0) ∧
       (∀ p, (∀ n, p ≠ Join final_dir n) → d_files (w_disk w2) !! p = d_files (w_disk w0) !! p) ∧
       CreateInstalledSnapshotReader i true w2 = Ret (w3, Ok r) ∧
       ∀ t f, files !! t = Some f → read_back r (w_disk w3) t (sf_type f) = Ok (sf_data f)).
Proof using ready.
  intros Hspec Hclosed. destruct (writer_created term) as (d1 & E1 & Hw1).
  destruct (run_ops_ok (w_disk w0) write_dir i (wy_room ready) ops ∅ files ∅ ∅ d1 (NewWriter write_dir i) (wy_index ready))
    as (d & sw & st & got & E2 & Hw & Hm); [intros t; by rewrite !lookup_empty|done|done|].
  exists (set_disk d1 w0), (NewWriter write_dir i), d, sw. split_and!; [done|done|]. intros Hfits.
  destruct (Commit_ok st got d sw Hw Hfits) as (w2 & E3 & Hp2 & Hw2 & Hi2 & Hc2).
  destruct (reader_ok st got d sw Hw w2 Hp2 Hfits Hw2) as (w3 & E4 & Hd3); [rewrite Hi2; by apply elem_of_union_l, elem_of_singleton|done|].
  exists w2, (commit_metadata (SnapshotVersion (w_snap w0)) snap sw), w3, (NewReader final_dir (commit_metadata (SnapshotVersion (w_snap w0)) snap sw)).
  split_and!; [done|done|apply Hw2|done|]. intros t f Hf.
  destruct (follows_lookup files st t f Hm Hf) as (a & Ha & Hty & Hcomp & Hgave & Hopen & Hn).
  assert (af_stream a = None) as Hs.
  { apply eq_None_not_Some. rewrite <- Hopen, (Hclosed t f Hf). done. }
  pose proof (Reader_open_ok st got d sw Hw w2 Hw2 t a (sf_data f) Ha Hs Hgave) as Hread.
  destruct (wr_named _ _ _ _ _ _ _ Hw t a Ha) as [Hmd Hname]. rewrite Hd3. rewrite <- Hty. unfold read_back.
  case_decide as Hsm; [|destruct Hn as [?|Hn]; [done|]; case_decide as Hcl].
  - rewrite Hsm in Hname. unfold Open. cbn [rd_metadata NewReader rd_dir]. rewrite (committed_lookup st got d sw Hw), Ha.
    cbn [fmap option_fmap option_map IsExternal]. change (md_Index _) with i. by rewrite Hname, Hread.
  - rewrite Hcl in Hname. injection Hname as Hname. unfold Reader_Cluster, open_named. cbn [rd_metadata NewReader rd_dir SnapshotFileName].
    change (md_Index _) with i. simpl. rewrite Hname. rewrite <- Hn at 1. by rewrite Hread.
  - assert (af_type a = SnapshotFileType_Session) as Hse.
    { revert Hname. unfold SnapshotFileName. by repeat case_decide. }
    rewrite Hse in Hname. injection Hname as Hname. unfold Reader_Session, open_named. cbn [rd_metadata NewReader rd_dir SnapshotFileName].
    change (md_Index _) with i. simpl. rewrite Hname. rewrite <- Hn at 1. by rewrite Hread.
Qed.
End Installed.
