(* ===== verification/SnapshotRetention.v ===== *)
(** * Which snapshots stay, and which one a node starts from

    [purgeSnapshot] and [LoadLastValidSnapshot] of [snapshotor.go]: the first removes old
    snapshots, the second picks the one a node starts from. *)

From S2P Require Import Prelude Raftpb Allocator Streams LogFiles WalStore SnapshotFs SnapshotIo SnapshotTransfer SnapshotInstall.

Section Retention.
Context `{Message SnapshotMetadata, MapRange} (L : list Z).

(** The folder of an installed snapshot. *)
Definition folder (root : path) (i : Z) : path := Join root (String.app snapshotFolderNamePrefix (hex16 i "")).

(** ** Purging *)

(** The snapshots that go: the oldest beyond [max], if they are older than [bound]. *)
Definition to_purge (max bound : Z) (l : list Z) : list Z :=
  filter (fun i => i < bound) (take (Z.to_nat (Z.of_nat (length l) - max)) l).

Lemma to_purge_nil max bound l : Z.of_nat (length l) <= max → to_purge max bound l = [].
Proof using. intros Hle. unfold to_purge. by replace (Z.to_nat _) with O by lia. Qed.

Lemma to_purge_cons max bound i l :
  0 <= max < Z.of_nat (length (i :: l)) →
  to_purge max bound (i :: l) = (if decide (i < bound) then [i] else []) ++ to_purge max bound l.
Proof using.
  intros Hlt. unfold to_purge. cbn [length] in *.
  replace (Z.to_nat (Z.of_nat (S (length l)) - max)) with (S (Z.to_nat (Z.of_nat (length l) - max))) by lia.
  simpl. rewrite filter_cons. by case_decide.
Qed.

(** The folders of [l] are gone from the disk; nothing else changed. *)
Definition without (root : path) (l : list Z) (d d' : Disk) : Prop :=
  ∀ p, d_files d' !! p = if decide (Exists (fun i => folder root i `prefix_of` p) l) then None else d_files d !! p.

Lemma without_remove root l i d d1 d2 :
  os_RemoveAll (folder root i) d = Ret (d1, Ok tt) → without root l d1 d2 → without root (i :: l) d d2.
Proof using.
  intros [= <-] Hw p. rewrite (Hw p). simpl.
  destruct (decide (Exists _ l)) as [Hl|Hl]; [by rewrite decide_True by by right|].
  destruct (decide (folder root i `prefix_of` p)) as [Hi|Hi].
  - rewrite decide_True by by left. apply map_lookup_filter_None. right. intros c _ Hn. by apply Hn.
  - rewrite decide_False by by intros [?|?]%Exists_cons. destruct (d_files d !! p) as [c|] eqn:E.
    + by apply map_lookup_filter_Some.
    + apply map_lookup_filter_None. by left.
Qed.

Lemma purge_loop_ok root max bound l : ∀ w,
  0 <= max →
  ∃ w', purge_loop root max bound l w = Ret (w', Ok tt) ∧ w_pool w' = w_pool w ∧
    config (w_snap w') = config (w_snap w) ∧
    installedSnapshot (w_snap w') = installedSnapshot (w_snap w) ∖ list_to_set (to_purge max bound l) ∧
    without root (to_purge max bound l) (w_disk w) (w_disk w').
Proof using.
  assert (∀ w, installedSnapshot (w_snap w) = installedSnapshot (w_snap w) ∖ list_to_set [] ∧
    without root [] (w_disk w) (w_disk w)) as Hnone.
  { intros w. split; [simpl; by rewrite difference_empty_L|]. intros p. by rewrite decide_False by by intros ?%Exists_nil. }
  induction l as [|i l IH]; intros w Hmax; cbn [purge_loop].
  - rewrite decide_True by done. exists w. unfold to_purge. rewrite take_nil. split_and!; [done|done|done|apply Hnone|apply Hnone].
  - case_decide as Hlen.
    { exists w. rewrite to_purge_nil by done. split_and!; [done|done|done|apply Hnone|apply Hnone]. }
    rewrite to_purge_cons by lia. case_decide as Hb.
    + unfold Meth.bind, lift, GenerateSnapshotFolderPath. simpl. fold (folder root i). unfold on_disk, RemoveDir, on_snap.
      set (w1 := set_snap _ _). destruct (IH w1 Hmax) as (w' & E' & Hp & Hc & Hi & Hw).
      exists w'. split_and!; [exact E'|done|done| |].
      * rewrite Hi. unfold w1. simpl. by rewrite difference_difference_l_L.
      * eapply without_remove; [reflexivity|exact Hw].
    + unfold Meth.bind at 1, Meth.ret at 1. by apply IH.
Qed.

Lemma purge_ok snap w :
  let s := w_snap w in
  let gone := to_purge (i64 (MaxSnapFiles (config s))) (sm_index (snap_meta snap)) (getInstalledSnapshotIndexSlice s) in
  0 <= i64 (MaxSnapFiles (config s)) →
  ∃ w', purgeSnapshot snap w = Ret (w', Ok tt) ∧ w_pool w' = w_pool w ∧ config (w_snap w') = config s ∧
    installedSnapshot (w_snap w') = installedSnapshot s ∖ list_to_set gone ∧
    without (SnapshotDir (config s)) gone (w_disk w) (w_disk w').
Proof using. intros s gone. apply purge_loop_ok. Qed.

(** ** Loading *)

(** The installed snapshot [i] has metadata [m]. *)
Definition has_metadata (w : World) (i : Z) (m : SnapshotMetadata) : Prop :=
  md_Index m = i ∧ metadata_fits L m ∧
  d_files (w_disk w) !! Join (folder (SnapshotDir (config (w_snap w))) i) (hex16 i ".metadata") = Some (enc_metadata m).

Definition in_wal (walSnaps : list WalSnapshot) (m : SnapshotMetadata) : Prop :=
  ∃ ws, ws ∈ walSnaps ∧ ws_term ws = sm_term (snap_meta (md_Snapshot m)) ∧ ws_index ws = md_Index m.

Lemma find_wal_spec walSnaps m : find_wal m walSnaps = true ↔ in_wal walSnaps m.
Proof using.
  induction walSnaps as [|ws l IH]; simpl.
  - split; [done|]. by intros (ws & Hin%elem_of_nil & _).
  - rewrite orb_true_iff, IH, bool_decide_eq_true. split.
    + intros [(x & Hx & ? & ?)|[? ?]]; [exists x|exists ws]; (split; [|done]); [by right|by left].
    + intros (x & [->|Hx]%elem_of_cons & ? & ?); [right; done|left; by exists x].
Qed.

(** The answer is the first of [l] that the log knows. *)
Definition chosen (metas : Z → SnapshotMetadata) (walSnaps : list WalSnapshot) (l : list Z) : option Snapshot :=
  head (omap (fun i => if find_wal (metas i) walSnaps then Some (md_Snapshot (metas i)) else None) l).

Lemma load_loop_ok metas walSnaps l : ∀ w,
  pool_ok L (w_pool w) → (∀ i, i ∈ l → i ∈ installedSnapshot (w_snap w) ∧ has_metadata w i (metas i)) →
  ∃ w', load_loop walSnaps l w = Ret (w', Ok (chosen metas walSnaps l)).
Proof using.
  induction l as [|i l IH]; intros w Hp Hl; cbn [load_loop]; [by eexists|].
  destruct (Hl i) as [Hin (Hidx & Hfits & Hfile)]; [by left|].
  destruct (getInstalled_ok L (metas i) Hfits (SnapshotDir (config (w_snap w))) w Hp eq_refl) as (w1 & E & Hp1 & Hd1 & Hs1);
    [by rewrite Hidx|unfold install_dir, metadata_name; by rewrite Hidx|].
  rewrite Hidx in E. step_by E. unfold chosen. cbn. destruct (find_wal (metas i) walSnaps); [by eexists|].
  apply IH; [done|]. intros j Hj. unfold has_metadata. rewrite Hd1, Hs1. apply Hl. by right.
Qed.

Lemma chosen_newest metas walSnaps l :
  StronglySorted Z.le l →
  match chosen metas walSnaps (reverse l) with
  | None => ∀ k, k ∈ l → ¬ in_wal walSnaps (metas k)
  | Some s => ∃ j, j ∈ l ∧ in_wal walSnaps (metas j) ∧ s = md_Snapshot (metas j) ∧
      ∀ k, k ∈ l → in_wal walSnaps (metas k) → k <= j
  end.
Proof using.
  induction 1 as [|x l Hl IH Hx]; [by intros k ?%elem_of_nil|].
  unfold chosen in *. rewrite reverse_cons, omap_app. destruct (omap _ (reverse l)) as [|s rest]; simpl in *.
  - destruct (find_wal (metas x) walSnaps) eqn:E; simpl.
    + exists x. split_and!; [by left|by apply find_wal_spec|done|].
      intros k [->|Hk]%elem_of_cons Hw; [done|]. by destruct (IH k Hk).
    + intros k [->|Hk]%elem_of_cons Hw; [apply find_wal_spec in Hw; congruence|by apply (IH k)].
  - destruct IH as (j & Hj & Hw & -> & Hmax). exists j. split_and!; [by right|done|done|].
    intros k [->|Hk]%elem_of_cons Hk'; [|by apply Hmax]. rewrite Forall_forall in Hx. by apply Hx.
Qed.

Lemma slice_sorted s : StronglySorted Z.le (getInstalledSnapshotIndexSlice s).
Proof using. apply StronglySorted_merge_sort; [apply _|]. intros x y. lia. Qed.

Lemma elem_of_slice s i : i ∈ getInstalledSnapshotIndexSlice s ↔ i ∈ installedSnapshot s.
Proof using. unfold getInstalledSnapshotIndexSlice. by rewrite merge_sort_Permutation, elem_of_elements. Qed.

Lemma chosen_installed metas walSnaps s :
  match chosen metas walSnaps (reverse (getInstalledSnapshotIndexSlice s)) with
  | None => ∀ k, k ∈ installedSnapshot s → ¬ in_wal walSnaps (metas k)
  | Some x => ∃ j, j ∈ installedSnapshot s ∧ in_wal walSnaps (metas j) ∧ x = md_Snapshot (metas j) ∧
      ∀ k, k ∈ installedSnapshot s → in_wal walSnaps (metas k) → k <= j
  end.
Proof using.
  pose proof (chosen_newest metas walSnaps _ (slice_sorted s)) as Hc.
  destruct (chosen metas walSnaps (reverse (getInstalledSnapshotIndexSlice s))) as [x|].
  - destruct Hc as (j & Hj%elem_of_slice & Hw & Hx & Hmax). exists j. split_and!; [done..|]. intros k Hk. apply Hmax. by apply elem_of_slice.
  - intros k Hk. apply Hc. by apply elem_of_slice.
Qed.

(** A node whose snapshots all have their metadata. *)
Record snapshots_sound (metas : Z → SnapshotMetadata) (w : World) : Prop := {
  sn_pool : pool_ok L (w_pool w);
  sn_index i : i ∈ installedSnapshot (w_snap w) → is_u64 i;
  sn_metadata i : i ∈ installedSnapshot (w_snap w) → has_metadata w i (metas i)
}.

Lemma load_ok metas walSnaps w :
  snapshots_sound metas w →
  ∃ w', LoadLastValidSnapshot walSnaps w
    = Ret (w', Ok (chosen metas walSnaps (reverse (getInstalledSnapshotIndexSlice (w_snap w))))).
Proof using.
  intros [Hp _ Hm]. unfold LoadLastValidSnapshot, Meth.bind, Meth.get. apply load_loop_ok; [done|].
  intros i Hi%elem_of_reverse%elem_of_slice. by split; [|apply Hm].
Qed.

Lemma append_inj_l (a b c : string) : String.app a b = String.app a c → b = c.
Proof using. induction a as [|x a IH]; [done|]. intros E. injection E as E. by apply IH. Qed.

Lemma folder_inj root i j : is_u64 i → is_u64 j → folder root i = folder root j → i = j.
Proof using.
  intros Hi Hj [_ E%append_inj_l]%Join_inj. apply (f_equal scan_hex) in E.
  rewrite !scan_hex16 in E by done. congruence.
Qed.

(** What is kept is untouched. *)
Lemma kept_files root l i n d d' :
  without root l d d' → is_u64 i → (∀ j, j ∈ l → is_u64 j) → i ∉ l →
  d_files d' !! Join (folder root i) n = d_files d !! Join (folder root i) n.
Proof using.
  intros Hw Hi Hl Hn. rewrite (Hw _), decide_False; [done|]. intros (j & Hj & Hpre)%Exists_exists.
  apply prefix_Join in Hpre as [E|Hpre].
  - apply (f_equal length) in E. unfold folder, Join in E. rewrite !length_app in E. cbn [length] in E. lia.
  - unfold folder in Hpre at 2. apply prefix_Join in Hpre as [E|E%Join_not_prefix]; [|done].
    apply folder_inj in E; [|by apply Hl|done]. by subst.
Qed.

Lemma NoDup_slice s : NoDup (getInstalledSnapshotIndexSlice s).
Proof using. unfold getInstalledSnapshotIndexSlice. rewrite merge_sort_Permutation. apply NoDup_elements. Qed.

Lemma to_purge_in max bound s i :
  i ∈ to_purge max bound (getInstalledSnapshotIndexSlice s) → i < bound ∧ i ∈ installedSnapshot s.
Proof using. intros [Hb Hi%elem_of_take]%list_elem_of_filter. split; [done|]. apply elem_of_slice. by destruct Hi as (k & Hk%list_elem_of_lookup_2 & _). Qed.

(** Of the snapshots older than [bound], at most [max] are left. *)
Lemma old_left max bound s :
  0 <= max →
  Z.of_nat (size (filter (fun i => i < bound)
    (installedSnapshot s ∖ list_to_set (to_purge max bound (getInstalledSnapshotIndexSlice s))))) <= max.
Proof using.
  intros Hmax. set (l := getInstalledSnapshotIndexSlice s). set (k := Z.to_nat (Z.of_nat (length l) - max)).
  transitivity (Z.of_nat (size (list_to_set (drop k l) : gset Z))).
  - apply inj_le, subseteq_size. intros i [Hb [Hi Hn]%elem_of_difference]%elem_of_filter.
    apply elem_of_list_to_set. apply elem_of_slice in Hi. fold l in Hi. rewrite <- (take_drop k l) in Hi.
    apply elem_of_app in Hi as [Hi|Hi]; [|done]. destruct Hn. apply elem_of_list_to_set, list_elem_of_filter. by split.
  - rewrite size_list_to_set, length_drop; [lia|]. eapply sublist_NoDup; [apply NoDup_slice|]. apply sublist_drop.
Qed.

Lemma purge_sound metas snap w w' :
  0 <= i64 (MaxSnapFiles (config (w_snap w))) →
  snapshots_sound metas w → purgeSnapshot snap w = Ret (w', Ok tt) → snapshots_sound metas w'.
Proof using.
  intros Hmax [Hp Hu Hm] E. destruct (purge_ok snap w Hmax) as (w1 & E1 & Hp1 & Hc1 & Hi1 & Hw1). assert (w1 = w') as -> by congruence.
  assert (∀ i, i ∈ installedSnapshot (w_snap w') → i ∈ installedSnapshot (w_snap w)) as Hsub.
  { intros i Hi. rewrite Hi1 in Hi. by apply elem_of_difference in Hi as [? _]. }
  constructor; [by rewrite Hp1|by intros i ?%Hsub; apply Hu|]. intros i Hi. pose proof (Hsub i Hi) as Hin.
  destruct (Hm i Hin) as (? & ? & Hf). split_and!; [done|done|]. rewrite Hc1.
  erewrite kept_files; [exact Hf|exact Hw1|by apply Hu| |].
  - intros j [_ Hj]%to_purge_in. by apply Hu.
  - rewrite Hi1 in Hi. intros Hn. apply elem_of_difference in Hi as [_ []]. by apply elem_of_list_to_set.
Qed.

(** C31: purging never takes the snapshot a node would start from.  While a snapshot at or
    after the one given is installed and recorded in the log, the node can load one: it is
    the newest installed snapshot the log knows.  Purging, with a limit an [int] can hold, succeeds and the node then loads
    the same one; the snapshots it removes are older than the given one and not among the
    [MaxSnapFiles] newest, at most that many older ones are left, and the files of the others
    are as before. *)
Theorem purge_keeps_restart_point metas walSnaps snap w k :
  let bound := sm_index (snap_meta snap) in
  let max := i64 (MaxSnapFiles (config (w_snap w))) in
  let have := installedSnapshot (w_snap w) in
  0 <= max → snapshots_sound metas w → k ∈ have → in_wal walSnaps (metas k) → bound <= k →
  ∃ j w1 w2 w3,
    LoadLastValidSnapshot walSnaps w = Ret (w1, Ok (Some (md_Snapshot (metas j)))) ∧
    purgeSnapshot snap w = Ret (w2, Ok tt) ∧
    LoadLastValidSnapshot walSnaps w2 = Ret (w3, Ok (Some (md_Snapshot (metas j)))) ∧
    (j ∈ have ∧ in_wal walSnaps (metas j) ∧ ∀ i, i ∈ have → in_wal walSnaps (metas i) → i <= j) ∧
    let left := installedSnapshot (w_snap w2) in
    left = have ∖ list_to_set (to_purge max bound (getInstalledSnapshotIndexSlice (w_snap w))) ∧
    Z.of_nat (size (filter (fun i => i < bound) left)) <= max ∧
    ∀ i n, i ∈ left → let f := Join (folder (SnapshotDir (config (w_snap w))) i) n in
      d_files (w_disk w2) !! f = d_files (w_disk w) !! f.
Proof using.
  intros bound max have H0max Hs Hk Hkw Hb. destruct (load_ok metas walSnaps w Hs) as (w1 & E1).
  destruct (purge_ok snap w H0max) as (w2 & E2 & Hp2 & Hc2 & Hi2 & Hw2). fold bound max in Hi2, Hw2.
  pose proof (purge_sound metas snap w w2 H0max Hs E2) as Hs2. destruct (load_ok metas walSnaps w2 Hs2) as (w3 & E3).
  pose proof (chosen_installed metas walSnaps (w_snap w)) as Hc. pose proof (chosen_installed metas walSnaps (w_snap w2)) as Hc'.
  assert (∀ i, i ∈ have → bound <= i → i ∈ installedSnapshot (w_snap w2)) as Hstay.
  { intros i Hi Hle. rewrite Hi2. apply elem_of_difference. split; [done|]. rewrite elem_of_list_to_set. intros [? _]%to_purge_in. lia. }
  destruct (chosen metas walSnaps (reverse (getInstalledSnapshotIndexSlice (w_snap w)))) as [s|]; [|by destruct (Hc k)].
  destruct Hc as (j & Hj & Hjw & -> & Hmax). assert (k <= j) as Hkj by by apply Hmax.
  assert (j ∈ installedSnapshot (w_snap w2)) as Hj2 by (apply Hstay; [done|lia]).
  destruct (chosen metas walSnaps (reverse (getInstalledSnapshotIndexSlice (w_snap w2)))) as [s|]; [|by destruct (Hc' j)].
  destruct Hc' as (j' & Hj' & Hjw' & -> & Hmax'). assert (j' = j) as ->.
  { apply Z.le_antisymm; [|by apply Hmax']. apply Hmax; [|done]. rewrite Hi2 in Hj'. by apply elem_of_difference in Hj' as [? _]. }
  exists j, w1, w2, w3. cbv zeta. split_and!; [done..| |].
  - rewrite Hi2. by apply old_left.
  - intros i n Hi. rewrite Hi2 in Hi. apply elem_of_difference in Hi as [Hi Hn].
    eapply kept_files; [exact Hw2|by apply (sn_index _ _ Hs)| |].
    + intros i' [_ Hi']%to_purge_in. by apply (sn_index _ _ Hs).
    + intros Hin. apply Hn. by apply elem_of_list_to_set.
Qed.
End Retention.
