(* ===== verification/SnapshotExamples.v ===== *)
(** * Concrete snapshots

    Instances of the parameters of the snapshot files: an encoding of the metadata and a
    compression; and a snapshot with a state machine file and a cluster file that is written,
    sent, received, purged and read. *)

From S2P Require Import Prelude Raftpb Coded Allocator Streams LogFiles WalReplay ApplyExamples.
From S2P Require Import SnapshotFs SnapshotIo SnapshotTransfer SnapshotInstall SnapshotVerified SnapshotWriter SnapshotSave SnapshotRetention.
Import Codes SessionExamples.

(** ** The encoding *)

#[export] Instance FileDesc_eq_dec : EqDecision SnapshotFileDesc.
Proof. solve_decision. Defined.
#[export] Instance FileDesc_countable : Countable SnapshotFileDesc.
Proof.
  refine (inj_countable' (λ f, (FileType f, CompressionType f, Tag f, FileSize f, FileCrc64 f, Metadata f, IsExternal f, LocationUri f))
    (λ '(a, b, c, d, e, f, g, h), {| FileType := a; CompressionType := b; Tag := c; FileSize := d; FileCrc64 := e;
       Metadata := f; IsExternal := g; LocationUri := h |}) _). by intros [].
Defined.
#[export] Instance RaftMetadata_eq_dec : EqDecision Raftpb.SnapshotMetadata.
Proof. solve_decision. Defined.
#[export] Instance Snapshot_eq_dec : EqDecision Snapshot.
Proof. solve_decision. Defined.
#[export] Instance SnapshotMetadata_eq_dec : EqDecision SnapshotMetadata.
Proof. solve_decision. Defined.
#[export] Instance SnapshotMetadata_countable : Countable SnapshotMetadata.
Proof.
  refine (inj_countable' (λ m, let s := md_Snapshot m in
       (Version m, snap_data s, sm_conf (snap_meta s), sm_index (snap_meta s), sm_term (snap_meta s), Files m))
    (λ '(v, x, c, i, t, f), {| Version := v; Files := f;
       md_Snapshot := {| snap_data := x; snap_meta := {| sm_conf := c; sm_index := i; sm_term := t |} |} |}) _).
  by intros [? [? []] ?].
Defined.

(** One metadata has a short code; the others are written bit by bit. *)
Definition short_code (special : SnapshotMetadata) : Message SnapshotMetadata.
Proof.
  refine {| marshal m := if decide (m = special) then [Byte.x01] else Byte.x00 :: bits (encode m);
            unmarshal b := match b with Byte.x00 :: l => decode (unbits l) | _ => Some special end |}.
  intros m. case_decide as E; [by subst|]. by rewrite unbits_bits, decode_encode.
Defined.

Lemma short_fits special : metadata_fits (H := short_code special) default_levels special.
Proof.
  unfold metadata_fits. cbn [marshal short_code]. rewrite decide_True by done. simpl.
  split_and!; [exact default_serves_word|split; [lia|left; simpl; lia]|lia].
Qed.

(** ** A snapshot to send *)

Definition demo_snapshot : Snapshot :=
  {| snap_data := []; snap_meta := {| sm_conf := {| cs_voters := [1; 2]; cs_learners := [] |}; sm_index := 5; sm_term := 2 |} |}.
Definition demo_file (ft : Z) (tag : string) (c : list byte) : SnapshotFileDesc :=
  {| FileType := ft; CompressionType := SnapshotFileCompression_None; Tag := tag; FileSize := Z.of_nat (length c);
     FileCrc64 := crc64_ecma 0 c; Metadata := []; IsExternal := false; LocationUri := "" |}.

Definition kv_bytes : list byte := [Byte.x68; Byte.x69; Byte.x21].
Definition cluster_bytes : list byte := [Byte.x63].
Definition cluster_tag : string := hex16 5 ".cluster".
Definition demo_metadata (kv : list byte) : SnapshotMetadata :=
  {| Version := 1; md_Snapshot := demo_snapshot;
     Files := {["kv" := demo_file SnapshotFileType_StateMachine "kv" kv;
               cluster_tag := demo_file SnapshotFileType_Cluster cluster_tag cluster_bytes]} |}.

(** The sender's disk, and the receiver's. *)
Definition demo_root : path := ["snap"].
Definition demo_src : path := Join demo_root "snapshot-at-sender".
Definition sender_disk (kv : list byte) : Disk :=
  {| d_files := {[Join demo_src (hex16 5 "-kv.fsm") := kv; Join demo_src cluster_tag := cluster_bytes]};
     d_dirs := {[ [] ; demo_root; demo_src ]} |}.
Definition empty_disk : Disk := {| d_files := ∅; d_dirs := {[ []; demo_root ]} |}.
Definition demo_world (d : Disk) (installed : gset Z) : World :=
  {| w_pool := default_pool; w_disk := d;
     w_snap := {| config := {| c_SnapshotVersion := 1; MaxSnapFiles := 2; SnapshotDir := demo_root |};
                  installedSnapshot := installed; externalFileHandler := None; received := [] |} |}.
Definition demo_storage : Storage := {| st_world := demo_world empty_disk ∅; snapshotReceiver := None |}.
Definition demo_node : NodeId := {| n_ClusterID := 9; n_LocalPeerID := 2; n_Step := fun _ => None |}.
Definition demo_message : RaftMessage := {| rm_From := 1; rm_To := 2; rm_Snapshot := demo_snapshot |}.

Lemma empty_disk_tree : tree empty_disk.
Proof.
  constructor; simpl.
  - intros p c Hc. by rewrite lookup_empty in Hc.
  - intros p [->%elem_of_singleton| ->%elem_of_singleton]%elem_of_union Hne; [done|]. apply elem_of_union_l. by apply elem_of_singleton.
  - intros p [c Hc]. by rewrite lookup_empty in Hc.
Qed.

Lemma room_in_root n : room_for empty_disk (Join demo_root n).
Proof.
  constructor; [apply empty_disk_tree|done| |].
  - rewrite Dir_Join. by apply elem_of_union_r, elem_of_singleton.
  - apply bool_decide_eq_false. simpl. rewrite lookup_empty.
    intros [[? [=]]|[[=]%elem_of_singleton|[=]%elem_of_singleton]%elem_of_union].
Qed.

Lemma demo_ready kv : receiver_ready (H := short_code (demo_metadata kv)) default_levels (demo_metadata kv) demo_storage.
Proof.
  constructor; try done; try apply room_in_root; [exact default_pool_ok|apply short_fits].
Qed.

(** No running checksum of the two files is zero, in pieces of two bytes. *)
Lemma checksums_nonzero c j :
  c = kv_bytes ∨ c = cluster_bytes → (0 < j)%nat → crc32c 0 (take (j * 2) c) ≠ 0.
Proof.
  intros Hc Hj. destruct Hc as [-> | ->].
  - destruct j as [|[|j]]; [lia|vm_compute; discriminate|]. rewrite take_ge by (simpl; lia). vm_compute. discriminate.
  - destruct j as [|j]; [lia|]. rewrite take_ge by (simpl; lia). vm_compute. discriminate.
Qed.

(** The files of the snapshot are its two files. *)
Lemma demo_files kv t f :
  Files (demo_metadata kv) !! t = Some f →
  (t = "kv" ∧ f = demo_file SnapshotFileType_StateMachine "kv" kv) ∨
  (t = cluster_tag ∧ f = demo_file SnapshotFileType_Cluster cluster_tag cluster_bytes).
Proof.
  cbn [Files demo_metadata]. intros [[<- <-]|[_ [<- <-]%lookup_singleton_Some]]%lookup_insert_Some; [by left|by right].
Qed.

Lemma demo_sendable kv t f :
  kv = kv_bytes ∨ kv = [] → Files (demo_metadata kv) !! t = Some f →
  ∃ nm c, sendable (demo_metadata kv) 2 demo_src (sender_disk kv) t f nm c.
Proof.
  intros Hkv [[-> ->]|[-> ->]]%demo_files.
  - exists (hex16 5 "-kv.fsm"), kv. constructor; try done; [by destruct Hkv as [-> | ->]|].
    intros j Hj Hne. apply checksums_nonzero; [|done]. destruct Hkv; [by left|done].
  - exists cluster_tag, cluster_bytes. constructor; try done. intros j Hj _. apply checksums_nonzero; [by right|done].
Qed.

Lemma demo_sound kv :
  kv = kv_bytes ∨ kv = [] → snapshot_sound (H0 := sorted_range) 2 (demo_metadata kv) demo_src (sender_disk kv).
Proof.
  intros Hkv. constructor.
  - done.
  - intros t f Hf _. by apply demo_sendable.
  - intros t1 f1 t2 f2 nm c1 c2 H1%elem_of_range H2%elem_of_range [_ _ _ N1 _ _ _ _ _] [_ _ _ N2 _ _ _ _ _].
    apply demo_files in H1 as [[-> ->]|[-> ->]], H2 as [[-> ->]|[-> ->]]; [done| | |done]; vm_compute in N1, N2; congruence.
Qed.

Lemma snapshot_transfer_witness :
  let codec := short_code (demo_metadata kv_bytes) in
  ∃ s', sendSnapshotMessageLoop (H := direct (H := codec) demo_node) 9 2 demo_message
      (NewReader demo_src (demo_metadata kv_bytes)) (sender_disk kv_bytes) demo_storage = Ret (s', Ok tt) ∧
    5 ∈ installedSnapshot (w_snap (st_world s')).
Proof.
  intros codec.
  destruct (snapshot_transfer (H := codec) default_levels demo_node 2 (demo_metadata kv_bytes) demo_src (sender_disk kv_bytes) demo_storage
    demo_message) as (s' & E & _ & Hi & _); [lia|apply demo_sound; by left|apply demo_ready| |done|done|done|done|].
  - by intros t f [[-> ->]|[-> ->]]%demo_files _.
  - exists s'. split; [exact E|]. rewrite Hi. apply elem_of_union_l. by apply elem_of_singleton.
Defined.

Lemma empty_file_not_sent_witness :
  let codec := short_code (demo_metadata []) in
  ∃ s' e, sendSnapshotMessageLoop (H := direct (H := codec) demo_node) 9 2 demo_message
      (NewReader demo_src (demo_metadata [])) (sender_disk []) demo_storage = Ret (s', Err e) ∧
    installedSnapshot (w_snap (st_world s')) = ∅.
Proof.
  intros codec. eapply (empty_file_not_sent (H := codec) default_levels demo_node 2 (demo_metadata []) demo_src (sender_disk []) demo_storage
    demo_message "kv"); [lia|apply demo_sound; by right|apply demo_ready|reflexivity|reflexivity|reflexivity|reflexivity|reflexivity|done|reflexivity].
Defined.

(** ** A snapshot received *)

Definition received_metadata : SnapshotMetadata :=
  {| Version := 1; md_Snapshot := demo_snapshot;
     Files := {["kv" := demo_file SnapshotFileType_StateMachine "kv" kv_bytes]} |}.
Definition received_codec : Message SnapshotMetadata := short_code received_metadata.
Definition received_header (ty : Z) (chunk : SnapshotChunkMessage) (fin : RaftMessage) : SnapshotMessage :=
  {| ClusterID := 9; From := 1; To := 2; sm_Term := 2; sm_Index := 5; sm_Type := ty; sm_Metadata := received_metadata;
     ChunkMessage := chunk; FinishMessage := fin |}.
Definition received_messages : list SnapshotMessage :=
  [received_header SnapshotMessageType_Metadata emptyChunk emptyRaftMessage;
   received_header SnapshotMessageType_Chunk
     {| ck_FileType := SnapshotFileType_StateMachine; FileTag := "kv"; Id := 1; Data := kv_bytes;
        ContinueCrc32 := crc32c 0 kv_bytes; LastChunk := true |} emptyRaftMessage].
Definition received_finish : SnapshotMessage := received_header SnapshotMessageType_Finish emptyChunk demo_message.

Definition received_run : go (Storage * Storage * result SnapshotMessageResponse) :=
  s1 ← deliver (H := received_codec) demo_node received_messages demo_storage;
  '(s2, r) ← ProcessSnapshotMessage (H := received_codec) demo_node received_finish s1;
  Ret (s1, s2, r).
Definition succeeded (r : go (Storage * Storage * result SnapshotMessageResponse)) : bool :=
  match r with Ret (_, _, Ok a) => match Status a with SUCCESS => true | _ => false end | _ => false end.

Lemma received_succeeds : succeeded received_run = true.
Proof. vm_compute. reflexivity. Qed.

Lemma installed_is_verified_witness :
  ∃ s1 s2 a m, deliver (H := received_codec) demo_node received_messages demo_storage = Ret s1 ∧
    ProcessSnapshotMessage (H := received_codec) demo_node received_finish s1 = Ret (s2, Ok a) ∧
    5 ∈ installedSnapshot (w_snap (st_world s2)) ∧
    let cfg := config (w_snap (st_world demo_storage)) in
    verified (H := received_codec) cfg (SnapshotVerified.folder cfg snapshotFolderNamePrefix 5) 5 (w_disk (st_world s2)) m.
Proof.
  pose proof received_succeeds as Hok. unfold received_run in Hok.
  destruct (deliver (H := received_codec) demo_node received_messages demo_storage) as [s1|] eqn:E1; [|discriminate Hok].
  cbn [mbind go_bind] in Hok.
  destruct (ProcessSnapshotMessage (H := received_codec) demo_node received_finish s1) as [[s2 [a|]]|] eqn:E2; [|discriminate Hok..].
  cbn [mbind go_bind succeeded] in Hok. destruct (Status a) eqn:Ea; try discriminate Hok.
  destruct (installed_is_verified (H := received_codec) demo_node received_messages demo_storage s1 received_finish s2 a) as [Hi [m Hm]];
    [exact empty_disk_tree|reflexivity|exact E1|reflexivity|simpl; lia|exact E2|exact Ea|].
  exists s1, s2, a, m. split_and!; [reflexivity|exact E2|exact Hi|exact Hm].
Defined.

(** ** A snapshot written *)

(** The identity is a compression. *)
Definition stored_snappy : Snappy := {| snappy_encode ws := concat ws; snappy_decode c := Ok c; snappy_roundtrip ws := eq_refl |}.

(** A compressed file, written in two goes around another one. *)
Definition demo_ops : list wop :=
  [OpStateMachineFile "kv" SnapshotFileCompression_Snappy; OpWrite "kv" [Byte.x68];
   OpStateMachineFile "ix" SnapshotFileCompression_None; OpWrite "ix" cluster_bytes; OpClose "ix";
   OpWrite "kv" [Byte.x69; Byte.x21]; OpClose "kv"].
Definition demo_written : gmap string sfile :=
  {["kv" := {| sf_type := SnapshotFileType_StateMachine; sf_comp := SnapshotFileCompression_Snappy; sf_data := kv_bytes; sf_open := false |};
    "ix" := {| sf_type := SnapshotFileType_StateMachine; sf_comp := SnapshotFileCompression_None; sf_data := cluster_bytes; sf_open := false |}]}.
Definition written_metadata : SnapshotMetadata :=
  {| Version := 1; md_Snapshot := demo_snapshot;
     Files := {["kv" := {| FileType := SnapshotFileType_StateMachine; CompressionType := SnapshotFileCompression_Snappy; Tag := "kv";
                           FileSize := 3; FileCrc64 := crc64_ecma 0 kv_bytes; Metadata := []; IsExternal := false; LocationUri := "" |};
               "ix" := demo_file SnapshotFileType_StateMachine "ix" cluster_bytes]} |}.
Definition written_codec : Message SnapshotMetadata := short_code written_metadata.

Lemma demo_ops_spec : spec_ops 5 demo_ops ∅ = Some demo_written.
Proof. vm_compute. reflexivity. Qed.

Lemma demo_closed t f : demo_written !! t = Some f → sf_open f = false.
Proof. unfold demo_written. by intros [[<- <-]|[_ [<- <-]%lookup_singleton_Some]]%lookup_insert_Some. Qed.

Lemma demo_writer_ready : writer_ready default_levels demo_snapshot (demo_world empty_disk ∅).
Proof. constructor; [exact default_pool_ok|done|done|apply room_in_root|apply room_in_root]. Qed.

Lemma demo_committed :
  match CreateAtomicSnapshotWriter 2 5 (demo_world empty_disk ∅) with
  | Ret (w1, Ok sw0) =>
      match for_each (run_op (H := stored_snappy)) demo_ops (w_disk w1, sw0) with
      | Ret (_, sw, Ok _) => bool_decide (commit_metadata 1 demo_snapshot sw = written_metadata)
      | _ => false
      end
  | _ => false
  end = true.
Proof. vm_compute. reflexivity. Qed.

Lemma snapshot_saved_witness :
  ∃ w1 sw0 d sw, CreateAtomicSnapshotWriter 2 5 (demo_world empty_disk ∅) = Ret (w1, Ok sw0) ∧
    for_each (run_op (H := stored_snappy)) demo_ops (w_disk w1, sw0) = Ret ((d, sw), Ok tt) ∧
    (∃ w2 m w3 r, Writer_Commit (H0 := written_codec) demo_snapshot sw (set_disk d w1) = Ret (w2, Ok m) ∧
       CreateInstalledSnapshotReader (H0 := written_codec) 5 true w2 = Ret (w3, Ok r) ∧
       read_back (H := stored_snappy) r (w_disk w3) "kv" SnapshotFileType_StateMachine = Ok kv_bytes).
Proof.
  destruct (snapshot_saved (H := stored_snappy) (H0 := written_codec) default_levels demo_snapshot (demo_world empty_disk ∅) demo_writer_ready
    2 demo_ops demo_written demo_ops_spec demo_closed) as (w1 & sw0 & d & sw & E1 & E2 & Hcommit).
  exists w1, sw0, d, sw. split; [exact E1|]. split; [exact E2|].
  pose proof demo_committed as Hm. change (sm_index (snap_meta demo_snapshot)) with 5 in E1. rewrite E1, E2 in Hm. apply bool_decide_eq_true in Hm.
  destruct Hcommit as (w2 & m & w3 & r & E3 & _ & _ & E4 & Hread).
  - change (SnapshotVersion (w_snap (demo_world empty_disk ∅))) with 1. rewrite Hm. apply short_fits.
  - exists w2, m, w3, r. split; [exact E3|]. split; [exact E4|].
    exact (Hread "kv" {| sf_type := SnapshotFileType_StateMachine; sf_comp := SnapshotFileCompression_Snappy; sf_data := kv_bytes; sf_open := false |} eq_refl).
Defined.

(** ** Old snapshots *)

Definition numbered (i : Z) : SnapshotMetadata :=
  {| Version := 1; Files := ∅;
     md_Snapshot := {| snap_data := []; snap_meta := {| sm_conf := {| cs_voters := []; cs_learners := [] |}; sm_index := i; sm_term := 1 |} |} |}.
Definition numbered_codec : Message SnapshotMetadata := coded SnapshotMetadata.
Definition kept_path (i : Z) : path := Join (folder demo_root i) (hex16 i ".metadata").
Definition full_world : World :=
  demo_world
    {| d_files := {[kept_path 3 := enc_metadata (H := numbered_codec) (numbered 3); kept_path 5 := enc_metadata (H := numbered_codec) (numbered 5);
                   kept_path 7 := enc_metadata (H := numbered_codec) (numbered 7)]};
       d_dirs := {[ []; demo_root; folder demo_root 3; folder demo_root 5; folder demo_root 7 ]} |} {[3; 5; 7]}.

Lemma numbered_fits i : i ∈ [3; 5; 7] → metadata_fits (H := numbered_codec) default_levels (numbered i).
Proof.
  intros Hi. assert (∀ n, (0 < n)%nat → (n < 64)%nat → serves default_levels (Z.of_nat n)) as Hs.
  { intros n ? ?. split; [lia|]. left. simpl. lia. }
  repeat (apply elem_of_cons in Hi as [->|Hi]);
    [split_and!; [exact default_serves_word|apply Hs; vm_compute; lia|vm_compute; reflexivity]..|by apply elem_of_nil in Hi].
Qed.

Lemma full_sound : snapshots_sound (H := numbered_codec) default_levels numbered full_world.
Proof.
  assert (∀ i, i ∈ installedSnapshot (w_snap full_world) → i = 3 ∨ i = 5 ∨ i = 7) as Hcase.
  { intros i [[->%elem_of_singleton| ->%elem_of_singleton]%elem_of_union| ->%elem_of_singleton]%elem_of_union; auto. }
  constructor.
  - exact default_pool_ok.
  - intros i [->|[->| ->]]%Hcase; done.
  - intros i Hi. split_and!; [done| |].
    + apply numbered_fits. destruct (Hcase i Hi) as [->|[->| ->]]; [by left|by right; left|by right; right; left].
    + destruct (Hcase i Hi) as [->|[->| ->]]; reflexivity.
Qed.

Lemma purge_keeps_restart_point_witness :
  let walSnaps := [{| ws_index := 3; ws_term := 1; ws_conf := None |}; {| ws_index := 7; ws_term := 1; ws_conf := None |}] in
  ∃ j w2 w3, purgeSnapshot (md_Snapshot (numbered 7)) full_world = Ret (w2, Ok tt) ∧
    LoadLastValidSnapshot (H := numbered_codec) walSnaps w2 = Ret (w3, Ok (Some (md_Snapshot (numbered j)))) ∧ 7 <= j.
Proof.
  intros walSnaps. assert (7 ∈ installedSnapshot (w_snap full_world)) as H7 by by apply elem_of_union_r, elem_of_singleton.
  assert (in_wal walSnaps (numbered 7)) as Hin.
  { exists {| ws_index := 7; ws_term := 1; ws_conf := None |}. split; [by right; left|done]. }
  destruct (purge_keeps_restart_point (H := numbered_codec) default_levels numbered walSnaps (md_Snapshot (numbered 7)) full_world 7)
    as (j & w1 & w2 & w3 & _ & E2 & E3 & (_ & _ & Hmax) & _); [vm_compute; discriminate|exact full_sound|exact H7|exact Hin|reflexivity|].
  exists j, w2, w3. split; [exact E2|]. split; [exact E3|]. by apply Hmax.
Defined.
