(* ===== verification/LinearRead.v ===== *)
(** * Linearizable reads

    The loop of [raft_linearizable_read.go], [LinearizableRead] of [raft_api.go], and what
    they are built from: the identifiers of [idgenerator/replyId.go], the signals of
    [syncutil/notifier.go] and the completions of [replier/completion.go].  Goroutines are
    interleaved by events: one event is one communication or one atomic operation.

    The loop writes the identifier of every round into the same buffer, [readCtx], and gives
    raft that buffer, not its contents.  Raft copies the bytes when it gets to the request, to
    know the request by, but a leader answers requests of its own node with the buffer
    itself: its [ReadState.RequestCtx] then has the bytes of the round under way, whatever
    round it answers.  Only the answers another node sends have bytes of their own.  What is
    relied on of raft is that it answers requests it was given, with an index at least what
    was committed when it read them first. *)

From S2P Require Import Prelude.

(** ** Identifiers *)

Definition sequenceNumBits : Z := 51.
Definition memberBits : Z := 12.
Definition sequenceBitsMask : Z := Z.ones sequenceNumBits.
Definition memberBitsMask : Z := Z.ones memberBits.

Record ReplyId := { seqNum : Z; ri_peerID : Z }.
Definition New (peerID seed : Z) : ReplyId := {| seqNum := seed; ri_peerID := Z.land peerID memberBitsMask |}.
Definition Next (a : ReplyId) : ReplyId * Z :=
  let s := u64 (seqNum a + 1) in
  ({| seqNum := s; ri_peerID := ri_peerID a |},
   Z.lor (u64 (Z.shiftl (Z.land s sequenceBitsMask) memberBits)) (ri_peerID a)).

(** ** Signals *)

(** An [EventSignal] is the number of its channel; [Reset] makes a new channel and closes
    the old ones. *)
Definition EventSignal := nat.
Definition Reset (e : EventSignal) : EventSignal := S e.
Definition closed_by (e : EventSignal) (ch : nat) : bool := bool_decide (ch < e)%nat.

(** The signals of a [SignalManager] by number: the current one, and the errors of those
    that were completed. *)
Record SignalManager := { cw : nat; errs : gmap nat (option error) }.
Definition NewSignalManager : SignalManager := {| cw := 0; errs := ∅ |}.
Definition Current (e : SignalManager) : nat := cw e.
Definition Swap (e : SignalManager) : SignalManager * nat := ({| cw := S (cw e); errs := errs e |}, cw e).

(** [CompleteWith]: closing a closed channel panics. *)
Definition CompleteWith (n : nat) (err : option error) (e : SignalManager) : go SignalManager :=
  match errs e !! n with
  | Some _ => Panic "close of closed channel"
  | None => Ret {| cw := cw e; errs := <[n := err]> (errs e) |}
  end.

(** ** Completions *)

(** Channels are numbered; number 0 is [closedCh]. *)
Record Completion := { completions : gmap Z nat; lastCompletedID : Z; closed : gset nat; next_chan : nat }.
Definition NewCompletion : Completion := {| completions := ∅; lastCompletedID := 0; closed := {[0%nat]}; next_chan := 1 |}.

Definition AcquireCompletionChan (id : Z) (c : Completion) : Completion * nat :=
  if decide (id <= lastCompletedID c) then (c, 0%nat)
  else match completions c !! id with
       | Some ch => (c, ch)
       | None => ({| completions := <[id := next_chan c]> (completions c); lastCompletedID := lastCompletedID c;
                     closed := closed c; next_chan := S (next_chan c) |}, next_chan c)
       end.

Definition MarkCompleted (id : Z) (c : Completion) : Completion :=
  {| completions := filter (fun '(k, _) => ¬ k <= id) (completions c); lastCompletedID := id;
     closed := list_to_set (map_to_list (filter (fun '(k, _) => k <= id) (completions c))).*2 ∪ closed c;
     next_chan := next_chan c |}.

(** ** The loop and its readers *)

(** Where [processRaftLinearizedRead] is: [lch] is the channel of the leader signal taken at
    the top of the round, [id] the identifier of the round, [old] the signal it completes. *)
Inductive Phase :=
  | Top
  | Idle (lch : nat) (id : Z)
  | Signalled (lch : nat) (id : Z)
  | Asking (lch : nat) (id : Z) (old : nat)
  | Awaiting (lch fch : nat) (id : Z) (old : nat)
  | Answered (index : Z) (old : nat)
  | Acquiring (index : Z) (old : nat)
  | Blocked (index : Z) (ch old : nat)
  | Stopped.

(** Where a call of [LinearizableRead] is. *)
Inductive ReadPc := Has (n : nat) | Waits (n : nat) | Returned (err : option error).

(** A call, and what was committed when it began. *)
Record Reader := { r_from : Z; r_pc : ReadPc }.

Record Raft := {
  idGenerator : ReplyId;
  linearizeReqNotifier : SignalManager;
  leaderChangeNotifier : EventSignal;
  firstCommitInTermNotifier : EventSignal;
  completionReplier : Completion;
  appliedIndex : Z;
  closer : bool;
  phase : Phase;
  readers : gmap nat Reader;
  readCtx : Z;            (* the bytes in the buffer of the loop *)
  sent : nat;             (* the requests raft was given and has not read *)
  committed : Z;          (* what the cluster has committed *)
  asked : gmap Z Z        (* the requests raft has, by the bytes it read, and what was committed when it read them first *)
}.

Definition NewRaft (peerID seed : Z) : Raft :=
  {| idGenerator := New peerID seed; linearizeReqNotifier := NewSignalManager; leaderChangeNotifier := 0%nat;
     firstCommitInTermNotifier := 0%nat; completionReplier := NewCompletion; appliedIndex := 0; closer := false;
     phase := Top; readers := ∅; readCtx := 0; sent := 0; committed := 0; asked := ∅ |}.

Definition set_phase (p : Phase) (s : Raft) : Raft :=
  {| idGenerator := idGenerator s; linearizeReqNotifier := linearizeReqNotifier s; leaderChangeNotifier := leaderChangeNotifier s;
     firstCommitInTermNotifier := firstCommitInTermNotifier s; completionReplier := completionReplier s; appliedIndex := appliedIndex s;
     closer := closer s; phase := p; readers := readers s; readCtx := readCtx s; sent := sent s; committed := committed s; asked := asked s |}.
Definition set_signals (e : SignalManager) (s : Raft) : Raft :=
  {| idGenerator := idGenerator s; linearizeReqNotifier := e; leaderChangeNotifier := leaderChangeNotifier s;
     firstCommitInTermNotifier := firstCommitInTermNotifier s; completionReplier := completionReplier s; appliedIndex := appliedIndex s;
     closer := closer s; phase := phase s; readers := readers s; readCtx := readCtx s; sent := sent s; committed := committed s; asked := asked s |}.
Definition set_ids (a : ReplyId) (s : Raft) : Raft :=
  {| idGenerator := a; linearizeReqNotifier := linearizeReqNotifier s; leaderChangeNotifier := leaderChangeNotifier s;
     firstCommitInTermNotifier := firstCommitInTermNotifier s; completionReplier := completionReplier s; appliedIndex := appliedIndex s;
     closer := closer s; phase := phase s; readers := readers s; readCtx := readCtx s; sent := sent s; committed := committed s; asked := asked s |}.
Definition set_completion (c : Completion) (s : Raft) : Raft :=
  {| idGenerator := idGenerator s; linearizeReqNotifier := linearizeReqNotifier s; leaderChangeNotifier := leaderChangeNotifier s;
     firstCommitInTermNotifier := firstCommitInTermNotifier s; completionReplier := c; appliedIndex := appliedIndex s;
     closer := closer s; phase := phase s; readers := readers s; readCtx := readCtx s; sent := sent s; committed := committed s; asked := asked s |}.
Definition set_readers (r : gmap nat Reader) (s : Raft) : Raft :=
  {| idGenerator := idGenerator s; linearizeReqNotifier := linearizeReqNotifier s; leaderChangeNotifier := leaderChangeNotifier s;
     firstCommitInTermNotifier := firstCommitInTermNotifier s; completionReplier := completionReplier s; appliedIndex := appliedIndex s;
     closer := closer s; phase := phase s; readers := r; readCtx := readCtx s; sent := sent s; committed := committed s; asked := asked s |}.
Definition set_requests (ctx : Z) (k : nat) (a : gmap Z Z) (s : Raft) : Raft :=
  {| idGenerator := idGenerator s; linearizeReqNotifier := linearizeReqNotifier s; leaderChangeNotifier := leaderChangeNotifier s;
     firstCommitInTermNotifier := firstCommitInTermNotifier s; completionReplier := completionReplier s; appliedIndex := appliedIndex s;
     closer := closer s; phase := phase s; readers := readers s; readCtx := ctx; sent := k; committed := committed s; asked := a |}.

Definition ErrLeaderChange : error := Sentinel "ErrLeaderChange".
Definition ErrReadIndexRequestTimeout : error := Sentinel "errReadIndexRequestTimeout".
Definition ErrStopped : error := Sentinel "raft: raft has stopped".
Definition raft_ErrStopped : error := Sentinel "raft: stopped".

(** The outcome of an event: it cannot happen, it panics, or the state after it. *)
Inductive outcome := Disabled | Crash (why : string) | Step (s : Raft).
Definition of_go (r : go Raft) : outcome := match r with Ret s => Step s | Panic why => Crash why end.

(** The signal of the round is completed, and the next round begins. *)
Definition finish_round (old : nat) (err : option error) (s : Raft) : outcome :=
  of_go (e ← CompleteWith old err (linearizeReqNotifier s); Ret (set_phase Top (set_signals e s))).

(** [PutUint64(readCtx, id)] *)
Definition write_ctx (id : Z) (s : Raft) : Raft := set_requests id (sent s) (asked s) s.
(** [raftReadIndexRequest]: raft takes the buffer, or answers with an error. *)
Definition raftReadIndexRequest (answer : option error) (s : Raft) : Raft * option error :=
  match answer with
  | Some e => (s, Some e)
  | None => (set_requests (readCtx s) (S (sent s)) (asked s) s, None)
  end.

(** The context of an answer: bytes of its own, or the buffer of the loop, in an answer to the request raft
    knows as [key]. *)
Inductive RequestCtx := Copied (bytes : Z) | Shared (key : Z).
Definition bytes_of (c : RequestCtx) (s : Raft) : Z := match c with Copied bytes => bytes | Shared _ => readCtx s end.
Definition key_of (c : RequestCtx) : Z := match c with Copied bytes => bytes | Shared key => key end.

(** What the loop communicates: the channel it selects, or what the node answers. *)
Inductive choice :=
  | Proceed                            (* an operation that is not a communication *)
  | Close | LeaderChanged | FirstCommit (answer : option error) | RetryTimer (answer : option error) | RequestTimer
  | Ask (answer : option error)
  | ReadState (ctx : RequestCtx) (index : Z)
  | Completed.

(** After a request that failed. *)
Definition request_failed (old : nat) (e : error) (s : Raft) : outcome :=
  if decide (e = raft_ErrStopped) then Step (set_phase Stopped s) else finish_round old (Some e) s.

Definition response_failed (old : nat) (e : error) (s : Raft) : outcome :=
  if decide (e = raft_ErrStopped ∨ e = ErrStopped) then Step (set_phase Stopped s) else finish_round old (Some e) s.

(** Raft answers a request of this node with the buffer only once. *)
Definition answered (ctx : RequestCtx) (s : Raft) : Raft :=
  match ctx with Copied _ => s | Shared key => set_requests (readCtx s) (sent s) (delete key (asked s)) s end.

(** The [select] of [readIndexResponse], and what its caller does with the error. *)
Definition readIndexResponse (lch fch : nat) (id : Z) (old : nat) (c : choice) (s : Raft) : outcome :=
  match c with
  | ReadState ctx index =>
      let finish := bool_decide (bytes_of ctx s = readCtx s) in
      Step (if finish then set_phase (Answered index old) (answered ctx s) else answered ctx s)
  | LeaderChanged => if closed_by (leaderChangeNotifier s) lch then finish_round old (Some ErrLeaderChange) s else Disabled
  | FirstCommit answer =>
      if closed_by (firstCommitInTermNotifier s) fch then
        let fch := firstCommitInTermNotifier s in
        let '(s, err) := raftReadIndexRequest answer s in
        match err with Some e => response_failed old e s | None => Step (set_phase (Awaiting lch fch id old) s) end
      else Disabled
  | RetryTimer answer =>
      let '(s, err) := raftReadIndexRequest answer s in
      match err with Some e => response_failed old e s | None => Step s end
  | RequestTimer => finish_round old (Some ErrReadIndexRequestTimeout) s
  | Close => if closer s then Step (set_phase Stopped s) else Disabled
  | _ => Disabled
  end.

(** [processRaftLinearizedRead] *)
Definition processRaftLinearizedRead (c : choice) (s : Raft) : outcome :=
  match phase s, c with
  | Top, Proceed =>
      let '(g, nextID) := Next (idGenerator s) in
      Step (set_phase (Idle (leaderChangeNotifier s) nextID) (set_ids g s))
  | Idle lch id, Close => if closer s then Step (set_phase Stopped s) else Disabled
  | Idle lch id, LeaderChanged => if closed_by (leaderChangeNotifier s) lch then Step (set_phase Top s) else Disabled
  | Signalled lch id, Proceed =>
      let '(e, old) := Swap (linearizeReqNotifier s) in Step (set_phase (Asking lch id old) (set_signals e s))
  | Asking lch id old, Ask answer =>
      let '(s, err) := raftReadIndexRequest answer (write_ctx id s) in
      match err with
      | Some e => request_failed old e s
      | None => Step (set_phase (Awaiting lch (firstCommitInTermNotifier s) id old) s)
      end
  | Awaiting lch fch id old, _ => readIndexResponse lch fch id old c s
  | Answered index old, Proceed =>
      if decide (appliedIndex s < index) then Step (set_phase (Acquiring index old) s) else finish_round old None s
  | Acquiring index old, Proceed =>
      let '(c, ch) := AcquireCompletionChan index (completionReplier s) in
      Step (set_phase (Blocked index ch old) (set_completion c s))
  | Blocked index ch old, Completed =>
      if decide (ch ∈ closed (completionReplier s)) then finish_round old None s else Disabled
  | Blocked index ch old, Close => if closer s then Step (set_phase Stopped s) else Disabled
  | _, _ => Disabled
  end.

(** [LinearizableRead]: the call takes the current signal, offers to wake the loop, which
    takes the offer only while it is in its first [select], and waits for the signal. *)
Definition set_pc (r : nat) (pc : ReadPc) (s : Raft) : Raft :=
  set_readers (alter (fun rd => {| r_from := r_from rd; r_pc := pc |}) r (readers s)) s.

Inductive read_choice := Begin | Offer | Take | CtxDone | Closed.

Definition LinearizableRead (r : nat) (c : read_choice) (s : Raft) : outcome :=
  match readers s !! r, c with
  | None, Begin => Step (set_readers (<[r := {| r_from := committed s; r_pc := Has (Current (linearizeReqNotifier s)) |}]> (readers s)) s)
  | Some {| r_pc := Has n |}, Offer =>
      let s := set_pc r (Waits n) s in
      Step (match phase s with Idle lch id => set_phase (Signalled lch id) s | _ => s end)
  | Some {| r_pc := Waits n |}, Take =>
      match errs (linearizeReqNotifier s) !! n with Some err => Step (set_pc r (Returned err) s) | None => Disabled end
  | Some {| r_pc := Has _ |}, CtxDone | Some {| r_pc := Waits _ |}, CtxDone => Step (set_pc r (Returned (Some (Sentinel "context"))) s)
  | Some {| r_pc := Has _ |}, Closed | Some {| r_pc := Waits _ |}, Closed =>
      if closer s then Step (set_pc r (Returned (Some ErrStopped)) s) else Disabled
  | _, _ => Disabled
  end.

(** ** The rest of the node *)

(** The cluster commits, the apply loop sets the applied index and then marks it completed,
    the leader or the term changes, the node is closed, and identifiers are taken for
    proposals. *)
Inductive other := Commit (k : Z) | Apply (k : Z) | Mark | NewLeader | FirstInTerm | CloseNode | TakeId | Arrive.

(** Raft gets to a request and reads the bytes that are in the buffer then. *)
Definition read_request (s : Raft) : gmap Z Z :=
  match asked s !! readCtx s with Some _ => asked s | None => <[readCtx s := committed s]> (asked s) end.
Definition arrive (s : Raft) : outcome :=
  match sent s with O => Disabled | S k => Step (set_requests (readCtx s) k (read_request s) s) end.

Definition elsewhere (x : other) (s : Raft) : outcome :=
  let s' ids leader first comp app cl com := Step
    {| idGenerator := ids; linearizeReqNotifier := linearizeReqNotifier s; leaderChangeNotifier := leader;
       firstCommitInTermNotifier := first; completionReplier := comp; appliedIndex := app; closer := cl;
       phase := phase s; readers := readers s; readCtx := readCtx s; sent := sent s; committed := com; asked := asked s |} in
  let ids := idGenerator s in let leader := leaderChangeNotifier s in let first := firstCommitInTermNotifier s in
  let comp := completionReplier s in let app := appliedIndex s in let cl := closer s in let com := committed s in
  match x with
  | Commit k => s' ids leader first comp app cl k
  | Apply k => s' ids leader first comp k cl com
  | Mark => s' ids leader first (MarkCompleted app comp) app cl com
  | NewLeader => s' ids (Reset leader) first comp app cl com
  | FirstInTerm => s' ids leader (Reset first) comp app cl com
  | CloseNode => s' ids leader first comp app true com
  | TakeId => s' (Next ids).1 leader first comp app cl com
  | Arrive => arrive s
  end.

Inductive event := Reads (r : nat) (c : read_choice) | Loops (c : choice) | Elsewhere (x : other).

Definition exec (ev : event) (s : Raft) : outcome :=
  match ev with
  | Reads r c => LinearizableRead r c s
  | Loops c => processRaftLinearizedRead c s
  | Elsewhere x => elsewhere x s
  end.

Fixpoint execs (evs : list event) (s : Raft) : outcome :=
  match evs with
  | [] => Step s
  | ev :: evs => match exec ev s with Step s => execs evs s | r => r end
  end.

(** What is relied on of raft: the commit index and the index of the applied entries do not go
    back, and a [ReadState] answers a request raft has read, of whatever round, with an index at
    least the commit index of that time. *)
Definition lawful (ev : event) (s : Raft) : Prop :=
  match ev with
  | Loops (ReadState ctx index) => ∃ a, asked s !! key_of ctx = Some a ∧ a <= index
  | Elsewhere (Commit k) => committed s <= k
  | Elsewhere (Apply k) => appliedIndex s <= k
  | _ => True
  end.

(** An answer with the buffer is one to a request of the round under way. *)
Definition timely (ev : event) (s : Raft) : Prop :=
  match ev with
  | Loops (ReadState (Shared key) _) => key = readCtx s
  | _ => True
  end.

(** A condition holds at every event of a run. *)
Fixpoint along (P : event → Raft → Prop) (evs : list event) (s : Raft) : Prop :=
  match evs with
  | [] => True
  | ev :: evs => P ev s ∧ match exec ev s with Step s => along P evs s | _ => True end
  end.
Abbreviation lawful_run := (along lawful).
Abbreviation timely_run := (along timely).

(** ** Identifiers do not repeat *)

(** The identifier of the [k]-th call after [seed]. *)
Definition nth_id (peerID seed k : Z) : Z :=
  Z.lor (Z.shiftl ((seed + k) mod 2 ^ 51) 12) (Z.land peerID memberBitsMask).

Lemma Next_nth peerID seed k :
  Next {| seqNum := u64 (seed + k); ri_peerID := Z.land peerID memberBitsMask |}
    = ({| seqNum := u64 (seed + (k + 1)); ri_peerID := Z.land peerID memberBitsMask |}, nth_id peerID seed (k + 1)).
Proof.
  unfold Next, nth_id. cbn [seqNum ri_peerID]. assert (u64 (u64 (seed + k) + 1) = u64 (seed + (k + 1))) as ->.
  { unfold u64. rewrite Zplus_mod_idemp_l. f_equal. lia. }
  f_equal. f_equal. unfold sequenceBitsMask, memberBits, sequenceNumBits. rewrite Z.land_ones by lia.
  assert (u64 (seed + (k + 1)) mod 2 ^ 51 = (seed + (k + 1)) mod 2 ^ 51) as ->.
  { unfold u64. rewrite (Z.mod_mod_divide _ (2 ^ 64) (2 ^ 51)); [done|]. by exists (2 ^ 13). }
  apply u64_small. rewrite Z.shiftl_mul_pow2 by lia. pose proof (Z.mod_pos_bound (seed + (k + 1)) (2 ^ 51)). lia.
Qed.

Lemma nth_id_inj peerID seed j k :
  0 <= k - j < 2 ^ 51 → nth_id peerID seed j = nth_id peerID seed k → j = k.
Proof.
  intros Hd E. assert (∀ n, Z.shiftr (nth_id peerID seed n) 12 = (seed + n) mod 2 ^ 51) as Hs.
  { intros n. unfold nth_id. rewrite Z.shiftr_lor, Z.shiftr_shiftl_l, Z.sub_diag, Z.shiftl_0_r by lia.
    assert (Z.shiftr (Z.land peerID memberBitsMask) 12 = 0) as ->; [|apply Z.lor_0_r].
    unfold memberBitsMask, memberBits. rewrite Z.land_ones, Z.shiftr_div_pow2 by lia. apply Z.div_small.
    apply Z.mod_pos_bound. lia. }
  apply (f_equal (fun x => Z.shiftr x 12)) in E. rewrite !Hs in E.
  assert ((k - j) mod 2 ^ 51 = 0) as H0.
  { replace (k - j) with ((seed + k) - (seed + j)) by lia. rewrite Zminus_mod, E, Z.sub_diag. done. }
  rewrite Z.mod_small in H0 by lia. lia.
Qed.

(** ** The invariant *)

Section Safety.
Context (peerID seed : Z) (seed_ok : is_u64 seed).

Definition phase_old (p : Phase) : option nat :=
  match p with
  | Top | Idle _ _ | Signalled _ _ | Stopped => None
  | Asking _ _ old | Awaiting _ _ _ old | Answered _ old | Acquiring _ old | Blocked _ _ old => Some old
  end.

(** What the round promises to the reads that wait for its signal. *)
Definition promised (s : Raft) (c : Z) : Prop :=
  match phase s with
  | Asking _ _ _ => c <= committed s
  | Awaiting _ _ id _ => c <= committed s ∧ ∀ a, asked s !! id = Some a → c <= a
  | Answered index _ | Acquiring index _ | Blocked index _ _ => c <= index
  | _ => True
  end.

(** A read from [c] that waits for signal [m]. *)
Record covered (s : Raft) (m : nat) (c : Z) : Prop := {
  cv_le : (m <= cw (linearizeReqNotifier s))%nat;
  cv_current : m = cw (linearizeReqNotifier s) → c <= committed s;
  cv_done : errs (linearizeReqNotifier s) !! m = Some None → c <= appliedIndex s;
  cv_round : phase_old (phase s) = Some m → promised s c
}.

Definition reader_ok (s : Raft) (rd : Reader) : Prop :=
  match r_pc rd with
  | Has m | Waits m => covered s m (r_from rd)
  | Returned None => r_from rd <= appliedIndex s
  | Returned (Some _) => True
  end.

(** The identifier of a round is new to raft and to the buffer until the loop writes it there. *)
Definition unknown (id : Z) (s : Raft) : Prop := asked s !! id = None ∧ (sent s = O ∨ readCtx s ≠ id).
Definition fresh_round (s : Raft) : Prop :=
  match phase s with
  | Idle _ id | Signalled _ id | Asking _ id _ => unknown id s
  | Awaiting _ _ id _ => readCtx s = id
  | _ => True
  end.
Definition phase_id (p : Phase) : option Z :=
  match p with Idle _ id | Signalled _ id | Asking _ id _ | Awaiting _ _ id _ => Some id | _ => None end.

Record ids_ok (n : Z) (s : Raft) : Prop := {
  io_gen : ∃ k, 0 <= k <= n ∧ idGenerator s = {| seqNum := u64 (seed + k); ri_peerID := Z.land peerID memberBitsMask |} ∧
    (∀ id, is_Some (asked s !! id) ∨ phase_id (phase s) = Some id ∨ (sent s ≠ O ∧ readCtx s = id) → ∃ j, 0 < j <= k ∧ id = nth_id peerID seed j);
  io_fresh : fresh_round s
}.

Record signals_ok (s : Raft) : Prop := {
  so_done m : is_Some (errs (linearizeReqNotifier s) !! m) → (m < cw (linearizeReqNotifier s))%nat;
  so_old o : phase_old (phase s) = Some o → (o < cw (linearizeReqNotifier s))%nat ∧ errs (linearizeReqNotifier s) !! o = None
}.

Record completion_ok (c : Completion) (applied : Z) : Prop := {
  co_live k ch : completions c !! k = Some ch → (ch < next_chan c)%nat ∧ ch ∉ closed c;
  co_inj k1 k2 ch : completions c !! k1 = Some ch → completions c !! k2 = Some ch → k1 = k2;
  co_closed ch : ch ∈ closed c → (ch < next_chan c)%nat;
  co_last : lastCompletedID c <= applied
}.

Definition blocked_ok (s : Raft) : Prop :=
  match phase s with
  | Blocked index ch _ => completions (completionReplier s) !! index = Some ch ∨ index <= appliedIndex s
  | _ => True
  end.

Record inv (n : Z) (s : Raft) : Prop := {
  in_ids : ids_ok n s;
  in_signals : signals_ok s;
  in_completion : completion_ok (completionReplier s) (appliedIndex s);
  in_blocked : blocked_ok s;
  in_readers r rd : readers s !! r = Some rd → reader_ok s rd
}.

Lemma init_inv : inv 0 (NewRaft peerID seed).
Proof.
  constructor.
  - constructor; [|done]. exists 0. split; [lia|]. split; [simpl; unfold New; by rewrite Z.add_0_r, u64_small|].
    by intros id [[x Hx]|[Hp|[? _]]].
  - constructor; [|done]. by intros m [x Hx].
  - constructor; simpl; [done|done| |lia]. intros ch ->%elem_of_singleton. lia.
  - done.
  - done.
Qed.

(** ** Completions *)

Lemma Acquire_spec id c applied :
  completion_ok c applied →
  let '(c', ch) := AcquireCompletionChan id c in
  completion_ok c' applied ∧ (completions c' !! id = Some ch ∨ id <= applied) ∧
  (∀ k ch', completions c !! k = Some ch' → completions c' !! k = Some ch').
Proof.
  intros Hc. unfold AcquireCompletionChan. case_decide as Hle.
  { split_and!; [done|right; pose proof (co_last _ _ Hc); lia|done]. }
  destruct (completions c !! id) as [ch|] eqn:E; [by split_and!; [|left|]|]. destruct Hc as [Hl Hi Hcl Hla].
  split_and!; [|left; apply lookup_insert_eq|].
  - constructor; simpl; [| | |done].
    + intros k ch [[<- <-]|[_ Hk]]%lookup_insert_Some.
      * split; [lia|]. intros ?%Hcl. lia.
      * destruct (Hl k ch Hk). split; [lia|done].
    + intros k1 k2 ch [[<- <-]|[? H1]]%lookup_insert_Some [[<- E2]|[? H2]]%lookup_insert_Some; [done| | |by eapply Hi].
      * destruct (Hl k2 _ H2). lia.
      * subst. destruct (Hl k1 _ H1). lia.
    + intros ch ?%Hcl. lia.
  - intros k ch' Hk. simpl. rewrite lookup_insert_ne; [done|]. intros <-. congruence.
Qed.

Lemma Mark_spec c applied :
  completion_ok c applied →
  completion_ok (MarkCompleted applied c) applied ∧
  (∀ k ch, completions c !! k = Some ch → completions (MarkCompleted applied c) !! k = Some ch ∨ k <= applied).
Proof.
  intros [Hl Hi Hcl Hla]. split.
  - constructor; simpl; [| | |lia].
    + intros k ch [Hk Hn]%map_lookup_filter_Some. destruct (Hl k ch Hk) as [? Hnc]. split; [done|].
      intros [Hin|?]%elem_of_union; [|done]. apply elem_of_list_to_set, list_elem_of_fmap in Hin as ([k' ch'] & -> & Hin).
      apply elem_of_map_to_list in Hin. simpl in *. apply map_lookup_filter_Some in Hin as [Hk' Hle].
      apply Hn. by rewrite (Hi k k' ch').
    + intros k1 k2 ch [H1 _]%map_lookup_filter_Some [H2 _]%map_lookup_filter_Some. by eapply Hi.
    + intros ch [Hin|?%Hcl]%elem_of_union; [|done]. apply elem_of_list_to_set, list_elem_of_fmap in Hin as ([k' ch'] & -> & Hin).
      apply elem_of_map_to_list, map_lookup_filter_Some in Hin as [Hk' _]. simpl. by apply (Hl k').
  - intros k ch Hk. simpl. destruct (decide (k <= applied)); [by right|left]. by apply map_lookup_filter_Some.
Qed.

(** ** Steps *)

(** A step that leaves the signals, the phase and the identifiers of requests alone. *)
Record grows (s s' : Raft) : Prop := {
  gr_signals : linearizeReqNotifier s' = linearizeReqNotifier s;
  gr_phase : phase s' = phase s;
  gr_committed : committed s <= committed s';
  gr_applied : appliedIndex s <= appliedIndex s';
  gr_asked id a : asked s' !! id = Some a → asked s !! id = Some a ∨ committed s <= a
}.

Ltac solve_grows := constructor; simpl; try done; try lia; intros; by left.

Lemma covered_grows s s' m c : grows s s' → covered s m c → covered s' m c.
Proof.
  intros [Hs Hp Hc Ha Hq] [Hle Hcur Hdone Hround]. constructor; rewrite ?Hs, ?Hp; [done|..].
  - intros E. specialize (Hcur E). lia.
  - intros E. specialize (Hdone E). lia.
  - intros E. specialize (Hround E). unfold promised in *. rewrite Hp. destruct (phase s); try done; [lia|].
    destruct Hround as [? Hid]. split; [lia|]. intros a [?|?]%Hq; [by apply Hid|lia].
Qed.

Lemma reader_grows s s' rd : grows s s' → reader_ok s rd → reader_ok s' rd.
Proof.
  intros Hg. unfold reader_ok. destruct (r_pc rd) as [m|m|[e|]]; [by apply covered_grows..|done|].
  pose proof (gr_applied _ _ Hg). lia.
Qed.

Lemma signals_grows s s' : grows s s' → signals_ok s → signals_ok s'.
Proof. intros [Hs Hp _ _ _] [Hd Ho]. constructor; rewrite ?Hs, ?Hp; done. Qed.

Lemma ids_weaken n s s' :
  idGenerator s' = idGenerator s → phase s' = phase s → asked s' = asked s → sent s' = sent s → readCtx s' = readCtx s →
  ids_ok n s → ids_ok (n + 1) s'.
Proof.
  intros Hi Hp Ha Hn Hc [(k & Hk & Hg & Hall) Hf]. constructor.
  - exists k. rewrite Hi, Hp, Ha, Hn, Hc. split; [lia|]. by split.
  - unfold fresh_round, unknown in *. by rewrite Hp, Ha, Hn, Hc.
Qed.

Lemma inv_weaken n s : inv n s → inv (n + 1) s.
Proof. intros [Hids Hsig Hcom Hb Hr]. constructor; [by apply (ids_weaken n s)|done..]. Qed.

(** Raft reads a request. *)
Lemma arrive_inv n s s' : inv n s → arrive s = Step s' → inv n s'.
Proof.
  intros [[(k & Hk & Hg & Hall) Hf] Hsig Hcom Hb Hr]. unfold arrive. destruct (sent s) as [|j] eqn:Hs; [done|]. intros [= <-].
  assert (grows s (set_requests (readCtx s) j (read_request s) s)) as Hgr.
  { constructor; simpl; [done..|]. intros id a. unfold read_request. destruct (asked s !! readCtx s); [by left|].
    intros [[_ <-]|[_ ?]]%lookup_insert_Some; [by right|by left]. }
  constructor; [|by apply (signals_grows s)|done|done|intros r rd ?%Hr; by eapply reader_grows].
  assert (∀ id, is_Some (read_request s !! id) → is_Some (asked s !! id) ∨ readCtx s = id) as Hin.
  { intros id. unfold read_request. destruct (asked s !! readCtx s); [by left|].
    intros [a [[<- _]|[_ ?]]%lookup_insert_Some]; [by right|left; by exists a]. }
  constructor.
  - exists k. split; [done|]. split; [done|]. simpl. intros id [[?|<-]%Hin|[?|[_ <-]]]; apply Hall; auto.
  - unfold fresh_round, unknown in *. simpl. destruct (phase s); try done.
    all: destruct Hf as [Hnone [?|Hne]]; [congruence|].
    all: split; [|by right]; apply eq_None_not_Some; intros [[x Hx]|?]%Hin; congruence.
Qed.
(** A request is lost on its way. *)
Lemma lose_inv n s k : inv n s → sent s = S k → inv n (set_requests (readCtx s) k (asked s) s).
Proof.
  intros [[(j & Hj & Hg & Hall) Hf] Hsig Hcom Hb Hr] Hs. assert (grows s (set_requests (readCtx s) k (asked s) s)) as Hgr by solve_grows.
  constructor; [|by apply (signals_grows s)|done|done|intros r rd ?%Hr; by eapply reader_grows]. constructor.
  - exists j. split; [done|]. split; [done|]. simpl. intros id [?|[?|[_ ?]]]; apply Hall; [by left|by right; left|right; right; split; [lia|done]].
  - unfold fresh_round, unknown in *. simpl. destruct (phase s); try done; destruct Hf as [Hnone [?|Hne]]; try congruence; (split; [done|by right]).
Qed.

Lemma elsewhere_inv n s x s' : inv n s → lawful (Elsewhere x) s → elsewhere x s = Step s' → inv (n + 1) s'.
Proof.
  intros Hinv Hlaw E. pose proof Hinv as [Hids Hsig Hcom Hb Hr].
  assert (∀ s', grows s s' → readers s' = readers s → ids_ok (n + 1) s' → completion_ok (completionReplier s') (appliedIndex s') →
    blocked_ok s' → inv (n + 1) s') as Hmk.
  { intros t Hg Hrd Hi Hc Hbl. constructor; [done|by apply (signals_grows s)|done|done|].
    intros r rd. rewrite Hrd. intros ?%Hr. by eapply reader_grows. }
  pose proof Hcom as [Hl Hi Hcl Hla]. unfold elsewhere in E. cbv zeta in E.
  destruct x; [injection E as <-; simpl in Hlaw..|by apply inv_weaken; eapply arrive_inv].
  - apply Hmk; [solve_grows|done|by apply (ids_weaken n s)|done|done].
  - apply Hmk; [solve_grows|done|by apply (ids_weaken n s)| |].
    + constructor; simpl; [done..|lia].
    + unfold blocked_ok in *. simpl. destruct (phase s); try done. destruct Hb; [by left|right; lia].
  - destruct (Mark_spec (completionReplier s) (appliedIndex s) Hcom) as [Hm1 Hm2].
    apply Hmk; [solve_grows|done|by apply (ids_weaken n s)|done|].
    unfold blocked_ok in *. simpl in *. destruct (phase s); try done. destruct Hb as [Hb|Hb]; [|by right]. by apply Hm2.
  - apply Hmk; [solve_grows|done|by apply (ids_weaken n s)|done|done].
  - apply Hmk; [solve_grows|done|by apply (ids_weaken n s)|done|done].
  - apply Hmk; [solve_grows|done|by apply (ids_weaken n s)|done|done].
  - apply Hmk; [solve_grows|done| |done|done]. destruct Hids as [(k & Hk & Hg & Hall) Hf]. constructor; [|done].
    exists (k + 1). split; [lia|]. pose proof (f_equal fst (Next_nth peerID seed k)) as HN. rewrite <- Hg in HN. split; [exact HN|].
    intros id Hid. destruct (Hall id Hid) as (j & ? & ->). exists j. split; [lia|done].
Qed.

(** Readers *)
Lemma set_pc_inv n s r rd pc :
  inv n s → readers s !! r = Some rd → reader_ok s {| r_from := r_from rd; r_pc := pc |} → inv (n + 1) (set_pc r pc s).
Proof.
  intros [Hids Hsig Hcom Hb Hr] Hrd Hok. assert (grows s (set_pc r pc s)) as Hg by solve_grows.
  constructor; [by apply (ids_weaken n s)|by apply (signals_grows s)|done|done|]. simpl. intros r' rd' Hr'. eapply reader_grows; [done|].
  destruct (decide (r' = r)) as [->|Hne].
  - rewrite lookup_alter_eq, Hrd in Hr'. by injection Hr' as <-.
  - rewrite lookup_alter_ne in Hr' by done. by apply (Hr r').
Qed.

Lemma wake_inv n s lch id : inv n s → phase s = Idle lch id → inv n (set_phase (Signalled lch id) s).
Proof.
  intros [[Hk Hf] [Hd Ho] Hcom Hb Hr] Hp. constructor; [..|].
  - constructor; [|by unfold fresh_round in *; rewrite Hp in Hf]. destruct Hk as (k & Hk & Hg & Hall). exists k. split_and!; [lia|lia|done|].
    simpl. intros id' Hid'. apply Hall. rewrite Hp. done.
  - constructor; [done|]. done.
  - done.
  - done.
  - simpl. intros r rd Hrd. specialize (Hr r rd Hrd). unfold reader_ok in *.
    assert (∀ m c, covered s m c → covered (set_phase (Signalled lch id) s) m c) as Hcv; [|destruct (r_pc rd) as [m|m|[e|]]; auto].
    intros m c [? ? ? ?]. by constructor.
Qed.

Lemma read_inv n s r c s' : inv n s → LinearizableRead r c s = Step s' → inv (n + 1) s'.
Proof.
  intros Hi. unfold LinearizableRead. destruct (readers s !! r) as [rd|] eqn:Hrd.
  - pose proof (in_readers _ _ Hi r rd Hrd) as Hok. destruct rd as [from [m|m|err]]; unfold reader_ok in Hok; simpl in Hok.
    + destruct c; try done.
      * pose proof (set_pc_inv n s r _ (Waits m) Hi Hrd Hok) as Hi'. intros E.
        assert (s' = match phase s with Idle lch id => set_phase (Signalled lch id) (set_pc r (Waits m) s) | _ => set_pc r (Waits m) s end) as ->
          by by injection E as <-.
        destruct (phase s) eqn:Ep; try exact Hi'. by apply wake_inv.
      * intros [= <-]. by eapply set_pc_inv.
      * destruct (closer s); [|done]. intros [= <-]. by eapply set_pc_inv.
    + destruct c; try done.
      * destruct (errs (linearizeReqNotifier s) !! m) as [err|] eqn:Ee; [|done]. intros [= <-]. eapply set_pc_inv; [done..|].
        unfold reader_ok. simpl. destruct err; [done|]. by apply (cv_done _ _ _ Hok).
      * intros [= <-]. by eapply set_pc_inv.
      * destruct (closer s); [|done]. intros [= <-]. by eapply set_pc_inv.
    + by destruct c.
  - destruct c; try done. intros [= <-]. destruct Hi as [Hids Hsig Hcom Hb Hr].
    constructor; [by apply (ids_weaken n s)|by apply (signals_grows s); [solve_grows|]|done|done|].
    simpl. intros r' rd' [[<- <-]|[_ Hr']]%lookup_insert_Some.
    + unfold reader_ok. simpl. constructor; simpl; [done|done| |].
      * intros E. assert (Current (linearizeReqNotifier s) < cw (linearizeReqNotifier s))%nat; [|unfold Current in *; lia].
        apply (so_done _ Hsig). by eexists.
      * intros E. destruct (so_old _ Hsig _ E). unfold Current in *. lia.
    + eapply reader_grows; [|by apply (Hr r')]. solve_grows.
Qed.

(** The loop *)

(** A phase without a round. *)
Lemma leave_inv n s p :
  inv n s → phase_old p = None → phase_id p = None → inv n (set_phase p s).
Proof.
  intros [[(k & Hk & Hg & Hall) Hf] [Hd Ho] Hcom Hb Hr] Hold Hid. constructor.
  - constructor.
    + exists k. split; [done|]. split; [done|]. simpl. intros id [Ha|[Hp|Hp]]; [apply Hall; by left|congruence|apply Hall; by right; right].
    + unfold fresh_round. simpl. by destruct p.
  - constructor; [done|]. simpl. congruence.
  - done.
  - unfold blocked_ok. simpl. by destruct p.
  - intros r rd Hrd. specialize (Hr r rd Hrd). unfold reader_ok in *.
    assert (∀ m c, covered s m c → covered (set_phase p s) m c) as Hcv; [|destruct (r_pc rd) as [m|m|[e|]]; auto].
    intros m c [? ? ? ?]. constructor; [done..|]. simpl. congruence.
Qed.

Lemma finish_ok n s old err :
  inv n s → phase_old (phase s) = Some old → (err = None → ∀ c, promised s c → c <= appliedIndex s) →
  ∃ s', finish_round old err s = Step s' ∧ inv n s'.
Proof.
  intros Hi Hold Herr. pose proof Hi as [Hids [Hd Ho] Hcom Hb Hr]. destruct (Ho old Hold) as [Hlt Hnone].
  unfold finish_round, CompleteWith. rewrite Hnone. eexists. split; [done|].
  destruct (leave_inv n s Top Hi eq_refl eq_refl) as [Hids' _ _ _ _]. constructor; [|constructor; [|done]|done|done|].
  - destruct Hids' as [Hk Hf]. by constructor.
  - simpl. intros m [x [[<- _]|[_ Hm]]%lookup_insert_Some]; [done|]. apply Hd. by eexists.
  - intros r rd Hrd. specialize (Hr r rd Hrd). unfold reader_ok in *.
    destruct (r_pc rd) as [m|m|[e|]]; [| |done|done].
    all: destruct Hr as [Hle Hcur Hdone Hround]; constructor; [done|done| |done].
    all: simpl; intros [[<- ->]|[_ Hm]]%lookup_insert_Some; [apply Herr; [done|by apply Hround]|by apply Hdone].
Qed.

Lemma ask_grows s answer s' err : raftReadIndexRequest answer s = (s', err) → grows s s'.
Proof. unfold raftReadIndexRequest. destruct answer; intros [= <- _]; solve_grows. Qed.

(** Asking once more. *)
Lemma ask_inv n s lch fch id old answer s' err :
  inv n s → phase s = Awaiting lch fch id old → raftReadIndexRequest answer s = (s', err) → inv n s'.
Proof.
  intros Hinv Hp E. pose proof Hinv as [Hids Hsig Hcom Hb Hr]. pose proof (ask_grows _ _ _ _ E) as Hg.
  unfold raftReadIndexRequest in E. destruct answer; [by injection E as <- _|]. injection E as <- _.
  constructor; [|by apply (signals_grows s)|done|done|].
  - destruct Hids as [(k & Hk & Hgen & Hall) Hf]. unfold fresh_round in Hf. rewrite Hp in *. constructor.
    + exists k. split; [done|]. split; [done|]. simpl. rewrite Hp. intros id' [Ha|[Hp'|[_ <-]]]; apply Hall; [by left|by right; left|].
      right. left. simpl. by rewrite Hf.
    + unfold fresh_round. simpl. by rewrite Hp.
  - intros r rd Hrd. eapply reader_grows; [exact Hg|]. by apply (Hr r).
Qed.

(** The loop writes the identifier of the round into the buffer. *)
Lemma write_inv n s lch id old p : inv n s → phase s = Asking lch id old → phase_old p = None → phase_id p = None → inv n (set_phase p (write_ctx id s)).
Proof.
  intros [[(k & Hk & Hgen & Hall) Hf] [Hd Ho] Hcom Hb Hr] Hp Hold Hid. rewrite Hp in *. constructor.
  - constructor; [|unfold fresh_round; simpl; by destruct p]. exists k. split; [done|]. split; [done|]. simpl. rewrite Hid.
    intros id' [Ha|[?|[_ <-]]]; [apply Hall; by left|done|apply Hall; by right; left].
  - constructor; [done|]. simpl. congruence.
  - done.
  - unfold blocked_ok. simpl. by destruct p.
  - intros r rd Hrd. specialize (Hr r rd Hrd). unfold reader_ok in *. destruct (r_pc rd) as [m|m|[e|]]; [| |done|done].
    all: destruct Hr as [Hle Hcur Hdone Hround]; constructor; [done..|]; simpl; congruence.
Qed.

(** A signal is completed with an error while no round is under way. *)
Lemma complete_inv n s old e : inv n s → phase_old (phase s) = None → (old < cw (linearizeReqNotifier s))%nat →
  inv n (set_signals {| cw := cw (linearizeReqNotifier s); errs := <[old := Some e]> (errs (linearizeReqNotifier s)) |} s).
Proof.
  intros [[Hk Hf] [Hd Ho] Hcom Hb Hr] Hold Hlt. constructor; [by constructor|constructor; [|simpl; congruence]|done|done|].
  - simpl. intros m [x [[<- _]|[_ Hm]]%lookup_insert_Some]; [done|]. apply Hd. by eexists.
  - intros r rd Hrd. specialize (Hr r rd Hrd). unfold reader_ok in *. destruct (r_pc rd) as [m|m|[e'|]]; [| |done|done].
    all: destruct Hr as [Hle Hcur Hdone Hround]; constructor; [done|done| |simpl; congruence].
    all: simpl; intros [[_ ?]|[_ Hm]]%lookup_insert_Some; [done|by apply Hdone].
Qed.

(** Asking for the first time. *)
Lemma first_ask_inv n s lch id old fch :
  inv n s → phase s = Asking lch id old →
  inv n (set_phase (Awaiting lch fch id old) (raftReadIndexRequest None (write_ctx id s)).1).
Proof.
  intros [[(k & Hk & Hgen & Hall) Hf] [Hd Ho] Hcom Hb Hr] Hp. unfold fresh_round in Hf. rewrite Hp in *. destruct Hf as [Hf _]. simpl in Ho, Hall.
  constructor.
  - constructor; [|done]. exists k. split; [done|]. split; [done|]. simpl.
    intros id' [Ha|[Hid|[_ <-]]]; [apply Hall; by left|apply Hall; by right; left|apply Hall; by right; left].
  - by constructor.
  - done.
  - done.
  - simpl. intros r rd Hrd. specialize (Hr r rd Hrd). unfold reader_ok in *. destruct (r_pc rd) as [m|m|[e|]]; [| |done|done].
    all: destruct Hr as [Hle Hcur Hdone Hround]; constructor; [done..|]; simpl; rewrite Hp in Hround; intros E.
    all: specialize (Hround E); unfold promised in *; rewrite Hp in Hround; simpl; rewrite Hf; by split.
Qed.

(** The round goes on. *)
Lemma round_inv n s p :
  inv n s → phase_old p = phase_old (phase s) → phase_id p = None →
  (∀ c, promised s c → promised (set_phase p s) c) → blocked_ok (set_phase p s) → inv n (set_phase p s).
Proof.
  intros [[(k & Hk & Hg & Hall) Hf] [Hd Ho] Hcom Hb Hr] Hold Hid Hprom Hbl. constructor; [|constructor; [done|]|done|done|].
  - constructor.
    + exists k. split; [done|]. split; [done|]. simpl. intros id [Ha|[Hp|Hp]]; [apply Hall; by left|congruence|apply Hall; by right; right].
    + unfold fresh_round. simpl. by destruct p.
  - simpl. rewrite Hold. apply Ho.
  - intros r rd Hrd. specialize (Hr r rd Hrd). unfold reader_ok in *.
    assert (∀ m c, covered s m c → covered (set_phase p s) m c) as Hcv; [|destruct (r_pc rd) as [m|m|[e|]]; auto].
    intros m c [? ? ? Hround]. constructor; [done..|]. simpl. rewrite Hold. intros E. by apply Hprom, Hround.
Qed.

(** A new round takes an identifier no request had. *)
Lemma top_inv n s :
  inv n s → n + 1 < 2 ^ 51 → phase s = Top →
  let '(g, id) := Next (idGenerator s) in inv (n + 1) (set_phase (Idle (leaderChangeNotifier s) id) (set_ids g s)).
Proof.
  intros [[(k & Hk & Hg & Hall) Hf] [Hd Ho] Hcom Hb Hr] Hn Hp. rewrite Hg, Next_nth. constructor.
  - constructor.
    + exists (k + 1). split; [lia|]. split; [done|]. simpl. intros id [Ha|[[= <-]|Ha]].
      * destruct (Hall id) as (j & ? & ->); [by left|]. exists j. split; [lia|done].
      * exists (k + 1). split; [lia|done].
      * destruct (Hall id) as (j & ? & ->); [by right; right|]. exists j. split; [lia|done].
    + assert (∀ id, is_Some (asked s !! id) ∨ (sent s ≠ O ∧ readCtx s = id) → id ≠ nth_id peerID seed (k + 1)) as Hnew.
      { intros id Ha E. destruct (Hall id) as (j & Hj & E'); [destruct Ha; auto|]. rewrite E' in E. apply nth_id_inj in E; lia. }
      unfold fresh_round, unknown. simpl. split; [apply eq_None_not_Some; intros Ha; eapply Hnew; [by left|done]|].
      destruct (sent s) eqn:Es; [by left|right]. apply Hnew. by right.
  - by constructor.
  - done.
  - done.
  - simpl. intros r rd Hrd. specialize (Hr r rd Hrd). unfold reader_ok in *. destruct (r_pc rd) as [m|m|[e|]]; [| |done|done].
    all: destruct Hr as [? ? ? ?]; by constructor.
Qed.

Lemma swap_inv n s lch id :
  inv n s → phase s = Signalled lch id →
  let '(e, old) := Swap (linearizeReqNotifier s) in inv n (set_phase (Asking lch id old) (set_signals e s)).
Proof.
  intros [[(k & Hk & Hg & Hall) Hf] [Hd Ho] Hcom Hb Hr] Hp. simpl. unfold fresh_round in Hf. rewrite Hp in *. constructor.
  - constructor; [|done]. exists k. split; [done|]. by split.
  - constructor; simpl.
    + intros m Hm%Hd. lia.
    + intros o [= <-]. split; [lia|]. apply eq_None_not_Some. intros Hm%Hd. lia.
  - done.
  - done.
  - simpl. intros r rd Hrd. specialize (Hr r rd Hrd). unfold reader_ok in *. destruct (r_pc rd) as [m|m|[e|]]; [| |done|done].
    all: destruct Hr as [Hle Hcur Hdone Hround]; constructor; simpl; [lia|lia|done|].
    all: intros [= <-]; by apply Hcur.
Qed.

Definition good (n : Z) (o : outcome) : Prop :=
  match o with Disabled => True | Crash _ => False | Step s => inv n s end.

Lemma finish_good n s old err :
  inv n s → phase_old (phase s) = Some old → (err = None → ∀ c, promised s c → c <= appliedIndex s) →
  good (n + 1) (finish_round old err s).
Proof. intros Hi Hold Herr. destruct (finish_ok n s old err Hi Hold Herr) as (s' & -> & Hi'). by apply inv_weaken. Qed.

Lemma stop_good n s : inv n s → good (n + 1) (Step (set_phase Stopped s)).
Proof. intros Hi. by apply inv_weaken, leave_inv. Qed.

(** Raft forgets a request it has answered. *)
Lemma answered_phase ctx p s : set_phase p (answered ctx s) = answered ctx (set_phase p s).
Proof. by destruct ctx. Qed.
Lemma answered_inv n s ctx : inv n s → inv n (answered ctx s).
Proof.
  intros Hinv. destruct ctx as [bytes|key]; [done|]. destruct Hinv as [[(k & Hk & Hg & Hall) Hf] Hsig Hcom Hb Hr]. simpl.
  assert (grows s (set_requests (readCtx s) (sent s) (delete key (asked s)) s)) as Hgr.
  { constructor; simpl; [done..|]. intros id a [_ ?]%lookup_delete_Some. by left. }
  constructor; [|by apply (signals_grows s)|done|done|intros r rd ?%Hr; by eapply reader_grows]. constructor.
  - exists k. split; [done|]. split; [done|]. simpl. intros id [[a [_ Ha]%lookup_delete_Some]|?]; apply Hall; [left; by exists a|by right].
  - unfold fresh_round, unknown in *. simpl. destruct (phase s); try done; destruct Hf as [Hnone ?]; (split; [|done]); apply lookup_delete_None; by right.
Qed.

Lemma response_good n s lch fch id old c :
  inv n s → lawful (Loops c) s → timely (Loops c) s → phase s = Awaiting lch fch id old → good (n + 1) (readIndexResponse lch fch id old c s).
Proof.
  intros Hi Hlaw Htime Hp. assert (∀ t, inv n t → phase t = phase s → ∀ e, good (n + 1) (response_failed old e t)) as Hfail.
  { intros t Ht Htp e. unfold response_failed. case_decide; [by apply stop_good|]. apply finish_good; [done|by rewrite Htp, Hp|done]. }
  unfold readIndexResponse. destruct c; try done.
  - destruct (closer s); [by apply stop_good|done].
  - destruct (closed_by _ _); [|done]. apply finish_good; [done|by rewrite Hp|done].
  - destruct (closed_by _ _); [|done]. destruct (raftReadIndexRequest answer s) as [t err] eqn:E.
    pose proof (ask_inv _ _ _ _ _ _ _ _ _ Hi Hp E) as Ht. pose proof (ask_grows _ _ _ _ E) as Hg.
    destruct err; [by apply Hfail; [|apply Hg]|]. cbn [good]. apply inv_weaken.
    assert (phase t = Awaiting lch fch id old) as Hpt by by rewrite (gr_phase _ _ Hg).
    destruct Ht as [[(k & Hk & Hgen & Hall) Hf] [Hd Ho] Hcom Hb Hr]. unfold fresh_round in Hf. rewrite Hpt in Hall, Ho, Hf.
    constructor; [constructor; [by exists k|done]|by constructor|done|done|].
    intros r rd Hrd. specialize (Hr r rd Hrd). unfold reader_ok in *. destruct (r_pc rd) as [m|m|[e|]]; [| |done|done].
    all: destruct Hr as [Hle Hcur Hdone Hround]; constructor; [done..|]; unfold promised in *; rewrite Hpt in Hround; done.
  - destruct (raftReadIndexRequest answer s) as [t err] eqn:E.
    pose proof (ask_inv _ _ _ _ _ _ _ _ _ Hi Hp E) as Ht. pose proof (ask_grows _ _ _ _ E) as Hg.
    destruct err; [by apply Hfail; [|apply Hg]|]. by apply inv_weaken.
  - apply finish_good; [done|by rewrite Hp|done].
  - destruct Hlaw as (a & Ea & Hle). cbn [good]. apply inv_weaken. case_bool_decide as Hid; [|by apply answered_inv].
    rewrite answered_phase. apply answered_inv, round_inv; [done|by rewrite Hp|done| |done].
    pose proof (io_fresh _ _ (in_ids _ _ Hi)) as Hf. unfold fresh_round in Hf. rewrite Hp in Hf.
    assert (key_of ctx = id) as Hk by (destruct ctx; simpl in *; congruence). rewrite Hk in Ea.
    unfold promised. simpl. rewrite Hp. intros c [_ Hc]. specialize (Hc a Ea). lia.
Qed.

Lemma loop_good n s c : inv n s → lawful (Loops c) s → timely (Loops c) s → n + 1 < 2 ^ 51 → good (n + 1) (processRaftLinearizedRead c s).
Proof.
  intros Hi Hlaw Htime Hn. unfold processRaftLinearizedRead. destruct (phase s) as [|lch id|lch id|lch id old|lch fch id old|index old|index old|index ch old|] eqn:Hp.
  - destruct c; try done. pose proof (top_inv n s Hi Hn Hp) as Ht. by destruct (Next (idGenerator s)).
  - destruct c; try done; [destruct (closer s); [by apply stop_good|done]|].
    destruct (closed_by _ _); [|done]. by apply inv_weaken, leave_inv.
  - destruct c; try done. pose proof (swap_inv n s lch id Hi Hp) as Ht. destruct (Swap _). by apply inv_weaken.
  - destruct c; try done. destruct answer as [e|]; cbn.
    + unfold request_failed. case_decide; [by apply inv_weaken, (write_inv n s lch id old)|].
      destruct (so_old _ (in_signals _ _ Hi) old) as [Hlt Hnone]; [by rewrite Hp|].
      unfold finish_round, CompleteWith. simpl. rewrite Hnone. apply inv_weaken.
      apply (complete_inv n (set_phase Top (write_ctx id s)) old e); [by apply (write_inv n s lch id old)|done|done].
    + apply inv_weaken. by apply (first_ask_inv n s).
  - by apply response_good.
  - destruct c; try done. case_decide as Hlt.
    + cbn [good]. apply inv_weaken, round_inv; [done|by rewrite Hp|done| |done]. unfold promised. simpl. by rewrite Hp.
    + apply finish_good; [done|by rewrite Hp|]. intros _ c. unfold promised. rewrite Hp. lia.
  - destruct c; try done. pose proof (Acquire_spec index (completionReplier s) (appliedIndex s) (in_completion _ _ Hi)) as Ha.
    destruct (AcquireCompletionChan index (completionReplier s)) as [c' ch]. destruct Ha as (Hc & Hch & _). cbn [good]. apply inv_weaken.
    assert (inv n (set_phase (Blocked index ch old) (set_completion c' s))) as Hi'; [|done].
    pose proof Hi as [Hids Hsig Hcom Hb Hr]. apply round_inv; [|simpl; by rewrite Hp|done|unfold promised; simpl; by rewrite Hp|done].
    constructor; [by destruct Hids; constructor|by destruct Hsig; constructor|done| |].
    + unfold blocked_ok. simpl. by rewrite Hp.
    + intros r rd Hrd. eapply reader_grows; [|by apply (Hr r)]. solve_grows.
  - destruct c; try done; [destruct (closer s); [by apply stop_good|done]|]. case_decide as Hcl; [|done].
    apply finish_good; [done|by rewrite Hp|]. intros _ c. unfold promised. rewrite Hp. intros Hc.
    pose proof (in_blocked _ _ Hi) as Hb. unfold blocked_ok in Hb. rewrite Hp in Hb. destruct Hb as [Hb|]; [|lia].
    by destruct (co_live _ _ (in_completion _ _ Hi) index ch Hb).
  - by destruct c.
Qed.

Lemma exec_good n s ev : inv n s → lawful ev s → timely ev s → n + 1 < 2 ^ 51 → good (n + 1) (exec ev s).
Proof.
  intros Hi Hlaw Htime Hn. destruct ev as [r c|c|x]; [|by apply loop_good|].
  - cbn [exec]. destruct (LinearizableRead r c s) eqn:E; [done| |by eapply read_inv].
    unfold LinearizableRead in E. repeat case_match; done.
  - cbn [exec]. destruct (elsewhere x s) eqn:E; [done| |by eapply elsewhere_inv].
    destruct x; try done. simpl in E. unfold arrive in E. by destruct (sent s).
Qed.

Lemma execs_good evs : ∀ n s,
  inv n s → lawful_run evs s → timely_run evs s → n + Z.of_nat (length evs) < 2 ^ 51 → good (n + Z.of_nat (length evs)) (execs evs s).
Proof.
  induction evs as [|ev evs IH]; intros n s Hi Hlaw Htime Hn; cbn [execs along length] in *; [by rewrite Z.add_0_r|].
  destruct Hlaw as [Hl Hrest], Htime as [Ht Htrest]. pose proof (exec_good n s ev Hi Hl Ht ltac:(lia)) as Hg.
  destruct (exec ev s) as [| |s']; [done..|]. replace (n + Z.of_nat (S (length evs))) with (n + 1 + Z.of_nat (length evs)) by lia.
  apply IH; [done|done|done|lia].
Qed.
End Safety.

Lemma timely_safe peerID seed evs : is_u64 seed → Z.of_nat (length evs) < 2 ^ 51 →
  lawful_run evs (NewRaft peerID seed) → timely_run evs (NewRaft peerID seed) →
  (∀ why, execs evs (NewRaft peerID seed) ≠ Crash why) ∧
  (∀ s r rd, execs evs (NewRaft peerID seed) = Step s → readers s !! r = Some rd → r_pc rd = Returned None →
     r_from rd <= appliedIndex s).
Proof.
  intros Hseed Hn Hlaw Htime. pose proof (execs_good peerID seed evs 0 _ (init_inv peerID seed Hseed) Hlaw Htime Hn) as Hg. split.
  - intros why E. by rewrite E in Hg.
  - intros s r rd E Hr Hpc. rewrite E in Hg. pose proof (in_readers _ _ _ _ Hg r rd Hr) as Hok. unfold reader_ok in Hok. by rewrite Hpc in Hok.
Qed.

(** ** A read the loop does not hear *)

(** Nothing new for read [r]: no call begins, its context stays, the node is not closed. *)
Definition quiet (r : nat) (ev : event) : Prop :=
  match ev with
  | Reads _ Begin => False
  | Reads r' CtxDone | Reads r' Closed => r' ≠ r
  | _ => True
  end.

(** The loop waits for a wake-up, no call is about to give one, and [r] waits for the
    current signal. *)
Record unheard (r : nat) (rd : Reader) (s : Raft) : Prop := {
  uh_waits : readers s !! r = Some rd ∧ r_pc rd = Waits (Current (linearizeReqNotifier s));
  uh_open : errs (linearizeReqNotifier s) !! Current (linearizeReqNotifier s) = None;
  uh_loop : match phase s with Top | Idle _ _ | Stopped => True | _ => False end;
  uh_offers r' rd' n : readers s !! r' = Some rd' → r_pc rd' ≠ Has n
}.

Lemma unheard_step r rd ev s s' : unheard r rd s → quiet r ev → exec ev s = Step s' → unheard r rd s'.
Proof.
  intros [[Hr Hpc] Hopen Hloop Hoff] Hq E. destruct ev as [r' c|c|x]; cbn [exec] in E.
  - unfold LinearizableRead in E. destruct (readers s !! r') as [[from [m|m|err]]|] eqn:Hr'; [| | |by destruct c].
    + by destruct (Hoff r' _ m Hr').
    + assert (∀ err, r' ≠ r → unheard r rd (set_pc r' (Returned err) s)) as Hother.
      { intros err Hne. constructor; simpl; [|done|done|].
        - by rewrite lookup_alter_ne.
        - intros r2 rd2 n. destruct (decide (r2 = r')) as [->|]; [|rewrite lookup_alter_ne by done; apply Hoff].
          rewrite lookup_alter_eq, Hr'. by intros [= <-]. }
      destruct c; try done.
      * destruct (errs _ !! m) as [err|] eqn:Ee; [|done]. injection E as <-. apply Hother. intros ->. simplify_eq/=.
      * injection E as <-. by apply Hother.
      * destruct (closer s); [|done]. injection E as <-. by apply Hother.
    + by destruct c.
  - unfold processRaftLinearizedRead in E. destruct (phase s) eqn:Hp; try done.
    + destruct c; try done. destruct (Next (idGenerator s)). injection E as <-. by constructor.
    + destruct c; try done; case_match; try done; injection E as <-; by constructor.
  - unfold elsewhere, arrive in E. destruct x; try (destruct (sent s); [done|]); injection E as <-; by constructor.
Qed.

(** A read can be forgotten.  The loop hears a read only while it waits in its first
    [select]: the channel holds nothing, and a read that comes while a round is under way
    finds nobody listening and waits for a signal that no round will complete.  It stays so
    through everything that happens, until another read begins, its context ends or the node
    is closed. *)
Theorem unheard_read_waits r rd evs s s' :
  unheard r rd s → Forall (quiet r) evs → execs evs s = Step s' → readers s' !! r = Some rd.
Proof.
  intros Hu Hq. revert s Hu. induction Hq as [|ev evs Hev Hq IH]; intros s Hu E; cbn [execs] in E.
  - injection E as <-. apply Hu.
  - destruct (exec ev s) as [| |s1] eqn:E1; [done..|]. eapply IH; [|done]. by eapply unheard_step.
Qed.

(** ** When answers are timely *)

(** On a follower: the answers come from another node. *)
Definition follower (ev : event) (s : Raft) : Prop := match ev with Loops (ReadState (Shared _) _) => False | _ => True end.
(** On a leader that gives up no round and repeats no request. *)
Definition steady_leader (ev : event) (s : Raft) : Prop :=
  match ev with
  | Loops (ReadState (Copied _) _) => False
  | Loops (LeaderChanged | FirstCommit _ | RetryTimer _ | RequestTimer) => match phase s with Awaiting _ _ _ _ => False | _ => True end
  | _ => True
  end.

Lemma along_impl (P Q : event → Raft → Prop) evs : (∀ ev s, P ev s → Q ev s) → ∀ s, along P evs s → along Q evs s.
Proof.
  intros Himp. induction evs as [|ev evs IH]; intros s; [done|]. cbn [along]. intros [Hp Hr]. split; [by apply Himp|].
  destruct (exec ev s); [done..|by apply IH].
Qed.
Lemma follower_timely evs s : along follower evs s → timely_run evs s.
Proof. apply along_impl. by intros [|[| | | | | | |[] ?|]|] ?. Qed.

(** At most one request is under way, that of the round. *)
Definition settled (s : Raft) : Prop :=
  match phase s with
  | Awaiting _ _ _ _ | Stopped => sent s = 1%nat ∧ asked s = ∅ ∨ sent s = 0%nat ∧ ∀ k a, asked s !! k = Some a → k = readCtx s
  | _ => sent s = 0%nat ∧ asked s = ∅
  end.
Lemma settled_none s : sent s = 0%nat ∧ asked s = ∅ → settled s.
Proof. unfold settled. intros [Hn Ha]. destruct (phase s); try done; right; (split; [done|]); intros k a; by rewrite Ha, lookup_empty. Qed.
Lemma settled_timely ev s : settled s → lawful ev s → timely ev s.
Proof.
  intros Hs Hl. destruct ev as [|[| | | | | | |[bytes|key] index|]|]; try done. destruct Hl as (a & Ha & _). cbn in *. unfold settled in Hs.
  destruct (phase s).
  all: try (destruct Hs as [_ Hs]; by rewrite Hs, lookup_empty in Ha).
  all: destruct Hs as [[_ Hs]|[_ Hs]]; [by rewrite Hs, lookup_empty in Ha|by eapply Hs].
Qed.
Lemma finish_settled old err s s' : sent s = 0%nat ∧ asked s = ∅ → finish_round old err s = Step s' → settled s'.
Proof. unfold finish_round. intros H. destruct (CompleteWith _ _ _); [|done]. by intros [= <-]. Qed.

Lemma settled_loop c s s' : settled s → lawful (Loops c) s → steady_leader (Loops c) s → processRaftLinearizedRead c s = Step s' → settled s'.
Proof.
  intros Hs Hl Hst. pose proof (settled_timely _ _ Hs Hl) as Ht. unfold processRaftLinearizedRead. unfold settled in Hs.
  destruct (phase s) as [|lch id|lch id|lch id old|lch fch id old|index old|index old|index ch old|] eqn:Hp; destruct c as [| | |answer|answer| |answer|ctx index'|]; try done.
  all: cbn [steady_leader] in Hst; rewrite ?Hp in Hst; try done.
  - destruct (Next _). intros [= <-]. by apply settled_none.
  - destruct (closer s); [|done]. intros [= <-]. by apply settled_none.
  - destruct (closed_by _ _); [|done]. intros [= <-]. by apply settled_none.
  - intros [= <-]. by apply settled_none.
  - destruct Hs as [Hs Ha]. destruct answer as [e|]; cbn.
    + unfold request_failed. case_decide; [intros [= <-]; by apply settled_none|]. intros E. by eapply finish_settled; [|exact E].
    + intros [= <-]. left. simpl. by rewrite Hs.
  - cbn. destruct (closer s); [|done]. by intros [= <-].
  - destruct ctx as [|key]; [done|]. destruct Hl as (a & Ha & _). cbn in Ha, Ht. subst key.
    destruct Hs as [[_ Hs]|[Hn Hs]]; [by rewrite Hs, lookup_empty in Ha|].
    cbn. rewrite bool_decide_eq_true_2 by done. intros [= <-]. apply settled_none. split; [done|]. simpl.
    apply map_empty. intros k. apply lookup_delete_None. destruct (decide (readCtx s = k)) as [|Hne]; [by left|right].
    apply eq_None_not_Some. intros [x Hx]. apply Hne. symmetry. by eapply Hs.
  - case_decide; [intros [= <-]; by apply settled_none|]. intros E. by eapply finish_settled; [|exact E].
  - destruct (AcquireCompletionChan _ _). intros [= <-]. by apply settled_none.
  - destruct (closer s); [|done]. intros [= <-]. by apply settled_none.
  - case_decide; [|done]. intros E. by eapply finish_settled; [|exact E].
Qed.
Lemma settled_elsewhere x s s' : settled s → elsewhere x s = Step s' → settled s'.
Proof.
  intros Hs. unfold settled in *. destruct x; cbn; try (intros [= <-]; simpl; done).
  unfold arrive, read_request. destruct (sent s) as [|k] eqn:Hk; [done|]. intros [= <-]. simpl. destruct (phase s); try (by destruct Hs).
  all: destruct Hs as [[Hn Ha]|[? _]]; [|done]; right; split; [lia|]; rewrite Ha, lookup_empty.
  all: intros k' a [[? _]|[_ H]]%lookup_insert_Some; [done|by rewrite lookup_empty in H].
Qed.
Lemma settled_read r c s s' : settled s → LinearizableRead r c s = Step s' → settled s'.
Proof.
  intros Hs. unfold LinearizableRead. destruct (readers s !! r) as [[from [m|m|e]]|], c; try done.
  - intros [= <-]. unfold settled in *. simpl. by destruct (phase s) eqn:Hp; simpl; rewrite ?Hp.
  - by intros [= <-].
  - destruct (closer s); [|done]. by intros [= <-].
  - destruct (errs _ !! _); [|done]. by intros [= <-].
  - by intros [= <-].
  - destruct (closer s); [|done]. by intros [= <-].
  - by intros [= <-].
Qed.
Lemma steady_leader_timely evs : ∀ s, settled s → lawful_run evs s → along steady_leader evs s → timely_run evs s.
Proof.
  induction evs as [|ev evs IH]; intros s Hs; [done|]. cbn [along]. intros [Hl Hlr] [Hst Hsr]. split; [by apply settled_timely|].
  destruct (exec ev s) as [|why|s'] eqn:E; [done..|]. apply IH; [|done..].
  destruct ev as [r c|c|x]; cbn in E; [by eapply settled_read|by eapply settled_loop|by eapply settled_elsewhere].
Qed.

(** ** A late answer *)

(** Read 0 starts a round, whose request raft has read when the round times out.  Then more is committed, read 1
    is called and starts another round; the answer to the first request comes, with the buffer that now
    holds the identifier of the second. *)
Definition late_run (id : Z) (c1 c2 : Z) : list event :=
  [Elsewhere (Commit c1); Elsewhere (Apply c1); Loops Proceed; Reads 0 Begin; Reads 0 Offer; Loops Proceed; Loops (Ask None);
   Elsewhere Arrive; Loops RequestTimer; Elsewhere (Commit c2); Loops Proceed; Reads 1 Begin; Reads 1 Offer; Loops Proceed;
   Loops (Ask None); Loops (ReadState (Shared id) c1); Loops Proceed; Reads 1 Take].

Definition reaches (evs : list event) (s : Raft) (P : Raft → Prop) : Prop := lawful_run evs s ∧ ∃ s', execs evs s = Step s' ∧ P s'.
Lemma reaches_cons ev evs s s1 P : lawful ev s → exec ev s = Step s1 → reaches evs s1 P → reaches (ev :: evs) s P.
Proof. intros Hl E [Hr (s' & E' & HP)]. split; [cbn [along]; by rewrite E|]. exists s'. split; [cbn [execs]; by rewrite E|done]. Qed.

Ltac run_norm :=
  unfold finish_round, CompleteWith, Swap, Current, raftReadIndexRequest, answered, write_ctx, set_pc, set_phase, set_ids, set_signals, set_readers, set_requests;
  cbn -[Next lookup insert alter delete empty decide];
  rewrite ?lookup_insert_eq, ?lookup_alter_eq; rewrite ?lookup_insert_ne, ?lookup_alter_ne by done;
  rewrite ?lookup_insert_eq, ?lookup_alter_eq, ?lookup_empty; cbn -[Next lookup insert alter delete empty decide].
Ltac run_step := eapply reaches_cons;
  [first [exact I | cbn; lia] | unfold exec, LinearizableRead, processRaftLinearizedRead, readIndexResponse, elsewhere, arrive, read_request; run_norm | ].

Lemma late_answer peerID seed c1 c2 : 0 <= c1 < c2 →
  reaches (late_run (Next (New peerID seed)).2 c1 c2) (NewRaft peerID seed)
    (λ s, appliedIndex s = c1 ∧ ∃ rd, readers s !! 1%nat = Some rd ∧ r_pc rd = Returned None ∧ r_from rd = c2).
Proof.
  intros Hc. unfold late_run, NewRaft. destruct (Next (New peerID seed)) as [g1 id1] eqn:E1. destruct (Next g1) as [g2 id2] eqn:E2. cbn [snd].
  do 2 (run_step; [reflexivity|]). run_step; [rewrite E1; reflexivity|].
  do 7 (run_step; [reflexivity|]). run_step; [rewrite E2; reflexivity|]. do 4 (run_step; [reflexivity|]).
  eapply reaches_cons; [exists c1; split; [cbn -[lookup insert empty]; apply lookup_insert_eq|lia]| |].
  { cbn -[lookup insert alter delete empty]. rewrite bool_decide_eq_true_2 by done. reflexivity. }
  run_step; [rewrite decide_False by lia; run_norm; reflexivity|]. run_step; [reflexivity|].
  split; [exact I|]. eexists. split; [reflexivity|]. split; [reflexivity|]. eexists. cbn -[lookup alter insert empty].
  rewrite lookup_alter_eq, lookup_alter_eq, lookup_insert_eq. split; [reflexivity|]. done.
Qed.


(** C8: reads are linearizable as long as answers are timely, and only so long.  Whatever the
    interleaving of reads, the loop, commits, applied entries, leader changes, time-outs and
    the end of the node, as long as an answer with the buffer of the loop is one to a request
    of the round under way: when a read returns without an error, everything that was committed
    when it was called has been applied; and no signal is closed twice.  This is so on a
    follower, and on a leader that gives up no round and repeats no request.  A leader that
    gives up a round takes its late answer for the one to the next: then a read can return
    although what was committed before it was called is not applied.  The bound keeps the
    51-bit sequence numbers of the requests from repeating. *)
Theorem linearizable_read peerID seed : is_u64 seed →
  let start := NewRaft peerID seed in
  (∀ evs, Z.of_nat (length evs) < 2 ^ 51 → lawful_run evs start → timely_run evs start →
    (∀ why, execs evs start ≠ Crash why) ∧
    (∀ s r rd, execs evs start = Step s → readers s !! r = Some rd → r_pc rd = Returned None → r_from rd <= appliedIndex s)) ∧
  (∀ evs, lawful_run evs start → along follower evs start ∨ along steady_leader evs start → timely_run evs start) ∧
  (∀ c1 c2, 0 <= c1 < c2 → ∃ evs s r rd, lawful_run evs start ∧ execs evs start = Step s ∧
    readers s !! r = Some rd ∧ r_pc rd = Returned None ∧ r_from rd = c2 ∧ appliedIndex s = c1).
Proof.
  intros Hseed start. split; [|split].
  - intros evs Hn Hl Ht. by apply timely_safe.
  - intros evs Hl [Hf|Hs]; [by apply follower_timely|]. apply steady_leader_timely; [by apply settled_none|done..].
  - intros c1 c2 Hc. destruct (late_answer peerID seed c1 c2 Hc) as [Hl (s & E & Ha & rd & Hr & Hpc & Hf)].
    exists (late_run (Next (New peerID seed)).2 c1 c2), s, 1%nat, rd. exact (conj Hl (conj E (conj Hr (conj Hpc (conj Hf Ha))))).
Qed.

(** ** A run *)

(** Call 0 wakes the loop; call 1 begins while the request of the round is under way; the
    answer comes, is applied, and call 0 returns. *)
Definition demo_id : Z := (Next (New 1 0)).2.
Definition demo_run : list event :=
  [Elsewhere (Commit 4); Loops Proceed; Reads 0 Begin; Reads 0 Offer; Loops Proceed; Loops (Ask None);
   Elsewhere Arrive; Reads 1 Begin; Reads 1 Offer; Loops (ReadState (Shared demo_id) 5); Loops Proceed; Loops Proceed; Elsewhere (Apply 5);
   Elsewhere Mark; Loops Completed; Reads 0 Take; Loops Proceed].

Definition pc_of (r : nat) (o : outcome) : option ReadPc :=
  match o with Step s => r_pc <$> readers s !! r | _ => None end.

Lemma demo_lawful : lawful_run demo_run (NewRaft 1 0).
Proof. vm_compute. split_and!; try done. eexists. split; [done|]. vm_compute. done. Qed.
Lemma demo_timely : timely_run demo_run (NewRaft 1 0).
Proof. vm_compute. split_and!; done. Qed.

Lemma linearizable_read_witness :
  (∃ s rd, execs demo_run (NewRaft 1 0) = Step s ∧ readers s !! 0%nat = Some rd ∧ r_pc rd = Returned None ∧
    r_from rd = 4 ∧ r_from rd <= appliedIndex s) ∧
  (∃ evs s r rd, lawful_run evs (NewRaft 1 0) ∧ execs evs (NewRaft 1 0) = Step s ∧
    readers s !! r = Some rd ∧ r_pc rd = Returned None ∧ r_from rd = 5 ∧ appliedIndex s = 4).
Proof.
  destruct (linearizable_read 1 0) as (Hsafe & _ & Hlate); [done|]. split; [|apply Hlate; lia].
  destruct (Hsafe demo_run eq_refl demo_lawful demo_timely) as [_ Hread].
  destruct (execs demo_run (NewRaft 1 0)) as [| |s] eqn:E; [vm_compute in E; discriminate E..|].
  destruct (readers s !! 0%nat) as [rd|] eqn:Hr.
  - assert (pc_of 0 (execs demo_run (NewRaft 1 0)) = Some (Returned None)) as Hpc by (vm_compute; reflexivity).
    assert (match execs demo_run (NewRaft 1 0) with Step s => r_from <$> readers s !! 0%nat | _ => None end = Some 4) as Hf by (vm_compute; reflexivity).
    rewrite E in Hpc, Hf. simpl in Hpc, Hf. rewrite Hr in Hpc, Hf. injection Hpc as Hpc. injection Hf as Hf.
    exists s, rd. split; [reflexivity|]. split; [exact Hr|]. split; [exact Hpc|]. split; [exact Hf|].
    exact (Hread s 0%nat rd eq_refl Hr Hpc).
  - exfalso. assert (pc_of 0 (execs demo_run (NewRaft 1 0)) = Some (Returned None)) as Hpc by (vm_compute; reflexivity).
    rewrite E in Hpc. simpl in Hpc. rewrite Hr in Hpc. discriminate Hpc.
Defined.

(** After the run the loop is idle and call 1 waits for the current signal. *)
Definition is_unheard (r : nat) (o : outcome) : bool :=
  match o with
  | Step s =>
      let n := Current (linearizeReqNotifier s) in
      match readers s !! r with
      | Some rd => match r_pc rd with Waits m => bool_decide (m = n) | _ => false end
      | None => false
      end &&
      match errs (linearizeReqNotifier s) !! n with None => true | Some _ => false end &&
      match phase s with Top | Idle _ _ | Stopped => true | _ => false end &&
      forallb (fun '(_, rd) => match r_pc rd with Has _ => false | _ => true end) (map_to_list (readers s))
  | _ => false
  end.

Lemma is_unheard_spec r s : is_unheard r (Step s) = true → ∃ rd, unheard r rd s.
Proof.
  unfold is_unheard. intros [[[H1 H2]%andb_true_iff H3]%andb_true_iff H4]%andb_true_iff.
  destruct (readers s !! r) as [rd|] eqn:Hr; [|done]. exists rd. constructor.
  - split; [done|]. destruct (r_pc rd); try done. apply bool_decide_eq_true in H1. by subst.
  - by destruct (errs _ !! _).
  - by destruct (phase s).
  - intros r' rd' n Hr' Hpc. apply elem_of_map_to_list, list_elem_of_In in Hr'.
    rewrite forallb_forall in H4. specialize (H4 _ Hr'). simpl in H4. by rewrite Hpc in H4.
Qed.

Lemma unheard_read_waits_witness :
  ∃ s rd, execs demo_run (NewRaft 1 0) = Step s ∧ unheard 1 rd s ∧
    ∀ evs s', Forall (quiet 1) evs → execs evs s = Step s' → readers s' !! 1%nat = Some rd.
Proof.
  assert (is_unheard 1 (execs demo_run (NewRaft 1 0)) = true) as Hu by (vm_compute; reflexivity).
  destruct (execs demo_run (NewRaft 1 0)) as [| |s]; [discriminate Hu..|].
  destruct (is_unheard_spec 1 s Hu) as [rd Hrd]. exists s, rd. split; [reflexivity|]. split; [exact Hrd|].
  intros evs s'. exact (unheard_read_waits 1 rd evs s s' Hrd).
Defined.
