(* ===== verification/Ready.v ===== *)
(** * The ready loop: [raft/raft_ready.go]

    What a node does with a batch of the etcd node: it updates its status, saves the batch,
    hands committed entries to the apply loop, sends messages and applies configuration
    changes, in an order that depends on whether it leads.  The storage, the transport and
    the configuration loop of [Apply.v] are interfaces; every call of them is recorded in a
    trace, so that the theorems can speak about the order of the calls. *)

From S2P Require Import Prelude Raftpb.

(** ** The batch *)

(** [raft.SoftState], [raft.ReadState] and the part of [raftpb.Message] the loop looks at;
    [m_rest] is the rest of a message. *)
Definition StateLeader : Z := 2.
Record SoftState := { Lead : Z; RaftState : Z }.
Record ReadState := { rs_Index : Z; rs_RequestCtx : list byte }.

Definition MsgAppResp : Z := 4.
Definition MsgSnap : Z := 7.
Record raftMessage := { m_Type : Z; m_Index : Z; m_Reject : bool; m_Snapshot : Snapshot; m_rest : list byte }.

Record Ready := {
  rd_SoftState : option SoftState; rd_HardState : HardState; rd_ReadStates : list ReadState; rd_Entries : list Entry;
  rd_Snapshot : Snapshot; rd_CommittedEntries : list Entry; rd_Messages : list raftMessage
}.

(** ** The node *)

(** [pkg/status], as far as the loop uses it. *)
Record Status := { hardStateTerm : Z; committedIndex : Z; softState : SoftState; confState : ConfState; acquireLeader : bool }.

Inductive RaftEvent := AcquiredLeader (peer : Z) | LostLeader (peer : Z) | LeaderChanged (peer : Z).

(** The calls the loop makes. *)
Inductive call :=
  | ReadStateSent (rs : ReadState)
  | Saved (hs : HardState) (es : list Entry) (snap : Snapshot)
  | HandedOver (es : list Entry) (snap : Snapshot)          (* to [applyCh] *)
  | Sent (m : raftMessage) | SnapshotSent (m : raftMessage)
  | SnapshotReleased (snap : Snapshot) | Appended (es : list Entry) | ConfApplied (es : list Entry)
  | Published (ev : RaftEvent) | LeaderChangeReset | Advanced.

Record Node {S X : Type} := {
  storage : S;
  applied : X;                 (* what the configuration loop works on *)
  status : Status;
  localPeerID : Z;
  publisher : bool;            (* [raftEventPublisher] is not nil *)
  isLeader : bool;             (* the variable of the loop *)
  trace : list call
}.
Arguments Node : clear implicits.

(** [RaftStorage], and [applyConfChangeEntry] as [conf_loop], which may set the configuration in the status
    and answers whether the node removed itself. *)
Class RaftStorage (S : Type) := {
  st_Save : HardState → list Entry → Snapshot → meth S unit;
  st_ApplyAndReleaseSnapshot : Snapshot → meth S unit;
  st_EntryStorageAppend : list Entry → meth S unit
}.
Class ConfLoop (X : Type) := conf_loop : list Entry → ConfState → X → go (X * ConfState * bool).

(** What the selects of the loop choose. *)
Inductive read_choice := ReadTaken | ReadTimeout | ReadClosed.
Record Choices := { on_read : read_choice; apply_taken : bool }.

Section Loop.
Context {S X : Type} `{RaftLib, RaftStorage S, ConfLoop X}.
Implicit Types n : Node S X.
Open Scope go_scope.

Definition set_status (st : Status) n : Node S X :=
  {| storage := storage n; applied := applied n; status := st; localPeerID := localPeerID n; publisher := publisher n;
     isLeader := isLeader n; trace := trace n |}.
Definition set_isLeader (b : bool) n : Node S X :=
  {| storage := storage n; applied := applied n; status := status n; localPeerID := localPeerID n; publisher := publisher n;
     isLeader := b; trace := trace n |}.
Definition record (c : call) n : Node S X :=
  {| storage := storage n; applied := applied n; status := status n; localPeerID := localPeerID n; publisher := publisher n;
     isLeader := isLeader n; trace := trace n ++ [c] |}.
Definition with_status (f : Status → Status) : meth (Node S X) unit := Meth.modify (fun n => set_status (f (status n)) n).

(** The loop returns. *)
Definition returns {A} : meth (Node S X) A := Meth.fail (Sentinel "return").

(** A call of the storage, whose error is a panic. *)
Definition must (m : meth S unit) (c : call) (why : string) : meth (Node S X) unit := fun n =>
  '(s, r) ← m (storage n);
  match r with
  | Err _ => Panic why
  | Ok _ => Ret (record c {| storage := s; applied := applied n; status := status n; localPeerID := localPeerID n;
                             publisher := publisher n; isLeader := isLeader n; trace := trace n |}, Ok tt)
  end.

(** [updateLeadership]: an event is published through a pointer that may be nil. *)
Definition publish (ev : RaftEvent) : meth (Node S X) unit :=
  n <- Meth.get ;;
  if publisher n then Meth.modify (record (Published ev)) else Meth.panic "nil pointer dereference".
Definition publish_if (ev : RaftEvent) : meth (Node S X) unit :=
  n <- Meth.get ;; if publisher n then publish ev else Meth.ret tt.

Definition setSoftState (ss : SoftState) (st : Status) : Status :=
  {| hardStateTerm := hardStateTerm st; committedIndex := committedIndex st; softState := ss; confState := confState st;
     acquireLeader := acquireLeader st |}.
Definition setLeader (b : bool) (st : Status) : Status :=
  {| hardStateTerm := hardStateTerm st; committedIndex := committedIndex st; softState := softState st; confState := confState st;
     acquireLeader := b |}.
Definition setCommittedIndex (i : Z) (st : Status) : Status :=
  {| hardStateTerm := hardStateTerm st; committedIndex := i; softState := softState st; confState := confState st;
     acquireLeader := acquireLeader st |}.
Definition setHardStateTerm (t : Z) (st : Status) : Status :=
  {| hardStateTerm := t; committedIndex := committedIndex st; softState := softState st; confState := confState st;
     acquireLeader := acquireLeader st |}.

Definition setConfState (cs : ConfState) (st : Status) : Status :=
  {| hardStateTerm := hardStateTerm st; committedIndex := committedIndex st; softState := softState st; confState := cs;
     acquireLeader := acquireLeader st |}.

Definition raft_None : Z := 0.
Definition updateLeadership (currentState : SoftState) : meth (Node S X) unit :=
  n <- Meth.get ;;
  let preState := softState (status n) in
  let newLeader := bool_decide (Lead currentState ≠ raft_None ∧ Lead preState ≠ Lead currentState) in
  with_status (setSoftState currentState) ;;
  (if decide (Lead currentState = localPeerID n) then
     with_status (setLeader true) ;; publish_if (AcquiredLeader (Lead currentState))
   else if acquireLeader (status n) then
     with_status (setLeader false) ;; publish (LostLeader (localPeerID n))
   else Meth.ret tt) ;;
  if newLeader then publish_if (LeaderChanged (Lead currentState)) ;; Meth.modify (record LeaderChangeReset) else Meth.ret tt.

Definition updateCommittedIndex (entries : list Entry) (snap : Snapshot) : meth (Node S X) unit :=
  n <- Meth.get ;;
  let newCommitIndex := match last entries with Some e => e_index e | None => 0 end in
  let newCommitIndex := if decide (newCommitIndex < sm_index (snap_meta snap)) then sm_index (snap_meta snap) else newCommitIndex in
  if decide (newCommitIndex ≠ 0 ∧ committedIndex (status n) < newCommitIndex)
  then with_status (setCommittedIndex newCommitIndex) else Meth.ret tt.

Definition shouldWaitWALSync (rd : Ready) : bool :=
  match last (rd_CommittedEntries rd), rd_Entries rd with
  | Some lastCommittedEntry, firstUnstableEntry :: _ =>
      bool_decide (e_term firstUnstableEntry < e_term lastCommittedEntry ∨
        (e_term lastCommittedEntry = e_term firstUnstableEntry ∧ e_index firstUnstableEntry <= e_index lastCommittedEntry))
  | _, _ => false
  end.

(** [sendRaftMessage]: the loop over the messages carries the largest index acknowledged and
    the message with it, which is sent last. *)
Definition with_confState (cs : ConfState) (m : raftMessage) : raftMessage :=
  {| m_Type := m_Type m; m_Index := m_Index m; m_Reject := m_Reject m; m_rest := m_rest m;
     m_Snapshot := {| snap_data := snap_data (m_Snapshot m);
       snap_meta := {| sm_conf := cs; sm_index := sm_index (snap_meta (m_Snapshot m)); sm_term := sm_term (snap_meta (m_Snapshot m)) |} |} |}.

Fixpoint send_loop (msgs : list raftMessage) (appRespIndex : Z) (kept : option raftMessage) : meth (Node S X) unit :=
  match msgs with
  | [] => match kept with Some m => Meth.modify (record (Sent m)) | None => Meth.ret tt end
  | m :: msgs =>
      if decide (m_Type m = MsgAppResp) then
        if decide (m_Reject m = false ∧ appRespIndex < m_Index m) then send_loop msgs (m_Index m) (Some m)
        else Meth.modify (record (Sent m)) ;; send_loop msgs appRespIndex kept
      else if decide (m_Type m = MsgSnap) then
        n <- Meth.get ;;
        Meth.modify (record (SnapshotSent (with_confState (confState (status n)) m))) ;; send_loop msgs appRespIndex kept
      else Meth.modify (record (Sent m)) ;; send_loop msgs appRespIndex kept
  end.
Definition sendRaftMessage (msgs : list raftMessage) : meth (Node S X) unit := send_loop msgs 0 None.

Definition save (rd : Ready) : meth (Node S X) unit :=
  must (st_Save (rd_HardState rd) (rd_Entries rd) (rd_Snapshot rd)) (Saved (rd_HardState rd) (rd_Entries rd) (rd_Snapshot rd))
    "save hard state, entries and snapshot failed".

Definition conf_change (es : list Entry) : meth (Node S X) bool := fun n =>
  '(x, cs, removeSelf) ← conf_loop es (confState (status n)) (applied n);
  Ret (record (ConfApplied es) {| storage := storage n; applied := x; status := setConfState cs (status n); localPeerID := localPeerID n;
                                  publisher := publisher n; isLeader := isLeader n; trace := trace n |}, Ok removeSelf).

(** [processRaftReady]: one batch. *)
Definition processRaftReady (ch : Choices) (rd : Ready) : meth (Node S X) unit :=
  (if IsEmptyHardState (rd_HardState rd) then Meth.ret tt else with_status (setHardStateTerm (hs_term (rd_HardState rd)))) ;;
  (match rd_SoftState rd with
   | Some ss => updateLeadership ss ;; Meth.modify (set_isLeader (bool_decide (RaftState ss = StateLeader)))
   | None => Meth.ret tt
   end) ;;
  (match last (rd_ReadStates rd) with
   | Some rs => match on_read ch with
                | ReadTaken => Meth.modify (record (ReadStateSent rs))
                | ReadTimeout => Meth.ret tt
                | ReadClosed => returns
                end
   | None => Meth.ret tt
   end) ;;
  updateCommittedIndex (rd_CommittedEntries rd) (rd_Snapshot rd) ;;
  (if shouldWaitWALSync rd then save rd else Meth.ret tt) ;;
  (if decide (rd_CommittedEntries rd ≠ [] ∨ IsEmptySnap (rd_Snapshot rd) = false) then
     if apply_taken ch then Meth.modify (record (HandedOver (rd_CommittedEntries rd) (rd_Snapshot rd))) else returns
   else Meth.ret tt) ;;
  n <- Meth.get ;;
  (if isLeader n then sendRaftMessage (rd_Messages rd) else Meth.ret tt) ;;
  (if shouldWaitWALSync rd then Meth.ret tt else save rd) ;;
  (if IsEmptySnap (rd_Snapshot rd) then Meth.ret tt
   else must (st_ApplyAndReleaseSnapshot (rd_Snapshot rd)) (SnapshotReleased (rd_Snapshot rd)) "apply snapshot failed") ;;
  must (st_EntryStorageAppend (rd_Entries rd)) (Appended (rd_Entries rd)) "append entries failed" ;;
  removeSelf <- conf_change (rd_CommittedEntries rd) ;;
  if removeSelf then returns
  else
    (if isLeader n then Meth.ret tt else sendRaftMessage (rd_Messages rd)) ;;
    Meth.modify (record Advanced).
End Loop.

(** ** Assertions about methods *)

(** From a state with [P] the method, if it does not panic, ends with [Q] or fails with [E]. *)
Definition triple {T A} (P : T → Prop) (m : meth T A) (Q : A → T → Prop) (E : T → Prop) : Prop :=
  ∀ t t' r, P t → m t = Ret (t', r) → match r with Ok a => Q a t' | Err _ => E t' end.

Section Triples.
Context {T : Type}.
Implicit Types P E : T → Prop.

Lemma triple_bind {A B} P (m : meth T A) Q (k : A → meth T B) R E :
  triple P m Q E → (∀ a, triple (Q a) (k a) R E) → triple P (Meth.bind m k) R E.
Proof.
  intros Hm Hk t t' r Hp. unfold Meth.bind. destruct (m t) as [[t1 [a|e]]|] eqn:E1; [| |done].
  - apply (Hk a). exact (Hm t t1 (Ok a) Hp E1).
  - intros [= <- <-]. exact (Hm t t1 (Err e) Hp E1).
Qed.
Lemma triple_ret {A} P (a : A) (Q : A → T → Prop) E : (∀ t, P t → Q a t) → triple P (Meth.ret a) Q E.
Proof. intros Hq t t' r Hp [= <- <-]. by apply Hq. Qed.
Lemma triple_fail {A} P e (Q : A → T → Prop) E : (∀ t, P t → E t) → triple P (Meth.fail e) Q E.
Proof. intros Hq t t' r Hp [= <- <-]. by apply Hq. Qed.
Lemma triple_panic {A} P why (Q : A → T → Prop) E : triple P (Meth.panic why) Q E.
Proof. intros t t' r _ [=]. Qed.
Lemma triple_get P E : triple P Meth.get (fun a t => a = t ∧ P t) E.
Proof. by intros t t' r Hp [= <- <-]. Qed.
Lemma triple_modify P f (Q : unit → T → Prop) E : (∀ t, P t → Q tt (f t)) → triple P (Meth.modify f) Q E.
Proof. intros Hq t t' r Hp [= <- <-]. by apply Hq. Qed.
Lemma triple_pre {A} P P' (m : meth T A) Q E : (∀ t, P t → P' t) → triple P' m Q E → triple P m Q E.
Proof. intros Hi Hm t t' r Hp. apply Hm. by apply Hi. Qed.
End Triples.

Create HintDb triples.
#[export] Hint Resolve triple_ret triple_panic triple_modify : triples.

(** ** The order of the calls *)

Section Order.
Context {S X : Type} `{RaftLib, RaftStorage S, ConfLoop X}.
Implicit Types n : Node S X.

(** Every call with [Q] comes after one with [P]. *)
Definition before (P Q : call → Prop) (l : list call) : Prop :=
  ∀ l1 c l2, l = l1 ++ c :: l2 → Q c → Exists P l1.

Lemma before_snoc P Q l c : before P Q l → (Q c → Exists P l) → before P Q (l ++ [c]).
Proof.
  intros Hl Hc l1 c' l2 E Hq. destruct l2 as [|x l2 _] using rev_ind.
  - apply app_inj_tail in E as [-> ->]. by apply Hc.
  - rewrite app_comm_cons, (assoc_L (++)) in E. apply app_inj_tail in E as [-> _]. by eapply Hl.
Qed.

Context (rd : Ready) (t0 : list call).

Definition is_saved (c : call) : Prop := c = Saved (rd_HardState rd) (rd_Entries rd) (rd_Snapshot rd).
Definition is_sent (c : call) : Prop := match c with Sent _ | SnapshotSent _ => True | _ => False end.
Definition is_handed (c : call) : Prop := match c with HandedOver _ _ => True | _ => False end.
Definition is_done (c : call) : Prop := match c with Advanced | Appended _ => True | _ => False end.

(** A committed entry of the batch is one the batch has to save. *)
Definition overlap : Prop := ∃ e, e ∈ rd_Entries rd ∧ e ∈ rd_CommittedEntries rd.

Record safe (leader : bool) (l : list call) : Prop := {
  sf_sent : leader = false → before is_saved is_sent l;
  sf_handed : overlap → before is_saved is_handed l;
  sf_done : before is_saved is_done l
}.

Definition neutral (c : call) : Prop := ¬ is_sent c ∧ ¬ is_handed c ∧ ¬ is_done c.

Lemma safe_snoc b l c :
  safe b l → (b = false → is_sent c → Exists is_saved l) → (overlap → is_handed c → Exists is_saved l) →
  (is_done c → Exists is_saved l) → safe b (l ++ [c]).
Proof. intros [Hse Hha Hdo] ? ? ?. constructor; intros; apply before_snoc; auto. Qed.

Lemma safe_neutral b l c : safe b l → neutral c → safe b (l ++ [c]).
Proof. intros Hs (Hse & Hha & Hdo). apply safe_snoc; [done|by intros _ ?|by intros _ ?|by intros ?]. Qed.

Lemma safe_saved b l c : safe b l → Exists is_saved l → safe b (l ++ [c]).
Proof. intros. by apply safe_snoc. Qed.

Lemma neutral_safe b l : Forall neutral l → safe b l.
Proof.
  induction l as [|c l IH] using rev_ind; intros Hl.
  - constructor; intros; intros [] ? ? [=].
  - apply Forall_app in Hl as [Hl Hc]. apply safe_neutral; [by apply IH|]. by inversion Hc.
Qed.

(** Where the batch is: only harmless calls so far; or safe ones, the save among them if [s]. *)
Definition begun n : Prop := ∃ l, trace n = t0 ++ l ∧ Forall neutral l.
Definition stage (s : bool) n : Prop := ∃ l, trace n = t0 ++ l ∧ safe (isLeader n) l ∧ (s = true → Exists is_saved l).

Lemma begun_stage n : begun n → stage false n.
Proof. intros (l & Ht & Hl). exists l. split_and!; [done|by apply neutral_safe|done]. Qed.

Lemma begun_record c n : begun n → neutral c → begun (record c n).
Proof.
  intros (l & Ht & Hl) Hc. exists (l ++ [c]). simpl. rewrite Ht, (assoc_L (++)). split; [done|].
  apply Forall_app. split; [done|by constructor].
Qed.

Lemma stage_record s c n :
  stage s n →
  (isLeader n = false → is_sent c → s = true) → (overlap → is_handed c → s = true) → (is_done c → s = true) →
  stage s (record c n).
Proof.
  intros (l & Ht & Hs & Hsaved) Hse Hha Hdo. exists (l ++ [c]). simpl. rewrite Ht, (assoc_L (++)). split_and!; [done| |].
  - apply safe_snoc; [done|..]; intros; apply Hsaved; auto.
  - intros E. apply Exists_app. left. by apply Hsaved.
Qed.

Lemma stage_save s n : stage s n → stage true (record (Saved (rd_HardState rd) (rd_Entries rd) (rd_Snapshot rd)) n).
Proof.
  intros (l & Ht & Hs & _). exists (l ++ [Saved (rd_HardState rd) (rd_Entries rd) (rd_Snapshot rd)]). simpl. rewrite Ht, (assoc_L (++)).
  split_and!; [done| |].
  - by apply safe_neutral; [|split_and!; intros ?].
  - intros _. apply Exists_app. right. by left.
Qed.

Lemma stage_weaken s n : stage s n → stage false n.
Proof. intros (l & Ht & Hs & _). by exists l. Qed.

Definition kept (P : Node S X → Prop) (m : meth (Node S X) unit) : Prop := triple P m (fun _ => P) (stage false).

Lemma kept_bind P m (k : meth (Node S X) unit) R : kept P m → (triple P k R (stage false)) → triple P (Meth.bind m (fun _ : unit => k)) R (stage false).
Proof. intros Hm Hk. eapply triple_bind; [exact Hm|]. by intros []. Qed.

Ltac harmless := by split_and!; intros ?.

Lemma status_begun f : kept begun (with_status f).
Proof. apply triple_modify. intros n (l & Ht & Hl). by exists l. Qed.

Lemma record_begun c : neutral c → kept begun (Meth.modify (record c)).
Proof. intros Hc. apply triple_modify. intros n Hn. by apply begun_record. Qed.

Lemma kept_get (k : Node S X → meth (Node S X) unit) : (∀ n, kept begun (k n)) → kept begun (Meth.bind Meth.get k).
Proof. intros Hk. eapply triple_bind; [apply triple_get|]. intros n. eapply triple_pre; [|apply Hk]. by intros t [_ ?]. Qed.

Lemma publish_begun ev : kept begun (publish ev).
Proof.
  apply kept_get. intros n. destruct (publisher n); [|apply triple_panic]. apply record_begun. harmless.
Qed.

Lemma publish_if_begun ev : kept begun (publish_if ev).
Proof. apply kept_get. intros n. destruct (publisher n); [apply publish_begun|by apply triple_ret]. Qed.

Lemma leadership_begun ss : kept begun (updateLeadership ss).
Proof.
  apply kept_get. intros n. cbv zeta. apply kept_bind; [apply status_begun|]. apply kept_bind.
  - case_decide; [apply kept_bind; [apply status_begun|apply publish_if_begun]|].
    destruct (acquireLeader _); [|by apply triple_ret]. apply kept_bind; [apply status_begun|apply publish_begun].
  - destruct (bool_decide _); [|by apply triple_ret]. apply kept_bind; [apply publish_if_begun|]. apply record_begun. harmless.
Qed.

Lemma committed_begun es snap : kept begun (updateCommittedIndex es snap).
Proof. apply kept_get. intros n. cbv zeta. case_decide; [apply status_begun|by apply triple_ret]. Qed.

(** A call of the storage that must succeed. *)
Lemma must_stage m c why s s' :
  (∀ n, stage s n → stage s' (record c n)) → triple (stage s) (must m c why) (fun _ => stage s') (stage false).
Proof.
  intros Hc n n' r Hn. unfold must. destruct (m (storage n)) as [[st [[]|e]]|]; [|done..]. intros [= <- <-].
  apply Hc. destruct Hn as (l & Ht & Hs). by exists l.
Qed.

Lemma send_stage msgs : ∀ i kp s b,
  b = true ∨ s = true →
  triple (fun n => stage s n ∧ isLeader n = b) (send_loop msgs i kp) (fun _ => stage s) (stage false).
Proof.
  assert (∀ c s b, is_sent c → b = true ∨ s = true →
    triple (fun n => stage s n ∧ isLeader n = b) (Meth.modify (record c)) (fun _ n => stage s n ∧ isLeader n = b) (stage false)) as Hrec.
  { intros c s b Hc Hb. apply triple_modify. intros n [Hn Hl]. split; [|done]. apply stage_record; [done|..].
    - intros Hf. destruct Hb; [congruence|done].
    - by destruct c.
    - by destruct c. }
  induction msgs as [|m msgs IH]; intros i kp s b Hb; cbn [send_loop].
  - destruct kp as [m|]; [|by apply triple_ret; intros n [? _]].
    intros n n' r Hn E. pose proof (Hrec (Sent m) s b I Hb n n' r Hn E) as Hr. destruct r; [apply Hr|done].
  - case_decide; [case_decide; [by apply IH|]|].
    + eapply triple_bind; [by apply Hrec|]. intros []. by apply IH.
    + case_decide; [|eapply triple_bind; [by apply Hrec|]; intros []; by apply IH].
      eapply triple_bind; [apply triple_get|]. intros n. eapply triple_bind; [eapply triple_pre; [|by apply (Hrec _ s b)]|].
      * by intros t [_ ?].
      * intros []. by apply IH.
Qed.

Lemma conf_stage es s : triple (stage s) (conf_change es) (fun _ => stage s) (stage false).
Proof.
  intros n n' r Hn. unfold conf_change. destruct (conf_loop _ _ _) as [[[x cs] b]|]; [|done]. intros [= <- <-].
  apply stage_record; [|done..]. destruct Hn as (l & Ht & Hs). by exists l.
Qed.

Lemma ready_triple ch :
  (overlap → shouldWaitWALSync rd = true) → triple begun (processRaftReady ch rd) (fun _ => stage true) (stage false).
Proof.
  intros Hov. unfold processRaftReady.
  apply kept_bind; [destruct (IsEmptyHardState _); [by apply triple_ret|apply status_begun]|].
  apply kept_bind.
  { destruct (rd_SoftState rd); [|by apply triple_ret]. apply kept_bind; [apply leadership_begun|].
    apply triple_modify. intros n (l & Ht & Hl). by exists l. }
  apply kept_bind.
  { destruct (last _); [|by apply triple_ret]. destruct (on_read ch); [apply record_begun; harmless|by apply triple_ret|].
    apply triple_fail. apply begun_stage. }
  apply kept_bind; [apply committed_begun|]. set (wait := shouldWaitWALSync rd) in *.
  eapply triple_bind with (Q := fun _ => stage wait).
  { destruct wait; [|apply triple_ret, begun_stage]. eapply triple_pre; [apply begun_stage|].
    apply must_stage. apply stage_save. }
  intros _. eapply triple_bind with (Q := fun _ => stage wait).
  { case_decide; [|by apply triple_ret]. destruct (apply_taken ch); [|apply triple_fail, stage_weaken].
    apply triple_modify. intros n Hn. apply stage_record; [done|done|auto|done]. }
  intros _. eapply triple_bind; [apply triple_get|]. intros n. eapply triple_bind with (Q := fun _ => stage wait).
  { destruct (isLeader n) eqn:Hl; [|by apply triple_ret; intros t [_ ?]].
    eapply triple_pre; [|apply (send_stage _ _ _ wait true); by left]. by intros t [<- ?]. }
  intros _. eapply triple_bind with (Q := fun _ => stage true).
  { destruct wait; [by apply triple_ret|]. apply must_stage. apply stage_save. }
  intros _. eapply triple_bind with (Q := fun _ => stage true).
  { destruct (IsEmptySnap _); [by apply triple_ret|]. apply must_stage. intros t Ht. by apply stage_record. }
  intros _. eapply triple_bind with (Q := fun _ => stage true).
  { apply must_stage. intros t Ht. by apply stage_record. }
  intros _. eapply triple_bind; [apply conf_stage|]. intros removeSelf.
  destruct removeSelf; [apply triple_fail, stage_weaken|].
  eapply triple_bind with (Q := fun _ => stage true); [|intros _; apply triple_modify; intros t Ht; by apply stage_record].
  destruct (isLeader n); [by apply triple_ret|]. intros t t' r Ht. apply (send_stage _ _ _ true (isLeader t)); [by right|done].
Qed.
End Order.

(** ** Entries of one log *)

(** Indexes grow and terms do not shrink. *)
Definition in_order : list Entry → Prop := StronglySorted (fun a b => e_index a < e_index b ∧ e_term a <= e_term b).

Lemma in_order_first e x es : in_order (x :: es) → e ∈ x :: es → e_index x <= e_index e ∧ e_term x <= e_term e.
Proof.
  intros Ho [->|Hin]%elem_of_cons; [lia|]. inversion Ho as [|? ? _ Hall]; subst. rewrite Forall_forall in Hall.
  specialize (Hall e Hin). lia.
Qed.
Lemma in_order_last e x es : in_order es → last es = Some x → e ∈ es → e_index e <= e_index x ∧ e_term e <= e_term x.
Proof.
  intros Ho Hl Hin. apply last_Some in Hl as [es' ->]. apply elem_of_app in Hin as [Hin| ->%list_elem_of_singleton]; [|lia].
  revert Ho Hin. induction es' as [|y es' IH]; intros Ho Hin; [by apply elem_of_nil in Hin|].
  inversion Ho as [|? ? Ho' Hall]; subst. apply elem_of_cons in Hin as [->|Hin]; [|by apply IH].
  rewrite Forall_forall in Hall. assert (x ∈ es' ++ [x]) as Hx by (apply elem_of_app; right; by left). specialize (Hall x Hx). lia.
Qed.

Lemma overlap_waits rd :
  in_order (rd_Entries rd) → in_order (rd_CommittedEntries rd) → overlap rd → shouldWaitWALSync rd = true.
Proof.
  intros He Hc (e & H1 & H2). unfold shouldWaitWALSync. destruct (last (rd_CommittedEntries rd)) as [x|] eqn:Hl.
  - destruct (rd_Entries rd) as [|y es]; [by apply elem_of_nil in H1|]. apply bool_decide_eq_true.
    destruct (in_order_first e y es He H1). destruct (in_order_last e x _ Hc Hl H2). lia.
  - apply last_None in Hl. rewrite Hl in H2. by apply elem_of_nil in H2.
Qed.

(** C9: a node keeps what it says.  In the calls a batch leads to, whatever the other parts
    answer: a node that does not lead sends its messages only after the hard state and the
    entries of the batch were saved; a committed entry that the batch still has to save is
    saved before it is handed to the state machine; and the save comes before the entries
    are appended and the etcd node is told to go on. *)
Theorem ready_saves_first {S X} `{RaftLib, RaftStorage S, ConfLoop X} ch rd (n n' : Node S X) r :
  in_order (rd_Entries rd) → in_order (rd_CommittedEntries rd) →
  processRaftReady ch rd n = Ret (n', r) →
  ∃ calls, trace n' = trace n ++ calls ∧
    (isLeader n' = false → before (is_saved rd) is_sent calls) ∧
    (overlap rd → before (is_saved rd) is_handed calls) ∧
    before (is_saved rd) is_done calls ∧
    (r = Ok tt → Exists (is_saved rd) calls).
Proof.
  intros He Hc E. assert (begun (trace n) n) as Hb by (exists []; by rewrite app_nil_r).
  pose proof (ready_triple rd (trace n) ch (overlap_waits rd He Hc) n n' r Hb E) as Hr.
  destruct r as [[]|e]; destruct Hr as (l & Ht & [? ? ?] & Hs); exists l; split_and!; try done. intros _. by apply Hs.
Qed.

(** ** Acknowledgements *)

Section Acks.
Context {S X : Type}.
Implicit Types n : Node S X.

(** An accepted append. *)
Definition acks (m : raftMessage) : Prop := m_Type m = MsgAppResp ∧ m_Reject m = false.

(** The calls [l] do for the messages [msgs] what a plain loop would, up to acknowledgements
    of which a later one is sent. *)
Record conveyed (cs : ConfState) (msgs : list raftMessage) (l : list call) : Prop := {
  cy_ack m : m ∈ msgs → acks m → ∃ k, k ∈ msgs ∧ acks k ∧ Sent k ∈ l ∧ m_Index m <= m_Index k;
  cy_other m : m ∈ msgs → ¬ acks m → m_Type m ≠ MsgSnap → Sent m ∈ l;
  cy_snap m : m ∈ msgs → m_Type m = MsgSnap → SnapshotSent (with_confState cs m) ∈ l;
  cy_only m : Sent m ∈ l → m ∈ msgs
}.

Lemma conveyed_perm cs M M' l : M ≡ₚ M' → conveyed cs M l → conveyed cs M' l.
Proof.
  intros Hp [Ha Ho Hs Hn]. constructor; intros m; rewrite <- ?Hp; [|by auto..].
  intros Hm Hack. destruct (Ha m Hm Hack) as (k & Hk & ?). exists k. by rewrite <- Hp.
Qed.

Lemma conveyed_sent cs M l m : m_Type m ≠ MsgSnap → conveyed cs M l → conveyed cs (m :: M) (Sent m :: l).
Proof.
  intros Ht [Ha Ho Hs Hn]. constructor; intros x.
  - intros [->|Hx]%elem_of_cons Hack.
    + exists m. split_and!; [by left|done|by left|done].
    + destruct (Ha x Hx Hack) as (k & ? & ? & ? & ?). exists k. split_and!; [by right|done|by right|done].
  - intros [->|Hx]%elem_of_cons ? ?; [by left|right; by apply Ho].
  - intros [->|Hx]%elem_of_cons ?; [done|right; by apply Hs].
  - intros [[= ->]|Hx]%elem_of_cons; [by left|right; by apply Hn].
Qed.

Lemma conveyed_snapshot cs M l m :
  m_Type m = MsgSnap → conveyed cs M l → conveyed cs (m :: M) (SnapshotSent (with_confState cs m) :: l).
Proof.
  intros Ht [Ha Ho Hs Hn]. constructor; intros x.
  - intros [->|Hx]%elem_of_cons Hack; [by destruct Hack as [Hack _]; rewrite Ht in Hack|].
    destruct (Ha x Hx Hack) as (k & ? & ? & ? & ?). exists k. split_and!; [by right|done|by right|done].
  - intros [->|Hx]%elem_of_cons ? ?; [done|right; by apply Ho].
  - intros [->|Hx]%elem_of_cons ?; [by left|right; by apply Hs].
  - intros [[=]|Hx]%elem_of_cons. right. by apply Hn.
Qed.

(** An acknowledgement may be left out when one of at least its index is among the rest. *)
Lemma conveyed_superseded cs M l k m :
  acks k → acks m → m_Index k <= m_Index m → m ∈ M → conveyed cs M l → conveyed cs (k :: M) l.
Proof.
  intros Hk Hm Hle Hin [Ha Ho Hs Hn]. constructor; intros x.
  - intros [->|Hx]%elem_of_cons Hack.
    + destruct (Ha m Hin Hm) as (k' & ? & ? & ? & ?). exists k'. split_and!; [by right|done|done|lia].
    + destruct (Ha x Hx Hack) as (k' & ? & ? & ? & ?). exists k'. split_and!; [by right|done|done|lia].
  - intros [->|Hx]%elem_of_cons ? ?; [done|by apply Ho].
  - intros [->|Hx]%elem_of_cons Ht; [by destruct Hk as [Hk _]; rewrite Ht in Hk|by apply Hs].
  - intros Hx. right. by apply Hn.
Qed.

(** The calls of the loop. *)
Fixpoint sends (cs : ConfState) (msgs : list raftMessage) (i : Z) (kept : option raftMessage) : list call :=
  match msgs with
  | [] => match kept with Some m => [Sent m] | None => [] end
  | m :: msgs =>
      if decide (m_Type m = MsgAppResp) then
        if decide (m_Reject m = false ∧ i < m_Index m) then sends cs msgs (m_Index m) (Some m)
        else Sent m :: sends cs msgs i kept
      else if decide (m_Type m = MsgSnap) then SnapshotSent (with_confState cs m) :: sends cs msgs i kept
      else Sent m :: sends cs msgs i kept
  end.

Lemma send_loop_sends msgs : ∀ i kept n,
  ∃ n', send_loop msgs i kept n = Ret (n', Ok tt) ∧ trace n' = trace n ++ sends (confState (status n)) msgs i kept ∧ status n' = status n.
Proof.
  induction msgs as [|m msgs IH]; intros i kept n; cbn [send_loop sends].
  - destruct kept; [by eexists|]. exists n. by rewrite app_nil_r.
  - assert (∀ c, ∃ n', send_loop msgs i kept (record c n) = Ret (n', Ok tt) ∧
      trace n' = trace n ++ c :: sends (confState (status n)) msgs i kept ∧ status n' = status n) as Hc.
    { intros c. destruct (IH i kept (record c n)) as (n' & E & Ht & Hs). exists n'. split_and!; [done| |done].
      rewrite Ht. simpl. by rewrite <- (assoc_L (++)). }
    repeat case_decide; [apply IH|apply Hc..].
Qed.

Lemma sends_conveyed cs msgs : ∀ i kept,
  match kept with Some k => acks k ∧ m_Index k = i | None => True end →
  conveyed cs (option_list kept ++ msgs) (sends cs msgs i kept).
Proof.
  induction msgs as [|m msgs IH]; intros i kept Hk; cbn [sends].
  - assert (conveyed cs [] []) as Hnil by (constructor; intros x Hx; by apply elem_of_nil in Hx).
    destruct kept as [k|]; [|done]. apply conveyed_sent; [|done]. destruct Hk as [[Hk _] _]. by rewrite Hk.
  - assert (∀ l, conveyed cs (m :: option_list kept ++ msgs) l → conveyed cs (option_list kept ++ m :: msgs) l) as Hperm.
    { intros l. apply conveyed_perm. by rewrite Permutation_middle. }
    case_decide as Ht; [case_decide as Hr|case_decide as Hs].
    + assert (conveyed cs (m :: msgs) (sends cs msgs (m_Index m) (Some m))) as Hc by (apply (IH _ (Some m)); by split; [split|]; destruct Hr).
      destruct kept as [k|]; [|done]. apply (conveyed_superseded _ _ _ k m); [apply Hk|by split; destruct Hr|destruct Hk; lia|by left|done].
    + apply Hperm, conveyed_sent; [by rewrite Ht|by apply IH].
    + apply Hperm, conveyed_snapshot; [done|by apply IH].
    + apply Hperm, conveyed_sent; [done|by apply IH].
Qed.
End Acks.

(** Leaving out acknowledgements loses nothing.  Of the accepted appends in a batch only
    some are acknowledged, after the other messages: for each of them an acknowledgement of
    at least its index is sent; all other messages are sent as they are, snapshots with the
    node's configuration, and nothing else is. *)
Theorem acks_conveyed {S X} msgs (n : Node S X) :
  ∃ n' l, sendRaftMessage msgs n = Ret (n', Ok tt) ∧ trace n' = trace n ++ l ∧ conveyed (confState (status n)) msgs l.
Proof.
  destruct (send_loop_sends msgs 0 None n) as (n' & E & Ht & _). exists n', (sends (confState (status n)) msgs 0 None).
  split_and!; [done|done|]. by apply (sends_conveyed _ msgs 0 None).
Qed.

(** A leader without a listener does not survive losing the leadership: the event is
    published through a nil pointer, and the loop panics. *)
Theorem lost_leader_panics {S X} `{RaftLib, RaftStorage S, ConfLoop X} ch rd ss (n : Node S X) :
  rd_SoftState rd = Some ss → Lead ss ≠ localPeerID n → acquireLeader (status n) = true → publisher n = false →
  processRaftReady ch rd n = Panic "nil pointer dereference".
Proof.
  intros Hss Hlead Hacq Hpub. unfold processRaftReady. rewrite Hss.
  assert (∀ t : Node S X, localPeerID t = localPeerID n → acquireLeader (status t) = true → publisher t = false →
    updateLeadership ss t = Panic "nil pointer dereference") as Hu.
  { intros t Hid Ha Hp. unfold updateLeadership, Meth.bind, Meth.get. cbv zeta. rewrite Hid, decide_False, Ha by done.
    unfold with_status, Meth.modify, publish, Meth.bind, Meth.get. cbn [publisher set_status]. by rewrite Hp. }
  unfold Meth.bind at 1. destruct (IsEmptyHardState (rd_HardState rd)); cbn [Meth.ret with_status Meth.modify].
  - unfold Meth.bind at 1. unfold Meth.bind at 1. by rewrite Hu.
  - unfold Meth.bind at 1. unfold Meth.bind at 1. by rewrite Hu.
Qed.
