(* ===== verification/ReadyExamples.v ===== *)
(** * The ready loop at work

    The configuration loop of [Apply.v] is the one the ready loop calls; a storage that keeps
    what it is given, and batches on which the theorems of [Ready.v] apply. *)

From S2P Require Import Prelude Raftpb Session Apply Ready.

Section Composed.
Context {A M SM RN : Type}.
Context `{SessionManager (response A) M, StateMachine A SM, RaftNode RN}.
Context `{Message NormalRequest, Message ConfChange, Message ConfChangeRequest}.
Context (clock : nat → Z).

(** The configuration in the status is shared. *)
#[export] Instance apply_conf_loop : ConfLoop (Apply.Node A M SM RN) := fun es cs x =>
  '(x, removeSelf) ← applyConfChangeEntry clock es
     (Apply.set_status {| appliedIndex := appliedIndex (Apply.status x); appliedTerm := appliedTerm (Apply.status x); st_confState := cs |} x);
  Ret (x, st_confState (Apply.status x), removeSelf).

(** Batches without configuration changes leave the configuration and the node as they are. *)
Lemma conf_loop_normal es cs (x : Apply.Node A M SM RN) :
  Forall (fun e => e_type e ≠ EntryConfChange) es → st_confState (Apply.status x) = cs →
  ∃ x', conf_loop es cs x = Ret (x', cs, false) ∧ sessions x' = sessions x ∧ machine x' = machine x ∧ cluster x' = cluster x.
Proof.
  intros Hes <-. unfold conf_loop, apply_conf_loop. set (y := Apply.set_status _ x).
  assert (applyConfChangeEntry clock es y = Ret (y, false)) as ->.
  { induction Hes as [|e es He _ IH]; [done|]. simpl. unfold confChangeEntry. rewrite decide_False by done.
    cbn [mbind go_bind]. exact IH. }
  cbn [mbind go_bind]. by exists y.
Qed.
End Composed.

(** ** A batch of a cluster of one *)

Module ReadyExamples.
Import PlainRaft.

(** A storage that keeps the entries saved and the entries that can be read. *)
#[export] Instance list_storage : RaftStorage (list Entry * list Entry) := {|
  st_Save hs es snap s := Ret ((s.1 ++ es, s.2), Ok tt);
  st_ApplyAndReleaseSnapshot snap s := Ret (s, Ok tt);
  st_EntryStorageAppend es s := Ret ((s.1, s.2 ++ es), Ok tt)
|}.
#[export] Instance no_changes : ConfLoop unit := fun es cs x => Ret (x, cs, false).

Definition entry1 : Entry := {| e_term := 1; e_index := 1; e_type := EntryNormal; e_data := [] |}.
Definition ack1 : raftMessage := {| m_Type := MsgAppResp; m_Index := 1; m_Reject := false; m_Snapshot := emptySnapshot; m_rest := [] |}.
Definition one_batch (ss : option SoftState) : Ready := {|
  rd_SoftState := ss; rd_HardState := emptyHardState; rd_ReadStates := []; rd_Entries := [entry1];
  rd_Snapshot := emptySnapshot; rd_CommittedEntries := [entry1]; rd_Messages := [ack1]
|}.
Definition node_at (leads : bool) : Ready.Node (list Entry * list Entry) unit := {|
  storage := ([], []); applied := tt;
  Ready.status := {| hardStateTerm := 1; committedIndex := 0; softState := {| Lead := 1; RaftState := StateLeader |};
                     confState := emptyConfState; acquireLeader := leads |};
  localPeerID := 1; publisher := false; isLeader := leads; trace := []
|}.
Definition all_taken : Choices := {| on_read := ReadTaken; apply_taken := true |}.
Definition calls_of (r : go (Ready.Node (list Entry * list Entry) unit * result unit)) : list call :=
  match r with Ret (n, _) => trace n | Panic _ => [] end.

Lemma in_order_one e : in_order [e].
Proof. by repeat constructor. Defined.

(** A follower saves the entry, hands it over and acknowledges it, in this order. *)
Lemma ready_saves_first_witness :
  calls_of (processRaftReady all_taken (one_batch None) (node_at false)) =
    [Saved emptyHardState [entry1] emptySnapshot; HandedOver [entry1] emptySnapshot; Appended [entry1]; ConfApplied [entry1];
     Sent ack1; Advanced] ∧
  ∃ n', processRaftReady all_taken (one_batch None) (node_at false) = Ret (n', Ok tt) ∧
  ∃ calls, trace n' = [] ++ calls ∧
    (isLeader n' = false → before (is_saved (one_batch None)) is_sent calls) ∧
    (overlap (one_batch None) → before (is_saved (one_batch None)) is_handed calls) ∧
    before (is_saved (one_batch None)) is_done calls ∧
    (@Ok unit tt = Ok tt → Exists (is_saved (one_batch None)) calls).
Proof.
  split; [vm_compute; reflexivity|]. eexists. split; [vm_compute; reflexivity|].
  apply (ready_saves_first all_taken (one_batch None) (node_at false)); [apply in_order_one..|vm_compute; reflexivity].
Defined.

(** The leader of a node without listener hears of another leader. *)
Lemma lost_leader_panics_witness :
  processRaftReady all_taken (one_batch (Some {| Lead := 2; RaftState := 0 |})) (node_at true) = Panic "nil pointer dereference".
Proof.
  apply (lost_leader_panics all_taken (one_batch (Some {| Lead := 2; RaftState := 0 |})) {| Lead := 2; RaftState := 0 |});
    [reflexivity|vm_compute; discriminate|reflexivity|reflexivity].
Defined.
End ReadyExamples.
