(* ===== verification/Scheduler.v ===== *)
(** * The scheduler of many groups: [raft/experimental/scheuler.go]

    Work for a group is asked for by setting a bit of the group's state and putting the
    group into the queue of its shard; the workers of the shard take groups from the queue
    and do what the state says.  Workers are interleaved by events: one event is one
    operation on the shared queue, on the shared map of states (under its lock), on the map
    of the groups being processed, or one call of the processor.  The queue is the one of
    [Queue.v], known by what is proved there: elements come out in the order they were put,
    a caller waits for as long as there is none, and a disposed queue refuses both. *)

From S2P Require Import Prelude.

(** ** State *)

Definition stateQueue : Z := 1.
Definition stateTick : Z := 2.
Definition stateProposal : Z := 4.
Definition stateConfigChange : Z := 8.
Definition stateStep : Z := 16.
Definition stateReady : Z := 32.

Record internalState := { state : Z; ticks : Z }.
Definition noState : internalState := {| state := 0; ticks := 0 |}.

Record schedulerConfig := { shardNum : nat; shardWorkerNum : nat; maxTicks : Z }.

(** The calls of the processor. *)
Inductive kind := Tick | Proposal | ConfigChange | Step | Ready.
#[export] Instance kind_eq_dec : EqDecision kind.
Proof. solve_decision. Defined.

(** Where a worker is: waiting in [GetOne]; with a group taken from the queue; with a group
    it has claimed; with the calls it has yet to make; after giving up its claim; and about
    to put the group back. *)
Inductive worker := Waiting | Got (g : Z) | Claimed (g : Z) | Running (g : Z) (calls : list kind) | Released (g : Z) | Again (g : Z) | Exited.

(** What happens at a shard, in order. *)
Inductive note := Enqueued (s : Z) (g : Z) | Processed (k : kind) (g : Z).

Record sharder := {
  queue : list Z; disposed : bool;
  groupState : gmap Z internalState;
  inProcessing : gset Z;
  workers : list worker;
  notes : list note
}.

Definition with_queue (q : list Z) (sh : sharder) : sharder :=
  {| queue := q; disposed := disposed sh; groupState := groupState sh; inProcessing := inProcessing sh; workers := workers sh; notes := notes sh |}.
Definition with_groupState (m : gmap Z internalState) (sh : sharder) : sharder :=
  {| queue := queue sh; disposed := disposed sh; groupState := m; inProcessing := inProcessing sh; workers := workers sh; notes := notes sh |}.
Definition with_inProcessing (p : gset Z) (sh : sharder) : sharder :=
  {| queue := queue sh; disposed := disposed sh; groupState := groupState sh; inProcessing := p; workers := workers sh; notes := notes sh |}.
Definition with_note (x : note) (sh : sharder) : sharder :=
  {| queue := queue sh; disposed := disposed sh; groupState := groupState sh; inProcessing := inProcessing sh; workers := workers sh; notes := notes sh ++ [x] |}.
Definition goto (i : nat) (w : worker) (sh : sharder) : sharder :=
  {| queue := queue sh; disposed := disposed sh; groupState := groupState sh; inProcessing := inProcessing sh; workers := <[i := w]> (workers sh); notes := notes sh |}.

(** ** Operations *)

Definition has (bits s : Z) : bool := bool_decide (Z.land s bits = bits).

Definition Put (g : Z) (sh : sharder) : result sharder :=
  if disposed sh then Err (Sentinel "queue: disposed") else Ok (with_queue (queue sh ++ [g]) sh).

(** The state of a group after [s] was asked for. *)
Definition asked_state (maxTicks s : Z) (oldState : internalState) : internalState :=
  let n := i64 (ticks oldState + 1) in
  {| state := Z.lor (state oldState) s;
     ticks := if has stateTick s then (if decide (maxTicks < n) then maxTicks else n) else ticks oldState |}.

(** [EnqueueState] of one shard: the bit that says the group is queued is set in a copy only. *)
Definition enqueue (maxTicks : Z) (s g : Z) (sh : sharder) : go sharder :=
  let sh := with_note (Enqueued s g) sh in
  let oldState := default noState (groupState sh !! g) in
  if negb (has stateTick s) && has s (state oldState) then Ret sh
  else
    let oldState := asked_state maxTicks s oldState in
    let sh := with_groupState (<[g := oldState]> (groupState sh)) sh in
    if decide (Z.land (state oldState) stateQueue = 0) then
      match Put g sh with Ok sh => Ret sh | Err _ => Panic "raftScheduler enqueue state error" end
    else Ret sh.

(** The calls for a state, in the order of the worker. *)
Definition calls_for (st : internalState) : list kind :=
  let s := state st in
  let '(l1, s) := if has stateProposal s then ([Proposal], Z.lor s stateReady) else ([], s) in
  let '(l2, s) := if has stateConfigChange s then ([ConfigChange], Z.lor s stateReady) else ([], s) in
  let '(l3, s) := if has stateStep s then ([Step], Z.lor s stateReady) else ([], s) in
  let '(l4, s) := if has stateTick s then (replicate (Z.to_nat (ticks st)) Tick, Z.lor s stateReady) else ([], s) in
  l1 ++ l2 ++ l3 ++ l4 ++ (if has stateReady s then [Ready] else []).

(** One step of worker [i]; [None] when it has to wait. *)
Definition work (i : nat) (sh : sharder) : option sharder :=
  w ← workers sh !! i;
  match w with
  | Waiting =>
      if disposed sh then Some (goto i Exited sh)
      else match queue sh with
           | [] => None
           | g :: q => Some (goto i (if decide (g = 0) then Waiting else Got g) (with_queue q sh))
           end
  | Got g =>
      if decide (g ∈ inProcessing sh) then Some (goto i Waiting sh)
      else Some (goto i (Claimed g) (with_inProcessing ({[g]} ∪ inProcessing sh) sh))
  | Claimed g =>
      let oldState := default noState (groupState sh !! g) in
      Some (goto i (Running g (calls_for oldState))
        (with_groupState (<[g := {| state := stateQueue; ticks := 0 |}]> (groupState sh)) sh))
  | Running g (k :: calls) => Some (goto i (Running g calls) (with_note (Processed k g) sh))
  | Running g [] => Some (goto i (Released g) (with_inProcessing (inProcessing sh ∖ {[g]}) sh))
  | Released g =>
      let newState := default noState (groupState sh !! g) in
      if decide (state newState = stateQueue) then Some (goto i Waiting (with_groupState (delete g (groupState sh)) sh))
      else Some (goto i (Again g) sh)
  | Again g => Some (goto i Waiting (match Put g sh with Ok sh => sh | Err _ => sh end))
  | Exited => None
  end.

(** [Dispose] of the queue. *)
Definition dispose (sh : sharder) : sharder :=
  {| queue := []; disposed := true; groupState := groupState sh; inProcessing := inProcessing sh; workers := workers sh; notes := notes sh |}.

(** ** The scheduler *)

Record raftScheduler := { config : schedulerConfig; sharders : list sharder }.

Definition newSharder (cfg : schedulerConfig) : sharder :=
  {| queue := []; disposed := false; groupState := ∅; inProcessing := ∅; workers := replicate (shardWorkerNum cfg) Waiting; notes := [] |}.
Definition Start (cfg : schedulerConfig) : raftScheduler :=
  {| config := cfg; sharders := replicate (shardNum cfg) (newSharder cfg) |}.
Definition Stop (s : raftScheduler) : raftScheduler := {| config := config s; sharders := dispose <$> sharders s |}.

Definition shard_of (s : raftScheduler) (g : Z) : nat := Z.to_nat (g mod Z.of_nat (shardNum (config s))).

Definition EnqueueState (st g : Z) (s : raftScheduler) : go raftScheduler :=
  if decide (shardNum (config s) = 0%nat) then Panic "integer divide by zero"
  else match sharders s !! shard_of s g with
       | None => Panic "index out of range"
       | Some sh => sh' ← enqueue (maxTicks (config s)) st g sh; Ret {| config := config s; sharders := <[shard_of s g := sh']> (sharders s) |}
       end.

Fixpoint EnqueueBatchState (st : Z) (gs : list Z) (s : raftScheduler) : go raftScheduler :=
  match gs with
  | [] => Ret s
  | g :: gs => s ← EnqueueState st g s; EnqueueBatchState st gs s
  end.

Definition worker_step (shard i : nat) (s : raftScheduler) : option raftScheduler :=
  sh ← sharders s !! shard; sh' ← work i sh; Some {| config := config s; sharders := <[shard := sh']> (sharders s) |}.

(** The states the store asks for: one bit, for a group whose identifier is not 0. *)
Definition bit (k : kind) : Z :=
  match k with Tick => stateTick | Proposal => stateProposal | ConfigChange => stateConfigChange | Step => stateStep | Ready => stateReady end.

Inductive step : raftScheduler → raftScheduler → Prop :=
  | step_enqueue k g s s' : 0 < g → EnqueueState (bit k) g s = Ret s' → step s s'
  | step_worker shard i s s' : worker_step shard i s = Some s' → step s s'
  | step_stop s : step s (Stop s).

(** ** Bits *)

Definition pos (k : kind) : Z := match k with Tick => 1 | Proposal => 2 | ConfigChange => 3 | Step => 4 | Ready => 5 end.

Lemma bit_pow k : bit k = 2 ^ pos k.
Proof. by destruct k. Qed.
Lemma pos_inj k k' : pos k = pos k' → k = k'.
Proof. by destruct k, k'. Qed.

Lemma land_pow s n : 0 <= n → Z.land s (2 ^ n) = if Z.testbit s n then 2 ^ n else 0.
Proof.
  intros Hn. apply Z.bits_inj'. intros m Hm. rewrite Z.land_spec, Z.pow2_bits_eqb by done.
  destruct (Z.eqb_spec n m) as [<-|]; destruct (Z.testbit s n) eqn:E; rewrite ?E, ?Z.bits_0, ?Z.pow2_bits_true, ?Z.pow2_bits_false, ?andb_false_r by done; done.
Qed.
Lemma has_bit k s : has (bit k) s = Z.testbit s (pos k).
Proof.
  unfold has. rewrite bit_pow, land_pow by (by destruct k). destruct (Z.testbit s (pos k)).
  - by apply bool_decide_eq_true.
  - apply bool_decide_eq_false. by destruct k.
Qed.
Lemma queue_bit s : Z.land s stateQueue = 0 ↔ Z.testbit s 0 = false.
Proof. unfold stateQueue. change 1 with (2 ^ 0). rewrite land_pow by done. by destruct (Z.testbit s 0). Qed.
Lemma test_bit k k' : Z.testbit (bit k) (pos k') = bool_decide (k = k').
Proof. by destruct k, k'. Qed.
Lemma test_lor k k' s : Z.testbit (Z.lor s (bit k)) (pos k') = Z.testbit s (pos k') || bool_decide (k = k').
Proof. by rewrite Z.lor_spec, test_bit. Qed.

(** A call is made for each bit, and the last call is that for the ready state. *)
Lemma calls_for_eq st :
  let b k := Z.testbit (state st) (pos k) in
  let some k : list kind := if b k then [k] else [] in
  calls_for st = some Proposal ++ some ConfigChange ++ some Step ++ (if b Tick then replicate (Z.to_nat (ticks st)) Tick else []) ++
    (if b Proposal || b ConfigChange || b Step || b Tick || b Ready then [Ready] else []).
Proof.
  assert (∀ (c : bool) (l : list kind) s, (if c then (l, Z.lor s (bit Ready)) else ([], s)) = (if c then l else [], if c then Z.lor s (bit Ready) else s)) as Hc
    by (by intros []).
  cbv zeta. unfold calls_for. change stateReady with (bit Ready). change stateTick with (bit Tick). change stateStep with (bit Step).
  change stateConfigChange with (bit ConfigChange). change stateProposal with (bit Proposal).
  assert (∀ (c : bool) s k, Z.testbit (if c then Z.lor s (bit Ready) else s) (pos k) = Z.testbit s (pos k) || (c && bool_decide (Ready = k))) as Hif.
  { intros [] s k; [apply test_lor|by rewrite orb_false_r]. }
  do 4 (rewrite Hc; cbv beta iota). rewrite !has_bit, !Hif, !(bool_decide_eq_false_2 (Ready = _)), bool_decide_eq_true_2 by done.
  rewrite !andb_true_r, !andb_false_r, !orb_false_r. do 4 f_equal.
  destruct (Z.testbit (state st) (pos Ready)), (Z.testbit (state st) (pos Proposal)), (Z.testbit (state st) (pos ConfigChange)), (Z.testbit (state st) (pos Step));
    by destruct (Z.testbit (state st) (pos Tick)).
Qed.

Lemma calls_for_bit k st :
  Z.testbit (state st) (pos k) = true → (k = Tick → 1 <= ticks st) → ∃ l, calls_for st = l ++ [Ready] ∧ (k = Ready ∨ k ∈ l).
Proof.
  intros Hk Ht. rewrite calls_for_eq. cbv zeta.
  assert (Z.testbit (state st) (pos Proposal) || Z.testbit (state st) (pos ConfigChange) || Z.testbit (state st) (pos Step) ||
    Z.testbit (state st) (pos Tick) || Z.testbit (state st) (pos Ready) = true) as -> by (destruct k; rewrite Hk; by rewrite ?orb_true_r).
  eexists. split; [by rewrite !(assoc_L (++))|]. rewrite !elem_of_app.
  destruct k; rewrite ?Hk; [|by right; do 3 left; left|by right; do 2 left; right; left|by right; left; right; left|by left].
  right. right. specialize (Ht eq_refl). apply elem_of_replicate. split; [done|lia].
Qed.

(** Calls end with that for the ready state. *)
Definition ends_ready (l : list kind) : Prop := l = [] ∨ last l = Some Ready.

Lemma calls_for_ends st : ends_ready (calls_for st).
Proof.
  rewrite calls_for_eq. cbv zeta. destruct (_ || _) eqn:E; [right; by rewrite !(assoc_L (++)), last_snoc|left].
  apply orb_false_iff in E as [[[[-> ->]%orb_false_iff ->]%orb_false_iff ->]%orb_false_iff _]. done.
Qed.
Lemma ends_ready_tail k l : ends_ready (k :: l) → ends_ready l.
Proof. intros [|Hl]; [done|]. destruct l as [|k' l]; [by left|right]. by rewrite last_cons_cons in Hl. Qed.
Lemma ends_ready_in k l : ends_ready (k :: l) → k ≠ Ready → Ready ∈ l.
Proof.
  intros [|Hl] Hk; [done|]. destruct l as [|k' l]; [by injection Hl|]. rewrite last_cons_cons in Hl.
  by apply last_Some_elem_of in Hl.
Qed.

(** ** Debts *)

(** After some [x] there was no call of [k] for [g]. *)
Definition debt (x : note) (k : kind) (g : Z) (l : list note) : Prop := ∃ l1 l2, l = l1 ++ x :: l2 ∧ Processed k g ∉ l2.

Lemma debt_snoc x k g l y : debt x k g (l ++ [y]) → y = x ∨ (debt x k g l ∧ y ≠ Processed k g).
Proof.
  intros (l1 & l2 & E & Hn). destruct l2 as [|z l2 _] using rev_ind.
  - apply app_inj_tail in E as [_ ->]. by left.
  - rewrite app_comm_cons, (assoc_L (++)) in E. apply app_inj_tail in E as [-> ->]. right.
    apply not_elem_of_app in Hn as [Hn1 Hn2]. split; [by exists l1, l2|]. intros ->. apply Hn2. by left.
Qed.

(** ** Invariant *)

Definition claims (g : Z) (w : worker) : Prop := match w with Claimed g' | Running g' _ => g' = g | _ => False end.
Definition holds (g : Z) (w : worker) : Prop :=
  match w with Got g' | Claimed g' | Running g' _ | Released g' | Again g' => g' = g | _ => False end.
Definition will (k : kind) (g : Z) (w : worker) : Prop := match w with Running g' calls => g' = g ∧ k ∈ calls | _ => False end.
Definition pending (k : kind) (g : Z) (m : gmap Z internalState) : Prop :=
  ∃ st, m !! g = Some st ∧ Z.testbit (state st) (pos k) = true.
(** A group is being processed by one worker at most. *)
Record claims_ok (ws : list worker) (p : gset Z) : Prop := {
  cl_in i w g : ws !! i = Some w → claims g w → g ∈ p;
  cl_by g : g ∈ p → Exists (claims g) ws;
  cl_one i j w w' g : ws !! i = Some w → ws !! j = Some w' → claims g w → claims g w' → i = j
}.

(** What was asked for and not done is in the state of the group or in the calls of a worker. *)
Definition ticks_ok (m : gmap Z internalState) : Prop :=
  ∀ g st, m !! g = Some st → Z.testbit (state st) (pos Tick) = true → 1 <= ticks st.
Record debts_ok (ws : list worker) (m : gmap Z internalState) (l : list note) : Prop := {
  de_ends i g calls : ws !! i = Some (Running g calls) → ends_ready calls;
  de_owed k k' g : k' = k ∨ k' = Ready → debt (Enqueued (bit k) g) k' g l → pending k g m ∨ Exists (will k' g) ws;
  de_ready k g : k ≠ Ready → debt (Processed k g) Ready g l → Exists (will Ready g) ws
}.

(** A group with a state is in the queue or in the hands of a worker. *)
Definition token (g : Z) (q : list Z) (ws : list worker) : Prop := g ∈ q ∨ Exists (holds g) ws.

Record inv (sh : sharder) : Prop := {
  in_claims : claims_ok (workers sh) (inProcessing sh);
  in_ticks : ticks_ok (groupState sh);
  in_debts : debts_ok (workers sh) (groupState sh) (notes sh);
  in_token g : disposed sh = false → g ≠ 0 → is_Some (groupState sh !! g) → token g (queue sh) (workers sh)
}.

Lemma claims_inj g g' w : claims g w → claims g' w → g = g'.
Proof. by destruct w; simpl; intros; subst. Qed.

Section Workers.
Context (ws : list worker) (i : nat) (w w' : worker).
Hypothesis at_i : ws !! i = Some w.

Lemma Exists_goto (P : worker → Prop) : (P w → P w') → Exists P ws → Exists P (<[i := w']> ws).
Proof using at_i.
  intros Hp (x & Hin & Hx)%Exists_exists. apply Exists_exists. apply list_elem_of_lookup in Hin as [j Hj].
  destruct (decide (j = i)) as [->|Hne].
  - exists w'. split; [|apply Hp; congruence]. apply list_elem_of_lookup. exists i. apply list_lookup_insert_eq. by eapply lookup_lt_Some.
  - exists x. split; [|done]. apply list_elem_of_lookup. exists j. by rewrite list_lookup_insert_ne.
Qed.
Lemma Exists_here (P : worker → Prop) : P w' → Exists P (<[i := w']> ws).
Proof using at_i.
  intros Hp. apply Exists_exists. exists w'. split; [|done]. apply list_elem_of_lookup. exists i.
  apply list_lookup_insert_eq. by eapply lookup_lt_Some.
Qed.
Lemma lookup_goto j x : <[i := w']> ws !! j = Some x → (j = i ∧ x = w') ∨ (j ≠ i ∧ ws !! j = Some x).
Proof using at_i.
  intros [(<- & <- & _)|(? & ?)]%list_lookup_insert_Some; [by left|right]. by split; [apply not_eq_sym|].
Qed.

Lemma claims_same p : (∀ g, claims g w ↔ claims g w') → claims_ok ws p → claims_ok (<[i := w']> ws) p.
Proof using at_i.
  intros Hs [Hin Hby Hone]. constructor.
  - intros j x g [[-> ->]|[_ Hj]]%lookup_goto Hx; [|by eapply Hin]. eapply Hin; [done|by apply Hs].
  - intros g Hg. apply Exists_goto; [apply Hs|by apply Hby].
  - intros j j' x x' g [[-> ->]|[? Hj]]%lookup_goto [[-> ->]|[? Hj']]%lookup_goto Hx Hx'; [done|..].
    + eapply Hone; [done|done|by apply Hs|done].
    + eapply Hone; [done|done|done|by apply Hs].
    + by eapply Hone.
Qed.
Lemma claims_take p g : w' = Claimed g → g ∉ p → (∀ g', ¬ claims g' w) → claims_ok ws p → claims_ok (<[i := w']> ws) ({[g]} ∪ p).
Proof using at_i.
  intros Ew Hg Hw [Hin Hby Hone]. constructor.
  - intros j x g' [[-> ->]|[_ Hj]]%lookup_goto Hx; [rewrite Ew in Hx; simpl in Hx; subst g'; by apply elem_of_union_l, elem_of_singleton|]. apply elem_of_union. right. by eapply Hin.
  - intros g' [->%elem_of_singleton|Hp]%elem_of_union; [apply Exists_here; by rewrite Ew|].
    apply Exists_goto; [by intros ?%Hw|by apply Hby].
  - intros j j' x x' g' [[-> ->]|[? Hj]]%lookup_goto [[-> ->]|[? Hj']]%lookup_goto Hx Hx'; [done|..].
    + rewrite Ew in Hx. simpl in Hx. subst g'. by destruct Hg; eapply Hin.
    + rewrite Ew in Hx'. simpl in Hx'. subst g'. by destruct Hg; eapply Hin.
    + by eapply Hone.
Qed.
Lemma claims_release p g : claims g w → (∀ g', ¬ claims g' w') → claims_ok ws p → claims_ok (<[i := w']> ws) (p ∖ {[g]}).
Proof using at_i.
  intros Hw Hw' [Hin Hby Hone]. constructor.
  - intros j x g' [[-> ->]|[Hne Hj]]%lookup_goto Hx; [by apply Hw' in Hx|]. apply elem_of_difference. split; [by eapply Hin|].
    intros ->%elem_of_singleton. apply Hne. by eapply Hone.
  - intros g' [Hp Hne]%elem_of_difference. apply Exists_goto; [|by apply Hby]. intros Hc. destruct Hne. apply elem_of_singleton. by eapply claims_inj.
  - intros j j' x x' g' [[-> ->]|[? Hj]]%lookup_goto [[-> ->]|[? Hj']]%lookup_goto Hx Hx'; [done|..];
      [by apply Hw' in Hx|by apply Hw' in Hx'|by eapply Hone].
Qed.

Lemma debts_goto m m' l :
  (∀ k g, will k g w → will k g w') → (∀ g calls, w' = Running g calls → ends_ready calls) →
  (∀ k k' g, k' = k ∨ k' = Ready → pending k g m → pending k g m' ∨ will k' g w') →
  debts_ok ws m l → debts_ok (<[i := w']> ws) m' l.
Proof using at_i.
  intros Hw He Hm [Hends Howed Hready]. constructor.
  - intros j g calls [[-> Hx]|[_ Hj]]%lookup_goto; [by eapply He|by eapply Hends].
  - intros k k' g Hk [Hp|Hex]%(Howed k k' g Hk); [|right; eapply Exists_goto; [apply Hw|done]].
    destruct (Hm k k' g Hk Hp) as [?|?]; [by left|right; by apply Exists_here].
  - intros k g Hk Hd. eapply Exists_goto; [apply Hw|by eapply Hready].
Qed.

Lemma debts_call m l k g calls :
  w = Running g (k :: calls) → w' = Running g calls → debts_ok ws m l → debts_ok (<[i := w']> ws) m (l ++ [Processed k g]).
Proof using at_i.
  intros Ew Ew' [Hends Howed Hready]. assert (ends_ready (k :: calls)) as He by (apply (Hends i g); by rewrite at_i, Ew).
  assert (∀ k' g', Processed k g ≠ Processed k' g' → Exists (will k' g') ws → Exists (will k' g') (<[i := w']> ws)) as Hex.
  { intros k' g' Hne. apply Exists_goto. rewrite Ew, Ew'. intros [-> [->|?]%elem_of_cons]; [done|by split]. }
  constructor.
  - intros j g' calls' [[-> Hx]|[_ Hj]]%lookup_goto; [|by eapply Hends].
    rewrite Ew' in Hx. injection Hx as -> ->. by eapply ends_ready_tail.
  - intros k1 k' g' Hk Hd. apply debt_snoc in Hd as [[=]|[Hd Hne]]. destruct (Howed _ _ _ Hk Hd); [by left|right; by apply Hex].
  - intros k1 g' Hk Hd. apply debt_snoc in Hd as [[= -> ->]|[Hd Hne]].
    + apply Exists_here. rewrite Ew'. split; [done|by eapply ends_ready_in].
    + apply Hex; [done|by eapply Hready].
Qed.
End Workers.

(** ** Every step keeps it *)

Lemma pending_mono k g m m' : (∀ st, m !! g = Some st → m' !! g = Some st) → pending k g m → pending k g m'.
Proof. intros Hm (st & E & Hb). exists st. by split; [apply Hm|]. Qed.

Lemma claimed_debts ws m l i g st :
  ws !! i = Some (Claimed g) → ticks_ok m → st = default noState (m !! g) → debts_ok ws m l →
  debts_ok (<[i := Running g (calls_for st)]> ws) (<[g := {| state := stateQueue; ticks := 0 |}]> m) l.
Proof.
  intros Hi Ht ->. apply debts_goto with (w := Claimed g); [done|by intros ? ? []| |].
  - intros ? ? [= <- <-]. apply calls_for_ends.
  - intros k k' g' Hk (st & E & Hb). destruct (decide (g' = g)) as [->|Hne].
    + right. rewrite E. simpl. destruct (calls_for_bit k st Hb) as (l' & -> & Hin); [intros ->; by eapply Ht|].
      split; [done|]. destruct Hk as [->| ->]; [|apply elem_of_app; right; by left].
      apply elem_of_app. destruct Hin as [->|?]; [right; by left|by left].
    + left. exists st. by rewrite lookup_insert_ne.
Qed.

(** Steps of workers that process nothing. *)
Definition idle (w : worker) : Prop := match w with Claimed _ | Running _ _ => False | _ => True end.

Lemma idle_goto ws i w w' p m m' l :
  ws !! i = Some w → idle w → idle w' → (∀ k g, pending k g m → pending k g m') →
  claims_ok ws p → debts_ok ws m l → claims_ok (<[i := w']> ws) p ∧ debts_ok (<[i := w']> ws) m' l.
Proof.
  intros Hi Hw Hw' Hm Hc Hd. split.
  - eapply claims_same; [done| |done]. by destruct w, w'.
  - eapply debts_goto; [done|by destruct w|by intros ? ? ->| |done]. intros k k' g _ ?. left. by apply Hm.
Qed.

Lemma token_goto ws i w w' q q' g :
  ws !! i = Some w → (g ∈ q → g ∈ q' ∨ holds g w') → (holds g w → holds g w' ∨ g ∈ q' ∨ Exists (holds g) (<[i := w']> ws)) →
  token g q ws → token g q' (<[i := w']> ws).
Proof.
  intros Hi Hq Hw [Hin|Hex].
  - destruct (Hq Hin); [by left|right; by eapply Exists_here].
  - apply Exists_exists in Hex as (x & Hx & Hh). apply list_elem_of_lookup in Hx as [j Hj]. destruct (decide (j = i)) as [->|Hne].
    + rewrite Hi in Hj. injection Hj as ->. destruct (Hw Hh) as [?|[?|?]]; [right; by eapply Exists_here|by left|by right].
    + right. apply Exists_exists. exists x. split; [|done]. apply list_elem_of_lookup. exists j. by rewrite list_lookup_insert_ne.
Qed.

Lemma work_inv i sh sh' : inv sh → work i sh = Some sh' → inv sh'.
Proof.
  intros [Hc Ht Hd Htok]. unfold work. destruct (workers sh !! i) as [w|] eqn:Hi; [|done]. cbn [mbind option_bind].
  destruct w as [|g|g|g [|k calls]|g|g|]; [..|done].
  - destruct (disposed sh) eqn:Hdis; [|destruct (queue sh) as [|g q] eqn:Hq; [done|]]; intros [= <-].
    + destruct (idle_goto _ i _ Exited _ _ _ _ Hi I I (fun _ _ H => H) Hc Hd). constructor; [done..|]. simpl. by rewrite Hdis.
    + set (w' := if decide (g = 0) then Waiting else Got g). assert (idle w') as Hw' by (unfold w'; by case_decide).
      destruct (idle_goto _ i _ w' _ _ _ _ Hi I Hw' (fun _ _ H => H) Hc Hd). constructor; [done..|]. simpl. intros g' _ Hg' Hst.
      apply (token_goto _ i Waiting w' (g :: q)); [done| |by intros []|by apply Htok].
      intros [->|?]%elem_of_cons; [right|by left]. unfold w'. by rewrite decide_False.
  - case_decide as Hp; intros [= <-].
    + destruct (idle_goto _ i _ Waiting _ _ _ _ Hi I I (fun _ _ H => H) Hc Hd). constructor; [done..|]. simpl. intros g' Hdis Hg' Hst.
      apply (token_goto _ i (Got g) Waiting (queue sh)); [done|by left| |by apply Htok]. simpl. intros ->. right; right.
      apply (Exists_impl (claims g')); [|by intros []]. apply (Exists_goto _ i _ _ Hi); [done|by apply (cl_by _ _ Hc)].
    + constructor; simpl; [eapply claims_take; [done..|by intros ? []|done]|done| |].
      * eapply debts_goto; [done|by intros ? ? []|done|by left|done].
      * intros g' Hdis Hg' Hst. apply (token_goto _ i (Got g) _ (queue sh)); [done|by left|by left|by apply Htok].
  - intros [= <-]. constructor; simpl.
    + eapply claims_same; done.
    + intros g' st [[<- <-]|[_ E]]%lookup_insert_Some; [done|]. by apply (Ht g').
    + by apply claimed_debts.
    + intros g' Hdis Hg' Hst. destruct (decide (g' = g)) as [->|Hne]; [right; by eapply Exists_here|].
      rewrite lookup_insert_ne in Hst by done. apply (token_goto _ i (Claimed g) _ (queue sh)); [done|by left|by left|by apply Htok].
  - intros [= <-]. constructor; simpl; [eapply claims_release; [done|done|by intros ? []|done]|done| |].
    + eapply debts_goto; [done|by intros ? ? [_ []%elem_of_nil]|done|by left|done].
    + intros g' Hdis Hg' Hst. apply (token_goto _ i (Running g []) _ (queue sh)); [done|by left|by left|by apply Htok].
  - intros [= <-]. constructor; simpl; [by eapply claims_same|done|by eapply debts_call|].
    intros g' Hdis Hg' Hst. apply (token_goto _ i (Running g (k :: calls)) _ (queue sh)); [done|by left|by left|by apply Htok].
  - case_decide as Hs; intros [= <-].
    + assert (∀ k g', pending k g' (groupState sh) → pending k g' (delete g (groupState sh))) as Hp.
      { intros k g' (st & E & Hb). exists st. split; [|done]. rewrite lookup_delete_ne; [done|]. intros ->. rewrite E in Hs. simpl in Hs.
        rewrite Hs in Hb. by destruct k. }
      destruct (idle_goto _ i _ Waiting _ _ _ _ Hi I I Hp Hc Hd). constructor; [done| |done|].
      * simpl. intros g' st [_ E]%lookup_delete_Some. by apply (Ht g').
      * simpl. intros g' Hdis Hg' [st [Hne E]%lookup_delete_Some]. apply (token_goto _ i (Released g) Waiting (queue sh)); [done|by left|by intros ->|].
        apply Htok; [done|done|by exists st].
    + destruct (idle_goto _ i _ (Again g) _ _ _ _ Hi I I (fun _ _ H => H) Hc Hd). constructor; [done..|]. simpl. intros g' Hdis Hg' Hst.
      apply (token_goto _ i (Released g) _ (queue sh)); [done|by left|by left|by apply Htok].
  - intros [= <-]. destruct (idle_goto _ i _ Waiting _ _ _ _ Hi I I (fun _ _ H => H) Hc Hd). unfold Put.
    destruct (disposed sh) eqn:Hdis; (constructor; [done..|]); simpl; [by rewrite Hdis|]. intros g' _ Hg' Hst.
    apply (token_goto _ i (Again g) Waiting (queue sh)); [done|intros ?; left; apply elem_of_app; by left| |by apply Htok].
    simpl. intros ->. right; left. apply elem_of_app. right. by left.
Qed.

(** Asking for work. *)
Lemma asked_debts ws m m' l k g :
  (∀ k' g', pending k' g' m → pending k' g' m') → pending k g m' → debts_ok ws m l → debts_ok ws m' (l ++ [Enqueued (bit k) g]).
Proof.
  intros Hm Hk [He Ho Hr]. constructor; [done|..].
  - intros k1 k' g' Hk' Hd. apply debt_snoc in Hd as [[= Hb ->]|[Hd _]].
    + left. rewrite !bit_pow in Hb. apply Z.pow_inj_r, pos_inj in Hb; [by subst|done|by destruct k|by destruct k1].
    + destruct (Ho _ _ _ Hk' Hd); [left; by apply Hm|by right].
  - intros k1 g' Hk' Hd. apply debt_snoc in Hd as [[=]|[Hd _]]. by eapply Hr.
Qed.

Definition few_ticks (maxTicks : Z) : Prop := 1 <= maxTicks < 2 ^ 63 - 1.
Definition ticks_bounded (maxTicks : Z) (m : gmap Z internalState) : Prop := ∀ g st, m !! g = Some st → 0 <= ticks st <= maxTicks.

Lemma asked_ticks mt k st :
  few_ticks mt → 0 <= ticks st <= mt → 0 <= ticks (asked_state mt (bit k) st) <= mt ∧ ticks st <= ticks (asked_state mt (bit k) st) ∧
    (k = Tick → 1 <= ticks (asked_state mt (bit k) st)).
Proof.
  intros [? ?] Hst. simpl. change stateTick with (bit Tick). rewrite has_bit, test_bit, i64_small by lia.
  case_bool_decide; [subst; case_decide; lia|]. by split_and!; [lia..|].
Qed.

(** What [enqueue] does: it makes a note, and it adds the bit and then puts the group into
    the queue if it is not marked as queued. *)
Lemma enqueue_cases mt k g sh sh' :
  enqueue mt (bit k) g sh = Ret sh' →
  let old := default noState (groupState sh !! g) in
  let m := <[g := asked_state mt (bit k) old]> (groupState sh) in
  notes sh' = notes sh ++ [Enqueued (bit k) g] ∧ workers sh' = workers sh ∧ inProcessing sh' = inProcessing sh ∧ disposed sh' = disposed sh ∧
  ((groupState sh' = groupState sh ∧ queue sh' = queue sh ∧ pending k g (groupState sh)) ∨
   (groupState sh' = m ∧ queue sh' = queue sh ∧ is_Some (groupState sh !! g)) ∨
   (groupState sh' = m ∧ queue sh' = queue sh ++ [g])).
Proof.
  intros E old m. revert E. unfold enqueue. cbv zeta. cbn [groupState with_note]. fold old. fold m.
  destruct (negb _ && _) eqn:Hh.
  - intros [= <-]. split_and!; try done. left. split_and!; [done..|]. apply andb_true_iff in Hh as [_ Hh]. rewrite has_bit in Hh.
    unfold old in Hh. destruct (groupState sh !! g) as [st|] eqn:Est; [by exists st|]. by destruct k.
  - case_decide as Hq.
    + unfold Put. cbn [disposed with_groupState with_note]. destruct (disposed sh) eqn:Hdis; [done|]. intros [= <-]. split_and!; try done. by right; right.
    + intros [= <-]. split_and!; try done. right; left. split_and!; [done..|]. destruct (groupState sh !! g) as [st|] eqn:Est; [by exists st|].
      destruct Hq. unfold old. simpl. by destruct k.
Qed.

Lemma enqueue_inv mt k g sh sh' :
  few_ticks mt → ticks_bounded mt (groupState sh) → g ≠ 0 → inv sh → enqueue mt (bit k) g sh = Ret sh' →
  inv sh' ∧ ticks_bounded mt (groupState sh').
Proof.
  intros Hmt Hb Hg [Hc Ht Hd Htok] E. apply enqueue_cases in E. cbv zeta in E. destruct E as (Hn & Hw & Hp & Hdis & E).
  set (old := default noState (groupState sh !! g)) in *. set (m := <[g := asked_state mt (bit k) old]> (groupState sh)) in *.
  assert (0 <= ticks old <= mt) as Hold.
  { unfold old. destruct (groupState sh !! g) as [st|] eqn:Est; [by apply (Hb g)|]. destruct Hmt. simpl. lia. }
  destruct (asked_ticks mt k old Hmt Hold) as (Hnew & Hle & Hone).
  assert (pending k g m) as Hk.
  { exists (asked_state mt (bit k) old). split; [by apply lookup_insert_eq|]. simpl. rewrite test_lor, bool_decide_eq_true_2 by done. apply orb_true_r. }
  assert (∀ k' g', pending k' g' (groupState sh) → pending k' g' m) as Hm.
  { intros k' g' (st & Est & Hst). destruct (decide (g' = g)) as [->|Hne]; [|exists st; split; [|done]; unfold m; by rewrite lookup_insert_ne].
    exists (asked_state mt (bit k) old). split; [by apply lookup_insert_eq|]. unfold old. rewrite Est. simpl. by rewrite test_lor, Hst. }
  assert (ticks_ok m) as Htm.
  { intros g' st [[<- <-]|[_ Est]]%lookup_insert_Some; [|by apply (Ht g')]. simpl state. rewrite test_lor. intros [Hst| ->%bool_decide_eq_true]%orb_true_iff; [|by apply Hone].
    etrans; [|exact Hle]. unfold old in Hst |- *. destruct (groupState sh !! g) as [st|] eqn:Est; [by apply (Ht g)|done]. }
  assert (ticks_bounded mt m) as Hbm by (intros g' st [[<- <-]|[_ Est]]%lookup_insert_Some; [done|by apply (Hb g')]).
  destruct E as [(Em & Eq & Hpend)|[(Em & Eq & Hs)|(Em & Eq)]]; rewrite Em; (split; [constructor; rewrite ?Hn, ?Hw, ?Hp, ?Hdis, ?Em, ?Eq|]); try done;
    try (by eapply asked_debts).
  - intros g' Hd' Hg' [st [[<- <-]|[_ Est]]%lookup_insert_Some]; by apply Htok.
  - intros g' Hd' Hg' [st [[<- <-]|[_ Est]]%lookup_insert_Some]; [left; apply elem_of_app; right; by left|].
    destruct (Htok g' Hd' Hg') as [?|?]; [by exists st|left; apply elem_of_app; by left|by right].
Qed.

(** ** Workers come to an end *)

(** What a worker holds of group [g], before and after it has taken its state, and the steps
    it still makes with it. *)
Definition before_take (g : Z) (w : worker) : nat :=
  match w with Got g' | Claimed g' | Again g' => if decide (g' = g) then 1 else 0 | _ => 0 end.
Definition after_take (g : Z) (w : worker) : nat :=
  match w with Running g' _ | Released g' => if decide (g' = g) then 1 else 0 | _ => 0 end.
Definition steps_left (g : Z) (w : worker) : nat :=
  match w with
  | Again g' => if decide (g' = g) then 3 else 0
  | Got g' | Released g' => if decide (g' = g) then 1 else 0
  | Running g' calls => if decide (g' = g) then length calls + 2 else 0
  | _ => 0
  end.
Definition alive (w : worker) : nat := match w with Exited => 0 | _ => 1 end.
Definition queued (g : Z) (q : list Z) : nat := sum_list_with (fun g' => if decide (g' = g) then 1 else 0)%nat q.

(** Tokens of a group only get fewer; as long as none goes, each token can take the state of
    the group once and go on. *)
Definition rounds (n1 n2 : nat) (marked : bool) : nat :=
  (n1 + n2 + 1) * (n1 + n2 + 1) + (if marked then n1 else n1 + n2 + 1 + n2).
Definition group_weight (g : Z) (sh : sharder) : nat :=
  let st := default noState (groupState sh !! g) in
  16 * rounds (queued g (queue sh) + sum_list_with (before_take g) (workers sh)) (sum_list_with (after_take g) (workers sh))
         (bool_decide (state st = stateQueue)) +
  Z.to_nat (ticks st) + sum_list_with (steps_left g) (workers sh) + 2 * queued g (queue sh).
Definition weight (gs : list Z) (sh : sharder) : nat :=
  sum_list_with (fun g => group_weight g sh) gs + sum_list_with alive (workers sh).

Lemma sum_split (f : worker → nat) ws i w :
  ws !! i = Some w → ∃ p, sum_list_with f ws = (p + f w)%nat ∧ ∀ w', sum_list_with f (<[i := w']> ws) = (p + f w')%nat.
Proof.
  revert i. induction ws as [|x ws IH]; intros [|i] Hi; try done; simpl in *.
  - injection Hi as ->. exists (sum_list_with f ws). split; intros; lia.
  - destruct (IH i Hi) as (p & -> & Hp). exists (f x + p)%nat. split; [lia|]. intros w'. rewrite Hp. lia.
Qed.

Lemma sum_less {A} (f f' : A → nat) l x : x ∈ l → (f' x < f x)%nat → (∀ y, y ∈ l → (f' y <= f y)%nat) → (sum_list_with f' l < sum_list_with f l)%nat.
Proof.
  induction l as [|y l IH]; intros Hx Hlt Hle; [by apply elem_of_nil in Hx|]. simpl.
  assert (f' y <= f y)%nat by (apply Hle; by left).
  assert (∀ l', (∀ z, z ∈ l' → (f' z <= f z)%nat) → (sum_list_with f' l' <= sum_list_with f l')%nat) as Hsum.
  { induction l' as [|z l' IH']; intros H'; [done|]. simpl. assert (f' z <= f z)%nat by (apply H'; by left).
    assert (sum_list_with f' l' <= sum_list_with f l')%nat by (apply IH'; intros; apply H'; by right). lia. }
  apply elem_of_cons in Hx as [->|Hx].
  - assert (sum_list_with f' l <= sum_list_with f l)%nat by (apply Hsum; intros; apply Hle; by right). lia.
  - assert (sum_list_with f' l < sum_list_with f l)%nat by (apply IH; [done|done|intros; apply Hle; by right]). lia.
Qed.

Lemma rounds_fewer n1 n2 n1' n2' b b' : (n1' + n2' < n1 + n2)%nat → (rounds n1' n2' b' + 1 <= rounds n1 n2 b)%nat.
Proof. intros H. unfold rounds. destruct b, b'; nia. Qed.
Lemma rounds_take n1 n2 b : (rounds n1 (S n2) true + 1 <= rounds (S n1) n2 b)%nat.
Proof. unfold rounds. destruct b; nia. Qed.
Lemma rounds_again n1 n2 : (rounds (S n1) n2 false + 1 <= rounds n1 (S n2) false)%nat.
Proof. unfold rounds. nia. Qed.

Lemma calls_for_length st : (length (calls_for st) <= 4 + Z.to_nat (ticks st))%nat.
Proof.
  rewrite calls_for_eq. cbv zeta. rewrite !length_app.
  assert (∀ (b : bool) (k : kind), length (if b then [k] else []) <= 1)%nat as H1 by (intros [] ?; simpl; lia).
  assert (length (if Z.testbit (state st) (pos Tick) then replicate (Z.to_nat (ticks st)) Tick else []) <= Z.to_nat (ticks st))%nat
    by (destruct (Z.testbit _ _); rewrite ?length_replicate; simpl; lia).
  pose proof (H1 (Z.testbit (state st) (pos Proposal)) Proposal). pose proof (H1 (Z.testbit (state st) (pos ConfigChange)) ConfigChange).
  pose proof (H1 (Z.testbit (state st) (pos Step)) Step).
  pose proof (H1 (Z.testbit (state st) (pos Proposal) || Z.testbit (state st) (pos ConfigChange) || Z.testbit (state st) (pos Step) || Z.testbit (state st) (pos Tick) || Z.testbit (state st) (pos Ready)) Ready).
  lia.
Qed.

Lemma not_held g w : ¬ holds g w → before_take g w = 0%nat ∧ after_take g w = 0%nat ∧ steps_left g w = 0%nat.
Proof. destruct w as [|g'|g'|g' l|g'|g'|]; simpl; intros Hn; try (by rewrite !decide_False by done); done. Qed.

Definition only (g : Z) (w : worker) : Prop := ∀ g', holds g' w → g' = g.

(** A step of a worker that deals with [g]. *)
Section Step.
Context (sh sh' : sharder) (i : nat) (w w' : worker) (g : Z) (gs : list Z).
Hypothesis at_i : workers sh !! i = Some w.
Hypothesis goes : workers sh' = <[i := w']> (workers sh).

Lemma weight_other g' :
  only g w → only g w' → g' ≠ g → queued g' (queue sh') = queued g' (queue sh) → groupState sh' !! g' = groupState sh !! g' →
  group_weight g' sh' = group_weight g' sh.
Proof using at_i goes.
  intros Hw Hw' Hne Hq Hm. unfold group_weight. rewrite Hq, Hm, goes.
  destruct (not_held g' w) as (A1 & A2 & A3); [by intros ?%Hw|]. destruct (not_held g' w') as (B1 & B2 & B3); [by intros ?%Hw'|].
  destruct (sum_split (before_take g') _ i w at_i) as (p1 & -> & ->). destruct (sum_split (after_take g') _ i w at_i) as (p2 & -> & ->).
  destruct (sum_split (steps_left g') _ i w at_i) as (p3 & -> & ->). by rewrite A1, A2, A3, B1, B2, B3.
Qed.

Lemma weight_step :
  only g w → only g w' → alive w' = alive w → g ∈ gs →
  (∀ g', g' ≠ g → queued g' (queue sh') = queued g' (queue sh) ∧ groupState sh' !! g' = groupState sh !! g') →
  (group_weight g sh' < group_weight g sh)%nat → (weight gs sh' < weight gs sh)%nat.
Proof using at_i goes.
  intros Hw Hw' Ha Hg Ho Hlt. unfold weight. assert (sum_list_with alive (workers sh') = sum_list_with alive (workers sh)) as ->.
  { rewrite goes. destruct (sum_split alive _ i w at_i) as (p & -> & ->). by rewrite Ha. }
  apply Nat.add_lt_mono_r. apply (sum_less (fun g => group_weight g sh) (fun g => group_weight g sh') gs g); [done|done|].
  intros g' _. destruct (decide (g' = g)) as [->|Hne]; [lia|]. destruct (Ho g' Hne). by rewrite weight_other.
Qed.

(** The weight of [g] before and after, with what the worker holds of it. *)
Definition marked (s : sharder) : bool := bool_decide (state (default noState (groupState s !! g)) = stateQueue).
Definition ticks_of (s : sharder) : nat := Z.to_nat (ticks (default noState (groupState s !! g))).
Lemma weight_less :
  (∀ p r s,
     16 * rounds (queued g (queue sh') + (p + before_take g w')) (r + after_take g w') (marked sh') + ticks_of sh' +
       (s + steps_left g w') + 2 * queued g (queue sh') <
     16 * rounds (queued g (queue sh) + (p + before_take g w)) (r + after_take g w) (marked sh) + ticks_of sh +
       (s + steps_left g w) + 2 * queued g (queue sh))%nat →
  (group_weight g sh' < group_weight g sh)%nat.
Proof using at_i goes.
  intros H. unfold group_weight. cbv zeta. rewrite goes.
  destruct (sum_split (before_take g) _ i w at_i) as (p & -> & Hp). destruct (sum_split (after_take g) _ i w at_i) as (r & -> & Hr).
  destruct (sum_split (steps_left g) _ i w at_i) as (s & -> & Hs). rewrite Hp, Hr, Hs. apply H.
Qed.
End Step.

(** [gs] has all groups in play. *)
Definition covers (gs : list Z) (sh : sharder) : Prop := ∀ g, token g (queue sh) (workers sh) → g ∈ gs.

Lemma queued_app g q q' : queued g (q ++ q') = (queued g q + queued g q')%nat.
Proof. apply sum_list_with_app. Qed.

Lemma queued_here g q : queued g (g :: q) = S (queued g q).
Proof. unfold queued. simpl. by rewrite decide_True. Qed.
Lemma queued_other g g' q : g ≠ g' → queued g' (g :: q) = queued g' q.
Proof. intros. unfold queued. simpl. by rewrite decide_False. Qed.

(** One step of a worker that holds a group, by the weight of that group. *)
Lemma weight_move gs sh sh' i w w' g :
  workers sh !! i = Some w → workers sh' = <[i := w']> (workers sh) → only g w → only g w' → alive w' = alive w → g ∈ gs →
  (∀ g', g' ≠ g → queued g' (queue sh') = queued g' (queue sh) ∧ groupState sh' !! g' = groupState sh !! g') →
  (∀ p r s,
     16 * rounds (queued g (queue sh') + (p + before_take g w')) (r + after_take g w') (marked g sh') + ticks_of g sh' +
       (s + steps_left g w') + 2 * queued g (queue sh') <
     16 * rounds (queued g (queue sh) + (p + before_take g w)) (r + after_take g w) (marked g sh) + ticks_of g sh +
       (s + steps_left g w) + 2 * queued g (queue sh))%nat →
  (weight gs sh' < weight gs sh)%nat.
Proof.
  intros Hi Hg Hw Hw' Ha Hin Ho Hlt. apply (weight_step sh sh' i w w' g); try done. by apply (weight_less sh sh' i w w').
Qed.

(** The goals of [weight_move] that hold by looking at the worker, and a comparison of rounds. *)
Ltac holder := by intros ? ?; simpl in *; subst.
Ltac moves sh w w' g := eapply (weight_move _ sh _ _ w w' g); [done|done|holder|holder|done|done|..].
Ltac look := cbn [before_take after_take steps_left queue groupState with_queue with_groupState with_inProcessing with_note goto length default id state ticks].
Ltac tally H :=
  match goal with
  | |- (16 * rounds ?a ?b ?c + _ + _ + _ < 16 * rounds ?a' ?b' ?c' + _ + _ + _)%nat => pose proof (H a' b' a b c' c) as Hr
  end.

Lemma exit_weight gs sh i : workers sh !! i = Some Waiting → (weight gs (goto i Exited sh) < weight gs sh)%nat.
Proof.
  intros Hi. unfold weight. simpl. destruct (sum_split alive _ i _ Hi) as (p & -> & ->). simpl.
  assert (∀ l, sum_list_with (λ g, group_weight g (goto i Exited sh)) l = sum_list_with (λ g, group_weight g sh) l) as ->; [|lia].
  intros l. induction l as [|g l IH]; [done|]. simpl. rewrite IH. f_equal.
  apply (weight_other sh _ i Waiting Exited (g + 1)); [done|done|holder|holder|lia|done|done].
Qed.

Lemma pop_weight gs sh i g q :
  workers sh !! i = Some Waiting → queue sh = g :: q → g ∈ gs →
  (weight gs (goto i (if decide (g = 0%Z) then Waiting else Got g) (with_queue q sh)) < weight gs sh)%nat.
Proof.
  intros Hi Hq Hg. assert (∀ g', g' ≠ g → queued g' q = queued g' (queue sh)) as Hother by (intros; by rewrite Hq, queued_other).
  case_decide as H0.
  - moves sh Waiting Waiting g; [intros; split; [by apply Hother|done]|]. intros p r s. look. rewrite Hq, queued_here.
    tally rounds_fewer. unfold ticks_of in *. look. lia.
  - moves sh Waiting (Got g) g; [intros; split; [by apply Hother|done]|]. intros p r s. look. rewrite Hq, queued_here.
    unfold marked, ticks_of. look. rewrite !decide_True by done.
    replace (queued g q + (p + 1))%nat with (S (queued g q) + (p + 0))%nat by lia. lia.
Qed.

Lemma work_weight i gs sh sh' : covers gs sh → work i sh = Some sh' → (weight gs sh' < weight gs sh)%nat.
Proof.
  intros Hcov. unfold work. destruct (workers sh !! i) as [w|] eqn:Hi; [|done]. cbn [mbind option_bind].
  assert (∀ g, holds g w → g ∈ gs) as Hin.
  { intros g Hg. apply Hcov. right. apply Exists_exists. exists w. split; [|done]. apply list_elem_of_lookup. by exists i. }
  destruct w as [|g|g|g [|k calls]|g|g|]; [..|done]; try (specialize (Hin g eq_refl)).
  - destruct (disposed sh) eqn:Hdis; [|destruct (queue sh) as [|g q] eqn:Hq; [done|]]; intros [= <-].
    + by apply exit_weight.
    + apply pop_weight; [done|done|]. apply Hcov. left. rewrite Hq. by left.
  - case_decide; intros [= <-].
    + moves sh (Got g) Waiting g; [done|]. intros p r s. look. rewrite !decide_True by done. tally rounds_fewer. unfold ticks_of in *. look. lia.
    + moves sh (Got g) (Claimed g) g; [done|]. intros p r s. unfold marked, ticks_of. look. rewrite !decide_True by done. lia.
  - intros [= <-]. moves sh (Claimed g) (Running g (calls_for (default noState (groupState sh !! g)))) g.
    { intros g' Hne. simpl. by rewrite lookup_insert_ne. }
    intros p r s. unfold marked at 1, ticks_of at 1. look. rewrite !lookup_insert_eq, !decide_True by done. look.
    change (bool_decide (stateQueue = stateQueue)) with true.
    pose proof (calls_for_length (default noState (groupState sh !! g))). unfold ticks_of.
    pose proof (rounds_take (queued g (queue sh) + p) r (marked g sh)) as Hr.
    replace (queued g (queue sh) + (p + 1))%nat with (S (queued g (queue sh) + p)) by lia. replace (r + 1)%nat with (S r) by lia.
    rewrite !Nat.add_0_r. lia.
  - intros [= <-]. moves sh (Running g []) (Released g) g; [done|]. intros p r s. unfold marked, ticks_of. look. rewrite !decide_True by done. lia.
  - intros [= <-]. moves sh (Running g (k :: calls)) (Running g calls) g; [done|]. intros p r s. unfold marked, ticks_of. look. rewrite !decide_True by done. lia.
  - case_decide as Hs; intros [= <-].
    + moves sh (Released g) Waiting g; [intros g' Hne; simpl; by rewrite lookup_delete_ne|]. intros p r s. look. rewrite !decide_True by done.
      tally rounds_fewer. assert (ticks_of g (goto i Waiting (with_groupState (delete g (groupState sh)) sh)) = 0%nat) by (unfold ticks_of; simpl; by rewrite lookup_delete_eq). lia.
    + moves sh (Released g) (Again g) g; [done|]. intros p r s. unfold marked, ticks_of. look. rewrite !decide_True by done.
      rewrite !bool_decide_eq_false_2 by done. pose proof (rounds_again (queued g (queue sh) + p) r) as Hr.
      replace (queued g (queue sh) + (p + 1))%nat with (S (queued g (queue sh) + p)) by lia. replace (r + 1)%nat with (S r) by lia.
      rewrite !Nat.add_0_r. lia.
  - intros [= <-]. unfold Put. destruct (disposed sh).
    + moves sh (Again g) Waiting g; [done|]. intros p r s. look. rewrite !decide_True by done. tally rounds_fewer. unfold ticks_of in *. look. lia.
    + moves sh (Again g) Waiting g.
      { intros g' Hne. simpl. by rewrite queued_app, queued_other, Nat.add_0_r by done. }
      intros p r s. unfold marked, ticks_of. look. rewrite !decide_True, queued_app, queued_here by done. change (queued g []) with 0%nat.
      replace (queued g (queue sh) + 1 + (p + 0))%nat with (queued g (queue sh) + (p + 1))%nat by lia. lia.
Qed.

(** Workers bring no new groups into play. *)
Lemma work_token i sh sh' g : work i sh = Some sh' → token g (queue sh') (workers sh') → token g (queue sh) (workers sh).
Proof.
  unfold work. destruct (workers sh !! i) as [w|] eqn:Hi; [|done]. cbn [mbind option_bind].
  assert (∀ w' q', (holds g w' → holds g w ∨ g ∈ queue sh) → (g ∈ q' → g ∈ queue sh ∨ holds g w) →
    token g q' (<[i := w']> (workers sh)) → token g (queue sh) (workers sh)) as Hgo.
  { intros w' q' Hw Hq. assert (holds g w → token g (queue sh) (workers sh)) as Hh.
    { intros Hh. right. apply Exists_exists. exists w. split; [|done]. apply list_elem_of_lookup. by exists i. }
    intros [[?|?]%Hq|(x & Hx & Hg)%Exists_exists]; [by left|by apply Hh|]. apply list_elem_of_lookup in Hx as [j Hj].
    apply list_lookup_insert_Some in Hj as [(<- & <- & _)|[_ Hj]]; [destruct (Hw Hg); [by apply Hh|by left]|].
    right. apply Exists_exists. exists x. split; [|done]. apply list_elem_of_lookup. by exists j. }
  destruct w as [|g'|g'|g' [|k calls]|g'|g'|]; [..|done].
  - destruct (disposed sh); [|destruct (queue sh) as [|g' q] eqn:Hq; [done|]]; intros [= <-]; simpl.
    + apply Hgo; [done|by left].
    + apply Hgo; [|left; by right]. case_decide; [done|]. simpl. intros ->. right. by left.
  - case_decide; intros [= <-]; apply Hgo; by auto.
  - intros [= <-]; apply Hgo; by auto.
  - intros [= <-]; apply Hgo; by auto.
  - intros [= <-]; apply Hgo; by auto.
  - case_decide; intros [= <-]; apply Hgo; by auto.
  - intros [= <-]. unfold Put. destruct (disposed sh); apply Hgo; [done|by auto|done|].
    intros [?|[->|?%elem_of_nil]%elem_of_cons]%elem_of_app; [by left|by right|done].
Qed.

Lemma work_frame i sh sh' mt :
  work i sh = Some sh' → 0 <= mt → ticks_bounded mt (groupState sh) →
  ticks_bounded mt (groupState sh') ∧ disposed sh' = disposed sh ∧ length (workers sh') = length (workers sh).
Proof.
  unfold work. destruct (workers sh !! i) as [w|] eqn:Hi; [|done]. cbn [mbind option_bind]. unfold Put. intros Hw Hmt Hb.
  assert (∀ w', length (<[i := w']> (workers sh)) = length (workers sh)) as Hl by (intros; apply length_insert).
  destruct w as [|g|g|g [|k calls]|g|g|]; [..|done]; repeat (case_match; try done); simplify_eq/=; split_and!; try done; try apply Hl.
  - intros g' st [[<- <-]|[_ E]]%lookup_insert_Some; [done|by apply (Hb g')].
  - intros g' st [_ E]%lookup_delete_Some. by apply (Hb g').
Qed.

Lemma work_present i sh sh' : work i sh = Some sh' → disposed sh = false → Exited ∉ workers sh → Exited ∉ workers sh'.
Proof.
  unfold work. destruct (workers sh !! i) as [w|] eqn:Hi; [|done]. cbn [mbind option_bind]. unfold Put. intros Hw Hdis Hp Hin.
  assert (∀ w', w' ≠ Exited → Exited ∉ <[i := w']> (workers sh)) as Hgo.
  { intros w' Hne (j & [(_ & -> & _)|[_ Hj]]%list_lookup_insert_Some)%list_elem_of_lookup; [done|]. apply Hp, list_elem_of_lookup. by exists j. }
  destruct w as [|g|g|g [|k calls]|g|g|]; [..|done]; repeat (case_match; try done); simplify_eq/=; by eapply Hgo in Hin.
Qed.

(** ** The whole scheduler *)

Record shard_ok (cfg : schedulerConfig) (j : nat) (sh : sharder) : Prop := {
  so_inv : inv sh;
  so_ticks : ticks_bounded (maxTicks cfg) (groupState sh);
  so_workers : length (workers sh) = shardWorkerNum cfg;
  so_present : disposed sh = false → Exited ∉ workers sh;
  so_home g : token g (queue sh) (workers sh) → j = Z.to_nat (g mod Z.of_nat (shardNum cfg))
}.
Record scheduler_ok (cfg : schedulerConfig) (s : raftScheduler) : Prop := {
  sk_config : config s = cfg;
  sk_shards j sh : sharders s !! j = Some sh → shard_ok cfg j sh
}.

Lemma token_new cfg g : ¬ token g [] (replicate (shardWorkerNum cfg) Waiting).
Proof. intros [[]%elem_of_nil|(w & [-> _]%elem_of_replicate & [])%Exists_exists]. Qed.

Lemma newSharder_ok cfg j : few_ticks (maxTicks cfg) → shard_ok cfg j (newSharder cfg).
Proof.
  intros Hmt. assert (∀ i w, replicate (shardWorkerNum cfg) Waiting !! i = Some w → w = Waiting) as Hw by (by intros i w [-> _]%lookup_replicate).
  assert (∀ x k g, ¬ debt x k g []) as Hd by (by intros x k g ([] & l2 & [=] & _)).
  constructor; simpl; [|done|by rewrite length_replicate|by intros _ [? _]%elem_of_replicate|by intros g ?%token_new]. constructor; simpl.
  - constructor; [by intros i w g ->%Hw|done|by intros i j' w w' g ->%Hw].
  - done.
  - constructor; [by intros i g calls ?%Hw|by intros k k' g _ ?%Hd|by intros k g _ ?%Hd].
  - intros g _ _ [st E]. by rewrite lookup_empty in E.
Qed.

Lemma shards_update cfg s j sh' :
  scheduler_ok cfg s → shard_ok cfg j sh' → scheduler_ok cfg {| config := config s; sharders := <[j := sh']> (sharders s) |}.
Proof.
  intros [Hc Hs] Hok. constructor; [done|]. simpl. intros j' sh [(<- & <- & _)|[_ E]]%list_lookup_insert_Some; [done|by apply Hs].
Qed.

Lemma dispose_ok cfg j sh : shard_ok cfg j sh → shard_ok cfg j (dispose sh).
Proof.
  intros [[Hc Ht Hd Htok] Hb Hw Hp Hh]. constructor; [|done|done|done|].
  - by constructor.
  - intros g [[]%elem_of_nil|Hex]. apply Hh. by right.
Qed.

Lemma work_ok cfg j i sh sh' : few_ticks (maxTicks cfg) → shard_ok cfg j sh → work i sh = Some sh' → shard_ok cfg j sh'.
Proof.
  intros [? ?] [Hi Hb Hw Hp Hh] E. destruct (work_frame i sh sh' (maxTicks cfg) E) as (Hb' & Hd & Hl); [lia|done|].
  constructor; [by eapply work_inv|done|congruence| |].
  { rewrite Hd. intros Hdis. by eapply work_present, Hp. }
  intros g Hg. apply Hh. by eapply work_token.
Qed.

Lemma enqueue_ok cfg k g sh sh' :
  few_ticks (maxTicks cfg) → 0 < g → let j := Z.to_nat (g mod Z.of_nat (shardNum cfg)) in
  shard_ok cfg j sh → enqueue (maxTicks cfg) (bit k) g sh = Ret sh' → shard_ok cfg j sh'.
Proof.
  intros Hmt Hg j [Hi Hb Hw Hp Hh] E. destruct (enqueue_inv (maxTicks cfg) k g sh sh' Hmt Hb) as [Hi' Hb']; [lia|done|done|].
  destruct (enqueue_cases _ _ _ _ _ E) as (_ & Ew & _ & Ed & Eq). constructor; [done|done|congruence|by rewrite Ew, Ed|]. rewrite Ew. intros g' Hg'.
  destruct (decide (g' = g)) as [->|Hne]; [done|]. apply Hh. destruct Hg' as [Hq|?]; [left|by right].
  assert (queue sh' = queue sh ∨ queue sh' = queue sh ++ [g]) as [E'|E'] by (destruct Eq as [(_ & ? & _)|[(_ & ? & _)|(_ & ?)]]; auto); rewrite E' in Hq; [done|].
  by apply elem_of_app in Hq as [?| ->%list_elem_of_singleton].
Qed.

Lemma step_ok cfg s s' : few_ticks (maxTicks cfg) → scheduler_ok cfg s → step s s' → scheduler_ok cfg s'.
Proof.
  intros Hmt Hs Hst. revert Hs. destruct Hst as [k g s s' Hg E|j i s s' E|s]; intros Hs; pose proof (sk_config _ _ Hs) as Hcfg.
  - unfold EnqueueState in E. case_decide; [done|]. destruct (sharders s !! shard_of s g) as [sh|] eqn:Esh; [|done].
    destruct (enqueue _ _ _ _) as [sh'|] eqn:E'; [|done]. injection E as <-. apply shards_update; [done|].
    unfold shard_of in *. rewrite Hcfg in Esh, E' |- *. apply (enqueue_ok cfg k g sh); [done|done|by apply (sk_shards _ _ Hs)|done].
  - unfold worker_step in E. destruct (sharders s !! j) as [sh|] eqn:Esh; [|done]. cbn [mbind option_bind] in E.
    destruct (work i sh) as [sh'|] eqn:E'; [|done]. injection E as <-. apply shards_update; [done|].
    eapply work_ok; [done|by apply (sk_shards _ _ Hs)|done].
  - constructor; [done|]. simpl. intros j sh. rewrite list_lookup_fmap. intros (sh0 & E & ->)%fmap_Some. by apply dispose_ok, (sk_shards _ _ Hs).
Qed.

Lemma reachable_ok cfg s : few_ticks (maxTicks cfg) → rtc step (Start cfg) s → scheduler_ok cfg s.
Proof.
  intros Hmt Hr. remember (Start cfg) as s0 eqn:E0. assert (scheduler_ok cfg s0) as Hs0.
  { subst. constructor; [done|]. simpl. intros j sh [-> _]%lookup_replicate. by apply newSharder_ok. }
  clear E0. induction Hr as [|s0 s1 s2 Hs _ IH]; [done|]. apply IH. by eapply step_ok.
Qed.

(** C12: a group is processed by one worker at a time, in the whole scheduler: of two workers
    that make calls for the same group, one is the other, and it is a worker of the shard of the
    group, given by the remainder of its number.  The limit of ticks is positive and far from
    the end of the integers. *)
Theorem one_worker_per_group cfg s j j' sh sh' i i' g calls calls' :
  few_ticks (maxTicks cfg) → rtc step (Start cfg) s →
  sharders s !! j = Some sh → workers sh !! i = Some (Running g calls) →
  sharders s !! j' = Some sh' → workers sh' !! i' = Some (Running g calls') →
  j = j' ∧ i = i' ∧ j = Z.to_nat (g mod Z.of_nat (shardNum cfg)).
Proof.
  intros Hmt Hr Hj Hi Hj' Hi'. pose proof (reachable_ok cfg s Hmt Hr) as Hs.
  assert (∀ j sh i calls, sharders s !! j = Some sh → workers sh !! i = Some (Running g calls) → j = Z.to_nat (g mod Z.of_nat (shardNum cfg))) as Hhome.
  { intros j0 sh0 i0 c0 H0 Hi0. apply (so_home _ _ _ (sk_shards _ _ Hs j0 sh0 H0)). right. apply Exists_exists. exists (Running g c0).
    split; [|done]. apply list_elem_of_lookup. by exists i0. }
  assert (j = j') as <- by (etrans; [by eapply Hhome|symmetry; by eapply Hhome]). split; [done|]. rewrite Hj in Hj'. injection Hj' as <-.
  split; [|by eapply Hhome]. by eapply (cl_one _ _ (in_claims _ (so_inv _ _ _ (sk_shards _ _ Hs j sh Hj)))).
Qed.

(** ** Everything asked for is done *)

(** After each request there is its call, and behind that the call for the ready state. *)
Definition all_done (sh : sharder) : Prop :=
  ∀ k g l1 l2, 0 < g → notes sh = l1 ++ Enqueued (bit k) g :: l2 →
    ∃ l3 l4, l2 = l3 ++ Processed k g :: l4 ∧ (k ≠ Ready → Processed Ready g ∈ l4).

#[export] Instance note_eq_dec : EqDecision note.
Proof. solve_decision. Defined.

Lemma not_debt x k g l l1 l2 : ¬ debt x k g l → l = l1 ++ x :: l2 → Processed k g ∈ l2.
Proof. intros Hd ->. destruct (decide (Processed k g ∈ l2)) as [?|Hn]; [done|]. destruct Hd. by exists l1, l2. Qed.

(** Nobody has anything to do. *)
Definition resting (sh : sharder) : Prop := queue sh = [] ∧ ∀ i w, workers sh !! i = Some w → w = Waiting.

Lemma resting_done sh : inv sh → disposed sh = false → resting sh → all_done sh.
Proof.
  intros [_ _ Hd Htok] Hdis [Hq Hw] k g l1 l2 Hg E.
  assert (∀ P, Exists P (workers sh) → P Waiting) as Hno.
  { intros P (w & Hin & Hp)%Exists_exists. apply list_elem_of_lookup in Hin as [i Hi]. by rewrite <- (Hw i w Hi). }
  assert (∀ k', ¬ pending k' g (groupState sh)) as Hp.
  { intros k' (st & Est & _). destruct (Htok g Hdis) as [Hin|Hex]; [lia|by exists st|by rewrite Hq in Hin; apply elem_of_nil in Hin|by apply Hno in Hex]. }
  assert (∀ k', k' = k ∨ k' = Ready → ¬ debt (Enqueued (bit k) g) k' g (notes sh)) as Hnd.
  { intros k' Hk Hdebt. destruct (de_owed _ _ _ Hd k k' g Hk Hdebt) as [?|Hex]; [by eapply Hp|by apply Hno in Hex]. }
  pose proof (not_debt _ _ _ _ l1 l2 (Hnd k (or_introl eq_refl)) E) as Hin. apply list_elem_of_split in Hin as (l3 & l4 & ->).
  exists l3, l4. split; [done|]. intros Hk. apply (not_debt (Processed k g) _ _ (notes sh) (l1 ++ Enqueued (bit k) g :: l3)).
  - intros Hdebt. pose proof (de_ready _ _ _ Hd k g Hk Hdebt) as Hex. by apply Hno in Hex.
  - by rewrite E, <- (assoc_L (++)).
Qed.

(** A step of some worker. *)
Definition works (s s' : raftScheduler) : Prop := ∃ j i, worker_step j i s = Some s'.

Definition held (w : worker) : list Z :=
  match w with Got g | Claimed g | Running g _ | Released g | Again g => [g] | _ => [] end.
Definition groups (s : raftScheduler) : list Z := sharders s ≫= fun sh => queue sh ++ (workers sh ≫= held).

Lemma groups_cover s j sh : sharders s !! j = Some sh → covers (groups s) sh.
Proof.
  intros Hj g Hg. apply list_elem_of_bind. exists sh. split; [|by apply list_elem_of_lookup; exists j].
  apply elem_of_app. destruct Hg as [?|(w & Hw & Hg)%Exists_exists]; [by left|right]. apply list_elem_of_bind. exists w. split; [|done].
  destruct w; simpl in Hg |- *; try done; subst; by left.
Qed.

Lemma worker_step_inv j i s s' :
  worker_step j i s = Some s' → ∃ sh sh', sharders s !! j = Some sh ∧ work i sh = Some sh' ∧ config s' = config s ∧ sharders s' = <[j := sh']> (sharders s).
Proof.
  unfold worker_step. destruct (sharders s !! j) as [sh|]; [|done]. cbn [mbind option_bind].
  destruct (work i sh) as [sh'|] eqn:E; [|done]. cbn [mbind option_bind]. intros [= <-]. by exists sh, sh'.
Qed.

Lemma sum_insert {A} (f : A → nat) l j x y : l !! j = Some x → (f y < f x)%nat → (sum_list_with f (<[j := y]> l) < sum_list_with f l)%nat.
Proof. revert j. induction l as [|z l IH]; intros [|j] Hj Hlt; try done; simpl in *; [simplify_eq; lia|]. specialize (IH j Hj Hlt). lia. Qed.

(** Each step makes the scheduler lighter, so there are no more steps than it weighs. *)
Lemma works_bounded gs n s s' :
  (∀ j sh, sharders s !! j = Some sh → covers gs sh) → nsteps works n s s' → (n <= sum_list_with (weight gs) (sharders s))%nat.
Proof.
  intros Hc Hn. induction Hn as [|n s s1 s' (j & i & E) _ IH]; [lia|]. apply worker_step_inv in E as (sh & sh' & Hj & Hw & _ & E).
  assert (sum_list_with (weight gs) (sharders s1) < sum_list_with (weight gs) (sharders s))%nat.
  { rewrite E. eapply sum_insert; [done|]. eapply work_weight; [by eapply Hc|done]. }
  assert (n <= sum_list_with (weight gs) (sharders s1))%nat; [|lia]. apply IH. intros j' sh0. rewrite E.
  intros [(<- & <- & _)|[_ E']]%list_lookup_insert_Some; [|by eapply Hc]. intros g Hg. apply (Hc j sh Hj). by eapply work_token.
Qed.

(** A worker without a step waits for an element of an empty queue, or has left. *)
Lemma work_stuck i sh w : workers sh !! i = Some w → disposed sh = false → work i sh = None → (w = Waiting ∧ queue sh = []) ∨ w = Exited.
Proof.
  intros Hi Hdis. unfold work. rewrite Hi. cbn [mbind option_bind].
  destruct w as [|g|g|g [|k calls]|g|g|]; try done; [|by case_decide|by case_decide|by right]. rewrite Hdis.
  destruct (queue sh); [by left|done].
Qed.

Lemma stuck_resting cfg j sh :
  (0 < shardWorkerNum cfg)%nat → shard_ok cfg j sh → disposed sh = false → (∀ i, work i sh = None) → resting sh.
Proof.
  intros Hn Hok Hdis Hst. assert (∀ i w, workers sh !! i = Some w → w = Waiting ∧ queue sh = []) as Hw.
  { intros i w Hi. destruct (work_stuck i sh w Hi Hdis (Hst i)) as [?| ->]; [done|]. destruct (so_present _ _ _ Hok Hdis).
    apply list_elem_of_lookup. by exists i. }
  split; [|intros; by eapply Hw]. destruct (lookup_lt_is_Some_2 (workers sh) 0) as [w Hw0]; [rewrite (so_workers _ _ _ Hok); lia|].
  by eapply Hw.
Qed.

(** C13: work that was asked for gets done.  In every reachable state the workers, left to
    themselves, make only so many steps, in whatever order they are scheduled; and where
    none of them has a step left, in every shard that was not stopped each request was
    followed by its call and that by a call for the ready state, however requests and
    workers were interleaved before. *)
Theorem work_gets_done cfg s :
  (0 < shardWorkerNum cfg)%nat → few_ticks (maxTicks cfg) → rtc step (Start cfg) s →
  ∃ bound : nat, ∀ n s', nsteps works n s s' →
    (n <= bound)%nat ∧
    ((∀ s'', ¬ works s' s'') → ∀ j sh, sharders s' !! j = Some sh → disposed sh = false → all_done sh).
Proof.
  intros Hn Hmt Hr. exists (sum_list_with (weight (groups s)) (sharders s)). intros n s' Hs. split.
  - eapply works_bounded; [|done]. intros j sh. apply groups_cover.
  - intros Hstuck j sh Hj Hdis. assert (scheduler_ok cfg s') as Hok.
    { apply reachable_ok; [done|]. etrans; [done|]. clear -Hs. induction Hs as [|n x y z (j & i & E) _ IH]; [done|].
      eapply rtc_l; [by eapply step_worker|done]. }
    pose proof (sk_shards _ _ Hok j sh Hj) as Hsh. apply resting_done; [by destruct Hsh|done|]. eapply stuck_resting; [done|done|done|].
    intros i. destruct (work i sh) as [sh'|] eqn:E; [|done]. edestruct Hstuck. exists j, i. unfold worker_step. rewrite Hj. simpl. by rewrite E.
Qed.

(** ** A run *)

Module SchedulerExamples.
Inductive act := Ask (k : kind) (g : Z) | Work (j i : nat).
Definition do_act (a : act) (s : raftScheduler) : option raftScheduler :=
  match a with
  | Ask k g => if decide (0 < g) then match EnqueueState (bit k) g s with Ret s => Some s | Panic _ => None end else None
  | Work j i => worker_step j i s
  end.
Fixpoint do_acts (l : list act) (s : raftScheduler) : option raftScheduler :=
  match l with [] => Some s | a :: l => s ← do_act a s; do_acts l s end.

Lemma do_acts_reach l : ∀ s s', do_acts l s = Some s' → rtc step s s'.
Proof.
  induction l as [|a l IH]; intros s s' E; simpl in E; [injection E as <-; apply rtc_refl|].
  destruct (do_act a s) as [s1|] eqn:Ea; [|discriminate E]. eapply rtc_l; [|apply (IH s1 s' E)]. destruct a as [k g|j i]; simpl in Ea.
  - case_decide as Hg; [|discriminate Ea]. destruct (EnqueueState (bit k) g s) as [s2|] eqn:E2; [|discriminate Ea].
    injection Ea as ->. exact (step_enqueue k g s s1 Hg E2).
  - exact (step_worker j i s s1 Ea).
Defined.

(** Two shards with two workers each; group 3 is asked for twice before the first worker
    comes to it, and the second worker finds it in the queue again. *)
Definition demo_config : schedulerConfig := {| shardNum := 2; shardWorkerNum := 2; maxTicks := 3 |}.
Definition demo_acts : list act := [Ask Proposal 3; Ask Tick 3; Work 1 0; Work 1 1; Work 1 0; Work 1 1; Work 1 0].
Definition demo_shard : sharder :=
  {| queue := []; disposed := false; groupState := {[3 := {| state := stateQueue; ticks := 0 |}]}; inProcessing := {[3]};
     workers := [Running 3 [Proposal; Tick; Ready]; Waiting]; notes := [Enqueued stateProposal 3; Enqueued stateTick 3] |}.
Definition demo_state : raftScheduler := {| config := demo_config; sharders := [newSharder demo_config; demo_shard] |}.

Lemma demo_reached : rtc step (Start demo_config) demo_state.
Proof. apply (do_acts_reach demo_acts). vm_compute. reflexivity. Defined.

Lemma demo_few : few_ticks (maxTicks demo_config).
Proof. split; vm_compute; [discriminate|reflexivity]. Defined.

Lemma one_worker_per_group_witness :
  workers demo_shard !! 0%nat = Some (Running 3 [Proposal; Tick; Ready]) ∧
  ∀ i calls, workers demo_shard !! i = Some (Running 3 calls) → i = 0%nat.
Proof.
  split; [reflexivity|]. intros i calls Hi.
  destruct (one_worker_per_group demo_config demo_state 1 1 demo_shard demo_shard i 0 3 calls [Proposal; Tick; Ready]) as (_ & E & _);
    [exact demo_few|exact demo_reached|reflexivity|exact Hi|reflexivity|reflexivity|exact E].
Defined.

Lemma work_gets_done_witness :
  ∃ bound : nat, ∀ n s', nsteps works n demo_state s' →
    (n <= bound)%nat ∧
    ((∀ s'', ¬ works s' s'') → ∀ j sh, sharders s' !! j = Some sh → disposed sh = false → all_done sh).
Proof. apply (work_gets_done demo_config); [vm_compute; apply le_S, le_n|exact demo_few|exact demo_reached]. Defined.
End SchedulerExamples.
