(* ===== verification/LsmtKeys.v ===== *)
(** * Keys of the logs kept in a key-value store: [pkg/wal/lsmtwal/manager.go], [keyprefix_cache.go]

    A key is a kind, a group and, for entries and snapshots, an index, each as eight bytes
    with the highest first, so that the order of the store is the order of the indexes.  The
    cache of prefixes keeps those of the groups used last. *)

From S2P Require Import Prelude.

(** ** Big-endian numbers *)

(** [binary.BigEndian.PutUint64] and [Uint64]. *)
Fixpoint be_split (n : nat) (v : Z) : list byte :=
  match n with
  | O => []
  | S n => byte.of_Z (Z.shiftr v (8 * Z.of_nat n)) :: be_split n v
  end.
Definition be64 (v : Z) : list byte := be_split 8 v.
Fixpoint be_combine (l : list byte) : Z :=
  match l with
  | [] => 0
  | b :: l => Z.lor (Z.shiftl (byte.unsigned b) (8 * Z.of_nat (length l))) (be_combine l)
  end.

(** ** The order of the store: [bytes.Compare] *)

Fixpoint key_lt (a b : list byte) : bool :=
  match a, b with
  | [], [] => false
  | [], _ :: _ => true
  | _ :: _, [] => false
  | x :: a, y :: b =>
      if decide (byte.unsigned x < byte.unsigned y) then true
      else if decide (byte.unsigned y < byte.unsigned x) then false else key_lt a b
  end.
Definition in_range (lo hi k : list byte) : bool := negb (key_lt k lo) && key_lt k hi.

(** ** The key scheme *)

Definition keyHardState : Z := 1.
Definition keySnapshot : Z := 2.
Definition keyEntry : Z := 3.
Definition keyMetadata : Z := 4.

Record keyPrefix := { kp_hardState : list byte; kp_snapshot : list byte; kp_entry : list byte; kp_metadata : list byte }.

Definition createKey (groupID typeID : Z) : list byte :=
  if decide (groupID = 0) then be64 typeID else be64 typeID ++ be64 groupID.
Definition newKeyPrefix (groupID : Z) : keyPrefix :=
  {| kp_hardState := createKey groupID keyHardState; kp_snapshot := createKey groupID keySnapshot;
     kp_entry := createKey groupID keyEntry; kp_metadata := createKey groupID keyMetadata |}.

(** [var key [24]byte; copy(key[:16], prefix); PutUint64(key[16:], index)] *)
Definition index_key (prefix : list byte) (index : Z) : list byte :=
  take 16 (prefix ++ replicate 16 Byte.x00) ++ be64 index.

(** The upper bound the code gives to a range: [append(prefix, 0xff)]. *)
Definition upper (prefix : list byte) : list byte := prefix ++ [Byte.xff].

(** ** Lemmas on numbers *)

Lemma be_split_length n v : length (be_split n v) = n.
Proof. induction n as [|n IH]; [done|]. simpl. by rewrite IH. Qed.
Lemma be64_length v : length (be64 v) = 8%nat.
Proof. apply be_split_length. Qed.

Lemma be_combine_bound l : 0 <= be_combine l < 2 ^ (8 * Z.of_nat (length l)).
Proof.
  induction l as [|b l IH]; [done|]. cbn [be_combine length]. pose proof (byte.unsigned_range b) as Hb.
  rewrite lor_shiftl_add by lia. replace (8 * Z.of_nat (S (length l))) with (8 + 8 * Z.of_nat (length l)) by lia.
  rewrite Z.pow_add_r by lia. nia.
Qed.

Lemma be_combine_cons b l : be_combine (b :: l) = byte.unsigned b * 2 ^ (8 * Z.of_nat (length l)) + be_combine l.
Proof. cbn [be_combine]. apply lor_shiftl_add; [lia|apply be_combine_bound]. Qed.

Lemma be_combine_split n v : be_combine (be_split n v) = v mod 2 ^ (8 * Z.of_nat n).
Proof.
  induction n as [|n IH]; [by rewrite Z.mod_1_r|]. cbn [be_split]. rewrite be_combine_cons, be_split_length, IH.
  rewrite byte.unsigned_of_Z. unfold byte.wrap. rewrite Z.shiftr_div_pow2 by lia.
  replace (8 * Z.of_nat (S n)) with (8 * Z.of_nat n + 8) by lia. rewrite Z.pow_add_r by lia.
  rewrite Z.rem_mul_r by lia. lia.
Qed.

Lemma be64_combine v : is_u64 v → be_combine (be64 v) = v.
Proof. intros Hv. unfold be64. rewrite be_combine_split. by apply Z.mod_small. Qed.
Lemma be64_inj a b : is_u64 a → is_u64 b → be64 a = be64 b → a = b.
Proof. intros Ha Hb E. by rewrite <- (be64_combine a), <- (be64_combine b), E. Qed.

(** ** Lemmas on the order *)

Lemma key_lt_irrefl a : key_lt a a = false.
Proof. induction a as [|x a IH]; [done|]. simpl. by rewrite !decide_False by lia. Qed.

Lemma key_lt_app p a b : key_lt (p ++ a) (p ++ b) = key_lt a b.
Proof. induction p as [|x p IH]; [done|]. simpl. by rewrite !decide_False by lia. Qed.

(** Numbers of one width are in the order of their values. *)
Lemma key_lt_combine a b : length a = length b → key_lt a b = bool_decide (be_combine a < be_combine b).
Proof.
  revert b. induction a as [|x a IH]; intros [|y b] Hl; try done. injection Hl as Hl. cbn [key_lt]. rewrite !be_combine_cons, <- Hl.
  pose proof (be_combine_bound a) as Ha. pose proof (be_combine_bound b) as Hb. rewrite <- Hl in Hb.
  case_decide; [symmetry; apply bool_decide_eq_true; nia|]. case_decide; [symmetry; apply bool_decide_eq_false; nia|].
  rewrite IH by done. apply bool_decide_ext. assert (byte.unsigned x = byte.unsigned y) by lia. nia.
Qed.

Lemma be64_lt a b : is_u64 a → is_u64 b → key_lt (be64 a) (be64 b) = bool_decide (a < b).
Proof. intros Ha Hb. rewrite key_lt_combine by (by rewrite !be64_length). by rewrite !be64_combine. Qed.

Lemma key_lt_trans a b c : key_lt a b = true → key_lt b c = true → key_lt a c = true.
Proof.
  revert b c. induction a as [|x a IH]; intros [|y b] [|z c]; try done; simpl.
  repeat case_decide; try done; try lia. by apply IH.
Qed.
Lemma key_lt_asym a b : key_lt a b = true → key_lt b a = false.
Proof.
  intros Hab. destruct (key_lt b a) eqn:Hba; [|done]. pose proof (key_lt_trans _ _ _ Hab Hba) as H. by rewrite key_lt_irrefl in H.
Qed.

Lemma in_range_cons x lo hi y k :
  in_range (x :: lo) (x :: hi) (y :: k) = bool_decide (byte.unsigned x = byte.unsigned y) && in_range lo hi k.
Proof.
  unfold in_range. simpl. repeat case_decide; try lia; case_bool_decide; try lia; done.
Qed.

Lemma byte_eq x y : byte.unsigned x = byte.unsigned y → x = y.
Proof. intros E. by rewrite <- (byte.of_Z_unsigned x), <- (byte.of_Z_unsigned y), E. Qed.

(** A key goes on after a prefix with something else than the highest byte, or not at all. *)
Definition goes_on (r : list byte) : bool :=
  match r with [] => true | b :: _ => bool_decide (byte.unsigned b < 255) end.

(** The range of a prefix. *)
Lemma in_prefix_range p k : in_range p (upper p) k = true ↔ ∃ r, k = p ++ r ∧ goes_on r = true.
Proof.
  revert k. induction p as [|x p IH]; intros k.
  - transitivity (goes_on k = true); [|split; [by exists k|by intros (r & -> & ?)]].
    unfold in_range, upper. destruct k as [|b k]; [done|]. simpl. change (byte.unsigned Byte.xff) with 255.
    pose proof (byte.unsigned_range b). case_decide; [by rewrite bool_decide_eq_true_2|]. rewrite bool_decide_eq_false_2 by done.
    case_decide; [done|]. by destruct k.
  - unfold upper. cbn [app]. destruct k as [|y k]; [split; [done|by intros (r & [=] & _)]|].
    change (p ++ [Byte.xff]) with (upper p). rewrite in_range_cons, andb_true_iff, bool_decide_eq_true, IH. split.
    + intros [->%byte_eq (r & -> & ?)]. by exists r.
    + intros (r & [= -> ->] & ?). split; [done|by exists r].
Qed.

Lemma goes_on_be64 i r : is_u64 i → i < 255 * 2 ^ 56 → goes_on (be64 i ++ r) = true.
Proof.
  intros Hi Hlt. cbn [goes_on be64 be_split app]. apply bool_decide_eq_true. rewrite byte.unsigned_of_Z. unfold byte.wrap.
  rewrite Z.shiftr_div_pow2 by done. change (8 * Z.of_nat 7) with 56.
  assert (i / 2 ^ 56 < 255) by (apply Z.div_lt_upper_bound; lia). assert (0 <= i / 2 ^ 56) by (apply Z.div_pos; lia).
  rewrite Z.mod_small by lia. done.
Qed.

(** ** The keys of a group *)

(** The key of kind [t] for index [i] of group [g]. *)
Definition at_index (t g i : Z) : list byte := be64 t ++ be64 g ++ be64 i.

Lemma index_key_eq t g i : index_key (createKey g t) i = at_index t g i.
Proof.
  unfold index_key, createKey, at_index. case_decide as Hg.
  - subst g. rewrite (assoc_L (++)). f_equal.
  - rewrite (assoc_L (++) (be64 t)). f_equal.
Qed.

Lemma be64_app_inj a b x y : is_u64 a → is_u64 b → be64 a ++ x = be64 b ++ y → a = b ∧ x = y.
Proof.
  intros Ha Hb E. apply app_inj_1 in E as [E ->]; [|by rewrite !be64_length]. split; [by apply be64_inj|done].
Qed.

Lemma at_index_inj t g i t' g' i' :
  is_u64 t → is_u64 g → is_u64 i → is_u64 t' → is_u64 g' → is_u64 i' → at_index t g i = at_index t' g' i' → t = t' ∧ g = g' ∧ i = i'.
Proof.
  unfold at_index. intros ? ? ? ? ? ? E. apply be64_app_inj in E as [-> E]; [|done..].
  apply be64_app_inj in E as [-> E]; [|done..]. split_and!; [done..|by apply be64_inj].
Qed.

(** Keys of one kind and group are in the order of their indexes. *)
Lemma at_index_lt t g i j : is_u64 i → is_u64 j → key_lt (at_index t g i) (at_index t g j) = bool_decide (i < j).
Proof. intros Hi Hj. unfold at_index. by rewrite !key_lt_app, be64_lt. Qed.

(** Where the keys of a group lie: in the range of their kind, and in no other range. *)
Definition group_key (t g : Z) (k : list byte) : Prop := k = createKey g t ∨ ∃ i, is_u64 i ∧ i < 255 * 2 ^ 56 ∧ k = at_index t g i.

Lemma group_key_in t g k : group_key t g k → in_range (createKey g t) (upper (createKey g t)) k = true.
Proof.
  intros [->|(i & Hi & Hlt & ->)]; apply in_prefix_range.
  - exists []. by rewrite app_nil_r.
  - unfold createKey, at_index. case_decide as Hg.
    + subst. exists (be64 0 ++ be64 i). split; [done|by apply goes_on_be64].
    + exists (be64 i). rewrite (assoc_L (++)). split; [done|]. rewrite <- (app_nil_r (be64 i)). by apply goes_on_be64.
Qed.

Lemma createKey_app g t r : g ≠ 0 → createKey g t ++ r = be64 t ++ be64 g ++ r.
Proof. intros Hg. unfold createKey. by rewrite decide_False, (assoc_L (++)). Qed.

Lemma group_key_form t g k : g ≠ 0 → group_key t g k → ∃ r, k = be64 t ++ be64 g ++ r.
Proof.
  intros Hg [->|(i & _ & _ & ->)]; [|by exists (be64 i)]. exists []. by rewrite <- createKey_app, app_nil_r.
Qed.

(** With a store for many groups, whose identifiers are not 0, ranges are apart. *)
Lemma group_key_out t g t' g' k :
  is_u64 t → is_u64 t' → is_u64 g → is_u64 g' → g ≠ 0 → g' ≠ 0 → (t, g) ≠ (t', g') → group_key t' g' k →
  in_range (createKey g t) (upper (createKey g t)) k = false.
Proof.
  intros Ht Ht' Hg Hg' Hn Hn' Hne Hk. destruct (in_range _ _ k) eqn:E; [|done]. apply in_prefix_range in E as (r & E & _).
  apply group_key_form in Hk as [r' Hk]; [|done]. rewrite createKey_app, Hk in E by done.
  apply be64_app_inj in E as [-> E]; [|done..]. apply be64_app_inj in E as [-> _]; done.
Qed.

(** With a store for one group, whose identifier is 0, the ranges of the kinds are apart. *)
Lemma kind_key_out t t' k :
  is_u64 t → is_u64 t' → t ≠ t' → group_key t' 0 k → in_range (createKey 0 t) (upper (createKey 0 t)) k = false.
Proof.
  intros Ht Ht' Hne Hk. destruct (in_range _ _ k) eqn:E; [|done]. apply in_prefix_range in E as (r & E & _).
  unfold createKey in E. rewrite decide_True in E by done.
  assert (∃ r', k = be64 t' ++ r') as [r' ->] by (destruct Hk as [->|(i & _ & _ & ->)]; [exists []; by rewrite app_nil_r|by eexists]).
  by apply be64_app_inj in E as [? _].
Qed.

(** ** The cache of prefixes *)

(** The list of the cache, most recently used first; the map of the code gives the place in
    it of a group. *)
Record keyPrefixCache := { capacity : Z; lru : list (Z * keyPrefix) }.
Definition newKeyPrefixCache (capacity : Z) : keyPrefixCache := {| capacity := capacity; lru := [] |}.

Definition cache_get (groupID : Z) (c : keyPrefixCache) : keyPrefixCache * keyPrefix :=
  match list_find (fun x => x.1 = groupID) (lru c) with
  | Some (i, x) => ({| capacity := capacity c; lru := x :: delete i (lru c) |}, x.2)
  | None =>
      let kp := newKeyPrefix groupID in
      let l := (groupID, kp) :: lru c in
      ({| capacity := capacity c; lru := if decide (capacity c < Z.of_nat (length l)) then removelast l else l |}, kp)
  end.

(** Groups by their last use, most recent first. *)
Definition use (l : list Z) (g : Z) : list Z := g :: filter (.≠ g) l.
Definition recent (gs : list Z) : list Z := foldl use [] gs.

Definition gets (gs : list Z) (c : keyPrefixCache) : keyPrefixCache := foldl (fun c g => (cache_get g c).1) c gs.

(** The cache has the [n] groups used last, each with its prefix. *)
Record caches (c : keyPrefixCache) (n : nat) (r : list Z) : Prop := {
  ca_groups : (lru c).*1 = take n r;
  ca_prefix x : x ∈ lru c → x.2 = newKeyPrefix x.1;
  ca_capacity : Z.to_nat (capacity c) = n
}.

Lemma filter_ne_id g (l : list Z) : g ∉ l → filter (.≠ g) l = l.
Proof.
  induction l as [|x l IH]; intros Hg; [done|]. apply not_elem_of_cons in Hg as [Hx Hg].
  rewrite filter_cons_True by done. by rewrite IH.
Qed.
Lemma filter_ne_delete g i (l : list Z) : NoDup l → l !! i = Some g → filter (.≠ g) l = delete i l.
Proof.
  revert i. induction l as [|x l IH]; intros i Hn Hi; [done|]. apply NoDup_cons in Hn as [Hx Hn]. destruct i as [|i]; simpl in *.
  - injection Hi as ->. rewrite filter_cons_False by (intros H; by apply H). by apply filter_ne_id.
  - rewrite filter_cons_True; [by rewrite (IH i)|]. intros ->. apply Hx. by apply list_elem_of_lookup_2 with i.
Qed.
Lemma recent_NoDup gs l : NoDup l → NoDup (foldl use l gs).
Proof.
  revert l. induction gs as [|g gs IH]; intros l Hl; [done|]. apply IH. apply NoDup_cons. split; [|by apply NoDup_filter].
  rewrite list_elem_of_filter. by intros [H _].
Qed.

(** A hit: [L] is the first part of the recency list. *)
Lemma take_hit (r : list Z) n g i :
  NoDup r → take n r !! i = Some g → take n (use r g) = g :: delete i (take n r).
Proof.
  intros Hn Hi. destruct n as [|n]; [by rewrite take_0 in Hi|]. unfold use. cbn [take]. f_equal.
  rewrite lookup_take_Some in Hi. destruct Hi as [Hi Hlt]. rewrite (filter_ne_delete g i) by done.
  apply list_eq. intros j. destruct (decide (j < i)%nat).
  - rewrite list_lookup_delete_lt, lookup_take_lt, lookup_take_lt, list_lookup_delete_lt by lia. done.
  - destruct (decide (j < n)%nat).
    + rewrite list_lookup_delete_ge, !lookup_take_lt, list_lookup_delete_ge by lia. done.
    + rewrite lookup_take_ge by lia. rewrite list_lookup_delete_ge, lookup_take_ge by lia. done.
Qed.
Lemma take_miss (r : list Z) n g : g ∉ take n r → take n (use r g) = take n (g :: take n r).
Proof.
  intros Hg. destruct n as [|n]; [done|]. unfold use. cbn [take]. f_equal. rewrite <- (take_drop (S n) r) at 1. rewrite filter_app.
  rewrite (filter_ne_id g (take (S n) r)) by done. rewrite take_take, Nat.min_l by lia.
  destruct (decide (length r <= n)%nat).
  - rewrite (drop_ge r), filter_nil, app_nil_r, take_take by lia. f_equal. lia.
  - rewrite take_app_le by (rewrite length_take; lia). by rewrite take_take, Nat.min_l by lia.
Qed.

Lemma removelast_take {A} (l : list A) : removelast l = take (length l - 1) l.
Proof. rewrite removelast_firstn_len. f_equal. lia. Qed.

Lemma cache_get_caches c n r g : NoDup r → caches c n r → caches (cache_get g c).1 n (use r g) ∧ (cache_get g c).2 = newKeyPrefix g.
Proof.
  intros Hn [Hg Hp Hc]. unfold cache_get. destruct (list_find _ (lru c)) as [[i x]|] eqn:E; cbn [fst snd].
  - apply list_find_Some in E as (Hi & <- & _). assert (take n r !! i = Some x.1) as Hr by (by rewrite <- Hg, list_lookup_fmap, Hi).
    split; [|apply Hp; by apply list_elem_of_lookup_2 with i]. constructor; simpl; [|intros y [->|Hy]%elem_of_cons|done].
    + rewrite (take_hit r n x.1 i), list_fmap_delete by done. by rewrite Hg.
    + apply Hp. by apply list_elem_of_lookup_2 with i.
    + apply Hp. apply list_elem_of_lookup in Hy as [j Hj]. apply list_elem_of_lookup.
      destruct (decide (j < i)%nat); [exists j; by rewrite list_lookup_delete_lt in Hj|exists (S j); by rewrite list_lookup_delete_ge in Hj by lia].
  - split; [|done]. apply list_find_None in E. assert (g ∉ take n r) as Hm.
    { rewrite <- Hg. intros (x & -> & Hx)%list_elem_of_fmap. rewrite Forall_forall in E. by apply (E x). }
    assert (length (lru c) <= n)%nat by (rewrite <- (length_fmap fst), Hg, length_take; lia).
    constructor; cbn [lru capacity fst]; [rewrite take_miss, <- Hg by done| |done].
    + case_decide as Hl; [rewrite removelast_take, fmap_take, fmap_cons; f_equal; simpl in Hl |- *; lia|].
      simpl. rewrite take_ge; [done|]. simpl. rewrite length_fmap. simpl in Hl. lia.
    + intros x Hx. assert (x ∈ (g, newKeyPrefix g) :: lru c) as [->|?]%elem_of_cons; [|done|by apply Hp].
      case_decide; [|done]. rewrite removelast_take in Hx. by apply elem_of_take in Hx as (j & Hx%list_elem_of_lookup_2 & _).
Qed.

(** The cache of key prefixes keeps to its bound and is never wrong.  After any
    requests it has exactly the groups used last, as many as its capacity allows and none
    for a capacity of 0 or less, and the answer to a request is the prefix of its group. *)
Theorem prefix_cache_bounded cap gs g :
  let c := gets gs (newKeyPrefixCache cap) in
  (lru c).*1 = take (Z.to_nat cap) (recent gs) ∧ (cache_get g c).2 = newKeyPrefix g.
Proof.
  cbv zeta. assert (∀ l r c, NoDup r → caches c (Z.to_nat cap) r → caches (gets l c) (Z.to_nat cap) (foldl use r l)) as Hgo.
  { induction l as [|x l IH]; intros r c Hr Hc; [done|]. apply IH; [by apply (recent_NoDup [x])|by apply cache_get_caches]. }
  assert (caches (newKeyPrefixCache cap) (Z.to_nat cap) []) as H0 by (constructor; [by rewrite take_nil|by intros x ?%elem_of_nil|done]).
  pose proof (Hgo gs [] _ (NoDup_nil_2) H0) as Hc. split; [apply Hc|].
  eapply cache_get_caches; [|done]. apply recent_NoDup, NoDup_nil_2.
Qed.
