(* ===== verification/LsmtWal.v ===== *)
(** * Logs kept in a key-value store: [pkg/wal/lsmtwal], on pebble

    The write-ahead log of one group, [PebbleWal], and the managers of the logs of one group
    and of many, whose operations differ only in the prefix of the keys.  The store is an
    interface with the documented behaviour of pebble: a map that is changed by whole
    batches and read in the order of its keys.  The log keeps its entries in a
    [walbase.EntryStorage], which reads the data of entries back through the manager. *)

From S2P Require Import Prelude Raftpb EntryCache EntryStorage WalReplay LsmtKeys.

(** ** The store *)

Inductive batch_op := BSet (k v : list byte) | BDeleteRange (lo hi : list byte).

Definition pebble_ErrNotFound : error := Sentinel "pebble.ErrNotFound".

(** [Get]; [Commit] of a batch, synced or not; and the elements of an iterator with bounds. *)
Class Pebble (D : Type) := {
  db_Get : D → list byte → result (list byte);
  db_Commit : D → list batch_op → bool → D * option error;
  db_Iter : D → list byte → list byte → result (list (list byte * list byte))
}.

Definition apply_op (m : list byte → option (list byte)) (op : batch_op) : list byte → option (list byte) := fun k =>
  match op with
  | BSet k' v => if decide (k = k') then Some v else m k
  | BDeleteRange lo hi => if in_range lo hi k then None else m k
  end.
Definition apply_ops (m : list byte → option (list byte)) (ops : list batch_op) : list byte → option (list byte) := foldl apply_op m ops.

(** What is relied on: a read gives what is there; a batch is applied as a whole or not at
    all, and is on the disk when it was synced; an iterator gives the elements between its
    bounds in the order of the keys; and [faultless] stores do not fail. *)
Class PebbleLaws (D : Type) `{Pebble D} := {
  content : D → list byte → option (list byte);
  durable : D → list byte → option (list byte);
  faultless : D → Prop;
  Get_ok d k v : db_Get d k = Ok v → content d k = Some v;
  Get_absent d k : db_Get d k = Err pebble_ErrNotFound → content d k = None;
  Get_faultless d k : faultless d → db_Get d k = match content d k with Some v => Ok v | None => Err pebble_ErrNotFound end;
  Commit_ok d ops sync d' k : db_Commit d ops sync = (d', None) → content d' k = apply_ops (content d) ops k;
  Commit_failed d ops sync d' e k : db_Commit d ops sync = (d', Some e) → content d' k = content d k;
  Commit_synced d ops d' k : db_Commit d ops true = (d', None) → durable d' k = content d' k;
  Commit_faultless d ops sync : faultless d → ∃ d', db_Commit d ops sync = (d', None) ∧ faultless d';
  Iter_sorted d lo hi l : db_Iter d lo hi = Ok l → StronglySorted (λ x y, key_lt x.1 y.1 = true) l;
  Iter_elements d lo hi l k v : db_Iter d lo hi = Ok l → (k, v) ∈ l ↔ content d k = Some v ∧ in_range lo hi k = true;
  Iter_faultless d lo hi : faultless d → ∃ l, db_Iter d lo hi = Ok l
}.

(** ** The log of a group *)

(** The storage of entries has no metadata. *)
Definition EntryMetadata := unit.

Record PebbleWal := {
  w_es : option (EntryStorage EntryMetadata);
  w_noFsync : bool;
  w_keyPrefix : keyPrefix;
  w_hardState : HardState;
  w_purgerSnapCh : list (Z * Snapshot);
  w_multiRaftGroupID : Z
}.
Definition NewPebbleWal (es : option (EntryStorage EntryMetadata)) (kp : keyPrefix) : PebbleWal :=
  {| w_es := es; w_noFsync := false; w_keyPrefix := kp; w_hardState := emptyHardState; w_purgerSnapCh := []; w_multiRaftGroupID := 0 |}.
Definition SetUnsafeNoFsync (w : PebbleWal) : PebbleWal :=
  {| w_es := w_es w; w_noFsync := true; w_keyPrefix := w_keyPrefix w; w_hardState := w_hardState w;
     w_purgerSnapCh := w_purgerSnapCh w; w_multiRaftGroupID := w_multiRaftGroupID w |}.
Definition SetMultiRaftPurger (groupID : Z) (w : PebbleWal) : PebbleWal :=
  {| w_es := w_es w; w_noFsync := w_noFsync w; w_keyPrefix := w_keyPrefix w; w_hardState := w_hardState w;
     w_purgerSnapCh := w_purgerSnapCh w; w_multiRaftGroupID := groupID |}.

Definition isEmptyHardState (st : HardState) : bool := bool_decide (hs_term st = 0 ∧ hs_vote st = 0 ∧ hs_commit st = 0).
Definition isEmptySnapshot (snap : Snapshot) : bool := bool_decide (sm_index (snap_meta snap) = 0).

Definition walsnap_of (snap : Snapshot) : WalSnapshot :=
  {| ws_index := sm_index (snap_meta snap); ws_term := sm_term (snap_meta snap); ws_conf := Some (sm_conf (snap_meta snap)) |}.

Section Wal.
Context {D : Type} `{Pebble D, RaftLib, Message HardState, Message Entry, Message WalSnapshot}.

Definition set_entry (kp : keyPrefix) (e : Entry) : batch_op := BSet (index_key (kp_entry kp) (e_index e)) (marshal e).

(** [Save]: the hard state is taken over before it is compared with the last one. *)
Definition Save (hardState : HardState) (entries : list Entry) : meth (D * PebbleWal) unit := fun '(d, w) =>
  let kp := w_keyPrefix w in
  let keep := negb (isEmptyHardState hardState) in
  let w := {| w_es := w_es w; w_noFsync := w_noFsync w; w_keyPrefix := kp;
              w_hardState := if keep then hardState else w_hardState w;
              w_purgerSnapCh := w_purgerSnapCh w; w_multiRaftGroupID := w_multiRaftGroupID w |} in
  let ops := (if keep then [BSet (kp_hardState kp) (marshal hardState)] else []) ++ (set_entry kp <$> entries) in
  let sync := negb (w_noFsync w) && MustSync hardState (w_hardState w) (length entries) in
  match db_Commit d ops sync with
  | (d, Some err) => Ret ((d, w), Err err)
  | (d, None) =>
      match entries, w_es w with
      | _ :: _, Some es =>
          es ← AppendCache es entries;
          Ret ((d, {| w_es := Some es; w_noFsync := w_noFsync w; w_keyPrefix := kp; w_hardState := w_hardState w;
                      w_purgerSnapCh := w_purgerSnapCh w; w_multiRaftGroupID := w_multiRaftGroupID w |}), Ok tt)
      | _, _ => Ret ((d, w), Ok tt)
      end
  end.

Definition SaveSnapshot (snapshot : Snapshot) : meth (D * PebbleWal) unit := fun '(d, w) =>
  if isEmptySnapshot snapshot then Ret ((d, w), Ok tt)
  else
    let key := index_key (kp_snapshot (w_keyPrefix w)) (sm_index (snap_meta snapshot)) in
    match db_Commit d [BSet key (marshal (walsnap_of snapshot))] true with
    | (d, Some err) => Ret ((d, w), Err err)
    | (d, None) => Ret ((d, w), Ok tt)
    end.

(** [Purge] hands the snapshot to the purger. *)
Definition Purge (snapshot : Snapshot) (w : PebbleWal) : PebbleWal :=
  if isEmptySnapshot snapshot then w
  else {| w_es := w_es w; w_noFsync := w_noFsync w; w_keyPrefix := w_keyPrefix w; w_hardState := w_hardState w;
          w_purgerSnapCh := w_purgerSnapCh w ++ [(w_multiRaftGroupID w, snapshot)]; w_multiRaftGroupID := w_multiRaftGroupID w |}.

Definition purgeSnapshot (kp : keyPrefix) (snapshot : Snapshot) (d : D) : D * option error :=
  if isEmptySnapshot snapshot then (d, None)
  else db_Commit d [BDeleteRange (kp_entry kp) (index_key (kp_entry kp) (u64 (sm_index (snap_meta snapshot) + 1)))] true.
End Wal.

(** ** The manager of a log *)

(** [walbase.ReplayResult] *)
Record ReplayResult := { rp_metadata : list byte; rp_hardState : HardState; rp_entries : list Entry }.
Definition NewReplayResult (metadata : list byte) (hardState : HardState) (entries : list Entry) : ReplayResult :=
  {| rp_metadata := metadata; rp_hardState := hardState; rp_entries := entries |}.
Definition rp_DeleteUncommittedEntry (commitIndex : Z) (r : ReplayResult) : ReplayResult :=
  {| rp_metadata := rp_metadata r; rp_hardState := rp_hardState r;
     rp_entries := DeleteUncommittedEntry e_index (rp_entries r) commitIndex |}.
Definition ForEachConfChangeEntries {S} (visitor : S → Entry → S * option error) (r : ReplayResult) (s : S) : S * option error :=
  visit visitor s (filter (λ e, e_type e = EntryConfChange) (rp_entries r)).

Definition err_unmarshal : error := Errorf "unmarshal".
Definition err_up : error := Errorf "up is out of range".

(** The entry index of [storage.EntryStorage.Append]. *)
Definition index_entry (e : Entry) : EntryIndex EntryMetadata := Build_EntryIndex (e_term e) (e_index e) (e_type e) tt.

Section Manager.
Context {D : Type} `{Pebble D, Message HardState, Message Entry, Message WalSnapshot}.
Context (kp : keyPrefix).

(** The values of an iterator, unmarshalled one after the other. *)
Fixpoint unmarshal_all {A} `{Message A} (l : list (list byte * list byte)) : result (list A) :=
  match l with
  | [] => Ok []
  | (_, data) :: l =>
      match unmarshal data with
      | None => Err err_unmarshal
      | Some a => match unmarshal_all l with Ok r => Ok (a :: r) | Err e => Err e end
      end
  end.

Definition FindSnapshot (d : D) : result (list WalSnapshot) :=
  match db_Iter d (kp_snapshot kp) (upper (kp_snapshot kp)) with
  | Err e => Err e
  | Ok l => unmarshal_all l
  end.

Definition CreateWal (metadata : list byte) (d : D) : D * result (EntryStorage EntryMetadata * PebbleWal) :=
  let es := NewEntryStorage tt in
  let w := NewPebbleWal (Some es) kp in
  let snapshot := {| ws_index := 0; ws_term := 0; ws_conf := None |} in
  match db_Commit d [BSet (kp_snapshot kp) (marshal snapshot); BSet (kp_metadata kp) metadata] true with
  | (d, Some err) => (d, Err err)
  | (d, None) => (d, Ok (es, w))
  end.

(** The loop over the entries of [ReplayWal]. *)
Fixpoint replay_entries (snapIndex : Z) (l : list (list byte * list byte)) (entries : list Entry) : result (list Entry) :=
  match l with
  | [] => Ok entries
  | (_, data) :: l =>
      match unmarshal data with
      | None => Err err_unmarshal
      | Some e =>
          if decide (snapIndex < e_index e) then
            let up := u64 (e_index e - snapIndex - 1) in
            if decide (Z.of_nat (length entries) < up) then Err err_up
            else replay_entries snapIndex l (take (Z.to_nat up) entries ++ [e])
          else replay_entries snapIndex l entries
      end
  end.

(** [ReplayWal]: any error of the read of the hard state is taken for its absence, and the
    storage gets the entries also when the uncommitted ones are to be deleted. *)
Definition ReplayWal (snapshot : option Snapshot) (deleteUncommitted : bool) (d : D)
    : go (result (ReplayResult * EntryStorage EntryMetadata * PebbleWal)) :=
  (let snapIndex := match snapshot with Some s => sm_index (snap_meta s) | None => 0 end in
   hardState <-? Ret (match db_Get d (kp_hardState kp) with
                      | Ok data => match unmarshal data with Some hs => Ok hs | None => Err err_unmarshal end
                      | Err _ => Ok emptyHardState
                      end) ;;
   metadata <-? Ret (db_Get d (kp_metadata kp)) ;;
   l <-? Ret (db_Iter d (kp_entry kp) (upper (kp_entry kp))) ;;
   entries <-? Ret (replay_entries snapIndex l []) ;;
   let result := NewReplayResult metadata hardState entries in
   let result := if deleteUncommitted then rp_DeleteUncommittedEntry (hs_commit (rp_hardState result)) result else result in
   let es := NewEntryStorage tt in
   let es := match snapshot with Some s => (ApplySnapshot tt es s).1 | None => es end in
   let es := SetHardState es (rp_hardState result) in
   '(es, err) ← AppendEntryIndex tt es (index_entry <$> entries);
   match err with
   | Some e => Ret (Err e)
   | None => Ret (Ok (result, es, NewPebbleWal (Some es) kp))
   end)%go.

Definition HasExistingWals (d : D) : result bool :=
  match db_Iter d (kp_entry kp) (upper (kp_entry kp)) with
  | Err e => Err e
  | Ok l => Ok (bool_decide (l ≠ []))
  end.

(** [ReadEntriesData]: the whole entry is replaced by the one read. *)
Fixpoint read_each (d : D) (mds : list (EntryIndex EntryMetadata)) : result (list Entry) :=
  match mds with
  | [] => Ok []
  | md :: mds =>
      match db_Get d (index_key (kp_entry kp) (ei_index md)) with
      | Err _ => Err (Errorf "entry not found for index %d: %v")
      | Ok value =>
          match unmarshal value with
          | None => Err err_unmarshal
          | Some e => match read_each d mds with Ok es => Ok (e :: es) | Err err => Err err end
          end
      end
  end.
Definition pebble_ReadEntriesData (d : D) (mds : list (EntryIndex EntryMetadata)) (ents : list Entry) : go (result (list Entry)) :=
  if decide (length mds ≠ length ents ∨ mds = []) then Ret (Err (Errorf "invalid the size of entryIndex and raftpb.Entry"))
  else Ret (read_each d mds).

(** The storage reads through the manager. *)
#[local] Instance pebble_reader : EntryDataReader D EntryMetadata := pebble_ReadEntriesData.

(** The data of an entry whose index is kept. *)
Definition stored_entry (d : D) (md : EntryIndex EntryMetadata) : option (list byte) :=
  match db_Get d (index_key (kp_entry kp) (ei_index md)) with
  | Ok value => e ← unmarshal value; if decide (set_data e [] = bare md) then Some (e_data e) else None
  | Err _ => None
  end.

Lemma read_each_stored d mds ds :
  Forall2 (λ md b, stored_entry d md = Some b) mds ds → read_each d mds = Ok (zip_with set_data (bare <$> mds) ds).
Proof.
  intros Hf. induction Hf as [|md b mds ds Hb Hf IH]; [done|]. csimpl. unfold stored_entry in Hb.
  destruct (db_Get d _) as [v|]; [|done]. destruct (unmarshal v) as [e|]; [|done]. cbn [mbind option_bind] in Hb.
  case_decide as He; [|done]. injection Hb as <-. rewrite IH. do 2 f_equal. destruct e. by rewrite <- He.
Qed.

#[local] Instance pebble_lawful : LawfulReader D EntryMetadata.
Proof.
  refine {| stored := stored_entry |}. intros d mds ents ds Hne Hst ->. unfold read_entries_data, pebble_reader, pebble_ReadEntriesData.
  rewrite decide_False by (rewrite length_fmap; by intros []). by rewrite (read_each_stored d mds ds Hst).
Defined.

(** The storage [es] over the store [d] holds the log [L]. *)
Definition serves (d : D) (es : EntryStorage EntryMetadata) (L : Log) : Prop := represents d es L.
End Manager.

(** ** The manager of the logs of many groups *)

Section MultiRaft.
Context {D : Type} `{Pebble D, Message HardState, Message Entry, Message WalSnapshot}.

Record MultiRaftPebbleWalManager := { mm_db : D; mm_prefixCache : keyPrefixCache }.

(** An operation with the prefix of a group, from the cache. *)
Definition with_prefix {A} (groupID : Z) (f : keyPrefix → D → D * A) (m : MultiRaftPebbleWalManager) : MultiRaftPebbleWalManager * A :=
  let '(c, kp) := cache_get groupID (mm_prefixCache m) in
  let '(d, a) := f kp (mm_db m) in
  ({| mm_db := d; mm_prefixCache := c |}, a).

Definition multi_FindSnapshot (groupID : Z) := with_prefix groupID (fun kp d => (d, FindSnapshot kp d)).
Definition multi_ReplayWal (groupID : Z) (snapshot : option Snapshot) (del : bool) := with_prefix groupID (fun kp d =>
  (d, r ← ReplayWal kp snapshot del d;
      Ret (match r with Ok (result, es, w) => Ok (result, es, SetMultiRaftPurger groupID w) | Err e => Err e end))).
Definition multi_CreateWal (groupID : Z) (metadata : list byte) := with_prefix groupID (fun kp d =>
  let '(d, r) := CreateWal kp metadata d in
  (d, match r with Ok (es, w) => Ok (es, SetMultiRaftPurger groupID w) | Err e => Err e end)).
Definition multi_purgeSnapshot (groupID : Z) (snapshot : Snapshot) := with_prefix groupID (fun kp d =>
  purgeSnapshot kp snapshot d).
Definition multi_ReadEntriesData (groupID : Z) mds ents := with_prefix groupID (fun kp d =>
  (d, pebble_ReadEntriesData kp d mds ents)).

(** The groups whose metadata is there. *)
Definition multi_HasExistingWals (m : MultiRaftPebbleWalManager) : result (list Z) :=
  match db_Iter (mm_db m) (be64 keyMetadata) (upper (be64 keyMetadata)) with
  | Err e => Err e
  | Ok l => Ok (omap (fun '(k, _) => if decide (16 <= length k)%nat then Some (be_combine (go_slice 8 16 k)) else None) l)
  end.

Definition delete_group (kp : keyPrefix) : list batch_op :=
  (fun p => BDeleteRange p (upper p)) <$> [kp_hardState kp; kp_snapshot kp; kp_metadata kp; kp_entry kp].

Definition remove_data (kp : keyPrefix) (d : D) : D * option error :=
  match db_Get d (kp_metadata kp) with
  | Err e => (d, if decide (e = pebble_ErrNotFound) then None else Some (Errorf "failed to check if group %d exists: %v"))
  | Ok _ =>
      match db_Commit d (delete_group kp) true with
      | (d, Some _) => (d, Some (Errorf "failed to commit deletion batch for group %d: %v"))
      | (d, None) => (d, None)
      end
  end.
Definition RemoveData (groupID : Z) := with_prefix groupID remove_data.
End MultiRaft.
