(* ===== verification/LsmtLog.v ===== *)
(** * What a log in a key-value store holds

    The content of the store for one group, as a hard state, the metadata and two lists in
    the order of their indexes: the entries and the snapshots.  The theorems relate the
    operations of [LsmtWal.v] to operations on this state. *)

From S2P Require Import Prelude Raftpb EntryCache EntryStorage WalReplay LsmtKeys LsmtWal.

(** ** Strictly sorted lists *)

(** A strictly sorted list is known by its elements. *)
Lemma sorted_unique {A} (R : A → A → Prop) l1 l2 :
  (∀ x y, R x y → ¬ R y x) → StronglySorted R l1 → StronglySorted R l2 → (∀ x, x ∈ l1 ↔ x ∈ l2) → l1 = l2.
Proof.
  intros HR. revert l2. induction l1 as [|x l1 IH]; intros [|y l2] H1 H2 He.
  - done.
  - exfalso. apply (not_elem_of_nil y), He. by left.
  - exfalso. apply (not_elem_of_nil x), He. by left.
  - inversion H1 as [|? ? H1' Hx]; inversion H2 as [|? ? H2' Hy]; subst. rewrite Forall_forall in Hx, Hy.
    assert (x = y) as ->.
    { assert (x ∈ y :: l2) as [->|Hin]%elem_of_cons by (apply He; by left); [done|].
      assert (y ∈ x :: l1) as [->|Hin']%elem_of_cons by (apply He; by left); [done|]. destruct (HR x y); auto. }
    f_equal. apply IH; [done|done|]. intros z. split; intros Hz.
    + assert (z ∈ y :: l2) as [->|?]%elem_of_cons by (apply He; by right); [|done]. destruct (HR y y); auto.
    + assert (z ∈ y :: l1) as [->|?]%elem_of_cons by (apply He; by right); [|done]. destruct (HR y y); auto.
Qed.

(** In the order of their indexes. *)
Definition by_index {A} (idx : A → Z) : list A → Prop := StronglySorted (λ x y, idx x < idx y).

Lemma by_index_filter {A} (idx : A → Z) P `{∀ x, Decision (P x)} l : by_index idx l → by_index idx (filter P l).
Proof.
  intros Hl. induction Hl as [|x l Hl IH Hx]; [constructor|]. destruct (decide (P x)).
  - rewrite filter_cons_True by done. constructor; [done|]. rewrite Forall_forall in Hx |- *. intros y [_ Hy]%list_elem_of_filter. by apply Hx.
  - by rewrite filter_cons_False.
Qed.

Lemma by_index_app {A} (idx : A → Z) l1 l2 :
  by_index idx l1 → by_index idx l2 → (∀ x y, x ∈ l1 → y ∈ l2 → idx x < idx y) → by_index idx (l1 ++ l2).
Proof.
  intros H1 H2 Hx. induction H1 as [|x l1 H1 IH Hf]; [done|]. simpl. constructor.
  - apply IH. intros; apply Hx; [by right|done].
  - apply Forall_app. split; [done|]. apply Forall_forall. intros y Hy. apply Hx; [by left|done].
Qed.

Lemma indexed_by_index {A} (idx : A → Z) lo l : indexed idx lo l → by_index idx l.
Proof.
  revert lo. induction l as [|x l IH]; intros lo Hl; [constructor|]. apply indexed_cons in Hl as [Hx Hl].
  constructor; [by eapply IH|]. apply Forall_forall. intros y [i Hi]%list_elem_of_lookup. rewrite (Hl _ _ Hi). lia.
Qed.

Lemma by_index_inj {A} (idx : A → Z) l x y : by_index idx l → x ∈ l → y ∈ l → idx x = idx y → x = y.
Proof.
  intros Hl. induction Hl as [|z l Hl IH Hz]; [by intros ?%elem_of_nil|]. rewrite Forall_forall in Hz.
  intros [->|Hx]%elem_of_cons [->|Hy]%elem_of_cons E; [done|..|by apply IH].
  - specialize (Hz _ Hy). lia.
  - specialize (Hz _ Hx). lia.
Qed.

(** ** Reading the store *)

Section Reading.
Context {D : Type} `{PebbleLaws D}.
Implicit Types (d : D).

(** What an iterator gives, when the elements of its range are known as a list. *)
Lemma iter_list d lo hi (xs : list (list byte * list byte)) :
  faultless d → StronglySorted (λ x y, key_lt x.1 y.1 = true) xs →
  (∀ k v, (k, v) ∈ xs ↔ content d k = Some v ∧ in_range lo hi k = true) → db_Iter d lo hi = Ok xs.
Proof.
  intros Hf Hs He. destruct (Iter_faultless d lo hi Hf) as [l Hl]. rewrite Hl. f_equal.
  apply (sorted_unique (λ x y, key_lt x.1 y.1 = true)).
  - intros x y Hxy Hyx. apply key_lt_asym in Hxy. congruence.
  - by eapply Iter_sorted.
  - done.
  - intros [k v]. rewrite (Iter_elements d lo hi l k v Hl). by rewrite He.
Qed.

(** Stores with the same content in the range of an iterator answer alike. *)
Lemma iter_same d d' lo hi :
  faultless d → faultless d' → (∀ k, in_range lo hi k = true → content d' k = content d k) → db_Iter d' lo hi = db_Iter d lo hi.
Proof.
  intros Hf Hf' Hc. destruct (Iter_faultless d lo hi Hf) as [l Hl]. rewrite Hl. apply iter_list; [done|by eapply Iter_sorted|].
  intros k v. rewrite (Iter_elements d lo hi l k v Hl). split; intros [Hk Hr]; (split; [|done]); by rewrite <- Hk, Hc.
Qed.
Lemma get_same d d' k : faultless d → faultless d' → content d' k = content d k → db_Get d' k = db_Get d k.
Proof. intros Hf Hf' Hc. by rewrite !Get_faultless, Hc. Qed.

(** A batch of new values. *)
Lemma sets_other {A} (kf vf : A → list byte) xs m k :
  (∀ x, x ∈ xs → kf x ≠ k) → apply_ops m ((λ x, BSet (kf x) (vf x)) <$> xs) k = m k.
Proof.
  revert m. induction xs as [|x xs IH]; intros m Hx; [done|]. cbn [apply_ops foldl fmap list_fmap].
  change (apply_ops (apply_op m (BSet (kf x) (vf x))) ((λ x, BSet (kf x) (vf x)) <$> xs) k = m k).
  rewrite IH by (intros; apply Hx; by right). simpl. rewrite decide_False; [done|]. intros ->. by apply (Hx x); [left|].
Qed.
Lemma sets_hit {A} (kf vf : A → list byte) xs m x :
  (∀ y, y ∈ xs → kf y = kf x → y = x) → x ∈ xs → apply_ops m ((λ x, BSet (kf x) (vf x)) <$> xs) (kf x) = Some (vf x).
Proof.
  revert m. induction xs as [|y xs IH]; intros m Hinj Hx; [by apply elem_of_nil in Hx|].
  change (apply_ops (apply_op m (BSet (kf y) (vf y))) ((λ x, BSet (kf x) (vf x)) <$> xs) (kf x) = Some (vf x)).
  destruct (decide (Exists (λ z, kf z = kf x) xs)) as [(z & Hz & Ez)%Exists_exists|Hno].
  - apply IH; [intros; apply Hinj; [by right|done]|]. by rewrite <- (Hinj z); [|right|].
  - rewrite sets_other.
    + simpl. apply elem_of_cons in Hx as [->|Hx]; [by rewrite decide_True|]. destruct Hno. apply Exists_exists. by exists x.
    + intros z Hz Ez. apply Hno, Exists_exists. by exists z.
Qed.
Lemma apply_ops_app m ops1 ops2 k : apply_ops m (ops1 ++ ops2) k = apply_ops (apply_ops m ops1) ops2 k.
Proof. unfold apply_ops. by rewrite foldl_app. Qed.
End Reading.

(** ** The content for one group *)

Record log_state := { l_hardState : HardState; l_metadata : list byte; l_entries : list Entry; l_snaps : list WalSnapshot }.

Definition small (i : Z) : Prop := 0 <= i < 2 ^ 60.

Definition entry_key (g : Z) (e : Entry) : list byte := at_index keyEntry g (e_index e).
Definition snap_key (g : Z) (s : WalSnapshot) : list byte :=
  if decide (ws_index s = 0) then createKey g keySnapshot else at_index keySnapshot g (ws_index s).

Lemma entry_group_key g e : small (e_index e) → group_key keyEntry g (entry_key g e).
Proof. intros [? ?]. right. exists (e_index e). split_and!; [lia..|done]. Qed.
Lemma snap_group_key g s : small (ws_index s) → group_key keySnapshot g (snap_key g s).
Proof. intros [? ?]. unfold snap_key. case_decide; [by left|right]. exists (ws_index s). split_and!; [lia..|done]. Qed.

Lemma entry_key_lt g e e' : small (e_index e) → small (e_index e') → e_index e < e_index e' → key_lt (entry_key g e) (entry_key g e') = true.
Proof. intros [? ?] [? ?] Hlt. unfold entry_key. rewrite at_index_lt by lia. by apply bool_decide_eq_true. Qed.
Lemma key_lt_prefix p x : x ≠ [] → key_lt p (p ++ x) = true.
Proof. intros Hx. rewrite <- (app_nil_r p) at 1. rewrite key_lt_app. by destruct x. Qed.
Lemma createKey_lt g t i : key_lt (createKey g t) (at_index t g i) = true.
Proof.
  unfold createKey, at_index. case_decide; [by apply key_lt_prefix|]. rewrite (assoc_L (++)). by apply key_lt_prefix.
Qed.
Lemma snap_key_lt g s s' : small (ws_index s) → small (ws_index s') → ws_index s < ws_index s' → key_lt (snap_key g s) (snap_key g s') = true.
Proof.
  intros [? ?] [? ?] Hlt. unfold snap_key. rewrite (decide_False (P := ws_index s' = 0)) by lia. case_decide; [apply createKey_lt|].
  rewrite at_index_lt by lia. by apply bool_decide_eq_true.
Qed.

(** The ranges of the kinds of a group are apart. *)
Lemma other_kind t t' g k :
  is_u64 t → is_u64 t' → is_u64 g → t ≠ t' → group_key t' g k → in_range (createKey g t) (upper (createKey g t)) k = false.
Proof.
  intros Ht Ht' Hg Hne Hk. destruct (decide (g = 0)) as [->|Hn]; [by apply (kind_key_out t t')|].
  apply (group_key_out t g t' g); [done..|congruence|done].
Qed.
Lemma kinds_differ t t' g k k' :
  is_u64 t → is_u64 t' → is_u64 g → t ≠ t' → group_key t g k → group_key t' g k' → k ≠ k'.
Proof.
  intros Ht Ht' Hg Hne Hk Hk' ->. pose proof (group_key_in _ _ _ Hk) as Hin. by rewrite (other_kind t t' g k') in Hin.
Qed.
Lemma bare_key t g : group_key t g (createKey g t).
Proof. by left. Qed.

Section Keeps.
Context {D : Type} `{PebbleLaws D, Message HardState, Message Entry, Message WalSnapshot}.
Implicit Types (d : D) (g : Z) (a : log_state).

(** The elements of the range of a kind. *)
Definition range_is {A} `{Message A} d g (t : Z) (key : A → list byte) (xs : list A) : Prop :=
  ∀ k v, in_range (createKey g t) (upper (createKey g t)) k = true →
    content d k = Some v ↔ ∃ x, x ∈ xs ∧ k = key x ∧ v = marshal x.

Record keeps d g a : Prop := {
  ke_faultless : faultless d;
  ke_hardState : content d (createKey g keyHardState) =
    (if isEmptyHardState (l_hardState a) then None else Some (marshal (l_hardState a)));
  ke_metadata : content d (createKey g keyMetadata) = Some (l_metadata a);
  ke_entries : range_is d g keyEntry (entry_key g) (l_entries a);
  ke_snaps : range_is d g keySnapshot (snap_key g) (l_snaps a);
  ke_sorted : by_index e_index (l_entries a) ∧ by_index ws_index (l_snaps a);
  ke_small : (∀ e, e ∈ l_entries a → small (e_index e)) ∧ (∀ s, s ∈ l_snaps a → small (ws_index s))
}.

Lemma iter_range {A} `{Message A} d g t (key : A → list byte) (idx : A → Z) xs :
  faultless d → range_is d g t key xs → by_index idx xs → (∀ x, x ∈ xs → group_key t g (key x)) →
  (∀ x y, x ∈ xs → y ∈ xs → idx x < idx y → key_lt (key x) (key y) = true) →
  db_Iter d (createKey g t) (upper (createKey g t)) = Ok ((λ x, (key x, marshal x)) <$> xs).
Proof.
  intros Hf Hr Hs Hk Hlt. apply iter_list; [done| |].
  - clear Hr. induction Hs as [|x xs Hs IH Hx]; [constructor|]. cbn [fmap list_fmap]. constructor.
    + apply IH; [intros; apply Hk; by right|]. intros; apply Hlt; [by right|by right|done].
    + apply Forall_fmap. rewrite Forall_forall in Hx |- *. intros y Hy. apply Hlt; [by left|by right|by apply Hx].
  - intros k v. rewrite list_elem_of_fmap. split.
    + intros (x & [= -> ->] & Hx). assert (in_range (createKey g t) (upper (createKey g t)) (key x) = true) as Hin by (by apply group_key_in, Hk).
      split; [|done]. apply Hr; [done|]. by exists x.
    + intros [Hc Hin]. apply (Hr k v Hin) in Hc as (x & Hx & -> & ->). by exists x.
Qed.

Lemma iter_entries d g a : keeps d g a →
  db_Iter d (createKey g keyEntry) (upper (createKey g keyEntry)) = Ok ((λ e, (entry_key g e, marshal e)) <$> l_entries a).
Proof.
  intros Hk. destruct (ke_small _ _ _ Hk) as [Hsm _]. apply (iter_range d g keyEntry (entry_key g) e_index); [by destruct Hk..|apply Hk| |].
  - intros e He. by apply entry_group_key, Hsm.
  - intros e e' He He'. apply entry_key_lt; by apply Hsm.
Qed.
Lemma iter_snaps d g a : keeps d g a →
  db_Iter d (createKey g keySnapshot) (upper (createKey g keySnapshot)) = Ok ((λ s, (snap_key g s, marshal s)) <$> l_snaps a).
Proof.
  intros Hk. destruct (ke_small _ _ _ Hk) as [_ Hsm]. apply (iter_range d g keySnapshot (snap_key g) ws_index); [by destruct Hk..|apply Hk| |].
  - intros s Hs. by apply snap_group_key, Hsm.
  - intros s s' Hs Hs'. apply snap_key_lt; by apply Hsm.
Qed.

Lemma unmarshal_all_marshal {A} `{Message A} (key : A → list byte) xs : unmarshal_all ((λ x, (key x, marshal x)) <$> xs) = Ok xs.
Proof. induction xs as [|x xs IH]; [done|]. csimpl. by rewrite unmarshal_marshal, IH. Qed.

(** The reads of a manager. *)
Lemma FindSnapshot_keeps d g a : keeps d g a → FindSnapshot (newKeyPrefix g) d = Ok (l_snaps a).
Proof. intros Hk. unfold FindSnapshot. cbn [kp_snapshot newKeyPrefix]. rewrite (iter_snaps d g a Hk). apply unmarshal_all_marshal. Qed.
Lemma HasExistingWals_keeps d g a : keeps d g a → HasExistingWals (newKeyPrefix g) d = Ok (bool_decide (l_entries a ≠ [])).
Proof.
  intros Hk. unfold HasExistingWals. cbn [kp_entry newKeyPrefix]. rewrite (iter_entries d g a Hk). f_equal. apply bool_decide_ext.
  by destruct (l_entries a).
Qed.

(** The entries after a snapshot, if they follow it without a gap. *)
Fixpoint consecutive (lo : Z) (l : list Entry) : bool :=
  match l with [] => true | e :: l => bool_decide (e_index e = lo) && consecutive (lo + 1) l end.
Definition after (s : Z) (es : list Entry) : list Entry := filter (λ e, s < e_index e) es.
Definition replayed (s : Z) (es : list Entry) : result (list Entry) :=
  if consecutive (s + 1) (after s es) then Ok (after s es) else Err err_up.

Lemma consecutive_indexed lo l : consecutive lo l = true ↔ indexed e_index lo l.
Proof.
  revert lo. induction l as [|e l IH]; intros lo; [split; [intros _; apply indexed_nil|done]|].
  simpl. by rewrite andb_true_iff, bool_decide_eq_true, IH, indexed_cons.
Qed.

Lemma replay_entries_spec g s es : ∀ acc,
  0 <= s → by_index e_index es → (∀ e, e ∈ es → small (e_index e)) → (∀ e, e ∈ es → s < e_index e → s + Z.of_nat (length acc) < e_index e) →
  replay_entries s ((λ e, (entry_key g e, marshal e)) <$> es) acc =
    if consecutive (s + 1 + Z.of_nat (length acc)) (after s es) then Ok (acc ++ after s es) else Err err_up.
Proof.
  induction es as [|e es IH]; intros acc Hs0 Hs Hsm Hacc; [by csimpl; rewrite app_nil_r|]. csimpl. rewrite unmarshal_marshal.
  inversion Hs as [|? ? Hs' Hx]; subst. rewrite Forall_forall in Hx. assert (e ∈ e :: es) as Hin by (by left).
  pose proof (Hsm e Hin) as [? ?]. unfold after. case_decide as He.
  - rewrite filter_cons_True by done. specialize (Hacc e Hin He). rewrite u64_small by lia. cbn [consecutive]. case_decide as Hup.
    + by rewrite bool_decide_eq_false_2 by lia.
    + rewrite take_ge by lia. rewrite bool_decide_eq_true_2 by lia. simpl. change (filter _ es) with (after s es).
      rewrite IH; [|done|done|intros; apply Hsm; by right|].
      * rewrite length_app. simpl. replace (s + 1 + Z.of_nat (length acc + 1)) with (s + 1 + Z.of_nat (length acc) + 1) by lia.
        by rewrite <- (assoc_L (++)).
      * intros e' He' _. rewrite length_app. simpl. specialize (Hx e' He'). lia.
  - rewrite filter_cons_False by done. apply IH; [done|done|intros; apply Hsm; by right|intros; apply Hacc; [by right|done]].
Qed.

Lemma replay_keeps d g a s : keeps d g a → 0 <= s →
  replay_entries s ((λ e, (entry_key g e, marshal e)) <$> l_entries a) [] = replayed s (l_entries a).
Proof.
  intros Hk Hs. destruct (ke_small _ _ _ Hk) as [Hsm _]. destruct (ke_sorted _ _ _ Hk) as [Hso _].
  rewrite replay_entries_spec; [|done|done|done|by intros; simpl; lia]. by rewrite Z.add_0_r.
Qed.

(** ** Writing the store *)

(** Saving entries replaces those of their indexes, and no others. *)
Definition overwrite (es nes : list Entry) : list Entry :=
  match head nes, last nes with
  | Some x, Some y => filter (λ e, e_index e < e_index x) es ++ nes ++ filter (λ e, e_index y < e_index e) es
  | _, _ => es
  end.

Lemma overwrite_elem lo es nes e :
  indexed e_index lo nes →
  e ∈ overwrite es nes ↔ e ∈ nes ∨ (e ∈ es ∧ ¬ (lo <= e_index e < lo + Z.of_nat (length nes))).
Proof.
  intros Hi. unfold overwrite. destruct nes as [|x nes]; [simpl; split; [right; split; [done|lia]|by intros [?%elem_of_nil|[? _]]]|].
  destruct (last (x :: nes)) as [y|] eqn:Hy; [|by apply last_None in Hy]. cbn [head].
  pose proof (indexed_last _ _ _ _ Hi Hy) as Ey. pose proof (proj1 (indexed_cons _ _ _ _) Hi) as [Ex _].
  rewrite !elem_of_app, !list_elem_of_filter. rewrite Ex, Ey. split.
  - intros [[? ?]|[?|[? ?]]]; [right; split; [done|lia]|by left|right; split; [done|lia]].
  - intros [?|[? ?]]; [by right; left|]. destruct (decide (e_index e < lo)); [by left|]. right; right. split; [lia|done].
Qed.

Lemma overwrite_sorted lo es nes : indexed e_index lo nes → by_index e_index es → by_index e_index (overwrite es nes).
Proof.
  intros Hi Hs. unfold overwrite. destruct nes as [|x nes]; [done|]. destruct (last (x :: nes)) as [y|] eqn:Hy; [|done]. cbn [head].
  pose proof (indexed_last _ _ _ _ Hi Hy) as Ey. pose proof (proj1 (indexed_cons _ _ _ _) Hi) as [Ex _].
  assert (∀ z, z ∈ x :: nes → lo <= e_index z <= e_index y) as Hz.
  { intros z [i Hz]%list_elem_of_lookup. rewrite (Hi _ _ Hz), Ey. apply lookup_lt_Some in Hz. lia. }
  apply by_index_app; [by apply by_index_filter|apply by_index_app|].
  - by eapply indexed_by_index.
  - by apply by_index_filter.
  - intros u v Hu [? _]%list_elem_of_filter. specialize (Hz u Hu). lia.
  - intros u v [Hu _]%list_elem_of_filter [Hv|[Hv _]%list_elem_of_filter]%elem_of_app; [specialize (Hz v Hv)|]; lia.
Qed.

Definition save_state (hs : HardState) (nes : list Entry) (a : log_state) : log_state :=
  {| l_hardState := if isEmptyHardState hs then l_hardState a else hs; l_metadata := l_metadata a;
     l_entries := overwrite (l_entries a) nes; l_snaps := l_snaps a |}.

Lemma entry_key_inj g e e' : is_u64 g → small (e_index e) → small (e_index e') → entry_key g e = entry_key g e' → e_index e = e_index e'.
Proof. intros Hg [? ?] [? ?] E. by apply at_index_inj in E as (_ & _ & ?); [|done || lia..]. Qed.

Definition hs_ops g (hs : HardState) : list batch_op :=
  if isEmptyHardState hs then [] else [BSet (createKey g keyHardState) (marshal hs)].
Definition save_ops g (hs : HardState) (nes : list Entry) : list batch_op :=
  hs_ops g hs ++ ((λ e, BSet (entry_key g e) (marshal e)) <$> nes).

Lemma hs_ops_other g hs m k : k ≠ createKey g keyHardState → apply_ops m (hs_ops g hs) k = m k.
Proof. intros Hk. unfold hs_ops. destruct (isEmptyHardState hs); [done|]. simpl. by rewrite decide_False. Qed.

(** A key of another kind than the hard state and the entries is not touched by a save. *)
Lemma save_other d d' g hs nes sync t k :
  db_Commit d (save_ops g hs nes) sync = (d', None) → is_u64 g → is_u64 t → t ≠ keyHardState → t ≠ keyEntry →
  in_range (createKey g t) (upper (createKey g t)) k = true → (∀ e, e ∈ nes → small (e_index e)) → content d' k = content d k.
Proof.
  intros Hc Hg Ht Hn1 Hn3 Hin Hsm. rewrite (Commit_ok _ _ _ _ k Hc). unfold save_ops. rewrite apply_ops_app, sets_other.
  - apply hs_ops_other. intros ->. by rewrite (other_kind t keyHardState g _ Ht) in Hin by (done || by left).
  - intros e He <-. by rewrite (other_kind t keyEntry g _ Ht) in Hin by (done || by apply entry_group_key, Hsm).
Qed.

Lemma save_entries d d' g hs nes sync lo es :
  db_Commit d (save_ops g hs nes) sync = (d', None) → is_u64 g → indexed e_index lo nes →
  (∀ e, e ∈ nes → small (e_index e)) → (∀ e, e ∈ es → small (e_index e)) →
  range_is d g keyEntry (entry_key g) es → range_is d' g keyEntry (entry_key g) (overwrite es nes).
Proof.
  intros Hc Hg Hi Hsm Hsm' Hr k v Hin. rewrite (Commit_ok _ _ _ _ k Hc). unfold save_ops. rewrite apply_ops_app.
  assert (∀ i x, nes !! i = Some x → lo <= e_index x < lo + Z.of_nat (length nes)) as Hlo.
  { intros i x Hx. rewrite (Hi _ _ Hx). apply lookup_lt_Some in Hx. lia. }
  destruct (decide (Exists (λ x, entry_key g x = k) nes)) as [(x & Hx & <-)%Exists_exists|Hno].
  - rewrite (sets_hit (entry_key g) marshal nes _ x);
      [|intros y Hy E%entry_key_inj; [|done|by apply Hsm..]; eapply by_index_inj; [by eapply indexed_by_index|done..]|done].
    split.
    + intros [= <-]. exists x. split; [apply (overwrite_elem lo); [done|by left]|done].
    + intros (e & He & E & ->). apply (overwrite_elem lo) in He; [|done]. f_equal. destruct He as [He|[He Hout]].
      * apply entry_key_inj in E; [|done|by apply Hsm..]. f_equal. eapply by_index_inj; [by eapply indexed_by_index|done..].
      * apply entry_key_inj in E; [|done|by apply Hsm|by apply Hsm']. apply list_elem_of_lookup in Hx as [i Hx]. apply Hlo in Hx. lia.
  - rewrite sets_other by (intros x Hx <-; apply Hno, Exists_exists; by exists x).
    rewrite hs_ops_other by (intros ->; by rewrite (other_kind keyEntry keyHardState g) in Hin by (done || by left)).
    rewrite (Hr k v Hin). split; intros (e & He & -> & ->); exists e; (split; [|done]).
    + apply (overwrite_elem lo); [done|]. right. split; [done|]. intros Hlt. apply Hno.
      destruct (lookup_lt_is_Some_2 nes (Z.to_nat (e_index e - lo))) as [x Hx]; [lia|].
      apply Exists_exists. exists x. split; [by apply list_elem_of_lookup_2 in Hx|]. unfold entry_key. f_equal. rewrite (Hi _ _ Hx). lia.
    + apply (overwrite_elem lo) in He as [He|[He _]]; [|done|done]. destruct Hno. apply Exists_exists. by exists e.
Qed.

Lemma save_keeps d d' g a hs nes sync lo :
  db_Commit d (save_ops g hs nes) sync = (d', None) → faultless d' → is_u64 g → indexed e_index lo nes → (∀ e, e ∈ nes → small (e_index e)) →
  keeps d g a → keeps d' g (save_state hs nes a).
Proof.
  intros Hc Hf Hg Hi Hsm [_ Hhs Hmd Hes Hsn [Hs1 Hs2] [Hm1 Hm2]]. constructor; cbn [l_hardState l_metadata l_entries l_snaps save_state].
  - done.
  - rewrite (Commit_ok _ _ _ _ _ Hc). unfold save_ops. rewrite apply_ops_app, sets_other.
    + unfold hs_ops. destruct (isEmptyHardState hs) eqn:E; [done|]. simpl. by rewrite decide_True, E.
    + intros e He. apply (kinds_differ keyEntry keyHardState g); [done..|by apply entry_group_key, Hsm|by left].
  - rewrite (save_other d d' g hs nes sync keyMetadata); [done..| |done]. by apply group_key_in, bare_key.
  - by eapply save_entries.
  - intros k v Hin. rewrite (save_other d d' g hs nes sync keySnapshot k); [|done..]. by apply Hsn.
  - split; [by eapply overwrite_sorted|done].
  - split; [|done]. intros e He. apply (overwrite_elem lo) in He as [He|[He _]]; [by apply Hsm|by apply Hm1|done].
Qed.

Definition insert_snap (s : WalSnapshot) (l : list WalSnapshot) : list WalSnapshot :=
  filter (λ x, ws_index x < ws_index s) l ++ s :: filter (λ x, ws_index s < ws_index x) l.
Definition snapshot_state (s : WalSnapshot) (a : log_state) : log_state :=
  {| l_hardState := l_hardState a; l_metadata := l_metadata a; l_entries := l_entries a; l_snaps := insert_snap s (l_snaps a) |}.
Definition purge_state (i : Z) (a : log_state) : log_state :=
  {| l_hardState := l_hardState a; l_metadata := l_metadata a; l_entries := after i (l_entries a); l_snaps := l_snaps a |}.

Lemma insert_snap_elem s l x : x ∈ insert_snap s l ↔ x = s ∨ (x ∈ l ∧ ws_index x ≠ ws_index s).
Proof.
  unfold insert_snap. rewrite elem_of_app, elem_of_cons, !list_elem_of_filter. split.
  - intros [[? ?]|[->|[? ?]]]; [right; split; [done|lia]|by left|right; split; [done|lia]].
  - intros [->|[? ?]]; [by right; left|]. destruct (decide (ws_index x < ws_index s)); [by left|]. right; right. split; [lia|done].
Qed.
Lemma insert_snap_sorted s l : by_index ws_index l → by_index ws_index (insert_snap s l).
Proof.
  intros Hl. apply by_index_app; [by apply by_index_filter| |].
  - constructor; [by apply by_index_filter|]. apply Forall_forall. by intros y [? _]%list_elem_of_filter.
  - intros x y [? _]%list_elem_of_filter [->|[? _]%list_elem_of_filter]%elem_of_cons; lia.
Qed.

Lemma snap_key_inj g s s' : is_u64 g → small (ws_index s) → small (ws_index s') → snap_key g s = snap_key g s' → ws_index s = ws_index s'.
Proof.
  intros Hg Hs Hs' E. destruct (Z.lt_trichotomy (ws_index s) (ws_index s')) as [Hlt|[?|Hlt]]; [|done|].
  - pose proof (snap_key_lt g s s' Hs Hs' Hlt) as Hk. by rewrite E, key_lt_irrefl in Hk.
  - pose proof (snap_key_lt g s' s Hs' Hs Hlt) as Hk. by rewrite E, key_lt_irrefl in Hk.
Qed.

Lemma snapshot_keeps d d' g a s sync :
  db_Commit d [BSet (snap_key g s) (marshal s)] sync = (d', None) → faultless d' → is_u64 g → small (ws_index s) →
  keeps d g a → keeps d' g (snapshot_state s a).
Proof.
  intros Hc Hf Hg Hsm [_ Hhs Hmd Hes Hsn [Hs1 Hs2] [Hm1 Hm2]]. pose proof (snap_group_key g s Hsm) as Hgk.
  assert (∀ k, k ≠ snap_key g s → content d' k = content d k) as Hother.
  { intros k Hk. rewrite (Commit_ok _ _ _ _ _ Hc). simpl. by rewrite decide_False. }
  constructor; cbn [l_hardState l_metadata l_entries l_snaps snapshot_state]; [done|..].
  - rewrite Hother; [done|]. apply (kinds_differ keyHardState keySnapshot g); [done..|by left|done].
  - rewrite Hother; [done|]. apply (kinds_differ keyMetadata keySnapshot g); [done..|by left|done].
  - intros k v Hin. rewrite Hother; [by apply Hes|]. intros ->. by rewrite (other_kind keyEntry keySnapshot g) in Hin.
  - intros k v Hin. destruct (decide (k = snap_key g s)) as [->|Hk].
    + rewrite (Commit_ok _ _ _ _ _ Hc). simpl. rewrite decide_True by done. split.
      * intros [= <-]. exists s. split; [apply insert_snap_elem; by left|done].
      * intros (x & [->|[Hx Hne]]%insert_snap_elem & E & ->); [done|]. destruct Hne. symmetry. eapply snap_key_inj; [done|done|by apply Hm2|done].
    + rewrite Hother, (Hsn k v Hin) by done. split; intros (x & Hx & -> & ->); exists x; (split; [|done]).
      * apply insert_snap_elem. right. split; [done|]. intros E. apply Hk. unfold snap_key. by rewrite E.
      * by apply insert_snap_elem in Hx as [->|[? _]].
  - split; [done|by apply insert_snap_sorted].
  - split; [done|]. by intros x [->|[? _]]%insert_snap_elem; [|apply Hm2].
Qed.

(** The range a purge deletes is part of the range of the entries. *)
Lemma purge_range g i k :
  small i → in_range (createKey g keyEntry) (at_index keyEntry g (i + 1)) k = true →
  in_range (createKey g keyEntry) (upper (createKey g keyEntry)) k = true.
Proof.
  intros [? ?]. unfold in_range. rewrite !andb_true_iff. intros [Hlo Hhi]. split; [done|]. eapply key_lt_trans; [exact Hhi|].
  assert (group_key keyEntry g (at_index keyEntry g (i + 1))) as Hk%group_key_in by (right; exists (i + 1); split_and!; [lia..|done]).
  unfold in_range in Hk. by apply andb_true_iff in Hk as [_ Hk].
Qed.

Lemma purge_keeps d d' g a i sync :
  db_Commit d [BDeleteRange (createKey g keyEntry) (at_index keyEntry g (i + 1))] sync = (d', None) → faultless d' → is_u64 g → small i →
  keeps d g a → keeps d' g (purge_state i a).
Proof.
  intros Hc Hf Hg Hsm [_ Hhs Hmd Hes Hsn [Hs1 Hs2] [Hm1 Hm2]].
  assert (∀ k, content d' k = if in_range (createKey g keyEntry) (at_index keyEntry g (i + 1)) k then None else content d k) as Hall
    by (intros k; by rewrite (Commit_ok _ _ _ _ _ Hc)).
  assert (∀ k, in_range (createKey g keyEntry) (upper (createKey g keyEntry)) k = false → content d' k = content d k) as Hother.
  { intros k Hk. rewrite Hall. destruct (in_range _ (at_index _ _ _) k) eqn:E; [|done]. by rewrite (purge_range g i k Hsm E) in Hk. }
  constructor; cbn [l_hardState l_metadata l_entries l_snaps purge_state]; [done|..].
  - rewrite Hother; [done|]. by apply (other_kind keyEntry keyHardState g); [..|left].
  - rewrite Hother; [done|]. by apply (other_kind keyEntry keyMetadata g); [..|left].
  - intros k v Hin. rewrite Hall. assert (∀ e, e ∈ l_entries a → in_range (createKey g keyEntry) (at_index keyEntry g (i + 1)) (entry_key g e) = bool_decide (e_index e <= i)) as He.
    { intros e He. destruct (Hm1 e He), Hsm. unfold in_range, entry_key. rewrite (key_lt_asym _ _ (createKey_lt g keyEntry (e_index e))).
      cbn [negb andb]. rewrite at_index_lt by lia. apply bool_decide_ext. lia. }
    split.
    + destruct (in_range _ (at_index _ _ _) k) eqn:E; [done|]. intros (e & Hin' & -> & ->)%(Hes k v Hin). exists e. split; [|done].
      rewrite He in E by done. apply bool_decide_eq_false in E. apply list_elem_of_filter. split; [lia|done].
    + intros (e & [Hlt Hin']%list_elem_of_filter & -> & ->). rewrite He, bool_decide_eq_false_2 by (done || lia). apply Hes; [done|by exists e].
  - intros k v Hin. rewrite Hother; [by apply Hsn|]. destruct (in_range (createKey g keyEntry) _ k) eqn:E; [|done]. exfalso.
    apply in_prefix_range in Hin as (r & -> & _). apply in_prefix_range in E as (r' & E & _). revert E. unfold createKey. case_decide.
    + intros E. by apply be64_app_inj in E as [? _].
    + rewrite <- !(assoc_L (++)). intros E. by apply be64_app_inj in E as [? _].
  - split; [by apply by_index_filter|done].
  - split; [|done]. intros e [_ ?]%list_elem_of_filter. by apply Hm1.
Qed.

(** ** Creating and replaying a log *)

(** Nothing is stored for a group. *)
Definition no_group d g : Prop :=
  ∀ t k, t ∈ [keyHardState; keySnapshot; keyEntry; keyMetadata] → in_range (createKey g t) (upper (createKey g t)) k = true → content d k = None.

Definition empty_walsnap : WalSnapshot := {| ws_index := 0; ws_term := 0; ws_conf := None |}.
Definition new_state (metadata : list byte) : log_state :=
  {| l_hardState := emptyHardState; l_metadata := metadata; l_entries := []; l_snaps := [empty_walsnap] |}.

Lemma CreateWal_keeps d g metadata : faultless d → is_u64 g → no_group d g →
  ∃ d', CreateWal (newKeyPrefix g) metadata d = (d', Ok (NewEntryStorage tt, NewPebbleWal (Some (NewEntryStorage tt)) (newKeyPrefix g))) ∧
    keeps d' g (new_state metadata).
Proof.
  intros Hf Hg Hno. unfold CreateWal. cbn [kp_snapshot kp_metadata newKeyPrefix].
  destruct (Commit_faultless d [BSet (createKey g keySnapshot) (marshal empty_walsnap); BSet (createKey g keyMetadata) metadata] true Hf) as (d' & Hc & Hf').
  change {| ws_index := 0; ws_term := 0; ws_conf := None |} with empty_walsnap. rewrite Hc. exists d'. split; [done|].
  assert (∀ k, content d' k = if decide (k = createKey g keyMetadata) then Some metadata
                              else if decide (k = createKey g keySnapshot) then Some (marshal empty_walsnap) else content d k) as Hall
    by (intros k; by rewrite (Commit_ok _ _ _ _ _ Hc)).
  assert (∀ t t', t ∈ [keyHardState; keySnapshot; keyEntry; keyMetadata] → t' ∈ [keySnapshot; keyMetadata] → t ≠ t' →
    ∀ k, in_range (createKey g t) (upper (createKey g t)) k = true → k ≠ createKey g t') as Hne.
  { intros t t' Ht Ht' Htt k Hin ->. assert (∀ x, x ∈ [1; 2; 3; 4] → is_u64 x) as Hu by (intros x; rewrite !elem_of_cons, elem_of_nil; lia).
    rewrite (other_kind t t' g) in Hin; [done|by apply Hu| |done|done|by left]. apply Hu. revert Ht'. clear.
    rewrite !elem_of_cons, !elem_of_nil. unfold keySnapshot, keyMetadata. lia. }
  assert (∀ t, in_range (createKey g t) (upper (createKey g t)) (createKey g t) = true) as Hself by (intros; by apply group_key_in, bare_key).
  constructor; cbn [l_hardState l_metadata l_entries l_snaps new_state]; [done|..].
  - rewrite Hall, !decide_False; [by apply (Hno keyHardState); [left|]|..].
    + by apply (Hne keyHardState keySnapshot); [left..| |].
    + by apply (Hne keyHardState keyMetadata); [left|right; left| |].
  - by rewrite Hall, decide_True.
  - intros k v Hin. rewrite Hall, !decide_False; [|by apply (Hne keyEntry keySnapshot); [do 2 right; left|left| |]|by apply (Hne keyEntry keyMetadata); [do 2 right; left|right; left| |]].
    rewrite (Hno keyEntry k); [|do 2 right; by left|done]. split; [done|]. by intros (x & ?%elem_of_nil & _).
  - intros k v Hin. rewrite Hall, decide_False by (by apply (Hne keySnapshot keyMetadata); [right; left|right; left| |]). case_decide as Hk.
    + subst k. split; [intros [= <-]; exists empty_walsnap; split; [by left|done]|]. by intros (x & ->%list_elem_of_singleton & _ & ->).
    + rewrite (Hno keySnapshot k); [|right; by left|done]. split; [done|]. by intros (x & ->%list_elem_of_singleton & -> & _).
  - split; repeat constructor.
  - split; [by intros e ?%elem_of_nil|]. by intros s ->%list_elem_of_singleton.
Qed.

Lemma isEmptyHardState_eq hs : isEmptyHardState hs = true → hs = emptyHardState.
Proof. intros (? & ? & ?)%bool_decide_eq_true. destruct hs. simpl in *. by subst. Qed.

(** The data of the entries kept can be read. *)
Lemma keeps_stored d g a e : keeps d g a → is_u64 g → e ∈ l_entries a →
  stored_entry (newKeyPrefix g) d (index_entry e) = Some (e_data e).
Proof.
  intros Hk Hg He. unfold stored_entry. cbn [kp_entry newKeyPrefix index_entry ei_index]. rewrite index_key_eq.
  rewrite Get_faultless by apply Hk. destruct (ke_small _ _ _ Hk) as [Hsm _].
  assert (content d (entry_key g e) = Some (marshal e)) as Hc.
  { apply (ke_entries _ _ _ Hk); [by apply group_key_in, entry_group_key, Hsm|]. by exists e. }
  unfold entry_key in Hc. rewrite Hc, unmarshal_marshal. cbn [mbind option_bind]. rewrite decide_True; [done|]. by destruct e.
Qed.

Definition snap_base (snap : option Snapshot) : Z := match snap with Some s => sm_index (snap_meta s) | None => 0 end.
Definition snap_term (snap : option Snapshot) : Z := match snap with Some s => sm_term (snap_meta s) | None => 0 end.
Definition good_snapshot (snap : option Snapshot) : Prop := match snap with Some s => 0 < sm_index (snap_meta s) < 2 ^ 60 | None => True end.

Definition kept_by (del : bool) (hs : HardState) (es : list Entry) : list Entry :=
  if del then DeleteUncommittedEntry e_index es (hs_commit hs) else es.

Lemma after_length i es : (length (after i es) <= length es)%nat.
Proof. apply length_filter. Qed.

Lemma indexed_small lo es : indexed e_index lo es → (∀ e, e ∈ es → small (e_index e)) → es ≠ [] → lo + Z.of_nat (length es) <= 2 ^ 60.
Proof.
  intros Hi Hs Hne. destruct (last es) as [e|] eqn:He; [|by apply last_None in He]. pose proof (indexed_last _ _ _ _ Hi He) as E.
  apply last_Some_elem_of in He. destruct (Hs e He). lia.
Qed.

(** The storage before the entries are appended. *)
Definition start_storage (snap : option Snapshot) (hs : HardState) : EntryStorage EntryMetadata :=
  SetHardState (match snap with Some s => (ApplySnapshot tt (NewEntryStorage tt) s).1 | None => NewEntryStorage tt end) hs.

Lemma start_storage_ok snap hs : good_snapshot snap →
  ∃ dm, st_ents (start_storage snap hs) = [dm] ∧ cache_ok (st_cache (start_storage snap hs)) [] ∧
    ei_index dm = snap_base snap ∧ ei_term dm = snap_term snap ∧ st_hardState (start_storage snap hs) = hs.
Proof.
  intros Hs. destruct snap as [s|]; simpl in Hs |- *; [|eexists; split_and!; [done|exact NewCache_ok|done..]].
  unfold start_storage, ApplySnapshot. simpl. rewrite decide_False by lia. eexists. simpl. split_and!; [done|exact NewCache_ok|done..].
Qed.

(** The entries after a snapshot, loaded into the storage. *)
Lemma load_entries d g a snap :
  keeps d g a → is_u64 g → good_snapshot snap → let es := after (snap_base snap) (l_entries a) in
  indexed e_index (snap_base snap + 1) es →
  ∃ sto, AppendEntryIndex tt (start_storage snap (l_hardState a)) (index_entry <$> es) = Ret (sto, None) ∧
    serves (newKeyPrefix g) d sto {| base := snap_base snap; base_term := snap_term snap; body := es |} ∧ st_hardState sto = l_hardState a.
Proof.
  intros Hk Hg Hsnap es Hc. assert (∀ e, e ∈ es → e ∈ l_entries a) as Hsub by (by intros e [_ ?]%list_elem_of_filter).
  destruct (ke_small _ _ _ Hk) as [Hsm _]. assert (0 <= snap_base snap < 2 ^ 60) as Hb by (destruct snap; simpl in *; lia).
  destruct (start_storage_ok snap (l_hardState a) Hsnap) as (dm & He0 & Hc0 & Hix0 & Ht0 & Hh0).
  destruct (@loaded_represents D EntryMetadata _ (pebble_lawful (newKeyPrefix g)) tt d _ dm (index_entry <$> es) es He0 Hc0) as [Happ Hr].
  - lia.
  - destruct (decide (es = [])) as [->|Hne]; [simpl; lia|]. pose proof (indexed_small _ _ Hc (λ e He, Hsm e (Hsub e He)) Hne). lia.
  - by rewrite Hix0.
  - apply Forall2_fmap_l, Forall_Forall2_diag, Forall_forall. intros e He. split; [by destruct e|]. eapply keeps_stored; [done|done|by apply Hsub].
  - eexists. split; [exact Happ|]. rewrite Hix0, Ht0 in Hr. done.
Qed.

Lemma ReplayWal_keeps d g a snap del :
  keeps d g a → is_u64 g → good_snapshot snap →
  match replayed (snap_base snap) (l_entries a) with
  | Err e => ReplayWal (newKeyPrefix g) snap del d = Ret (Err e)
  | Ok es =>
      ∃ sto, ReplayWal (newKeyPrefix g) snap del d =
          Ret (Ok ({| rp_metadata := l_metadata a; rp_hardState := l_hardState a; rp_entries := kept_by del (l_hardState a) es |},
                   sto, NewPebbleWal (Some sto) (newKeyPrefix g))) ∧
        serves (newKeyPrefix g) d sto {| base := snap_base snap; base_term := snap_term snap; body := es |} ∧
        st_hardState sto = l_hardState a
  end.
Proof.
  intros Hk Hg Hsnap. assert (0 <= snap_base snap) as Hb by (destruct snap; simpl in *; lia).
  unfold ReplayWal. change (match snap with Some s => sm_index (snap_meta s) | None => 0 end) with (snap_base snap).
  cbn [kp_hardState kp_metadata kp_entry newKeyPrefix]. rewrite !Get_faultless, (ke_metadata _ _ _ Hk), (ke_hardState _ _ _ Hk) by apply Hk.
  assert (match match (if isEmptyHardState (l_hardState a) then None else Some (marshal (l_hardState a))) with
                | Some v => Ok v | None => Err pebble_ErrNotFound end with
          | Ok data => match unmarshal data with Some hs => Ok hs | None => Err err_unmarshal end
          | Err _ => Ok emptyHardState end = Ok (l_hardState a)) as ->.
  { destruct (isEmptyHardState (l_hardState a)) eqn:E; [by rewrite (isEmptyHardState_eq _ E)|]. by rewrite unmarshal_marshal. }
  cbn [try_]. rewrite (iter_entries d g a Hk). cbn [try_]. rewrite (replay_keeps d g a _ Hk Hb).
  destruct (replayed _ _) as [es|e] eqn:Er; [|done]. cbn [try_].
  unfold replayed in Er. destruct (consecutive _ _) eqn:Hc; [|done]. injection Er as <-. apply consecutive_indexed in Hc.
  destruct (load_entries d g a snap Hk Hg Hsnap Hc) as (sto & Happ & Hr & Hh). exists sto. split; [|done].
  assert (∀ r, rp_hardState r = l_hardState a → rp_hardState (if del then rp_DeleteUncommittedEntry (hs_commit (rp_hardState r)) r else r) = l_hardState a) as Hdel
    by (by destruct del).
  rewrite Hdel by done. unfold start_storage in Happ. rewrite Happ. cbn [mbind go_bind]. do 4 f_equal. unfold kept_by. by destruct del.
Qed.
End Keeps.
