(* ===== verification/LsmtRuns.v ===== *)
(** * Runs of logs in a key-value store

    What a log answers after any run of operations, what it answers when the log was
    shortened or purged, and that the logs of different groups do not touch each other. *)

From S2P Require Import Prelude Raftpb EntryCache EntryStorage WalReplay Wal LsmtKeys LsmtWal LsmtLog.

Inductive wal_op := OSave (hs : HardState) (es : list Entry) | OSnapshot (s : Snapshot) | OPurge (s : Snapshot).

Section Runs.
Context {D : Type} `{PebbleLaws D, RaftLib, Message HardState, Message Entry, Message WalSnapshot}.
Implicit Types (d : D) (w : PebbleWal) (a : log_state).

(** An operation of the log, or of its purger. *)
Definition run_op (op : wal_op) : meth (D * PebbleWal) unit :=
  match op with
  | OSave hs es => Save hs es
  | OSnapshot s => SaveSnapshot s
  | OPurge s => fun '(d, w) =>
      let '(d, err) := purgeSnapshot (w_keyPrefix w) s d in Ret ((d, w), match err with Some e => Err e | None => Ok tt end)
  end.
Fixpoint run_ops (ops : list wal_op) : meth (D * PebbleWal) unit :=
  match ops with [] => Meth.ret tt | op :: ops => (run_op op ;; run_ops ops)%go end.

Definition op_ok (op : wal_op) : Prop :=
  match op with
  | OSave _ es => ∃ lo, 0 <= lo ∧ lo + Z.of_nat (length es) < 2 ^ 60 ∧ indexed e_index lo es
  | OSnapshot s | OPurge s => small (sm_index (snap_meta s))
  end.

Definition abs_op (a : log_state) (op : wal_op) : log_state :=
  match op with
  | OSave hs es => save_state hs es a
  | OSnapshot s => if isEmptySnapshot s then a else snapshot_state (walsnap_of s) a
  | OPurge s => if isEmptySnapshot s then a else purge_state (sm_index (snap_meta s)) a
  end.

(** The log of group [g] with its storage, whose cache is as [EntryCache.v] has it. *)
Record wal_ok (g : Z) d w a : Prop := {
  wo_keeps : keeps d g a;
  wo_prefix : w_keyPrefix w = newKeyPrefix g;
  wo_cache : ∃ es v, w_es w = Some es ∧ cache_ok (st_cache es) v ∧ view_fits v
}.

Lemma indexed_all_small lo es e : 0 <= lo → lo + Z.of_nat (length es) < 2 ^ 60 → indexed e_index lo es → e ∈ es → small (e_index e).
Proof. intros Hlo Hl Hi [i He]%list_elem_of_lookup. rewrite (Hi _ _ He). apply lookup_lt_Some in He. unfold small. lia. Qed.

Lemma save_ops_eq g w hs es : w_keyPrefix w = newKeyPrefix g →
  (if negb (isEmptyHardState hs) then [BSet (kp_hardState (w_keyPrefix w)) (marshal hs)] else []) ++ (set_entry (w_keyPrefix w) <$> es)
  = save_ops g hs es.
Proof.
  intros ->. unfold save_ops, hs_ops. f_equal; [by destruct (isEmptyHardState hs)|]. apply list_fmap_ext. intros i e _.
  unfold set_entry, entry_key. cbn [kp_entry newKeyPrefix]. by rewrite index_key_eq.
Qed.

Lemma lsmt_Save_ok g d w a hs es : is_u64 g → wal_ok g d w a → op_ok (OSave hs es) →
  ∃ d' w', Save hs es (d, w) = Ret ((d', w'), Ok tt) ∧ wal_ok g d' w' (save_state hs es a).
Proof.
  intros Hg [Hk Hp (sto & v & Hes & Hok & Hv)] (lo & Hlo & Hl & Hi). unfold Save. rewrite (save_ops_eq g w hs es Hp).
  set (w1 := {| w_es := w_es w |}). set (sync := _ && _).
  destruct (Commit_faultless d (save_ops g hs es) sync (ke_faultless _ _ _ Hk)) as (d' & Hc & Hf'). rewrite Hc.
  pose proof (save_keeps d d' g a hs es sync lo Hc Hf' Hg Hi (λ e, indexed_all_small lo es e Hlo Hl Hi) Hk) as Hk'.
  destruct es as [|e es].
  - exists d', w1. split; [done|]. constructor; [done|done|by exists sto, v].
  - unfold w1 at 1. cbn [w_es]. rewrite Hes. unfold AppendCache.
    destruct (cache_step_ok (st_cache sto) v (OpAppend (e :: es)) Hok Hv) as (c & Hcs & Hc1 & Hc2); [exists lo; split_and!; [done|lia|done]|].
    cbn [cache_step] in Hcs. rewrite Hcs. cbn [mbind go_bind]. eexists _, _. split; [done|]. constructor; [done|done|].
    eexists _, _. split_and!; [done|exact Hc1|exact Hc2].
Qed.

Lemma lsmt_SaveSnapshot_ok g d w a s : is_u64 g → wal_ok g d w a → op_ok (OSnapshot s) →
  ∃ d' w', SaveSnapshot s (d, w) = Ret ((d', w'), Ok tt) ∧ wal_ok g d' w' (abs_op a (OSnapshot s)).
Proof.
  intros Hg [Hk Hp Hc] Hs. unfold SaveSnapshot. simpl abs_op. destruct (isEmptySnapshot s) eqn:E; [by exists d, w|].
  apply bool_decide_eq_false in E.
  assert (index_key (kp_snapshot (w_keyPrefix w)) (sm_index (snap_meta s)) = snap_key g (walsnap_of s)) as ->.
  { rewrite Hp. cbn [kp_snapshot newKeyPrefix]. rewrite index_key_eq. unfold snap_key. by rewrite decide_False. }
  destruct (Commit_faultless d [BSet (snap_key g (walsnap_of s)) (marshal (walsnap_of s))] true (ke_faultless _ _ _ Hk)) as (d' & Hcm & Hf).
  rewrite Hcm. exists d', w. split; [done|]. constructor; [by eapply snapshot_keeps|done|done].
Qed.

Lemma lsmt_purge_ok g d w a s : is_u64 g → wal_ok g d w a → op_ok (OPurge s) →
  ∃ d' w', run_op (OPurge s) (d, w) = Ret ((d', w'), Ok tt) ∧ wal_ok g d' w' (abs_op a (OPurge s)).
Proof.
  intros Hg [Hk Hp Hc] Hs. simpl run_op. unfold purgeSnapshot. simpl abs_op. destruct (isEmptySnapshot s) eqn:E; [by exists d, w|].
  assert (index_key (kp_entry (w_keyPrefix w)) (u64 (sm_index (snap_meta s) + 1)) = at_index keyEntry g (sm_index (snap_meta s) + 1)) as ->.
  { rewrite Hp. cbn [kp_entry newKeyPrefix]. rewrite index_key_eq, u64_small; [done|]. destruct Hs. lia. }
  rewrite Hp. cbn [kp_entry newKeyPrefix].
  destruct (Commit_faultless d [BDeleteRange (createKey g keyEntry) (at_index keyEntry g (sm_index (snap_meta s) + 1))] true (ke_faultless _ _ _ Hk)) as (d' & Hcm & Hf).
  rewrite Hcm. exists d', w. split; [done|]. constructor; [by eapply purge_keeps|done|done].
Qed.

Lemma lsmt_run_ops_ok g ops : ∀ d w a, is_u64 g → wal_ok g d w a → Forall op_ok ops →
  ∃ d' w', run_ops ops (d, w) = Ret ((d', w'), Ok tt) ∧ wal_ok g d' w' (foldl abs_op a ops).
Proof.
  induction ops as [|op ops IH]; intros d w a Hg Hw Hops; [by exists d, w|]. apply Forall_cons in Hops as [Hop Hops].
  assert (∃ d' w', run_op op (d, w) = Ret ((d', w'), Ok tt) ∧ wal_ok g d' w' (abs_op a op)) as (d1 & w1 & E & Hw1)
    by (destruct op; [by apply lsmt_Save_ok|by apply lsmt_SaveSnapshot_ok|by apply lsmt_purge_ok]).
  cbn [run_ops]. unfold Meth.bind. rewrite E. by apply IH.
Qed.

(** A log that was created and then used. *)
Definition used (g : Z) (metadata : list byte) (ops : list wal_op) d0 d w : Prop :=
  ∃ d1 es w1, CreateWal (newKeyPrefix g) metadata d0 = (d1, Ok (es, w1)) ∧ run_ops ops (d1, w1) = Ret ((d, w), Ok tt).

Lemma used_ok g metadata ops d0 : faultless d0 → is_u64 g → no_group d0 g → Forall op_ok ops →
  ∃ d w, used g metadata ops d0 d w ∧ wal_ok g d w (foldl abs_op (new_state metadata) ops).
Proof.
  intros Hf Hg Hno Hops. destruct (CreateWal_keeps d0 g metadata Hf Hg Hno) as (d1 & Hc & Hk).
  destruct (lsmt_run_ops_ok g ops d1 (NewPebbleWal (Some (NewEntryStorage tt)) (newKeyPrefix g)) (new_state metadata)) as (d & w & Hr & Hw); [done| |done|].
  - constructor; [done|done|]. eexists _, []. split_and!; [done|exact NewCache_ok|]. exists 0. split_and!; [done..|apply indexed_nil].
  - exists d, w. split; [|done]. by eexists _, _, _.
Qed.
End Runs.

Lemma run_metadata ops a : l_metadata (foldl abs_op a ops) = l_metadata a.
Proof. revert a. induction ops as [|op ops IH]; intros a; [done|]. simpl. rewrite IH. destruct op; simpl; try case_match; done. Qed.

(** C14: a log in a key-value store is a log.  Whatever entries, hard states and snapshots
    are saved and purged after it was created, no operation fails on a store that does not,
    and then the snapshots found are those saved, in order and the last of each index; the
    log exists if it has an entry; and a replay from a snapshot gives the metadata, the last
    hard state and the entries after the snapshot as they were saved last, if they follow it
    without a gap, with a storage that serves them, and fails otherwise. *)
Theorem lsmt_log_refines {D} `{PebbleLaws D, RaftLib, Message HardState, Message Entry, Message WalSnapshot} g metadata ops (d0 : D) :
  faultless d0 → is_u64 g → no_group d0 g → Forall op_ok ops →
  let a := foldl abs_op (new_state metadata) ops in
  ∃ d w, used g metadata ops d0 d w ∧
    FindSnapshot (newKeyPrefix g) d = Ok (l_snaps a) ∧
    HasExistingWals (newKeyPrefix g) d = Ok (bool_decide (l_entries a ≠ [])) ∧
    ∀ snap del, good_snapshot snap →
      match replayed (snap_base snap) (l_entries a) with
      | Err e => ReplayWal (newKeyPrefix g) snap del d = Ret (Err e)
      | Ok es =>
          ∃ sto, ReplayWal (newKeyPrefix g) snap del d =
              Ret (Ok ({| rp_metadata := metadata; rp_hardState := l_hardState a; rp_entries := kept_by del (l_hardState a) es |},
                       sto, NewPebbleWal (Some sto) (newKeyPrefix g))) ∧
            serves (newKeyPrefix g) d sto {| base := snap_base snap; base_term := snap_term snap; body := es |} ∧
            st_hardState sto = l_hardState a
      end.
Proof.
  intros Hf Hg Hno Hops a. destruct (used_ok g metadata ops d0 Hf Hg Hno Hops) as (d & w & Hu & Hw). pose proof (wo_keeps _ _ _ _ Hw) as Hk.
  exists d, w. split_and!; [done|by apply FindSnapshot_keeps|by apply HasExistingWals_keeps|]. intros snap del Hsnap.
  pose proof (ReplayWal_keeps d g a snap del Hk Hg Hsnap) as Hr. unfold a at 2 in Hr. by rewrite run_metadata in Hr.
Qed.

(** ** Logs that get shorter *)

Lemma filter_index_lt lo i es : indexed e_index lo es → filter (λ e, e_index e < i) es = take (Z.to_nat (i - lo)) es.
Proof.
  revert lo. induction es as [|e es IH]; intros lo Hi; [by rewrite take_nil|]. apply indexed_cons in Hi as [He Hi].
  destruct (decide (lo < i)).
  - rewrite filter_cons_True by lia. rewrite (IH _ Hi). replace (Z.to_nat (i - lo)) with (S (Z.to_nat (i - (lo + 1)))) by lia. done.
  - rewrite filter_cons_False by lia. rewrite (IH _ Hi). replace (Z.to_nat (i - (lo + 1))) with 0%nat by lia.
    replace (Z.to_nat (i - lo)) with 0%nat by lia. done.
Qed.
Lemma filter_index_gt lo i es : indexed e_index lo es → filter (λ e, i < e_index e) es = drop (Z.to_nat (i - lo + 1)) es.
Proof.
  revert lo. induction es as [|e es IH]; intros lo Hi; [by rewrite drop_nil|]. apply indexed_cons in Hi as [He Hi].
  destruct (decide (i < lo)).
  - rewrite filter_cons_True by lia. rewrite (IH _ Hi). replace (Z.to_nat (i - (lo + 1) + 1)) with 0%nat by lia.
    replace (Z.to_nat (i - lo + 1)) with 0%nat by lia. done.
  - rewrite filter_cons_False by lia. rewrite (IH _ Hi). replace (Z.to_nat (i - lo + 1)) with (S (Z.to_nat (i - (lo + 1) + 1))) by lia. done.
Qed.

(** Saving into a log without gaps: the entries behind the new ones stay. *)
Lemma overwrite_splice lo es nes : indexed e_index 1 es → indexed e_index lo nes → nes ≠ [] → 1 <= lo →
  overwrite es nes = take (Z.to_nat (lo - 1)) es ++ nes ++ drop (Z.to_nat (lo - 1) + length nes) es.
Proof.
  intros He Hi Hne Hlo. unfold overwrite. destruct nes as [|x nes]; [done|]. destruct (last (x :: nes)) as [y|] eqn:Hy; [|by apply last_None in Hy].
  cbn [head]. pose proof (indexed_last _ _ _ _ Hi Hy) as Ey. pose proof (proj1 (indexed_cons _ _ _ _) Hi) as [Ex _].
  rewrite (filter_index_lt 1), (filter_index_gt 1), Ex, Ey by done. do 3 f_equal. lia.
Qed.

Lemma put_entries_eq lo es nes : indexed e_index lo nes → nes ≠ [] → put_entries es nes = take (Z.to_nat (lo - 1)) es ++ nes.
Proof. intros Hi Hne. destruct nes as [|x nes]; [done|]. apply indexed_cons in Hi as [<- _]. done. Qed.

(** The log is the one of raft exactly when the save does not make it shorter. *)
Lemma overwrite_put lo es nes : indexed e_index 1 es → indexed e_index lo nes → nes ≠ [] → 1 <= lo →
  overwrite es nes = put_entries es nes ↔ Z.of_nat (length es) <= lo - 1 + Z.of_nat (length nes).
Proof.
  intros He Hi Hne Hlo. rewrite (overwrite_splice lo), (put_entries_eq lo) by done. split.
  - intros E%app_inv_head. rewrite <- (app_nil_r nes) in E at 3. apply app_inv_head in E. apply (f_equal length) in E.
    rewrite length_drop in E. simpl in E. lia.
  - intros Hl. by rewrite drop_ge, app_nil_r by lia.
Qed.

(** In a key-value store a log does not get shorter.  When a save replaces the end of
    the log with fewer entries, the entries behind the new ones, which raft has discarded,
    stay in the store, and are part of the log again after a restart. *)
Theorem shortened_log_grows_back {D} `{PebbleLaws D, RaftLib, Message HardState, Message Entry, Message WalSnapshot}
    g metadata ops hs lo nes (d0 : D) :
  faultless d0 → is_u64 g → no_group d0 g → Forall op_ok ops → op_ok (OSave hs nes) →
  let es := l_entries (foldl abs_op (new_state metadata) ops) in
  indexed e_index 1 es → indexed e_index lo nes → nes ≠ [] → 1 <= lo → lo - 1 + Z.of_nat (length nes) < Z.of_nat (length es) →
  ∃ d w r sto w', used g metadata (ops ++ [OSave hs nes]) d0 d w ∧
    ReplayWal (newKeyPrefix g) None false d = Ret (Ok (r, sto, w')) ∧
    rp_entries r = take (Z.to_nat (lo - 1)) es ++ nes ++ drop (Z.to_nat (lo - 1) + length nes) es ∧
    rp_entries r ≠ put_entries es nes.
Proof.
  intros Hf Hg Hno Hops Hop es He Hi Hne Hlo Hlt.
  destruct (used_ok g metadata (ops ++ [OSave hs nes]) d0 Hf Hg Hno) as (d & w & Hu & Hw); [apply Forall_app; by split; [|constructor]|].
  pose proof (wo_keeps _ _ _ _ Hw) as Hk. pose proof (ReplayWal_keeps d g _ None false Hk Hg I) as Hr. rewrite foldl_app in Hr.
  cbn [foldl abs_op l_entries save_state snap_base] in Hr. fold es in Hr.
  assert (indexed e_index 1 (overwrite es nes)) as Hix.
  { rewrite (overwrite_splice lo) by done. apply indexed_app. rewrite length_take_le by lia. split; [by apply indexed_take|].
    replace (1 + Z.of_nat (Z.to_nat (lo - 1))) with lo by lia. apply indexed_app. split; [done|].
    replace (lo + Z.of_nat (length nes)) with (1 + Z.of_nat (Z.to_nat (lo - 1) + length nes)) by lia. apply indexed_drop; [lia|done]. }
  assert (after 0 (overwrite es nes) = overwrite es nes) as Ha by (unfold after; by rewrite (filter_index_gt 1)).
  assert (replayed 0 (overwrite es nes) = Ok (overwrite es nes)) as Hrep.
  { unfold replayed. rewrite Ha. change (0 + 1) with 1. by rewrite (proj2 (consecutive_indexed 1 _) Hix). }
  rewrite Hrep in Hr. destruct Hr as (sto & Hr & _).
  eexists d, w, _, sto, _. split; [done|]. split; [exact Hr|]. cbn [rp_entries kept_by]. split; [by apply overwrite_splice|].
  intros E%(overwrite_put lo); [lia|done..].
Qed.

(** A log whose entries were all purged does not exist any more: after the purge of a
    snapshot that covers the log there is no entry to be found, so a restart takes the node
    for a new one, although its hard state, its snapshots and its metadata are there. *)
Theorem purged_log_forgotten {D} `{PebbleLaws D, RaftLib, Message HardState, Message Entry, Message WalSnapshot}
    g metadata ops s (d0 : D) :
  faultless d0 → is_u64 g → no_group d0 g → Forall op_ok ops → op_ok (OPurge s) → sm_index (snap_meta s) ≠ 0 →
  let a := foldl abs_op (new_state metadata) ops in
  (∀ e, e ∈ l_entries a → e_index e <= sm_index (snap_meta s)) →
  ∃ d w, used g metadata (ops ++ [OPurge s]) d0 d w ∧ HasExistingWals (newKeyPrefix g) d = Ok false ∧
    FindSnapshot (newKeyPrefix g) d = Ok (l_snaps a) ∧ db_Get d (createKey g keyMetadata) = Ok metadata.
Proof.
  intros Hf Hg Hno Hops Hop Hs a Hall.
  destruct (used_ok g metadata (ops ++ [OPurge s]) d0 Hf Hg Hno) as (d & w & Hu & Hw); [apply Forall_app; by split; [|constructor]|].
  pose proof (wo_keeps _ _ _ _ Hw) as Hk. rewrite foldl_app in Hk. fold a in Hk. cbn [foldl abs_op] in Hk.
  unfold isEmptySnapshot in Hk. rewrite bool_decide_eq_false_2 in Hk by done. exists d, w. split; [done|]. split_and!.
  - rewrite (HasExistingWals_keeps d g _ Hk). cbn [l_entries purge_state]. f_equal. apply bool_decide_eq_false. intros Hne. apply Hne.
    unfold after. apply elem_of_nil_inv. intros e [? ?%Hall]%list_elem_of_filter. lia.
  - by rewrite (FindSnapshot_keeps d g _ Hk).
  - rewrite Get_faultless, (ke_metadata _ _ _ Hk) by apply Hk. cbn [l_metadata purge_state]. unfold a. by rewrite run_metadata.
Qed.
