(* ===== verification/LsmtGroups.v ===== *)
(** * The logs of many groups in one store

    The keys of a group start with the group; what is done for one group changes no key of
    another. *)

From S2P Require Import Prelude Raftpb EntryCache EntryStorage WalReplay LsmtKeys LsmtWal LsmtLog.

(** The keys of a group: a kind, the group, and what follows. *)
Definition owned (g : Z) (k : list byte) : Prop := ∃ t r, is_u64 t ∧ k = be64 t ++ be64 g ++ r.

Lemma owned_apart g g' k : is_u64 g → is_u64 g' → g ≠ g' → owned g k → ¬ owned g' k.
Proof.
  intros Hg Hg' Hne (t & r & Ht & ->) (t' & r' & Ht' & E). apply be64_app_inj in E as [-> E]; [|done..].
  by apply be64_app_inj in E as [? _].
Qed.
Lemma owned_key t g : is_u64 t → g ≠ 0 → owned g (createKey g t).
Proof. intros Ht Hg. exists t, []. split; [done|]. by rewrite <- createKey_app, app_nil_r. Qed.
Lemma owned_index t g i : is_u64 t → owned g (index_key (createKey g t) i).
Proof. intros Ht. exists t, (be64 i). by rewrite index_key_eq. Qed.

(** A range that begins with a prefix and ends with a continuation of it. *)
Lemma range_prefix p x k : in_range p (p ++ x) k = true → ∃ r, k = p ++ r.
Proof.
  revert k. induction p as [|b p IH]; intros k; [by exists k|]. destruct k as [|c k]; [done|]. cbn [app].
  rewrite in_range_cons, andb_true_iff, bool_decide_eq_true. intros [<-%byte_eq (r & ->)%IH]. by exists r.
Qed.
Lemma owned_range t g x k : is_u64 t → g ≠ 0 → in_range (createKey g t) (createKey g t ++ x) k = true → owned g k.
Proof. intros Ht Hg (r & ->)%range_prefix. exists t, r. split; [done|by apply createKey_app]. Qed.

Section Groups.
Context {D : Type} `{PebbleLaws D, RaftLib, Message HardState, Message Entry, Message WalSnapshot}.
Implicit Types (d : D).

Definition op_owned (g : Z) (op : batch_op) : Prop :=
  match op with BSet k _ => owned g k | BDeleteRange lo hi => ∀ k, in_range lo hi k = true → owned g k end.

(** Nothing of group [g] has changed. *)
Definition same_for (g : Z) d d' : Prop := ∀ k, owned g k → content d' k = content d k.

Lemma ops_other g ops k m : Forall (op_owned g) ops → ¬ owned g k → apply_ops m ops k = m k.
Proof.
  intros Ho Hk. revert m. induction Ho as [|op ops Hop Ho IH]; intros m; [done|]. change (apply_ops (apply_op m op) ops k = m k).
  rewrite IH. destruct op as [k' v|lo hi]; simpl in *.
  - rewrite decide_False; [done|]. by intros ->.
  - destruct (in_range lo hi k) eqn:E; [by destruct Hk; apply Hop|done].
Qed.

Lemma commit_other g g' d ops sync d' err :
  is_u64 g → is_u64 g' → g ≠ g' → Forall (op_owned g') ops → db_Commit d ops sync = (d', err) → same_for g d d'.
Proof.
  intros Hg Hg' Hne Ho Hc k Hk. destruct err as [e|]; [by rewrite (Commit_failed _ _ _ _ _ k Hc)|].
  rewrite (Commit_ok _ _ _ _ k Hc). apply (ops_other g'); [done|]. by apply (owned_apart g g').
Qed.

(** ** Operations for one group *)

Abbreviation Manager := (MultiRaftPebbleWalManager (D := D)).

(** What a group does with the store: the operations of the manager and those of the log it
    has handed out, whatever the state of that log, and whether they succeed or not. *)
Inductive group_step (g : Z) : Manager → Manager → Prop :=
  | gs_create md m : group_step g m (multi_CreateWal g md m).1
  | gs_find m : group_step g m (multi_FindSnapshot g m).1
  | gs_replay s del m : group_step g m (multi_ReplayWal g s del m).1
  | gs_read mds ents m : group_step g m (multi_ReadEntriesData g mds ents m).1
  | gs_purge s m : group_step g m (multi_purgeSnapshot g s m).1
  | gs_remove m : group_step g m (RemoveData g m).1
  | gs_save hs es c w d d' w' r :
      w_keyPrefix w = newKeyPrefix g → Save hs es (d, w) = Ret ((d', w'), r) →
      group_step g {| mm_db := d; mm_prefixCache := c |} {| mm_db := d'; mm_prefixCache := c |}
  | gs_snapshot s c w d d' w' r :
      w_keyPrefix w = newKeyPrefix g → SaveSnapshot s (d, w) = Ret ((d', w'), r) →
      group_step g {| mm_db := d; mm_prefixCache := c |} {| mm_db := d'; mm_prefixCache := c |}.

(** The cache of a manager has the right prefixes. *)
Definition sound (m : Manager) : Prop := ∃ n r, NoDup r ∧ caches (mm_prefixCache m) n r.

Lemma with_prefix_sound {A} g (f : keyPrefix → D → D * A) m :
  sound m → sound (with_prefix g f m).1 ∧ mm_db (with_prefix g f m).1 = (f (newKeyPrefix g) (mm_db m)).1 ∧
  (with_prefix g f m).2 = (f (newKeyPrefix g) (mm_db m)).2.
Proof.
  intros (n & r & Hr & Hc). pose proof (cache_get_caches _ _ _ g Hr Hc) as [Hc' Hk]. unfold with_prefix.
  destruct (cache_get g _) as [c kp]. cbn [fst snd] in *. subst kp. destruct (f _ _) as [d a]. split; [|done].
  exists n, (use r g). split; [by apply (recent_NoDup [g])|done].
Qed.

Lemma save_owned g hs es :
  g ≠ 0 → Forall (op_owned g) ((if negb (isEmptyHardState hs) then [BSet (createKey g keyHardState) (marshal hs)] else []) ++ (set_entry (newKeyPrefix g) <$> es)).
Proof.
  intros Hg. apply Forall_app. split; [destruct (isEmptyHardState hs); repeat constructor; by apply owned_key|].
  apply Forall_fmap, Forall_forall. intros e _. by apply owned_index.
Qed.

(** A step changes the store, if at all, by a batch of keys of the group. *)
Definition batch_of (g : Z) d d' : Prop := d' = d ∨ ∃ ops sync err, Forall (op_owned g) ops ∧ db_Commit d ops sync = (d', err).

Lemma save_batch g hs es d w d' w' r :
  g ≠ 0 → w_keyPrefix w = newKeyPrefix g → Save hs es (d, w) = Ret ((d', w'), r) → batch_of g d d'.
Proof.
  intros Hg Hp E. right. unfold Save in E. rewrite Hp in E. destruct (db_Commit _ _ _) as [d1 err] eqn:Ec.
  eexists _, _, err. split; [by apply save_owned|]. cbn [kp_hardState newKeyPrefix] in Ec. rewrite Ec.
  destruct err; [by injection E as -> _ _|]. destruct es, (w_es w); try (by injection E as -> _ _).
  cbn [w_es] in E. destruct (AppendCache _ _); [|done]. by injection E as -> _ _.
Qed.
Lemma snapshot_batch g s d w d' w' r :
  w_keyPrefix w = newKeyPrefix g → SaveSnapshot s (d, w) = Ret ((d', w'), r) → batch_of g d d'.
Proof.
  intros Hp E. unfold SaveSnapshot in E. destruct (isEmptySnapshot s); [left; by injection E|right]. rewrite Hp in E.
  destruct (db_Commit _ _ _) as [d1 err] eqn:Ec. eexists _, _, err. split; [|rewrite Ec; by destruct err; injection E as -> _ _].
  repeat constructor. by apply owned_index.
Qed.
Lemma create_batch g md d : g ≠ 0 → batch_of g d (CreateWal (newKeyPrefix g) md d).1.
Proof.
  intros Hg. right. unfold CreateWal. destruct (db_Commit _ _ _) as [d' err] eqn:E. eexists _, _, err. split; [|rewrite E; by destruct err].
  repeat constructor; by apply owned_key.
Qed.
Lemma purge_batch g s d : g ≠ 0 → batch_of g d (purgeSnapshot (newKeyPrefix g) s d).1.
Proof.
  intros Hg. unfold purgeSnapshot. destruct (isEmptySnapshot s); [by left|right]. destruct (db_Commit _ _ _) as [d1 err] eqn:Ec.
  eexists _, _, err. split; [|done]. repeat constructor. intros k. cbn [kp_entry newKeyPrefix]. rewrite index_key_eq by done.
  unfold at_index. rewrite <- createKey_app by done. by apply owned_range.
Qed.
Lemma remove_batch g d : g ≠ 0 → batch_of g d (remove_data (newKeyPrefix g) d).1.
Proof.
  intros Hg. unfold remove_data. destruct (db_Get _ _); [right|by left]. destruct (db_Commit _ _ _) as [d1 err] eqn:Ec.
  eexists _, _, err. split; [|rewrite Ec; by destruct err]. repeat constructor; intros k; by apply owned_range.
Qed.

Lemma group_step_batch g m m' : g ≠ 0 → sound m → group_step g m m' → sound m' ∧ batch_of g (mm_db m) (mm_db m').
Proof.
  intros Hg Hs Hst. revert Hs. destruct Hst as [md n|n|s del n|mds ents n|s n|n|hs es c w d d' w' r Hp E|s c w d d' w' r Hp E]; intros Hs.
  all: try (unfold multi_CreateWal, multi_FindSnapshot, multi_ReplayWal, multi_ReadEntriesData, multi_purgeSnapshot, RemoveData;
            match goal with H : sound ?x |- sound (with_prefix ?h ?f ?x).1 ∧ _ => destruct (with_prefix_sound h f x H) as (Hs' & -> & _) end;
            split; [done|]; cbn [fst]; try by left).
  - pose proof (create_batch g md (mm_db n) Hg). by destruct (CreateWal _ _ _).
  - by apply purge_batch.
  - by apply remove_batch.
  - split; [done|]. by eapply save_batch.
  - split; [done|]. by eapply snapshot_batch.
Qed.
(** ** What the other groups do *)

Definition other_step (g : Z) (m m' : Manager) : Prop := ∃ g', is_u64 g' ∧ g' ≠ 0 ∧ g' ≠ g ∧ group_step g' m m'.

Lemma batch_other g g' d d' :
  is_u64 g → is_u64 g' → g ≠ g' → batch_of g' d d' → faultless d → same_for g d d' ∧ faultless d'.
Proof.
  intros Hg Hg' Hne [->|(ops & sync & err & Ho & Hc)] Hf; [done|]. split; [by eapply commit_other|].
  destruct (Commit_faultless d ops sync Hf) as (d1 & Hc' & Hf'). rewrite Hc in Hc'. by injection Hc' as -> _.
Qed.

Lemma others_keep g m m' :
  is_u64 g → sound m → faultless (mm_db m) → rtc (other_step g) m m' →
  sound m' ∧ faultless (mm_db m') ∧ same_for g (mm_db m) (mm_db m').
Proof.
  intros Hg Hs Hf Hst. revert Hs Hf. induction Hst as [m|m m1 m2 (g' & Hg' & Hnz & Hne & Hstep) _ IH]; intros Hs Hf; [done|].
  apply group_step_batch in Hstep as [Hs1 Hb]; [|done..]. apply (batch_other g) in Hb as [Hk Hf1]; [|done..].
  destruct (IH Hs1 Hf1) as (Hs2 & Hf2 & Hk2). split_and!; [done..|]. intros k Ho. by rewrite Hk2, Hk.
Qed.

Section Reads.
Context (g : Z) (d d' : D) (Hnz : g ≠ 0) (Hf : faultless d) (Hf' : faultless d') (Hk : same_for g d d').

Lemma get_kept t : is_u64 t → db_Get d' (createKey g t) = db_Get d (createKey g t).
Proof using All. intros Ht. apply get_same; [done..|]. by apply Hk, owned_key. Qed.
Lemma iter_kept t : is_u64 t → db_Iter d' (createKey g t) (upper (createKey g t)) = db_Iter d (createKey g t) (upper (createKey g t)).
Proof using All. intros Ht. apply iter_same; [done..|]. intros k Hr. by eapply Hk, owned_range. Qed.
Lemma read_kept mds : read_each (newKeyPrefix g) d' mds = read_each (newKeyPrefix g) d mds.
Proof using All.
  induction mds as [|md mds IH]; [done|]. cbn [read_each]. rewrite IH, (get_same d d'); [done..|].
  by apply Hk, owned_index.
Qed.
Lemma replay_kept s del : ReplayWal (newKeyPrefix g) s del d' = ReplayWal (newKeyPrefix g) s del d.
Proof using All. unfold ReplayWal. cbn [kp_hardState kp_metadata kp_entry newKeyPrefix]. by rewrite !get_kept, iter_kept. Qed.
Lemma find_kept : FindSnapshot (newKeyPrefix g) d' = FindSnapshot (newKeyPrefix g) d.
Proof using All. unfold FindSnapshot. cbn [kp_snapshot newKeyPrefix]. by rewrite iter_kept. Qed.
End Reads.

(** C15: the logs of the groups that share a store do not see each other.  Whatever the
    other groups do, in any order -- create their logs, save entries and snapshots, read,
    purge, remove their data -- a group finds the same snapshots, replays the same log and
    reads the same entries as before. *)
Theorem groups_isolated g m m' snap del mds ents :
  is_u64 g → g ≠ 0 → sound m → faultless (mm_db m) → rtc (other_step g) m m' →
  (multi_FindSnapshot g m').2 = (multi_FindSnapshot g m).2 ∧
  (multi_ReplayWal g snap del m').2 = (multi_ReplayWal g snap del m).2 ∧
  (multi_ReadEntriesData g mds ents m').2 = (multi_ReadEntriesData g mds ents m).2.
Proof.
  intros Hg Hnz Hs Hf Hst. destruct (others_keep g m m' Hg Hs Hf Hst) as (Hs' & Hf' & Hk).
  unfold multi_FindSnapshot, multi_ReplayWal, multi_ReadEntriesData.
  split_and!; rewrite !(proj2 (proj2 (with_prefix_sound g _ _ Hs))), !(proj2 (proj2 (with_prefix_sound g _ _ Hs'))); cbn [snd].
  - by apply find_kept.
  - by rewrite (replay_kept g (mm_db m)).
  - unfold pebble_ReadEntriesData. by rewrite (read_kept g (mm_db m)).
Qed.
End Groups.
