(* ===== verification/LsmtExamples.v ===== *)
(** * A key-value store for examples

    A sorted list of keys and values behaves as [PebbleLaws] asks; the theorems on logs in a
    key-value store are applied to it. *)

From S2P Require Import Prelude Raftpb Coded EntryCache EntryStorage WalReplay Wal LsmtKeys LsmtWal LsmtLog LsmtRuns LsmtGroups.

Module ListStore.
Abbreviation item := (list byte * list byte)%type.
Implicit Types (l : list item) (k v : list byte).

Fixpoint get k l : option (list byte) :=
  match l with [] => None | (k', v) :: l => if decide (k = k') then Some v else get k l end.
Definition put k v l : list item :=
  filter (λ x, key_lt x.1 k = true) l ++ (k, v) :: filter (λ x, key_lt k x.1 = true) l.
Definition run l (op : batch_op) : list item :=
  match op with
  | BSet k v => put k v l
  | BDeleteRange lo hi => filter (λ x, in_range lo hi x.1 = false) l
  end.
Fixpoint sorted l : bool :=
  match l with [] => true | x :: l => forallb (λ y, key_lt x.1 y.1) l && sorted l end.

#[export] Instance list_pebble : Pebble (list item) := {|
  db_Get l k := match get k l with Some v => Ok v | None => Err pebble_ErrNotFound end;
  db_Commit l ops _ := (foldl run l ops, None);
  db_Iter l lo hi := if sorted l then Ok (filter (λ x, in_range lo hi x.1 = true) l) else Err (Errorf "corrupted")
|}.

Lemma key_lt_total a b : key_lt a b = false → key_lt b a = false → a = b.
Proof.
  revert b. induction a as [|x a IH]; intros [|y b]; simpl; try done. repeat case_decide; try done. intros H1 H2.
  f_equal; [|by apply IH]. assert (byte.unsigned x = byte.unsigned y) as E by lia. apply (f_equal byte.of_Z) in E.
  by rewrite !byte.of_Z_unsigned in E.
Qed.

Lemma get_filter (P : item → Prop) `{∀ x, Decision (P x)} k l :
  (∀ v, P (k, v)) → get k (filter P l) = get k l.
Proof.
  intros HP. induction l as [|[k' v] l IH]; [done|]. destruct (decide (P (k', v))).
  - rewrite filter_cons_True by done. simpl. by case_decide.
  - rewrite filter_cons_False by done. simpl. case_decide; [exfalso; subst; eauto|done].
Qed.
Lemma get_filter_none (P : item → Prop) `{∀ x, Decision (P x)} k l : (∀ v, ¬ P (k, v)) → get k (filter P l) = None.
Proof.
  intros HP. induction l as [|[k' v] l IH]; [done|]. destruct (decide (P (k', v))).
  - rewrite filter_cons_True by done. simpl. case_decide; [exfalso; subst; by eapply HP|done].
  - by rewrite filter_cons_False by done.
Qed.
Lemma get_app k l1 l2 : get k (l1 ++ l2) = match get k l1 with Some v => Some v | None => get k l2 end.
Proof. induction l1 as [|[k' v] l1 IH]; [done|]. simpl. by case_decide. Qed.

Lemma get_run l op k : get k (run l op) = apply_op (λ k, get k l) op k.
Proof.
  destruct op as [k' v|lo hi]; simpl.
  - unfold put. rewrite get_app. cbn [get]. case_decide as E.
    + subst k'. rewrite get_filter_none; [done|]. intros v'. cbn [fst]. by rewrite key_lt_irrefl.
    + destruct (key_lt k k') eqn:E1.
      * rewrite get_filter by done. rewrite get_filter_none; [by destruct (get k l)|]. intros v'. cbn [fst]. by rewrite (key_lt_asym _ _ E1).
      * destruct (key_lt k' k) eqn:E2; [|by destruct E; apply key_lt_total].
        rewrite get_filter_none by (intros v'; cbn [fst]; by rewrite E1). by rewrite get_filter.
  - destruct (in_range lo hi k) eqn:E; [apply get_filter_none|apply get_filter]; intros v'; cbn [fst]; by rewrite E.
Qed.
Lemma get_runs ops : ∀ l k, get k (foldl run l ops) = apply_ops (λ k, get k l) ops k.
Proof.
  induction ops as [|op ops IH]; intros l k; [done|]. cbn [foldl]. rewrite IH. unfold apply_ops. cbn [foldl].
  generalize (get_run l op). generalize (apply_op (λ k, get k l) op). intros f Hf.
  assert (∀ ops f f' k, (∀ k, f k = f' k) → foldl apply_op f ops k = foldl apply_op f' ops k) as Hext; [|by apply Hext].
  clear. induction ops as [|op ops IH]; intros f f' k Hf; [by apply Hf|]. cbn [foldl]. apply IH. intros k'. destruct op; simpl; by rewrite Hf.
Qed.

Abbreviation item_lt := (λ x y : item, key_lt x.1 y.1 = true).

Lemma sorted_spec l : sorted l = true ↔ StronglySorted item_lt l.
Proof.
  induction l as [|x l IH]; simpl; [split; [constructor|done]|]. rewrite andb_true_iff, IH, forallb_forall, StronglySorted_cons, Forall_forall.
  split; intros [? ?]; split; try done; intros y Hy%list_elem_of_In; auto.
Qed.
Lemma sorted_filter (P : item → Prop) `{∀ x, Decision (P x)} l : StronglySorted item_lt l → StronglySorted item_lt (filter P l).
Proof.
  intros Hl. induction Hl as [|x l Hl IH Hx]; [constructor|]. destruct (decide (P x)); [|by rewrite filter_cons_False].
  rewrite filter_cons_True by done. constructor; [done|]. rewrite Forall_forall in Hx |- *. intros y [_ Hy]%list_elem_of_filter. by apply Hx.
Qed.
Lemma sorted_run l op : StronglySorted item_lt l → StronglySorted item_lt (run l op).
Proof.
  intros Hl. destruct op as [k v|lo hi]; [|by apply sorted_filter]. simpl. unfold put.
  assert (∀ l1 l2, StronglySorted item_lt l1 → StronglySorted item_lt l2 → (∀ x y, x ∈ l1 → y ∈ l2 → item_lt x y) → StronglySorted item_lt (l1 ++ l2)) as Happ.
  { intros l1 l2 H1 H2. induction H1 as [|x l1 H1 IH Hx]; intros Hxy; [done|]. simpl. constructor.
    - apply IH. intros a b Ha Hb. apply Hxy; [by right|done].
    - apply Forall_app. split; [done|]. apply Forall_forall. intros y Hy. apply Hxy; [by left|done]. }
  apply Happ; [by apply sorted_filter|constructor; [by apply sorted_filter|]|].
  - apply Forall_forall. by intros y [Hy _]%list_elem_of_filter.
  - intros x y [Hx _]%list_elem_of_filter [->|[Hy _]%list_elem_of_filter]%elem_of_cons; [done|by eapply key_lt_trans].
Qed.

Lemma get_sorted l k v : StronglySorted item_lt l → (k, v) ∈ l ↔ get k l = Some v.
Proof.
  intros Hl. induction Hl as [|[k' v'] l Hl IH Hx]; [split; [by intros ?%elem_of_nil|done]|]. simpl. rewrite elem_of_cons. case_decide as E.
  - subst k'. split; [|by intros [= ->]; left]. intros [[= ->]|Hin]; [done|]. rewrite Forall_forall in Hx. apply Hx in Hin.
    cbn [fst] in Hin. by rewrite key_lt_irrefl in Hin.
  - rewrite IH. split; [by intros [[= ? _]|?]|by right].
Qed.

#[export] Instance list_pebble_laws : PebbleLaws (list item).
Proof.
  refine {| content l k := get k l; durable l k := get k l; faultless l := sorted l = true |}; simpl.
  - intros d k v. by destruct (get k d); intros [= ->].
  - intros d k. by destruct (get k d).
  - done.
  - intros d ops _ d' k [= <-]. apply get_runs.
  - done.
  - done.
  - intros d ops _ Hs. eexists. split; [done|]. rewrite sorted_spec in *. revert d Hs. induction ops as [|op ops IH]; intros d Hs; [done|].
    by apply IH, sorted_run.
  - intros d lo hi l. destruct (sorted d) eqn:E; [|done]. intros [= <-]. by apply sorted_filter, sorted_spec.
  - intros d lo hi l k v. destruct (sorted d) eqn:E; [|done]. intros [= <-]. apply sorted_spec in E. rewrite list_elem_of_filter, (get_sorted d) by done.
    by rewrite (comm (∧)).
  - intros d lo hi ->. by eexists.
Defined.
End ListStore.

Module LsmtExamples.
Import PlainRaft Codes ListStore.

#[export] Instance Entry_countable : Countable Entry.
Proof.
  refine (inj_countable' (λ e, (e_term e, e_index e, e_type e, e_data e))
            (λ '(a, b, c, d), {| e_term := a; e_index := b; e_type := c; e_data := d |}) _). by intros [].
Defined.
#[export] Instance Entry_message : Message Entry := coded Entry.

Definition normal (t i : Z) : Entry := {| e_term := t; e_index := i; e_type := EntryNormal; e_data := [] |}.
Definition hard (t c : Z) : HardState := {| hs_term := t; hs_vote := 1; hs_commit := c |}.
Definition snap_at (i t : Z) : Snapshot :=
  {| snap_meta := {| sm_conf := {| cs_voters := [1]; cs_learners := [] |}; sm_index := i; sm_term := t |}; snap_data := [] |}.

(** Three entries, of which the last two are replaced. *)
Definition three : list wal_op := [OSave (hard 1 1) [normal 1 1; normal 1 2; normal 1 3]].

Ltac indexes := repeat (apply indexed_cons; split; [done|]); apply indexed_nil.

Lemma three_ok : Forall op_ok three.
Proof. repeat constructor. exists 1. split_and!; [done..|]. indexes. Qed.
Lemma empty_faultless : faultless ([] : list item).
Proof. exact eq_refl. Qed.
Lemma nothing_there g : no_group ([] : list item) g.
Proof. by intros t k _ _. Qed.

(** The last two entries are replaced by one, which is then committed. *)
Lemma lsmt_log_refines_witness :
  let ops := three ++ [OSave (hard 2 1) [normal 2 2; normal 2 3; normal 2 4]; OSnapshot (snap_at 2 2); OPurge (snap_at 1 1)] in
  ∃ (d : list item) w, used 7 [Byte.x2a] ops [] d w ∧
    FindSnapshot (newKeyPrefix 7) d = Ok [empty_walsnap; walsnap_of (snap_at 2 2)] ∧
    HasExistingWals (newKeyPrefix 7) d = Ok true ∧
    ReplayWal (newKeyPrefix 7) None false d = Ret (Err err_up) ∧
    ∃ sto, ReplayWal (newKeyPrefix 7) (Some (snap_at 2 2)) false d =
      Ret (Ok ({| rp_metadata := [Byte.x2a]; rp_hardState := hard 2 1; rp_entries := [normal 2 3; normal 2 4] |}, sto, NewPebbleWal (Some sto) (newKeyPrefix 7))).
Proof.
  intros ops. assert (Forall op_ok ops) as Hops.
  { apply Forall_app. split; [apply three_ok|]. repeat constructor; [|done..]. exists 2. split_and!; [done..|]. indexes. }
  destruct (lsmt_log_refines 7 [Byte.x2a] ops ([] : list item) empty_faultless ltac:(done) (nothing_there 7) Hops) as (d & w & Hu & Hf & He & Hr).
  exists d, w. split_and!; [done|exact Hf|exact He|exact (Hr None false I)|].
  destruct (Hr (Some (snap_at 2 2)) false) as (sto & Hs & _); [done|]. by exists sto.
Defined.

Lemma shortened_log_grows_back_witness :
  ∃ (d : list item) w r sto w', used 7 [] (three ++ [OSave (hard 2 1) [normal 2 2]]) [] d w ∧
    ReplayWal (newKeyPrefix 7) None false d = Ret (Ok (r, sto, w')) ∧
    rp_entries r = [normal 1 1; normal 2 2; normal 1 3] ∧ rp_entries r ≠ [normal 1 1; normal 2 2].
Proof.
  assert (indexed e_index 2 [normal 2 2]) as Hi by indexes.
  assert (op_ok (OSave (hard 2 1) [normal 2 2])) as Hop by (exists 2; by split_and!).
  assert (indexed e_index 1 (l_entries (foldl abs_op (new_state []) three))) as He by (vm_compute l_entries; indexes).
  exact (shortened_log_grows_back 7 [] three (hard 2 1) 2 [normal 2 2] ([] : list item) empty_faultless ltac:(done) (nothing_there 7) three_ok Hop
           He Hi ltac:(done) ltac:(done) ltac:(done)).
Defined.

Lemma purged_log_forgotten_witness :
  ∃ (d : list item) w, used 7 [Byte.x2a] (three ++ [OPurge (snap_at 3 1)]) [] d w ∧ HasExistingWals (newKeyPrefix 7) d = Ok false ∧
    FindSnapshot (newKeyPrefix 7) d = Ok [empty_walsnap] ∧ db_Get d (createKey 7 keyMetadata) = Ok [Byte.x2a].
Proof.
  apply (purged_log_forgotten 7 [Byte.x2a] three (snap_at 3 1) ([] : list item)); [done|done|apply nothing_there|apply three_ok|done|done|].
  intros e [i He]%list_elem_of_lookup. by do 3 (destruct i as [|i]; [by injection He as <-|]).
Defined.

(** Another group writes to the store, purges and removes its log. *)
Lemma groups_isolated_witness :
  let m := (multi_CreateWal 7 [Byte.x2a] {| mm_db := [] : list item; mm_prefixCache := newKeyPrefixCache 1 |}).1 in
  let m' := (RemoveData 9 (multi_purgeSnapshot 9 (snap_at 3 1) (multi_CreateWal 9 [] m).1).1).1 in
  (multi_FindSnapshot 7 m').2 = (multi_FindSnapshot 7 m).2 ∧ (multi_ReplayWal 7 None true m').2 = (multi_ReplayWal 7 None true m).2 ∧
  (multi_ReadEntriesData 7 [] [] m').2 = (multi_ReadEntriesData 7 [] [] m).2.
Proof.
  set (m0 := {| mm_db := [] |}). intros m m'.
  assert (sound m0) as Hs0 by (exists 1%nat, []; split; [apply NoDup_nil_2|by constructor; [|intros x ?%elem_of_nil|]]).
  assert (sound m) as Hs by (apply (group_step_batch 7 m0); [done..|constructor]).
  apply (groups_isolated 7 m m'); [done|done|done|by vm_compute|].
  eapply rtc_l; [exists 9; split_and!; [done..|apply (gs_create 9 [])]|].
  eapply rtc_l; [exists 9; split_and!; [done..|apply (gs_purge 9 (snap_at 3 1))]|].
  eapply rtc_l; [exists 9; split_and!; [done..|apply (gs_remove 9)]|]. apply rtc_refl.
Defined.
End LsmtExamples.
