(* ===== verification/Frames.v ===== *)
(** * Frames on a connection: [pkg/transport/protocol/tcp/conn]

    A message of the transport travels as a frame: a header of four bytes with the type of
    the message and its size, the checksum of the body, the body.  The files are
    [frame/frame.go], [frame/message.go], [frame/writer.go], [frame/reader.go] and
    [connection.go]; buffers come from the pool of [Allocator.v].  A [net.Conn] is the
    bytes that arrived, the error the next read meets when they are used up, the bytes
    written so far and the room left for more.  The reader accepts exactly what the writer
    produces, frames sent one after the other are received in order, and a stream that
    breaks off delivers the whole frames before the break and nothing else. *)

From S2P Require Import Prelude Allocator Streams.

(** ** Connections *)

Record Conn := {
  rx : list byte;           (* arrived and not yet read *)
  rx_end : error;           (* what a read reports after that *)
  tx : list byte;           (* written *)
  tx_room : option nat;     (* bytes that can still be written; [None] when nothing stops them *)
  closed : bool
}.

Definition net_ErrClosed : error := Sentinel "net.ErrClosed".
Definition write_error : error := Errorf "write: i/o timeout".

Definition set_rx (b : list byte) (c : Conn) : Conn :=
  {| rx := b; rx_end := rx_end c; tx := tx c; tx_room := tx_room c; closed := closed c |}.
Definition set_tx (b : list byte) (room : option nat) (c : Conn) : Conn :=
  {| rx := rx c; rx_end := rx_end c; tx := b; tx_room := room; closed := closed c |}.

(** [SetReadDeadline], [SetWriteDeadline]. *)
Definition SetDeadline : meth Conn unit := fun c => Ret (c, if closed c then Err net_ErrClosed else Ok tt).

Definition Conn_Close (c : Conn) : Conn :=
  {| rx := rx c; rx_end := rx_end c; tx := tx c; tx_room := tx_room c; closed := true |}.

(** [Write] takes everything, or what there is room for and fails. *)
Definition Conn_Write (data : list byte) : meth Conn unit := fun c =>
  if closed c then Ret (c, Err net_ErrClosed)
  else match tx_room c with
       | None => Ret (set_tx (tx c ++ data) None c, Ok tt)
       | Some n =>
           if decide (length data <= n)%nat then Ret (set_tx (tx c ++ data) (Some (n - length data)%nat) c, Ok tt)
           else Ret (set_tx (tx c ++ take n data) (Some 0%nat) c, Err write_error)
       end.

(** [io.ReadFull(conn, buf)]. *)
Definition Conn_ReadFull (n : nat) : meth Conn (list byte) := fun c =>
  if closed c then Ret (c, Err net_ErrClosed)
  else let '(r, rest) := read_full n (rx c) in
       Ret (set_rx rest c, match r with
                           | Ok b => Ok b
                           | Err e => Err (if decide (rx_end c = io_EOF) then e else rx_end c)
                           end).

(** ** The format *)

Definition CrcOffset : nat := 4.
Definition HeaderSize : nat := 8.
Definition MsgSizeShift : Z := 8.
Definition MsgSizeMask : Z := Z.lxor MsgSizeShift (Z.ones 32).
Definition MsgTypeMask : Z := 0xff.
Definition MaxMessageSize : Z := 0xffffff.

Definition EncodeSize (msgSize : Z) : go Z :=
  if decide (msgSize > MaxMessageSize) then Panic "message size exceeds max message size"
  else Ret (Z.of_nat HeaderSize + msgSize).

Definition BatchMsgType : Z := 1.
Definition SnapshotMsgReqType : Z := 2.
Definition SnapshotMsgResType : Z := 3.
Definition ClusterPeersReqType : Z := 4.
Definition ClusterPeersResType : Z := 5.
Definition PubAppServiceReqType : Z := 6.
Definition PubAppServiceResType : Z := 7.

Definition header_word (msgSize msgType : Z) : Z :=
  u32 (Z.lor (Z.shiftl msgSize MsgSizeShift) (Z.land msgType MsgTypeMask)).

(** What [Encode] writes for a message whose encoding is [body]. *)
Definition frame (msgType : Z) (body : list byte) : list byte :=
  put_u32 (header_word (Z.of_nat (length body)) msgType) ++ put_u32 (crc32c 0 body) ++ body.

(** [Writer.Encode] into a buffer of [bufLen] bytes. *)
Definition Encode (bufLen : Z) (msgType : Z) (body : list byte) : meth Conn unit :=
  let msgSize := Z.of_nat (length body) in
  if decide (msgSize > MaxMessageSize) then Meth.fail (Errorf "message size %d exceeds max message size %d")
  else if decide (Z.of_nat HeaderSize + msgSize > bufLen) then Meth.fail (Errorf "buffer size %d is not enough for frame size %d")
  else Conn_Write (frame msgType body).

(** ** The reader and the connection *)

(** A method of something that has a connection. *)
Class HasConn (S : Type) := {
  the_conn : S → Conn; put_conn : Conn → S → S;
  the_put : ∀ c s, the_conn (put_conn c s) = c;
  put_put : ∀ c c' s, put_conn c (put_conn c' s) = put_conn c s;
  put_the : ∀ s, put_conn (the_conn s) s = s
}.
#[export] Instance conn_conn : HasConn Conn.
Proof. by refine {| the_conn c := c; put_conn c _ := c |}. Defined.

Section Methods.
Context {S : Type} `{HasConn S}.
Open Scope go_scope.

Definition on_conn {A} (m : meth Conn A) : meth (ByteSlicePool * S) A := fun st =>
  '(c, r) ← m (the_conn st.2); Ret ((st.1, put_conn c st.2), r).

(** [_, err := m]: the error becomes a value. *)
Definition outcome {T A} (m : meth T A) : meth T (result A) := fun s => '(s', r) ← m s; Ret (s', Ok r).

Definition MsgHandler := Z → list byte → meth (ByteSlicePool * S) unit.

(** The checksum is compared before the handler is called. *)
Definition deliver (handler : MsgHandler) (h crc : Z) (messageBuf : list byte) : meth (ByteSlicePool * S) bool :=
  if decide (crc32c 0 messageBuf ≠ crc) then Meth.fail (Errorf "crc does not match.(expected=%d) (real=%d)")
  else handler (Z.land h MsgTypeMask) messageBuf ;; Meth.ret false.

Definition ReadFrameOrEOF (handler : MsgHandler) : meth (ByteSlicePool * S) bool :=
  with_buf (Z.of_nat HeaderSize) (fun _ =>
    got <- outcome (on_conn (Conn_ReadFull HeaderSize)) ;;
    match got with
    | Err e => if decide (e = io_EOF) then Meth.ret true else Meth.fail e
    | Ok headerBuf =>
        let h := get_u32 (take CrcOffset headerBuf) in
        let crc := get_u32 (drop CrcOffset headerBuf) in
        let msgSize := Z.shiftr (Z.land h MsgSizeMask) MsgSizeShift in
        if decide (msgSize > 0) then
          with_buf msgSize (fun _ =>
            got <- outcome (on_conn (Conn_ReadFull (Z.to_nat msgSize))) ;;
            match got with
            | Err e => Meth.fail (if decide (e = io_EOF) then io_ErrUnexpectedEOF else e)
            | Ok messageBuf => deliver handler h crc messageBuf
            end)
        else deliver handler h crc []
    end).

Definition Reader_ReadFrame (handler : MsgHandler) : meth (ByteSlicePool * S) unit :=
  eof <- ReadFrameOrEOF handler ;; if (eof : bool) then Meth.fail io_ErrUnexpectedEOF else Meth.ret tt.

Definition ReadFrame (handler : MsgHandler) : meth (ByteSlicePool * S) unit :=
  on_conn SetDeadline ;; Reader_ReadFrame handler.

Definition SendFrame (msgType : Z) (body : list byte) : meth (ByteSlicePool * S) unit :=
  on_conn SetDeadline ;;
  match EncodeSize (Z.of_nat (length body)) with
  | Panic msg => Meth.panic msg
  | Ret size => with_buf size (fun b => on_conn (Encode (cap b) msgType body))
  end.
End Methods.
Arguments MsgHandler : clear implicits.

(** ** What a run does, whatever buffers the pool hands out *)

Section Runs.
Context (L : list Z) {S : Type}.

Definition runs {A} (m : meth (ByteSlicePool * S) A) (s s' : S) (r : result A) : Prop :=
  ∀ p, pool_ok L p → ∃ p', m (p, s) = Ret ((p', s'), r) ∧ pool_ok L p'.

Lemma runs_ret {A} (a : A) s : runs (Meth.ret a) s s (Ok a).
Proof. intros p Hp. by exists p. Qed.
Lemma runs_fail {A} e s : runs (@Meth.fail _ A e) s s (Err e).
Proof. intros p Hp. by exists p. Qed.

Lemma runs_bind {A B} (m : meth _ A) (k : A → meth _ B) s s1 s' a r :
  runs m s s1 (Ok a) → runs (k a) s1 s' r → runs (Meth.bind m k) s s' r.
Proof.
  intros Hm Hk p Hp. destruct (Hm p Hp) as (p1 & E & H1). destruct (Hk p1 H1) as (p2 & E2 & H2).
  exists p2. unfold Meth.bind. by rewrite E.
Qed.
Lemma runs_bind_err {A B} (m : meth _ A) (k : A → meth _ B) s s' e :
  runs m s s' (Err e) → runs (Meth.bind m k) s s' (Err e).
Proof. intros Hm p Hp. destruct (Hm p Hp) as (p1 & E & H1). exists p1. unfold Meth.bind. by rewrite E. Qed.

Lemma runs_outcome {A} (m : meth _ A) s s' r : runs m s s' r → runs (outcome m) s s' (Ok r).
Proof. intros Hm p Hp. destruct (Hm p Hp) as (p1 & E & H1). exists p1. unfold outcome. by rewrite E. Qed.

Lemma runs_buf {A} n (body : ByteSlice → meth _ A) s s' r :
  serves L n → (∀ b, n <= cap b → runs (body b) s s' r) → runs (with_buf n body) s s' r.
Proof.
  intros Hn Hbody p Hp. destruct (Acquire_ok L p n Hp Hn) as (p1 & b & E1 & H1 & Hc).
  assert (n <= cap b) as Hcap.
  { unfold Acquire in E1. case_decide; [done|].
    destruct (acquire_levels _ _ _) as [[[ls b1] nx]|] eqn:E; simplify_eq. by apply (acquire_levels_spec _ _ _ _ _ _ E), Hp. }
  destruct (Hbody b Hcap p1 H1) as (p2 & E2 & H2). destruct (Release_ok L p2 b H2 Hc) as (p3 & E3 & H3).
  exists p3. unfold with_buf. cbn [fst snd]. rewrite E1. cbn [mbind go_bind fst snd]. rewrite E2.
  cbn [mbind go_bind fst snd]. by rewrite E3.
Qed.

(** A run has one result. *)
Lemma runs_det {A} (m : meth _ A) p s s1 r1 st2 r2 :
  pool_ok L p → runs m s s1 r1 → m (p, s) = Ret (st2, r2) → st2.2 = s1 ∧ r2 = r1.
Proof. intros Hp Hm E. destruct (Hm p Hp) as (p' & E' & _). rewrite E' in E. by simplify_eq. Qed.

Context `{HasConn S}.
Lemma runs_conn {A} (m : meth Conn A) s c r : m (the_conn s) = Ret (c, r) → runs (on_conn m) s (put_conn c s) r.
Proof. intros E p Hp. exists p. unfold on_conn. cbn [fst snd]. by rewrite E. Qed.
End Runs.
Create HintDb runs.
#[export] Hint Resolve runs_ret runs_fail : runs.

(** ** The header *)

Lemma header_word_sum n t : 0 <= n <= MaxMessageSize → header_word n t = n * 256 + t mod 256.
Proof.
  intros Hn. unfold header_word, MsgSizeShift, MsgTypeMask, MaxMessageSize in *. change 0xff with (Z.ones 8).
  rewrite Z.land_ones, Z.shiftl_mul_pow2 by lia. change (2 ^ 8) with 256. pose proof (Z.mod_pos_bound t 256).
  assert (Z.land (n * 256) (t mod 256) = 0) as Hl.
  { apply Z.bits_inj'. intros i Hi. rewrite Z.bits_0, Z.land_spec.
    change 256 with (2 ^ 8). rewrite <- (Z.land_ones t 8), Z.land_spec, <- Z.shiftl_mul_pow2, Z.shiftl_spec by lia.
    destruct (decide (i < 8)); [rewrite Z.testbit_neg_r by lia; done|rewrite (Z.ones_spec_high 8) by lia].
    by rewrite andb_false_r, andb_false_r. }
  pose proof (Z.add_lor_land (n * 256) (t mod 256)). unfold u32. rewrite Z.mod_small; lia.
Qed.

Lemma size_of_header h : is_u32 h → Z.shiftr (Z.land h MsgSizeMask) MsgSizeShift = h / 256.
Proof.
  intros Hh. rewrite Z.shiftr_land, (Z.shiftr_div_pow2 h) by done. change (Z.shiftr MsgSizeMask MsgSizeShift) with (Z.ones 24).
  change (2 ^ MsgSizeShift) with 256.
  rewrite Z.land_ones by lia. apply Z.mod_small. split; [apply Z.div_pos|apply Z.div_lt_upper_bound]; lia.
Qed.
Lemma size_bounded h : Z.shiftr (Z.land h MsgSizeMask) MsgSizeShift <= MaxMessageSize.
Proof.
  rewrite Z.shiftr_land. change (Z.shiftr MsgSizeMask MsgSizeShift) with (Z.ones 24). rewrite Z.land_ones by lia.
  pose proof (Z.mod_pos_bound (Z.shiftr h MsgSizeShift) (2 ^ 24)). unfold MaxMessageSize. lia.
Qed.
Lemma type_of_header h : Z.land h MsgTypeMask = h mod 256.
Proof. change MsgTypeMask with (Z.ones 8). by rewrite Z.land_ones by lia. Qed.

Lemma header_of_word h : is_u32 h → header_word (h / 256) (h mod 256) = h.
Proof.
  intros Hh. rewrite header_word_sum; [rewrite Z.mod_mod by done; pose proof (Z.div_mod h 256); lia|].
  unfold MaxMessageSize. split; [apply Z.div_pos; lia|]. apply Z.lt_succ_r, Z.div_lt_upper_bound; lia.
Qed.

(** ** Reading *)

(** The pool has a buffer for every message a header can announce. *)
Definition serves_messages (L : list Z) : Prop := Exists (fun s => MaxMessageSize <= s) L.

Lemma serves_message L n : serves_messages L → 0 < n <= MaxMessageSize → serves L n.
Proof. intros HL Hn. split; [lia|]. eapply Exists_impl; [exact HL|]. simpl. lia. Qed.

Section Read.
Context (L : list Z) (HL : serves_messages L) {S : Type} `{HasConn S}.

Definition with_rx (b : list byte) (s : S) : S := put_conn (set_rx b (the_conn s)) s.
Definition pending (s : S) : list byte := rx (the_conn s).

Lemma pending_with b s : pending (with_rx b s) = b.
Proof. unfold pending, with_rx. by rewrite the_put. Qed.
Lemma with_with b b' s : with_rx b (with_rx b' s) = with_rx b s.
Proof. unfold with_rx. by rewrite the_put, put_put. Qed.
Lemma with_pending s : with_rx (pending s) s = s.
Proof. unfold with_rx, pending. transitivity (put_conn (the_conn s) s); [by destruct (the_conn s)|apply put_the]. Qed.
Lemma closed_with b s : closed (the_conn (with_rx b s)) = closed (the_conn s).
Proof. unfold with_rx. by rewrite the_put. Qed.
Lemma end_with b s : rx_end (the_conn (with_rx b s)) = rx_end (the_conn s).
Proof. unfold with_rx. by rewrite the_put. Qed.

Lemma runs_read_ok n b rest s :
  closed (the_conn s) = false → pending s = b ++ rest → length b = n →
  runs L (on_conn (Conn_ReadFull n)) s (with_rx rest s) (Ok b).
Proof. intros Hc Hs Hn. apply runs_conn. unfold Conn_ReadFull. fold (pending s). by rewrite Hc, Hs, read_full_app. Qed.

(** The error of a read that finds less than it wants. *)
Definition short_read (s : S) : error :=
  if decide (rx_end (the_conn s) = io_EOF) then if decide (pending s = []) then io_EOF else io_ErrUnexpectedEOF
  else rx_end (the_conn s).

Lemma runs_read_short n s :
  closed (the_conn s) = false → (length (pending s) < n)%nat →
  runs L (on_conn (Conn_ReadFull n)) s (with_rx [] s) (Err (short_read s)).
Proof.
  intros Hc Hn. apply runs_conn. unfold Conn_ReadFull, short_read, pending in *. rewrite Hc.
  destruct (decide (rx (the_conn s) = [])) as [E|E].
  - rewrite E in Hn |- *. simpl in Hn. by rewrite read_full_eof.
  - by rewrite read_full_short.
Qed.

(** The error a connection that ends within a frame is left with. *)
Definition torn_error (s : S) : error :=
  if decide (rx_end (the_conn s) = io_EOF) then io_ErrUnexpectedEOF else rx_end (the_conn s).
Lemma short_torn s : (if decide (short_read s = io_EOF) then io_ErrUnexpectedEOF else short_read s) = torn_error s.
Proof. unfold short_read, torn_error. repeat case_decide; done. Qed.

Definition frame_result (r : result unit) : result bool := match r with Ok _ => Ok false | Err e => Err e end.
Definition crc_error : error := Errorf "crc does not match.(expected=%d) (real=%d)".

Lemma runs_deliver (handler : MsgHandler S) h body s s' r :
  runs L (handler (h mod 256) body) s s' r → runs L (deliver handler h (crc32c 0 body) body) s s' (frame_result r).
Proof.
  intros Hr. unfold deliver. rewrite decide_False, type_of_header by (intros ?; done).
  destruct r as [[]|e]; [eapply runs_bind; [exact Hr|apply runs_ret]|by apply runs_bind_err].
Qed.

Lemma runs_crc_error (handler : MsgHandler S) h crc body s :
  crc32c 0 body ≠ crc → runs L (deliver handler h crc body) s s (Err crc_error).
Proof. intros Hc. unfold deliver. rewrite decide_True by done. apply runs_fail. Qed.

(** A header that is not all there. *)
Lemma read_no_header (handler : MsgHandler S) s :
  closed (the_conn s) = false → (length (pending s) < HeaderSize)%nat →
  runs L (ReadFrameOrEOF handler) s (with_rx [] s) (if decide (short_read s = io_EOF) then Ok true else Err (short_read s)).
Proof using HL.
  intros Hc Hn. apply runs_buf; [by apply serves_message|]. intros b _.
  eapply runs_bind; [by apply runs_outcome, runs_read_short|]. cbv beta iota. case_decide; [apply runs_ret|apply runs_fail].
Qed.

Lemma length_header h crc : length (put_u32 h ++ put_u32 crc) = HeaderSize.
Proof. by rewrite length_app, !length_put_u32. Qed.

(** After the header of a message of [h / 256] bytes. *)
Lemma read_header (handler : MsgHandler S) h crc more s s' r :
  closed (the_conn s) = false → is_u32 h → is_u32 crc → pending s = (put_u32 h ++ put_u32 crc) ++ more →
  (0 < h / 256 → runs L (
     got <- outcome (on_conn (Conn_ReadFull (Z.to_nat (h / 256)))) ;;
     match got with
     | Err e => Meth.fail (if decide (e = io_EOF) then io_ErrUnexpectedEOF else e)
     | Ok messageBuf => deliver handler h crc messageBuf
     end)%go (with_rx more s) s' r) →
  (h / 256 = 0 → runs L (deliver handler h crc []) (with_rx more s) s' r) →
  runs L (ReadFrameOrEOF handler) s s' r.
Proof using HL.
  intros Hc Hh Hcrc Hs Hbody Hempty. apply runs_buf; [by apply serves_message|]. intros b _.
  eapply runs_bind; [apply runs_outcome, runs_read_ok; [done|exact Hs|apply length_header]|]. cbv beta iota zeta.
  rewrite take_app_length', drop_app_length', !get_put_u32, size_of_header by (done || apply length_put_u32).
  pose proof (Z.div_pos h 256). case_decide as Hsz; [|apply Hempty; lia].
  apply runs_buf; [|intros b' _; apply Hbody; lia]. apply serves_message; [done|].
  split; [lia|]. apply Z.lt_succ_r, Z.div_lt_upper_bound; [lia|]. change (256 * Z.succ MaxMessageSize) with (2 ^ 32). lia.
Qed.

(** A body that is not all there. *)
Lemma read_torn (handler : MsgHandler S) h crc more s :
  closed (the_conn s) = false → is_u32 h → is_u32 crc → pending s = (put_u32 h ++ put_u32 crc) ++ more →
  Z.of_nat (length more) < h / 256 → runs L (ReadFrameOrEOF handler) s (with_rx [] s) (Err (torn_error s)).
Proof using HL.
  intros Hc Hh Hcrc Hs Hm. eapply (read_header handler h crc more); [done..| |lia]. intros _.
  eapply runs_bind; [apply runs_outcome, runs_read_short; [by rewrite closed_with|rewrite pending_with; lia]|].
  cbv beta iota. rewrite short_torn, with_with. replace (torn_error (with_rx more s)) with (torn_error s) by (unfold torn_error; by rewrite end_with).
  apply runs_fail.
Qed.

(** A whole frame: its checksum decides. *)
Lemma read_whole (handler : MsgHandler S) h crc body rest s s' r :
  closed (the_conn s) = false → is_u32 h → is_u32 crc → pending s = (put_u32 h ++ put_u32 crc) ++ body ++ rest →
  Z.of_nat (length body) = h / 256 → runs L (deliver handler h crc body) (with_rx rest s) s' r →
  runs L (ReadFrameOrEOF handler) s s' r.
Proof using HL.
  intros Hc Hh Hcrc Hs Hb Hd. eapply (read_header handler h crc (body ++ rest)); [done..| |].
  - intros _. eapply runs_bind; [apply runs_outcome, runs_read_ok; [by rewrite closed_with|apply pending_with|lia]|].
    by rewrite with_with.
  - intros H0. assert (body = []) as -> by (apply nil_length_inv; lia). done.
Qed.

(** The frame of a message, split as the reader takes it. *)
Lemma frame_split t body : Z.of_nat (length body) <= MaxMessageSize →
  let h := Z.of_nat (length body) * 256 + t mod 256 in
  frame t body = (put_u32 h ++ put_u32 (crc32c 0 body)) ++ body ∧ is_u32 h ∧ h / 256 = Z.of_nat (length body) ∧ h mod 256 = t mod 256.
Proof.
  intros Hb h. unfold frame. rewrite header_word_sum, (assoc_L (++)) by lia. pose proof (Z.mod_pos_bound t 256).
  unfold MaxMessageSize in Hb. unfold h. split_and!; [done|lia|lia|..].
  - rewrite Z.div_add_l, Z.div_small by lia. lia.
  - rewrite (Z.add_comm _ (t mod 256)), Z.mod_add, Z.mod_mod by done. done.
Qed.

Lemma read_frame (handler : MsgHandler S) t body rest s s' r :
  closed (the_conn s) = false → Z.of_nat (length body) <= MaxMessageSize → pending s = frame t body ++ rest →
  runs L (handler (t mod 256) body) (with_rx rest s) s' r → runs L (ReadFrameOrEOF handler) s s' (frame_result r).
Proof using HL.
  intros Hc Hb Hs Hh. destruct (frame_split t body Hb) as (Hf & Hu & Hd & Hm). rewrite Hf, <- (assoc_L (++)) in Hs.
  eapply read_whole; [done|exact Hu| |exact Hs|done|]; [by apply crc32c_range|]. apply runs_deliver. by rewrite Hm.
Qed.

(** A stream that ends within a frame. *)
Lemma read_cut (handler : MsgHandler S) t body n s :
  closed (the_conn s) = false → Z.of_nat (length body) <= MaxMessageSize → pending s = take n (frame t body) →
  (0 < n < length (frame t body))%nat →
  runs L (ReadFrameOrEOF handler) s (with_rx [] s) (Err (torn_error s)).
Proof using HL.
  intros Hc Hb Hs Hn. destruct (frame_split t body Hb) as (Hf & Hu & Hd & Hm). rewrite Hf in Hs, Hn.
  rewrite length_app, length_header in Hn. destruct (decide (n < HeaderSize)%nat) as [Hlt|Hge].
  - rewrite take_app_le in Hs by (rewrite length_header; lia).
    assert (pending s ≠ []) as Hne. { intros E. rewrite E in Hs. apply (f_equal length) in Hs. rewrite length_take, length_header in Hs. simpl in Hs. lia. }
    pose proof (read_no_header handler s Hc) as Hr. unfold short_read in Hr. unfold torn_error.
    rewrite (decide_False (P := pending s = [])) in Hr by done.
    repeat case_decide; try done; apply Hr; rewrite Hs, length_take; unfold HeaderSize in *; lia.
  - rewrite take_app_ge, length_header in Hs by (rewrite length_header; lia).
    eapply read_torn; [done|exact Hu| |exact Hs|]; [by apply crc32c_range|]. rewrite length_take. unfold HeaderSize in *. lia.
Qed.
End Read.

(** ** Sending *)

(** [defaultByteSlicePool]: the powers of two from 64 bytes to 16 MiB. *)
Definition process_levels : list Z := (fun k => 2 ^ Z.of_nat k) <$> seq 6 19.

Example default_pool_levels : (p ← NewByteSlicePool 64 (16 * 1024 * 1024) 2; Ret (levelSize <$> pools p)) = Ret process_levels.
Proof. vm_compute. reflexivity. Qed.

Definition process_pool : ByteSlicePool :=
  {| pools := (fun s => {| levelSize := s; bag := [] |}) <$> process_levels; next_ptr := 0 |}.
Lemma process_pool_ok : pool_ok process_levels process_pool.
Proof. split; [done|]. repeat constructor. Qed.

Lemma default_serves n : 0 < n <= 2 ^ 24 → serves process_levels n.
Proof. intros Hn. split; [lia|]. apply Exists_exists. exists (2 ^ 24). split; [|lia]. vm_compute. by repeat constructor. Qed.
Lemma default_serves_messages : serves_messages process_levels.
Proof. apply Exists_exists. exists (2 ^ 24). split; [vm_compute; by repeat constructor|done]. Qed.
Lemma default_refuses n p : 2 ^ 24 < n → pool_ok process_levels p →
  Acquire p n = Panic "allocator: byteSize is greater than maxAllocByteSize".
Proof.
  intros Hn [HL _]. unfold Acquire. rewrite decide_False by lia. rewrite (proj2 (acquire_levels_None _ n _)); [done|].
  apply Forall_fmap with (f := levelSize) (P := fun s => s < n). rewrite HL. unfold process_levels. apply Forall_fmap, Forall_forall.
  intros k Hk. rewrite elem_of_seq in Hk. simpl. apply Z.le_lt_trans with (2 ^ 24); [|done]. apply Z.pow_le_mono_r; lia.
Qed.

Lemma length_frame t body : length (frame t body) = (HeaderSize + length body)%nat.
Proof. unfold frame. rewrite !length_app, !length_put_u32. unfold HeaderSize. lia. Qed.

Section Send.
Context (L : list Z) {S : Type} `{HasConn S}.

Definition with_sent (b : list byte) (s : S) : S := put_conn (set_tx (tx (the_conn s) ++ b) None (the_conn s)) s.

(** A connection nothing stops. *)
Definition healthy (c : Conn) : Prop := closed c = false ∧ tx_room c = None.

Lemma runs_deadline s : closed (the_conn s) = false → runs L (on_conn SetDeadline) s s (Ok tt).
Proof. intros Hc. rewrite <- (put_the s) at 2. apply runs_conn. unfold SetDeadline. by rewrite Hc. Qed.

Lemma send_frame t body s :
  healthy (the_conn s) → Z.of_nat (length body) <= MaxMessageSize → serves L (Z.of_nat HeaderSize + Z.of_nat (length body)) →
  runs L (SendFrame t body) s (with_sent (frame t body) s) (Ok tt).
Proof.
  intros [Hc Hr] Hb HL. eapply runs_bind; [by apply runs_deadline|]. unfold EncodeSize. rewrite decide_False by lia.
  apply runs_buf; [done|]. intros b Hcap. apply runs_conn. unfold Encode. rewrite !decide_False by lia.
  unfold Conn_Write. by rewrite Hc, Hr.
Qed.

(** A write that fails takes the part of the frame there was room for. *)
Lemma send_fails t body n s :
  closed (the_conn s) = false → tx_room (the_conn s) = Some n → (n < HeaderSize + length body)%nat →
  Z.of_nat (length body) <= MaxMessageSize → serves L (Z.of_nat HeaderSize + Z.of_nat (length body)) →
  runs L (SendFrame t body) s (put_conn (set_tx (tx (the_conn s) ++ take n (frame t body)) (Some 0%nat) (the_conn s)) s) (Err write_error).
Proof.
  intros Hc Hr Hn Hb HL. eapply runs_bind; [by apply runs_deadline|]. unfold EncodeSize. rewrite decide_False by lia.
  apply runs_buf; [done|]. intros b Hcap. apply runs_conn. unfold Encode. rewrite !decide_False by lia.
  unfold Conn_Write. rewrite Hc, Hr, decide_False; [done|]. rewrite length_frame. lia.
Qed.
End Send.

(** ** Properties *)

(** The handler that notes what it is called with. *)
Record Noted := { nt_conn : Conn; noted : list (Z * list byte) }.
#[export] Instance noted_conn : HasConn Noted.
Proof. refine {| the_conn := nt_conn; put_conn c s := {| nt_conn := c; noted := noted s |} |}; [done..|by intros []]. Defined.
Definition note : MsgHandler Noted := fun t b =>
  Meth.modify (fun '(p, s) => (p, {| nt_conn := nt_conn s; noted := noted s ++ [(t, b)] |})).

(** What can be sent. *)
Definition sendable (f : Z * list byte) : Prop := 0 <= f.1 < 256 ∧ Z.of_nat (length f.2) <= MaxMessageSize.

Lemma runs_note L t b s : runs L (note t b) s {| nt_conn := nt_conn s; noted := noted s ++ [(t, b)] |} (Ok tt).
Proof. intros p Hp. by exists p. Qed.

(** The header of whatever bytes come. *)
Lemma header_read (b : list byte) : (HeaderSize <= length b)%nat →
  ∃ h crc more, is_u32 h ∧ is_u32 crc ∧ b = (put_u32 h ++ put_u32 crc) ++ more.
Proof.
  intros Hb. exists (get_u32 (take 4 b)), (get_u32 (take 4 (drop 4 b))), (drop 8 b).
  assert (∀ l, length l = 4%nat → is_u32 (get_u32 l) ∧ put_u32 (get_u32 l) = l) as Hg.
  { intros l Hl. apply get_u32_inv, Hl. }
  destruct (Hg (take 4 b)) as [H1 E1]; [rewrite length_take; unfold HeaderSize in *; lia|].
  destruct (Hg (take 4 (drop 4 b))) as [H2 E2]; [rewrite length_take, length_drop; unfold HeaderSize in *; lia|].
  split_and!; try apply H1; try apply H2. rewrite E1, E2, <- (assoc_L (++)), <- (take_drop 4 b) at 1. f_equal.
  rewrite <- (take_drop 4 (drop 4 b)) at 1. by rewrite drop_drop.
Qed.

(** Whatever arrived is a frame followed by other bytes, or nothing is noted. *)
Lemma reader_cases L s : serves_messages L → closed (nt_conn s) = false →
  ∃ s' r, runs L (ReadFrameOrEOF note) s s' r ∧
    ((∃ f rest, sendable f ∧ rx (nt_conn s) = frame f.1 f.2 ++ rest ∧
        s' = {| nt_conn := set_rx rest (nt_conn s); noted := noted s ++ [f] |} ∧ r = Ok false) ∨
     (noted s' = noted s ∧ r ≠ Ok false)).
Proof.
  intros HL Hc. destruct (decide (length (rx (nt_conn s)) < HeaderSize)%nat) as [Hs|Hs].
  { do 2 eexists. split; [by apply (read_no_header L HL note s)|]. right. split; [done|]. by case_decide. }
  destruct (header_read (rx (nt_conn s))) as (h & crc & more & Hh & Hcrc & E); [lia|].
  destruct (decide (Z.of_nat (length more) < h / 256)) as [Hm|Hm].
  { do 2 eexists. split; [by apply (read_torn L HL note h crc more s)|]. by right. }
  set (body := take (Z.to_nat (h / 256)) more). set (rest := drop (Z.to_nat (h / 256)) more).
  rewrite <- (take_drop (Z.to_nat (h / 256)) more) in E. fold body rest in E.
  pose proof (Z.div_pos h 256). assert (Z.of_nat (length body) = h / 256) as Hb by (unfold body; rewrite length_take; lia).
  destruct (decide (crc32c 0 body = crc)) as [<-|Hne].
  - do 2 eexists. split.
    + apply (read_whole L HL note h (crc32c 0 body) body rest s); try done. apply (runs_deliver L note h body _ _ (Ok tt)), runs_note.
    + left. exists (h mod 256, body), rest. split; [split; simpl|split; [|done]].
      * by apply Z.mod_pos_bound.
      * rewrite Hb. apply Z.lt_succ_r, Z.div_lt_upper_bound; [lia|]. change (256 * Z.succ MaxMessageSize) with (2 ^ 32). lia.
      * unfold frame. simpl. rewrite Hb, header_of_word, <- !(assoc_L (++)) by done. rewrite E. by rewrite <- (assoc_L (++)).
  - do 2 eexists. split; [|right].
    + apply (read_whole L HL note h crc body rest s); try done. by apply runs_crc_error.
    + done.
Qed.

(** The reader takes any bytes whatever without panicking, and calls the handler exactly when
    they start with a frame the writer produces: with the type and the body of that frame, the
    bytes after it left unread.  Nothing else reaches the handler. *)
Theorem reader_accepts_frames L p s :
  serves_messages L → pool_ok L p → closed (nt_conn s) = false →
  ∃ p' s' r, ReadFrameOrEOF note (p, s) = Ret ((p', s'), r) ∧ pool_ok L p' ∧
    ((∃ f rest, sendable f ∧ rx (nt_conn s) = frame f.1 f.2 ++ rest ∧
        s' = {| nt_conn := set_rx rest (nt_conn s); noted := noted s ++ [f] |} ∧ r = Ok false) ∨
     (noted s' = noted s ∧ r ≠ Ok false ∧ ∀ f rest, sendable f → rx (nt_conn s) ≠ frame f.1 f.2 ++ rest)).
Proof.
  intros HL Hp Hc. destruct (reader_cases L s HL Hc) as (s' & r & Hr & Hcase).
  destruct (Hr p Hp) as (p' & E & Hp'). exists p', s', r. split_and!; [done..|].
  destruct Hcase as [Hcase|[Hl Hn]]; [by left|]. right. split_and!; [done..|]. intros [t b] rest [Ht Hb] Hs. apply Hn.
  assert (runs L (ReadFrameOrEOF note) s {| nt_conn := set_rx rest (nt_conn s); noted := noted s ++ [(t mod 256, b)] |} (Ok false)) as Hf.
  { apply (read_frame L HL note t b rest s _ (Ok tt)); try done. exact (runs_note L (t mod 256) b (with_rx rest s)). }
  apply (runs_det L _ _ _ _ _ _ _ Hp Hf E).
Qed.

(** The sizes that can be sent with the process's pool of buffers: up to eight bytes less than
    16 MiB.  The check against [MaxMessageSize] panics instead of returning an error, and the
    seven largest sizes it lets through panic in the pool, whose largest buffer has no room
    for their header. *)
Theorem frame_size_bounds p t body c :
  pool_ok process_levels p → healthy c →
  (Z.of_nat (length body) <= 2 ^ 24 - 8 →
    ∃ p', SendFrame t body (p, c) = Ret ((p', set_tx (tx c ++ frame t body) None c), Ok tt) ∧ pool_ok process_levels p') ∧
  (2 ^ 24 - 8 < Z.of_nat (length body) <= MaxMessageSize →
    SendFrame t body (p, c) = Panic "allocator: byteSize is greater than maxAllocByteSize") ∧
  (MaxMessageSize < Z.of_nat (length body) → SendFrame t body (p, c) = Panic "message size exceeds max message size").
Proof.
  intros Hp Hc. split_and!; intros Hb.
  - apply (@send_frame process_levels Conn conn_conn t body c Hc); [unfold MaxMessageSize; lia|apply default_serves; unfold HeaderSize; lia|done].
  - unfold SendFrame, Meth.bind, on_conn, SetDeadline. cbn [fst snd the_conn conn_conn put_conn]. rewrite (proj1 Hc).
    cbn [mbind go_bind]. unfold EncodeSize. rewrite decide_False by lia. unfold with_buf. cbn [fst snd].
    rewrite default_refuses; [done| |done]. unfold HeaderSize. lia.
  - unfold SendFrame, Meth.bind, on_conn, SetDeadline. cbn [fst snd the_conn conn_conn put_conn]. rewrite (proj1 Hc).
    cbn [mbind go_bind]. unfold EncodeSize. rewrite decide_True by lia. done.
Qed.

(** ** Examples *)

Definition sample : list byte := frame SnapshotMsgResType [Byte.x68; Byte.x69] ++ [Byte.x07].
Definition sample_state : Noted :=
  {| nt_conn := {| rx := sample; rx_end := io_EOF; tx := []; tx_room := None; closed := false |}; noted := [] |}.

Lemma reader_accepts_frames_witness :
  closed (nt_conn sample_state) = false ∧
  ∃ p' s' r, ReadFrameOrEOF note (process_pool, sample_state) = Ret ((p', s'), r) ∧ pool_ok process_levels p' ∧
    ((∃ f rest, sendable f ∧ rx (nt_conn sample_state) = frame f.1 f.2 ++ rest ∧
        s' = {| nt_conn := set_rx rest (nt_conn sample_state); noted := noted sample_state ++ [f] |} ∧ r = Ok false) ∨
     (noted s' = noted sample_state ∧ r ≠ Ok false ∧ ∀ f rest, sendable f → rx (nt_conn sample_state) ≠ frame f.1 f.2 ++ rest)).
Proof.
  split; [reflexivity|]. apply (reader_accepts_frames process_levels process_pool sample_state);
    [exact default_serves_messages|exact process_pool_ok|reflexivity].
Defined.

Definition idle_conn : Conn := {| rx := []; rx_end := io_EOF; tx := []; tx_room := None; closed := false |}.

Lemma frame_size_bounds_witness :
  let body := [Byte.x68; Byte.x69] in
  (Z.of_nat (length body) <= 2 ^ 24 - 8 →
    ∃ p', SendFrame BatchMsgType body (process_pool, idle_conn) =
      Ret ((p', set_tx (tx idle_conn ++ frame BatchMsgType body) None idle_conn), Ok tt) ∧ pool_ok process_levels p') ∧
  (2 ^ 24 - 8 < Z.of_nat (length body) <= MaxMessageSize →
    SendFrame BatchMsgType body (process_pool, idle_conn) = Panic "allocator: byteSize is greater than maxAllocByteSize") ∧
  (MaxMessageSize < Z.of_nat (length body) → SendFrame BatchMsgType body (process_pool, idle_conn) = Panic "message size exceeds max message size").
Proof. apply (frame_size_bounds process_pool BatchMsgType); [exact process_pool_ok|by split]. Defined.
