(* ===== verification/ConnPool.v ===== *)
(** * The pool of connections: [pkg/connpool/connection_pool.go]

    Connections to other nodes are kept per address and lent to one caller at a time.  A
    connection is the identity of the pointer [Dial] returned; dialling and closing are
    operations of a world the pool shares with its users.  The locks of the pool make its
    methods atomic.  As long as callers give back what they were lent, no connection has two
    holders, the connections in the pool are the open ones, and their number per address is
    bounded. *)

From S2P Require Import Prelude Streams.

Record connectionWrapper := { cw_conn : nat; cw_addr : string; inUse : bool; lastUsed : Z }.

Record ConnectionPool := {
  connections : gmap string (list connectionWrapper);
  MaxConnectionsPerHost : Z;
  IdleTimeout : Z;
  cleaner_stopped : bool
}.

Definition NewConnectionPool (max idle : Z) : ConnectionPool :=
  {| connections := ∅; MaxConnectionsPerHost := max; IdleTimeout := idle; cleaner_stopped := false |}.

Definition set_connections (m : gmap string (list connectionWrapper)) (p : ConnectionPool) : ConnectionPool :=
  {| connections := m; MaxConnectionsPerHost := MaxConnectionsPerHost p; IdleTimeout := IdleTimeout p; cleaner_stopped := cleaner_stopped p |}.

Definition ErrMaxConnectionsReached : error := Sentinel "ErrMaxConnectionsReached".
Definition ErrConnectionNotFound : error := Sentinel "ErrConnectionNotFound".

(** [ConnectionDialer] and the [Close] of what it dials. *)
Class Dialer (W : Type) := { Dial : string → meth W nat; close_conn : nat → W → W }.

Definition lend (now : Z) (c : connectionWrapper) : connectionWrapper :=
  {| cw_conn := cw_conn c; cw_addr := cw_addr c; inUse := true; lastUsed := now |}.
Definition give_back (now : Z) (c : connectionWrapper) : connectionWrapper :=
  {| cw_conn := cw_conn c; cw_addr := cw_addr c; inUse := false; lastUsed := now |}.

(** The first connection of the list nobody uses, and the list with it in use. *)
Fixpoint take_idle (now : Z) (conns : list connectionWrapper) : option (nat * list connectionWrapper) :=
  match conns with
  | [] => None
  | c :: conns => if inUse c then '(i, conns') ← take_idle now conns; Some (i, c :: conns') else Some (cw_conn c, lend now c :: conns)
  end.

(** The list with the connection given back, when it is there. *)
Fixpoint return_conn (now : Z) (conn : nat) (conns : list connectionWrapper) : option (list connectionWrapper) :=
  match conns with
  | [] => None
  | c :: conns => if decide (cw_conn c = conn) then Some (give_back now c :: conns)
                  else conns' ← return_conn now conn conns; Some (c :: conns')
  end.

(** [conns[i] = conns[lastIdx]; conns[:lastIdx]]. *)
Definition swap_remove (i : nat) (conns : list connectionWrapper) : list connectionWrapper :=
  match last conns with
  | Some l => take (length conns - 1) (<[i := l]> conns)
  | None => conns
  end.

(** The first address, in the order of the iteration, with the connection in its list. *)
Definition has_conn (conn : nat) (conns : list connectionWrapper) : bool := bool_decide (conn ∈ cw_conn <$> conns).
Definition find_conn `{MapRange} (conn : nat) (p : ConnectionPool) : option (string * list connectionWrapper) :=
  snd <$> list_find (fun x => has_conn conn x.2 = true) (range (connections p)).

Definition put_list (addr : string) (conns : list connectionWrapper) (m : gmap string (list connectionWrapper)) : gmap string (list connectionWrapper) :=
  if decide (conns = []) then delete addr m else <[addr := conns]> m.

Section Pool.
Context `{MapRange} {W : Type} `{Dialer W}.

Definition Get (now : Z) (address : string) : meth (ConnectionPool * W) nat := fun '(p, w) =>
  let dial (keep : connectionWrapper → list connectionWrapper) :=
    '(w, r) ← Dial address w;
    match r with
    | Err e => Ret ((p, w), Err e)
    | Ok conn =>
        let wrapper := {| cw_conn := conn; cw_addr := address; inUse := true; lastUsed := now |} in
        Ret ((set_connections (<[address := keep wrapper]> (connections p)) p, w), Ok conn)
    end in
  match connections p !! address with
  | Some conns =>
      match take_idle now conns with
      | Some (i, conns') => Ret ((set_connections (<[address := conns']> (connections p)) p, w), Ok i)
      | None => if decide (Z.of_nat (length conns) >= MaxConnectionsPerHost p) then Ret ((p, w), Err ErrMaxConnectionsReached)
                else dial (fun wrapper => conns ++ [wrapper])
      end
  | None => dial (fun wrapper => [wrapper])
  end.

Definition Put (now : Z) (conn : nat) : meth (ConnectionPool * W) unit := fun '(p, w) =>
  match find_conn conn p with
  | Some (addr, conns) =>
      match return_conn now conn conns with
      | Some conns' => Ret ((set_connections (<[addr := conns']> (connections p)) p, w), Ok tt)
      | None => Ret ((p, w), Err ErrConnectionNotFound)
      end
  | None => Ret ((p, w), Err ErrConnectionNotFound)
  end.

Definition Remove (conn : nat) : meth (ConnectionPool * W) unit := fun '(p, w) =>
  match find_conn conn p with
  | Some (addr, conns) =>
      match list_find (fun c => cw_conn c = conn) conns with
      | Some (i, _) => Ret ((set_connections (put_list addr (swap_remove i conns) (connections p)) p, close_conn conn w), Ok tt)
      | None => Ret ((p, w), Err ErrConnectionNotFound)
      end
  | None => Ret ((p, w), Err ErrConnectionNotFound)
  end.

Definition close_all (conns : list connectionWrapper) (w : W) : W := foldl (fun w c => close_conn (cw_conn c) w) w conns.

Definition Close : meth (ConnectionPool * W) unit := fun '(p, w) =>
  if cleaner_stopped p then Panic "close of closed channel"
  else Ret (({| connections := ∅; MaxConnectionsPerHost := MaxConnectionsPerHost p; IdleTimeout := IdleTimeout p; cleaner_stopped := true |},
             foldl (fun w x => close_all x.2 w) w (range (connections p))), Ok tt).

Definition GetActiveConnectionCount (address : string) (p : ConnectionPool) : nat :=
  length (filter (fun c => inUse c = true) (default [] (connections p !! address))).
Definition GetIdleConnectionCount (address : string) (p : ConnectionPool) : nat :=
  length (filter (fun c => inUse c = false) (default [] (connections p !! address))).

(** One tick of [startCleanup]. *)
Definition isIdle (now idle : Z) (c : connectionWrapper) : bool := negb (inUse c) && bool_decide (now - lastUsed c > idle).
Definition clean_host (now idle : Z) (x : string * list connectionWrapper) (st : gmap string (list connectionWrapper) * W) : gmap string (list connectionWrapper) * W :=
  (put_list x.1 (filter (fun c => isIdle now idle c = false) x.2) st.1,
   close_all (filter (fun c => isIdle now idle c = true) x.2) st.2).
Definition cleanup (now : Z) : ConnectionPool * W → ConnectionPool * W := fun '(p, w) =>
  let '(m, w) := foldl (fun st x => clean_host now (IdleTimeout p) x st) (connections p, w) (range (connections p)) in
  (set_connections m p, w).
End Pool.

(** ** The connections of the pool *)

Definition wrappers (m : gmap string (list connectionWrapper)) : list connectionWrapper := map_to_list m ≫= snd.

Lemma wrappers_insert a l m : wrappers (<[a := l]> m) ≡ₚ l ++ wrappers (delete a m).
Proof.
  unfold wrappers. rewrite <- insert_delete_eq, map_to_list_insert by apply lookup_delete_eq. done.
Qed.
Lemma wrappers_lookup a l m : m !! a = Some l → wrappers m ≡ₚ l ++ wrappers (delete a m).
Proof. intros Hl. by rewrite <- wrappers_insert, insert_id. Qed.
Lemma wrappers_put a l m : wrappers (put_list a l m) ≡ₚ l ++ wrappers (delete a m).
Proof. unfold put_list. case_decide as E; [by rewrite E|apply wrappers_insert]. Qed.

Lemma elem_of_wrappers c m : c ∈ wrappers m ↔ ∃ a l, m !! a = Some l ∧ c ∈ l.
Proof.
  unfold wrappers. rewrite list_elem_of_bind. split.
  - intros ([a l] & Hc & Hm%elem_of_map_to_list). by exists a, l.
  - intros (a & l & Hm & Hc). exists (a, l). by rewrite elem_of_map_to_list.
Qed.

Lemma take_idle_Some now l i l' : take_idle now l = Some (i, l') →
  ∃ l1 c l2, l = l1 ++ c :: l2 ∧ l' = l1 ++ lend now c :: l2 ∧ inUse c = false ∧ i = cw_conn c.
Proof.
  revert l'. induction l as [|c l IH]; simpl; intros l' E; [done|]. destruct (inUse c) eqn:Eu.
  - destruct (take_idle now l) as [[j k]|]; simplify_eq/=. destruct (IH _ eq_refl) as (l1 & x & l2 & -> & -> & ? & ?).
    by exists (c :: l1), x, l2.
  - simplify_eq. by exists [], c, l.
Qed.

Lemma take_idle_None now l : take_idle now l = None → Forall (fun c => inUse c = true) l.
Proof.
  induction l as [|c l IH]; simpl; intros E; [constructor|]. destruct (inUse c) eqn:Eu; [|done].
  destruct (take_idle now l) as [[??]|]; [done|]. constructor; [done|by apply IH].
Qed.

Lemma return_conn_Some now conn l : conn ∈ cw_conn <$> l →
  ∃ l1 c l2, l = l1 ++ c :: l2 ∧ cw_conn c = conn ∧ return_conn now conn l = Some (l1 ++ give_back now c :: l2).
Proof.
  induction l as [|c l IH]; csimpl; intros Hc; [by apply elem_of_nil in Hc|]. case_decide as E; [by exists [], c, l|].
  apply elem_of_cons in Hc as [?|Hc]; [done|]. destruct (IH Hc) as (l1 & x & l2 & -> & ? & ->). by exists (c :: l1), x, l2.
Qed.

Lemma swap_remove_perm i c l : l !! i = Some c → l ≡ₚ c :: swap_remove i l.
Proof.
  intros Hi. unfold swap_remove. destruct l as [|x l] using rev_ind; [done|]. clear IHl.
  rewrite last_snoc, length_app. cbn [length]. rewrite Nat.add_sub.
  destruct (decide (i = length l)) as [->|Hne].
  - rewrite lookup_app_r, Nat.sub_diag in Hi by lia. simplify_eq/=. rewrite insert_app_r_alt, Nat.sub_diag by lia. simpl.
    rewrite take_app_length. symmetry. apply Permutation_cons_append.
  - apply lookup_lt_Some in Hi as Hlt. rewrite length_app in Hlt. simpl in Hlt. rewrite lookup_app_l in Hi by lia.
    rewrite insert_app_l, take_app_length' by (rewrite ?length_insert; lia).
    rewrite <- (take_drop_middle l i c Hi) at 1. rewrite insert_take_drop by lia. solve_Permutation.
Qed.

Lemma find_conn_Some `{MapRange} conn p a l : find_conn conn p = Some (a, l) →
  connections p !! a = Some l ∧ conn ∈ cw_conn <$> l.
Proof.
  unfold find_conn. destruct (list_find _ _) as [[i x]|] eqn:E; [|done]. apply list_find_Some in E as (Hi & Hc & _).
  intros [= ->]. split; [|by apply bool_decide_eq_true in Hc]. apply elem_of_range. by eapply list_elem_of_lookup_2.
Qed.
Lemma find_conn_in `{MapRange} conn p : conn ∈ cw_conn <$> wrappers (connections p) → ∃ a l, find_conn conn p = Some (a, l).
Proof.
  intros (c & -> & (a & l & Hm & Hc)%elem_of_wrappers)%list_elem_of_fmap. unfold find_conn.
  destruct (list_find _ _) as [[i [a' l']]|] eqn:E; [by exists a', l'|]. exfalso.
  apply list_find_None in E. rewrite Forall_forall in E. apply (E (a, l)); [by apply elem_of_range|].
  apply bool_decide_eq_true. by apply list_elem_of_fmap_2.
Qed.

(** ** What callers may rely on *)

(** Dialling opens a connection that was not open; closing closes it. *)
Class DialerLaws (W : Type) `{Dialer W} := {
  opened : W → gset nat;
  Dial_spec : ∀ a w, ∃ w' r, Dial a w = Ret (w', r) ∧
    match r with Ok c => (c ∉ opened w) ∧ opened w' = {[c]} ∪ opened w | Err _ => opened w' = opened w end;
  close_spec : ∀ c w, opened (close_conn c w) = opened w ∖ {[c]}
}.

Section Lending.
Context `{MapRange} {W : Type} `{DialerLaws W}.
Implicit Types (p : ConnectionPool) (w : W) (held : list nat).

Definition in_use (l : list connectionWrapper) : list nat := cw_conn <$> filter (fun c => inUse c = true) l.

(** [held] are the connections lent out, of the connections [ws]. *)
Record lent_of (ws : list connectionWrapper) w held : Prop := {
  lt_nodup : NoDup (cw_conn <$> ws);
  lt_held : held ≡ₚ in_use ws;
  lt_open : opened w = list_to_set (cw_conn <$> ws)
}.

#[export] Instance in_use_proper : Proper ((≡ₚ) ==> (≡ₚ)) in_use.
Proof. intros l l' E. unfold in_use. by rewrite E. Qed.

Lemma lent_perm ws ws' w held held' : ws ≡ₚ ws' → held ≡ₚ held' → lent_of ws w held → lent_of ws' w held'.
Proof.
  intros E E' [Hn Hh Ho]. split; [by rewrite <- E|by rewrite <- E', <- E|]. rewrite Ho. apply set_eq. intros c. by rewrite !elem_of_list_to_set, E.
Qed.

Lemma in_use_cons c ws : in_use (c :: ws) = if inUse c then cw_conn c :: in_use ws else in_use ws.
Proof. unfold in_use. rewrite filter_cons. destruct (inUse c); by rewrite ?decide_True, ?decide_False by done. Qed.
Lemma in_use_sub c ws : c ∈ in_use ws → c ∈ cw_conn <$> ws.
Proof. intros (x & -> & [_ Hx]%list_elem_of_filter)%list_elem_of_fmap. by apply list_elem_of_fmap_2. Qed.

Lemma lent_lend now c ws w held : inUse c = false → lent_of (c :: ws) w held → lent_of (lend now c :: ws) w (cw_conn c :: held).
Proof. intros Hu [Hn Hh Ho]. rewrite in_use_cons, Hu in Hh. split; [done|by rewrite in_use_cons, Hh|done]. Qed.

Lemma lent_new c addr now ws w w' held : c ∉ opened w → opened w' = {[c]} ∪ opened w → lent_of ws w held →
  lent_of ({| cw_conn := c; cw_addr := addr; inUse := true; lastUsed := now |} :: ws) w' (c :: held).
Proof.
  intros Hc Hw [Hn Hh Ho]. split; [|by rewrite in_use_cons, Hh|by rewrite Hw, Ho].
  csimpl. constructor; [|done]. by rewrite Ho, elem_of_list_to_set in Hc.
Qed.

(** A held connection is in use. *)
Lemma lent_used c ws w held : lent_of (c :: ws) w (cw_conn c :: held) → inUse c = true ∧ held ≡ₚ in_use ws.
Proof.
  intros [Hn Hh _]. rewrite in_use_cons in Hh. destruct (inUse c); [split; [done|by apply Permutation_cons_inv in Hh]|].
  exfalso. csimpl in Hn. apply NoDup_cons in Hn as [Hn _]. apply Hn, in_use_sub. rewrite <- Hh. by left.
Qed.
Lemma lent_back now c ws w held : lent_of (c :: ws) w (cw_conn c :: held) → lent_of (give_back now c :: ws) w held.
Proof. intros Hl. destruct (lent_used _ _ _ _ Hl) as [Hu Hh]. destruct Hl as [Hn _ Ho]. split; [done|by rewrite in_use_cons|done]. Qed.

Lemma lent_close c ws w held : NoDup (cw_conn <$> c :: ws) → opened w = list_to_set (cw_conn <$> c :: ws) → held ≡ₚ in_use ws →
  lent_of ws (close_conn (cw_conn c) w) held.
Proof.
  csimpl. intros [Hc Hn]%NoDup_cons Ho Hh. split; [done..|]. rewrite close_spec, Ho. apply set_eq. intros x.
  rewrite elem_of_difference, elem_of_union, elem_of_singleton, elem_of_list_to_set.
  split; [by intros [[->|?] ?]|intros Hx; split; [by right|by intros ->]].
Qed.
Lemma lent_drop c ws w held : lent_of (c :: ws) w (cw_conn c :: held) → lent_of ws (close_conn (cw_conn c) w) held.
Proof. intros Hl. destruct (lent_used _ _ _ _ Hl) as [_ Hh]. destruct Hl. by apply lent_close. Qed.
Lemma lent_idle c ws w held : inUse c = false → lent_of (c :: ws) w held → lent_of ws (close_conn (cw_conn c) w) held.
Proof. intros Hu [Hn Hh Ho]. rewrite in_use_cons, Hu in Hh. by apply lent_close. Qed.

(** No address has more connections than allowed, or one. *)
Definition bounded p : Prop :=
  map_Forall (fun _ l => Z.of_nat (length l) <= Z.max 1 (MaxConnectionsPerHost p)) (connections p).
Definition lent p w held : Prop := lent_of (wrappers (connections p)) w held ∧ bounded p.

Lemma lent_opened p w w' held : opened w' = opened w → lent p w held → lent p w' held.
Proof. intros Hw [[Hn Hh Ho] Hb]. split; [|done]. split; [done..|by rewrite Hw]. Qed.

Lemma lent_set p w held a l : lent_of (l ++ wrappers (delete a (connections p))) w held →
  Z.of_nat (length l) <= Z.max 1 (MaxConnectionsPerHost p) → bounded p → lent (set_connections (<[a := l]> (connections p)) p) w held.
Proof.
  intros Hl Hb Hall. split; [|by apply map_Forall_insert_2].
  eapply lent_perm; [|reflexivity|exact Hl]. symmetry. apply wrappers_insert.
Qed.

Lemma middle_perm (l1 : list connectionWrapper) c l2 rest : (l1 ++ c :: l2) ++ rest ≡ₚ c :: (l1 ++ l2) ++ rest.
Proof. solve_Permutation. Qed.

(** [Get] lends a connection nobody holds, which is open. *)
Lemma Get_lends now a p w held : lent p w held →
  ∃ p' w' r, Get now a (p, w) = Ret ((p', w'), r) ∧ MaxConnectionsPerHost p' = MaxConnectionsPerHost p ∧
    match r with Ok c => lent p' w' (c :: held) | Err _ => lent p' w' held end.
Proof.
  intros [Hl Hb]. unfold Get. set (l := default [] (connections p !! a)).
  assert (lent_of (l ++ wrappers (delete a (connections p))) w held) as Hl'.
  { eapply lent_perm; [|reflexivity|exact Hl]. unfold l. destruct (connections p !! a) as [l0|] eqn:E; simpl; [by apply wrappers_lookup|].
    by rewrite delete_id. }
  assert (∀ q, Z.of_nat (length l) + 1 <= Z.max 1 (MaxConnectionsPerHost p) → q = l →
    ∃ p' w' r, ('(w, r) ← Dial a w;
      match r with
      | Err e => Ret ((p, w), Err e)
      | Ok conn => Ret ((set_connections (<[a := q ++ [{| cw_conn := conn; cw_addr := a; inUse := true; lastUsed := now |}]]> (connections p)) p, w), Ok conn)
      end) = Ret ((p', w'), r) ∧ MaxConnectionsPerHost p' = MaxConnectionsPerHost p ∧
      match r with Ok c => lent p' w' (c :: held) | Err _ => lent p' w' held end) as Hdial.
  { intros q Hmax ->. destruct (Dial_spec a w) as (w' & [c|e] & -> & Hw); cbn [mbind go_bind]; do 3 eexists; (split_and!; [done..|]).
    - destruct Hw as [Hc Hw]. apply lent_set; [|rewrite length_app; simpl; lia|done].
      eapply lent_perm; [|reflexivity|by apply (lent_new c a now (l ++ wrappers (delete a (connections p))) w w')]. solve_Permutation.
    - split; [|done]. destruct Hl as [Hn Hh Ho]. split; [done..|]. by rewrite Hw. }
  destruct (connections p !! a) as [conns|] eqn:E; simpl in l; subst l; [|apply (Hdial []); [simpl; lia|done]].
  destruct (take_idle now conns) as [[i conns']|] eqn:Et.
  - apply take_idle_Some in Et as (l1 & c & l2 & -> & -> & Hu & ->). do 3 eexists. split_and!; [done..|].
    apply lent_set; [|specialize (Hb _ _ E); simpl in Hb; rewrite length_app in *; done|done].
    eapply lent_perm; [symmetry; apply middle_perm|reflexivity|]. apply lent_lend; [done|].
    eapply lent_perm; [apply middle_perm|reflexivity|done].
  - case_decide as Hm; [do 3 eexists; by split_and!|]. apply Hdial; [lia|done].
Qed.

(** While nothing is lent, [Get] lends a connection of the pool or dials one. *)
Lemma Get_none_lent now a p w p' w' r : lent p w [] → 1 <= MaxConnectionsPerHost p → Get now a (p, w) = Ret ((p', w'), r) →
  (w' = w ∧ ∃ c, r = Ok c) ∨ Dial a w = Ret (w', r).
Proof.
  intros [[_ Hh _] _] Hmax. unfold Get.
  assert (∀ keep, ('(w, r) ← Dial a w;
    match r with
    | Err e => Ret ((p, w), Err e)
    | Ok conn => Ret ((set_connections (<[a := keep {| cw_conn := conn; cw_addr := a; inUse := true; lastUsed := now |}]> (connections p)) p, w), Ok conn)
    end) = Ret ((p', w'), r) → Dial a w = Ret (w', r)) as Hdial.
  { intros keep. destruct (Dial a w) as [[w1 [c|e]]|]; cbn; intros; simplify_eq; done. }
  destruct (connections p !! a) as [l|] eqn:E; [|by right; apply (Hdial (fun wrapper => [wrapper]))].
  destruct (take_idle now l) as [[i l']|] eqn:Et; [intros; simplify_eq; by left; eauto|].
  case_decide as Hl; [|by right; apply (Hdial (fun wrapper => l ++ [wrapper]))].
  exfalso. apply take_idle_None in Et. destruct l as [|c l]; [simpl in Hl; lia|]. apply Forall_cons in Et as [Hc _].
  rewrite (wrappers_lookup _ _ _ E) in Hh. simpl in Hh. rewrite in_use_cons, Hc in Hh. by apply Permutation_nil_cons in Hh.
Qed.

Lemma lent_find p w held conn : lent p w (conn :: held) →
  ∃ a l, find_conn conn p = Some (a, l) ∧ connections p !! a = Some l ∧ conn ∈ cw_conn <$> l ∧
    lent_of (l ++ wrappers (delete a (connections p))) w (conn :: held) ∧ Z.of_nat (length l) <= Z.max 1 (MaxConnectionsPerHost p).
Proof.
  intros [Hl Hb]. destruct (find_conn_in conn p) as (a & l & Hf).
  { apply in_use_sub. rewrite <- (lt_held _ _ _ Hl). by left. }
  exists a, l. destruct (find_conn_Some _ _ _ _ Hf) as [Ha Hc]. split_and!; [done..| |by apply (Hb _ _ Ha)].
  eapply lent_perm; [by apply wrappers_lookup|reflexivity|done].
Qed.

(** A connection given back can be lent again. *)
Lemma Put_back now conn p w held : lent p w (conn :: held) →
  ∃ p', Put now conn (p, w) = Ret ((p', w), Ok tt) ∧ MaxConnectionsPerHost p' = MaxConnectionsPerHost p ∧ lent p' w held.
Proof.
  intros Hl. destruct (lent_find _ _ _ _ Hl) as (a & l & Hf & Ha & Hc & Hl' & Hmax). unfold Put. rewrite Hf.
  destruct (return_conn_Some now conn l Hc) as (l1 & c & l2 & -> & <- & ->). eexists. split_and!; [done..|].
  apply lent_set; [|by rewrite length_app in *|apply Hl].
  eapply lent_perm; [symmetry; apply middle_perm|reflexivity|]. apply lent_back.
  eapply lent_perm; [apply middle_perm|reflexivity|done].
Qed.

(** A connection removed is closed. *)
Lemma Remove_closes conn p w held : lent p w (conn :: held) →
  ∃ p', Remove conn (p, w) = Ret ((p', close_conn conn w), Ok tt) ∧ MaxConnectionsPerHost p' = MaxConnectionsPerHost p ∧
    lent p' (close_conn conn w) held.
Proof.
  intros Hl. destruct (lent_find _ _ _ _ Hl) as (a & l & Hf & Ha & Hc & Hl' & Hmax). unfold Remove. rewrite Hf.
  apply list_elem_of_fmap in Hc as (x & -> & Hx).
  destruct (list_find_elem_of (fun c => cw_conn c = cw_conn x) l x Hx eq_refl) as ([i c] & Hi). rewrite Hi.
  apply list_find_Some in Hi as (Hi & Hcx & _). pose proof (swap_remove_perm _ _ _ Hi) as Hp.
  eexists. split_and!; [done..|]. split.
  - eapply lent_perm; [symmetry; apply wrappers_put|reflexivity|]. rewrite <- Hcx in *. apply lent_drop.
    eapply lent_perm; [exact (Permutation_app_tail _ Hp)|reflexivity|done].
  - apply Permutation_length in Hp. simpl in Hp. unfold bounded. cbn [connections set_connections MaxConnectionsPerHost]. unfold put_list.
    case_decide; [apply map_Forall_delete, Hl|]. apply map_Forall_insert_2; [lia|apply Hl].
Qed.

(** Closing connections nobody uses. *)
Lemma lent_close_all idle ws w held : Forall (fun c => inUse c = false) idle → lent_of (idle ++ ws) w held →
  lent_of ws (close_all idle w) held.
Proof.
  revert w. induction idle as [|c idle IH]; simpl; intros w Hi Hl; [done|]. apply Forall_cons in Hi as [Hc Hi].
  apply IH; [done|]. by apply lent_idle.
Qed.

Lemma filter_split now idle l :
  l ≡ₚ filter (fun c => isIdle now idle c = true) l ++ filter (fun c => isIdle now idle c = false) l.
Proof.
  induction l as [|c l IH]; [done|]. rewrite !filter_cons. destruct (isIdle now idle c); simpl.
  - by rewrite <- IH.
  - by rewrite <- Permutation_middle, <- IH.
Qed.

Lemma bounded_put (n : Z) a l m : map_Forall (fun _ l => Z.of_nat (length l) <= n) m → Z.of_nat (length l) <= n →
  map_Forall (fun _ l => Z.of_nat (length l) <= n) (put_list a l m).
Proof. intros Hm Hl. unfold put_list. case_decide; [by apply map_Forall_delete|by apply map_Forall_insert_2]. Qed.

(** The addresses [hosts] are those the tick has yet to look at. *)
Lemma clean_hosts now idle n held hosts m w :
  NoDup hosts.*1 → (∀ a l, (a, l) ∈ hosts → m !! a = Some l) →
  lent_of (wrappers m) w held → map_Forall (fun _ l => Z.of_nat (length l) <= n) m →
  let st := foldl (fun st x => clean_host now idle x st) (m, w) hosts in
  lent_of (wrappers st.1) st.2 held ∧ map_Forall (fun _ l => Z.of_nat (length l) <= n) st.1.
Proof.
  revert m w. induction hosts as [|[a l] hosts IH]; simpl; intros m w Hn Hm Hl Hb; [done|].
  apply NoDup_cons in Hn as [Ha Hn]. assert (m !! a = Some l) as Hal by (apply Hm; by left).
  apply IH; [done| | |].
  - intros a' l' Hin. assert (a ≠ a') as Hne. { intros <-. apply Ha. by apply (list_elem_of_fmap_2 fst _ (a, l')). }
    simpl. unfold put_list. case_decide; [rewrite lookup_delete_ne by done|rewrite lookup_insert_ne by done]; apply Hm; by right.
  - simpl. eapply lent_perm; [symmetry; apply wrappers_put|reflexivity|]. apply lent_close_all.
    + apply Forall_forall. intros c [Hi _]%list_elem_of_filter. unfold isIdle in Hi. by destruct (inUse c).
    + eapply lent_perm; [|reflexivity|exact Hl]. rewrite (wrappers_lookup _ _ _ Hal), (assoc_L (++)), <- filter_split. done.
  - simpl. apply bounded_put; [done|]. transitivity (Z.of_nat (length l)); [|by apply (Hb _ _ Hal)].
    apply inj_le, length_filter.
Qed.

Lemma cleanup_keeps now p w held : lent p w held →
  let st := cleanup now (p, w) in lent st.1 st.2 held ∧ MaxConnectionsPerHost st.1 = MaxConnectionsPerHost p.
Proof.
  intros [Hl Hb]. unfold cleanup. simpl.
  pose proof (clean_hosts now (IdleTimeout p) (Z.max 1 (MaxConnectionsPerHost p)) held (range (connections p)) (connections p) w) as Hc.
  destruct (foldl _ _ _) as [m w']. split; [|done]. apply Hc; [rewrite range_perm; apply NoDup_fst_map_to_list|by intros a l ?%elem_of_range|done..].
Qed.

(** ** Callers *)

(** What happens to the pool: a caller asks for a connection, the holder of the [i]-th
    connection lent gives it back or has it removed, the cleaner's clock ticks. *)
Inductive pool_op := OGet (now : Z) (a : string) | OPut (now : Z) (i : nat) | ORemove (i : nat) | OCleanup (now : Z).

Definition pool_step (op : pool_op) (st : ConnectionPool * W * list nat) : go (ConnectionPool * W * list nat) :=
  let '(pw, held) := st in
  match op with
  | OGet now a => '(pw, r) ← Get now a pw; Ret (pw, match r with Ok c => c :: held | Err _ => held end)
  | OPut now i => match held !! i with
                  | Some c => '(pw, _) ← Put now c pw; Ret (pw, delete i held)
                  | None => Ret st
                  end
  | ORemove i => match held !! i with
                 | Some c => '(pw, _) ← Remove c pw; Ret (pw, delete i held)
                 | None => Ret st
                 end
  | OCleanup now => Ret (cleanup now pw, held)
  end.
Fixpoint pool_run (ops : list pool_op) (st : ConnectionPool * W * list nat) : go (ConnectionPool * W * list nat) :=
  match ops with [] => Ret st | op :: ops => st ← pool_step op st; pool_run ops st end.

Lemma held_delete i c held : held !! i = Some c → held ≡ₚ c :: delete i held.
Proof. intros Hi. by apply delete_Permutation. Qed.

Lemma pool_step_lent op p w held : lent p w held →
  ∃ p' w' held', pool_step op (p, w, held) = Ret (p', w', held') ∧ lent p' w' held' ∧ MaxConnectionsPerHost p' = MaxConnectionsPerHost p.
Proof.
  intros Hl. destruct op as [now a|now i|i|now]; cbn [pool_step].
  - destruct (Get_lends now a p w held Hl) as (p' & w' & r & -> & Hm & Hr). do 3 eexists. split; [done|]. split; [|done]. by destruct r.
  - destruct (held !! i) as [c|] eqn:E; [|by do 3 eexists].
    assert (lent p w (c :: delete i held)) as Hl'. { split; [|apply Hl]. eapply lent_perm; [reflexivity|by apply held_delete|apply Hl]. }
    destruct (Put_back now c p w _ Hl') as (p' & -> & Hm & Hr). by do 3 eexists.
  - destruct (held !! i) as [c|] eqn:E; [|by do 3 eexists].
    assert (lent p w (c :: delete i held)) as Hl'. { split; [|apply Hl]. eapply lent_perm; [reflexivity|by apply held_delete|apply Hl]. }
    destruct (Remove_closes c p w _ Hl') as (p' & -> & Hm & Hr). by do 3 eexists.
  - destruct (cleanup_keeps now p w held Hl) as [Hc Hm]. destruct (cleanup now (p, w)) as [p' w']. by do 3 eexists.
Qed.

Lemma pool_run_lent ops p w held : lent p w held →
  ∃ p' w' held', pool_run ops (p, w, held) = Ret (p', w', held') ∧ lent p' w' held' ∧ MaxConnectionsPerHost p' = MaxConnectionsPerHost p.
Proof.
  revert p w held. induction ops as [|op ops IH]; intros p w held Hl; cbn [pool_run]; [by do 3 eexists|].
  destruct (pool_step_lent op p w held Hl) as (p1 & w1 & held1 & -> & Hl1 & Hm1). cbn [mbind go_bind].
  destruct (IH p1 w1 held1 Hl1) as (p2 & w2 & held2 & -> & Hl2 & Hm2). do 3 eexists. split_and!; [done..|congruence].
Qed.

Lemma counts_length a p :
  (GetActiveConnectionCount a p + GetIdleConnectionCount a p = length (default [] (connections p !! a)))%nat.
Proof.
  unfold GetActiveConnectionCount, GetIdleConnectionCount. induction (default [] _) as [|c l IH]; [done|].
  rewrite !filter_cons. destruct (inUse c); simpl; lia.
Qed.

Lemma lent_held_open p w held c : lent p w held → c ∈ held → c ∈ opened w.
Proof. intros [[Hn Hh Ho] _] Hc. rewrite Ho, elem_of_list_to_set. apply in_use_sub. by rewrite <- Hh. Qed.
Lemma lent_nodup p w held : lent p w held → NoDup held.
Proof.
  intros [[Hn Hh _] _]. rewrite Hh. unfold in_use. eapply sublist_NoDup; [exact Hn|]. apply fmap_sublist, sublist_filter.
Qed.

(** C29: however callers ask for connections, give them back or have them removed, and whenever the
    cleaner runs: nobody panics, no connection is held twice, every connection held is open, the
    open connections are exactly those of the pool, no address has more of them than configured
    (or one), and the next connection lent is open and held by nobody. *)
Theorem pool_lends_exclusively ops max idle w0 : opened w0 = ∅ →
  ∃ p w held, pool_run ops (NewConnectionPool max idle, w0, []) = Ret (p, w, held) ∧
    NoDup held ∧ (∀ c, c ∈ held → c ∈ opened w) ∧
    opened w = list_to_set (cw_conn <$> wrappers (connections p)) ∧
    (∀ a, Z.of_nat (GetActiveConnectionCount a p + GetIdleConnectionCount a p) <= Z.max 1 max) ∧
    (∀ now a, ∃ p' w' r, Get now a (p, w) = Ret ((p', w'), r) ∧ ∀ c, r = Ok c → (c ∉ held) ∧ c ∈ opened w').
Proof.
  intros Hw. assert (lent (NewConnectionPool max idle) w0 []) as Hinit.
  { split; [split; [constructor|done|done]|apply map_Forall_empty]. }
  destruct (pool_run_lent ops _ _ _ Hinit) as (p & w & held & Hrun & Hl & Hm). exists p, w, held.
  split_and!; [done|by eapply lent_nodup|intros c; by eapply lent_held_open|apply Hl| |].
  - intros a. rewrite counts_length. destruct (connections p !! a) as [l|] eqn:E; simpl; [|lia].
    destruct Hl as [_ Hb]. specialize (Hb _ _ E). simpl in Hb. by rewrite Hm in Hb.
  - intros now a. destruct (Get_lends now a p w held Hl) as (p' & w' & r & HG & _ & Hr). do 3 eexists. split; [done|].
    intros c ->. split; [|eapply lent_held_open; [done|by left]]. apply lent_nodup, NoDup_cons in Hr. apply Hr.
Qed.

(** [Close] leaves no connection open; a second [Close] panics. *)
Lemma Close_closes p w held : lent p w held → cleaner_stopped p = false →
  ∃ p' w', Close (p, w) = Ret ((p', w'), Ok tt) ∧ opened w' = ∅ ∧ Close (p', w') = Panic "close of closed channel".
Proof.
  intros [[Hn Hh Ho] _] Hs. unfold Close. rewrite Hs. do 2 eexists. split_and!; [done| |done].
  assert (∀ l w, opened (close_all l w) = opened w ∖ list_to_set (cw_conn <$> l)) as Hall.
  { intros l. induction l as [|c l IH]; intros v; simpl; [by rewrite difference_empty_L|].
    rewrite IH, close_spec, difference_difference_l_L. done. }
  assert (∀ (hosts : list (string * list connectionWrapper)) w, opened (foldl (fun w x => close_all x.2 w) w hosts) = opened w ∖ list_to_set (cw_conn <$> (hosts ≫= snd))) as Hosts.
  { intros hosts. induction hosts as [|[a l] hosts IH]; intros v; simpl; [by rewrite difference_empty_L|].
    rewrite IH, Hall, difference_difference_l_L, fmap_app, list_to_set_app_L. done. }
  rewrite Hosts, Ho. apply set_eq. intros x. unfold wrappers.
  rewrite elem_of_difference, !elem_of_list_to_set, range_perm.
  split; [by intros [Hx []]|by intros ?%not_elem_of_empty].
Qed.
End Lending.

(** ** A network that dials everything but the empty address *)

Module PoolExamples.
Record Net := { open_conns : gset nat }.
#[export] Instance net_dialer : Dialer Net := {|
  Dial a w := if decide (a = "") then Ret (w, Err (Errorf "dial tcp: missing address"))
              else Ret ({| open_conns := {[fresh (open_conns w)]} ∪ open_conns w |}, Ok (fresh (open_conns w)));
  close_conn c w := {| open_conns := open_conns w ∖ {[c]} |}
|}.
#[export] Instance net_laws : DialerLaws Net.
Proof.
  refine {| opened := open_conns |}; [|done]. intros a w. cbn. case_decide; do 2 eexists; (split; [done|]); [done|].
  split; [apply is_fresh|done].
Defined.

(** Two callers are served, the third is refused, one connection is given back and lent again,
    the other removed. *)
Definition traffic : list pool_op :=
  [OGet 0 "a:1"; OGet 1 "a:1"; OGet 2 "a:1"; OPut 3 1; OGet 4 "b:1"; OGet 5 "a:1"; ORemove 2; OPut 6 1; OCleanup 100].
Definition no_conns : Net := {| open_conns := ∅ |}.

Lemma pool_lends_exclusively_witness :
  opened no_conns = ∅ ∧
  ∃ p w held, pool_run traffic (NewConnectionPool 2 10, no_conns, []) = Ret (p, w, held) ∧
    NoDup held ∧ (∀ c, c ∈ held → c ∈ opened w) ∧
    opened w = list_to_set (cw_conn <$> wrappers (connections p)) ∧
    (∀ a, Z.of_nat (GetActiveConnectionCount a p + GetIdleConnectionCount a p) <= Z.max 1 2) ∧
    (∀ now a, ∃ p' w' r, Get now a (p, w) = Ret ((p', w'), r) ∧ ∀ c, r = Ok c → (c ∉ held) ∧ c ∈ opened w').
Proof. split; [reflexivity|]. apply (pool_lends_exclusively traffic 2 10 no_conns). reflexivity. Defined.

Example traffic_held :
  ('(p, w, held) ← pool_run traffic (NewConnectionPool 2 10, no_conns, []);
   Ret (held, elements (open_conns w), GetActiveConnectionCount "a:1" p, GetIdleConnectionCount "a:1" p)) = Ret ([0%nat], [0%nat], 1%nat, 0%nat).
Proof. vm_compute. reflexivity. Qed.

(** A caller who gives the same connection back twice gives back what another caller was lent in
    between: the next caller shares it. *)
Example double_put_shares :
  (let st := (NewConnectionPool 2 10, no_conns) in
   '(st, c1) ← Get 0 "a:1" st; '(st, _) ← Put 1 0 st; '(st, c2) ← Get 2 "a:1" st; '(st, _) ← Put 3 0 st; '(st, c3) ← Get 4 "a:1" st;
   Ret (c1, c2, c3)) = Ret (Ok 0%nat, Ok 0%nat, Ok 0%nat).
Proof. vm_compute. reflexivity. Qed.
End PoolExamples.
