(* ===== verification/TcpServer.v ===== *)
(** * A session of the raft server: [pkg/transport/protocol/tcp/raft_msg_server.go]

    A connection another node opened is read frame by frame; a frame is decoded into a message
    and handed to the node, and the node's answer is written back.  The session decodes into the
    same four messages over and over.  The generated [Unmarshal] of [ibabuza/babuzapb] does not
    clear its receiver: a field that is zero is not part of the encoding and keeps its old
    value, and the elements of a repeated field are appended.  [over] says what a message holds
    after another was decoded onto it.  The loop over the bytes handles the whole frames in
    order, as the messages its buffers then hold, and nothing of a frame that breaks off. *)

From S2P Require Import Prelude Raftpb Allocator Streams SnapshotFs SnapshotIo SnapshotTransfer Cluster Frames.

(** ** Messages *)

Record BatchMessage (M : Type) := { bm_ClusterID : Z; Messages : list M }.
Arguments bm_ClusterID {M}. Arguments Messages {M}.

Record GetClusterPeersRequest := { gp_ClusterID : Z; gp_GroupID : Z; gp_From : Z; gp_To : Z }.
Record GetClusterPeersResponse := { gp_Status : ResponseStatus; gp_Message : string; gp_Peers : list Peer }.

Record PublishApplicationServiceRequest := {
  pa_ClusterID : Z; pa_GroupID : Z; pa_From : Z; pa_To : Z; ProposalReplyID : Z; pa_AppServiceAddresses : list string
}.
Record PublishApplicationServiceResponse := { pa_Status : ResponseStatus; pa_Message : string }.

(** A message decoded onto another. *)
Class Overlay (T : Type) := { zero : T; over : T → T → T; over_zero : ∀ m, over zero m = m }.

(** Its encoding: [Unmarshal] of what [Marshal] wrote. *)
Class WireMessage (T : Type) `{Overlay T} := {
  wire : T → list byte;
  unmarshal_onto : list byte → T → T * option error;
  unmarshal_wire : ∀ old m, unmarshal_onto (wire m) old = (over old m, None)
}.

Definition scalar (old new : Z) : Z := if decide (new = 0) then old else new.
Definition text (old new : string) : string := if decide (new = "") then old else new.
#[export] Instance ResponseStatus_eq_dec : EqDecision ResponseStatus.
Proof. solve_decision. Defined.
Definition status_over (old new : ResponseStatus) : ResponseStatus := if decide (new = SUCCESS) then old else new.

Lemma scalar_zero z : scalar 0 z = z.
Proof. unfold scalar. by case_decide. Qed.
Lemma text_empty t : text "" t = t.
Proof. unfold text. by case_decide. Qed.
Lemma status_success s : status_over SUCCESS s = s.
Proof. unfold status_over. by case_decide. Qed.
Lemma scalar_new old z : z ≠ 0 → scalar old z = z.
Proof. intros. unfold scalar. by rewrite decide_False. Qed.
Create Rewrite HintDb wire.
#[export] Hint Rewrite scalar_zero text_empty status_success : wire.
Ltac by_fields := intros []; cbn; autorewrite with wire; done.

#[export] Instance BatchMessage_over {M} : Overlay (BatchMessage M).
Proof.
  refine {| zero := {| bm_ClusterID := 0; Messages := [] |};
            over old m := {| bm_ClusterID := scalar (bm_ClusterID old) (bm_ClusterID m); Messages := Messages old ++ Messages m |} |}; by_fields.
Defined.
#[export] Instance GetClusterPeersRequest_over : Overlay GetClusterPeersRequest.
Proof.
  refine {| zero := {| gp_ClusterID := 0; gp_GroupID := 0; gp_From := 0; gp_To := 0 |};
            over old m := {| gp_ClusterID := scalar (gp_ClusterID old) (gp_ClusterID m); gp_GroupID := scalar (gp_GroupID old) (gp_GroupID m);
                             gp_From := scalar (gp_From old) (gp_From m); gp_To := scalar (gp_To old) (gp_To m) |} |}; by_fields.
Defined.
#[export] Instance GetClusterPeersResponse_over : Overlay GetClusterPeersResponse.
Proof.
  refine {| zero := {| gp_Status := SUCCESS; gp_Message := ""; gp_Peers := [] |};
            over old m := {| gp_Status := status_over (gp_Status old) (gp_Status m); gp_Message := text (gp_Message old) (gp_Message m);
                             gp_Peers := gp_Peers old ++ gp_Peers m |} |}; by_fields.
Defined.
#[export] Instance PublishApplicationServiceRequest_over : Overlay PublishApplicationServiceRequest.
Proof.
  refine {| zero := {| pa_ClusterID := 0; pa_GroupID := 0; pa_From := 0; pa_To := 0; ProposalReplyID := 0; pa_AppServiceAddresses := [] |};
            over old m := {| pa_ClusterID := scalar (pa_ClusterID old) (pa_ClusterID m); pa_GroupID := scalar (pa_GroupID old) (pa_GroupID m);
                             pa_From := scalar (pa_From old) (pa_From m); pa_To := scalar (pa_To old) (pa_To m);
                             ProposalReplyID := scalar (ProposalReplyID old) (ProposalReplyID m);
                             pa_AppServiceAddresses := pa_AppServiceAddresses old ++ pa_AppServiceAddresses m |} |}; by_fields.
Defined.
#[export] Instance PublishApplicationServiceResponse_over : Overlay PublishApplicationServiceResponse.
Proof.
  refine {| zero := {| pa_Status := SUCCESS; pa_Message := "" |};
            over old m := {| pa_Status := status_over (pa_Status old) (pa_Status m); pa_Message := text (pa_Message old) (pa_Message m) |} |}; by_fields.
Defined.
#[export] Instance SnapshotMessageResponse_over : Overlay SnapshotMessageResponse.
Proof.
  refine {| zero := {| Status := SUCCESS; resp_Message := "" |};
            over old m := {| Status := status_over (Status old) (Status m); resp_Message := text (resp_Message old) (resp_Message m) |} |}; by_fields.
Defined.

(** A snapshot message holds three messages of its own, which are always part of its encoding. *)
Section SnapshotOver.
Context `{Overlay SnapshotMetadata, Overlay SnapshotChunkMessage, Overlay RaftMessage}.

Definition snapshot_over (old m : SnapshotMessage) : SnapshotMessage :=
  {| ClusterID := scalar (ClusterID old) (ClusterID m); From := scalar (From old) (From m); To := scalar (To old) (To m);
     sm_Term := scalar (sm_Term old) (sm_Term m); sm_Index := scalar (sm_Index old) (sm_Index m); sm_Type := scalar (sm_Type old) (sm_Type m);
     sm_Metadata := over (sm_Metadata old) (sm_Metadata m); ChunkMessage := over (ChunkMessage old) (ChunkMessage m);
     FinishMessage := over (FinishMessage old) (FinishMessage m) |}.
#[export] Instance SnapshotMessage_over : Overlay SnapshotMessage.
Proof.
  refine {| zero := {| ClusterID := 0; From := 0; To := 0; sm_Term := 0; sm_Index := 0; sm_Type := 0;
                       sm_Metadata := zero; ChunkMessage := zero; FinishMessage := zero |};
            over := snapshot_over |}.
  intros []; unfold snapshot_over; cbn; autorewrite with wire; by rewrite !over_zero.
Defined.
End SnapshotOver.

(** ** The node a session talks to: [ibabuza.RaftMessageHandler] *)

Class RaftMessageHandler (H M : Type) := {
  h_ProcessBatchMessage : BatchMessage M → H → go H;
  h_ProcessSnapshotMessage : SnapshotMessage → H → go (H * SnapshotMessageResponse);
  h_GetClusterPeer : GetClusterPeersRequest → H → go (H * GetClusterPeersResponse);
  h_PublishApplicationService : PublishApplicationServiceRequest → H → go (H * PublishApplicationServiceResponse)
}.

(** The messages the session decodes into. *)
Record Buffers (M : Type) := {
  batchMsg : BatchMessage M;
  snapshotMsg : SnapshotMessage;
  getClusterPeersReq : GetClusterPeersRequest;
  pubAppServiceReq : PublishApplicationServiceRequest
}.
Arguments batchMsg {M}. Arguments snapshotMsg {M}. Arguments getClusterPeersReq {M}. Arguments pubAppServiceReq {M}.

Record session (H M : Type) := { se_conn : Conn; se_buf : Buffers M; se_raft : H }.
Arguments se_conn {H M}. Arguments se_buf {H M}. Arguments se_raft {H M}.

#[export] Instance session_conn {H M} : HasConn (session H M).
Proof.
  refine {| the_conn := se_conn; put_conn c s := {| se_conn := c; se_buf := se_buf s; se_raft := se_raft s |} |}; [done..|by intros []].
Defined.

Section Session.
Context {H M : Type} `{RaftMessageHandler H M}.
Context `{Overlay SnapshotMetadata, Overlay SnapshotChunkMessage, Overlay RaftMessage}.
Context `{!WireMessage (BatchMessage M), !WireMessage SnapshotMessage, !WireMessage SnapshotMessageResponse,
          !WireMessage GetClusterPeersRequest, !WireMessage GetClusterPeersResponse,
          !WireMessage PublishApplicationServiceRequest, !WireMessage PublishApplicationServiceResponse}.
Open Scope go_scope.

Definition set_batch (m : BatchMessage M) (b : Buffers M) : Buffers M :=
  {| batchMsg := m; snapshotMsg := snapshotMsg b; getClusterPeersReq := getClusterPeersReq b; pubAppServiceReq := pubAppServiceReq b |}.
Definition set_snapshot (m : SnapshotMessage) (b : Buffers M) : Buffers M :=
  {| batchMsg := batchMsg b; snapshotMsg := m; getClusterPeersReq := getClusterPeersReq b; pubAppServiceReq := pubAppServiceReq b |}.
Definition set_peers (m : GetClusterPeersRequest) (b : Buffers M) : Buffers M :=
  {| batchMsg := batchMsg b; snapshotMsg := snapshotMsg b; getClusterPeersReq := m; pubAppServiceReq := pubAppServiceReq b |}.
Definition set_publish (m : PublishApplicationServiceRequest) (b : Buffers M) : Buffers M :=
  {| batchMsg := batchMsg b; snapshotMsg := snapshotMsg b; getClusterPeersReq := getClusterPeersReq b; pubAppServiceReq := m |}.

(** The buffers and the node change, the connection does not. *)
Definition with_node {A} (f : Buffers M → H → go (Buffers M * H * result A)) : meth (ByteSlicePool * session H M) A := fun '(p, s) =>
  '(b, h, r) ← f (se_buf s) (se_raft s); Ret ((p, {| se_conn := se_conn s; se_buf := b; se_raft := h |}), r).

(** The parts of the snapshot message the session clears. *)
Definition clear_parts (m : SnapshotMessage) : SnapshotMessage :=
  {| ClusterID := ClusterID m; From := From m; To := To m; sm_Term := sm_Term m; sm_Index := sm_Index m; sm_Type := sm_Type m;
     sm_Metadata := zero; ChunkMessage := zero; FinishMessage := zero |}.

Definition handle_batch (msgBuf : list byte) (b : Buffers M) (h : H) : go (Buffers M * H * result unit) :=
  match unmarshal_onto msgBuf (batchMsg b) with
  | (m, Some e) => Ret (set_batch m b, h, Err e)
  | (m, None) => h ← h_ProcessBatchMessage m h; Ret (set_batch {| bm_ClusterID := bm_ClusterID m; Messages := [] |} b, h, Ok tt)
  end.
Definition handle_snapshot (msgBuf : list byte) (b : Buffers M) (h : H) : go (Buffers M * H * result SnapshotMessageResponse) :=
  match unmarshal_onto msgBuf (snapshotMsg b) with
  | (m, Some e) => Ret (set_snapshot m b, h, Err e)
  | (m, None) => '(h, res) ← h_ProcessSnapshotMessage m h; Ret (set_snapshot (clear_parts m) b, h, Ok res)
  end.
Definition handle_peers (msgBuf : list byte) (b : Buffers M) (h : H) : go (Buffers M * H * result GetClusterPeersResponse) :=
  match unmarshal_onto msgBuf (getClusterPeersReq b) with
  | (m, Some e) => Ret (set_peers m b, h, Err e)
  | (m, None) => '(h, res) ← h_GetClusterPeer m h; Ret (set_peers m b, h, Ok res)
  end.
Definition handle_publish (msgBuf : list byte) (b : Buffers M) (h : H) : go (Buffers M * H * result PublishApplicationServiceResponse) :=
  match unmarshal_onto msgBuf (pubAppServiceReq b) with
  | (m, Some e) => Ret (set_publish m b, h, Err e)
  | (m, None) => '(h, res) ← h_PublishApplicationService m h; Ret (set_publish m b, h, Ok res)
  end.

(** The answer is written under a deadline of its own. *)
Definition respond (msgType : Z) (body : list byte) : meth (ByteSlicePool * session H M) unit :=
  on_conn SetDeadline ;; SendFrame msgType body.

Definition messageHandler : MsgHandler (session H M) := fun msgType msgBuf =>
  if decide (msgType = BatchMsgType) then with_node (handle_batch msgBuf)
  else if decide (msgType = SnapshotMsgReqType) then res <- with_node (handle_snapshot msgBuf) ;; respond SnapshotMsgResType (wire res)
  else if decide (msgType = ClusterPeersReqType) then res <- with_node (handle_peers msgBuf) ;; respond ClusterPeersResType (wire res)
  else if decide (msgType = PubAppServiceReqType) then res <- with_node (handle_publish msgBuf) ;; respond PubAppServiceResType (wire res)
  else Meth.fail (Errorf "tcp[raft server]: unsupported message type %d").

(** The loop of [start]; [closeCh] is closed after [rounds] rounds.  Every frame has at least
    the bytes of its header, so the bytes that arrived bound the rounds. *)
Fixpoint serve (fuel : nat) (rounds : option nat) : meth (ByteSlicePool * session H M) unit :=
  match fuel with
  | O => Meth.panic "the loop does not end"
  | S fuel =>
      match rounds with
      | Some O => Meth.fail (Errorf "tcp server: close")
      | _ => on_conn SetDeadline ;; ReadFrame messageHandler ;; serve fuel (pred <$> rounds)
      end
  end.

Definition start (rounds : option nat) : meth (ByteSlicePool * session H M) unit := fun st =>
  '((p, s), r) ← serve (S (length (rx (se_conn st.2)))) rounds st;
  Ret ((p, put_conn (Conn_Close (se_conn s)) s), r).

Definition newSession (c : Conn) (h : H) : session H M :=
  {| se_conn := c; se_buf := {| batchMsg := zero; snapshotMsg := zero; getClusterPeersReq := zero; pubAppServiceReq := zero |}; se_raft := h |}.

(** ** What the session does, told without bytes *)

Inductive request :=
  | RBatch (m : BatchMessage M) | RSnapshot (m : SnapshotMessage)
  | RPeers (m : GetClusterPeersRequest) | RPublish (m : PublishApplicationServiceRequest).

Definition request_frame (r : request) : Z * list byte :=
  match r with
  | RBatch m => (BatchMsgType, wire m)
  | RSnapshot m => (SnapshotMsgReqType, wire m)
  | RPeers m => (ClusterPeersReqType, wire m)
  | RPublish m => (PubAppServiceReqType, wire m)
  end.
Definition bytes_of (f : Z * list byte) : list byte := frame f.1 f.2.

(** One request, decoded onto the message of its kind: the node's answer as frames. *)
Definition handle (r : request) (b : Buffers M) (h : H) : go (Buffers M * H * list (Z * list byte)) :=
  match r with
  | RBatch m =>
      let m := over (batchMsg b) m in
      h ← h_ProcessBatchMessage m h; Ret (set_batch {| bm_ClusterID := bm_ClusterID m; Messages := [] |} b, h, [])
  | RSnapshot m =>
      let m := over (snapshotMsg b) m in
      '(h, res) ← h_ProcessSnapshotMessage m h; Ret (set_snapshot (clear_parts m) b, h, [(SnapshotMsgResType, wire res)])
  | RPeers m =>
      let m := over (getClusterPeersReq b) m in
      '(h, res) ← h_GetClusterPeer m h; Ret (set_peers m b, h, [(ClusterPeersResType, wire res)])
  | RPublish m =>
      let m := over (pubAppServiceReq b) m in
      '(h, res) ← h_PublishApplicationService m h; Ret (set_publish m b, h, [(PubAppServiceResType, wire res)])
  end.

Fixpoint handle_all (rs : list request) (b : Buffers M) (h : H) : go (Buffers M * H * list (Z * list byte)) :=
  match rs with
  | [] => Ret (b, h, [])
  | r :: rs => '(b, h, out) ← handle r b h; '(b, h, outs) ← handle_all rs b h; Ret (b, h, out ++ outs)
  end.

(** The requests whose frames lie within the first [n] bytes. *)
Fixpoint whole (n : nat) (rs : list request) : list request :=
  match rs with
  | [] => []
  | r :: rs => if decide (length (bytes_of (request_frame r)) <= n)%nat then r :: whole (n - length (bytes_of (request_frame r))) rs else []
  end.

(** What fits a buffer with its header. *)
Definition answerable (L : list Z) (f : Z * list byte) : Prop :=
  Z.of_nat (length f.2) <= MaxMessageSize ∧ serves L (Z.of_nat HeaderSize + Z.of_nat (length f.2)).

Section Loop.
Context (L : list Z) (HL : serves_messages L).

Definition with_state (b : Buffers M) (h : H) (s : session H M) : session H M := {| se_conn := se_conn s; se_buf := b; se_raft := h |}.

Lemma runs_node {A} (f : Buffers M → H → go (Buffers M * H * result A)) s b h r :
  f (se_buf s) (se_raft s) = Ret (b, h, r) → runs L (with_node f) s (with_state b h s) r.
Proof. intros E p Hp. exists p. unfold with_node. by rewrite E. Qed.

Lemma runs_respond f s : healthy (se_conn s) → answerable L f → runs L (respond f.1 f.2) s (with_sent (bytes_of f) s) (Ok tt).
Proof. intros Hc [Hf Hs]. eapply runs_bind; [by apply runs_deadline, Hc|]. by apply send_frame. Qed.

Lemma sent_nothing (s : session H M) : healthy (se_conn s) → with_sent [] s = s.
Proof. intros [_ Hr]. unfold with_sent. destruct s as [[? ? ? ? ?] ? ?]. simpl in *. by rewrite app_nil_r, Hr. Qed.

(** The handler does to the session what [handle] says. *)
Lemma handler_handles r s b h out :
  healthy (se_conn s) → handle r (se_buf s) (se_raft s) = Ret (b, h, out) → Forall (answerable L) out →
  runs L (messageHandler ((request_frame r).1 mod 256) (request_frame r).2) s (with_sent (out ≫= bytes_of) (with_state b h s)) (Ok tt).
Proof.
  intros Hc Hh Hout. destruct r as [m|m|m|m]; cbn [request_frame fst snd];
    [change (BatchMsgType mod 256) with BatchMsgType|change (SnapshotMsgReqType mod 256) with SnapshotMsgReqType
    |change (ClusterPeersReqType mod 256) with ClusterPeersReqType|change (PubAppServiceReqType mod 256) with PubAppServiceReqType];
    unfold messageHandler; rewrite ?decide_True, ?decide_False by done; cbn [handle] in Hh.
  - destruct (h_ProcessBatchMessage _ _) as [h1|] eqn:E; [|done]. cbn in Hh. simplify_eq. cbn [mbind list_bind].
    rewrite sent_nothing by done. apply runs_node. unfold handle_batch. rewrite unmarshal_wire, E. done.
  - destruct (h_ProcessSnapshotMessage _ _) as [[h1 res]|] eqn:E; [|done]. cbn in Hh. simplify_eq. apply Forall_cons in Hout as [Hout _].
    cbn [mbind list_bind]. rewrite app_nil_r. eapply runs_bind; [apply runs_node; unfold handle_snapshot; rewrite unmarshal_wire, E; reflexivity|].
    apply (runs_respond (_, wire res)); [exact Hc|exact Hout].
  - destruct (h_GetClusterPeer _ _) as [[h1 res]|] eqn:E; [|done]. cbn in Hh. simplify_eq. apply Forall_cons in Hout as [Hout _].
    cbn [mbind list_bind]. rewrite app_nil_r. eapply runs_bind; [apply runs_node; unfold handle_peers; rewrite unmarshal_wire, E; reflexivity|].
    apply (runs_respond (_, wire res)); [exact Hc|exact Hout].
  - destruct (h_PublishApplicationService _ _) as [[h1 res]|] eqn:E; [|done]. cbn in Hh. simplify_eq. apply Forall_cons in Hout as [Hout _].
    cbn [mbind list_bind]. rewrite app_nil_r. eapply runs_bind; [apply runs_node; unfold handle_publish; rewrite unmarshal_wire, E; reflexivity|].
    apply (runs_respond (_, wire res)); [exact Hc|exact Hout].
Qed.

(** A round of the loop that is not the last. *)
Lemma serve_next fuel s s1 s' r : closed (se_conn s) = false →
  runs L (ReadFrameOrEOF messageHandler) s s1 (Ok false) → runs L (serve fuel None) s1 s' r → runs L (serve (S fuel) None) s s' r.
Proof.
  intros Hc Hr1 Hr2. cbn [serve fmap option_fmap option_map]. eapply runs_bind; [by apply runs_deadline|]. eapply runs_bind; [|exact Hr2].
  eapply runs_bind; [by apply runs_deadline|]. eapply runs_bind; [exact Hr1|]. apply runs_ret.
Qed.

(** The last round. *)
Lemma serve_last fuel s s' r e : closed (se_conn s) = false → runs L (ReadFrameOrEOF messageHandler) s s' r →
  r = Err e ∨ (r = Ok true ∧ e = io_ErrUnexpectedEOF) → runs L (serve (S fuel) None) s s' (Err e).
Proof.
  intros Hc Hr1 Hr. cbn [serve fmap option_fmap option_map]. eapply runs_bind; [by apply runs_deadline|]. apply runs_bind_err.
  eapply runs_bind; [by apply runs_deadline|]. destruct Hr as [->|[-> ->]]; [by apply runs_bind_err|].
  eapply runs_bind; [exact Hr1|]. apply runs_fail.
Qed.

Lemma serve_nothing fuel s : closed (se_conn s) = false → pending s = [] → runs L (serve (S fuel) None) s (with_rx [] s) (Err (torn_error s)).
Proof using HL.
  intros Hc Hs. eapply serve_last; [done|apply read_no_header; [done..|rewrite Hs; simpl; unfold HeaderSize; lia]|].
  unfold short_read, torn_error. rewrite (decide_True (P := pending s = [])) by done. repeat case_decide; try done; auto.
Qed.

Lemma serve_whole rs : ∀ fuel n s b h out,
  healthy (se_conn s) → Forall (fun r => Z.of_nat (length (request_frame r).2) <= MaxMessageSize) rs →
  pending s = take n (rs ≫= bytes_of ∘ request_frame) →
  handle_all (whole n rs) (se_buf s) (se_raft s) = Ret (b, h, out) → Forall (answerable L) out → (length (whole n rs) < fuel)%nat →
  runs L (serve fuel None) s (with_rx [] (with_sent (out ≫= bytes_of) (with_state b h s))) (Err (torn_error s)).
Proof using HL.
  induction rs as [|r rs IH]; intros [|fuel] n s b h out Hc Hr Hs Hh Hout Hf; try (simpl in Hf; lia); cbn [whole mbind list_bind] in *.
  - simpl in Hh. simplify_eq. cbn [mbind list_bind]. replace (with_state _ _ s) with s by (by destruct s).
    rewrite sent_nothing by done. apply serve_nothing; [apply Hc|]. by rewrite Hs, take_nil.
  - apply Forall_cons in Hr as [Hr0 Hr]. fold (rs ≫= bytes_of ∘ request_frame) in Hs. change ((bytes_of ∘ request_frame) r) with (bytes_of (request_frame r)) in Hs.
    case_decide as Hl; cbn [handle_all] in Hh.
    + destruct (handle r _ _) as [[[b1 h1] out1]|] eqn:E1; [|done]. cbn in Hh.
      destruct (handle_all _ b1 h1) as [[[b2 h2] out2]|] eqn:E2; [|done]. cbn in Hh. simplify_eq. apply Forall_app in Hout as [Ho1 Ho2].
      rewrite take_app_ge in Hs by done. set (rest := take _ (rs ≫= _)) in Hs.
      set (s1 := with_sent (out1 ≫= bytes_of) (with_state b1 h1 (with_rx rest s))).
      apply (serve_next fuel s s1); [apply Hc| |].
      * apply (read_frame L HL messageHandler (request_frame r).1 (request_frame r).2 rest s s1 (Ok tt)); [apply Hc|done|done|].
        by apply handler_handles.
      * replace (torn_error s) with (torn_error s1) by done.
        replace (with_rx [] _) with (with_rx [] (with_sent (out2 ≫= bytes_of) (with_state b h s1)));
          [apply (IH fuel (n - length (bytes_of (request_frame r)))%nat); [exact (conj (proj1 Hc) eq_refl)|exact Hr|reflexivity|exact E2|exact Ho2|simpl in Hf; lia]|].
        unfold with_rx, with_sent, with_state, s1. simpl. by rewrite bind_app, (assoc_L (++)).
    + simpl in Hh. simplify_eq. cbn [mbind list_bind]. replace (with_state _ _ s) with s by (by destruct s). rewrite sent_nothing by done.
      rewrite take_app_le in Hs by lia. destruct n as [|n]; [apply serve_nothing; [apply Hc|done]|].
      eapply serve_last; [apply Hc| |by left]. eapply read_cut; [done|apply Hc|exact Hr0|exact Hs|unfold bytes_of in *; lia].
Qed.

(** Whatever the number of bytes that arrive. *)
Lemma length_whole n rs : (length (whole n rs) <= length (take n (rs ≫= bytes_of ∘ request_frame)))%nat.
Proof.
  revert n. induction rs as [|r rs IH]; intros n; cbn [whole mbind list_bind]; [simpl; lia|].
  fold (rs ≫= bytes_of ∘ request_frame). change ((bytes_of ∘ request_frame) r) with (bytes_of (request_frame r)).
  case_decide as Hl; simpl; [|lia]. rewrite take_app_ge, length_app by done. specialize (IH (n - length (bytes_of (request_frame r)))%nat).
  assert (0 < length (bytes_of (request_frame r)))%nat; [|lia]. unfold bytes_of. rewrite length_frame. unfold HeaderSize. lia.
Qed.
End Loop.

(** C23: the loop over the bytes does what [handle_all] does to the requests whose frames arrived
    whole: the answers are written in order, and a frame that breaks off, wherever it does,
    leaves no trace on the node; the session ends with an error and closes its connection.  The
    connection takes all bytes that are written, and requests and answers fit a frame. *)
Theorem session_refines L p s rs n b h out :
  serves_messages L → pool_ok L p → healthy (se_conn s) →
  Forall (fun r => Z.of_nat (length (request_frame r).2) <= MaxMessageSize) rs →
  rx (se_conn s) = take n (rs ≫= bytes_of ∘ request_frame) →
  handle_all (whole n rs) (se_buf s) (se_raft s) = Ret (b, h, out) → Forall (answerable L) out →
  ∃ p' c, start None (p, s) = Ret ((p', {| se_conn := c; se_buf := b; se_raft := h |}), Err (torn_error s)) ∧
    pool_ok L p' ∧ tx c = tx (se_conn s) ++ (out ≫= bytes_of) ∧ closed c = true.
Proof.
  intros HL Hp Hc Hr Hs Hh Hout.
  destruct (serve_whole L HL rs (S (length (rx (se_conn s)))) n s b h out Hc Hr Hs Hh Hout) with (p := p) as (p' & E & Hp'); [|done|].
  { rewrite Hs. pose proof (length_whole n rs). lia. }
  exists p'. eexists. unfold start. cbn [snd]. rewrite E. cbn [mbind go_bind]. split_and!; done.
Qed.

(** ** The messages the node is given *)

(** A request handed to the node as it was sent. *)
Definition direct_call (r : request) (h : H) : go (H * list (Z * list byte)) :=
  match r with
  | RBatch m => h ← h_ProcessBatchMessage m h; Ret (h, [])
  | RSnapshot m => '(h, res) ← h_ProcessSnapshotMessage m h; Ret (h, [(SnapshotMsgResType, wire res)])
  | RPeers m => '(h, res) ← h_GetClusterPeer m h; Ret (h, [(ClusterPeersResType, wire res)])
  | RPublish m => '(h, res) ← h_PublishApplicationService m h; Ret (h, [(PubAppServiceResType, wire res)])
  end.
Fixpoint direct_calls (rs : list request) (h : H) : go (H * list (Z * list byte)) :=
  match rs with
  | [] => Ret (h, [])
  | r :: rs => '(h, out) ← direct_call r h; '(h, outs) ← direct_calls rs h; Ret (h, out ++ outs)
  end.

Section AsSent.
Context (cluster group : Z).

(** A request of this cluster and group, with no other number left at zero. *)
Definition proper_snapshot (m : SnapshotMessage) : Prop :=
  ClusterID m = cluster ∧ From m ≠ 0 ∧ To m ≠ 0 ∧ sm_Term m ≠ 0 ∧ sm_Index m ≠ 0 ∧ sm_Type m ≠ 0.
Definition proper (r : request) : Prop :=
  match r with
  | RBatch m => bm_ClusterID m = cluster
  | RSnapshot m => proper_snapshot m
  | RPeers m => gp_ClusterID m = cluster ∧ gp_GroupID m = group ∧ gp_From m ≠ 0 ∧ gp_To m ≠ 0
  | RPublish m => pa_ClusterID m = cluster ∧ pa_GroupID m = group ∧ pa_From m ≠ 0 ∧ pa_To m ≠ 0 ∧ ProposalReplyID m ≠ 0
  end.

(** The buffers between two requests. *)
Record between (b : Buffers M) : Prop := {
  bt_batch : bm_ClusterID (batchMsg b) ∈ [0; cluster] ∧ Messages (batchMsg b) = [];
  bt_snapshot : ClusterID (snapshotMsg b) ∈ [0; cluster] ∧ clear_parts (snapshotMsg b) = snapshotMsg b;
  bt_peers : gp_ClusterID (getClusterPeersReq b) ∈ [0; cluster] ∧ gp_GroupID (getClusterPeersReq b) ∈ [0; group];
  bt_publish : pa_ClusterID (pubAppServiceReq b) ∈ [0; cluster] ∧ pa_GroupID (pubAppServiceReq b) ∈ [0; group]
}.

Lemma scalar_same old z : old ∈ [0; z] → scalar old z = z.
Proof. rewrite elem_of_cons, list_elem_of_singleton. unfold scalar. intros [E|E]; rewrite E; by case_decide. Qed.

Ltac scalars := first [done|by apply scalar_new|by apply scalar_same].

Lemma over_batch b m : between b → bm_ClusterID m = cluster → over (batchMsg b) m = m.
Proof. intros Hb Hm. destruct (bt_batch b Hb) as [Hc Hn]. destruct m. cbn in *. subst. by rewrite Hn, scalar_same. Qed.
Lemma over_snapshot b m : between b → proper (RSnapshot m) → over (snapshotMsg b) m = m.
Proof.
  intros Hb (Hc & ? & ? & ? & ? & ?). destruct (bt_snapshot b Hb) as [Hs Hz]. rewrite <- Hz. destruct m. cbn in *. subst.
  unfold snapshot_over. cbn. rewrite !over_zero. f_equal; scalars.
Qed.
Lemma over_peers b m : between b → proper (RPeers m) → over (getClusterPeersReq b) m = m.
Proof. intros Hb (Hc & Hg & ? & ?). destruct (bt_peers b Hb). destruct m. cbn in *. subst. f_equal; scalars. Qed.
Lemma over_publish b m : between b → proper (RPublish m) →
  over (pubAppServiceReq b) m = {| pa_ClusterID := pa_ClusterID m; pa_GroupID := pa_GroupID m; pa_From := pa_From m; pa_To := pa_To m;
    ProposalReplyID := ProposalReplyID m; pa_AppServiceAddresses := pa_AppServiceAddresses (pubAppServiceReq b) ++ pa_AppServiceAddresses m |}.
Proof. intros Hb (Hc & Hg & ? & ? & ?). destruct (bt_publish b Hb). destruct m. cbn in *. subst. f_equal; scalars. Qed.

(** A publication with the addresses [a] in front of its own. *)
Definition prefixed (a : list string) (m : PublishApplicationServiceRequest) : PublishApplicationServiceRequest :=
  {| pa_ClusterID := pa_ClusterID m; pa_GroupID := pa_GroupID m; pa_From := pa_From m; pa_To := pa_To m;
     ProposalReplyID := ProposalReplyID m; pa_AppServiceAddresses := a ++ pa_AppServiceAddresses m |}.

(** The requests, every publication with the addresses of all before it. *)
Fixpoint pile (a : list string) (rs : list request) : list request :=
  match rs with
  | [] => []
  | RPublish m :: rs => RPublish (prefixed a m) :: pile (a ++ pa_AppServiceAddresses m) rs
  | r :: rs => r :: pile a rs
  end.

(** The buffers after a request. *)
Definition after (r : request) (b : Buffers M) : Buffers M :=
  match r with
  | RBatch m => set_batch {| bm_ClusterID := bm_ClusterID m; Messages := [] |} b
  | RSnapshot m => set_snapshot (clear_parts m) b
  | RPeers m => set_peers m b
  | RPublish m => set_publish (prefixed (pa_AppServiceAddresses (pubAppServiceReq b)) m) b
  end.

Lemma after_between r b : between b → proper r → between (after r b).
Proof.
  intros [H1' H2' H3' H4'] Hr. assert (∀ z : Z, z ∈ [0; z]) as Hin by (intros z; right; by left).
  destruct r as [m|m|m|m]; cbn in Hr; unfold proper_snapshot in *; (split; [try exact H1'|try exact H2'|try exact H3'|try exact H4']); cbn; destruct_and?; subst; done.
Qed.

Definition decoded (b : Buffers M) (r : request) : request :=
  match r with RPublish m => RPublish (prefixed (pa_AppServiceAddresses (pubAppServiceReq b)) m) | _ => r end.

Lemma handle_decoded r b h : between b → proper r →
  handle r b h = '(h, out) ← direct_call (decoded b r) h; Ret (after r b, h, out).
Proof.
  intros Hb Hr. destruct r as [m|m|m|m]; cbn [handle decoded direct_call after].
  - rewrite over_batch by done. by destruct (h_ProcessBatchMessage _ _).
  - rewrite over_snapshot by done. by destruct (h_ProcessSnapshotMessage _ _) as [[??]|].
  - rewrite over_peers by done. by destruct (h_GetClusterPeer _ _) as [[??]|].
  - rewrite over_publish by done. fold (prefixed (pa_AppServiceAddresses (pubAppServiceReq b)) m).
    by destruct (h_PublishApplicationService _ _) as [[??]|].
Qed.

Lemma pile_cons r b rs : pile (pa_AppServiceAddresses (pubAppServiceReq b)) (r :: rs) =
  decoded b r :: pile (pa_AppServiceAddresses (pubAppServiceReq (after r b))) rs.
Proof. by destruct r. Qed.

Lemma handle_all_piles rs b h : between b → Forall proper rs →
  ('(_, h, out) ← handle_all rs b h; Ret (h, out)) = direct_calls (pile (pa_AppServiceAddresses (pubAppServiceReq b)) rs) h.
Proof.
  revert b h. induction rs as [|r rs IH]; intros b h Hb Hrs; [done|]. apply Forall_cons in Hrs as [Hr Hrs]. rewrite pile_cons.
  cbn [handle_all direct_calls]. rewrite handle_decoded by done. destruct (direct_call _ _) as [[h1 out]|]; [|done]. cbn [mbind go_bind].
  rewrite <- (IH (after r b) h1) by auto using after_between. by destruct (handle_all rs (after r b) h1) as [[[??]?]|].
Qed.

(** On one connection the node is given every request as it was sent, although they are all
    decoded into the same messages, except that the addresses of a publication come on top of
    those of all publications before it. *)
Theorem published_addresses_pile_up rs c h : Forall proper rs →
  ('(_, h, out) ← handle_all rs (se_buf (newSession c h)) h; Ret (h, out)) = direct_calls (pile [] rs) h.
Proof.
  intros Hrs. apply (handle_all_piles rs (se_buf (newSession c h))); [|done]. split; cbn; (split; [by left|]); first [done|by left].
Qed.
End AsSent.

(** ** Whatever arrives *)

Section Ends.
Context (L : list Z) (HL : serves_messages L).

(** A method that returns; when it succeeds with [a], it took at least [k a] bytes. *)
Definition returns {A} (k : A → nat) (m : meth (ByteSlicePool * session H M) A) : Prop :=
  ∀ p s, pool_ok L p → ∃ p' s' r, m (p, s) = Ret ((p', s'), r) ∧ pool_ok L p' ∧
    match r with Ok a => (length (pending s') + k a <= length (pending s))%nat | Err _ => True end.

Lemma returns_bind {A B} k j (m : meth _ A) (f : A → meth _ B) :
  returns k m → (∀ a, returns (fun b => j b - k a)%nat (f a)) → returns j (Meth.bind m f).
Proof.
  intros Hm Hf p s Hp. destruct (Hm p s Hp) as (p1 & s1 & [a|e] & E & Hp1 & Hk); unfold Meth.bind; rewrite E; [|by do 3 eexists].
  destruct (Hf a p1 s1 Hp1) as (p2 & s2 & r & E2 & Hp2 & Hj). do 3 eexists. split_and!; [done..|]. destruct r; [lia|done].
Qed.
Lemma returns_weaken {A} (k j : A → nat) m : (∀ a, j a <= k a)%nat → returns k m → returns j m.
Proof.
  intros Hj Hm p s Hp. destruct (Hm p s Hp) as (p1 & s1 & r & E & Hp1 & Hk). exists p1, s1, r. split_and!; [done..|].
  destruct r as [a|]; [specialize (Hj a); lia|done].
Qed.
Lemma returns_buf {A} (k : A → nat) n body : serves L n → (∀ b, returns k (body b)) → returns k (with_buf n body).
Proof.
  intros Hn Hb p s Hp. destruct (Acquire_ok L p n Hp Hn) as (p1 & b & E1 & H1' & Hc).
  destruct (Hb b p1 s H1') as (p2 & s2 & r & E2 & H2' & Hk). destruct (Release_ok L p2 b H2' Hc) as (p3 & E3 & H3').
  exists p3, s2, r. unfold with_buf. cbn [fst snd]. rewrite E1. cbn [mbind go_bind fst snd]. rewrite E2. cbn [mbind go_bind fst snd]. by rewrite E3.
Qed.
Lemma returns_ret {A} (k : A → nat) a : k a = 0%nat → returns k (Meth.ret a).
Proof. intros Hk p s Hp. exists p, s, (Ok a). split_and!; [done..|lia]. Qed.
Lemma returns_fail {A} (k : A → nat) e : returns k (Meth.fail e).
Proof. intros p s Hp. by exists p, s, (Err e). Qed.
Lemma returns_outcome {A} (k : A → nat) m : (∀ p s, pool_ok L p → ∃ p' s' r, m (p, s) = Ret ((p', s'), r) ∧ pool_ok L p' ∧
    (length (pending s') + match r with Ok a => k a | Err _ => 0 end <= length (pending s))%nat) →
  returns (fun r => match r with Ok a => k a | Err _ => 0%nat end) (outcome m).
Proof. intros Hm p s Hp. destruct (Hm p s Hp) as (p1 & s1 & r & E & Hp1 & Hk). unfold outcome. rewrite E. by do 3 eexists. Qed.

(** What a method of the connection does to the bytes that arrived. *)
Lemma returns_conn {A} (k : A → nat) (m : meth Conn A) :
  (∀ c, ∃ c' r, m c = Ret (c', r) ∧ match r with Ok a => (length (rx c') + k a <= length (rx c))%nat | Err _ => True end) → returns k (on_conn m).
Proof.
  intros Hm p s Hp. destruct (Hm (the_conn s)) as (c' & r & E & Hk). unfold on_conn. cbn [fst snd]. rewrite E. cbn [mbind go_bind].
  do 3 eexists. split_and!; [done..|]. unfold pending. by rewrite the_put.
Qed.
Lemma returns_deadline k : k tt = 0%nat → returns k (on_conn SetDeadline).
Proof. intros Hk. apply returns_conn. intros c. unfold SetDeadline. do 2 eexists. split; [done|]. destruct (closed c); [done|lia]. Qed.

Lemma returns_read n : returns (fun r => match r with Ok _ => n | Err _ => 0%nat end) (outcome (on_conn (Conn_ReadFull n))).
Proof.
  apply (returns_outcome (fun _ => n)). intros p s Hp. unfold on_conn, Conn_ReadFull. cbn [fst snd].
  destruct (closed (the_conn s)); [do 3 eexists; split_and!; [done..|]; rewrite put_the; lia|].
  destruct (read_full n (rx (the_conn s))) as [[b|e] rest] eqn:E; cbn [mbind go_bind]; do 3 eexists; (split_and!; [done..|]);
    unfold pending; rewrite the_put; cbn [rx set_rx].
  - apply read_full_Ok in E as [Hs Hn]. rewrite Hs, length_app. lia.
  - unfold read_full in E. repeat case_decide; simplify_eq; simpl; lia.
Qed.

Lemma returns_send t body : answerable L (t, body) → returns (fun _ => 0%nat) (SendFrame t body).
Proof.
  intros [Hb Hs]. eapply returns_bind; [by apply (returns_deadline (fun _ => 0%nat))|]. intros []. unfold EncodeSize. rewrite decide_False by (simpl in Hb; lia).
  apply returns_buf; [done|]. intros b. apply returns_conn. intros c. unfold Encode, Conn_Write.
  repeat case_match; do 2 eexists; (split; [reflexivity|]); simpl; first [lia|done].
Qed.

Lemma returns_frame handler : (∀ t b, returns (fun _ => 0%nat) (handler t b)) →
  returns (fun eof : bool => if eof then 0 else HeaderSize)%nat (ReadFrameOrEOF handler).
Proof using HL.
  intros Hh. assert (∀ h crc b (k : bool → nat), k false = 0%nat → returns k (deliver handler h crc b)) as Hd.
  { intros h crc b k Hk. unfold deliver. case_decide; [apply returns_fail|]. eapply returns_bind; [apply Hh|]. intros [].
    apply returns_ret. by rewrite Hk. }
  apply returns_buf; [by apply serves_message|]. intros _. eapply returns_bind; [apply returns_read|].
  intros [hd|e]; cbv beta iota zeta; [|case_decide; [by apply returns_ret|apply returns_fail]].
  case_decide as Hsz; [|apply Hd; simpl; lia]. apply returns_buf.
  - apply serves_message; [done|]. split; [lia|apply size_bounded].
  - intros _. eapply returns_bind; [apply returns_read|]. intros [b|e]; cbv beta iota; [apply Hd; simpl; lia|apply returns_fail].
Qed.

(** A node that answers every request, with an answer that fits a frame. *)
Definition answers : Prop :=
  (∀ m h, ∃ h', h_ProcessBatchMessage m h = Ret h') ∧
  (∀ m h, ∃ h' res, h_ProcessSnapshotMessage m h = Ret (h', res) ∧ answerable L (SnapshotMsgResType, wire res)) ∧
  (∀ m h, ∃ h' res, h_GetClusterPeer m h = Ret (h', res) ∧ answerable L (ClusterPeersResType, wire res)) ∧
  (∀ m h, ∃ h' res, h_PublishApplicationService m h = Ret (h', res) ∧ answerable L (PubAppServiceResType, wire res)).

Lemma returns_node {A} (k : A → nat) (f : Buffers M → H → go (Buffers M * H * result A)) :
  (∀ b h, ∃ b' h' r, f b h = Ret (b', h', r) ∧ match r with Ok a => k a = 0%nat | Err _ => True end) → returns k (with_node f).
Proof.
  intros Hf p s Hp. destruct (Hf (se_buf s) (se_raft s)) as (b & h & r & E & Hk). unfold with_node. rewrite E. cbn [mbind go_bind].
  do 3 eexists. split_and!; [done..|]. destruct r; [rewrite Hk; unfold pending; simpl; lia|done].
Qed.

Lemma returns_answer {T} `{WireMessage T} t (f : Buffers M → H → go (Buffers M * H * result T)) :
  (∀ b h, ∃ b' h' r, f b h = Ret (b', h', r) ∧ match r with Ok res => answerable L (t, wire res) | Err _ => True end) →
  returns (fun _ => 0%nat) (res <- with_node f ;; respond t (wire res))%go.
Proof.
  intros Hf p s Hp. destruct (Hf (se_buf s) (se_raft s)) as (b & h & r & E & Hr). unfold Meth.bind, with_node. rewrite E. cbn [mbind go_bind].
  destruct r as [res|e]; [|by do 3 eexists].
  assert (returns (fun _ => 0%nat) (respond t (wire res))) as Hresp.
  { eapply returns_bind; [by apply (returns_deadline (fun _ => 0%nat))|]. intros []. by apply returns_send. }
  destruct (Hresp p (with_state b h s) Hp) as (p' & s' & r & E' & Hp' & Hk). unfold with_state in E'. by exists p', s', r.
Qed.

Lemma returns_handler : answers → ∀ t b, returns (fun _ => 0%nat) (messageHandler t b).
Proof.
  intros (Hb & Hs & Hp & Hu) t buf. unfold messageHandler. repeat case_decide; [|apply returns_answer..|apply returns_fail].
  - apply returns_node. intros b h. unfold handle_batch. destruct (unmarshal_onto _ _) as [m [e|]]; [by do 3 eexists|].
    destruct (Hb m h) as [h' ->]. by do 3 eexists.
  - intros b h. unfold handle_snapshot. destruct (unmarshal_onto _ _) as [m [e|]]; [by do 3 eexists|].
    destruct (Hs m h) as (h' & res & -> & Hr). by do 3 eexists.
  - intros b h. unfold handle_peers. destruct (unmarshal_onto _ _) as [m [e|]]; [by do 3 eexists|].
    destruct (Hp m h) as (h' & res & -> & Hr). by do 3 eexists.
  - intros b h. unfold handle_publish. destruct (unmarshal_onto _ _) as [m [e|]]; [by do 3 eexists|].
    destruct (Hu m h) as (h' & res & -> & Hr). by do 3 eexists.
Qed.

(** A round returns; when another follows, it took a frame. *)
Lemma returns_round : answers → returns (fun _ => HeaderSize) (on_conn SetDeadline ;; ReadFrame messageHandler)%go.
Proof using HL.
  intros Ha. eapply returns_bind; [by apply (returns_deadline (fun _ => 0%nat))|]. intros [].
  eapply returns_bind; [by apply (returns_deadline (fun _ => 0%nat))|]. intros [].
  eapply returns_bind; [apply returns_frame, (returns_handler Ha)|]. intros []; [apply returns_fail|apply returns_ret; simpl; lia].
Qed.

Lemma serve_returns fuel rounds p s : answers → pool_ok L p → (length (pending s) < fuel)%nat →
  ∃ p' s' e, serve fuel rounds (p, s) = Ret ((p', s'), Err e).
Proof using HL.
  intros Ha. revert rounds p s. induction fuel as [|fuel IH]; intros rounds p s Hp Hf; [lia|].
  assert (∃ p' s' e, (on_conn SetDeadline ;; ReadFrame messageHandler ;; serve fuel (pred <$> rounds))%go (p, s) = Ret ((p', s'), Err e)) as Hs.
  { destruct (returns_round Ha p s Hp) as (p1 & s1 & r & E & Hp1 & Hk). unfold Meth.bind in E |- *.
    destruct (on_conn SetDeadline (p, s)) as [[[p0 s0] [[]|e]]|]; [|simplify_eq; by do 3 eexists|done]. rewrite E.
    destruct r as [[]|e]; [|by do 3 eexists]. apply IH; [done|]. unfold HeaderSize in Hk. lia. }
  cbn [serve]. destruct rounds as [[|n]|]; [by do 3 eexists|exact Hs..].
Qed.

(** C36: whatever bytes arrive, and whatever happens to the connection, the session ends: it returns an
    error, and the connection is closed. *)
Theorem session_terminates p s rounds : answers → pool_ok L p →
  ∃ p' s' e, start rounds (p, s) = Ret ((p', s'), Err e) ∧ closed (se_conn s') = true.
Proof using HL.
  intros Ha Hp. unfold start. cbn [snd].
  destruct (serve_returns (S (length (rx (se_conn s)))) rounds p s Ha Hp) as (p' & s' & e & ->); [unfold pending; simpl; lia|]. by do 3 eexists.
Qed.
End Ends.
End Session.
Arguments request : clear implicits.
