(* ===== verification/TcpClient.v ===== *)
(** * The client of the raft transport: [pkg/transport/protocol/tcp/raft_msg_client.go]

    The client borrows a connection of the pool for every call, writes a request frame, reads
    the answer and gives the connection back, or has it removed after an error.  What is at the
    other end of a connection is a class: it accepts connections and answers the bytes written
    to them; the sessions of [TcpServer.v] are an instance.  Over healthy connections a call
    returns what the remote node answered, so that a snapshot sent through the client arrives as
    if its messages were handed to the node directly.  A request that could not be written is
    reported as accepted. *)

From S2P Require Import Prelude Raftpb Allocator Streams SnapshotFs SnapshotIo SnapshotTransfer Cluster Frames ConnPool TcpServer.

(** ** Connections and what is behind them *)

(** The other end: a connection it accepts or refuses, what it sends back when bytes were
    written to a connection and the error that follows them, and the time. *)
Class Remote (R : Type) := {
  accept : string → nat → meth R Conn;
  exchange : nat → list byte → R → go (R * (list byte * error));
  hang_up : nat → R → R;
  clock : R → Z
}.

Record Links (R : Type) := { lk_conns : gmap nat Conn; lk_remote : R }.
Arguments lk_conns {R}. Arguments lk_remote {R}.

(** [FrameConnection]s as the pool dials and closes them. *)
#[export] Instance links_dialer {R} `{Remote R} : Dialer (Links R) := {|
  Dial a w :=
    let c := fresh (dom (lk_conns w)) in
    '(r, res) ← accept a c (lk_remote w);
    match res with
    | Err e => Ret ({| lk_conns := lk_conns w; lk_remote := r |}, Err e)
    | Ok conn => Ret ({| lk_conns := <[c := conn]> (lk_conns w); lk_remote := r |}, Ok c)
    end;
  close_conn c w := {| lk_conns := delete c (lk_conns w); lk_remote := hang_up c (lk_remote w) |}
|}.

Record ClientState (R : Type) := { cl_buffers : ByteSlicePool; cl_pool : ConnectionPool; cl_links : Links R }.
Arguments cl_buffers {R}. Arguments cl_pool {R}. Arguments cl_links {R}.

(** The local variables of a call that reads an answer. *)
Record Reading (T : Type) := { rd_conn : Conn; rd_res : T }.
Arguments rd_conn {T}. Arguments rd_res {T}.
#[export] Instance reading_conn {T} : HasConn (Reading T).
Proof. refine {| the_conn := rd_conn; put_conn c s := {| rd_conn := c; rd_res := rd_res s |} |}; [done..|by intros []]. Defined.

Section Client.
Context {R : Type} `{MapRange, Remote R}.
(** [TransportResolver.ResolvePeerAddress]. *)
Context (resolve : Z → result string).
Open Scope go_scope.

Definition in_pool {A} (m : Z → meth (ConnectionPool * Links R) A) : meth (ClientState R) A := fun s =>
  '((p, l), r) ← m (clock (lk_remote (cl_links s))) (cl_pool s, cl_links s);
  Ret ({| cl_buffers := cl_buffers s; cl_pool := p; cl_links := l |}, r).

Definition getConnection (peerID : Z) : meth (ClientState R) nat :=
  match resolve peerID with
  | Err _ => Meth.fail (Errorf "failed to resolve peer address: %w")
  | Ok addr =>
      c <- outcome (in_pool (fun now => Get now addr)) ;;
      match c with
      | Err _ => Meth.fail (Errorf "failed to get connection from pool: %w")
      | Ok c => Meth.ret c
      end
  end.

(** [returnPool]: the errors of [Put] and [Remove] are dropped. *)
Definition returnPool (c : nat) (err : option error) : meth (ClientState R) unit :=
  outcome (in_pool (fun now => match err with None => Put now c | Some _ => Remove c end)) ;; Meth.ret tt.

(** A method of connection [c]; a connection closed meanwhile returns an error. *)
Definition set_link (c : nat) (conn : Conn) (r : R) (s : ClientState R) (p : ByteSlicePool) : ClientState R :=
  {| cl_buffers := p; cl_pool := cl_pool s; cl_links := {| lk_conns := <[c := conn]> (lk_conns (cl_links s)); lk_remote := r |} |}.

Definition send_on (c : nat) (msgType : Z) (body : list byte) : meth (ClientState R) unit := fun s =>
  match lk_conns (cl_links s) !! c with
  | None => Ret (s, Err net_ErrClosed)
  | Some conn =>
      '((p, conn), r) ← SendFrame msgType body (cl_buffers s, conn);
      Ret (set_link c conn (lk_remote (cl_links s)) s p, r)
  end.

(** The callback that decodes the answer. *)
Definition expect {T} `{WireMessage T} (resType : Z) : MsgHandler (Reading T) := fun msgType msgBuf '(p, s) =>
  if decide (msgType ≠ resType) then Ret ((p, s), Err (Errorf "unexpected message type: %v"))
  else let '(res, e) := unmarshal_onto msgBuf (rd_res s) in
       Ret ((p, {| rd_conn := rd_conn s; rd_res := res |}), match e with None => Ok tt | Some e => Err e end).

(** [c.ReadFrame]: what the other end sent in answer to all that was written arrives first.
    The answer is returned with the error, as the callers have it in a variable. *)
Definition recv_on {T} `{WireMessage T} (c : nat) (resType : Z) : meth (ClientState R) (T * option error) := fun s =>
  match lk_conns (cl_links s) !! c with
  | None => Ret (s, Ok (zero, Some net_ErrClosed))
  | Some conn =>
      '(r, (answer, e)) ← exchange c (tx conn) (lk_remote (cl_links s));
      let conn := {| rx := rx conn ++ answer; rx_end := e; tx := []; tx_room := tx_room conn; closed := closed conn |} in
      '((p, st), res) ← ReadFrame (expect resType) (cl_buffers s, {| rd_conn := conn; rd_res := zero |});
      Ret (set_link c (rd_conn st) r s p, Ok (rd_res st, match res with Ok _ => None | Err e => Some e end))
  end.

Definition SendBatchMessage {M} `{!WireMessage (BatchMessage M)} (msg_To : M → Z) (batchMsg : BatchMessage M) : meth (ClientState R) unit :=
  match Messages batchMsg with
  | [] => Meth.fail (Errorf "batch message is empty")
  | m :: _ =>
      c <- getConnection (msg_To m) ;;
      sent <- outcome (send_on c BatchMsgType (wire batchMsg)) ;;
      match sent with
      | Err e => returnPool c (Some e) ;; Meth.fail e
      | Ok _ => returnPool c None
      end
  end.

(** The body the three calls below share: the answer and the error they return.  They differ in
    what they return when the request could not be written, [unsent]. *)
Definition call {T} `{WireMessage T} (peerID reqType resType : Z) (body : list byte) (unsent : error → option error)
    : meth (ClientState R) (T * option error) :=
  got <- outcome (getConnection peerID) ;;
  match got with
  | Err e => Meth.ret (zero, Some e)
  | Ok c =>
      sent <- outcome (send_on c reqType body) ;;
      match sent with
      | Err e => returnPool c (Some e) ;; Meth.ret (zero, unsent e)
      | Ok _ => res <- recv_on c resType ;; returnPool c res.2 ;; Meth.ret res
      end
  end.

Context `{Overlay SnapshotMetadata, Overlay SnapshotChunkMessage, Overlay RaftMessage}.
Context `{!WireMessage SnapshotMessage, !WireMessage SnapshotMessageResponse,
          !WireMessage GetClusterPeersRequest, !WireMessage GetClusterPeersResponse,
          !WireMessage PublishApplicationServiceRequest, !WireMessage PublishApplicationServiceResponse}.

(** [return res, nil] after a failed write. *)
Definition SendSnapshotMessage_tcp (snapMsg : SnapshotMessage) : meth (ClientState R) (SnapshotMessageResponse * option error) :=
  call (To snapMsg) SnapshotMsgReqType SnapshotMsgResType (wire snapMsg) (fun _ => None).

Definition GetClusterPeers (request : GetClusterPeersRequest) : meth (ClientState R) (GetClusterPeersResponse * option error) :=
  call (gp_To request) ClusterPeersReqType ClusterPeersResType (wire request) Some.

Definition PublishApplicationService (request : PublishApplicationServiceRequest)
    : meth (ClientState R) (PublishApplicationServiceResponse * option error) :=
  call (pa_To request) PubAppServiceReqType PubAppServiceResType (wire request) Some.

(** The client as the peer uses it: the answer, unless there was an error. *)
Definition tcp_link (stopped_ : ClientState R → bool) (wait : meth (ClientState R) unit) : PeerLink (ClientState R) := {|
  SendSnapshotMessage m := (res <- SendSnapshotMessage_tcp m ;; match res.2 with Some e => Meth.fail e | None => Meth.ret res.1 end);
  stopped := stopped_; limiter_Wait := wait; breaker_Success s := s
|}.
End Client.

(** ** What is at the other end: a node and its sessions *)

(** [sv_dial] is what a dialler gets of the network: an error, or a connection in some state. *)
Record Served (H M : Type) := { sv_raft : H; sv_buffers : ByteSlicePool; sv_sessions : gmap nat (Buffers M); sv_dial : result Conn; sv_clock : Z }.
Arguments sv_dial {H M}. Arguments sv_raft {H M}. Arguments sv_buffers {H M}. Arguments sv_sessions {H M}. Arguments sv_clock {H M}.

(** A read that finds no more bytes for now. *)
Definition blocked : error := Sentinel "blocked".
Definition is_blocked (r : result unit) : bool := match r with Err e => bool_decide (e = blocked) | Ok _ => false end.
Definition timeout : error := Errorf "i/o timeout".
Definition fresh_conn : Conn := {| rx := []; rx_end := timeout; tx := []; tx_room := None; closed := false |}.

Section Served.
Context {H M : Type} `{RaftMessageHandler H M}.
Context `{Overlay SnapshotMetadata, Overlay SnapshotChunkMessage, Overlay RaftMessage}.
Context `{!WireMessage (BatchMessage M), !WireMessage SnapshotMessage, !WireMessage SnapshotMessageResponse,
          !WireMessage GetClusterPeersRequest, !WireMessage GetClusterPeersResponse,
          !WireMessage PublishApplicationServiceRequest, !WireMessage PublishApplicationServiceResponse}.

Definition put_session (c : nat) (b : Buffers M) (v : Served H M) : Served H M :=
  {| sv_raft := sv_raft v; sv_buffers := sv_buffers v; sv_sessions := <[c := b]> (sv_sessions v); sv_dial := sv_dial v; sv_clock := sv_clock v |}.
Definition end_session (c : nat) (v : Served H M) : Served H M :=
  {| sv_raft := sv_raft v; sv_buffers := sv_buffers v; sv_sessions := delete c (sv_sessions v); sv_dial := sv_dial v; sv_clock := sv_clock v |}.

(** The session handles what was written to its connection until it would block; a session
    that ends before closes the connection. *)
Definition run_session (c : nat) (bytes : list byte) (v : Served H M) : go (Served H M * (list byte * error)) :=
  match sv_sessions v !! c with
  | None => Ret (v, ([], io_EOF))
  | Some b =>
      let s := {| se_conn := {| rx := bytes; rx_end := blocked; tx := []; tx_room := None; closed := false |}; se_buf := b; se_raft := sv_raft v |} in
      '((p, s), r) ← serve (S (length bytes)) None (sv_buffers v, s);
      let v := {| sv_raft := se_raft s; sv_buffers := p; sv_sessions := sv_sessions v; sv_dial := sv_dial v; sv_clock := sv_clock v |} in
      Ret (if is_blocked r then put_session c (se_buf s) v else end_session c v,
           (tx (se_conn s), if is_blocked r then timeout else io_EOF))
  end.

#[export] Instance served_remote : Remote (Served H M) := {|
  accept _ c v :=
    match sv_dial v with
    | Ok conn => Ret (put_session c (se_buf (newSession conn (sv_raft v))) v, Ok conn)
    | Err e => Ret (v, Err e)
    end;
  exchange := run_session;
  hang_up := end_session;
  clock := sv_clock
|}.
End Served.
