(* ===== verification/TcpTransfer.v ===== *)
(** * Calls over connections, and a snapshot sent through them

    [TcpClient.v] run against the sessions of [TcpServer.v]: a call through a healthy connection
    has the effect and the answer of the node's handler, and the loop that sends a snapshot does
    over such connections exactly what it does when it hands its messages to the node itself.
    Over connections that take no bytes the same loop reports that the snapshot was sent. *)

From S2P Require Import Prelude Raftpb Allocator Streams SnapshotFs SnapshotIo SnapshotTransfer SnapshotInstall Cluster Frames ConnPool TcpServer TcpClient.

(** ** Two links that do the same *)

(** Whatever the first method achieves, the second achieves from a related state. *)
Section Simulation.
Context {T1 T2 : Type} (Rel : T1 → T2 → Prop).

Definition simulates {A} (m1 : meth T1 A) (m2 : meth T2 A) : Prop :=
  ∀ t1 t2 t1' a, Rel t1 t2 → m1 t1 = Ret (t1', Ok a) → ∃ t2', m2 t2 = Ret (t2', Ok a) ∧ Rel t1' t2'.

Lemma sim_ret {A} (a : A) : simulates (Meth.ret a) (Meth.ret a).
Proof. intros t1 t2 t1' a' Hr [= <- <-]. by eexists. Qed.
Lemma sim_fail {A} e m : simulates (@Meth.fail T1 A e) m.
Proof. by intros t1 t2 t1' a _ ?. Qed.
Lemma sim_panic {A} s m : simulates (@Meth.panic T1 A s) m.
Proof. by intros t1 t2 t1' a _ ?. Qed.
Lemma sim_bind {A B} m1 m2 (k1 : A → meth T1 B) k2 : simulates m1 m2 → (∀ a, simulates (k1 a) (k2 a)) → simulates (Meth.bind m1 k1) (Meth.bind m2 k2).
Proof.
  intros Hm Hk t1 t2 t1' b Hr. unfold Meth.bind. destruct (m1 t1) as [[u1 [a|e]]|] eqn:E; [|done..].
  destruct (Hm _ _ _ _ Hr E) as (u2 & -> & Hu). by apply Hk.
Qed.
Lemma sim_each {A} (b1 : A → meth T1 unit) b2 l : (∀ a, a ∈ l → simulates (b1 a) (b2 a)) → simulates (for_each b1 l) (for_each b2 l).
Proof.
  induction l as [|a l IH]; intros Hl; simpl; [apply sim_ret|]. apply sim_bind; [apply Hl; by left|]. intros _. apply IH. intros. apply Hl. by right.
Qed.

Context (link1 : PeerLink T1) (link2 : PeerLink T2) `{MapRange}.
Context (sim_send : ∀ m, simulates (send_checked (H := link1) m) (send_checked (H := link2) m)).
Context (sim_stopped : ∀ t1 t2, Rel t1 t2 → stopped (PeerLink := link2) t2 = stopped (PeerLink := link1) t1).
Context (sim_wait : simulates (limiter_Wait (PeerLink := link1)) (limiter_Wait (PeerLink := link2))).
Context (sim_breaker : ∀ t1 t2, Rel t1 t2 → Rel (breaker_Success (PeerLink := link1) t1) (breaker_Success (PeerLink := link2) t2)).

Lemma sim_unless_stopped e m1 m2 : simulates m1 m2 →
  simulates (Meth.bind Meth.get (fun t => if stopped (PeerLink := link1) t then Meth.fail e else m1))
            (Meth.bind Meth.get (fun t => if stopped (PeerLink := link2) t then @Meth.fail T2 unit e else m2)).
Proof using sim_stopped.
  intros Hm t1 t2 t1' a Hr. unfold Meth.bind, Meth.get. rewrite (sim_stopped t1 t2 Hr). destruct (stopped t1); [done|]. by apply Hm.
Qed.
Lemma sim_success : simulates (Meth.modify (breaker_Success (PeerLink := link1))) (Meth.modify (breaker_Success (PeerLink := link2))).
Proof using sim_breaker. intros t1 t2 t1' a Hr [= <- <-]. eexists. split; [done|]. by apply sim_breaker. Qed.

Lemma sim_sendSnapshotMsg m : simulates (sendSnapshotMsg (H := link1) m) (sendSnapshotMsg (H := link2) m).
Proof using sim_send sim_stopped. apply sim_unless_stopped, sim_send. Qed.
Lemma sim_send_chunk m : simulates (send_chunk (H := link1) m) (send_chunk (H := link2) m).
Proof using sim_send sim_stopped sim_wait sim_breaker.
  apply sim_unless_stopped, sim_bind; [done|]. intros _. apply sim_bind; [apply sim_send|]. intros _. apply sim_success.
Qed.

Lemma sim_chunks fuel chunkSize fileSize written reader m :
  simulates (sendSnapshotMsgWithChunk (H := link1) fuel chunkSize fileSize written reader m)
            (sendSnapshotMsgWithChunk (H := link2) fuel chunkSize fileSize written reader m).
Proof using sim_send sim_stopped sim_wait sim_breaker.
  revert written reader m. induction fuel as [|fuel IH]; intros written reader m; cbn [sendSnapshotMsgWithChunk]; [apply sim_panic|].
  repeat case_decide; first [apply IH|apply sim_fail|apply sim_ret|apply sim_bind; [apply sim_send_chunk|intros _]];
    first [apply IH|apply sim_fail|apply sim_ret].
Qed.

Lemma sim_transfer clusterID chunkSize snapMsg rd d :
  simulates (sendSnapshotMessageLoop (H := link1) clusterID chunkSize snapMsg rd d)
            (sendSnapshotMessageLoop (H := link2) clusterID chunkSize snapMsg rd d).
Proof using sim_send sim_stopped sim_wait sim_breaker.
  apply sim_bind; [apply sim_sendSnapshotMsg|]. intros _. apply sim_bind; [apply sim_success|]. intros _.
  apply sim_bind; [|intros _; apply sim_bind; [apply sim_sendSnapshotMsg|intros _; apply sim_success]].
  apply sim_each. intros [k f] _. case_match; [apply sim_ret|]. unfold visit_file.
  destruct (SnapshotFileName _ _ _); [|apply sim_fail]. destruct (FileRead _ _); [|apply sim_fail]. apply sim_chunks.
Qed.
End Simulation.

(** ** The world of the pool *)

(** Accepting a connection, or refusing it, is no reason to panic. *)
Class RemoteTotal (R : Type) `{Remote R} := accept_total : ∀ a c r, ∃ r' res, accept a c r = Ret (r', res).

#[export] Instance links_laws {R} `{RemoteTotal R} : DialerLaws (Links R).
Proof.
  refine {| opened w := dom (lk_conns w) |}.
  - intros a w. cbn. destruct (accept_total a (fresh (dom (lk_conns w))) (lk_remote w)) as (r' & [conn|e] & ->); cbn; do 2 eexists; (split; [done|]); [|done].
    split; [apply is_fresh|]. cbn. by rewrite dom_insert_L.
  - intros c w. cbn. by rewrite dom_delete_L.
Defined.

#[export] Instance served_total {H M} `{RaftMessageHandler H M, Overlay SnapshotMetadata, Overlay SnapshotChunkMessage, Overlay RaftMessage,
    !WireMessage (BatchMessage M), !WireMessage SnapshotMessage, !WireMessage SnapshotMessageResponse,
    !WireMessage GetClusterPeersRequest, !WireMessage GetClusterPeersResponse,
    !WireMessage PublishApplicationServiceRequest, !WireMessage PublishApplicationServiceResponse} : RemoteTotal (Served H M).
Proof. intros a c r. cbn. destruct (sv_dial r); by do 2 eexists. Qed.

Section Linked.
Context {H M : Type} `{MapRange, RaftMessageHandler H M}.
Context `{Overlay SnapshotMetadata, Overlay SnapshotChunkMessage, Overlay RaftMessage}.
Context `{!WireMessage (BatchMessage M), !WireMessage SnapshotMessage, !WireMessage SnapshotMessageResponse,
          !WireMessage GetClusterPeersRequest, !WireMessage GetClusterPeersResponse,
          !WireMessage PublishApplicationServiceRequest, !WireMessage PublishApplicationServiceResponse}.
Context (L : list Z) (HL : serves_messages L) (cluster group : Z) (resolve : Z → result string).

(** A connection with nothing under way. *)
Definition quiet (conn : Conn) : Prop := rx conn = [] ∧ tx conn = [] ∧ healthy conn.

(** The client and the node between two calls: no connection is lent, nothing is under way on
    any of them, they are healthy, as those are that a dialler gets, and the node has a session for
    each. *)
Record linked (held : list nat) (s : ClientState (Served H M)) (h : H) : Prop := {
  ln_pool : lent (cl_pool s) (cl_links s) held;
  ln_max : 1 <= MaxConnectionsPerHost (cl_pool s);
  ln_conns : map_Forall (fun c conn => quiet conn ∧ ∃ b, sv_sessions (lk_remote (cl_links s)) !! c = Some b ∧ between cluster group b)
               (lk_conns (cl_links s));
  ln_client : pool_ok L (cl_buffers s);
  ln_server : pool_ok L (sv_buffers (lk_remote (cl_links s)));
  ln_dial : ∃ conn, sv_dial (lk_remote (cl_links s)) = Ok conn ∧ quiet conn;
  ln_raft : sv_raft (lk_remote (cl_links s)) = h
}.

Lemma new_between c (h : H) : between cluster group (se_buf (newSession (M := M) c h)).
Proof. split; cbn; (split; [by left|]); first [done|by left]. Qed.

(** A connection is there for the asking. *)
Lemma getConnection_linked s h peer addr : resolve peer = Ok addr → linked [] s h →
  ∃ s' c, getConnection resolve peer s = Ret (s', Ok c) ∧ linked [c] s' h.
Proof.
  intros Ha [Hl Hmax Hq Hcl Hsv (nc & Hnc & Hnq) Hr]. unfold getConnection. rewrite Ha. unfold Meth.bind, outcome, in_pool.
  destruct (Get_lends (clock (lk_remote (cl_links s))) addr _ _ _ Hl) as (p' & w' & r & E & Hm & Hr'). rewrite E. cbn [mbind go_bind].
  destruct (Get_none_lent _ _ _ _ _ _ _ Hl Hmax E) as [[-> [c ->]]|Hd].
  - do 2 eexists. split; [done|]. split; simpl; rewrite ?Hm; try done. by exists nc.
  - cbn in Hd. rewrite Hnc in Hd. cbn in Hd. simplify_eq. do 2 eexists. split; [done|]. split; cbn; rewrite ?Hm; try done; [|by exists nc].
    apply map_Forall_insert_2; [split; [done|]|].
    + eexists. rewrite lookup_insert_eq. split; [done|]. apply (new_between nc (sv_raft (lk_remote (cl_links s)))).
    + intros c conn Hc. specialize (Hq c conn Hc) as [Hqc (b & Hb & Hbt)]. split; [done|]. exists b. split; [|done].
      rewrite lookup_insert_ne; [done|]. intros <-. apply (is_fresh (dom (lk_conns (cl_links s)))). by apply elem_of_dom_2 in Hc.
Qed.

Lemma returnPool_linked s h c : linked [c] s h → ∃ s', returnPool c None s = Ret (s', Ok tt) ∧ linked [] s' h.
Proof.
  intros [Hl Hmax Hq Hcl Hsv Hdl Hr]. unfold returnPool, Meth.bind, outcome, in_pool.
  destruct (Put_back (clock (lk_remote (cl_links s))) c _ _ _ Hl) as (p' & E & Hm & Hl'). rewrite E. cbn [mbind go_bind].
  eexists. split; [done|]. by split; simpl; rewrite ?Hm.
Qed.

(** A lent connection is one of the links. *)
Lemma linked_conn s h c held : linked (c :: held) s h →
  ∃ conn b, lk_conns (cl_links s) !! c = Some conn ∧ quiet conn ∧ sv_sessions (lk_remote (cl_links s)) !! c = Some b ∧ between cluster group b.
Proof.
  intros [Hl _ Hq _ _ _ _]. assert (c ∈ dom (lk_conns (cl_links s))) as [conn Hc]%elem_of_dom by (apply (lent_held_open _ _ _ c Hl); by left).
  destruct (Hq c conn Hc) as [Hqc (b & Hb & Hbt)]. by exists conn, b.
Qed.

(** The session of a connection handles one request. *)
Lemma run_session_one c r v b h out :
  sv_sessions v !! c = Some b → pool_ok L (sv_buffers v) → Z.of_nat (length (request_frame r).2) <= MaxMessageSize →
  handle r b (sv_raft v) = Ret (after r b, h, out) → Forall (answerable L) out →
  ∃ p, run_session c (bytes_of (request_frame r)) v =
    Ret ({| sv_raft := h; sv_buffers := p; sv_sessions := <[c := after r b]> (sv_sessions v); sv_dial := sv_dial v; sv_clock := sv_clock v |}, (out ≫= bytes_of, timeout)) ∧ pool_ok L p.
Proof using HL.
  intros Hb Hp Hr Hh Hout. unfold run_session. rewrite Hb. set (bytes := bytes_of (request_frame r)).
  set (s0 := {| se_conn := _; se_buf := b; se_raft := sv_raft v |}).
  assert (whole (length bytes) [r] = [r]) as Hw by (cbn [whole]; by rewrite decide_True).
  destruct (serve_whole L HL [r] (S (length bytes)) (length bytes) s0 (after r b) h out) with (p := sv_buffers v) as (p & E & Hp'); try done.
  - by constructor.
  - cbn [mbind list_bind]. rewrite app_nil_r. change ((bytes_of ∘ request_frame) r) with bytes. by rewrite firstn_all.
  - rewrite Hw. cbn [handle_all]. change (handle r (se_buf s0) (se_raft s0)) with (handle r b (sv_raft v)). rewrite Hh. cbn [mbind go_bind]. by rewrite app_nil_r.
  - rewrite Hw. unfold bytes, bytes_of. rewrite length_frame. simpl. lia.
  - exists p. split; [|done]. rewrite E. done.
Qed.

(** Reading one answer. *)
Lemma read_answer {T} `{WireMessage T} resType (res : T) conn : closed conn = false → 0 <= resType < 256 →
  Z.of_nat (length (wire res)) <= MaxMessageSize → rx conn = frame resType (wire res) →
  runs L (ReadFrame (expect resType)) {| rd_conn := conn; rd_res := zero |} {| rd_conn := set_rx [] conn; rd_res := res |} (Ok tt).
Proof using HL.
  intros Hc Ht Hs Hrx. eapply runs_bind; [by apply runs_deadline|].
  eapply (runs_bind L _ _ _ _ _ false); [|apply runs_ret].
  eapply (read_frame L HL _ resType (wire res) [] _ _ (Ok tt)); [done..| |].
  - unfold pending. cbn. by rewrite app_nil_r.
  - intros p Hp. exists p. unfold expect. rewrite Z.mod_small, decide_False by (done || lia). rewrite unmarshal_wire. cbn. by rewrite over_zero.
Qed.

Section Call.
Context {T : Type} `{WireMessage T} (r : request M) (peer : Z) (resType : Z) (res : T) (h' : H).
Context (sized : answerable L (request_frame r)) (fits : answerable L (resType, wire res)) (type_ok : 0 <= resType < 256).

(** The request and the answer over a lent connection. *)
Lemma exchange_linked s h c :
  linked [c] s h → proper cluster group r → (∀ b, between cluster group b → handle r b h = Ret (after r b, h', [(resType, wire res)])) →
  ∃ s1, send_on c (request_frame r).1 (request_frame r).2 s = Ret (s1, Ok tt) ∧
    ∃ s', recv_on c resType s1 = Ret (s', Ok (res, None)) ∧ linked [c] s' h'.
Proof using HL sized fits type_ok.
  intros Hl Hpr Hh. destruct (linked_conn _ _ _ _ Hl) as (conn & b & Hc & (Hrx & Htx & Hcl & Hroom) & Hb & Hbt).
  destruct Hl as [Hlp Hmax Hq Hcb Hsb Hdl Hraft]. destruct sized as [Hsz Hsv]. destruct fits as [Hfz Hfv].
  destruct (@send_frame L Conn conn_conn (request_frame r).1 (request_frame r).2 conn (conj Hcl Hroom) Hsz Hsv _ Hcb) as (p1 & E1 & Hp1).
  unfold send_on. rewrite Hc, E1. cbn [mbind go_bind]. eexists. split; [done|].
  unfold recv_on. cbn [set_link cl_links lk_conns lk_remote]. rewrite lookup_insert_eq. unfold with_sent. cbn [put_conn conn_conn the_conn set_tx tx rx closed tx_room].
  rewrite Htx, Hrx. cbn [app]. fold (bytes_of (request_frame r)). cbn [exchange served_remote].
  destruct (run_session_one c r (lk_remote (cl_links s)) b h' [(resType, wire res)]) as (p2 & E2 & Hp2); try done.
  { rewrite Hraft. by apply Hh. } { by constructor. }
  rewrite E2. cbn [mbind go_bind list_bind]. rewrite app_nil_r.
  set (conn2 := {| rx := _ |}). destruct (read_answer resType res conn2 Hcl type_ok Hfz eq_refl p1 Hp1) as (p3 & E3 & Hp3).
  change (cl_buffers (set_link c _ _ s p1)) with p1. rewrite E3. cbn [mbind go_bind]. eexists. split; [reflexivity|].
  pose proof (after_between cluster group r b Hbt Hpr) as Hbt'. split; cbn; try done.
  - eapply lent_opened; [|exact Hlp]. cbn. apply elem_of_dom_2 in Hc. by rewrite !dom_insert_L, !subseteq_union_1_L by (rewrite ?subseteq_union_1_L; by apply singleton_subseteq_l).
  - rewrite insert_insert_eq. apply map_Forall_insert_2; [split; [by split_and!|exists (after r b); by rewrite lookup_insert_eq]|].
    intros d conn' Hd. destruct (Hq d conn' Hd) as [Hqd (b' & Hb' & Hbt'')]. split; [done|].
    destruct (decide (c = d)) as [<-|Hne]; [exists (after r b); by rewrite lookup_insert_eq|exists b'; by rewrite lookup_insert_ne].
Qed.

(** A call has the effect and the answer of the node. *)
Lemma call_linked s h addr unsent : resolve peer = Ok addr →
  linked [] s h → proper cluster group r → (∀ b, between cluster group b → handle r b h = Ret (after r b, h', [(resType, wire res)])) →
  ∃ s', call resolve peer (request_frame r).1 resType (request_frame r).2 unsent s = Ret (s', Ok (res, None)) ∧ linked [] s' h'.
Proof using HL sized fits type_ok.
  intros Ha Hl Hpr Hh. destruct (getConnection_linked s h peer addr Ha Hl) as (s1 & c & E1 & H1').
  destruct (exchange_linked s1 h c H1' Hpr Hh) as (s2 & E2 & s3 & E3 & H3').
  destruct (returnPool_linked s3 h' c H3') as (s4 & E4 & H4'). exists s4. split; [|done].
  unfold call, Meth.bind, outcome. rewrite E1. cbn [mbind go_bind]. rewrite E2. cbn [mbind go_bind]. rewrite E3. cbn [snd]. by rewrite E4.
Qed.
End Call.

(** The client's link, of a peer that is not stopped and not limited. *)
Definition over_tcp : PeerLink (ClientState (Served H M)) := tcp_link resolve (fun _ => false) (Meth.ret tt).

Lemma send_linked m s h h' res addr :
  resolve (To m) = Ok addr → linked [] s h → proper_snapshot cluster m → answerable L (SnapshotMsgReqType, wire m) →
  answerable L (SnapshotMsgResType, wire res) → h_ProcessSnapshotMessage m h = Ret (h', res) →
  ∃ s', SendSnapshotMessage (PeerLink := over_tcp) m s = Ret (s', Ok res) ∧ linked [] s' h'.
Proof using HL.
  intros Ha Hl Hp Hm Hres Hh.
  destruct (call_linked (RSnapshot m) (To m) SnapshotMsgResType res h' Hm Hres ltac:(done) s h addr (fun _ => None)) as (s' & E & Hl'); try done.
  - intros b Hb. rewrite (handle_decoded cluster group) by done. cbn [decoded direct_call]. by rewrite Hh.
  - exists s'. split; [|done]. cbn [SendSnapshotMessage over_tcp tcp_link]. cbn [request_frame fst snd] in E. unfold Meth.bind, SendSnapshotMessage_tcp. by rewrite E.
Qed.
End Linked.

(** ** A snapshot sent through the client *)

(** The handlers of a node, those of snapshots being [ProcessSnapshotMessage]. *)
Definition storage_node `{Message SnapshotMetadata, MapRange} {M} (node : NodeId) (others : RaftMessageHandler Storage M) : RaftMessageHandler Storage M := {|
  h_ProcessBatchMessage := h_ProcessBatchMessage;
  h_ProcessSnapshotMessage m s :=
    '(s, r) ← ProcessSnapshotMessage node m s;
    Ret (s, match r with Ok res => res | Err e => failed "" e end);
  h_GetClusterPeer := h_GetClusterPeer;
  h_PublishApplicationService := h_PublishApplicationService
|}.

Lemma ProcessSnapshotMessage_success `{Message SnapshotMetadata, MapRange} node m s s' res :
  ProcessSnapshotMessage node m s = Ret (s', Ok res) → Status res = SUCCESS → res = success.
Proof.
  unfold ProcessSnapshotMessage, answer, Meth.ret. intros E Hs.
  repeat first [case_match|case_decide|progress simplify_eq/=|destruct (ProcessMetadataSnapshotMessage _ _) as [[? []]|]
    |destruct (ProcessChunkSnapshotMessage _ _) as [[? []]|]|destruct (ProcessFinishSnapshotMessage _ _) as [[? []]|]]; done.
Qed.

Section Transfer.
Context `{Message SnapshotMetadata, MapRange} {M : Type} (node : NodeId) (others : RaftMessageHandler Storage M).
Context `{Overlay SnapshotMetadata, Overlay SnapshotChunkMessage, Overlay RaftMessage}.
Context `{!WireMessage (BatchMessage M), !WireMessage SnapshotMessage, !WireMessage SnapshotMessageResponse,
          !WireMessage GetClusterPeersRequest, !WireMessage GetClusterPeersResponse,
          !WireMessage PublishApplicationServiceRequest, !WireMessage PublishApplicationServiceResponse}.
Context (L : list Z) (HL : serves_messages L) (group : Z) (resolve : Z → result string).
#[local] Instance the_node : RaftMessageHandler Storage M := storage_node node others.

(** A message that can be framed, of this cluster and to the node at [addr]. *)
Definition framed (m : SnapshotMessage) : bool :=
  bool_decide (ClusterID m = n_ClusterID node ∧ From m ≠ 0 ∧ To m ≠ 0 ∧ sm_Term m ≠ 0 ∧ sm_Index m ≠ 0 ∧ sm_Type m ≠ 0) &&
  bool_decide (Z.of_nat (length (wire m)) <= MaxMessageSize ∧ 0 < Z.of_nat HeaderSize + Z.of_nat (length (wire m)) ∧
               Exists (fun s => Z.of_nat HeaderSize + Z.of_nat (length (wire m)) <= s) L) &&
  match resolve (To m) with Ok _ => true | Err _ => false end.

(** The node as a link that takes only such messages. *)
Definition direct_framed : PeerLink Storage := {|
  SendSnapshotMessage m := if framed m then SendSnapshotMessage (PeerLink := direct node) m else Meth.fail (Errorf "does not fit a frame");
  stopped := stopped (PeerLink := direct node); limiter_Wait := limiter_Wait (PeerLink := direct node);
  breaker_Success := breaker_Success (PeerLink := direct node)
|}.

(** C22: a transfer that succeeds when its messages, each of a size that fits a frame, of this
    cluster and to an address that is known, are handed to the node succeeds through the client, its connections and the node's sessions, and leaves the
    node in the same state; every connection is back in the pool, with nothing under way.  The
    network answers every dialler, with connections that take and give all bytes. *)
Theorem snapshot_over_tcp clusterID cs snapMsg rd d st st' s :
  answerable L (SnapshotMsgResType, wire success) → linked L (n_ClusterID node) group [] s st →
  sendSnapshotMessageLoop (H := direct_framed) clusterID cs snapMsg rd d st = Ret (st', Ok tt) →
  ∃ s', sendSnapshotMessageLoop (H := over_tcp resolve) clusterID cs snapMsg rd d s = Ret (s', Ok tt) ∧ linked L (n_ClusterID node) group [] s' st'.
Proof using HL.
  intros Hok Hl. apply (sim_transfer (fun st s => linked L (n_ClusterID node) group [] s st) direct_framed (over_tcp resolve)); try done.
  - intros m t1 t2 t1' [] Hr. unfold send_checked at 1, Meth.bind. cbn [SendSnapshotMessage direct_framed direct]. destruct (framed m) eqn:Hf; [|done].
    apply andb_true_iff in Hf as [[Hp Hs]%andb_true_iff Ha]. apply bool_decide_eq_true in Hp, Hs. destruct (resolve (To m)) as [addr|] eqn:Haddr; [|done].
    destruct (ProcessSnapshotMessage node m t1) as [[u1 [res|e]]|] eqn:E; [|done..]. destruct (Status res) eqn:Es; [|done..]. intros [= ->].
    pose proof (ProcessSnapshotMessage_success _ _ _ _ _ E Es) as ->.
    destruct (send_linked L HL (n_ClusterID node) group resolve m t2 t1 t1' success addr) as (t2' & E2 & Hl2); try done.
    { cbn [h_ProcessSnapshotMessage the_node storage_node]. by rewrite E. }
    exists t2'. split; [|done]. unfold send_checked, Meth.bind. by rewrite E2.
  - apply sim_ret.
Qed.
End Transfer.

(** ** Connections that take no bytes *)

Section Mute.
Context {R X : Type} `{MapRange, RemoteTotal R} (state_of : R → X) (resolve : Z → result string) (L : list Z).
Context `{Overlay SnapshotMetadata, Overlay SnapshotChunkMessage, Overlay RaftMessage}.
Context `{!WireMessage SnapshotMessage, !WireMessage SnapshotMessageResponse}.

(** Less than a header can be written. *)
Definition mute (conn : Conn) : Prop := closed conn = false ∧ ∃ n, tx_room conn = Some n ∧ (n < HeaderSize)%nat.

(** The other end accepts connections and then does not read from them; neither changes what
    [state_of] looks at. *)
Context (accept_mute : ∀ a c r, ∃ r' conn, accept a c r = Ret (r', Ok conn) ∧ mute conn ∧ state_of r' = state_of r).
Context (hang_up_state : ∀ c r, state_of (hang_up c r) = state_of r).

Record muted (held : list nat) (s : ClientState R) (x : X) : Prop := {
  mu_pool : lent (cl_pool s) (cl_links s) held;
  mu_max : 1 <= MaxConnectionsPerHost (cl_pool s);
  mu_conns : map_Forall (fun _ conn => mute conn) (lk_conns (cl_links s));
  mu_buffers : pool_ok L (cl_buffers s);
  mu_state : state_of (lk_remote (cl_links s)) = x
}.

Lemma getConnection_muted s x peer addr : resolve peer = Ok addr → muted [] s x →
  ∃ s' c, getConnection resolve peer s = Ret (s', Ok c) ∧ muted [c] s' x.
Proof using accept_mute.
  intros Ha [Hl Hmax Hq Hcl Hr]. unfold getConnection. rewrite Ha. unfold Meth.bind, outcome, in_pool.
  destruct (Get_lends (clock (lk_remote (cl_links s))) addr _ _ _ Hl) as (p' & w' & r & E & Hm & Hr'). rewrite E. cbn [mbind go_bind].
  destruct (Get_none_lent _ _ _ _ _ _ _ Hl Hmax E) as [[-> [c ->]]|Hd].
  - do 2 eexists. split; [done|]. by split; simpl; rewrite ?Hm.
  - cbn in Hd. destruct (accept_mute addr (fresh (dom (lk_conns (cl_links s)))) (lk_remote (cl_links s))) as (r' & conn & Eacc & Hconn & Hst).
    rewrite Eacc in Hd. cbn in Hd. simplify_eq. do 2 eexists. split; [done|]. split; cbn; rewrite ?Hm, ?Hst; try done.
    by apply map_Forall_insert_2.
Qed.

(** Writing a frame fails, and the connection is removed. *)
Lemma send_muted s x c t body : muted [c] s x → answerable L (t, body) →
  ∃ s1 e, send_on c t body s = Ret (s1, Err e) ∧ ∃ s', returnPool c (Some e) s1 = Ret (s', Ok tt) ∧ muted [] s' x.
Proof using hang_up_state.
  intros [Hl Hmax Hq Hcl Hst] [Hsz Hsv].
  assert (c ∈ dom (lk_conns (cl_links s))) as Hin by (apply (lent_held_open _ _ _ c Hl); by left).
  pose proof Hin as [conn Hc]%elem_of_dom. destruct (Hq c conn Hc) as [Hopen (n & Hroom & Hn)].
  destruct (@send_fails L Conn conn_conn t body n conn Hopen Hroom ltac:(lia) Hsz Hsv _ Hcl) as (p & E & Hp).
  unfold send_on. rewrite Hc, E. cbn [mbind go_bind]. do 2 eexists. split; [done|].
  unfold returnPool, Meth.bind, outcome, in_pool. cbn [set_link cl_pool cl_links lk_remote].
  set (links := {| lk_conns := _; lk_remote := _ |}).
  assert (lent (cl_pool s) links [c]) as Hl'.
  { eapply lent_opened; [|exact Hl]. cbn. by rewrite dom_insert_L, subseteq_union_1_L by (by apply singleton_subseteq_l). }
  destruct (Remove_closes c _ _ _ Hl') as (p' & -> & Hm & Hl''). cbn [mbind go_bind]. eexists. split; [done|].
  split; cbn; try done; [by rewrite Hm| |by rewrite hang_up_state].
  rewrite delete_insert_eq. by apply map_Forall_delete.
Qed.

(** A link that says yes to every message that can be framed and addressed. *)
Definition yes_link : PeerLink unit := {|
  SendSnapshotMessage m :=
    if bool_decide (Z.of_nat (length (wire m)) <= MaxMessageSize ∧ 0 < Z.of_nat HeaderSize + Z.of_nat (length (wire m)) ∧
                    Exists (fun s => Z.of_nat HeaderSize + Z.of_nat (length (wire m)) <= s) L)
       && match resolve (To m) with Ok _ => true | Err _ => false end
    then Meth.ret zero else Meth.fail (Errorf "does not fit a frame");
  stopped _ := false; limiter_Wait := Meth.ret tt; breaker_Success t := t
|}.

Abbreviation mute_link := (tcp_link resolve (fun _ => false) (Meth.ret tt)).

(** Every message counts as accepted. *)
Lemma send_checked_muted x m :
  simulates (fun _ s => muted [] s x) (send_checked (H := yes_link) m) (send_checked (H := mute_link) m).
Proof using accept_mute hang_up_state.
  intros t1 t2 t1' [] Hr. unfold send_checked at 1, Meth.bind. cbn [SendSnapshotMessage yes_link].
  destruct (_ && _) eqn:Hf; [|done]. apply andb_true_iff in Hf as [Hs Ha]. apply bool_decide_eq_true in Hs as (Hs1 & Hs2 & Hs3).
  destruct (resolve (To m)) as [addr|] eqn:Haddr; [|done]. intros _.
  destruct (getConnection_muted t2 x (To m) addr Haddr Hr) as (s1 & c & E1 & Hm1).
  destruct (send_muted s1 x c SnapshotMsgReqType (wire m) Hm1) as (s2 & e & E2 & s3 & E3 & Hm3); [split; [done|by split]|].
  exists s3. split; [|done]. unfold send_checked, Meth.bind. cbn [SendSnapshotMessage tcp_link].
  unfold SendSnapshotMessage_tcp, call, Meth.bind, outcome. rewrite E1. cbn [mbind go_bind]. rewrite E2. cbn [mbind go_bind]. by rewrite E3.
Qed.

(** A snapshot whose files can be read is reported as sent, with success, although not one
    message of it reached the other end: a request that cannot be written counts as accepted. *)
Theorem unsent_snapshot_reported_sent clusterID cs snapMsg rd d s x :
  muted [] s x → sendSnapshotMessageLoop (H := yes_link) clusterID cs snapMsg rd d tt = Ret (tt, Ok tt) →
  ∃ s', sendSnapshotMessageLoop (H := mute_link) clusterID cs snapMsg rd d s = Ret (s', Ok tt) ∧ state_of (lk_remote (cl_links s')) = x.
Proof using accept_mute hang_up_state.
  intros Hm Hyes. pose proof (sim_transfer (fun _ s => muted [] s x) yes_link mute_link (send_checked_muted x)) as Hsim.
  destruct (Hsim) with (t1 := tt) (t2 := s) (t1' := tt) (a := tt) (clusterID := clusterID) (chunkSize := cs) (snapMsg := snapMsg) (rd := rd) (d := d)
    as (s' & E & Hs'); [done|apply sim_ret|done..|]. exists s'. split; [done|apply Hs'].
Qed.
End Mute.
