(* ===== verification/TcpExamples.v ===== *)
(** * Concrete sessions, calls and transfers

    An encoding for the messages of the transport, in which messages named beforehand have a
    short code; a node that keeps what it is given; a session with a stream that breaks off, a
    snapshot sent through the client, and one sent to a peer that does not read. *)

From S2P Require Import Prelude Raftpb Coded Allocator Streams LogFiles WalReplay SnapshotFs SnapshotIo SnapshotTransfer SnapshotInstall Cluster ApplyExamples SnapshotExamples.
From S2P Require Import Frames ConnPool TcpServer TcpClient TcpTransfer.
Import Codes SessionExamples.

(** ** Encodings *)

(** The [i]-th of the messages [known] is [i] zeros after a mark; others are written bit by bit. *)
Section Listed.
Context {T : Type} `{Countable T, Overlay T} (known : list T).

Definition listed_wire (m : T) : list byte :=
  match list_find (fun x => x = m) known with
  | Some (i, _) => Byte.x01 :: replicate i Byte.x00
  | None => Byte.x00 :: bits (encode m)
  end.
Definition listed_read (b : list byte) : option T :=
  match b with
  | Byte.x01 :: l => known !! length l
  | Byte.x00 :: l => decode (unbits l)
  | _ => None
  end.
Lemma listed_read_wire m : listed_read (listed_wire m) = Some m.
Proof.
  unfold listed_read, listed_wire. destruct (list_find _ known) as [[i x]|] eqn:E; [|by rewrite unbits_bits, decode_encode].
  apply list_find_Some in E as (Hi & -> & _). by rewrite length_replicate.
Qed.
Definition listed : WireMessage T.
Proof.
  refine {| wire := listed_wire;
            unmarshal_onto b old := match listed_read b with Some m => (over old m, None) | None => (old, Some (Sentinel "io.ErrUnexpectedEOF")) end |}.
  intros old m. by rewrite listed_read_wire.
Defined.
End Listed.

(** The parts of a snapshot message, decoded onto an empty one. *)
#[export] Instance Metadata_over : Overlay SnapshotMetadata.
Proof. by refine {| zero := emptyMetadata; over old m := m |}. Defined.
#[export] Instance Chunk_over : Overlay SnapshotChunkMessage.
Proof. by refine {| zero := emptyChunk; over old m := m |}. Defined.
#[export] Instance RaftMessage_over : Overlay RaftMessage.
Proof. by refine {| zero := emptyRaftMessage; over old m := m |}. Defined.

#[export] Instance Chunk_eq_dec : EqDecision SnapshotChunkMessage.
Proof. solve_decision. Defined.
#[export] Instance RaftMessage_eq_dec : EqDecision RaftMessage.
Proof. solve_decision. Defined.
#[export] Instance SnapshotMessage_eq_dec : EqDecision SnapshotMessage.
Proof. solve_decision. Defined.
#[export] Instance Chunk_countable : Countable SnapshotChunkMessage.
Proof.
  refine (inj_countable' (λ c, (ck_FileType c, FileTag c, Id c, Data c, ContinueCrc32 c, LastChunk c))
    (λ '(a, b, c, d, e, f), {| ck_FileType := a; FileTag := b; Id := c; Data := d; ContinueCrc32 := e; LastChunk := f |}) _). by intros [].
Defined.
#[export] Instance RaftMessage_countable : Countable RaftMessage.
Proof.
  refine (inj_countable' (λ m, let s := rm_Snapshot m in
       (rm_From m, rm_To m, snap_data s, sm_conf (snap_meta s), sm_index (snap_meta s), sm_term (snap_meta s)))
    (λ '(a, b, x, c, i, t), {| rm_From := a; rm_To := b;
       rm_Snapshot := {| snap_data := x; snap_meta := {| sm_conf := c; sm_index := i; sm_term := t |} |} |}) _). by intros [? ? [? []]].
Defined.
#[export] Instance SnapshotMessage_countable : Countable SnapshotMessage.
Proof.
  refine (inj_countable' (λ m, (ClusterID m, From m, To m, sm_Term m, sm_Index m, sm_Type m, sm_Metadata m, ChunkMessage m, FinishMessage m))
    (λ '(a, b, c, d, e, f, g, h, i), {| ClusterID := a; From := b; To := c; sm_Term := d; sm_Index := e; sm_Type := f;
       sm_Metadata := g; ChunkMessage := h; FinishMessage := i |}) _). by intros [].
Defined.
#[export] Instance Status_countable : Countable ResponseStatus.
Proof.
  refine (inj_countable' (λ s, match s with SUCCESS => 0%nat | FAILED => 1%nat | REJECTED => 2%nat end)
    (λ n, match n with 0%nat => SUCCESS | 1%nat => FAILED | _ => REJECTED end) _). by intros [].
Defined.
#[export] Instance SnapshotResponse_eq_dec : EqDecision SnapshotMessageResponse.
Proof. solve_decision. Defined.
#[export] Instance SnapshotResponse_countable : Countable SnapshotMessageResponse.
Proof. refine (inj_countable' (λ r, (Status r, resp_Message r)) (λ '(a, b), {| Status := a; resp_Message := b |}) _). by intros []. Defined.
#[export] Instance Batch_eq_dec : EqDecision (BatchMessage Z).
Proof. solve_decision. Defined.
#[export] Instance Batch_countable : Countable (BatchMessage Z).
Proof. refine (inj_countable' (λ m, (bm_ClusterID m, Messages m)) (λ '(a, b), {| bm_ClusterID := a; Messages := b |}) _). by intros []. Defined.
#[export] Instance PeersRequest_eq_dec : EqDecision GetClusterPeersRequest.
Proof. solve_decision. Defined.
#[export] Instance PeersRequest_countable : Countable GetClusterPeersRequest.
Proof.
  refine (inj_countable' (λ m, (gp_ClusterID m, gp_GroupID m, gp_From m, gp_To m))
    (λ '(a, b, c, d), {| gp_ClusterID := a; gp_GroupID := b; gp_From := c; gp_To := d |}) _). by intros [].
Defined.
#[export] Instance PeersResponse_eq_dec : EqDecision GetClusterPeersResponse.
Proof. solve_decision. Defined.
#[export] Instance PeersResponse_countable : Countable GetClusterPeersResponse.
Proof.
  refine (inj_countable' (λ m, (gp_Status m, gp_Message m, gp_Peers m))
    (λ '(a, b, c), {| gp_Status := a; gp_Message := b; gp_Peers := c |}) _). by intros [].
Defined.
#[export] Instance PublishRequest_eq_dec : EqDecision PublishApplicationServiceRequest.
Proof. solve_decision. Defined.
#[export] Instance PublishRequest_countable : Countable PublishApplicationServiceRequest.
Proof.
  refine (inj_countable' (λ m, (pa_ClusterID m, pa_GroupID m, pa_From m, pa_To m, ProposalReplyID m, pa_AppServiceAddresses m))
    (λ '(a, b, c, d, e, f), {| pa_ClusterID := a; pa_GroupID := b; pa_From := c; pa_To := d; ProposalReplyID := e; pa_AppServiceAddresses := f |}) _).
  by intros [].
Defined.
#[export] Instance PublishResponse_eq_dec : EqDecision PublishApplicationServiceResponse.
Proof. solve_decision. Defined.
#[export] Instance PublishResponse_countable : Countable PublishApplicationServiceResponse.
Proof. refine (inj_countable' (λ m, (pa_Status m, pa_Message m)) (λ '(a, b), {| pa_Status := a; pa_Message := b |}) _). by intros []. Defined.

(** ** A node that keeps what it is given *)

Definition Notebook : Type := list (BatchMessage Z + PublishApplicationServiceRequest).
#[export] Instance notebook_handler : RaftMessageHandler Notebook Z := {|
  h_ProcessBatchMessage m h := Ret (h ++ [inl m]);
  h_ProcessSnapshotMessage m h := Ret (h, rejected "no snapshots");
  h_GetClusterPeer m h := Ret (h, {| gp_Status := FAILED; gp_Message := "no peers"; gp_Peers := [] |});
  h_PublishApplicationService m h := Ret (h ++ [inr m], {| pa_Status := SUCCESS; pa_Message := "success" |})
|}.

Section SessionDemo.
#[local] Instance batch_wire : WireMessage (BatchMessage Z) := listed [].
#[local] Instance snapshot_wire : WireMessage SnapshotMessage := listed [].
#[local] Instance snapshot_response_wire : WireMessage SnapshotMessageResponse := listed [].
#[local] Instance peers_wire : WireMessage GetClusterPeersRequest := listed [].
#[local] Instance peers_response_wire : WireMessage GetClusterPeersResponse := listed [].
#[local] Instance publish_wire : WireMessage PublishApplicationServiceRequest := listed [].
#[local] Instance publish_response_wire : WireMessage PublishApplicationServiceResponse :=
  listed [{| pa_Status := SUCCESS; pa_Message := "success" |}].

Definition beats (i : Z) : request Z := RBatch {| bm_ClusterID := 9; Messages := [i] |}.
Definition publication (reply : Z) (a : string) : request Z :=
  RPublish {| pa_ClusterID := 9; pa_GroupID := 0; pa_From := 1; pa_To := 2; ProposalReplyID := reply; pa_AppServiceAddresses := [a] |}.
Definition requests : list (request Z) := [beats 5; publication 1 "a"; publication 2 "b"; beats 6].

(** The first two requests and eleven bytes of the third. *)
Definition cut_at : nat := Eval vm_compute in length ([beats 5; publication 1 "a"] ≫= bytes_of ∘ request_frame) + 11.
Definition cut_session : session Notebook Z :=
  newSession {| rx := take cut_at (requests ≫= bytes_of ∘ request_frame); rx_end := io_EOF; tx := []; tx_room := None; closed := false |} [].

Definition handled : Buffers Z * Notebook * list (Z * list byte) :=
  match handle_all (whole cut_at requests) (se_buf cut_session) (se_raft cut_session) with
  | Ret x => x
  | Panic _ => (se_buf cut_session, [], [])
  end.
Definition handled_node : Notebook := Eval vm_compute in handled.1.2.
Definition handled_answers : list (Z * list byte) := Eval vm_compute in handled.2.

Lemma handled_run : handle_all (whole cut_at requests) (se_buf cut_session) (se_raft cut_session) = Ret (handled.1.1, handled_node, handled_answers).
Proof. vm_compute. reflexivity. Qed.

Lemma session_refines_witness :
  ∃ p' c, start None (process_pool, cut_session) = Ret ((p', {| se_conn := c; se_buf := handled.1.1; se_raft := handled_node |}), Err (torn_error cut_session)) ∧
    pool_ok process_levels p' ∧ tx c = tx (se_conn cut_session) ++ (handled_answers ≫= bytes_of) ∧ closed c = true.
Proof.
  apply (session_refines process_levels process_pool cut_session requests cut_at handled.1.1 handled_node handled_answers).
  - exact default_serves_messages.
  - exact process_pool_ok.
  - by split.
  - repeat (constructor; [vm_compute; congruence|]). constructor.
  - reflexivity.
  - exact handled_run.
  - constructor; [|constructor]. split; [vm_compute; congruence|]. apply default_serves. vm_compute. split; congruence.
Defined.

(** The second publication is handled with the address of the first. *)
Lemma published_addresses_pile_up_witness :
  Forall (proper 9 0) requests ∧
  ('(_, h, out) ← handle_all requests (se_buf (newSession (H := Notebook) idle_conn [])) ([] : Notebook); Ret (h, out)) = direct_calls (pile [] requests) [].
Proof.
  assert (Forall (proper 9 0) requests) as Hp by (repeat (constructor; [first [reflexivity|by split_and!]|]); constructor).
  split; [exact Hp|]. apply (published_addresses_pile_up 9 0 requests idle_conn []). exact Hp.
Defined.

Example second_publication :
  ('(h, _) ← direct_calls (pile [] requests) ([] : Notebook); Ret (h !! 2%nat)) =
    Ret (Some (inr {| pa_ClusterID := 9; pa_GroupID := 0; pa_From := 1; pa_To := 2; ProposalReplyID := 2; pa_AppServiceAddresses := ["a"; "b"] |})).
Proof. vm_compute. reflexivity. Qed.

(** Nine bytes that are no frame, on a connection that ends there. *)
Definition garbage_session : session Notebook Z :=
  newSession {| rx := [Byte.x01; Byte.xff; Byte.x00; Byte.x00; Byte.x07; Byte.x00; Byte.x00; Byte.x00; Byte.x2a]; rx_end := io_EOF;
                tx := []; tx_room := None; closed := false |} [].

Lemma session_terminates_witness :
  ∃ p' s' e, start None (process_pool, garbage_session) = Ret ((p', s'), Err e) ∧ closed (se_conn s') = true.
Proof.
  apply (session_terminates process_levels default_serves_messages process_pool garbage_session None); [|exact process_pool_ok].
  split_and!; intros m h; [by eexists|..]; do 2 eexists; (split; [reflexivity|]);
    (split; [vm_compute; congruence|apply default_serves; vm_compute; split; congruence]).
Defined.
End SessionDemo.

(** ** A snapshot through the client *)

Section TransferDemo.
#[local] Instance codec : Message SnapshotMetadata := short_code (demo_metadata kv_bytes).

(** The messages of the transfer, as a link that collects them sees them. *)
Definition collecting : PeerLink (list SnapshotMessage) :=
  {| SendSnapshotMessage m l := Ret (l ++ [m], Ok success); stopped _ := false; limiter_Wait := Meth.ret tt; breaker_Success l := l |}.
Definition sent_messages : list SnapshotMessage := Eval vm_compute in
  match sendSnapshotMessageLoop (H := collecting) 9 2 demo_message (NewReader demo_src (demo_metadata kv_bytes)) (sender_disk kv_bytes) [] with
  | Ret (l, _) => l
  | Panic _ => []
  end.

#[local] Instance demo_batch_wire : WireMessage (BatchMessage Z) := listed [].
#[local] Instance demo_snapshot_wire : WireMessage SnapshotMessage := listed sent_messages.
#[local] Instance demo_response_wire : WireMessage SnapshotMessageResponse := listed [success].
#[local] Instance demo_peers_wire : WireMessage GetClusterPeersRequest := listed [].
#[local] Instance demo_peers_response_wire : WireMessage GetClusterPeersResponse := listed [].
#[local] Instance demo_publish_wire : WireMessage PublishApplicationServiceRequest := listed [].
#[local] Instance demo_publish_response_wire : WireMessage PublishApplicationServiceResponse := listed [].

Definition only_snapshots : RaftMessageHandler Storage Z := {|
  h_ProcessBatchMessage _ s := Ret s;
  h_ProcessSnapshotMessage _ s := Ret (s, rejected "not here");
  h_GetClusterPeer _ s := Ret (s, {| gp_Status := FAILED; gp_Message := "no peers"; gp_Peers := [] |});
  h_PublishApplicationService _ s := Ret (s, {| pa_Status := FAILED; pa_Message := "not here" |})
|}.
Definition demo_resolve (peer : Z) : result string := if decide (peer = 2) then Ok "b:1" else Err (Errorf "peer not found").

Definition transfer_run : go (Storage * result unit) :=
  sendSnapshotMessageLoop (H := direct_framed demo_node process_levels demo_resolve) 9 2 demo_message
    (NewReader demo_src (demo_metadata kv_bytes)) (sender_disk kv_bytes) demo_storage.
Definition transfer_check : bool :=
  match transfer_run with Ret (st, Ok _) => bool_decide (5 ∈ installedSnapshot (w_snap (st_world st))) | _ => false end.
Lemma transfer_checks : transfer_check = true.
Proof. vm_compute. reflexivity. Qed.

#[local] Instance demo_handler : RaftMessageHandler Storage Z := storage_node demo_node only_snapshots.

(** Nothing is connected yet. *)
Definition tcp_start : ClientState (Served Storage Z) :=
  {| cl_buffers := process_pool; cl_pool := NewConnectionPool 4 10;
     cl_links := {| lk_conns := ∅;
                    lk_remote := {| sv_raft := demo_storage; sv_buffers := process_pool; sv_sessions := ∅; sv_dial := Ok fresh_conn; sv_clock := 0 |} |} |}.
Lemma tcp_start_linked : linked process_levels 9 0 [] tcp_start demo_storage.
Proof.
  split; [|done|apply map_Forall_empty|exact process_pool_ok|exact process_pool_ok|by exists fresh_conn|done].
  split; [split; [constructor|done|done]|apply map_Forall_empty].
Qed.

Lemma snapshot_over_tcp_witness :
  ∃ st s', transfer_run = Ret (st, Ok tt) ∧ 5 ∈ installedSnapshot (w_snap (st_world st)) ∧
    sendSnapshotMessageLoop (H := over_tcp demo_resolve) 9 2 demo_message
      (NewReader demo_src (demo_metadata kv_bytes)) (sender_disk kv_bytes) tcp_start = Ret (s', Ok tt) ∧
    linked process_levels 9 0 [] s' st.
Proof.
  pose proof transfer_checks as Hok. unfold transfer_check in Hok.
  destruct transfer_run as [[st [[]|]]|] eqn:E; [|discriminate Hok..]. apply bool_decide_eq_true in Hok.
  destruct (snapshot_over_tcp demo_node only_snapshots process_levels default_serves_messages 0 demo_resolve 9 2 demo_message
    (NewReader demo_src (demo_metadata kv_bytes)) (sender_disk kv_bytes) demo_storage st tcp_start) as (s' & E' & Hl).
  - split; [vm_compute; congruence|]. apply default_serves. vm_compute. split; congruence.
  - exact tcp_start_linked.
  - exact E.
  - exists st, s'. split_and!; [reflexivity|exact Hok|exact E'|exact Hl].
Defined.

(** A node behind connections it never reads from. *)
Definition mute_conn : Conn := {| rx := []; rx_end := timeout; tx := []; tx_room := Some 0%nat; closed := false |}.
#[local] Instance mute_remote : Remote Storage := {|
  accept _ _ s := Ret (s, Ok mute_conn); exchange _ _ s := Ret (s, ([], timeout)); hang_up _ s := s; clock _ := 0
|}.
#[local] Instance mute_total : RemoteTotal Storage.
Proof. by intros a c r; do 2 eexists. Qed.
Definition mute_start : ClientState Storage :=
  {| cl_buffers := process_pool; cl_pool := NewConnectionPool 4 10; cl_links := {| lk_conns := ∅; lk_remote := demo_storage |} |}.

Definition says_yes : bool :=
  match sendSnapshotMessageLoop (H := yes_link demo_resolve process_levels) 9 2 demo_message
      (NewReader demo_src (demo_metadata kv_bytes)) (sender_disk kv_bytes) tt with
  | Ret (tt, Ok tt) => true
  | _ => false
  end.
Lemma says_yes_true : says_yes = true.
Proof. vm_compute. reflexivity. Qed.

Lemma unsent_snapshot_reported_sent_witness :
  ∃ s', sendSnapshotMessageLoop (H := tcp_link demo_resolve (fun _ => false) (Meth.ret tt)) 9 2 demo_message
      (NewReader demo_src (demo_metadata kv_bytes)) (sender_disk kv_bytes) mute_start = Ret (s', Ok tt) ∧
    lk_remote (cl_links s') = demo_storage.
Proof.
  apply (unsent_snapshot_reported_sent (fun s => s) demo_resolve process_levels).
  - intros a c r. do 2 eexists. split; [reflexivity|]. split; [|reflexivity]. split; [reflexivity|]. exists 0%nat. split; [reflexivity|]. unfold HeaderSize. lia.
  - reflexivity.
  - split; [|done|apply map_Forall_empty|exact process_pool_ok|done]. split; [split; [constructor|done|done]|apply map_Forall_empty].
  - pose proof says_yes_true as Hy. unfold says_yes in Hy.
    destruct (sendSnapshotMessageLoop (H := yes_link _ _) _ _ _ _ _ _) as [[[] [[]|]]|]; [reflexivity|discriminate Hy..].
Defined.
End TransferDemo.
