(* ===== verification/PeerManager.v ===== *)
(** * The peers of a transport: [pkg/transport/peer_manager.go]

    Groups name the members of their clusters by a group and an identifier; members at the
    same address share one peer, which is created with the first of them and stopped after
    the last one left.  A peer is stopped after the lock was given up: that is a step of its
    own. *)

From S2P Require Import Prelude.

(** ** State *)

(** [RaftPeerIdentifier] *)
Abbreviation RaftPeerIdentifier := (Z * Z)%type.

(** A peer is known by its number: the [i]-th one that was created.  [addrs] has the
    address each was created for, [stopping] those to be stopped, [halted] those on which
    [Stop] was called. *)
Record PeerManager := {
  peers : gmap string nat;
  addresses : gmap RaftPeerIdentifier string;
  refCounts : gmap string Z;
  addrs : list string; stopping : list nat; halted : list nat
}.
Definition NewPeerManager : PeerManager :=
  {| peers := ∅; addresses := ∅; refCounts := ∅; addrs := []; stopping := []; halted := [] |}.
Implicit Types (m : PeerManager) (a : string).

(** ** Operations *)

Definition err_peer_not_found : error := Errorf "peer not found for group %v and peer %v".

Definition GetPeer (groupID peerID : Z) m : result nat :=
  match addresses m !! (groupID, peerID) with
  | None => Err err_peer_not_found
  | Some address =>
      match peers m !! address with
      | None => Err (Errorf "peer address %s exists but peer not found")
      | Some peer => Ok peer
      end
  end.

Definition set_address (i : RaftPeerIdentifier) a m : PeerManager :=
  {| peers := peers m; addresses := <[i := a]> (addresses m); refCounts := refCounts m; addrs := addrs m; stopping := stopping m; halted := halted m |}.
Definition delete_address (i : RaftPeerIdentifier) m : PeerManager :=
  {| peers := peers m; addresses := delete i (addresses m); refCounts := refCounts m; addrs := addrs m; stopping := stopping m; halted := halted m |}.

Definition retainAddressLocked a m : PeerManager :=
  match peers m !! a with
  | Some _ =>
      {| peers := peers m; addresses := addresses m; refCounts := <[a := i64 (default 0 (refCounts m !! a) + 1)]> (refCounts m);
         addrs := addrs m; stopping := stopping m; halted := halted m |}
  | None =>
      {| peers := <[a := length (addrs m)]> (peers m); addresses := addresses m; refCounts := <[a := 1]> (refCounts m);
         addrs := addrs m ++ [a]; stopping := stopping m; halted := halted m |}
  end.

(** [releaseAddressLocked], whose result goes to [stopPeerIfNeeded]; a missing peer would be
    a nil pointer. *)
Definition releaseAddressLocked a m : go PeerManager :=
  let n := i64 (default 0 (refCounts m !! a) - 1) in
  if decide (0 < n) then
    Ret {| peers := peers m; addresses := addresses m; refCounts := <[a := n]> (refCounts m);
           addrs := addrs m; stopping := stopping m; halted := halted m |}
  else
    match peers m !! a with
    | None => Panic "nil pointer"
    | Some peerToStop =>
        Ret {| peers := delete a (peers m); addresses := addresses m; refCounts := delete a (refCounts m);
               addrs := addrs m; stopping := stopping m ++ [peerToStop]; halted := halted m |}
    end.

Definition AddPeer (groupID peerID : Z) (peerAddress : string) : meth PeerManager unit := fun m =>
  match addresses m !! (groupID, peerID) with
  | None => Ret (retainAddressLocked peerAddress (set_address (groupID, peerID) peerAddress m), Ok tt)
  | Some _ => Ret (m, Err (Errorf "peer already exists for group %v and peer %v"))
  end.

Definition UpdatePeer (groupID peerID : Z) (updatePeerAddress : string) : meth PeerManager unit := fun m =>
  match addresses m !! (groupID, peerID) with
  | None => Ret (m, Err err_peer_not_found)
  | Some oldAddress =>
      if decide (oldAddress = updatePeerAddress) then Ret (m, Ok tt)
      else
        m ← releaseAddressLocked oldAddress m;
        Ret (retainAddressLocked updatePeerAddress (set_address (groupID, peerID) updatePeerAddress m), Ok tt)
  end.

Definition RemovePeer (groupID peerID : Z) : meth PeerManager unit := fun m =>
  match addresses m !! (groupID, peerID) with
  | None => Ret (m, Err err_peer_not_found)
  | Some address =>
      m ← releaseAddressLocked address (delete_address (groupID, peerID) m);
      Ret (m, Ok tt)
  end.

Definition RemoveAllPeers m : PeerManager :=
  {| peers := ∅; addresses := ∅; refCounts := ∅; addrs := addrs m; stopping := stopping m ++ (map_to_list (peers m)).*2; halted := halted m |}.

Definition ResolvePeerAddress (groupID peerID : Z) m : result string :=
  match addresses m !! (groupID, peerID) with
  | None => Err (Errorf "peer address not found for group %v and peer %v")
  | Some address => Ok address
  end.
Definition GetPeerByAddress (peerAddr : string) m : result nat :=
  match peers m !! peerAddr with None => Err (Errorf "peer not found for address %s") | Some peer => Ok peer end.

(** The peers [UpdatePeerRaftReport] reaches. *)
Definition UpdatePeerRaftReport m : list nat := (map_to_list (peers m)).*2.

(** [stopPeerIfNeeded], some time later. *)
Definition stop_one (h : nat) m : option PeerManager :=
  if decide (h ∈ stopping m) then
    Some {| peers := peers m; addresses := addresses m; refCounts := refCounts m; addrs := addrs m;
            stopping := filter (.≠ h) (stopping m); halted := halted m ++ [h] |}
  else None.

Inductive peer_op := PAdd (g p : Z) a | PUpdate (g p : Z) a | PRemove (g p : Z) | PRemoveAll | PStop (h : nat).
Definition run_peer_op (op : peer_op) m : go PeerManager :=
  match op with
  | PAdd g p a => '(m, _) ← AddPeer g p a m; Ret m
  | PUpdate g p a => '(m, _) ← UpdatePeer g p a m; Ret m
  | PRemove g p => '(m, _) ← RemovePeer g p m; Ret m
  | PRemoveAll => Ret (RemoveAllPeers m)
  | PStop h => Ret (default m (stop_one h m))
  end.
Fixpoint run_peer_ops (ops : list peer_op) m : go PeerManager :=
  match ops with [] => Ret m | op :: ops => m ← run_peer_op op m; run_peer_ops ops m end.

(** The addresses alone. *)
Definition abs_peer_op (l : gmap RaftPeerIdentifier string) (op : peer_op) : gmap RaftPeerIdentifier string :=
  match op with
  | PAdd g p a => match l !! (g, p) with None => <[(g, p) := a]> l | Some _ => l end
  | PUpdate g p a => match l !! (g, p) with None => l | Some _ => <[(g, p) := a]> l end
  | PRemove g p => delete (g, p) l
  | PRemoveAll => ∅
  | PStop _ => l
  end.

(** ** Invariant *)

(** The members at an address. *)
Definition users (l : gmap RaftPeerIdentifier string) a : nat := size (filter (λ x, x.2 = a) l).

Lemma users_empty a : users ∅ a = 0%nat.
Proof. unfold users. by rewrite map_filter_empty, map_size_empty. Qed.
Lemma users_insert l i a b : l !! i = None → users (<[i := a]> l) b = if decide (a = b) then S (users l b) else users l b.
Proof.
  intros Hi. unfold users. case_decide as E.
  - rewrite map_filter_insert_True by done. apply map_size_insert_None. apply map_lookup_filter_None. by left.
  - rewrite map_filter_insert_not'; [done|done|]. by rewrite Hi.
Qed.
Lemma users_delete l i a b : l !! i = Some a → users l b = if decide (a = b) then S (users (delete i l) b) else users (delete i l) b.
Proof.
  intros Hi. rewrite <- (insert_delete_id l i a) at 1 by done. apply users_insert, lookup_delete_eq.
Qed.
Lemma users_pos l i a : l !! i = Some a → users l a ≠ 0%nat.
Proof. intros Hi. rewrite (users_delete _ _ _ _ Hi), decide_True by done. done. Qed.

(** The peers are those of the addresses in use, [u a] members at address [a]. *)
Record peers_inv (u : string → nat) m : Prop := {
  pi_refs a : refCounts m !! a = if decide (u a = 0%nat) then None else Some (Z.of_nat (u a));
  pi_peers a : is_Some (peers m !! a) ↔ u a ≠ 0%nat;
  pi_addr a h : peers m !! a = Some h → addrs m !! h = Some a;
  pi_all h : (h < length (addrs m))%nat → (∃ a, peers m !! a = Some h) ∨ h ∈ stopping m ++ halted m;
  pi_gone h : h ∈ stopping m ++ halted m → (h < length (addrs m))%nat ∧ ∀ a, peers m !! a ≠ Some h;
  pi_once : NoDup (stopping m ++ halted m)
}.

Definition plus_one (a : string) (u : string → nat) : string → nat := fun b => if decide (a = b) then S (u b) else u b.

Lemma peers_inv_ext u u' m : (∀ a, u a = u' a) → peers_inv u m → peers_inv u' m.
Proof. intros E [H1 H2 H3 H4 H5 H6]. constructor; try done; intros a; rewrite <- E; auto. Qed.

Lemma retain_ok u a m : Z.of_nat (u a) < 2 ^ 62 → peers_inv u m → peers_inv (plus_one a u) (retainAddressLocked a m).
Proof.
  intros Hb [Hr Hp Ha Hall Hg Hn]. unfold retainAddressLocked, plus_one. destruct (peers m !! a) as [h|] eqn:E.
  - assert (u a ≠ 0%nat) as Hu by (apply Hp; by exists h). constructor; simpl; try done.
    + intros b. destruct (decide (a = b)) as [<-|Hne]; [|by rewrite lookup_insert_ne, Hr].
      rewrite lookup_insert_eq, Hr, decide_False by done. simpl. rewrite i64_small by lia. f_equal. lia.
    + intros b. rewrite Hp. case_decide; [by subst; split|done].
  - assert (u a = 0%nat) as Hu by (destruct (decide (u a = 0%nat)); [done|by apply Hp in n as [? ?]; simplify_eq]).
    constructor; simpl.
    + intros b. destruct (decide (a = b)) as [<-|Hne]; [by rewrite lookup_insert_eq, Hu|by rewrite lookup_insert_ne, Hr].
    + intros b. destruct (decide (a = b)) as [<-|Hne]; [rewrite lookup_insert_eq; split; [done|by eexists]|by rewrite lookup_insert_ne].
    + intros b h. destruct (decide (a = b)) as [<-|Hne].
      * rewrite lookup_insert_eq. intros [= <-]. by rewrite lookup_app_r, Nat.sub_diag.
      * rewrite lookup_insert_ne by done. intros Hb'%Ha. by apply lookup_app_l_Some.
    + intros h. rewrite length_app. simpl. intros Hh. destruct (decide (h = length (addrs m))) as [->|].
      * left. exists a. by rewrite lookup_insert_eq.
      * destruct (Hall h) as [[b Hb']|]; [lia| |by right]. left. exists b. rewrite lookup_insert_ne; [done|]. congruence.
    + intros h Hh. destruct (Hg h Hh) as [Hlt Hno]. rewrite length_app. simpl. split; [lia|]. intros b.
      destruct (decide (a = b)) as [<-|Hne]; [rewrite lookup_insert_eq; intros [= ?]; lia|by rewrite lookup_insert_ne].
    + done.
Qed.

Lemma release_ok u a m : Z.of_nat (u a) < 2 ^ 62 → peers_inv (plus_one a u) m →
  ∃ m', releaseAddressLocked a m = Ret m' ∧ peers_inv u m' ∧ addresses m' = addresses m.
Proof.
  intros Hb [Hr Hp Ha Hall Hg Hn]. unfold plus_one in *. unfold releaseAddressLocked.
  assert (refCounts m !! a = Some (Z.of_nat (S (u a)))) as -> by (rewrite Hr, (decide_True (P := a = a)) by done; by rewrite decide_False).
  cbn [default from_option id]. rewrite i64_small by lia. destruct (decide (0 < Z.of_nat (S (u a)) - 1)) as [Hpos|Hz].
  - eexists. split; [done|]. split; [|done]. constructor; simpl; try done.
    + intros b. destruct (decide (a = b)) as [<-|Hne].
      * rewrite lookup_insert_eq, decide_False by lia. f_equal. lia.
      * rewrite lookup_insert_ne, Hr by done. by rewrite !(decide_False (P := a = b)).
    + intros b. rewrite Hp. case_decide; subst; [|done]. lia.
  - assert (u a = 0%nat) as Hu by lia. destruct (proj2 (Hp a)) as [h Hh]; [by rewrite decide_True|]. rewrite Hh.
    assert (∀ b h', delete a (peers m) !! b = Some h' ↔ b ≠ a ∧ peers m !! b = Some h') as Hd.
    { intros b h'. rewrite lookup_delete_Some. split; intros [? ?]; (split; [congruence|done]). }
    eexists. split; [done|]. split; [|done]. constructor; simpl.
    + intros b. destruct (decide (a = b)) as [<-|Hne]; [by rewrite lookup_delete_eq, Hu|]. rewrite lookup_delete_ne, Hr by done. by rewrite !(decide_False (P := a = b)).
    + intros b. destruct (decide (a = b)) as [<-|Hne]; [rewrite lookup_delete_eq, Hu; by split; [intros []|]|].
      rewrite lookup_delete_ne, Hp by done. by rewrite !(decide_False (P := a = b)).
    + intros b h' [_ Hb']%Hd. auto.
    + intros h' [[b Hb']|Hin]%Hall.
      * destruct (decide (b = a)) as [->|]; [|left; exists b; by apply Hd]. right. rewrite Hh in Hb'. simplify_eq. rewrite !elem_of_app, list_elem_of_singleton; tauto.
      * right. rewrite !elem_of_app, ?list_elem_of_singleton in *; tauto.
    + intros h' Hin. assert (h' = h ∨ h' ∈ stopping m ++ halted m) as [->|[Hlt Hno]%Hg] by (rewrite !elem_of_app, !list_elem_of_singleton in *; tauto).
      * split; [apply Ha in Hh; by apply lookup_lt_Some in Hh|]. intros b [Hne Hb']%Hd. apply Ha in Hb'. apply Ha in Hh. congruence.
      * split; [done|]. intros b [_ Hb']%Hd. by eapply Hno.
    + rewrite <- (assoc_L (++)), (Permutation_app_comm (stopping m)), <- (assoc_L (++)), (Permutation_app_comm (halted m)). simpl. constructor; [|done].
      intros [_ Hno]%Hg. by apply (Hno a).
Qed.

Lemma stop_ok u h m m' : peers_inv u m → stop_one h m = Some m' → peers_inv u m' ∧ addresses m' = addresses m.
Proof.
  intros [Hr Hp Ha Hall Hg Hn] E. unfold stop_one in E. case_decide as Hin; [|done]. injection E as <-. split; [|done].
  assert (∀ x, x ∈ filter (.≠ h) (stopping m) ++ halted m ++ [h] ↔ x ∈ stopping m ++ halted m) as He.
  { intros x. rewrite !elem_of_app, list_elem_of_filter, list_elem_of_singleton. destruct (decide (x = h)) as [->|]; [|tauto].
    split; intros _; [by left|by right; right]. }
  constructor; simpl; try done.
  - intros x Hx. rewrite He. auto.
  - intros x. rewrite He. auto.
  - apply NoDup_app in Hn as (Hs & Hd & Hh). apply NoDup_app. split; [by apply NoDup_filter|]. split.
    + intros x [Hx1 Hx2]%list_elem_of_filter. rewrite elem_of_app, list_elem_of_singleton. intros [?|?]; [by eapply Hd|done].
    + apply NoDup_app. split; [done|]. split; [|apply NoDup_singleton]. intros x Hx ->%list_elem_of_singleton. by eapply Hd.
Qed.

Lemma users_size l a : (users l a <= size l)%nat.
Proof. unfold users. apply map_subseteq_size, map_filter_subseteq. Qed.
Lemma users_some l a : users l a ≠ 0%nat → ∃ i, l !! i = Some a.
Proof.
  intros Hu. destruct (decide (filter (λ x, x.2 = a) l = ∅)) as [E|(i & b & E)%map_choose]; [unfold users in Hu; by rewrite E in Hu|].
  apply map_lookup_filter_Some in E as [? <-]. by exists i.
Qed.

Definition manages (l : gmap RaftPeerIdentifier string) m : Prop := addresses m = l ∧ peers_inv (users l) m.

Lemma RemoveAll_ok l m : manages l m → manages ∅ (RemoveAllPeers m).
Proof.
  intros [_ [Hr Hp Ha Hall Hg Hn]]. split; [done|].
  assert (∀ h, h ∈ (map_to_list (peers m)).*2 ↔ ∃ a, peers m !! a = Some h) as Hl.
  { intros h. rewrite list_elem_of_fmap. split; [intros ([a h'] & -> & E%elem_of_map_to_list); by exists a|intros [a E]].
    exists (a, h). by rewrite elem_of_map_to_list. }
  constructor; simpl.
  - intros a. by rewrite users_empty.
  - intros a. rewrite users_empty. by split; [intros []|].
  - done.
  - intros h [[a E]|E]%Hall; right; rewrite !elem_of_app in *; [left; right; apply Hl; by exists a|tauto].
  - intros h. rewrite !elem_of_app, Hl. intros Hh. split; [|by intros a]. destruct Hh as [[?|[a ?%Ha]]|?]; [apply Hg, elem_of_app; by left| |apply Hg, elem_of_app; by right].
    by eapply lookup_lt_Some.
  - rewrite (Permutation_app_comm (stopping m)), <- (assoc_L (++)). apply NoDup_app. split_and!; [|intros h [a E]%Hl Hin; by eapply Hg|done].
    apply NoDup_fmap_2_strong; [|apply NoDup_map_to_list]. intros [a h] [b h'] E1%elem_of_map_to_list E2%elem_of_map_to_list. simpl. intros ->.
    f_equal. apply Ha in E1, E2. congruence.
Qed.

Lemma peer_op_ok l m op : Z.of_nat (size l) < 2 ^ 62 → manages l m → ∃ m', run_peer_op op m = Ret m' ∧ manages (abs_peer_op l op) m'.
Proof.
  intros Hsz Hm. pose proof Hm as [Hl Hi]. assert (∀ a, Z.of_nat (users l a) < 2 ^ 62) as Hu by (intros a; pose proof (users_size l a); lia).
  destruct op as [g p a|g p a|g p| |h]; simpl.
  - unfold AddPeer. rewrite Hl. destruct (l !! (g, p)) as [b|] eqn:E; [by exists m|]. eexists. split; [done|]. split.
    + unfold retainAddressLocked. simpl. by case_match; simpl; rewrite Hl.
    + eapply peers_inv_ext; [|apply retain_ok; [done|by destruct Hi; constructor]]. intros b. unfold plus_one. by rewrite users_insert.
  - unfold UpdatePeer. rewrite Hl. destruct (l !! (g, p)) as [b|] eqn:E; [|by exists m]. case_decide as Hb.
    { subst b. exists m. split; [done|]. by rewrite insert_id. }
    destruct (release_ok (users (delete (g, p) l)) b m) as (m1 & Hrel & Hi1 & Hl1).
    { pose proof (users_delete l _ b b E). rewrite decide_True in * by done. specialize (Hu b). lia. }
    { eapply peers_inv_ext; [|done]. intros c. unfold plus_one. by rewrite (users_delete l _ b c E). }
    rewrite Hrel. simpl. eexists. split; [done|]. split.
    + unfold retainAddressLocked. simpl. case_match; simpl; by rewrite Hl1, Hl.
    + eapply peers_inv_ext; [|apply retain_ok; [|by destruct Hi1; constructor; simpl]].
      * intros c. unfold plus_one. rewrite <- insert_delete_eq, users_insert; [done|apply lookup_delete_eq].
      * specialize (Hu a). rewrite (users_delete l _ b a E) in Hu. case_decide; lia.
  - unfold RemovePeer. rewrite Hl. destruct (l !! (g, p)) as [b|] eqn:E; [|exists m; split; [done|by rewrite delete_id]].
    destruct (release_ok (users (delete (g, p) l)) b (delete_address (g, p) m)) as (m1 & Hrel & Hi1 & Hl1).
    { pose proof (users_delete l _ b b E). rewrite decide_True in * by done. specialize (Hu b). lia. }
    { eapply peers_inv_ext; [|by destruct Hi; constructor; simpl]. intros c. unfold plus_one. by rewrite (users_delete l _ b c E). }
    rewrite Hrel. simpl. eexists. split; [done|]. split; [|done]. rewrite Hl1. simpl. by rewrite Hl.
  - eexists. split; [done|]. by eapply RemoveAll_ok.
  - eexists. split; [done|]. destruct (stop_one h m) as [m'|] eqn:E; [|done]. destruct (stop_ok _ _ _ _ Hi E) as [? Ha]. split; [simpl; by rewrite Ha|done].
Qed.

Lemma abs_size l op : (size (abs_peer_op l op) <= S (size l))%nat.
Proof.
  destruct op as [g p a|g p a|g p| |h]; simpl; try lia.
  - destruct (l !! (g, p)) eqn:E; [lia|]. by rewrite map_size_insert_None.
  - destruct (l !! (g, p)) eqn:E; [|lia]. rewrite map_size_insert, E. simpl. lia.
  - destruct (l !! (g, p)) eqn:E; [rewrite map_size_delete_Some by (by eexists); lia|rewrite map_size_delete_None by done; lia].
  - rewrite map_size_empty. lia.
Qed.

(** C16: a peer lives as long as it is used.  After any additions, updates and removals of
    members, with the peers that are no longer needed stopped at any time later, the members
    are at the addresses given last; each finds the peer that was created for its address,
    the same for all members there; and a peer that was created is either such a peer or
    was handed over to be stopped, once. *)
Theorem peers_live_while_used ops :
  Z.of_nat (length ops) < 2 ^ 62 →
  ∃ m, run_peer_ops ops NewPeerManager = Ret m ∧
    let l := foldl abs_peer_op ∅ ops in
    (∀ g p, match l !! (g, p) with
            | None => GetPeer g p m = Err err_peer_not_found
            | Some a => ResolvePeerAddress g p m = Ok a ∧
                ∃ h, GetPeer g p m = Ok h ∧ GetPeerByAddress a m = Ok h ∧ addrs m !! h = Some a ∧ h ∉ stopping m ++ halted m
            end) ∧
    (∀ h a, addrs m !! h = Some a → h ∈ stopping m ++ halted m ∨ (GetPeerByAddress a m = Ok h ∧ ∃ i, l !! i = Some a)) ∧
    NoDup (stopping m ++ halted m).
Proof.
  intros Hlen. assert (∀ l m n, manages l m → Z.of_nat (size l + n) < 2 ^ 62 → ∀ ops, length ops = n →
    ∃ m', run_peer_ops ops m = Ret m' ∧ manages (foldl abs_peer_op l ops) m') as Hrun.
  { clear. intros l m n Hm Hn ops. revert l m n Hm Hn. induction ops as [|op ops IH]; intros l m n Hm Hn <-; [by exists m|].
    destruct (peer_op_ok l m op) as (m1 & E & Hm1); [lia|done|]. cbn [run_peer_ops foldl]. rewrite E. simpl. eapply IH; [done| |done].
    pose proof (abs_size l op). simpl in Hn. lia. }
  destruct (Hrun ∅ NewPeerManager (length ops)) with (ops := ops) as (m & E & Hl & Hi); [|by rewrite map_size_empty|done|].
  { split; [done|]. constructor; simpl; [intros a; by rewrite users_empty|intros a; rewrite users_empty; by split; [intros []|]|done|lia| |constructor].
    by intros h ?%elem_of_nil. }
  exists m. split; [done|]. cbv zeta. set (l := foldl abs_peer_op ∅ ops) in *. destruct Hi as [Hr Hp Ha Hall Hg Hn].
  unfold GetPeer, ResolvePeerAddress, GetPeerByAddress. split_and!; [|intros h a Hh|done].
  - intros g p. rewrite Hl. destruct (l !! (g, p)) as [a|] eqn:Ea; [|done]. split; [done|].
    destruct (proj2 (Hp a) (users_pos _ _ _ Ea)) as [h Hh]. exists h. rewrite Hh. split_and!; [done|done|by apply Ha|]. intros [_ Hno]%Hg. by eapply Hno.
  - destruct (Hall h) as [[b Hb]|]; [by eapply lookup_lt_Some| |by left]. right. assert (b = a) as -> by (apply Ha in Hb; congruence).
    rewrite Hb. split; [done|]. apply users_some, Hp. by exists h.
Qed.

Module PeerExamples.
(** Two groups with a member at one address; one of them moves, then both leave. *)
Definition moves : list peer_op :=
  [PAdd 1 2 "a:1"; PAdd 9 2 "a:1"; PUpdate 1 2 "b:1"; PRemove 9 2; PAdd 1 3 "a:1"; PStop 0; PRemove 1 2].

Lemma peers_live_while_used_witness :
  ∃ m, run_peer_ops moves NewPeerManager = Ret m ∧ GetPeer 1 3 m = Ok 2%nat ∧ GetPeer 1 2 m = Err err_peer_not_found ∧ NoDup (stopping m ++ halted m).
Proof.
  destruct (peers_live_while_used moves) as (m & E & Hg & _ & Hn); [done|]. exists m. split; [done|].
  split_and!; [|exact (Hg 1 2)|done]. vm_compute in E. by injection E as <-.
Defined.
End PeerExamples.
