(* ===== verification/Limiters.v ===== *)
(** * Limiters and breakers: [pkg/utility/limiter] and [pkg/utility/breaker]

    The limiter of a transport counts the bytes of the messages that wait in the queues of its
    peers, and its breaker refuses messages after failures.  Both are interfaces of the code,
    hence classes.  [Acquire] looks and then adds under two separate locks, so that the two
    halves are operations of their own; the limiter of a rate and the breaker of the circuit
    library are parameters of the code that uses them. *)

From S2P Require Import Prelude.

(** ** Limiters *)

(** [ResourceLimiter]; [charge] is the half of [Acquire] under the write lock. *)
Class ResourceLimiter (L : Type) := {
  Allow : Z → L → bool;
  charge : Z → L → L;
  Release : Z → L → L;
  Available : L → Z;
  Limiter_Reset : L → L
}.

Definition Acquire `{ResourceLimiter L} (amount : Z) (l : L) : L * bool :=
  if Allow amount l then (charge amount l, true) else (l, false).

(** [MemorySizeLimiter] *)
Record MemorySizeLimiter := { maxTotalSize : Z; currentSize : Z }.
Definition NewMemorySizeLimiter (maxTotalSize : Z) : MemorySizeLimiter := {| maxTotalSize := maxTotalSize; currentSize := 0 |}.
Definition with_current (n : Z) (l : MemorySizeLimiter) : MemorySizeLimiter := {| maxTotalSize := maxTotalSize l; currentSize := n |}.

#[export] Instance memory_limiter : ResourceLimiter MemorySizeLimiter := {|
  Allow amount l := bool_decide (i64 (currentSize l + amount) <= maxTotalSize l);
  charge amount l := with_current (i64 (currentSize l + amount)) l;
  Release amount l := with_current (let newSize := i64 (currentSize l - amount) in if decide (newSize < 0) then 0 else newSize) l;
  Available l := let available := i64 (maxTotalSize l - currentSize l) in if decide (available < 0) then 0 else available;
  Limiter_Reset l := with_current 0 l
|}.

(** [NoResourceLimiter] *)
Inductive NoResourceLimiter := NewNoResourceLimiter.
#[export] Instance no_limiter : ResourceLimiter NoResourceLimiter := {|
  Allow _ _ := true; charge _ l := l; Release _ l := l; Available _ := 2 ^ 63 - 1; Limiter_Reset l := l
|}.

(** ** Breakers *)

(** [Breaker]: to ask whether it is ready may change a breaker that tries again after a while. *)
Class Breaker (B : Type) := {
  Success : B → B;
  Fail_ : B → B;
  ReadyB : B → B * bool;
  Breaker_Reset : B → B
}.

(** [NoOpBreaker] *)
Inductive NoOpBreaker := NewNoOpBreaker.
#[export] Instance no_op_breaker : Breaker NoOpBreaker := {|
  Success b := b; Fail_ b := b; ReadyB b := (b, true); Breaker_Reset b := b
|}.

(** ** The memory limiter *)

(** A limiter in order: what it counts is neither negative nor above the limit by more than
    the messages in between the two halves of [Acquire]. *)
Definition counts_up_to (extra : Z) (l : MemorySizeLimiter) : Prop := 0 <= currentSize l <= maxTotalSize l + extra.

Section memory.
Context (l : MemorySizeLimiter) (extra n : Z).
Context (Hmax : 0 <= maxTotalSize l) (Hextra : 0 <= extra) (Hn : 0 <= n).
Context (Hsmall : maxTotalSize l + extra + n < 2 ^ 63).
Context (Hl : counts_up_to extra l).

Lemma Allow_memory : Allow n l = bool_decide (currentSize l + n <= maxTotalSize l).
Proof. cbn. destruct Hl. by rewrite i64_small by lia. Qed.
Lemma charge_memory : charge n l = with_current (currentSize l + n) l.
Proof. cbn. destruct Hl. by rewrite i64_small by lia. Qed.
Lemma Release_memory : Release n l = with_current (Z.max 0 (currentSize l - n)) l.
Proof. cbn. destruct Hl. rewrite i64_small by lia. f_equal. case_decide; lia. Qed.
Lemma Available_memory : Available l = Z.max 0 (maxTotalSize l - currentSize l).
Proof. cbn. destruct Hl. rewrite i64_small by lia. case_decide; lia. Qed.

Lemma charge_counts : counts_up_to (extra + n) (charge n l).
Proof. rewrite charge_memory. destruct Hl. split; cbn; lia. Qed.
Lemma Release_counts : counts_up_to extra (Release n l).
Proof. rewrite Release_memory. destruct Hl. split; cbn; lia. Qed.
End memory.
