(* ===== verification/PeerQueue.v ===== *)
(** * The queue of a peer: [pkg/transport/peer/peer.go] and [multiraft_peer.go]

    [SendRaftMessage] puts a message into the current queue of the peer, which the first
    caller creates; the goroutine of the peer takes messages out, hands them to the client of
    the connection in batches, and gives the queue up when the client fails.  The peers of a
    transport share a limiter, a breaker and the reports to raft.  The two kinds of peer run
    the same code on their own kind of message: the size of a message, the reports that it could
    not be sent and the errors are arguments.

    Goroutines are interleaved: one step is one operation on a channel, on the limiter, on
    the breaker or with the client, or one critical section.  [getQueue] keeps its lock while
    it hands a new queue over, which is a step of its own. *)

From S2P Require Import Prelude Limiters.

(** ** State *)

(** The errors of the two kinds of peer. *)
Record PeerErrors := { ErrStopped : error; ErrBreakerNotReady : error; ErrReachMaxTotalSendMsgSize : error; ErrQueueFull : error }.
Definition ErrPeerStopped : error := Sentinel "ErrPeerStopped".
Definition raft_errors : PeerErrors :=
  {| ErrStopped := ErrPeerStopped; ErrBreakerNotReady := Sentinel "ErrPeerBreakerNotReady";
     ErrReachMaxTotalSendMsgSize := Sentinel "ErrPeerReachMaxTotalSendMsgSize"; ErrQueueFull := Sentinel "ErrPeerQueueFull" |}.
Definition multiraft_errors : PeerErrors :=
  {| ErrStopped := Sentinel "ErrMultiRaftPeerStopped"; ErrBreakerNotReady := Sentinel "ErrMultiRaftPeerBreakerNotReady";
     ErrReachMaxTotalSendMsgSize := Sentinel "ErrMultiRaftPeerReachMaxTotalSendMsgSize"; ErrQueueFull := Sentinel "ErrMultiRaftPeerQueueFull" |}.

(** The part of [RaftPeerConfig] the queue uses; a queue has room for one message or more. *)
Record QueueConfig := { LimiterMaxBatchMessageSize : Z; RaftMsgQueueSize : nat }.

(** Where a call of [SendRaftMessage] is: before the breaker, before the limiter, before
    [getQueue], in [getQueue] with a new queue, with a queue to put the message into, in
    [Acquire] before and after it looked, and with its result. *)
Inductive sender (M : Type) :=
  | Calling (m : M) | Sizing (m : M) | Queueing (m : M) | Handing (m : M) (c : nat)
  | Offering (m : M) (c : nat) | Acquiring (m : M) | Adding (m : M) | Returned (m : M) (r : result unit).
Arguments Calling {M}. Arguments Sizing {M}. Arguments Queueing {M}. Arguments Handing {M}.
Arguments Offering {M}. Arguments Acquiring {M}. Arguments Adding {M}. Arguments Returned {M}.

(** Where the goroutine is: waiting for a queue; waiting for the first message of a batch;
    with a message whose bytes are to be released; taking further messages; with a batch for
    the client; after the loop of a queue; and returned. *)
Inductive loop (M : Type) :=
  | Awaiting | Taking (c : nat) | Releasing (c : nat) (buf : list M) (mSize remainSize : Z)
  | Filling (c : nat) (buf : list M) (remainSize : Z) | Posting (c : nat) (buf : list M) | Clearing | Gone.
Arguments Awaiting {M}. Arguments Taking {M}. Arguments Releasing {M}. Arguments Filling {M}.
Arguments Posting {M}. Arguments Clearing {M}. Arguments Gone {M}.

(** A queue is known by its number; [chans] has what is in each.  [accepted] are the messages
    put into a queue, [taken] those taken out, [handed] the batches the client got with its
    answers, [discarded] what a stop found in an unfinished batch. *)
Record RaftPeer (M : Type) := {
  chans : list (list M); currentMsgCh : option nat; msgQueueCh : option nat;
  queueMu : option nat; closed : bool;
  senders : list (sender M); goroutine : loop M;
  accepted : list M; taken : list M; handed : list (list M * result unit); discarded : list M
}.
Arguments chans {M}. Arguments currentMsgCh {M}. Arguments msgQueueCh {M}. Arguments queueMu {M}. Arguments closed {M}.
Arguments senders {M}. Arguments goroutine {M}. Arguments accepted {M}. Arguments taken {M}. Arguments handed {M}. Arguments discarded {M}.

Definition New {M} : RaftPeer M :=
  {| chans := []; currentMsgCh := None; msgQueueCh := None; queueMu := None; closed := false; senders := []; goroutine := Awaiting;
     accepted := []; taken := []; handed := []; discarded := [] |}.

(** What the peers of a transport share. *)
Record Common (L B R : Type) := { memoryLimiter : L; breaker : B; reported : list R }.
Arguments memoryLimiter {L B R}. Arguments breaker {L B R}. Arguments reported {L B R}.

Section updates.
Context {M : Type}.
Implicit Types p : RaftPeer M.

Definition at_sender (i : nat) (s : sender M) p : RaftPeer M :=
  {| chans := chans p; currentMsgCh := currentMsgCh p; msgQueueCh := msgQueueCh p; queueMu := queueMu p; closed := closed p;
     senders := <[i := s]> (senders p); goroutine := goroutine p; accepted := accepted p; taken := taken p; handed := handed p; discarded := discarded p |}.
Definition at_loop (g : loop M) p : RaftPeer M :=
  {| chans := chans p; currentMsgCh := currentMsgCh p; msgQueueCh := msgQueueCh p; queueMu := queueMu p; closed := closed p;
     senders := senders p; goroutine := g; accepted := accepted p; taken := taken p; handed := handed p; discarded := discarded p |}.
Definition with_queues (chs : list (list M)) (cur queued lock : option nat) p : RaftPeer M :=
  {| chans := chs; currentMsgCh := cur; msgQueueCh := queued; queueMu := lock; closed := closed p;
     senders := senders p; goroutine := goroutine p; accepted := accepted p; taken := taken p; handed := handed p; discarded := discarded p |}.
Definition with_logs (acc tak : list M) (han : list (list M * result unit)) (dis : list M) p : RaftPeer M :=
  {| chans := chans p; currentMsgCh := currentMsgCh p; msgQueueCh := msgQueueCh p; queueMu := queueMu p; closed := closed p;
     senders := senders p; goroutine := goroutine p; accepted := acc; taken := tak; handed := han; discarded := dis |}.
Definition call (m : M) p : RaftPeer M :=
  {| chans := chans p; currentMsgCh := currentMsgCh p; msgQueueCh := msgQueueCh p; queueMu := queueMu p; closed := closed p;
     senders := senders p ++ [Calling m]; goroutine := goroutine p; accepted := accepted p; taken := taken p; handed := handed p; discarded := discarded p |}.
(** [Stop]: the client is closed, which makes its calls fail, and the goroutines are told. *)
Definition Stop p : RaftPeer M :=
  {| chans := chans p; currentMsgCh := currentMsgCh p; msgQueueCh := msgQueueCh p; queueMu := queueMu p; closed := true;
     senders := senders p; goroutine := goroutine p; accepted := accepted p; taken := taken p; handed := handed p; discarded := discarded p |}.

Definition content (c : nat) p : list M := default [] (chans p !! c).
(** A message into, and out of, queue [c]. *)
Definition put (c : nat) (m : M) p : RaftPeer M :=
  with_logs (accepted p ++ [m]) (taken p) (handed p) (discarded p)
    (with_queues (<[c := content c p ++ [m]]> (chans p)) (currentMsgCh p) (msgQueueCh p) (queueMu p) p).
Definition take_one (c : nat) (m : M) (q : list M) p : RaftPeer M :=
  with_logs (accepted p) (taken p ++ [m]) (handed p) (discarded p)
    (with_queues (<[c := q]> (chans p)) (currentMsgCh p) (msgQueueCh p) (queueMu p) p).
Definition discard (buf : list M) p : RaftPeer M := with_logs (accepted p) (taken p) (handed p) (discarded p ++ buf) p.
Definition hand (buf : list M) (r : result unit) p : RaftPeer M := with_logs (accepted p) (taken p) (handed p ++ [(buf, r)]) (discarded p) p.
End updates.

(** ** Operations *)

Section peer.
Context {M R L B : Type} `{!ResourceLimiter L} `{!Breaker B}.
Context (size : M → Z) (unreachable : M → list R) (errs : PeerErrors) (cfg : QueueConfig).
Implicit Types (w : Common L B R) (p : RaftPeer M).

Definition with_limiter (l : L) w : Common L B R := {| memoryLimiter := l; breaker := breaker w; reported := reported w |}.
Definition with_breaker (b : B) w : Common L B R := {| memoryLimiter := memoryLimiter w; breaker := b; reported := reported w |}.
Definition report (rs : list R) w : Common L B R := {| memoryLimiter := memoryLimiter w; breaker := breaker w; reported := reported w ++ rs |}.

(** [getQueue]; [None] when the caller has to wait for the lock.  [stop] is what a [select] takes
    when it can take the end of the peer as well as something else. *)
Definition getQueue (i : nat) (m : M) w p : option (Common L B R * RaftPeer M) :=
  match queueMu p, currentMsgCh p with
  | Some _, _ => None
  | None, Some msgCh => Some (w, at_sender i (Offering m msgCh) p)
  | None, None =>
      let w := with_limiter (Limiter_Reset (memoryLimiter w)) w in
      if closed p then Some (w, at_sender i (Returned m (Err ErrPeerStopped)) p)
      else
        let msgCh := length (chans p) in
        Some (w, at_sender i (Handing m msgCh) (with_queues (chans p ++ [[]]) (Some msgCh) (msgQueueCh p) (Some i) p))
  end.
Definition hand_over (stop : bool) (i : nat) (m : M) (msgCh : nat) w p : option (Common L B R * RaftPeer M) :=
  if closed p && (stop || bool_decide (msgQueueCh p ≠ None)) then
    Some (w, at_sender i (Returned m (Err (ErrStopped errs))) (with_queues (chans p) (currentMsgCh p) (msgQueueCh p) None p))
  else match msgQueueCh p with
       | Some _ => None
       | None => Some (w, at_sender i (Offering m msgCh) (with_queues (chans p) (currentMsgCh p) (Some msgCh) None p))
       end.

(** A step of a call of [SendRaftMessage]. *)
Definition SendRaftMessage (stop : bool) (i : nat) w p : option (Common L B R * RaftPeer M) :=
  s ← senders p !! i;
  match s with
  | Calling m =>
      let '(b, ready) := ReadyB (breaker w) in
      if ready : bool then Some (with_breaker b w, at_sender i (Sizing m) p)
      else Some (report (unreachable m) (with_breaker b w), at_sender i (Returned m (Err (ErrBreakerNotReady errs))) p)
  | Sizing m =>
      if Allow (size m) (memoryLimiter w) then Some (w, at_sender i (Queueing m) p)
      else Some (report (unreachable m) w, at_sender i (Returned m (Err (ErrReachMaxTotalSendMsgSize errs))) p)
  | Queueing m => getQueue i m w p
  | Handing m c => hand_over stop i m c w p
  | Offering m c =>
      let room := bool_decide (length (content c p) < RaftMsgQueueSize cfg)%nat in
      if closed p && (stop || negb room) then Some (w, at_sender i (Returned m (Err (ErrStopped errs))) p)
      else if room then Some (w, at_sender i (Acquiring m) (put c m p))
      else Some (w, at_sender i (Returned m (Err (ErrQueueFull errs))) p)
  | Acquiring m =>
      if Allow (size m) (memoryLimiter w) then Some (w, at_sender i (Adding m) p) else Some (w, at_sender i (Returned m (Ok tt)) p)
  | Adding m => Some (with_limiter (charge (size m) (memoryLimiter w)) w, at_sender i (Returned m (Ok tt)) p)
  | Returned _ _ => None
  end.

(** [msg := <-msgCh]: the message joins the batch. *)
Definition receive (c : nat) (buf : list M) (remainSize : Z) w p : option (Common L B R * RaftPeer M) :=
  match content c p with
  | [] => None
  | m :: q => Some (w, at_loop (Releasing c (buf ++ [m]) (size m) (i64 (remainSize - size m))) (take_one c m q p))
  end.

(** A step of [processRaftMessage] and [sendRaftMessageLoop]; [r] is what the client answers. *)
Definition processRaftMessage (stop : bool) (r : result unit) w p : option (Common L B R * RaftPeer M) :=
  match goroutine p with
  | Awaiting =>
      if closed p && (stop || bool_decide (msgQueueCh p = None)) then Some (w, at_loop Gone p)
      else msgCh ← msgQueueCh p; Some (w, at_loop (Taking msgCh) (with_queues (chans p) (currentMsgCh p) None (queueMu p) p))
  | Taking c =>
      if closed p && (stop || bool_decide (content c p = [])) then Some (w, at_loop Clearing p)
      else receive c [] (LimiterMaxBatchMessageSize cfg) w p
  | Releasing c buf mSize remainSize => Some (with_limiter (Release mSize (memoryLimiter w)) w, at_loop (Filling c buf remainSize) p)
  | Filling c buf remainSize =>
      if decide (0 < remainSize) then
        if closed p && (stop || bool_decide (content c p = [])) then Some (w, at_loop Clearing (discard buf p))
        else if decide (content c p = []) then Some (w, at_loop (Posting c buf) p)
        else receive c buf remainSize w p
      else Some (w, at_loop (Posting c buf) p)
  | Posting c buf =>
      match r with
      | Ok _ => Some (with_breaker (Success (breaker w)) w, at_loop (Taking c) (hand buf r p))
      | Err _ => Some (report (buf ≫= unreachable) (with_breaker (Fail_ (breaker w)) w), at_loop Clearing (hand buf r p))
      end
  | Clearing =>
      match queueMu p with
      | Some _ => None
      | None => Some (w, at_loop Awaiting (with_queues (chans p) None (msgQueueCh p) (queueMu p) p))
      end
  | Gone => None
  end.

(** ** The peers of a transport *)

Record Peers := { common : Common L B R; all : list (RaftPeer M) }.

(** What can happen: a peer is created or stopped, [SendRaftMessage] is called, and a call or
    the goroutine of a peer makes a step. *)
Inductive event := ENew | EStop (k : nat) | ECall (k : nat) (m : M) | ESend (k : nat) (stop : bool) (i : nat) | ELoop (k : nat) (stop : bool) (r : result unit).

Definition set_peer (k : nat) (x : Common L B R * RaftPeer M) (t : Peers) : Peers := {| common := x.1; all := <[k := x.2]> (all t) |}.
Definition step (e : event) (t : Peers) : option Peers :=
  let w := common t in
  match e with
  | ENew => Some {| common := w; all := all t ++ [New] |}
  | EStop k => p ← all t !! k; Some (set_peer k (w, Stop p) t)
  | ECall k m => p ← all t !! k; Some (set_peer k (w, call m p) t)
  | ESend k stop i => p ← all t !! k; x ← SendRaftMessage stop i w p; Some (set_peer k x t)
  | ELoop k stop r => p ← all t !! k; x ← processRaftMessage stop r w p; Some (set_peer k x t)
  end.
Fixpoint run (es : list event) (t : Peers) : option Peers :=
  match es with [] => Some t | e :: es => t ← step e t; run es t end.

(** ** The state of a peer *)

(** The queue and the batch the goroutine works on. *)
Definition loop_chan (g : loop M) : option nat :=
  match g with Taking c | Releasing c _ _ _ | Filling c _ _ | Posting c _ => Some c | _ => None end.
Definition held (g : loop M) : list M :=
  match g with Releasing _ buf _ _ | Filling _ buf _ | Posting _ buf => buf | _ => [] end.
Definition resting (g : loop M) : Prop := g = Awaiting ∨ g = Gone.

(** A new queue goes from the caller that created it, over the channel of queues, to the
    goroutine; it is the last one that was created, and is current until it is given up. *)
Record phases p : Prop := {
  phase_lock i : queueMu p = Some i → ∃ m c, senders p !! i = Some (Handing m c) ∧ currentMsgCh p = Some c ∧ msgQueueCh p = None ∧ resting (goroutine p);
  phase_handing i m c : senders p !! i = Some (Handing m c) → queueMu p = Some i;
  phase_queued c : msgQueueCh p = Some c → currentMsgCh p = Some c ∧ resting (goroutine p);
  phase_working c : loop_chan (goroutine p) = Some c → currentMsgCh p = Some c;
  phase_clearing : goroutine p = Clearing → currentMsgCh p ≠ None;
  phase_current c : currentMsgCh p = Some c → S c = length (chans p);
  phase_open : closed p = false → goroutine p ≠ Gone ∧ (goroutine p = Awaiting → currentMsgCh p ≠ None → queueMu p ≠ None ∨ msgQueueCh p ≠ None)
}.

Lemma phases_new : phases New.
Proof. split; cbn; naive_solver. Qed.

(** A caller that is not handing a queue over moves on. *)
Lemma phases_sender p i s s' : phases p → senders p !! i = Some s → (∀ m c, s ≠ Handing m c) → (∀ m c, s' ≠ Handing m c) → phases (at_sender i s' p).
Proof.
  intros [Hlock Hhanding Hqueued Hworking Hclearing Hcurrent Hopen] Hi Hs Hs'. split; cbn; try done.
  - intros j Hj. destruct (Hlock j Hj) as (m & c & ? & ?). exists m, c. split; [|done].
    rewrite list_lookup_insert_ne; [done|]. intros ->. naive_solver.
  - intros j m c. rewrite list_lookup_insert_Some. intros [(-> & -> & ?)|[? ?]]; [by destruct (Hs' m c)|by eapply Hhanding].
Qed.
Lemma phases_put p c m : phases p → phases (put c m p).
Proof. intros [Hlock Hhanding Hqueued Hworking Hclearing Hcurrent Hopen]. split; cbn; try done. by rewrite length_insert. Qed.
Lemma phases_call p m : phases p → phases (call m p).
Proof.
  intros [Hlock Hhanding Hqueued Hworking Hclearing Hcurrent Hopen]. split; cbn; try done.
  - intros j Hj. destruct (Hlock j Hj) as (m' & c & ? & ?). exists m', c. split; [|done]. by apply lookup_app_l_Some.
  - intros j m' c. rewrite lookup_app_Some, list_lookup_singleton_Some. intros [?|(? & ? & ?)]; [by eapply Hhanding|done].
Qed.
Lemma phases_stop p : phases p → phases (Stop p).
Proof. intros [Hlock Hhanding Hqueued Hworking Hclearing Hcurrent Hopen]. split; cbn; naive_solver. Qed.

Lemma phases_getQueue i m w p x : phases p → senders p !! i = Some (Queueing m) → getQueue i m w p = Some x → phases x.2.
Proof.
  intros Hp Hi. unfold getQueue. destruct (queueMu p) eqn:El; [done|]. destruct (currentMsgCh p) as [c|] eqn:Ec.
  { intros [= <-]. by eapply phases_sender. }
  destruct (closed p) eqn:Ed; intros [= <-]; [by eapply phases_sender|]. destruct Hp as [Hlock Hhanding Hqueued Hworking Hclearing Hcurrent Hopen].
  assert (msgQueueCh p = None) as Hq by (destruct (msgQueueCh p) as [c|]; [destruct (Hqueued c); congruence|done]).
  assert (resting (goroutine p)) as Hrest.
  { destruct (goroutine p); cbn in *; try (specialize (Hworking _ eq_refl); congruence); [by left| |by right]. by destruct (Hclearing eq_refl). }
  split; cbn; rewrite ?Hq.
  - intros j [= <-]. exists m, (length (chans p)). rewrite list_lookup_insert_eq by (by eapply lookup_lt_Some). done.
  - intros j m' c. rewrite list_lookup_insert_Some. intros [(-> & [= <- <-] & ?)|[? Hj]]; [done|]. apply Hhanding in Hj. congruence.
  - done.
  - intros c Hc. by destruct Hrest as [E|E]; rewrite E in Hc.
  - done.
  - intros c [= <-]. rewrite length_app. cbn. lia.
  - intros _. split; [by apply Hopen|]. by left.
Qed.
Lemma phases_hand_over stop i m c w p x : phases p → senders p !! i = Some (Handing m c) → hand_over stop i m c w p = Some x → phases x.2.
Proof.
  intros [Hlock Hhanding Hqueued Hworking Hclearing Hcurrent Hopen] Hi. pose proof (Hhanding _ _ _ Hi) as Hm. destruct (Hlock i Hm) as (m' & c' & Hi' & Hc & Hq & Hr).
  assert (m' = m ∧ c' = c) as [-> ->] by (rewrite Hi in Hi'; by simplify_eq). clear Hi'.
  assert (∀ s j m' c', (∀ m c, s ≠ Handing m c) → <[i := s]> (senders p) !! j = Some (Handing m' c') → False) as Hno.
  { intros s j m' c' Hs. rewrite list_lookup_insert_Some. intros [(-> & -> & ?)|[? ?]]; [by eapply Hs|]. pose proof (Hhanding _ _ _ H0). congruence. }
  unfold hand_over. rewrite Hq, (bool_decide_false (None ≠ None)), orb_false_r by (by intros []).
  destruct (closed p && stop) eqn:Ed; intros [= <-]; (split; cbn; [done| | |done|done|done|]).
  - intros j m' c' Hj. by apply Hno in Hj.
  - done.
  - intros E. by rewrite E in Ed.
  - intros j m' c' Hj. by apply Hno in Hj.
  - by intros c' [= <-].
  - intros E. split; [by apply Hopen|]. by right.
Qed.

Lemma phases_send stop i w p x : phases p → SendRaftMessage stop i w p = Some x → phases x.2.
Proof.
  intros Hp. unfold SendRaftMessage. destruct (senders p !! i) as [s|] eqn:Hi; [|done]. cbn.
  destruct s as [m|m|m|m c|m c|m|m|m r]; try (by eauto using phases_getQueue, phases_hand_over); try (by intros [= <-]; eapply phases_sender).
  - destruct (ReadyB (breaker w)) as [b []]; intros [= <-]; by eapply phases_sender.
  - destruct (Allow _ _); intros [= <-]; by eapply phases_sender.
  - destruct (_ && _); [|destruct (bool_decide _)]; intros [= <-]; cbn; (eapply phases_sender; [by try apply phases_put|done..]).
  - destruct (Allow _ _); intros [= <-]; by eapply phases_sender.
Qed.

(** The goroutine moves on, with the queue it has. *)
Lemma phases_loop p p' : phases p →
  chans p' = chans p ∨ (∃ c q, chans p' = <[c := q]> (chans p)) → currentMsgCh p' = currentMsgCh p → msgQueueCh p' = msgQueueCh p →
  queueMu p' = queueMu p → closed p' = closed p → senders p' = senders p →
  is_Some (loop_chan (goroutine p)) → loop_chan (goroutine p') = loop_chan (goroutine p) ∨ goroutine p' = Clearing → phases p'.
Proof.
  intros [Hlock Hhanding Hqueued Hworking Hclearing Hcurrent Hopen] Hch Ec Eq El Ed Es [c Hg] Hg'. pose proof (Hworking _ Hg) as Hc.
  assert (length (chans p') = length (chans p)) as Elen by (destruct Hch as [->|(?&?&->)]; [done|apply length_insert]).
  assert (¬ resting (goroutine p)) as Hnr by (by intros [E|E]; rewrite E in Hg).
  assert (goroutine p' ≠ Awaiting ∧ goroutine p' ≠ Gone) as [? ?] by (destruct Hg' as [Hg'|Hg']; rewrite ?Hg in Hg'; split; intros E; by rewrite E in Hg').
  split; rewrite ?Ec, ?Eq, ?El, ?Ed, ?Es, ?Elen; try done.
  - intros i Hi. by destruct (Hlock i Hi) as (? & ? & _ & _ & _ & ?).
  - intros c' Hc'. by destruct (Hqueued c' Hc').
  - intros c' Hc'. destruct Hg' as [E|E]; rewrite E in Hc'; [|done]. by apply Hworking.
  - by rewrite Hc.
Qed.

Lemma phases_process stop r w p x : phases p → processRaftMessage stop r w p = Some x → phases x.2.
Proof.
  intros Hp. unfold processRaftMessage. destruct (goroutine p) as [|c|c buf n k|c buf k|c buf| |] eqn:Eg.
  - destruct Hp as [Hlock Hhanding Hqueued Hworking Hclearing Hcurrent Hopen]. destruct (_ && _) eqn:Ed.
    + apply andb_true_iff in Ed as [Ed _]. intros [= <-]. split; cbn; try done.
      * intros i Hi. destruct (Hlock i Hi) as (m & c & ? & ? & ? & _). exists m, c. repeat split; try done. by right.
      * intros c Hc. destruct (Hqueued c Hc). split; [done|by right].
      * by rewrite Ed.
    + destruct (msgQueueCh p) as [c|] eqn:Eq; [|done]. cbn. intros [= <-]. destruct (Hqueued c) as [Hc _]; [done|].
      split; cbn; try done.
      * intros i Hi. by destruct (Hlock i Hi) as (? & ? & _ & _ & [=] & _).
      * by intros c' [= <-].
  - unfold receive. destruct (_ && _); [|destruct (content c p)]; intros [= <-]; eapply phases_loop; eauto; cbn; rewrite ?Eg; eauto.
  - intros [= <-]. eapply phases_loop; eauto; cbn; rewrite ?Eg; eauto.
  - unfold receive. case_decide; [|intros [= <-]; eapply phases_loop; eauto; cbn; rewrite ?Eg; eauto].
    destruct (_ && _); [|case_decide; [|destruct (content c p)]]; intros [= <-]; eapply phases_loop; eauto; cbn; rewrite ?Eg; eauto.
  - destruct r; intros [= <-]; eapply phases_loop; eauto; cbn; rewrite ?Eg; eauto.
  - destruct (queueMu p) eqn:El; intros [= <-]. destruct Hp as [Hlock Hhanding Hqueued Hworking Hclearing Hcurrent Hopen].
    assert (msgQueueCh p = None) as Hq by (destruct (msgQueueCh p) eqn:E; [destruct (Hqueued n) as [_ [?|?]]; congruence|done]).
    split; cbn; rewrite ?El, ?Hq; try done. intros i m c Hi. apply Hhanding in Hi. congruence.
  - done.
Qed.

(** ** The messages of a peer *)

Definition total (l : list M) : Z := foldr (λ m n, size m + n) 0 l.
(** A batch takes messages until their size reaches the limit. *)
Definition batch_ok (buf : list M) : Prop := ∃ l m, buf = l ++ [m] ∧ (l = [] ∨ total l < LimiterMaxBatchMessageSize cfg).

(** The queue messages are taken from next. *)
Definition live p : list M := match currentMsgCh p with Some c => content c p | None => [] end.
(** A call that put its message into a queue, and the queue a call has. *)
Definition accepted_by (s : sender M) : option M :=
  match s with Acquiring m | Adding m | Returned m (Ok _) => Some m | _ => None end.
Definition offered (s : sender M) : option nat := match s with Handing _ c | Offering _ c => Some c | _ => None end.
Definition batches p : list M := concat (handed p).*1.

(** Where the messages are. *)
Record flows p : Prop := {
  flow_order : taken p ++ live p `sublist_of` accepted p;
  flow_batches : batches p ++ held (goroutine p) `sublist_of` taken p;
  flow_all : accepted p ≡ₚ batches p ++ held (goroutine p) ++ discarded p ++ concat (chans p);
  flow_calls : accepted p ≡ₚ omap accepted_by (senders p);
  flow_room : Forall (λ q, (length q <= RaftMsgQueueSize cfg)%nat) (chans p);
  flow_offers i s c : senders p !! i = Some s → offered s = Some c → (c < length (chans p))%nat;
  flow_sizes : Forall batch_ok (handed p).*1;
  flow_filling : match goroutine p with
                 | Releasing _ buf _ k | Filling _ buf k => batch_ok buf ∧ k = LimiterMaxBatchMessageSize cfg - total buf
                 | Posting _ buf => batch_ok buf
                 | _ => True
                 end;
  flow_clean : closed p = false → Forall (λ b, b.2 = Ok tt) (handed p) →
    goroutine p ≠ Clearing ∧ (currentMsgCh p = None → chans p = []) ∧ (length (chans p) <= 1)%nat ∧
    accepted p = batches p ++ held (goroutine p) ++ concat (chans p)
}.

Lemma flows_new : flows New.
Proof. split; cbn; try done. intros. split; [done|]. split; [done|]. split; [lia|done]. Qed.

Lemma omap_insert_same {A C} (f : A → option C) (l : list A) i x y : l !! i = Some x → f y = f x → omap f (<[i := y]> l) = omap f l.
Proof. revert i. induction l as [|z l IH]; intros [|i] Hi Hf; simplify_eq/=; [by rewrite Hf|]. by rewrite IH. Qed.
Lemma omap_insert_new {A C} (f : A → option C) (l : list A) i x y c : l !! i = Some x → f x = None → f y = Some c → omap f (<[i := y]> l) ≡ₚ omap f l ++ [c].
Proof.
  revert i. induction l as [|z l IH]; intros [|i] Hi Hx Hy; simplify_eq/=.
  - rewrite Hy, Hx. by rewrite Permutation_app_comm.
  - destruct (f z); rewrite (IH i); done.
Qed.

(** A call moves on without its message going anywhere. *)
Lemma flows_sender p i s s' : flows p → senders p !! i = Some s → accepted_by s' = accepted_by s →
  (∀ c, offered s' = Some c → (c < length (chans p))%nat) → flows (at_sender i s' p).
Proof.
  intros [] Hi Ha Ho. split; cbn; try done.
  - by rewrite (omap_insert_same _ _ _ s).
  - intros j t c. rewrite list_lookup_insert_Some. intros [(-> & -> & ?)|[? ?]]; [apply Ho|by eapply flow_offers0].
Qed.

Lemma concat_insert_perm {A} (l : list (list A)) i q x : l !! i = Some q → concat (<[i := q ++ x]> l) ≡ₚ concat l ++ x.
Proof.
  revert i. induction l as [|z l IH]; intros [|i] Hi; simplify_eq/=.
  - rewrite <-!app_assoc. apply Permutation_app_head, Permutation_app_comm.
  - by rewrite (IH i), app_assoc.
Qed.

Lemma flows_put p i m c : flows p → senders p !! i = Some (Offering m c) → (length (content c p) < RaftMsgQueueSize cfg)%nat →
  flows (at_sender i (Acquiring m) (put c m p)).
Proof.
  intros [] Hi Hroom. assert (c < length (chans p))%nat as Hc by (by eapply flow_offers0).
  destruct (lookup_lt_is_Some_2 _ _ Hc) as [q Hq]. assert (content c p = q) as Eq by (unfold content; by rewrite Hq).
  rewrite Eq in Hroom. split; cbn; rewrite ?Eq; try done.
  - unfold live in *. cbn. destruct (currentMsgCh p) as [c'|]; [|by apply sublist_inserts_r].
    change (taken p ++ default [] (<[c := content c p ++ [m]]> (chans p) !! c') `sublist_of` accepted p ++ [m]).
    destruct (decide (c' = c)) as [->|].
    + rewrite list_lookup_insert_eq by done. cbn. rewrite app_assoc. by apply sublist_app.
    + rewrite list_lookup_insert_ne by done. by apply sublist_inserts_r.
  - rewrite (concat_insert_perm _ _ _ _ Hq), flow_all0. by rewrite <-!app_assoc.
  - rewrite (omap_insert_new _ _ _ (Offering m c) _ m) by done. by rewrite flow_calls0.
  - apply Forall_insert; [done|]. rewrite length_app. cbn. lia.
  - intros j t c'. rewrite length_insert, list_lookup_insert_Some. intros [(-> & <- & ?)|[? ?]]; [done|by eapply flow_offers0].
  - intros Hopen Hok. destruct (flow_clean0 Hopen Hok) as (? & Hnone & Hlen & Hacc). rewrite length_insert. split; [done|]. split.
    { intros E. rewrite (Hnone E) in Hc. cbn in Hc. lia. }
    split; [done|]. rewrite Hacc. destruct (chans p) as [|q0 [|]]; cbn in *; [lia| |lia]. destruct c; [|lia]. simplify_eq/=.
    by rewrite !app_nil_r, <-!app_assoc.
Qed.

Lemma flows_getQueue i m w p x : phases p → flows p → senders p !! i = Some (Queueing m) → getQueue i m w p = Some x → flows x.2.
Proof.
  intros Hp Hf Hi. unfold getQueue. destruct (queueMu p); [done|]. destruct (currentMsgCh p) as [c|] eqn:Ec.
  { intros [= <-]. eapply flows_sender; [done..|]. cbn. intros ? [= <-]. pose proof (phase_current p Hp c Ec). lia. }
  destruct (closed p) eqn:Ed; intros [= <-]; [by eapply flows_sender|]. destruct Hf. split; cbn; try done.
  - unfold live, content. cbn. rewrite lookup_app_r, Nat.sub_diag by lia. cbn. rewrite app_nil_r. etrans; [|done]. by apply sublist_inserts_r.
  - rewrite flow_all0, concat_app. cbn. by rewrite app_nil_r.
  - by rewrite (omap_insert_same _ _ _ (Queueing m)).
  - apply Forall_app. split; [done|]. constructor; [cbn; lia|done].
  - intros j t c. rewrite length_app, list_lookup_insert_Some. cbn. intros [(-> & <- & ?)|[? Hj]] Ho; [injection Ho as <-; lia|].
    pose proof (flow_offers0 j t c Hj Ho). lia.
  - intros _ Hok. destruct (flow_clean0 Ed Hok) as (? & Hnone & Hlen & Hacc). rewrite (Hnone Ec) in *. split; [done|]. split; [done|]. split; [done|].
    by rewrite Hacc.
Qed.
Lemma flows_hand_over stop i m c w p x : phases p → flows p → senders p !! i = Some (Handing m c) → hand_over stop i m c w p = Some x → flows x.2.
Proof.
  intros Hp Hf Hi. pose proof (flow_offers p Hf i _ c Hi eq_refl) as Hc. unfold hand_over.
  assert (∀ q l, flows (with_queues (chans p) (currentMsgCh p) q l p)) as Hq by (intros; destruct Hf; by split).
  destruct (_ && _); [|destruct (msgQueueCh p)]; intros [= <-]; cbn; (eapply flows_sender; [apply Hq|done|done|]); cbn; naive_solver.
Qed.
Lemma flows_send stop i w p x : phases p → flows p → SendRaftMessage stop i w p = Some x → flows x.2.
Proof.
  intros Hp Hf. unfold SendRaftMessage. destruct (senders p !! i) as [s|] eqn:Hi; [|done]. cbn.
  destruct s as [m|m|m|m c|m c|m|m|m r]; try (by eauto using flows_getQueue, flows_hand_over); try (by intros [= <-]; eapply flows_sender).
  - destruct (ReadyB (breaker w)) as [b []]; intros [= <-]; by eapply flows_sender.
  - destruct (Allow _ _); intros [= <-]; by eapply flows_sender.
  - destruct (_ && _); [intros [= <-]; by eapply flows_sender|]. case_bool_decide; intros [= <-]; [by apply flows_put|by eapply flows_sender].
  - destruct (Allow _ _); intros [= <-]; by eapply flows_sender.
Qed.

(** *** The goroutine *)

Section goroutine.
Context (Hsize : ∀ m, 0 <= size m < 2 ^ 63) (Hlimit : 0 <= LimiterMaxBatchMessageSize cfg < 2 ^ 63).

Lemma total_app l k : total (l ++ k) = total l + total k.
Proof. unfold total. induction l as [|m l IH]; cbn; [done|]. rewrite IH. lia. Qed.

Lemma total_nonneg l : 0 <= total l.
Proof. unfold total. induction l as [|m l IH]; cbn; [done|]. pose proof (Hsize m). lia. Qed.

Lemma concat_insert_cons {A} (l : list (list A)) i x q : l !! i = Some (x :: q) → concat l ≡ₚ x :: concat (<[i := q]> l).
Proof.
  revert i. induction l as [|z l IH]; intros [|i] Hi; simplify_eq/=; [done|]. rewrite (IH i) at 1 by done. by rewrite Permutation_middle.
Qed.

(** A message goes from the queue into the batch. *)
Lemma flows_receive c buf k w p x : phases p → flows p → loop_chan (goroutine p) = Some c → held (goroutine p) = buf →
  k = LimiterMaxBatchMessageSize cfg - total buf → (buf = [] ∨ 0 < k) →
  receive c buf k w p = Some x → flows x.2.
Proof.
  intros Hp [] Hg Hh Hk Hmore. unfold receive. destruct (content c p) as [|m q] eqn:Eq; [done|]. intros [= <-].
  assert (chans p !! c = Some (m :: q)) as Hq.
  { unfold content in Eq. destruct (chans p !! c); cbn in Eq; [by f_equal|done]. }
  pose proof (phase_working p Hp c Hg) as Hc. pose proof (lookup_lt_Some _ _ _ Hq) as Hlt. subst buf.
  split; cbn; try done.
  - unfold live in *. cbn. rewrite Hc in *. rewrite Eq in flow_order0. unfold content. cbn. rewrite list_lookup_insert_eq by done. cbn.
    by rewrite <-app_assoc.
  - rewrite app_assoc. by apply sublist_app.
  - rewrite flow_all0, (concat_insert_cons _ _ _ _ Hq). rewrite <-app_assoc. solve_Permutation.
  - apply Forall_insert; [done|]. apply (Forall_lookup_1 _ _ _ _ flow_room0) in Hq. cbn in Hq. lia.
  - intros j t c'. rewrite length_insert. apply flow_offers0.
  - split; [exists (held (goroutine p)), m; split; [done|]; destruct Hmore; [by left|right; lia]|].
    rewrite total_app. cbn. rewrite i64_small; [lia|]. pose proof (Hsize m). destruct Hmore as [E|?]; [rewrite E in Hk; cbn in Hk; lia|]. 
    pose proof (total_nonneg (held (goroutine p))). lia.
  - intros Hopen Hok. destruct (flow_clean0 Hopen Hok) as (? & Hnone & Hlen & Hacc). rewrite length_insert. split; [done|]. split; [congruence|]. split; [done|].
    rewrite Hacc. destruct (chans p) as [|q0 [|]]; cbn in *; [lia| |lia]. destruct c; [|lia]. simplify_eq/=. by rewrite !app_nil_r, <-!app_assoc.
Qed.

(** The goroutine moves on with the batch it has. *)
Lemma flows_loop p g : flows p → held g = held (goroutine p) →
  match g with
  | Releasing _ buf _ k | Filling _ buf k => batch_ok buf ∧ k = LimiterMaxBatchMessageSize cfg - total buf
  | Posting _ buf => batch_ok buf
  | _ => True
  end → (g = Clearing → closed p = true) → flows (at_loop g p).
Proof.
  intros [] Hh Hg Hc. split; cbn; rewrite ?Hh; try done. intros Hopen Hok. destruct (flow_clean0 Hopen Hok) as (? & ? & ? & ?).
  split; [|done]. intros ->. rewrite Hc in Hopen; done.
Qed.
Lemma flows_posted p c buf r : flows p → goroutine p = Posting c buf → flows (at_loop (match r with Ok _ => Taking c | Err _ => Clearing end) (hand buf r p)).
Proof.
  intros [] Hg. rewrite Hg in *. cbn in *.
  assert (held (match r with Ok _ => Taking c | Err _ => Clearing end) = []) as Hh by (by destruct r).
  assert (batches (hand buf r p) = batches p ++ buf) as Hb by (unfold batches; cbn; rewrite fmap_app, concat_app; cbn; by rewrite app_nil_r).
  split; cbn; rewrite ?Hh; try done.
  - change (batches (hand buf r p) ++ [] `sublist_of` taken p). by rewrite Hb, app_nil_r.
  - change (accepted p ≡ₚ batches (hand buf r p) ++ discarded p ++ concat (chans p)). by rewrite Hb, <-app_assoc.
  - rewrite fmap_app. apply Forall_app. split; [done|]. by constructor.
  - by destruct r.
  - intros Hopen Hok. apply Forall_app in Hok as [Hok Hr]. apply Forall_cons_1 in Hr as [Hr _]. destruct r as [[]|e]; [|done].
    destruct (flow_clean0 Hopen Hok) as (? & ? & ? & Hacc). split; [done|]. split; [done|]. split; [done|].
    change (accepted p = batches (hand buf (Ok tt) p) ++ concat (chans p)). by rewrite Hb, <-app_assoc.
Qed.
Lemma flows_discard p c buf k : flows p → goroutine p = Filling c buf k → closed p = true → flows (at_loop Clearing (discard buf p)).
Proof.
  intros [] Hg Hc. rewrite Hg in *. cbn in *. split; cbn; try done.
  - change (batches p ++ [] `sublist_of` taken p). rewrite app_nil_r. etrans; [|done]. by apply sublist_inserts_r.
  - change (accepted p ≡ₚ batches p ++ (discarded p ++ buf) ++ concat (chans p)). rewrite flow_all0. solve_Permutation.
  - congruence.
Qed.

Lemma flows_process stop r w p x : phases p → flows p → processRaftMessage stop r w p = Some x → flows x.2.
Proof.
  intros Hp Hf. pose proof (flow_filling p Hf) as Hfill. unfold processRaftMessage. destruct (goroutine p) as [|c|c buf n k|c buf k|c buf| |] eqn:Eg.
  - destruct (_ && _); [intros [= <-]; apply flows_loop; [done|by rewrite Eg|done..]|].
    destruct (msgQueueCh p) as [c|]; [|done]. cbn. intros [= <-].
    change (flows (at_loop (Taking c) (with_queues (chans p) (currentMsgCh p) None (queueMu p) p))). apply flows_loop; [|by cbn; rewrite Eg|done..].
    destruct Hf; by split.
  - destruct (_ && _) eqn:Ed.
    + apply andb_true_iff in Ed as [Ed _]. intros [= <-]. apply flows_loop; [done|by rewrite Eg|done..].
    + apply flows_receive; try done; rewrite ?Eg; try done; cbn; [lia|by left].
  - intros [= <-]. apply flows_loop; [done|by rewrite Eg|done..].
  - destruct Hfill as [Hb Hk]. case_decide; [|intros [= <-]; apply flows_loop; [done|by rewrite Eg|done..]].
    destruct (_ && _) eqn:Ed.
    + apply andb_true_iff in Ed as [Ed _]. intros [= <-]. by eapply flows_discard.
    + case_decide; [intros [= <-]; apply flows_loop; [done|by rewrite Eg|done..]|].
      apply flows_receive; try done; rewrite ?Eg; try done. by right.
  - pose proof (flows_posted p c buf r Hf Eg) as Hpost. destruct r; by intros [= <-].
  - destruct (queueMu p); [done|]. intros [= <-]. destruct Hf. split; cbn; try done.
    + unfold live. cbn. rewrite app_nil_r. etrans; [|done]. by apply sublist_inserts_r.
    + by rewrite Eg in *.
    + by rewrite Eg in *.
    + intros Hopen Hok. destruct (flow_clean0 Hopen Hok) as (? & _). by rewrite Eg in *.
  - done.
Qed.

(** ** All peers *)

Definition in_order (t : Peers) : Prop := ∀ k p, all t !! k = Some p → phases p ∧ flows p.

Lemma set_in_order k x t : in_order t → phases x.2 → flows x.2 → in_order (set_peer k x t).
Proof. intros Ht ? ? j p. cbn. rewrite list_lookup_insert_Some. intros [(-> & <- & ?)|[? ?]]; [done|by eapply Ht]. Qed.
Lemma flows_call p m : flows p → flows (call m p).
Proof.
  intros []. split; cbn; try done.
  - rewrite omap_app. cbn. by rewrite app_nil_r.
  - intros j s c. rewrite lookup_app_Some, list_lookup_singleton_Some. intros [?|(? & ? & <-)]; [by eapply flow_offers0|done].
Qed.
Lemma flows_stop p : flows p → flows (Stop p).
Proof. intros []. by split. Qed.

Lemma step_in_order e t t' : in_order t → step e t = Some t' → in_order t'.
Proof.
  intros Ht. destruct e as [|k|k m|k stop i|k stop r]; cbn.
  { intros [= <-] j p. cbn. rewrite lookup_app_Some, list_lookup_singleton_Some. intros [?|(? & ? & <-)]; [by eapply Ht|].
    split; [apply phases_new|apply flows_new]. }
  all: destruct (all t !! k) as [p|] eqn:Hk; [|done]; cbn; destruct (Ht k p Hk) as [Hp Hf].
  - intros [= <-]. apply set_in_order; [done|by apply phases_stop|by apply flows_stop].
  - intros [= <-]. apply set_in_order; [done|by apply phases_call|by apply flows_call].
  - destruct (SendRaftMessage stop i (common t) p) as [x|] eqn:E; [|done]. cbn. intros [= <-].
    apply set_in_order; eauto using phases_send, flows_send.
  - destruct (processRaftMessage stop r (common t) p) as [x|] eqn:E; [|done]. cbn. intros [= <-].
    apply set_in_order; eauto using phases_process, flows_process.
Qed.
Lemma run_in_order es t t' : in_order t → run es t = Some t' → in_order t'.
Proof.
  revert t. induction es as [|e es IH]; cbn; intros t Ht; [by intros [= <-]|]. destruct (step e t) eqn:E; [|done]. cbn.
  apply IH. by eapply step_in_order.
Qed.
Definition start (w : Common L B R) : Peers := {| common := w; all := [] |}.
Lemma start_in_order w : in_order (start w).
Proof. intros k p. cbn. by rewrite lookup_nil. Qed.

(** C24: whatever the interleaving of callers and goroutines and whatever the client answers,
    the batches a peer hands to its client are, one after the other, messages that were
    accepted, in the order they were; a batch is not empty and is closed when its size
    reaches the limit; no queue outgrows its capacity; every message that [SendRaftMessage]
    accepted is in a batch the client got, in the batch being filled, in a batch a stop cut
    off, or in a queue; and none is missing or late while the client did not fail and the
    peer is not stopped. *)
Theorem messages_sent_in_order es w t k p : run es (start w) = Some t → all t !! k = Some p →
  batches p `sublist_of` accepted p ∧
  Forall batch_ok (handed p).*1 ∧
  Forall (λ q, (length q <= RaftMsgQueueSize cfg)%nat) (chans p) ∧
  accepted p ≡ₚ omap accepted_by (senders p) ∧
  accepted p ≡ₚ batches p ++ held (goroutine p) ++ discarded p ++ concat (chans p) ∧
  (closed p = false → Forall (λ b, b.2 = Ok tt) (handed p) → accepted p = batches p ++ held (goroutine p) ++ live p).
Proof.
  intros Hr Hk. destruct (run_in_order _ _ _ (start_in_order w) Hr k p Hk) as [Hp Hf]. destruct Hf.
  split; [|do 4 (split; [done|])].
  - transitivity (taken p); [etrans; [|done]; by apply sublist_inserts_r|]. etrans; [|done]. by apply sublist_inserts_r.
  - intros Hopen Hok. destruct (flow_clean0 Hopen Hok) as (_ & Hnone & Hlen & ->). do 2 f_equal. unfold live, content.
    destruct (currentMsgCh p) as [c|] eqn:Ec; [|by rewrite Hnone]. pose proof (phase_current p Hp c Ec).
    destruct (chans p) as [|q [|]]; cbn in *; [lia| |lia]. destruct c; [|lia]. by rewrite app_nil_r.
Qed.

(** C25: no goroutine of a peer gets stuck.  A caller that holds the lock with a new queue can
    hand it over; when nobody holds the lock, every caller that has not returned can go on;
    while messages wait in the current queue and the lock is free the goroutine of the peer
    can go on, whatever the client answers; and after a stop it can go on until it returns. *)
Theorem peer_never_stuck es w t k p : run es (start w) = Some t → all t !! k = Some p →
  (∀ i stop, queueMu p = Some i → is_Some (SendRaftMessage stop i (common t) p)) ∧
  (∀ i s stop, queueMu p = None → senders p !! i = Some s → (∃ m r, s = Returned m r) ∨ is_Some (SendRaftMessage stop i (common t) p)) ∧
  (∀ stop r, queueMu p = None → live p ≠ [] ∨ closed p = true → goroutine p = Gone ∧ closed p = true ∨ is_Some (processRaftMessage stop r (common t) p)).
Proof.
  intros Hr Hk. destruct (run_in_order _ _ _ (start_in_order w) Hr k p Hk) as [[Hlock Hhanding Hqueued Hworking Hclearing Hcurrent Hopen] _].
  split; [|split].
  - intros i stop Hi. destruct (Hlock i Hi) as (m & c & Hs & _ & Hq & _). unfold SendRaftMessage. rewrite Hs. cbn. unfold hand_over. rewrite Hq.
    by destruct (_ && _).
  - intros i s stop Hnone Hs. unfold SendRaftMessage. rewrite Hs. cbn.
    destruct s as [m|m|m|m c|m c|m|m|m r]; [right..|left; by eauto]; unfold getQueue; rewrite ?Hnone.
    + by destruct (ReadyB _) as [? []].
    + by destruct (Allow _ _).
    + destruct (currentMsgCh p), (closed p); done.
    + rewrite (Hhanding _ _ _ Hs) in Hnone. done.
    + destruct (_ && _); [done|]. by case_bool_decide.
    + by destruct (Allow _ _).
    + done.
  - intros stop r Hnone Hlive. unfold processRaftMessage, receive. destruct (goroutine p) as [|c|c buf n l|c buf l|c buf| |] eqn:Eg.
    + right. destruct (msgQueueCh p) as [c|] eqn:Eq; [destruct (_ && _); done|]. destruct (closed p) eqn:Ed; [by rewrite bool_decide_true, orb_true_r|].
      destruct Hlive as [Hlive|]; [|done]. unfold live in Hlive. destruct (currentMsgCh p) eqn:Ec; [|done].
      destruct (Hopen eq_refl) as [_ Ho]. destruct Ho; congruence.
    + right. assert (live p = content c p) as <- by (unfold live; by rewrite (Hworking c eq_refl)).
      destruct (live p); [|by destruct (_ && _)]. destruct (closed p) eqn:Ed; [by rewrite bool_decide_true, orb_true_r|]. by destruct Hlive.
    + by right.
    + right. case_decide; [|done]. destruct (_ && _); [done|]. case_decide; [done|]. by destruct (content c p).
    + right. by destruct r.
    + right. by rewrite Hnone.
    + left. split; [done|]. destruct (closed p) eqn:Ed; [done|]. by destruct (Hopen eq_refl).
Qed.
End goroutine.

(** ** Reports *)

(** What is known to raft of the messages that were not sent. *)
Definition tells (rs : list R) p : Prop :=
  (∀ i m e, senders p !! i = Some (Returned m (Err e)) → e = ErrPeerStopped ∨ e = ErrStopped errs ∨ e = ErrQueueFull errs ∨ unreachable m ⊆ rs) ∧
  (∀ buf e, (buf, Err e) ∈ handed p → buf ≫= unreachable ⊆ rs).

Lemma tells_more rs rs' p : rs ⊆ rs' → tells rs p → tells rs' p.
Proof. intros Hrs [Hs Hb]. split; [|intros buf e Hin; etrans; [by eapply Hb|done]]. intros i m e Hi. destruct (Hs i m e Hi) as [|[|[|]]]; auto. do 3 right. by etrans. Qed.
Lemma tells_sender rs p i s : tells rs p →
  (∀ m e, s = Returned m (Err e) → e = ErrPeerStopped ∨ e = ErrStopped errs ∨ e = ErrQueueFull errs ∨ unreachable m ⊆ rs) → tells rs (at_sender i s p).
Proof. intros [Hs Hb] Hr. split; [|done]. intros j m e. cbn. rewrite list_lookup_insert_Some. intros [(-> & -> & _)|[_ ?]]; [by apply Hr|by eapply Hs]. Qed.

Lemma tells_send stop i w p x : tells (reported w) p → SendRaftMessage stop i w p = Some x → reported w ⊆ reported x.1 ∧ tells (reported x.1) x.2.
Proof.
  intros Hp. unfold SendRaftMessage. destruct (senders p !! i) as [s|]; [|done]. cbn.
  assert (∀ rs p', reported w ⊆ rs → senders p' = senders p → handed p' = handed p → tells rs p') as Hsame.
  { intros rs p' Hsub Es Eh. apply (tells_more (reported w)); [done|]. unfold tells. rewrite Es, Eh. apply Hp. }
  assert (∀ rs : list R, reported w ⊆ reported w ++ rs) as Hsub by (intros; by apply list_subseteq_app_l).
  unfold getQueue, hand_over. destruct s as [m|m|m|m c|m c|m|m|m r]; repeat case_match; intros; simplify_eq/=;
    (split; [done|]); (apply tells_sender; [by apply Hsame|]);
    intros ? ? [=]; subst; first [by left|by right; left|by right; right; left|do 3 right; by apply list_subseteq_app_r].
Qed.
Lemma tells_process stop r w p x : tells (reported w) p → processRaftMessage stop r w p = Some x → reported w ⊆ reported x.1 ∧ tells (reported x.1) x.2.
Proof.
  intros Hp. assert (∀ p', senders p' = senders p → handed p' = handed p → tells (reported w) p') as Hsame by (unfold tells; intros p' -> ->; apply Hp).
  unfold processRaftMessage, receive. destruct (goroutine p) as [|c|c buf n k|c buf k|c buf| |]; try destruct r as [[]|e];
    repeat case_match; intros; simplify_option_eq; try (split; [done|]; by apply Hsame); destruct Hp as [Hs Hb].
  - split; [done|]. split; [done|]. cbn. intros b e. rewrite elem_of_app, list_elem_of_singleton. intros [?|[=]]. by eapply Hb.
  - assert (reported w ⊆ reported w ++ (buf ≫= unreachable)) as Hsub by (by apply list_subseteq_app_l). split; [done|].
    apply (tells_more _ _ p) in Hsub; [|done]. destruct Hsub as [Hs' Hb']. split; [done|]. cbn. intros b e'.
    rewrite elem_of_app, list_elem_of_singleton. intros [?|[= -> ->]]; [by eapply Hb'|]. by apply list_subseteq_app_r.
Qed.

Definition all_tell (t : Peers) : Prop := ∀ k p, all t !! k = Some p → tells (reported (common t)) p.
Lemma set_tell k x t : all_tell t → reported (common t) ⊆ reported x.1 → tells (reported x.1) x.2 → all_tell (set_peer k x t).
Proof.
  intros Ht Hsub Hx j p. cbn. rewrite list_lookup_insert_Some. intros [(-> & <- & _)|[_ Hj]]; [done|]. eapply tells_more; [done|by eapply Ht].
Qed.
Lemma step_tell e t t' : all_tell t → step e t = Some t' → all_tell t'.
Proof.
  intros Ht. destruct e as [|k|k m|k stop i|k stop r]; cbn.
  { intros [= <-] j p. cbn. rewrite lookup_app_Some, list_lookup_singleton_Some. intros [?|(? & ? & <-)]; [by eapply Ht|].
    split; cbn; [by intros ? ? ? ?|]. by intros ? ? ?%elem_of_nil. }
  all: destruct (all t !! k) as [p|] eqn:Hk; [|done]; cbn; pose proof (Ht k p Hk) as Hp.
  - intros [= <-]. by apply set_tell.
  - intros [= <-]. apply set_tell; [done..|]. destruct Hp as [Hs Hb]. split; [|done]. cbn. intros i m' e.
    rewrite lookup_app_Some, list_lookup_singleton_Some. intros [?|(? & ? & [=])]. by eapply Hs.
  - destruct (SendRaftMessage stop i (common t) p) as [x|] eqn:E; [|done]. cbn. intros [= <-].
    apply set_tell; [done|by eapply tells_send..].
  - destruct (processRaftMessage stop r (common t) p) as [x|] eqn:E; [|done]. cbn. intros [= <-].
    apply set_tell; [done|by eapply tells_process..].
Qed.

(** Raft learns of what was not sent.  A message that [SendRaftMessage] refused, other than for a
    full queue or a stopped peer, and every message of a batch the client could not send have
    been reported unreachable. *)
Theorem unsent_reported es w t k p : run es (start w) = Some t → all t !! k = Some p →
  (∀ i m e, senders p !! i = Some (Returned m (Err e)) → e = ErrPeerStopped ∨ e = ErrStopped errs ∨ e = ErrQueueFull errs ∨ unreachable m ⊆ reported (common t)) ∧
  (∀ buf e, (buf, Err e) ∈ handed p → buf ≫= unreachable ⊆ reported (common t)).
Proof.
  assert (all_tell (start w)) as H0 by (intros j q; cbn; by rewrite lookup_nil).
  revert H0. generalize (start w) as t0. induction es as [|e es IH]; cbn; intros t0 H0.
  - intros [= <-]. apply H0.
  - destruct (step e t0) eqn:E; [|done]. cbn. apply IH. by eapply step_tell.
Qed.

(** ** A full account *)

(** Nothing is on its way and the limiter refuses messages from size [n] on. *)
Definition stranded_call (n : Z) (s : sender M) : Prop :=
  match s with Calling m | Sizing m => n <= size m | Returned _ _ => True | _ => False end.
Definition stranded_peer (n : Z) p : Prop :=
  currentMsgCh p = None ∧ queueMu p = None ∧ msgQueueCh p = None ∧ resting (goroutine p) ∧ Forall (stranded_call n) (senders p).
Definition stranded (n : Z) (t : Peers) : Prop :=
  (∀ m, n <= size m → Allow (size m) (memoryLimiter (common t)) = false) ∧ Forall (stranded_peer n) (all t).
Definition large (n : Z) (e : event) : Prop := match e with ECall _ m => n <= size m | _ => True end.

(** What the peers have taken over. *)
Definition accepted_all (t : Peers) : list M := all t ≫= accepted.

Lemma stranded_set n k p p' t w : stranded n t → all t !! k = Some p → memoryLimiter w = memoryLimiter (common t) → stranded_peer n p' → accepted p' = accepted p →
  stranded n (set_peer k (w, p') t) ∧ accepted_all (set_peer k (w, p') t) = accepted_all t.
Proof.
  intros [Ha Hall] Hk Hw Hp' Hacc. split; [split; cbn; [by rewrite Hw|by apply Forall_insert]|]. unfold accepted_all. cbn.
  clear - Hk Hacc. revert k Hk. induction (all t) as [|q l IH]; intros [|k] Hk; simplify_eq/=; [by rewrite Hacc|]. by rewrite (IH k).
Qed.
Lemma stranded_step n e t t' : stranded n t → large n e → step e t = Some t' →
  stranded n t' ∧ memoryLimiter (common t') = memoryLimiter (common t) ∧ accepted_all t' = accepted_all t.
Proof.
  intros Ht He. pose proof Ht as [Ha Hall]. destruct e as [|k|k m|k stop i|k stop r]; cbn in *.
  { intros [= <-]. unfold accepted_all. cbn. rewrite bind_app. cbn. rewrite app_nil_r. split; [|done]. split; [done|].
    apply Forall_app. split; [done|]. constructor; [|done]. repeat split; try done. by left. }
  all: destruct (all t !! k) as [p|] eqn:Hk; [|done]; cbn; pose proof (Forall_lookup_1 _ _ _ _ Hall Hk) as (Hc & Hl & Hq & Hg & Hs).
  - intros [= <-]. edestruct (stranded_set n k p (Stop p) t (common t)) as [? ?]; done.
  - intros [= <-]. edestruct (stranded_set n k p (call m p) t (common t)) as [? ?]; try done. repeat split; try done.
    apply Forall_app. split; [done|]. by constructor.
  - unfold SendRaftMessage. destruct (senders p !! i) as [s|] eqn:Hi; [|done]. pose proof (Forall_lookup_1 _ _ _ _ Hs Hi) as Hsi.
    assert (∀ s', stranded_call n s' → stranded_peer n (at_sender i s' p)) as Hat by (intros s' ?; repeat split; try done; by apply Forall_insert).
    cbn. destruct s as [m|m|m|m c|m c|m|m|m r]; try done; cbn in Hsi.
    + destruct (ReadyB _) as [b []]; cbn; intros [= <-]; (edestruct (stranded_set n k p) as [? ?]; [done|done| | | |split; [done|split; [|done]]]; [done|by apply Hat|done|done]).
    + rewrite Ha by done. cbn. intros [= <-]; (edestruct (stranded_set n k p) as [? ?]; [done|done| | | |split; [done|split; [|done]]]; [done|by apply Hat|done|done]).
  - unfold processRaftMessage. destruct Hg as [Hg|Hg]; rewrite Hg; [|done]. rewrite Hq. cbn. destruct (_ && _); [|done]. cbn. intros [= <-].
    edestruct (stranded_set n k p (at_loop Gone p) t (common t)) as [? ?]; try done. repeat split; try done. by right.
Qed.

(** The account of the limiter is only cleared behind its own check.  When the last batch of
    every peer failed while the messages left in their queues had filled the account, no message of
    size [n] or more is accepted any more, by any peer of the transport, the ones created later
    included: [SendRaftMessage] asks the limiter before it clears the account. *)
Theorem full_account_refuses_all n es t t' : stranded n t → Forall (large n) es → run es t = Some t' →
  memoryLimiter (common t') = memoryLimiter (common t) ∧ accepted_all t' = accepted_all t.
Proof.
  revert t. induction es as [|e es IH]; cbn; intros t Ht Hes; [by intros [= <-]|]. apply Forall_cons in Hes as [He Hes].
  destruct (step e t) as [t1|] eqn:E; [|done]. cbn. intros Hr. destruct (stranded_step _ _ _ _ Ht He E) as (Ht1 & <- & <-). by apply IH.
Qed.
End peer.

(** ** Examples *)

Module QueueExamples.
Definition demo_size (m : Z) : Z := m mod 256.
Definition demo_reports (m : Z) : list Z := [m].
Definition demo_config : QueueConfig := {| LimiterMaxBatchMessageSize := 6; RaftMsgQueueSize := 4 |}.
Definition demo_common : Common MemorySizeLimiter NoOpBreaker Z :=
  {| memoryLimiter := NewMemorySizeLimiter 10; breaker := NewNoOpBreaker; reported := [] |}.
Abbreviation demo_run := (run demo_size demo_reports raft_errors demo_config).

Lemma demo_sizes m : 0 <= demo_size m < 2 ^ 63.
Proof. unfold demo_size. pose proof (Z.mod_pos_bound m 256 eq_refl). lia. Qed.
Lemma demo_limit : 0 <= LimiterMaxBatchMessageSize demo_config < 2 ^ 63.
Proof. cbn. lia. Qed.

Definition sending (i steps : nat) : list (event (M:=Z)) := replicate steps (ESend 0 false i).
Definition looping (steps : nat) (r : result unit) : list (event (M:=Z)) := replicate steps (ELoop 0 false r).
(** The first message creates the queue and goes out; the next two wait behind the client. *)
Definition filled : list event :=
  ENew :: ECall 0 5 :: sending 0 7 ++ looping 4 (Ok tt) ++ ECall 0 4 :: sending 1 6 ++ ECall 0 6 :: sending 2 6.
Definition after (es : list event) : Peers := default (start demo_common) (demo_run es (start demo_common)).

Definition runs (es : list event) (t : Peers (L:=MemorySizeLimiter) (B:=NoOpBreaker)) : bool := match demo_run es t with Some _ => true | None => false end.
Lemma peer_after_run es : runs es (start demo_common) = true → demo_run es (start demo_common) = Some (after es).
Proof. unfold after, runs. by destruct (demo_run es _). Qed.

Definition peer_of (t : Peers (M:=Z) (R:=Z) (L:=MemorySizeLimiter) (B:=NoOpBreaker)) : RaftPeer Z := default New (all t !! 0%nat).

Definition sent : list event := filled ++ looping 7 (Ok tt).
Lemma sent_runs : runs sent (start demo_common) = true.
Proof. vm_compute. reflexivity. Qed.
Lemma sent_peer : all (after sent) !! 0%nat = Some (peer_of (after sent)).
Proof. vm_compute. reflexivity. Qed.
Lemma messages_sent_in_order_witness :
  accepted (peer_of (after sent)) = [5; 4; 6] ∧ (handed (peer_of (after sent))).*1 = [[5]; [4; 6]] ∧
  batches (peer_of (after sent)) `sublist_of` accepted (peer_of (after sent)).
Proof.
  pose proof (messages_sent_in_order demo_size demo_reports raft_errors demo_config demo_sizes demo_limit sent demo_common (after sent) 0
    (peer_of (after sent)) (peer_after_run sent sent_runs) sent_peer) as [H _].
  split; [vm_compute; reflexivity|]. split; [vm_compute; reflexivity|]. exact H.
Defined.

Lemma filled_runs : runs filled (start demo_common) = true.
Proof. vm_compute. reflexivity. Qed.
Lemma filled_peer : all (after filled) !! 0%nat = Some (peer_of (after filled)).
Proof. vm_compute. reflexivity. Qed.
Lemma filled_facts : live (peer_of (after filled)) = [4; 6] ∧ queueMu (peer_of (after filled)) = None ∧ goroutine (peer_of (after filled)) = Posting 0 [5].
Proof. vm_compute. done. Qed.
Lemma peer_never_stuck_witness :
  live (peer_of (after filled)) = [4; 6] ∧
  is_Some (processRaftMessage demo_size demo_reports demo_config false (Err io_EOF) (common (after filled)) (peer_of (after filled))).
Proof.
  destruct filled_facts as (Hlive & Hlock & Hg). split; [exact Hlive|].
  destruct (peer_never_stuck demo_size demo_reports raft_errors demo_config demo_sizes demo_limit filled demo_common (after filled) 0
    (peer_of (after filled)) (peer_after_run filled filled_runs) filled_peer) as (_ & _ & Hloop).
  destruct (Hloop false (Err io_EOF) Hlock) as [[Hgone _]|Hx]; [left; by rewrite Hlive|rewrite Hg in Hgone; discriminate|exact Hx].
Defined.

(** The client fails with the first batch, and the queue is given up. *)
Definition failing : list event := filled ++ looping 2 (Err io_EOF).

Lemma failing_runs : runs failing (start demo_common) = true.
Proof. vm_compute. reflexivity. Qed.
Lemma failing_peer : all (after failing) !! 0%nat = Some (peer_of (after failing)).
Proof. vm_compute. reflexivity. Qed.
Lemma failing_handed : handed (peer_of (after failing)) = [([5], Err io_EOF)].
Proof. vm_compute. reflexivity. Qed.
Lemma unsent_reported_witness : handed (peer_of (after failing)) = [([5], Err io_EOF)] ∧ [5] ⊆ reported (common (after failing)).
Proof.
  split; [exact failing_handed|].
  destruct (unsent_reported demo_size demo_reports raft_errors demo_config failing demo_common (after failing) 0 (peer_of (after failing))
    (peer_after_run failing failing_runs) failing_peer) as [_ H]. apply (H [5] io_EOF). rewrite failing_handed. left.
Defined.

(** The account is full of the messages left in the queue that was given up; nothing but an
    empty message would be accepted again. *)
Lemma failing_stranded : stranded demo_size 1 (after failing).
Proof.
  split.
  - intros m Hm. replace (memoryLimiter (common (after failing))) with {| maxTotalSize := 10; currentSize := 10 |} by (vm_compute; reflexivity). cbn.
    apply bool_decide_eq_false. pose proof (demo_sizes m). rewrite i64_small; unfold demo_size in *; [lia|].
    pose proof (Z.mod_pos_bound m 256 eq_refl). lia.
  - replace (all (after failing)) with [peer_of (after failing)] by (vm_compute; reflexivity). constructor; [|constructor].
    split; [vm_compute; reflexivity|]. split; [vm_compute; reflexivity|]. split; [vm_compute; reflexivity|]. split; [left; vm_compute; reflexivity|].
    replace (senders (peer_of (after failing))) with [Returned 5 (Ok tt); Returned 4 (Ok tt); Returned 6 (Ok tt)] by (vm_compute; reflexivity).
    by repeat constructor.
Qed.
Definition later : list event := ENew :: ECall 0 1 :: ECall 1 7 :: sending 3 2 ++ [ESend 1 false 0; ESend 1 false 0].
Lemma full_account_refuses_all_witness :
  runs failing (start demo_common) = true ∧ runs later (after failing) = true ∧
  accepted_all (after (failing ++ later)) = accepted_all (after failing).
Proof.
  split; [vm_compute; reflexivity|]. split; [vm_compute; reflexivity|].
  destruct (full_account_refuses_all demo_size demo_reports raft_errors demo_config 1 later (after failing) (after (failing ++ later))) as [_ H];
    [exact failing_stranded| |vm_compute; reflexivity|exact H].
  unfold later, sending. repeat constructor; vm_compute; discriminate.
Defined.
End QueueExamples.
