(* ===== verification/LeaderTransfer.v ===== *)
(** * Waiting for a transfer of leadership: [raft/experimental/leader_transfer_checker.go] and
    [leader_transfer_result.go]

    A call of [TransferLeader] leaves a request at the shard of its group; the goroutine of
    the shard, once woken, looks at the requests at every tick of its clock and answers those
    whose group has the expected leader.  It is woken over a channel without a buffer, by a send
    that does not wait: a step of a caller, of the goroutine or of the clock is one event. *)

From S2P Require Import Prelude.

(** ** State *)

(** [transferRequest]; the channel of the result is known by its number. *)
Record transferRequest := { tq_groupID : Z; expectedLeaderID : Z; resultChan : nat }.
#[export] Instance transferRequest_eq_dec : EqDecision transferRequest.
Proof. solve_decision. Defined.

(** Where the goroutine is: on its way to the [select] of [startShard], in it, in [shardChecker], and
    returned. *)
Inductive place := OnTheWay | Selecting | Checking | Ended.
#[export] Instance place_eq_dec : EqDecision place.
Proof. solve_decision. Defined.

(** [shardData], with what was sent to the channels of results and how many of them there are. *)
Record shardData := {
  requests : gmap Z transferRequest; started : bool; goroutine : place; closing : bool;
  results : list (nat * option error); made : nat
}.
Definition newShard : shardData := {| requests := ∅; started := false; goroutine := OnTheWay; closing := false; results := []; made := 0 |}.
Implicit Types s : shardData.

Definition getShardIndex (numShards groupID : Z) : Z := Z.rem (i64 groupID) numShards.

Definition err_exists : error := Errorf "transfer request for group %d already exists".
Definition context_Canceled : error := Sentinel "context.Canceled".

(** ** Operations *)

(** [AddTransfer] with a new channel; a goroutine in its [select] takes the signal, unless it was
    woken by the end of the store ([missed]). *)
Definition AddTransfer (groupID expected : Z) (missed : bool) s : shardData * option error :=
  let ch := made s in
  match requests s !! groupID with
  | Some _ => ({| requests := requests s; started := started s; goroutine := goroutine s; closing := closing s; results := results s; made := S ch |}, Some err_exists)
  | None =>
      let woken := negb (started s) && bool_decide (goroutine s = Selecting) && negb (closing s && missed) in
      ({| requests := <[groupID := {| tq_groupID := groupID; expectedLeaderID := expected; resultChan := ch |}]> (requests s);
          started := true; goroutine := if woken then Checking else goroutine s; closing := closing s; results := results s; made := S ch |}, None)
  end.

(** The answer to a request at a tick, if there is one: [ended] is what the contexts of the callers say
    and [lead] the leaders of the groups. *)
Definition verdict (lead : Z → Z) (ended : nat → option error) (q : transferRequest) : option (option error) :=
  match ended (resultChan q) with
  | Some e => Some (Some e)
  | None => if decide (lead (tq_groupID q) = expectedLeaderID q) then Some None else None
  end.
Definition answer (lead : Z → Z) (ended : nat → option error) (q : transferRequest) : option (nat * option error) :=
  (λ v, (resultChan q, v)) <$> verdict lead ended q.

(** A tick of [shardChecker]; a map is visited in some order. *)
Definition tick (order : list (Z * transferRequest)) (lead : Z → Z) (ended : nat → option error) s : option shardData :=
  if decide (goroutine s = Checking ∧ order ≡ₚ map_to_list (requests s)) then
    let rest := filter (λ x, verdict lead ended x.2 = None) (requests s) in
    Some {| requests := rest; started := if decide (rest = ∅) then false else started s; goroutine := if decide (rest = ∅) then OnTheWay else Checking;
            closing := closing s; results := results s ++ omap (λ x, answer lead ended x.2) order; made := made s |}
  else None.

Definition goto (g : place) s : shardData :=
  {| requests := requests s; started := started s; goroutine := g; closing := closing s; results := results s; made := made s |}.

Inductive event :=
  | EAdd (groupID expected : Z) (missed : bool) | EArrive
  | ETick (order : list (Z * transferRequest)) (lead : Z → Z) (ended : nat → option error)
  | EClose | ELeave | EEnd (order : list (Z * transferRequest)).

Definition step (e : event) s : option shardData :=
  match e with
  | EAdd g l missed => Some (AddTransfer g l missed s).1
  | EArrive => if decide (goroutine s = OnTheWay) then Some (goto Selecting s) else None
  | ETick order lead ended => tick order lead ended s
  | EClose => Some {| requests := requests s; started := started s; goroutine := goroutine s; closing := true; results := results s; made := made s |}
  | ELeave => if decide (goroutine s = Checking ∧ closing s = true) then Some (goto OnTheWay s) else None
  | EEnd order =>
      (* the deferred function answers all that are left *)
      if decide (goroutine s = Selecting ∧ closing s = true ∧ order ≡ₚ map_to_list (requests s)) then
        Some {| requests := requests s; started := started s; goroutine := Ended; closing := closing s;
                results := results s ++ ((λ x, (resultChan x.2, Some context_Canceled)) <$> order); made := made s |}
      else None
  end.
Fixpoint run (es : list event) s : option shardData :=
  match es with [] => Some s | e :: es => s ← step e s; run es s end.

(** ** The invariant *)

(** The channels that wait for a result. *)
Definition open_chans s : list nat := (λ x, resultChan x.2) <$> map_to_list (requests s).

Record inv s : Prop := {
  iv_once : NoDup (results s).*1;
  iv_open : goroutine s ≠ Ended → NoDup (open_chans s ++ (results s).*1);
  iv_made ch : ch ∈ open_chans s ++ (results s).*1 → (ch < made s)%nat;
  iv_group g q : requests s !! g = Some q → tq_groupID q = g;
  iv_started : started s = false → requests s = ∅;
  iv_checking : goroutine s = Checking → started s = true
}.

Lemma open_insert g q s : requests s !! g = None →
  (λ x : Z * transferRequest, resultChan x.2) <$> map_to_list (<[g := q]> (requests s)) ≡ₚ resultChan q :: open_chans s.
Proof. intros Hg. unfold open_chans. by rewrite map_to_list_insert. Qed.

Lemma shard_add_inv g l missed s : inv s → inv (AddTransfer g l missed s).1.
Proof.
  intros [Ho Hop Hm Hg Hst Hch]. unfold AddTransfer. destruct (requests s !! g) as [q|] eqn:Eg; cbn.
  { split; try done. cbn. intros ch Hin. specialize (Hm ch Hin). lia. }
  assert (made s ∉ open_chans s ++ (results s).*1) as Hnew by (intros Hin; specialize (Hm _ Hin); lia).
  set (q := {| tq_groupID := g; expectedLeaderID := l; resultChan := made s |}).
  pose proof (open_insert g q s Eg) as Hperm. split; cbn; try done.
  - intros Hne. unfold open_chans. cbn. fold q. rewrite Hperm. cbn. apply NoDup_cons. split; [done|]. apply Hop.
    intros E. apply Hne. by rewrite E, (bool_decide_false (Ended = Selecting)), andb_false_r.
  - intros ch. unfold open_chans. cbn. fold q. rewrite Hperm. cbn. rewrite elem_of_cons. intros [->|Hin]; [lia|]. specialize (Hm ch Hin). lia.
  - intros g' q'. rewrite lookup_insert_Some. intros [[<- <-]|[_ Hq]]; [done|by apply Hg].
Qed.

Lemma map_to_list_filter_perm (P : Z * transferRequest → Prop) `{!∀ x, Decision (P x)} (m : gmap Z transferRequest) :
  map_to_list (filter P m) ≡ₚ filter P (map_to_list m).
Proof.
  rewrite map_filter_alt. apply map_to_list_to_map. pose proof (NoDup_fst_map_to_list m) as Hn. revert Hn.
  induction (map_to_list m) as [|x l IH]; [by constructor|]. rewrite fmap_cons. intros [Hx Hn]%NoDup_cons. rewrite filter_cons. case_decide; [|by apply IH].
  rewrite fmap_cons. apply NoDup_cons. split; [|by apply IH]. intros (y & Hy & Hin)%list_elem_of_fmap. apply Hx, list_elem_of_fmap. exists y. split; [done|].
  by apply list_elem_of_filter in Hin as [_ ?].
Qed.

(** A tick moves channels from the table to the results. *)
Lemma tick_chans order lead ended s : order ≡ₚ map_to_list (requests s) →
  ((λ x : Z * transferRequest, resultChan x.2) <$> map_to_list (filter (λ x, verdict lead ended x.2 = None) (requests s))) ++
  (omap (λ x : Z * transferRequest, answer lead ended x.2) order).*1 ≡ₚ open_chans s.
Proof.
  intros Ho. rewrite map_to_list_filter_perm. unfold open_chans. rewrite <-Ho. clear Ho. induction order as [|x l IH]; [done|].
  rewrite filter_cons, fmap_cons. destruct (verdict lead ended x.2) as [v|] eqn:E; case_decide; try congruence.
  - assert (omap (λ x : Z * transferRequest, answer lead ended x.2) (x :: l) = (resultChan x.2, v) :: omap (λ x : Z * transferRequest, answer lead ended x.2) l) as ->
      by (cbn; unfold answer at 1; by rewrite E).
    rewrite fmap_cons, <-Permutation_middle. by rewrite IH.
  - assert (omap (λ x : Z * transferRequest, answer lead ended x.2) (x :: l) = omap (λ x : Z * transferRequest, answer lead ended x.2) l) as ->
      by (cbn; unfold answer at 1; by rewrite E).
    rewrite fmap_cons. cbn [app]. by rewrite IH.
Qed.
Lemma tick_inv order lead ended s s' : inv s → tick order lead ended s = Some s' → inv s'.
Proof.
  intros [Ho Hop Hm Hg Hst Hch]. unfold tick. case_decide as Hd; [|done]. destruct Hd as [Hc Hp]. intros [= <-].
  set (rest := filter _ (requests s)).
  assert (((λ x : Z * transferRequest, resultChan x.2) <$> map_to_list rest) ++ (results s ++ omap (λ x : Z * transferRequest, answer lead ended x.2) order).*1 ≡ₚ
    open_chans s ++ (results s).*1) as Hperm.
  { rewrite fmap_app, <-(tick_chans order lead ended s Hp). solve_Permutation. }
  assert (NoDup (open_chans s ++ (results s).*1)) as Hn by (apply Hop; congruence).
  split; cbn.
  - rewrite <-Hperm in Hn. by apply NoDup_app in Hn as (_ & _ & ?).
  - intros _. unfold open_chans. cbn. by rewrite Hperm.
  - intros ch. unfold open_chans. cbn. rewrite Hperm. apply Hm.
  - intros g q Hq. apply map_lookup_filter_Some in Hq as [Hq _]. by apply Hg.
  - case_decide; [done|]. intros E. apply Hch in Hc. congruence.
  - case_decide; [done|]. intros _. by apply Hch.
Qed.
Lemma shard_step_inv e s s' : inv s → step e s = Some s' → inv s'.
Proof.
  intros Hs. destruct e as [g l missed| |order lead ended| | |order]; cbn.
  - intros [= <-]. by apply shard_add_inv.
  - case_decide as Hd; [|done]. intros [= <-]. destruct Hs as [Ho Hop Hm Hg Hst Hch]. split; cbn; try done. intros _. apply Hop. by rewrite Hd.
  - by apply tick_inv.
  - intros [= <-]. by destruct Hs.
  - case_decide as Hd; [|done]. intros [= <-]. destruct Hd as [Hd _]. destruct Hs as [Ho Hop Hm Hg Hst Hch]. split; cbn; try done. intros _. apply Hop. by rewrite Hd.
  - case_decide as Hd; [|done]. destruct Hd as (Hd & _ & Hp). intros [= <-]. destruct Hs as [Ho Hop Hm Hg Hst Hch].
    assert (((λ x : Z * transferRequest, (resultChan x.2, Some context_Canceled)) <$> order).*1 ≡ₚ open_chans s) as Hperm.
    { rewrite <-list_fmap_compose. unfold open_chans. by rewrite Hp. }
    assert (NoDup (open_chans s ++ (results s).*1)) as Hn by (apply Hop; congruence).
    split; cbn; try done.
    + rewrite fmap_app, Hperm, Permutation_app_comm. done.
    + intros ch. unfold open_chans at 1. cbn. rewrite fmap_app, Hperm, !elem_of_app. intros [?|[?|?]]; apply Hm, elem_of_app; auto.
Qed.
Lemma new_inv : inv newShard.
Proof.
  assert (open_chans newShard ++ (results newShard).*1 = []) as E by (unfold open_chans; cbn; by rewrite map_to_list_empty).
  split; rewrite ?E; try done; [constructor|intros; constructor| ].
  by intros ch ?%elem_of_nil.
Qed.
Lemma shard_run_inv es s s' : inv s → run es s = Some s' → inv s'.
Proof.
  revert s. induction es as [|e es IH]; cbn; intros s Hs; [by intros [= <-]|]. destruct (step e s) eqn:E; [|done]. cbn. apply IH. by eapply shard_step_inv.
Qed.

(** ** What callers can rely on, and what not *)

(** A transfer is answered once, for a reason.  No channel of a result gets more than the one value it
    has room for, so that the goroutine never waits for a caller under its lock; a request is
    answered at a tick exactly when its context has ended or its group has the expected leader,
    and is then gone; and as long as requests wait the shard counts as started. *)
Theorem transfers_answered_once es s order lead ended s' g q : run es newShard = Some s → step (ETick order lead ended) s = Some s' →
  NoDup (results s').*1 ∧ (requests s' ≠ ∅ → started s' = true) ∧
  (requests s !! g = Some q →
    match verdict lead ended q with
    | Some v => (resultChan q, v) ∈ results s' ∧ requests s' !! g = None
    | None => requests s' !! g = Some q
    end).
Proof.
  intros Hr Hs. pose proof (shard_run_inv _ _ _ new_inv Hr) as Hi. pose proof (shard_step_inv _ _ _ Hi Hs) as Hi'. split; [by apply iv_once|]. split.
  { intros Hne. destruct (started s') eqn:E; [done|]. by destruct Hne; apply iv_started. }
  intros Hq. cbn in Hs. unfold tick in Hs. case_decide as Hd; [|done]. destruct Hd as [_ Hp]. injection Hs as <-. cbn.
  destruct (verdict lead ended q) as [v|] eqn:Ev.
  - split.
    + apply elem_of_app. right. apply list_elem_of_omap. exists (g, q). split; [by rewrite Hp; apply elem_of_map_to_list|]. cbn. unfold answer. by rewrite Ev.
    + apply map_lookup_filter_None. right. intros q' Hq'. cbn. congruence.
  - by apply map_lookup_filter_Some.
Qed.

(** The wake-up was missed: the shard counts as started and its goroutine waits to be started. *)
Definition asleep s : Prop := started s = true ∧ (goroutine s = OnTheWay ∨ goroutine s = Selecting) ∧ closing s = false.

(** C40: a missed wake-up is missed for good.  A caller that comes while the goroutine of the shard is not
    yet, or not again, in its [select] marks the shard as started without starting it.  From then
    on, until the store is closed, no request of the shard is answered: not when the leader
    changes, and not when the context of its caller ends. *)
Theorem missed_wakeup_is_final es s s' : asleep s → EClose ∉ es → run es s = Some s' → asleep s' ∧ results s' = results s.
Proof.
  revert s. induction es as [|e es IH]; cbn; intros s Hs Hno; [by intros [= <-]|].
  apply not_elem_of_cons in Hno as [He Hno]. destruct (step e s) as [s1|] eqn:E; [|done]. cbn. intros Hr.
  assert (asleep s1 ∧ results s1 = results s) as [Hs1 <-]; [|by apply IH].
  destruct Hs as (Hst & Hg & Hc). destruct e as [g l missed| |order lead ended| | |order]; cbn in E.
  - injection E as <-. unfold AddTransfer. destruct (requests s !! g); cbn; [done|]. rewrite Hst. cbn. done.
  - case_decide; [|done]. injection E as <-. split; [|done]. split; [done|]. split; [by right|done].
  - unfold tick in E. case_decide as Hd; [|done]. destruct Hd as [Hd _]. destruct Hg; congruence.
  - done.
  - case_decide as Hd; [|done]. destruct Hd as [Hd _]. destruct Hg; congruence.
  - case_decide as Hd; [|done]. destruct Hd as (_ & Hd & _). congruence.
Qed.

Module TransferExamples.
(** The first request comes before the goroutine of the shard has reached its [select]. *)
Definition early : list event := [EAdd 5 2 false; EArrive].
Definition sleeping : shardData := default newShard (run early newShard).
Lemma missed_wakeup_is_final_witness :
  run early newShard = Some sleeping ∧ results sleeping = [] ∧ requests sleeping ≠ ∅ ∧ ∀ es s', EClose ∉ es → run es sleeping = Some s' → results s' = [].
Proof.
  split; [vm_compute; reflexivity|]. split; [vm_compute; reflexivity|]. split; [vm_compute; discriminate|]. intros es s' Hno Hr.
  destruct (missed_wakeup_is_final es sleeping s') as [_ H]; [|exact Hno|exact Hr|exact H].
  split; [vm_compute; reflexivity|]. split; [right; vm_compute; reflexivity|vm_compute; reflexivity].
Defined.

Definition request5 : transferRequest := {| tq_groupID := 5; expectedLeaderID := 2; resultChan := 0 |}.
Definition woken : list event := [EArrive; EAdd 5 2 false].
Definition checking : shardData := default newShard (run woken newShard).
Definition done_checking : shardData := default newShard (tick [(5, request5)] (λ _, 2) (λ _, None) checking).
Lemma transfers_answered_once_witness :
  run woken newShard = Some checking ∧ step (ETick [(5, request5)] (λ _, 2) (λ _, None)) checking = Some done_checking ∧
  (0%nat, None) ∈ results done_checking ∧ requests done_checking !! 5 = None.
Proof.
  split; [vm_compute; reflexivity|]. split; [vm_compute; reflexivity|].
  destruct (transfers_answered_once woken checking [(5, request5)] (λ _, 2) (λ _, None) done_checking 5 request5) as (_ & _ & H);
    [vm_compute; reflexivity..|]. apply H. vm_compute. reflexivity.
Defined.
End TransferExamples.
