(* ===== verification/StoreMessages.v ===== *)
(** * Messages of a store of many groups: [raft/experimental/replica_raft_processor.go],
    [store_replica_evnet.go], [store_transport_processor.go] and
    [pkg/transport/multiraft_transport.go]

    A store runs a replica of each of its groups.  The heartbeats its replicas send go into
    one queue for each address, and from there, many in one message, to the store at that
    address, which hands each to its group.  The queues are those of [SwapQueue.v], the
    scheduler is the one of [Scheduler.v] and the peers are those of [PeerManager.v]. *)

From S2P Require Import Prelude Raftpb SwapQueue Scheduler PeerManager.

(** ** Data *)

Definition MsgAppResp : Z := 4.
Definition MsgSnap : Z := 7.
Definition MsgHeartbeat : Z := 8.
Definition MsgHeartbeatResp : Z := 9.

(** [raftpb.Message]; [msg_rest] are the fields the code only passes on. *)
Record Message := {
  msg_Type : Z; msg_To : Z; msg_From : Z; msg_Term : Z; msg_Index : Z; msg_Commit : Z;
  msg_Reject : bool; msg_Snapshot : Snapshot; msg_Context : list byte; msg_rest : list byte
}.
Record MultiRaftHeartbeatMessage := {
  hb_GroupID : Z; hb_FromPeerID : Z; hb_ToPeerID : Z; hb_Term : Z; hb_Commit : Z; hb_Context : list byte
}.
Record MultiRaftMessage := {
  mr_GroupID : Z; mr_Message : Message;
  HeartbeatMessages : list MultiRaftHeartbeatMessage; HeartbeatResponseMessages : list MultiRaftHeartbeatMessage
}.
Record MultiRaftBatchMessage := { mb_ClusterID : Z; mb_Messages : list MultiRaftMessage }.

Definition emptyHeartbeat : MultiRaftHeartbeatMessage :=
  {| hb_GroupID := 0; hb_FromPeerID := 0; hb_ToPeerID := 0; hb_Term := 0; hb_Commit := 0; hb_Context := [] |}.
(** The message [raftpb.Message{Type: type, To: to}], and that of a heartbeat. *)
Definition typed_message (type to : Z) : Message :=
  {| msg_Type := type; msg_To := to; msg_From := 0; msg_Term := 0; msg_Index := 0; msg_Commit := 0; msg_Reject := false;
     msg_Snapshot := emptySnapshot; msg_Context := []; msg_rest := [] |}.
Definition heartbeat_message (type : Z) (h : MultiRaftHeartbeatMessage) : Message :=
  {| msg_Type := type; msg_To := hb_ToPeerID h; msg_From := hb_FromPeerID h; msg_Term := hb_Term h; msg_Index := 0; msg_Commit := hb_Commit h;
     msg_Reject := false; msg_Snapshot := emptySnapshot; msg_Context := hb_Context h; msg_rest := [] |}.

(** What is used of a replica. *)
Record replica := { rp_ClusterID : Z; rp_LocalPeerID : Z; rp_confState : ConfState }.

(** The store.  The messages given to peers are in [outbox], the snapshots in [outbox_snap], those
    of the transport's peers given to [rawNode.Step] in [stepped]; [snapshots] are the
    snapshots of the groups. *)
Record Store := {
  heartbeatMsg : gmap string (SwapBufferQueue MultiRaftHeartbeatMessage);
  heartbeatRespMsg : gmap string (SwapBufferQueue MultiRaftHeartbeatMessage);
  heartbeatLastActiveUnixSec : gmap string Z;
  replicaSet : gmap Z replica;
  stepQueues : gmap Z (SwapBufferQueue Message);
  scheduler : raftScheduler;
  peerMgr : PeerManager;
  snapshots : gset (Z * Z);
  outbox : list (nat * MultiRaftMessage); outbox_snap : list (nat * (Z * Message)); stepped : list (Z * Message)
}.

Definition set_heartbeats (resp : bool) (q : gmap string (SwapBufferQueue MultiRaftHeartbeatMessage)) (s : Store) : Store :=
  {| heartbeatMsg := if resp then heartbeatMsg s else q; heartbeatRespMsg := if resp then q else heartbeatRespMsg s;
     heartbeatLastActiveUnixSec := heartbeatLastActiveUnixSec s; replicaSet := replicaSet s; stepQueues := stepQueues s; scheduler := scheduler s;
     peerMgr := peerMgr s; snapshots := snapshots s; outbox := outbox s; outbox_snap := outbox_snap s; stepped := stepped s |}.
Definition set_active (a : gmap string Z) (s : Store) : Store :=
  {| heartbeatMsg := heartbeatMsg s; heartbeatRespMsg := heartbeatRespMsg s;
     heartbeatLastActiveUnixSec := a; replicaSet := replicaSet s; stepQueues := stepQueues s; scheduler := scheduler s;
     peerMgr := peerMgr s; snapshots := snapshots s; outbox := outbox s; outbox_snap := outbox_snap s; stepped := stepped s |}.
Definition set_steps (q : gmap Z (SwapBufferQueue Message)) (sch : raftScheduler) (s : Store) : Store :=
  {| heartbeatMsg := heartbeatMsg s; heartbeatRespMsg := heartbeatRespMsg s;
     heartbeatLastActiveUnixSec := heartbeatLastActiveUnixSec s; replicaSet := replicaSet s; stepQueues := q; scheduler := sch;
     peerMgr := peerMgr s; snapshots := snapshots s; outbox := outbox s; outbox_snap := outbox_snap s; stepped := stepped s |}.
Definition with_out (out : list (nat * MultiRaftMessage)) (snap : list (nat * (Z * Message))) (st : list (Z * Message)) (s : Store) : Store :=
  {| heartbeatMsg := heartbeatMsg s; heartbeatRespMsg := heartbeatRespMsg s;
     heartbeatLastActiveUnixSec := heartbeatLastActiveUnixSec s; replicaSet := replicaSet s; stepQueues := stepQueues s; scheduler := scheduler s;
     peerMgr := peerMgr s; snapshots := snapshots s; outbox := out; outbox_snap := snap; stepped := st |}.
Definition heartbeats (resp : bool) (s : Store) : gmap string (SwapBufferQueue MultiRaftHeartbeatMessage) :=
  if resp then heartbeatRespMsg s else heartbeatMsg s.

(** ** The transport *)

Definition post (h : nat) (m : MultiRaftMessage) (s : Store) : Store := with_out (outbox s ++ [(h, m)]) (outbox_snap s) (stepped s) s.

(** [MultiRaftTransport.Send] *)
Definition Send (groupID : Z) (message : Message) (s : Store) : Store :=
  match GetPeer groupID (msg_To message) (peerMgr s) with
  | Err _ => s
  | Ok p => post p {| mr_GroupID := groupID; mr_Message := message; HeartbeatMessages := []; HeartbeatResponseMessages := [] |} s
  end.

(** [CreateSnapshotReader] of the store, of which the sender panics when it fails. *)
Definition CreateSnapshotReader (groupID snapshotIndex : Z) (s : Store) : bool :=
  bool_decide (is_Some (replicaSet s !! groupID) ∧ (groupID, snapshotIndex) ∈ snapshots s).
Definition SendSnapshot (groupID : Z) (snapMsg : Message) (s : Store) : go Store :=
  match GetPeer groupID (msg_To snapMsg) (peerMgr s) with
  | Err _ => Ret s
  | Ok p =>
      if CreateSnapshotReader groupID (sm_index (snap_meta (msg_Snapshot snapMsg))) s
      then Ret (with_out (outbox s) (outbox_snap s ++ [(p, (groupID, snapMsg))]) (stepped s) s)
      else Panic "can not create snapshot reader"
  end.

(** [SendHeartbeat]; a message taken from the pool of messages is as a new one. *)
Definition heartbeat_batch (resp : bool) (first : MultiRaftHeartbeatMessage) (hs : list MultiRaftHeartbeatMessage) : MultiRaftMessage :=
  {| mr_GroupID := hb_GroupID first; mr_Message := typed_message (if resp then MsgHeartbeatResp else MsgHeartbeat) (hb_ToPeerID first);
     HeartbeatMessages := if resp then [] else hs; HeartbeatResponseMessages := if resp then hs else [] |}.
Definition SendHeartbeat (toAddress : string) (hs resps : list MultiRaftHeartbeatMessage) (s : Store) : Store :=
  match GetPeerByAddress toAddress (peerMgr s) with
  | Err _ => s
  | Ok p =>
      let s := match hs with [] => s | h :: _ => post p (heartbeat_batch false h hs) s end in
      match resps with [] => s | h :: _ => post p (heartbeat_batch true h resps) s end
  end.

(** ** The replicas *)

(** A heartbeat of group [groupID], into the queue of its address. *)
Definition coalesce (resp : bool) (queueSize now groupID : Z) (m : Message) (s : Store) : go Store :=
  match ResolvePeerAddress groupID (msg_To m) (peerMgr s) with
  | Err _ => Ret s
  | Ok peerIden =>
      let hq := default (NewSwapBufferQueue emptyHeartbeat queueSize) (heartbeats resp s !! peerIden) in
      '(hq, e) ← SwapQueue.Put {| hb_GroupID := groupID; hb_FromPeerID := msg_From m; hb_ToPeerID := msg_To m; hb_Term := msg_Term m;
                                  hb_Commit := msg_Commit m; hb_Context := msg_Context m |} hq;
      match e with
      | Some _ => Panic "error putting heartbeat message"
      | None => Ret (set_active (<[peerIden := now]> (heartbeatLastActiveUnixSec s)) (set_heartbeats resp (<[peerIden := hq]> (heartbeats resp s)) s))
      end
  end.

Definition with_conf (cs : ConfState) (m : Message) : Message :=
  {| msg_Type := msg_Type m; msg_To := msg_To m; msg_From := msg_From m; msg_Term := msg_Term m; msg_Index := msg_Index m; msg_Commit := msg_Commit m;
     msg_Reject := msg_Reject m; msg_Context := msg_Context m; msg_rest := msg_rest m;
     msg_Snapshot := {| snap_data := snap_data (msg_Snapshot m);
       snap_meta := {| sm_conf := cs; sm_index := sm_index (snap_meta (msg_Snapshot m)); sm_term := sm_term (snap_meta (msg_Snapshot m)) |} |} |}.

(** [sendRaftMessage] of the replica [r] of a group: the last acknowledgement goes out last. *)
Fixpoint send_loop (queueSize now groupID : Z) (r : replica) (msgs : list Message) (appRespIndex : Z) (kept : option Message) (s : Store) : go Store :=
  match msgs with
  | [] => Ret (match kept with Some m => Send groupID m s | None => s end)
  | m :: msgs =>
      let next := send_loop queueSize now groupID r msgs in
      if decide (msg_Type m = MsgHeartbeat) then s ← coalesce false queueSize now groupID m s; next appRespIndex kept s
      else if decide (msg_Type m = MsgHeartbeatResp) then s ← coalesce true queueSize now groupID m s; next appRespIndex kept s
      else if decide (msg_Type m = MsgAppResp) then
        if decide (msg_Reject m = false ∧ appRespIndex < msg_Index m) then next (msg_Index m) (Some m) s
        else next appRespIndex kept (Send groupID m s)
      else if decide (msg_Type m = MsgSnap) then s ← SendSnapshot groupID (with_conf (rp_confState r) m) s; next appRespIndex kept s
      else next appRespIndex kept (Send groupID m s)
  end.
Definition sendRaftMessage (queueSize now groupID : Z) (r : replica) (msgs : list Message) (s : Store) : go Store :=
  send_loop queueSize now groupID r msgs 0 None s.

(** [replicaCoalescedHeartbeat], at one address: what is put between the two operations on the queue
    goes into its other buffer. *)
Definition flush (resp : bool) (peerIden : string) (s : Store) : go Store :=
  match heartbeats resp s !! peerIden with
  | None => Ret s
  | Some q =>
      let '(q, bs, e) := SwapQueue.Get q in
      match e with
      | Some _ => Panic "coalesced heartbeat get error"
      | None =>
          let data := slice_data q bs in
          match data with
          | [] => Ret (set_heartbeats resp (<[peerIden := q]> (heartbeats resp s)) s)
          | _ =>
              let s := SendHeartbeat peerIden (if resp then [] else data) (if resp then data else []) s in
              let '(q, _) := SwapQueue.Release bs q in
              Ret (set_heartbeats resp (<[peerIden := q]> (heartbeats resp s)) s)
          end
      end
  end.

Definition invalidNodeTimeSecond : Z := 60 * 5.
(** The check of an address nobody sent a heartbeat to for a while. *)
Definition check_active (now : Z) (peerIden : string) (s : Store) : Store :=
  match heartbeatLastActiveUnixSec s !! peerIden with
  | None => s
  | Some lastActiveTime =>
      if decide (0 < lastActiveTime ∧ invalidNodeTimeSecond < i64 (now - lastActiveTime)) then
        set_active (delete peerIden (heartbeatLastActiveUnixSec s))
          (set_heartbeats true (delete peerIden (heartbeatRespMsg s)) (set_heartbeats false (delete peerIden (heartbeatMsg s)) s))
      else s
  end.

(** ** The receiver *)

Definition getReplica (groupID : Z) (s : Store) : result replica :=
  match replicaSet s !! groupID with None => Err (Errorf "Store[%d] raft group %d not found") | Some r => Ok r end.

Definition validateRequest (groupID clusterID peerID : Z) (s : Store) : result replica :=
  match getReplica groupID s with
  | Err e => Err e
  | Ok r =>
      if decide (clusterID ≠ rp_ClusterID r) then Err (Errorf "cluster id not match")
      else if decide (peerID ≠ rp_LocalPeerID r) then Err (Errorf "peer id not match")
      else Ok r
  end.

(** [enqueueStep]; its error is only logged. *)
Definition enqueueStep (groupID : Z) (msg : Message) (s : Store) : go Store :=
  match stepQueues s !! groupID with
  | None => Ret s
  | Some q =>
      '(q, e) ← SwapQueue.Put msg q;
      match e with
      | Some _ => Ret (set_steps (<[groupID := q]> (stepQueues s)) (scheduler s) s)
      | None => sch ← EnqueueState stateStep groupID (scheduler s); Ret (set_steps (<[groupID := q]> (stepQueues s)) sch s)
      end
  end.

(** The loop over the heartbeats of a message; [false] when the batch is given up. *)
Fixpoint process_heartbeats (type clusterID to : Z) (hs : list MultiRaftHeartbeatMessage) (s : Store) : go (Store * bool) :=
  match hs with
  | [] => Ret (s, true)
  | h :: hs =>
      match validateRequest (hb_GroupID h) clusterID to s with
      | Err _ => Ret (s, false)
      | Ok _ => s ← enqueueStep (hb_GroupID h) (heartbeat_message type h) s; process_heartbeats type clusterID to hs s
      end
  end.
Definition process_message (clusterID : Z) (msg : MultiRaftMessage) (s : Store) : go (Store * bool) :=
  let to := msg_To (mr_Message msg) in
  if decide (msg_Type (mr_Message msg) = MsgHeartbeat) then process_heartbeats MsgHeartbeat clusterID to (HeartbeatMessages msg) s
  else if decide (msg_Type (mr_Message msg) = MsgHeartbeatResp) then process_heartbeats MsgHeartbeatResp clusterID to (HeartbeatResponseMessages msg) s
  else match validateRequest (mr_GroupID msg) clusterID to s with
       | Err _ => Ret (s, false)
       | Ok _ => s ← enqueueStep (mr_GroupID msg) (mr_Message msg) s; Ret (s, true)
       end.
Fixpoint process_batch (clusterID : Z) (msgs : list MultiRaftMessage) (s : Store) : go Store :=
  match msgs with
  | [] => Ret s
  | m :: msgs => '(s, go_on) ← process_message clusterID m s; if go_on : bool then process_batch clusterID msgs s else Ret s
  end.
Definition ProcessMultiRaftMessage (b : MultiRaftBatchMessage) (s : Store) : go Store := process_batch (mb_ClusterID b) (mb_Messages b) s.

(** [processStep], called by a worker of the scheduler. *)
Definition processStep (groupID : Z) (s : Store) : Store :=
  match replicaSet s !! groupID, stepQueues s !! groupID with
  | Some _, Some q =>
      if decide (Len q = 0) then s
      else
        let '(q, bs, e) := SwapQueue.Get q in
        match e with
        | Some _ => s
        | None =>
            let data := slice_data q bs in
            let '(q, _) := SwapQueue.Release bs q in
            with_out (outbox s) (outbox_snap s) (stepped s ++ ((λ m, (groupID, m)) <$> data)) (set_steps (<[groupID := q]> (stepQueues s)) (scheduler s) s)
        end
  | _, _ => s
  end.

(** ** Queues *)

(** A queue of size [size] with the elements [l] waiting and no slice handed out. *)
Definition rests {T} (size : Z) (q : SwapBufferQueue T) (l : list T) : Prop :=
  ∃ bs, represents size q bs {| SwapQueue.waiting := l; SwapQueue.held := None; SwapQueue.closed := false |}.

Lemma rests_new {T} (zero : T) size : is_u64 size → rests size (NewSwapBufferQueue zero size) [].
Proof. intros. exists no_slice. constructor; simpl; rewrite ?length_replicate; try done; try lia. split; [done|by left]. Qed.
Lemma rests_put {T} size q (l : list T) x : rests size q l → Z.of_nat (length l) < size → ∃ q', SwapQueue.Put x q = Ret (q', None) ∧ rests size q' (l ++ [x]).
Proof.
  intros [bs Hr] Hl. destruct (put_refines _ _ _ _ x Hr) as (q' & e & Hp & He & Hr'). simpl in *.
  rewrite decide_False in He, Hr' by lia. injection He as ->. exists q'. split; [done|]. by exists bs.
Qed.
Lemma rests_get {T} size q (l : list T) : rests size q l → l ≠ [] →
  ∃ q' bs, SwapQueue.Get q = (q', bs, None) ∧ slice_data q' bs = l ∧ rests size (SwapQueue.Release bs q').1 [].
Proof.
  intros [bs Hr] Hl. pose proof (get_refines _ _ _ _ Hr) as Hg. destruct (SwapQueue.Get q) as [[q' bs'] e] eqn:Eg. simpl in Hg.
  rewrite decide_False in Hg by done. destruct Hg as [[= -> Hd] Hr']. exists q', bs'. split; [done|]. split; [done|].
  destruct (bs_data bs') eqn:Eb; [|unfold slice_data in Hd; rewrite Eb in Hd; simpl in Hd; by subst l].
  pose proof (release_refines _ _ _ _ Hr') as Hrel. destruct (SwapQueue.Release bs' q') as [q2 bs2]. destruct Hrel as [_ Hrel]. by exists bs2.
Qed.
Lemma rests_len {T} size q (l : list T) : rests size q l → Len q = Z.of_nat (length l).
Proof. intros [bs [[? ?] Ha Hb _ Ht Hw _ _]]. simpl in *. subst l. rewrite length_take. unfold Len. destruct (isTargetA q); lia. Qed.

(** ** The sending side *)

(** What of a heartbeat is sent, and what arrives. *)
Definition beat (g : Z) (m : Message) : MultiRaftHeartbeatMessage :=
  {| hb_GroupID := g; hb_FromPeerID := msg_From m; hb_ToPeerID := msg_To m; hb_Term := msg_Term m; hb_Commit := msg_Commit m; hb_Context := msg_Context m |}.
Definition beat_type (resp : bool) : Z := if resp then MsgHeartbeatResp else MsgHeartbeat.

(** The queue of an address; there is none before the first heartbeat. *)
Definition queued (resp : bool) (size : Z) (a : string) (l : list MultiRaftHeartbeatMessage) (s : Store) : Prop :=
  match heartbeats resp s !! a with None => l = [] | Some q => rests size q l end.

Lemma heartbeats_set resp q s : heartbeats resp (set_heartbeats resp q s) = q.
Proof. by destruct resp. Qed.

Lemma coalesce_queued resp size now g m a l s : is_u64 size → ResolvePeerAddress g (msg_To m) (peerMgr s) = Ok a →
  queued resp size a l s → Z.of_nat (length l) < size →
  ∃ s', coalesce resp size now g m s = Ret s' ∧ queued resp size a (l ++ [beat g m]) s' ∧ peerMgr s' = peerMgr s ∧ outbox s' = outbox s.
Proof.
  intros Hu Ha Hq Hl. unfold coalesce. rewrite Ha.
  assert (rests size (default (NewSwapBufferQueue emptyHeartbeat size) (heartbeats resp s !! a)) l) as Hrest.
  { unfold queued in Hq. destruct (heartbeats resp s !! a); simpl; [done|]. subst l. by apply rests_new. }
  destruct (rests_put _ _ _ (beat g m) Hrest Hl) as (q' & Hp & Hq'). unfold beat in Hp. rewrite Hp. simpl. eexists. split; [done|].
  split; [|by destruct resp]. unfold queued. 
  change (heartbeats resp (set_active _ ?s)) with (heartbeats resp s). rewrite heartbeats_set, lookup_insert_eq. done.
Qed.

(** The calls of replicas that send heartbeats to an address. *)
Fixpoint replicas_send (size now : Z) (calls : list (Z * replica * list Message)) (s : Store) : go Store :=
  match calls with
  | [] => Ret s
  | (g, r, msgs) :: calls => s ← sendRaftMessage size now g r msgs s; replicas_send size now calls s
  end.
Definition beats (calls : list (Z * replica * list Message)) : list (Z * Message) := calls ≫= λ '(g, _, msgs), (λ m, (g, m)) <$> msgs.
Definition to_address (resp : bool) (a : string) (s : Store) (x : Z * Message) : Prop :=
  msg_Type x.2 = beat_type resp ∧ ResolvePeerAddress x.1 (msg_To x.2) (peerMgr s) = Ok a.

Lemma send_loop_queued resp size now g r a msgs l s : is_u64 size → queued resp size a l s →
  Forall (to_address resp a s) ((λ m, (g, m)) <$> msgs) → Z.of_nat (length l + length msgs) <= size →
  ∃ s', sendRaftMessage size now g r msgs s = Ret s' ∧ queued resp size a (l ++ (beat g <$> msgs)) s' ∧ peerMgr s' = peerMgr s ∧ outbox s' = outbox s.
Proof.
  unfold sendRaftMessage. intros Hu. revert l s. induction msgs as [|m msgs IH]; simpl; intros l s Hq Hall Hl.
  { exists s. by rewrite app_nil_r. }
  apply Forall_cons in Hall as [[Ht Ha] Hall]. simpl in *.
  destruct (coalesce_queued resp size now g m a l s Hu Ha Hq) as (s1 & H1 & Hq1 & Hp1 & Ho1); [lia|].
  destruct (IH (l ++ [beat g m]) s1) as (s2 & H2 & Hq2 & Hp2 & Ho2); [done| |rewrite length_app; simpl; lia|].
  { eapply Forall_impl; [done|]. intros x. unfold to_address. by rewrite Hp1. }
  exists s2. rewrite <-app_assoc in Hq2. split; [|by rewrite Hp2, Ho2].
  destruct resp; rewrite Ht; cbv [beat_type]; [rewrite decide_False by done; rewrite decide_True by done|rewrite decide_True by done]; by rewrite H1.
Qed.
Lemma replicas_send_queued resp size now a calls l s : is_u64 size → queued resp size a l s →
  Forall (to_address resp a s) (beats calls) → Z.of_nat (length l + length (beats calls)) <= size →
  ∃ s', replicas_send size now calls s = Ret s' ∧ queued resp size a (l ++ ((λ x, beat x.1 x.2) <$> beats calls)) s' ∧ peerMgr s' = peerMgr s ∧ outbox s' = outbox s.
Proof.
  intros Hu. revert l s. induction calls as [|[[g r] msgs] calls IH]; simpl; intros l s Hq Hall Hl.
  { exists s. by rewrite app_nil_r. }
  apply Forall_app in Hall as [Hm Hall]. rewrite length_app, length_fmap in Hl.
  destruct (send_loop_queued resp size now g r a msgs l s Hu Hq Hm) as (s1 & H1 & Hq1 & Hp1 & Ho1); [lia|].
  destruct (IH (l ++ (beat g <$> msgs)) s1) as (s2 & H2 & Hq2 & Hp2 & Ho2); [done| |rewrite length_app, length_fmap; unfold beats in *; lia|].
  { eapply Forall_impl; [done|]. intros x. unfold to_address. by rewrite Hp1. }
  exists s2. rewrite H1. simpl. split; [done|]. rewrite Hp2, Ho2. split; [|done].
  rewrite fmap_app, <-list_fmap_compose, app_assoc. exact Hq2.
Qed.

Lemma flush_sends resp size a l h s p : queued resp size a (h :: l) s → GetPeerByAddress a (peerMgr s) = Ok p →
  ∃ s', flush resp a s = Ret s' ∧ queued resp size a [] s' ∧ outbox s' = outbox s ++ [(p, heartbeat_batch resp h (h :: l))].
Proof.
  intros Hq Hp. unfold queued in Hq. destruct (heartbeats resp s !! a) as [q|] eqn:Eq; [|done].
  destruct (rests_get _ _ _ Hq) as (q' & bs & Hg & Hd & Hr); [done|]. unfold flush. rewrite Eq, Hg, Hd.
  destruct (SwapQueue.Release bs q') as [q2 bs2]. eexists. split; [done|]. split; [unfold queued; by rewrite heartbeats_set, lookup_insert_eq|].
  unfold SendHeartbeat. rewrite Hp. by destruct resp.
Qed.

(** ** The receiving side *)

(** The scheduler runs. *)
Definition running (s : raftScheduler) : Prop :=
  shardNum (config s) ≠ 0%nat ∧ length (sharders s) = shardNum (config s) ∧ Forall (λ sh, disposed sh = false) (sharders s).

Lemma enqueue_runs n st g sh : disposed sh = false → ∃ sh', enqueue n st g sh = Ret sh' ∧ disposed sh' = false.
Proof.
  intros Hd. unfold enqueue, Scheduler.Put. destruct (_ && _); [by eexists|]. simpl. rewrite Hd. case_decide; by eexists.
Qed.
Lemma EnqueueState_runs st g s : running s → ∃ s', EnqueueState st g s = Ret s' ∧ running s'.
Proof.
  intros (Hn & Hlen & Hall). unfold EnqueueState. rewrite decide_False by done.
  assert (shard_of s g < length (sharders s))%nat as Hlt.
  { rewrite Hlen. unfold shard_of. pose proof (Z.mod_pos_bound g (Z.of_nat (shardNum (config s)))). lia. }
  destruct (lookup_lt_is_Some_2 _ _ Hlt) as [sh Hsh]. rewrite Hsh.
  destruct (enqueue_runs (maxTicks (config s)) st g sh) as (sh' & He & Hd); [exact (Forall_lookup_1 _ _ _ _ Hall Hsh)|].
  rewrite He. simpl. eexists. split; [done|]. split; [done|]. simpl. rewrite length_insert. split; [done|]. by apply Forall_insert.
Qed.

(** The messages [W] wait for the replicas. *)
Definition all_wait (size : Z) (W : Z → list Message) (s : Store) : Prop := ∀ g q, stepQueues s !! g = Some q → rests size q (W g).
(** The state of a receiver: the scheduler runs, and there is a queue for each replica. *)
Record receives (size : Z) (W : Z → list Message) (s : Store) : Prop := {
  rc_running : running (scheduler s);
  rc_queues g : is_Some (replicaSet s !! g) → is_Some (stepQueues s !! g);
  rc_wait : all_wait size W s
}.

Lemma enqueueStep_receives size g m W s : receives size W s → is_Some (replicaSet s !! g) → Z.of_nat (length (W g)) < size →
  ∃ s', enqueueStep g m s = Ret s' ∧ replicaSet s' = replicaSet s ∧ stepped s' = stepped s ∧
    receives size (λ g', if decide (g = g') then W g' ++ [m] else W g') s'.
Proof.
  intros [Hrun Hqs Hw] Hg Hl. destruct (Hqs g Hg) as [q Hq]. unfold enqueueStep. rewrite Hq.
  destruct (rests_put _ _ _ m (Hw g q Hq) Hl) as (q' & Hp & Hr'). rewrite Hp. simpl.
  destruct (EnqueueState_runs stateStep g _ Hrun) as (sch & He & Hrun'). rewrite He. simpl. eexists. do 3 (split; [done|]). split; simpl.
  - done.
  - intros g' Hg'. destruct (decide (g = g')) as [->|]; [by rewrite lookup_insert_eq|]. rewrite lookup_insert_ne by done. by apply Hqs.
  - intros g' q2. simpl. case_decide as Heq; [subst g'; rewrite lookup_insert_eq; by intros [= <-]|].
    rewrite lookup_insert_ne by done. apply Hw.
Qed.

(** The messages of a group among heartbeats. *)
Definition beats_for (type g : Z) (hs : list MultiRaftHeartbeatMessage) : list Message :=
  heartbeat_message type <$> filter (λ h, hb_GroupID h = g) hs.
Lemma beats_for_cons type g h hs : beats_for type g (h :: hs) = (if decide (hb_GroupID h = g) then [heartbeat_message type h] else []) ++ beats_for type g hs.
Proof. unfold beats_for. rewrite filter_cons. by case_decide. Qed.

Lemma validate_replica g c to s r : validateRequest g c to s = Ok r → is_Some (replicaSet s !! g).
Proof. unfold validateRequest, getReplica. by destruct (replicaSet s !! g). Qed.
Lemma validate_same g c to s s' : replicaSet s' = replicaSet s → validateRequest g c to s' = validateRequest g c to s.
Proof. unfold validateRequest, getReplica. by intros ->. Qed.

Lemma receives_ext size W W' s : (∀ g, W g = W' g) → receives size W s → receives size W' s.
Proof. intros E [? ? Hw]. split; [done..|]. intros g q Hq. rewrite <-E. by apply Hw. Qed.

Lemma process_heartbeats_receives size type c to hs W s : receives size W s →
  Forall (λ h, ∃ r, validateRequest (hb_GroupID h) c to s = Ok r) hs →
  (∀ g, Z.of_nat (length (W g) + length (beats_for type g hs)) <= size) →
  ∃ s', process_heartbeats type c to hs s = Ret (s', true) ∧ replicaSet s' = replicaSet s ∧ stepped s' = stepped s ∧
    receives size (λ g, W g ++ beats_for type g hs) s'.
Proof.
  revert W s. induction hs as [|h hs IH]; intros W s Hs Hall Hroom.
  { exists s. do 3 (split; [done|]). eapply receives_ext; [|done]. intros g. simpl. by rewrite app_nil_r. }
  apply Forall_cons in Hall as [[r Hv] Hall]. simpl. rewrite Hv.
  destruct (enqueueStep_receives size (hb_GroupID h) (heartbeat_message type h) W s Hs) as (s1 & H1 & Hrep & Hst & Hs1).
  { by eapply validate_replica. }
  { specialize (Hroom (hb_GroupID h)). rewrite beats_for_cons, decide_True in Hroom by done. simpl in Hroom. lia. }
  rewrite H1. simpl. destruct (IH _ s1 Hs1) as (s2 & H2 & Hrep2 & Hst2 & Hs2).
  - eapply Forall_impl; [done|]. intros h' [r' Hv']. exists r'. by rewrite (validate_same _ _ _ s).
  - intros g. specialize (Hroom g). rewrite beats_for_cons, length_app in Hroom. simpl. case_decide; rewrite ?length_app; simpl in *; lia.
  - exists s2. split; [done|]. split; [congruence|]. split; [congruence|]. eapply receives_ext; [|done]. intros g. simpl.
    rewrite beats_for_cons. case_decide; [by rewrite <-app_assoc|done].
Qed.

Lemma processStep_steps size g W s : receives size W s → is_Some (replicaSet s !! g) →
  stepped (processStep g s) = stepped s ++ ((λ m, (g, m)) <$> W g).
Proof.
  intros [_ Hqs Hw] Hg. destruct (Hqs g Hg) as [q Hq], Hg as [r Hr]. unfold processStep. rewrite Hr, Hq.
  pose proof (Hw g q Hq) as Hrest. rewrite (rests_len _ _ _ Hrest). destruct (W g) as [|m l] eqn:E; simpl; [by rewrite app_nil_r|].
  destruct (rests_get _ _ _ Hrest) as (q' & bs & -> & Hd & _); [done|]. destruct (SwapQueue.Release bs q') as [q2 bs2]. simpl. by rewrite Hd.
Qed.

(** ** From replica to replica *)

(** Heartbeats of the raft library have nothing but these fields. *)
Definition plain (resp : bool) (m : Message) : Prop := m = heartbeat_message (beat_type resp) (beat 0 m).

Lemma process_batch_beats resp c to h hs others t : msg_To (mr_Message (heartbeat_batch resp h hs)) = to →
  ProcessMultiRaftMessage {| mb_ClusterID := c; mb_Messages := heartbeat_batch resp h hs :: others |} t =
  ('(t, go_on) ← process_heartbeats (beat_type resp) c to hs t; if go_on : bool then process_batch c others t else Ret t).
Proof. intros <-. unfold ProcessMultiRaftMessage. simpl. unfold process_message. by destruct resp. Qed.

Lemma beats_for_beats resp g l : Forall (plain resp) l.*2 →
  beats_for (beat_type resp) g ((λ x : Z * Message, beat x.1 x.2) <$> l) = (filter (λ x, x.1 = g) l).*2.
Proof.
  induction l as [|[g' m] l IH]; [done|]. intros Hl. apply Forall_cons in Hl as [Hm Hl]. simpl in Hm.
  rewrite fmap_cons, beats_for_cons, filter_cons, IH by done. cbn [fst snd hb_GroupID beat].
  case_decide; [|done]. rewrite fmap_cons. cbn [snd app]. f_equal. by rewrite Hm at 2.
Qed.

Section exchange.
Context (resp : bool) (size size' now : Z) (a : string) (p : nat).
(** The calls of the replicas at the sender, to the address of the receiver. *)
Context (calls : list (Z * replica * list Message)) (s : Store).
Context (Hsize : is_u64 size) (Hroom : Z.of_nat (length (beats calls)) <= size).
Context (Hqueue : queued resp size a [] s) (Haddress : Forall (to_address resp a s) (beats calls)).
Context (Hpeer : GetPeerByAddress a (peerMgr s) = Ok p).

Lemma exchange_sent g m l : beats calls = (g, m) :: l → ∃ s1 s2, replicas_send size now calls s = Ret s1 ∧ flush resp a s1 = Ret s2 ∧
  outbox s2 = outbox s ++ [(p, heartbeat_batch resp (beat g m) ((λ x, beat x.1 x.2) <$> beats calls))].
Proof.
  intros Hb. destruct (replicas_send_queued resp size now a calls [] s) as (s1 & H1 & Hq1 & Hp1 & Ho1); [done..|].
  rewrite Hb in Hq1. simpl in Hq1. destruct (flush_sends resp size a _ _ s1 p Hq1) as (s2 & H2 & _ & Ho2); [by rewrite Hp1|].
  exists s1, s2. split; [done|]. split; [done|]. by rewrite Ho2, Ho1, Hb.
Qed.

(** C26: heartbeats that many groups send to one address arrive.  They are collected, sent in one
    message and handed to the replicas they are for, each to its own group, unchanged and in order,
    when all of them are for the same member number. *)
Theorem heartbeats_reach_raft c to W t : beats calls ≠ [] → Forall (plain resp) (beats calls).*2 →
  receives size' W t →
  Forall (λ x, msg_To x.2 = to ∧ ∃ r, validateRequest x.1 c (msg_To x.2) t = Ok r) (beats calls) →
  (∀ g, Z.of_nat (length (W g) + length (filter (λ x, x.1 = g) (beats calls))) <= size') →
  ∃ s1 s2 b t', replicas_send size now calls s = Ret s1 ∧ flush resp a s1 = Ret s2 ∧ outbox s2 = outbox s ++ [(p, b)] ∧
    ProcessMultiRaftMessage {| mb_ClusterID := c; mb_Messages := [b] |} t = Ret t' ∧
    ∀ g, is_Some (replicaSet t !! g) →
      stepped (processStep g t') = stepped t ++ ((λ m, (g, m)) <$> W g ++ (filter (λ x, x.1 = g) (beats calls)).*2).
Proof.
  intros Hne Hplain Ht Hvalid Hroom'. assert (∃ g0 m0 l, beats calls = (g0, m0) :: l) as (g0 & m0 & l & Eb).
  { clear - Hne. destruct (beats calls) as [|[g0 m0] l]; [done|]. by exists g0, m0, l. }
  destruct (exchange_sent g0 m0 l Eb) as (s1 & s2 & H1 & H2 & Ho). do 2 eexists. eexists.
  assert (msg_To m0 = to) as Hto by (rewrite Eb in Hvalid; by apply Forall_cons in Hvalid as [[? _] _]).
  destruct (process_heartbeats_receives size' (beat_type resp) c to ((λ x, beat x.1 x.2) <$> beats calls) W t Ht) as (t' & Hp & Hrep & Hst & Ht').
  { apply Forall_fmap. eapply Forall_impl; [exact Hvalid|]. intros x [Hx Hv]. simpl. by rewrite Hx in Hv. }
  { intros g. rewrite beats_for_beats, length_fmap by done. apply Hroom'. }
  exists t'. do 3 (split; [done|]). split.
  - rewrite process_batch_beats with (to := to) by done. rewrite Hp. done.
  - intros g Hg. rewrite (processStep_steps size' g _ t' Ht') by (by rewrite Hrep). by rewrite Hst, beats_for_beats.
Qed.

(** C38: heartbeats are checked against the member number of the first of them.  When the replicas of
    two groups at the receiver have different numbers, the second heartbeat is refused though it
    is for that very replica, and everything behind it, the other messages of the batch
    included, is thrown away: the receiver does what it does for the first heartbeat alone. *)
Theorem heartbeats_of_other_members_lost c g1 m1 g2 m2 l r t : beats calls = (g1, m1) :: (g2, m2) :: l →
  replicaSet t !! g2 = Some r → rp_ClusterID r = c → rp_LocalPeerID r = msg_To m2 → msg_To m1 ≠ msg_To m2 →
  ∃ s1 s2 b, replicas_send size now calls s = Ret s1 ∧ flush resp a s1 = Ret s2 ∧ outbox s2 = outbox s ++ [(p, b)] ∧
    validateRequest g2 c (msg_To m2) t = Ok r ∧
    ∀ others, ProcessMultiRaftMessage {| mb_ClusterID := c; mb_Messages := b :: others |} t =
      ProcessMultiRaftMessage {| mb_ClusterID := c; mb_Messages := [heartbeat_batch resp (beat g1 m1) [beat g1 m1]] |} t.
Proof.
  intros Hb Hr Hc Hid Hne. destruct (exchange_sent g1 m1 _ Hb) as (s1 & s2 & H1 & H2 & Ho). do 2 eexists. eexists.
  do 3 (split; [done|]). split.
  { unfold validateRequest, getReplica. rewrite Hr, !decide_False by (intros ?; congruence). done. }
  intros others. rewrite !process_batch_beats with (to := msg_To m1) by done. rewrite Hb. simpl.
  destruct (validateRequest g1 c (msg_To m1) t) as [r1|]; [|done].
  destruct (enqueueStep g1 (heartbeat_message (beat_type resp) (beat g1 m1)) t) as [t1|] eqn:E1; [|done]. simpl.
  assert (replicaSet t1 = replicaSet t) as Hrep.
  { revert E1. unfold enqueueStep. destruct (stepQueues t !! g1); [|by intros [= <-]]. destruct (SwapQueue.Put _ _) as [[q [e|]]|]; simpl; [by intros [= <-]| |done].
    destruct (EnqueueState _ _ _); simpl; [by intros [= <-]|done]. }
  assert (validateRequest g2 c (msg_To m1) t1 = Err (Errorf "peer id not match")) as ->; [|done].
  unfold validateRequest, getReplica. rewrite Hrep, Hr. rewrite decide_False by congruence. by rewrite decide_True by congruence.
Qed.
End exchange.

(** ** Examples *)

Module StoreExamples.
Definition no_conf : ConfState := emptyConfState.
(** Two groups with a member at the address [b], and the queues of the store there. *)
Definition peers_at_b (id1 id2 : Z) : PeerManager :=
  match run_peer_ops [PAdd 1 id1 "b"; PAdd 2 id2 "b"] NewPeerManager with Ret m => m | Panic _ => NewPeerManager end.
Definition demo_scheduler : raftScheduler := Start {| shardNum := 1; shardWorkerNum := 1; maxTicks := 3 |}.
Definition demo_queue : SwapBufferQueue Message := NewSwapBufferQueue (typed_message 0 0) 4.
Definition sending_store (id1 id2 : Z) : Store :=
  {| heartbeatMsg := ∅; heartbeatRespMsg := ∅; heartbeatLastActiveUnixSec := ∅; replicaSet := ∅; stepQueues := ∅; scheduler := demo_scheduler;
     peerMgr := peers_at_b id1 id2; snapshots := ∅; outbox := []; outbox_snap := []; stepped := [] |}.
Definition receiving_store (id1 id2 : Z) : Store :=
  {| heartbeatMsg := ∅; heartbeatRespMsg := ∅; heartbeatLastActiveUnixSec := ∅;
     replicaSet := {[1 := {| rp_ClusterID := 5; rp_LocalPeerID := id1; rp_confState := no_conf |};
                     2 := {| rp_ClusterID := 5; rp_LocalPeerID := id2; rp_confState := no_conf |}]};
     stepQueues := {[1 := demo_queue; 2 := demo_queue]}; scheduler := demo_scheduler;
     peerMgr := NewPeerManager; snapshots := ∅; outbox := []; outbox_snap := []; stepped := [] |}.
Definition heartbeat_to (id from : Z) : Message := heartbeat_message MsgHeartbeat (beat 0 {| msg_Type := MsgHeartbeat; msg_To := id; msg_From := from;
  msg_Term := 1; msg_Index := 0; msg_Commit := 4; msg_Reject := false; msg_Snapshot := emptySnapshot; msg_Context := []; msg_rest := [] |}).
Definition demo_replica : replica := {| rp_ClusterID := 5; rp_LocalPeerID := 1; rp_confState := no_conf |}.
Definition demo_calls (id1 id2 : Z) : list (Z * replica * list Message) :=
  [(1, demo_replica, [heartbeat_to id1 1]); (2, demo_replica, [heartbeat_to id2 1])].

Lemma receiving_receives id1 id2 : receives 4 (λ _, []) (receiving_store id1 id2).
Proof.
  split.
  - split; [done|]. split; [done|]. by constructor.
  - intros g. simpl. by rewrite !lookup_insert_is_Some', !lookup_singleton_is_Some.
  - intros g q. simpl. rewrite lookup_insert_Some, lookup_singleton_Some. intros [[_ <-]|[_ [_ <-]]]; by apply rests_new.
Qed.

Lemma heartbeats_reach_raft_witness : ∃ s1 s2 b t',
  replicas_send 8 100 (demo_calls 7 7) (sending_store 7 7) = Ret s1 ∧ flush false "b" s1 = Ret s2 ∧ outbox s2 = [(0%nat, b)] ∧
  ProcessMultiRaftMessage {| mb_ClusterID := 5; mb_Messages := [b] |} (receiving_store 7 7) = Ret t' ∧
  stepped (processStep 2 t') = [(2, heartbeat_to 7 1)].
Proof.
  destruct (heartbeats_reach_raft false 8 4 100 "b" 0 (demo_calls 7 7) (sending_store 7 7)) with (c := 5) (to := 7) (W := λ _ : Z, @nil Message)
    (t := receiving_store 7 7) as (s1 & s2 & b & t' & H1 & H2 & H3 & H4 & H5).
  - split; vm_compute; congruence.
  - vm_compute. congruence.
  - vm_compute. reflexivity.
  - repeat constructor.
  - vm_compute. reflexivity.
  - discriminate.
  - repeat constructor.
  - apply receiving_receives.
  - repeat constructor; eexists; vm_compute; reflexivity.
  - intros g. change (beats (demo_calls 7 7)) with [(1, heartbeat_to 7 1); (2, heartbeat_to 7 1)]. rewrite !filter_cons. simpl. repeat case_decide; simpl; lia.
  - exists s1, s2, b, t'. split; [exact H1|]. split; [exact H2|]. split; [exact H3|]. split; [exact H4|].
    specialize (H5 2). rewrite H5; [vm_compute; reflexivity|]. eexists. vm_compute. reflexivity.
Defined.

Lemma heartbeats_of_other_members_lost_witness : ∃ s1 s2 b,
  replicas_send 8 100 (demo_calls 7 9) (sending_store 7 9) = Ret s1 ∧ flush false "b" s1 = Ret s2 ∧ outbox s2 = [(0%nat, b)] ∧
  (∃ r, validateRequest 2 5 9 (receiving_store 7 9) = Ok r) ∧
  ProcessMultiRaftMessage {| mb_ClusterID := 5; mb_Messages := [b] |} (receiving_store 7 9) =
  ProcessMultiRaftMessage {| mb_ClusterID := 5; mb_Messages := [heartbeat_batch false (beat 1 (heartbeat_to 7 1)) [beat 1 (heartbeat_to 7 1)]] |} (receiving_store 7 9).
Proof.
  destruct (heartbeats_of_other_members_lost false 8 100 "b" 0 (demo_calls 7 9) (sending_store 7 9)) with (c := 5) (g1 := 1) (m1 := heartbeat_to 7 1)
    (g2 := 2) (m2 := heartbeat_to 9 1) (l := @nil (Z * Message)) (r := {| rp_ClusterID := 5; rp_LocalPeerID := 9; rp_confState := no_conf |})
    (t := receiving_store 7 9) as (s1 & s2 & b & H1 & H2 & H3 & H4 & H5).
  - split; vm_compute; congruence.
  - vm_compute. congruence.
  - vm_compute. reflexivity.
  - repeat constructor.
  - vm_compute. reflexivity.
  - reflexivity.
  - vm_compute. reflexivity.
  - reflexivity.
  - reflexivity.
  - vm_compute. discriminate.
  - exists s1, s2, b. split; [exact H1|]. split; [exact H2|]. split; [exact H3|]. split; [eexists; exact H4|]. exact (H5 []).
Defined.
End StoreExamples.
