(* ===== verification/ReplicaRead.v ===== *)
(** * Reads of a group in a store of many groups: [raft/experimental/replicat_raft_linearizable_read.go]

    The loop of a replica is that of a node ([LinearRead.v]) with channels of one element: a read leaves its
    wake-up in [readIndexCh], and raft an answer in [readStateCh], whatever the loop is doing.  It asks
    raft through the queue of messages its worker steps.  The message in the queue has the buffer of
    the loop, so that raft reads the bytes that are in it when the worker gets there. *)

From S2P Require Import Prelude SwapQueue LinearRead.

(** What the replica shares with a node; whether [readIndexCh] is full; the element of [readStateCh]; the queue of
    messages, in which [true] is a request of the loop and [false] a message of somebody else; the messages
    the worker has taken out of it. *)
Record Replica := {
  rr_read : Raft; rr_readIndexCh : bool; rr_readStateCh : option (RequestCtx * Z);
  rr_step : list bool; rr_batch : list bool; rr_disposed : bool; rr_storeClosed : bool
}.
Definition NewReplica (peerID seed : Z) : Replica :=
  {| rr_read := NewRaft peerID seed; rr_readIndexCh := false; rr_readStateCh := None; rr_step := []; rr_batch := [];
     rr_disposed := false; rr_storeClosed := false |}.

Definition with_read (s : Raft) (r : Replica) : Replica :=
  {| rr_read := s; rr_readIndexCh := rr_readIndexCh r; rr_readStateCh := rr_readStateCh r; rr_step := rr_step r; rr_batch := rr_batch r;
     rr_disposed := rr_disposed r; rr_storeClosed := rr_storeClosed r |}.
Definition with_chans (i : bool) (st : option (RequestCtx * Z)) (r : Replica) : Replica :=
  {| rr_read := rr_read r; rr_readIndexCh := i; rr_readStateCh := st; rr_step := rr_step r; rr_batch := rr_batch r;
     rr_disposed := rr_disposed r; rr_storeClosed := rr_storeClosed r |}.
Definition with_step (q b : list bool) (r : Replica) : Replica :=
  {| rr_read := rr_read r; rr_readIndexCh := rr_readIndexCh r; rr_readStateCh := rr_readStateCh r; rr_step := q; rr_batch := b;
     rr_disposed := rr_disposed r; rr_storeClosed := rr_storeClosed r |}.
Definition with_ends (d c : bool) (r : Replica) : Replica :=
  {| rr_read := rr_read r; rr_readIndexCh := rr_readIndexCh r; rr_readStateCh := rr_readStateCh r; rr_step := rr_step r; rr_batch := rr_batch r;
     rr_disposed := d; rr_storeClosed := c |}.

Definition err_enqueue : error := Errorf "GroupID[%d] enqueue step error".

(** What an event does: it cannot happen, it panics, or the state after it. *)
Inductive reaction := Idles | Crashes (why : string) | Goes (r : Replica).
Definition lift (o : outcome) (r : Replica) : reaction :=
  match o with Disabled => Idles | Crash why => Crashes why | Step s => Goes (with_read s r) end.

Section replica.
(** The capacity of the queue of messages. *)
Context (size : nat).

(** [Store.enqueueStep]; the queue of a group is there as long as the group. *)
Definition enqueue_message (m : bool) (r : Replica) : Replica * option error :=
  if rr_disposed r || bool_decide (length (rr_step r) = size) then (r, Some err_enqueue)
  else (with_step (rr_step r ++ [m]) (rr_batch r) r, None).
Definition replica_raftReadIndexRequest (r : Replica) : Replica * option error :=
  match enqueue_message true r with
  | (r, Some e) => (r, Some e)
  | (r, None) => (with_read (raftReadIndexRequest None (rr_read r)).1 r, None)
  end.

(** What the loop selects; the answers to its requests come from the queue. *)
Inductive select := SProceed | SClose | SLeaderChanged | SReadIndex | SFirstCommit | SRetryTimer | SRequestTimer | SReadState | SCompleted.

(** A request of [readIndexResponse]; [fch] is the channel of the first commit it goes on with. *)
Definition ask_again (lch fch : nat) (id : Z) (old : nat) (r : Replica) : reaction :=
  match replica_raftReadIndexRequest r with
  | (r, Some e) =>
      if decide (e = ErrStopped) then Goes (with_read (set_phase Stopped (rr_read r)) r) else lift (finish_round old (Some e) (rr_read r)) r
  | (r, None) => Goes (with_read (set_phase (Awaiting lch fch id old) (rr_read r)) r)
  end.
Definition replica_readIndexResponse (lch fch : nat) (id : Z) (old : nat) (c : select) (r : Replica) : reaction :=
  let s := rr_read r in
  match c with
  | SReadState =>
      match rr_readStateCh r with
      | Some (ctx, index) =>
          let r := with_chans (rr_readIndexCh r) None r in
          let finish := bool_decide (bytes_of ctx s = readCtx s) in
          Goes (with_read (if finish then set_phase (Answered index old) (answered ctx s) else answered ctx s) r)
      | None => Idles
      end
  | SLeaderChanged => if closed_by (leaderChangeNotifier s) lch then lift (finish_round old (Some ErrLeaderChange) s) r else Idles
  | SFirstCommit => if closed_by (firstCommitInTermNotifier s) fch then ask_again lch (firstCommitInTermNotifier s) id old r else Idles
  | SRetryTimer => ask_again lch fch id old r
  | SRequestTimer => lift (finish_round old (Some ErrReadIndexRequestTimeout) s) r
  | SClose => if closer s then Goes (with_read (set_phase Stopped s) r) else Idles
  | _ => Idles
  end.

Definition replica_processRaftLinearizedRead (c : select) (r : Replica) : reaction :=
  let s := rr_read r in
  match phase s, c with
  | Top, SProceed =>
      let '(g, nextID) := Next (idGenerator s) in
      Goes (with_read (set_phase (Idle (leaderChangeNotifier s) nextID) (set_ids g s)) r)
  | Idle _ _, SClose => if closer s then Goes (with_read (set_phase Stopped s) r) else Idles
  | Idle lch _, SLeaderChanged => if closed_by (leaderChangeNotifier s) lch then Goes (with_read (set_phase Top s) r) else Idles
  | Idle lch id, SReadIndex =>
      if rr_readIndexCh r then Goes (with_read (set_phase (Signalled lch id) s) (with_chans false (rr_readStateCh r) r)) else Idles
  | Signalled lch id, SProceed =>
      let '(e, old) := Swap (linearizeReqNotifier s) in Goes (with_read (set_phase (Asking lch id old) (set_signals e s)) r)
  | Asking lch id old, SProceed =>
      match replica_raftReadIndexRequest (with_read (write_ctx id s) r) with
      | (r, Some e) =>
          if decide (e = raft_ErrStopped) then Goes (with_read (set_phase Stopped (rr_read r)) r) else lift (finish_round old (Some e) (rr_read r)) r
      | (r, None) => Goes (with_read (set_phase (Awaiting lch (firstCommitInTermNotifier s) id old) (rr_read r)) r)
      end
  | Awaiting lch fch id old, _ => replica_readIndexResponse lch fch id old c r
  | Answered index old, SProceed =>
      if decide (appliedIndex s < index) then Goes (with_read (set_phase (Acquiring index old) s) r) else lift (finish_round old None s) r
  | Acquiring index old, SProceed =>
      let '(c, ch) := AcquireCompletionChan index (completionReplier s) in
      Goes (with_read (set_phase (Blocked index ch old) (set_completion c s)) r)
  | Blocked _ ch old, SCompleted => if decide (ch ∈ closed (completionReplier s)) then lift (finish_round old None s) r else Idles
  | Blocked _ _ _, SClose => if closer s then Goes (with_read (set_phase Stopped s) r) else Idles
  | _, _ => Idles
  end.

(** [Store.LinearizableRead] *)
Definition replica_LinearizableRead (k : nat) (c : read_choice) (r : Replica) : reaction :=
  let s := rr_read r in
  match c, readers s !! k with
  | Begin, None =>
      if rr_storeClosed r then Goes (with_read (set_readers (<[k := {| r_from := committed s; r_pc := Returned (Some ErrStopped) |}]> (readers s)) s) r)
      else lift (LinearizableRead k Begin s) r
  | Offer, Some {| r_pc := Has n |} => Goes (with_read (set_pc k (Waits n) s) (with_chans true (rr_readStateCh r) r))
  | Offer, _ => Idles
  | c, _ => lift (LinearizableRead k c s) r
  end.

(** [processStep]: the worker takes what is in the queue and gives it to raft one by one; raft may drop a
    request, for want of a leader. *)
Definition take_steps (r : Replica) : reaction :=
  if rr_disposed r then Idles else match rr_batch r with [] => Goes (with_step [] (rr_step r) r) | _ => Idles end.
Definition step_one (kept : bool) (r : Replica) : reaction :=
  match rr_batch r with
  | [] => Idles
  | false :: b => Goes (with_step (rr_step r) b r)
  | true :: b =>
      let s := rr_read r in let r := with_step (rr_step r) b r in
      if kept then lift (arrive s) r else Goes (with_read (set_requests (readCtx s) (pred (sent s)) (asked s) s) r)
  end.
(** [processReady] hands over an answer of raft when there is room. *)
Definition hand_state (ctx : RequestCtx) (index : Z) (r : Replica) : reaction :=
  match rr_readStateCh r with None => Goes (with_chans (rr_readIndexCh r) (Some (ctx, index)) r) | Some _ => Idles end.

Inductive happening :=
  | HRead (k : nat) (c : read_choice) | HLoop (c : select) | HElse (x : other)
  | HMessage | HTake | HStep (kept : bool) | HAnswer (ctx : RequestCtx) (index : Z) | HDispose | HCloseStore.
Definition happen (h : happening) (r : Replica) : reaction :=
  match h with
  | HRead k c => replica_LinearizableRead k c r
  | HLoop c => replica_processRaftLinearizedRead c r
  | HElse x => match x with Arrive => Idles | _ => lift (elsewhere x (rr_read r)) r end
  | HMessage => Goes (enqueue_message false r).1
  | HTake => take_steps r
  | HStep kept => step_one kept r
  | HAnswer ctx index => hand_state ctx index r
  | HDispose => Goes (with_ends true (rr_storeClosed r) r)
  | HCloseStore => Goes (with_ends (rr_disposed r) true r)
  end.
Fixpoint happens (hs : list happening) (r : Replica) : reaction :=
  match hs with
  | [] => Goes r
  | h :: hs => match happen h r with Goes r => happens hs r | x => x end
  end.

(** What is relied on of raft, as for a node. *)
Definition sound (h : happening) (r : Replica) : Prop :=
  match h with
  | HAnswer ctx index => ∃ a, asked (rr_read r) !! key_of ctx = Some a ∧ a <= index
  | HElse (Commit k) => committed (rr_read r) <= k
  | HElse (Apply k) => appliedIndex (rr_read r) <= k
  | _ => True
  end.
(** An answer with the buffer is one to a request of the round that takes it. *)
Definition prompt (h : happening) (r : Replica) : Prop :=
  match h, rr_readStateCh r with
  | HLoop SReadState, Some (Shared key, _) => key = readCtx (rr_read r)
  | _, _ => True
  end.
Fixpoint throughout (P : happening → Replica → Prop) (hs : list happening) (r : Replica) : Prop :=
  match hs with
  | [] => True
  | h :: hs => P h r ∧ match happen h r with Goes r => throughout P hs r | _ => True end
  end.

(** ** The invariant *)

Context (peerID seed : Z).
Fixpoint requests (l : list bool) : nat := match l with [] => 0 | b :: l => if b then S (requests l) else requests l end.
Lemma requests_app l1 l2 : requests (l1 ++ l2) = (requests l1 + requests l2)%nat.
Proof. induction l1 as [|[] l1 IH]; cbn; [done|by rewrite IH|done]. Qed.

(** The part of a node keeps its invariant; raft waits for the requests in the queue; the answer that waits
    for the loop is one to a request raft has. *)
Record rinv (n : Z) (r : Replica) : Prop := {
  ri_node : inv peerID seed n (rr_read r);
  ri_sent : sent (rr_read r) = (requests (rr_batch r) + requests (rr_step r))%nat;
  ri_state ctx index : rr_readStateCh r = Some (ctx, index) → ∃ a, asked (rr_read r) !! key_of ctx = Some a ∧ a <= index
}.
Definition rgood (n : Z) (x : reaction) : Prop := match x with Idles => True | Crashes _ => False | Goes r => rinv n r end.
Definition same_requests (s s' : Raft) : Prop := sent s' = sent s ∧ asked s' = asked s.

Lemma new_rinv : is_u64 seed → rinv 0 (NewReplica peerID seed).
Proof. intros Hs. split; [by apply init_inv|done|done]. Qed.
Lemma finish_same old e s s' : finish_round old e s = Step s' → same_requests s s'.
Proof. unfold finish_round. destruct (CompleteWith _ _ _); [|done]. by intros [= <-]. Qed.

(** What a node does that leaves the requests alone. *)
Lemma lift_good n r ev o : rinv n r → n + 1 < 2 ^ 51 → lawful ev (rr_read r) → timely ev (rr_read r) → exec ev (rr_read r) = o →
  (∀ s', o = Step s' → same_requests (rr_read r) s') → rgood (n + 1) (lift o r).
Proof.
  intros [Hi Hs Hst] Hn Hl Ht He Hsame. pose proof (exec_good _ _ _ _ _ Hi Hl Ht Hn) as Hg. rewrite He in Hg.
  destruct o as [|why|s']; [done..|]. destruct (Hsame s' eq_refl) as [E1 E2]. split; cbn; [done|congruence|]. rewrite E2. apply Hst.
Qed.
Lemma goes_good n r ev s' : rinv n r → n + 1 < 2 ^ 51 → lawful ev (rr_read r) → timely ev (rr_read r) → exec ev (rr_read r) = Step s' →
  same_requests (rr_read r) s' → rinv (n + 1) (with_read s' r).
Proof. intros Hi Hn Hl Ht He Hs. apply (lift_good n r ev (Step s')); [done..|]. by intros ? [= <-]. Qed.
(** What a node does with a request that raft takes. *)
Lemma request_good n r ev s' : rinv n r → n + 1 < 2 ^ 51 → lawful ev (rr_read r) → timely ev (rr_read r) → exec ev (rr_read r) = Step s' →
  sent s' = S (sent (rr_read r)) → asked s' = asked (rr_read r) → rinv (n + 1) (with_read s' (with_step (rr_step r ++ [true]) (rr_batch r) r)).
Proof.
  intros [Hi Hs Hst] Hn Hl Ht He E1 E2. pose proof (exec_good _ _ _ _ _ Hi Hl Ht Hn) as Hg. rewrite He in Hg. split; cbn; [done| |by rewrite E2].
  rewrite E1, Hs, requests_app. cbn. lia.
Qed.

Lemma request_cases r : (replica_raftReadIndexRequest r = (r, Some err_enqueue)) ∨
  replica_raftReadIndexRequest r = (with_read (raftReadIndexRequest None (rr_read r)).1 (with_step (rr_step r ++ [true]) (rr_batch r) r), None).
Proof. unfold replica_raftReadIndexRequest, enqueue_message. destruct (_ || _); [by left|by right]. Qed.

Lemma ask_again_good n r lch fch fch' id old ev : rinv n r → n + 1 < 2 ^ 51 → phase (rr_read r) = Awaiting lch fch id old →
  (ev = FirstCommit ∧ fch' = firstCommitInTermNotifier (rr_read r) ∧ closed_by (firstCommitInTermNotifier (rr_read r)) fch = true ∨ ev = RetryTimer ∧ fch' = fch) →
  rgood (n + 1) (ask_again lch fch' id old r).
Proof.
  intros Hi Hn Hp Hev.
  assert (∀ a, exec (Loops (ev a)) (rr_read r) = match a with
    | Some e => response_failed old e (rr_read r)
    | None => Step (set_phase (Awaiting lch fch' id old) (raftReadIndexRequest None (rr_read r)).1)
    end) as Hx.
  { intros a. unfold exec, processRaftLinearizedRead. rewrite Hp. destruct Hev as [(-> & -> & Hc)|[-> ->]]; cbn; rewrite ?Hc; destruct a; try done.
    all: f_equal; unfold set_phase, set_requests; cbn; by rewrite <- ?Hp. }
  assert (∀ a, lawful (Loops (ev a)) (rr_read r) ∧ timely (Loops (ev a)) (rr_read r)) as Hlt by (intros a; by destruct Hev as [[-> _]|[-> _]]).
  unfold ask_again. destruct (request_cases r) as [->| ->].
  - rewrite decide_False by done. eapply lift_good; [done|done|by apply (Hlt (Some err_enqueue))|by apply Hlt| |intros s'; apply finish_same].
    rewrite Hx. unfold response_failed. by rewrite decide_False by (by intros [?|?]).
  - cbn [rgood]. by eapply (request_good n r (Loops (ev None))); [done|done|apply Hlt|apply Hlt|apply Hx| |].
Qed.

(** The loop takes the answer that waits for it. *)
Lemma state_good n r lch fch id old : rinv n r → n + 1 < 2 ^ 51 → phase (rr_read r) = Awaiting lch fch id old → prompt (HLoop SReadState) r →
  rgood (n + 1) (replica_readIndexResponse lch fch id old SReadState r).
Proof.
  intros [Hi Hs Hst] Hn Hp Hpr. unfold prompt in Hpr. cbn. destruct (rr_readStateCh r) as [[ctx index]|] eqn:Er; [|done].
  destruct (Hst ctx index eq_refl) as (a & Ha & Hle).
  assert (exec (Loops (ReadState ctx index)) (rr_read r) =
    Step (if bool_decide (bytes_of ctx (rr_read r) = readCtx (rr_read r)) then set_phase (Answered index old) (answered ctx (rr_read r)) else answered ctx (rr_read r))) as He.
  { unfold exec, processRaftLinearizedRead. by rewrite Hp. }
  pose proof (exec_good _ _ _ _ (Loops (ReadState ctx index)) Hi ltac:(by exists a) ltac:(by destruct ctx) Hn) as Hg. rewrite He in Hg.
  split; cbn; [done| |done]. rewrite <- Hs. by destruct (bool_decide _), ctx.
Qed.
Lemma response_rgood n r lch fch id old c : rinv n r → n + 1 < 2 ^ 51 → phase (rr_read r) = Awaiting lch fch id old → prompt (HLoop c) r →
  rgood (n + 1) (replica_readIndexResponse lch fch id old c r).
Proof.
  intros Hi Hn Hp Hpr.
  assert (∀ c', exec (Loops c') (rr_read r) = readIndexResponse lch fch id old c' (rr_read r)) as Hx by (intros c'; unfold exec, processRaftLinearizedRead; by rewrite Hp).
  destruct c; try done; [..|by apply state_good].
  all: unfold replica_readIndexResponse.
  - destruct (closer (rr_read r)) eqn:Ec; [|done]. apply (goes_good n r (Loops Close)); [done..| |done]. rewrite Hx. cbn. by rewrite Ec.
  - destruct (closed_by _ _) eqn:Ec; [|done]. apply (lift_good n r (Loops LeaderChanged)); [done..| |intros s'; apply finish_same]. rewrite Hx. cbn. by rewrite Ec.
  - destruct (closed_by _ _) eqn:Ec; [|done]. eapply (ask_again_good n r lch fch _ id old FirstCommit); [done..|by left].
  - eapply (ask_again_good n r lch fch _ id old RetryTimer); [done..|by right].
  - apply (lift_good n r (Loops RequestTimer)); [done..|by rewrite Hx|intros s'; apply finish_same].
Qed.

Lemma loop_rgood n r c : rinv n r → n + 1 < 2 ^ 51 → prompt (HLoop c) r → rgood (n + 1) (replica_processRaftLinearizedRead c r).
Proof.
  intros Hi Hn Hpr. unfold replica_processRaftLinearizedRead.
  destruct (phase (rr_read r)) as [|lch id|lch id|lch id old|lch fch id old|index old|index old|index ch old|] eqn:Hp; [| | | |by apply response_rgood|..].
  all: assert (∀ c', exec (Loops c') (rr_read r) = processRaftLinearizedRead c' (rr_read r)) as Hx by done; unfold processRaftLinearizedRead in Hx; rewrite Hp in Hx.
  all: destruct c; try done.
  - specialize (Hx Proceed). destruct (Next _) as [g id]. by apply (goes_good n r (Loops Proceed)).
  - destruct (closer (rr_read r)) eqn:Ec; [|done]. apply (goes_good n r (Loops Close)); [done..|by rewrite Hx, ?Ec|done].
  - destruct (closed_by _ _) eqn:Ec; [|done]. apply (goes_good n r (Loops LeaderChanged)); [done..|by rewrite Hx, ?Ec|done].
  - destruct (rr_readIndexCh r); [|done]. destruct Hi as [Hi Hs Hst]. split; cbn; [|done|done]. by apply inv_weaken, wake_inv.
  - apply (goes_good n r (Loops Proceed)); [done..|by rewrite Hx|done].
  - destruct (request_cases (with_read (write_ctx id (rr_read r)) r)) as [->| ->].
    + rewrite decide_False by done. apply (lift_good n r (Loops (Ask (Some err_enqueue)))); [done..| |intros s' E; exact (finish_same _ _ _ _ E)].
      rewrite Hx. cbn. unfold request_failed. by rewrite decide_False by done.
    + cbn [rgood]. apply (request_good n r (Loops (Ask None))); [done..|by rewrite Hx|done|done].
  - specialize (Hx Proceed). case_decide; [by apply (goes_good n r (Loops Proceed))|]. apply (lift_good n r (Loops Proceed)); [done..|by rewrite Hx|intros s'; apply finish_same].
  - specialize (Hx Proceed). destruct (AcquireCompletionChan _ _) as [c' ch]. by apply (goes_good n r (Loops Proceed)).
  - destruct (closer (rr_read r)) eqn:Ec; [|done]. apply (goes_good n r (Loops Close)); [done..|by rewrite Hx, ?Ec|done].
  - specialize (Hx Completed). case_decide; [|done]. apply (lift_good n r (Loops Completed)); [done..|intros s'; apply finish_same].
Qed.

Lemma read_same k c s s' : LinearizableRead k c s = Step s' → same_requests s s'.
Proof.
  unfold LinearizableRead, same_requests. destruct (readers s !! k) as [[from [n|n|e]]|], c; try done; repeat case_match; try done; intros [= <-]; cbn; try done; by destruct (phase s).
Qed.
Lemma read_rgood n r k c : rinv n r → n + 1 < 2 ^ 51 → rgood (n + 1) (replica_LinearizableRead k c r).
Proof.
  intros Hi Hn. assert (rgood (n + 1) (lift (LinearizableRead k c (rr_read r)) r)) as Hlift by (apply (lift_good n r (Reads k c)); [done..|intros s'; apply read_same]).
  unfold replica_LinearizableRead. destruct c; try done.
  - destruct (readers (rr_read r) !! k) eqn:Hk; [done|]. destruct (rr_storeClosed r); [|done]. destruct Hi as [Hi Hs Hst]. split; cbn; [|done|done].
    destruct Hi as [Hids Hsig Hcom Hb Hr]. assert (∀ m, grows (rr_read r) (set_readers m (rr_read r))) as Hg by (intros m; constructor; cbn; try done; intros; by left).
    constructor; [by apply (ids_weaken peerID seed n (rr_read r))|by apply (signals_grows (rr_read r))|done|done|].
    cbn. intros k' rd [[<- <-]|[_ Hr']]%lookup_insert_Some; [done|]. eapply reader_grows; [apply Hg|by apply (Hr k')].
  - destruct (readers (rr_read r) !! k) as [[from [m|m|e]]|] eqn:Hk; try done. destruct Hi as [Hi Hs Hst]. split; cbn; [|done|done].
    eapply set_pc_inv; [done..|]. apply (in_readers _ _ _ _ Hi k _ Hk).
Qed.

Lemma step_rgood n r kept : rinv n r → n + 1 < 2 ^ 51 → rgood (n + 1) (step_one kept r).
Proof.
  intros [Hi Hs Hst] Hn. unfold step_one. destruct (rr_batch r) as [|[] b] eqn:Eb; [done| |split; cbn; [by apply inv_weaken|done|done]]. cbn in Hs.
  destruct kept.
  - destruct (arrive (rr_read r)) as [|why|s'] eqn:E; [done|by unfold arrive in E; rewrite Hs in E|]. cbn.
    pose proof (arrive_inv _ _ _ _ _ Hi E) as Hi'. unfold arrive in E. rewrite Hs in E. injection E as <-. split; cbn; [by apply inv_weaken|done|].
    intros ctx index (a & Ha & ?)%Hst. exists a. split; [|done]. unfold read_request. destruct (asked _ !! readCtx _) eqn:Er; [done|].
    rewrite lookup_insert_ne; [done|congruence].
  - split; cbn; [|by rewrite Hs|done]. apply inv_weaken, lose_inv; [done|by rewrite Hs].
Qed.

Lemma elsewhere_same x s s' : x ≠ Arrive → elsewhere x s = Step s' → same_requests s s'.
Proof. destruct x; [intros _ [= <-]; done..|done]. Qed.
Lemma happen_rgood n r h : rinv n r → n + 1 < 2 ^ 51 → sound h r → prompt h r → rgood (n + 1) (happen h r).
Proof.
  intros Hi Hn Hs Hp. pose proof Hi as [Hnode Hsent Hst]. destruct h as [k c|c|x| | |kept|ctx index| |]; cbn [happen].
  - by apply read_rgood.
  - by apply loop_rgood.
  - assert (x ≠ Arrive → rgood (n + 1) (lift (elsewhere x (rr_read r)) r)) as H.
    { intros Hx. apply (lift_good n r (Elsewhere x)); [done..|by destruct x|done|done|intros s'; by apply elsewhere_same]. }
    destruct x; try done; by apply H.
  - unfold enqueue_message. destruct (_ || _); cbn; (split; cbn; [by apply inv_weaken| |done]); [done|]. rewrite Hsent, requests_app. cbn. lia.
  - unfold take_steps. destruct (rr_disposed r); [done|]. destruct (rr_batch r) eqn:Eb; [|done]. split; cbn; [by apply inv_weaken| |done]. rewrite Hsent. cbn. lia.
  - by apply step_rgood.
  - unfold hand_state. destruct (rr_readStateCh r); [done|]. split; cbn; [by apply inv_weaken|done|]. by intros ? ? [= <- <-].
  - split; cbn; [by apply inv_weaken|done|done].
  - split; cbn; [by apply inv_weaken|done|done].
Qed.
Lemma happens_rgood hs : ∀ n r, rinv n r → throughout sound hs r → throughout prompt hs r → n + Z.of_nat (length hs) < 2 ^ 51 →
  rgood (n + Z.of_nat (length hs)) (happens hs r).
Proof.
  induction hs as [|h hs IH]; intros n r Hi Hs Hp Hn; cbn [happens throughout length] in *; [by rewrite Z.add_0_r|].
  destruct Hs as [Hs Hsr], Hp as [Hp Hpr]. pose proof (happen_rgood n r h Hi ltac:(lia) Hs Hp) as Hg.
  destruct (happen h r) as [|why|r1]; [done..|]. replace (n + Z.of_nat (S (length hs))) with (n + 1 + Z.of_nat (length hs)) by lia. apply IH; [done..|lia].
Qed.
End replica.

(** ** A late answer *)

(** Read 0 starts a round, which times out after raft read its request.  The answer comes then and stays in the
    channel; more is committed, and read 1 starts the next round, which finds it. *)
Definition late_happenings (id c1 c2 : Z) : list happening :=
  [HElse (Commit c1); HElse (Apply c1); HLoop SProceed; HRead 0 Begin; HRead 0 Offer; HLoop SReadIndex; HLoop SProceed; HLoop SProceed;
   HTake; HStep true; HLoop SRequestTimer; HAnswer (Shared id) c1; HElse (Commit c2); HLoop SProceed; HRead 1 Begin; HRead 1 Offer;
   HLoop SReadIndex; HLoop SProceed; HLoop SProceed; HLoop SReadState; HLoop SProceed; HRead 1 Take].

Definition leads (size : nat) (hs : list happening) (r : Replica) (P : Replica → Prop) : Prop := throughout size sound hs r ∧ ∃ r', happens size hs r = Goes r' ∧ P r'.
Lemma leads_cons size h hs r r1 P : sound h r → happen size h r = Goes r1 → leads size hs r1 P → leads size (h :: hs) r P.
Proof. intros Hl E [Hr (r' & E' & HP)]. split; [cbn [throughout]; by rewrite E|]. exists r'. split; [cbn [happens]; by rewrite E|done]. Qed.

Ltac replica_norm :=
  unfold with_read, with_chans, with_step, with_ends, lift, replica_readIndexResponse, LinearizableRead, elsewhere, arrive, read_request, replica_raftReadIndexRequest, enqueue_message;
  run_norm.
Ltac replica_step := eapply leads_cons;
  [first [exact I | cbn; lia] | unfold happen, replica_LinearizableRead, replica_processRaftLinearizedRead, take_steps, step_one, hand_state; replica_norm | ].

Lemma late_state size peerID seed c1 c2 : (0 < size)%nat → 0 <= c1 < c2 →
  leads size (late_happenings (Next (New peerID seed)).2 c1 c2) (NewReplica peerID seed)
    (λ r, appliedIndex (rr_read r) = c1 ∧ ∃ rd, readers (rr_read r) !! 1%nat = Some rd ∧ r_pc rd = Returned None ∧ r_from rd = c2).
Proof.
  intros Hsz Hc. unfold late_happenings, NewReplica, NewRaft. destruct (Next (New peerID seed)) as [g1 id1] eqn:E1. destruct (Next g1) as [g2 id2] eqn:E2. cbn [snd].
  assert (bool_decide (0%nat = size) = false) as Hroom by (apply bool_decide_eq_false; lia).
  do 2 (replica_step; [reflexivity|]). replica_step; [rewrite E1; reflexivity|].
  do 4 (replica_step; [reflexivity|]). replica_step; [rewrite Hroom; replica_norm; reflexivity|].
  do 3 (replica_step; [reflexivity|]).
  eapply leads_cons; [exists c1; split; [cbn -[lookup insert empty]; apply lookup_insert_eq|lia]|reflexivity|].
  unfold with_chans, with_read. cbn -[lookup insert alter delete empty].
  replica_step; [reflexivity|]. replica_step; [rewrite E2; reflexivity|].
  do 4 (replica_step; [reflexivity|]). replica_step; [rewrite Hroom; replica_norm; reflexivity|].
  replica_step; [rewrite bool_decide_eq_true_2 by done; replica_norm; reflexivity|].
  replica_step; [rewrite decide_False by lia; replica_norm; reflexivity|]. replica_step; [reflexivity|].
  split; [exact I|]. eexists. split; [reflexivity|]. split; [reflexivity|]. eexists. cbn -[lookup alter insert empty].
  rewrite lookup_alter_eq, lookup_alter_eq, lookup_insert_eq. split; [reflexivity|]. done.
Qed.

(** ** When answers are prompt *)

(** On a follower: the answers come from another node. *)
Definition copies (h : happening) (r : Replica) : Prop := match h with HAnswer (Shared _) _ => False | _ => True end.
Definition no_shared (r : Replica) : Prop := match rr_readStateCh r with Some (Shared _, _) => False | _ => True end.
Lemma lift_no_shared o r r' : no_shared r → lift o r = Goes r' → no_shared r'.
Proof. intros H. destruct o; [done..|]. by intros [= <-]. Qed.
Lemma request_no_shared size r r' e : no_shared r → replica_raftReadIndexRequest size r = (r', e) → no_shared r'.
Proof. intros H. destruct (request_cases size r) as [->| ->]; by intros [= <- _]. Qed.
Lemma response_no_shared size lch fch id old c r r' : no_shared r → replica_readIndexResponse size lch fch id old c r = Goes r' → no_shared r'.
Proof.
  intros H. assert (∀ fch, ask_again size lch fch id old r = Goes r' → no_shared r') as Hask.
  { intros fch'. unfold ask_again. destruct (replica_raftReadIndexRequest size r) as [r1 [e|]] eqn:E; apply request_no_shared in E; try done.
    - case_decide; [by intros [= <-]|]. by apply lift_no_shared.
    - by intros [= <-]. }
  destruct c; cbn; try done.
  - destruct (closer _); [by intros [= <-]|done].
  - destruct (closed_by _ _); [by apply lift_no_shared|done].
  - destruct (closed_by _ _); [apply Hask|done].
  - apply Hask.
  - by apply lift_no_shared.
  - destruct (rr_readStateCh r) as [[ctx index]|]; [|done]. by intros [= <-].
Qed.
Lemma loop_no_shared size c r r' : no_shared r → replica_processRaftLinearizedRead size c r = Goes r' → no_shared r'.
Proof.
  intros H. unfold replica_processRaftLinearizedRead. destruct (phase (rr_read r)) as [|lch id|lch id|lch id old|lch fch id old|index old|index old|index ch old|]; [| | | |by apply response_no_shared|..].
  all: destruct c; try done.
  - destruct (Next _). by intros [= <-].
  - destruct (closer _); [by intros [= <-]|done].
  - destruct (closed_by _ _); [by intros [= <-]|done].
  - destruct (rr_readIndexCh r); [by intros [= <-]|done].
  - by intros [= <-].
  - destruct (replica_raftReadIndexRequest _ _) as [r1 [e|]] eqn:E; apply request_no_shared in E; try done.
    + case_decide; [by intros [= <-]|]. by apply lift_no_shared.
    + by intros [= <-].
  - case_decide; [by intros [= <-]|]. by apply lift_no_shared.
  - destruct (AcquireCompletionChan _ _). by intros [= <-].
  - destruct (closer _); [by intros [= <-]|done].
  - case_decide; [by apply lift_no_shared|done].
Qed.
Lemma happen_no_shared size h r r' : no_shared r → copies h r → happen size h r = Goes r' → no_shared r'.
Proof.
  intros H Hc. destruct h as [k c|c|x| | |kept|ctx index| |]; cbn [happen].
  - unfold replica_LinearizableRead. destruct c; try by apply lift_no_shared.
    + destruct (readers _ !! k); [by apply lift_no_shared|]. destruct (rr_storeClosed r); [by intros [= <-]|by apply lift_no_shared].
    + destruct (readers _ !! k) as [[from [m|m|e]]|]; try done. by intros [= <-].
  - by apply loop_no_shared.
  - destruct x; try done; by apply lift_no_shared.
  - unfold enqueue_message. destruct (_ || _); by intros [= <-].
  - unfold take_steps. destruct (rr_disposed r); [done|]. destruct (rr_batch r); [by intros [= <-]|done].
  - unfold step_one. destruct (rr_batch r) as [|[] b]; [done| |by intros [= <-]]. destruct kept; [by apply lift_no_shared|by intros [= <-]].
  - unfold hand_state. destruct (rr_readStateCh r); [done|]. intros [= <-]. by destruct ctx.
  - by intros [= <-].
  - by intros [= <-].
Qed.
Lemma copies_prompt size hs : ∀ r, no_shared r → throughout size copies hs r → throughout size prompt hs r.
Proof.
  induction hs as [|h hs IH]; intros r H; [done|]. cbn [throughout]. intros [Hc Hr]. split.
  - unfold prompt. unfold no_shared in H. destruct h as [|[]| | | | | | |]; try done; destruct (rr_readStateCh r) as [[[] ?]|]; done.
  - destruct (happen size h r) eqn:E; [done..|]. apply IH; [by eapply happen_no_shared|done].
Qed.

(** C28: reads of a group are linearizable as long as answers are prompt, and only so long.  Raft gets the requests
    late, out of a queue that may be full or disposed of, reads whatever is in the buffer of the loop
    by then, and may drop them; wake-ups and answers wait in channels of one element.  As long as
    an answer with the buffer is taken by the round that asked for it, as on a follower, whose
    answers are copies: when a read returns without an error, everything that was committed when it was
    called has been applied, and no signal is closed twice.  On a leader the answer to a round that
    was given up stays in the channel, and the next round takes it for its own: then a read can
    return although what was committed before it was called is not applied. *)
Theorem group_read_linearizable size peerID seed : is_u64 seed → (0 < size)%nat →
  let start := NewReplica peerID seed in
  (∀ hs, Z.of_nat (length hs) < 2 ^ 51 → throughout size sound hs start → throughout size prompt hs start →
    (∀ why, happens size hs start ≠ Crashes why) ∧
    (∀ r k rd, happens size hs start = Goes r → readers (rr_read r) !! k = Some rd → r_pc rd = Returned None → r_from rd <= appliedIndex (rr_read r))) ∧
  (∀ hs, throughout size copies hs start → throughout size prompt hs start) ∧
  (∀ c1 c2, 0 <= c1 < c2 → ∃ hs r k rd, throughout size sound hs start ∧ happens size hs start = Goes r ∧
    readers (rr_read r) !! k = Some rd ∧ r_pc rd = Returned None ∧ r_from rd = c2 ∧ appliedIndex (rr_read r) = c1).
Proof.
  intros Hseed Hsz start. split; [|split].
  - intros hs Hn Hs Hp. pose proof (happens_rgood size peerID seed hs 0 start (new_rinv peerID seed Hseed) Hs Hp Hn) as Hg. split.
    + intros why E. by rewrite E in Hg.
    + intros r k rd E Hk Hpc. rewrite E in Hg. pose proof (in_readers _ _ _ _ (ri_node _ _ _ _ Hg) k rd Hk) as Hok. unfold reader_ok in Hok. by rewrite Hpc in Hok.
  - intros hs. by apply copies_prompt.
  - intros c1 c2 Hc. destruct (late_state size peerID seed c1 c2 Hsz Hc) as [Hs (r & E & Ha & rd & Hr & Hpc & Hf)].
    exists (late_happenings (Next (New peerID seed)).2 c1 c2), r, 1%nat, rd. exact (conj Hs (conj E (conj Hr (conj Hpc (conj Hf Ha))))).
Qed.

(** ** Examples *)

Module ReadExamples.
(** A read is called after entry 5 was committed; the request waits behind another message; the
    worker steps both; raft answers with the buffer, the entry is applied and the read returns. *)
Definition asked_id : Z := (Next (New 1 0)).2.
Definition read_run : list happening :=
  [HElse (Commit 5); HLoop SProceed; HRead 0 Begin; HRead 0 Offer; HLoop SReadIndex; HLoop SProceed; HMessage; HLoop SProceed; HTake;
   HStep true; HStep true; HAnswer (Shared asked_id) 5; HLoop SReadState; HLoop SProceed; HLoop SProceed; HElse (Apply 5); HElse Mark;
   HLoop SCompleted; HRead 0 Take].
Definition returned (x : reaction) : option (ReadPc * Z) :=
  match x with Goes r => (λ rd, (r_pc rd, r_from rd)) <$> readers (rr_read r) !! 0%nat | _ => None end.
Lemma read_returned : returned (happens 4 read_run (NewReplica 1 0)) = Some (Returned None, 5).
Proof. vm_compute. reflexivity. Qed.

Fixpoint run_check (size : nat) (hs : list happening) (r : Replica) : bool :=
  match hs with
  | [] => true
  | h :: hs =>
      match h with
      | HAnswer ctx index => match asked (rr_read r) !! key_of ctx with Some a => a <=? index | None => false end
      | HElse (Commit k) => committed (rr_read r) <=? k
      | HElse (Apply k) => appliedIndex (rr_read r) <=? k
      | HLoop SReadState => match rr_readStateCh r with Some (Shared key, _) => key =? readCtx (rr_read r) | _ => true end
      | _ => true
      end && match happen size h r with Goes r => run_check size hs r | _ => true end
  end.
Lemma run_check_ok size hs : ∀ r, run_check size hs r = true → throughout size sound hs r ∧ throughout size prompt hs r.
Proof.
  induction hs as [|h hs IH]; intros r; [done|]. cbn [run_check throughout]. intros [Hh Hr]%andb_prop.
  assert (sound h r ∧ prompt h r) as [Hs Hp].
  { destruct h as [| [] | [] | | | |ctx index| |]; unfold sound, prompt in *; try (split; [exact I|by destruct (rr_readStateCh r)]); try (split; [lia|done]).
    - split; [done|]. destruct (rr_readStateCh r) as [[[]]|]; [done|lia|done].
    - destruct (asked _ !! _) as [a|] eqn:Ea; [|done]. split; [exists a; split; [done|lia]|done]. }
  destruct (happen size h r) as [| |r']; [by repeat split..|]. destruct (IH r' Hr). by repeat split.
Qed.
Lemma read_run_checked : run_check 4 read_run (NewReplica 1 0) = true.
Proof. vm_compute. reflexivity. Qed.

Lemma group_read_linearizable_witness :
  (∃ r rd, happens 4 read_run (NewReplica 1 0) = Goes r ∧ readers (rr_read r) !! 0%nat = Some rd ∧ r_pc rd = Returned None ∧
    r_from rd = 5 ∧ r_from rd <= appliedIndex (rr_read r)) ∧
  (∃ hs r k rd, throughout 4 sound hs (NewReplica 1 0) ∧ happens 4 hs (NewReplica 1 0) = Goes r ∧
    readers (rr_read r) !! k = Some rd ∧ r_pc rd = Returned None ∧ r_from rd = 5 ∧ appliedIndex (rr_read r) = 4).
Proof.
  destruct (group_read_linearizable 4 1 0) as (Hsafe & _ & Hlate); [done|lia|]. split; [|apply Hlate; lia].
  destruct (run_check_ok 4 read_run (NewReplica 1 0) read_run_checked) as [Hs Hp].
  destruct (Hsafe read_run eq_refl Hs Hp) as [_ Hread]. pose proof read_returned as Hret.
  destruct (happens 4 read_run (NewReplica 1 0)) as [| |r]; [discriminate Hret..|].
  unfold returned in Hret. destruct (readers (rr_read r) !! 0%nat) as [rd|] eqn:Hr; [|discriminate Hret]. injection Hret as Hpc Hf.
  exists r, rd. split; [reflexivity|]. split; [exact Hr|]. split; [exact Hpc|]. split; [exact Hf|]. exact (Hread r 0%nat rd eq_refl Hr Hpc).
Defined.
End ReadExamples.
