(* ===== verification/MultiRaftPeer.v ===== *)
(** * The peers of a store of many groups: [pkg/transport/peer/multiraft_peer.go]

    The queue of [PeerQueue.v] for the messages of many groups, and the reports about those that
    could not be sent. *)

From S2P Require Import Prelude Limiters PeerManager PeerQueue StoreMessages.

Section peer.
Context {L B : Type} `{!ResourceLimiter L} `{!Breaker B}.
(** The size the generated code gives a message. *)
Context (msg_Size : MultiRaftMessage → Z) (cfg : QueueConfig).

(** Raft is told the group and the member. *)
Definition reportUnreachable (msg : MultiRaftMessage) : list (Z * Z) :=
  let to := msg_To (mr_Message msg) in
  if decide (msg_Type (mr_Message msg) = MsgHeartbeat ∨ msg_Type (mr_Message msg) = MsgHeartbeatResp) then
    ((λ m, (hb_GroupID m, to)) <$> HeartbeatMessages msg) ++ ((λ m, (hb_GroupID m, to)) <$> HeartbeatResponseMessages msg)
  else [(mr_GroupID msg, to)].

Definition multi_SendRaftMessage (stop : bool) (i : nat) (w : Common L B (Z * Z)) (p : RaftPeer MultiRaftMessage) :
    option (Common L B (Z * Z) * RaftPeer MultiRaftMessage) :=
  SendRaftMessage msg_Size reportUnreachable multiraft_errors cfg stop i w p.
Definition multi_getQueue (i : nat) (m : MultiRaftMessage) (w : Common L B (Z * Z)) (p : RaftPeer MultiRaftMessage) :
    option (Common L B (Z * Z) * RaftPeer MultiRaftMessage) := getQueue i m w p.
Definition multi_processRaftMessage (stop : bool) (r : result unit) (w : Common L B (Z * Z)) (p : RaftPeer MultiRaftMessage) :
    option (Common L B (Z * Z) * RaftPeer MultiRaftMessage) :=
  processRaftMessage msg_Size reportUnreachable cfg stop r w p.

(** A batch of heartbeats is reported for the member of its first one, whatever the members of the
    others are. *)
Lemma heartbeats_reported resp h hs :
  reportUnreachable (heartbeat_batch resp h hs) = (λ m, (hb_GroupID m, hb_ToPeerID h)) <$> hs.
Proof. unfold reportUnreachable. destruct resp; cbn; by rewrite ?app_nil_r. Qed.
Lemma heartbeat_of_other_member_not_reported resp h h' hs : hb_ToPeerID h' ≠ hb_ToPeerID h →
  (hb_GroupID h', hb_ToPeerID h') ∉ reportUnreachable (heartbeat_batch resp h hs).
Proof. intros Hne. rewrite heartbeats_reported. intros (m & [= _ E] & _)%list_elem_of_fmap. congruence. Qed.
End peer.
