(* ===== verification/NetUtil.v ===== *)
(** * Addresses: [pkg/utility/netutil/netutil.go]

    The check of a host and a port, with what it uses of the standard library: the split of
    [net.SplitHostPort], [strconv.Atoi] and [net.ParseIP]. *)

From Stdlib Require Import Ascii.
From S2P Require Import Prelude.

#[local] Open Scope char_scope.

Definition chars (s : string) : list ascii := String.list_ascii_of_string s.
Definition code (c : ascii) : Z := Z.of_nat (nat_of_ascii c).

(** ** The standard library *)

(** [strings.IndexByte] and [LastIndexByte]. *)
Definition index_byte (c : ascii) (s : list ascii) : option nat := fst <$> list_find (.= c) s.
Definition last_index_byte (c : ascii) (s : list ascii) : option nat := (fun '(i, _) => length s - 1 - i)%nat <$> list_find (.= c) (reverse s).

(** [net.SplitHostPort] *)
Definition SplitHostPort (s : list ascii) : option (list ascii * list ascii) :=
  i ← last_index_byte ":" s;
  '(host, j, k) ← (if decide (head s = Some "[") then
                     finish ← index_byte "]" s;
                     if decide (finish + 1 = i)%nat then Some (take (finish - 1) (drop 1 s), 1%nat, (finish + 1)%nat) else None
                   else
                     let host := take i s in
                     if decide (":" ∈ host) then None else Some (host, 0%nat, 0%nat));
  if decide ("[" ∈ drop j s ∨ "]" ∈ drop k s) then None else Some (host, drop (i + 1) s).

Definition digit (c : ascii) : option Z := if decide (48 <= code c <= 57) then Some (code c - 48) else None.
Fixpoint digits (acc : Z) (s : list ascii) : option Z :=
  match s with [] => Some acc | c :: s => d ← digit c; digits (acc * 10 + d) s end.

(** [strconv.Atoi] for 64 bits *)
Definition Atoi (s : list ascii) : option Z :=
  let '(sign, s) := match s with "-" :: s => (-1, s) | "+" :: s => (1, s) | _ => (1, s) end in
  n ← (match s with [] => None | _ => digits 0 s end);
  if decide (is_i64 (sign * n)) then Some (sign * n) else None.

(** [parseIPv4Fields]: the fields so far, the value and number of digits of the current one. *)
Fixpoint ipv4_fields (pos : nat) (val : Z) (digLen : nat) (s : list ascii) : bool :=
  match s with
  | [] => bool_decide (pos = 3%nat ∧ digLen ≠ 0%nat)
  | c :: s =>
      match digit c with
      | Some d =>
          if decide (digLen = 1%nat ∧ val = 0) then false
          else if decide (255 < val * 10 + d) then false else ipv4_fields pos (val * 10 + d) (S digLen) s
      | None =>
          if decide (c = "." ∧ digLen ≠ 0%nat ∧ (pos < 3)%nat) then ipv4_fields (S pos) 0 0 s else false
      end
  end.

Definition hex_digit (c : ascii) : bool :=
  bool_decide (48 <= code c <= 57 ∨ 97 <= code c <= 102 ∨ 65 <= code c <= 70).
Fixpoint hex_run (s : list ascii) : nat :=
  match s with c :: s => if hex_digit c then S (hex_run s) else 0 | [] => 0 end.

(** The loop of [parseIPv6]: [i] of the sixteen bytes are set. *)
Fixpoint ipv6_loop (fuel : nat) (ellipsis : bool) (i : nat) (s : list ascii) : bool :=
  let finished (ellipsis : bool) (i : nat) := if decide (i < 16)%nat then ellipsis else negb ellipsis in
  match fuel with
  | O => false
  | S fuel =>
      if decide (16 <= i)%nat then bool_decide (s = []) && finished ellipsis i
      else
        let off := hex_run s in
        if decide (off = 0%nat ∨ 4 < off)%nat then false
        else if decide (s !! off = Some ".") then
          bool_decide ((ellipsis = true ∨ i = 12%nat) ∧ (i + 4 <= 16)%nat) && ipv4_fields 0 0 0 s && finished ellipsis (i + 4)%nat
        else
          let i := (i + 2)%nat in
          match drop off s with
          | [] => finished ellipsis i
          | c :: s =>
              if decide (c ≠ ":" ∨ s = []) then false
              else match s with
                   | ":" :: s => if ellipsis then false else match s with [] => finished true i | _ => ipv6_loop fuel true i s end
                   | _ => ipv6_loop fuel ellipsis i s
                   end
          end
  end.

(** [net.ParseIP]: whether there is a result.  A zone is refused. *)
Definition ParseIP (s : list ascii) : bool :=
  match list_find (λ c, c = "." ∨ c = ":" ∨ c = "%") s with
  | Some (_, ".") => ipv4_fields 0 0 0 s
  | Some (_, ":") =>
      if decide ("%" ∈ s) then false
      else match s with
           | ":" :: ":" :: s => match s with [] => true | _ => ipv6_loop 9 true 0 s end
           | _ => ipv6_loop 9 false 0 s
           end
  | _ => false
  end.

(** ** The check *)

Definition IsValidAddress (addr : string) : bool :=
  match SplitHostPort (chars addr) with
  | None => false
  | Some (host, portStr) =>
      match Atoi portStr with
      | None => false
      | Some port =>
          if decide (port < 0 ∨ 65535 < port) then false
          else if ParseIP host then true
          else if decide (length host = 0%nat ∨ (253 < length host)%nat ∨ head host = Some "." ∨ last host = Some ".") then false
          else true
      end
  end.

(** An address that is accepted has a port in range and a host that is not empty. *)
Example addresses_checked :
  IsValidAddress "10.0.0.1:7000" = true ∧ IsValidAddress "[2001:db8::1]:80" = true ∧ IsValidAddress "node-1.example:+80" = true ∧
  IsValidAddress "10.0.0.1" = false ∧ IsValidAddress ":80" = false ∧ IsValidAddress "a:65536" = false ∧ IsValidAddress "1:2:3" = false.
Proof. by split_and!; vm_compute. Qed.
