(* ===== verification/PeersConfig.v ===== *)
(** * The configured members of a cluster: [PeersConfiguration] of [raft/config.go]

    The peers a node is started with, how they are checked, and how a joining node compares
    them with those of the running cluster. *)

From S2P Require Import Prelude Raftpb Streams Session Cluster Apply NetUtil.

(** ** State *)

Record PeersConfiguration := { raftPeersAttr : gmap Z RaftPeerAttribute }.
Implicit Types (c : PeersConfiguration).

Definition NewPeersConfiguration : PeersConfiguration := {| raftPeersAttr := ∅ |}.

Definition conf_AddPeer (peer : Z) (raftListenAddr : string) (isLearner : bool) : meth PeersConfiguration unit := fun c =>
  match raftPeersAttr c !! peer with
  | Some _ => Ret (c, Err (Errorf "peer already exists: %d"))
  | None =>
      Ret ({| raftPeersAttr := <[peer := {| PeerID := peer; RaftListenAddr := raftListenAddr; IsLearner := isLearner; StoreID := 0 |}]> (raftPeersAttr c) |}, Ok tt)
  end.
Definition conf_GetPeer (peer : Z) c : result RaftPeerAttribute :=
  match raftPeersAttr c !! peer with Some a => Ok a | None => Err (Errorf "peer not found: %d") end.
Definition conf_UpdatePeer (peer : Z) (peerAttr : RaftPeerAttribute) : meth PeersConfiguration unit := fun c =>
  match raftPeersAttr c !! peer with
  | None => Ret (c, Err (Errorf "peer not found: %d"))
  | Some _ =>
      if decide (PeerID peerAttr ≠ peer) then Ret (c, Err (Errorf "peer ID mismatch: expected %d, got %d"))
      else Ret ({| raftPeersAttr := <[peer := peerAttr]> (raftPeersAttr c) |}, Ok tt)
  end.
Definition conf_RemovePeer (peer : Z) c : PeersConfiguration := {| raftPeersAttr := delete peer (raftPeersAttr c) |}.

Section Range.
Context `{MapRange}.

Definition RaftPeersAttribute c : list RaftPeerAttribute := (range (raftPeersAttr c)).*2.
Definition PeerIds c : list Z := PeerID <$> RaftPeersAttribute c.

(** [raft.Peer] *)
Record raft_Peer := { rp_ID : Z; rp_Context : list byte }.
Definition empty_context : RequestContext := {| ReplyID := 0; SessionID := 0; SequenceNum := 0; LowestSeqNumNotYetReplied := 0 |}.
Definition peer_request (a : RaftPeerAttribute) : ConfChangeRequest :=
  {| cr_Context := empty_context; cr_GroupID := 0; cr_RaftPeerAttr := a; PromoteLearner := false |}.
Definition ToRaftPeers `{Message ConfChangeRequest} c : list raft_Peer :=
  (fun a => {| rp_ID := PeerID a; rp_Context := marshal (peer_request a) |}) <$> RaftPeersAttribute c.

Definition Clone c : PeersConfiguration := {| raftPeersAttr := foldr (fun '(k, v) m => <[k := v]> m) ∅ (range (raftPeersAttr c)) |}.

(** The loop of [Validate] with the identifiers and addresses seen. *)
Fixpoint validate_loop (l : list RaftPeerAttribute) (idSet : gset Z) (endpointSet : gset string) : option error :=
  match l with
  | [] => None
  | a :: l =>
      if decide (PeerID a = 0) then Some (Errorf "PeersConfiguration: empty peer id in config: %v")
      else if negb (IsValidAddress (RaftListenAddr a)) then Some (Errorf "PeersConfiguration: invalid RaftListenAddr in config: %v")
      else if decide (PeerID a ∈ idSet) then Some (Errorf "PeersConfiguration: found duplicate ID in config: %v")
      else if decide (RaftListenAddr a ∈ endpointSet) then Some (Errorf "PeersConfiguration: found duplicate RaftListenAddr in config: %v")
      else validate_loop l ({[PeerID a]} ∪ idSet) ({[RaftListenAddr a]} ∪ endpointSet)
  end.
Definition Validate c : option error := validate_loop (RaftPeersAttribute c) ∅ ∅.

Fixpoint visit_peers {S} (visitor : S → RaftPeerAttribute → S * option error) (l : list RaftPeerAttribute) (s : S) : S * option error :=
  match l with
  | [] => (s, None)
  | a :: l => match visitor s a with (s, Some err) => (s, Some err) | (s, None) => visit_peers visitor l s end
  end.
Definition Visit {S} (visitor : S → RaftPeerAttribute → S * option error) c (s : S) : S * option error :=
  visit_peers visitor (RaftPeersAttribute c) s.

(** ** Joining *)

Definition peer_matches c (peer : Peer) : bool :=
  match raftPeersAttr c !! PeerID (RaftPeerAttr peer) with
  | None => false
  | Some a => bool_decide (RaftListenAddr a = RaftListenAddr (RaftPeerAttr peer) ∧ IsLearner a = IsLearner (RaftPeerAttr peer))
  end.
Definition equal c (other : list Peer) : bool :=
  if decide (length (RaftPeersAttribute c) ≠ length other) then false else forallb (peer_matches c) other.

(** The answer of [GetClusterPeers]: whether the status says success, and the peers. *)
Definition PeersClient := Z → result (bool * list Peer).

(** The loop over the configured peers: [deadline] of them are tried before the context ends. *)
Fixpoint match_loop (client : PeersClient) (deadline : nat) (fromID : Z) c (l : list RaftPeerAttribute) : option error :=
  match l with
  | [] => Some (Errorf "bootstrap: could not get remote cluster from %v")
  | a :: l =>
      if decide (PeerID a = fromID) then match_loop client deadline fromID c l
      else match deadline with
           | O => Some (Sentinel "context deadline exceeded")
           | S deadline =>
               match client (PeerID a) with
               | Ok (true, peers) => if equal c peers then None else match_loop client deadline fromID c l
               | _ => match_loop client deadline fromID c l
               end
           end
  end.
Definition MatchRemoteCluster (client : PeersClient) (deadline : nat) (fromID : Z) c : option error :=
  match_loop client deadline fromID c (RaftPeersAttribute c).

(** ** What the checks mean *)

(** The configurations that can be had. *)
Inductive conf_op := ConfAdd (i : Z) (a : string) (learner : bool) | ConfUpdate (i : Z) (a : RaftPeerAttribute) | ConfRemove (i : Z).
Definition run_conf_op c (op : conf_op) : go PeersConfiguration :=
  match op with
  | ConfAdd i a l => '(c, _) ← conf_AddPeer i a l c; Ret c
  | ConfUpdate i a => '(c, _) ← conf_UpdatePeer i a c; Ret c
  | ConfRemove i => Ret (conf_RemovePeer i c)
  end.
Fixpoint configured (ops : list conf_op) c : go PeersConfiguration :=
  match ops with [] => Ret c | op :: ops => c ← run_conf_op c op; configured ops c end.

Definition keyed c : Prop := ∀ i a, raftPeersAttr c !! i = Some a → PeerID a = i.

Lemma configured_keyed ops : ∀ c, keyed c → ∃ c', configured ops c = Ret c' ∧ keyed c'.
Proof using Type.
  induction ops as [|op ops IH]; intros c Hc; [by exists c|]. simpl.
  assert (∃ c1, run_conf_op c op = Ret c1 ∧ keyed c1) as (c1 & -> & H1); [|by apply IH].
  destruct op as [i a l|i a|i]; simpl.
  - unfold conf_AddPeer. destruct (raftPeersAttr c !! i); eexists; (split; [done|]); [done|].
    intros j b. simpl. intros [[<- <-]|[_ ?]]%lookup_insert_Some; [done|by apply Hc].
  - unfold conf_UpdatePeer. destruct (raftPeersAttr c !! i); [case_decide as E|]; eexists; (split; [done|]); [done| |done].
    intros j b. simpl. intros [[<- <-]|[_ ?]]%lookup_insert_Some; [done|by apply Hc].
  - eexists. split; [done|]. intros j b. simpl. intros [_ ?]%lookup_delete_Some. by apply Hc.
Qed.

Lemma attributes_elem c a : keyed c → a ∈ RaftPeersAttribute c ↔ raftPeersAttr c !! PeerID a = Some a.
Proof.
  intros Hc. unfold RaftPeersAttribute. rewrite list_elem_of_fmap. split.
  - intros ([i b] & -> & Hi). rewrite range_perm, elem_of_map_to_list in Hi. simpl. by rewrite (Hc _ _ Hi).
  - intros E. exists (PeerID a, a). by rewrite range_perm, elem_of_map_to_list.
Qed.
Lemma attributes_ids c : keyed c → NoDup (PeerID <$> RaftPeersAttribute c).
Proof.
  intros Hc. unfold RaftPeersAttribute. assert (PeerID <$> (range (raftPeersAttr c)).*2 = (range (raftPeersAttr c)).*1) as ->.
  { rewrite <- list_fmap_compose. apply list_fmap_ext. intros n [i a] Hi%list_elem_of_lookup_2. rewrite range_perm, elem_of_map_to_list in Hi. by apply Hc. }
  rewrite range_perm. apply NoDup_fst_map_to_list.
Qed.

Lemma validate_loop_spec l ids eps :
  NoDup (PeerID <$> l) → (∀ a, a ∈ l → PeerID a ∉ ids) →
  validate_loop l ids eps = None ↔
    Forall (λ a, PeerID a ≠ 0 ∧ IsValidAddress (RaftListenAddr a) = true ∧ RaftListenAddr a ∉ eps) l ∧ NoDup (RaftListenAddr <$> l).
Proof using Type.
  revert ids eps. induction l as [|a l IH]; intros ids eps Hn Hi; [split; [by split; constructor|done]|].
  simpl. apply NoDup_cons in Hn as [Ha Hn]. rewrite Forall_cons, NoDup_cons. case_decide; [by split; [|intros [[[? _] _] _]]|].
  destruct (IsValidAddress (RaftListenAddr a)); simpl; [|by split; [|intros [[[_ [? _]] _] _]]].
  rewrite decide_False by (apply Hi; by left). case_decide as He; [by split; [|intros [[(_ & _ & ?) _] _]]|].
  rewrite IH; [|done|intros b Hb]; last first.
  { rewrite elem_of_union, elem_of_singleton. intros [E|E]; [|by apply (Hi b); [right|]]. apply Ha. rewrite <- E. by apply list_elem_of_fmap_2. }
  rewrite !Forall_forall, list_elem_of_fmap. split.
  - intros [Hf Hd]. split_and!; [done..|intros b Hb; destruct (Hf b Hb) as (? & ? & Hne%not_elem_of_union); tauto| |done].
    intros (b & E & Hb). destruct (Hf b Hb) as (_ & _ & [Hne _]%not_elem_of_union). apply Hne. by rewrite E, elem_of_singleton.
  - intros [[_ Hf] [Hd ?]]. split; [|done]. intros b Hb. destruct (Hf b Hb) as (? & ? & ?). split_and!; [done..|].
    apply not_elem_of_union. split; [|done]. rewrite elem_of_singleton. intros E. apply Hd. by exists b.
Qed.

(** A configuration passes the check exactly if no identifier is 0 and its peers listen on
    valid addresses that differ. *)
Lemma validate_spec c : keyed c →
  Validate c = None ↔ raftPeersAttr c !! 0 = None ∧
    (∀ i a, raftPeersAttr c !! i = Some a → IsValidAddress (RaftListenAddr a) = true) ∧
    (∀ i j a b, raftPeersAttr c !! i = Some a → raftPeersAttr c !! j = Some b → RaftListenAddr a = RaftListenAddr b → i = j).
Proof.
  intros Hc. unfold Validate. rewrite validate_loop_spec; [|by apply attributes_ids|by intros a _]. rewrite Forall_forall.
  assert (∀ i a, raftPeersAttr c !! i = Some a → a ∈ RaftPeersAttribute c) as Hin.
  { intros i a E. apply attributes_elem; [done|]. by rewrite (Hc _ _ E). }
  split.
  - intros [Hf Hn]. split_and!.
    + apply eq_None_not_Some. intros [a E]. destruct (Hf a (Hin _ _ E)) as [Hz _]. by rewrite (Hc _ _ E) in Hz.
    + intros i a E. by apply Hf, (Hin i).
    + intros i j a b Ea Eb E. pose proof (Hin _ _ Ea) as [k Hk]%list_elem_of_lookup. pose proof (Hin _ _ Eb) as [k' Hk']%list_elem_of_lookup.
      assert (k = k') as <-; [|simplify_eq; by rewrite <- (Hc _ _ Ea), <- (Hc _ _ Eb)].
      eapply (NoDup_lookup _ _ _ _ Hn); rewrite list_lookup_fmap; [by rewrite Hk|by rewrite Hk', E].
  - intros (Hz & Hv & Hu). split.
    + intros a Ha%attributes_elem; [|done]. split_and!; [intros E; by rewrite E, Hz in Ha|by eapply Hv|done].
    + apply NoDup_fmap_2_strong; [|by eapply NoDup_fmap_1, attributes_ids]. intros a b Ha%attributes_elem Hb%attributes_elem E; [|done..].
      pose proof (Hu _ _ _ _ Ha Hb E) as Ei. rewrite Ei in Ha. by simplify_eq.
Qed.

Lemma match_loop_ok client n fromID c l :
  match_loop client n fromID c l = None →
  ∃ a ps, a ∈ l ∧ PeerID a ≠ fromID ∧ client (PeerID a) = Ok (true, ps) ∧ equal c ps = true.
Proof.
  revert n. induction l as [|a l IH]; intros n E; [done|]. simpl in E.
  assert ((∃ n, match_loop client n fromID c l = None) ∨ (PeerID a ≠ fromID ∧ ∃ ps, client (PeerID a) = Ok (true, ps) ∧ equal c ps = true)) as [[n' E']|(? & ps & ? & ?)].
  { case_decide; [left; by exists n|]. destruct n as [|n]; [done|]. destruct (client (PeerID a)) as [[[] ps]|] eqn:Ec; [|left; by exists n..].
    destruct (equal c ps) eqn:Ee; [right; split; [done|by exists ps]|left; by exists n]. }
  - destruct (IH n' E') as (b & ps & ? & ?). exists b, ps. split; [by right|done].
  - exists a, ps. split; [by left|done].
Qed.

(** The members a cluster knows are those of the configuration. *)
Definition same_members c (cl : Cluster) : Prop :=
  ∀ i, (λ a, (RaftListenAddr a, IsLearner a)) <$> (raftPeersAttr c !! i) =
       (λ p, (RaftListenAddr (RaftPeerAttr p), IsLearner (RaftPeerAttr p))) <$> (peers_of (store cl) !! i).

Lemma Peers_elem cl p : cluster_inv cl → p ∈ Peers_ cl ↔ peers_of (store cl) !! PeerID (RaftPeerAttr p) = Some p.
Proof.
  intros Hc. unfold Peers_. rewrite merge_sort_Permutation, list_elem_of_fmap. split.
  - intros ([i q] & -> & Hi). rewrite range_perm, elem_of_map_to_list in Hi. simpl. by rewrite (ci_keyed _ Hc _ _ Hi).
  - intros E. exists (PeerID (RaftPeerAttr p), p). by rewrite range_perm, elem_of_map_to_list.
Qed.

Lemma equal_members c cl : keyed c → cluster_inv cl → equal c (Peers_ cl) = true → same_members c cl.
Proof.
  intros Hc Hcl E. unfold equal in E. case_decide as Hlen; [done|]. rewrite forallb_forall in E.
  assert (∀ i p, peers_of (store cl) !! i = Some p → ∃ a, raftPeersAttr c !! i = Some a ∧
    RaftListenAddr a = RaftListenAddr (RaftPeerAttr p) ∧ IsLearner a = IsLearner (RaftPeerAttr p)) as Hsub.
  { intros i p Hp. pose proof (ci_keyed _ Hcl _ _ Hp) as Hk. cbv beta in Hk.
    assert (peer_matches c p = true) as Hp' by (apply E, list_elem_of_In, Peers_elem; [done|]; by rewrite Hk).
    unfold peer_matches in Hp'. rewrite Hk in Hp'. destruct (raftPeersAttr c !! i) as [a|]; [|done]. apply bool_decide_eq_true_1 in Hp'. by exists a. }
  assert (dom (raftPeersAttr c) = dom (peers_of (store cl))) as Hdom.
  { symmetry. apply set_subseteq_size_eq.
    - intros i [p Hp]%elem_of_dom. destruct (Hsub i p Hp) as (a & Ha & _). apply elem_of_dom. by exists a.
    - rewrite !size_dom. unfold RaftPeersAttribute, Peers_ in Hlen. rewrite merge_sort_Permutation, !length_fmap, !range_perm, !length_map_to_list in Hlen. lia. }
  intros i. destruct (peers_of (store cl) !! i) as [p|] eqn:Hp.
  - destruct (Hsub i p Hp) as (a & -> & E1 & E2). simpl. by rewrite E1, E2.
  - apply not_elem_of_dom in Hp. rewrite <- Hdom in Hp. apply not_elem_of_dom in Hp. by rewrite Hp.
Qed.
End Range.

(** C18: a node joins only the cluster it was configured for.  With any configuration that can
    be built, if it passes the check and the comparison with the running cluster succeeds,
    then its identifiers are not 0, its addresses are valid and differ, and one of the other
    members answered with a membership that is the configured one: the same identifiers, each
    with the same address and the same role. *)
Theorem join_verified `{MapRange} ops c client n fromID :
  configured ops NewPeersConfiguration = Ret c →
  (∀ i ps, client i = Ok (true, ps) → ∃ cl, cluster_inv cl ∧ ps = Peers_ cl) →
  Validate c = None → MatchRemoteCluster client n fromID c = None →
  (∀ i a, raftPeersAttr c !! i = Some a → i ≠ 0 ∧ PeerID a = i ∧ IsValidAddress (RaftListenAddr a) = true) ∧
  (∀ i j a b, raftPeersAttr c !! i = Some a → raftPeersAttr c !! j = Some b → RaftListenAddr a = RaftListenAddr b → i = j) ∧
  ∃ i cl, i ≠ fromID ∧ is_Some (raftPeersAttr c !! i) ∧ client i = Ok (true, Peers_ cl) ∧ same_members c cl.
Proof.
  intros Hops Hcl Hv Hm. destruct (configured_keyed ops NewPeersConfiguration) as (c' & E & Hc); [by intros i a|].
  rewrite Hops in E. injection E as <-. apply validate_spec in Hv as (Hz & Hv & Hu); [|done]. split_and!; [|done|].
  - intros i a Hi. split_and!; [by intros ->; rewrite Hz in Hi|by apply Hc|by eapply Hv].
  - apply match_loop_ok in Hm as (a & ps & Ha & Hne & Hans & He). destruct (Hcl _ _ Hans) as (cl & Hci & ->).
    exists (PeerID a), cl. split_and!; [done| |done|by apply equal_members]. apply attributes_elem in Ha; [|done]. by exists a.
Qed.

Module JoinExamples.
Definition two : list conf_op := [ConfAdd 1 "a:1" false; ConfAdd 2 "b:1" false; ConfAdd 3 "c:1" true].
Definition member (i : Z) (a : string) (learner : bool) : Peer :=
  {| RaftPeerAttr := {| PeerID := i; RaftListenAddr := a; IsLearner := learner; StoreID := 0 |}; AppServiceAddresses := [] |}.
Definition running : Cluster :=
  {| clusterID := 7; groupID := 0; localPeerID := 1;
     store := {| Peers := Some {[1 := member 1 "a:1" false; 2 := member 2 "b:1" false; 3 := member 3 "c:1" true]}; RemovedIds := Some ∅ |} |}.
(** Only member 2 answers. *)
Definition client : PeersClient := fun i => if decide (i = 2) then Ok (true, Peers_ running) else Err (Errorf "timeout").

Lemma join_verified_witness :
  ∃ c, configured two NewPeersConfiguration = Ret c ∧ ∃ i cl, i ≠ 3 ∧ client i = Ok (true, Peers_ cl) ∧ same_members c cl.
Proof.
  destruct (configured two NewPeersConfiguration) as [c|] eqn:E; [|done]. exists c. split; [done|].
  pose proof E as E'. vm_compute in E'. injection E' as Ec.
  destruct (join_verified two c client 5 3 E) as (_ & _ & i & cl & Hi & _ & Hc & Hs); [|subst c; by vm_compute..|by exists i, cl].
  intros i ps. unfold client. case_decide; [|done]. intros [= <-]. exists running. split; [|done].
  constructor; [by eexists|by eexists| |]; simpl.
  - by repeat (apply map_Forall_insert_2; [done|]); apply map_Forall_empty.
  - intros i'. unfold removed_of. simpl. rewrite lookup_empty. by intros [].
Defined.
End JoinExamples.
