(* ===== verification/Bootstrap.v ===== *)
(** * Starting a node: [raft/bootstrap.go]

    A node is started new, restarted from its log and its newest valid snapshot, or
    recovered as the only member of its cluster.  The managers of the log and of the
    snapshots, the state machine, the sessions, the transport and the etcd node are
    interfaces; [Boot] is the state of all of them. *)

From S2P Require Import Prelude Streams Session Cluster Apply PeersConfig Raftpb.

(** ** Interfaces *)

(** [ibabuza.WalManager] with the logs [WL], storages [ES] and replay results [RR] it gives. *)
Class WalManager (WM RR ES WL : Type) := {
  wm_HasExistingWals : meth WM bool;
  wm_FindSnapshot : meth WM (list WalSnapshot);
  wm_CreateWal : Z → Z → meth WM (ES * WL);
  wm_ReplayWal : option Snapshot → bool → meth WM (RR * ES * WL);
  rr_HardState : RR → HardState;
  rr_ConfChangeEntries : RR → list Entry;       (* those [ForEachConfChangeEntries] visits *)
  wl_SetUnsafeNoFsync : WL → WL;
  wl_Save : HardState → list Entry → meth (WM * WL) unit;
  wl_Sync : meth (WM * WL) unit;
  es_InitialState : ES → result (HardState * ConfState);
  es_SetHardState : HardState → meth ES unit;
  es_Append : list Entry → meth ES unit
}.

(** [ibabuza.SnapshotManager] with the readers [RD] of its snapshots. *)
Class SnapshotManager (SN RD : Type) := {
  sn_ScanInstalledSnapshots : bool → meth SN unit;
  sn_LoadLastValidSnapshot : list WalSnapshot → meth SN (option Snapshot);
  sn_CreateInstalledSnapshotReader : Z → bool → meth SN RD;
  rd_Cluster : RD → result (list byte);
  rd_Session : RD → result (list byte)
}.

(** The interfaces a state machine may have besides [Apply]. *)
Class MachineBoot (SM RD : Type) := {
  sm_isDisk : bool; sm_isConcurrent : bool; sm_isSession : bool;
  sm_Open : SM → SM * (Z * bool);
  sm_RestoreFromSnapshot : RD → meth SM unit
}.
(** [SetResponseSerializer] and [Restore] of the sessions and of the cluster. *)
Class SessionsBoot (M : Type) := {
  ss_SetResponseSerializer : meth M unit;
  ss_Restore : list byte → meth M unit
}.
Class ClusterBoot := cl_Restore : list byte → meth Cluster unit.

Class TransportBoot (TR : Type) := {
  tr_SetupTransportConfig : Z → string → meth TR unit;
  tr_AddPeer : Z → string → TR → TR;
  tr_client : TR → result PeersClient; tr_deadline : TR → nat
}.

(** [raft.Config], the fields that depend on the configuration of the node. *)
Record raft_Config (ES : Type) := {
  rc_ID : Z; rc_ElectionTick : Z; rc_HeartbeatTick : Z; rc_Storage : ES;
  rc_MaxSizePerMsg : Z; rc_MaxCommittedSizePerReady : Z; rc_MaxUncommittedEntriesSize : Z; rc_MaxInflightMsgs : Z;
  rc_CheckQuorum : bool; rc_PreVote : bool; rc_DisableProposalForwarding : bool
}.
Arguments rc_Storage {ES} _.
Class NodeStarter (RN ES : Type) := {
  rn_Start : raft_Config ES → list raft_Peer → result RN;
  rn_Restart : raft_Config ES → result RN
}.

(** ** Configuration: [raft/config.go] *)

Record RaftConfig := {
  LogicalTickMs : Z; ElectionTicks : Z; HeartbeatTicks : Z; MaxSizePerMsg : Z; MaxCommittedSizePerReady : Z;
  MaxUncommittedEntriesSize : Z; MaxInflightMsgs : Z; CheckQuorum : bool; PreVote : bool; DisableProposalForwarding : bool
}.
Record BabuzaConfig := {
  ClusterID : Z; LocalPeerID : Z; RaftListenAddress : string; cfg_Join : bool; EnableWalNoSync : bool; SnapshotCount : Z;
  cfg_Raft : RaftConfig
}.
Definition DefaultRaftConfig : RaftConfig :=
  {| LogicalTickMs := 100; ElectionTicks := 10; HeartbeatTicks := 1; MaxSizePerMsg := 1024 * 1024; MaxCommittedSizePerReady := 2 ^ 64 - 1;
     MaxUncommittedEntriesSize := 2 ^ 30; MaxInflightMsgs := 512; CheckQuorum := true; PreVote := true; DisableProposalForwarding := true |}.
Definition DefaultBabuzaConfig (clusterId localPeerID : Z) (raftListenAddr : string) : BabuzaConfig :=
  {| ClusterID := clusterId; LocalPeerID := localPeerID; RaftListenAddress := raftListenAddr; cfg_Join := false; EnableWalNoSync := false;
     SnapshotCount := 10000; cfg_Raft := DefaultRaftConfig |}.
Definition convertToRaftConfig {ES} (c : BabuzaConfig) (ms : ES) : raft_Config ES :=
  let r := cfg_Raft c in
  {| rc_ID := LocalPeerID c; rc_ElectionTick := ElectionTicks r; rc_HeartbeatTick := HeartbeatTicks r; rc_Storage := ms;
     rc_MaxSizePerMsg := MaxSizePerMsg r; rc_MaxCommittedSizePerReady := MaxCommittedSizePerReady r;
     rc_MaxUncommittedEntriesSize := MaxUncommittedEntriesSize r; rc_MaxInflightMsgs := MaxInflightMsgs r;
     rc_CheckQuorum := CheckQuorum r; rc_PreVote := PreVote r; rc_DisableProposalForwarding := DisableProposalForwarding r |}.

(** ** Configuration changes for a node alone *)

Section Standalone.
Context `{RaftLib, Message ConfChange, Message ConfChangeRequest}.

(** [applyConfChange] *)
Definition applyConfChange (cs : ConfState) (cc : ConfChange) : ConfState :=
  if decide (cc_Type cc = ConfChangeAddNode) then {| cs_voters := cs_voters cs ++ [cc_NodeID cc]; cs_learners := cs_learners cs |}
  else if decide (cc_Type cc = ConfChangeAddLearnerNode) then {| cs_voters := cs_voters cs; cs_learners := cs_learners cs ++ [cc_NodeID cc] |}
  else if decide (cc_Type cc = ConfChangeRemoveNode) then
    {| cs_voters := filter (.≠ cc_NodeID cc) (cs_voters cs); cs_learners := filter (.≠ cc_NodeID cc) (cs_learners cs) |}
  else cs.

(** The visitor of [listRaftConfChangeAddNodeIds]. *)
Definition list_node (nodeIds : gset Z) (e : Entry) : result (gset Z) :=
  match unmarshal (e_data e) with
  | None => Err (Errorf "unmarshal")
  | Some cc =>
      if decide (cc_Type cc = ConfChangeAddLearnerNode ∨ cc_Type cc = ConfChangeAddNode) then Ok ({[cc_NodeID cc]} ∪ nodeIds)
      else if decide (cc_Type cc = ConfChangeRemoveNode) then Ok (nodeIds ∖ {[cc_NodeID cc]})
      else if decide (cc_Type cc = ConfChangeUpdateNode) then Ok nodeIds
      else Err (Errorf "unknown conf change type")
  end.
Fixpoint list_nodes (nodeIds : gset Z) (es : list Entry) : result (gset Z) :=
  match es with
  | [] => Ok nodeIds
  | e :: es => match list_node nodeIds e with Err err => Err err | Ok nodeIds => list_nodes nodeIds es end
  end.
Definition listRaftConfChangeAddNodeIds (snap : option Snapshot) (confChanges : list Entry) : result (list Z) :=
  let nodeIds := match snap with Some s => list_to_set (cs_voters (sm_conf (snap_meta s))) | None => ∅ end in
  match list_nodes nodeIds confChanges with
  | Err e => Err e
  | Ok ids => Ok (merge_sort Z.le (elements ids))
  end.

Definition conf_entry (term index : Z) (cc : ConfChange) : Entry :=
  {| e_term := term; e_index := index; e_type := EntryConfChange; e_data := marshal cc |}.
Definition attr (i : Z) (addr : string) : RaftPeerAttribute := {| PeerID := i; RaftListenAddr := addr; IsLearner := false; StoreID := 0 |}.
Definition add_change (i : Z) (addr : string) : ConfChange :=
  {| cc_Type := ConfChangeAddNode; cc_NodeID := i; cc_Context := marshal (peer_request (attr i addr)) |}.
Definition remove_change (i : Z) : ConfChange :=
  {| cc_Type := ConfChangeRemoveNode; cc_NodeID := i; cc_Context := marshal (peer_request (attr i "")) |}.

(** The loop over the other members. *)
Fixpoint remove_others (newLocalPeerID term nextIndex : Z) (ids : list Z) : list Entry :=
  match ids with
  | [] => []
  | i :: ids =>
      if decide (i = newLocalPeerID) then remove_others newLocalPeerID term nextIndex ids
      else conf_entry term nextIndex (remove_change i) :: remove_others newLocalPeerID term (u64 (nextIndex + 1)) ids
  end.

(** [createRaftConfigChangeEntries]: the entries, and the state with its new commit index. *)
Definition createRaftConfigChangeEntries (newLocalPeerID : Z) (newRaftListenAddr : string) (confChangeIds : list Z) (state : HardState)
    : result (list Entry * HardState) :=
  if IsEmptyHardState state then Err (Errorf "bootstrap: raftpb.HardState is empty")
  else
    let nextIndex := u64 (hs_commit state + 1) in
    let ents := if decide (newLocalPeerID ∈ confChangeIds) then remove_others newLocalPeerID (hs_term state) nextIndex confChangeIds
                else conf_entry (hs_term state) nextIndex (add_change newLocalPeerID newRaftListenAddr) ::
                     remove_others newLocalPeerID (hs_term state) (u64 (nextIndex + 1)) confChangeIds in
    let commit := match last ents with Some e => e_index e | None => hs_commit state end in
    Ok (ents, {| hs_term := hs_term state; hs_vote := hs_vote state; hs_commit := commit |}).
End Standalone.

(** ** Restoring from a snapshot *)

(** The parts of a state that a snapshot brings back. *)
Record Restorer {SN SM M S : Type} := {
  on_sn : ∀ {B}, meth SN B → meth S B; on_sm : ∀ {B}, meth SM B → meth S B;
  on_cl : ∀ {B}, meth Cluster B → meth S B; on_ss : ∀ {B}, meth M B → meth S B
}.
Arguments Restorer : clear implicits.

(** A result computed without the state. *)
Definition answer {S B} (r : result B) : meth S B := match r with Ok x => Meth.ret x | Err e => Meth.fail e end.

Definition RestoreFromSnapshot {SN RD SM M S : Type} `{SnapshotManager SN RD, MachineBoot SM RD, SessionsBoot M, ClusterBoot}
    (p : Restorer SN SM M S) (snapShotIndex : Z) (restoreStateMachine : bool) : meth S unit :=
  (reader <- on_sn p (sn_CreateInstalledSnapshotReader snapShotIndex false) ;;
   (if restoreStateMachine then on_sm p (sm_RestoreFromSnapshot reader) else Meth.ret tt) ;;
   clusterReader <- answer (rd_Cluster reader) ;;
   on_cl p (cl_Restore clusterReader) ;;
   sessionReader <- answer (rd_Session reader) ;;
   on_ss p (ss_Restore sessionReader))%go.

(** ** The node being started *)

(** [pkg/status], the part that is set here. *)
Record BootStatus := {
  bs_hardStateTerm : Z; bs_committedIndex : Z; bs_appliedIndex : Z; bs_appliedTerm : Z; bs_snapIndex : Z; bs_confState : ConfState
}.
Definition newStatus : BootStatus :=
  {| bs_hardStateTerm := 0; bs_committedIndex := 0; bs_appliedIndex := 0; bs_appliedTerm := 0; bs_snapIndex := 0;
     bs_confState := {| cs_voters := []; cs_learners := [] |} |}.

Record Boot {WM SN SM M TR : Type} := {
  bt_wals : WM; bt_snaps : SN; bt_machine : SM; bt_bsm : BasedStateMachineInfo;
  bt_cluster : Cluster; bt_sessions : M; bt_trans : TR; bt_status : BootStatus
}.
Arguments Boot : clear implicits.

Section Boot.
Context {A WM RR ES WL SN RD SM M TR RN : Type}.
Context `{RaftLib, Message ConfChange, Message ConfChangeRequest, MapRange}.
Context `{WalManager WM RR ES WL, SnapshotManager SN RD, MachineBoot SM RD, SessionsBoot M, ClusterBoot, TransportBoot TR, NodeStarter RN ES}.
Abbreviation boot := (Boot WM SN SM M TR).
Implicit Types (b : boot).

Definition put_wals (x : WM) b : boot := {| bt_wals := x; bt_snaps := bt_snaps b; bt_machine := bt_machine b; bt_bsm := bt_bsm b; bt_cluster := bt_cluster b; bt_sessions := bt_sessions b; bt_trans := bt_trans b; bt_status := bt_status b |}.
Definition put_snaps (x : SN) b : boot := {| bt_wals := bt_wals b; bt_snaps := x; bt_machine := bt_machine b; bt_bsm := bt_bsm b; bt_cluster := bt_cluster b; bt_sessions := bt_sessions b; bt_trans := bt_trans b; bt_status := bt_status b |}.
Definition put_machine (x : SM) b : boot := {| bt_wals := bt_wals b; bt_snaps := bt_snaps b; bt_machine := x; bt_bsm := bt_bsm b; bt_cluster := bt_cluster b; bt_sessions := bt_sessions b; bt_trans := bt_trans b; bt_status := bt_status b |}.
Definition put_bsm (x : BasedStateMachineInfo) b : boot := {| bt_wals := bt_wals b; bt_snaps := bt_snaps b; bt_machine := bt_machine b; bt_bsm := x; bt_cluster := bt_cluster b; bt_sessions := bt_sessions b; bt_trans := bt_trans b; bt_status := bt_status b |}.
Definition put_cluster (x : Cluster) b : boot := {| bt_wals := bt_wals b; bt_snaps := bt_snaps b; bt_machine := bt_machine b; bt_bsm := bt_bsm b; bt_cluster := x; bt_sessions := bt_sessions b; bt_trans := bt_trans b; bt_status := bt_status b |}.
Definition put_boot_sessions (x : M) b : boot := {| bt_wals := bt_wals b; bt_snaps := bt_snaps b; bt_machine := bt_machine b; bt_bsm := bt_bsm b; bt_cluster := bt_cluster b; bt_sessions := x; bt_trans := bt_trans b; bt_status := bt_status b |}.
Definition put_trans (x : TR) b : boot := {| bt_wals := bt_wals b; bt_snaps := bt_snaps b; bt_machine := bt_machine b; bt_bsm := bt_bsm b; bt_cluster := bt_cluster b; bt_sessions := bt_sessions b; bt_trans := x; bt_status := bt_status b |}.
Definition put_boot_status (x : BootStatus) b : boot := {| bt_wals := bt_wals b; bt_snaps := bt_snaps b; bt_machine := bt_machine b; bt_bsm := bt_bsm b; bt_cluster := bt_cluster b; bt_sessions := bt_sessions b; bt_trans := bt_trans b; bt_status := x |}.

(** A method of one of the parts. *)
Definition on {S B} (get : boot → S) (put : S → boot → boot) (m : meth S B) : meth boot B := fun b =>
  match m (get b) with
  | Ret (s, r) => Ret (put s b, r)
  | Panic p => Panic p
  end.
Definition update (f : boot → boot) : meth boot unit := Meth.modify f.

Open Scope go_scope.

Definition SetOpenAppliedIndex (index : Z) : meth boot unit := update (fun b =>
  put_bsm {| openAppliedIndex := index; diskType := diskType (bt_bsm b) |} b).

Definition loadWALSnapshot : meth boot (option Snapshot) :=
  walSnapshots <- on bt_wals put_wals wm_FindSnapshot ;;
  on bt_snaps put_snaps (sn_LoadLastValidSnapshot walSnapshots).

Definition replayWALAndSetup (cfg : BabuzaConfig) (snap : option Snapshot) (discardUncommitted : bool) : meth boot (RR * ES * WL) :=
  r <- on bt_wals put_wals (wm_ReplayWal snap discardUncommitted) ;;
  let '(result, entryStorage, wal) := r in
  Meth.ret (result, entryStorage, if EnableWalNoSync cfg then wl_SetUnsafeNoFsync wal else wal).

(** [raftStorage], with the parts of its own. *)
Record raftStorage := { rs_wal : WL; rs_entryStorage : ES }.

Definition boot_parts : Restorer SN SM M boot := {|
  on_sn B := on bt_snaps put_snaps; on_sm B := on bt_machine put_machine;
  on_cl B := on bt_cluster put_cluster; on_ss B := on bt_sessions put_boot_sessions
|}.

Definition restoreStateMachineFromSnapshot (snapIndex : Z) : meth boot unit :=
  reader <- on bt_snaps put_snaps (sn_CreateInstalledSnapshotReader snapIndex false) ;;
  on bt_machine put_machine (sm_RestoreFromSnapshot reader) ;;
  SetOpenAppliedIndex snapIndex.

(** An error in other words: [fmt.Errorf] with [%w]. *)
Definition wrap {B} (text : string) (m : meth boot B) : meth boot B := fun b =>
  match m b with Ret (b, Err _) => Ret (b, Err (Errorf text)) | r => r end.

Definition wrap_if {B} (named : bool) (text : string) (m : meth boot B) : meth boot B := if named then wrap text m else m.

Definition snap_index (s : Snapshot) : Z := sm_index (snap_meta s).

Definition handleDiskStateMachine (snap : option Snapshot) : meth boot unit :=
  r <- on bt_machine put_machine (fun m => let '(m, r) := sm_Open m in Ret (m, Ok r)) ;;
  let '(diskAppliedIndex, rebuildStateMachine) := r in
  if (rebuildStateMachine : bool) then
    match snap with
    | Some s => wrap "failed to restore disk state machine: %w" (restoreStateMachineFromSnapshot (snap_index s))
    | None => Meth.ret tt
    end
  else
    match snap with
    | Some s => if decide (diskAppliedIndex < snap_index s) then Meth.fail (Errorf "disk applied index (%d) < snapshot index (%d)")
                else SetOpenAppliedIndex diskAppliedIndex
    | None => SetOpenAppliedIndex diskAppliedIndex
    end.

Definition handleMemoryStateMachine (snap : option Snapshot) : meth boot unit :=
  match snap with
  | Some s => wrap "failed to restore memory state machine: %w" (restoreStateMachineFromSnapshot (snap_index s))
  | None => Meth.ret tt
  end.

Definition initializeStatusFromSnapshot (snap : option Snapshot) (hardState : HardState) : meth boot unit := update (fun b =>
  let st := bt_status b in
  put_boot_status
    match snap with
    | None => {| bs_hardStateTerm := hs_term hardState; bs_committedIndex := hs_commit hardState; bs_appliedIndex := bs_appliedIndex st;
                 bs_appliedTerm := bs_appliedTerm st; bs_snapIndex := bs_snapIndex st; bs_confState := bs_confState st |}
    | Some s =>
        {| bs_hardStateTerm := hs_term hardState; bs_committedIndex := hs_commit hardState;
           bs_appliedIndex := if decide (snap_index s < openAppliedIndex (bt_bsm b)) then openAppliedIndex (bt_bsm b) else snap_index s;
           bs_appliedTerm := sm_term (snap_meta s); bs_snapIndex := snap_index s; bs_confState := sm_conf (snap_meta s) |}
    end b).

Definition restartRaftNode (cfg : BabuzaConfig) (entryStorage : ES) : result RN := rn_Restart (convertToRaftConfig cfg entryStorage).

(** ** Starting *)

Definition startNode (cfg : BabuzaConfig) (configuration : PeersConfiguration) : meth boot (RN * raftStorage) :=
  (match Validate configuration with Some e => Meth.fail e | None => Meth.ret tt end) ;;
  update (fun b => foldl (fun b a =>
    if decide (PeerID a ≠ LocalPeerID cfg) then put_trans (tr_AddPeer (PeerID a) (RaftListenAddr a) (bt_trans b)) b else b)
    b (RaftPeersAttribute configuration)) ;;
  b <- Meth.get ;;
  (if cfg_Join cfg then
     client <- answer (tr_client (bt_trans b)) ;;
     match MatchRemoteCluster client (tr_deadline (bt_trans b)) (LocalPeerID cfg) configuration with
     | Some e => Meth.fail e
     | None => Meth.ret tt
     end
   else Meth.ret tt) ;;
  r <- on bt_wals put_wals (wm_CreateWal (ClusterID cfg) (LocalPeerID cfg)) ;;
  let '(entryStorage, wal) := r in
  let wal := if EnableWalNoSync cfg then wl_SetUnsafeNoFsync wal else wal in
  let raftCfg := convertToRaftConfig cfg entryStorage in
  node <- answer (if cfg_Join cfg then rn_Restart raftCfg else rn_Start raftCfg (ToRaftPeers configuration)) ;;
  Meth.ret (node, {| rs_wal := wal; rs_entryStorage := entryStorage |}).

Definition restartNode (cfg : BabuzaConfig) : meth boot (RN * raftStorage) :=
  snap <- loadWALSnapshot ;;
  r <- replayWALAndSetup cfg snap false ;;
  let '(_, entryStorage, wal) := r in
  update (fun b => put_cluster (SetLocalPeerID (LocalPeerID cfg) (SetClusterID (ClusterID cfg) (bt_cluster b))) b) ;;
  init <- answer (es_InitialState entryStorage) ;;
  b <- Meth.get ;;
  (if diskType (bt_bsm b) then handleDiskStateMachine snap else handleMemoryStateMachine snap) ;;
  (match snap with
   | None => Meth.ret tt
   | Some s =>
       RestoreFromSnapshot boot_parts (snap_index s) false ;;
       b <- Meth.get ;;
       let cluster := bt_cluster b in
       if decide (clusterID cluster ≠ ClusterID cfg ∨ localPeerID cluster ≠ LocalPeerID cfg) then Meth.fail (Errorf "bootstrap: mistach configuration")
       else update (put_trans (foldl (fun t p => tr_AddPeer (PeerID (RaftPeerAttr p)) (RaftListenAddr (RaftPeerAttr p)) t) (bt_trans b) (Peers_ cluster)))
   end) ;;
  initializeStatusFromSnapshot snap init.1 ;;
  node <- answer (restartRaftNode cfg entryStorage) ;;
  Meth.ret (node, {| rs_wal := wal; rs_entryStorage := entryStorage |}).

(** What both ways to start have first: the state machine is looked at, the sessions get
    its serializer, the transport and the cluster their identifiers.  [RecoverAsStandalone]
    puts its own words on the errors. *)
Definition NewBasedStateMachineInfo : result BasedStateMachineInfo :=
  if sm_isDisk && negb sm_isConcurrent then Err (Errorf "storage: StateMachine does not implement the interface ConcurrentSnapshotStateMachine")
  else Ok {| openAppliedIndex := 0; diskType := sm_isDisk |}.
Definition setup (named : bool) (cfg : BabuzaConfig) : meth boot unit :=
  bsmInfo <- wrap_if named "bootstrap: failed to create state machine info: %w" (answer NewBasedStateMachineInfo) ;;
  update (put_bsm bsmInfo) ;;
  (if sm_isSession then wrap_if named "bootstrap: failed to set response serializer: %w" (on bt_sessions put_boot_sessions ss_SetResponseSerializer)
   else Meth.ret tt) ;;
  wrap_if named "bootstrap: failed to setup transport: %w" (on bt_trans put_trans (tr_SetupTransportConfig (LocalPeerID cfg) (RaftListenAddress cfg))) ;;
  update (fun b => put_cluster (SetLocalPeerID (LocalPeerID cfg) (SetClusterID (ClusterID cfg) (bt_cluster b))) b).

Definition NewBootstrapRaftCluster (cfg : BabuzaConfig) (votingPeersConfig : PeersConfiguration) : meth boot (RN * raftStorage) :=
  setup false cfg ;;
  update (put_boot_status newStatus) ;;
  exist <- on bt_wals put_wals wm_HasExistingWals ;;
  if (exist : bool) then
    on bt_snaps put_snaps (sn_ScanInstalledSnapshots true) ;;
    restartNode cfg
  else startNode cfg votingPeersConfig.

(** A method of the log, or of the storage, that was just opened. *)
Definition on_wal (wal : WL) (m : meth (WM * WL) unit) : meth boot WL := fun b =>
  match m (bt_wals b, wal) with
  | Panic p => Panic p
  | Ret ((wm, wal), r) => Ret (put_wals wm b, match r with Ok _ => Ok wal | Err e => Err e end)
  end.
Definition on_storage (es : ES) (m : meth ES unit) : meth boot ES := fun b =>
  match m es with
  | Panic p => Panic p
  | Ret (es, r) => Ret (b, match r with Ok _ => Ok es | Err e => Err e end)
  end.

(** The writes of [RecoverAsStandalone]: the entries go to the log without the hard state. *)
Definition save_standalone (standaloneEntries : list Entry) (wal : WL) : meth boot WL :=
  wal <- wrap "bootstrap: failed to save standalone config to WAL: %w" (on_wal wal (wl_Save emptyHardState standaloneEntries)) ;;
  wrap "bootstrap: failed to sync WAL: %w" (on_wal wal wl_Sync).
Definition append_standalone (hardState : HardState) (standaloneEntries : list Entry) (es : ES) : meth boot ES :=
  es <- wrap "bootstrap: failed to set hardState: %w" (on_storage es (es_SetHardState hardState)) ;;
  match standaloneEntries with
  | [] => Meth.ret es
  | _ => wrap "bootstrap: failed to append standalone entries: %w" (on_storage es (es_Append standaloneEntries))
  end.

Definition RecoverAsStandalone (cfg : BabuzaConfig) : meth boot (RN * raftStorage) :=
  setup true cfg ;;
  exist <- wrap "bootstrap: failed to check WAL existence: %w" (on bt_wals put_wals wm_HasExistingWals) ;;
  if negb exist then Meth.fail (Errorf "bootstrap: cannot recover as standalone - no existing WAL found")
  else
    wrap "bootstrap: failed to scan snapshots: %w" (on bt_snaps put_snaps (sn_ScanInstalledSnapshots true)) ;;
    snap <- wrap "bootstrap: failed to load snapshot: %w" loadWALSnapshot ;;
    r <- wrap "bootstrap: failed to replay WAL: %w" (replayWALAndSetup cfg snap true) ;;
    let '(walReplayResult, entryStorage, wal) := r in
    let hardState := rr_HardState walReplayResult in
    if IsEmptyHardState hardState then Meth.fail (Errorf "bootstrap: WAL replay returned empty hardState")
    else
      nodeIds <- wrap "bootstrap: failed to list node IDs: %w" (answer (listRaftConfChangeAddNodeIds snap (rr_ConfChangeEntries walReplayResult))) ;;
      r <- wrap "bootstrap: failed to create standalone config entries: %w"
             (answer (createRaftConfigChangeEntries (LocalPeerID cfg) (RaftListenAddress cfg) nodeIds hardState)) ;;
      let '(standaloneEntries, hardState) := r in
      wal <- save_standalone standaloneEntries wal ;;
      entryStorage <- append_standalone hardState standaloneEntries entryStorage ;;
      b <- Meth.get ;;
      (match snap with
       | None => Meth.ret tt
       | Some s =>
           (if diskType (bt_bsm b) then handleDiskStateMachine snap else handleMemoryStateMachine snap) ;;
           wrap "bootstrap: failed to restore cluster/session state: %w" (RestoreFromSnapshot boot_parts (snap_index s) false)
       end) ;;
      update (put_boot_status newStatus) ;;
      initializeStatusFromSnapshot snap hardState ;;
      node <- wrap "bootstrap: failed to restart Raft node: %w" (answer (restartRaftNode cfg entryStorage)) ;;
      Meth.ret (node, {| rs_wal := wal; rs_entryStorage := entryStorage |}).
End Boot.
