(* ===== verification/Standalone.v ===== *)
(** * Recovering a node alone

    What the configuration changes [RecoverAsStandalone] writes do to the configuration of
    raft: when the node is the only voter afterwards, and when it is not. *)

From S2P Require Import Prelude Streams Session Cluster Apply Exactly Membership PeersConfig Raftpb Bootstrap.

(** Sets of voters, learners and listed nodes under the three kinds of changes. *)
Section Sets.
Context (S L0 V L : gset Z) (i z : Z) (HV : V ⊆ S) (HL : L ⊆ S ∪ L0) (Hz : z ∉ V ∪ L) (Ha : V ## L) (Hi : i ≠ z).
Lemma cover_add : {[i]} ∪ V ⊆ {[i]} ∪ S ∧ L ∖ {[i]} ⊆ {[i]} ∪ S ∪ L0 ∧ z ∉ ({[i]} ∪ V) ∪ L ∖ {[i]} ∧ {[i]} ∪ V ## L ∖ {[i]}.
Proof using All. split_and!; set_solver. Qed.
Lemma cover_learner : V ∖ {[i]} ⊆ {[i]} ∪ S ∧ {[i]} ∪ L ⊆ {[i]} ∪ S ∪ L0 ∧ z ∉ V ∖ {[i]} ∪ ({[i]} ∪ L) ∧ V ∖ {[i]} ## {[i]} ∪ L.
Proof using All. split_and!; set_solver. Qed.
Lemma cover_remove : V ∖ {[i]} ⊆ S ∖ {[i]} ∧ L ∖ {[i]} ⊆ S ∖ {[i]} ∪ L0 ∧ z ∉ V ∖ {[i]} ∪ L ∖ {[i]} ∧ V ∖ {[i]} ## L ∖ {[i]}.
Proof using All. split_and!; set_solver. Qed.
End Sets.

Section Recovery.
Context {RN : Type} `{RaftConf RN, RaftLib, Message ConfChange, Message ConfChangeRequest}.
Implicit Types (rn : RN) (cc : ConfChange) (ccs : list ConfChange) (ids : list Z) (S : gset Z).

Definition members rn : gset Z := rn_voters rn ∪ rn_learners rn.
Definition apply_change cc rn : RN := (rn_ApplyConfChange 0 cc rn).1.
Definition apply_changes ccs rn : RN := foldl (fun rn cc => apply_change cc rn) rn ccs.

(** The changes of the log up to the commit index took effect on the configuration, but for
    those that were refused or repeated; no removal of a member is among these. *)
Inductive took_effect : list ConfChange → RN → RN → Prop :=
  | te_none rn : took_effect [] rn rn
  | te_applied cc ccs rn rn' : took_effect ccs (apply_change cc rn) rn' → took_effect (cc :: ccs) rn rn'
  | te_skipped cc ccs rn rn' : (cc_Type cc = ConfChangeRemoveNode → cc_NodeID cc ∉ members rn) → took_effect ccs rn rn' → took_effect (cc :: ccs) rn rn'.

(** The entries of configuration changes. *)
Definition changes_of (es : list Entry) (ccs : list ConfChange) : Prop := Forall2 (λ e cc, unmarshal (e_data e) = Some cc) es ccs.

Definition known_type cc : Prop := cc_Type cc ∈ [ConfChangeAddNode; ConfChangeAddLearnerNode; ConfChangeRemoveNode; ConfChangeUpdateNode].

(** [listRaftConfChangeAddNodeIds] on changes. *)
Definition list_change S cc : gset Z :=
  if decide (cc_Type cc = ConfChangeAddLearnerNode ∨ cc_Type cc = ConfChangeAddNode) then {[cc_NodeID cc]} ∪ S
  else if decide (cc_Type cc = ConfChangeRemoveNode) then S ∖ {[cc_NodeID cc]} else S.

Lemma list_nodes_changes es ccs S S' :
  changes_of es ccs → list_nodes S es = Ok S' → S' = foldl list_change S ccs ∧ Forall known_type ccs.
Proof using Type.
  intros Hc. revert S. induction Hc as [|e cc es ccs He Hc IH]; intros S E; simpl in E; [by injection E as <-|].
  unfold list_node in E. rewrite He in E. unfold list_change, known_type. cbn [foldl].
  repeat case_decide; try done; apply IH in E as [-> ?]; (split; [done|]); constructor; try done; set_solver.
Qed.

(** A change of a known type. *)
Lemma change_conf cc rn : known_type cc →
  let V := rn_voters rn in let L := rn_learners rn in
  let V' := rn_voters (apply_change cc rn) in let L' := rn_learners (apply_change cc rn) in
  let i := cc_NodeID cc in
  (V' = V ∧ L' = L ∧ (i = raft_None ∨ cc_Type cc = ConfChangeUpdateNode)) ∨
  (i ≠ raft_None ∧ V' = {[i]} ∪ V ∧ L' = L ∖ {[i]} ∧ cc_Type cc = ConfChangeAddNode) ∨
  (i ≠ raft_None ∧ V' = V ∖ {[i]} ∧ L' = {[i]} ∪ L ∧ cc_Type cc = ConfChangeAddLearnerNode) ∨
  (i ≠ raft_None ∧ V' = V ∖ {[i]} ∧ L' = L ∖ {[i]} ∧ cc_Type cc = ConfChangeRemoveNode).
Proof using Type.
  intros Hk. cbv zeta. unfold apply_change. destruct (decide (cc_NodeID cc = raft_None)) as [Hz|Hz].
  { left. destruct (conf_none 0 cc rn Hz) as [-> ->]. split_and!; [done|done|by left]. }
  unfold known_type in Hk. rewrite !elem_of_cons, elem_of_nil in Hk. destruct Hk as [E|[E|[E|[E|[]]]]].
  - right; left. by destruct (conf_add 0 cc rn Hz E) as [-> ->].
  - right; right; left. by destruct (conf_learner 0 cc rn Hz E) as [-> ->].
  - right; right; right. by destruct (conf_remove 0 cc rn Hz E) as [-> ->].
  - left. destruct (conf_update 0 cc rn E) as [-> ->]. split_and!; [done|done|by right].
Qed.

Lemma list_change_add S cc : cc_Type cc ∈ [ConfChangeAddNode; ConfChangeAddLearnerNode] → list_change S cc = {[cc_NodeID cc]} ∪ S.
Proof using Type. intros E. unfold list_change. rewrite decide_True; [done|]. set_solver. Qed.
Lemma list_change_remove S cc : cc_Type cc = ConfChangeRemoveNode → list_change S cc = S ∖ {[cc_NodeID cc]}.
Proof using Type. intros E. unfold list_change. rewrite E. rewrite decide_False by (by intros []). by rewrite decide_True. Qed.
Lemma list_change_update S cc : cc_Type cc = ConfChangeUpdateNode → list_change S cc = S.
Proof using Type. intros E. unfold list_change. rewrite E. rewrite decide_False by (by intros []). by rewrite decide_False. Qed.

(** Voters are listed, learners are listed or come from the snapshot, nobody is both. *)
Record covered (S L0 : gset Z) rn : Prop := {
  co_voters : rn_voters rn ⊆ S; co_learners : rn_learners rn ⊆ S ∪ L0;
  co_none : raft_None ∉ members rn; co_apart : rn_voters rn ## rn_learners rn
}.

Lemma list_change_covers S L0 cc rn :
  known_type cc → covered S L0 rn → (cc_Type cc = ConfChangeRemoveNode → cc_NodeID cc ∉ members rn) → covered (list_change S cc) L0 rn.
Proof using Type.
  unfold known_type. rewrite !elem_of_cons, elem_of_nil. intros [E|[E|[E|[E|[]]]]] [Hv Hl Hz Ha] Hr; (constructor; [| |done|done]).
  1-4: rewrite list_change_add; set_solver.
  - specialize (Hr E). unfold members in Hr. rewrite list_change_remove by done. set_solver.
  - specialize (Hr E). unfold members in Hr. rewrite list_change_remove by done. set_solver.
  - by rewrite list_change_update.
  - by rewrite list_change_update.
Qed.

Lemma apply_change_covers S L0 cc rn : known_type cc → covered S L0 rn → covered (list_change S cc) L0 (apply_change cc rn).
Proof using Type.
  intros Hk Hc. destruct (change_conf cc rn Hk) as [(Ev & El & Hx)|[(Hn & Ev & El & E)|[(Hn & Ev & El & E)|(Hn & Ev & El & E)]]].
  - assert (covered (list_change S cc) L0 rn) as [? ? ? ?]; [|constructor; unfold members; by rewrite ?Ev, ?El].
    apply list_change_covers; [done..|]. intros Et. destruct Hx as [->|Hu]; [apply Hc|by rewrite Et in Hu].
  - destruct Hc as [Hv Hl Hz Ha], (cover_add S L0 _ _ (cc_NodeID cc) raft_None Hv Hl Hz Ha Hn) as (? & ? & ? & ?).
    rewrite list_change_add by (rewrite E; by left). constructor; unfold members; by rewrite ?Ev, ?El.
  - destruct Hc as [Hv Hl Hz Ha], (cover_learner S L0 _ _ (cc_NodeID cc) raft_None Hv Hl Hz Ha Hn) as (? & ? & ? & ?).
    rewrite list_change_add by (rewrite E; by right; left). constructor; unfold members; by rewrite ?Ev, ?El.
  - destruct Hc as [Hv Hl Hz Ha], (cover_remove S L0 _ _ (cc_NodeID cc) raft_None Hv Hl Hz Ha Hn) as (? & ? & ? & ?).
    rewrite list_change_remove by done. constructor; unfold members; by rewrite ?Ev, ?El.
Qed.

Lemma took_effect_covers S L0 ccs rn rn' :
  took_effect ccs rn rn' → Forall known_type ccs → covered S L0 rn → covered (foldl list_change S ccs) L0 rn'.
Proof using Type.
  intros Ht. revert S. induction Ht as [rn|cc ccs rn rn' Ht IH|cc ccs rn rn' Hs Ht IH]; intros S Hk Hc; [done|..];
    apply Forall_cons in Hk as [Hk Hks]; cbn [foldl]; apply IH; try done; [by apply apply_change_covers|by apply list_change_covers].
Qed.

(** A node no change is about stays what it is. *)
Lemma took_effect_keeps i ccs rn rn' :
  took_effect ccs rn rn' → Forall (λ cc, known_type cc ∧ cc_NodeID cc ≠ i) ccs → i ∈ rn_learners rn → i ∈ rn_learners rn'.
Proof using Type.
  intros Ht. induction Ht as [rn|cc ccs rn rn' Ht IH|cc ccs rn rn' Hs Ht IH]; intros Hk Hi; [done|..]; apply Forall_cons in Hk as [[Hk Hne] Hks]; [|by apply IH].
  apply IH; [done|]. destruct (change_conf cc rn Hk) as [(_ & -> & _)|[(_ & _ & -> & _)|[(_ & _ & -> & _)|(_ & _ & -> & _)]]]; set_solver.
Qed.
Lemma list_changes_other i ccs S : Forall (λ cc, cc_NodeID cc ≠ i) ccs → i ∈ foldl list_change S ccs ↔ i ∈ S.
Proof using Type.
  intros Hc. revert S. induction Hc as [|cc ccs Hne Hc IH]; intros S; [done|]. cbn [foldl]. rewrite IH. unfold list_change.
  repeat case_decide; set_solver.
Qed.

(** ** The entries *)

Definition standalone_changes (local : Z) (addr : string) ids : list ConfChange :=
  (if decide (local ∈ ids) then [] else [add_change local addr]) ++ (remove_change <$> filter (.≠ local) ids).

Lemma remove_others_changes local term i ids :
  changes_of (remove_others local term i ids) (remove_change <$> filter (.≠ local) ids).
Proof using Type.
  revert i. induction ids as [|x ids IH]; intros i; [constructor|]. cbn [remove_others]. case_decide.
  - rewrite filter_cons_False by (by intros []). apply IH.
  - rewrite filter_cons_True by done. constructor; [apply unmarshal_marshal|apply IH].
Qed.
Lemma remove_others_indexed local term i ids :
  0 <= i → i + Z.of_nat (length ids) < 2 ^ 64 → indexed e_index i (remove_others local term i ids) ∧ Forall (λ e, e_term e = term ∧ e_type e = EntryConfChange) (remove_others local term i ids) ∧
  (length (remove_others local term i ids) <= length ids)%nat.
Proof using Type.
  revert i. induction ids as [|x ids IH]; intros i Hi Hl; [split_and!; [apply indexed_nil|constructor|done]|]. cbn [remove_others length] in *. case_decide.
  - destruct (IH i) as (? & ? & ?); [lia..|]. split_and!; [done..|lia].
  - rewrite u64_small by lia. destruct (IH (i + 1)) as (? & ? & ?); [lia..|]. split_and!; [by apply indexed_cons|by constructor|simpl; lia].
Qed.

Lemma create_entries_spec local addr ids hs ents hs' :
  createRaftConfigChangeEntries local addr ids hs = Ok (ents, hs') → 0 <= hs_commit hs → hs_commit hs + 2 + Z.of_nat (length ids) < 2 ^ 64 →
  changes_of ents (standalone_changes local addr ids) ∧ indexed e_index (hs_commit hs + 1) ents ∧
  Forall (λ e, e_term e = hs_term hs ∧ e_type e = EntryConfChange) ents ∧ hs_commit hs' = hs_commit hs + Z.of_nat (length ents).
Proof using Type.
  unfold createRaftConfigChangeEntries, standalone_changes. destruct (IsEmptyHardState hs); [done|]. intros E Hc Hb.
  rewrite !u64_small in E by lia. injection E as He <-. cbn [hs_commit].
  assert (changes_of ents ((if decide (local ∈ ids) then [] else [add_change local addr]) ++ (remove_change <$> filter (.≠ local) ids)) ∧
    indexed e_index (hs_commit hs + 1) ents ∧ Forall (λ e, e_term e = hs_term hs ∧ e_type e = EntryConfChange) ents) as (Hch & Hix & Hty).
  { destruct (decide (local ∈ ids)).
    - subst ents. destruct (remove_others_indexed local (hs_term hs) (hs_commit hs + 1) ids) as (? & ? & ?); [lia..|].
      split_and!; [apply remove_others_changes|done|done].
    - subst ents. destruct (remove_others_indexed local (hs_term hs) (hs_commit hs + 1 + 1) ids) as (? & ? & ?); [lia..|].
      split_and!; [constructor; [apply unmarshal_marshal|apply remove_others_changes]|by apply indexed_cons|by constructor]. }
  rewrite He. split_and!; [done..|]. destruct (last ents) as [e|] eqn:El; [|apply last_None in El; subst ents; rewrite El; simpl; lia].
  rewrite (indexed_last _ _ _ _ Hix El). lia.
Qed.

(** ** The configuration afterwards *)

Lemma remove_all_conf l rn : raft_None ∉ members rn →
  let rn' := apply_changes (remove_change <$> l) rn in
  rn_voters rn' = rn_voters rn ∖ list_to_set l ∧ rn_learners rn' = rn_learners rn ∖ list_to_set l.
Proof using Type.
  revert rn. induction l as [|i l IH]; intros rn Hz; cbv zeta in *; [simpl; split; set_solver|]. cbn [fmap list_fmap apply_changes foldl list_to_set].
  fold (apply_changes (remove_change <$> l) (apply_change (remove_change i) rn)).
  assert (rn_voters (apply_change (remove_change i) rn) = rn_voters rn ∖ {[i]} ∧ rn_learners (apply_change (remove_change i) rn) = rn_learners rn ∖ {[i]}) as [Ev El].
  { unfold apply_change. destruct (decide (i = raft_None)) as [->|Hi]; [|by apply (conf_remove 0 (remove_change i))].
    destruct (conf_none 0 (remove_change raft_None) rn eq_refl) as [-> ->]. unfold members in Hz. split; set_solver. }
  destruct (IH (apply_change (remove_change i) rn)) as [-> ->]; [unfold members in *; rewrite Ev, El; set_solver|].
  rewrite Ev, El. simpl. split; set_solver.
Qed.

Lemma standalone_conf local addr ids rn : raft_None ∉ members rn → local ≠ raft_None →
  let rn' := apply_changes (standalone_changes local addr ids) rn in
  rn_voters rn' = (if decide (local ∈ ids) then rn_voters rn else {[local]} ∪ rn_voters rn) ∖ list_to_set (filter (.≠ local) ids) ∧
  rn_learners rn' = (if decide (local ∈ ids) then rn_learners rn else rn_learners rn ∖ {[local]}) ∖ list_to_set (filter (.≠ local) ids).
Proof using Type.
  intros Hz Hl. cbv zeta. unfold standalone_changes, apply_changes. rewrite foldl_app. destruct (decide (local ∈ ids)); [by apply remove_all_conf|].
  cbn [foldl]. destruct (conf_add 0 (add_change local addr) rn Hl eq_refl) as [Ev El]. fold (apply_change (add_change local addr) rn) in Ev, El.
  fold (apply_changes (remove_change <$> filter (.≠ local) ids) (apply_change (add_change local addr) rn)).
  destruct (remove_all_conf (filter (.≠ local) ids) (apply_change (add_change local addr) rn)) as [-> ->].
  { unfold members in *. rewrite Ev, El. simpl. set_solver. }
  by rewrite Ev, El.
Qed.

(** The configuration of the snapshot, if there is one. *)
Definition snap_conf (snap : option Snapshot) : ConfState :=
  match snap with Some s => sm_conf (snap_meta s) | None => {| cs_voters := []; cs_learners := [] |} end.

(** A recovery: the log's changes [ccs] since the snapshot took [rn0] to [rn1], and the
    entries made from them are [ents]. *)
Record recovery (snap : option Snapshot) (es : list Entry) ccs (local : Z) (addr : string) (hs : HardState) ids (ents : list Entry) (hs' : HardState) rn0 rn1 : Prop := {
  rv_voters : rn_voters rn0 = list_to_set (cs_voters (snap_conf snap));
  rv_learners : rn_learners rn0 = list_to_set (cs_learners (snap_conf snap));
  rv_none : raft_None ∉ members rn0; rv_apart : rn_voters rn0 ## rn_learners rn0;
  rv_changes : changes_of es ccs;
  rv_effect : took_effect ccs rn0 rn1;
  rv_ids : listRaftConfChangeAddNodeIds snap es = Ok ids;
  rv_entries : createRaftConfigChangeEntries local addr ids hs = Ok (ents, hs');
  rv_local : local ≠ raft_None;
  rv_commit : 0 <= hs_commit hs; rv_room : hs_commit hs + 2 + Z.of_nat (length ids) < 2 ^ 64
}.

Lemma recovery_ids snap es ccs local addr hs ids ents hs' rn0 rn1 :
  recovery snap es ccs local addr hs ids ents hs' rn0 rn1 →
  list_to_set ids = foldl list_change (list_to_set (cs_voters (snap_conf snap))) ccs ∧ Forall known_type ccs ∧
  covered (list_to_set ids) (rn_learners rn0) rn1.
Proof using Type.
  intros Hr. pose proof (rv_ids _ _ _ _ _ _ _ _ _ _ _ Hr) as E. unfold listRaftConfChangeAddNodeIds in E.
  assert ((if snap is Some s then list_to_set (cs_voters (sm_conf (snap_meta s))) else ∅) = list_to_set (C := gset Z) (cs_voters (snap_conf snap))) as Es by (by destruct snap).
  rewrite Es in E. destruct (list_nodes _ es) as [S|] eqn:El; [|done]. injection E as <-.
  apply (list_nodes_changes es ccs) in El as [-> Hk]; [|apply Hr].
  assert (∀ T : gset Z, list_to_set (merge_sort Z.le (elements T)) = T) as HT.
  { intros T. apply set_eq. intros x. by rewrite elem_of_list_to_set, merge_sort_Permutation, elem_of_elements. }
  rewrite HT. split_and!; [done|done|]. eapply took_effect_covers; [apply Hr|done|].
  constructor; [by rewrite (rv_voters _ _ _ _ _ _ _ _ _ _ _ Hr)|set_solver|apply Hr..].
Qed.
End Recovery.

(** C17: recovery leaves the node as the only voter.  Whatever changes the log since the
    snapshot holds, and whichever of them were refused: if the snapshot has no learners, and
    the node is a voter or was never added, then the entries written by a recovery as a
    standalone node follow the commit index without a gap, are committed by the new hard
    state, and applied to the configuration of the log they make this node its only voter
    and leave no learner. *)
Theorem standalone_sole_voter {RN} `{RaftConf RN, RaftLib, Message ConfChange, Message ConfChangeRequest}
    snap es ccs local addr hs ids ents hs' (rn0 rn1 : RN) :
  recovery snap es ccs local addr hs ids ents hs' rn0 rn1 →
  cs_learners (snap_conf snap) = [] → (local ∈ rn_voters rn1 ∨ local ∉ ids) →
  indexed e_index (hs_commit hs + 1) ents ∧ hs_commit hs' = hs_commit hs + Z.of_nat (length ents) ∧
  ∃ ccs', changes_of ents ccs' ∧ rn_voters (apply_changes ccs' rn1) = {[local]} ∧ rn_learners (apply_changes ccs' rn1) = ∅.
Proof.
  intros Hr Hl0 Hloc. destruct (recovery_ids _ _ _ _ _ _ _ _ _ _ _ Hr) as (_ & _ & [Hvo Hle Hz Hap]).
  destruct (create_entries_spec _ _ _ _ _ _ (rv_entries _ _ _ _ _ _ _ _ _ _ _ Hr)) as (Hch & Hix & _ & Hcm); [apply Hr..|].
  split_and!; [done..|]. exists (standalone_changes local addr ids). split; [done|].
  destruct (standalone_conf local addr ids rn1 Hz (rv_local _ _ _ _ _ _ _ _ _ _ _ Hr)) as [-> ->].
  rewrite (rv_learners _ _ _ _ _ _ _ _ _ _ _ Hr), Hl0 in Hle.
  assert (∀ x, x ∈ (list_to_set (filter (.≠ local) ids) : gset Z) ↔ x ≠ local ∧ x ∈ ids) as Hf by (intros x; by rewrite elem_of_list_to_set, list_elem_of_filter).
  assert (∀ x, x ∈ rn_voters rn1 ∨ x ∈ rn_learners rn1 → x ∈ ids) as Hin by (intros x Hx; apply (elem_of_list_to_set (C := gset Z)); set_solver).
  split; apply set_eq; intros x; rewrite elem_of_difference, Hf, ?elem_of_singleton, ?elem_of_empty; destruct (decide (x = local)) as [->|Hne].
  - split; [done|intros _]. split; [|by intros []]. case_decide; [tauto|]. by apply elem_of_union_l, elem_of_singleton.
  - split; [|done]. intros [Hx Hno]. destruct Hno. split; [done|]. case_decide; [auto|]. apply elem_of_union in Hx as [?%elem_of_singleton|?]; [done|auto].
  - split; [|done]. intros [Hx Hno]. case_decide; [|by apply elem_of_difference in Hx as [_ []%not_elem_of_singleton]].
    destruct Hloc as [Hv|]; [by destruct (Hap local)|done].
  - split; [|done]. intros [Hx Hno]. destruct Hno. split; [done|]. apply Hin. case_decide; [by right|right]. by apply elem_of_difference in Hx as [? _].
Qed.

(** Recovery as a standalone node does not always leave the node alone.  A learner of the
    snapshot that no later change is about stays a learner, since only the voters of the
    snapshot are removed; and a node that is a learner itself is not made a voter: the
    configuration is left without any. *)
Theorem standalone_incomplete {RN} `{RaftConf RN, RaftLib, Message ConfChange, Message ConfChangeRequest}
    snap es ccs local addr hs ids ents hs' (rn0 rn1 : RN) :
  recovery snap es ccs local addr hs ids ents hs' rn0 rn1 →
  ∃ ccs', changes_of ents ccs' ∧
    (∀ i, i ∈ cs_learners (snap_conf snap) → i ≠ local → Forall (λ cc, cc_NodeID cc ≠ i) ccs → i ∈ rn_learners (apply_changes ccs' rn1)) ∧
    (local ∈ rn_learners rn1 → local ∈ ids → rn_voters (apply_changes ccs' rn1) = ∅).
Proof.
  intros Hr. destruct (recovery_ids _ _ _ _ _ _ _ _ _ _ _ Hr) as (Hids & Hk & [Hvo Hle Hz Hap]).
  destruct (create_entries_spec _ _ _ _ _ _ (rv_entries _ _ _ _ _ _ _ _ _ _ _ Hr)) as (Hch & _); [apply Hr..|].
  exists (standalone_changes local addr ids). split; [done|].
  destruct (standalone_conf local addr ids rn1 Hz (rv_local _ _ _ _ _ _ _ _ _ _ _ Hr)) as [-> ->].
  assert (∀ x, x ∈ (list_to_set (filter (.≠ local) ids) : gset Z) ↔ x ≠ local ∧ x ∈ ids) as Hf by (intros x; by rewrite elem_of_list_to_set, list_elem_of_filter).
  split.
  - intros i Hi Hne Hcc. assert (i ∈ rn_learners rn0) as Hi0 by (by rewrite (rv_learners _ _ _ _ _ _ _ _ _ _ _ Hr), elem_of_list_to_set).
    assert (i ∈ rn_learners rn1) as Hi1 by (eapply took_effect_keeps; [apply Hr|by apply Forall_and|done]).
    assert (i ∉ ids) as Hno.
    { rewrite <- (elem_of_list_to_set (C := gset Z)), Hids, list_changes_other, <- (rv_voters _ _ _ _ _ _ _ _ _ _ _ Hr) by done.
      intros Hv. by apply (rv_apart _ _ _ _ _ _ _ _ _ _ _ Hr i). }
    rewrite elem_of_difference, Hf. split; [|tauto]. case_decide; [done|]. by rewrite elem_of_difference, elem_of_singleton.
  - intros Hl Hin. rewrite decide_True by done. apply set_eq. intros x. rewrite elem_of_difference, Hf. split; [|set_solver].
    intros [Hx Hno]. destruct (decide (x = local)) as [->|Hne]; [by destruct (Hap local)|]. destruct Hno. split; [done|].
    by apply Hvo, elem_of_list_to_set in Hx.
Qed.
