(* ===== verification/Restart.v ===== *)
(** * A restarted node

    The interfaces of [Bootstrap.v] with what they promise, and the theorem that a node that
    was restarted from a snapshot behaves as the node the snapshot was taken from. *)

From S2P Require Import Prelude Streams Session Cluster Apply Exactly Replicas PeersConfig Raftpb Bootstrap.

Section Restart.
Context {A WM RR ES WL SN RD SM M TR RN : Type}.
Context `{RaftLib, Message NormalRequest, Message ConfChange, Message ConfChangeRequest, MapRange}.
Context `{TimelessManager (response A) M, StateMachine A SM, RaftNode RN}.
Context `{WalManager WM RR ES WL, SnapshotManager SN RD, MachineBoot SM RD, SessionsBoot M, ClusterBoot, TransportBoot TR, NodeStarter RN ES}.
Implicit Types (b : Boot WM SN SM M TR) (n : Node A M SM RN) (rd : RD).

(** A reader gives back the node it was taken from: what the writer of a snapshot, the
    sessions, the cluster and the state machine promise together. *)
Record snapshot_of rd n : Prop := {
  so_cluster : ∃ bytes, rd_Cluster rd = Ok bytes ∧ ∀ c, localPeerID c = localPeerID (cluster n) → cl_Restore bytes c = Ret (cluster n, Ok tt);
  so_sessions : ∃ bytes, rd_Session rd = Ok bytes ∧ ∀ m, ∃ m', ss_Restore bytes m = Ret (m', Ok tt) ∧ sm_same m' (sessions n);
  so_machine : ∀ s, sm_RestoreFromSnapshot rd s = Ret (machine n, Ok tt)
}.

(** The log and the snapshots of a node that was stopped: the newest valid snapshot was taken
    from the node [n], and the log can be replayed from there. *)
Record stopped (cfg : BabuzaConfig) b n (snap : Snapshot) (rd : RD) (es : ES) (hs : HardState) : Prop := {
  sp_memory : diskType (bt_bsm b) = false;
  sp_snapshot : ∃ ws wm sn, wm_FindSnapshot (bt_wals b) = Ret (wm, Ok ws) ∧ sn_LoadLastValidSnapshot ws (bt_snaps b) = Ret (sn, Ok (Some snap)) ∧
    (∃ wm' rr wl, wm_ReplayWal (Some snap) false wm = Ret (wm', Ok (rr, es, wl))) ∧
    sn_CreateInstalledSnapshotReader (snap_index snap) false sn = Ret (sn, Ok rd);
  sp_reader : snapshot_of rd n;
  sp_state : ∃ cs, es_InitialState es = Ok (hs, cs);
  sp_ids : clusterID (cluster n) = ClusterID cfg ∧ localPeerID (cluster n) = LocalPeerID cfg;
  sp_status : status n = {| appliedIndex := snap_index snap; appliedTerm := sm_term (snap_meta snap); st_confState := sm_conf (snap_meta snap) |};
  sp_open : openAppliedIndex (bt_bsm b) <= snap_index snap;
  sp_raft : rn_Restart (convertToRaftConfig cfg es) = Ok (raft n)
}.

(** The node the loops of [Apply.v] run on. *)
Definition node_of b (rn : RN) : Node A M SM RN :=
  {| sessions := bt_sessions b; cluster := bt_cluster b; machine := bt_machine b; raft := rn;
     status := {| appliedIndex := bs_appliedIndex (bt_status b); appliedTerm := bs_appliedTerm (bt_status b); st_confState := bs_confState (bt_status b) |};
     ticks := 0; commands := []; replies := []; trans := []; events := []; resets := 0; completed := [] |}.

Definition past_of n : past A :=
  {| past_commands := commands n; past_replies := replies n; past_trans := trans n; past_events := events n |}.

Lemma restartNode_ok cfg b n snap rd es hs : stopped cfg b n snap rd es hs →
  ∃ b' wl, restartNode cfg b = Ret (b', Ok (raft n, {| rs_wal := wl; rs_entryStorage := es |})) ∧
    node_same (past_of n) (node_of b' (raft n)) n ∧
    bt_bsm b' = {| openAppliedIndex := snap_index snap; diskType := false |} ∧
    bs_hardStateTerm (bt_status b') = hs_term hs ∧ bs_committedIndex (bt_status b') = hs_commit hs ∧
    bt_trans b' = foldl (fun t p => tr_AddPeer (PeerID (RaftPeerAttr p)) (RaftListenAddr (RaftPeerAttr p)) t) (bt_trans b) (Peers_ (cluster n)).
Proof.
  intros [Hmem (ws & wm & sn & Hfind & Hload & (wm' & rr & wl & Hrep) & Hrd) [(bc & Hbc & Hcl) (bs & Hbs & Hss) Hsm] [cs Hst] [Hcid Hlid] Hstat Hopen Hraft].
  destruct (Hss (bt_sessions b)) as (m' & Hm' & Hsame).
  unfold restartNode, loadWALSnapshot, replayWALAndSetup, handleMemoryStateMachine, RestoreFromSnapshot, boot_parts, on_sn, on_sm, on_cl, on_ss, restoreStateMachineFromSnapshot,
    initializeStatusFromSnapshot, restartRaftNode, SetOpenAppliedIndex, wrap, update, on, answer, Meth.bind, Meth.modify, Meth.get, Meth.ret.
  rewrite Hfind. cbn. rewrite Hload. cbn. rewrite Hrep. cbn. rewrite Hst. cbn. rewrite Hmem. cbn. rewrite Hrd. cbn. rewrite Hsm. cbn.
  rewrite Hrd. cbn. rewrite Hbc. cbn. rewrite Hcl by done. cbn. rewrite Hbs. cbn. rewrite Hm'. cbn.
  rewrite decide_False by (intros [?|?]; congruence). cbn. rewrite Hraft. cbn. eexists _, _. split; [done|]. cbn.
  split_and!; [|by rewrite Hmem|done..]. constructor; cbn; try done; [|by rewrite app_nil_r..].
  rewrite Hstat. by rewrite decide_False by lia.
Qed.

(** Entries beyond the index a state machine was opened with are applied. *)
Definition beyond (i : Z) (st : step) : Prop := match st with Norm e => i < e_index e | Conf _ => True end.

Lemma run_opened clock bsm1 bsm2 sts n :
  Forall (beyond (openAppliedIndex bsm1)) sts → Forall (beyond (openAppliedIndex bsm2)) sts → run clock bsm1 sts n = run clock bsm2 sts n.
Proof using Type.
  intros Hb1. revert n. induction Hb1 as [|st sts Hst Hb1 IH]; intros n Hb2; [done|]. apply Forall_cons in Hb2 as [Hst2 Hb2]. simpl.
  assert (run_step clock bsm1 st n = run_step clock bsm2 st n) as ->.
  { destruct st as [e|e]; [|done]. simpl in *. unfold applyEntry. by rewrite !(decide_False (P := e_index e <= _)) by lia. }
  destruct (run_step clock bsm2 st n); [|done]. by apply IH.
Qed.
End Restart.

(** A restarted node goes on as if it had never stopped.  When the newest valid snapshot
    was taken from a node, and the log can be replayed from it, the restart succeeds, with
    every member known to the transport, and from there on the restarted node and the node
    that went on from the snapshot agree: whatever entries follow, in whatever interleaving
    of the loops and at whatever times, both have the same sessions, members, state machine
    and raft configuration and give the same answers, or both panic alike. *)
Theorem restart_resumes {A WM RR ES WL SN RD SM M TR RN : Type}
    `{RaftLib, Message NormalRequest, Message ConfChange, Message ConfChangeRequest, MapRange}
    `{TimelessManager (response A) M, StateMachine A SM, RaftNode RN}
    `{WalManager WM RR ES WL, SnapshotManager SN RD, MachineBoot SM RD, SessionsBoot M, ClusterBoot, TransportBoot TR, NodeStarter RN ES}
    cfg (b : Boot WM SN SM M TR) (n : Node A M SM RN) snap rd es hs :
  stopped cfg b n snap rd es hs →
  ∃ b' storage, restartNode cfg b = Ret (b', Ok (raft n, storage)) ∧ rs_entryStorage storage = es ∧
    bs_committedIndex (bt_status b') = hs_commit hs ∧
    bt_trans b' = foldl (fun t p => tr_AddPeer (PeerID (RaftPeerAttr p)) (RaftListenAddr (RaftPeerAttr p)) t) (bt_trans b) (Peers_ (cluster n)) ∧
    ∀ clock1 clock2 sts, Forall (beyond (snap_index snap)) sts →
      go_rel (node_same (past_of n)) (run clock1 (bt_bsm b') sts (node_of b' (raft n))) (run clock2 (bt_bsm b) sts n).
Proof.
  intros Hs. destruct (restartNode_ok cfg b n snap rd es hs Hs) as (b' & wl & E & Hsame & Hbsm & _ & Hc & Ht).
  exists b', {| rs_wal := wl; rs_entryStorage := es |}. split_and!; [done..|]. intros clock1 clock2 sts Hb.
  rewrite (run_opened clock2 (bt_bsm b) (bt_bsm b') sts n); [by apply run_same|..|by rewrite Hbsm].
  eapply Forall_impl; [exact Hb|]. intros [e|e]; simpl; [|done]. pose proof (sp_open _ _ _ _ _ _ _ Hs). lia.
Qed.
