(* ===== verification/RaftStorage.v ===== *)
(** * The storage of a node: [raft/raft_storage.go]

    The log, the entries raft reads and the snapshots of a node, as the loops of the node see
    them, and the making of a snapshot.  All of them are interfaces.  A snapshot is begun on
    the loop that applies entries, where the members and the sessions are written, and
    finished there or by a goroutine of its own. *)

From S2P Require Import Prelude Streams Session Cluster Apply Ready Bootstrap Raftpb.

(** ** Interfaces *)

(** [ibabuza.Wal] *)
Class RaftWal (WL : Type) := {
  wal_Save : HardState → list Entry → meth WL unit;
  wal_SaveSnapshot : Snapshot → meth WL unit;
  wal_Sync : meth WL unit;
  wal_Purge : Snapshot → meth WL unit
}.

(** [ibabuza.EntryStorage] *)
Class RaftEntries (ES : Type) := {
  ent_CreateSnapshot : Z → ConfState → meth ES Snapshot;
  ent_Compact : Z → meth ES unit;
  ent_ApplySnapshot : Snapshot → meth ES unit;
  ent_Append : list Entry → meth ES unit
}.

(** The part of [ibabuza.SnapshotManager] that makes snapshots, with its writers [SW] and the
    metadata [MD] a commit gives.  The streams of a writer are known by their files. *)
Inductive snapshot_file := ClusterFile | SessionFile.
Class SnapshotWriting (SN SW MD : Type) := {
  sn_CreateAtomicSnapshotWriter : Z → Z → meth SN SW;
  sw_Create : snapshot_file → meth (SN * SW) unit;
  sw_Write : snapshot_file → list byte → meth (SN * SW) unit;
  sw_Close : snapshot_file → meth (SN * SW) unit;
  sw_Commit : Snapshot → meth (SN * SW) MD;
  md_snapshot : MD → Snapshot;
  sn_Purge : Snapshot → meth SN unit
}.
#[global] Instance file_stream {SN SW MD} `{SnapshotWriting SN SW MD} (f : snapshot_file) : Writer (SN * SW) | 100 := fun w data =>
  '(w, r) ← sw_Write f data w; Ret (w, match r with Ok _ => None | Err e => Some e end).

(** A state machine with snapshots.  [SC] is what [PrepareSnapshotContext] gives; one that
    cannot take snapshots while entries are applied has no contexts. *)
Class MachineSnapshots (SM SN SW SC : Type) := {
  sm_concurrent : bool;
  sm_PrepareSnapshotContext : meth SM SC;
  sm_ReleaseSnapshotContext : SC → meth SM unit;
  sm_SaveSnapshot : option SC → meth (SM * (SN * SW)) unit
}.
Class SessionsSnapshot (M : Type) := ss_Snapshot : ∀ {W} `{Writer W}, meth (M * W) unit.

(** ** The storage *)

Record Store {SN WL ES : Type} := { st_snaps : SN; st_wal : WL; st_entries : ES }.
Arguments Store : clear implicits.

Section Storage.
Context {SN WL ES SW MD : Type}.
Context `{RaftLib, RaftWal WL, RaftEntries ES, SnapshotWriting SN SW MD}.
Abbreviation store := (Store SN WL ES).
Implicit Types s : store.
Open Scope go_scope.

Definition on_snaps {B} (m : meth SN B) : meth store B := fun s =>
  '(x, r) ← m (st_snaps s); Ret ({| st_snaps := x; st_wal := st_wal s; st_entries := st_entries s |}, r).
Definition on_wal {B} (m : meth WL B) : meth store B := fun s =>
  '(x, r) ← m (st_wal s); Ret ({| st_snaps := st_snaps s; st_wal := x; st_entries := st_entries s |}, r).
Definition on_entries {B} (m : meth ES B) : meth store B := fun s =>
  '(x, r) ← m (st_entries s); Ret ({| st_snaps := st_snaps s; st_wal := st_wal s; st_entries := x |}, r).

Definition storage_Save (hs : HardState) (entries : list Entry) (snapshot : Snapshot) : meth store unit :=
  on_wal (wal_Save hs entries) ;;
  if IsEmptySnap snapshot then Meth.ret tt else on_wal (wal_SaveSnapshot snapshot) ;; on_wal wal_Sync.

Definition purgeWalAndSnapshot (snapshot : Snapshot) : meth store unit :=
  on_wal (wal_Purge snapshot) ;; on_snaps (sn_Purge snapshot).
Definition CompactAndReleaseSnapshot (index : Z) (snapshot : Snapshot) : meth store unit :=
  on_entries (ent_Compact index) ;; purgeWalAndSnapshot snapshot.
Definition ApplyAndReleaseSnapshot (snapshot : Snapshot) : meth store unit :=
  on_entries (ent_ApplySnapshot snapshot) ;; purgeWalAndSnapshot snapshot.
Definition EntryStorageAppend (entries : list Entry) : meth store unit := on_entries (ent_Append entries).
End Storage.

(** The storage the ready loop of [Ready.v] works on. *)
#[export] Instance ready_storage {SN WL ES SW MD} `{RaftLib, RaftWal WL, RaftEntries ES, SnapshotWriting SN SW MD} : RaftStorage (Store SN WL ES) := {|
  st_Save := storage_Save;
  st_ApplyAndReleaseSnapshot := ApplyAndReleaseSnapshot;
  st_EntryStorageAppend := EntryStorageAppend
|}.
