(* ===== verification/StateMachineLoop.v ===== *)
(** * The state machine loop: [raft/raft_apply.go], [raft/raft_storage.go]

    The goroutine that applies committed entries also installs the snapshots of the leader
    and takes those of the node: after enough entries, or when it is asked to.  The ready
    loop applies configuration changes at the same time, so one event here is one entry, one
    configuration change, or one of the steps in which a snapshot is begun: reading the
    status, writing the members, writing the sessions.  A state machine that supports it
    lets the rest of a snapshot run in a goroutine of its own. *)

From S2P Require Import Prelude Streams Session Cluster Apply Exactly Bootstrap RaftStorage Raftpb.

(** [snapshotContext] *)
Record SnapshotContext {SW SC : Type} := {
  cx_term : Z; cx_index : Z; cx_writer : SW; cx_confState : ConfState; cx_machine : option SC
}.
Arguments SnapshotContext : clear implicits.

(** Where the loop is.  A snapshot that was asked for has the number of the request. *)
Inductive phase {SW SC : Type} :=
| Idle
| Applying (batch rest : list Entry)
| Due (manual : option nat)
| Chosen (manual : option nat) (term index : Z) (cs : ConfState)
| Writing (manual : option nat) (ctx : SnapshotContext SW SC).
Arguments phase : clear implicits.

Class TransportReset (TR : Type) := tr_RemovePeers : TR → TR.

Record Loop {A M SM RN SN WL ES SW SC MD TR : Type} := {
  lp_node : Node A M SM RN;
  lp_store : Store SN WL ES;
  lp_trans : TR;
  lp_phase : phase SW SC;
  lp_bsm : BasedStateMachineInfo;
  lp_snapIndex : Z;                                        (* [GetSnapshotIndex] *)
  lp_inflight : Z;                                         (* [GetInflightSnapshots] *)
  lp_running : list (SnapshotContext SW SC * option nat);  (* snapshots in goroutines *)
  lp_results : list (nat * MD)                             (* sent to those who asked *)
}.
Arguments Loop : clear implicits.

Section Loop.
Context {A M SM RN SN RD WL ES SW SC MD TR : Type}.
Context `{RaftLib, Message NormalRequest, Message ConfChange, Message ConfChangeRequest, StoreCodec}.
Context `{SessionManager (response A) M, StateMachine A SM, RaftNode RN}.
Context `{RaftWal WL, RaftEntries ES, SnapshotWriting SN SW MD, MachineSnapshots SM SN SW SC, SessionsSnapshot M}.
Context `{SnapshotManager SN RD, MachineBoot SM RD, SessionsBoot M, ClusterBoot, TransportBoot TR, TransportReset TR}.
Context (clock : nat → Z) (SnapshotCount : Z).
Abbreviation loop := (Loop A M SM RN SN WL ES SW SC MD TR).
Implicit Types l : loop.
Open Scope go_scope.

Definition put_node (n : Node A M SM RN) l : loop :=
  {| lp_node := n; lp_store := lp_store l; lp_trans := lp_trans l; lp_phase := lp_phase l; lp_bsm := lp_bsm l;
     lp_snapIndex := lp_snapIndex l; lp_inflight := lp_inflight l; lp_running := lp_running l; lp_results := lp_results l |}.
Definition put_store (s : Store SN WL ES) l : loop :=
  {| lp_node := lp_node l; lp_store := s; lp_trans := lp_trans l; lp_phase := lp_phase l; lp_bsm := lp_bsm l;
     lp_snapIndex := lp_snapIndex l; lp_inflight := lp_inflight l; lp_running := lp_running l; lp_results := lp_results l |}.
Definition put_phase (p : phase SW SC) l : loop :=
  {| lp_node := lp_node l; lp_store := lp_store l; lp_trans := lp_trans l; lp_phase := p; lp_bsm := lp_bsm l;
     lp_snapIndex := lp_snapIndex l; lp_inflight := lp_inflight l; lp_running := lp_running l; lp_results := lp_results l |}.
Definition put_peers (t : TR) l : loop :=
  {| lp_node := lp_node l; lp_store := lp_store l; lp_trans := t; lp_phase := lp_phase l; lp_bsm := lp_bsm l;
     lp_snapIndex := lp_snapIndex l; lp_inflight := lp_inflight l; lp_running := lp_running l; lp_results := lp_results l |}.
Definition SetSnapshotIndex (i : Z) l : loop :=
  {| lp_node := lp_node l; lp_store := lp_store l; lp_trans := lp_trans l; lp_phase := lp_phase l; lp_bsm := lp_bsm l;
     lp_snapIndex := i; lp_inflight := lp_inflight l; lp_running := lp_running l; lp_results := lp_results l |}.
Definition put_running (r : list (SnapshotContext SW SC * option nat)) l : loop :=
  {| lp_node := lp_node l; lp_store := lp_store l; lp_trans := lp_trans l; lp_phase := lp_phase l; lp_bsm := lp_bsm l;
     lp_snapIndex := lp_snapIndex l; lp_inflight := lp_inflight l; lp_running := r; lp_results := lp_results l |}.
Definition send_result (k : nat) (md : MD) l : loop :=
  {| lp_node := lp_node l; lp_store := lp_store l; lp_trans := lp_trans l; lp_phase := lp_phase l; lp_bsm := lp_bsm l;
     lp_snapIndex := lp_snapIndex l; lp_inflight := lp_inflight l; lp_running := lp_running l; lp_results := lp_results l ++ [(k, md)] |}.

(** ** Parts of the state *)

Definition at_store {B} (m : meth (Store SN WL ES) B) : meth loop B := fun l => '(s, r) ← m (lp_store l); Ret (put_store s l, r).
Definition at_machine {B} (m : meth SM B) : meth loop B := fun l =>
  let n := lp_node l in
  '(s, r) ← m (machine n);
  Ret (put_node {| sessions := sessions n; cluster := cluster n; machine := s; raft := raft n; status := status n; ticks := ticks n;
                   commands := commands n; replies := replies n; trans := trans n; events := events n; resets := resets n;
                   completed := completed n |} l, r).
Definition at_cluster {B} (m : meth Cluster B) : meth loop B := fun l =>
  '(c, r) ← m (cluster (lp_node l)); Ret (put_node (set_cluster c (lp_node l)) l, r).
Definition at_sessions {B} (m : meth M B) : meth loop B := fun l =>
  '(s, r) ← m (sessions (lp_node l)); Ret (put_node (put_sessions s (lp_node l)) l, r).
(** A method of a writer, which comes back changed. *)
Definition at_writer (sw : SW) (m : meth (SN * SW) unit) : meth loop SW := at_store (on_snaps (fun sn =>
  '((sn, sw), r) ← m (sn, sw); Ret (sn, match r with Ok _ => Ok sw | Err e => Err e end))).

(** ** Making a snapshot *)

Definition prepareSnapshotContext : meth loop (option SC) :=
  if sm_concurrent then sc <- at_machine sm_PrepareSnapshotContext ;; Meth.ret (Some sc) else Meth.ret None.
Definition releaseSnapshotContext (sc : option SC) : meth loop unit :=
  match sc with Some sc => if sm_concurrent then at_machine (sm_ReleaseSnapshotContext sc) else Meth.ret tt | None => Meth.ret tt end.

(** [CreateSnapshotContext], up to the members and from the sessions on. *)
Definition context_cluster (term index : Z) (cs : ConfState) : meth loop (SnapshotContext SW SC) :=
  smSnapCtx <- prepareSnapshotContext ;;
  sw <- at_store (on_snaps (sn_CreateAtomicSnapshotWriter term index)) ;;
  sw <- at_writer sw (sw_Create ClusterFile) ;;
  l <- Meth.get ;;
  sw <- at_writer sw (@Cluster.Snapshot _ (SN * SW) (file_stream ClusterFile) (cluster (lp_node l))) ;;
  sw <- at_writer sw (sw_Close ClusterFile) ;;
  Meth.ret {| cx_term := term; cx_index := index; cx_writer := sw; cx_confState := cs; cx_machine := smSnapCtx |}.
Definition session_stream (sw : SW) : meth loop SW := fun l =>
  '((m, (sn, sw)), r) ← @ss_Snapshot M _ (SN * SW) (file_stream SessionFile) (sessions (lp_node l), (st_snaps (lp_store l), sw));
  let st := {| st_snaps := sn; st_wal := st_wal (lp_store l); st_entries := st_entries (lp_store l) |} in
  Ret (put_store st (put_node (put_sessions m (lp_node l)) l), match r with Ok _ => Ok sw | Err e => Err e end).
Definition context_session (ctx : SnapshotContext SW SC) : meth loop (SnapshotContext SW SC) :=
  sw <- at_writer (cx_writer ctx) (sw_Create SessionFile) ;;
  sw <- session_stream sw ;;
  sw <- at_writer sw (sw_Close SessionFile) ;;
  Meth.ret {| cx_term := cx_term ctx; cx_index := cx_index ctx; cx_writer := sw; cx_confState := cx_confState ctx; cx_machine := cx_machine ctx |}.
Definition CreateSnapshotContext (term index : Z) (cs : ConfState) : meth loop (SnapshotContext SW SC) :=
  ctx <- context_cluster term index cs ;; context_session ctx.

(** [SaveStateMachineSnapshot]: the context is released in any case, and the error of the
    release is lost. *)
Definition save_machine (ctx : SnapshotContext SW SC) : meth loop SW := fun l =>
  '((s, (sn, sw)), r) ← sm_SaveSnapshot (cx_machine ctx) (machine (lp_node l), (st_snaps (lp_store l), cx_writer ctx));
  '(l, _) ← at_machine (fun _ => Ret (s, Ok tt)) l;
  let st := {| st_snaps := sn; st_wal := st_wal (lp_store l); st_entries := st_entries (lp_store l) |} in
  Ret (put_store st l, match r with Ok _ => Ok sw | Err e => Err e end).
Definition commit_writer (snap : Snapshot) (sw : SW) : meth loop MD := at_store (on_snaps (fun sn =>
  '((sn, _), r) ← sw_Commit snap (sn, sw); Ret (sn, r))).
Definition SaveStateMachineSnapshot (ctx : SnapshotContext SW SC) : meth loop MD := fun l =>
  '(l, r) ← (sw <- save_machine ctx ;;
             snap <- at_store (on_entries (ent_CreateSnapshot (cx_index ctx) (cx_confState ctx))) ;;
             commit_writer snap sw) l;
  '(l, _) ← releaseSnapshotContext (cx_machine ctx) l;
  Ret (l, r).

Definition doSnapshot (ctx : SnapshotContext SW SC) : meth loop MD :=
  metadata <- SaveStateMachineSnapshot ctx ;;
  at_store (storage_Save emptyHardState [] (md_snapshot metadata)) ;;
  l <- Meth.get ;;
  if decide (0 < lp_inflight l) then Meth.ret metadata
  else if decide (lp_inflight l < 0) then Meth.panic "inflight snapshot counts is less than zero"
  else
    at_store (CompactAndReleaseSnapshot (cx_index ctx) (md_snapshot metadata)) ;;
    Meth.ret metadata.

(** The closure of [triggerSnapshot]. *)
Definition run_snapshot (ctx : SnapshotContext SW SC) (manual : option nat) l : go loop :=
  '(l, r) ← doSnapshot ctx l;
  match r with
  | Err _ => Panic "do snapshot failed"
  | Ok metadata => Ret (match manual with Some k => send_result k metadata l | None => l end)
  end.
Definition triggerSnapshot (ctx : SnapshotContext SW SC) (manual : option nat) l : go loop :=
  let l := SetSnapshotIndex (cx_index ctx) l in
  if sm_concurrent then Ret (put_running (lp_running l ++ [(ctx, manual)]) l) else run_snapshot ctx manual l.

(** ** A snapshot of the leader *)

Definition loop_parts : Restorer SN SM M loop := {|
  on_sn B m := at_store (on_snaps m); on_sm B := at_machine; on_cl B := at_cluster; on_ss B := at_sessions
|}.

Definition applySnapshot (snap : Snapshot) l : go loop :=
  if IsEmptySnap snap then Ret l
  else if decide (snap_index snap <= appliedIndex (status (lp_node l))) then Panic "apply snapshot index <= applied index"
  else
    '(l, r) ← RestoreFromSnapshot loop_parts (snap_index snap) true l;
    match r with
    | Err _ => Panic "apply snapshot failed"
    | Ok _ =>
        let c := cluster (lp_node l) in
        let others := filter (λ p, PeerID (RaftPeerAttr p) ≠ localPeerID c) (Peers_ c) in
        let t := foldl (fun t p => tr_AddPeer (PeerID (RaftPeerAttr p)) (RaftListenAddr (RaftPeerAttr p)) t) (tr_RemovePeers (lp_trans l)) others in
        let st := {| appliedIndex := snap_index snap; appliedTerm := sm_term (snap_meta snap); st_confState := sm_conf (snap_meta snap) |} in
        Ret (SetSnapshotIndex (snap_index snap) (put_node (set_status st (lp_node l)) (put_peers t l)))
    end.

(** ** The loop *)

(** Events of the ready loop, of the loop itself and of the goroutines it started. *)
Inductive event :=
| EvConf (e : Entry)
| EvBatch (snap : Snapshot) (entries : list Entry) | EvEntry | EvApplied
| EvManual (k : nat) | EvBegin | EvCluster | EvSession
| EvFinish (i : nat).

(** The end of [applyEntries]. *)
Definition applied_batch (batch : list Entry) (n : Node A M SM RN) : Node A M SM RN :=
  let n := match last batch with
           | Some e => set_status {| appliedIndex := e_index e; appliedTerm := e_term e; st_confState := st_confState (status n) |} n
           | None => n
           end in
  MarkCompleted (appliedIndex (status n)) n.

(** [processStateMachine]; [None] when the event is not possible. *)
Definition exec (ev : event) l : option (go loop) :=
  match ev, lp_phase l with
  | EvConf e, _ => Some (n ← run_step clock (lp_bsm l) (Conf e) (lp_node l); Ret (put_node n l))
  | EvBatch snap es, Idle => Some (l ← applySnapshot snap l; Ret (put_phase (Applying es es) l))
  | EvEntry, Applying batch (e :: rest) =>
      Some (n ← applyEntry clock (lp_bsm l) e (lp_node l); Ret (put_phase (Applying batch rest) (put_node n l)))
  | EvApplied, Applying batch [] =>
      let n := applied_batch batch (lp_node l) in
      let due := bool_decide (SnapshotCount <= u64 (appliedIndex (status n) - lp_snapIndex l)) in
      Some (Ret (put_phase (if due then Due None else Idle) (put_node n l)))
  | EvManual k, Idle => Some (Ret (put_phase (Due (Some k)) l))
  | EvBegin, Due manual =>
      let st := status (lp_node l) in Some (Ret (put_phase (Chosen manual (appliedTerm st) (appliedIndex st) (st_confState st)) l))
  | EvCluster, Chosen manual term index cs =>
      Some ('(l, r) ← context_cluster term index cs l;
            match r with Err _ => Panic "create snapshot context failed" | Ok ctx => Ret (put_phase (Writing manual ctx) l) end)
  | EvSession, Writing manual ctx =>
      Some ('(l, r) ← context_session ctx l;
            match r with Err _ => Panic "create snapshot context failed" | Ok ctx => triggerSnapshot ctx manual (put_phase Idle l) end)
  | EvFinish i, _ =>
      match lp_running l !! i with
      | None => None
      | Some (ctx, manual) => Some (run_snapshot ctx manual (put_running (delete i (lp_running l)) l))
      end
  | _, _ => None
  end.

Fixpoint execs (evs : list event) l : option (go loop) :=
  match evs with
  | [] => Some (Ret l)
  | ev :: evs => match exec ev l with None => None | Some (Panic p) => Some (Panic p) | Some (Ret l) => execs evs l end
  end.
End Loop.
