(* ===== verification/SnapshotPoint.v ===== *)
(** * The snapshots a node takes

    What a snapshot that was begun by the loop of [StateMachineLoop.v] brings back after a
    restart: the node it was taken from, when no configuration change came in between; and a
    membership that is not the one raft counts, when one did. *)

From S2P Require Import Prelude Streams Session Cluster Apply Exactly Replicas Membership Bootstrap Restart RaftStorage StateMachineLoop Raftpb.

(** ** What the interfaces promise *)

(** The installed snapshot [snap], with the files of the members and of the sessions and the
    state of the machine. *)
Definition holds {SN RD SM : Type} `{SnapshotManager SN RD, MachineBoot SM RD} (sn : SN) (snap : Snapshot) (c d : list byte) (m : SM) : Prop :=
  ∃ rd, sn_CreateInstalledSnapshotReader (snap_index snap) false sn = Ret (sn, Ok rd) ∧ rd_Cluster rd = Ok c ∧ rd_Session rd = Ok d ∧
    ∀ s, sm_RestoreFromSnapshot rd s = Ret (m, Ok tt).

(** A writer keeps what its streams were given, a commit installs it, and a purge of older
    snapshots leaves it. *)
Class WritingLaws (SN SW MD SM SC RD : Type)
    `{SnapshotWriting SN SW MD, MachineSnapshots SM SN SW SC, SnapshotManager SN RD, MachineBoot SM RD} := {
  sw_content : SN → SW → snapshot_file → option (list byte);
  sw_image : SN → SW → option SM;
  law_new t i sn sn' sw : sn_CreateAtomicSnapshotWriter t i sn = Ret (sn', Ok sw) → ∀ f, sw_content sn' sw f = None;
  law_create f sn sw sn' sw' : sw_Create f (sn, sw) = Ret ((sn', sw'), Ok tt) →
    sw_content sn' sw' f = Some [] ∧ ∀ g, g ≠ f → sw_content sn' sw' g = sw_content sn sw g;
  law_write f data sn sw sn' sw' : sw_Write f data (sn, sw) = Ret ((sn', sw'), Ok tt) →
    sw_content sn' sw' f = (.++ data) <$> sw_content sn sw f ∧ ∀ g, g ≠ f → sw_content sn' sw' g = sw_content sn sw g;
  law_close f sn sw sn' sw' : sw_Close f (sn, sw) = Ret ((sn', sw'), Ok tt) → ∀ g, sw_content sn' sw' g = sw_content sn sw g;
  law_machine m sn sw m' sn' sw' : sm_SaveSnapshot None (m, (sn, sw)) = Ret ((m', (sn', sw')), Ok tt) →
    m' = m ∧ sw_image sn' sw' = Some m ∧ ∀ g, sw_content sn' sw' g = sw_content sn sw g;
  law_commit snap sn sw sn' sw' md c d m : sw_Commit snap (sn, sw) = Ret ((sn', sw'), Ok md) →
    sw_content sn sw ClusterFile = Some c → sw_content sn sw SessionFile = Some d → sw_image sn sw = Some m →
    md_snapshot md = snap ∧ holds sn' snap c d m;
  law_purge snap sn sn' c d m : sn_Purge snap sn = Ret (sn', Ok tt) → holds sn snap c d m → holds sn' snap c d m
}.

(** The sessions can be restored from what they wrote. *)
Class SessionsSnapshotLaws (R M : Type) `{TimelessManager R M, SessionsSnapshot M, SessionsBoot M} :=
  ss_law : ∀ {W} `{Writer W} (P : list byte → W → Prop) m w m' w' b,
    (∀ b w data w', P b w → w_write w data = Ret (w', None) → P (b ++ data) w') →
    P b w → ss_Snapshot (m, w) = Ret ((m', w'), Ok tt) →
    m' = m ∧ ∃ d, P (b ++ d) w' ∧ ∀ m0, ∃ m1, ss_Restore d m0 = Ret (m1, Ok tt) ∧ sm_same m1 m.

(** A snapshot of the entries is newer than the last one. *)
Class RaftEntriesLaws (ES : Type) `{RaftEntries ES} := {
  ent_snapIndex : ES → Z;
  ent_term : ES → Z → Z;
  law_snapshot i cs es es' snap : ent_CreateSnapshot i cs es = Ret (es', Ok snap) →
    snap_meta snap = {| sm_conf := cs; sm_index := i; sm_term := ent_term es i |} ∧ ent_snapIndex es < i ∧ ent_snapIndex es' = i;
  law_compact i es es' r : ent_Compact i es = Ret (es', r) → ent_snapIndex es' = ent_snapIndex es
}.

(** The members as written, on any stream. *)
Lemma Snapshot_grows `{StoreCodec} {W} (HW : Writer W) (P : list byte → W → Prop) c w w' b :
  (∀ b w data w', P b w → w_write w data = Ret (w', None) → P (b ++ data) w') →
  P b w → Cluster.Snapshot c w = Ret (w', Ok tt) → P (b ++ snapshot_bytes c) w'.
Proof.
  intros Hw Hb E. assert (∀ data w w' b, P b w → write_bytes data w = Ret (w', Ok tt) → P (b ++ data) w') as Hone.
  { clear -Hw. intros data w w' b Hb E. unfold write_bytes in E. destruct (w_write w data) as [[w1 [e|]]|] eqn:Ew; simplify_eq/=. by eapply Hw. }
  unfold Cluster.Snapshot, snapshot_bytes, FileWriteUint64, Meth.bind in *. revert b w Hb E.
  assert (∀ d (k : meth W unit) b w rest, (∀ b w, P b w → k w = Ret (w', Ok tt) → P (b ++ rest) w') → P b w →
    match write_bytes d w with Ret (w1, Ok _) => k w1 | Ret (w1, Err e) => Ret (w1, Err e) | Panic p => Panic p end = Ret (w', Ok tt) → P (b ++ d ++ rest) w') as Hseq.
  { intros d k b w rest Hk Hb E. destruct (write_bytes d w) as [[w1 [[]|e]]|] eqn:Ew; simplify_eq/=. rewrite (assoc_L (++)). eapply Hk; [|done]. by eapply Hone. }
  intros b w Hb E. eapply Hseq; [|done|exact E]. clear b w Hb E. intros b w Hb E. eapply Hseq; [|done|exact E]. clear b w Hb E.
  intros b w Hb E. eapply Hseq; [|done|exact E]. clear b w Hb E. intros b w Hb E. eapply Hseq; [|done|exact E]. clear b w Hb E.
  intros b w Hb E. by eapply Hone.
Qed.

(** ** A snapshot that is begun *)

Section Taking.
Context {A M SM RN SN RD WL ES SW SC MD TR : Type}.
Context `{RaftLib, Message NormalRequest, Message ConfChange, Message ConfChangeRequest, StoreCodec, MapRange}.
Context `{SessionsSnapshotLaws (response A) M, StateMachine A SM, RaftNode RN}.
Context `{RaftWal WL, RaftEntriesLaws ES, WritingLaws SN SW MD SM SC RD}.
Context `{ClusterBoot, TransportBoot TR, TransportReset TR}.
Abbreviation loop := (Loop A M SM RN SN WL ES SW SC MD TR).
Implicit Types (l : loop) (n : Node A M SM RN) (sw : SW) (ctx : SnapshotContext SW SC).

Definition snaps_of l : SN := st_snaps (lp_store l).
Definition with_snaps (sn : SN) l : loop :=
  put_store {| st_snaps := sn; st_wal := st_wal (lp_store l); st_entries := st_entries (lp_store l) |} l.

Lemma at_writer_inv sw m l l' sw' : at_writer sw m l = Ret (l', Ok sw') →
  ∃ sn', m (snaps_of l, sw) = Ret ((sn', sw'), Ok tt) ∧ l' = with_snaps sn' l.
Proof.
  unfold at_writer, at_store, on_snaps, snaps_of. destruct (m _) as [[[sn' sw1] [[]|e]]|] eqn:E; intros; simplify_eq/=. by eexists.
Qed.

Lemma at_store_snaps_inv {B} (m : meth SN B) l l' x : at_store (on_snaps m) l = Ret (l', Ok x) →
  ∃ sn', m (snaps_of l) = Ret (sn', Ok x) ∧ l' = with_snaps sn' l.
Proof. unfold at_store, on_snaps, snaps_of. destruct (m _) as [[sn' r]|] eqn:E; intros; simplify_eq/=. by eexists. Qed.

Lemma bind_Ok {S B C} (m : meth S B) (k : B → meth S C) s s' c :
  Meth.bind m k s = Ret (s', Ok c) → ∃ s1 b, m s = Ret (s1, Ok b) ∧ k b s1 = Ret (s', Ok c).
Proof. unfold Meth.bind. destruct (m s) as [[s1 [b|e]]|]; intros; simplify_eq/=; eauto. Qed.

(** One file has [b] so far, the other one [x]. *)
Definition file_has (f g : snapshot_file) (x : option (list byte)) (b : list byte) (w : SN * SW) : Prop :=
  sw_content w.1 w.2 f = Some b ∧ sw_content w.1 w.2 g = x.
Lemma stream_grows f g x b w data w' : f ≠ g →
  file_has f g x b w → w_write (Writer := file_stream f) w data = Ret (w', None) → file_has f g x (b ++ data) w'.
Proof.
  intros Hne [Hf Hg] E. destruct w as [sn sw], w' as [sn' sw']. unfold w_write, file_stream in E.
  destruct (sw_Write _ _ _) as [[w' [[]|e]]|] eqn:Es; simplify_eq/=. destruct (law_write _ _ _ _ _ _ Es) as [Hf' Hg'].
  split; cbn in *; [by rewrite Hf', Hf|by rewrite Hg'].
Qed.

(** The members are in the file, with the node as it is now. *)
Lemma context_cluster_ok term index cs l l' ctx :
  sm_concurrent = false → context_cluster term index cs l = Ret (l', Ok ctx) →
  ∃ sn', l' = with_snaps sn' l ∧ cx_index ctx = index ∧ cx_confState ctx = cs ∧ cx_machine ctx = None ∧
    sw_content sn' (cx_writer ctx) ClusterFile = Some (snapshot_bytes (cluster (lp_node l))) ∧ sw_content sn' (cx_writer ctx) SessionFile = None.
Proof.
  intros Hc E. unfold context_cluster, prepareSnapshotContext in E. rewrite Hc in E.
  apply bind_Ok in E as (? & sc & [= <- <-] & E). apply bind_Ok in E as (l1 & sw1 & E1 & E). apply bind_Ok in E as (l2 & sw2 & E2 & E).
  apply bind_Ok in E as (? & ? & [= <- <-] & E). apply bind_Ok in E as (l3 & sw3 & E3 & E). apply bind_Ok in E as (l4 & sw4 & E4 & E).
  injection E as <- <-.
  apply at_store_snaps_inv in E1 as (sn1 & E1 & ->). apply at_writer_inv in E2 as (sn2 & E2 & ->). apply at_writer_inv in E3 as (sn3 & E3 & ->).
  apply at_writer_inv in E4 as (sn4 & E4 & ->). unfold snaps_of in *. cbn [lp_store with_snaps put_store st_snaps lp_node] in *.
  pose proof (law_new _ _ _ _ _ E1) as Hnew. destruct (law_create _ _ _ _ _ E2) as [Hcr Hcr'].
  pose proof (law_close _ _ _ _ _ E4) as Hcl. exists sn4.
  apply (Snapshot_grows (file_stream ClusterFile) (file_has ClusterFile SessionFile None) _ _ _ []) in E3 as [Hf Hg];
    [|intros; by eapply stream_grows|split; [done|]; cbn; by rewrite Hcr', Hnew].
  split_and!; [done..| |]; cbn [cx_writer]; by rewrite Hcl.
Qed.

(** The sessions are in the file, next to the members. *)
Lemma context_session_ok ctx l l' ctx' c :
  context_session ctx l = Ret (l', Ok ctx') → sw_content (snaps_of l) (cx_writer ctx) ClusterFile = Some c →
  ∃ sn' d, l' = with_snaps sn' l ∧ cx_index ctx' = cx_index ctx ∧ cx_confState ctx' = cx_confState ctx ∧ cx_machine ctx' = cx_machine ctx ∧
    sw_content sn' (cx_writer ctx') ClusterFile = Some c ∧ sw_content sn' (cx_writer ctx') SessionFile = Some d ∧
    ∀ m0, ∃ m1, ss_Restore d m0 = Ret (m1, Ok tt) ∧ sm_same m1 (sessions (lp_node l)).
Proof.
  intros E Hc. unfold context_session in E. apply bind_Ok in E as (l1 & sw1 & E1 & E). apply bind_Ok in E as (l2 & sw2 & E2 & E).
  apply bind_Ok in E as (l3 & sw3 & E3 & E). injection E as <- <-. apply at_writer_inv in E1 as (sn1 & E1 & ->).
  unfold session_stream, snaps_of in *. cbn [lp_store with_snaps put_store st_snaps lp_node] in *.
  destruct (ss_Snapshot _) as [[[m [sn2 sw2']] [[]|e]]|] eqn:Es; simplify_eq/=.
  destruct (law_create _ _ _ _ _ E1) as [Hcr Hcr'].
  apply (ss_law (file_has SessionFile ClusterFile (Some c)) _ _ _ _ []) in Es as (-> & d & [Hf Hg] & Hd);
    [|intros; by eapply (stream_grows SessionFile)|split; [done|]; cbn; by rewrite Hcr'].
  apply at_writer_inv in E3 as (sn3 & E3 & ->). unfold snaps_of in *. cbn [lp_store put_store st_snaps fst snd] in *.
  pose proof (law_close _ _ _ _ _ E3) as Hcl. exists sn3, d. cbn [cx_writer cx_index cx_confState cx_machine].
  split_and!; [by destruct l as [[]]|done|done|done|by rewrite Hcl|by rewrite Hcl|done].
Qed.

Lemma at_store_inv {B} (m : meth (Store SN WL ES) B) l l' x : at_store m l = Ret (l', Ok x) →
  ∃ s', m (lp_store l) = Ret (s', Ok x) ∧ l' = put_store s' l.
Proof. unfold at_store. destruct (m _) as [[s' r]|] eqn:E; intros; simplify_eq/=. by eexists. Qed.

Lemma storage_Save_snaps hs es snap (s s' : Store SN WL ES) r : storage_Save hs es snap s = Ret (s', r) → st_snaps s' = st_snaps s ∧ st_entries s' = st_entries s.
Proof.
  assert (∀ B (m : meth WL B) (s s' : Store SN WL ES) r, on_wal m s = Ret (s', r) → st_snaps s' = st_snaps s ∧ st_entries s' = st_entries s) as Hw.
  { intros B m s1 s1' r1. unfold on_wal. destruct (m _) as [[w x]|]; intros; by simplify_eq/=. }
  unfold storage_Save, Meth.bind, Meth.ret. intros E. destruct (on_wal (wal_Save hs es) s) as [[s1 [?|?]]|] eqn:E1; [| |done]; apply Hw in E1 as [E1 E1'];
    [|by simplify_eq/=]. destruct (IsEmptySnap snap); [by simplify_eq/=|].
  destruct (on_wal (wal_SaveSnapshot snap) s1) as [[s2 [?|?]]|] eqn:E2; [| |done]; apply Hw in E2 as [E2 E2']; [|simplify_eq/=; by rewrite E2, E2'].
  apply Hw in E as [-> ->]. by rewrite E2, E2'.
Qed.

Lemma CompactAndRelease_ok i snap (s s' : Store SN WL ES) c d m :
  CompactAndReleaseSnapshot i snap s = Ret (s', Ok tt) → holds (st_snaps s) snap c d m → holds (st_snaps s') snap c d m.
Proof.
  unfold CompactAndReleaseSnapshot, purgeWalAndSnapshot, Meth.bind, on_entries, on_wal, on_snaps. intros E Hh.
  destruct (ent_Compact i _) as [[? [[]|?]]|]; simplify_eq/=. destruct (wal_Purge snap _) as [[? [[]|?]]|]; simplify_eq/=.
  destruct (sn_Purge snap _) as [[sn' [[]|?]]|] eqn:Ep; simplify_eq/=. by eapply law_purge.
Qed.

(** A snapshot that is finished can be read, and the node is as before. *)
Lemma doSnapshot_ok ctx l l' md c d :
  doSnapshot ctx l = Ret (l', Ok md) → cx_machine ctx = None →
  sw_content (snaps_of l) (cx_writer ctx) ClusterFile = Some c → sw_content (snaps_of l) (cx_writer ctx) SessionFile = Some d →
  lp_node l' = lp_node l ∧ holds (snaps_of l') (md_snapshot md) c d (machine (lp_node l)) ∧
  snap_meta (md_snapshot md) = {| sm_conf := cx_confState ctx; sm_index := cx_index ctx; sm_term := ent_term (st_entries (lp_store l)) (cx_index ctx) |}.
Proof.
  intros E Hm Hc Hd. unfold doSnapshot in E. apply bind_Ok in E as (l1 & md1 & E1 & E). unfold SaveStateMachineSnapshot in E1.
  destruct (Meth.bind _ _ l) as [[l2 r]|] eqn:E2; [|done]. cbn [mbind go_bind] in E1. rewrite Hm in E1. cbn in E1. injection E1 as <- ->.
  apply bind_Ok in E2 as (l3 & sw & E3 & E2). apply bind_Ok in E2 as (l4 & snap & E4 & E5).
  unfold save_machine in E3. rewrite Hm in E3. destruct (sm_SaveSnapshot _ _) as [[[s [sn sw']] [[]|e]]|] eqn:Es; simplify_eq/=.
  destruct (law_machine _ _ _ _ _ _ Es) as (-> & Him & Hco). apply at_store_inv in E4 as (st & E4 & ->). unfold on_entries in E4.
  cbn [lp_store put_store st_entries] in E4. destruct (ent_CreateSnapshot _ _ _) as [[es' r]|] eqn:Ee; simplify_eq/=. apply law_snapshot in Ee as (Hmeta & _ & _).
  unfold commit_writer in E5. apply at_store_snaps_inv in E5 as (sn' & E5 & ->). cbn in E5.
  destruct (sw_Commit _ _) as [[[sn5 sw5] r5]|] eqn:Ec; simplify_eq/=. eapply law_commit in Ec as [Hsnap Hh]; [|by rewrite Hco|by rewrite Hco|done].
  apply bind_Ok in E as (l6 & [] & E6 & E). apply at_store_inv in E6 as (s6 & E6 & ->). apply storage_Save_snaps in E6 as [E6 _].
  apply bind_Ok in E as (? & ? & [= <- <-] & E). cbn in E6. rewrite <- E6, <- Hsnap in Hh.
  assert (lp_node l' = lp_node l ∧ md1 = md ∧ holds (snaps_of l') (md_snapshot md) c d (machine (lp_node l))) as (-> & -> & Hh').
  { repeat case_decide; [|done|].
    - injection E as <- <-. split_and!; [by destruct l as [[]]|done|done].
    - apply bind_Ok in E as (l7 & [] & E7 & [= <- <-]). apply at_store_inv in E7 as (s7 & E7 & ->). split_and!; [by destruct l as [[]]|done|].
      by eapply CompactAndRelease_ok. }
  split_and!; [done|done|by rewrite Hsnap].
Qed.

Lemma execs_step clock count ev evs l l1 : exec clock count ev l = Some (Ret l1) → execs clock count (ev :: evs) l = execs clock count evs l1.
Proof. intros E. cbn [execs]. by rewrite E. Qed.

(** From the choice of the index on: what is written is the node as it is then. *)
Lemma taken_ok clock count manual term index cs l l' :
  sm_concurrent = false → lp_phase l = Chosen manual term index cs → execs clock count [EvCluster; EvSession] l = Some (Ret l') →
  lp_node l' = lp_node l ∧ ∃ snap d,
    holds (snaps_of l') snap (snapshot_bytes (cluster (lp_node l))) d (machine (lp_node l)) ∧
    snap_meta snap = {| sm_conf := cs; sm_index := index; sm_term := ent_term (st_entries (lp_store l)) index |} ∧
    ∀ m0, ∃ m1, ss_Restore d m0 = Ret (m1, Ok tt) ∧ sm_same m1 (sessions (lp_node l)).
Proof.
  intros Hc Hp E. cbn [execs exec] in E. rewrite Hp in E. destruct (context_cluster _ _ _ l) as [[l1 [ctx|e]]|] eqn:E1; simplify_eq/=.
  apply context_cluster_ok in E1 as (sn1 & -> & Hi & Hcs & Hm & Hf & _); [|done].
  destruct (context_session _ _) as [[l2 [ctx'|e]]|] eqn:E2; simplify_eq/=.
  eapply context_session_ok in E2 as (sn2 & d & -> & Hi2 & Hcs2 & Hm2 & Hf2 & Hd2 & Hr); [|done].
  unfold triggerSnapshot in E. rewrite Hc in E. unfold run_snapshot in E. destruct (doSnapshot _ _) as [[l3 [md|e]]|] eqn:E3; cbn in E; [|done..].
  eapply doSnapshot_ok in E3 as (Hn & Hh & Hmeta); [|congruence|exact Hf2|exact Hd2]. cbn in Hn, Hh, Hmeta.
  assert (lp_node l' = lp_node l3 ∧ snaps_of l' = snaps_of l3) as [-> ->] by (destruct manual; by simplify_eq/=).
  split; [by rewrite Hn|]. exists (md_snapshot md), d. split_and!; [done|by rewrite Hmeta, Hi2, Hcs2|done].
Qed.

(** ** Restarting from it *)

Context {WM RR BL : Type} `{WalManager WM RR ES BL, NodeStarter RN ES}.

(** The node is started again, finds the snapshot and can replay its log from there; raft
    starts as [rn]. *)
Record recovers (cfg : BabuzaConfig) (b : Boot WM SN SM M TR) (snap : Snapshot) (es : ES) (hs : HardState) (rn : RN) : Prop := {
  rc_memory : diskType (bt_bsm b) = false;
  rc_open : openAppliedIndex (bt_bsm b) <= snap_index snap;
  rc_snapshot : ∃ ws wm, wm_FindSnapshot (bt_wals b) = Ret (wm, Ok ws) ∧ sn_LoadLastValidSnapshot ws (bt_snaps b) = Ret (bt_snaps b, Ok (Some snap)) ∧
    ∃ wm' rr wl, wm_ReplayWal (Some snap) false wm = Ret (wm', Ok (rr, es, wl));
  rc_state : ∃ cs, es_InitialState es = Ok (hs, cs);
  rc_raft : rn_Restart (convertToRaftConfig cfg es) = Ok rn
}.

(** The members are restored from what they wrote. *)
Definition restorable (cfg : BabuzaConfig) (c : Cluster) : Prop :=
  clusterID c = ClusterID cfg ∧ localPeerID c = LocalPeerID cfg ∧
  ∀ c0, localPeerID c0 = localPeerID c → cl_Restore (snapshot_bytes c) c0 = Ret (c, Ok tt).

Lemma taken_stopped cfg (b : Boot WM SN SM M TR) n snap es hs d :
  recovers cfg b snap es hs (raft n) → restorable cfg (cluster n) →
  holds (bt_snaps b) snap (snapshot_bytes (cluster n)) d (machine n) →
  (∀ m0, ∃ m1, ss_Restore d m0 = Ret (m1, Ok tt) ∧ sm_same m1 (sessions n)) →
  status n = {| appliedIndex := snap_index snap; appliedTerm := sm_term (snap_meta snap); st_confState := sm_conf (snap_meta snap) |} →
  ∃ rd, stopped cfg b n snap rd es hs.
Proof.
  intros [Hmem Hop (ws & wm & Hf & Hl & wm' & rr & wl & Hr) Hst Hra] (Hc1 & Hc2 & Hres) (rd & Hrd & Hcl & Hss & Hsm) Hd Hstat.
  exists rd. constructor; [done| |constructor|done|done|done|done|done].
  - exists ws, wm, (bt_snaps b). split_and!; [done|done|by exists wm', rr, wl|done].
  - by exists (snapshot_bytes (cluster n)).
  - by exists d.
  - done.
Qed.

(** C11: a snapshot is the node it was taken from.  The state machine is in memory and does not
    write its snapshots concurrently, and the session manager restores what it saved and does not
    look at the clock.  When the loop takes a snapshot and no configuration change comes in
    between, then a node that is started again, finds this snapshot, can replay its log from
    there and has raft start with the configuration the node had, behaves from then on as the
    node did: whatever entries behind the snapshot follow, both have the same sessions, members,
    state machine and raft configuration and give the same answers, or both panic alike. *)
Theorem snapshot_point_restarts clock count manual l l' cfg :
  sm_concurrent = false → lp_phase l = Due manual → execs clock count [EvBegin; EvCluster; EvSession] l = Some (Ret l') →
  let n := lp_node l in
  restorable cfg (cluster n) →
  ∀ (b : Boot WM SN SM M TR) snap es hs,
    snap_meta snap = {| sm_conf := st_confState (status n); sm_index := appliedIndex (status n); sm_term := appliedTerm (status n) |} →
    bt_snaps b = snaps_of l' → recovers cfg b snap es hs (raft n) →
    ∃ b' storage, restartNode cfg b = Ret (b', Ok (raft n, storage)) ∧ rs_entryStorage storage = es ∧
      ∀ clock1 clock2 sts, Forall (beyond (snap_index snap)) sts →
        go_rel (node_same (past_of n)) (run clock1 (bt_bsm b') sts (node_of b' (raft n))) (run clock2 (bt_bsm b) sts n).
Proof.
  intros Hc Hp E n Hr b snap es hs Hm Hb Hrec. erewrite execs_step in E by (cbn [exec]; by rewrite Hp).
  eapply taken_ok in E as (_ & made & d & Hh & Hmade & Hd); [|done|reflexivity]. cbn [lp_node put_phase lp_store] in Hh, Hmade, Hd. fold n in Hh, Hmade, Hd.
  rewrite <- Hb in Hh. destruct (taken_stopped cfg b n snap es hs d Hrec Hr) as [rd Hs]; [|done| |].
  { unfold holds, snap_index in *. by rewrite Hm, Hmade in *. }
  { unfold snap_index. rewrite Hm. by destruct (status n). }
  destruct (restartNode_ok cfg b n snap rd es hs Hs) as (b' & wl & Er & Hsame & Hbsm & _).
  exists b', {| rs_wal := wl; rs_entryStorage := es |}. split_and!; [done..|]. intros clock1 clock2 sts Hbe.
  rewrite (run_opened clock2 (bt_bsm b) (bt_bsm b') sts n); [by apply run_same|..|by rewrite Hbsm].
  eapply Forall_impl; [exact Hbe|]. intros [e|e]; simpl; [|done]. pose proof (rc_open _ _ _ _ _ _ Hrec). lia.
Qed.
End Taking.
