(* ===== verification/SnapshotRace.v ===== *)
(** * Snapshots and what happens around them

    A configuration change between the steps of a snapshot, snapshots that overtake each
    other, and how far the entries run ahead of the snapshots. *)

From S2P Require Import Prelude Streams Session Cluster Apply Exactly Replicas Membership Bootstrap Restart RaftStorage StateMachineLoop SnapshotPoint Raftpb.

(** ** A change of the configuration *)

Section Change.
Context {A M SM RN : Type}.
Context `{Message NormalRequest, Message ConfChange, Message ConfChangeRequest}.
Context `{SessionManager (response A) M, StateMachine A SM, RaftConf RN}.
Implicit Types n : Node A M SM RN.

(** Adding a member that is there changes neither the members nor the configuration of raft. *)
Lemma readd_refused cc req n n' r :
  cc_Type cc = ConfChangeAddNode → PromoteLearner req = false → is_Some (peers_of (store (cluster n)) !! PeerID (cr_RaftPeerAttr req)) →
  processConfChange cc req n = Ret (n', r) →
  cluster n' = cluster n ∧ rn_voters (raft n') = rn_voters (raft n) ∧ rn_learners (raft n') = rn_learners (raft n).
Proof.
  intros Ht Hp Hin E. unfold processConfChange, clusterValidateAndApply in E. rewrite Ht, Hp in E. rewrite decide_True in E by by left.
  unfold Add, Meth.bind, Meth.get in E. rewrite decide_True in E by done. unfold Meth.fail in E. cbn [mbind go_bind] in E.
  destruct (rn_ApplyConfChange _ _ _) as [rn x] eqn:Er. simplify_eq/=. split; [done|].
  match type of Er with rn_ApplyConfChange ?g ?k ?z = _ => destruct (conf_none g k z eq_refl) as [Hv Hl] end. by rewrite Er in Hv, Hl.
Qed.

Lemma reapplied_refused clock bsm e cc req n n' :
  parseConfChangeEntry e = Ok (cc, req) → cc_Type cc = ConfChangeAddNode → PromoteLearner req = false →
  is_Some (peers_of (store (cluster n)) !! PeerID (cr_RaftPeerAttr req)) →
  run_step clock bsm (Conf e) n = Ret n' → cluster n' = cluster n ∧ rn_voters (raft n') = rn_voters (raft n).
Proof.
  intros Hpa Ht Hpr Hin E. simpl in E. unfold confChangeEntry in E. case_decide; [|by simplify_eq/=].
  unfold ApplyConfChangeEntry in E. rewrite Hpa in E. destruct (sm_GetSession _ _) as [m [h|err]]; [|by simplify_eq/=].
  destruct (doExactlyOnce _ _ _ _) as [m' [toApply ar]]. destruct toApply; [|cbn in E; injection E as <-; by repeat case_match].
  destruct (processConfChange _ _ _) as [[n1 [[cs rs] err]]|] eqn:Ep; [|done]. apply readd_refused in Ep as (Hc & Hv & _); [|done..].
  cbn [mbind go_bind] in E. destruct (h_AddResult _ _ _ _ _) as [m'' [?|]]; [done|]. injection E as <-.
  simpl. by repeat case_match.
Qed.
End Change.

(** ** What the steps of a snapshot leave alone *)

Section Frame.
Context {A M SM RN SN RD WL ES SW SC MD TR : Type}.
Context `{RaftLib, Message NormalRequest, Message ConfChange, Message ConfChangeRequest, StoreCodec}.
Context `{SessionManager (response A) M, StateMachine A SM, RaftNode RN}.
Context `{RaftWal WL, RaftEntries ES, SnapshotWriting SN SW MD, MachineSnapshots SM SN SW SC, SessionsSnapshot M}.
Abbreviation loop := (Loop A M SM RN SN WL ES SW SC MD TR).
Implicit Types l : loop.

Record frame l l' : Prop := {
  fr_phase : lp_phase l' = lp_phase l;
  fr_snapIndex : lp_snapIndex l' = lp_snapIndex l;
  fr_running : lp_running l' = lp_running l;
  fr_status : status (lp_node l') = status (lp_node l)
}.
#[global] Instance frame_order : PreOrder frame.
Proof. split; [by constructor|]. intros l1 l2 l3 [] []. constructor; congruence. Qed.
Definition same_entries l l' : Prop := st_entries (lp_store l') = st_entries (lp_store l).
#[global] Instance entries_order : PreOrder same_entries.
Proof. split; [done|]. intros l1 l2 l3. unfold same_entries. congruence. Qed.

Definition keeps {B} (R : relation loop) (m : meth loop B) : Prop := ∀ l l' r, m l = Ret (l', r) → R l l'.

Section Keeps.
Context (R : relation loop) `{!PreOrder R}.
Lemma keeps_ret {B} (x : B) : keeps R (Meth.ret x).
Proof. by intros l l' r [= <- _]. Qed.
Lemma keeps_get : keeps R Meth.get.
Proof. by intros l l' r [= <- _]. Qed.
Lemma keeps_panic {B} msg : keeps R (Meth.panic (A := B) msg).
Proof. by intros l l' r [=]. Qed.
Lemma keeps_then {B C} (m : meth loop B) (k : B → meth loop C) : keeps R m → (∀ b, keeps R (k b)) → keeps R (Meth.bind m k).
Proof.
  intros Hm Hk l l' r. unfold Meth.bind. destruct (m l) as [[l1 [b|e]]|] eqn:E; [|intros [= <- _]; by eapply Hm|done].
  intros E2. etrans; [by eapply Hm|by eapply Hk].
Qed.
End Keeps.

Lemma frame_store {B} (m : meth (Store SN WL ES) B) : keeps frame (at_store m).
Proof. intros l l' r. unfold at_store. destruct (m _) as [[s x]|]; [|done]. intros [= <- _]. by constructor. Qed.
Lemma entries_snaps {B} (m : meth SN B) : keeps same_entries (at_store (on_snaps m)).
Proof. intros l l' r. unfold at_store, on_snaps. destruct (m _) as [[s x]|]; [|done]. by intros [= <- _]. Qed.
Lemma machine_keeps {B} (m : meth SM B) : keeps frame (at_machine m) ∧ keeps same_entries (at_machine m).
Proof. split; intros l l' r; unfold at_machine; (destruct (m _) as [[s x]|]; [|done]); intros [= <- _]; by try constructor. Qed.
Lemma stream_keeps sw : keeps frame (session_stream sw) ∧ keeps same_entries (session_stream sw).
Proof. split; intros l l' r; unfold session_stream; (destruct (ss_Snapshot _) as [[[m [sn sw']] x]|]; [|done]); intros [= <- _]; by try constructor. Qed.
Lemma save_machine_keeps ctx : keeps frame (save_machine ctx) ∧ keeps same_entries (save_machine ctx).
Proof.
  split; intros l l' r; unfold save_machine; (destruct (sm_SaveSnapshot _ _) as [[[m [sn sw']] x]|]; [|done]); intros [= <- _]; by try constructor.
Qed.
Hint Resolve keeps_ret keeps_get keeps_panic keeps_then frame_store entries_snaps : core.
Hint Extern 1 (keeps _ (at_machine _)) => apply machine_keeps : core.
Hint Extern 1 (keeps _ (session_stream _)) => apply stream_keeps : core.
Hint Extern 1 (keeps _ (save_machine _)) => apply save_machine_keeps : core.

Lemma context_cluster_keeps term index cs : keeps frame (context_cluster term index cs) ∧ keeps same_entries (context_cluster term index cs).
Proof. unfold context_cluster, prepareSnapshotContext, at_writer. split; (apply keeps_then; [apply _| |auto 20 with typeclass_instances]); destruct sm_concurrent; auto with typeclass_instances. Qed.
Lemma context_session_keeps ctx : keeps frame (context_session ctx) ∧ keeps same_entries (context_session ctx).
Proof. unfold context_session, at_writer. split; auto 20 with typeclass_instances. Qed.

Lemma release_keeps sc : keeps frame (releaseSnapshotContext sc) ∧ keeps same_entries (releaseSnapshotContext sc).
Proof. unfold releaseSnapshotContext. split; (destruct sc; [destruct sm_concurrent|]); auto with typeclass_instances. Qed.
Lemma SaveStateMachineSnapshot_keeps ctx : keeps frame (SaveStateMachineSnapshot ctx).
Proof.
  intros l l' r. unfold SaveStateMachineSnapshot. destruct (Meth.bind _ _ l) as [[l1 x]|] eqn:E1; [|done]. cbn [mbind go_bind].
  destruct (releaseSnapshotContext _ l1) as [[l2 y]|] eqn:E2; [|done]. intros [= <- <-]. etrans; [|by eapply release_keeps].
  revert E1. apply keeps_then; [apply _|auto|]. intros sw. unfold commit_writer. auto with typeclass_instances.
Qed.
Lemma doSnapshot_keeps ctx : keeps frame (doSnapshot ctx).
Proof.
  unfold doSnapshot. apply keeps_then; [apply _|apply SaveStateMachineSnapshot_keeps|]. intros md. apply keeps_then; [apply _|auto|]. intros _.
  apply keeps_then; [apply _|auto with typeclass_instances|]. intros l. repeat case_decide; auto with typeclass_instances.
Qed.
Lemma run_snapshot_keeps ctx manual l l' : run_snapshot ctx manual l = Ret l' → frame l l'.
Proof.
  unfold run_snapshot. destruct (doSnapshot ctx l) as [[l1 [md|e]]|] eqn:E; [|done..]. cbn. intros [= <-].
  etrans; [by eapply doSnapshot_keeps|]. by destruct manual.
Qed.
End Frame.

Section Race.
Context {A M SM RN SN RD WL ES SW SC MD TR WM RR BL : Type}.
Context `{RaftLib, Message NormalRequest, Message ConfChange, Message ConfChangeRequest, StoreCodec, MapRange}.
Context `{SessionsSnapshotLaws (response A) M, StateMachine A SM, RaftConf RN}.
Context `{RaftWal WL, RaftEntriesLaws ES, WritingLaws SN SW MD SM SC RD}.
Context `{ClusterBoot, TransportBoot TR, TransportReset TR}.
Context `{WalManager WM RR ES BL, NodeStarter RN ES}.
Abbreviation loop := (Loop A M SM RN SN WL ES SW SC MD TR).
Implicit Types (l : loop) (n : Node A M SM RN).

(** C19: a configuration change that is applied while a snapshot is begun splits the members
    from the configuration of raft.  The status is read before the members are written; when
    a voter is added in between, the snapshot has the new member but the old configuration.
    A node that is restarted from it knows a voter its raft does not count, and replaying the
    entry does not change that: the member is there already, so the change is refused. *)
Theorem snapshot_race_splits clock count manual l l' e cc req cfg :
  sm_concurrent = false → lp_phase l = Due manual →
  execs clock count [EvBegin; EvConf e; EvCluster; EvSession] l = Some (Ret l') →
  parseConfChangeEntry e = Ok (cc, req) → cc_Type cc = ConfChangeAddNode → PromoteLearner req = false →
  let n := lp_node l in let p := PeerID (cr_RaftPeerAttr req) in
  p ∉ cs_voters (st_confState (status n)) → with_role false (cluster (lp_node l')) p →
  restorable cfg (cluster (lp_node l')) →
  ∀ (b : Boot WM SN SM M TR) snap es hs rn,
    snap_meta snap = {| sm_conf := st_confState (status n); sm_index := appliedIndex (status n); sm_term := appliedTerm (status n) |} →
    bt_snaps b = snaps_of l' → recovers cfg b snap es hs rn → rn_voters rn = list_to_set (cs_voters (sm_conf (snap_meta snap))) →
    ∃ b' storage, restartNode cfg b = Ret (b', Ok (rn, storage)) ∧
      let n2 := node_of b' rn : Node A M SM RN in
      (with_role false (cluster n2) p ∧ p ∉ rn_voters (raft n2)) ∧
      ∀ clock2 n3, run_step clock2 (bt_bsm b') (Conf e) n2 = Ret n3 → with_role false (cluster n3) p ∧ p ∉ rn_voters (raft n3).
Proof.
  intros Hc Hp E Hpa Ht Hpr n p Hnew Hrole Hres b snap es hs rn Hm Hb Hrec Hvot. erewrite execs_step in E by (cbn [exec]; by rewrite Hp).
  cbn [execs exec] in E. cbn [lp_bsm put_phase lp_node] in E. fold n in E.
  destruct (run_step clock (lp_bsm l) (Conf e) n) as [n1|] eqn:E1; [|done]. cbn [mbind go_bind] in E.
  change (execs clock count [EvCluster; EvSession] (put_node n1 (put_phase (Chosen manual (appliedTerm (status n)) (appliedIndex (status n)) (st_confState (status n))) l)) = Some (Ret l')) in E.
  eapply taken_ok in E as (Hn & made & d & Hh & Hmade & Hd); [|done|reflexivity]. cbn [lp_node put_node put_phase lp_store] in Hn, Hh, Hmade, Hd.
  rewrite Hn in Hrole, Hres. rewrite <- Hb in Hh. set (ns := set_raft rn (set_status (status n) n1)).
  destruct (taken_stopped cfg b ns snap es hs d) as [rd Hs]; [done|done| |done| |].
  { unfold holds, snap_index in *. by rewrite Hm, Hmade in *. }
  { unfold snap_index. rewrite Hm. by destruct (status n). }
  destruct (restartNode_ok cfg b ns snap rd es hs Hs) as (b' & wl & Er & Hsame & _). exists b'. eexists. split; [exact Er|].
  assert (with_role false (cluster (node_of (A := A) b' rn)) p) as Hr2 by (pose proof (ns_cluster _ _ _ Hsame : cluster (node_of b' rn) = cluster n1) as ->; done).
  assert (p ∉ rn_voters rn) as Hv2 by (by rewrite Hvot, Hm, elem_of_list_to_set). split; [done|].
  intros clock2 n3 E3. destruct (reapplied_refused clock2 (bt_bsm b') e cc req (node_of b' rn) n3) as [-> Hv3]; [done..| |done|].
  - destruct Hr2 as (q & Hq & _). by exists q.
  - by rewrite Hv3.
Qed.
End Race.

(** ** Snapshots that overtake each other *)

Section Collide.
Context {A M SM RN SN RD WL ES SW SC MD TR : Type}.
Context `{RaftLib, Message NormalRequest, Message ConfChange, Message ConfChangeRequest, StoreCodec}.
Context `{SessionManager (response A) M, StateMachine A SM, RaftNode RN}.
Context `{RaftWal WL, RaftEntriesLaws ES, SnapshotWriting SN SW MD, MachineSnapshots SM SN SW SC, SessionsSnapshot M}.
Context `{SnapshotManager SN RD, MachineBoot SM RD, SessionsBoot M, ClusterBoot, TransportBoot TR, TransportReset TR}.
Context (clock : nat → Z) (count : Z).
Abbreviation loop := (Loop A M SM RN SN WL ES SW SC MD TR).
Implicit Types l : loop.

Lemma doSnapshot_newer ctx l l' md : doSnapshot ctx l = Ret (l', Ok md) →
  ent_snapIndex (st_entries (lp_store l)) < cx_index ctx ∧ ent_snapIndex (st_entries (lp_store l')) = cx_index ctx.
Proof.
  intros E. unfold doSnapshot in E. apply bind_Ok in E as (l1 & md1 & E1 & E). unfold SaveStateMachineSnapshot in E1.
  destruct (Meth.bind _ _ l) as [[l2 r]|] eqn:E2; [|done]. cbn [mbind go_bind] in E1.
  destruct (releaseSnapshotContext _ l2) as [[l2' ?]|] eqn:Erel; [|done]. injection E1 as -> ->.
  apply bind_Ok in E2 as (l3 & sw & E3 & E2). apply bind_Ok in E2 as (l4 & snap & E4 & E5).
  assert (same_entries l2 l1) as Hst by (by eapply (proj2 (release_keeps _))).
  assert (same_entries l l3) as Hent by (by eapply (proj2 (save_machine_keeps _))). unfold same_entries in Hst, Hent.
  apply at_store_inv in E4 as (st & E4 & ->). unfold on_entries in E4. rewrite Hent in E4.
  destruct (ent_CreateSnapshot _ _ _) as [[es' x]|] eqn:Ee; simplify_eq/=. apply law_snapshot in Ee as (_ & Hlt & Heq).
  unfold commit_writer in E5. apply at_store_snaps_inv in E5 as (sn' & _ & ->). split; [done|].
  apply bind_Ok in E as (l6 & [] & E6 & E). apply at_store_inv in E6 as (s6 & E6 & ->). apply storage_Save_snaps in E6 as [_ E6].
  rewrite Hst in E6. cbn in E6. apply bind_Ok in E as (? & ? & [= <- <-] & E). repeat case_decide; [|done|].
  - injection E as <- <-. cbn. by rewrite E6.
  - apply bind_Ok in E as (l7 & [] & E7 & [= <- <-]). apply at_store_inv in E7 as (s7 & E7 & ->). cbn in E7 |- *.
    unfold CompactAndReleaseSnapshot, purgeWalAndSnapshot, Meth.bind, on_entries, on_wal, on_snaps in E7.
    destruct (ent_Compact _ _) as [[es7 [[]|?]]|] eqn:Ec; simplify_eq/=. apply law_compact in Ec.
    destruct (wal_Purge _ _) as [[? [[]|?]]|]; simplify_eq/=. destruct (sn_Purge _ _) as [[? ?]|]; simplify_eq/=. congruence.
Qed.

Lemma old_snapshot_panics ctx manual l :
  cx_index ctx <= ent_snapIndex (st_entries (lp_store l)) → ∃ msg, run_snapshot ctx manual l = Panic msg.
Proof.
  intros Hi. unfold run_snapshot. destruct (doSnapshot ctx l) as [[l' [md|e]]|msg] eqn:E; [|by eexists..].
  apply doSnapshot_newer in E as [? _]. lia.
Qed.

Lemma context_cluster_index term index cs l l' ctx : context_cluster term index cs l = Ret (l', Ok ctx) → cx_index ctx = index.
Proof.
  unfold context_cluster. intros E. do 2 apply bind_Ok in E as (? & ? & _ & E). do 2 apply bind_Ok in E as (? & ? & _ & E).
  do 2 apply bind_Ok in E as (? & ? & _ & E). by injection E as _ <-.
Qed.
Lemma context_session_index ctx l l' ctx' : context_session ctx l = Ret (l', Ok ctx') → cx_index ctx' = cx_index ctx.
Proof. unfold context_session. intros E. do 3 apply bind_Ok in E as (? & ? & _ & E). by injection E as _ <-. Qed.

(** A snapshot that is not newer than the last one ends the node.  A node that is asked
    for a snapshot and has applied nothing since the last one panics; and so does one whose
    state machine takes snapshots in the background, when an older one is finished after a
    newer one. *)
Theorem snapshots_collide l :
  (lp_phase l = Idle → sm_concurrent = false → appliedIndex (status (lp_node l)) <= ent_snapIndex (st_entries (lp_store l)) →
     ∀ k, ∃ msg, execs clock count [EvManual k; EvBegin; EvCluster; EvSession] l = Some (Panic msg)) ∧
  (∀ i j older newer m1 m2, lp_running l !! i = Some (older, m1) → lp_running l !! j = Some (newer, m2) → (i < j)%nat → cx_index older <= cx_index newer →
     ∃ msg, execs clock count [EvFinish j; EvFinish i] l = Some (Panic msg)).
Proof.
  split.
  - intros Hp Hc Hi k. erewrite execs_step by (cbn [exec]; by rewrite Hp). erewrite execs_step by reflexivity. cbn [execs exec].
    cbn [lp_phase put_phase lp_node]. destruct (context_cluster _ _ _ _) as [[l1 [ctx|e]]|msg] eqn:E1; [|by eexists..]. cbn [mbind go_bind].
    assert (same_entries _ l1) as He1 by (by eapply (proj2 (context_cluster_keeps _ _ _))). apply context_cluster_index in E1.
    cbn [lp_phase put_phase]. destruct (context_session ctx _) as [[l2 [ctx'|e]]|msg] eqn:E2; [|by eexists..]. cbn [mbind go_bind].
    assert (same_entries _ l2) as He2 by (by eapply (proj2 (context_session_keeps _))). apply context_session_index in E2.
    unfold triggerSnapshot. rewrite Hc. set (l3 := SetSnapshotIndex _ _).
    destruct (old_snapshot_panics ctx' (Some k) l3) as [msg ->]; [|by eexists].
    unfold same_entries in He1, He2. cbn in He1, He2 |- *. by rewrite He2, He1, E2, E1.
  - intros i j older newer m1 m2 Hi Hj Hij Hle. cbn [execs exec]. rewrite Hj.
    destruct (run_snapshot newer m2 _) as [l1|msg] eqn:E1; [|by eexists]. pose proof (run_snapshot_keeps _ _ _ _ E1) as Hfr.
    rewrite (fr_running _ _ Hfr). cbn. rewrite list_lookup_delete_lt, Hi by lia.
    set (l2 := put_running _ l1). destruct (old_snapshot_panics older m1 l2) as [msg ->]; [|by eexists].
    unfold run_snapshot in E1. destruct (doSnapshot _ _) as [[l3 [md|e]]|] eqn:E3; [|done..]. apply doSnapshot_newer in E3 as [_ Hn].
    assert (st_entries (lp_store l1) = st_entries (lp_store l3)) as He by (cbn in E1; destruct m2; by simplify_eq/=).
    cbn. rewrite He, Hn. done.
Qed.

(** ** How far the entries run ahead *)

Lemma conf_applied bsm e (n n' : Node A M SM RN) : run_step clock bsm (Conf e) n = Ret n' → appliedIndex (status n') = appliedIndex (status n).
Proof.
  assert (∀ cc req (n n' : Node A M SM RN) r, processConfChange cc req n = Ret (n', r) → status n' = status n) as Hp.
  { clear. intros cc req n n' r. unfold processConfChange. destruct (clusterValidateAndApply _ _ _) as [[c [[]|err]]|]; [| |done]; cbn [mbind go_bind];
      (destruct (rn_ApplyConfChange _ _ _) as [rn [cs|err']]); try (by intros [= <- _]).
    destruct (process_trans _ _ _) as [k b] eqn:Ek. intros [= <- _]. transitivity (status (process_trans cc req (processMemberEvent (cc_Type cc) req (set_raft rn (set_cluster c n)))).1); [by rewrite Ek|].
    unfold process_trans, processMemberEvent. by repeat case_decide. }
  simpl. unfold confChangeEntry. case_decide; [|by intros [= <-]]. unfold ApplyConfChangeEntry. destruct (parseConfChangeEntry e) as [[cc req]|]; [|done].
  destruct (sm_GetSession _ _) as [m [h|err]]; [|by intros [= <-]].
  destruct (doExactlyOnce _ _ _ _) as [m' [toApply ar]]. destruct toApply; [|cbn; intros [= <-]; by repeat case_match].
  destruct (processConfChange _ _ _) as [[n1 [[cs rs] err]]|] eqn:Ep; [|done]. apply Hp in Ep. cbn [mbind go_bind].
  destruct (h_AddResult _ _ _ _ _) as [m'' [?|]]; [done|]. intros [= <-]. by repeat case_match; simpl; rewrite Ep.
Qed.

(** While a snapshot is begun its index is the one that was applied. *)
Definition gap_ok l : Prop :=
  let applied := appliedIndex (status (lp_node l)) in
  match lp_phase l with
  | Idle => u64 (applied - lp_snapIndex l) < count
  | Chosen _ _ index _ => index = applied
  | Writing _ ctx => cx_index ctx = applied
  | Applying _ _ | Due _ => True
  end.

Lemma exec_gap ev l l' : 0 < count → gap_ok l → exec clock count ev l = Some (Ret l') → gap_ok l'.
Proof.
  intros Hc Hg E. destruct ev as [e|snap es| | |k| | | |i]; cbn [exec] in E.
  - destruct (run_step _ _ _ _) as [n|] eqn:En; [|done]. injection E as <-. apply conf_applied in En. unfold gap_ok in *. cbn. by rewrite En.
  - destruct (lp_phase l); try done. destruct (applySnapshot snap l) as [l1|]; [|done]. by injection E as <-.
  - destruct (lp_phase l) as [|batch [|e rest]| | |]; try done. destruct (applyEntry _ _ _ _) as [n|]; [|done]. by injection E as <-.
  - destruct (lp_phase l) as [|batch [|e rest]| | |]; try done. injection E as <-. unfold gap_ok. cbn. case_bool_decide; [done|]. cbn in *. lia.
  - destruct (lp_phase l); try done. by injection E as <-.
  - destruct (lp_phase l); try done. by injection E as <-.
  - unfold gap_ok in Hg. destruct (lp_phase l) as [| | |manual term index cs|] eqn:Ep; try done.
    destruct (context_cluster _ _ _ l) as [[l1 [ctx|e]]|] eqn:E1; [|done..]. injection E as <-.
    pose proof (proj1 (context_cluster_keeps _ _ _) _ _ _ E1) as Hfr. apply context_cluster_index in E1. unfold gap_ok. cbn. by rewrite E1, (fr_status _ _ Hfr).
  - unfold gap_ok in Hg. destruct (lp_phase l) as [| | | |manual ctx] eqn:Ep; try done.
    destruct (context_session ctx l) as [[l1 [ctx'|e]]|] eqn:E1; [|done..]. cbn [mbind go_bind] in E.
    pose proof (proj1 (context_session_keeps _) _ _ _ E1) as Hfr. apply context_session_index in E1.
    assert (∃ l2, frame (SetSnapshotIndex (cx_index ctx') (put_phase Idle l1)) l2 ∧ lp_phase l' = lp_phase l2 ∧ lp_snapIndex l' = lp_snapIndex l2 ∧ lp_node l' = lp_node l2)
      as (l2 & Hf2 & Hp & Hs & Hn).
    { unfold triggerSnapshot in E. destruct sm_concurrent; [injection E as <-; by eexists; split; [reflexivity|]|].
      injection E as E. apply run_snapshot_keeps in E. by eexists. }
    unfold gap_ok. rewrite Hp, Hs, Hn, (fr_phase _ _ Hf2), (fr_snapIndex _ _ Hf2), (fr_status _ _ Hf2). cbn.
    by rewrite (fr_status _ _ Hfr), E1, Hg, Z.sub_diag.
  - destruct (lp_running l !! i) as [[ctx manual]|]; [|done]. injection E as E. apply run_snapshot_keeps in E.
    unfold gap_ok in *. rewrite (fr_phase _ _ E), (fr_snapIndex _ _ E), (fr_status _ _ E). done.
Qed.

(** The entries never run far ahead of the snapshots.  Whatever batches, configuration
    changes and requests come and in whatever order the snapshots in the background are
    finished: whenever the loop waits for its next batch, fewer entries than the configured
    number were applied since the last snapshot was begun. *)
Theorem snapshot_gap_bounded evs l l' :
  0 < count → lp_phase l = Idle → u64 (appliedIndex (status (lp_node l)) - lp_snapIndex l) < count →
  execs clock count evs l = Some (Ret l') → lp_phase l' = Idle →
  u64 (appliedIndex (status (lp_node l')) - lp_snapIndex l') < count.
Proof.
  intros Hc Hp Hg E Hp'. assert (gap_ok l) as Hok by (unfold gap_ok; by rewrite Hp). clear Hp Hg.
  assert (gap_ok l') as Hok'; [|unfold gap_ok in Hok'; by rewrite Hp' in Hok'].
  revert l Hok E. induction evs as [|ev evs IH]; intros l Hok E; [by injection E as <-|].
  cbn [execs] in E. destruct (exec clock count ev l) as [[l1|]|] eqn:E1; [|done..]. eapply IH; [|done]. by eapply exec_gap.
Qed.
End Collide.
