(* ===== verification/BootExamples.v ===== *)
(** * Starting nodes: examples

    Instances of the interfaces of [Bootstrap.v], with the log in a key-value store for the
    log, and the theorems of [Standalone.v] and [Restart.v] applied to concrete nodes. *)

From S2P Require Import Prelude Coded Streams Session NoOpManager Cluster Apply Exactly Replicas Membership ApplyExamples EntryCache EntryStorage WalReplay LsmtKeys LsmtWal LsmtLog LsmtRuns LsmtExamples PeersConfig Raftpb Bootstrap Standalone Restart.

Module StandaloneExamples.
Import PlainRaft NodeExamples.

Definition conf_snapshot (i : Z) (voters learners : list Z) : Snapshot :=
  {| snap_meta := {| sm_conf := {| cs_voters := voters; cs_learners := learners |}; sm_index := i; sm_term := 1 |}; snap_data := [] |}.
Definition add_node (i : Z) : ConfChange := {| cc_Type := ConfChangeAddNode; cc_NodeID := i; cc_Context := [] |}.
Definition add_learner (i : Z) : ConfChange := {| cc_Type := ConfChangeAddLearnerNode; cc_NodeID := i; cc_Context := [] |}.
Definition change_entry (i : Z) (cc : ConfChange) : Entry := {| e_term := 1; e_index := i; e_type := EntryConfChange; e_data := marshal cc |}.
Definition committed : HardState := {| hs_term := 2; hs_vote := 1; hs_commit := 6 |}.

(** Node 1 of the voters 1 and 2, to which 3 was added. *)
Lemma standalone_sole_voter_witness :
  ∃ ids ents hs', createRaftConfigChangeEntries 1 "a:1" ids committed = Ok (ents, hs') ∧ e_index <$> ents = [7; 8] ∧
    ∃ ccs', changes_of ents ccs' ∧ rn_voters (apply_changes ccs' (({[1; 2; 3]}, ∅) : RaftSets)) = {[1]}.
Proof.
  set (snap := conf_snapshot 4 [1; 2] []). set (es := [change_entry 5 (add_node 3)]).
  destruct (listRaftConfChangeAddNodeIds (Some snap) es) as [ids|] eqn:Eids; [|done].
  destruct (createRaftConfigChangeEntries 1 "a:1" ids committed) as [[ents hs']|] eqn:Eents; [|done].
  exists ids, ents, hs'. split; [done|]. assert (ids = [1; 2; 3]) as Ei by (vm_compute in Eids; by injection Eids as <-).
  destruct (standalone_sole_voter (Some snap) es [add_node 3] 1 "a:1" committed ids ents hs' (({[1; 2]}, ∅) : RaftSets) ({[1; 2; 3]}, ∅))
    as (Hix & Hcm & ccs' & Hch & Hv & _).
  - constructor; [done|done|by vm_compute|by apply (bool_decide_unpack _)|constructor; [apply unmarshal_marshal|constructor]| |done|done|done|done|by rewrite Ei].
    apply te_applied. assert (apply_change (add_node 3) (({[1; 2]}, ∅) : RaftSets) = ({[1; 2; 3]}, ∅)) as -> by (by vm_compute). constructor.
  - done.
  - left. by vm_compute.
  - split; [|by exists ccs']. subst ids. vm_compute in Eents. by injection Eents as <- <-.
Defined.

(** Node 1 was added as a learner to the voter 2 and the learner 4. *)
Lemma standalone_incomplete_witness :
  ∃ ids ents hs', createRaftConfigChangeEntries 1 "a:1" ids committed = Ok (ents, hs') ∧ ids = [1; 2] ∧
    ∃ ccs', changes_of ents ccs' ∧ 4 ∈ rn_learners (apply_changes ccs' (({[2]}, {[1; 4]}) : RaftSets)) ∧
      rn_voters (apply_changes ccs' (({[2]}, {[1; 4]}) : RaftSets)) = ∅.
Proof.
  set (snap := conf_snapshot 4 [2] [4]). set (es := [change_entry 5 (add_learner 1)]).
  destruct (listRaftConfChangeAddNodeIds (Some snap) es) as [ids|] eqn:Eids; [|done].
  destruct (createRaftConfigChangeEntries 1 "a:1" ids committed) as [[ents hs']|] eqn:Eents; [|done].
  exists ids, ents, hs'. split; [done|]. assert (ids = [1; 2]) as Ei by (vm_compute in Eids; by injection Eids as <-). split; [done|].
  destruct (standalone_incomplete (Some snap) es [add_learner 1] 1 "a:1" committed ids ents hs' (({[2]}, {[4]}) : RaftSets) ({[2]}, {[1; 4]}))
    as (ccs' & Hch & Hl & Hv).
  - constructor; [done|done|by vm_compute|by apply (bool_decide_unpack _)|constructor; [apply unmarshal_marshal|constructor]| |done|done|done|done|by rewrite Ei].
    apply te_applied. assert (apply_change (add_learner 1) (({[2]}, {[4]}) : RaftSets) = ({[2]}, {[1; 4]})) as -> by (by vm_compute). constructor.
  - exists ccs'. split_and!; [done|apply Hl|apply Hv].
    + by left.
    + done.
    + by repeat constructor.
    + by vm_compute.
    + rewrite Ei. by left.
Defined.
End StandaloneExamples.

Module RestartExamples.
Import PlainRaft NodeExamples ClusterExamples Codes ListStore LsmtExamples.

(** The log over the store, as [PebbleWalManager] has it. *)
Abbreviation kp := (newKeyPrefix 0).
Definition db_meth {B} (f : list item → result B) : meth (list item) B := fun d => Ret (d, f d).
#[export] Instance lsmt_manager : WalManager (list item) ReplayResult (EntryStorage EntryMetadata) PebbleWal := {|
  wm_HasExistingWals := db_meth (HasExistingWals kp);
  wm_FindSnapshot := db_meth (FindSnapshot kp);
  wm_CreateWal cid pid := fun d => Ret (CreateWal kp (be64 cid ++ be64 pid) d);
  wm_ReplayWal snap del := fun d => r ← ReplayWal kp snap del d; Ret (d, r);
  rr_HardState := rp_hardState;
  rr_ConfChangeEntries r := filter (λ e, e_type e = EntryConfChange) (rp_entries r);
  wl_SetUnsafeNoFsync := SetUnsafeNoFsync;
  wl_Save := Save;
  wl_Sync := Meth.ret tt;
  es_InitialState es := Ok (InitialState es);
  es_SetHardState st := fun es => Ret (SetHardState es st, Ok tt);
  es_Append ents := fun es => '(es, err) ← AppendEntryIndex tt es (index_entry <$> ents); Ret (es, match err with Some e => Err e | None => Ok tt end)
|}.

(** Snapshots kept in memory: the bytes of the cluster and of the sessions, and the state
    machine. *)
Record Shot := { sh_snap : Snapshot; sh_cluster : list byte; sh_session : list byte; sh_machine : list (list byte) }.
#[export] Instance memory_snapshots : SnapshotManager (list Shot) Shot := {|
  sn_ScanInstalledSnapshots _ := Meth.ret tt;
  sn_LoadLastValidSnapshot walSnaps := fun l =>
    Ret (l, Ok (sh_snap <$> last (filter (λ s, Exists (λ w, ws_index w = snap_index (sh_snap s)) walSnaps) l)));
  sn_CreateInstalledSnapshotReader i _ := fun l =>
    Ret (l, match list_find (λ s, snap_index (sh_snap s) = i) l with Some (_, s) => Ok s | None => Err (Errorf "not found") end);
  rd_Cluster s := Ok (sh_cluster s); rd_Session s := Ok (sh_session s)
|}.
#[export] Instance log_machine_boot : MachineBoot (list (list byte)) Shot := {|
  sm_isDisk := false; sm_isConcurrent := false; sm_isSession := false; sm_Open m := (m, (0, true));
  sm_RestoreFromSnapshot s := fun _ => Ret (sh_machine s, Ok tt)
|}.
#[export] Instance noop_boot : SessionsBoot NoOpManager.NoOpManager := {|
  ss_SetResponseSerializer := Meth.ret tt;
  ss_Restore bytes := fun m => match NoOpManager.Restore m bytes with Ret (_, Ok m) => Ret (m, Ok tt) | Ret (_, Err e) => Ret (m, Err e) | Panic p => Panic p end
|}.
#[export] Instance cluster_boot : ClusterBoot := fun bytes c =>
  match Cluster.Restore (Z.to_nat 8192) (c, bytes) with Ret ((c, _), r) => Ret (c, r) | Panic p => Panic p end.
#[export] Instance calls_boot : TransportBoot (list trans_call) := {|
  tr_SetupTransportConfig _ _ := Meth.ret tt; tr_AddPeer i a l := l ++ [AddPeer 0 i a];
  tr_client _ := Err (Errorf "no client"); tr_deadline _ := 0%nat
|}.
(** Raft starts with the configuration of its storage. *)
#[export] Instance sets_starter : NodeStarter RaftSets (EntryStorage EntryMetadata) := {|
  rn_Start _ peers := Ok (list_to_set (rp_ID <$> peers), ∅);
  rn_Restart cfg := let cs := (InitialState (rc_Storage cfg)).2 in Ok (list_to_set (cs_voters cs), list_to_set (cs_learners cs))
|}.

(** A cluster of one node that has applied two entries. *)
Definition lone : Cluster :=
  {| clusterID := 7; groupID := 0; localPeerID := 1;
     store := {| Peers := Some {[1 := peer 1 "a:1" false]}; RemovedIds := Some {[9 := true]} |} |}.
Definition shot : Snapshot := snap_at 2 1.
Definition applied : Node nat NoOpManager.NoOpManager (list (list byte)) RaftSets :=
  {| sessions := NoOpManager.noOpManager; cluster := lone; machine := [[Byte.x41]]; raft := ({[1]}, ∅);
     status := {| appliedIndex := 2; appliedTerm := 1; st_confState := sm_conf (snap_meta shot) |};
     ticks := 5; commands := [2]; replies := [(3, noResult)]; trans := []; events := []; resets := 1; completed := [2] |}.
Definition on_disk : list item :=
  Eval vm_compute in
    match CreateWal kp [] ([] : list item) with
    | (d, Ok (_, w)) => match run_ops [OSave (hard 1 3) [normal 1 1; normal 1 2; normal 1 3]; OSnapshot shot] (d, w) with Ret ((d, _), _) => d | _ => [] end
    | _ => []
    end.
Definition noop_bytes : list byte :=
  Eval vm_compute in match NoOpManager.Snapshot NoOpManager.noOpManager ([] : list byte) with Ret (b, _) => b | Panic _ => [] end.
Definition taken : Shot :=
  {| sh_snap := shot; sh_cluster := snapshot_bytes lone; sh_session := noop_bytes; sh_machine := machine applied |}.
Definition off : Boot (list item) (list Shot) (list (list byte)) NoOpManager.NoOpManager (list trans_call) :=
  {| bt_wals := on_disk; bt_snaps := [taken]; bt_machine := []; bt_bsm := memory; bt_cluster := NewCluster;
     bt_sessions := NoOpManager.noOpManager; bt_trans := []; bt_status := newStatus |}.
Definition cfg : BabuzaConfig := DefaultBabuzaConfig 7 1 "a:1".

Lemma taken_of : snapshot_of taken applied.
Proof.
  constructor; [exists (sh_cluster taken)|exists noop_bytes|done]; (split; [done|]).
  - intros [a g l st] E. simpl in E. subst l. by vm_compute.
  - intros []. exists NoOpManager.noOpManager. by vm_compute.
Qed.

Lemma restart_resumes_witness :
  ∃ b' storage, restartNode cfg off = Ret (b', Ok (raft applied, storage)) ∧ bt_trans b' = [AddPeer 0 1 "a:1"] ∧
    ∀ clock1 clock2 sts, Forall (beyond 2) sts →
      go_rel (node_same (past_of applied)) (Exactly.run clock1 (bt_bsm b') sts (node_of b' (raft applied))) (Exactly.run clock2 memory sts applied).
Proof.
  destruct (ReplayWal kp (Some shot) false on_disk) as [[[[rr es] wl]|]|] eqn:E; [|by vm_compute in E..].
  destruct (restart_resumes cfg off applied shot taken es (hard 1 3)) as (b' & storage & Hr & _ & _ & Ht & Hrun).
  - constructor; [done| |apply taken_of| |done|done|done|].
    + exists [empty_walsnap; walsnap_of shot], on_disk, [taken]. split_and!; [by vm_compute|by vm_compute| |by vm_compute].
      exists on_disk, rr, wl. unfold wm_ReplayWal, lsmt_manager. by rewrite E.
    + vm_compute in E. injection E as _ <- _. by eexists.
    + vm_compute in E. injection E as _ <- _. by vm_compute.
  - exists b', storage. split_and!; [done| |done]. rewrite Ht. by vm_compute.
Defined.
End RestartExamples.
