(* ===== verification/LoopExamples.v ===== *)
(** * A node that takes snapshots: examples

    Instances of the interfaces of [RaftStorage.v] and [StateMachineLoop.v], with the log in
    a key-value store and its entry storage, and the theorems of [SnapshotPoint.v] and
    [SnapshotRace.v] applied to a node of one member. *)

From S2P Require Import Prelude Coded Streams Session NoOpManager Cluster Apply Exactly Replicas Membership ApplyExamples EntryCache EntryStorage WalReplay LsmtKeys LsmtWal LsmtLog LsmtRuns LsmtExamples PeersConfig Raftpb Bootstrap Restart BootExamples RaftStorage StateMachineLoop SnapshotPoint SnapshotRace.

Module LoopExamples.
Import PlainRaft NodeExamples ClusterExamples Codes ListStore LsmtExamples RestartExamples.

(** The log and its entry storage. *)
#[export] Instance pebble_raft_wal : RaftWal (list item * PebbleWal) := {|
  wal_Save := Save; wal_SaveSnapshot := SaveSnapshot; wal_Sync := Meth.ret tt;
  wal_Purge snap := fun '(d, w) => Ret ((d, Purge snap w), Ok tt)
|}.
Definition no_error {S} (r : S * option error) : go (S * result unit) := Ret (r.1, match r.2 with Some e => Err e | None => Ok tt end).
#[export] Instance entry_storage : RaftEntries (EntryStorage EntryMetadata) := {|
  ent_CreateSnapshot i cs := fun es => CreateSnapshot tt es i (Some cs) [];
  ent_Compact i := fun es => r ← Compact tt es i; no_error r;
  ent_ApplySnapshot snap := fun es => no_error (ApplySnapshot tt es snap);
  ent_Append ents := fun es => r ← AppendEntryIndex tt es (index_entry <$> ents); no_error r
|}.
#[export] Instance entry_storage_laws : RaftEntriesLaws (EntryStorage EntryMetadata).
Proof.
  refine {| ent_snapIndex es := sm_index (snap_meta (st_snapshot es));
            ent_term es i := match st_ents es !! Z.to_nat (u64 (i - ei_index (dummy tt es))) with Some e => ei_term e | None => 0 end |}.
  - intros i cs es es' snap. unfold ent_CreateSnapshot, entry_storage, CreateSnapshot. case_decide; [done|]. case_decide; [done|].
    destruct (st_ents es !! _) as [e|]; [|done]. intros [= <- <-]. split_and!; [done|cbn; lia|done].
  - intros i es es' r. unfold ent_Compact, entry_storage, Compact. case_decide; [by intros [= <- _]|].
    destruct (st_ents es !! _) as [e|]; [|done]. by intros [= <- _].
Defined.

(** Snapshots kept in memory: a writer is a draft of one. *)
Record Draft := { dr_files : snapshot_file → option (list byte); dr_machine : option (list (list byte)) }.
Definition draft_file (f : snapshot_file) (x : option (list byte)) (w : Draft) : Draft :=
  {| dr_files g := match f, g with ClusterFile, ClusterFile | SessionFile, SessionFile => x | _, _ => dr_files w g end; dr_machine := dr_machine w |}.
Definition finished (w : Draft) (snap : Snapshot) : option Shot :=
  c ← dr_files w ClusterFile; d ← dr_files w SessionFile; m ← dr_machine w;
  Some {| sh_snap := snap; sh_cluster := c; sh_session := d; sh_machine := m |}.
#[export] Instance memory_writing : SnapshotWriting (list Shot) Draft Snapshot := {|
  sn_CreateAtomicSnapshotWriter t i := Meth.ret {| dr_files _ := None; dr_machine := None |};
  sw_Create f := fun '(l, w) => Ret ((l, draft_file f (Some []) w), Ok tt);
  sw_Write f data := fun '(l, w) => Ret ((l, draft_file f ((.++ data) <$> dr_files w f) w), Ok tt);
  sw_Close f := Meth.ret tt;
  sw_Commit snap := fun '(l, w) =>
    match finished w snap with Some s => Ret ((s :: l, w), Ok snap) | None => Ret ((l, w), Err (Errorf "not finished")) end;
  md_snapshot snap := snap;
  sn_Purge snap := fun l => Ret (filter (λ s, snap_index snap <= snap_index (sh_snap s)) l, Ok tt)
|}.
#[export] Instance draft_machine : MachineSnapshots (list (list byte)) (list Shot) Draft unit := {|
  sm_concurrent := false; sm_PrepareSnapshotContext := Meth.ret tt; sm_ReleaseSnapshotContext _ := Meth.ret tt;
  sm_SaveSnapshot _ := fun '(m, (l, w)) => Ret ((m, (l, {| dr_files := dr_files w; dr_machine := Some m |})), Ok tt)
|}.

Lemma found_filter P `{!∀ s, Decision (P s)} (l : list Shot) i s :
  (∀ s, snap_index (sh_snap s) = i → P s) →
  snd <$> list_find (λ s, snap_index (sh_snap s) = i) l = Some s → snd <$> list_find (λ s, snap_index (sh_snap s) = i) (filter P l) = Some s.
Proof.
  intros HP. induction l as [|x l IH]; simpl; [done|]. rewrite filter_cons. case_decide as Hx.
  - rewrite decide_True by auto. simpl. by rewrite decide_True.
  - intros E. destruct (list_find _ l) as [[j y]|]; [|done]. simpl in *. injection E as ->. destruct (decide (P x)); [|by apply IH].
    simpl. rewrite decide_False by done. specialize (IH eq_refl). by destruct (list_find _ (filter P l)) as [[? ?]|]; simplify_eq/=.
Qed.

#[export] Instance memory_writing_laws : WritingLaws (list Shot) Draft Snapshot (list (list byte)) unit Shot.
Proof.
  refine {| sw_content _ w := dr_files w; sw_image _ w := dr_machine w |}.
  - intros t i sn sn' sw [= <- <-]. done.
  - intros f sn sw sn' sw' [= <- <-]. by destruct f; (split; [done|]); intros [].
  - intros f data sn sw sn' sw' [= <- <-]. by destruct f; (split; [done|]); intros [].
  - intros f sn sw sn' sw' [= <- <-]. done.
  - intros m sn sw m' sn' sw' [= <- <- <-]. done.
  - intros snap sn sw sn' sw' md c d m E Hc Hd Hm. unfold sw_Commit, memory_writing, finished in E. rewrite Hc, Hd, Hm in E. cbn in E.
    injection E as <- <- <-. split; [done|]. eexists. unfold sn_CreateInstalledSnapshotReader, memory_snapshots. cbn. by rewrite decide_True.
  - intros snap sn sn' c d m [= <-] (rd & Hr & Hrest). exists rd. split; [|exact Hrest]. unfold sn_CreateInstalledSnapshotReader, memory_snapshots in *.
    destruct (list_find _ sn) as [[j s]|] eqn:E; [|done]. injection Hr as ->.
    assert (snd <$> list_find (λ s, snap_index (sh_snap s) = snap_index snap) (filter (λ s, snap_index snap <= snap_index (sh_snap s)) sn) = Some rd) as Hf
      by (apply found_filter; [by intros ? -> |by rewrite E]).
    destruct (list_find _ (filter _ sn)) as [[? ?]|]; [|done]. by injection Hf as ->.
Defined.

#[export] Instance noop_sessions_snapshot : SessionsSnapshot NoOpManager.NoOpManager := fun W HW '(m, w) =>
  '(w, r) ← NoOpManager.Snapshot m w; Ret ((m, w), r).
#[export] Instance noop_sessions_laws : SessionsSnapshotLaws (response nat) NoOpManager.NoOpManager.
Proof.
  intros W HW P m w m' w' b Hw Hb E. unfold ss_Snapshot, noop_sessions_snapshot, NoOpManager.Snapshot, FileWriteUint64, write_bytes in E.
  destruct (w_write w _) as [[w1 [e|]]|] eqn:Ew; simplify_eq/=. split; [by destruct m, m'|]. exists noop_bytes. split; [exact (Hw _ _ _ _ Hb Ew)|].
  intros []. destruct m. exists NoOpManager.noOpManager. by vm_compute.
Defined.
#[export] Instance calls_reset : TransportReset (list trans_call) := fun _ => [].

(** The node of [RestartExamples] with its log, before its first snapshot. *)
Definition opened : list item * PebbleWal * EntryStorage EntryMetadata :=
  Eval vm_compute in
    match CreateWal kp [] ([] : list item) with
    | (d, Ok (_, w)) =>
        match run_ops [OSave (hard 1 3) [LsmtExamples.normal 1 1; LsmtExamples.normal 1 2; LsmtExamples.normal 1 3]] (d, w) with
        | Ret ((d, w), _) => match ReplayWal kp None false d with Ret (Ok (_, es, w)) => (d, w, es) | _ => (d, w, NewEntryStorage tt) end
        | _ => (d, w, NewEntryStorage tt)
        end
    | (d, _) => (d, NewPebbleWal None kp, NewEntryStorage tt)
    end.
Definition at_phase (p : phase Draft unit) (snaps : list Shot) (es : EntryStorage EntryMetadata)
    : Loop nat NoOpManager.NoOpManager (list (list byte)) RaftSets (list Shot) (list item * PebbleWal) (EntryStorage EntryMetadata) Draft unit Snapshot (list trans_call) :=
  {| lp_node := applied; lp_store := {| st_snaps := snaps; st_wal := opened.1; st_entries := es |}; lp_trans := []; lp_phase := p;
     lp_bsm := memory; lp_snapIndex := 0; lp_inflight := 0; lp_running := []; lp_results := [] |}.
Definition before_snapshot := at_phase (Due None) [] opened.2.

Lemma lone_restorable : restorable cfg lone.
Proof. split_and!; [done..|]. intros [a g l st] E. simpl in E. subst l. by vm_compute. Qed.

(** Starting again with the snapshots that are left. *)
Definition boot_with (snaps : list Shot) : Boot (list item) (list Shot) (list (list byte)) NoOpManager.NoOpManager (list trans_call) :=
  {| bt_wals := on_disk; bt_snaps := snaps; bt_machine := []; bt_bsm := memory; bt_cluster := NewCluster;
     bt_sessions := NoOpManager.noOpManager; bt_trans := []; bt_status := newStatus |}.

Lemma found_again snaps es :
  (∃ rr wl, ReplayWal kp (Some shot) false on_disk = Ret (Ok (rr, es, wl))) →
  sn_LoadLastValidSnapshot [empty_walsnap; walsnap_of shot] snaps = Ret (snaps, Ok (Some shot)) →
  recovers cfg (boot_with snaps) shot es (hard 1 3) (({[1]}, ∅) : RaftSets).
Proof.
  intros (rr & wl & E) Hl. constructor; [done|done| | |].
  - exists [empty_walsnap; walsnap_of shot], on_disk. split_and!; [by vm_compute|done|]. exists on_disk, rr, wl. unfold wm_ReplayWal, lsmt_manager. by rewrite E.
  - vm_compute in E. injection E as _ <- _. by eexists.
  - vm_compute in E. injection E as _ <- _. by vm_compute.
Qed.

Lemma snapshot_run : ∃ l', execs still 2 [EvBegin; EvCluster; EvSession] before_snapshot = Some (Ret l') ∧
  sn_LoadLastValidSnapshot [empty_walsnap; walsnap_of shot] (snaps_of l') = Ret (snaps_of l', Ok (Some shot)).
Proof. eexists. split; [vm_compute; reflexivity|]. by vm_compute. Qed.

Lemma snapshot_point_restarts_witness :
  ∃ l' b' storage, execs still 2 [EvBegin; EvCluster; EvSession] before_snapshot = Some (Ret l') ∧
    restartNode cfg (boot_with (snaps_of l')) = Ret (b', Ok (raft applied, storage)) ∧
    ∀ clock1 clock2 sts, Forall (beyond 2) sts →
      go_rel (node_same (past_of applied)) (Exactly.run clock1 (bt_bsm b') sts (node_of b' (raft applied))) (Exactly.run clock2 memory sts applied).
Proof.
  destruct snapshot_run as (l' & El & Hl).
  destruct (ReplayWal kp (Some shot) false on_disk) as [[[[rr es] wl]|]|] eqn:E; [|by vm_compute in E..].
  destruct (snapshot_point_restarts still 2 None before_snapshot l' cfg ltac:(done) ltac:(done) El lone_restorable (boot_with (snaps_of l')) shot es (hard 1 3))
    as (b' & storage & Hr & _ & Hrun); [reflexivity|reflexivity| |].
  - apply found_again; [exists rr, wl; exact E|exact Hl].
  - exists l', b', storage. split; [exact El|]. split; [exact Hr|exact Hrun].
Defined.

(** Member 4 is added between the steps of the snapshot. *)
Definition joining : Entry := NodeExamples.conf_entry 3 0.
Definition joined : Node nat NoOpManager.NoOpManager (list (list byte)) RaftSets :=
  Eval vm_compute in
    match processConfChange (NodeExamples.add_change 0) (add_request 0) (tick applied) with
    | Ret (n, (Some cs, _, _)) =>
        SendAppliedResult 5 {| LogIndex := 3; ar_Response := Some (ConfStateResponse (Some cs)); ar_Error := None |}
          (set_status {| appliedIndex := 2; appliedTerm := 1; st_confState := cs |} n)
    | _ => applied
    end.
Lemma joining_parsed : parseConfChangeEntry joining = Ok (NodeExamples.add_change 0, add_request 0).
Proof. unfold parseConfChangeEntry, joining, NodeExamples.conf_entry. cbn [e_data]. rewrite unmarshal_marshal. cbn [cc_Context NodeExamples.add_change]. rewrite unmarshal_marshal. done. Qed.
Lemma joining_applied : run_step still memory (Conf joining) applied = Ret joined.
Proof. unfold run_step, confChangeEntry. rewrite decide_True by done. unfold ApplyConfChangeEntry. rewrite joining_parsed. by vm_compute. Qed.
Definition race_chosen := put_node joined (put_phase (Chosen None 1 2 (sm_conf (snap_meta shot))) before_snapshot).
Lemma race_run : ∃ l', execs still 2 [EvCluster; EvSession] race_chosen = Some (Ret l') ∧ lp_node l' = joined ∧
  sn_LoadLastValidSnapshot [empty_walsnap; walsnap_of shot] (snaps_of l') = Ret (snaps_of l', Ok (Some shot)).
Proof. eexists. split; [vm_compute; reflexivity|]. split; by vm_compute. Qed.

Lemma snapshot_race_splits_witness :
  ∃ l' b' storage, execs still 2 [EvBegin; EvConf joining; EvCluster; EvSession] before_snapshot = Some (Ret l') ∧
    restartNode cfg (boot_with (snaps_of l')) = Ret (b', Ok (({[1]}, ∅), storage)) ∧
    with_role false (bt_cluster b') 4 ∧ 4 ∉ ({[1]} : gset Z).
Proof.
  assert (execs still 2 [EvBegin; EvConf joining; EvCluster; EvSession] before_snapshot = execs still 2 [EvCluster; EvSession] race_chosen) as Hex.
  { erewrite execs_step by reflexivity. erewrite execs_step; [reflexivity|]. unfold exec. cbn [lp_bsm put_phase lp_node before_snapshot at_phase].
    by rewrite joining_applied. }
  destruct race_run as (l' & El & Hn & Hl). pose proof (eq_trans Hex El) as Hall. clear Hex El.
  destruct (ReplayWal kp (Some shot) false on_disk) as [[[[rr es] wl]|]|] eqn:E; [|by vm_compute in E..].
  destruct (snapshot_race_splits still 2 None before_snapshot l' joining (NodeExamples.add_change 0) (add_request 0) cfg)
    with (b := boot_with (snaps_of l')) (snap := shot) (es := es) (hs := hard 1 3) (rn := (({[1]}, ∅) : RaftSets)) as (b' & storage & Hr & [Hrole Hv] & _).
  - reflexivity.
  - reflexivity.
  - exact Hall.
  - exact joining_parsed.
  - reflexivity.
  - reflexivity.
  - apply (bool_decide_unpack _). by vm_compute.
  - rewrite Hn. eexists. split; [by vm_compute|reflexivity].
  - rewrite Hn. split_and!; [done..|]. intros [a g l st] Eq. simpl in Eq. subst l. by vm_compute.
  - reflexivity.
  - reflexivity.
  - apply found_again; [exists rr, wl; exact E|exact Hl].
  - by vm_compute.
  - exists l', b', storage. split; [exact Hall|]. split; [exact Hr|]. split; [exact Hrole|exact Hv].
Defined.

(** The second request for a snapshot of the same index. *)
Definition asked_again := at_phase Idle [] (with_snapshot opened.2 shot).
Lemma snapshots_collide_witness : ∃ msg, execs still 2 [EvManual 0; EvBegin; EvCluster; EvSession] asked_again = Some (Panic msg).
Proof. destruct (snapshots_collide still 2 asked_again) as [Hmanual _]. apply Hmanual; [reflexivity|reflexivity|by vm_compute]. Defined.

(** The third entry after index 0 is due for a snapshot. *)
Definition third : list event := [EvBatch emptySnapshot [LsmtExamples.normal 1 3]; EvEntry; EvApplied; EvBegin; EvCluster; EvSession].
Lemma third_run : ∃ l', execs still 3 third (at_phase Idle [] opened.2) = Some (Ret l') ∧ lp_phase l' = Idle ∧ lp_snapIndex l' = 3.
Proof. eexists. split; [vm_compute; reflexivity|]. by vm_compute. Qed.
Lemma snapshot_gap_bounded_witness :
  ∃ l', execs still 3 third (at_phase Idle [] opened.2) = Some (Ret l') ∧ u64 (appliedIndex (status (lp_node l')) - lp_snapIndex l') < 3.
Proof.
  destruct third_run as (l' & E & Hp & _). exists l'. split; [exact E|].
  apply (snapshot_gap_bounded still 3 third (at_phase Idle [] opened.2) l'); [done|reflexivity|by vm_compute|exact E|exact Hp].
Defined.
End LoopExamples.
