(* ===== verification/GroupSnapshot.v ===== *)
(** * The snapshot of a leader in a store of many groups:
    [raft/experimental/replica_raft_apply.go]

    A replica installs the snapshot of its leader as a node of its own does
    ([StateMachineLoop.v]); the transport it tells about the members is that of the whole store,
    whose peers are those of all groups ([PeerManager.v]). *)

From S2P Require Import Prelude Coded Streams Session NoOpManager Cluster Apply Exactly ApplyExamples EntryCache EntryStorage WalReplay LsmtKeys LsmtWal LsmtLog LsmtRuns LsmtExamples PeersConfig Raftpb Bootstrap Restart BootExamples RaftStorage StateMachineLoop PeerManager LoopExamples.

(** ** The transport of a store, seen from one group *)

(** [MultiRaftTransport]: the peers, and what is behind them. *)
Record StoreTransport (TR : Type) := { tp_peers : PeerManager; tp_rest : TR }.
Arguments tp_peers {TR}. Arguments tp_rest {TR}.

Section transport.
Context {TR : Type} `{TransportBoot TR} (groupID : Z).

Definition transport_AddPeer (peerID : Z) (peerAddress : string) (t : StoreTransport TR) : StoreTransport TR :=
  match AddPeer groupID peerID peerAddress (tp_peers t) with Ret (m, _) => {| tp_peers := m; tp_rest := tp_rest t |} | Panic _ => t end.
Definition transport_RemovePeers (t : StoreTransport TR) : StoreTransport TR := {| tp_peers := RemoveAllPeers (tp_peers t); tp_rest := tp_rest t |}.

Definition group_boot : TransportBoot (StoreTransport TR) := {|
  tr_SetupTransportConfig id a := fun t => '(x, r) ← tr_SetupTransportConfig id a (tp_rest t); Ret ({| tp_peers := tp_peers t; tp_rest := x |}, r);
  tr_AddPeer := transport_AddPeer;
  tr_client t := tr_client (tp_rest t); tr_deadline t := tr_deadline (tp_rest t)
|}.
Definition group_reset : TransportReset (StoreTransport TR) := transport_RemovePeers.
End transport.

(** ** Peers that were added one by one *)

Section added.
Context (g : Z).
Implicit Types m : PeerManager.

(** Every member has a peer, and all of them belong to the group. *)
Definition only_group m : Prop := ∀ g' p a, addresses m !! (g', p) = Some a → g' = g ∧ is_Some (peers m !! a).

Lemma added_group p a m m' r : only_group m → AddPeer g p a m = Ret (m', r) → only_group m' ∧
  is_Some (addresses m' !! (g, p)) ∧ (∀ q, is_Some (addresses m !! (g, q)) → is_Some (addresses m' !! (g, q))).
Proof.
  intros Hm. unfold AddPeer. destruct (addresses m !! (g, p)) as [b|] eqn:E; intros [= <- _]; [by rewrite E|].
  assert (addresses (retainAddressLocked a (set_address (g, p) a m)) = <[(g, p) := a]> (addresses m)) as Ha
    by (unfold retainAddressLocked; simpl; by destruct (peers m !! a)).
  rewrite Ha. split; [|split; [by rewrite lookup_insert_eq|]].
  - intros g' q b. rewrite Ha, lookup_insert_Some. intros [[[= <- <-] <-]|[_ Hq]].
    + split; [done|]. unfold retainAddressLocked. simpl. destruct (peers m !! a) eqn:Ep; simpl; [by rewrite Ep|by rewrite lookup_insert_eq].
    + destruct (Hm _ _ _ Hq) as [? [x Hx]]. split; [done|]. unfold retainAddressLocked. simpl. destruct (peers m !! a) eqn:Ep; simpl; [by rewrite Hx|].
      rewrite lookup_insert_ne; [by rewrite Hx|]. congruence.
  - intros q Hq. destruct (decide (q = p)) as [->|]; [by rewrite lookup_insert_eq|]. rewrite lookup_insert_ne; [done|]. congruence.
Qed.
End added.

Section snapshot.
Context {A M SM RN SN RD WL ES SW SC MD TR : Type}.
Context `{RaftLib, Message NormalRequest, Message ConfChange, Message ConfChangeRequest, StoreCodec}.
Context `{SessionManager (response A) M, StateMachine A SM, RaftNode RN}.
Context `{RaftWal WL, RaftEntries ES, SnapshotWriting SN SW MD, MachineSnapshots SM SN SW SC, SessionsSnapshot M}.
Context `{SnapshotManager SN RD, MachineBoot SM RD, SessionsBoot M, ClusterBoot, TransportBoot TR}.
Context (groupID : Z).
Abbreviation replica_loop := (Loop A M SM RN SN WL ES SW SC MD (StoreTransport TR)).

(** [applySnapshot] of a replica. *)
Definition replica_applySnapshot (snap : Snapshot) (l : replica_loop) : go replica_loop :=
  let boot : TransportBoot (StoreTransport TR) := group_boot groupID in let reset : TransportReset (StoreTransport TR) := group_reset in
  applySnapshot snap l.

Lemma add_all (ps : list Peer) (t : StoreTransport TR) : only_group groupID (tp_peers t) →
  let t' := foldl (fun t p => transport_AddPeer groupID (PeerID (RaftPeerAttr p)) (RaftListenAddr (RaftPeerAttr p)) t) t ps in
  only_group groupID (tp_peers t') ∧ (∀ q, is_Some (addresses (tp_peers t) !! (groupID, q)) → is_Some (addresses (tp_peers t') !! (groupID, q))) ∧
  (∀ p, p ∈ ps → is_Some (addresses (tp_peers t') !! (groupID, PeerID (RaftPeerAttr p)))).
Proof.
  revert t. induction ps as [|p ps IH]; intros t Ht; simpl; [split; [done|]; split; [done|]; by intros p ?%elem_of_nil|].
  set (t1 := transport_AddPeer groupID (PeerID (RaftPeerAttr p)) (RaftListenAddr (RaftPeerAttr p)) t).
  assert (∃ r, AddPeer groupID (PeerID (RaftPeerAttr p)) (RaftListenAddr (RaftPeerAttr p)) (tp_peers t) = Ret (tp_peers t1, r)) as [r Hr].
  { unfold t1, transport_AddPeer, AddPeer. destruct (addresses (tp_peers t) !! _); simpl; eexists; reflexivity. }
  destruct (added_group _ _ _ _ _ _ Ht Hr) as (Ht1 & Hp & Hold). destruct (IH t1 Ht1) as (Ht' & Hold' & Hin).
  split; [done|]. split; [intros q Hq; by apply Hold', Hold|]. intros q. rewrite elem_of_cons. intros [->|Hq]; [by apply Hold'|by apply Hin].
Qed.

(** C37: a replica that installs a snapshot drops the peers of every other group.  Afterwards the
    members of its own group, other than itself, have a peer; no member of another group of the
    store has one, so that nothing the other groups send goes anywhere. *)
Theorem snapshot_cuts_other_groups snap (l l' : replica_loop) : IsEmptySnap snap = false → replica_applySnapshot snap l = Ret l' →
  let c := cluster (lp_node l') in
  (∀ p, p ∈ Peers_ c → PeerID (RaftPeerAttr p) ≠ localPeerID c → ∃ h, GetPeer groupID (PeerID (RaftPeerAttr p)) (tp_peers (lp_trans l')) = Ok h) ∧
  (∀ g p, g ≠ groupID → GetPeer g p (tp_peers (lp_trans l')) = Err err_peer_not_found).
Proof.
  intros He. unfold replica_applySnapshot, applySnapshot. rewrite He. case_decide; [done|].
  destruct (RestoreFromSnapshot _ _ _ l) as [[l1 [u|e]]|]; [|done..]. cbn [mbind go_bind]. intros [= <-]. set (l2 := SetSnapshotIndex _ _). cbv zeta.
  set (others := filter (λ p, PeerID (RaftPeerAttr p) ≠ localPeerID (cluster (lp_node l1))) (Peers_ (cluster (lp_node l1)))).
  assert (cluster (lp_node l2) = cluster (lp_node l1)) as -> by reflexivity.
  assert (lp_trans l2 = foldl (fun t p => transport_AddPeer groupID (PeerID (RaftPeerAttr p)) (RaftListenAddr (RaftPeerAttr p)) t)
    (transport_RemovePeers (lp_trans l1)) others) as -> by reflexivity.
  destruct (add_all others (transport_RemovePeers (lp_trans l1))) as (Hg & _ & Hin).
  { intros g p a. simpl. by rewrite lookup_empty. }
  split.
  - intros p Hp Hid. destruct (Hin p) as [a Ha]; [by apply list_elem_of_filter|]. destruct (Hg _ _ _ Ha) as [_ [h Hh]].
    exists h. unfold GetPeer. by rewrite Ha, Hh.
  - intros g p Hne. unfold GetPeer. destruct (addresses _ !! (g, p)) as [a|] eqn:Ea; [|done]. by destruct (Hg _ _ _ Ea).
Qed.
End snapshot.

(** ** An example *)

Module GroupExamples.
Import PlainRaft NodeExamples ClusterExamples Codes ListStore LsmtExamples RestartExamples LoopExamples.

(** Groups 3 and 4 have a member at [b:1]; the replica of group 3 is behind and gets a snapshot. *)
Definition pair : Cluster :=
  {| clusterID := 7; groupID := 3; localPeerID := 1;
     store := {| Peers := Some {[1 := peer 1 "a:1" false; 2 := peer 2 "b:1" false]}; RemovedIds := Some {[9 := true]} |} |}.
Definition pair_shot : Shot := {| sh_snap := shot; sh_cluster := snapshot_bytes pair; sh_session := noop_bytes; sh_machine := [] |}.
Definition behind : Node nat NoOpManager.NoOpManager (list (list byte)) RaftSets :=
  {| sessions := NoOpManager.noOpManager; cluster := pair; machine := []; raft := ({[1; 2]}, ∅);
     status := {| appliedIndex := 0; appliedTerm := 0; st_confState := emptyConfState |};
     ticks := 0; commands := []; replies := []; trans := []; events := []; resets := 0; completed := [] |}.
Definition shared : PeerManager :=
  match run_peer_ops [PAdd 3 2 "b:1"; PAdd 4 2 "b:1"] NewPeerManager with Ret m => m | Panic _ => NewPeerManager end.
Definition lagging : Loop nat NoOpManager.NoOpManager (list (list byte)) RaftSets (list Shot) (list item * PebbleWal) (EntryStorage EntryMetadata) Draft unit Snapshot
    (StoreTransport (list trans_call)) :=
  {| lp_node := behind; lp_store := {| st_snaps := [pair_shot]; st_wal := opened.1; st_entries := opened.2 |};
     lp_trans := {| tp_peers := shared; tp_rest := [] |}; lp_phase := Idle; lp_bsm := memory; lp_snapIndex := 0; lp_inflight := 0; lp_running := []; lp_results := [] |}.
Definition installed := match replica_applySnapshot 3 shot lagging with Ret l => Some l | Panic _ => None end.
Definition caught_up := default lagging installed.

Lemma installs : (match installed with Some _ => true | None => false end) = true.
Proof. vm_compute. reflexivity. Qed.
Lemma snapshot_cuts_other_groups_witness :
  (match GetPeer 4 2 shared with Ok _ => true | Err _ => false end) = true ∧ replica_applySnapshot 3 shot lagging = Ret caught_up ∧
  GetPeer 4 2 (tp_peers (lp_trans caught_up)) = Err err_peer_not_found.
Proof.
  split; [vm_compute; reflexivity|].
  assert (replica_applySnapshot 3 shot lagging = Ret caught_up) as E.
  { pose proof installs as Hi. unfold caught_up, installed in *. destruct (replica_applySnapshot 3 shot lagging); [done|discriminate]. }
  split; [exact E|]. apply (snapshot_cuts_other_groups 3 shot lagging caught_up); [reflexivity|exact E|discriminate].
Defined.
End GroupExamples.
