(* ===== verification/Proposals.v ===== *)
(** * Proposals and their results: [raft/encode_proposal.go], [raft/result.go],
    [raft/raft_util.go], [pkg/replier/result.go] and the proposing methods of [raft/raft_api.go]

    A caller's request gets an identifier, waits under it in the table of the replier and is
    handed to the etcd node; whoever applies the entry sends the result to the channel that
    waits under the identifier of the entry. *)

From S2P Require Import Prelude Session Cluster LinearRead Apply Raftpb.

(** ** Channels and the table of those who wait *)

Section Replier.
Context {T : Type}.

(** A channel for one value: what was sent and not yet received, and whether it is closed. *)
Record chan := { ch_buf : option T; ch_closed : bool }.
Definition new_chan : chan := {| ch_buf := None; ch_closed := false |}.

(** The channels made so far, by number, and the table. *)
Record Replier := { results : gmap Z nat; chans : list chan }.
Definition NewResult : Replier := {| results := ∅; chans := [] |}.
Implicit Types (r : Replier).

Definition AcquireResultChan (i : Z) : meth Replier nat := fun r =>
  match results r !! i with
  | None => let c := length (chans r) in Ret ({| results := <[i := c]> (results r); chans := chans r ++ [new_chan] |}, Ok c)
  | Some _ => Ret (r, Err (Sentinel "id already exists"))
  end.
Definition CancelResult (i : Z) r : Replier := {| results := delete i (results r); chans := chans r |}.

(** [SendResult]: the channel has room for one value, and is closed after it. *)
Definition SendResult (i : Z) (value : T) r : go Replier :=
  match results r !! i with
  | None => Ret r
  | Some c =>
      match chans r !! c with
      | None => Panic "nil channel"
      | Some ch =>
          if ch_closed ch then Panic "send on closed channel"
          else match ch_buf ch with
               | Some _ => Panic "blocked for ever"
               | None => Ret {| results := delete i (results r); chans := <[c := {| ch_buf := Some value; ch_closed := true |}]> (chans r) |}
               end
      end
  end.
Definition IsWaiting (i : Z) r : bool := bool_decide (is_Some (results r !! i)).

(** A receive, which waits as long as nothing was sent; a closed channel gives [zero]. *)
Definition receive (zero : T) (c : nat) r : option (Replier * T) :=
  ch ← chans r !! c;
  match ch_buf ch with
  | Some v => Some ({| results := results r; chans := <[c := {| ch_buf := None; ch_closed := ch_closed ch |}]> (chans r) |}, v)
  | None => if ch_closed ch then Some (r, zero) else None
  end.
End Replier.
Arguments chan : clear implicits.
Arguments Replier : clear implicits.

(** ** Encoding *)

Record ClientSession := { cs_SessionID : Z; SequenceNumber : Z; LowestSequenceNumberNotYetReplied : Z }.

Definition reply_context (replyID : Z) : RequestContext :=
  {| ReplyID := replyID; SessionID := 0; SequenceNum := 0; LowestSeqNumNotYetReplied := 0 |}.
Definition session_context (replyID : Z) (session : ClientSession) : RequestContext :=
  if decide (cs_SessionID session ≠ 0) then
    {| ReplyID := replyID; SessionID := cs_SessionID session; SequenceNum := SequenceNumber session;
       LowestSeqNumNotYetReplied := LowestSequenceNumberNotYetReplied session |}
  else reply_context replyID.

Definition RegisterSession_request (replyID unregisterSessionID : Z) : NormalRequest :=
  {| Context_ := reply_context replyID;
     Register_ := Some (if decide (unregisterSessionID ≠ 0) then {| Unregister := true; rs_SessionID := unregisterSessionID |}
                        else {| Unregister := false; rs_SessionID := 0 |});
     PubAppService := None; StateMachineLog := [] |}.
Definition PubAppService_request (replyID peerID : Z) (addresses : list string) : NormalRequest :=
  {| Context_ := reply_context replyID; Register_ := None;
     PubAppService := Some {| PubServicePeerID := peerID; pas_Addresses := addresses |}; StateMachineLog := [] |}.
Definition ConfigurationChange_request (replyID : Z) (session : ClientSession) (groupID : Z) (a : RaftPeerAttribute) (promoteLearner : bool) : ConfChangeRequest :=
  {| cr_Context := session_context replyID session; cr_GroupID := groupID; cr_RaftPeerAttr := a; PromoteLearner := promoteLearner |}.
Definition ProposedLog_request (replyID : Z) (session : ClientSession) (log : list byte) : NormalRequest :=
  {| Context_ := session_context replyID session; Register_ := None; PubAppService := None; StateMachineLog := log |}.

Section Encode.
Context `{Message NormalRequest, Message ConfChangeRequest, Message ConfChange}.
Definition EncodeRegisterSessionRequest (replyID unregisterSessionID : Z) : list byte := marshal (RegisterSession_request replyID unregisterSessionID).
Definition EncodePubAppServiceAddressesRequest (replyID peerID : Z) (addresses : list string) : list byte :=
  marshal (PubAppService_request replyID peerID addresses).
Definition EncodeClusterConfigurationChange (replyID : Z) (session : ClientSession) (changeType groupID : Z) (a : RaftPeerAttribute)
    (promoteLearner : bool) : ConfChange :=
  {| cc_Type := changeType; cc_NodeID := PeerID a; cc_Context := marshal (ConfigurationChange_request replyID session groupID a promoteLearner) |}.
Definition EncodeProposedLog (replyID : Z) (session : ClientSession) (log : list byte) : list byte := marshal (ProposedLog_request replyID session log).
End Encode.

(** ** Waiting for a result *)

Section Result.
Context {R : Type}.

(** [proposalResult], or an error known at once; a released one has no channel. *)
Inductive ProposedResult :=
| errorResult (e : option error)
| proposalResult (resultCh : option nat) (ar : ApplyResult R).

Definition NewErrorResult (e : error) : ProposedResult := errorResult (Some e).
Definition NewProposalResult (c : nat) : ProposedResult := proposalResult (Some c) noResult.

(** What the [select] of [WaitForApplyResult] may do. *)
Inductive wait_choice := WaitClosed | WaitDone (e : error) | WaitResult.

Definition ErrNotLeader : error := Sentinel "raft: not leader".
Definition ErrLearnerCanNotVote : error := Sentinel "raft: learner can not become vote".
Definition ErrNotLearner : error := Sentinel "raft: not a learner".
Definition ErrVotingMemberCanNotPromote : error := Sentinel "raft: voting member can not become a leaner".

Definition failed (e : option error) : ApplyResult R := {| LogIndex := 0; ar_Response := None; ar_Error := e |}.

(** [None] when the choice is not possible yet. *)
Definition WaitForApplyResult (choice : wait_choice) (p : ProposedResult) (r : Replier (ApplyResult R))
    : go (option (ProposedResult * Replier (ApplyResult R) * ApplyResult R)) :=
  match p with
  | errorResult e => Ret (Some (p, r, failed e))
  | proposalResult None _ => Panic "proposalResult already released"
  | proposalResult (Some c) ar =>
      if negb (IsEmpty ar) then Ret (Some (p, r, ar))
      else match choice with
           | WaitClosed => Ret (Some (p, r, failed (Some ErrStopped)))
           | WaitDone e => Ret (Some (p, r, failed (Some e)))
           | WaitResult =>
               match receive noResult c r with
               | None => Ret None
               | Some (r, result) => Ret (Some (proposalResult (Some c) result, r, result))
               end
           end
  end.

Definition Release (p : ProposedResult) : ProposedResult :=
  match p with errorResult _ => errorResult None | proposalResult _ _ => proposalResult None noResult end.
End Result.
Arguments ProposedResult : clear implicits.

(** ** The methods of a node *)

Definition raft_ErrProposalDropped : error := Sentinel "raft.ErrProposalDropped".

Section Api.
Context {R : Type} `{Message NormalRequest, Message ConfChangeRequest, Message ConfChange}.

(** What is handed to the etcd node. *)
Inductive offer := OfferData (data : list byte) | OfferChange (cc : ConfChange).

(** With the trace of what was handed over, each with its identifier. *)
Record Proposer := { po_gen : ReplyId; po_replier : Replier (ApplyResult R); po_offered : list (Z * offer) }.
Implicit Types (p : Proposer).

Definition set_replier (r : Replier (ApplyResult R)) p : Proposer := {| po_gen := po_gen p; po_replier := r; po_offered := po_offered p |}.
Definition next_id p : Proposer * Z :=
  let '(g, i) := Next (po_gen p) in ({| po_gen := g; po_replier := po_replier p; po_offered := po_offered p |}, i).

Definition propose_error (err : error) : error :=
  if decide (err = raft_ErrProposalDropped) then ErrNotLeader else if decide (err = raft_ErrStopped) then ErrStopped else err.

(** [propose] and [proposeConfChange], which differ in the method of the etcd node they
    call; [outcome] is the error it returns.  What was handed over may be committed also when
    there was an error. *)
Definition propose (outcome : option error) (replyID : Z) (o : offer) : meth Proposer nat := fun p =>
  match AcquireResultChan replyID (po_replier p) with
  | Panic e => Panic e
  | Ret (r, Err e) => Ret (set_replier r p, Err e)
  | Ret (r, Ok ch) =>
      let p := {| po_gen := po_gen p; po_replier := r; po_offered := po_offered p ++ [(replyID, o)] |} in
      match outcome with
      | Some err => Ret (set_replier (CancelResult replyID (po_replier p)) p, Err (propose_error err))
      | None => Ret (p, Ok ch)
      end
  end.

(** A request with the next identifier. *)
Definition submit (outcome : option error) (o : Z → offer) p : go (Proposer * ProposedResult R) :=
  let '(p, replyID) := next_id p in
  '(p, r) ← propose outcome replyID (o replyID) p;
  Ret (p, match r with Ok ch => NewProposalResult ch | Err e => NewErrorResult e end).

Definition RegisterSession (outcome : option error) : Proposer → go (Proposer * ProposedResult R) :=
  submit outcome (fun i => OfferData (EncodeRegisterSessionRequest i 0)).
Definition UnregisterSession (outcome : option error) (sessionID : Z) : Proposer → go (Proposer * ProposedResult R) :=
  submit outcome (fun i => OfferData (EncodeRegisterSessionRequest i sessionID)).
Definition Propose (outcome : option error) (session : ClientSession) (log : list byte) : Proposer → go (Proposer * ProposedResult R) :=
  submit outcome (fun i => OfferData (EncodeProposedLog i session log)).
(** The proposal of [applicationServiceStart]. *)
Definition PublishAppService (outcome : option error) (peerID : Z) (addresses : list string) : Proposer → go (Proposer * ProposedResult R) :=
  submit outcome (fun i => OfferData (EncodePubAppServiceAddressesRequest i peerID addresses)).

(** Changes of the configuration; [refuse] is [DisableProposalForwarding] on a node that does
    not lead. *)
Section Changes.
Context (outcome : option error) (refuse : bool) (c : Cluster) (session : ClientSession).
Definition change (changeType : Z) (a : RaftPeerAttribute) (promote : bool) : Proposer → go (Proposer * ProposedResult R) :=
  submit outcome (fun i => OfferChange (EncodeClusterConfigurationChange i session changeType (groupID c) a promote)).
Definition AddVotingPeer (a : RaftPeerAttribute) p : go (Proposer * ProposedResult R) :=
  if refuse then Ret (p, NewErrorResult ErrNotLeader)
  else if IsLearner a then Ret (p, NewErrorResult ErrLearnerCanNotVote)
  else change ConfChangeAddNode a false p.
Definition RemovePeer (peerID : Z) p : go (Proposer * ProposedResult R) :=
  if refuse then Ret (p, NewErrorResult ErrNotLeader)
  else change ConfChangeRemoveNode {| PeerID := peerID; RaftListenAddr := ""; IsLearner := false; StoreID := 0 |} false p.
Definition UpdatePeer (a : RaftPeerAttribute) p : go (Proposer * ProposedResult R) :=
  if refuse then Ret (p, NewErrorResult ErrNotLeader) else change ConfChangeUpdateNode a false p.
Definition AddLearner (a : RaftPeerAttribute) p : go (Proposer * ProposedResult R) :=
  if refuse then Ret (p, NewErrorResult ErrNotLeader)
  else if negb (IsLearner a) then Ret (p, NewErrorResult ErrNotLearner)
  else change ConfChangeAddLearnerNode a false p.
(** [learnerReady] is what the progress of the learner says. *)
Definition PromoteLearner (learnerReady : option error) (peerID : Z) p : go (Proposer * ProposedResult R) :=
  match Peer_ peerID c with
  | Err e => Ret (p, NewErrorResult e)
  | Ok pe =>
      if negb (IsLearner (RaftPeerAttr pe)) then Ret (p, NewErrorResult ErrVotingMemberCanNotPromote)
      else match learnerReady with
           | Some e => Ret (p, NewErrorResult e)
           | None => change ConfChangeAddNode {| PeerID := peerID; RaftListenAddr := ""; IsLearner := false; StoreID := 0 |} true p
           end
  end.
End Changes.

(** The reply a loop gives: [SendAppliedResult]. *)
Definition answer_all (l : list (Z * ApplyResult R)) p : go Proposer :=
  r ← foldl (fun r '(i, ar) => r ← r; SendResult i ar r) (Ret (po_replier p)) l;
  Ret (set_replier r p).
End Api.
Arguments Proposer : clear implicits.
