(* ===== verification/StoreRequests.v ===== *)
(** * Requests to a store of many groups: [raft/experimental/store_api.go] and the processing of
    proposals in [replica_raft_processor.go]

    A request gets an identifier and goes into a queue of its group; a worker of the scheduler
    takes it from there to the raft node, which refuses it or has it committed, and whoever
    knows the outcome answers under the identifier.  [Propose] waits under the identifier before the
    request is queued, the other calls after.  Calls, the worker and the answers are
    interleaved; the queues are those of [SwapQueue.v], known by what is proved there. *)

From S2P Require Import Prelude Session Cluster LinearRead Apply ApplyExamples Raftpb Proposals SwapQueue.

(** ** State *)

(** What is asked for: the calls of [Store]; the changes of the configuration are one. *)
Inductive api :=
  | CRegister | CUnregister (sessionID : Z) | CPropose (session : ClientSession) (log : list byte)
  | CChange (session : ClientSession) (changeType : Z) (a : RaftPeerAttribute) (promoteLearner : bool).

Definition proposalQueueSize : nat := 1024.
Definition configChangeQueueSize : nat := 8.

Section requests.
Context {R : Type} `{Message NormalRequest, Message ConfChangeRequest, Message ConfChange}.

(** Where a call is: at its beginning; with a channel and not yet queued; queued and with the
    scheduler to be told; told, without a channel; waiting; and returned. *)
Inductive caller :=
  | Called (c : api) | Acquired (c : api) (id : Z) (ch : nat) | Queued (c : api) (id : Z) (ch : option nat)
  | Told (c : api) (id : Z) | Waiting (c : api) (id : Z) (ch : nat) | Answered (c : api) (id : Z) (ar : ApplyResult R) | Failed (c : api) (e : error).

(** One group of a store.  [inHand] has what the worker took from the queues, [taken] the
    identifiers of what the raft node took, [told] how often the scheduler was told, [owners] for whom the channels
    were made, and [answers] all answers. *)
Record Requests := {
  closed : bool; found : bool; disposed : bool;
  idGenerator : ReplyId; resultReplier : Replier (ApplyResult R);
  proposal : list (Z * offer); configChange : list (Z * offer); inHand : list (Z * offer); taken : list Z;
  told : nat; callers : list caller; owners : list Z; answers : list (Z * ApplyResult R)
}.
Implicit Types (s : Requests).

Definition set_caller (i : nat) (c : caller) s : Requests :=
  {| closed := closed s; found := found s; disposed := disposed s; idGenerator := idGenerator s; resultReplier := resultReplier s; proposal := proposal s;
     configChange := configChange s; inHand := inHand s; taken := taken s; told := told s; callers := <[i := c]> (callers s); owners := owners s; answers := answers s |}.
Definition add_caller (c : api) s : Requests :=
  {| closed := closed s; found := found s; disposed := disposed s; idGenerator := idGenerator s; resultReplier := resultReplier s; proposal := proposal s;
     configChange := configChange s; inHand := inHand s; taken := taken s; told := told s; callers := callers s ++ [Called c]; owners := owners s; answers := answers s |}.
Definition set_ids (g : ReplyId) s : Requests :=
  {| closed := closed s; found := found s; disposed := disposed s; idGenerator := g; resultReplier := resultReplier s; proposal := proposal s;
     configChange := configChange s; inHand := inHand s; taken := taken s; told := told s; callers := callers s; owners := owners s; answers := answers s |}.
Definition set_replies (r : Replier (ApplyResult R)) (own : list Z) (ans : list (Z * ApplyResult R)) s : Requests :=
  {| closed := closed s; found := found s; disposed := disposed s; idGenerator := idGenerator s; resultReplier := r; proposal := proposal s;
     configChange := configChange s; inHand := inHand s; taken := taken s; told := told s; callers := callers s; owners := own; answers := ans |}.
Definition set_work (p c h : list (Z * offer)) (t : list Z) s : Requests :=
  {| closed := closed s; found := found s; disposed := disposed s; idGenerator := idGenerator s; resultReplier := resultReplier s; proposal := p;
     configChange := c; inHand := h; taken := t; told := told s; callers := callers s; owners := owners s; answers := answers s |}.
Definition tell s : Requests :=
  {| closed := closed s; found := found s; disposed := disposed s; idGenerator := idGenerator s; resultReplier := resultReplier s; proposal := proposal s;
     configChange := configChange s; inHand := inHand s; taken := taken s; told := S (told s); callers := callers s; owners := owners s; answers := answers s |}.
(** [Stop], which closes the store and disposes of the queues, and the removal of the group. *)
Definition shut (c f d : bool) s : Requests :=
  {| closed := c; found := f; disposed := d; idGenerator := idGenerator s; resultReplier := resultReplier s; proposal := proposal s;
     configChange := configChange s; inHand := inHand s; taken := taken s; told := told s; callers := callers s; owners := owners s; answers := answers s |}.

(** ** Calls *)

(** The guards of the calls that change the configuration. *)
Definition AddVotingPeer_guard (refuse : bool) (a : RaftPeerAttribute) : option error :=
  if refuse then Some ErrNotLeader else if IsLearner a then Some ErrLearnerCanNotVote else None.
Definition RemovePeer_guard (refuse : bool) : option error := if refuse then Some ErrNotLeader else None.
Definition AddLearner_guard (refuse : bool) (a : RaftPeerAttribute) : option error :=
  if negb (IsLearner a) then Some ErrNotLearner else if refuse then Some ErrNotLeader else None.
Definition PromoteLearner_guard (peer : result Peer) (learnerReady : option error) : option error :=
  match peer with
  | Err e => Some e
  | Ok p => if negb (IsLearner (RaftPeerAttr p)) then Some ErrVotingMemberCanNotPromote else learnerReady
  end.

Definition encode (groupID : Z) (c : api) (id : Z) : offer :=
  match c with
  | CRegister => OfferData (EncodeRegisterSessionRequest id 0)
  | CUnregister sessionID => OfferData (EncodeRegisterSessionRequest id sessionID)
  | CPropose session log => OfferData (EncodeProposedLog id session log)
  | CChange session ty a promote => OfferChange (EncodeClusterConfigurationChange id session ty groupID a promote)
  end.

(** [Put] into the queue a request belongs to. *)
Definition put (c : api) (x : Z * offer) s : result Requests :=
  if disposed s then Err ErrQueueDisposed
  else match c with
  | CChange _ _ _ _ =>
      if decide (length (configChange s) = configChangeQueueSize) then Err ErrBufferFull
      else Ok (set_work (proposal s) (configChange s ++ [x]) (inHand s) (taken s) s)
  | _ =>
      if decide (length (proposal s) = proposalQueueSize) then Err ErrBufferFull
      else Ok (set_work (proposal s ++ [x]) (configChange s) (inHand s) (taken s) s)
  end.

Definition acquire (i : nat) (c : api) (id : Z) (k : nat → caller) s : option Requests :=
  match AcquireResultChan id (resultReplier s) with
  | Panic _ => None
  | Ret (r, Ok ch) => Some (set_caller i (k ch) (set_replies r (owners s ++ [id]) (answers s) s))
  | Ret (_, Err e) => Some (set_caller i (Failed c e) s)
  end.

Context (groupID : Z).
Definition ErrGroupNotFound : error := Errorf "Store[%d] raft group %d not found".

(** A step of a call: [RegisterSession], [UnregisterSession], [Propose] and [enqueueConfigChange]. *)
Definition call_step (i : nat) s : option Requests :=
  c ← callers s !! i;
  match c with
  | Called c =>
      if closed s then Some (set_caller i (Failed c ErrStopped) s)
      else if negb (found s) then Some (set_caller i (Failed c ErrGroupNotFound) s)
      else
        let '(g, id) := Next (idGenerator s) in
        let s := set_ids g s in
        match c with
        | CPropose _ _ => acquire i c id (Acquired c id) s
        | _ =>
            match put c (id, encode groupID c id) s with
            | Err e => Some (set_caller i (Failed c e) s)
            | Ok s => Some (set_caller i (Queued c id None) s)
            end
        end
  | Acquired c id ch =>
      match put c (id, encode groupID c id) s with
      | Err e => Some (set_caller i (Failed c e) (set_replies (CancelResult id (resultReplier s)) (owners s) (answers s) s))
      | Ok s => Some (set_caller i (Queued c id (Some ch)) s)
      end
  | Queued c id (Some ch) => Some (set_caller i (Waiting c id ch) (tell s))
  | Queued c id None => Some (set_caller i (Told c id) (tell s))
  | Told c id => acquire i c id (Waiting c id) s
  | Waiting c id ch =>
      '(r, ar) ← receive noResult ch (resultReplier s);
      Some (set_caller i (Answered c id ar) (set_replies r (owners s) (answers s) s))
  | Answered _ _ _ | Failed _ _ => None
  end.
(** A caller whose context ends, or whose replica stops, waits no longer. *)
Definition stop_waiting (i : nat) (e : error) s : option Requests :=
  c ← callers s !! i; match c with Waiting c _ _ => Some (set_caller i (Failed c e) s) | _ => None end.

(** ** The worker and the answers *)

(** [processProposal] and [ProcessConfigChange] take all that waits. *)
Definition take_proposals s : option Requests :=
  if decide (inHand s = [] ∧ disposed s = false) then Some (set_work [] (configChange s) (proposal s) (taken s) s) else None.
Definition take_changes s : option Requests :=
  if decide (inHand s = [] ∧ disposed s = false) then Some (set_work (proposal s) [] (configChange s) (taken s) s) else None.

Definition send (id : Z) (ar : ApplyResult R) s : go Requests :=
  r ← SendResult id ar (resultReplier s); Ret (set_replies r (owners s) (answers s ++ [(id, ar)]) s).
(** The next request goes to the raft node, which answers [outcome]. *)
Definition propose_next (outcome : option error) s : option (go Requests) :=
  match inHand s with
  | [] => None
  | (id, _) :: l =>
      Some (match outcome with
            | None => Ret (set_work (proposal s) (configChange s) l (taken s ++ [id]) s)
            | Some err => send id (failed (Some (propose_error err))) (set_work (proposal s) (configChange s) l (taken s) s)
            end)
  end.
(** A request the node took is applied, and the [k]-th is answered. *)
Definition apply_one (k : nat) (ar : ApplyResult R) s : option (go Requests) :=
  id ← taken s !! k; Some (send id ar (set_work (proposal s) (configChange s) (inHand s) (delete k (taken s)) s)).

(** ** Runs *)

Inductive event :=
  | ECall (c : api) | ECaller (i : nat) | EGiveUp (i : nat) (e : error) | EShut (c f d : bool)
  | EOther   (* a call for another group takes an identifier *)
  | ETakeProposals | ETakeChanges | ENext (outcome : option error) | EApply (k : nat) (ar : ApplyResult R).

(** [None] when the event cannot happen. *)
Definition step (e : event) s : option (go Requests) :=
  match e with
  | ECall c => Some (Ret (add_caller c s))
  | ECaller i => Ret <$> call_step i s
  | EGiveUp i e => Ret <$> stop_waiting i e s
  | EShut c f d => Some (Ret (shut c f d s))
  | EOther => Some (Ret (set_ids (Next (idGenerator s)).1 s))
  | ETakeProposals => Ret <$> take_proposals s
  | ETakeChanges => Ret <$> take_changes s
  | ENext outcome => propose_next outcome s
  | EApply k ar => apply_one k ar s
  end.
Fixpoint run (es : list event) s : option Requests :=
  match es with
  | [] => Some s
  | e :: es => match step e s with Some (Ret s) => run es s | _ => None end
  end.
Definition start (peerID seed : Z) : Requests :=
  {| closed := false; found := true; disposed := false; idGenerator := {| seqNum := u64 seed; ri_peerID := Z.land peerID memberBitsMask |}; resultReplier := NewResult;
     proposal := []; configChange := []; inHand := []; taken := []; told := 0; callers := []; owners := []; answers := [] |}.

(** ** The invariant *)

Definition caller_id (c : caller) : option Z :=
  match c with Acquired _ id _ | Queued _ id _ | Told _ id | Waiting _ id _ | Answered _ id _ => Some id | Called _ | Failed _ _ => None end.
Definition holds (c : caller) : option (Z * nat) :=
  match c with Acquired _ id ch | Queued _ id (Some ch) | Waiting _ id ch => Some (id, ch) | _ => None end.
Definition proposes (c : caller) : bool :=
  match c with
  | Called (CPropose _ _) | Acquired (CPropose _ _) _ _ | Queued (CPropose _ _) _ _ | Told (CPropose _ _) _ | Waiting (CPropose _ _) _ _
  | Answered (CPropose _ _) _ _ | Failed (CPropose _ _) _ => true
  | _ => false
  end.
Definition late (c : caller) : bool := match c with Queued _ _ None | Told _ _ => true | _ => false end.
Definition unput (c : caller) : option Z := match c with Acquired _ id _ => Some id | _ => None end.

(** Where the identifiers of requests on their way are. *)
Definition sources s : list Z := (proposal s).*1 ++ (configChange s).*1 ++ (inHand s).*1 ++ taken s.
Definition ids s : list Z := omap caller_id (callers s).
Definition spent s : list Z := sources s ++ (answers s).*1.

(** A caller with a channel waits under its identifier, or its answer is in the channel. *)
Definition served s (id : Z) (ch : nat) : Prop :=
  (results (resultReplier s) !! id = Some ch ∧ id ∉ (answers s).*1) ∨
  ∃ ar, (id, ar) ∈ answers s ∧ chans (resultReplier s) !! ch = Some {| ch_buf := Some ar; ch_closed := true |}.

Section invariant.
Context (peerID seed : Z).
Definition in_range (j x : Z) : Prop := ∃ y, 0 < y <= j ∧ x = nth_id peerID seed y.

Record inv (j : Z) s : Prop := {
  iv_gen : 0 <= j ∧ idGenerator s = {| seqNum := u64 (seed + j); ri_peerID := Z.land peerID memberBitsMask |};
  iv_range x : x ∈ ids s ++ owners s ++ spent s → in_range j x;
  iv_callers : NoDup (ids s);
  iv_once : NoDup (spent s);
  iv_unput i c id : callers s !! i = Some c → unput c = Some id → id ∉ spent s;
  iv_owners : length (owners s) = length (chans (resultReplier s));
  iv_table x c : results (resultReplier s) !! x = Some c → owners s !! c = Some x ∧ chans (resultReplier s) !! c = Some new_chan;
  iv_holds i c id ch : callers s !! i = Some c → holds c = Some (id, ch) → owners s !! ch = Some id ∧ (proposes c = true → served s id ch);
  iv_late i c : callers s !! i = Some c → late c = true → proposes c = false
}.

Lemma in_range_mono j j' x : j <= j' → in_range j x → in_range j' x.
Proof. intros ? (y & ? & ->). exists y. split; [lia|done]. Qed.
Lemma fresh_id j x : j < 2 ^ 51 - 1 → in_range j x → x ≠ nth_id peerID seed (j + 1).
Proof. intros Hj (y & Hy & ->) E. apply nth_id_inj in E; lia. Qed.

Lemma inv_start : inv 0 (start peerID seed).
Proof.
  split; cbn; try done; try by constructor.
  - by rewrite Z.add_0_r.
  - by intros x ?%elem_of_nil.
Qed.

(** The identifiers of the callers, after one of them moved. *)
Lemma holds_id c id ch : holds c = Some (id, ch) → caller_id c = Some id.
Proof. destruct c as [| |c id' [|]| | | |]; cbn; congruence. Qed.
Lemma ids_elem s i c id : callers s !! i = Some c → caller_id c = Some id → id ∈ ids s.
Proof. intros Hi Hc. apply list_elem_of_omap. exists c. split; [|done]. by eapply list_elem_of_lookup_2. Qed.
Lemma same_caller s i k c d id : NoDup (ids s) → callers s !! i = Some c → callers s !! k = Some d → caller_id c = Some id → caller_id d = Some id → i = k.
Proof.
  unfold ids. revert i k. induction (callers s) as [|x l IH]; intros [|i] [|k] Hn Hi Hk Hc Hd; simplify_eq/=; [done| | |].
  - rewrite Hc in Hn. apply NoDup_cons in Hn as [Hn _]. destruct Hn. apply list_elem_of_omap. exists d. split; [|done]. by eapply list_elem_of_lookup_2.
  - rewrite Hd in Hn. apply NoDup_cons in Hn as [Hn _]. destruct Hn. apply list_elem_of_omap. exists c. split; [|done]. by eapply list_elem_of_lookup_2.
  - f_equal. eapply IH; try done. destruct (caller_id x); [|done]. by apply NoDup_cons in Hn as [_ ?].
Qed.

Lemma omap_insert_elem {A C} (f : A → option C) (l : list A) (i : nat) y z : z ∈ omap f (<[i := y]> l) → f y = Some z ∨ z ∈ omap f l.
Proof.
  rewrite !list_elem_of_omap. intros (x & Hx & Hz). apply list_elem_of_lookup in Hx as [k Hk].
  apply list_lookup_insert_Some in Hk as [(<- & <- & _)|[_ Hk]]; [by left|]. right. exists x. split; [|done]. by eapply list_elem_of_lookup_2.
Qed.
Lemma omap_insert_NoDup {A C} (f : A → option C) (l : list A) (i : nat) x y : l !! i = Some x → NoDup (omap f l) →
  (∀ z, f y = Some z → f x = Some z ∨ z ∉ omap f l) → NoDup (omap f (<[i := y]> l)).
Proof.
  revert i. induction l as [|a l IH]; intros [|i] Hi Hn Hy; simplify_eq/=.
  - destruct (f y) as [z|] eqn:Ey; [|destruct (f x); [by apply NoDup_cons in Hn as [_ ?]|done]].
    destruct (Hy z eq_refl) as [Hx|Hx]; [by rewrite Hx in Hn|]. apply NoDup_cons. destruct (f x); [|done]. apply NoDup_cons in Hn as [_ ?].
    split; [|done]. intros ?. apply Hx. by right.
  - assert (NoDup (omap f l)) as Hn' by (destruct (f a); [by apply NoDup_cons in Hn as [_ ?]|done]).
    assert (NoDup (omap f (<[i := y]> l))) as IH'.
    { eapply IH; [done..|]. intros z Hz. destruct (Hy z Hz) as [|Hz']; [by left|]. right. intros ?. apply Hz'. destruct (f a); [by right|done]. }
    destruct (f a) as [b|] eqn:Ea; [|done]. apply NoDup_cons in Hn as [Hb _]. apply NoDup_cons. split; [|done].
    intros Hin. apply omap_insert_elem in Hin as [Hz|Hz]; [|done]. destruct (Hy b Hz) as [Hx|Hx]; [|apply Hx; by left].
    apply Hb, list_elem_of_omap. exists x. split; [|done]. by eapply list_elem_of_lookup_2.
Qed.

(** A call moves on. *)
Lemma inv_caller j s i c c' : inv j s → callers s !! i = Some c →
  (∀ id, caller_id c' = Some id → caller_id c = Some id ∨ id ∉ ids s ∧ in_range j id) →
  (∀ id, unput c' = Some id → id ∉ spent s) →
  (∀ id ch, holds c' = Some (id, ch) → owners s !! ch = Some id ∧ (proposes c' = true → served s id ch)) →
  (late c' = true → proposes c' = false) → inv j (set_caller i c' s).
Proof.
  intros [Hg Hr Hc Ho Hu Hlen Ht Hh Hla] Hi Hid Hun Hho Hl. split; try done.
  - intros x. unfold ids, spent. cbn. rewrite elem_of_app. intros [Hx|Hx].
    + apply omap_insert_elem in Hx as [Hx|Hx]; [|by apply Hr, elem_of_app; left].
      destruct (Hid x Hx) as [?|[_ ?]]; [|done]. apply Hr, elem_of_app. left. by eapply ids_elem.
    + apply Hr, elem_of_app. by right.
  - apply (omap_insert_NoDup caller_id _ _ c); [done..|]. intros z Hz. destruct (Hid z Hz) as [?|[? _]]; [by left|by right].
  - intros k d id. cbn. rewrite list_lookup_insert_Some. intros [(<- & <- & _)|[_ Hk]]; [by apply Hun|by eapply Hu].
  - intros k d id ch. cbn. rewrite list_lookup_insert_Some. intros [(<- & <- & _)|[_ Hk]]; [by apply Hho|by eapply Hh].
  - intros k d. cbn. rewrite list_lookup_insert_Some. intros [(<- & <- & _)|[_ Hk]]; [by apply Hl|by eapply Hla].
Qed.
(** The common case: it keeps its identifier, and its channel if it had one. *)
Lemma inv_move j s i c c' : inv j s → callers s !! i = Some c → (∀ id, caller_id c' = Some id → caller_id c = Some id) → unput c' = None →
  (∀ x, holds c' = Some x → holds c = Some x) → (proposes c' = true → proposes c = true) →
  (late c' = true → late c = true) → inv j (set_caller i c' s).
Proof.
  intros Hs Hi Hid Hun Hho Hpr Hl. eapply inv_caller; [done..| | | |].
  - intros id Hc. left. by apply Hid.
  - by rewrite Hun.
  - intros id ch Hc. destruct (iv_holds _ _ Hs i c id ch Hi (Hho _ Hc)) as [? Hs']. split; [done|]. intros ?. by apply Hs', Hpr.
  - intros Hla. pose proof (iv_late _ _ Hs i c Hi (Hl Hla)) as Hf. destruct (proposes c'); [|done]. rewrite Hpr in Hf; done.
Qed.

(** Requests change place. *)
Lemma inv_work j s p c h t : inv j s → p.*1 ++ c.*1 ++ h.*1 ++ t ≡ₚ sources s → inv j (set_work p c h t s).
Proof.
  intros [Hg Hr Hc Ho Hu Hlen Ht Hh Hla] Hp. assert (spent (set_work p c h t s) ≡ₚ spent s) as Hsp by (unfold spent; apply Permutation_app_tail; exact Hp).
  split; try done.
  - intros x. rewrite !elem_of_app, Hsp. rewrite <-!elem_of_app. apply Hr.
  - by rewrite Hsp.
  - intros i d id Hi Hd. rewrite Hsp. by eapply Hu.
Qed.
(** A request joins a queue. *)
Lemma inv_put j s p c h t id : inv j s → p.*1 ++ c.*1 ++ h.*1 ++ t ≡ₚ id :: sources s → in_range j id → id ∉ spent s →
  (∀ i d, callers s !! i = Some d → unput d ≠ Some id) → inv j (set_work p c h t s).
Proof.
  intros [Hg Hr Hc Ho Hu Hlen Ht Hh Hla] Hp Hid Hnew Hno.
  assert (spent (set_work p c h t s) ≡ₚ id :: spent s) as Hsp by (unfold spent; etrans; [apply Permutation_app_tail; exact Hp|done]).
  split; try done.
  - intros x. rewrite !elem_of_app, Hsp, elem_of_cons. intros [?|[?|[->|?]]]; [..|done|]; apply Hr; rewrite !elem_of_app; auto.
  - rewrite Hsp. by apply NoDup_cons.
  - intros i d x Hi Hd. rewrite Hsp, elem_of_cons. intros [->|?]; [by eapply Hno|by eapply Hu].
Qed.

(** The next identifier. *)
Lemma inv_ids j s : inv j s → inv (j + 1) (set_ids (Next (idGenerator s)).1 s).
Proof.
  intros [[Hj Hg] Hr Hc Ho Hu Hlen Ht Hh Hla]. split; try done.
  - rewrite Hg, Next_nth. cbn. split; [lia|done].
  - intros x Hx. eapply in_range_mono; [|by apply Hr]. lia.
Qed.
Lemma Next_id j s : inv j s → (Next (idGenerator s)).2 = nth_id peerID seed (j + 1).
Proof. intros [[_ Hg] _ _ _ _ _ _ _ _]. by rewrite Hg, Next_nth. Qed.

(** A new channel. *)
Lemma inv_acquire j s id : inv j s → in_range j id → results (resultReplier s) !! id = None →
  inv j (set_replies {| results := <[id := length (chans (resultReplier s))]> (results (resultReplier s)); chans := chans (resultReplier s) ++ [new_chan] |}
          (owners s ++ [id]) (answers s) s).
Proof.
  intros [Hg Hr Hc Ho Hu Hlen Ht Hh Hla] Hid Hnone. split; try done.
  - intros x. change (x ∈ ids s ++ (owners s ++ [id]) ++ spent s → in_range j x). rewrite !elem_of_app, list_elem_of_singleton.
    intros [?|[[?| ->]|?]]; [..|done|]; apply Hr; rewrite !elem_of_app; auto.
  - cbn. rewrite !length_app. cbn. lia.
  - intros x c. cbn. rewrite lookup_insert_Some. intros [[<- <-]|[Hne Hx]].
    + rewrite <-Hlen, !lookup_app_r, Hlen, !Nat.sub_diag by lia. done.
    + destruct (Ht x c Hx) as [Hx1 Hx2]. split; by apply lookup_app_l_Some.
  - intros i c x ch Hi Hc'. destruct (Hh i c x ch Hi Hc') as [Hown Hs]. cbn. split; [by apply lookup_app_l_Some|]. intros Hp.
    destruct (Hs Hp) as [[Hx Ha]|(ar & Ha & Hch)].
    + left. cbn. split; [|done]. rewrite lookup_insert_ne; [done|]. congruence.
    + right. exists ar. split; [done|]. cbn. by apply lookup_app_l_Some.
Qed.

(** An identifier nobody waits under any more is forgotten. *)
Lemma inv_cancel j s id : inv j s → (∀ i c ch, callers s !! i = Some c → holds c ≠ Some (id, ch)) →
  inv j (set_replies (CancelResult id (resultReplier s)) (owners s) (answers s) s).
Proof.
  intros [Hg Hr Hc Ho Hu Hlen Ht Hh Hla] Hno. split; try done.
  - intros x c. cbn. rewrite lookup_delete_Some. intros [_ Hx]. by apply Ht.
  - intros i c x ch Hi Hc'. destruct (Hh i c x ch Hi Hc') as [Hown Hs]. cbn. split; [done|]. intros Hp.
    destruct (Hs Hp) as [[Hx Ha]|?]; [|by right]. left. cbn. split; [|done]. rewrite lookup_delete_ne; [done|]. intros ->. by eapply Hno.
Qed.

(** The answer to a request on its way. *)
Lemma inv_send j s p c h t id ar : inv j s → id :: p.*1 ++ c.*1 ++ h.*1 ++ t ≡ₚ sources s → ∃ s', send id ar (set_work p c h t s) = Ret s' ∧ inv j s'.
Proof.
  intros Hs Hp. pose proof Hs as [Hg Hr Hc Ho Hu Hlen Ht Hh Hla].
  assert (id ∉ (answers s).*1) as Hnew.
  { unfold spent in Ho. rewrite <-Hp in Ho. cbn in Ho. apply NoDup_cons in Ho as [Hn _]. intros ?. apply Hn, elem_of_app. by right. }
  assert (∀ s', sources s' = p.*1 ++ c.*1 ++ h.*1 ++ t → (answers s').*1 = (answers s).*1 ++ [id] → spent s' ≡ₚ spent s) as Hsp.
  { intros s' E1 E2. unfold spent. rewrite E1, E2, <-Hp. solve_Permutation. }
  unfold send, SendResult. cbn [resultReplier set_work]. destruct (results (resultReplier s) !! id) as [ch|] eqn:Eid; cbn [mbind go_bind].
  - destruct (Ht id ch Eid) as [Hown Hch]. rewrite Hch. cbn [ch_closed ch_buf new_chan mbind go_bind]. eexists. split; [done|].
    set (s' := set_replies _ _ _ _). assert (spent s' ≡ₚ spent s) as Hsp' by (apply Hsp; [done|]; cbn; by rewrite fmap_app).
    split; try done.
    + intros x. rewrite !elem_of_app, Hsp'. rewrite <-!elem_of_app. apply Hr.
    + by rewrite Hsp'.
    + intros i d x Hi Hd. rewrite Hsp'. by eapply Hu.
    + cbn. by rewrite length_insert.
    + intros x c'. cbn. rewrite lookup_delete_Some. intros [Hne Hx]. destruct (Ht x c' Hx) as [Hx1 Hx2]. split; [done|].
      rewrite list_lookup_insert_ne; [done|]. intros ->. congruence.
    + intros i d x ch' Hi Hd. destruct (Hh i d x ch' Hi Hd) as [Hown' Hs']. split; [done|]. intros Hpr. destruct (Hs' Hpr) as [[Hx Ha]|(ar' & Ha & Hch')].
      * destruct (decide (x = id)) as [->|Hne].
        -- right. exists ar. cbn. split; [apply elem_of_app; right; by apply list_elem_of_singleton|]. assert (ch' = ch) as -> by congruence.
           rewrite list_lookup_insert_eq; [done|]. by eapply lookup_lt_Some.
        -- left. cbn. rewrite lookup_delete_ne by done. split; [done|]. rewrite fmap_app, elem_of_app. cbn. rewrite list_elem_of_singleton. by intros [?|?].
      * right. exists ar'. cbn. split; [apply elem_of_app; by left|]. rewrite list_lookup_insert_ne; [done|]. intros ->. by rewrite Hch in Hch'.
  - eexists. split; [done|]. set (s' := set_replies _ _ _ _). assert (spent s' ≡ₚ spent s) as Hsp' by (apply Hsp; [done|]; cbn; by rewrite fmap_app).
    split; try done.
    + intros x. rewrite !elem_of_app, Hsp'. rewrite <-!elem_of_app. apply Hr.
    + by rewrite Hsp'.
    + intros i d x Hi Hd. rewrite Hsp'. by eapply Hu.
    + intros i d x ch' Hi Hd. destruct (Hh i d x ch' Hi Hd) as [Hown' Hs']. split; [done|]. intros Hpr. destruct (Hs' Hpr) as [[Hx Ha]|(ar' & Ha & Hch')].
      * left. cbn. split; [done|]. rewrite fmap_app, elem_of_app. cbn. rewrite list_elem_of_singleton. intros [?| ->]; [done|]. congruence.
      * right. exists ar'. cbn. split; [apply elem_of_app; by left|done].
Qed.

(** A caller takes its answer out of the channel. *)
Lemma inv_receive j s ch ar r : inv j s → receive noResult ch (resultReplier s) = Some (r, ar) →
  (∀ i c id, callers s !! i = Some c → holds c ≠ Some (id, ch)) → inv j (set_replies r (owners s) (answers s) s).
Proof.
  intros Hs Hr Hno. unfold receive in Hr. destruct (chans (resultReplier s) !! ch) as [x|] eqn:Ech; [|done]. cbn in Hr.
  destruct (ch_buf x) as [v|] eqn:Eb; [|destruct (ch_closed x); [|done]; injection Hr as <- _; by destruct Hs].
  injection Hr as <- _. destruct Hs as [Hg Hra Hc Ho Hu Hlen Ht Hh Hla]. split; try done.
  - cbn. by rewrite length_insert.
  - intros y c Hy. cbn in *. destruct (Ht y c Hy) as [Hy1 Hy2]. split; [done|]. rewrite list_lookup_insert_ne; [done|]. intros ->.
    rewrite Ech in Hy2. by injection Hy2 as ->.
  - intros i c id ch' Hi Hc'. destruct (Hh i c id ch' Hi Hc') as [Hown Hsv]. split; [done|]. intros Hp.
    destruct (Hsv Hp) as [?|(ar' & Ha & Hch')]; [by left|]. right. exists ar'. split; [done|]. cbn. rewrite list_lookup_insert_ne; [done|].
    intros ->. by eapply Hno.
Qed.

(** ** Steps *)

Lemma put_cases c x s s' : put c x s = Ok s' → ∃ p q, s' = set_work p q (inHand s) (taken s) s ∧ p.*1 ++ q.*1 ++ (inHand s).*1 ++ taken s ≡ₚ x.1 :: sources s.
Proof.
  unfold put. destruct (disposed s); [done|].
  destruct c; case_decide; try done; intros [= <-]; (do 2 eexists; split; [done|]); unfold sources; rewrite fmap_app; cbn; solve_Permutation.
Qed.

Lemma in_range_new j : 0 <= j → in_range (j + 1) (nth_id peerID seed (j + 1)).
Proof. exists (j + 1). split; [lia|done]. Qed.
Lemma new_unused j s x : j < 2 ^ 51 - 1 → inv j s → x ∈ ids s ++ owners s ++ spent s → x ≠ nth_id peerID seed (j + 1).
Proof. intros Hj Hs Hx. eapply fresh_id; [done|]. by eapply iv_range. Qed.

(** Nobody else has the identifier of a caller. *)
Lemma others_differ j s i c c' id k d : inv j s → callers s !! i = Some c → caller_id c = Some id →
  callers (set_caller i c' s) !! k = Some d → caller_id d = Some id → k = i ∧ d = c'.
Proof.
  intros Hs Hi Hc. cbn. rewrite list_lookup_insert_Some. intros [(<- & <- & _)|[Hne Hk]] Hd; [done|].
  destruct Hne. exact (same_caller s i k c d id (iv_callers _ _ Hs) Hi Hk Hc Hd).
Qed.
Lemma unput_id c id : unput c = Some id → caller_id c = Some id.
Proof. by destruct c. Qed.
Lemma inv_tell j s : inv j s → inv j (tell s).
Proof. by intros []. Qed.

(** A caller gets a channel for its identifier. *)
Lemma acquire_inv j s i c a id k s' : inv j s → callers s !! i = Some c → in_range j id → (caller_id c = Some id ∨ id ∉ ids s) →
  (∀ ch, caller_id (k ch) = Some id ∧ holds (k ch) = Some (id, ch) ∧ late (k ch) = false ∧ (unput (k ch) = None ∨ id ∉ spent s) ∧
         (proposes (k ch) = true → id ∉ (answers s).*1)) →
  acquire i a id k s = Some s' → inv j s'.
Proof.
  intros Hs Hi Hid Hfr Hk. unfold acquire, AcquireResultChan. destruct (results (resultReplier s) !! id) as [ch|] eqn:Eid.
  { intros [= <-]. by eapply inv_caller. }
  intros [= <-]. destruct (Hk (length (chans (resultReplier s)))) as (K1 & K2 & K3 & K4 & K5).
  pose proof (inv_acquire j s id Hs Hid Eid) as Hs1. eapply inv_caller; [exact Hs1|done|..].
  - intros x. rewrite K1. intros [= <-]. destruct Hfr; [by left|by right].
  - intros x Hx. destruct K4 as [K4|K4]; [by rewrite K4 in Hx|]. apply unput_id in Hx. rewrite K1 in Hx. by injection Hx as <-.
  - intros x ch. rewrite K2. intros [= <- <-]. split.
    + cbn. rewrite <-(iv_owners _ _ Hs), lookup_app_r, Nat.sub_diag by lia. done.
    + intros Hp. left. cbn. rewrite lookup_insert_eq. split; [done|]. by apply K5.
  - by rewrite K3.
Qed.

(** A request is queued, and its caller moves on to [c']. *)
Lemma put_inv j s i c c' a o id s' : inv j s → callers s !! i = Some c → in_range j id → id ∉ spent s →
  (caller_id c = Some id ∨ id ∉ ids s) → caller_id c' = Some id → unput c' = None → (∀ x, holds c' = Some x → holds c = Some x) →
  (proposes c' = true → proposes c = true) → (late c' = true → proposes c' = false) →
  put a (id, o) s = Ok s' → inv j (set_caller i c' s').
Proof.
  intros Hs Hi Hid Hnew Hfr Hc' Hun Hho Hpr Hl Hput. destruct (put_cases _ _ _ _ Hput) as (p & q & -> & Hperm).
  assert (inv j (set_caller i c' s)) as Hs1.
  { eapply inv_caller; [done..| | | |done].
    - intros x. rewrite Hc'. intros [= <-]. destruct Hfr; [by left|by right].
    - by rewrite Hun.
    - intros x ch Hx. destruct (iv_holds _ _ Hs i c x ch Hi (Hho _ Hx)) as [? Hsv]. split; [done|]. intros ?. by apply Hsv, Hpr. }
  change (inv j (set_work p q (inHand s) (taken s) (set_caller i c' s))). eapply (inv_put j _ _ _ _ _ id); [done|exact Hperm|done|done|].
  intros k d. cbn. rewrite list_lookup_insert_Some. intros [(<- & <- & _)|[Hne Hk]] Hd; [congruence|]. apply unput_id in Hd.
  destruct Hfr as [Hfr|Hfr]; [|by apply Hfr, (ids_elem s k d)]. apply Hne. exact (same_caller s i k c d id (iv_callers _ _ Hs) Hi Hk Hfr Hd).
Qed.

Lemma called_inv j i a s s' : j < 2 ^ 51 - 1 → inv j s → callers s !! i = Some (Called a) → call_step i s = Some s' → ∃ j', j <= j' <= j + 1 ∧ inv j' s'.
Proof.
  intros Hj Hs Hi. unfold call_step. rewrite Hi. cbn [mbind option_bind].
  destruct (closed s); [intros [= <-]; exists j; split; [lia|]; by eapply inv_caller|].
  destruct (found s); cbn [negb]; [|intros [= <-]; exists j; split; [lia|]; by eapply inv_caller].
  pose proof (inv_ids j s Hs) as Hs1. pose proof (Next_id j s Hs) as Hid. destruct (Next (idGenerator s)) as [g id]. cbn [fst snd] in Hs1, Hid. subst id.
  set (id := nth_id peerID seed (j + 1)) in *. set (s1 := set_ids g s) in *.
  assert (in_range (j + 1) id) as Hrange by (apply in_range_new, (iv_gen _ _ Hs)).
  assert (∀ x, x ∈ ids s ++ owners s ++ spent s → x ≠ id) as Hfresh by (intros; by eapply new_unused).
  assert (id ∉ ids s) as Hf1 by (intros Hx; eapply Hfresh; [by apply elem_of_app; left|done]).
  assert (id ∉ spent s) as Hf2 by (intros Hx; eapply Hfresh; [by apply elem_of_app; right; apply elem_of_app; right|done]).
  intros Hstep. exists (j + 1). split; [lia|].
  assert (proposes (Called a) = false → match put a (id, encode groupID a id) s1 with
    | Err e => Some (set_caller i (Failed a e) s1) | Ok s2 => Some (set_caller i (Queued a id None) s2) end = Some s' → inv (j + 1) s') as Hother.
  { intros Hpr. destruct (put _ _ s1) as [s2|e] eqn:Eput; intros [= <-]; [|by eapply inv_caller].
    eapply (put_inv _ s1 i (Called a)); [done|exact Hi|done|exact Hf2|by right|done|done|done|by destruct a| |exact Eput].
    intros _. by destruct a. }
  destruct a; try (apply Hother; [reflexivity|exact Hstep]).
  eapply acquire_inv; [done|exact Hi|done|by right| |exact Hstep]. intros ch. do 3 (split; [done|]). split; [by right|].
  intros _ Hx. apply Hf2, elem_of_app. by right.
Qed.

Lemma call_step_inv j i s s' : j < 2 ^ 51 - 1 → inv j s → call_step i s = Some s' → ∃ j', j <= j' <= j + 1 ∧ inv j' s'.
Proof.
  intros Hj Hs. destruct (callers s !! i) as [c|] eqn:Hi; [|unfold call_step; by rewrite Hi].
  destruct c as [a|a id ch|a id [ch|]|a id|a id ch|a id ar|a e]; [by eapply called_inv|..]; unfold call_step; rewrite Hi; cbn; intros Hstep; (exists j; split; [lia|]).
  - assert (id ∉ spent s) as Hnew by (by eapply (iv_unput _ _ Hs i)).
    assert (in_range j id) as Hid by (apply (iv_range _ _ Hs), elem_of_app; left; by eapply ids_elem).
    destruct (put _ _ s) as [s2|e] eqn:Eput; injection Hstep as <-.
    + eapply (put_inv _ s); [done|exact Hi|done|done|by left|done..|exact Eput].
    + change (inv j (set_replies (CancelResult id (resultReplier s)) (owners s) (answers s) (set_caller i (Failed a e) s))).
      apply (inv_cancel j (set_caller i (Failed a e) s)); [by eapply inv_caller|]. intros k d ch' Hk Hd.
      destruct (others_differ j s i (Acquired a id ch) (Failed a e) id k d Hs Hi eq_refl Hk (holds_id _ _ _ Hd)) as [_ ->]. done.
  - injection Hstep as <-. apply (inv_tell j (set_caller i (Waiting a id ch) s)). by eapply inv_move.
  - injection Hstep as <-. apply (inv_tell j (set_caller i (Told a id) s)). by eapply inv_move.
  - assert (in_range j id) as Hid by (apply (iv_range _ _ Hs), elem_of_app; left; by eapply ids_elem).
    eapply acquire_inv; [done|exact Hi|done|by left| |exact Hstep]. intros ch. do 3 (split; [done|]). split; [by left|].
    intros Hp. pose proof (iv_late _ _ Hs i _ Hi eq_refl) as Hf. cbn in *. congruence.
  - destruct (receive noResult ch (resultReplier s)) as [[r ar]|] eqn:Er; [|done]. injection Hstep as <-.
    change (inv j (set_replies r (owners s) (answers s) (set_caller i (Answered a id ar) s))).
    eapply (inv_receive j (set_caller i (Answered a id ar) s)); [by eapply inv_move|exact Er|]. intros k d id' Hk Hd.
    assert (id' = id) as ->.
    { destruct (iv_holds _ _ Hs i _ id ch Hi eq_refl) as [Ho _]. cbn in Hk. apply list_lookup_insert_Some in Hk as [(<- & <- & _)|[_ Hk]]; [done|].
      destruct (iv_holds _ _ Hs k d id' ch Hk Hd) as [Ho' _]. congruence. }
    destruct (others_differ j s i (Waiting a id ch) (Answered a id ar) id k d Hs Hi eq_refl Hk (holds_id _ _ _ Hd)) as [_ ->]. done.
  - done.
  - done.
Qed.

Lemma request_step_inv j e s x : j < 2 ^ 51 - 1 → inv j s → step e s = Some x → ∃ s' j', x = Ret s' ∧ j <= j' <= j + 1 ∧ inv j' s'.
Proof.
  intros Hj Hs. assert (∀ s', inv j s' → ∃ s'' j', Ret s' = Ret s'' ∧ j <= j' <= j + 1 ∧ inv j' s'') as Hsame by (intros s' ?; exists s', j; split; [done|split; [lia|done]]).
  destruct e as [c|i|i e|c f d| | | |outcome|k ar]; cbn [step].
  - intros [= <-]. apply Hsame. destruct Hs as [Hg Hr Hc Ho Hu Hlen Ht Hh Hla].
    assert (ids (add_caller c s) = ids s) as Hids by (unfold ids; cbn; rewrite omap_app; cbn; apply app_nil_r).
    split; try done; rewrite ?Hids; try done.
    + intros k d id. cbn. rewrite lookup_app_Some, list_lookup_singleton_Some. intros [?|(_ & _ & <-)]; [by eapply Hu|done].
    + intros k d id ch. cbn. rewrite lookup_app_Some, list_lookup_singleton_Some. intros [?|(_ & _ & <-)]; [by eapply Hh|done].
    + intros k d. cbn. rewrite lookup_app_Some, list_lookup_singleton_Some. intros [?|(_ & _ & <-)]; [by eapply Hla|done].
  - destruct (call_step i s) as [s'|] eqn:E; intros [= <-]. destruct (call_step_inv j i s s' Hj Hs E) as (j' & ? & ?). by exists s', j'.
  - unfold stop_waiting. destruct (callers s !! i) as [[| | | |c id ch| |]|] eqn:Hi; try done. intros [= <-]. apply Hsame. by eapply inv_caller.
  - intros [= <-]. apply Hsame. by destruct Hs.
  - intros [= <-]. eexists _, (j + 1). split; [done|]. split; [lia|by apply inv_ids].
  - unfold take_proposals. case_decide as Hd; intros [= <-]. destruct Hd as [Hd _]. apply Hsame, inv_work; [done|]. unfold sources. rewrite Hd. cbn. solve_Permutation.
  - unfold take_changes. case_decide as Hd; intros [= <-]. destruct Hd as [Hd _]. apply Hsame, inv_work; [done|]. unfold sources. rewrite Hd. cbn. solve_Permutation.
  - unfold propose_next. destruct (inHand s) as [|[id o] l] eqn:Eh; [done|]. intros [= <-]. destruct outcome as [err|].
    + destruct (inv_send j s (proposal s) (configChange s) l (taken s) id (failed (Some (propose_error err))) Hs) as (s' & -> & Hs').
      { unfold sources. rewrite Eh. cbn. solve_Permutation. }
      by apply Hsame.
    + apply Hsame, inv_work; [done|]. unfold sources. rewrite Eh. cbn. solve_Permutation.
  - unfold apply_one. destruct (taken s !! k) as [id|] eqn:Ek; [|done]. cbn [mbind option_bind]. intros [= <-].
    destruct (inv_send j s (proposal s) (configChange s) (inHand s) (delete k (taken s)) id ar Hs) as (s' & -> & Hs').
    { unfold sources. rewrite (delete_Permutation (taken s) k id Ek) at 2. solve_Permutation. }
    by apply Hsame.
Qed.
Lemma request_run_inv j es s s' : j + Z.of_nat (length es) < 2 ^ 51 - 1 → inv j s → run es s = Some s' → ∃ j', j <= j' <= j + Z.of_nat (length es) ∧ inv j' s'.
Proof.
  revert j s. induction es as [|e es IH]; cbn; intros j s Hj Hs; [intros [= <-]; exists j; split; [lia|done]|].
  destruct (step e s) as [x|] eqn:E; [|done]. destruct (request_step_inv j e s x ltac:(lia) Hs E) as (s1 & j1 & -> & Hj1 & Hs1).
  intros Hr. destruct (IH j1 s1 ltac:(lia) Hs1 Hr) as (j2 & ? & ?). exists j2. split; [lia|done].
Qed.

(** C27: a proposal that was answered finds its answer.  Whatever the interleaving of calls, worker
    and answers, the caller of [Propose] that waits can take the answer that was sent under its
    identifier out of its channel; and no event of the group ever sends to a channel that is closed
    or full. *)
Theorem proposals_answered es s : Z.of_nat (length es) < 2 ^ 51 - 1 → run es (start peerID seed) = Some s →
  (∀ i session log id ch ar, callers s !! i = Some (Waiting (CPropose session log) id ch) → (id, ar) ∈ answers s →
    ∃ r, receive noResult ch (resultReplier s) = Some (r, ar)) ∧
  ∀ e x, step e s = Some x → ∃ s', x = Ret s'.
Proof.
  intros Hlen Hr. destruct (request_run_inv 0 es _ s ltac:(lia) inv_start Hr) as (j & Hj & Hs).
  split; [|intros e x He; destruct (request_step_inv j e s x) as (s' & _ & -> & _); [lia|done..|by exists s']].
  intros i session log id ch ar Hi Ha.
  destruct (iv_holds _ _ Hs i _ id ch Hi eq_refl) as [_ Hsv]. destruct (Hsv eq_refl) as [[_ Hno]|(ar' & Ha' & Hch)].
  { destruct Hno. apply list_elem_of_fmap. by exists (id, ar). }
  assert (ar' = ar) as ->.
  { pose proof (iv_once _ _ Hs) as Hn. unfold spent in Hn. apply NoDup_app in Hn as (_ & _ & Hn).
    apply list_elem_of_lookup in Ha as [k Hk], Ha' as [k' Hk']. assert (k = k') as <-; [|congruence].
    eapply NoDup_lookup; [exact Hn| |]; [by rewrite list_lookup_fmap, Hk|by rewrite list_lookup_fmap, Hk']. }
  unfold receive. rewrite Hch. cbn. by eexists.
Qed.

(** ** Answers that come too early *)

(** Nobody will answer under [id] any more. *)
Definition silent (id : Z) (ch : nat) s : Prop := results (resultReplier s) !! id = Some ch ∧ id ∉ sources s.

Lemma sources_put a id o s s' : put a (id, o) s = Ok s' → sources s' ≡ₚ id :: sources s ∧ resultReplier s' = resultReplier s ∧ callers s' = callers s.
Proof. intros Hp. destruct (put_cases _ _ _ _ Hp) as (p & q & -> & Hperm). done. Qed.
Lemma acquire_silent i a id' k s s' id ch : silent id ch s → acquire i a id' k s = Some s' → silent id ch s'.
Proof.
  intros [Hr Hn]. unfold acquire, AcquireResultChan. destruct (results (resultReplier s) !! id') eqn:E; intros [= <-]; [done|].
  split; [|done]. cbn. rewrite lookup_insert_ne; [done|]. congruence.
Qed.
Lemma send_silent id' ar s s' p c h t id ch : silent id ch s → id' :: p.*1 ++ c.*1 ++ h.*1 ++ t ≡ₚ sources s →
  send id' ar (set_work p c h t s) = Ret s' → silent id ch s' ∧ callers s' = callers s.
Proof.
  intros [Hr Hn] Hp. assert (id' ≠ id ∧ id ∉ p.*1 ++ c.*1 ++ h.*1 ++ t) as [Hne Hn'].
  { rewrite <-Hp, elem_of_cons in Hn. split; [intros ->|intros ?]; apply Hn; [by left|by right]. }
  unfold send, SendResult. cbn [resultReplier set_work]. destruct (results (resultReplier s) !! id') as [c'|]; cbn [mbind go_bind].
  - destruct (chans (resultReplier s) !! c') as [x|]; [|done]. destruct (ch_closed x); [done|]. destruct (ch_buf x); [done|].
    intros [= <-]. split; [|done]. split; [|done]. cbn. by rewrite lookup_delete_ne.
  - intros [= <-]. done.
Qed.

(** Another caller moves: its identifier is another one. *)
Lemma other_silent j i k s s' a id ch : j < 2 ^ 51 - 1 → inv j s → callers s !! i = Some (Waiting a id ch) → k ≠ i → silent id ch s → call_step k s = Some s' →
  silent id ch s' ∧ callers s' !! i = Some (Waiting a id ch).
Proof.
  intros Hj Hs Hi Hki Hsi. assert (∀ c s', callers s' !! i = Some (Waiting a id ch) → callers (set_caller k c s') !! i = Some (Waiting a id ch)) as Hset
    by (intros; cbn; by rewrite list_lookup_insert_ne).
  assert (∀ c id', callers s !! k = Some c → caller_id c = Some id' → id' ≠ id) as Hother.
  { intros c id' Hk Hc ->. apply Hki. exact (same_caller s k i c _ id (iv_callers _ _ Hs) Hk Hi Hc eq_refl). }
  assert (∀ b id' o s1 s2 c, sources s1 = sources s → resultReplier s1 = resultReplier s → callers s1 = callers s → id' ≠ id →
    put b (id', o) s1 = Ok s2 → silent id ch (set_caller k c s2) ∧ callers (set_caller k c s2) !! i = Some (Waiting a id ch)) as Hput.
  { intros b id' o s1 s2 c E1 E2 E3 Hne Hp. destruct (sources_put _ _ _ _ _ Hp) as (Hso & Hre & Hca). destruct Hsi as [Hr Hn]. split; [split|].
    - cbn. by rewrite Hre, E2.
    - change (id ∉ sources s2). rewrite Hso, E1, elem_of_cons. by intros [?|?].
    - apply Hset. by rewrite Hca, E3. }
  assert (∀ b id' f s1 s2, silent id ch s1 → callers s1 = callers s → acquire k b id' f s1 = Some s2 → silent id ch s2 ∧ callers s2 !! i = Some (Waiting a id ch)) as Hacq.
  { intros b id' f s1 s2 Hs1 E Ha. split; [by eapply acquire_silent|]. unfold acquire in Ha. destruct (AcquireResultChan id' _) as [[r [n|e]]|]; [| |done];
      injection Ha as <-; apply Hset; cbn; by rewrite E. }
  unfold call_step. destruct (callers s !! k) as [c|] eqn:Hk; [|done]. cbn [mbind option_bind].
  destruct c as [b|b id' ch'|b id' [ch'|]|b id'|b id' ch'|b id' ar|b e]; [| | | | | |done|done].
  - destruct (closed s); [intros [= <-]; split; [done|by apply Hset]|]. destruct (found s); cbn [negb]; [|intros [= <-]; split; [done|by apply Hset]].
    pose proof (Next_id j s Hs) as Hid. destruct (Next (idGenerator s)) as [g id']. cbn [snd] in Hid.
    assert (id' ≠ id) as Hne.
    { intros ->. eapply (new_unused j s id); [done|exact Hs| |exact Hid]. apply elem_of_app. left. exact (ids_elem s i _ id Hi eq_refl). }
    destruct b; try (destruct (put _ _ _) as [s2|e] eqn:Eput; intros [= <-]; [by eapply (Hput _ _ _ (set_ids g s))|split; [done|by apply Hset]]).
    intros Ha. by eapply (Hacq _ _ _ (set_ids g s)).
  - assert (id' ≠ id) as Hne by (by eapply Hother). destruct (put _ _ s) as [s2|e] eqn:Eput; intros [= <-]; [by eapply (Hput _ _ _ s)|].
    split; [|by apply (Hset (Failed b e) s)]. destruct Hsi as [Hr Hn]. split; [|done]. cbn. by rewrite lookup_delete_ne.
  - intros [= <-]. split; [done|by apply (Hset _ (tell s))].
  - intros [= <-]. split; [done|by apply (Hset _ (tell s))].
  - intros Ha. by eapply (Hacq _ _ _ s).
  - destruct (receive noResult ch' (resultReplier s)) as [[r ar]|] eqn:Er; [|done]. intros [= <-]. split; [|by apply (Hset (Answered b id' ar) s)].
    destruct Hsi as [Hr Hn]. split; [|done]. cbn. unfold receive in Er. destruct (chans (resultReplier s) !! ch') as [x|]; [|done]. cbn in Er.
    destruct (ch_buf x); [by injection Er as <- _|]. destruct (ch_closed x); [|done]. by injection Er as <- _.
Qed.

(** While it waits nothing comes, and when it gave up it does not wait again. *)
Definition abandoned (i : nat) (a : api) (id : Z) (ch : nat) s : Prop :=
  (callers s !! i = Some (Waiting a id ch) ∧ silent id ch s) ∨ ∃ b e, callers s !! i = Some (Failed b e).

Lemma abandoned_empty j i a id ch s : inv j s → callers s !! i = Some (Waiting a id ch) → abandoned i a id ch s → receive noResult ch (resultReplier s) = None.
Proof.
  intros Hs Hi [[_ [Hr _]]|(b & e & He)]; [|congruence]. destruct (iv_table _ _ Hs _ _ Hr) as [_ Hch]. unfold receive. by rewrite Hch.
Qed.
Lemma call_step_callers k s s' : call_step k s = Some s' → ∃ d c, callers s !! k = Some d ∧ (∀ b e, d ≠ Failed b e) ∧ callers s' = <[k := c]> (callers s).
Proof.
  unfold call_step. destruct (callers s !! k) as [d|]; [|done]. cbn [mbind option_bind].
  assert (∀ s1 c, callers s1 = callers s → callers (set_caller k c s1) = <[k := c]> (callers s)) as Hset by (by intros s1 c <-).
  assert (∀ b id f s1 s2, callers s1 = callers s → acquire k b id f s1 = Some s2 → ∃ c, callers s2 = <[k := c]> (callers s)) as Hacq.
  { intros b id f s1 s2 E. unfold acquire. destruct (AcquireResultChan id _) as [[r [n|e]]|]; intros [= <-]; eexists; by apply Hset. }
  assert (∀ b x s1 s2 c, callers s1 = callers s → put b x s1 = Ok s2 → callers (set_caller k c s2) = <[k := c]> (callers s)) as Hput.
  { intros b [id o] s1 s2 c E Hp. destruct (sources_put _ _ _ _ _ Hp) as (_ & _ & E'). apply Hset. congruence. }
  intros Hstep. exists d.
  assert (∃ c, (∀ b e, d ≠ Failed b e) ∧ callers s' = <[k := c]> (callers s)) as (c & ? & ?); [|by exists c].
  destruct d as [b|b id ch|b id [ch|]|b id|b id ch|b id ar|b e]; [| | | | | |done|done].
  - destruct (closed s); [injection Hstep as <-; eexists; split; [done|by apply Hset]|].
    destruct (found s); cbn [negb] in Hstep; [|injection Hstep as <-; eexists; split; [done|by apply Hset]].
    destruct (Next (idGenerator s)) as [g id].
    destruct b; try (destruct (put _ _ _) as [s2|e] eqn:Eput; injection Hstep as <-; eexists; (split; [done|]); [by eapply (Hput _ _ (set_ids g s))|by apply Hset]).
    destruct (Hacq _ _ _ (set_ids g s) _ eq_refl Hstep) as [c ?]. by exists c.
  - destruct (put _ _ s) as [s2|e] eqn:Eput; injection Hstep as <-; eexists; (split; [done|]); [by eapply (Hput _ _ s)|].
    by apply (Hset (set_replies (CancelResult id (resultReplier s)) (owners s) (answers s) s)).
  - injection Hstep as <-. eexists. split; [done|by apply (Hset (tell s))].
  - injection Hstep as <-. eexists. split; [done|by apply (Hset (tell s))].
  - destruct (Hacq _ _ _ s _ eq_refl Hstep) as [c ?]. by exists c.
  - destruct (receive noResult ch (resultReplier s)) as [[r ar]|]; [|done]. injection Hstep as <-. eexists. split; [done|].
    by apply (Hset (set_replies r (owners s) (answers s) s)).
Qed.
Lemma failed_stays e0 s s' i b e : callers s !! i = Some (Failed b e) → step e0 s = Some (Ret s') → callers s' !! i = Some (Failed b e).
Proof.
  intros Hi.
  assert (∀ id ar s1, callers s1 = callers s → send id ar s1 = Ret s' → callers s' !! i = Some (Failed b e)) as Hsend.
  { intros id ar s1 E. unfold send. destruct (SendResult id ar _); [|done]. intros [= <-]. cbn. by rewrite E. }
  destruct e0 as [c|k|k e0|c f d| | | |outcome|k ar]; cbn [step].
  - intros [= <-]. cbn. by apply lookup_app_l_Some.
  - destruct (call_step k s) as [s1|] eqn:E; intros [= <-]. destruct (call_step_callers _ _ _ E) as (d & c & Hk & Hd & ->).
    rewrite list_lookup_insert_ne; [done|]. intros ->. rewrite Hi in Hk. injection Hk as <-. by destruct (Hd b e).
  - unfold stop_waiting. destruct (callers s !! k) as [[]|] eqn:Hk; try done. intros [= <-]. cbn.
    rewrite list_lookup_insert_ne; [done|]. intros ->. congruence.
  - by intros [= <-].
  - by intros [= <-].
  - unfold take_proposals. case_decide; by intros [= <-].
  - unfold take_changes. case_decide; by intros [= <-].
  - unfold propose_next. destruct (inHand s) as [|[id o] l]; [done|]. destruct outcome; intros [= Hsd]; [by eapply Hsend in Hsd|by subst].
  - unfold apply_one. destruct (taken s !! k); [|done]. cbn. intros [= Hsd]. by eapply Hsend in Hsd.
Qed.
Lemma step_abandoned j e i a id ch s s' : j < 2 ^ 51 - 1 → inv j s → abandoned i a id ch s → step e s = Some (Ret s') → abandoned i a id ch s'.
Proof.
  intros Hj Hs [[Hi Hsi]|(b & er & He)] Hstep; [|right; exists b, er; by eapply failed_stays].
  assert (silent id ch s' ∧ callers s' = callers s → abandoned i a id ch s') as Hkeep by (intros [? E]; left; by rewrite E).
  destruct e as [c|k|k e|c f d| | | |outcome|k ar]; cbn [step] in Hstep.
  - injection Hstep as <-. left. split; [cbn; by apply lookup_app_l_Some|done].
  - destruct (call_step k s) as [s1|] eqn:E; [|done]. injection Hstep as <-. destruct (decide (k = i)) as [->|Hki].
    + unfold call_step in E. rewrite Hi in E. cbn [mbind option_bind] in E.
      rewrite (abandoned_empty j i a id ch s Hs Hi) in E by (by left). done.
    + left. destruct (other_silent j i k s s1 a id ch Hj Hs Hi Hki Hsi E). done.
  - unfold stop_waiting in Hstep. destruct (callers s !! k) as [[| | | |c id' ch'| |]|] eqn:Hk; try done. injection Hstep as <-. destruct (decide (k = i)) as [->|Hki].
    + right. exists c, e. cbn. rewrite list_lookup_insert_eq; [done|]. by eapply lookup_lt_Some.
    + left. split; [cbn; by rewrite list_lookup_insert_ne|done].
  - injection Hstep as <-. by apply Hkeep.
  - injection Hstep as <-. by apply Hkeep.
  - unfold take_proposals in Hstep. case_decide as Hd; [|done]. injection Hstep as <-. apply Hkeep. split; [|done]. destruct Hsi as [Hr Hn]. split; [done|].
    unfold sources in *. cbn. destruct Hd as [Hd _]. rewrite Hd in Hn. cbn in Hn. rewrite !elem_of_app in *. intros [?|[?|?]]; apply Hn; auto.
  - unfold take_changes in Hstep. case_decide as Hd; [|done]. injection Hstep as <-. apply Hkeep. split; [|done]. destruct Hsi as [Hr Hn]. split; [done|].
    unfold sources in *. cbn. destruct Hd as [Hd _]. rewrite Hd in Hn. cbn in Hn. rewrite !elem_of_app in *. intros [?|[?|?]]; apply Hn; auto.
  - unfold propose_next in Hstep. destruct (inHand s) as [|[id' o] l] eqn:Eh; [done|]. injection Hstep as Hstep. destruct outcome as [err|].
    + apply Hkeep. eapply send_silent; [done| |exact Hstep]. unfold sources. rewrite Eh. cbn. solve_Permutation.
    + injection Hstep as <-. apply Hkeep. split; [|done]. destruct Hsi as [Hr Hn]. split; [done|]. unfold sources in *. rewrite Eh, fmap_cons in Hn.
      cbn [proposal configChange inHand taken set_work fst] in *. rewrite !elem_of_app, elem_of_cons in Hn. rewrite !elem_of_app, list_elem_of_singleton. tauto.
  - unfold apply_one in Hstep. destruct (taken s !! k) as [id'|] eqn:Ek; [|done]. cbn in Hstep. injection Hstep as Hstep.
    apply Hkeep. eapply send_silent; [done| |exact Hstep]. unfold sources. rewrite (delete_Permutation (taken s) k id' Ek) at 2. solve_Permutation.
Qed.

(** C39: the other calls wait too late.  When a registration, the end of a session or a change of the
    configuration was answered before its caller asked for a channel, the answer is lost: the
    caller waits under an identifier nobody will answer under, and finds nothing in its channel
    for as long as it waits. *)
Theorem late_callers_wait_forever es s i a id ch ar s1 es' s2 : Z.of_nat (length es + length es') < 2 ^ 51 - 2 → run es (start peerID seed) = Some s →
  callers s !! i = Some (Told a id) → (id, ar) ∈ answers s → call_step i s = Some s1 → callers s1 !! i = Some (Waiting a id ch) →
  run es' s1 = Some s2 → callers s2 !! i = Some (Waiting a id ch) → receive noResult ch (resultReplier s2) = None.
Proof.
  intros Hlen Hr Hi Ha Hc Hi1 Hr' Hi2. destruct (request_run_inv 0 es _ s ltac:(lia) inv_start Hr) as (j & Hj & Hs).
  destruct (call_step_inv j i s s1 ltac:(lia) Hs Hc) as (j1 & Hj1 & Hs1).
  assert (silent id ch s1) as Hsi.
  { unfold call_step in Hc. rewrite Hi in Hc. cbn [mbind option_bind] in Hc. unfold acquire, AcquireResultChan in Hc.
    assert (id ∉ sources s) as Hn.
    { pose proof (iv_once _ _ Hs) as Hn. unfold spent in Hn. apply NoDup_app in Hn as (_ & Hn & _). intros Hin. apply (Hn id Hin), list_elem_of_fmap. by exists (id, ar). }
    assert (i < length (callers s))%nat by (by eapply lookup_lt_Some).
    destruct (results (resultReplier s) !! id); injection Hc as <-; cbn in Hi1; rewrite list_lookup_insert_eq in Hi1 by done; [done|].
    injection Hi1 as <-. split; [|done]. cbn. apply lookup_insert_eq. }
  assert (abandoned i a id ch s2 ∧ ∃ j2, inv j2 s2) as [Hab [j2 Hs2]]; [|by eapply abandoned_empty].
  assert (abandoned i a id ch s1) as Hab1 by (by left). assert (j1 + Z.of_nat (length es') < 2 ^ 51 - 1) as Hb by lia.
  clear - Hs1 Hab1 Hr' Hb. revert j1 s1 Hs1 Hab1 Hr' Hb. induction es' as [|e es' IH]; cbn; intros j1 s1 Hs1 Hab1 Hr' Hb.
  - injection Hr' as <-. split; [done|by exists j1].
  - destruct (step e s1) as [x|] eqn:E; [|done]. destruct (request_step_inv j1 e s1 x ltac:(lia) Hs1 E) as (s' & j' & -> & Hj' & Hs').
    eapply (IH j' s'); [done|eapply (step_abandoned j1); [lia|done..]|done|lia].
Qed.
End invariant.
End requests.

(** ** Examples *)

Module RequestExamples.
Import NodeExamples.
Definition plain_session : ClientSession := {| cs_SessionID := 0; SequenceNumber := 0; LowestSequenceNumberNotYetReplied := 0 |}.
Definition first_id : Z := nth_id 1 500 1.
Definition refused : ApplyResult nat := failed (Some ErrNotLeader).

(** A call whose request the worker takes and the raft node refuses; [before] and [after] are the
    steps of the caller. *)
Definition refused_run (c : api) (before after : nat) : list (event (R := nat)) :=
  ECall c :: replicate before (ECaller 0) ++ [ETakeProposals; ENext (Some raft_ErrProposalDropped)] ++ replicate after (ECaller 0).
Definition after (es : list (event (R := nat))) : Requests := default (start 1 500) (run 7 es (start 1 500)).
Definition runs (es : list (event (R := nat))) : bool := match run 7 es (start 1 500) with Some _ => true | None => false end.
Lemma request_after_run es : runs es = true → run 7 es (start 1 500) = Some (after es).
Proof. unfold runs, after. by destruct (run 7 es _). Qed.

Definition proposed : list (event (R := nat)) := refused_run (CPropose plain_session [Byte.x41]) 2 1.
Lemma proposed_facts : runs proposed = true ∧ callers (after proposed) = [Waiting (CPropose plain_session [Byte.x41]) first_id 0] ∧ answers (after proposed) = [(first_id, refused)].
Proof. vm_compute. done. Qed.
Lemma proposals_answered_witness : ∃ r, receive noResult 0 (resultReplier (after proposed)) = Some (r, refused).
Proof.
  destruct proposed_facts as (Hr & Hc & Ha).
  destruct (proposals_answered 7 1 500 proposed (after proposed)) as [H _]; [cbn; lia|by apply request_after_run|].
  apply (H 0%nat plain_session [Byte.x41] first_id 0%nat refused); [by rewrite Hc|rewrite Ha; left].
Defined.

(** A registration that is refused before its caller asks for a channel. *)
Definition registered : list (event (R := nat)) := refused_run CRegister 2 0.
Definition waiting : Requests := default (start 1 500) (call_step 7 0 (after registered)).
Lemma registered_facts : runs registered = true ∧ callers (after registered) = [Told CRegister first_id] ∧ answers (after registered) = [(first_id, refused)] ∧
  call_step 7 0 (after registered) = Some waiting ∧ callers waiting = [Waiting CRegister first_id 0].
Proof. vm_compute. done. Qed.
Lemma late_callers_wait_forever_witness : answers waiting = [(first_id, refused)] ∧ receive noResult 0 (resultReplier waiting) = None.
Proof.
  destruct registered_facts as (Hr & Hc & Ha & Hs & Hw). split; [vm_compute; reflexivity|].
  apply (late_callers_wait_forever 7 1 500 registered (after registered) 0 CRegister first_id 0 refused waiting [] waiting);
    [cbn; lia|by apply request_after_run|by rewrite Hc|rewrite Ha; left|exact Hs|by rewrite Hw|reflexivity|by rewrite Hw].
Defined.
End RequestExamples.
