(* ===== verification/Answers.v ===== *)
(** * Every caller gets its own answer

    The nodes of a cluster with their callers: what a node hands to raft may be committed,
    every node applies committed entries with the loops of [Apply.v], and the replies go
    through the table of the node. *)

From S2P Require Import Prelude Session NoOpManager Cluster LinearRead Apply Exactly Proposals Raftpb.

Section System.
Context {A M SM RN : Type}.
Context `{SessionManager (response A) M, StateMachine A SM, RaftNode RN}.
Context `{Message NormalRequest, Message ConfChange, Message ConfChangeRequest}.
Context (clock : nat → Z) (bsm : BasedStateMachineInfo).
Implicit Types (n : Node A M SM RN).

(** ** What an entry answers *)

(** The identifier a reply to the entry goes to. *)
Definition entry_reply (e : Entry) (i : Z) : Prop :=
  (e_type e = EntryNormal ∧ e_data e ≠ [] ∧ ∃ req, unmarshal (e_data e) = Some req ∧ ReplyID (Context_ req) = i) ∨
  (e_type e = EntryConfChange ∧ ∃ cc req, parseConfChangeEntry e = Ok (cc, req) ∧ ReplyID (cr_Context req) = i).

Lemma ApplyNormalEntry_replies e n n' req ar h :
  ApplyNormalEntry clock e n = Ret (n', (req, ar, h)) → replies n' = replies n ∧ unmarshal (e_data e) = Some req.
Proof.
  unfold ApplyNormalEntry. destruct (unmarshal (e_data e)) as [req'|]; [|done]. intros E.
  repeat (case_match; simplify_eq/=; try done). by destruct (handlePubAppService _ _ _) as [[? ?]|]; simplify_eq/=.
Qed.

Lemma processConfChange_replies cc req n n' r : processConfChange cc req n = Ret (n', r) → replies n' = replies n.
Proof.
  assert (∀ ty n, replies (processMemberEvent ty req n) = replies n) as Hev by (intros ty k; unfold processMemberEvent; by repeat case_decide).
  assert (∀ n, replies (process_trans cc req n).1 = replies n) as Htr by (intros k; unfold process_trans; by repeat case_decide).
  unfold processConfChange. intros E. destruct (clusterValidateAndApply _ _ _) as [[c x]|]; [|done]. cbn [mbind go_bind] in E.
  repeat (case_match; simplify_eq/=; try done).
  match goal with E : process_trans _ _ ?k = (_, _) |- _ => specialize (Htr k); rewrite E in Htr; cbn [fst] in Htr; rewrite Htr end. by rewrite Hev.
Qed.

Lemma step_replies st n n' : run_step clock bsm st n = Ret n' →
  replies n' = replies n ∨ ∃ i ar, replies n' = replies n ++ [(i, ar)] ∧ entry_reply (entry_of st) i.
Proof.
  destruct st as [e|e]; simpl; intros E.
  - unfold applyEntry in E. case_decide as Hd; [left; by simplify_eq/=|]. case_decide as Ht; [|case_decide; simplify_eq/=; by left].
    case_decide; [destruct (diskType bsm); simplify_eq/=; by left|].
    destruct (ApplyNormalEntry clock e n) as [[k [[req ar] h]]|] eqn:Ea; [|done]. apply ApplyNormalEntry_replies in Ea as [Hr Hu].
    assert (∀ x, ∃ i ar', replies (SendAppliedResult (ReplyID (Context_ req)) x k) = replies n ++ [(i, ar')] ∧ entry_reply e i) as Hs.
    { intros x. exists (ReplyID (Context_ req)), x. simpl. rewrite Hr. split; [done|]. left. split_and!; [done|by intros E'; rewrite E' in Hd|by exists req]. }
    right. cbn [mbind go_bind] in E. destruct (IsEmpty ar); [|injection E as <-; apply (Hs ar)].
    destruct (sm_Apply _ _ _ _) as [s y]. destruct (h_AddResult _ _ _ _ _) as [m' [?|]]; [done|]. injection E as <-. apply (Hs y).
  - unfold confChangeEntry in E. case_decide as Ht; [|left; by simplify_eq/=]. right.
    destruct (ApplyConfChangeEntry clock e n) as [[k [[ctx ar] rs]]|] eqn:Ea; [|done]. cbn [mbind go_bind] in E. injection E as <-.
    unfold ApplyConfChangeEntry in Ea. destruct (parseConfChangeEntry e) as [[cc req]|] eqn:Ep; [|done].
    assert (ctx = cr_Context req ∧ replies k = replies n) as [-> Hr].
    { destruct (sm_GetSession _ _) as [m [h|err]]; [|by simplify_eq/=]. destruct (doExactlyOnce _ _ _ _) as [m' [toApply ar']].
      destruct toApply; [|by simplify_eq/=]. destruct (processConfChange _ _ _) as [[k' [[cs rs'] err]]|] eqn:Epc; [|done].
      cbn [mbind go_bind] in Ea. destruct (h_AddResult _ _ _ _ _) as [m'' [?|]]; [done|]. simplify_eq/=. split; [done|].
      by apply processConfChange_replies in Epc. }
    eexists (ReplyID (cr_Context req)), ar. split; [simpl; f_equal; by repeat case_match|]. right. split; [done|]. by exists cc, req.
Qed.

(** ** The system *)

Abbreviation proposer := (Proposer (response A)).
Implicit Types (p : proposer) (o : offer) (e : Entry).

(** The calls of the interface. *)
Inductive api_call :=
| CallRegister | CallUnregister (sessionID : Z) | CallPropose (session : ClientSession) (log : list byte) | CallPublish (peerID : Z) (addresses : list string)
| CallAddVoting (refuse : bool) (session : ClientSession) (a : RaftPeerAttribute) | CallRemove (refuse : bool) (session : ClientSession) (peerID : Z)
| CallUpdate (refuse : bool) (session : ClientSession) (a : RaftPeerAttribute) | CallAddLearner (refuse : bool) (session : ClientSession) (a : RaftPeerAttribute)
| CallPromote (learnerReady : option error) (session : ClientSession) (peerID : Z).
Definition run_call (outcome : option error) (c : Cluster) (call : api_call) p : go (proposer * ProposedResult (response A)) :=
  match call with
  | CallRegister => RegisterSession outcome p
  | CallUnregister sid => UnregisterSession outcome sid p
  | CallPropose session log => Propose outcome session log p
  | CallPublish peer addresses => PublishAppService outcome peer addresses p
  | CallAddVoting refuse session a => AddVotingPeer outcome refuse c session a p
  | CallRemove refuse session peer => RemovePeer outcome refuse c session peer p
  | CallUpdate refuse session a => UpdatePeer outcome refuse c session a p
  | CallAddLearner refuse session a => AddLearner outcome refuse c session a p
  | CallPromote ready session peer => PromoteLearner outcome c session ready peer p
  end.

(** The entry a proposal becomes. *)
Definition carries o e : Prop :=
  match o with
  | OfferData d => e_type e = EntryNormal ∧ e_data e = d
  | OfferChange cc => e_type e = EntryConfChange ∧ e_data e = marshal cc
  end.

Record sys := { sy_nodes : list (proposer * Node A M SM RN); sy_log : list Entry }.
Implicit Types (s : sys).
Definition set_node (i : nat) p n s : sys := {| sy_nodes := <[i := (p, n)]> (sy_nodes s); sy_log := sy_log s |}.
Definition commit e s : sys := {| sy_nodes := sy_nodes s; sy_log := sy_log s ++ [e] |}.

Inductive sys_step s : sys → Prop :=
  | ss_call i p n call outcome p' r :
      sy_nodes s !! i = Some (p, n) → run_call outcome (cluster n) call p = Ret (p', r) → sys_step s (set_node i p' n s)
  | ss_commit i p n x o e :
      sy_nodes s !! i = Some (p, n) → (x, o) ∈ po_offered p → carries o e → sys_step s (commit e s)
  | ss_noop e : e_type e = EntryNormal → e_data e = [] → sys_step s (commit e s)
  | ss_apply i p n st n' p' :
      sy_nodes s !! i = Some (p, n) → entry_of st ∈ sy_log s → run_step clock bsm st n = Ret n' →
      answer_all (drop (length (replies n)) (replies n')) p = Ret p' → sys_step s (set_node i p' n' s)
  | ss_wait i p n choice res res' r ar :
      sy_nodes s !! i = Some (p, n) → WaitForApplyResult choice res (po_replier p) = Ret (Some (res', r, ar)) → sys_step s (set_node i (set_replier r p) n s)
  | ss_cancel i p n x : sy_nodes s !! i = Some (p, n) → sys_step s (set_node i (set_replier (CancelResult x (po_replier p)) p) n s).

(** A node with its identifier, the seed of its generator and its first state. *)
Definition newProposer (peerID seed : Z) : proposer := {| po_gen := New peerID seed; po_replier := NewResult; po_offered := [] |}.
Definition init (l : list (Z * Z * Node A M SM RN)) : sys :=
  {| sy_nodes := (fun '(peerID, seed, n) => (newProposer peerID seed, n)) <$> l; sy_log := [] |}.

(** ** Identifiers *)

Lemma nth_id_low peerID seed k : Z.land (nth_id peerID seed k) memberBitsMask = Z.land peerID memberBitsMask.
Proof.
  unfold nth_id, memberBitsMask, memberBits. rewrite Z.land_lor_distr_l, <- Z.land_assoc, Z.land_diag.
  rewrite Z.land_ones, Z.shiftl_mul_pow2, Z.mod_mul by lia. apply Z.lor_0_l.
Qed.

(** A proposal answers to one identifier. *)
Definition offer_reply o (x : Z) : Prop := ∀ e i, carries o e → entry_reply e i → i = x.

Lemma session_context_id x session : ReplyID (session_context x session) = x.
Proof. unfold session_context. by case_decide. Qed.
Lemma data_reply x req : ReplyID (Context_ req) = x → offer_reply (OfferData (marshal req)) x.
Proof.
  intros <- e i [Ht Hd] [(_ & _ & req' & Hu & <-)|(Ht' & _)]; [|by rewrite Ht in Ht'].
  rewrite Hd, unmarshal_marshal in Hu. by injection Hu as <-.
Qed.
Lemma change_reply x session ty g a promote : offer_reply (OfferChange (EncodeClusterConfigurationChange x session ty g a promote)) x.
Proof.
  intros e i [Ht Hd] [(Ht' & _)|(_ & cc & req & Hp & <-)]; [by rewrite Ht in Ht'|]. unfold parseConfChangeEntry in Hp.
  rewrite Hd, unmarshal_marshal in Hp. cbn [EncodeClusterConfigurationChange cc_Context] in Hp. rewrite unmarshal_marshal in Hp.
  case_decide; [done|]. injection Hp as <- <-. apply session_context_id.
Qed.

Lemma run_call_submit outcome c call p p' r : run_call outcome c call p = Ret (p', r) →
  p' = p ∨ ∃ f : Z → offer, (∀ x, offer_reply (f x) x) ∧ submit outcome f p = Ret (p', r).
Proof.
  assert (∀ session ty a promote, change outcome c session ty a promote p = Ret (p', r) →
    p' = p ∨ ∃ f : Z → offer, (∀ x, offer_reply (f x) x) ∧ submit outcome f p = Ret (p', r)) as Hch.
  { intros session ty a promote E. right. eexists. split; [|exact E]. intros x. apply change_reply. }
  destruct call as [|sid|session log|peer addrs|refuse session a|refuse session peer|refuse session a|refuse session a|ready session peer]; simpl; intros E.
  1-4: right; eexists; split; [|exact E]; intros x; apply data_reply; try done; apply session_context_id.
  - unfold AddVotingPeer in E. destruct refuse; [left; congruence|]. destruct (IsLearner a); [left; congruence|]. by eapply Hch.
  - unfold RemovePeer in E. destruct refuse; [left; congruence|]. by eapply Hch.
  - unfold UpdatePeer in E. destruct refuse; [left; congruence|]. by eapply Hch.
  - unfold AddLearner in E. destruct refuse; [left; congruence|]. destruct (negb _); [left; congruence|]. by eapply Hch.
  - unfold PromoteLearner in E. destruct (Peer_ peer c); [|left; congruence]. destruct (negb _); [left; congruence|].
    destruct ready; [left; congruence|]. by eapply Hch.
Qed.

(** ** The invariant *)

(** A node replied [ar] to [x] when it applied the entry. *)
Definition gave e (x : Z) (ar : ApplyResult (response A)) : Prop :=
  ∃ st (n n' : Node A M SM RN), entry_of st = e ∧ run_step clock bsm st n = Ret n' ∧ replies n' = replies n ++ [(x, ar)].

(** The [c]-th channel is for the [c]-th proposal. *)
Record proposer_inv (peerID seed : Z) (k : nat) (log : list Entry) p : Prop := {
  ps_ids : ∃ j, 0 <= j <= Z.of_nat k ∧ po_gen p = {| seqNum := u64 (seed + j); ri_peerID := Z.land peerID memberBitsMask |} ∧
    ∀ x o, (x, o) ∈ po_offered p → offer_reply o x ∧ ∃ y, 0 < y <= j ∧ x = nth_id peerID seed y;
  ps_once : NoDup (po_offered p).*1;
  ps_chans : length (chans (po_replier p)) = length (po_offered p);
  ps_table x c : results (po_replier p) !! x = Some c → ∃ o, po_offered p !! c = Some (x, o) ∧ chans (po_replier p) !! c = Some new_chan;
  ps_answer c ch ar : chans (po_replier p) !! c = Some ch → ch_buf ch = Some ar →
    ∃ x o e, po_offered p !! c = Some (x, o) ∧ e ∈ log ∧ carries o e ∧ gave e x ar
}.

Lemma proposer_inv_mono peerID seed k k' log log' p :
  (k <= k')%nat → log ⊆ log' → proposer_inv peerID seed k log p → proposer_inv peerID seed k' log' p.
Proof.
  intros Hk Hl [(j & Hj & Hg & Hids) Ho Hc Ht Ha]. constructor; try done.
  - exists j. split_and!; [lia..|done|done].
  - intros c ch ar Hch Hb. destruct (Ha c ch ar Hch Hb) as (x & o & e & ? & ? & ? & ?). exists x, o, e. split_and!; [done|by apply Hl|done|done].
Qed.

Lemma submit_inv peerID seed k log outcome (f : Z → offer) p p' r :
  Z.of_nat k < 2 ^ 51 - 1 → (∀ x, offer_reply (f x) x) → proposer_inv peerID seed k log p → submit outcome f p = Ret (p', r) →
  proposer_inv peerID seed (S k) log p'.
Proof.
  intros Hk Ho [(j & Hj & Hg & Hids) Hn Hc Ht Ha] E. unfold submit, next_id in E. rewrite Hg, Next_nth in E. unfold propose, AcquireResultChan in E. simpl in E.
  set (x := nth_id peerID seed (j + 1)) in *.
  assert (∀ o', (x, o') ∉ po_offered p) as Hfresh.
  { intros o' Hin. destruct (Hids _ _ Hin) as (_ & y & Hy & Ey). symmetry in Ey. apply nth_id_inj in Ey; lia. }
  assert (results (po_replier p) !! x = None) as Hnone.
  { apply eq_None_not_Some. intros [c Hx]. destruct (Ht _ _ Hx) as (o' & Hin & _). by eapply Hfresh, list_elem_of_lookup_2. }
  rewrite Hnone in E. set (rep := {| results := <[x := _]> _ |}) in E.
  assert (∃ t, p' = {| po_gen := {| seqNum := u64 (seed + (j + 1)); ri_peerID := Z.land peerID memberBitsMask |};
    po_replier := {| results := t; chans := chans (po_replier p) ++ [new_chan] |}; po_offered := po_offered p ++ [(x, f x)] |} ∧
    (t = <[x := length (chans (po_replier p))]> (results (po_replier p)) ∨ t = delete x (results rep))) as (t & -> & Hres).
  { destruct outcome as [err|]; injection E as <- _; eexists; (split; [done|]); [by right|by left]. }
  assert (∀ y c, t !! y = Some c → (y = x ∧ c = length (chans (po_replier p))) ∨ results (po_replier p) !! y = Some c) as Hres'.
  { intros y c Hy. destruct Hres as [-> | ->].
    - apply lookup_insert_Some in Hy as [[<- <-]|[_ ?]]; [by left|by right].
    - unfold rep in Hy. cbn [results] in Hy. apply lookup_delete_Some in Hy as [_ [[<- <-]|[_ ?]]%lookup_insert_Some]; [by left|by right]. }
  constructor; simpl.
  - exists (j + 1). split_and!; [lia..|done|]. intros y o' [Hin|[= -> ->]%list_elem_of_singleton]%elem_of_app.
    + destruct (Hids _ _ Hin) as (? & z & ? & ->). split; [done|]. exists z. split; [lia|done].
    + split; [done|]. exists (j + 1). split; [lia|done].
  - rewrite fmap_app. apply NoDup_app. split_and!; [done| |apply NoDup_singleton].
    intros y ([y' o'] & -> & Hin)%list_elem_of_fmap. simpl. intros ->%list_elem_of_singleton. by apply (Hfresh o').
  - rewrite !length_app. simpl. lia.
  - intros y c Hy. destruct (Hres' y c Hy) as [[-> ->]|Hy'].
    + exists (f x). rewrite Hc at 1. by rewrite !lookup_app_r, !Nat.sub_diag by lia.
    + destruct (Ht _ _ Hy') as (o' & ? & ?). exists o'. split; by apply lookup_app_l_Some.
  - intros c ch ar [Hch|[_ Hch]]%lookup_app_Some Hb.
    + destruct (Ha c ch ar Hch Hb) as (y & o' & e & ? & ?). exists y, o', e. split; [by apply lookup_app_l_Some|done].
    + apply list_lookup_singleton_Some in Hch as [_ <-]. done.
Qed.

Lemma wait_inv peerID seed k log choice res res' r ar p :
  proposer_inv peerID seed k log p → WaitForApplyResult choice res (po_replier p) = Ret (Some (res', r, ar)) →
  proposer_inv peerID seed k log (set_replier r p).
Proof.
  intros Hp E. assert (r = po_replier p ∨ ∃ c, receive noResult c (po_replier p) = Some (r, ar)) as [->|[c Hr]].
  { unfold WaitForApplyResult in E. repeat (case_match; simplify_eq/=; try by left). right. by eexists. }
  { destruct Hp. by constructor. }
  unfold receive in Hr. destruct (chans (po_replier p) !! c) as [ch|] eqn:Ec; [|done]. cbn [mbind option_bind] in Hr.
  destruct (ch_buf ch) as [v|] eqn:Eb; [|destruct (ch_closed ch); [|done]; injection Hr as <- _; destruct Hp; by constructor].
  injection Hr as <- _. destruct Hp as [Hids Hn Hc Ht Ha]. constructor; simpl; [done|done|by rewrite length_insert| |].
  - intros x c' Hx. destruct (Ht x c' Hx) as (o & Ho & Hc'). exists o. split; [done|]. rewrite list_lookup_insert_ne; [done|]. intros ->. rewrite Ec in Hc'. by injection Hc' as ->.
  - intros c' ch' ar' [(<- & <- & _)|[Hne Hc']]%list_lookup_insert_Some Hb; [done|]. by eapply Ha.
Qed.

Lemma cancel_inv peerID seed k log x p : proposer_inv peerID seed k log p → proposer_inv peerID seed k log (set_replier (CancelResult x (po_replier p)) p).
Proof. intros [Hids Hn Hc Ht Ha]. constructor; simpl; try done. intros y c [_ Hy]%lookup_delete_Some. by apply Ht. Qed.

Lemma send_inv peerID seed k log e x ar p :
  proposer_inv peerID seed k log p → e ∈ log → gave e x ar → (∀ c o, po_offered p !! c = Some (x, o) → carries o e) →
  ∃ p', answer_all [(x, ar)] p = Ret p' ∧ proposer_inv peerID seed k log p' ∧ po_offered p' = po_offered p.
Proof.
  intros Hp He Hg Hown. destruct Hp as [Hids Hn Hc Ht Ha]. unfold answer_all. cbn [foldl mbind go_bind]. unfold SendResult.
  destruct (results (po_replier p) !! x) as [c|] eqn:Ex; [|eexists; split_and!; [done|by constructor|done]].
  destruct (Ht x c Ex) as (o & Ho & Hch). rewrite Hch. cbn [ch_closed ch_buf new_chan mbind go_bind]. eexists. split_and!; [done| |done].
  constructor; simpl; [done|done|by rewrite length_insert| |].
  - intros y c' [Hne Hy]%lookup_delete_Some. destruct (Ht y c' Hy) as (o' & Ho' & Hc'). exists o'. split; [done|].
    rewrite list_lookup_insert_ne; [done|]. intros ->. congruence.
  - intros c' ch ar' [(<- & <- & _)|[_ Hc']]%list_lookup_insert_Some Hb; [|by eapply Ha]. injection Hb as <-.
    exists x, o, e. split_and!; [done|done|by eapply Hown|done].
Qed.

Record sys_inv (l : list (Z * Z * Node A M SM RN)) (k : nat) s : Prop := {
  sv_nodes i p n : sy_nodes s !! i = Some (p, n) → ∃ peerID seed n0, l !! i = Some (peerID, seed, n0) ∧ proposer_inv peerID seed k (sy_log s) p;
  sv_log e : e ∈ sy_log s → (e_type e = EntryNormal ∧ e_data e = []) ∨
    ∃ i p n x o, sy_nodes s !! i = Some (p, n) ∧ (x, o) ∈ po_offered p ∧ carries o e
}.

(** The members can be told apart by their identifiers. *)
Definition apart (l : list (Z * Z * Node A M SM RN)) : Prop := NoDup ((fun '(peerID, _, _) => Z.land peerID memberBitsMask) <$> l).

Lemma own_entry l k s i p n e x c o :
  apart l → sys_inv l k s → sy_nodes s !! i = Some (p, n) → e ∈ sy_log s → entry_reply e x → po_offered p !! c = Some (x, o) → carries o e.
Proof.
  intros Hap [Hnodes Hlog] Hi He Hr Hc. destruct (Hlog e He) as [[Ht Hd]|(j & p' & n' & x' & o' & Hj & Ho' & Hcar)].
  { by destruct Hr as [(_ & ? & _)|[Ht' _]]; [|rewrite Ht in Ht']. }
  destruct (Hnodes _ _ _ Hi) as (pid & seed & n0 & Hl & Hp), (Hnodes _ _ _ Hj) as (pid' & seed' & n0' & Hl' & Hp').
  destruct (ps_ids _ _ _ _ _ Hp) as (b & _ & _ & Hids), (ps_ids _ _ _ _ _ Hp') as (b' & _ & _ & Hids').
  destruct (Hids _ _ (list_elem_of_lookup_2 _ _ _ Hc)) as (_ & y & _ & Ey), (Hids' _ _ Ho') as (Hrep & y' & _ & Ey').
  assert (x' = x) as Ex by (symmetry; by eapply Hrep). rewrite Ex in Ey', Ho'. assert (i = j) as <-.
  { apply (NoDup_lookup _ _ _ (Z.land pid memberBitsMask) Hap); rewrite list_lookup_fmap; [by rewrite Hl|]. rewrite Hl'. simpl. f_equal.
    rewrite <- (nth_id_low pid' seed' y'), <- Ey', Ey. apply nth_id_low. }
  rewrite Hi in Hj. injection Hj as <- <-. apply list_elem_of_lookup in Ho' as [c' Hc'].
  assert (c = c') as <-; [|congruence]. apply (NoDup_lookup _ _ _ x (ps_once _ _ _ _ _ Hp)); rewrite list_lookup_fmap; [by rewrite Hc|by rewrite Hc'].
Qed.

(** Applying an entry leaves no reply behind. *)
Lemma apply_answers l k s i p n st n' :
  apart l → sys_inv l k s → sy_nodes s !! i = Some (p, n) → entry_of st ∈ sy_log s → run_step clock bsm st n = Ret n' →
  ∃ p', answer_all (drop (length (replies n)) (replies n')) p = Ret p' ∧ po_offered p' = po_offered p ∧
    ∀ peerID seed, proposer_inv peerID seed k (sy_log s) p → proposer_inv peerID seed k (sy_log s) p'.
Proof.
  intros Hap Hinv Hi He Hst. destruct (step_replies st n n' Hst) as [Hr|(x & ar & Hr & Hx)]; rewrite Hr.
  - rewrite drop_all. exists (set_replier (po_replier p) p). split_and!; [done|done|]. intros pid seed []. by constructor.
  - rewrite drop_app_length. destruct (sv_nodes _ _ _ Hinv _ _ _ Hi) as (pid & seed & n0 & _ & Hp).
    destruct (send_inv pid seed k (sy_log s) (entry_of st) x ar p Hp He) as (p' & Hs & Hp' & Ho); [by exists st, n, n'|intros c o Hc; by eapply own_entry|].
    exists p'. split_and!; [done|done|]. intros pid2 seed2 Hp2.
    destruct (send_inv pid2 seed2 k (sy_log s) (entry_of st) x ar p Hp2 He) as (p2 & Hs2 & ? & _); [by exists st, n, n'|intros c o Hc; by eapply own_entry|].
    congruence.
Qed.

Lemma set_node_inv l k k' s i p p' n n' :
  (k <= k')%nat → sys_inv l k s → sy_nodes s !! i = Some (p, n) → po_offered p ⊆ po_offered p' →
  (∀ peerID seed, proposer_inv peerID seed k (sy_log s) p → proposer_inv peerID seed k' (sy_log s) p') → sys_inv l k' (set_node i p' n' s).
Proof.
  intros Hk [Hnodes Hlog] Hi Ho Hp. constructor; simpl.
  - intros j q m [(<- & [= <- <-] & _)|[_ Hj]]%list_lookup_insert_Some.
    + destruct (Hnodes _ _ _ Hi) as (pid & seed & n0 & Hl & Hq). exists pid, seed, n0. split; [done|by apply Hp].
    + destruct (Hnodes _ _ _ Hj) as (pid & seed & n0 & Hl & Hq). exists pid, seed, n0. split; [done|by eapply proposer_inv_mono].
  - intros e [?|(j & q & m & x & o & Hj & Hin & Hc)]%Hlog; [by left|right]. destruct (decide (i = j)) as [<-|Hne].
    + rewrite Hi in Hj. injection Hj as <- <-. exists i, p', n', x, o. split_and!; [|by apply Ho|done].
      rewrite list_lookup_insert_eq; [done|]. by eapply lookup_lt_Some.
    + exists j, q, m, x, o. by rewrite list_lookup_insert_ne.
Qed.

Lemma commit_inv l k s e :
  sys_inv l k s → ((e_type e = EntryNormal ∧ e_data e = []) ∨ ∃ i p n x o, sy_nodes s !! i = Some (p, n) ∧ (x, o) ∈ po_offered p ∧ carries o e) →
  sys_inv l (S k) (commit e s).
Proof.
  intros [Hnodes Hlog] He. constructor; simpl.
  - intros i p n Hi. destruct (Hnodes _ _ _ Hi) as (pid & seed & n0 & ? & Hp). exists pid, seed, n0. split; [done|].
    eapply proposer_inv_mono; [|apply list_subseteq_app_l; reflexivity|done]. lia.
  - intros e' [?| ->%list_elem_of_singleton]%elem_of_app; [by apply Hlog|done].
Qed.

Lemma sys_step_inv l k s s' : apart l → Z.of_nat k < 2 ^ 51 - 1 → sys_inv l k s → sys_step s s' → sys_inv l (S k) s'.
Proof.
  intros Hap Hk Hinv Hst. destruct Hst as [i p n call outcome p' r Hi Hc|i p n x o e Hi Ho Hc|e Ht Hd|i p n st n' p' Hi He Hr Ha|i p n choice res res' r ar Hi Hw|i p n x Hi].
  - apply run_call_submit in Hc as [->|(f & Hf & Hs)]; (eapply set_node_inv; [|exact Hinv|exact Hi|..]; [lia|..]).
    + done.
    + intros pid seed Hp. eapply proposer_inv_mono; [|done|done]. lia.
    + unfold submit, next_id, propose in Hs. destruct (Next _) as [g y]. simpl in Hs. unfold AcquireResultChan in Hs.
      destruct (results _ !! y); [by injection Hs as <- _|]. destruct outcome; injection Hs as <- _; simpl; apply list_subseteq_app_l; reflexivity.
    + intros pid seed Hp. by eapply submit_inv.
  - apply commit_inv; [done|]. right. by exists i, p, n, x, o.
  - apply commit_inv; [done|]. by left.
  - destruct (apply_answers l k s i p n st n') as (q & Hq & Ho & Hp); [done..|]. rewrite Ha in Hq. injection Hq as <-.
    eapply set_node_inv; [|exact Hinv|exact Hi|by rewrite Ho|]; [lia|]. intros pid seed Hpi. eapply proposer_inv_mono; [|done|by apply Hp]. lia.
  - eapply set_node_inv; [|exact Hinv|exact Hi|done|]; [lia|]. intros pid seed Hp. eapply proposer_inv_mono; [|done|by eapply wait_inv]. lia.
  - eapply set_node_inv; [|exact Hinv|exact Hi|done|]; [lia|]. intros pid seed Hp. eapply proposer_inv_mono; [|done|by apply cancel_inv]. lia.
Qed.

Lemma sys_init_inv l : (∀ peerID seed n, (peerID, seed, n) ∈ l → is_u64 seed) → sys_inv l 0 (init l).
Proof.
  intros Hs. constructor; simpl; [|by intros e ?%elem_of_nil]. intros i p n Hi. rewrite list_lookup_fmap in Hi.
  destruct (l !! i) as [[[pid seed] n0]|] eqn:El; [|done]. simpl in Hi. injection Hi as <- <-. exists pid, seed, n0. split; [done|].
  constructor; simpl; [|constructor|done|done|done]. exists 0. split_and!; [lia..| |by intros x o ?%elem_of_nil].
  unfold New. rewrite Z.add_0_r, u64_small; [done|]. eapply Hs. by eapply list_elem_of_lookup_2.
Qed.

Lemma run_inv l k s : apart l → (∀ peerID seed n, (peerID, seed, n) ∈ l → is_u64 seed) → Z.of_nat k < 2 ^ 51 - 1 →
  nsteps sys_step k (init l) s → sys_inv l k s.
Proof.
  intros Hap Hs Hk Hn. assert (∀ j s1, nsteps sys_step k s1 s → sys_inv l j s1 → Z.of_nat (j + k) < 2 ^ 51 - 1 → sys_inv l (j + k) s) as Hgo.
  { clear Hn Hk. induction k as [|k IH]; intros j s1 Hn Hi Hk; [inversion Hn; subst; by rewrite Nat.add_0_r|].
    inversion Hn as [|? ? s2 ? Hst Hn2]; subst. rewrite <- Nat.add_succ_comm. eapply IH; [done|by eapply sys_step_inv; [| |exact Hi|]; [|lia|]|lia]. }
  apply (Hgo 0%nat _ Hn); [by apply sys_init_inv|lia].
Qed.
End System.

(** C10: every caller gets the answer to its own request.  In a cluster whose members differ in
    the part of their identifiers that goes into a request, after any fewer than 2^51 - 1 calls,
    commits, applied entries, waits and cancellations at any of the members: a result that
    lies in the channel of a call was given by a node when it applied an entry that is this
    very request; and a node that applies an entry can always send the result, without
    blocking and without a panic. *)
Theorem answers_own_request {A M SM RN} `{SessionManager (response A) M, StateMachine A SM, RaftNode RN}
    `{Message NormalRequest, Message ConfChange, Message ConfChangeRequest} clock bsm (l : list (Z * Z * Node A M SM RN)) k s :
  apart l → (∀ peerID seed n, (peerID, seed, n) ∈ l → is_u64 seed) → Z.of_nat k < 2 ^ 51 - 1 → nsteps (sys_step clock bsm) k (init l) s →
  ∀ i p n, sy_nodes s !! i = Some (p, n) →
    (∀ c ch ar, chans (po_replier p) !! c = Some ch → ch_buf ch = Some ar →
       ∃ x o e, po_offered p !! c = Some (x, o) ∧ e ∈ sy_log s ∧ carries o e ∧ gave (SM := SM) (RN := RN) (M := M) clock bsm e x ar) ∧
    (∀ st n', entry_of st ∈ sy_log s → run_step clock bsm st n = Ret n' → ∃ p', answer_all (drop (length (replies n)) (replies n')) p = Ret p').
Proof.
  intros Hap Hs Hk Hn i p n Hi. pose proof (run_inv clock bsm l k s Hap Hs Hk Hn) as Hinv. split.
  - destruct (sv_nodes _ _ _ _ _ Hinv _ _ _ Hi) as (pid & seed & n0 & _ & Hp). apply Hp.
  - intros st n' He Hst. destruct (apply_answers clock bsm l k s i p n st n') as (p' & E & _); [done..|]. by exists p'.
Qed.

(** ** Members that cannot be told apart *)

Section Strangers.
Context {A SM RN : Type} `{StateMachine A SM, RaftNode RN}.
Context `{Message NormalRequest, Message ConfChange, Message ConfChangeRequest}.
Context (clock : nat → Z) (bsm : BasedStateMachineInfo).
Abbreviation node := (Node A NoOpManager.NoOpManager SM RN).

Definition no_session : ClientSession := {| cs_SessionID := 0; SequenceNumber := 0; LowestSequenceNumberNotYetReplied := 0 |}.

(** A command without a session is applied and answered. *)
Lemma command_answered term index x log (n : node) :
  openAppliedIndex bsm < index → marshal (ProposedLog_request x no_session log) ≠ [] →
  ∃ n', run_step clock bsm (Norm {| e_term := term; e_index := index; e_type := EntryNormal; e_data := EncodeProposedLog x no_session log |}) n = Ret n' ∧
    replies n' = replies n ++ [(x, (sm_Apply term index log (machine n)).2)].
Proof.
  intros Ho Hne. simpl. unfold applyEntry, EncodeProposedLog. cbn [e_data e_type e_index e_term].
  rewrite decide_False by (by intros E%nil_length_inv). rewrite decide_True, decide_False by (done || lia).
  unfold ApplyNormalEntry. cbn [e_data]. rewrite unmarshal_marshal. cbn. destruct (sm_Apply term index log (machine n)) as [m ar] eqn:E.
  eexists. split; [done|]. done.
Qed.

(** The first call at a member, and the same after it was answered. *)
Definition called (peerID seed : Z) (log : list byte) : Proposer (response A) :=
  let '(g, x) := Next (New peerID seed) in
  {| po_gen := g; po_replier := {| results := {[x := 0%nat]}; chans := [new_chan] |};
     po_offered := [(x, OfferData (EncodeProposedLog x no_session log))] |}.
Definition answered (ar : ApplyResult (response A)) (p : Proposer (response A)) : Proposer (response A) :=
  set_replier {| results := ∅; chans := [{| ch_buf := Some ar; ch_closed := true |}] |} p.

Lemma called_offered peerID seed log x : (Next (New peerID seed)).2 = x →
  po_offered (called peerID seed log) = [(x, OfferData (EncodeProposedLog x no_session log))].
Proof. unfold called. destruct (Next _) as [g y]. by intros <-. Qed.

Lemma first_call c peerID seed log :
  run_call None c (CallPropose no_session log) (newProposer peerID seed) = Ret (called peerID seed log, NewProposalResult 0).
Proof. simpl. unfold Propose, submit, next_id, called. cbn [po_gen newProposer]. by destruct (Next _) as [g x]. Qed.

Lemma first_answer peerID seed log x ar : (Next (New peerID seed)).2 = x →
  answer_all [(x, ar)] (called peerID seed log) = Ret (answered ar (called peerID seed log)).
Proof.
  unfold called. destruct (Next _) as [g y]. intros <-. unfold answer_all. cbn [foldl mbind go_bind]. unfold SendResult. cbn [po_replier results chans snd].
  rewrite lookup_singleton_eq. cbn. unfold answered, set_replier. cbn. do 3 f_equal. apply delete_singleton_eq.
Qed.
End Strangers.

(** Members whose identifiers differ only above the twelfth bit answer each other's
    callers.  When the generators of two such members have the same seed, as those of a node
    before and after a restart may, a call at the one can get the result of a command called
    at the other. *)
Theorem strangers_answered {A SM RN} `{StateMachine A SM, RaftNode RN} `{Message NormalRequest, Message ConfChange, Message ConfChangeRequest}
    clock bsm peer1 peer2 seed log1 log2 (n1 n2 : Node A NoOpManager.NoOpManager SM RN) :
  Z.land peer1 memberBitsMask = Z.land peer2 memberBitsMask → openAppliedIndex bsm < 1 →
  (∀ x, marshal (ProposedLog_request x no_session log2) ≠ []) →
  ∃ s p n x, rtc (sys_step clock bsm) (init [(peer1, seed, n1); (peer2, seed, n2)]) s ∧ sy_nodes s !! 0%nat = Some (p, n) ∧
    po_offered p !! 0%nat = Some (x, OfferData (EncodeProposedLog x no_session log1)) ∧
    chans (po_replier p) !! 0%nat = Some {| ch_buf := Some (sm_Apply 1 1 log2 (machine n1)).2; ch_closed := true |}.
Proof.
  intros Hlow Hopen Hne. set (s0 := init _). set (x := (Next (New peer1 seed)).2).
  assert ((Next (New peer2 seed)).2 = x) as Hx by (unfold x, New; by rewrite Hlow).
  set (e := {| e_term := 1; e_index := 1; e_type := EntryNormal; e_data := EncodeProposedLog x no_session log2 |}).
  destruct (command_answered clock bsm 1 1 x log2 n1 Hopen (Hne x)) as (n1' & Hrun & Hrep). fold e in Hrun.
  set (ar := (sm_Apply 1 1 log2 (machine n1)).2) in *. set (p1 := called (A := A) peer1 seed log1). set (p2 := called (A := A) peer2 seed log2).
  set (s1 := set_node 0 p1 n1 s0). set (s2 := set_node 1 p2 n2 s1).
  exists (set_node 0 (answered ar p1) n1' (commit e s2)), (answered ar p1), n1', x. split.
  - eapply rtc_l; [exact (ss_call clock bsm s0 0 _ n1 _ None p1 _ eq_refl (first_call _ peer1 seed log1))|].
    eapply rtc_l; [exact (ss_call clock bsm s1 1 _ n2 _ None p2 _ eq_refl (first_call _ peer2 seed log2))|].
    eapply rtc_l; [apply (ss_commit clock bsm s2 1 p2 n2 x (OfferData (EncodeProposedLog x no_session log2)) e eq_refl); [|done]|].
    { unfold p2. rewrite (called_offered peer2 seed log2 x Hx). by left. }
    apply rtc_once. apply (ss_apply clock bsm (commit e s2) 0 p1 n1 (Norm e) n1' _ eq_refl); [by apply elem_of_app; right; left|done|].
    rewrite Hrep, drop_app_length. by apply first_answer.
  - split; [done|]. split; [|done]. cbn [answered set_replier po_offered]. unfold p1. by rewrite (called_offered peer1 seed log1 x eq_refl).
Qed.
