(* ===== verification/AnswersExamples.v ===== *)
(** * Callers and their answers: examples

    The theorems of [Answers.v] on a cluster of two members without sessions. *)

From S2P Require Import Prelude Coded Session NoOpManager Cluster LinearRead Apply Exactly ApplyExamples Proposals Raftpb Answers.

Module AnswersExamples.
Import NodeExamples.

Definition idle : Node nat NoOpManager.NoOpManager (list (list byte)) RaftSets := NodeExamples.node NoOpManager.noOpManager [].
Definition two : list (Z * Z * Node nat NoOpManager.NoOpManager (list (list byte)) RaftSets) := [(1, 500, idle); (2, 500, idle)].

Lemma some_bytes x log : marshal (ProposedLog_request x no_session log) ≠ [].
Proof.
  intros E. apply (f_equal (unmarshal (T := NormalRequest))) in E. rewrite unmarshal_marshal in E. vm_compute in E. done.
Qed.

(** Member 1 proposes a command, which is committed and applied. *)
Lemma answers_own_request_witness :
  ∃ s p n ar x o e, nsteps (sys_step still memory) 3 (init two) s ∧ sy_nodes s !! 0%nat = Some (p, n) ∧
    chans (po_replier p) !! 0%nat = Some {| ch_buf := Some ar; ch_closed := true |} ∧
    po_offered p !! 0%nat = Some (x, o) ∧ e ∈ sy_log s ∧ carries o e ∧
    gave (M := NoOpManager.NoOpManager) (SM := list (list byte)) (RN := RaftSets) still memory e x ar.
Proof.
  set (x := (Next (New 1 500)).2). set (p := called (A := nat) 1 500 [Byte.x41]).
  set (e := {| e_term := 1; e_index := 1; e_type := EntryNormal; e_data := EncodeProposedLog x no_session [Byte.x41] |}).
  destruct (command_answered still memory 1 1 x [Byte.x41] idle) as (n' & Hrun & Hrep); [done|apply some_bytes|]. fold e in Hrun.
  set (ar := (sm_Apply 1 1 [Byte.x41] (machine idle)).2) in *. set (s1 := set_node 0 p idle (init two)).
  set (s := set_node 0 (answered ar p) n' (commit e s1)).
  assert (nsteps (sys_step still memory) 3 (init two) s) as Hs.
  { eapply nsteps_l; [exact (ss_call still memory (init two) 0 _ idle _ None p _ eq_refl (first_call _ 1 500 [Byte.x41]))|].
    eapply nsteps_l; [apply (ss_commit still memory s1 0 p idle x (OfferData (EncodeProposedLog x no_session [Byte.x41])) e eq_refl); [|done]|].
    { unfold p. rewrite (called_offered 1 500 [Byte.x41] x eq_refl). by left. }
    eapply nsteps_l; [|constructor]. apply (ss_apply still memory (commit e s1) 0 p idle (Norm e) n' _ eq_refl); [by left|done|].
    rewrite Hrep, drop_app_length. by apply first_answer. }
  destruct (answers_own_request still memory two 3 s) with (i := 0%nat) (p := answered ar p) (n := n') as [Hown _].
  - apply (bool_decide_unpack (NoDup [1; 2])). done.
  - intros peer seed n Hin. unfold two in Hin. rewrite !elem_of_cons, elem_of_nil in Hin. by destruct Hin as [[= -> -> _]|[[= -> -> _]|[]]].
  - done.
  - exact Hs.
  - done.
  - destruct (Hown 0%nat _ ar eq_refl eq_refl) as (y & o & e' & Ho & He & Hc & Hg). exists s, (answered ar p), n', ar, y, o, e'. by split_and!.
Defined.

(** The identifiers 1 and 4097 are the same in twelve bits. *)
Lemma strangers_answered_witness :
  ∃ s p n x, rtc (sys_step still memory) (init [(1, 500, idle); (4097, 500, idle)]) s ∧ sy_nodes s !! 0%nat = Some (p, n) ∧
    po_offered p !! 0%nat = Some (x, OfferData (EncodeProposedLog x no_session [Byte.x41])) ∧
    chans (po_replier p) !! 0%nat = Some {| ch_buf := Some (sm_Apply 1 1 [Byte.x42] (machine idle)).2; ch_closed := true |}.
Proof. apply (strangers_answered still memory 1 4097 500 [Byte.x41] [Byte.x42] idle idle); [done|done|]. intros x. apply some_bytes. Defined.
End AnswersExamples.
